(* ===== verification/_CoqProject ===== *)
-Q . S2P
Prelude.v
Locations.v
CacheRanges.v
CacheStore.v
FetchIterator.v
FetchWriteback.v
CacheFetch.v
FetchTheorems.v
CacheInvariant.v
CacheOperations.v
CacheWrites.v
CacheWritebacks.v
CacheSystem.v
CacheRetention.v
CacheExamples.v
FetchExamples.v
NamespaceTree.v
NamespaceWalk.v
PropertyRanking.v
RankingOrder.v
RankingInvariant.v
RankingSelection.v
RankingExamples.v
ServiceMatcher.v
ConfigData.v
ConfigResolver.v
ConfigTheorems.v
ConfigExamples.v
SubscriptionRegistry.v
Relay.v
RelaySystem.v
RelayExamples.v
TopNFilter.v
BpfSteering.v
Upstream.v
WeiDetector.v
WeiInvariant.v
WeiTheorems.v
SbdDetector.v
SbdGroups.v
SbdDc.v
SbdIntervals.v
SbdLoss.v
SbdService.v
WeiObserver.v
SbdObserver.v
SbdObserverTheorems.v
SbdObserverExamples.v
SbdExamples.v
CrossExec.v
CrossExecSystem.v
CrossExecTheorems.v
CrossExecExamples.v
ClientMetrics.v
MetricsTheorems.v
MetricsEligibility.v
MetricsObserver.v
MetricsExamples.v
Json.v
StateHandler.v
StateExamples.v
MetricsHandler.v
Stats.v
StatsTheorems.v
StatsExamples.v
RelayContext.v
