(* ===== verification/Prelude.v ===== *)
(** * moqx: a verification development

    moqx is a relay for Media over QUIC Transport (MoQT), written in C++ on the
    moxygen, folly and proxygen libraries.  Publishers announce namespaces and
    publish tracks, subscribers subscribe to tracks, to namespaces or to a
    ranked selection of tracks, and fetch past objects.  This library models
    the program's own code and proves what makes it correct.

    ** The parts of the program and how they interact

    A configuration is validated and resolved ([ConfigResolver]); the services
    it declares are matched against the authority and path of a session
    ([ServiceMatcher]), which selects a [MoqxRelay].  The relay keeps a tree
    of announced namespaces and namespace subscriptions ([NamespaceTree]) and
    a registry of tracks with one upstream subscription each
    ([SubscriptionRegistry]); tracks without a local publisher come from the
    upstream relay ([UpstreamProvider]).  Objects pass through a chain of
    filters: [TopNFilter] observes a property value and feeds
    [PropertyRanking], which selects tracks for its subscribers; [MoqxCache]
    stores the objects and serves fetches from them.  [sbd] watches the packets
    of the connections and groups those that share a bottleneck.  A BPF filter
    steers packets of a connection to the thread that owns it.  Calls that
    cross threads go through [CrossExecFilter].  [MoqxRelayContext] routes the
    sessions and keeps them by connection id; [ClientNetworkMetricsStore]
    holds what the transport reports of each connection and tells [sbd] which
    connections are viewers; collectors count events per thread for the
    statistics.  The admin server writes the state and the metrics as JSON.

    ** Files

    - [Prelude]: machine integers, iteration with a bound, lemmas on lists,
      options, sorted lists and finite maps, tactics and hints.
    - [Locations]: the interfaces [LocationOps]/[LocationLaws] and
      [IntervalOps]/[IntervalLaws] of moxygen's [AbsoluteLocation] and
      [LocationIntervalSet], and an implementation of each that satisfies the
      laws.
    - The cache, [src/src/MoqxCache.{h,cpp}].  [CacheRanges]: the file-local
      range functions.  [CacheStore]: tracks, groups, objects, the LRU lists and
      eviction.  [CacheInvariant], [CacheOperations], [CacheWrites],
      [CacheWritebacks]: the invariant and its preservation.  [CacheSystem]: the
      cache with the writebacks its clients hold as a transition system.
      [CacheRetention]: objects of an open subgroup stay.
      [FetchIterator], [FetchWriteback], [CacheFetch]: the iterator, the
      writeback and the coroutines of a fetch; [FetchTheorems].
      [CacheExamples], [FetchExamples]: concrete runs.
    - [NamespaceTree], [NamespaceWalk]: [src/src/NamespaceTree.{h,cpp}].
    - [PropertyRanking] models [src/src/relay/PropertyRanking.{h,cpp}];
      [RankingOrder], [RankingInvariant], [RankingSelection] hold its theorems,
      [RankingExamples] its runs.
    - [TopNFilter]: [src/src/relay/TopNFilter.{h,cpp}].
    - [ServiceMatcher]: [src/src/ServiceMatcher.{h,cpp}].
    - [ConfigData] ([config/Config.h], [config/ResolvedConfig.h],
      [config/loader/ParsedConfig.h]), [ConfigResolver]
      ([config/ConfigResolver.cpp]), [ConfigTheorems], [ConfigExamples].
    - [SubscriptionRegistry]: [src/src/SubscriptionRegistry.{h,cpp}].
    - [Relay]: the handlers of [src/src/MoqxRelay.{h,cpp}]; [RelaySystem]: the
      handlers as a transition system; [RelayExamples].
    - [Upstream]: [src/src/UpstreamProvider.{h,cpp}].
    - [BpfSteering]: [src/src/bpf/QuicReuseportSteering.cpp].
    - Shared bottlenecks, [src/src/sbd]: [WeiDetector], [WeiInvariant],
      [WeiTheorems] ([WeiDetector.{h,cpp}]); [SbdDetector], [SbdGroups]
      ([Detector.{h,cpp}]); [SbdDc] ([DcSbd.{h,cpp}]); [SbdIntervals],
      [SbdLoss] ([ReceiveIntervals.{h,cpp}]); [SbdService] ([Service.{h,cpp}],
      [VideoStart.h]); [SbdExamples]; [SbdObserver], [SbdObserverTheorems],
      [SbdObserverExamples] ([Observer.{h,cpp}], the observer of a connection
      with its timer, and the service it feeds); [WeiObserver]
      ([WeiObserver.{h,cpp}]).
    - Calls between threads, [src/src/relay/CrossExecFilter.{h,cpp}] and
      [SubgroupConsumerUtil.h]: [CrossExec]; [CrossExecSystem]: source thread
      and target executor as a transition system; [CrossExecTheorems],
      [CrossExecExamples].
    - Metrics of connections, [src/src/stats/ClientNetworkMetrics.{h,cpp}]:
      [ClientMetrics] (the store), [MetricsObserver] (the connection observer),
      [MetricsTheorems], [MetricsEligibility] (store and [sbd] service
      together), [MetricsExamples].
    - The admin server: [Json] ([admin/JsonWriter.h], with a reader as its
      specification), [StateHandler] ([admin/StateHandler.cpp] and the
      [dumpState] functions of the relay and of the context), [StateExamples],
      [MetricsHandler] ([admin/MetricsHandler.cpp], the network metrics).
    - [Stats] (the histograms, snapshots and collectors of [src/src/stats]),
      [StatsTheorems], [StatsExamples].
    - [RelayContext]: [src/src/MoqxRelayContext.{h,cpp}].

    ** How code becomes definitions

    One definition per function, named as in the source where that is
    possible.  Objects with state are records; shared objects live in heaps
    and are named by references when a claim depends on aliasing (tracks and
    groups of the cache, promises of the registry).  Operations pass the state
    explicitly; calls on code outside [src/] are outputs (effects, callbacks),
    and what such calls return is an argument.  A coroutine is split at its
    suspension points, and each segment is a step.  [None] stands for a failed
    [CHECK] or [XCHECK], a null dereference, the use of an erased iterator, a
    missing key in [at] or a loop that does not end, so that a theorem which
    says that a run is [Some] says that none of these happens.  Unsigned
    arithmetic that can wrap is written with [u64]; [double] arithmetic of the
    detectors is IEEE binary64 by [SpecFloat].  Hash maps are [gmap]s; where
    the code iterates over one, theorems hold for every order, the order is a
    parameter, or (traversals of the tree, the state dump) it is that of
    [map_to_list].

    ** What the theorems show

    - The cache: no sequence of operations inside the discipline [admissible]
      aborts, dereferences null or loops, the byte account is the sum of the
      cached payloads, the LRU lists hold exactly the evictable tracks and
      groups, byte-limit eviction takes exactly the least recently used groups
      that it must, and a rejected write keeps the objects ([CacheSystem]); an
      object stays, with its content, while the subgroup that wrote it is open
      ([CacheRetention]).  The discipline is narrower than what the protocol
      and the code accept: it excludes two open subgroups of one group at a
      time, purging a track with an open subgroup, ending the last subscription
      of a track before its subgroups, payload for an object that has expired
      in the meantime, and writes beyond a 64-bit byte count.
      [CacheExamples] shows what then fails: a shared group leaks bytes, a
      purge of an open track hangs the next eviction, late payload
      dereferences null.
    - Fetches: a range that is cached completely is served exactly, in order
      ([FetchTheorems]); the upstream intervals and the gaps of a miss are
      exact ([CacheRanges]).
    - The namespace tree refines a set of announcements and subscriptions, with
      exact child counts and pruning ([NamespaceTree.run_refines]).
    - The ranking: its invariant under every operation, the selection of every
      viewer and of every publisher-subscriber ([RankingInvariant],
      [RankingSelection]).
    - Matching and configuration: the best rule is found, a configuration is
      accepted iff it is valid, settings are the documented combination of
      defaults and overrides, and routing does not depend on iteration order.
    - Registry, relay and upstream: no handler fails in any interleaving of
      coroutine segments, no waiter is lost, subscribes reach the publisher,
      announcements and publishes reach exactly the interested subscribers, and
      the tree and the registry agree.
    - Shared bottlenecks: the Wei detector partitions the active connections
      and its watermark is exact; the ring-buffer estimator equals its
      reference definition; groups are disjoint, sorted and independent of the
      order of the flows; the loss ledger counts each packet once.  A
      connection is only grouped while its observer measures it, the intervals
      published follow on one another, and the timer is never lost
      ([SbdObserverTheorems]).
    - The BPF program computes the value of the bits it is meant to select.
    - Calls between threads: no lambda runs on a destroyed filter, the consumer
      gets the accepted calls in order and once each, finished streams are
      released, and failures of the track filter are counted
      ([CrossExecTheorems]).
    - Metrics: the window of a client is that of its own recent reports, the
      reports of an observer are monotone and throttled, and only viewers are
      eligible for grouping ([MetricsTheorems], [MetricsObserver],
      [MetricsEligibility]).
    - The admin server: what the writer writes reads back as the same document
      when its strings are UTF-8 and its doubles are written as numbers
      ([Json.json_roundtrip]; the reader is that of RFC 8259 and refuses text
      that is not UTF-8); under these conditions the bodies of [/state] and
      [/network-metrics] read back as the state and the snapshot
      ([StateHandler], [MetricsHandler]).
    - Statistics: the merged histograms of a scrape are those of all
      observations, error breakdowns add up and gauges are differences of
      counters ([StatsTheorems]).
    - The context: a session is routed to the relay of the best match, and a
      connection id names the last session on it until it ends
      ([RelayContext]).

    Runs in which the code departs from its intent are theorems or evaluated
    examples of the [*Examples] modules.

    ** Parameters and their laws

    Locations and interval sets of moxygen ([LocationLaws],
    [IntervalLaws]), object extensions ([ExtensionLaws]), the address
    parsers of folly, the order that [std::sort] gives to equal elements, the
    buffers and error codes of the filters ([IOBufLaws], [PublishErrorLaws]),
    the text of a [double], and the answers of sessions, forwarders and
    consumers.  The laws state what
    the call sites rely on and are instantiated in [Locations] and in the
    [*Examples] modules.

    ** Bounds and fuel

    - [iterate n] runs a loop for up to [2 ^ n] rounds without computing that
      many steps; the fetch iterator uses [iterate 128] because a location is
      two 64-bit words and no round repeats a location.
    - Eviction runs with up to twice the length of the LRU list as its bound,
      the tree walks with the number of nodes, [completeLoop] of the Wei detector with
      the number of pending observations and [finishLoop] of the receive
      intervals with the number of intervals; for each, a lemma of the file
      shows that the bound is enough on well-formed states, or running out is
      [None] and the theorem shows that the result is [Some].
    - The JSON reader runs with twice the length of its input, which
      [need_render] shows to be enough for every document.
    - Identifiers (references, ordinals, promise numbers) count up without
      wrap-around.

    ** Disciplines

    Theorems about runs assume a discipline, stated with them: the cache's
    [admissible] (above), which the relay does not enforce; in the relay, handles of draft 16 namespace subscriptions and
    sessions that end once; in [Upstream], that a session is closed only when
    no connection attempt is in flight (otherwise a promise is resolved twice,
    [close_during_hook_resolves_twice]); in [SbdLoss], that reports of one
    packet agree on its send time; in [SbdObserverTheorems], that the steady
    clock does not go back and that no other observer publishes under the
    connection id; in [CrossExecSystem], that the source makes
    no call but a reset on a stream it has finished and keeps a track filter
    until [publishDone] or until none of its calls is pending
    ([dropped_track_used] shows the alternative); in [MetricsEligibility], that
    a connection is registered once at a time; in [RelayContext], that a
    session starts and ends once; in [StateHandler], that no field of an
    announced namespace is empty and that names are UTF-8.

    ** Not modelled

    Process start, listeners and event bases ([main.cpp], the server classes),
    the YAML loader (reflect-cpp), the filters that only move requests and
    callbacks to another executor ([PublisherCrossExecFilter],
    [SubscriberCrossExecFilter] but for its [doPublishOnExec],
    [CrossExecForwarderCallback]), the HTTP plumbing of the admin server and
    the Prometheus text of [/metrics], output files and JSON documents of
    [sbd], the RTT file of the metrics observer, log output, the reentrancy
    checks on [iteratingSessions_] of the ranking, 64-bit wrap-around of the
    signed times of the receive intervals, the two handler setters of a routed
    session one by one ([RelayContext] has one effect for both), cancellation
    of fetches and the interleaving of several fetches of one track or of
    fetches with subscriptions.  Tests, benchmarks, the Python laboratory and the
    tools are not part of the relay. *)

From stdpp Require Export base tactics list gmap strings sorting.
From Stdlib Require Export ZArith Lia.

#[global] Open Scope Z_scope.

(** ** Machine integers

    [uint64_t] and [size_t] values are [Z]; the wrap-around of an unsigned
    operation is written out with [u64]. *)

Definition u64_modulus : Z := 2 ^ 64.
Definition u64_max : Z := u64_modulus - 1.
Definition u64 (x : Z) : Z := x mod u64_modulus.
Definition is_u64 (x : Z) : Prop := 0 <= x < u64_modulus.

Lemma u64_range x : is_u64 (u64 x).
Proof. unfold is_u64, u64. apply Z.mod_pos_bound. reflexivity. Qed.

Lemma u64_small x : is_u64 x → u64 x = x.
Proof. unfold is_u64, u64. apply Z.mod_small. Qed.

(** ** Running maxima *)

Lemma foldr_ge {A} (f : A → Z → Z) init (l : list A) :
  (∀ x acc, acc <= f x acc) → init <= foldr f init l.
Proof. intros Hf. induction l as [|x l IH]; cbn; [lia|]. specialize (Hf x (foldr f init l)). lia. Qed.

Lemma foldr_ge_elem {A} (f : A → Z → Z) init (l : list A) x v :
  (∀ x acc, acc <= f x acc) → x ∈ l → (∀ acc, v <= f x acc) → v <= foldr f init l.
Proof.
  intros Hf Hx Hv. induction l as [|y l IH]; [by apply elem_of_nil in Hx|]. cbn.
  apply elem_of_cons in Hx as [->|Hx]; [apply Hv|].
  specialize (IH Hx). specialize (Hf y (foldr f init l)). lia.
Qed.

Lemma foldr_le {A} (f : A → Z → Z) init (l : list A) B :
  init <= B → (∀ x acc, x ∈ l → acc <= B → f x acc <= B) → foldr f init l <= B.
Proof.
  intros Hi. induction l as [|x l IH]; intros Hf; cbn; [done|].
  apply Hf; [by left|]. apply IH. intros. apply Hf; [by right|done].
Qed.

(** ** Lists *)

Lemma mjoin_cons {A} (x : list A) (xs : list (list A)) : mjoin (x :: xs) = x ++ mjoin xs.
Proof. done. Qed.

(** ** Sums over finite maps *)

Section MapSum.
Context `{Countable K} {A : Type}.
Implicit Types (f : K → A → Z) (m : gmap K A).

Definition msum f m : Z := map_fold (λ k x acc, f k x + acc) 0 m.

Lemma msum_empty f : msum f ∅ = 0.
Proof. apply map_fold_empty. Qed.

Lemma msum_insert f m k x : m !! k = None → msum f (<[k := x]> m) = f k x + msum f m.
Proof. intros Hk. unfold msum. rewrite map_fold_insert_L; [done| |done]. intros. lia. Qed.

Lemma msum_delete f m k x : m !! k = Some x → msum f (delete k m) = msum f m - f k x.
Proof.
  intros Hk. rewrite <-(insert_delete_id m k x Hk) at 2.
  rewrite msum_insert by apply lookup_delete_eq. lia.
Qed.

Lemma msum_ext f g m : (∀ k x, m !! k = Some x → f k x = g k x) → msum f m = msum g m.
Proof.
  induction m as [|k x m Hk IH] using map_ind; intros Hfg; [done|].
  rewrite !msum_insert by done. rewrite (Hfg k x) by apply lookup_insert_eq.
  rewrite IH; [done|]. intros k' y Hy. apply Hfg. rewrite lookup_insert_ne; [done|congruence].
Qed.

(** The summand changes at one key only. *)
Lemma msum_change f g m k x : m !! k = Some x →
  (∀ k' y, k' ≠ k → m !! k' = Some y → f k' y = g k' y) →
  msum f m = msum g m - g k x + f k x.
Proof.
  intros Hk Hfg. rewrite <-(insert_delete_id m k x Hk).
  rewrite !msum_insert by apply lookup_delete_eq.
  rewrite (msum_ext f g (delete k m)); [lia|].
  intros k' y [? ?]%lookup_delete_Some. by apply Hfg.
Qed.

Lemma msum_replace f m k x y : m !! k = Some x →
  msum f (<[k := y]> m) = msum f m - f k x + f k y.
Proof.
  intros Hk. rewrite <-insert_delete_eq, msum_insert by apply lookup_delete_eq.
  rewrite (msum_delete f m k x Hk). lia.
Qed.

Lemma msum_nonneg f m : (∀ k x, m !! k = Some x → 0 <= f k x) → 0 <= msum f m.
Proof.
  induction m as [|k x m Hk IH] using map_ind; intros Hf; [by rewrite msum_empty|].
  rewrite msum_insert by done. specialize (Hf k x) as Hx. rewrite lookup_insert_eq in Hx.
  specialize (Hx eq_refl). enough (0 <= msum f m) by lia. apply IH.
  intros k' y Hy. apply Hf. rewrite lookup_insert_ne; [done|congruence].
Qed.

Lemma msum_elem_le f m k x : (∀ k x, m !! k = Some x → 0 <= f k x) →
  m !! k = Some x → f k x <= msum f m.
Proof.
  intros Hf Hk. enough (0 <= msum f (delete k m)) as Hd by (rewrite (msum_delete f m k x Hk) in Hd; lia).
  apply msum_nonneg. intros k' y [_ Hy]%lookup_delete_Some. by apply Hf.
Qed.
End MapSum.

(** ** Loops

    A [while] loop whose body continues with a new state ([inl]) or leaves the
    loop ([inr]).  [iterate n] runs the body up to [2 ^ n] times, and no more
    often than it asks for, so a loop of a program on 64-bit words is run with
    a small [n]. *)

Fixpoint iterate {A B} (n : nat) (body : A → A + B) (s : A) : A + B :=
  match n with
  | O => body s
  | S n' => match iterate n' body s with
            | inl s' => iterate n' body s'
            | inr r => inr r
            end
  end.

(** A measure that every continued round decreases bounds the number of rounds. *)
Lemma iterate_measure {A B} (body : A → A + B) (I : A → Prop) (Q : A → B → Prop) (m : A → Z) n s :
  (∀ s, I s → 0 <= m s) →
  (∀ s, I s → match body s with
              | inl s' => I s' ∧ m s' < m s ∧ ∀ r, Q s' r → Q s r
              | inr r => Q s r
              end) →
  I s →
  match iterate n body s with
  | inl s' => I s' ∧ m s' <= m s - 2 ^ Z.of_nat n ∧ ∀ r, Q s' r → Q s r
  | inr r => Q s r
  end.
Proof.
  intros Hpos Hbody. revert s. induction n as [|n IH]; intros s Hs; cbn [iterate].
  - specialize (Hbody s Hs). destruct (body s); [|done]. cbn. intuition lia.
  - pose proof (IH s Hs) as H1. destruct (iterate n body s) as [s1|]; [|done].
    destruct H1 as (Hs1 & Hm1 & Hq1). pose proof (IH s1 Hs1) as H2.
    destruct (iterate n body s1) as [s2|]; [|by apply Hq1]. destruct H2 as (Hs2 & Hm2 & Hq2).
    split; [done|]. rewrite Nat2Z.inj_succ, Z.pow_succ_r by lia. split; [lia|auto].
Qed.

Lemma iterate_terminates {A B} (body : A → A + B) (I : A → Prop) (Q : A → B → Prop) (m : A → Z) n s :
  (∀ s, I s → 0 <= m s) →
  (∀ s, I s → match body s with
              | inl s' => I s' ∧ m s' < m s ∧ ∀ r, Q s' r → Q s r
              | inr r => Q s r
              end) →
  I s → m s < 2 ^ Z.of_nat n → ∃ r, iterate n body s = inr r ∧ Q s r.
Proof.
  intros Hpos Hbody Hs Hm. pose proof (iterate_measure body I Q m n s Hpos Hbody Hs) as H.
  destruct (iterate n body s) as [s'|r]; [|eauto].
  destruct H as (Hs' & Hm' & _). specialize (Hpos s' Hs'). lia.
Qed.

(** A round that changes nothing repeats forever. *)
Lemma iterate_stuck {A B} (body : A → A + B) n s : body s = inl s → iterate n body s = inl s.
Proof. intros Hs. induction n as [|n IH]; cbn; [done|]. by rewrite IH. Qed.

(** ** folly::Expected

    [folly::Expected<A, E>]: a value or an error.  A failed [XCHECK], which
    aborts the process, is not an error value; definitions in which one can
    fail return an [option] around their result. *)

Inductive Expected (E A : Type) : Type :=
| value (a : A)
| unexpected (e : E).
Arguments value {E A} a.
Arguments unexpected {E A} e.

(** ** Automation *)

Create HintDb moqx discriminated.

(** Case analysis on the boolean tests of a goal, closing with [lia]. *)
Ltac zcases :=
  repeat match goal with
  | |- context [if ?b then _ else _] => destruct b eqn:?
  | H : context [if ?b then _ else _] |- _ => destruct b eqn:?
  end.

(** Case analysis on the scrutinee of an [option] match. *)
Ltac ocases :=
  repeat match goal with
  | |- context [match ?o with Some _ => _ | None => _ end] => destruct o eqn:?
  | H : context [match ?o with Some _ => _ | None => _ end] |- _ => destruct o eqn:?
  end.
