(* ===== verification/Locations.v ===== *)
(** * Track locations and interval sets

    moxygen's [AbsoluteLocation] and [LocationIntervalSet] are outside [src/].
    The location is the pair of fields the relay reads; the stepping functions
    and the interval set are interfaces ([LocationOps], [IntervalOps]) whose
    laws state what the call sites of [MoqxCache.cpp] rely on.  The last
    section gives one implementation of each, which shows that the laws can
    hold together and on which the witnesses are evaluated. *)

From S2P Require Import Prelude.

Record AbsoluteLocation := mkLoc { group : Z; object : Z }.

#[export] Instance AbsoluteLocation_eq_dec : EqDecision AbsoluteLocation.
Proof. solve_decision. Defined.

(** ** The order of locations: by group, then by object *)

Definition loc_lt (a b : AbsoluteLocation) : Prop :=
  group a < group b ∨ (group a = group b ∧ object a < object b).
Definition loc_le (a b : AbsoluteLocation) : Prop :=
  group a < group b ∨ (group a = group b ∧ object a <= object b).

Definition loc_ltb (a b : AbsoluteLocation) : bool :=
  (group a <? group b) || ((group a =? group b) && (object a <? object b)).
Definition loc_leb (a b : AbsoluteLocation) : bool :=
  (group a <? group b) || ((group a =? group b) && (object a <=? object b)).
Definition loc_eqb (a b : AbsoluteLocation) : bool :=
  (group a =? group b) && (object a =? object b).
(** [std::max]: the second argument only when the first is smaller. *)
Definition loc_max (a b : AbsoluteLocation) : AbsoluteLocation :=
  if loc_ltb a b then b else a.

Declare Scope loc_scope.
Delimit Scope loc_scope with loc.
Infix "<L" := loc_lt (at level 70) : loc_scope.
Infix "<=L" := loc_le (at level 70) : loc_scope.
Infix "<?L" := loc_ltb (at level 70) : loc_scope.
Infix "<=?L" := loc_leb (at level 70) : loc_scope.
Infix "=?L" := loc_eqb (at level 70) : loc_scope.
#[global] Open Scope loc_scope.

Lemma loc_eq_iff a b : a = b ↔ group a = group b ∧ object a = object b.
Proof. destruct a, b; simpl; split; [intros [= -> ->]; done | intros [-> ->]; done]. Qed.

Lemma loc_ltb_iff a b : (a <?L b) = true ↔ a <L b.
Proof. unfold loc_ltb, loc_lt. lia. Qed.
Lemma loc_ltb_false a b : (a <?L b) = false ↔ b <=L a.
Proof. unfold loc_ltb, loc_le. lia. Qed.
Lemma loc_leb_iff a b : (a <=?L b) = true ↔ a <=L b.
Proof. unfold loc_leb, loc_le. lia. Qed.
Lemma loc_leb_false a b : (a <=?L b) = false ↔ b <L a.
Proof. unfold loc_leb, loc_lt. lia. Qed.
Lemma loc_eqb_iff a b : (a =?L b) = true ↔ a = b.
Proof. rewrite loc_eq_iff. unfold loc_eqb. lia. Qed.
Lemma loc_eqb_false a b : (a =?L b) = false ↔ a ≠ b.
Proof. rewrite loc_eq_iff. unfold loc_eqb. lia. Qed.

(** Turns comparisons of locations into linear arithmetic on their fields and
    calls [lia]. *)
Ltac loc_unfold :=
  repeat match goal with
  | H : context [(_ <?L _)] |- _ => progress unfold loc_ltb in H
  | H : context [(_ <=?L _)] |- _ => progress unfold loc_leb in H
  | H : context [(_ =?L _)] |- _ => progress unfold loc_eqb in H
  end;
  unfold loc_max, loc_ltb, loc_leb, loc_eqb, loc_lt, loc_le in *; simpl in *.
Ltac loc_solve :=
  intros; rewrite ?loc_eq_iff in *; loc_unfold; simpl in *; try done; try lia.

Lemma loc_le_lt_cases a b : a <=L b ↔ a <L b ∨ a = b.
Proof. loc_solve. Qed.
Lemma loc_le_refl a : a <=L a.
Proof. loc_solve. Qed.
Lemma loc_lt_irrefl a : ¬ a <L a.
Proof. loc_solve. Qed.
Lemma loc_lt_le_trans a b c : a <L b → b <=L c → a <L c.
Proof. loc_solve. Qed.
Lemma loc_le_lt_trans a b c : a <=L b → b <L c → a <L c.
Proof. loc_solve. Qed.
Lemma loc_le_trans a b c : a <=L b → b <=L c → a <=L c.
Proof. loc_solve. Qed.
#[export] Hint Resolve loc_le_refl loc_lt_le_trans loc_le_lt_trans loc_le_trans : moqx.

(** ** Delivery orders

    [GroupOrder]: oldest group first, or newest group first.  Objects of one
    group are always delivered in ascending order. *)

Inductive GroupOrder := Default | OldestFirst | NewestFirst.

Definition isNewestFirst (order : GroupOrder) : bool :=
  match order with NewestFirst => true | _ => false end.

(** [a] is delivered before [b] when groups go from high to low. *)
Definition desc_lt (a b : AbsoluteLocation) : Prop :=
  group b < group a ∨ (group a = group b ∧ object a < object b).
Definition desc_le (a b : AbsoluteLocation) : Prop :=
  group b < group a ∨ (group a = group b ∧ object a <= object b).

Definition before (order : GroupOrder) : AbsoluteLocation → AbsoluteLocation → Prop :=
  if isNewestFirst order then desc_lt else loc_lt.
Definition before_eq (order : GroupOrder) : AbsoluteLocation → AbsoluteLocation → Prop :=
  if isNewestFirst order then desc_le else loc_le.

(** ** moxygen's stepping functions *)

Class LocationOps := {
  kLocationMax : AbsoluteLocation;
  nextGroup : AbsoluteLocation → option AbsoluteLocation;
  prevGroup : AbsoluteLocation → option AbsoluteLocation;
  prevGroupEnd : AbsoluteLocation → option AbsoluteLocation;
  nextInGroup : AbsoluteLocation → option AbsoluteLocation;
  prevInGroup : AbsoluteLocation → option AbsoluteLocation;
  next : AbsoluteLocation → option AbsoluteLocation;
  prev : AbsoluteLocation → option AbsoluteLocation;
}.

(** A location whose fields are within the maxima. *)
Definition valid_loc `{LocationOps} (l : AbsoluteLocation) : Prop :=
  0 <= group l <= group kLocationMax ∧ 0 <= object l <= object kLocationMax.

(** What the stepping functions are documented to do by their names and call
    sites: each is partial exactly at the boundary it cannot step over. *)
Class LocationLaws `{LocationOps} : Prop := {
  max_group_pos : 0 < group kLocationMax;
  max_object_pos : 0 < object kLocationMax;
  max_group_u64 : is_u64 (group kLocationMax);
  max_object_u64 : is_u64 (object kLocationMax);
  nextGroup_law l : valid_loc l →
    nextGroup l = if group l <? group kLocationMax then Some (mkLoc (group l + 1) 0) else None;
  prevGroup_law l : valid_loc l →
    prevGroup l = if 0 <? group l then Some (mkLoc (group l - 1) 0) else None;
  prevGroupEnd_law l : valid_loc l →
    prevGroupEnd l =
      if 0 <? group l then Some (mkLoc (group l - 1) (object kLocationMax)) else None;
  nextInGroup_law l : valid_loc l →
    nextInGroup l =
      if object l <? object kLocationMax then Some (mkLoc (group l) (object l + 1)) else None;
  prevInGroup_law l : valid_loc l →
    prevInGroup l = if 0 <? object l then Some (mkLoc (group l) (object l - 1)) else None;
  next_law l : valid_loc l →
    next l = match nextInGroup l with Some l' => Some l' | None => nextGroup l end;
  prev_law l : valid_loc l →
    prev l = match prevInGroup l with Some l' => Some l' | None => prevGroupEnd l end;
}.

Ltac loc_laws :=
  repeat first
    [ rewrite next_law by done | rewrite prev_law by done
    | rewrite nextGroup_law by done | rewrite prevGroup_law by done
    | rewrite prevGroupEnd_law by done | rewrite nextInGroup_law by done
    | rewrite prevInGroup_law by done ].

Section LocationFacts.
Context `{LocationLaws}.

(** [next] is the immediate successor in the order of locations. *)
Lemma next_successor l l' : valid_loc l → next l = Some l' →
  valid_loc l' ∧ l <L l' ∧ ∀ x, valid_loc x → l <L x → l' <=L x.
Proof.
  intros Hl. pose proof max_group_pos. pose proof max_object_pos.
  loc_laws. zcases; intros [= <-]; unfold valid_loc in *; loc_unfold; repeat split; lia.
Qed.

Lemma next_None l : valid_loc l → next l = None → ∀ x, valid_loc x → x <=L l.
Proof.
  intros Hl. loc_laws. zcases; intros [=]; unfold valid_loc in *; loc_unfold; intros; lia.
Qed.

Lemma prev_predecessor l l' : valid_loc l → prev l = Some l' →
  valid_loc l' ∧ ∀ x, valid_loc x → (x <L l ↔ x <=L l').
Proof.
  intros Hl. pose proof max_group_pos. pose proof max_object_pos.
  loc_laws. zcases; intros [= <-]; unfold valid_loc in *; loc_unfold; repeat split; lia.
Qed.
End LocationFacts.

(** ** moxygen's LocationIntervalSet

    A set of locations with inclusive intervals. *)

Class IntervalOps (IS : Type) := {
  iv_empty : IS;
  iv_insert : IS → AbsoluteLocation → AbsoluteLocation → IS;
  iv_remove : IS → AbsoluteLocation → AbsoluteLocation → IS;
  iv_contains : IS → AbsoluteLocation → bool;
  iv_findInterval : IS → AbsoluteLocation → option (AbsoluteLocation * AbsoluteLocation);
  iv_findNextInterval : IS → AbsoluteLocation → option (AbsoluteLocation * AbsoluteLocation);
  iv_findPrevInterval : IS → AbsoluteLocation → option (AbsoluteLocation * AbsoluteLocation);
}.

(** [findIntervalEnd]: the end of the interval that holds the location. *)
Definition iv_findIntervalEnd `{IntervalOps IS} (s : IS) (l : AbsoluteLocation) :
    option AbsoluteLocation :=
  snd <$> iv_findInterval s l.

(** The laws are about valid locations: an insertion or a removal touches
    exactly the inclusive range, and a found interval is made of members of
    the set, is not empty, and is the one next to the query. *)
Class IntervalLaws `{LocationOps} (IS : Type) `{IntervalOps IS} : Prop := {
  contains_empty l : iv_contains (iv_empty (IS:=IS)) l = false;
  contains_insert (s : IS) a b l : valid_loc a → valid_loc b → valid_loc l →
    iv_contains (iv_insert s a b) l = ((a <=?L l) && (l <=?L b)) || iv_contains s l;
  contains_remove (s : IS) a b l : valid_loc a → valid_loc b → valid_loc l →
    iv_contains (iv_remove s a b) l = negb ((a <=?L l) && (l <=?L b)) && iv_contains s l;
  findInterval_Some (s : IS) l a b : valid_loc l → iv_findInterval s l = Some (a, b) →
    valid_loc a ∧ valid_loc b ∧ a <=L l ∧ l <=L b ∧
    ∀ x, valid_loc x → a <=L x → x <=L b → iv_contains s x = true;
  findInterval_None (s : IS) l : valid_loc l →
    iv_findInterval s l = None → iv_contains s l = false;
  findNext_Some (s : IS) l a b : valid_loc l → iv_contains s l = false →
    iv_findNextInterval s l = Some (a, b) →
    valid_loc a ∧ valid_loc b ∧ l <L a ∧ a <=L b ∧
    (∀ x, valid_loc x → a <=L x → x <=L b → iv_contains s x = true) ∧
    (∀ x, valid_loc x → l <=L x → x <L a → iv_contains s x = false);
  findNext_None (s : IS) l : valid_loc l → iv_contains s l = false →
    iv_findNextInterval s l = None →
    ∀ x, valid_loc x → l <=L x → iv_contains s x = false;
  findPrev_Some (s : IS) l a b : valid_loc l → iv_contains s l = false →
    iv_findPrevInterval s l = Some (a, b) →
    valid_loc a ∧ valid_loc b ∧ b <L l ∧ a <=L b ∧
    (∀ x, valid_loc x → a <=L x → x <=L b → iv_contains s x = true) ∧
    (∀ x, valid_loc x → b <L x → x <=L l → iv_contains s x = false);
  findPrev_None (s : IS) l : valid_loc l → iv_contains s l = false →
    iv_findPrevInterval s l = None →
    ∀ x, valid_loc x → x <=L l → iv_contains s x = false;
}.

(** ** One implementation of the interfaces *)

Module StdLocations.

Definition maxField : Z := 2 ^ 62 - 1.

#[export] Instance ops : LocationOps := {
  kLocationMax := mkLoc maxField maxField;
  nextGroup l := if group l <? maxField then Some (mkLoc (group l + 1) 0) else None;
  prevGroup l := if 0 <? group l then Some (mkLoc (group l - 1) 0) else None;
  prevGroupEnd l := if 0 <? group l then Some (mkLoc (group l - 1) maxField) else None;
  nextInGroup l :=
    if object l <? maxField then Some (mkLoc (group l) (object l + 1)) else None;
  prevInGroup l := if 0 <? object l then Some (mkLoc (group l) (object l - 1)) else None;
  next l :=
    if object l <? maxField then Some (mkLoc (group l) (object l + 1))
    else if group l <? maxField then Some (mkLoc (group l + 1) 0) else None;
  prev l :=
    if 0 <? object l then Some (mkLoc (group l) (object l - 1))
    else if 0 <? group l then Some (mkLoc (group l - 1) maxField) else None;
}.

#[export] Instance laws : LocationLaws.
Proof.
  constructor; try done; intros l _; simpl; zcases; reflexivity.
Qed.

(** A set as a list of inclusive intervals of valid locations, not
    normalised. *)

Definition validb (l : AbsoluteLocation) : bool :=
  (0 <=? group l) && (group l <=? maxField) && (0 <=? object l) && (object l <=? maxField).

Definition wf_interval (i : AbsoluteLocation * AbsoluteLocation) : bool :=
  validb i.1 && validb i.2 && (i.1 <=?L i.2).

Record ivset := mkIvset {
  ivs : list (AbsoluteLocation * AbsoluteLocation);
  ivs_wf : forallb wf_interval ivs = true;
}.

Definition holds (l : AbsoluteLocation) (i : AbsoluteLocation * AbsoluteLocation) : bool :=
  (i.1 <=?L l) && (l <=?L i.2).

(** Drops what is not a well-formed interval. *)
Definition normal (l : list (AbsoluteLocation * AbsoluteLocation)) : ivset.
Proof.
  refine (mkIvset (List.filter wf_interval l) _).
  abstract (apply forallb_forall; intros i Hi; apply filter_In in Hi; tauto).
Defined.

Definition cut (a b : AbsoluteLocation) (i : AbsoluteLocation * AbsoluteLocation) :
    list (AbsoluteLocation * AbsoluteLocation) :=
  match prev a with
  | Some p => [(i.1, if p <?L i.2 then p else i.2)]
  | None => []
  end ++
  match next b with
  | Some n => [(loc_max i.1 n, i.2)]
  | None => []
  end.

(** The interval that satisfies [f] and no other such one is [better]. *)
Definition best (f : AbsoluteLocation * AbsoluteLocation → bool)
    (better : AbsoluteLocation * AbsoluteLocation →
              AbsoluteLocation * AbsoluteLocation → bool)
    (s : list (AbsoluteLocation * AbsoluteLocation)) :=
  foldr (λ i acc,
    if f i then
      match acc with Some j => if better j i then Some j else Some i | None => Some i end
    else acc) None s.

#[export] Instance ivops : IntervalOps ivset := {
  iv_empty := normal [];
  iv_insert s a b := normal ((a, b) :: ivs s);
  iv_remove s a b := if a <=?L b then normal (flat_map (cut a b) (ivs s)) else s;
  iv_contains s l := existsb (holds l) (ivs s);
  iv_findInterval s l := find (holds l) (ivs s);
  iv_findNextInterval s l := best (λ i, l <?L i.1) (λ i j, i.1 <?L j.1) (ivs s);
  iv_findPrevInterval s l := best (λ i, i.2 <?L l) (λ i j, j.2 <?L i.2) (ivs s);
}.

Lemma contains_iff (s : ivset) l :
  iv_contains s l = true ↔ ∃ a b, In (a, b) (ivs s) ∧ a <=L l ∧ l <=L b.
Proof.
  simpl. rewrite existsb_exists. unfold holds. setoid_rewrite andb_true_iff.
  setoid_rewrite loc_leb_iff. split.
  - intros ([a b] & ? & ?). eauto.
  - intros (a & b & ? & ?). exists (a, b). eauto.
Qed.

Lemma contains_not_iff (s : ivset) l :
  iv_contains s l = false ↔ ∀ a b, In (a, b) (ivs s) → ¬ (a <=L l ∧ l <=L b).
Proof.
  rewrite <-not_true_iff_false, contains_iff. firstorder.
Qed.

Lemma ivs_valid (s : ivset) a b : In (a, b) (ivs s) →
  valid_loc a ∧ valid_loc b ∧ a <=L b.
Proof.
  pose proof (ivs_wf s) as Hwf. rewrite forallb_forall in Hwf. intros Hin.
  apply Hwf in Hin. unfold wf_interval, validb in Hin. unfold valid_loc. loc_solve.
Qed.

Lemma wf_interval_iff a b :
  wf_interval (a, b) = true ↔ valid_loc a ∧ valid_loc b ∧ a <=L b.
Proof. unfold wf_interval, validb, valid_loc. loc_solve. Qed.

Lemma normal_In l i : In i (ivs (normal l)) ↔ In i l ∧ wf_interval i = true.
Proof. apply filter_In. Qed.

Lemma best_Some f better s i : best f better s = Some i → In i s ∧ f i = true.
Proof.
  induction s as [|j s IH]; simpl; [done|]. fold (best f better s).
  destruct (best f better s) as [k|]; zcases; intros [= <-]; naive_solver.
Qed.

Lemma best_None f better s : best f better s = None → ∀ i, In i s → f i = false.
Proof.
  induction s as [|j s IH]; simpl; [done|]. fold (best f better s).
  destruct (best f better s) as [k|]; zcases; try done; naive_solver.
Qed.

(** With [better] a strict weak order, nothing beats the chosen interval. *)
Lemma best_optimal f better s i :
  (∀ i j k, better j i = false → better k j = false → better k i = false) →
  (∀ i j, better i j = true → better j i = false) →
  best f better s = Some i → ∀ j, In j s → f j = true → better j i = false.
Proof.
  intros Htr Has. revert i. induction s as [|j s IH]; simpl; [done|].
  fold (best f better s). intros i Hi k Hk Hf.
  assert (∀ i, better i i = false) as Hirr.
  { intros x. destruct (better x x) eqn:E; [|done]. pose proof (Has _ _ E). congruence. }
  destruct (f j) eqn:Ej, (best f better s) as [b|] eqn:Eb.
  - destruct (better b j) eqn:Ebj; injection Hi as <-; destruct Hk as [<-|Hk]; eauto.
  - injection Hi as <-. destruct Hk as [<-|Hk]; [eauto|].
    eapply best_None in Eb; [|done]. congruence.
  - injection Hi as <-. destruct Hk as [<-|Hk]; [congruence|eauto].
  - done.
Qed.

Lemma remove_spec (s : ivset) a b l : valid_loc a → valid_loc b → valid_loc l →
  a <=L b → iv_contains (iv_remove s a b) l = negb ((a <=?L l) && (l <=?L b)) && iv_contains s l.
Proof.
  intros Ha Hb Hl Hab. apply eq_true_iff_eq. rewrite andb_true_iff, negb_true_iff.
  simpl iv_remove. rewrite (proj2 (loc_leb_iff a b)) by done. rewrite !contains_iff.
  setoid_rewrite normal_In. setoid_rewrite in_flat_map. split.
  - intros (c & d & [([c0 d0] & Hin & Hcut) Hwf] & Hc & Hd).
    pose proof (ivs_valid _ _ _ Hin) as (? & ? & ?).
    unfold cut in Hcut. apply in_app_iff in Hcut. simpl fst in *; simpl snd in *.
    split; [|exists c0, d0; split; [done|]].
    + destruct Hcut as [Hcut|Hcut].
      * destruct (prev a) as [p|] eqn:Ep; [|done].
        apply prev_predecessor in Ep as [Hp Ep]; [|done]. specialize (Ep l Hl).
        destruct Hcut as [[= <- <-]|[]]. zcases; loc_solve.
      * destruct (next b) as [n|] eqn:En; [|done].
        apply next_successor in En as (Hn & En & _); [|done].
        destruct Hcut as [[= <- <-]|[]]. unfold loc_max in *. zcases; loc_solve.
    + destruct Hcut as [Hcut|Hcut].
      * destruct (prev a) as [p|] eqn:Ep; [|done].
        destruct Hcut as [[= <- <-]|[]]. zcases; loc_solve.
      * destruct (next b) as [n|] eqn:En; [|done].
        destruct Hcut as [[= <- <-]|[]]. unfold loc_max in *. zcases; loc_solve.
  - intros [Hout (c & d & Hin & Hc & Hd)].
    pose proof (ivs_valid _ _ _ Hin) as (Hvc & Hvd & ?).
    assert (l <L a ∨ b <L l) as [Hla|Hbl] by loc_solve.
    + destruct (prev a) as [p|] eqn:Ep; cycle 1.
      { exfalso. revert Ep. loc_laws. zcases; intros [=]; unfold valid_loc in *; loc_solve. }
      apply prev_predecessor in Ep as Hp; [|done]. destruct Hp as [Hvp Hp].
      apply Hp in Hla; [|done].
      set (d' := if p <?L d then p else d).
      assert (l <=L d' ∧ c <=L d' ∧ valid_loc d') as (? & ? & ?).
      { unfold d'. zcases; split_and!; try done; loc_solve. }
      exists c, d'. split_and!; try done; [|by apply wf_interval_iff].
      exists (c, d). split; [done|]. unfold cut. rewrite Ep. apply in_app_iff; left; left; done.
    + destruct (next b) as [n|] eqn:En; cycle 1.
      { exfalso. pose proof (next_None b Hb En l Hl). loc_solve. }
      apply next_successor in En as Hn; [|done]. destruct Hn as (Hvn & _ & Hn).
      specialize (Hn l Hl Hbl). set (c' := loc_max c n).
      assert (c' <=L l ∧ c' <=L d ∧ valid_loc c') as (? & ? & ?).
      { unfold c', loc_max. zcases; split_and!; try done; loc_solve. }
      exists c', d. split_and!; try done; [|by apply wf_interval_iff].
      exists (c, d). split; [done|]. unfold cut. rewrite En. apply in_app_iff; right; left; done.
Qed.

#[export] Instance ivlaws : IntervalLaws ivset.
Proof.
  constructor.
  - done.
  - intros s a b l Ha Hb Hl. apply eq_true_iff_eq.
    rewrite orb_true_iff, andb_true_iff, !loc_leb_iff, !contains_iff.
    simpl iv_insert. setoid_rewrite normal_In. split.
    + intros (c & d & [[[= <- <-]|Hin] _] & ?); [by left|]. right. eauto.
    + intros [?|(c & d & Hin & ?)].
      * exists a, b. split; [|done]. split; [by left|]. apply wf_interval_iff.
        split_and!; try done; loc_solve.
      * exists c, d. split; [|done]. split; [by right|].
        apply wf_interval_iff. by apply (ivs_valid s).
  - intros s a b l Ha Hb Hl. destruct (a <=?L b) eqn:E.
    + apply remove_spec; try done. by apply loc_leb_iff.
    + simpl iv_remove. rewrite E.
      destruct ((a <=?L l) && (l <=?L b)) eqn:E'; [loc_solve|done].
  - intros s l a b Hl Hf. apply find_some in Hf as [Hin Hh].
    pose proof (ivs_valid _ _ _ Hin) as (? & ? & ?). unfold holds in Hh; simpl in Hh.
    split_and!; try done; [loc_solve|loc_solve|]. intros. apply contains_iff. eauto.
  - intros s l Hl Hf. apply contains_not_iff. intros a b Hin.
    apply (find_none _ _ Hf) in Hin. unfold holds in Hin; simpl in Hin. loc_solve.
  - intros s l a b Hl Hc Hb. rewrite contains_not_iff in Hc.
    pose proof (best_Some _ _ _ _ Hb) as [Hin Hf].
    pose proof (ivs_valid _ _ _ Hin) as (? & ? & ?).
    split_and!; try done; [by apply loc_ltb_iff| |].
    + intros. apply contains_iff. eauto.
    + intros x Hx Hlx Hxa. apply contains_not_iff. intros c d Hcd [??].
      assert (l <L c) by (specialize (Hc _ _ Hcd); loc_solve).
      eapply (best_optimal _ _ _ _) with (j := (c, d)) in Hb; simpl in *; try done.
      all: loc_solve.
  - intros s l Hl Hc Hb x Hx Hlx. rewrite contains_not_iff in *. intros c d Hcd [??].
    eapply best_None in Hb; [|done]. simpl in Hb. specialize (Hc _ _ Hcd). loc_solve.
  - intros s l a b Hl Hc Hb. rewrite contains_not_iff in Hc.
    pose proof (best_Some _ _ _ _ Hb) as [Hin Hf].
    pose proof (ivs_valid _ _ _ Hin) as (? & ? & ?).
    split_and!; try done; [by apply loc_ltb_iff| |].
    + intros. apply contains_iff. eauto.
    + intros x Hx Hlx Hxa. apply contains_not_iff. intros c d Hcd [??].
      assert (d <L l) by (specialize (Hc _ _ Hcd); loc_solve).
      eapply (best_optimal _ _ _ _) with (j := (c, d)) in Hb; simpl in *; try done.
      all: loc_solve.
  - intros s l Hl Hc Hb x Hx Hlx. rewrite contains_not_iff in *. intros c d Hcd [??].
    eapply best_None in Hb; [|done]. simpl in Hb. specialize (Hc _ _ Hcd). loc_solve.
Qed.
End StdLocations.
