(* ===== verification/CacheRanges.v ===== *)
(** * Range arithmetic of the object cache

    The file-local functions at the head of [src/src/MoqxCache.cpp]: where a
    newest-first iteration continues after a gap, which upstream fetches a miss
    is split into, and which ranges a fetch marks as non-existent.

    Intervals passed upstream are half-open ([start] in, [end] out); gap ranges
    are inclusive at both ends, as [LocationIntervalSet::insert] takes them.  A
    definition that dereferences an empty optional or fails an [XCHECK] in the
    source returns [None]. *)

From S2P Require Import Prelude Locations.

Inductive ObjectStatus := NORMAL | END_OF_GROUP | END_OF_TRACK.

#[export] Instance ObjectStatus_eq_dec : EqDecision ObjectStatus.
Proof. solve_decision. Defined.

Definition isEndOfTrack (status : ObjectStatus) : bool := bool_decide (status = END_OF_TRACK).

Definition interval : Type := AbsoluteLocation * AbsoluteLocation.

Section Ranges.
Context `{LocationOps}.

(** [computeDescendingAfterGap] *)
Definition computeDescendingAfterGap (current gapStart minLocation : AbsoluteLocation) :
    option AbsoluteLocation :=
  if (0 <? object gapStart) && negb (group gapStart =? group current) then
    let afterGap := mkLoc (group gapStart) 0 in
    Some (if group afterGap =? group minLocation
          then mkLoc (group afterGap) (object minLocation) else afterGap)
  else
    match prevGroup gapStart with
    | Some afterGap =>
        Some (if group afterGap =? group minLocation
              then mkLoc (group afterGap) (object minLocation) else afterGap)
    | None => None
    end.

(** [getFetchIntervals] *)
Definition getFetchIntervals (start end_ missLocation hitLocation : AbsoluteLocation)
    (order : GroupOrder) (isTail : bool) : list interval :=
  if negb (isNewestFirst order) then
    if negb isTail then [(missLocation, hitLocation)] else [(missLocation, end_)]
  else if group missLocation =? group hitLocation then
    if negb isTail then [(missLocation, hitLocation)]
    else [(missLocation, default end_ (nextGroup missLocation))]
  else
    let intervalEnd :=
      if group missLocation =? group end_ then end_
      else default end_ (nextGroup missLocation) in
    let numIntermediateGroups := u64 (group missLocation - group hitLocation - 1) in
    let firstAndIntermediate :=
      if 0 <? numIntermediateGroups then
        if object missLocation =? 0 then
          [(loc_max start (mkLoc (group missLocation - numIntermediateGroups) 0), intervalEnd)]
        else
          let intStart := mkLoc (group hitLocation + 1) 0 in
          let intStart :=
            if group start =? group intStart then mkLoc (group intStart) (object start)
            else intStart in
          [(missLocation, intervalEnd); (intStart, mkLoc (group missLocation) 0)]
      else [(missLocation, intervalEnd)] in
    let last :=
      if negb (object hitLocation =? 0) then
        let lastStart :=
          if group start =? group hitLocation then start else mkLoc (group hitLocation) 0 in
        if lastStart <?L hitLocation then [(lastStart, hitLocation)] else []
      else [] in
    firstAndIntermediate ++ last.

(** [getGapRanges] *)
Definition getGapRanges (start end_ : AbsoluteLocation) (order : GroupOrder)
    (fetchStart fetchEnd : AbsoluteLocation) : option (list interval) :=
  let isEmpty :=
    if negb (isNewestFirst order) then end_ <=?L start
    else (group start <? group end_) ||
         ((group start =? group end_) && (object end_ <=? object start)) in
  if isEmpty then Some []
  else if group start =? group end_ then
    match prevInGroup end_ with
    | Some p => Some [(start, p)]
    | None => Some []
    end
  else if negb (isNewestFirst order) then
    gapEnd ← prev end_;
    Some [(start, gapEnd)]
  else
    startGroupEnd ←
      (if group start =? group fetchEnd then prevInGroup fetchEnd
       else Some (mkLoc (group start) (object kLocationMax)));
    endNextGroup ← nextGroup end_;
    startPrevGroupEnd ← prevGroupEnd start;
    let intermediate :=
      if group endNextGroup <=? group startPrevGroupEnd
      then [(endNextGroup, startPrevGroupEnd)] else [] in
    let endGroupStart :=
      if group end_ =? group fetchStart then fetchStart else mkLoc (group end_) 0 in
    partialEnd ←
      (if endGroupStart <?L end_ then
         p ← prevInGroup end_; Some [(endGroupStart, p)]
       else Some []);
    Some ((start, startGroupEnd) :: intermediate ++ partialEnd).

(** [isGroupNonExistent] *)
Definition isGroupNonExistent `{IntervalOps IS} (gaps : IS) (groupID : Z) : bool :=
  match iv_findIntervalEnd gaps (mkLoc groupID 0) with
  | Some e =>
      (groupID <? group e) ||
      ((group e =? groupID) && (object e =? object kLocationMax))
  | None => false
  end.
End Ranges.

(** ** What a list of intervals covers *)

Definition covers_halfopen (l : list interval) (x : AbsoluteLocation) : Prop :=
  Exists (λ i, i.1 <=L x ∧ x <L i.2) l.
Definition covers_inclusive (l : list interval) (x : AbsoluteLocation) : Prop :=
  Exists (λ i, i.1 <=L x ∧ x <=L i.2) l.

Lemma covers_halfopen_nil x : covers_halfopen [] x ↔ False.
Proof. unfold covers_halfopen. by rewrite Exists_nil. Qed.
Lemma covers_halfopen_cons i l x :
  covers_halfopen (i :: l) x ↔ (i.1 <=L x ∧ x <L i.2) ∨ covers_halfopen l x.
Proof. unfold covers_halfopen. by rewrite Exists_cons. Qed.
Lemma covers_halfopen_app l l' x :
  covers_halfopen (l ++ l') x ↔ covers_halfopen l x ∨ covers_halfopen l' x.
Proof. unfold covers_halfopen. by rewrite Exists_app. Qed.
Lemma covers_inclusive_nil x : covers_inclusive [] x ↔ False.
Proof. unfold covers_inclusive. by rewrite Exists_nil. Qed.
Lemma covers_inclusive_cons i l x :
  covers_inclusive (i :: l) x ↔ (i.1 <=L x ∧ x <=L i.2) ∨ covers_inclusive l x.
Proof. unfold covers_inclusive. by rewrite Exists_cons. Qed.
Lemma covers_inclusive_app l l' x :
  covers_inclusive (l ++ l') x ↔ covers_inclusive l x ∨ covers_inclusive l' x.
Proof. unfold covers_inclusive. by rewrite Exists_app. Qed.

Ltac covers_simpl :=
  rewrite ?covers_halfopen_app, ?covers_halfopen_cons, ?covers_halfopen_nil,
    ?covers_inclusive_app, ?covers_inclusive_cons, ?covers_inclusive_nil; simpl fst; simpl snd.

(** The positions of a fetch range [[fetchStart, fetchEnd)] delivered from
    [from] on and before [upto]. *)
Definition delivered_between (order : GroupOrder)
    (fetchStart fetchEnd from upto x : AbsoluteLocation) : Prop :=
  fetchStart <=L x ∧ x <L fetchEnd ∧ before_eq order from x ∧ before order x upto.

Section RangeFacts.
Context `{LocationLaws}.

Lemma kLocationMax_valid : valid_loc kLocationMax.
Proof. pose proof max_group_pos. pose proof max_object_pos. unfold valid_loc. lia. Qed.

(** A difference of groups of valid locations does not wrap. *)
Lemma u64_group_diff a b k : valid_loc a → valid_loc b → 0 <= k → group b + k <= group a →
  u64 (group a - group b - k) = group a - group b - k.
Proof.
  intros Ha Hb Hk Hle. apply u64_small. pose proof max_group_u64.
  unfold valid_loc, is_u64 in *. lia.
Qed.

Lemma u64_group_pred a : valid_loc a → 0 < group a → u64 (group a - 0 - 1) = group a - 1.
Proof.
  intros Ha Hpos. pose proof max_group_u64. rewrite u64_small; [lia|].
  unfold is_u64, valid_loc in *. lia.
Qed.

Ltac range_solve :=
  unfold delivered_between, before, before_eq, desc_lt, desc_le; simpl isNewestFirst;
  unfold valid_loc in *; loc_solve.

Lemma getGapRanges_asc start end_ order fs fe :
  isNewestFirst order = false → valid_loc start → valid_loc end_ →
  ∃ rs, getGapRanges start end_ order fs fe = Some rs ∧
    ∀ x, valid_loc x → covers_inclusive rs x ↔ start <=L x ∧ x <L end_.
Proof.
  intros Ho Hs He. unfold getGapRanges. rewrite Ho. simpl negb. cbv iota.
  destruct (end_ <=?L start) eqn:E1.
  { eexists; split; [done|]. intros x Hx. covers_simpl. loc_solve. }
  destruct (group start =? group end_) eqn:E2.
  - loc_laws. destruct (0 <? object end_) eqn:E3.
    + eexists; split; [done|]. intros x Hx. covers_simpl. range_solve.
    + exfalso. range_solve.
  - destruct (prev end_) as [p|] eqn:Ep; simpl.
    + eexists; split; [done|]. intros x Hx. covers_simpl.
      apply prev_predecessor in Ep as [Hp Ep]; [|done]. specialize (Ep x Hx). loc_solve.
    + exfalso. revert Ep. loc_laws. zcases; intros [=]. range_solve.
Qed.

Lemma getGapRanges_desc start end_ fs fe :
  valid_loc start → valid_loc end_ → valid_loc fs → valid_loc fe →
  fs <=L start → start <L fe → fs <=L end_ → end_ <=L fe →
  ∃ rs, getGapRanges start end_ NewestFirst fs fe = Some rs ∧
    ∀ x, valid_loc x →
      covers_inclusive rs x ↔ delivered_between NewestFirst fs fe start end_ x.
Proof.
  intros Hs He Hfs Hfe H1 H2 H3 H4. unfold getGapRanges. simpl negb. cbv iota.
  loc_laws. zcases; try solve [exfalso; range_solve]; simpl; zcases; simpl;
    try solve [exfalso; range_solve];
    (eexists; split; [done|]); intros x Hx; covers_simpl; range_solve.
Qed.

(** C10: The ranges a fetch marks as non-existent when it moves from [start]
    to [end_] are exactly the positions of the fetch range that are delivered
    from [start] on and before [end_], in the order of the fetch: every
    position passed over is marked, and none outside the requested range or
    still to come.  The computation never fails an [XCHECK] nor dereferences
    an empty optional. *)
Theorem getGapRanges_exact start end_ order fs fe :
  valid_loc start → valid_loc end_ → valid_loc fs → valid_loc fe →
  fs <=L start → start <L fe → fs <=L end_ → end_ <=L fe →
  ∃ rs, getGapRanges start end_ order fs fe = Some rs ∧
    ∀ x, valid_loc x →
      covers_inclusive rs x ↔ delivered_between order fs fe start end_ x.
Proof.
  intros. destruct (isNewestFirst order) eqn:Ho.
  - destruct order; try done. by apply getGapRanges_desc.
  - destruct (getGapRanges_asc start end_ order fs fe) as (rs & ? & Hrs); try done.
    exists rs; split; [done|]. intros x Hx. rewrite (Hrs x Hx).
    unfold delivered_between, before, before_eq. rewrite Ho. loc_solve.
Qed.

Lemma getFetchIntervals_desc start end_ miss hit :
  valid_loc start → valid_loc end_ → valid_loc miss → valid_loc hit →
  start <=L miss → miss <L end_ → start <=L hit → hit <L end_ → desc_lt miss hit →
  ∀ x, valid_loc x →
    covers_halfopen (getFetchIntervals start end_ miss hit NewestFirst false) x ↔
    delivered_between NewestFirst start end_ miss hit x.
Proof.
  intros Hs He Hm Hh H1 H2 H3 H4 H5 x Hx. unfold getFetchIntervals. simpl negb. cbv iota.
  destruct (group miss =? group hit) eqn:E1; [covers_simpl; range_solve|].
  unfold desc_lt in H5. rewrite u64_group_diff by (try done; lia). unfold loc_max. loc_laws.
  zcases; simpl; covers_simpl; range_solve.
Qed.

(** At a cache boundary the upstream fetches cover exactly the missed
    positions: the half-open intervals that [getFetchIntervals] returns for a
    miss that started at [miss] and ended at [hit] hold precisely the
    positions of the requested range delivered from [miss] on and before
    [hit], in either group order. *)
Theorem getFetchIntervals_exact start end_ miss hit order :
  valid_loc start → valid_loc end_ → valid_loc miss → valid_loc hit →
  start <=L miss → miss <L end_ → start <=L hit → hit <L end_ → before order miss hit →
  ∀ x, valid_loc x →
    covers_halfopen (getFetchIntervals start end_ miss hit order false) x ↔
    delivered_between order start end_ miss hit x.
Proof.
  intros. destruct (isNewestFirst order) eqn:Ho.
  - destruct order; try done. by apply getFetchIntervals_desc.
  - unfold getFetchIntervals, delivered_between, before, before_eq in *. rewrite Ho in *.
    simpl. covers_simpl. loc_solve.
Qed.

(** The iterator reports "no cached content left" with location [{0,0}]. *)
Definition exhausted : AbsoluteLocation := mkLoc 0 0.

(** The tail of a newest-first fetch is requested exactly when the miss
    starts at the first object of its group and the fetch does not reach
    group 0: the intervals then hold precisely what is delivered from [miss]
    on. *)
Theorem getFetchIntervals_tail_exact start end_ miss :
  valid_loc start → valid_loc end_ → valid_loc miss →
  start <=L miss → miss <L end_ → 0 < group start → object miss = 0 →
  ∀ x, valid_loc x →
    covers_halfopen (getFetchIntervals start end_ miss exhausted NewestFirst true) x ↔
    (start <=L x ∧ x <L end_ ∧ desc_le miss x).
Proof.
  intros Hs He Hm H1 H2 H3 H4 x Hx. unfold getFetchIntervals, exhausted. simpl.
  replace (group miss =? 0) with false by loc_solve.
  rewrite u64_group_pred by (try done; loc_solve).
  unfold loc_max. loc_laws. zcases; simpl; covers_simpl; range_solve.
Qed.

(** A newest-first tail miss that starts inside a group is over-fetched:
    when nothing is cached below and the fetch starts above group 1, the
    upstream fetches include group 1, which lies before the requested start. *)
Theorem getFetchIntervals_tail_overfetch start end_ miss :
  valid_loc start → valid_loc end_ → valid_loc miss →
  start <=L miss → miss <L end_ → 1 < group start → object miss ≠ 0 →
  covers_halfopen (getFetchIntervals start end_ miss exhausted NewestFirst true) (mkLoc 1 0) ∧
  mkLoc 1 0 <L start.
Proof.
  intros Hs He Hm H1 H2 H3 H4. unfold getFetchIntervals, exhausted. simpl.
  replace (group miss =? 0) with false by loc_solve.
  rewrite u64_group_pred by (try done; loc_solve).
  unfold loc_max. loc_laws. zcases; simpl; covers_simpl; range_solve.
Qed.

(** A newest-first tail miss that starts above group 0 never requests
    group 0, although a fetch that starts in group 0 asks for it. *)
Theorem getFetchIntervals_tail_drops_group0 start end_ miss x :
  valid_loc start → valid_loc end_ → valid_loc miss → valid_loc x →
  start <=L miss → miss <L end_ → group start = 0 → 0 < group miss →
  start <=L x → group x = 0 →
  ¬ covers_halfopen (getFetchIntervals start end_ miss exhausted NewestFirst true) x ∧
  delivered_between NewestFirst start end_ miss (mkLoc 0 (object x + 1)) x.
Proof.
  intros Hs He Hm Hx H1 H2 H3 H4 H5 H6. unfold getFetchIntervals, exhausted. simpl.
  replace (group miss =? 0) with false by loc_solve.
  rewrite u64_group_pred by (try done; loc_solve).
  unfold loc_max. loc_laws. zcases; simpl; covers_simpl; range_solve.
Qed.

Lemma computeDescendingAfterGap_cases current gapStart minLocation :
  valid_loc gapStart → valid_loc minLocation → gapStart <=L current →
  match computeDescendingAfterGap current gapStart minLocation with
  | Some a =>
      object a = (if group a =? group minLocation then object minLocation else 0) ∧
      (if (0 <? object gapStart) && (group gapStart <? group current)
       then group a = group gapStart else group a = group gapStart - 1)
  | None => group gapStart = 0 ∧ (object gapStart = 0 ∨ group current = 0)
  end.
Proof.
  intros Hg Hm Hle. unfold computeDescendingAfterGap. loc_laws.
  zcases; simpl in *; range_solve.
Qed.

(** Where a newest-first iteration continues after a gap, when the gap
    runs to the end of the current group: every position of the fetch between
    the current one and the new one lies in the gap, and when there is no new
    position everything left of the fetch lies in the gap. *)
Theorem computeDescendingAfterGap_skips_gap current gapStart gapEnd minLocation :
  valid_loc current → valid_loc gapStart → valid_loc gapEnd → valid_loc minLocation →
  gapStart <=L current → current <=L gapEnd → minLocation <=L current →
  mkLoc (group current) (object kLocationMax) <=L gapEnd →
  ∀ x, valid_loc x → minLocation <=L x → desc_le current x →
    match computeDescendingAfterGap current gapStart minLocation with
    | Some a => desc_lt x a
    | None => True
    end → gapStart <=L x ∧ x <=L gapEnd.
Proof.
  intros Hc Hs He Hm H1 H2 H3 H4 x Hx Hmx Hcx.
  pose proof (computeDescendingAfterGap_cases current gapStart minLocation Hs Hm H1) as Ha.
  destruct (computeDescendingAfterGap _ _ _) as [a|]; intros Hlt.
  - destruct Ha as [Ha1 Ha2]. unfold desc_lt, desc_le in *. zcases; range_solve.
  - unfold desc_le in *. range_solve.
Qed.

(** When the gap ends before the last object of the current group, the
    newest-first iteration loses objects: the position right after the gap,
    which is in the same group and still to be delivered, is skipped. *)
Theorem computeDescendingAfterGap_loses_objects current gapStart gapEnd minLocation :
  valid_loc current → valid_loc gapStart → valid_loc gapEnd → valid_loc minLocation →
  gapStart <=L current → current <=L gapEnd → minLocation <=L current →
  group gapEnd = group current → object gapEnd < object kLocationMax →
  let lost := mkLoc (group gapEnd) (object gapEnd + 1) in
  desc_lt current lost ∧ ¬ (gapStart <=L lost ∧ lost <=L gapEnd) ∧
  match computeDescendingAfterGap current gapStart minLocation with
  | Some a => desc_lt lost a
  | None => True
  end.
Proof.
  intros Hc Hs He Hm H1 H2 H3 H4 H5 lost.
  pose proof (computeDescendingAfterGap_cases current gapStart minLocation Hs Hm H1) as Ha.
  subst lost. unfold desc_lt. split_and!; [range_solve..|].
  destruct (computeDescendingAfterGap _ _ _) as [a|]; [|done].
  destruct Ha as [Ha1 Ha2]. zcases; range_solve.
Qed.
End RangeFacts.

(** ** Witnesses *)

Module RangeWitnesses.
Import StdLocations.

(** Decides the comparisons and the validity of concrete locations. *)
Ltac loc_check :=
  first
    [ apply loc_leb_iff; vm_compute; reflexivity
    | apply loc_ltb_iff; vm_compute; reflexivity
    | unfold valid_loc; vm_compute; repeat split; discriminate
    | left; vm_compute; reflexivity
    | vm_compute; first [reflexivity | discriminate] ].

Lemma getGapRanges_exact_witness :
  ∃ rs, getGapRanges (mkLoc 5 2) (mkLoc 3 4) NewestFirst (mkLoc 3 1) (mkLoc 5 8) = Some rs ∧
    (covers_inclusive rs (mkLoc 4 7) ↔
     delivered_between NewestFirst (mkLoc 3 1) (mkLoc 5 8) (mkLoc 5 2) (mkLoc 3 4) (mkLoc 4 7)).
Proof.
  destruct (getGapRanges_exact (mkLoc 5 2) (mkLoc 3 4) NewestFirst (mkLoc 3 1) (mkLoc 5 8))
    as (rs & E & Hrs); [loc_check..|].
  exists rs. split; [exact E|]. apply Hrs. loc_check.
Defined.

Lemma getFetchIntervals_exact_witness :
  covers_halfopen
    (getFetchIntervals (mkLoc 1 3) (mkLoc 5 8) (mkLoc 5 5) (mkLoc 2 4) NewestFirst false)
    (mkLoc 3 9) ↔
  delivered_between NewestFirst (mkLoc 1 3) (mkLoc 5 8) (mkLoc 5 5) (mkLoc 2 4) (mkLoc 3 9).
Proof. apply getFetchIntervals_exact; loc_check. Defined.

Lemma getFetchIntervals_tail_exact_witness :
  covers_halfopen
    (getFetchIntervals (mkLoc 2 3) (mkLoc 5 8) (mkLoc 4 0) exhausted NewestFirst true)
    (mkLoc 2 4) ↔
  (mkLoc 2 3 <=L mkLoc 2 4 ∧ mkLoc 2 4 <L mkLoc 5 8 ∧ desc_le (mkLoc 4 0) (mkLoc 2 4)).
Proof. apply getFetchIntervals_tail_exact; loc_check. Defined.

(** A fetch of group 4 alone with object 0 cached requests groups 1 to 3 too. *)
Lemma getFetchIntervals_tail_overfetch_witness :
  covers_halfopen
    (getFetchIntervals (mkLoc 4 0) (mkLoc 4 5) (mkLoc 4 2) exhausted NewestFirst true)
    (mkLoc 1 0) ∧ mkLoc 1 0 <L mkLoc 4 0.
Proof. apply getFetchIntervals_tail_overfetch; loc_check. Defined.

Lemma getFetchIntervals_tail_drops_group0_witness :
  ¬ covers_halfopen
    (getFetchIntervals (mkLoc 0 0) (mkLoc 3 0) (mkLoc 2 1) exhausted NewestFirst true)
    (mkLoc 0 5) ∧
  delivered_between NewestFirst (mkLoc 0 0) (mkLoc 3 0) (mkLoc 2 1) (mkLoc 0 6) (mkLoc 0 5).
Proof. apply getFetchIntervals_tail_drops_group0; loc_check. Defined.

Lemma computeDescendingAfterGap_skips_gap_witness :
  mkLoc 3 2 <=L mkLoc 4 1 ∧ mkLoc 4 1 <=L mkLoc 5 maxField.
Proof.
  apply (computeDescendingAfterGap_skips_gap (mkLoc 5 0) (mkLoc 3 2) (mkLoc 5 maxField) (mkLoc 1 0));
    loc_check.
Defined.

(** Objects 2 to 5 of group 3 do not exist; object 6 does, and is lost. *)
Lemma computeDescendingAfterGap_loses_objects_witness :
  desc_lt (mkLoc 3 2) (mkLoc 3 6) ∧ ¬ (mkLoc 3 2 <=L mkLoc 3 6 ∧ mkLoc 3 6 <=L mkLoc 3 5) ∧
  match computeDescendingAfterGap (mkLoc 3 2) (mkLoc 3 2) (mkLoc 2 0) with
  | Some a => desc_lt (mkLoc 3 6) a
  | None => True
  end.
Proof.
  apply (computeDescendingAfterGap_loses_objects (mkLoc 3 2) (mkLoc 3 2) (mkLoc 3 5) (mkLoc 2 0));
    loc_check.
Defined.
End RangeWitnesses.
