(* ===== verification/CacheStore.v ===== *)
(** * The object cache: data, LRU lists and eviction

    [MoqxCache.h] and the parts of [MoqxCache.cpp] that store objects: groups,
    tracks, the three LRU lists, the byte account and the eviction functions.

    Tracks and groups are shared objects ([std::shared_ptr] and references held
    by writebacks), so they live in heaps ([tracks], [groupHeap]) and are named
    by references; a track or group that has left the cache stays in its heap
    as long as somebody may hold it.  A [std::list] is a list of nodes with
    identities; an iterator is the identity of a node.  A definition returns
    [None] where the code aborts (a failed [XCHECK]), dereferences null, or
    uses an erased iterator, and where a loop does not terminate.

    moxygen's [Extensions] are the class [ExtensionOps]; a payload is the list
    of its bytes.  Time points are nanoseconds, durations milliseconds. *)

From S2P Require Import Prelude Locations CacheRanges.

(** ** moxygen's extensions *)

Class ExtensionOps (Extensions : Type) := {
  noExtensions : Extensions;
  getIntExtension : Extensions → Z → option Z;
  kPriorGroupIdGapExtensionType : Z;
  kPriorObjectIdGapExtensionType : Z;
  kMaxCacheDurationExtensionType : Z;
}.

(** Integer extensions are unsigned 64-bit values. *)
Class ExtensionLaws `{ExtensionOps Extensions} : Prop :=
  getIntExtension_u64 e t v : getIntExtension e t = Some v → is_u64 v.

Inductive PublishError :=
| MALFORMED_TRACK (msg : string)
| ConsumerError (code : Z).

Definition Payload : Type := option (list Z).

Definition computeChainDataLength (bytes : list Z) : Z := Z.of_nat (length bytes).
Definition payloadLength (p : Payload) : Z :=
  match p with Some bytes => computeChainDataLength bytes | None => 0 end.

(** ** [std::list] *)

Notation nodes A := (list (Z * A)).

(** [erase]: undefined unless the iterator denotes a node of the list. *)
Definition eraseNode {A} (it : Z) (l : nodes A) : option (nodes A) :=
  if decide (it ∈ l.*1) then Some (filter (λ p, p.1 ≠ it) l) else None.

Definition eraseMaybe {A} (it : option Z) (l : nodes A) : option (nodes A) :=
  match it with Some n => eraseNode n l | None => Some l end.

Section Store.
Context `{LocationOps} {IS : Type} `{IntervalOps IS} {Extensions : Type}
        `{ExtensionOps Extensions} {FullTrackName : Type} `{Countable FullTrackName}.

(** ** Data *)

Record CacheEntry := mkEntry {
  subgroup : Z;
  status : ObjectStatus;
  ce_extensions : Extensions;
  payload : Payload;
  payloadSize : Z;
  complete : bool;
  forwardingPreferenceIsDatagram : bool;
  cachedAt : Z;
}.

Record CacheGroup := mkGroup {
  objects : gmap Z CacheEntry;
  maxCachedObject : Z;
  endOfGroup : bool;
  seenPriorGroupIdGap : option Z;
  totalBytes : Z;
  lruIter_ : option Z;
  globalLruIter_ : option Z;
}.

Record FetchInProgressEntry := mkFetch {
  fetch_end : AbsoluteLocation;
  progress : AbsoluteLocation;
  writeback : Z;
}.

Record CacheTrack := mkTrack {
  groups : gmap Z Z;
  gaps : IS;
  cachedContent : IS;
  liveWritebackCount : Z;
  endOfTrack : bool;
  largestGroupAndObject : option AbsoluteLocation;
  (** [std::map], in ascending order of the key *)
  fetchesInProgress : list (AbsoluteLocation * FetchInProgressEntry);
  trackLruIter_ : option Z;
  groupLRU : nodes Z;
  maxCacheDuration : option Z;
  extensions : Extensions;
  evicted : bool;
  lastWrite : option Z;
}.

Record MoqxCache := mkCache {
  tracks : gmap Z CacheTrack;
  groupHeap : gmap Z CacheGroup;
  cache_ : gmap FullTrackName Z;
  trackLRU_ : nodes FullTrackName;
  globalGroupLRU_ : nodes (FullTrackName * Z);
  maxCachedTracks_ : Z;
  maxCachedGroupsPerTrack_ : Z;
  maxCachedBytes_ : Z;
  minEvictionBytes_ : Z;
  totalCachedBytes_ : Z;
  defaultMaxCacheDuration_ : option Z;
  maxAllowedCacheDuration_ : option Z;
  (** the next unused reference or node identity *)
  nextRef : Z;
}.

Definition newGroup : CacheGroup := mkGroup ∅ 0 false None 0 None None.
Definition newTrack : CacheTrack :=
  mkTrack ∅ iv_empty iv_empty 0 false None [] None [] None noExtensions false None.
Definition newCache (maxTracks maxGroups maxBytes minEviction : Z) : MoqxCache :=
  mkCache ∅ ∅ ∅ [] [] maxTracks maxGroups maxBytes minEviction 0 None None 0.

(** *** Field updates *)

Definition set_objects (m : gmap Z CacheEntry) (g : CacheGroup) : CacheGroup :=
  mkGroup m (maxCachedObject g) (endOfGroup g) (seenPriorGroupIdGap g) (totalBytes g)
    (lruIter_ g) (globalLruIter_ g).
Definition set_maxCachedObject (n : Z) (g : CacheGroup) : CacheGroup :=
  mkGroup (objects g) n (endOfGroup g) (seenPriorGroupIdGap g) (totalBytes g)
    (lruIter_ g) (globalLruIter_ g).
Definition set_endOfGroup (b : bool) (g : CacheGroup) : CacheGroup :=
  mkGroup (objects g) (maxCachedObject g) b (seenPriorGroupIdGap g) (totalBytes g)
    (lruIter_ g) (globalLruIter_ g).
Definition set_seenPriorGroupIdGap (n : Z) (g : CacheGroup) : CacheGroup :=
  mkGroup (objects g) (maxCachedObject g) (endOfGroup g) (Some n) (totalBytes g)
    (lruIter_ g) (globalLruIter_ g).
Definition set_totalBytes (n : Z) (g : CacheGroup) : CacheGroup :=
  mkGroup (objects g) (maxCachedObject g) (endOfGroup g) (seenPriorGroupIdGap g) n
    (lruIter_ g) (globalLruIter_ g).
Definition set_iters (i j : option Z) (g : CacheGroup) : CacheGroup :=
  mkGroup (objects g) (maxCachedObject g) (endOfGroup g) (seenPriorGroupIdGap g) (totalBytes g)
    i j.

Definition set_groups (m : gmap Z Z) (t : CacheTrack) : CacheTrack :=
  mkTrack m (gaps t) (cachedContent t) (liveWritebackCount t) (endOfTrack t)
    (largestGroupAndObject t) (fetchesInProgress t) (trackLruIter_ t) (groupLRU t)
    (maxCacheDuration t) (extensions t) (evicted t) (lastWrite t).
Definition set_gaps (s : IS) (t : CacheTrack) : CacheTrack :=
  mkTrack (groups t) s (cachedContent t) (liveWritebackCount t) (endOfTrack t)
    (largestGroupAndObject t) (fetchesInProgress t) (trackLruIter_ t) (groupLRU t)
    (maxCacheDuration t) (extensions t) (evicted t) (lastWrite t).
Definition set_content (s : IS) (t : CacheTrack) : CacheTrack :=
  mkTrack (groups t) (gaps t) s (liveWritebackCount t) (endOfTrack t)
    (largestGroupAndObject t) (fetchesInProgress t) (trackLruIter_ t) (groupLRU t)
    (maxCacheDuration t) (extensions t) (evicted t) (lastWrite t).
Definition set_live (n : Z) (t : CacheTrack) : CacheTrack :=
  mkTrack (groups t) (gaps t) (cachedContent t) n (endOfTrack t)
    (largestGroupAndObject t) (fetchesInProgress t) (trackLruIter_ t) (groupLRU t)
    (maxCacheDuration t) (extensions t) (evicted t) (lastWrite t).
Definition set_largest (eot : bool) (l : AbsoluteLocation) (t : CacheTrack) : CacheTrack :=
  mkTrack (groups t) (gaps t) (cachedContent t) (liveWritebackCount t) eot
    (Some l) (fetchesInProgress t) (trackLruIter_ t) (groupLRU t)
    (maxCacheDuration t) (extensions t) (evicted t) (lastWrite t).
Definition set_trackLruIter (i : option Z) (t : CacheTrack) : CacheTrack :=
  mkTrack (groups t) (gaps t) (cachedContent t) (liveWritebackCount t) (endOfTrack t)
    (largestGroupAndObject t) (fetchesInProgress t) i (groupLRU t)
    (maxCacheDuration t) (extensions t) (evicted t) (lastWrite t).
Definition set_groupLRU (l : nodes Z) (t : CacheTrack) : CacheTrack :=
  mkTrack (groups t) (gaps t) (cachedContent t) (liveWritebackCount t) (endOfTrack t)
    (largestGroupAndObject t) (fetchesInProgress t) (trackLruIter_ t) l
    (maxCacheDuration t) (extensions t) (evicted t) (lastWrite t).
Definition set_duration (d : option Z) (t : CacheTrack) : CacheTrack :=
  mkTrack (groups t) (gaps t) (cachedContent t) (liveWritebackCount t) (endOfTrack t)
    (largestGroupAndObject t) (fetchesInProgress t) (trackLruIter_ t) (groupLRU t)
    d (extensions t) (evicted t) (lastWrite t).
Definition set_extensions (e : Extensions) (t : CacheTrack) : CacheTrack :=
  mkTrack (groups t) (gaps t) (cachedContent t) (liveWritebackCount t) (endOfTrack t)
    (largestGroupAndObject t) (fetchesInProgress t) (trackLruIter_ t) (groupLRU t)
    (maxCacheDuration t) e (evicted t) (lastWrite t).
Definition set_evicted (t : CacheTrack) : CacheTrack :=
  mkTrack (groups t) (gaps t) (cachedContent t) (liveWritebackCount t) (endOfTrack t)
    (largestGroupAndObject t) (fetchesInProgress t) (trackLruIter_ t) (groupLRU t)
    (maxCacheDuration t) (extensions t) true (lastWrite t).
Definition set_lastWrite (now : Z) (t : CacheTrack) : CacheTrack :=
  mkTrack (groups t) (gaps t) (cachedContent t) (liveWritebackCount t) (endOfTrack t)
    (largestGroupAndObject t) (fetchesInProgress t) (trackLruIter_ t) (groupLRU t)
    (maxCacheDuration t) (extensions t) (evicted t) (Some now).

Definition with_tracks (m : gmap Z CacheTrack) (st : MoqxCache) : MoqxCache :=
  mkCache m (groupHeap st) (cache_ st) (trackLRU_ st) (globalGroupLRU_ st)
    (maxCachedTracks_ st) (maxCachedGroupsPerTrack_ st) (maxCachedBytes_ st)
    (minEvictionBytes_ st) (totalCachedBytes_ st) (defaultMaxCacheDuration_ st)
    (maxAllowedCacheDuration_ st) (nextRef st).
Definition with_groupHeap (m : gmap Z CacheGroup) (st : MoqxCache) : MoqxCache :=
  mkCache (tracks st) m (cache_ st) (trackLRU_ st) (globalGroupLRU_ st)
    (maxCachedTracks_ st) (maxCachedGroupsPerTrack_ st) (maxCachedBytes_ st)
    (minEvictionBytes_ st) (totalCachedBytes_ st) (defaultMaxCacheDuration_ st)
    (maxAllowedCacheDuration_ st) (nextRef st).
Definition with_cache (m : gmap FullTrackName Z) (st : MoqxCache) : MoqxCache :=
  mkCache (tracks st) (groupHeap st) m (trackLRU_ st) (globalGroupLRU_ st)
    (maxCachedTracks_ st) (maxCachedGroupsPerTrack_ st) (maxCachedBytes_ st)
    (minEvictionBytes_ st) (totalCachedBytes_ st) (defaultMaxCacheDuration_ st)
    (maxAllowedCacheDuration_ st) (nextRef st).
Definition with_trackLRU (l : nodes FullTrackName) (st : MoqxCache) : MoqxCache :=
  mkCache (tracks st) (groupHeap st) (cache_ st) l (globalGroupLRU_ st)
    (maxCachedTracks_ st) (maxCachedGroupsPerTrack_ st) (maxCachedBytes_ st)
    (minEvictionBytes_ st) (totalCachedBytes_ st) (defaultMaxCacheDuration_ st)
    (maxAllowedCacheDuration_ st) (nextRef st).
Definition with_globalLRU (l : nodes (FullTrackName * Z)) (st : MoqxCache) : MoqxCache :=
  mkCache (tracks st) (groupHeap st) (cache_ st) (trackLRU_ st) l
    (maxCachedTracks_ st) (maxCachedGroupsPerTrack_ st) (maxCachedBytes_ st)
    (minEvictionBytes_ st) (totalCachedBytes_ st) (defaultMaxCacheDuration_ st)
    (maxAllowedCacheDuration_ st) (nextRef st).
Definition with_bytes (n : Z) (st : MoqxCache) : MoqxCache :=
  mkCache (tracks st) (groupHeap st) (cache_ st) (trackLRU_ st) (globalGroupLRU_ st)
    (maxCachedTracks_ st) (maxCachedGroupsPerTrack_ st) (maxCachedBytes_ st)
    (minEvictionBytes_ st) n (defaultMaxCacheDuration_ st)
    (maxAllowedCacheDuration_ st) (nextRef st).
Definition with_limits (t g b m : Z) (st : MoqxCache) : MoqxCache :=
  mkCache (tracks st) (groupHeap st) (cache_ st) (trackLRU_ st) (globalGroupLRU_ st)
    t g b m (totalCachedBytes_ st) (defaultMaxCacheDuration_ st)
    (maxAllowedCacheDuration_ st) (nextRef st).
Definition with_durations (d a : option Z) (st : MoqxCache) : MoqxCache :=
  mkCache (tracks st) (groupHeap st) (cache_ st) (trackLRU_ st) (globalGroupLRU_ st)
    (maxCachedTracks_ st) (maxCachedGroupsPerTrack_ st) (maxCachedBytes_ st)
    (minEvictionBytes_ st) (totalCachedBytes_ st) d a (nextRef st).
Definition with_nextRef (n : Z) (st : MoqxCache) : MoqxCache :=
  mkCache (tracks st) (groupHeap st) (cache_ st) (trackLRU_ st) (globalGroupLRU_ st)
    (maxCachedTracks_ st) (maxCachedGroupsPerTrack_ st) (maxCachedBytes_ st)
    (minEvictionBytes_ st) (totalCachedBytes_ st) (defaultMaxCacheDuration_ st)
    (maxAllowedCacheDuration_ st) n.

(** Write through a reference to a track or to a group. *)
Definition put_track (r : Z) (t : CacheTrack) (st : MoqxCache) : MoqxCache :=
  with_tracks (<[r := t]> (tracks st)) st.
Definition put_group (g : Z) (grp : CacheGroup) (st : MoqxCache) : MoqxCache :=
  with_groupHeap (<[g := grp]> (groupHeap st)) st.

(** [std::make_shared<CacheTrack>] emplaced in [cache_], and
    [std::make_shared<CacheGroup>] emplaced in the groups of a track. *)
Definition emplaceTrack (ftn : FullTrackName) (st : MoqxCache) : MoqxCache * Z :=
  let r := nextRef st in
  (with_nextRef (r + 1) (with_cache (<[ftn := r]> (cache_ st)) (put_track r newTrack st)), r).

Definition emplaceGroup (r groupID : Z) (t : CacheTrack) (st : MoqxCache) : MoqxCache * Z :=
  let g := nextRef st in
  (with_nextRef (g + 1)
     (put_track r (set_groups (<[groupID := g]> (groups t)) t) (put_group g newGroup st)), g).

(** ** Track LRU *)

Definition canEvict (t : CacheTrack) : bool :=
  (liveWritebackCount t =? 0) && bool_decide (fetchesInProgress t = []).

Definition shouldSkipCaching (t : CacheTrack) : bool :=
  evicted t || match maxCacheDuration t with Some d => d =? 0 | None => false end.

Definition addTrackToLRU (ftn : FullTrackName) (r : Z) (st : MoqxCache) : option MoqxCache :=
  t ← tracks st !! r;
  match trackLruIter_ t with
  | Some _ => Some st
  | None =>
      let n := nextRef st in
      Some (put_track r (set_trackLruIter (Some n) t)
              (with_nextRef (n + 1) (with_trackLRU ((n, ftn) :: trackLRU_ st) st)))
  end.

Definition removeTrackFromLRU (r : Z) (st : MoqxCache) : option MoqxCache :=
  t ← tracks st !! r;
  match trackLruIter_ t with
  | None => Some st
  | Some n =>
      l ← eraseNode n (trackLRU_ st);
      Some (put_track r (set_trackLruIter None t) (with_trackLRU l st))
  end.

Definition onTrackBecameEvictable (ftn : FullTrackName) (st : MoqxCache) : option MoqxCache :=
  match cache_ st !! ftn with
  | None => Some st
  | Some r =>
      t ← tracks st !! r;
      if canEvict t then addTrackToLRU ftn r st else Some st
  end.

(** ** Group LRU *)

Definition addGroupToLRU (ftn : FullTrackName) (groupID g r : Z) (st : MoqxCache) :
    option MoqxCache :=
  grp ← groupHeap st !! g;
  t ← tracks st !! r;
  match lruIter_ grp with
  | Some _ => Some st
  | None =>
      let n := nextRef st in
      Some (put_group g (set_iters (Some n) (Some (n + 1)) grp)
             (put_track r (set_groupLRU ((n, groupID) :: groupLRU t) t)
               (with_nextRef (n + 2)
                 (with_globalLRU ((n + 1, (ftn, groupID)) :: globalGroupLRU_ st) st))))
  end.

Definition removeGroupFromLRU (g r : Z) (st : MoqxCache) : option MoqxCache :=
  grp ← groupHeap st !! g;
  t ← tracks st !! r;
  match lruIter_ grp with
  | None => Some st
  | Some n =>
      l ← eraseNode n (groupLRU t);
      gl ← eraseMaybe (globalLruIter_ grp) (globalGroupLRU_ st);
      Some (put_group g (set_iters None None grp)
             (put_track r (set_groupLRU l t) (with_globalLRU gl st)))
  end.

(** ** Eviction *)

Definition groupRange (groupID : Z) : interval :=
  (mkLoc groupID 0, mkLoc groupID (object kLocationMax)).

Definition evictGroup (r groupID : Z) (st : MoqxCache) : option MoqxCache :=
  t ← tracks st !! r;
  match groups t !! groupID with
  | None => Some st
  | Some g =>
      grp ← groupHeap st !! g;
      l ← eraseMaybe (lruIter_ grp) (groupLRU t);
      gl ← eraseMaybe (globalLruIter_ grp) (globalGroupLRU_ st);
      let content := iv_remove (cachedContent t) (groupRange groupID).1 (groupRange groupID).2 in
      (* XCHECK_GE(totalCachedBytes_, group.totalBytes) *)
      if totalCachedBytes_ st <? totalBytes grp then None else
      Some (put_track r
              (set_groups (delete groupID (groups t)) (set_content content (set_groupLRU l t)))
              (with_bytes (totalCachedBytes_ st - totalBytes grp) (with_globalLRU gl st)))
  end.

(** [while (!track.groups.empty()) evictGroup(track, track.groups.begin()->first)]:
    every call erases its group, so the loop visits each group once. *)
Fixpoint evictGroups (r : Z) (ids : list Z) (st : MoqxCache) : option MoqxCache :=
  match ids with
  | [] => Some st
  | groupID :: rest => st' ← evictGroup r groupID st; evictGroups r rest st'
  end.

Definition evictTrack (ftn : FullTrackName) (st : MoqxCache) : option (MoqxCache * Z) :=
  match cache_ st !! ftn with
  | None => Some (st, 0)
  | Some r =>
      t ← tracks st !! r;
      l ← eraseMaybe (trackLruIter_ t) (trackLRU_ st);
      st' ← evictGroups r (map_to_list (groups t)).*1
              (put_track r (set_evicted t) (with_trackLRU l st));
      Some (with_cache (delete ftn (cache_ st')) st', 1)
  end.

Definition cacheSize (st : MoqxCache) : Z := Z.of_nat (size (cache_ st)).

Definition evictOldestTrackIfNeeded (st : MoqxCache) : option (MoqxCache * bool) :=
  if (maxCachedTracks_ st =? 0) || (cacheSize st <? maxCachedTracks_ st) then Some (st, true)
  else match last (trackLRU_ st) with
       | None => Some (st, false)
       | Some (_, oldestTrack) => '(st', _) ← evictTrack oldestTrack st; Some (st', true)
       end.

(** [purge(ns)] and [purge()] snapshot the names before they evict. *)
Fixpoint evictTracks (names : list FullTrackName) (st : MoqxCache) : option (MoqxCache * Z) :=
  match names with
  | [] => Some (st, 0)
  | ftn :: rest =>
      '(st1, n) ← evictTrack ftn st;
      '(st2, m) ← evictTracks rest st1;
      Some (st2, n + m)
  end.

Definition cachedNames (st : MoqxCache) : list FullTrackName := (map_to_list (cache_ st)).*1.

Definition purge (ftn : FullTrackName) (st : MoqxCache) : option (MoqxCache * Z) :=
  evictTrack ftn st.

(** [inNamespace] compares the namespace of a track name with the argument. *)
Definition purgeNamespace (inNamespace : FullTrackName → bool) (st : MoqxCache) :
    option (MoqxCache * Z) :=
  evictTracks (filter (λ ftn, inNamespace ftn = true) (cachedNames st)) st.

Definition purgeAll (st : MoqxCache) : option (MoqxCache * Z) :=
  '(st', _) ← evictTracks (cachedNames st) st;
  Some (st', Z.of_nat (length (cachedNames st))).

(** The loop removes at least the last node of the LRU list in every round that
    changes the state, so [S (length (groupLRU t))] rounds are enough unless it
    does not terminate. *)
Fixpoint evictOldestGroups (fuel : nat) (r : Z) (st : MoqxCache) : option MoqxCache :=
  t ← tracks st !! r;
  if maxCachedGroupsPerTrack_ st <? Z.of_nat (size (groups t)) then
    match last (groupLRU t) with
    | None => Some st
    | Some (_, oldestGroupID) =>
        match fuel with
        | O => None
        | S fuel' => st' ← evictGroup r oldestGroupID st; evictOldestGroups fuel' r st'
        end
    end
  else Some st.

Definition evictOldestGroupsIfNeeded (r : Z) (st : MoqxCache) : option MoqxCache :=
  if maxCachedGroupsPerTrack_ st =? 0 then Some st
  else t ← tracks st !! r; evictOldestGroups (S (length (groupLRU t))) r st.

(** One round of the loop of [evictForByteLimitIfNeeded].  [XLOG(DFATAL)] logs
    in an optimised build. *)
Definition evictOldestGroup (ftn : FullTrackName) (groupID : Z) (st : MoqxCache) :
    option MoqxCache :=
  match cache_ st !! ftn with
  | None => Some (with_globalLRU (removelast (globalGroupLRU_ st)) st)
  | Some r =>
      st' ← evictGroup r groupID st;
      t ← tracks st' !! r;
      if bool_decide (groups t = ∅) && canEvict t
      then '(st'', _) ← evictTrack ftn st'; Some st''
      else Some st'
  end.

Definition targetBytes (st : MoqxCache) : Z :=
  if minEvictionBytes_ st <? maxCachedBytes_ st
  then maxCachedBytes_ st - minEvictionBytes_ st else 0.

Fixpoint evictForByteLimit (fuel : nat) (st : MoqxCache) : option MoqxCache :=
  if targetBytes st <? totalCachedBytes_ st then
    match last (globalGroupLRU_ st) with
    | None => Some st
    | Some (_, (ftn, groupID)) =>
        match fuel with
        | O => None
        | S fuel' => st' ← evictOldestGroup ftn groupID st; evictForByteLimit fuel' st'
        end
    end
  else Some st.

(** A round that leaves the LRU list as it is either repeats forever or evicts
    a track shell, after which the next round pops the node: twice the length
    of the list is enough. *)
Definition evictForByteLimitIfNeeded (st : MoqxCache) : option (MoqxCache * bool) :=
  if (maxCachedBytes_ st =? 0) || (totalCachedBytes_ st <=? maxCachedBytes_ st)
  then Some (st, true)
  else st' ← evictForByteLimit (2 * length (globalGroupLRU_ st)) st;
       Some (st', totalCachedBytes_ st' <=? maxCachedBytes_ st').

(** [clear()] *)
Definition clear (st : MoqxCache) : MoqxCache :=
  with_bytes 0 (with_trackLRU [] (with_cache ∅
    (with_tracks
       (map_imap (λ r t, Some (if bool_decide (r ∈ (map_to_list (cache_ st)).*2)
                               then set_evicted t else t)) (tracks st)) st))).

(** *** Setters *)

Fixpoint evictTracksDown (fuel : nat) (st : MoqxCache) : option MoqxCache :=
  if (0 <? maxCachedTracks_ st) && (maxCachedTracks_ st <? cacheSize st) &&
     negb (bool_decide (trackLRU_ st = []))
  then match fuel with
       | O => None
       | S fuel' => '(st', _) ← evictOldestTrackIfNeeded st; evictTracksDown fuel' st'
       end
  else Some st.

Definition setMaxCachedTracks (maxTracks : Z) (st : MoqxCache) : option MoqxCache :=
  evictTracksDown (S (length (trackLRU_ st)))
    (with_limits maxTracks (maxCachedGroupsPerTrack_ st) (maxCachedBytes_ st)
       (minEvictionBytes_ st) st).

Definition setMaxCachedBytes (maxBytes : Z) (st : MoqxCache) : option MoqxCache :=
  '(st', _) ← evictForByteLimitIfNeeded
    (with_limits (maxCachedTracks_ st) (maxCachedGroupsPerTrack_ st) maxBytes
       (minEvictionBytes_ st) st);
  Some st'.

Definition setMinEvictionBytes (minBytes : Z) (st : MoqxCache) : MoqxCache :=
  with_limits (maxCachedTracks_ st) (maxCachedGroupsPerTrack_ st) (maxCachedBytes_ st)
    minBytes st.

Fixpoint evictGroupsOfTracks (refs : list Z) (st : MoqxCache) : option MoqxCache :=
  match refs with
  | [] => Some st
  | r :: rest => st' ← evictOldestGroupsIfNeeded r st; evictGroupsOfTracks rest st'
  end.

Definition setMaxCachedGroupsPerTrack (maxGroups : Z) (st : MoqxCache) : option MoqxCache :=
  let st' := with_limits (maxCachedTracks_ st) maxGroups (maxCachedBytes_ st)
               (minEvictionBytes_ st) st in
  if maxGroups <? maxCachedGroupsPerTrack_ st
  then evictGroupsOfTracks (map_to_list (cache_ st)).*2 st' else Some st'.

Definition setDefaultMaxCacheDuration (d : option Z) (st : MoqxCache) : MoqxCache :=
  with_durations d (maxAllowedCacheDuration_ st) st.
Definition setMaxAllowedCacheDuration (d : option Z) (st : MoqxCache) : MoqxCache :=
  with_durations (defaultMaxCacheDuration_ st) d st.

(** ** Cache durations *)

Definition findOrCreateTrack (ftn : FullTrackName) (st : MoqxCache) : option (MoqxCache * Z) :=
  match cache_ st !! ftn with
  | Some r => Some (st, r)
  | None =>
      let '(st1, r) := emplaceTrack ftn st in
      st2 ← addTrackToLRU ftn r st1; Some (st2, r)
  end.

Definition setMaxCacheDuration (ftn : FullTrackName) (d : Z) (st : MoqxCache) :
    option MoqxCache :=
  '(st', r) ← findOrCreateTrack ftn st;
  t ← tracks st' !! r;
  Some (put_track r (set_duration (Some d) t) st').

Definition clearMaxCacheDuration (ftn : FullTrackName) (st : MoqxCache) : option MoqxCache :=
  match cache_ st !! ftn with
  | None => Some st
  | Some r => t ← tracks st !! r; Some (put_track r (set_duration None t) st)
  end.

(** [std::chrono::milliseconds] of an unsigned value: a 64-bit signed count. *)
Definition toMilliseconds (ms : Z) : Z := if ms <? 2 ^ 63 then ms else ms - 2 ^ 64.

Definition getEffectiveCacheDuration (e : Extensions) (st : MoqxCache) : option Z :=
  match getIntExtension e kMaxCacheDurationExtensionType with
  | Some ms =>
      Some (match maxAllowedCacheDuration_ st with
            | Some cap => Z.min (toMilliseconds ms) cap
            | None => toMilliseconds ms
            end)
  | None => defaultMaxCacheDuration_ st
  end.

Definition setTrackExtensions (ftn : FullTrackName) (e : Extensions) (st : MoqxCache) :
    option MoqxCache :=
  st1 ← match getEffectiveCacheDuration e st with
        | Some dur => setMaxCacheDuration ftn dur st
        | None => clearMaxCacheDuration ftn st
        end;
  '(st2, r) ← findOrCreateTrack ftn st1;
  t ← tracks st2 !! r;
  Some (put_track r (set_extensions e t) st2).

(** ** Storing an object *)

Definition kMaxGapValidation : Z := 100.

(** [CacheTrack::updateLargest] *)
Definition updateLargest (current : AbsoluteLocation) (eot : bool) (t : CacheTrack) :
    CacheTrack * Expected PublishError unit :=
  if match largestGroupAndObject t with Some l => l <?L current | None => true end then
    if endOfTrack t then (t, unexpected (MALFORMED_TRACK "Malformed track"))
    else (set_largest eot current t, value tt)
  else if eot && negb (match largestGroupAndObject t with
                       | Some l => current =?L l | None => false end)
  then (t, unexpected (MALFORMED_TRACK "Malformed track"))
  else (t, value tt).

Definition insertGap (a b : AbsoluteLocation) (t : CacheTrack) : CacheTrack :=
  set_content (iv_insert (cachedContent t) a b) (set_gaps (iv_insert (gaps t) a b) t).

(** [getOrCreateGroup]: no LRU node for a new group. *)
Definition getOrCreateGroup (r groupID : Z) (st : MoqxCache) : option (MoqxCache * Z) :=
  t ← tracks st !! r;
  match groups t !! groupID with
  | Some g => Some (st, g)
  | None => Some (emplaceGroup r groupID t st)
  end.

Definition getOrCreateGroupWithEviction (ftn : FullTrackName) (r groupID : Z) (st : MoqxCache) :
    option (MoqxCache * Z) :=
  t ← tracks st !! r;
  match groups t !! groupID with
  | Some g => Some (st, g)
  | None =>
      st1 ← evictOldestGroupsIfNeeded r st;
      t1 ← tracks st1 !! r;
      let '(st2, g) := emplaceGroup r groupID t1 st1 in
      st3 ← addGroupToLRU ftn groupID g r st2;
      Some (st3, g)
  end.

(** The scans of [processGapExtensions]: the last [min gap 100] groups before
    [groupID] that hold an object, the last [min gap 100] objects before
    [objectID]. *)
Definition scanned (id gap : Z) : list Z :=
  seqZ (id - Z.min gap kMaxGapValidation) (Z.min gap kMaxGapValidation).

Definition holdsObject (st : MoqxCache) (t : CacheTrack) (groupID : Z) : bool :=
  match groups t !! groupID with
  | Some g => match groupHeap st !! g with
              | Some grp => negb (bool_decide (objects grp = ∅))
              | None => false
              end
  | None => false
  end.

Definition priorGroupGap (r groupID gap : Z) (st : MoqxCache) :
    option (MoqxCache * Expected PublishError unit) :=
  if groupID <? gap then
    Some (st, unexpected (MALFORMED_TRACK "Prior Group ID Gap larger than Group ID"))
  else
    '(st1, g) ← getOrCreateGroup r groupID st;
    grp ← groupHeap st1 !! g;
    match seenPriorGroupIdGap grp with
    | Some seen =>
        if seen =? gap then Some (st1, value tt)
        else Some (st1, unexpected (MALFORMED_TRACK
               "Inconsistent Prior Group ID Gap values in group"))
    | None =>
        let st2 := put_group g (set_seenPriorGroupIdGap gap grp) st1 in
        if 0 <? gap then
          t ← tracks st2 !! r;
          if existsb (holdsObject st2 t) (scanned groupID gap)
          then Some (st2, unexpected (MALFORMED_TRACK
                 "Prior Group ID Gap covers existing object"))
          else Some (put_track r (insertGap (mkLoc (groupID - gap) 0)
                       (mkLoc (groupID - 1) (object kLocationMax)) t) st2, value tt)
        else Some (st2, value tt)
    end.

Definition priorObjectGap (r groupID objectID gap : Z) (st : MoqxCache) :
    option (MoqxCache * Expected PublishError unit) :=
  if objectID <? gap then
    Some (st, unexpected (MALFORMED_TRACK "Prior Object ID Gap larger than Object ID"))
  else if 0 <? gap then
    '(st1, g) ← getOrCreateGroup r groupID st;
    grp ← groupHeap st1 !! g;
    t ← tracks st1 !! r;
    if existsb (λ o, bool_decide (is_Some (objects grp !! o))) (scanned objectID gap)
    then Some (st1, unexpected (MALFORMED_TRACK "Prior Object ID Gap covers existing object"))
    else Some (put_track r (insertGap (mkLoc groupID (objectID - gap))
                 (mkLoc groupID (objectID - 1)) t) st1, value tt)
  else Some (st, value tt).

(** [CacheTrack::processGapExtensions] *)
Definition processGapExtensions (r groupID objectID : Z) (e : Extensions) (st : MoqxCache) :
    option (MoqxCache * Expected PublishError unit) :=
  '(st1, res) ← match getIntExtension e kPriorGroupIdGapExtensionType with
                | Some gap => priorGroupGap r groupID gap st
                | None => Some (st, value tt)
                end;
  match res with
  | unexpected err => Some (st1, unexpected err)
  | value _ =>
      match getIntExtension e kPriorObjectIdGapExtensionType with
      | Some gap => priorObjectGap r groupID objectID gap st1
      | None => Some (st1, value tt)
      end
  end.

(** The gaps that an end-of-group or end-of-track object implies. *)
Definition endMarkerGaps (groupID objectID : Z) (s : ObjectStatus) (t : CacheTrack) :
    CacheTrack :=
  let t1 := match nextInGroup (mkLoc groupID objectID) with
            | Some n => insertGap n (mkLoc groupID (object kLocationMax)) t
            | None => t
            end in
  match s with
  | END_OF_TRACK => match nextGroup (mkLoc groupID 0) with
                    | Some n => insertGap n kLocationMax t1
                    | None => t1
                    end
  | _ => t1
  end.

(** Conflicts of a write with the object that is already cached. *)
Definition conflict (s : ObjectStatus) (p : Payload) (datagram : bool) (old : CacheEntry) :
    option PublishError :=
  if negb (bool_decide (s = status old)) then Some (MALFORMED_TRACK "Invalid status change")
  else if bool_decide (s = NORMAL) && complete old &&
          match p, payload old with
          | None, Some _ | Some _, None => true
          | Some b, Some _ => negb (computeChainDataLength b =? payloadSize old)
          | None, None => false
          end
  then Some (MALFORMED_TRACK "payload mismatch")
  else if negb (Bool.eqb (forwardingPreferenceIsDatagram old) datagram)
  then Some (MALFORMED_TRACK "forwardingPreference mismatch")
  else None.

(** Stores the entry in the group: an existing entry keeps its subgroup and
    forwarding preference. *)
Definition storeEntry (objectID sg : Z) (s : ObjectStatus) (e : Extensions) (p : Payload)
    (complete_ datagram : bool) (now : Z) (grp : CacheGroup) : CacheGroup :=
  match objects grp !! objectID with
  | Some old =>
      set_totalBytes (u64 (u64 (totalBytes grp - payloadSize old) + payloadLength p))
        (set_objects (<[objectID := mkEntry (subgroup old) s e p (payloadLength p) complete_
                                     (forwardingPreferenceIsDatagram old) now]> (objects grp)) grp)
  | None =>
      set_totalBytes (u64 (totalBytes grp + payloadLength p))
        (set_objects (<[objectID := mkEntry sg s e p (payloadLength p) complete_ datagram now]>
                        (objects grp)) grp)
  end.

(** [CacheGroup::cacheObject]: [g] is the group it is called on, [r] the track. *)
Definition cacheObject (g r groupID sg objectID : Z) (s : ObjectStatus) (e : Extensions)
    (p : Payload) (complete_ datagram : bool) (now : Z) (st : MoqxCache) :
    option (MoqxCache * Expected PublishError unit) :=
  t ← tracks st !! r;
  if iv_contains (gaps t) (mkLoc groupID objectID) then
    Some (st, unexpected (MALFORMED_TRACK "Object in known gap"))
  else
    '(st1, gapRes) ← processGapExtensions r groupID objectID e st;
    match gapRes with
    | unexpected err => Some (st1, unexpected err)
    | value _ =>
        t1 ← tracks st1 !! r;
        grp1 ← groupHeap st1 !! g;
        let '(t2, grp2) :=
          if bool_decide (s = END_OF_GROUP ∨ s = END_OF_TRACK)
          then (endMarkerGaps groupID objectID s t1, set_endOfGroup true grp1)
          else (t1, grp1) in
        let st2 := put_group g grp2 (put_track r t2 st1) in
        match objects grp2 !! objectID ≫= conflict s p datagram with
        | Some err => Some (st2, unexpected err)
        | None =>
            let grp3 := storeEntry objectID sg s e p complete_ datagram now grp2 in
            let grp4 := if maxCachedObject grp3 <=? objectID
                        then set_maxCachedObject objectID grp3 else grp3 in
            let t3 := if complete_
                      then set_content (iv_insert (cachedContent t2) (mkLoc groupID objectID)
                                          (mkLoc groupID objectID)) t2
                      else t2 in
            Some (put_group g grp4 (put_track r t3 st2), value tt)
        end
    end.

(** [cacheObjectAndUpdateBytes] *)
Definition cacheObjectAndUpdateBytes (g r groupID sg objectID : Z) (s : ObjectStatus)
    (e : Extensions) (p : Payload) (complete_ datagram : bool) (now : Z) (st : MoqxCache) :
    option (MoqxCache * Expected PublishError unit) :=
  grp ← groupHeap st !! g;
  let oldGroupBytes := totalBytes grp in
  '(st1, res) ← cacheObject g r groupID sg objectID s e p complete_ datagram now st;
  match res with
  | unexpected err => Some (st1, unexpected err)
  | value _ =>
      grp1 ← groupHeap st1 !! g;
      st2 ← (if oldGroupBytes <=? totalBytes grp1 then
               Some (with_bytes (u64 (totalCachedBytes_ st1 + (totalBytes grp1 - oldGroupBytes)))
                       st1)
             else if totalCachedBytes_ st1 <? oldGroupBytes - totalBytes grp1 then None
             else Some (with_bytes (totalCachedBytes_ st1 - (oldGroupBytes - totalBytes grp1))
                          st1));
      t ← tracks st2 !! r;
      '(st3, _) ← evictForByteLimitIfNeeded (put_track r (set_lastWrite now t) st2);
      Some (st3, value tt)
  end.

(** ** Looking an object up *)

(** The comparison converts the duration to nanoseconds in a 64-bit signed
    count, whose overflow is undefined. *)
Definition toNanoseconds (ms : Z) : option Z :=
  if (- 2 ^ 63 <=? ms * 1000000) && (ms * 1000000 <? 2 ^ 63) then Some (ms * 1000000) else None.

Definition effectiveDuration (t : CacheTrack) (st : MoqxCache) : option Z :=
  match maxCacheDuration t with Some d => Some d | None => defaultMaxCacheDuration_ st end.

Definition isExpired (now : Z) (t : CacheTrack) (st : MoqxCache) (entry : CacheEntry) :
    option bool :=
  match effectiveDuration t st with
  | None => Some false
  | Some d => ns ← toNanoseconds d; Some (ns <? now - cachedAt entry)
  end.

(** [getCachedObjectMaybe]: an expired object is dropped. *)
Definition getCachedObjectMaybe (r : Z) (current : AbsoluteLocation) (now : Z)
    (st : MoqxCache) : option (MoqxCache * option CacheEntry) :=
  t ← tracks st !! r;
  match groups t !! group current with
  | None => Some (st, None)
  | Some g =>
      grp ← groupHeap st !! g;
      match objects grp !! object current with
      | None => Some (st, None)
      | Some entry =>
          expired ← isExpired now t st entry;
          if (expired : bool) then
            let grp' := set_objects (delete (object current) (objects grp))
                          (set_totalBytes (u64 (totalBytes grp - payloadSize entry)) grp) in
            Some (put_track r (set_content (iv_remove (cachedContent t) current current) t)
                    (put_group g grp'
                      (with_bytes (u64 (totalCachedBytes_ st - payloadSize entry)) st)), None)
          else Some (st, if complete entry then Some entry else None)
      end
  end.

Definition hasTrack (ftn : FullTrackName) (st : MoqxCache) : bool :=
  bool_decide (is_Some (cache_ st !! ftn)).

Definition hasCachedObject (ftn : FullTrackName) (obj : AbsoluteLocation) (now : Z)
    (st : MoqxCache) : option (MoqxCache * bool) :=
  match cache_ st !! ftn with
  | None => Some (st, false)
  | Some r => '(st', e) ← getCachedObjectMaybe r obj now st; Some (st', bool_decide (is_Some e))
  end.

(** [findFetchInProgress]: the entry with the greatest key not above [loc]. *)
Definition findFetchInProgress (loc : AbsoluteLocation) (t : CacheTrack) : option Z :=
  match last (filter (λ p, (p.1 <=?L loc) = true) (fetchesInProgress t)) with
  | None => None
  | Some (start, f) =>
      if (start <=?L loc) && (loc <?L fetch_end f) && (progress f <=?L loc)
      then Some (writeback f) else None
  end.

(** ** Writebacks

    The consumer behind a writeback is not part of the cache: a call that is
    the last thing a method does is the method's outcome ([Forward]), and a
    rejected write carries the calls made before it returns. *)

Inductive Call :=
| CallObject (objID : Z) (p : Payload) (e : Extensions) (fin : bool)
| CallBeginObject (objID length : Z) (p : Payload) (e : Extensions)
| CallObjectPayload (bytes : list Z) (fin : bool)
| CallEndOfGroup (objID : Z)
| CallEndOfTrackAndGroup (objID : Z)
| CallReset
| CallObjectStream (groupID sg objID : Z) (s : ObjectStatus) (e : Extensions) (p : Payload)
| CallDatagram (groupID sg objID : Z) (s : ObjectStatus) (e : Extensions) (p : Payload).

Inductive Outcome :=
| Forward (c : Call)
| Reject (calls : list Call) (err : PublishError).

(** The header of an object: group, subgroup, id, status and extensions. *)
Record ObjectHeader := mkHeader {
  h_group : Z; h_subgroup : Z; h_id : Z; h_status : ObjectStatus; h_extensions : Extensions;
}.

Record SubgroupWriteback := mkSubgroup {
  group_ : Z;
  subgroup_ : Z;
  cacheTrack_ : Z;
  cacheGroup_ : Z;
  sg_ftn_ : FullTrackName;
  currentObject_ : Z;
  currentLength_ : Z;
}.

Record SubscribeWriteback := mkSubscribe {
  track_ : Z;
  ftn_ : FullTrackName;
}.

Definition newSubgroupWriteback (groupID sg : Z) (w : SubscribeWriteback) (g : Z)
    (st : MoqxCache) : option (MoqxCache * SubgroupWriteback) :=
  st' ← removeGroupFromLRU g (track_ w) st;
  Some (st', mkSubgroup groupID sg (track_ w) g (ftn_ w) 0 0).

(** [~SubgroupWriteback] *)
Definition closeSubgroup (w : SubgroupWriteback) (st : MoqxCache) : option MoqxCache :=
  addGroupToLRU (sg_ftn_ w) (group_ w) (cacheGroup_ w) (cacheTrack_ w) st.

(** The common shape of the writing methods of [SubgroupWriteback]: forward
    only, or update the largest location, cache, and forward. *)
Definition writeThrough (w : SubgroupWriteback) (objID : Z) (s : ObjectStatus)
    (eot : bool) (e : Extensions) (p : Payload) (complete_ : bool) (now : Z) (c : Call)
    (st : MoqxCache) : option (MoqxCache * Outcome) :=
  t ← tracks st !! cacheTrack_ w;
  if shouldSkipCaching t then Some (st, Forward c) else
  let '(t', res) := updateLargest (mkLoc (group_ w) objID) eot t in
  match res with
  | unexpected err => Some (st, Reject [CallReset] err)
  | value _ =>
      '(st', cacheRes) ← cacheObjectAndUpdateBytes (cacheGroup_ w) (cacheTrack_ w) (group_ w)
          (subgroup_ w) objID s e p complete_ false now (put_track (cacheTrack_ w) t' st);
      match cacheRes with
      | unexpected err => Some (st', Reject [CallReset] err)
      | value _ => Some (st', Forward c)
      end
  end.

Definition sgObject (w : SubgroupWriteback) (objID : Z) (p : Payload) (e : Extensions)
    (fin : bool) (now : Z) (st : MoqxCache) : option (MoqxCache * Outcome) :=
  writeThrough w objID NORMAL false e p true now (CallObject objID p e fin) st.

Definition sgEndOfGroup (w : SubgroupWriteback) (objID now : Z) (st : MoqxCache) :
    option (MoqxCache * Outcome) :=
  writeThrough w objID END_OF_GROUP false noExtensions None true now (CallEndOfGroup objID) st.

Definition sgEndOfTrackAndGroup (w : SubgroupWriteback) (objID now : Z) (st : MoqxCache) :
    option (MoqxCache * Outcome) :=
  writeThrough w objID END_OF_TRACK true noExtensions None true now
    (CallEndOfTrackAndGroup objID) st.

Definition sgBeginObject (w : SubgroupWriteback) (objID length_ : Z) (p : Payload)
    (e : Extensions) (now : Z) (st : MoqxCache) :
    option (MoqxCache * SubgroupWriteback * Outcome) :=
  t ← tracks st !! cacheTrack_ w;
  '(st', out) ← writeThrough w objID NORMAL false e p false now
                  (CallBeginObject objID length_ p e) st;
  if shouldSkipCaching t then Some (st', w, out) else
  match out with
  | Reject _ _ => Some (st', w, out)
  | Forward _ =>
      (* XCHECK_GE(currentLength_, initBytes) *)
      if length_ <? payloadLength p then None
      else Some (st', mkSubgroup (group_ w) (subgroup_ w) (cacheTrack_ w) (cacheGroup_ w)
                        (sg_ftn_ w) objID (length_ - payloadLength p), out)
  end.

(** [SubgroupWriteback::objectPayload].  The entry is looked up with
    [objects[currentObject_]], which inserts a null pointer, and dereferences
    it, when there is none. *)
Definition appendPayload (p : Payload) (bytes : list Z) : Payload :=
  match p with Some old => Some (old ++ bytes) | None => Some bytes end.

Definition sgObjectPayload (w : SubgroupWriteback) (bytes : list Z) (fin : bool)
    (st : MoqxCache) : option (MoqxCache * SubgroupWriteback * Outcome) :=
  let addedBytes := computeChainDataLength bytes in
  t ← tracks st !! cacheTrack_ w;
  if shouldSkipCaching t then Some (st, w, Forward (CallObjectPayload bytes fin)) else
  grp ← groupHeap st !! cacheGroup_ w;
  entry ← objects grp !! currentObject_ w;
  (* XCHECK_GE(currentLength_, addedBytes) *)
  if currentLength_ w <? addedBytes then None else
  let left := currentLength_ w - addedBytes in
  let w' := mkSubgroup (group_ w) (subgroup_ w) (cacheTrack_ w) (cacheGroup_ w) (sg_ftn_ w)
              (currentObject_ w) left in
  let entry' := mkEntry (subgroup entry) (status entry) (ce_extensions entry)
                  (appendPayload (payload entry) bytes) (u64 (payloadSize entry + addedBytes))
                  (if left =? 0 then true else complete entry)
                  (forwardingPreferenceIsDatagram entry) (cachedAt entry) in
  let t' := if left =? 0
            then set_content (iv_insert (cachedContent t) (mkLoc (group_ w) (currentObject_ w))
                                (mkLoc (group_ w) (currentObject_ w))) t
            else t in
  let grp' := set_totalBytes (u64 (totalBytes grp + addedBytes))
                (set_objects (<[currentObject_ w := entry']> (objects grp)) grp) in
  '(st', _) ← evictForByteLimitIfNeeded
     (with_bytes (u64 (totalCachedBytes_ st + addedBytes))
        (put_group (cacheGroup_ w) grp' (put_track (cacheTrack_ w) t' st)));
  Some (st', w', Forward (CallObjectPayload bytes fin)).

(** [getSubscribeWriteback] with the constructor of [SubscribeWriteback] *)
Definition getSubscribeWriteback (ftn : FullTrackName) (st : MoqxCache) :
    option (MoqxCache * SubscribeWriteback) :=
  '(st1, r) ← match cache_ st !! ftn with
              | Some r => Some (st, r)
              | None =>
                  st1 ← (if maxCachedTracks_ st <=? cacheSize st
                         then '(st', _) ← evictOldestTrackIfNeeded st; Some st'
                         else Some st);
                  Some (emplaceTrack ftn st1)
              end;
  st2 ← removeTrackFromLRU r st1;
  t ← tracks st2 !! r;
  Some (put_track r (set_live (liveWritebackCount t + 1) t) st2, mkSubscribe r ftn).

(** [~SubscribeWriteback] *)
Definition closeSubscribe (w : SubscribeWriteback) (st : MoqxCache) : option MoqxCache :=
  t ← tracks st !! track_ w;
  if liveWritebackCount t <=? 0 then None
  else onTrackBecameEvictable (ftn_ w)
         (put_track (track_ w) (set_live (liveWritebackCount t - 1) t) st).

(** [SubscribeWriteback::beginSubgroup]; [answer] is the consumer's. *)
Inductive BeginSubgroup :=
| SubgroupRejected (err : PublishError)
| SubgroupPassedOn (answer : Expected PublishError unit)
| SubgroupCached (w : SubgroupWriteback).

Definition beginSubgroup (w : SubscribeWriteback) (groupID sg : Z)
    (answer : Expected PublishError unit) (st : MoqxCache) : option (MoqxCache * BeginSubgroup) :=
  t ← tracks st !! track_ w;
  if isGroupNonExistent (gaps t) groupID then
    Some (st, SubgroupRejected (MALFORMED_TRACK "Invalid status change"))
  else match answer with
  | value _ =>
      if shouldSkipCaching t then Some (st, SubgroupPassedOn answer) else
      '(st1, g) ← getOrCreateGroupWithEviction (ftn_ w) (track_ w) groupID st;
      '(st2, s) ← newSubgroupWriteback groupID sg w g st1;
      Some (st2, SubgroupCached s)
  | unexpected _ => Some (st, SubgroupPassedOn answer)
  end.

(** [SubscribeWriteback::objectStream] and [SubscribeWriteback::datagram] *)
Definition writeHeader (datagram : bool) (w : SubscribeWriteback) (h : ObjectHeader) (p : Payload)
    (now : Z) (c : Call) (st : MoqxCache) : option (MoqxCache * Outcome) :=
  t ← tracks st !! track_ w;
  if shouldSkipCaching t then Some (st, Forward c) else
  let '(t', res) := updateLargest (mkLoc (h_group h) (h_id h)) (isEndOfTrack (h_status h)) t in
  match res with
  | unexpected err => Some (st, Reject [] err)
  | value _ =>
      '(st1, g) ← getOrCreateGroupWithEviction (ftn_ w) (track_ w) (h_group h)
                    (put_track (track_ w) t' st);
      '(st2, cacheRes) ← cacheObjectAndUpdateBytes g (track_ w) (h_group h) (h_subgroup h) (h_id h)
          (h_status h) (h_extensions h) p true datagram now st1;
      match cacheRes with
      | unexpected err => Some (st2, Reject [] err)
      | value _ => Some (st2, Forward c)
      end
  end.

Definition cacheObjectStream (w : SubscribeWriteback) (h : ObjectHeader) (p : Payload) (now : Z)
    (st : MoqxCache) : option (MoqxCache * Outcome) :=
  writeHeader false w h p now
    (CallObjectStream (h_group h) (h_subgroup h) (h_id h) (h_status h) (h_extensions h) p) st.

Definition cacheDatagram (w : SubscribeWriteback) (h : ObjectHeader) (p : Payload) (now : Z)
    (st : MoqxCache) : option (MoqxCache * Outcome) :=
  writeHeader true w h p now
    (CallDatagram (h_group h) (h_subgroup h) (h_id h) (h_status h) (h_extensions h) p) st.

(** ** [getTrackStats]: groups in ascending order *)

Record TrackStats := mkStats {
  ts_name : FullTrackName;
  ts_endOfTrack : bool;
  ts_lastWrite : option Z;
  ts_groups : list (Z * Z);
}.

Definition byGroupId (a b : Z * Z) : Prop := a.1 <= b.1.
#[local] Instance byGroupId_dec a b : Decision (byGroupId a b) := Z_le_dec a.1 b.1.

Definition groupStats (st : MoqxCache) (t : CacheTrack) : list (Z * Z) :=
  merge_sort byGroupId
    (omap (λ p : Z * Z, grp ← groupHeap st !! p.2; Some (p.1, Z.of_nat (size (objects grp))))
       (map_to_list (groups t))).

Definition getTrackStats (st : MoqxCache) : list TrackStats :=
  omap (λ p : FullTrackName * Z, t ← tracks st !! p.2;
          Some (mkStats p.1 (endOfTrack t) (lastWrite t) (groupStats st t)))
    (map_to_list (cache_ st)).

End Store.
