(* ===== verification/FetchIterator.v ===== *)
(** * FetchRangeIterator

    The iterator of [MoqxCache.cpp] that walks the positions of a fetch in
    group order, skips known gaps, and jumps to the next cached position.  It
    reads the track and its groups through the heaps of the cache, and it
    caches the group it looked at last ([cachedGroupId_], [cachedGroupPtr_]),
    which can go stale.

    A loop is run with [iterate 128]: two words of 64 bits name a position, so
    a loop that never repeats a position has fewer than [2 ^ 128] rounds. *)

From S2P Require Import Prelude Locations CacheRanges CacheStore.

Section Iterator.
Context `{LocationOps} {IS : Type} `{IntervalOps IS} {Extensions : Type}
        `{ExtensionOps Extensions} {FullTrackName : Type} `{Countable FullTrackName}.

Notation cache := (MoqxCache (IS:=IS) (Extensions:=Extensions) (FullTrackName:=FullTrackName)).

Record FetchRangeIterator := mkIter {
  minLocation : AbsoluteLocation;
  maxLocation : AbsoluteLocation;
  order : GroupOrder;
  it_track : Z;
  current_ : AbsoluteLocation;
  it_end_ : AbsoluteLocation;
  isValid_ : bool;
  (** group id and pointer found for it, for [advanceOne] and for [end] *)
  cachedGroup_ : Z * option Z;
  cachedEndGroup_ : Z * option Z;
}.

Implicit Types (it : FetchRangeIterator) (st : cache).

Definition set_current (l : AbsoluteLocation) it : FetchRangeIterator :=
  mkIter (minLocation it) (maxLocation it) (order it) (it_track it) l (it_end_ it) (isValid_ it)
    (cachedGroup_ it) (cachedEndGroup_ it).
Definition set_end (l : AbsoluteLocation) it : FetchRangeIterator :=
  mkIter (minLocation it) (maxLocation it) (order it) (it_track it) (current_ it) l (isValid_ it)
    (cachedGroup_ it) (cachedEndGroup_ it).
Definition set_invalid it : FetchRangeIterator :=
  mkIter (minLocation it) (maxLocation it) (order it) (it_track it) (current_ it) (it_end_ it)
    false (cachedGroup_ it) (cachedEndGroup_ it).
Definition set_cachedGroup (c : Z * option Z) it : FetchRangeIterator :=
  mkIter (minLocation it) (maxLocation it) (order it) (it_track it) (current_ it) (it_end_ it)
    (isValid_ it) c (cachedEndGroup_ it).
Definition set_cachedEndGroup (c : Z * option Z) it : FetchRangeIterator :=
  mkIter (minLocation it) (maxLocation it) (order it) (it_track it) (current_ it) (it_end_ it)
    (isValid_ it) (cachedGroup_ it) c.

Definition descending it : bool := isNewestFirst (order it).

(** ** Group ends *)

(** The last object id that the iteration visits in a group, if it is known,
    and the updated cache of the group pointer. *)
Definition findGroupEndMaybe st it (currGroup : Z) (cached : Z * option Z) :
    option (option Z * (Z * option Z)) :=
  let isFirstGroup := currGroup =? group (minLocation it) in
  let isLastGroup := currGroup =? group (maxLocation it) in
  if isLastGroup then
    Some (Some (if descending it && negb isFirstGroup
                then u64 (object (maxLocation it) - 1) else object (maxLocation it)), cached)
  else
    t ← tracks st !! it_track it;
    let cached' :=
      if negb (cached.1 =? currGroup) then (currGroup, groups t !! currGroup) else cached in
    match cached'.2 with
    | None => Some (None, cached')
    | Some g =>
        grp ← groupHeap st !! g;
        let isEndKnown := endOfGroup grp in
        let maxObjectInGroup := maxCachedObject grp in
        let endIncludingMaxCached :=
          if maxObjectInGroup <? object kLocationMax
          then maxObjectInGroup + 1 else maxObjectInGroup in
        let firstUncachedObject :=
          if endIncludingMaxCached <? object kLocationMax
          then endIncludingMaxCached + 1 else endIncludingMaxCached in
        Some (Some (if isFirstGroup && descending it
                    then if isEndKnown then endIncludingMaxCached else firstUncachedObject
                    else if isEndKnown then maxObjectInGroup else endIncludingMaxCached),
              cached')
    end.

(** [end()], which moves the end of the iteration. *)
Definition iterEnd st it : option (FetchRangeIterator * AbsoluteLocation) :=
  t ← tracks st !! it_track it;
  past ← (if endOfTrack t
          then (* std::optional::value() throws without a value *)
            largest ← largestGroupAndObject t; Some (largest <?L current_ it)
          else Some false);
  if (past : bool) || negb (isValid_ it) then Some (set_end (current_ it) it, current_ it)
  else if negb (descending it) then Some (it, it_end_ it)
  else
    '(lastObj, c) ← findGroupEndMaybe st it (group (it_end_ it)) (cachedEndGroup_ it);
    let it' := set_cachedEndGroup c it in
    let e := match lastObj with
             | Some o => mkLoc (group (it_end_ it)) o | None => it_end_ it end in
    Some (set_end e it', e).

(** ** Stepping *)

Definition advanceOne st it : option FetchRangeIterator :=
  if negb (isValid_ it) then Some it
  else if current_ it =?L it_end_ it then Some it
  else
    '(groupEnd, c) ← findGroupEndMaybe st it (group (current_ it)) (cachedGroup_ it);
    let it' := set_cachedGroup c it in
    let cur := current_ it in
    if match groupEnd with Some e => object cur <? e | None => false end
    then Some (set_current (mkLoc (group cur) (u64 (object cur + 1))) it')
    else if descending it then
      if group cur =? 0 then Some (set_invalid it')
      else
        let g := group cur - 1 in
        Some (set_current (mkLoc g (if g =? group (minLocation it)
                                    then object (minLocation it) else 0)) it')
    else if group cur =? group (maxLocation it) then Some (set_current (it_end_ it) it')
    else Some (set_current (mkLoc (u64 (group cur + 1)) 0) it').

(** One round of the loop of [skipGaps]. *)
Definition skipGapsRound st it : FetchRangeIterator + option FetchRangeIterator :=
  match tracks st !! it_track it with
  | None => inr None
  | Some t =>
      if negb (isValid_ it && iv_contains (gaps t) (current_ it)) then inr (Some it) else
      match iv_findInterval (gaps t) (current_ it) with
      | None => match advanceOne st it with Some it' => inl it' | None => inr None end
      | Some (gapStart, gapEnd) =>
          let afterGap :=
            if negb (descending it) then next gapEnd
            else computeDescendingAfterGap (current_ it) gapStart (minLocation it) in
          match afterGap with
          | Some l =>
              if (if negb (descending it) then l <?L it_end_ it else minLocation it <=?L l)
              then inl (set_current l it)
              else inr (Some (set_current (it_end_ it) it))
          | None => inr (Some (set_current (it_end_ it) it))
          end
      end
  end.

Definition skipGaps st it : option FetchRangeIterator :=
  match iterate 128 (skipGapsRound st) it with inr r => r | inl _ => None end.

Definition iterNext st it : option FetchRangeIterator :=
  if negb (isValid_ it) then Some it
  else it' ← advanceOne st it; skipGaps st it'.

Definition invalidate it : FetchRangeIterator := set_invalid (set_current (maxLocation it) it).

Definition advanceTo st (loc : AbsoluteLocation) it : option FetchRangeIterator :=
  let it' := set_current loc it in
  if negb (descending it) then
    if maxLocation it <?L loc then Some (set_invalid it') else skipGaps st it'
  else if loc <?L minLocation it then Some (set_invalid it') else skipGaps st it'.

(** ** The constructor *)

Definition firstEnd st (start : AbsoluteLocation) (t : CacheTrack (IS:=IS) (Extensions:=Extensions)) :
    option AbsoluteLocation :=
  match groups t !! group start with
  | Some g =>
      grp ← groupHeap st !! g;
      Some (mkLoc (group start)
              (if endOfGroup grp && (maxCachedObject grp <? object kLocationMax)
               then maxCachedObject grp + 1 else object kLocationMax))
  | None => Some (mkLoc (group start) (object kLocationMax))
  end.

Definition newIterator (start end_ : AbsoluteLocation) (o : GroupOrder) (r : Z) st :
    option FetchRangeIterator :=
  let it := mkIter start end_ o r start end_ true
              (group kLocationMax, None) (group kLocationMax, None) in
  it' ← (if isNewestFirst o && negb (group start =? group end_) then
           t ← tracks st !! r;
           let cur := if object end_ =? 0
                      then let g := u64 (group end_ - 1) in
                           mkLoc g (if g =? group start then object start else 0)
                      else mkLoc (group end_) 0 in
           e ← firstEnd st start t;
           Some (set_end e (set_current cur it))
         else Some it);
  skipGaps st it'.

(** ** Jumping to cached content *)

(** The outer [None] is a failed [XCHECK]. *)
Definition findPrevGroupCachedPosition (content : IS) it : option (option AbsoluteLocation) :=
  match prevGroupEnd (current_ it) with
  | None => Some None
  | Some prevGE =>
      let prevInterval := match iv_findInterval content prevGE with
                          | Some i => Some i | None => iv_findPrevInterval content prevGE end in
      match prevInterval with
      | None => Some None
      | Some (_, last) =>
          if last <?L minLocation it then Some None else
          let targetGroup := Z.min (group last) (group prevGE) in
          let target := if mkLoc targetGroup 0 <?L minLocation it
                        then minLocation it else mkLoc targetGroup 0 in
          if iv_contains content target then Some (Some target)
          else match iv_findNextInterval content target with
               | Some (first, _) =>
                   if group first =? targetGroup then Some (Some first) else None
               | None => None
               end
      end
  end.

Definition skipUncached st it : option FetchRangeIterator :=
  t ← tracks st !! it_track it;
  if negb (isValid_ it) || (current_ it =?L it_end_ it) then Some it
  else if iv_contains (cachedContent t) (current_ it) then Some it
  else if negb (descending it) then
    match iv_findNextInterval (cachedContent t) (current_ it) with
    | Some (first, _) =>
        Some (set_current (if it_end_ it <=?L first then it_end_ it else first) it)
    | None => Some (set_current (it_end_ it) it)
    end
  else
    match iv_findNextInterval (cachedContent t) (current_ it) with
    | Some (first, _) =>
        if group first =? group (current_ it) then Some (set_current first it)
        else target ← findPrevGroupCachedPosition (cachedContent t) it;
             Some (match target with
                   | Some l => set_current l it
                   | None => set_invalid (set_current (mkLoc 0 0) it) end)
    | None => target ← findPrevGroupCachedPosition (cachedContent t) it;
              Some (match target with
                    | Some l => set_current l it
                    | None => set_invalid (set_current (mkLoc 0 0) it) end)
    end.

End Iterator.
