(* ===== verification/FetchWriteback.v ===== *)
(** * FetchWriteback

    The consumer that [MoqxCache] puts between an upstream fetch and the
    fetch it serves: objects are cached, the positions between them become
    known gaps, and the range is registered in [fetchesInProgress] of the
    track, with the group that is being written pinned.

    [folly::coro::Baton]s are the flags that they have been posted.  A call of
    the wrapped consumer that ends a method is its outcome. *)

From S2P Require Import Prelude Locations CacheRanges CacheStore FetchIterator.

Section Writeback.
Context `{LocationOps} {IS : Type} `{IntervalOps IS} {Extensions : Type}
        `{ExtensionOps Extensions} {FullTrackName : Type} `{Countable FullTrackName}.

Notation cache := (MoqxCache (IS:=IS) (Extensions:=Extensions) (FullTrackName:=FullTrackName)).
Notation ctrack := (CacheTrack (IS:=IS) (Extensions:=Extensions)).
Implicit Types (st : cache) (t : ctrack).

(** ** Data *)

Inductive FetchCall :=
| FObject (gID sgID objID : Z) (p : Payload) (e : Extensions) (fin datagram : bool)
| FBeginObject (gID sgID objID len : Z) (p : Payload) (e : Extensions)
| FObjectPayload (bytes : list Z) (fin : bool)
| FEndOfGroup (gID sgID objID : Z) (fin : bool)
| FEndOfTrackAndGroup (gID sgID objID : Z)
| FEndOfFetch
| FReset
| FEndOfUnknownRange (gID objID : Z) (fin : bool).

Inductive FetchOutcome :=
| FForward (c : FetchCall)
| FReject (err : PublishError)
| FDone.

Record FetchWriteback := mkFW {
  fw_this : Z;
  fw_start : AbsoluteLocation;
  fw_end : AbsoluteLocation;
  (** the key of the map entry; [None] is [end()] *)
  fetchInProgressIt_ : option AbsoluteLocation;
  pinnedGroup_ : option Z;
  proxyFin_ : bool;
  inProgress_ : bool;
  complete_ : bool;
  fw_currentLength_ : Z;
  wasReset_ : bool;
  fetchRangeIt_ : FetchRangeIterator;
  fw_ftn_ : FullTrackName;
}.

Implicit Types (w : FetchWriteback).

Definition fw_entry (k : option AbsoluteLocation) (g : option Z) w : FetchWriteback :=
  mkFW (fw_this w) (fw_start w) (fw_end w) k g (proxyFin_ w) (inProgress_ w) (complete_ w)
    (fw_currentLength_ w) (wasReset_ w) (fetchRangeIt_ w) (fw_ftn_ w).
Definition fw_iter (it : FetchRangeIterator) w : FetchWriteback :=
  mkFW (fw_this w) (fw_start w) (fw_end w) (fetchInProgressIt_ w) (pinnedGroup_ w) (proxyFin_ w)
    (inProgress_ w) (complete_ w) (fw_currentLength_ w) (wasReset_ w) it (fw_ftn_ w).
Definition fw_inProgress (b : bool) w : FetchWriteback :=
  mkFW (fw_this w) (fw_start w) (fw_end w) (fetchInProgressIt_ w) (pinnedGroup_ w) (proxyFin_ w)
    b (complete_ w) (fw_currentLength_ w) (wasReset_ w) (fetchRangeIt_ w) (fw_ftn_ w).
Definition fw_complete w : FetchWriteback :=
  mkFW (fw_this w) (fw_start w) (fw_end w) (fetchInProgressIt_ w) (pinnedGroup_ w) (proxyFin_ w)
    (inProgress_ w) true (fw_currentLength_ w) (wasReset_ w) (fetchRangeIt_ w) (fw_ftn_ w).
Definition fw_length (n : Z) w : FetchWriteback :=
  mkFW (fw_this w) (fw_start w) (fw_end w) (fetchInProgressIt_ w) (pinnedGroup_ w) (proxyFin_ w)
    (inProgress_ w) (complete_ w) n (wasReset_ w) (fetchRangeIt_ w) (fw_ftn_ w).
Definition fw_reset w : FetchWriteback :=
  mkFW (fw_this w) (fw_end w) (fw_end w) (fetchInProgressIt_ w) (pinnedGroup_ w) (proxyFin_ w)
    (inProgress_ w) true (fw_currentLength_ w) true (invalidate (fetchRangeIt_ w)) (fw_ftn_ w).

Definition fw_track w : Z := it_track (fetchRangeIt_ w).

Definition set_fetches (l : list (AbsoluteLocation * FetchInProgressEntry)) t : ctrack :=
  mkTrack (groups t) (gaps t) (cachedContent t) (liveWritebackCount t) (endOfTrack t)
    (largestGroupAndObject t) l (trackLruIter_ t) (groupLRU t)
    (maxCacheDuration t) (extensions t) (evicted t) (lastWrite t).

(** ** [std::map] of the fetches in progress *)

(** [emplace]: [None] when the key is taken. *)
Fixpoint emplaceFetch (k : AbsoluteLocation) (e : FetchInProgressEntry)
    (l : list (AbsoluteLocation * FetchInProgressEntry)) :
    option (list (AbsoluteLocation * FetchInProgressEntry)) :=
  match l with
  | [] => Some [(k, e)]
  | (k', e') :: rest =>
      if k <?L k' then Some ((k, e) :: l)
      else if k =?L k' then None
      else r ← emplaceFetch k e rest; Some ((k', e') :: r)
  end.

Definition findFetch (k : AbsoluteLocation) (l : list (AbsoluteLocation * FetchInProgressEntry)) :
    option FetchInProgressEntry :=
  '(_, (_, e)) ← list_find (λ p, (p.1 =?L k) = true) l; Some e.

Definition eraseFetch (k : AbsoluteLocation)
    (l : list (AbsoluteLocation * FetchInProgressEntry)) :
    list (AbsoluteLocation * FetchInProgressEntry) :=
  filter (λ p, (p.1 =?L k) = false) l.

Definition setProgress (k loc : AbsoluteLocation)
    (l : list (AbsoluteLocation * FetchInProgressEntry)) :
    list (AbsoluteLocation * FetchInProgressEntry) :=
  (λ p : AbsoluteLocation * FetchInProgressEntry,
     if p.1 =?L k then (p.1, mkFetch (fetch_end p.2) loc (writeback p.2)) else p) <$> l.

(** ** Registering a range *)

Definition emplaceAndPinGroup (loc : AbsoluteLocation) (e : FetchInProgressEntry) w st :
    option (cache * FetchWriteback) :=
  let r := fw_track w in
  t ← tracks st !! r;
  (* XCHECK(inserted) *)
  l ← emplaceFetch loc e (fetchesInProgress t);
  let st1 := put_track r (set_fetches l t) st in
  '(st2, g) ← match groups t !! group loc with
              | Some g => Some (st1, g)
              | None => st1' ← evictOldestGroupsIfNeeded r st1;
                        t1 ← tracks st1' !! r;
                        Some (emplaceGroup r (group loc) t1 st1')
              end;
  st3 ← removeGroupFromLRU g r st2;
  Some (st3, fw_entry (Some loc) (Some g) w).

Definition eraseAndMakeGroupEvictable w st : option (cache * FetchWriteback) :=
  let r := fw_track w in
  (* dereferencing end() is undefined *)
  k ← fetchInProgressIt_ w;
  t ← tracks st !! r;
  let st1 := put_track r (set_fetches (eraseFetch k (fetchesInProgress t)) t) st in
  st2 ← match pinnedGroup_ w with
        | Some g => addGroupToLRU (fw_ftn_ w) (group k) g r st1
        | None => Some st1
        end;
  Some (st2, fw_entry None None w).

Definition newFetchWriteback (this : Z) (start end_ : AbsoluteLocation) (proxyFin : bool)
    (it : FetchRangeIterator) (ftn : FullTrackName) st : option (cache * FetchWriteback) :=
  st1 ← removeTrackFromLRU (it_track it) st;
  emplaceAndPinGroup start (mkFetch end_ start this)
    (mkFW this start end_ None None proxyFin false false 0 false it ftn) st1.

(** [~FetchWriteback] *)
Definition destroyFetchWriteback w st : option cache :=
  '(st1, _) ← match fetchInProgressIt_ w with
              | Some _ => eraseAndMakeGroupEvictable w st
              | None => Some (st, w)
              end;
  onTrackBecameEvictable (fw_ftn_ w) st1.

Definition updateInProgress w st : option (cache * FetchWriteback) :=
  let w1 := fw_inProgress true w in
  let it := fetchRangeIt_ w in
  if isValid_ it then
    let cur := current_ it in
    '(st2, w2) ←
      match fetchInProgressIt_ w1 with
      | None => Some (st, w1)
      | Some k =>
          t ← tracks st !! fw_track w;
          let l := setProgress k cur (fetchesInProgress t) in
          let st1 := put_track (fw_track w) (set_fetches l t) st in
          if group k <? group cur then
            if cur <?L maxLocation it then
              entry ← findFetch k l;
              '(st', w') ← eraseAndMakeGroupEvictable w1 st1;
              emplaceAndPinGroup cur entry w' st'
            else eraseAndMakeGroupEvictable w1 st1
          else Some (st1, w1)
      end;
    Some (st2, fw_inProgress false w2)
  else
    match fetchInProgressIt_ w1 with
    | Some _ => eraseAndMakeGroupEvictable w1 st
    | None => Some (st, w1)
    end.

(** [waitFor]: whether a fetch at [loc] waits for this writeback. *)
Definition waitsFor (loc : AbsoluteLocation) w : bool :=
  (loc <?L maxLocation (fetchRangeIt_ w)) &&
  isValid_ (fetchRangeIt_ w) && (current_ (fetchRangeIt_ w) <=?L loc).

(** ** Writing *)

Fixpoint insertGaps (ranges : list interval) t : ctrack :=
  match ranges with
  | [] => t
  | (a, b) :: rest => insertGaps rest (insertGap a b t)
  end.

Definition markNonExistentTo (target : AbsoluteLocation) w st : option (cache * FetchWriteback) :=
  let it := fetchRangeIt_ w in
  if current_ it =?L target then Some (st, w)
  else
    ranges ← getGapRanges (current_ it) target (order it) (minLocation it) (maxLocation it);
    t ← tracks st !! fw_track w;
    let st1 := put_track (fw_track w) (insertGaps ranges t) st in
    it' ← advanceTo st1 target it;
    Some (st1, fw_iter it' w).

(** [markNonExistentTo(fetchRangeIt_.end())] *)
Definition markNonExistentToEnd w st : option (cache * FetchWriteback) :=
  '(it', e) ← iterEnd st (fetchRangeIt_ w);
  markNonExistentTo e (fw_iter it' w) st.

Definition fetchNext w st : option FetchWriteback :=
  it' ← iterNext st (fetchRangeIt_ w); Some (fw_iter it' w).

Definition cacheImpl (groupID subgroupID objectID : Z) (s : ObjectStatus) (e : Extensions)
    (p : Payload) (complete_ finFetch datagram : bool) (now : Z) w st :
    option (cache * FetchWriteback * Expected PublishError unit) :=
  let r := fw_track w in
  '(st1, g) ← getOrCreateGroupWithEviction (fw_ftn_ w) r groupID st;
  '(st2, cacheRes) ← cacheObjectAndUpdateBytes g r groupID subgroupID objectID s e p complete_
                       datagram now st1;
  '(st3, w3) ← markNonExistentTo (mkLoc groupID objectID) w st2;
  match cacheRes with
  | unexpected err => '(st4, w4) ← updateInProgress w3 st3; Some (st4, w4, unexpected err)
  | value _ =>
      t ← tracks st3 !! r;
      let '(t', res) := updateLargest (mkLoc groupID objectID) (isEndOfTrack s) t in
      match res with
      | unexpected err => '(st4, w4) ← updateInProgress w3 st3; Some (st4, w4, unexpected err)
      | value _ =>
          let st4 := put_track r t' st3 in
          if complete_ then
            w4 ← fetchNext w3 st4;
            '(st5, w5) ← updateInProgress w4 st4;
            if finFetch then
              '(st6, w6) ← markNonExistentToEnd w5 st5;
              Some (st6, fw_complete w6, value tt)
            else Some (st5, w5, value tt)
          else Some (st4, w3, value tt)
      end
  end.

Definition skipsCaching w st : option bool :=
  t ← tracks st !! fw_track w; Some (shouldSkipCaching t).

Definition fwObject (gID sgID objID : Z) (p : Payload) (e : Extensions) (fin datagram : bool)
    (now : Z) w st : option (cache * FetchWriteback * FetchOutcome) :=
  let call := FObject gID sgID objID p e (fin && proxyFin_ w) datagram in
  skip ← skipsCaching w st;
  if (skip : bool) then Some (st, w, FForward call) else
  (* payload->clone() *)
  bytes ← p;
  '(st', w', res) ← cacheImpl gID sgID objID NORMAL e (Some bytes) true fin datagram now w st;
  Some (st', w', match res with unexpected err => FReject err | value _ => FForward call end).

Definition fwBeginObject (gID sgID objID len : Z) (p : Payload) (e : Extensions) (now : Z) w st :
    option (cache * FetchWriteback * FetchOutcome) :=
  let call := FBeginObject gID sgID objID len p e in
  skip ← skipsCaching w st;
  if (skip : bool) then Some (st, w, FForward call) else
  '(st', w', res) ← cacheImpl gID sgID objID NORMAL e p false false false now w st;
  match res with
  | unexpected err => Some (st', w', FReject err)
  | value _ =>
      (* XCHECK_GE(currentLength_, initBytes) *)
      if len <? payloadLength p then None
      else Some (st', fw_length (len - payloadLength p) w', FForward call)
  end.

Definition fwObjectPayload (bytes : list Z) (fin : bool) w st :
    option (cache * FetchWriteback * FetchOutcome) :=
  let r := fw_track w in
  let cur := current_ (fetchRangeIt_ w) in
  let call := FObjectPayload bytes (fin && proxyFin_ w) in
  let addedBytes := computeChainDataLength bytes in
  skip ← skipsCaching w st;
  if (skip : bool) then Some (st, w, FForward call) else
  '(st1, g) ← getOrCreateGroupWithEviction (fw_ftn_ w) r (group cur) st;
  grp ← groupHeap st1 !! g;
  (* objects[object] inserts null, which is dereferenced *)
  entry ← objects grp !! object cur;
  if fw_currentLength_ w <? addedBytes then None else
  let left := fw_currentLength_ w - addedBytes in
  t ← tracks st1 !! r;
  let entry' := mkEntry (subgroup entry) (status entry) (ce_extensions entry)
                  (appendPayload (payload entry) bytes) (u64 (payloadSize entry + addedBytes))
                  (if left =? 0 then true else complete entry)
                  (forwardingPreferenceIsDatagram entry) (cachedAt entry) in
  let t' := if left =? 0 then set_content (iv_insert (cachedContent t) cur cur) t else t in
  let grp' := set_totalBytes (u64 (totalBytes grp + addedBytes))
                (set_objects (<[object cur := entry']> (objects grp)) grp) in
  '(st2, _) ← evictForByteLimitIfNeeded
     (with_bytes (u64 (totalCachedBytes_ st1 + addedBytes))
        (put_group g grp' (put_track r t' st1)));
  let w2 := fw_length left w in
  if fin then
    w3 ← fetchNext w2 st2;
    '(st4, w4) ← markNonExistentToEnd w3 st2;
    '(st5, w5) ← updateInProgress w4 st4;
    Some (st5, w5, FForward call)
  else Some (st2, w2, FForward call).

Definition fwEndOfGroup (gID sgID objID : Z) (fin : bool) (now : Z) w st :
    option (cache * FetchWriteback * FetchOutcome) :=
  let call := FEndOfGroup gID sgID objID (fin && proxyFin_ w) in
  skip ← skipsCaching w st;
  if (skip : bool) then Some (st, w, FForward call) else
  '(st', w', res) ← cacheImpl gID sgID objID END_OF_GROUP noExtensions None true fin false now w st;
  Some (st', w', match res with unexpected err => FReject err | value _ => FForward call end).

Definition fwEndOfTrackAndGroup (gID sgID objID now : Z) w st :
    option (cache * FetchWriteback * FetchOutcome) :=
  let call := FEndOfTrackAndGroup gID sgID objID in
  skip ← skipsCaching w st;
  if (skip : bool) then Some (st, w, FForward call) else
  '(st', w', res) ← cacheImpl gID sgID objID END_OF_TRACK noExtensions None true true false now w st;
  Some (st', w', match res with unexpected err => FReject err | value _ => FForward call end).

Definition fwEndOfFetch w st : option (cache * FetchWriteback * FetchOutcome) :=
  '(st1, w1) ← markNonExistentToEnd w st;
  '(st2, w2) ← updateInProgress w1 st1;
  Some (st2, fw_complete w2, if proxyFin_ w then FForward FEndOfFetch else FDone).

(** [reset]: the consumer is reset first. *)
Definition fwReset w st : option (cache * FetchWriteback) := updateInProgress (fw_reset w) st.

Definition fwEndOfUnknownRange (gID objID : Z) (fin : bool) w st :
    option (cache * FetchWriteback * FetchOutcome) :=
  it' ← advanceTo st (mkLoc gID objID) (fetchRangeIt_ w);
  w1 ← fetchNext (fw_iter it' w) st;
  '(st2, w2) ← updateInProgress w1 st;
  Some (st2, if fin then fw_complete w2 else w2,
        FForward (FEndOfUnknownRange gID objID (fin && proxyFin_ w))).

End Writeback.
