(* ===== verification/CacheFetch.v ===== *)
(** * Serving a fetch

    [MoqxCache::fetch], [fetchImpl], [fetchUpstream], [handleBlocked] and
    [publishObject].  They are coroutines; the model is their run when nothing
    else happens to the cache while they are suspended: the upstream publisher
    is a function from the request to its answer and the calls it makes on the
    writeback, and a suspension that nothing in this run can end is the
    outcome [Suspended].  The consumer answers every call; [BLOCKED] is one of
    its error codes.  Cancellation and log output are left out. *)

From S2P Require Import Prelude Locations CacheRanges CacheStore FetchIterator FetchWriteback.

Section Fetch.
Context `{LocationOps} {IS : Type} `{IntervalOps IS} {Extensions : Type}
        `{ExtensionOps Extensions} {FullTrackName : Type} `{Countable FullTrackName}.

Notation cache := (MoqxCache (IS:=IS) (Extensions:=Extensions) (FullTrackName:=FullTrackName)).
Notation call := (FetchCall (Extensions:=Extensions)).
Notation fwb := (FetchWriteback (FullTrackName:=FullTrackName)).
Implicit Types (st : cache).

Record Fetch := mkFetchReq {
  requestID : Z;
  fullTrackName : FullTrackName;
  f_start : AbsoluteLocation;
  f_end : AbsoluteLocation;
  f_priority : Z;
  groupOrder : GroupOrder;
}.

Record FetchOk := mkOk {
  ok_requestID : Z;
  ok_groupOrder : GroupOrder;
  ok_endOfTrack : bool;
  ok_endLocation : AbsoluteLocation;
  ok_extensions : Extensions;
}.

Record FetchError := mkFetchError { fe_requestID : Z; fe_errorCode : Z; fe_reason : string }.

Definition FetchErrorCode_INTERNAL_ERROR : Z := 0.

(** The answer of the upstream publisher, the calls it makes on the writeback
    with their times, and the time when it is done. *)
Record Answer := mkAnswer {
  up_result : Expected FetchError FetchOk;
  up_calls : list (call * Z);
  up_done : Z;
}.

(** Consumers and publishers are parameters. *)
Context (upstream : Fetch → Answer) (consume : call → Expected PublishError unit)
        (awaitReadyToConsume : Expected PublishError unit) (BLOCKED : Z).

(** ** Calls on a writeback *)

Definition fwCall (c : call) (now : Z) (w : fwb) st :
    option (cache * fwb * FetchOutcome (Extensions:=Extensions)) :=
  match c with
  | FObject g sg o p e fin dg => fwObject g sg o p e fin dg now w st
  | FBeginObject g sg o len p e => fwBeginObject g sg o len p e now w st
  | FObjectPayload bytes fin => fwObjectPayload bytes fin w st
  | FEndOfGroup g sg o fin => fwEndOfGroup g sg o fin now w st
  | FEndOfTrackAndGroup g sg o => fwEndOfTrackAndGroup g sg o now w st
  | FEndOfFetch => fwEndOfFetch w st
  | FReset => '(st', w') ← fwReset w st; Some (st', w', FForward FReset)
  | FEndOfUnknownRange g o fin => fwEndOfUnknownRange g o fin w st
  end.

(** The calls of the upstream, and what reaches the consumer. *)
Fixpoint fwCalls (calls : list (call * Z)) (w : fwb) st : option (cache * fwb * list call) :=
  match calls with
  | [] => Some (st, w, [])
  | (c, now) :: rest =>
      '(st1, w1, out) ← fwCall c now w st;
      '(st2, w2, trace) ← fwCalls rest w1 st1;
      Some (st2, w2, match out with FForward c' => c' :: trace | _ => trace end)
  end.

(** ** [fetchUpstream] *)

Inductive UpstreamResult :=
| UpFailed (err : FetchError)
(** a handle, or null when the fetch goes on *)
| UpOk (handle : option FetchOk)
(** the coroutine waits for [complete_], which is not posted *)
| UpSuspended.

Definition setExtensions (r : Z) (e : Extensions) st : option cache :=
  t ← tracks st !! r; Some (put_track r (set_extensions e t) st).

Definition fetchUpstream (this : Z) (start end_ : AbsoluteLocation)
    (lastObject : bool) (fetch : Fetch) (r : Z) st :
    option (cache * list call * Z * UpstreamResult) :=
  adjFetchEnd ← (if object end_ =? 0 then prevGroup end_ (* XCHECK(pg) *) else Some end_);
  it ← newIterator start end_ (groupOrder fetch) r st;
  '(st1, w) ← newFetchWriteback this start adjFetchEnd lastObject it (fullTrackName fetch) st;
  let answer := upstream (mkFetchReq 0 (fullTrackName fetch) start adjFetchEnd
                            (f_priority fetch) (groupOrder fetch)) in
  match up_result answer with
  | unexpected err =>
      st2 ← destroyFetchWriteback w st1;
      Some (st2, [FReset], up_done answer,
            UpFailed (mkFetchError (requestID fetch) (fe_errorCode err) (fe_reason err)))
  | value ok =>
      st2 ← setExtensions r (ok_extensions ok) st1;
      '(st3, w3, trace) ← fwCalls (up_calls answer) w st2;
      if lastObject then
        st4 ← destroyFetchWriteback w3 st3;
        Some (st4, trace, up_done answer,
              UpOk (Some (mkOk (requestID fetch) (groupOrder fetch) (ok_endOfTrack ok)
                            (ok_endLocation ok) (ok_extensions ok))))
      else if negb (complete_ w3) then Some (st3, trace, up_done answer, UpSuspended)
      else
        st4 ← destroyFetchWriteback w3 st3;
        Some (st4, trace, up_done answer,
              if wasReset_ w3
              then UpFailed (mkFetchError (requestID fetch) FetchErrorCode_INTERNAL_ERROR
                               "Upstream fetch reset")
              else UpOk None)
  end.

(** The intervals of a miss, one after the other; the last one of a tail is
    the last of the fetch. *)
Fixpoint fetchIntervals (this : Z) (isTail : bool) (intervals : list interval)
    (fetch : Fetch) (r now : Z) st : option (cache * list call * Z * UpstreamResult) :=
  match intervals with
  | [] => Some (st, [], now, UpOk None)
  | (a, b) :: rest =>
      '(st1, trace1, now1, res) ←
         fetchUpstream this a b (isTail && bool_decide (rest = [])) fetch r st;
      match res with
      | UpOk h =>
          match rest with
          | [] => Some (st1, trace1, now1, UpOk h)
          | _ =>
              '(st2, trace2, now2, res2) ←
                 fetchIntervals (this + 1) isTail rest fetch r now1 st1;
              Some (st2, trace1 ++ trace2, now2, res2)
          end
      | _ => Some (st1, trace1, now1, res)
      end
  end.

(** ** [publishObject] and [handleBlocked] *)

Definition objectExists (s : ObjectStatus) : bool :=
  bool_decide (s = NORMAL) || bool_decide (s = END_OF_GROUP) || bool_decide (s = END_OF_TRACK).

Definition publishCall (s : ObjectStatus) (cur : AbsoluteLocation)
    (entry : CacheEntry (Extensions:=Extensions)) (lastObject : bool) : option call :=
  match s with
  | NORMAL =>
      (* object.payload->clone() *)
      bytes ← payload entry;
      Some (FObject (group cur) (subgroup entry) (object cur) (Some bytes) (ce_extensions entry)
              lastObject (forwardingPreferenceIsDatagram entry))
  | END_OF_GROUP => Some (FEndOfGroup (group cur) (subgroup entry) (object cur) lastObject)
  | END_OF_TRACK => Some (FEndOfTrackAndGroup (group cur) (subgroup entry) (object cur))
  end.

Definition isBlocked (err : PublishError) : bool :=
  match err with ConsumerError code => code =? BLOCKED | MALFORMED_TRACK _ => false end.

(** The calls after an error of the consumer, and the error that ends the fetch. *)
Definition handlePublishError (fetch : Fetch) (err : PublishError) :
    list call * option FetchError :=
  if isBlocked err then
    match awaitReadyToConsume with
    | value _ => ([], None)
    | unexpected _ => ([FReset], Some (mkFetchError (requestID fetch) FetchErrorCode_INTERNAL_ERROR
                                         "Consumer error awaiting ready"))
    end
  else ([FReset], Some (mkFetchError (requestID fetch) FetchErrorCode_INTERNAL_ERROR
                          "Consumer error on object")).

(** ** [fetchImpl] *)

Record Loop := mkLoop {
  l_cache : cache;
  l_it : FetchRangeIterator;
  l_fetchStart : option AbsoluteLocation;
  l_served : bool;
  l_last : bool;
  l_now : Z;
  l_trace : list call;
  (** the address of the next writeback *)
  l_this : Z;
}.

Inductive LoopEnd :=
| LoopDone (s : Loop)
| LoopFailed (st : cache) (trace : list call) (err : FetchError)
| LoopSuspended (st : cache) (trace : list call)
| LoopAborted.

(** What a round does once the boundary has been flushed: skip a gap, or
    publish the object. *)
Definition publishRound (fetch : Fetch) (current : AbsoluteLocation)
    (entry : option (CacheEntry (Extensions:=Extensions))) (s : Loop) : option (Loop + LoopEnd) :=
  match entry with
  | None =>
      it' ← skipGaps (l_cache s) (l_it s);
      Some (inl (mkLoop (l_cache s) it' None (l_served s) (l_last s) (l_now s) (l_trace s)
                   (l_this s)))
  | Some object_ =>
      it1 ← iterNext (l_cache s) (l_it s);
      '(it2, e) ← iterEnd (l_cache s) it1;
      let lastObject := current_ it2 =?L e in
      c ← publishCall (status object_) current object_ lastObject;
      let trace := l_trace s ++ [c] in
      let served := l_served s || objectExists (status object_) in
      let next_ := mkLoop (l_cache s) it2 None served lastObject (l_now s) trace (l_this s) in
      match consume c with
      | value _ => Some (inl next_)
      | unexpected err =>
          match handlePublishError fetch err with
          | (calls, None) => Some (inl next_)
          | (calls, Some fe) => Some (inr (LoopFailed (l_cache s) (trace ++ calls) fe))
          end
      end
  end.

Definition fetchRound (fetch : Fetch) (r : Z) (s : Loop) : option (Loop + LoopEnd) :=
  '(it0, e) ← iterEnd (l_cache s) (l_it s);
  let s0 := mkLoop (l_cache s) it0 (l_fetchStart s) (l_served s) (l_last s) (l_now s) (l_trace s)
              (l_this s) in
  if current_ it0 =?L e then Some (inr (LoopDone s0)) else
  let current := current_ it0 in
  t ← tracks (l_cache s) !! r;
  match findFetchInProgress current t with
  | Some _ => Some (inr (LoopSuspended (l_cache s) (l_trace s)))
  | None =>
      '(st1, entry) ← getCachedObjectMaybe r current (l_now s) (l_cache s);
      t1 ← tracks st1 !! r;
      if bool_decide (entry = None) && negb (iv_contains (gaps t1) current) then
        it1 ← skipUncached st1 it0;
        Some (inl (mkLoop st1 it1 (Some (default current (l_fetchStart s))) (l_served s)
                     (l_last s) (l_now s) (l_trace s) (l_this s)))
      else
        match l_fetchStart s with
        | None => publishRound fetch current entry
                    (mkLoop st1 it0 None (l_served s) (l_last s) (l_now s) (l_trace s) (l_this s))
        | Some fetchStart =>
            let intervals := getFetchIntervals (minLocation it0) (maxLocation it0) fetchStart
                               current (order it0) false in
            '(st2, trace, now2, res) ←
               fetchIntervals (l_this s) false intervals fetch r (l_now s) st1;
            match res with
            | UpFailed err => Some (inr (LoopFailed st2 (l_trace s ++ trace) err))
            | UpSuspended => Some (inr (LoopSuspended st2 (l_trace s ++ trace)))
            | UpOk _ =>
                publishRound fetch current entry
                  (mkLoop st2 it0 None (l_served s) (l_last s) now2 (l_trace s ++ trace)
                     (l_this s + Z.of_nat (length intervals)))
            end
        end
  end.

Definition fetchLoop (fetch : Fetch) (r : Z) (s : Loop) : LoopEnd :=
  match iterate 128 (λ s, match fetchRound fetch r s with
                          | Some x => x | None => inr LoopAborted end) s with
  | inl _ => LoopAborted
  | inr e => e
  end.

Inductive FetchResult :=
| FetchHandle (st : cache) (trace : list call) (ok : FetchOk)
(** [nullptr]: the handle was returned before *)
| FetchGoesOn (st : cache) (trace : list call)
| FetchFailed (st : cache) (trace : list call) (err : FetchError)
| Suspended (st : cache) (trace : list call).

Definition loc_geb (a b : AbsoluteLocation) : bool := b <=?L a.

(** The handle of a fetch that was served entirely from the cache. *)
Definition cachedFetchOk (fetch : Fetch) (r : Z) (served : bool) st : option FetchOk :=
  t ← tracks st !! r;
  if served then
    end_ ← (if object (f_end fetch) =? 0 then prevGroup (f_end fetch) else Some (f_end fetch));
    if endOfTrack t then
      largest ← largestGroupAndObject t;
      Some (if loc_geb end_ largest then mkOk (requestID fetch) (groupOrder fetch) true largest noExtensions
            else mkOk (requestID fetch) (groupOrder fetch) false end_ noExtensions)
    else Some (mkOk (requestID fetch) (groupOrder fetch) false end_ noExtensions)
  else Some (mkOk (requestID fetch) (groupOrder fetch) false (f_end fetch) noExtensions).

(** The handle of a newest-first fetch whose tail came from upstream. *)
Definition tailFetchOk (fetch : Fetch) (r : Z) st : option FetchOk :=
  t ← tracks st !! r;
  isEndOfTrack_ ← (if endOfTrack t
                   then largest ← largestGroupAndObject t; Some (loc_geb (f_end fetch) largest)
                   else Some false);
  Some (mkOk (requestID fetch) (groupOrder fetch) isEndOfTrack_ (f_end fetch) noExtensions).

Definition finishFetch (fetch : Fetch) (r : Z) (hasHandle : bool) (s : Loop) :
    option FetchResult :=
  match l_fetchStart s with
  | Some fetchStart =>
      let it := l_it s in
      let intervals := getFetchIntervals (minLocation it) (maxLocation it) fetchStart (current_ it)
                         (order it) true in
      '(st', trace, _, res) ←
         fetchIntervals (l_this s) true intervals fetch r (l_now s) (l_cache s);
      let trace' := l_trace s ++ trace in
      match res with
      | UpFailed err => Some (FetchFailed st' trace' err)
      | UpSuspended => Some (Suspended st' trace')
      | UpOk h =>
          if hasHandle then Some (FetchGoesOn st' trace')
          else
            (* XCHECK(res.value()) *)
            ok ← h;
            if negb (isNewestFirst (groupOrder fetch)) then Some (FetchHandle st' trace' ok)
            else ok' ← tailFetchOk fetch r st'; Some (FetchHandle st' trace' ok')
      end
  | None =>
      let trace := l_trace s ++ if l_last s && l_served s then [] else [FEndOfFetch] in
      if hasHandle then Some (FetchGoesOn (l_cache s) trace)
      else ok ← cachedFetchOk fetch r (l_served s) (l_cache s);
           Some (FetchHandle (l_cache s) trace ok)
  end.

Definition fetchImpl (fetch : Fetch) (r : Z) (hasHandle : bool) (this now : Z) st :
    option FetchResult :=
  it ← newIterator (f_start fetch) (f_end fetch) (groupOrder fetch) r st;
  match fetchLoop fetch r (mkLoop st it None false false now [] this) with
  | LoopDone s => finishFetch fetch r hasHandle s
  | LoopFailed st' trace err => Some (FetchFailed st' trace err)
  | LoopSuspended st' trace => Some (Suspended st' trace)
  | LoopAborted => None
  end.

(** ** [fetch] *)

(** A track that is not cached is fetched from upstream as a whole. *)
Definition fetchNewTrack (fetch : Fetch) (this : Z) st : option FetchResult :=
  let '(st0, r) := emplaceTrack (fullTrackName fetch) st in
  st1 ← (if maxCachedTracks_ st0 <=? cacheSize st0
         then '(st', _) ← evictOldestTrackIfNeeded st0; Some st' else Some st0);
  st2 ← addTrackToLRU (fullTrackName fetch) r st1;
  it ← newIterator (f_start fetch) (f_end fetch) (groupOrder fetch) r st2;
  '(st3, w) ← newFetchWriteback this (f_start fetch) (f_end fetch) true it (fullTrackName fetch) st2;
  let answer := upstream fetch in
  match up_result answer with
  | unexpected err => st4 ← destroyFetchWriteback w st3; Some (FetchFailed st4 [] err)
  | value ok =>
      '(st4, w4, trace) ← fwCalls (up_calls answer) w st3;
      st5 ← destroyFetchWriteback w4 st4;
      Some (FetchHandle st5 trace ok)
  end.

(** The exclusive end of the range, and its inclusive last position. *)
Definition fetchBounds (fetch : Fetch) : AbsoluteLocation * AbsoluteLocation :=
  let e := f_end fetch in
  if 0 <? object e then (e, mkLoc (group e) (object e - 1))
  else (default kLocationMax (nextGroup e), mkLoc (group e) (object kLocationMax)).

Definition with_end (e : AbsoluteLocation) (fetch : Fetch) : Fetch :=
  mkFetchReq (requestID fetch) (fullTrackName fetch) (f_start fetch) e (f_priority fetch)
    (groupOrder fetch).

(** The immediate answer for live tracks and past data: the clamped end, and
    the [FetchOk]. *)
Definition immediateOk (fetch : Fetch) (end_ largest : AbsoluteLocation)
    (t : CacheTrack (IS:=IS) (Extensions:=Extensions)) : option (AbsoluteLocation * FetchOk) :=
  if largest <?L end_ then
    n ← next largest; (* XCHECK(next) *)
    Some (n, mkOk (requestID fetch) (groupOrder fetch) (endOfTrack t) n (extensions t))
  else
    largestInFetch ← (if object end_ =? 0 then prevGroup end_ (* XCHECK(pg) *) else Some end_);
    Some (end_, mkOk (requestID fetch) (groupOrder fetch) false largestInFetch (extensions t)).

(** [fetch]: the handle that is returned at once, if any, and the result of
    [fetchImpl]. *)
Definition fetch_ (fetch : Fetch) (this now : Z) st :
    option (option FetchOk * FetchResult) :=
  match cache_ st !! fullTrackName fetch with
  | None => res ← fetchNewTrack fetch this st; Some (None, res)
  | Some r =>
      t ← tracks st !! r;
      let '(end_, last) := fetchBounds fetch in
      match largestGroupAndObject t with
      | Some largest =>
          if (0 <? liveWritebackCount t) || (last <=?L largest) then
            '(e, ok) ← immediateOk fetch end_ largest t;
            res ← fetchImpl (with_end e fetch) r true this now st;
            Some (Some ok, res)
          else res ← fetchImpl (with_end end_ fetch) r false this now st; Some (None, res)
      | None => res ← fetchImpl (with_end end_ fetch) r false this now st; Some (None, res)
      end
  end.

End Fetch.
