(* ===== verification/FetchTheorems.v ===== *)
(** * Fetches: theorems

    The iteration of an oldest-first fetch passes over known gaps and over
    positions where no object is stored, and over nothing else; a range that
    is cached completely is served from the cache, every object once and in
    order. *)

From S2P Require Import Prelude Locations CacheRanges CacheStore FetchIterator FetchWriteback.
From S2P Require Import CacheFetch.

Section Ascending.
Context `{LocationLaws} {IS : Type} `{IntervalOps IS} `{!IntervalLaws IS}
        {Extensions : Type} `{!ExtensionOps Extensions}
        {FullTrackName : Type} `{Countable FullTrackName}.

Notation cache := (MoqxCache (IS:=IS) (Extensions:=Extensions) (FullTrackName:=FullTrackName)).
Notation ctrack := (CacheTrack (IS:=IS) (Extensions:=Extensions)).
Notation centry := (CacheEntry (Extensions:=Extensions)).
Implicit Types (st : cache) (t : ctrack) (it : FetchRangeIterator).

(** ** Distances *)

(** The number of positions after a location. *)
Definition room (l : AbsoluteLocation) : Z :=
  (group kLocationMax - group l) * (object kLocationMax + 1) + (object kLocationMax - object l).

Lemma room_nonneg l : valid_loc l → 0 <= room l.
Proof. unfold valid_loc, room. intros [??]. nia. Qed.

Lemma room_lt a b : valid_loc a → valid_loc b → a <L b → room b < room a.
Proof. unfold valid_loc, room, loc_lt. intros [??] [??] [?|[-> ?]]; nia. Qed.

Lemma room_bound l : valid_loc l → room l < 2 ^ Z.of_nat 128.
Proof.
  intros [??]. pose proof max_group_u64 as Hg. pose proof max_object_u64 as Ho.
  unfold is_u64, u64_modulus, room in *. change (2 ^ Z.of_nat 128) with (2 ^ 64 * 2 ^ 64). nia.
Qed.

(** ** Gaps *)

Definition it_ok it : Prop :=
  valid_loc (current_ it) ∧ valid_loc (it_end_ it) ∧ valid_loc (minLocation it) ∧
  valid_loc (maxLocation it).

Definition ascends it : Prop := descending it = false.

(** What skipping gaps from [it] to [c] has passed over. *)
Definition passed_gaps t (a c : AbsoluteLocation) : Prop :=
  ∀ x, valid_loc x → a <=L x → x <L c → iv_contains (gaps t) x = true.

Lemma skipGapsRound_asc st t it :
  tracks st !! it_track it = Some t → it_ok it → ascends it →
  match skipGapsRound st it with
  | inl it' => ∃ l, it' = set_current l it ∧ valid_loc l ∧ current_ it <L l ∧ l <L it_end_ it ∧
                 passed_gaps t (current_ it) l
  | inr r => ∃ c, r = Some (set_current c it) ∧ valid_loc c ∧
      (c = current_ it ∧ isValid_ it && iv_contains (gaps t) c = false ∨
       c = it_end_ it ∧ passed_gaps t (current_ it) c)
  end.
Proof.
  intros Ht (Hc & He & _) Ha. unfold skipGapsRound, ascends in *. rewrite Ht, Ha. cbn.
  destruct (isValid_ it && iv_contains (gaps t) (current_ it)) eqn:Eg; cbn.
  2: { exists (current_ it). split; [by destruct it|]. eauto. }
  apply andb_true_iff in Eg as [_ Eg].
  destruct (iv_findInterval (gaps t) (current_ it)) as [[a b]|] eqn:Ei.
  2: { apply findInterval_None in Ei; [congruence|done]. }
  destruct (findInterval_Some _ _ _ _ Hc Ei) as (Hva & Hvb & Hac & Hcb & Hin).
  assert (Hpass : ∀ l, (∀ x, valid_loc x → x <L l → x <=L b) → passed_gaps t (current_ it) l).
  { intros l Hl x Hx Hcx Hxl. apply Hin; eauto with moqx. }
  destruct (next b) as [l|] eqn:En.
  - destruct (next_successor b l Hvb En) as (Hvl & Hbl & Hsucc).
    assert (Hl : ∀ x, valid_loc x → x <L l → x <=L b).
    { intros x Hx Hxl. destruct (loc_leb x b) eqn:E; [by apply loc_leb_iff|].
      apply loc_leb_false in E. specialize (Hsucc x Hx E). loc_solve. }
    destruct (l <?L it_end_ it) eqn:El.
    + exists l. split; [done|]. split; [done|]. split; [eauto with moqx|].
      split; [by apply loc_ltb_iff|]. by apply Hpass.
    + apply loc_ltb_false in El. exists (it_end_ it). split; [done|]. split; [done|]. right.
      split; [done|]. apply Hpass. intros x Hx Hxe. apply Hl; [done|]. eauto with moqx.
  - exists (it_end_ it). split; [done|]. split; [done|]. right. split; [done|]. apply Hpass.
    intros x Hx _. by apply (next_None b).
Qed.

(** Skipping gaps ends, past members of the gaps only, at a position outside
    them or at the end. *)
Lemma skipGaps_asc st t it :
  tracks st !! it_track it = Some t → it_ok it → ascends it →
  ∃ c, skipGaps st it = Some (set_current c it) ∧ valid_loc c ∧
    (current_ it <=L it_end_ it → current_ it <=L c ∧ c <=L it_end_ it) ∧
    passed_gaps t (current_ it) c ∧
    (c = it_end_ it ∨ isValid_ it && iv_contains (gaps t) c = false).
Proof.
  intros Ht Hok Ha.
  pose (Q := λ it (r : option FetchRangeIterator), ∃ c, r = Some (set_current c it) ∧ valid_loc c ∧
    (current_ it <=L it_end_ it → current_ it <=L c ∧ c <=L it_end_ it) ∧
    passed_gaps t (current_ it) c ∧
    (c = it_end_ it ∨ isValid_ it && iv_contains (gaps t) c = false)).
  destruct (iterate_terminates (skipGapsRound st)
              (λ it, tracks st !! it_track it = Some t ∧ it_ok it ∧ ascends it) Q
              (λ it, room (current_ it)) 128 it) as (r & E & HQ).
  - intros it' (_ & (? & _) & _). by apply room_nonneg.
  - intros it' (Ht' & Hok' & Ha'). pose proof (skipGapsRound_asc st t it' Ht' Hok' Ha') as Hr.
    destruct (skipGapsRound st it') as [it2|r].
    + destruct Hr as (l & -> & Hv & Hlt & Hle & Hp). split; [|split].
      * split; [done|]. split; [|done]. destruct Hok' as (_ & ? & ? & ?). by split_and!.
      * cbn. apply room_lt; [apply Hok'|done..].
      * intros r (c & -> & Hvc & Hb & Hp' & Hend). exists c. split; [done|]. split; [done|].
        cbn in Hb, Hp', Hend. split.
        -- intros _. destruct Hb as [? ?]; [loc_solve|]. split; [loc_solve|done].
        -- split; [|done]. intros x Hx Hcx Hxc. destruct (x <?L l) eqn:Ex.
           ++ apply loc_ltb_iff in Ex. by apply Hp.
           ++ apply loc_ltb_false in Ex. by apply Hp'.
    + destruct Hr as (c & -> & Hv & [[-> Hg]|[-> Hp]]); eexists; (split; [done|]); (split; [done|]).
      * split; [loc_solve|]. split; [|by right]. intros x _ ? ?. loc_solve.
      * split; [intros; split; [done|apply loc_le_refl]|]. split; [done|by left].
  - done.
  - apply room_bound, Hok.
  - unfold skipGaps. rewrite E. exact HQ.
Qed.

(** ** Stepping *)

Definition stored st t (x : AbsoluteLocation) (en : centry) : Prop :=
  ∃ g grp, groups t !! group x = Some g ∧ groupHeap st !! g = Some grp ∧
           objects grp !! object x = Some en.

(** The groups of the track are there, and [maxCachedObject] bounds their
    objects. *)
Definition bounded st t : Prop :=
  ∀ gid g, groups t !! gid = Some g →
    ∃ grp, groupHeap st !! g = Some grp ∧ 0 <= maxCachedObject grp <= object kLocationMax ∧
      ∀ o en, objects grp !! o = Some en → o <= maxCachedObject grp.

(** The cached group pointer is the one of the track; the initial value names
    the last possible group, which an oldest-first iteration never looks up. *)
Definition fresh it t : Prop :=
  (cachedGroup_ it).1 = group kLocationMax ∨ (cachedGroup_ it).2 = groups t !! (cachedGroup_ it).1.

Lemma findGroupEndMaybe_asc st t it (g : Z) :
  tracks st !! it_track it = Some t → ascends it → bounded st t → fresh it t →
  0 <= g < group (maxLocation it) → group (maxLocation it) <= group kLocationMax →
  ∃ e c, findGroupEndMaybe st it g (cachedGroup_ it) = Some (e, c) ∧
    fresh (set_cachedGroup c it) t ∧
    match e with
    | Some e => e <= object kLocationMax ∧
                ∀ x en, group x = g → stored st t x en → object x <= e
    | None => ∀ x en, group x = g → ¬ stored st t x en
    end.
Proof.
  intros Ht Ha Hb Hf Hg Hmax. unfold findGroupEndMaybe, ascends in *. rewrite Ha, Ht.
  destruct (Z.eqb_spec g (group (maxLocation it))); [lia|]. cbn [mbind option_bind andb].
  set (c := if negb ((cachedGroup_ it).1 =? g) then (g, groups t !! g) else cachedGroup_ it).
  assert (c.2 = groups t !! g ∧ fresh (set_cachedGroup c it) t) as [Ec Hfc].
  { unfold c. destruct (Z.eqb_spec (cachedGroup_ it).1 g) as [E|]; cbn.
    - destruct Hf as [Hf|Hf]; [lia|]. split; [by rewrite Hf, E|by right].
    - split; [done|by right]. }
  rewrite Ec. destruct (groups t !! g) as [g'|] eqn:Eg.
  - destruct (Hb g g' Eg) as (grp & Hgrp & Hr & Ho). rewrite Hgrp. cbn [mbind option_bind].
    eexists _, c. split; [done|]. split; [done|]. rewrite andb_false_r.
    assert (Hst : ∀ x en, group x = g → stored st t x en → object x <= maxCachedObject grp).
    { intros x en <- (g1 & grp1 & ? & ? & Hx). simplify_eq. eauto. }
    split; [zcases; lia|]. intros x en Hx Hs. specialize (Hst x en Hx Hs). zcases; lia.
  - eexists None, c. split; [done|]. split; [done|]. intros x en <- (? & ? & ? & _). congruence.
Qed.

Lemma advanceOne_asc st t it :
  tracks st !! it_track it = Some t → it_ok it → ascends it → bounded st t → fresh it t →
  isValid_ it = true → it_end_ it = maxLocation it → current_ it <L it_end_ it →
  ∃ c cg, advanceOne st it = Some (set_current c (set_cachedGroup cg it)) ∧ valid_loc c ∧
    fresh (set_cachedGroup cg it) t ∧ current_ it <L c ∧ c <=L it_end_ it ∧
    ∀ x en, valid_loc x → current_ it <L x → x <L c → ¬ stored st t x en.
Proof.
  intros Ht (Hc & He & Hmin & Hmax) Ha Hb Hf Hv Ee Hlt. unfold advanceOne. rewrite Hv. cbn.
  destruct (current_ it =?L it_end_ it) eqn:E; [apply loc_eqb_iff in E; loc_solve|].
  pose proof max_object_u64 as Hou. pose proof max_group_u64 as Hgu. unfold is_u64 in Hou, Hgu.
  unfold valid_loc in Hc, He, Hmin, Hmax. pose proof Ha as Ha'. unfold ascends in Ha'. rewrite Ha'.
  destruct (Z.eq_dec (group (current_ it)) (group (maxLocation it))) as [Eg|Ng].
  - unfold findGroupEndMaybe. rewrite Eg, Z.eqb_refl, Ha'. cbn.
    assert (object (current_ it) < object (maxLocation it)) by loc_solve.
    replace (object (current_ it) <? object (maxLocation it)) with true by lia.
    eexists _, (cachedGroup_ it). split; [by destruct it|].
    rewrite u64_small by (unfold is_u64; lia). split_and!; try done.
    + unfold valid_loc. cbn. lia.
    + loc_solve.
    + rewrite Ee. loc_solve.
    + intros x en Hx ? ?. exfalso. loc_solve.
  - assert (group (current_ it) < group (maxLocation it)) as Hlg by loc_solve.
    destruct (findGroupEndMaybe_asc st t it (group (current_ it))) as (e & c & -> & Hfc & Hst);
      [done..|lia|lia|]. cbn [mbind option_bind].
    destruct (match e with Some e => object (current_ it) <? e | None => false end) eqn:Eo.
    + destruct e as [e|]; [|done]. destruct Hst as [He' Hst]. eexists _, c. split; [done|].
      rewrite u64_small by (unfold is_u64; lia). split_and!; try done.
      * unfold valid_loc. cbn. lia.
      * loc_solve.
      * rewrite Ee. loc_solve.
      * intros x en Hx ? ?. exfalso. loc_solve.
    + destruct (Z.eqb_spec (group (current_ it)) (group (maxLocation it))); [lia|].
      eexists _, c. split; [done|]. rewrite u64_small by (unfold is_u64; lia). split_and!; try done.
      * unfold valid_loc. cbn. pose proof max_object_pos. lia.
      * loc_solve.
      * rewrite Ee. loc_solve.
      * intros x en Hx Hcx Hxl Hs. unfold valid_loc in Hx.
        assert (group x = group (current_ it)) as Ex by loc_solve.
        destruct e as [e|]; [|by apply (Hst x en)].
        destruct Hst as [_ Hst]. specialize (Hst x en Ex Hs). loc_solve.
Qed.

(** A step of an oldest-first iteration passes over gaps and over positions
    where nothing is stored, and over nothing else. *)
Lemma iterNext_asc st t it :
  tracks st !! it_track it = Some t → it_ok it → ascends it → bounded st t → fresh it t →
  isValid_ it = true → it_end_ it = maxLocation it → current_ it <L it_end_ it →
  ∃ c cg, iterNext st it = Some (set_current c (set_cachedGroup cg it)) ∧ valid_loc c ∧
    fresh (set_cachedGroup cg it) t ∧ current_ it <L c ∧ c <=L it_end_ it ∧
    (c = it_end_ it ∨ iv_contains (gaps t) c = false) ∧
    ∀ x en, valid_loc x → current_ it <L x → x <L c →
      iv_contains (gaps t) x = true ∨ ¬ stored st t x en.
Proof.
  intros Ht Hok Ha Hb Hf Hv Ee Hlt. unfold iterNext. rewrite Hv. cbn [negb].
  destruct (advanceOne_asc st t it) as (c & cg & -> & Hvc & Hfc & Hcl & Hce & Hst); [done..|].
  cbn [mbind option_bind]. set (it1 := set_current c (set_cachedGroup cg it)).
  destruct (skipGaps_asc st t it1) as (c' & -> & Hvc' & Hb' & Hp & Hend); [done| |done|].
  { destruct Hok as (_ & ? & ? & ?). by split_and!. }
  cbn in Hb', Hp, Hend. destruct (Hb' Hce) as [Hcc Hc'e].
  exists c', cg. split; [done|]. split; [done|]. split; [done|].
  split; [loc_solve|]. split; [done|]. split; [rewrite Hv in Hend; cbn in Hend; tauto|].
  intros x en Hx Hcx Hxc. destruct (x <?L c) eqn:Ex.
  - apply loc_ltb_iff in Ex. right. by apply Hst.
  - apply loc_ltb_false in Ex. left. by apply Hp.
Qed.

(** ** A range that is cached completely *)

(** The calls that serve the objects at [xs]: in order, the last one with the
    end of the fetch. *)
Inductive served st t : list AbsoluteLocation → list (FetchCall (Extensions:=Extensions)) → Prop :=
| served_nil : served st t [] []
| served_last x en c :
    stored st t x en → publishCall (status en) x en true = Some c → served st t [x] [c]
| served_cons x y xs en c cs :
    stored st t x en → publishCall (status en) x en false = Some c →
    served st t (y :: xs) cs → served st t (x :: y :: xs) (c :: cs).

(** Every position of the range is a known gap or a complete object that has
    not expired. *)
Definition fullyCached st t (now : Z) (a b : AbsoluteLocation) : Prop :=
  ∀ x, valid_loc x → a <=L x → x <L b →
    iv_contains (gaps t) x = true ∨
    ∃ en, stored st t x en ∧ complete en = true ∧ isExpired now t st en = Some false ∧
          (status en = NORMAL → is_Some (payload en)).

(** The end of the track is the largest location, and nothing is stored after it. *)
Definition endsProperly st t : Prop :=
  endOfTrack t = true →
  ∃ l, largestGroupAndObject t = Some l ∧ ∀ x en, stored st t x en → x <=L l.

Lemma iterEnd_asc st t it :
  tracks st !! it_track it = Some t → ascends it → isValid_ it = true → endsProperly st t →
  iterEnd st it = Some (it, it_end_ it) ∨
  iterEnd st it = Some (set_end (current_ it) it, current_ it) ∧
  ∀ x en, current_ it <=L x → ¬ stored st t x en.
Proof.
  intros Ht Ha Hv He. unfold iterEnd, ascends in *. rewrite Ht, Hv, Ha. cbn.
  destruct (endOfTrack t) eqn:Et; cbn; [|by left]. destruct (He Et) as (l & -> & Hl). cbn.
  destruct (l <?L current_ it) eqn:El; cbn; [right|by left]. split; [done|].
  intros x en Hx Hs. apply loc_ltb_iff in El. specialize (Hl x en Hs). loc_solve.
Qed.

Lemma getCachedObjectMaybe_hit st r t now x en :
  tracks st !! r = Some t → stored st t x en → isExpired now t st en = Some false →
  complete en = true → getCachedObjectMaybe r x now st = Some (st, Some en).
Proof.
  intros Ht (g & grp & Hg & Hgrp & Ho) He Hc. unfold getCachedObjectMaybe. rewrite Ht. cbn.
  rewrite Hg, Hgrp. cbn. rewrite Ho, He. cbn. by rewrite Hc.
Qed.

Lemma publishCall_ok (en : centry) x b :
  (status en = NORMAL → is_Some (payload en)) → is_Some (publishCall (status en) x en b).
Proof. intros Hp. destruct (status en); cbn; eauto. destruct Hp as [? ->]; [done|]. cbn. eauto. Qed.

End Ascending.

Section CachedFetch.
Context `{LocationLaws} {IS : Type} `{IntervalOps IS} `{!IntervalLaws IS}
        {Extensions : Type} `{!ExtensionOps Extensions}
        {FullTrackName : Type} `{Countable FullTrackName}.

Notation cache := (MoqxCache (IS:=IS) (Extensions:=Extensions) (FullTrackName:=FullTrackName)).
Notation ctrack := (CacheTrack (IS:=IS) (Extensions:=Extensions)).
Notation fcall := (FetchCall (Extensions:=Extensions)).
Notation fetchReq := (Fetch (FullTrackName:=FullTrackName)).
Notation loop := (Loop (IS:=IS) (Extensions:=Extensions) (FullTrackName:=FullTrackName)).
Notation loopEnd := (LoopEnd (IS:=IS) (Extensions:=Extensions) (FullTrackName:=FullTrackName)).
Implicit Types (s : loop) (e : loopEnd).

Context (upstream : fetchReq → Answer (Extensions:=Extensions))
        (consume : fcall → Expected PublishError unit)
        (awaitReady : Expected PublishError unit) (BLOCKED : Z).
Hypothesis consume_ok : ∀ c, consume c = value tt.

Context (st : cache) (fetch : fetchReq) (r now : Z) (t : ctrack).
Hypothesis track_t : tracks st !! r = Some t.
Hypothesis no_fetches : fetchesInProgress t = [].
Hypothesis bounded_t : bounded st t.
Hypothesis ends_t : endsProperly st t.
Hypothesis order_asc : isNewestFirst (groupOrder fetch) = false.
Hypothesis start_valid : valid_loc (f_start fetch).
Hypothesis end_valid : valid_loc (f_end fetch).
Hypothesis range : f_start fetch <=L f_end fetch.
Hypothesis all_cached : fullyCached st t now (f_start fetch) (f_end fetch).

Notation E := (f_end fetch).

(** Between two rounds of the loop. *)
Record atRound s : Prop := {
  r_cache : l_cache s = st;
  r_start : l_fetchStart s = None;
  r_now : l_now s = now;
  r_track : it_track (l_it s) = r;
  r_ok : it_ok (l_it s);
  r_asc : ascends (l_it s);
  r_fresh : fresh (l_it s) t;
  r_valid : isValid_ (l_it s) = true;
  r_max : maxLocation (l_it s) = E;
  r_from : f_start fetch <=L current_ (l_it s);
  r_to : current_ (l_it s) <=L E;
  (** at the end, or at a position that is no gap *)
  r_end : it_end_ (l_it s) = E ∧ (current_ (l_it s) = E ∨ iv_contains (gaps t) (current_ (l_it s)) = false) ∨
          it_end_ (l_it s) = current_ (l_it s) ∧ passed_gaps t (current_ (l_it s)) E;
}.

(** What the loop still does: it serves the rest of the range. *)
Definition servesRest s e : Prop :=
  ∃ xs cs s', e = LoopDone s' ∧ l_cache s' = st ∧ l_fetchStart s' = None ∧
    l_trace s' = l_trace s ++ cs ∧ served st t xs cs ∧ StronglySorted loc_lt xs ∧
    (∀ x, x ∈ xs ↔ valid_loc x ∧ current_ (l_it s) <=L x ∧ x <L E ∧ iv_contains (gaps t) x = false) ∧
    l_served s' = l_served s || negb (bool_decide (xs = [])) ∧
    l_last s' = (if bool_decide (xs = []) then l_last s else true).

Notation step s := (match fetchRound upstream consume awaitReady BLOCKED fetch r s with
                    | Some x => x | None => inr LoopAborted end).

Lemma round_done s s' :
  atRound s → passed_gaps t (current_ (l_it s)) E → l_cache s' = st → l_fetchStart s' = None →
  l_trace s' = l_trace s → l_served s' = l_served s → l_last s' = l_last s →
  servesRest s (LoopDone s').
Proof.
  intros Hs Hp ? ? Ht Hsv Hl. exists [], [], s'. do 3 (split; [done|]). rewrite app_nil_r.
  split; [done|]. split; [constructor|]. split; [constructor|].
  split; [|rewrite Hsv; cbn; by rewrite orb_false_r].
  intros x. rewrite elem_of_nil. split; [done|]. intros (Hx & Hcx & HxE & Hg). specialize (Hp x Hx Hcx HxE). congruence.
Qed.

(** The state after an object has been published. *)
Lemma round_published s x en it2 last c :
  atRound s → x = current_ (l_it s) → x <L E → iv_contains (gaps t) x = false → valid_loc x →
  stored st t x en → publishCall (status en) x en last = Some c →
  x <L current_ it2 → current_ it2 <=L E →
  (∀ y, valid_loc y → x <L y → y <L current_ it2 → iv_contains (gaps t) y = true) →
  (last = true → passed_gaps t (current_ it2) E) →
  (last = false → current_ it2 <L E ∧ iv_contains (gaps t) (current_ it2) = false ∧ valid_loc (current_ it2)) →
  ∀ e, servesRest (mkLoop st it2 None true last now (l_trace s ++ [c]) (l_this s)) e → servesRest s e.
Proof.
  intros Hs -> HxE Hg Hv Hst Hc Hlt Hle Hbetween Hlast Hnot e
    (xs & cs & s' & -> & Hcache & Hfs & Htr & Hsrv & Hsort & Hin & Hserved & Hl). cbn in *.
  set (x := current_ (l_it s)) in *.
  assert (Hlast' : last = true ↔ xs = []).
  { split.
    - intros ->. destruct xs as [|y xs]; [done|]. destruct (proj1 (Hin y)) as (? & ? & ? & ?); [by left|].
      specialize (Hlast eq_refl y). rewrite Hlast in *; done.
    - intros ->. destruct last; [done|]. destruct (Hnot eq_refl) as (? & ? & ?).
      exfalso. eapply elem_of_nil, (Hin (current_ it2)). split; [done|]. split; [apply loc_le_refl|done]. }
  exists (x :: xs), (c :: cs), s'. do 3 (split; [done|]).
  split; [by rewrite Htr, <-app_assoc|]. split; [|split; [|split; [|split]]].
  - destruct xs as [|y xs].
    + inversion Hsrv; subst. eapply served_last; [done|]. by rewrite (proj2 Hlast') in Hc.
    + eapply served_cons; [done| |done]. destruct last; [|done].
      by discriminate (proj1 Hlast' eq_refl).
  - constructor; [done|]. apply Forall_forall. intros y Hy. apply Hin in Hy as (_ & Hy & _).
    by eapply loc_lt_le_trans.
  - intros y. rewrite elem_of_cons, Hin. split.
    + intros [->|(? & ? & ? & ?)]; [split; [done|]; split; [apply loc_le_refl|done]|].
      split; [done|]. split; [|done]. apply loc_le_lt_cases. left. by eapply loc_lt_le_trans.
    + intros (Hy & Hxy & HyE & Hgy). destruct (y <?L current_ it2) eqn:Ey.
      * apply loc_ltb_iff in Ey. apply loc_le_lt_cases in Hxy as [Hxy|Hxy]; [|by left].
        specialize (Hbetween y Hy Hxy Ey). congruence.
      * apply loc_ltb_false in Ey. right. done.
  - rewrite Hserved. cbn. by rewrite orb_true_r.
  - cbn. rewrite Hl. destruct (bool_decide (xs = [])) eqn:Ex; [|done].
    apply bool_decide_eq_true in Ex. by apply Hlast'.
Qed.

(** The end of the iteration after a step. *)
Lemma round_next it1 (sv : bool) trace this :
  it_track it1 = r → it_ok it1 → ascends it1 → fresh it1 t → isValid_ it1 = true →
  maxLocation it1 = E → it_end_ it1 = E → f_start fetch <=L current_ it1 → current_ it1 <=L E →
  current_ it1 = E ∨ iv_contains (gaps t) (current_ it1) = false →
  ∃ it2 l, iterEnd st it1 = Some (it2, l) ∧ current_ it2 = current_ it1 ∧
    ((current_ it2 =?L l) = true → passed_gaps t (current_ it1) E) ∧
    ((current_ it2 =?L l) = false →
       current_ it1 <L E ∧ iv_contains (gaps t) (current_ it1) = false) ∧
    atRound (mkLoop st it2 None sv (current_ it2 =?L l) now trace this).
Proof.
  intros Htr Hok Hasc Hfr Hval Hmax Hend Hfrom Hto Hg.
  assert (Hgap : current_ it1 = E → passed_gaps t (current_ it1) E).
  { intros E1 x _ ? ?. rewrite E1 in *. loc_solve. }
  destruct (iterEnd_asc st t it1) as [Ee|[Ee Hpast]]; [by rewrite Htr|done..| |].
  - exists it1, (it_end_ it1). split; [done|]. split; [done|]. rewrite loc_eqb_iff, loc_eqb_false, Hend.
    split; [done|].
    split; [|constructor; cbn; try done; by left].
    intros Hne. split; [|by destruct Hg]. by apply loc_le_lt_cases in Hto as [?|?].
  - assert (passed_gaps t (current_ it1) E) as Hp.
    { intros x Hx Hcx HxE. destruct (all_cached x Hx) as [?|(en & Hen & _)]; [|done|done|].
      - eauto with moqx.
      - by destruct (Hpast x en Hcx). }
    eexists _, (current_ it1). split; [done|]. split; [done|]. cbn.
    rewrite (proj2 (loc_eqb_iff _ _) eq_refl). split; [done|]. split; [done|].
    destruct Hok as (? & _ & ? & ?). constructor; cbn; try done; by right.
Qed.

Lemma round_ok s : atRound s →
  match step s with
  | inl s' => atRound s' ∧ room (current_ (l_it s')) < room (current_ (l_it s)) ∧
              ∀ e, servesRest s' e → servesRest s e
  | inr e => servesRest s e
  end.
Proof.
  intros Hs. pose proof Hs as [Hcache Hfs Hnow Htr Hok Hasc Hfr Hval Hmax Hfrom Hto Hend].
  pose proof (eq_ind_r (λ c, tracks c !! it_track (l_it s) = Some t)
                (eq_ind_r (λ r', tracks st !! r' = Some t) track_t Htr) Hcache) as Ht.
  unfold fetchRound. destruct (iterEnd_asc (l_cache s) t (l_it s)) as [Ee|[Ee Hpast]]; [done..|by rewrite Hcache| |].
  2: { rewrite Ee. cbn [mbind option_bind]. cbn. rewrite (proj2 (loc_eqb_iff _ _) eq_refl).
       apply round_done; try done. intros x Hx Hcx HxE.
       destruct (all_cached x Hx) as [?|(en & Hen & _)]; [loc_solve|done|done|].
       rewrite Hcache in Hpast. by destruct (Hpast x en Hcx). }
  rewrite Ee. cbn [mbind option_bind]. cbn. destruct (current_ (l_it s) =?L it_end_ (l_it s)) eqn:Ece.
  { apply loc_eqb_iff in Ece. apply round_done; try done.
    destruct Hend as [[HE _]|[_ ?]]; [|done]. intros x _ ? ?. rewrite HE in Ece. rewrite <-Ece in *. loc_solve. }
  apply loc_eqb_false in Ece. destruct Hend as [[HE Hg]|[HE _]]; [|congruence].
  destruct Hg as [?|Hg]; [congruence|].
  assert (current_ (l_it s) <L E) as HltE by (apply loc_le_lt_cases in Hto as [?|?]; [done|congruence]).
  assert (valid_loc (current_ (l_it s))) as Hv by apply Hok.
  destruct (all_cached _ Hv Hfrom HltE) as [?|(en & Hen & Hcomp & Hexp & Hpay)]; [congruence|].
  rewrite Hcache, track_t. cbn [mbind option_bind].
  unfold findFetchInProgress. rewrite no_fetches. cbn [filter list_filter last].
  rewrite Hnow, (getCachedObjectMaybe_hit st r t now _ en) by done. cbn [mbind option_bind].
  rewrite track_t. cbn [mbind option_bind]. rewrite bool_decide_false by done. cbn [andb].
  rewrite Hfs. unfold publishRound. cbn [l_cache l_it l_served l_now l_trace l_this].
  destruct (iterNext_asc st t (l_it s)) as (c & cg & En & Hvc & Hfc & Hcl & Hce & Hg' & Hbet);
    [by rewrite Htr|done..|congruence|by rewrite HE|].
  rewrite En. cbn [mbind option_bind]. set (it1 := set_current c (set_cachedGroup cg (l_it s))).
  assert (Hbet' : ∀ y, valid_loc y → current_ (l_it s) <L y → y <L c → iv_contains (gaps t) y = true).
  { intros y Hy Hcy Hyc. destruct (all_cached y Hy) as [?|(en' & Hen' & _)]; [loc_solve|loc_solve|done|].
    by destruct (Hbet y en' Hy Hcy Hyc). }
  assert (Hok1 : it_ok it1) by (destruct Hok as (_ & ? & ? & ?); by split_and!).
  set (served_ := l_served s || objectExists (status en)).
  assert (served_ = true) as Esv by (unfold served_; destruct (status en); apply orb_true_r).
  destruct (round_next it1 true [] 0) as (it2 & l & Ee1 & Ec2 & Hl1 & Hl2 & _);
    [done..|cbn; congruence|cbn; loc_solve|cbn; congruence|cbn; rewrite HE in Hg'; tauto|].
  destruct (publishCall_ok en (current_ (l_it s)) (current_ it2 =?L l) Hpay) as [fc Hfc'].
  rewrite Ee1. cbn [mbind option_bind]. rewrite Hfc'. cbn [mbind option_bind].
  rewrite consume_ok, Esv. cbn [l_it].
  destruct (round_next it1 true (l_trace s ++ [fc]) (l_this s)) as (it3 & l3 & Ee3 & _ & _ & _ & Hr);
    [done..|cbn; congruence|cbn; loc_solve|cbn; congruence|cbn; rewrite HE in Hg'; tauto|].
  rewrite Ee1 in Ee3. injection Ee3 as <- <-.
  split; [done|]. split; [rewrite Ec2; by apply room_lt|].
  eapply (round_published s _ en); try done; rewrite ?Ec2; try done.
  - cbn. by rewrite <-HE.
  - by rewrite <-Ec2 at 1.
  - intros El. rewrite <-Ec2 in El at 1. destruct (Hl2 El). by split_and!.
Qed.

Lemma newIterator_asc :
  ∃ it, newIterator (f_start fetch) E (groupOrder fetch) r st = Some it ∧
    passed_gaps t (f_start fetch) (current_ it) ∧ f_start fetch <=L current_ it ∧
    ∀ trace this, atRound (mkLoop st it None false false now trace this).
Proof.
  unfold newIterator. rewrite order_asc. cbn [andb mbind option_bind].
  set (it0 := mkIter _ _ _ _ _ _ _ _ _).
  destruct (skipGaps_asc st t it0) as (c & -> & Hv & Hb & Hp & Hend); [done|by split_and!|done|].
  destruct (Hb range) as [H1' H2']. eexists. split; [done|]. split; [done|]. split; [done|].
  intros trace this. constructor; try done; [by left|]. left. split; [done|].
  cbn. cbn in Hend. destruct Hend; auto.
Qed.


End CachedFetch.

(** ** Completion of an upstream fetch *)

Section Completion.
Context `{LocationOps} {IS : Type} `{IntervalOps IS} {Extensions : Type}
        `{!ExtensionOps Extensions} {FullTrackName : Type} `{Countable FullTrackName}.

Notation cache := (MoqxCache (IS:=IS) (Extensions:=Extensions) (FullTrackName:=FullTrackName)).
Notation fwb := (FetchWriteback (FullTrackName:=FullTrackName)).
Notation fcall := (FetchCall (Extensions:=Extensions)).
Implicit Types (st : cache) (w : fwb).

(** Takes apart a bind that succeeds. *)
Ltac unbind :=
  repeat match goal with
  | H : (_ ≫= _) = Some _ |- _ => apply bind_Some in H as (? & ? & H)
  | H : Some _ = Some _ |- _ => injection H as H
  | x : _ * _ |- _ => destruct x
  end.

Lemma emplaceAndPinGroup_complete loc e w st st' w' :
  emplaceAndPinGroup loc e w st = Some (st', w') → complete_ w' = complete_ w.
Proof. unfold emplaceAndPinGroup. intros Hb. unbind. by subst. Qed.

Lemma eraseAndMakeGroupEvictable_complete w st st' w' :
  eraseAndMakeGroupEvictable w st = Some (st', w') → complete_ w' = complete_ w.
Proof. unfold eraseAndMakeGroupEvictable. intros Hb. unbind. by subst. Qed.

Lemma updateInProgress_complete w st st' w' :
  updateInProgress w st = Some (st', w') → complete_ w' = complete_ w.
Proof.
  unfold updateInProgress. destruct (isValid_ (fetchRangeIt_ w)).
  - intros Hb. unbind. subst. cbn. destruct (fetchInProgressIt_ _); unbind; [|by subst].
    repeat case_match; unbind; subst; try done;
      repeat match goal with
      | H : emplaceAndPinGroup _ _ _ _ = Some _ |- _ => apply emplaceAndPinGroup_complete in H
      | H : eraseAndMakeGroupEvictable _ _ = Some _ |- _ => apply eraseAndMakeGroupEvictable_complete in H
      end; cbn in *; congruence.
  - destruct (fetchInProgressIt_ _); [intros Hb%eraseAndMakeGroupEvictable_complete; done|by intros [= <- <-]].
Qed.

Lemma fetchNext_complete w st w' : fetchNext w st = Some w' → complete_ w' = complete_ w.
Proof. unfold fetchNext. intros Hb. unbind. by subst. Qed.

Lemma markNonExistentTo_complete target w st st' w' :
  markNonExistentTo target w st = Some (st', w') → complete_ w' = complete_ w.
Proof.
  unfold markNonExistentTo. case_match; intros Hb; unbind; by subst.
Qed.

Lemma markNonExistentToEnd_complete w st st' w' :
  markNonExistentToEnd w st = Some (st', w') → complete_ w' = complete_ w.
Proof. unfold markNonExistentToEnd. intros Hb. unbind. by apply markNonExistentTo_complete in Hb. Qed.

Lemma cacheImpl_complete g sg o s e p c dg now w st st' w' res :
  cacheImpl g sg o s e p c false dg now w st = Some (st', w', res) → complete_ w' = complete_ w.
Proof.
  unfold cacheImpl. intros Hb. unbind.
  match goal with H : markNonExistentTo _ _ _ = _ |- _ => apply markNonExistentTo_complete in H as E1 end.
  repeat (progress unbind || case_match); subst;
    repeat match goal with
    | H : updateInProgress _ _ = Some _ |- _ => apply updateInProgress_complete in H
    | H : fetchNext _ _ = Some _ |- _ => apply fetchNext_complete in H
    end; congruence.
Qed.

(** The calls after which the writeback counts as complete, when the track
    caches. *)
Definition completes (c : fcall) : bool :=
  match c with
  | FObject _ _ _ _ _ fin _ | FEndOfGroup _ _ _ fin | FEndOfUnknownRange _ _ fin => fin
  | FEndOfTrackAndGroup _ _ _ | FEndOfFetch | FReset => true
  | FBeginObject _ _ _ _ _ _ | FObjectPayload _ _ => false
  end.

Lemma fwCall_complete c now w st st' w' out :
  completes c = false → fwCall c now w st = Some (st', w', out) → complete_ w' = complete_ w.
Proof.
  destruct c; cbn; try done; intros Hf Hb; subst.
  - unfold fwObject in Hb. unbind. case_match; unbind; subst; [done|]. by eapply cacheImpl_complete.
  - unfold fwBeginObject in Hb. unbind. case_match; unbind; subst; [done|].
    repeat case_match; unbind; subst; cbn; try done; by eapply cacheImpl_complete.
  - unfold fwObjectPayload in Hb. unbind. case_match; unbind; subst; [done|].
    case_match; [done|]. unbind. destruct fin; unbind; subst; [|done].
    repeat match goal with
    | H : updateInProgress _ _ = Some _ |- _ => apply updateInProgress_complete in H
    | H : fetchNext _ _ = Some _ |- _ => apply fetchNext_complete in H
    | H : markNonExistentToEnd _ _ = Some _ |- _ => apply markNonExistentToEnd_complete in H
    end. cbn in *. congruence.
  - unfold fwEndOfGroup in Hb. unbind. case_match; unbind; subst; [done|]. by eapply cacheImpl_complete.
  - unfold fwEndOfUnknownRange in Hb. unbind. subst.
    repeat match goal with
    | H : updateInProgress _ _ = Some _ |- _ => apply updateInProgress_complete in H
    | H : fetchNext _ _ = Some _ |- _ => apply fetchNext_complete in H
    end. cbn in *. congruence.
Qed.

Lemma fwCalls_complete calls w st st' w' trace :
  forallb (λ c, negb (completes c.1)) calls = true →
  fwCalls calls w st = Some (st', w', trace) → complete_ w' = complete_ w.
Proof.
  revert w st st' w' trace. induction calls as [|[c now] calls IH]; intros w st st' w' trace Hc Hb; cbn in *.
  - by injection Hb as <- <- <-.
  - apply andb_true_iff in Hc as [Hc Hcs]. apply negb_true_iff in Hc. unbind. subst.
    match goal with H : fwCall _ _ _ _ = _ |- _ => apply fwCall_complete in H; [|done] end.
    match goal with H : fwCalls _ _ _ = _ |- _ => apply IH in H; [|done] end. congruence.
Qed.

(** A fetch that must fill a hole before cached objects waits until the
    upstream part is complete; when the upstream ends that part with a piece
    of payload, nothing marks it complete and the fetch waits for ever. *)
Theorem payload_end_suspends_fetch upstream this start end_ fetch r st res :
  (∀ q, forallb (λ c, negb (completes c.1)) (up_calls (upstream q)) = true) →
  fetchUpstream upstream this start end_ false fetch r st = Some res →
  (∀ q err, up_result (upstream q) ≠ unexpected err) →
  res.2 = UpSuspended.
Proof.
  intros Hcalls Hb Hok. unfold fetchUpstream in Hb. unbind.
  destruct (up_result _) as [ok|err] eqn:Er; [|by destruct (Hok _ err Er)]. unbind.
  match goal with H : fwCalls _ _ _ = Some _ |- _ => apply fwCalls_complete in H as Ec; [|apply Hcalls] end.
  match goal with H : newFetchWriteback _ _ _ _ _ _ _ = Some _ |- _ =>
    unfold newFetchWriteback in H; unbind; apply emplaceAndPinGroup_complete in H as Ew end.
  cbn in Ew. rewrite Ec, Ew in Hb. cbn in Hb. by injection Hb as <-.
Qed.

(** ** Newest-first fetches *)

(** A newest-first iteration in the first group of its range, with nothing
    cached after the current position, jumps back to the start of the range
    when an interval of cached content reaches from the group before into it:
    the position has been visited before. *)
Theorem newest_first_jumps_back st t it a b p :
  tracks st !! it_track it = Some t → descending it = true → isValid_ it = true →
  current_ it ≠ it_end_ it → iv_contains (cachedContent t) (current_ it) = false →
  (∀ first last, iv_findNextInterval (cachedContent t) (current_ it) = Some (first, last) →
     group first ≠ group (current_ it)) →
  prevGroupEnd (current_ it) = Some p → group p < group (minLocation it) →
  group (minLocation it) = group (current_ it) →
  iv_findInterval (cachedContent t) p = Some (a, b) → minLocation it <=L b →
  iv_contains (cachedContent t) (minLocation it) = true →
  skipUncached st it = Some (set_current (minLocation it) it).
Proof.
  intros Ht Hd Hv Hne Hc Hnext Hp Hpm Hm Hi Hb Hmin. unfold skipUncached. rewrite Ht. cbn [mbind option_bind].
  rewrite Hv, (proj2 (loc_eqb_false _ _) Hne), Hc, Hd. cbn.
  assert (findPrevGroupCachedPosition (cachedContent t) it = Some (Some (minLocation it))) as E.
  { unfold findPrevGroupCachedPosition. rewrite Hp, Hi.
    rewrite (proj2 (loc_ltb_false _ _) Hb).
    replace (mkLoc (Z.min (group b) (group p)) 0 <?L minLocation it) with true; [by rewrite Hmin|].
    symmetry. apply loc_ltb_iff. loc_solve. }
  destruct (iv_findNextInterval _ _) as [[first last]|] eqn:En.
  - destruct (Z.eqb_spec (group first) (group (current_ it))); [by destruct (Hnext _ _ eq_refl)|].
    rewrite E. done.
  - by rewrite E.
Qed.

(** ** Ranges in progress *)

Lemma emplaceFetch_taken k e l : k ∈ l.*1 → Sorted loc_lt l.*1 → emplaceFetch k e l = None.
Proof.
  induction l as [|[k' e'] l IH]; cbn; [by intros []%elem_of_nil|]. intros Hin Hs.
  apply elem_of_cons in Hin as [->|Hin].
  - rewrite (proj2 (loc_ltb_false k' k') (loc_le_refl k')). by rewrite (proj2 (loc_eqb_iff k' k') eq_refl).
  - apply Sorted_StronglySorted in Hs; [|intros x y z; loc_solve]. inversion_clear Hs as [|? ? Hs' Hall].
    rewrite Forall_forall in Hall. specialize (Hall k Hin).
    rewrite (proj2 (loc_ltb_false k k')) by loc_solve. destruct (k =?L k'); [done|].
    rewrite IH; [done..|]. by apply StronglySorted_Sorted.
Qed.

(** An upstream fetch that starts where another one of the track has been
    registered, and is not finished, aborts the process. *)
Theorem registered_start_aborts st (t : CacheTrack (IS:=IS) (Extensions:=Extensions))
    this start end_ fin it f e :
  tracks st !! it_track it = Some t → trackLruIter_ t = None →
  Sorted loc_lt (fetchesInProgress t).*1 → (start, e) ∈ fetchesInProgress t →
  newFetchWriteback this start end_ fin it f st = None.
Proof.
  intros Ht Hi Hs Hin. unfold newFetchWriteback, removeTrackFromLRU. rewrite Ht. cbn [mbind option_bind].
  rewrite Hi. cbn [mbind option_bind]. unfold emplaceAndPinGroup, fw_track. cbn [fetchRangeIt_].
  rewrite Ht. cbn [mbind option_bind]. rewrite emplaceFetch_taken; [done| |done].
  apply list_elem_of_fmap. by exists (start, e).
Qed.

End Completion.
