(* ===== verification/CacheInvariant.v ===== *)
(** * The object cache: invariants

    What the cache keeps true between operations: the LRU lists hold exactly
    the groups and tracks that may be evicted, iterators are never stale, and
    the byte account is the sum of the payloads that are cached.  Every
    eviction function is shown to run to the end and to keep it. *)

From S2P Require Import Prelude Locations CacheRanges CacheStore.

Section Invariant.
Context `{LocationLaws} {IS : Type} `{IntervalOps IS} `{!IntervalLaws IS}
        {Extensions : Type} `{!ExtensionOps Extensions} `{!ExtensionLaws}
        {FullTrackName : Type} `{Countable FullTrackName}.

Notation cache := (MoqxCache (IS:=IS) (Extensions:=Extensions) (FullTrackName:=FullTrackName)).
Notation ctrack := (CacheTrack (IS:=IS) (Extensions:=Extensions)).
Notation cgroup := (CacheGroup (Extensions:=Extensions)).
Implicit Types (st : cache) (f : FullTrackName) (P : gset Z).

(** ** What is cached *)

Definition cachedT st f r t : Prop := cache_ st !! f = Some r ∧ tracks st !! r = Some t.

Definition cachedG st f r t gid g grp : Prop :=
  cachedT st f r t ∧ groups t !! gid = Some g ∧ groupHeap st !! g = Some grp.

(** ** Bytes *)

Definition objectBytes (grp : cgroup) : Z :=
  msum (λ _ e, payloadLength (payload e)) (objects grp).
Definition groupBytes st g : Z :=
  match groupHeap st !! g with Some grp => totalBytes grp | None => 0 end.
Definition trackBytes st r : Z :=
  match tracks st !! r with
  | Some t => msum (λ _ g, groupBytes st g) (groups t)
  | None => 0
  end.
(** The payload bytes of one cached group. *)
Definition groupPayload st (x : FullTrackName * Z) : Z :=
  default 0 (r ← cache_ st !! x.1; t ← tracks st !! r; g ← groups t !! x.2;
             grp ← groupHeap st !! g; Some (objectBytes grp)).
Definition storeBytes st : Z := msum (λ _ r, trackBytes st r) (cache_ st).

(** The byte count of a group, and of each of its objects, is exact. *)
Definition group_ok (grp : cgroup) : Prop :=
  totalBytes grp = objectBytes grp ∧
  ∀ oid e, objects grp !! oid = Some e → payloadSize e = payloadLength (payload e).

(** ** Groups

    [P] is the set of groups that a writeback has pinned. *)

Record gwf P st : Prop := {
  g_track f r : cache_ st !! f = Some r → is_Some (tracks st !! r);
  g_inj f f' r : cache_ st !! f = Some r → cache_ st !! f' = Some r → f = f';
  g_heap f r t gid g : cachedT st f r t → groups t !! gid = Some g →
    is_Some (groupHeap st !! g);
  g_ginj f r t gid f' r' t' gid' g :
    cachedT st f r t → groups t !! gid = Some g →
    cachedT st f' r' t' → groups t' !! gid' = Some g → f = f' ∧ gid = gid';
  g_lru_nodup f r t : cachedT st f r t → NoDup (groupLRU t).*1;
  g_lru f r t n gid : cachedT st f r t →
    (n, gid) ∈ groupLRU t ↔
    ∃ g grp, groups t !! gid = Some g ∧ groupHeap st !! g = Some grp ∧ lruIter_ grp = Some n;
  g_global_nodup : NoDup (globalGroupLRU_ st).*1;
  g_global n f gid : (n, (f, gid)) ∈ globalGroupLRU_ st ↔
    ∃ r t g grp, cachedG st f r t gid g grp ∧ globalLruIter_ grp = Some n;
  g_pin f r t gid g grp : cachedG st f r t gid g grp →
    (lruIter_ grp = None ↔ g ∈ P) ∧ (globalLruIter_ grp = None ↔ g ∈ P);
  g_bytes f r t gid g grp : cachedG st f r t gid g grp → group_ok grp;
  g_total : totalCachedBytes_ st = storeBytes st;
  g_range : is_u64 (totalCachedBytes_ st);
  g_fresh_track r : is_Some (tracks st !! r) → r < nextRef st;
  g_fresh_group g : is_Some (groupHeap st !! g) → g < nextRef st;
  g_fresh_lru f r t n : cachedT st f r t → n ∈ (groupLRU t).*1 → n < nextRef st;
  g_fresh_global n : n ∈ (globalGroupLRU_ st).*1 → n < nextRef st;
}.

(** ** Tracks *)

Record twf P st : Prop := {
  t_evicted f r t : cachedT st f r t → evicted t = false;
  t_live f r t : cachedT st f r t → 0 <= liveWritebackCount t;
  t_nodup : NoDup (trackLRU_ st).*1;
  t_lru n f : (n, f) ∈ trackLRU_ st ↔ ∃ r t, cachedT st f r t ∧ trackLruIter_ t = Some n;
  t_evictable f r t : cachedT st f r t → (is_Some (trackLruIter_ t) ↔ canEvict t = true);
  t_pin f r t gid g : cachedT st f r t → groups t !! gid = Some g → g ∈ P →
    0 < liveWritebackCount t;
  t_fresh n : n ∈ (trackLRU_ st).*1 → n < nextRef st;
  (** the operations of [CacheSystem] register no fetch *)
  t_fetches f r t : cachedT st f r t → fetchesInProgress t = [];
}.

(** ** Contents

    A complete object is always found by [skipUncached], and what it finds is
    a known gap or an object. *)

Definition content_ok st (t : ctrack) : Prop :=
  (∀ gid g, groups t !! gid = Some g → 0 <= gid <= group kLocationMax) ∧
  (∀ gid g grp oid e, groups t !! gid = Some g → groupHeap st !! g = Some grp →
     objects grp !! oid = Some e →
     valid_loc (mkLoc gid oid) ∧
     (complete e = true → iv_contains (cachedContent t) (mkLoc gid oid) = true)) ∧
  (∀ l, valid_loc l → iv_contains (cachedContent t) l = true →
     iv_contains (gaps t) l = true ∨
     ∃ g grp, groups t !! group l = Some g ∧ groupHeap st !! g = Some grp ∧
              is_Some (objects grp !! object l)).

Definition cwf st : Prop := ∀ f r t, cachedT st f r t → content_ok st t.

(** The limits are [size_t] values. *)
Definition limits_ok st : Prop :=
  0 <= maxCachedTracks_ st ∧ 0 <= maxCachedGroupsPerTrack_ st ∧
  0 <= maxCachedBytes_ st ∧ 0 <= minEvictionBytes_ st.

Record wf P st : Prop := {
  wf_g : gwf P st;
  wf_t : twf P st;
  wf_c : cwf st;
  wf_l : limits_ok st;
  wf_p g : g ∈ P → g < nextRef st;
}.

(** ** Lists of nodes *)

Lemma nodup_fst {A B} (l : list (A * B)) a b b' :
  NoDup l.*1 → (a, b) ∈ l → (a, b') ∈ l → b = b'.
Proof.
  induction l as [|[x y] l IH]; cbn; [intros _ []%elem_of_nil|].
  rewrite NoDup_cons, !elem_of_cons. intros [Hx Hnd] [E|Hb] [E'|Hb'].
  - congruence.
  - destruct Hx. apply list_elem_of_fmap. exists (a, b'). split; [by injection E|done].
  - destruct Hx. apply list_elem_of_fmap. exists (a, b). split; [by injection E'|done].
  - by apply IH.
Qed.

Lemma elem_of_erased {A} n (l : nodes A) m a :
  (m, a) ∈ filter (λ p : Z * A, p.1 ≠ n) l ↔ (m, a) ∈ l ∧ m ≠ n.
Proof. rewrite list_elem_of_filter. cbn. tauto. Qed.

Lemma fst_erased {A} n (l : nodes A) m :
  m ∈ (filter (λ p : Z * A, p.1 ≠ n) l).*1 → m ∈ l.*1.
Proof.
  intros ([m' a] & -> & Hin)%list_elem_of_fmap. apply elem_of_erased in Hin as [? _].
  apply list_elem_of_fmap. by exists (m', a).
Qed.

Lemma nodup_erased {A} n (l : nodes A) :
  NoDup l.*1 → NoDup (filter (λ p : Z * A, p.1 ≠ n) l).*1.
Proof.
  induction l as [|[x y] l IH]; [done|]. rewrite fmap_cons, NoDup_cons, filter_cons.
  intros [Hx Hnd]. case_decide; [|by apply IH]. rewrite fmap_cons.
  apply NoDup_cons. split; [|by apply IH]. by intros ?%fst_erased.
Qed.

Lemma eraseNode_Some {A} n (l : nodes A) a :
  (n, a) ∈ l → eraseNode n l = Some (filter (λ p, p.1 ≠ n) l).
Proof.
  intros Hin. unfold eraseNode. rewrite decide_True; [done|].
  apply list_elem_of_fmap. by exists (n, a).
Qed.

Lemma elem_of_fst {A B} (l : list (A * B)) a b : (a, b) ∈ l → a ∈ l.*1.
Proof. intros Hin. apply list_elem_of_fmap. by exists (a, b). Qed.

(** ** Bytes of an updated store *)

Lemma trackBytes_eq st r t : tracks st !! r = Some t →
  trackBytes st r = msum (λ _ g, groupBytes st g) (groups t).
Proof. intros Ht. unfold trackBytes. by rewrite Ht. Qed.

(** Writing one cached track, with the same heap of groups. *)
Lemma storeBytes_track st st' f r t t' :
  (∀ f', cache_ st !! f' = Some r → f' = f) → cachedT st f r t →
  cache_ st' = cache_ st → groupHeap st' = groupHeap st → tracks st' = <[r := t']> (tracks st) →
  storeBytes st' = storeBytes st - msum (λ _ g, groupBytes st g) (groups t)
                   + msum (λ _ g, groupBytes st g) (groups t').
Proof.
  intros Hinj [Hf Ht] Hc Hg Htr. unfold storeBytes. rewrite Hc.
  rewrite (msum_change _ (λ _ r, trackBytes st r) _ f r Hf).
  - assert (tracks st' !! r = Some t') as Ht' by (rewrite Htr; apply lookup_insert_eq).
    rewrite (trackBytes_eq _ _ _ Ht), (trackBytes_eq _ _ _ Ht').
    unfold groupBytes. rewrite Hg. lia.
  - intros f' r' Hne Hf'. unfold trackBytes, groupBytes. rewrite Hg, Htr.
    rewrite lookup_insert_ne; [done|]. intros ->. by apply Hne, Hinj.
Qed.

(** Writing one cached group. *)
Lemma storeBytes_group P st st' f r t gid g grp grp' :
  gwf P st → cachedG st f r t gid g grp →
  cache_ st' = cache_ st → tracks st' = tracks st →
  groupHeap st' = <[g := grp']> (groupHeap st) →
  storeBytes st' = storeBytes st - totalBytes grp + totalBytes grp'.
Proof.
  intros Hwf ([Hf Ht] & Hg & Hgrp) Hc Htr Hh. unfold storeBytes. rewrite Hc.
  rewrite (msum_change _ (λ _ r, trackBytes st r) _ f r Hf).
  - assert (tracks st' !! r = Some t) as Ht' by (by rewrite Htr).
    rewrite (trackBytes_eq _ _ _ Ht), (trackBytes_eq _ _ _ Ht').
    rewrite (msum_change (λ _ g, groupBytes st' g) (λ _ g, groupBytes st g) _ gid g Hg).
    + unfold groupBytes. rewrite Hh, lookup_insert_eq, Hgrp. lia.
    + intros gid' g' Hne Hg'. unfold groupBytes. rewrite Hh, lookup_insert_ne; [done|].
      intros ->. by destruct (g_ginj P st Hwf f r t gid f r t gid' g' (conj Hf Ht) Hg (conj Hf Ht) Hg').
  - intros f' r' Hne Hf'. unfold trackBytes. rewrite Htr.
    destruct (tracks st !! r') as [t'|] eqn:Ht'; [|done]. apply msum_ext. intros gid' g' Hg'.
    unfold groupBytes. rewrite Hh, lookup_insert_ne; [done|]. intros ->.
    by destruct (g_ginj P st Hwf f r t gid f' r' t' gid' g' (conj Hf Ht) Hg (conj Hf' Ht') Hg').
Qed.

Lemma totalBytes_nonneg P st f r t gid g grp :
  gwf P st → cachedG st f r t gid g grp → 0 <= totalBytes grp.
Proof.
  intros Hwf Hg. destruct (g_bytes P st Hwf _ _ _ _ _ _ Hg) as [-> _].
  apply msum_nonneg. intros _ e _. unfold payloadLength, computeChainDataLength. destruct payload; lia.
Qed.

Lemma groupBytes_nonneg P st f r t gid g :
  gwf P st → cachedT st f r t → groups t !! gid = Some g → 0 <= groupBytes st g.
Proof.
  intros Hwf Ht Hg. unfold groupBytes. destruct (groupHeap st !! g) as [grp|] eqn:E; [|lia].
  by eapply totalBytes_nonneg; [done|split_and!].
Qed.

(** A cached group is part of the account. *)
Lemma totalBytes_le P st f r t gid g grp :
  gwf P st → cachedG st f r t gid g grp → totalBytes grp <= totalCachedBytes_ st.
Proof.
  intros Hwf ([Hf Ht] & Hg & Hgrp). rewrite (g_total P st Hwf).
  assert (groupBytes st g = totalBytes grp) as <- by (unfold groupBytes; by rewrite Hgrp).
  etrans; [|apply (msum_elem_le (λ _ r, trackBytes st r) _ f r); [|done]].
  - cbv beta. rewrite (trackBytes_eq _ _ _ Ht).
    apply (msum_elem_le (λ _ g, groupBytes st g) _ gid g); [|done].
    intros gid' g' Hg'. by eapply groupBytes_nonneg.
  - intros f' r' Hf'. destruct (g_track P st Hwf _ _ Hf') as [t' Ht'].
    rewrite (trackBytes_eq _ _ _ Ht'). apply msum_nonneg. intros gid' g' Hg'.
    by eapply groupBytes_nonneg.
Qed.

(** ** Evicting a group *)

Definition lessGroup (gid n : Z) (t : ctrack) :=
  set_groups (delete gid (groups t))
    (set_content (iv_remove (cachedContent t) (groupRange gid).1 (groupRange gid).2)
       (set_groupLRU (filter (λ p, p.1 ≠ n) (groupLRU t)) t)).

Definition lessGroupSt (r gid n gn : Z) (t : ctrack) (grp : cgroup) st : cache :=
  put_track r (lessGroup gid n t)
    (with_bytes (totalCachedBytes_ st - totalBytes grp)
       (with_globalLRU (filter (λ p, p.1 ≠ gn) (globalGroupLRU_ st)) st)).

Lemma cachedT_put st r t' f' r' t'' :
  cachedT (put_track r t' st) f' r' t'' ↔
  cache_ st !! f' = Some r' ∧ ((r' = r ∧ t'' = t') ∨ (r' ≠ r ∧ tracks st !! r' = Some t'')).
Proof.
  unfold cachedT. cbn. rewrite lookup_insert_Some. split; [|intros [? [[-> ->]|[? ?]]]]; intuition.
Qed.

Lemma evictable_iters P st f r t gid g grp :
  gwf P st → cachedG st f r t gid g grp → g ∉ P →
  ∃ n gn, lruIter_ grp = Some n ∧ globalLruIter_ grp = Some gn ∧
          (n, gid) ∈ groupLRU t ∧ (gn, (f, gid)) ∈ globalGroupLRU_ st.
Proof.
  intros Hwf Hg HP. destruct (g_pin P st Hwf _ _ _ _ _ _ Hg) as [Hl Hgl].
  destruct (lruIter_ grp) as [n|] eqn:En; [|by destruct HP; apply Hl].
  destruct (globalLruIter_ grp) as [gn|] eqn:Egn; [|by destruct HP; apply Hgl].
  exists n, gn. split_and!; [done|done| |].
  - destruct Hg as (Ht & ? & ?). apply (g_lru P st Hwf f r t n gid Ht). by exists g, grp.
  - apply (g_global P st Hwf). by exists r, t, g, grp.
Qed.

(** What the eviction leaves: a section for one group of one track. *)
Section LessGroup.
Context (P : gset Z) (st : cache) (f : FullTrackName) (r : Z) (t : ctrack) (gid g : Z)
        (grp : cgroup) (n gn : Z).
Context (Hwf : gwf P st) (Hg : cachedG st f r t gid g grp)
        (Hn : lruIter_ grp = Some n) (Hgn : globalLruIter_ grp = Some gn).
Let st' := lessGroupSt r gid n gn t grp st.

Lemma lessGroup_track f' r' t'' : cachedT st' f' r' t'' →
  ∃ t0, cachedT st f' r' t0 ∧
    ((f' = f ∧ r' = r ∧ t0 = t ∧ t'' = lessGroup gid n t) ∨ (f' ≠ f ∧ r' ≠ r ∧ t'' = t0)).
Proof.
  destruct Hg as ([Hf Ht] & Hgid & Hgrp).
  intros [Hf' [[-> ->]|[Hne Ht'']]]%cachedT_put; cbn in Hf'.
  - exists t. rewrite (g_inj P st Hwf f' f r Hf' Hf). split; [done|]. by left.
  - exists t''. split; [done|]. right. split_and!; [congruence|done|done].
Qed.

Lemma lessGroup_old f' r' t'' gid' g' : cachedT st' f' r' t'' → groups t'' !! gid' = Some g' →
  ∃ t0, cachedT st f' r' t0 ∧ groups t0 !! gid' = Some g' ∧ (f', gid') ≠ (f, gid).
Proof.
  intros (t0 & Ht0 & Hcase)%lessGroup_track Hg'. exists t0.
  destruct Hcase as [(-> & -> & -> & ->)|(? & ? & ->)].
  - cbn in Hg'. apply lookup_delete_Some in Hg' as [? ?]. split_and!; [done|done|congruence].
  - split_and!; [done|done|congruence].
Qed.

Lemma lessGroup_lru f' r' t'' n' gid' : cachedT st' f' r' t'' →
  (n', gid') ∈ groupLRU t'' ↔
  ∃ g' grp', groups t'' !! gid' = Some g' ∧ groupHeap st !! g' = Some grp' ∧
             lruIter_ grp' = Some n'.
Proof.
  intros (t0 & Ht0 & Hcase)%lessGroup_track.
  pose proof (g_lru P st Hwf _ _ _ n' gid' Ht0) as Hl.
  destruct Hcase as [(-> & -> & -> & ->)|(? & ? & ->)]; [|done]. cbn.
  destruct Hg as (Hc & Hgid & Hgrp). rewrite elem_of_erased, Hl. split.
  - intros [(g' & grp' & ? & ? & ?) Hne]. exists g', grp'. split_and!; [|done|done].
    apply lookup_delete_Some. split; [|done]. intros <-. congruence.
  - intros (g' & grp' & [Hne ?]%lookup_delete_Some & ? & ?). split; [by exists g', grp'|].
    intros ->. apply Hne. eapply (nodup_fst (groupLRU t) n).
    + by eapply (g_lru_nodup P st Hwf).
    + apply (g_lru P st Hwf f r t n gid Hc). by exists g, grp.
    + apply Hl. by exists g', grp'.
Qed.

Lemma lessGroup_global n' f' gid' : (n', (f', gid')) ∈ globalGroupLRU_ st' ↔
  ∃ r' t' g' grp', cachedG st' f' r' t' gid' g' grp' ∧ globalLruIter_ grp' = Some n'.
Proof.
  pose proof Hg as ([Hf Ht] & Hgid & Hgrp).
  cbn. rewrite elem_of_erased, (g_global P st Hwf). split.
  - intros [(r' & t' & g' & grp' & ([Hf' Ht'] & Hg' & Hgrp') & Hn') Hne].
    destruct (decide (r' = r)) as [->|Hr].
    + rewrite Ht in Ht'. injection Ht' as <-. exists r, (lessGroup gid n t), g', grp'.
      rewrite (g_inj P st Hwf f' f r Hf' Hf) in *.
      split; [|done]. split_and!; [apply cachedT_put; split; [done|by left]| |done].
      cbn. apply lookup_delete_Some. split; [|done]. intros <-. congruence.
    + exists r', t', g', grp'. split; [|done].
      split_and!; [apply cachedT_put; split; [done|by right]|done|done].
  - intros (r' & t' & g' & grp' & (Hc & Hg' & Hgrp') & Hn').
    destruct (lessGroup_old _ _ _ _ _ Hc Hg') as (t0 & Ht0 & Hg0 & Hne).
    split; [by exists r', t0, g', grp'|]. intros ->. apply Hne.
    eapply (nodup_fst (globalGroupLRU_ st) gn); [by apply (g_global_nodup P st Hwf)| |].
    + apply (g_global P st Hwf). by exists r', t0, g', grp'.
    + apply (g_global P st Hwf). by exists r, t, g, grp.
Qed.

Lemma lessGroup_total : totalCachedBytes_ st' = storeBytes st'.
Proof.
  pose proof Hg as (Ht & Hgid & Hgrp). cbn. rewrite (g_total P st Hwf).
  rewrite (storeBytes_track st st' f r t (lessGroup gid n t)); try done.
  - cbn. rewrite (msum_delete _ _ gid g Hgid). unfold groupBytes at 3. rewrite Hgrp. lia.
  - intros f' Hf'. apply (g_inj P st Hwf f' f r Hf'). apply Ht.
Qed.

Lemma gwf_lessGroup : gwf P st'.
Proof.
  constructor.
  - intros f' r' Hf'. cbn in *. apply lookup_insert_is_Some'. right.
    by apply (g_track P st Hwf f').
  - intros f' f'' r' Hf' Hf''. cbn in *. by eapply (g_inj P st Hwf).
  - intros f' r' t'' gid' g' Ht'' Hg'.
    destruct (lessGroup_old _ _ _ _ _ Ht'' Hg') as (t0 & Ht0 & Hg0 & _).
    cbn. by eapply (g_heap P st Hwf).
  - intros f1 r1 t1 gid1 f2 r2 t2 gid2 g0 Ht1 Hg1 Ht2 Hg2.
    destruct (lessGroup_old _ _ _ _ _ Ht1 Hg1) as (t1' & ? & ? & _).
    destruct (lessGroup_old _ _ _ _ _ Ht2 Hg2) as (t2' & ? & ? & _).
    by eapply (g_ginj P st Hwf f1 r1 t1' gid1 f2 r2 t2' gid2).
  - intros f' r' t'' (t0 & Ht0 & Hcase)%lessGroup_track.
    pose proof (g_lru_nodup P st Hwf _ _ _ Ht0).
    destruct Hcase as [(-> & -> & -> & ->)|(? & ? & ->)]; [|done]. cbn. by apply nodup_erased.
  - apply lessGroup_lru.
  - cbn. apply nodup_erased, (g_global_nodup P st Hwf).
  - apply lessGroup_global.
  - intros f' r' t'' gid' g' grp' (Hc & Hg' & Hgrp').
    destruct (lessGroup_old _ _ _ _ _ Hc Hg') as (t0 & Ht0 & Hg0 & _).
    by apply (g_pin P st Hwf f' r' t0 gid' g' grp').
  - intros f' r' t'' gid' g' grp' (Hc & Hg' & Hgrp').
    destruct (lessGroup_old _ _ _ _ _ Hc Hg') as (t0 & Ht0 & Hg0 & _).
    by apply (g_bytes P st Hwf f' r' t0 gid' g' grp').
  - apply lessGroup_total.
  - cbn. pose proof (totalBytes_le P st _ _ _ _ _ _ Hwf Hg).
    pose proof (totalBytes_nonneg P st _ _ _ _ _ _ Hwf Hg).
    pose proof (g_range P st Hwf). unfold is_u64 in *. lia.
  - intros r'. cbn. intros [->|Hr']%lookup_insert_is_Some'; apply (g_fresh_track P st Hwf); [|done].
    exists t. apply Hg.
  - intros g'. cbn. apply (g_fresh_group P st Hwf).
  - intros f' r' t'' n' (t0 & Ht0 & Hcase)%lessGroup_track Hin. cbn.
    apply (g_fresh_lru P st Hwf f' r' t0 n' Ht0).
    destruct Hcase as [(-> & -> & -> & ->)|(? & ? & ->)]; [|done]. cbn in Hin. by eapply fst_erased.
  - intros n' Hin. cbn in *. apply (g_fresh_global P st Hwf). by eapply fst_erased.
Qed.

Lemma evictGroup_eq : evictGroup r gid st = Some st'.
Proof.
  pose proof Hg as ([Hf Ht] & Hgid & Hgrp). unfold evictGroup.
  rewrite Ht. cbn [mbind option_bind]. rewrite Hgid, Hgrp. cbn [mbind option_bind].
  rewrite Hn, Hgn. unfold eraseMaybe.
  rewrite (eraseNode_Some n (groupLRU t) gid); cbn [mbind option_bind].
  2: { apply (g_lru P st Hwf f r t n gid (conj Hf Ht)). by exists g, grp. }
  rewrite (eraseNode_Some gn (globalGroupLRU_ st) (f, gid)); cbn [mbind option_bind].
  2: { apply (g_global P st Hwf). by exists r, t, g, grp. }
  pose proof (totalBytes_le P st _ _ _ _ _ _ Hwf Hg).
  destruct (totalCachedBytes_ st <? totalBytes grp) eqn:E; [lia|done].
Qed.
End LessGroup.

(** ** Updates that keep the groups of every track *)

Definition same_groups (t t' : ctrack) : Prop := groups t' = groups t ∧ groupLRU t' = groupLRU t.

Lemma storeBytes_same st st' :
  cache_ st' = cache_ st → groupHeap st' = groupHeap st →
  (∀ r t', tracks st' !! r = Some t' → ∃ t, tracks st !! r = Some t ∧ same_groups t t') →
  (∀ r, is_Some (tracks st !! r) → is_Some (tracks st' !! r)) →
  storeBytes st' = storeBytes st.
Proof.
  intros Hc Hh Ht Ht'. unfold storeBytes. rewrite Hc. apply msum_ext. intros f r _.
  unfold trackBytes. destruct (tracks st' !! r) as [t'|] eqn:E.
  - destruct (Ht _ _ E) as (t & -> & -> & _). unfold groupBytes. by rewrite Hh.
  - destruct (tracks st !! r) eqn:E'; [|done]. destruct (Ht' r) as [? ?]; [done|congruence].
Qed.

Lemma gwf_same P st st' :
  gwf P st → cache_ st' = cache_ st → groupHeap st' = groupHeap st →
  globalGroupLRU_ st' = globalGroupLRU_ st → totalCachedBytes_ st' = totalCachedBytes_ st →
  nextRef st <= nextRef st' →
  (∀ r t', tracks st' !! r = Some t' → ∃ t, tracks st !! r = Some t ∧ same_groups t t') →
  (∀ r, is_Some (tracks st !! r) → is_Some (tracks st' !! r)) →
  gwf P st'.
Proof.
  intros Hwf Hc Hh Hgl Hb Hn Hback Hfw.
  assert (HT : ∀ f r t', cachedT st' f r t' → ∃ t, cachedT st f r t ∧ same_groups t t').
  { intros f r t' [Hf Ht]. rewrite Hc in Hf. destruct (Hback _ _ Ht) as (t & ? & ?). by exists t. }
  assert (HT' : ∀ f r t, cachedT st f r t → ∃ t', cachedT st' f r t' ∧ same_groups t t').
  { intros f r t [Hf Ht]. destruct (Hfw r) as [t' Ht']; [eauto|]. exists t'.
    destruct (Hback _ _ Ht') as (t0 & Ht0 & Hs). split; [split; [congruence|done]|congruence]. }
  assert (HG : ∀ f r t' gid g grp, cachedG st' f r t' gid g grp → ∃ t, cachedG st f r t gid g grp).
  { intros f r t' gid g grp ((t & Ht & Hs & _)%HT & Hg & Hgrp). exists t.
    rewrite Hs in Hg. rewrite Hh in Hgrp. by split_and!. }
  constructor.
  - intros f r Hf. rewrite Hc in Hf. apply Hfw. by eapply (g_track P st Hwf).
  - rewrite Hc. apply (g_inj P st Hwf).
  - intros f r t' gid g (t & Ht & Hs & _)%HT Hg. rewrite Hs in Hg. rewrite Hh.
    by eapply (g_heap P st Hwf).
  - intros f r t1 gid f' r' t2 gid' g (t & Ht & Hs & _)%HT Hg (t' & Ht' & Hs' & _)%HT Hg'.
    rewrite Hs in Hg. rewrite Hs' in Hg'. by eapply (g_ginj P st Hwf).
  - intros f r t' (t & Ht & _ & Hs)%HT. rewrite Hs. by eapply (g_lru_nodup P st Hwf).
  - intros f r t' n gid (t & Ht & Hs & Hs')%HT. rewrite Hs, Hs', Hh. by eapply (g_lru P st Hwf).
  - rewrite Hgl. apply (g_global_nodup P st Hwf).
  - intros n f gid. rewrite Hgl, (g_global P st Hwf). split.
    + intros (r & t & g & grp & (Ht & Hg & Hgrp) & Hi).
      destruct (HT' _ _ _ Ht) as (t' & Ht' & Hs & _). exists r, t', g, grp.
      rewrite <-Hh in Hgrp. rewrite <-Hs in Hg. by split.
    + intros (r & t' & g & grp & [t Hg]%HG & Hi). by exists r, t, g, grp.
  - intros f r t' gid g grp [t Hg]%HG. by eapply (g_pin P st Hwf).
  - intros f r t' gid g grp [t Hg]%HG. by eapply (g_bytes P st Hwf).
  - rewrite Hb, (g_total P st Hwf). symmetry. by apply storeBytes_same.
  - rewrite Hb. apply (g_range P st Hwf).
  - intros r [t' Ht']. destruct (Hback _ _ Ht') as (t & Ht & _).
    assert (r < nextRef st) by (apply (g_fresh_track P st Hwf); eauto). lia.
  - intros g. rewrite Hh. intros Hg. pose proof (g_fresh_group P st Hwf g Hg). lia.
  - intros f r t' n (t & Ht & _ & Hs)%HT. rewrite Hs. intros Hin.
    pose proof (g_fresh_lru P st Hwf f r t n Ht Hin). lia.
  - intros n. rewrite Hgl. intros Hin. pose proof (g_fresh_global P st Hwf n Hin). lia.
Qed.

(** Writing one track, keeping its groups, and anything of the cache that is
    not about groups. *)
Lemma gwf_put_track P st st' r t t' :
  gwf P st → tracks st !! r = Some t → same_groups t t' →
  tracks st' = <[r := t']> (tracks st) → cache_ st' = cache_ st →
  groupHeap st' = groupHeap st → globalGroupLRU_ st' = globalGroupLRU_ st →
  totalCachedBytes_ st' = totalCachedBytes_ st → nextRef st <= nextRef st' →
  gwf P st'.
Proof.
  intros Hwf Ht Hs Htr Hc Hh Hgl Hb Hn. apply (gwf_same P st); try done; rewrite Htr.
  - intros r' t''. rewrite lookup_insert_Some. intros [[<- <-]|[_ ?]]; [by exists t|].
    exists t''. split; [done|by split].
  - intros r' Hr'. apply lookup_insert_is_Some'. by right.
Qed.

(** ** Evicting a track *)

Lemma gwf_dropTrack P st f r t :
  gwf P st → cachedT st f r t → groups t = ∅ → gwf P (with_cache (delete f (cache_ st)) st).
Proof.
  intros Hwf [Hf Ht] Hempty.
  assert (HT : ∀ f' r' t', cachedT (with_cache (delete f (cache_ st)) st) f' r' t' ↔
                 f' ≠ f ∧ cachedT st f' r' t').
  { intros f' r' t'. unfold cachedT. cbn. rewrite lookup_delete_Some. naive_solver. }
  constructor; cbn.
  - intros f' r' [_ ?]%lookup_delete_Some. by eapply (g_track P st Hwf).
  - intros f' f'' r' [_ ?]%lookup_delete_Some [_ ?]%lookup_delete_Some. by eapply (g_inj P st Hwf).
  - intros f' r' t' gid g [_ ?]%HT. by eapply (g_heap P st Hwf).
  - intros f1 r1 t1 gid f' r' t2 gid' g [_ ?]%HT ? [_ ?]%HT. by eapply (g_ginj P st Hwf).
  - intros f' r' t' [_ ?]%HT. by eapply (g_lru_nodup P st Hwf).
  - intros f' r' t' n gid [_ ?]%HT. by eapply (g_lru P st Hwf).
  - apply (g_global_nodup P st Hwf).
  - intros n f' gid. rewrite (g_global P st Hwf). split.
    + intros (r' & t' & g & grp & (Ht' & Hg & Hgrp) & Hi). exists r', t', g, grp.
      refine (conj (conj _ (conj Hg Hgrp)) Hi). apply HT. split; [|done]. intros ->.
      destruct Ht' as [Hf' Ht']. simplify_eq. rewrite Hempty in Hg. by rewrite lookup_empty in Hg.
    + intros (r' & t' & g & grp & ([_ ?]%HT & Hg & Hgrp) & Hi). by exists r', t', g, grp.
  - intros f' r' t' gid g grp ([_ ?]%HT & ? & ?). by eapply (g_pin P st Hwf f' r' t' gid).
  - intros f' r' t' gid g grp ([_ ?]%HT & ? & ?). by eapply (g_bytes P st Hwf f' r' t' gid).
  - rewrite (g_total P st Hwf). unfold storeBytes at 2. cbn.
    change (trackBytes (with_cache (delete f (cache_ st)) st)) with (trackBytes st).
    rewrite (msum_delete _ _ f r Hf), (trackBytes_eq _ _ _ Ht), Hempty, msum_empty.
    unfold storeBytes. lia.
  - apply (g_range P st Hwf).
  - apply (g_fresh_track P st Hwf).
  - apply (g_fresh_group P st Hwf).
  - intros f' r' t' n [_ ?]%HT. by eapply (g_fresh_lru P st Hwf).
  - apply (g_fresh_global P st Hwf).
Qed.

(** ** What evictions leave alone

    Evictions never write a group; tracks with a live writeback stay, except
    those in [D], pinned groups stay in their tracks, and a track leaves the
    cache only with its [evicted] flag set. *)

Definition config st :=
  (maxCachedTracks_ st, maxCachedGroupsPerTrack_ st, maxCachedBytes_ st, minEvictionBytes_ st,
   defaultMaxCacheDuration_ st, maxAllowedCacheDuration_ st).

Record keeps P (D : gset FullTrackName) st st' : Prop := {
  k_heap : groupHeap st' = groupHeap st;
  k_live : liveWritebackCount <$> tracks st' = liveWritebackCount <$> tracks st;
  k_cache f r : cache_ st' !! f = Some r → cache_ st !! f = Some r;
  k_cached f r t : cachedT st f r t → 0 < liveWritebackCount t → f ∉ D → cache_ st' !! f = Some r;
  k_pin f r t gid g : cachedT st f r t → groups t !! gid = Some g → g ∈ P →
    ∃ t', tracks st' !! r = Some t' ∧ groups t' !! gid = Some g;
  k_home f r t : tracks st !! r = Some t → evicted t = true ∨ cache_ st !! f = Some r →
    ∃ t', tracks st' !! r = Some t' ∧ (evicted t' = true ∨ cache_ st' !! f = Some r);
  k_config : config st' = config st;
  k_next : nextRef st' = nextRef st;
  k_total : totalCachedBytes_ st' <= totalCachedBytes_ st;
}.

Lemma keeps_refl P D st : keeps P D st st.
Proof.
  constructor; try done.
  - by intros f r t [? _].
  - intros f r t gid g [_ Ht] ? _. eauto.
  - intros f r t Ht ?. eauto.
Qed.

Lemma keeps_live P D st st' r t : keeps P D st st' → tracks st !! r = Some t →
  ∃ t', tracks st' !! r = Some t' ∧ liveWritebackCount t' = liveWritebackCount t.
Proof.
  intros Hk Ht. assert ((liveWritebackCount <$> tracks st') !! r = Some (liveWritebackCount t)) as E.
  { by rewrite (k_live _ _ _ _ Hk), lookup_fmap, Ht. }
  rewrite lookup_fmap in E. destruct (tracks st' !! r) as [t'|]; [|done].
  injection E as E. by exists t'.
Qed.

Lemma keeps_trans P D st st' st'' :
  (∀ f r t gid g, cachedT st f r t → groups t !! gid = Some g → g ∈ P →
     0 < liveWritebackCount t ∧ f ∉ D) →
  keeps P D st st' → keeps P D st' st'' → keeps P D st st''.
Proof.
  intros Hpin Hk Hk'. constructor.
  - by rewrite (k_heap _ _ _ _ Hk'), (k_heap _ _ _ _ Hk).
  - by rewrite (k_live _ _ _ _ Hk'), (k_live _ _ _ _ Hk).
  - intros f r Hf. by apply (k_cache _ _ _ _ Hk), (k_cache _ _ _ _ Hk').
  - intros f r t Hc Hl HD. pose proof (k_cached _ _ _ _ Hk f r t Hc Hl HD) as Hf.
    destruct (keeps_live _ _ _ _ r t Hk) as (t' & Ht' & E); [apply Hc|].
    apply (k_cached _ _ _ _ Hk' f r t'); [done|lia|done].
  - intros f r t gid g Hc Hg HP. destruct (Hpin f r t gid g Hc Hg HP) as [Hl HD].
    pose proof (k_cached _ _ _ _ Hk f r t Hc Hl HD) as Hf.
    destruct (k_pin _ _ _ _ Hk f r t gid g Hc Hg HP) as (t' & Ht' & Hg').
    by apply (k_pin _ _ _ _ Hk' f r t' gid g).
  - intros f r t Ht Hh. destruct (k_home _ _ _ _ Hk f r t Ht Hh) as (t' & Ht' & Hh').
    by apply (k_home _ _ _ _ Hk' f r t').
  - by rewrite (k_config _ _ _ _ Hk'), (k_config _ _ _ _ Hk).
  - by rewrite (k_next _ _ _ _ Hk'), (k_next _ _ _ _ Hk).
  - etrans; [apply (k_total _ _ _ _ Hk')|apply (k_total _ _ _ _ Hk)].
Qed.

(** ** Tracks under updates of one track *)

Definition same_track (t t' : ctrack) : Prop :=
  evicted t' = evicted t ∧ liveWritebackCount t' = liveWritebackCount t ∧
  trackLruIter_ t' = trackLruIter_ t ∧ fetchesInProgress t' = fetchesInProgress t.

Lemma twf_same P st st' :
  twf P st → cache_ st' = cache_ st → trackLRU_ st' = trackLRU_ st → nextRef st <= nextRef st' →
  (∀ f r t', cachedT st' f r t' → ∃ t, cachedT st f r t ∧ same_track t t' ∧
     ∀ gid g, groups t' !! gid = Some g → g ∈ P → ∃ gid', groups t !! gid' = Some g) →
  (∀ f r t, cachedT st f r t → is_Some (tracks st' !! r)) →
  twf P st'.
Proof.
  intros Hwf Hc Hl Hn Hback Hfw. constructor.
  - intros f r t' (t & Ht & (-> & _) & _)%Hback. by eapply (t_evicted P st Hwf).
  - intros f r t' (t & Ht & (_ & -> & _) & _)%Hback. by eapply (t_live P st Hwf).
  - rewrite Hl. apply (t_nodup P st Hwf).
  - intros n f. rewrite Hl, (t_lru P st Hwf). split.
    + intros (r & t & Ht & Hi). destruct (Hfw _ _ _ Ht) as [t' Ht'].
      assert (cachedT st' f r t') as Hc' by (split; [rewrite Hc; apply Ht|done]).
      destruct (Hback _ _ _ Hc') as (t0 & [? ?] & (_ & _ & E & _) & _). destruct Ht as [? ?].
      simplify_eq. exists r, t'. by rewrite E.
    + intros (r & t' & (t & Ht & (_ & _ & E & _) & _)%Hback & Hi). exists r, t. by rewrite <-E.
  - intros f r t' (t & Ht & (_ & E1 & E2 & E3) & _)%Hback. unfold canEvict. rewrite E1, E2, E3.
    by eapply (t_evictable P st Hwf).
  - intros f r t' gid g (t & Ht & (_ & -> & _) & Hg)%Hback Hg' HP.
    destruct (Hg _ _ Hg' HP) as [gid' ?]. by eapply (t_pin P st Hwf).
  - intros n. rewrite Hl. intros Hin. pose proof (t_fresh P st Hwf n Hin). lia.
  - intros f r t' (t & Ht & (_ & _ & _ & ->) & _)%Hback. by eapply (t_fetches P st Hwf).
Qed.

Lemma twf_put_track P st st' r t t' :
  twf P st → tracks st !! r = Some t → same_track t t' → groups t' ⊆ groups t →
  tracks st' = <[r := t']> (tracks st) → cache_ st' = cache_ st →
  trackLRU_ st' = trackLRU_ st → nextRef st <= nextRef st' → twf P st'.
Proof.
  intros Hwf Ht Hs Hsub Htr Hc Hl Hn. apply (twf_same P st); try done.
  - intros f r' t'' [Hf Ht']. rewrite Hc in Hf. rewrite Htr in Ht'.
    apply lookup_insert_Some in Ht' as [[<- <-]|[_ Ht']].
    + exists t. split_and!; [done|done|]. intros gid g Hg _. exists gid.
      by eapply lookup_weaken.
    + exists t''. split_and!; try done. eauto.
  - intros f r' t'' [_ ?]. rewrite Htr. apply lookup_insert_is_Some'. eauto.
Qed.

(** ** Contents after the eviction of a group *)

Lemma groupRange_contains gid l : valid_loc l → 0 <= gid <= group kLocationMax →
  ((groupRange gid).1 <=?L l) && (l <=?L (groupRange gid).2) = (group l =? gid).
Proof. intros Hl Hg. unfold groupRange, valid_loc in *. cbn. loc_unfold. lia. Qed.

Lemma groupRange_valid gid : 0 <= gid <= group kLocationMax →
  valid_loc (groupRange gid).1 ∧ valid_loc (groupRange gid).2.
Proof.
  pose proof max_object_pos. unfold groupRange, valid_loc. cbn. lia.
Qed.

Lemma content_lessGroup st st' t gid n :
  content_ok st t → is_Some (groups t !! gid) → groupHeap st' = groupHeap st →
  content_ok st' (lessGroup gid n t).
Proof.
  intros (Hid & Hob & Hin) [g0 Hg0] Hh. pose proof (Hid _ _ Hg0) as Hgid.
  destruct (groupRange_valid gid Hgid) as [Hv1 Hv2]. unfold content_ok. rewrite Hh. cbn -[groupRange]. split_and!.
  - intros gid' g' [_ ?]%lookup_delete_Some. by eapply Hid.
  - intros gid' g grp oid e [Hne Hg]%lookup_delete_Some Hgrp He.
    destruct (Hob gid' g grp oid e Hg Hgrp He) as [Hv Hc]. split; [done|]. intros He'.
    rewrite contains_remove by done. rewrite groupRange_contains by done.
    rewrite (Hc He'). cbn [group]. destruct (Z.eqb_spec gid' gid); [congruence|done].
  - intros l Hl. rewrite contains_remove by done. rewrite groupRange_contains by done.
    intros [Hne Hc]%andb_true_iff. destruct (Hin l Hl Hc) as [?|(g & grp & Hg & Hgrp & Ho)]; [by left|].
    right. exists g, grp. split_and!; [|done|done]. apply lookup_delete_Some. split; [|done].
    destruct (Z.eqb_spec (group l) gid); [done|congruence].
Qed.

Lemma cwf_put_track st st' f r t' :
  cwf st → (∀ f', cache_ st !! f' = Some r → f' = f) → content_ok st' t' →
  tracks st' = <[r := t']> (tracks st) → cache_ st' = cache_ st →
  groupHeap st' = groupHeap st → cwf st'.
Proof.
  intros Hwf Hinj Hok Htr Hc Hh f' r' t'' [Hf' Ht']. rewrite Hc in Hf'. rewrite Htr in Ht'.
  apply lookup_insert_Some in Ht' as [[<- <-]|[_ Ht']]; [done|].
  unfold content_ok. rewrite Hh. by apply (Hwf f' r').
Qed.

(** ** The eviction functions *)

Lemma live_put r (t t' : ctrack) (m : gmap Z ctrack) : m !! r = Some t →
  liveWritebackCount t' = liveWritebackCount t →
  liveWritebackCount <$> <[r := t']> m = liveWritebackCount <$> m.
Proof.
  intros Ht E. rewrite fmap_insert, E. apply insert_id. by rewrite lookup_fmap, Ht.
Qed.

Lemma keeps_put_track P D st st' r t t' :
  tracks st !! r = Some t → same_track t t' →
  (∀ gid g, groups t !! gid = Some g → g ∈ P → groups t' !! gid = Some g) →
  tracks st' = <[r := t']> (tracks st) → cache_ st' = cache_ st →
  groupHeap st' = groupHeap st → config st' = config st → nextRef st' = nextRef st →
  totalCachedBytes_ st' <= totalCachedBytes_ st → keeps P D st st'.
Proof.
  intros Ht (Ee & El & _) Hg Htr Hc Hh Hcfg Hn Hb. constructor; try done.
  - rewrite Htr. by apply (live_put r t).
  - by rewrite Hc.
  - intros f r' t'' [Hf _] _ _. by rewrite Hc.
  - intros f r' t'' gid g [Hf Ht'] Hg' HP. rewrite Htr. destruct (decide (r' = r)) as [->|].
    + exists t'. rewrite lookup_insert_eq. split; [done|]. simplify_eq. eauto.
    + exists t''. by rewrite lookup_insert_ne.
  - intros f r' t'' Ht'' Hh'. rewrite Htr, Hc. destruct (decide (r' = r)) as [->|].
    + exists t'. rewrite lookup_insert_eq. simplify_eq. by rewrite Ee.
    + exists t''. by rewrite lookup_insert_ne.
Qed.

Lemma evictGroup_spec P D st f r t gid g :
  wf P st → cachedT st f r t → groups t !! gid = Some g → g ∉ P →
  ∃ n gn grp, cachedG st f r t gid g grp ∧ globalLruIter_ grp = Some gn ∧
    (n, gid) ∈ groupLRU t ∧
    evictGroup r gid st = Some (lessGroupSt r gid n gn t grp st) ∧
    wf P (lessGroupSt r gid n gn t grp st) ∧ keeps P D st (lessGroupSt r gid n gn t grp st).
Proof.
  intros Hwf Ht Hg HP. pose proof (wf_g _ _ Hwf) as Hgw.
  destruct (g_heap P st Hgw _ _ _ _ _ Ht Hg) as [grp Hgrp].
  assert (cachedG st f r t gid g grp) as HG by done.
  destruct (evictable_iters P st _ _ _ _ _ _ Hgw HG HP) as (n & gn & Hn & Hgn & Hin & Hgin).
  exists n, gn, grp. do 3 (split; [done|]).
  split; [by eapply evictGroup_eq|]. split; [constructor|].
  - by eapply gwf_lessGroup.
  - eapply (twf_put_track P st _ r t (lessGroup gid n t)); try done; [apply (wf_t _ _ Hwf)|apply Ht|].
    cbn. apply delete_subseteq.
  - eapply (cwf_put_track st _ f r (lessGroup gid n t)); try done; [apply (wf_c _ _ Hwf)| |].
    + intros f' Hf'. apply (g_inj P st Hgw f' f r Hf'), Ht.
    + apply (content_lessGroup st); [by apply (wf_c _ _ Hwf f r)|eauto|done].
  - apply (wf_l _ _ Hwf).
  - apply (wf_p _ _ Hwf).
  - eapply (keeps_put_track P D st _ r t (lessGroup gid n t)); try done; [apply Ht| |].
    2: { cbn. pose proof (totalBytes_nonneg P st f r t gid g grp Hgw HG). lia. }
    intros gid' g' Hg' HP'. cbn. apply lookup_delete_Some. split; [|done]. congruence.
Qed.

(** Evicting all groups of a track, whatever the rest of the cache says about
    the track. *)
Lemma evictGroups_spec P f r ids st t :
  gwf P st → cachedT st f r t → NoDup ids →
  (∀ gid, gid ∈ ids ↔ is_Some (groups t !! gid)) →
  (∀ gid g, groups t !! gid = Some g → g ∉ P) →
  ∃ st' t', evictGroups r ids st = Some st' ∧ gwf P st' ∧
    tracks st' = <[r := t']> (tracks st) ∧ groups t' = ∅ ∧ same_track t t' ∧
    cache_ st' = cache_ st ∧ groupHeap st' = groupHeap st ∧ trackLRU_ st' = trackLRU_ st ∧
    config st' = config st ∧ nextRef st' = nextRef st ∧
    totalCachedBytes_ st' <= totalCachedBytes_ st.
Proof.
  revert st t. induction ids as [|gid ids IH]; intros st t Hwf Ht Hnd Hids HP.
  - exists st, t. split; [done|]. split; [done|]. split; [by rewrite insert_id by apply Ht|].
    split; [|done]. apply map_empty. intros gid. apply eq_None_not_Some.
    intros []%Hids%elem_of_nil.
  - apply NoDup_cons in Hnd as [Hni Hnd].
    destruct (proj1 (Hids gid)) as [g Hg]; [by left|].
    destruct (g_heap P st Hwf _ _ _ _ _ Ht Hg) as [grp Hgrp].
    assert (cachedG st f r t gid g grp) as HG by done.
    destruct (evictable_iters P st _ _ _ _ _ _ Hwf HG) as (n & gn & Hn & Hgn & _); [by eapply HP|].
    cbn [evictGroups]. rewrite (evictGroup_eq P st f r t gid g grp n gn Hwf HG Hn Hgn).
    cbn [mbind option_bind].
    destruct (IH (lessGroupSt r gid n gn t grp st) (lessGroup gid n t))
      as (st' & t' & -> & Hwf' & Htr & He & (E1 & E2 & E3 & E4) & Hc' & Hh' & Hl' & Hcfg' & Hn' & Hb');
      try done.
    + by eapply gwf_lessGroup.
    + apply cachedT_put. split; [apply Ht|by left].
    + intros gid'. cbn. rewrite lookup_delete_is_Some, <-Hids, elem_of_cons. set_solver.
    + intros gid' g' Hg'. cbn in Hg'. apply lookup_delete_Some in Hg' as [_ ?]. by eapply HP.
    + exists st', t'. split; [done|]. split; [done|]. split; [rewrite Htr; cbn; apply insert_insert_eq|].
      split; [done|]. split; [by split_and!|]. do 5 (split; [done|]). cbn in Hb'.
      pose proof (totalBytes_nonneg P st f r t gid g grp Hwf HG). lia.
Qed.

Lemma eraseMaybe_track P st f r t :
  twf P st → cachedT st f r t →
  ∃ l, eraseMaybe (trackLruIter_ t) (trackLRU_ st) = Some l ∧ NoDup l.*1 ∧
    ∀ n f', (n, f') ∈ l ↔ (n, f') ∈ trackLRU_ st ∧ f' ≠ f.
Proof.
  intros Hwf Ht. destruct (trackLruIter_ t) as [n|] eqn:En.
  - assert ((n, f) ∈ trackLRU_ st) as Hin by (apply (t_lru P st Hwf); by exists r, t).
    exists (filter (λ p, p.1 ≠ n) (trackLRU_ st)).
    split; [by eapply eraseNode_Some|]. split; [apply nodup_erased, (t_nodup P st Hwf)|].
    intros n' f'. rewrite elem_of_erased. split; intros [Hin' Hne]; split; try done.
    + intros ->. apply (t_lru P st Hwf) in Hin' as (r' & t' & [? ?] & ?). destruct Ht. simplify_eq.
    + intros ->. apply Hne. by eapply (nodup_fst _ _ _ _ (t_nodup P st Hwf)).
  - exists (trackLRU_ st). split; [done|]. split; [apply (t_nodup P st Hwf)|].
    intros n' f'. split; [|tauto]. intros Hin'. split; [done|]. intros ->.
    apply (t_lru P st Hwf) in Hin' as (r' & t' & [? ?] & ?). destruct Ht. simplify_eq.
Qed.

(** Removing a track whose groups are gone: what is left is well formed. *)
Lemma twf_dropTrack P st st' f r t t' :
  twf P st → cachedT st f r t → (∀ f' r', cache_ st !! f' = Some r' → r' = r → f' = f) →
  NoDup (trackLRU_ st').*1 → (∀ n f', (n, f') ∈ trackLRU_ st' ↔ (n, f') ∈ trackLRU_ st ∧ f' ≠ f) →
  tracks st' = <[r := t']> (tracks st) → cache_ st' = delete f (cache_ st) →
  nextRef st' = nextRef st → twf P st'.
Proof.
  intros Hwf [Hf Ht] Hinj Hnd Hl Htr Hc Hn.
  assert (HT : ∀ f' r' t'', cachedT st' f' r' t'' ↔ f' ≠ f ∧ cachedT st f' r' t'').
  { intros f' r' t''. unfold cachedT. rewrite Hc, Htr, lookup_delete_Some. split.
    - intros [[Hne Hf'] Ht'']. rewrite lookup_insert_ne in Ht''; [done|].
      intros <-. by apply Hne, eq_sym, (Hinj f' r).
    - intros (Hne & Hf' & Ht''). rewrite lookup_insert_ne; [done|].
      intros <-. by apply Hne, (Hinj f' r). }
  constructor.
  - intros f' r' t'' [_ ?]%HT. by eapply (t_evicted P st Hwf).
  - intros f' r' t'' [_ ?]%HT. by eapply (t_live P st Hwf).
  - done.
  - intros n f'. rewrite Hl, (t_lru P st Hwf). setoid_rewrite HT. naive_solver.
  - intros f' r' t'' [_ ?]%HT. by eapply (t_evictable P st Hwf).
  - intros f' r' t'' gid g [_ ?]%HT. by eapply (t_pin P st Hwf).
  - intros n ([n' f'] & -> & Hin)%list_elem_of_fmap. rewrite Hn. apply (t_fresh P st Hwf).
    apply Hl in Hin as [Hin _]. by eapply elem_of_fst.
  - intros f' r' t'' [_ ?]%HT. by eapply (t_fetches P st Hwf).
Qed.

Lemma evictTrack_spec P st f r t :
  wf P st → cachedT st f r t → (∀ gid g, groups t !! gid = Some g → g ∉ P) →
  ∃ st', evictTrack f st = Some (st', 1) ∧ wf P st' ∧ cache_ st' = delete f (cache_ st) ∧
    keeps P {[ f ]} st st' ∧ (∀ n f', (n, f') ∈ trackLRU_ st' ↔ (n, f') ∈ trackLRU_ st ∧ f' ≠ f).
Proof.
  intros Hwf Ht HP. pose proof (wf_g _ _ Hwf) as Hg. pose proof (wf_t _ _ Hwf) as Htw.
  assert (Hinj : ∀ f' r', cache_ st !! f' = Some r' → r' = r → f' = f).
  { intros f' r' Hf' ->. apply (g_inj P st Hg f' f r Hf'), Ht. }
  destruct (eraseMaybe_track P st f r t Htw Ht) as (l & El & Hnd & Hl).
  destruct (evictGroups_spec P f r (map_to_list (groups t)).*1
              (put_track r (set_evicted t) (with_trackLRU l st)) (set_evicted t))
    as (st1 & t1 & E1 & Hg1 & Htr1 & Hemp & (Hs1 & Hs2 & Hs3 & Hs4) & Hc1 & Hh1 & Hl1 & Hcfg1 & Hn1 & Hb1).
  - eapply (gwf_put_track P st _ r t (set_evicted t)); try done. apply Ht.
  - apply cachedT_put. split; [apply Ht|by left].
  - apply NoDup_fst_map_to_list.
  - intros gid. rewrite list_elem_of_fmap. split.
    + intros ([gid' g] & -> & Hin%elem_of_map_to_list). cbn. eauto.
    + intros [g Hg']. exists (gid, g). split; [done|]. by apply elem_of_map_to_list.
  - done.
  - cbn in Htr1, Hc1, Hh1, Hl1, Hn1. rewrite insert_insert_eq in Htr1.
    exists (with_cache (delete f (cache_ st1)) st1). split; [|split; [constructor|split_and!]].
    + unfold evictTrack. rewrite (proj1 Ht), (proj2 Ht). cbn [mbind option_bind].
      rewrite El. cbn [mbind option_bind]. by rewrite E1.
    + eapply (gwf_dropTrack P st1 f r t1); [done| |done].
      split; [rewrite Hc1; apply Ht|rewrite Htr1; apply lookup_insert_eq].
    + eapply (twf_dropTrack P st _ f r t t1); cbn; try done; rewrite ?Hl1, ?Hc1; try done.
    + intros f' r' t'' [Hf' Ht'']. cbn in Hf', Ht''. rewrite Hc1 in Hf'.
      apply lookup_delete_Some in Hf' as [Hne Hf'].
      rewrite Htr1 in Ht''. rewrite lookup_insert_ne in Ht''; [|intros <-; by apply Hne, eq_sym, (Hinj f' r)].
      unfold content_ok. cbn. rewrite Hh1. by apply (wf_c _ _ Hwf f' r').
    + injection Hcfg1 as E1' E2' E3' E4' _ _. unfold limits_ok. cbn.
      rewrite E1', E2', E3', E4'. apply (wf_l _ _ Hwf).
    + cbn. rewrite Hn1. apply (wf_p _ _ Hwf).
    + cbn. by rewrite Hc1.
    + constructor; cbn; rewrite ?Hc1, ?Htr1; try done.
      * apply (live_put r t); [apply Ht|done].
      * by intros f' r' [_ ?]%lookup_delete_Some.
      * intros f' r' t'' [Hf' _] _ HD. apply lookup_delete_Some. split; [set_solver|done].
      * intros f' r' t'' gid g [Hf' Ht''] Hg' HgP. exists t''. split; [|done].
        rewrite lookup_insert_ne; [done|]. intros <-. destruct Ht. simplify_eq. by eapply HP.
      * intros f' r' t'' Ht'' Hh. destruct (decide (r' = r)) as [->|].
        -- exists t1. rewrite lookup_insert_eq. split; [done|]. left. by rewrite Hs1.
        -- exists t''. rewrite lookup_insert_ne by done. split; [done|].
           destruct Hh as [?|Hf']; [by left|right]. apply lookup_delete_Some. split; [|done].
           intros <-. destruct Ht. congruence.
    + cbn. by rewrite Hl1.
Qed.

Lemma pin_live P st : wf P st → ∀ f r t gid g, cachedT st f r t → groups t !! gid = Some g →
  g ∈ P → 0 < liveWritebackCount t ∧ f ∉ (∅ : gset FullTrackName).
Proof.
  intros Hwf f r t gid g Ht Hg HP. split; [|set_solver]. by eapply (t_pin P st (wf_t _ _ Hwf)).
Qed.

Lemma keeps_step P st st' st'' : wf P st → keeps P ∅ st st' → keeps P ∅ st' st'' →
  keeps P ∅ st st''.
Proof. intros Hwf. by apply keeps_trans, pin_live. Qed.

(** Evicting a track that no writeback holds. *)
Lemma keeps_idle P st st' f r t :
  keeps P {[ f ]} st st' → cachedT st f r t → canEvict t = true → keeps P ∅ st st'.
Proof.
  intros Hk Ht He. constructor; try apply Hk.
  intros f' r' t' Ht' Hl _. apply (k_cached _ _ _ _ Hk f' r' t' Ht' Hl).
  intros ->%elem_of_singleton. destruct Ht, Ht'. simplify_eq. unfold canEvict in He. lia.
Qed.

Lemma idle_unpinned P st f r t gid g :
  wf P st → cachedT st f r t → canEvict t = true → groups t !! gid = Some g → g ∉ P.
Proof.
  intros Hwf Ht He Hg HP. pose proof (t_pin P st (wf_t _ _ Hwf) f r t gid g Ht Hg HP).
  unfold canEvict in He. lia.
Qed.

Lemma length_erased {A} n a (l : nodes A) : (n, a) ∈ l →
  (length (filter (λ p : Z * A, p.1 ≠ n) l) < length l)%nat.
Proof.
  induction l as [|[m b] l IH]; [intros []%elem_of_nil|]. rewrite filter_cons. intros Hin.
  case_decide as Hm; cbn [length].
  - apply elem_of_cons in Hin as [[= -> ->]|Hin]; [done|]. specialize (IH Hin). lia.
  - pose proof (length_filter (λ p : Z * A, p.1 ≠ n) l). lia.
Qed.

Lemma erased_absent {A} n (l : nodes A) : n ∉ l.*1 → filter (λ p : Z * A, p.1 ≠ n) l = l.
Proof.
  induction l as [|[m b] l IH]; [done|]. rewrite fmap_cons, not_elem_of_cons, filter_cons.
  intros [Hne Hni]. rewrite decide_True by (cbn in *; congruence). by rewrite IH.
Qed.

(** The node at the back of a list without repetition. *)
Lemma erase_last {A} (l : nodes A) n a : NoDup l.*1 → last l = Some (n, a) →
  ∃ l', l = l' ++ [(n, a)] ∧ filter (λ p, p.1 ≠ n) l = l'.
Proof.
  intros Hnd [l' ->]%last_Some. exists l'. split; [done|].
  rewrite fmap_app in Hnd. apply NoDup_app in Hnd as (_ & Hni & _).
  rewrite filter_app, filter_cons, decide_False, filter_nil, app_nil_r by (cbn; tauto).
  apply erased_absent. intros Hin. apply (Hni n Hin). cbn. by left.
Qed.

Lemma lru_evictable P st f r t n gid :
  wf P st → cachedT st f r t → (n, gid) ∈ groupLRU t →
  ∃ g, groups t !! gid = Some g ∧ g ∉ P.
Proof.
  intros Hwf Ht Hin. pose proof (wf_g _ _ Hwf) as Hg.
  apply (g_lru P st Hg f r t n gid Ht) in Hin as (g & grp & Hgid & Hgrp & Hi).
  exists g. split; [done|]. intros HP.
  destruct (g_pin P st Hg f r t gid g grp) as [[_ E] _]; [done|]. specialize (E HP). congruence.
Qed.

(** Nothing was evicted. *)
Ltac unchanged st t :=
  exists st, t; do 2 (split; [done|]); split; [apply keeps_refl|]; do 3 (split; [done|]);
  split; [by split_and!|]; auto.

Lemma evictOldestGroups_spec P f r fuel st t :
  wf P st → cachedT st f r t → (length (groupLRU t) <= fuel)%nat →
  ∃ st' t', evictOldestGroups fuel r st = Some st' ∧ wf P st' ∧ keeps P ∅ st st' ∧
    cachedT st' f r t' ∧ cache_ st' = cache_ st ∧ groups t' ⊆ groups t ∧ same_track t t' ∧
    (Z.of_nat (size (groups t')) <= maxCachedGroupsPerTrack_ st ∨ groupLRU t' = []).
Proof.
  revert st t. induction fuel as [|fuel IH]; intros st t Hwf Ht Hfuel;
    cbn [evictOldestGroups]; rewrite (proj2 Ht); cbn [mbind option_bind];
    destruct (Z.ltb_spec (maxCachedGroupsPerTrack_ st) (Z.of_nat (size (groups t)))) as [Hlt|Hge].
  - destruct (groupLRU t) eqn:E; [|cbn in Hfuel; lia]. cbn. rewrite <-E in *. unchanged st t.
  - unchanged st t.
  - destruct (last (groupLRU t)) as [[n gid]|] eqn:El.
    + assert ((n, gid) ∈ groupLRU t) as Hin by (by apply last_Some_elem_of in El).
      destruct (lru_evictable P st f r t n gid Hwf Ht Hin) as (g & Hg & HP).
      destruct (evictGroup_spec P ∅ st f r t gid g Hwf Ht Hg HP)
        as (n' & gn & grp & _ & _ & Hin' & -> & Hwf' & Hk). cbn [mbind option_bind].
      destruct (IH (lessGroupSt r gid n' gn t grp st) (lessGroup gid n' t))
        as (st' & t' & -> & Hwf'' & Hk' & Ht' & Hc & Hsub & Hs & Hend); try done.
      * apply cachedT_put. split; [apply Ht|by left].
      * pose proof (length_erased n' gid (groupLRU t) Hin'). cbn. lia.
      * exists st', t'. split; [done|]. split; [done|]. split; [by eapply keeps_step|].
        split; [done|]. split; [done|]. split; [|done].
        etrans; [exact Hsub|]. cbn. apply delete_subseteq.
    + apply last_None in El. unchanged st t.
  - unchanged st t.
Qed.

Lemma evictOldestGroupsIfNeeded_spec P f r st t :
  wf P st → cachedT st f r t →
  ∃ st' t', evictOldestGroupsIfNeeded r st = Some st' ∧ wf P st' ∧ keeps P ∅ st st' ∧
    cachedT st' f r t' ∧ cache_ st' = cache_ st ∧ groups t' ⊆ groups t ∧ same_track t t' ∧
    (maxCachedGroupsPerTrack_ st = 0 ∨
     Z.of_nat (size (groups t')) <= maxCachedGroupsPerTrack_ st ∨ groupLRU t' = []).
Proof.
  intros Hwf Ht. unfold evictOldestGroupsIfNeeded.
  destruct (Z.eqb_spec (maxCachedGroupsPerTrack_ st) 0).
  - unchanged st t.
  - rewrite (proj2 Ht). cbn [mbind option_bind].
    destruct (evictOldestGroups_spec P f r (S (length (groupLRU t))) st t Hwf Ht ltac:(lia))
      as (st' & t' & -> & ?). exists st', t'. naive_solver.
Qed.

(** *** The byte limit *)

Lemma evictTrack_empty P st f r t st' k :
  gwf P st → cachedT st f r t → groups t = ∅ → evictTrack f st = Some (st', k) →
  globalGroupLRU_ st' = globalGroupLRU_ st ∧ totalCachedBytes_ st' = totalCachedBytes_ st ∧
  ∀ x, groupPayload st' x = groupPayload st x.
Proof.
  intros Hwf [Hf Ht] He. unfold evictTrack. rewrite Hf, Ht. cbn [mbind option_bind]. rewrite He.
  rewrite map_to_list_empty. destruct eraseMaybe; [|done]. intros [= <- <-]. do 2 (split; [done|]).
  intros [f' gid']. unfold groupPayload. cbn. destruct (decide (f' = f)) as [->|Hne].
  - rewrite lookup_delete_eq, Hf. cbn. rewrite Ht. cbn. by rewrite He, lookup_empty.
  - rewrite lookup_delete_ne by done. destruct (cache_ st !! f') as [r'|] eqn:Hf'; [|done]. cbn.
    rewrite lookup_insert_ne; [done|]. intros <-. by apply Hne, (g_inj P st Hwf f' f r).
Qed.

(** Only the payload of the evicted group is lost. *)
Lemma groupPayload_lessGroup P st f r t gid n gn grp x :
  gwf P st → cachedT st f r t →
  groupPayload (lessGroupSt r gid n gn t grp st) x =
    if decide (x = (f, gid)) then 0 else groupPayload st x.
Proof.
  intros Hwf [Hf Ht]. destruct x as [f' gid']. unfold groupPayload. cbn.
  destruct (decide (f' = f)) as [->|Hne].
  - rewrite Hf. cbn. rewrite lookup_insert_eq, Ht. cbn. destruct (decide (gid' = gid)) as [->|Hne].
    + by rewrite lookup_delete_eq, decide_True.
    + rewrite lookup_delete_ne by done. rewrite decide_False by congruence. done.
  - rewrite decide_False by congruence. destruct (cache_ st !! f') as [r'|] eqn:Hf'; [|done]. cbn.
    rewrite lookup_insert_ne; [done|]. intros <-. by apply Hne, (g_inj P st Hwf f' f r).
Qed.

Lemma groupPayload_cached P st f r t gid g grp : gwf P st → cachedG st f r t gid g grp →
  groupPayload st (f, gid) = totalBytes grp.
Proof.
  intros Hwf HG. pose proof HG as ([Hf Ht] & Hg & Hgrp). unfold groupPayload. cbn.
  rewrite Hf. cbn. rewrite Ht. cbn. rewrite Hg. cbn. rewrite Hgrp. cbn. symmetry.
  by apply (g_bytes P st Hwf f r t gid g grp).
Qed.

(** One round removes the group at the back of the global LRU. *)
Lemma evictOldestGroup_spec P st n f gid :
  wf P st → last (globalGroupLRU_ st) = Some (n, (f, gid)) →
  ∃ st' l, evictOldestGroup f gid st = Some st' ∧ wf P st' ∧ keeps P ∅ st st' ∧
    globalGroupLRU_ st = l ++ [(n, (f, gid))] ∧ globalGroupLRU_ st' = l ∧
    totalCachedBytes_ st' = totalCachedBytes_ st - groupPayload st (f, gid) ∧
    ∀ x, groupPayload st' x = if decide (x = (f, gid)) then 0 else groupPayload st x.
Proof.
  intros Hwf Hlast. pose proof (wf_g _ _ Hwf) as Hg.
  assert ((n, (f, gid)) ∈ globalGroupLRU_ st) as Hin by (by apply last_Some_elem_of in Hlast).
  destruct (proj1 (g_global P st Hg n f gid) Hin) as (r & t & g & grp & HG & Hi).
  pose proof HG as (Ht & Hgid & Hgrp).
  assert (g ∉ P) as HP.
  { intros HP. destruct (g_pin P st Hg _ _ _ _ _ _ HG) as [_ [_ E]]. specialize (E HP). congruence. }
  destruct (evictGroup_spec P ∅ st f r t gid g Hwf Ht Hgid HP)
    as (n' & gn & grp' & HG' & Hgn & _ & Ee & Hwf' & Hk).
  assert (grp' = grp) as -> by (destruct HG' as (_ & _ & ?); simplify_eq; done).
  rewrite Hi in Hgn. injection Hgn as <-.
  destruct (erase_last _ _ _ (g_global_nodup P st Hg) Hlast) as (l & El & Efilter).
  rewrite (groupPayload_cached P st f r t gid g grp Hg HG).
  assert (Hpay := λ x, groupPayload_lessGroup P st f r t gid n' n grp x Hg Ht).
  unfold evictOldestGroup. rewrite (proj1 Ht), Ee. cbn [mbind option_bind].
  assert (cachedT (lessGroupSt r gid n' n t grp st) f r (lessGroup gid n' t)) as Ht1
    by (apply cachedT_put; split; [apply Ht|by left]).
  rewrite (proj2 Ht1). cbn [mbind option_bind].
  destruct (bool_decide (groups (lessGroup gid n' t) = ∅) && canEvict (lessGroup gid n' t)) eqn:E.
  - apply andb_true_iff in E as [E1%bool_decide_eq_true He].
    destruct (evictTrack_spec P _ f r _ Hwf' Ht1) as (st2 & E2 & Hwf2 & _ & Hk2 & _).
    { intros gid' g'. by rewrite E1, lookup_empty. }
    destruct (evictTrack_empty P _ _ _ _ _ _ (wf_g _ _ Hwf') Ht1 E1 E2) as (Egl & Eb & Ep). rewrite E2.
    exists st2, l. split; [done|]. split; [done|].
    split; [eapply keeps_step; [done|done|by eapply keeps_idle]|].
    rewrite Egl, Eb. setoid_rewrite Ep. done.
  - by exists (lessGroupSt r gid n' n t grp st), l.
Qed.

(** A group has one node in the global LRU. *)
Lemma global_once P st l n x l' :
  gwf P st → globalGroupLRU_ st = l ++ (n, x) :: l' → x ∉ l.*2.
Proof.
  intros Hwf El ([m [f gid]] & -> & Hin)%list_elem_of_fmap. cbn in El.
  pose proof (g_global_nodup P st Hwf) as Hnd. rewrite El, fmap_app in Hnd. cbn in Hnd.
  assert (m = n) as ->.
  { destruct (proj1 (g_global P st Hwf m f gid)) as (r & t & g & grp & ([? ?] & ? & ?) & ?);
      [rewrite El; apply elem_of_app; by left|].
    destruct (proj1 (g_global P st Hwf n f gid)) as (r' & t' & g' & grp' & ([? ?] & ? & ?) & ?);
      [rewrite El; apply elem_of_app; right; by left|].
    congruence. }
  apply NoDup_app in Hnd as (_ & Hd & _). apply (Hd n); [by eapply elem_of_fst|by left].
Qed.

(** What the loop evicts, the last nodes of the global LRU: their bytes are
    given back, every other group keeps its payload, and without the last
    eviction the target would not have been reached. *)
Definition evicts st st' (gone : nodes (FullTrackName * Z)) : Prop :=
  globalGroupLRU_ st = globalGroupLRU_ st' ++ gone ∧
  totalCachedBytes_ st' = totalCachedBytes_ st - foldr (λ x n, groupPayload st x + n) 0 gone.*2 ∧
  (∀ x, groupPayload st' x = if decide (x ∈ gone.*2) then 0 else groupPayload st x) ∧
  ∀ n x rest, gone = (n, x) :: rest → targetBytes st < totalCachedBytes_ st' + groupPayload st x.

Lemma evicts_nothing st : evicts st st [].
Proof. split; [by rewrite app_nil_r|]. split; [cbn; lia|]. split; [|done]. intros x. by rewrite decide_False by set_solver. Qed.

Lemma payload_sum_ext (f g : FullTrackName * Z → Z) l : (∀ x, x ∈ l → f x = g x) →
  foldr (λ x n, f x + n) 0 l = foldr (λ x n, g x + n) 0 l.
Proof.
  induction l as [|x l IH]; intros Hfg; [done|]. cbn. rewrite (Hfg x), IH by set_solver. done.
Qed.

Lemma payload_sum_snoc (f : FullTrackName * Z → Z) l x :
  foldr (λ x n, f x + n) 0 (l ++ [x]) = foldr (λ x n, f x + n) 0 l + f x.
Proof. induction l as [|y l IH]; cbn in *; lia. Qed.

Lemma evicts_step P st st1 st' n f gid gone :
  gwf P st → targetBytes st < totalCachedBytes_ st → targetBytes st1 = targetBytes st →
  globalGroupLRU_ st = globalGroupLRU_ st1 ++ [(n, (f, gid))] →
  totalCachedBytes_ st1 = totalCachedBytes_ st - groupPayload st (f, gid) →
  (∀ x, groupPayload st1 x = if decide (x = (f, gid)) then 0 else groupPayload st x) →
  evicts st1 st' gone → evicts st st' (gone ++ [(n, (f, gid))]).
Proof.
  intros Hwf Hlt Etar El Eb Ep (El' & Eb' & Ep' & Hmin).
  assert ((f, gid) ∉ gone.*2) as Hnot.
  { pose proof (global_once P st _ _ _ [] Hwf El) as Hno. rewrite El', fmap_app in Hno. set_solver. }
  assert (Hsame : ∀ x, x ∈ gone.*2 → groupPayload st1 x = groupPayload st x).
  { intros x Hx. rewrite Ep, decide_False; [done|]. intros ->. done. }
  split_and!.
  - by rewrite El, El', <- (assoc_L (++)).
  - rewrite fmap_app, list_fmap_singleton, payload_sum_snoc, Eb', Eb.
    rewrite (payload_sum_ext (groupPayload st1) (groupPayload st)) by done. cbn. lia.
  - intros x. rewrite Ep', Ep, fmap_app. cbn.
    destruct (decide (x = (f, gid))) as [->|Hne].
    + rewrite (decide_True (P := _ ∈ _ ++ _)) by set_solver. by case_decide.
    + destruct (decide (x ∈ gone.*2)); [by rewrite decide_True by set_solver|].
      by rewrite decide_False by set_solver.
  - intros m x rest E. destruct gone as [|[m' x'] gone]; cbn in E; injection E as <- <- <-.
    + rewrite Eb', Eb. cbn. lia.
    + rewrite <- Etar. rewrite <- (Hsame x') by set_solver. by apply (Hmin m' x' gone).
Qed.

(** What [evictForByteLimit] achieves: it evicts from the back of the global
    LRU until the target is reached or nothing is left to evict. *)
Lemma evictForByteLimit_spec P fuel st :
  wf P st → (length (globalGroupLRU_ st) <= fuel)%nat →
  ∃ st' gone, evictForByteLimit fuel st = Some st' ∧ wf P st' ∧ keeps P ∅ st st' ∧
    evicts st st' gone ∧
    (totalCachedBytes_ st' <= targetBytes st ∨ globalGroupLRU_ st' = []).
Proof.
  revert st. induction fuel as [|fuel IH]; intros st Hwf Hfuel; cbn [evictForByteLimit];
    destruct (Z.ltb_spec (targetBytes st) (totalCachedBytes_ st));
    try (exists st, []; do 2 (split; [done|]); split; [apply keeps_refl|];
         split; [apply evicts_nothing|by left]).
  - destruct (globalGroupLRU_ st) eqn:E; [|cbn in Hfuel; lia]. cbn. exists st, [].
    do 2 (split; [done|]). split; [apply keeps_refl|]. split; [apply evicts_nothing|by right].
  - destruct (last (globalGroupLRU_ st)) as [[n [f gid]]|] eqn:El.
    + destruct (evictOldestGroup_spec P st n f gid Hwf El)
        as (st1 & l & -> & Hwf1 & Hk1 & El1 & <- & Hb1 & Hp1). cbn [mbind option_bind].
      destruct (IH st1 Hwf1) as (st' & gone & -> & Hwf' & Hk' & Hgone & Hend).
      { rewrite El1, length_app in Hfuel. cbn in Hfuel. lia. }
      assert (targetBytes st1 = targetBytes st) as E.
      { pose proof (k_config _ _ _ _ Hk1) as Ec. injection Ec as _ _ Em Ee _ _.
        unfold targetBytes. by rewrite Em, Ee. }
      exists st', (gone ++ [(n, (f, gid))]). do 2 (split; [done|]). split; [by eapply keeps_step|].
      split; [|by rewrite E in Hend]. by eapply evicts_step; [apply (wf_g _ _ Hwf)|..].
    + apply last_None in El. exists st, [].
      do 2 (split; [done|]). split; [apply keeps_refl|]. split; [apply evicts_nothing|by right].
Qed.

Lemma evictForByteLimitIfNeeded_spec P st :
  wf P st →
  ∃ st' b, evictForByteLimitIfNeeded st = Some (st', b) ∧ wf P st' ∧ keeps P ∅ st st' ∧
    b = (maxCachedBytes_ st =? 0) || (totalCachedBytes_ st' <=? maxCachedBytes_ st) ∧
    (b = true ∨ globalGroupLRU_ st' = []).
Proof.
  intros Hwf. unfold evictForByteLimitIfNeeded.
  destruct ((maxCachedBytes_ st =? 0) || (totalCachedBytes_ st <=? maxCachedBytes_ st)) eqn:E.
  - exists st, true. do 2 (split; [done|]). split; [apply keeps_refl|]. auto.
  - destruct (evictForByteLimit_spec P (2 * length (globalGroupLRU_ st)) st Hwf ltac:(lia))
      as (st' & gone & -> & Hwf' & Hk & _ & Hend). cbn [mbind option_bind].
    pose proof (k_config _ _ _ _ Hk) as Ec. injection Ec as _ _ Ec _ _ _.
    eexists st', _. do 3 (split; [done|]). rewrite Ec.
    apply orb_false_iff in E as [-> E]. split; [done|].
    destruct Hend as [Hend|]; [left|by right].
    pose proof (g_range P st (wf_g _ _ Hwf)) as Hr. unfold is_u64 in Hr.
    destruct (wf_l _ _ Hwf) as (_ & _ & ? & ?). unfold targetBytes in Hend. zcases; lia.
Qed.

End Invariant.
