(* ===== verification/CacheOperations.v ===== *)
(** * The object cache: operations keep the invariant

    Adding and pinning groups, writing objects, dropping expired ones, and the
    LRU list of tracks.  Every operation on a well-formed cache runs to the end
    and leaves a well-formed cache. *)

From S2P Require Import Prelude Locations CacheRanges CacheStore CacheInvariant.

Section Operations.
Context `{LocationLaws} {IS : Type} `{IntervalOps IS} `{!IntervalLaws IS}
        {Extensions : Type} `{!ExtensionOps Extensions} `{!ExtensionLaws}
        {FullTrackName : Type} `{Countable FullTrackName}.

Notation cache := (MoqxCache (IS:=IS) (Extensions:=Extensions) (FullTrackName:=FullTrackName)).
Notation ctrack := (CacheTrack (IS:=IS) (Extensions:=Extensions)).
Notation cgroup := (CacheGroup (Extensions:=Extensions)).
Implicit Types (st : cache) (f : FullTrackName) (P : gset Z).

(** ** Writing one group of one track

    The group [g], with the number [gid] in the track [f], is created or
    written; its LRU nodes may change, and it may become or cease to be
    pinned. *)

Section GroupUpdate.
Context (P P' : gset Z) (st st' : cache) (f : FullTrackName) (r : Z) (t t' : ctrack)
        (gid g : Z) (grp' : cgroup).
Context (Hwf : gwf P st) (Ht : cachedT st f r t)
  (Hold : groups t !! gid = Some g ∨ groups t !! gid = None ∧ groupHeap st !! g = None)
  (Hc : cache_ st' = cache_ st) (Htr : tracks st' = <[r := t']> (tracks st))
  (Hgs : groups t' = <[gid := g]> (groups t))
  (Hh : groupHeap st' = <[g := grp']> (groupHeap st)).

Lemma update_track f' r' t'' : cachedT st' f' r' t'' ↔
  (f' = f ∧ r' = r ∧ t'' = t') ∨ (f' ≠ f ∧ r' ≠ r ∧ cachedT st f' r' t'').
Proof.
  destruct Ht as [Hf Ht0]. unfold cachedT. rewrite Hc, Htr, lookup_insert_Some. split.
  - intros [Hf' [[<- <-]|[Hne Ht'']]].
    + left. split_and!; try done. by eapply (g_inj P st Hwf).
    + right. split_and!; try done. congruence.
  - intros [(-> & -> & ->)|(? & ? & ? & ?)]; [by auto|]. split; [done|]. by right.
Qed.

(** A group of the new store, in terms of the old one. *)
Lemma update_groups f' r' t'' gid' g' : cachedT st' f' r' t'' → groups t'' !! gid' = Some g' →
  ((f', gid') = (f, gid) ∧ r' = r ∧ t'' = t' ∧ g' = g) ∨
  ((f', gid') ≠ (f, gid) ∧ g' ≠ g ∧
   ∃ t0, cachedT st f' r' t0 ∧ groups t0 !! gid' = Some g').
Proof.
  intros [(-> & -> & ->)|(Hf' & Hr' & Ht'')]%update_track Hg'.
  - rewrite Hgs in Hg'. apply lookup_insert_Some in Hg' as [[<- <-]|[Hne Hg']]; [by left|].
    right. split; [congruence|]. split; [|by exists t]. intros ->.
    destruct Hold as [Hg|[_ Hg]].
    + by destruct (g_ginj P st Hwf f r t gid f r t gid' g Ht Hg Ht Hg').
    + destruct (g_heap P st Hwf _ _ _ _ _ Ht Hg'). congruence.
  - right. split; [congruence|]. split; [|by exists t'']. intros ->.
    destruct Hold as [Hg|[_ Hg]].
    + by destruct (g_ginj P st Hwf f r t gid f' r' t'' gid' g Ht Hg Ht'' Hg').
    + destruct (g_heap P st Hwf _ _ _ _ _ Ht'' Hg'). congruence.
Qed.

(** A group of the old store is still there. *)
Lemma update_groups_old f' r' t0 gid' g' : cachedT st f' r' t0 → groups t0 !! gid' = Some g' →
  (f', gid') ≠ (f, gid) → g' ≠ g ∧ ∃ t'', cachedT st' f' r' t'' ∧ groups t'' !! gid' = Some g'.
Proof.
  intros Ht0 Hg' Hne.
  assert (∃ t'', cachedT st' f' r' t'' ∧ groups t'' !! gid' = Some g') as (t'' & Ht'' & Hg'').
  { destruct (decide (f' = f)) as [->|Hf'].
    - assert (r' = r ∧ t0 = t) as [-> ->] by (destruct Ht, Ht0; simplify_eq; done).
      exists t'. split; [apply update_track; by left|]. rewrite Hgs.
      apply lookup_insert_Some. right. split; [congruence|done].
    - exists t0. split; [|done]. apply update_track. right. split; [done|]. split; [|done].
      intros ->. apply Hf'. destruct Ht, Ht0. by eapply (g_inj P st Hwf). }
  split; [|by exists t''].
  destruct (update_groups _ _ _ _ _ Ht'' Hg'') as [[? _]|(_ & ? & _)]; done.
Qed.

Lemma update_bytes : storeBytes st' = storeBytes st - groupBytes st g + totalBytes grp'.
Proof.
  destruct Ht as [Hf Ht0]. unfold storeBytes. rewrite Hc.
  rewrite (msum_change _ (λ _ r, trackBytes st r) _ f r Hf).
  - assert (tracks st' !! r = Some t') as Ht' by (rewrite Htr; apply lookup_insert_eq).
    rewrite (trackBytes_eq _ _ _ Ht0), (trackBytes_eq _ _ _ Ht'), Hgs.
    assert (msum (λ _ g0, groupBytes st' g0) (delete gid (groups t)) =
            msum (λ _ g0, groupBytes st g0) (delete gid (groups t))) as E.
    { apply msum_ext. intros gid' g' [Hne Hg']%lookup_delete_Some. unfold groupBytes. rewrite Hh.
      destruct (update_groups_old f r t gid' g' Ht Hg') as [? _]; [congruence|].
      by rewrite lookup_insert_ne. }
    rewrite <-insert_delete_eq, msum_insert by apply lookup_delete_eq. rewrite E.
    assert (groupBytes st' g = totalBytes grp') as ->
      by (unfold groupBytes; by rewrite Hh, lookup_insert_eq).
    destruct Hold as [Hg|[Hg Hnone]].
    + rewrite (msum_delete _ _ gid g Hg). lia.
    + rewrite delete_id by done.
      assert (groupBytes st g = 0) as -> by (unfold groupBytes; by rewrite Hnone). lia.
  - intros f' r' Hne Hf'. destruct (g_track P st Hwf _ _ Hf') as [t0 Ht'].
    assert (r' ≠ r) by (intros ->; by apply Hne, (g_inj P st Hwf f' f r)).
    assert (tracks st' !! r' = Some t0) as Ht'' by (by rewrite Htr, lookup_insert_ne).
    rewrite (trackBytes_eq _ _ _ Ht'), (trackBytes_eq _ _ _ Ht''). apply msum_ext.
    intros gid' g' Hg'. unfold groupBytes. rewrite Hh.
    destruct (update_groups_old f' r' t0 gid' g' (conj Hf' Ht') Hg') as [? _]; [congruence|].
    by rewrite lookup_insert_ne.
Qed.

Lemma cwf_update : cwf st → content_ok st' t' → cwf st'.
Proof.
  intros Hcwf Hok f' r' t'' [(-> & -> & ->)|(Hf' & _ & Ht0)]%update_track; [done|].
  assert (∀ gid' g', groups t'' !! gid' = Some g' → groupHeap st' !! g' = groupHeap st !! g') as E.
  { intros gid' g' Hg'. destruct (update_groups_old f' r' t'' gid' g' Ht0 Hg') as [? _]; [congruence|].
    by rewrite Hh, lookup_insert_ne. }
  destruct (Hcwf f' r' t'' Ht0) as (Hid & Hob & Hin). split_and!.
  - done.
  - intros gid' g' grp0 oid e Hg' Hgrp. rewrite (E _ _ Hg') in Hgrp. by eapply Hob.
  - intros l Hl Hl'. destruct (Hin l Hl Hl') as [?|(g' & grp0 & Hg' & Hgrp & Ho)]; [by left|right].
    exists g', grp0. by rewrite (E _ _ Hg').
Qed.

(** The new LRU lists, the account and the identities in use. *)
Context
  (Hnd : NoDup (groupLRU t').*1)
  (Hlru : ∀ n gid', (n, gid') ∈ groupLRU t' ↔
     gid' ≠ gid ∧ (n, gid') ∈ groupLRU t ∨ gid' = gid ∧ lruIter_ grp' = Some n)
  (Hgnd : NoDup (globalGroupLRU_ st').*1)
  (Hglobal : ∀ n f' gid', (n, (f', gid')) ∈ globalGroupLRU_ st' ↔
     (f', gid') ≠ (f, gid) ∧ (n, (f', gid')) ∈ globalGroupLRU_ st ∨
     (f', gid') = (f, gid) ∧ globalLruIter_ grp' = Some n)
  (Hpin : (lruIter_ grp' = None ↔ g ∈ P') ∧ (globalLruIter_ grp' = None ↔ g ∈ P'))
  (HP : ∀ g', g' ≠ g → g' ∈ P' ↔ g' ∈ P)
  (Hok : group_ok grp')
  (Hb : totalCachedBytes_ st' = totalCachedBytes_ st - groupBytes st g + totalBytes grp')
  (Hr : is_u64 (totalCachedBytes_ st'))
  (Hn : nextRef st <= nextRef st') (Hng : g < nextRef st')
  (Hnl : ∀ n, lruIter_ grp' = Some n ∨ globalLruIter_ grp' = Some n → n < nextRef st').

Lemma update_lru f' r' t'' n gid' : cachedT st' f' r' t'' →
  (n, gid') ∈ groupLRU t'' ↔
  ∃ g' grp0, groups t'' !! gid' = Some g' ∧ groupHeap st' !! g' = Some grp0 ∧
             lruIter_ grp0 = Some n.
Proof.
  intros Ht''. pose proof Ht'' as [(-> & -> & ->)|(Hf' & Hr' & Ht0)]%update_track.
  - rewrite Hlru, Hgs, Hh. split.
    + intros [[Hne Hin]|[-> Hi]].
      * apply (g_lru P st Hwf f r t n gid' Ht) in Hin as (g' & grp0 & Hg' & Hgrp & Hi).
        destruct (update_groups_old f r t gid' g' Ht Hg') as [Hgg _]; [congruence|].
        exists g', grp0. rewrite !lookup_insert_ne by done. done.
      * exists g, grp'. by rewrite !lookup_insert_eq.
    + intros (g' & grp0 & Hg' & Hgrp & Hi).
      apply lookup_insert_Some in Hg' as [[-> <-]|[Hne Hg']].
      * right. rewrite lookup_insert_eq in Hgrp. by simplify_eq.
      * left. split; [done|].
        destruct (update_groups_old f r t gid' g' Ht Hg') as [Hgg _]; [congruence|].
        rewrite lookup_insert_ne in Hgrp by done.
        apply (g_lru P st Hwf f r t n gid' Ht). by exists g', grp0.
  - rewrite (g_lru P st Hwf f' r' t'' n gid' Ht0).
    do 2 (apply exist_proper; intros ?). rewrite Hh. split; intros (Hg' & Hrest); (split; [done|]);
      (destruct (update_groups_old f' r' t'' gid' _ Ht0 Hg') as [Hgg _]; [congruence|]).
    + by rewrite lookup_insert_ne.
    + by rewrite lookup_insert_ne in Hrest.
Qed.

Lemma update_global n f' gid' : (n, (f', gid')) ∈ globalGroupLRU_ st' ↔
  ∃ r' t'' g' grp0, cachedG st' f' r' t'' gid' g' grp0 ∧ globalLruIter_ grp0 = Some n.
Proof.
  rewrite Hglobal. split.
  - intros [[Hne Hin]|[[= -> ->] Hi]].
    + apply (g_global P st Hwf) in Hin as (r' & t0 & g' & grp0 & (Ht0 & Hg' & Hgrp) & Hi).
      destruct (update_groups_old f' r' t0 gid' g' Ht0 Hg' Hne) as (Hgg & t'' & Ht'' & Hg'').
      exists r', t'', g', grp0. refine (conj (conj Ht'' (conj Hg'' _)) Hi).
      by rewrite Hh, lookup_insert_ne.
    + exists r, t', g, grp'. split; [|done]. split; [apply update_track; by left|].
      by rewrite Hgs, Hh, !lookup_insert_eq.
  - intros (r' & t'' & g' & grp0 & (Ht'' & Hg' & Hgrp) & Hi).
    destruct (update_groups _ _ _ _ _ Ht'' Hg') as [(E & -> & -> & ->)|(Hne & Hgg & t0 & Ht0 & Hg0)].
    + right. split; [done|]. rewrite Hh, lookup_insert_eq in Hgrp. by simplify_eq.
    + left. split; [done|]. apply (g_global P st Hwf). exists r', t0, g', grp0.
      rewrite Hh, lookup_insert_ne in Hgrp by done. done.
Qed.

Lemma update_cachedG f' r' t'' gid' g' grp0 : cachedG st' f' r' t'' gid' g' grp0 →
  (g' = g ∧ grp0 = grp') ∨ (g' ≠ g ∧ ∃ t0, cachedG st f' r' t0 gid' g' grp0).
Proof.
  intros (Ht'' & Hg' & Hgrp). rewrite Hh in Hgrp.
  destruct (update_groups _ _ _ _ _ Ht'' Hg') as [(_ & _ & _ & ->)|(Hne & Hgg & t0 & Ht0 & Hg0)].
  - left. rewrite lookup_insert_eq in Hgrp. by simplify_eq.
  - right. split; [done|]. exists t0. rewrite lookup_insert_ne in Hgrp by done. done.
Qed.

Lemma update_fresh f' r' t'' n : cachedT st' f' r' t'' → n ∈ (groupLRU t'').*1 → n < nextRef st'.
Proof.
  intros Ht'' ([n' gid'] & -> & Hin)%list_elem_of_fmap. cbn.
  apply update_track in Ht'' as [(-> & -> & ->)|(Hf' & Hr' & Ht0)].
  - apply Hlru in Hin as [[_ Hin]|[-> Hi]]; [|auto].
    pose proof (g_fresh_lru P st Hwf f r t n' Ht (elem_of_fst _ _ _ Hin)). lia.
  - pose proof (g_fresh_lru P st Hwf f' r' t'' n' Ht0 (elem_of_fst _ _ _ Hin)). lia.
Qed.

Lemma gwf_update : gwf P' st'.
Proof.
  constructor.
  - intros f' r' Hf'. rewrite Hc in Hf'. rewrite Htr. apply lookup_insert_is_Some'. right.
    by eapply (g_track P st Hwf).
  - rewrite Hc. apply (g_inj P st Hwf).
  - intros f' r' t'' gid' g' Ht'' Hg'. rewrite Hh. apply lookup_insert_is_Some'.
    destruct (update_groups _ _ _ _ _ Ht'' Hg') as [(_ & _ & _ & ->)|(_ & _ & t0 & Ht0 & Hg0)];
      [by left|right]. by eapply (g_heap P st Hwf).
  - intros f1 r1 t1 gid1 f2 r2 t2 gid2 g0 Ht1 Hg1 Ht2 Hg2.
    destruct (update_groups _ _ _ _ _ Ht1 Hg1) as [(E1 & _ & _ & ->)|(_ & Hne1 & t1' & Ht1' & Hg1')];
    destruct (update_groups _ _ _ _ _ Ht2 Hg2) as [(E2 & _ & _ & ?)|(_ & Hne2 & t2' & Ht2' & Hg2')];
      try done; [by simplify_eq|]. by eapply (g_ginj P st Hwf f1 r1 t1' gid1 f2 r2 t2').
  - intros f' r' t'' [(-> & -> & ->)|(_ & _ & Ht0)]%update_track; [done|].
    by eapply (g_lru_nodup P st Hwf).
  - intros f' r' t'' n gid'. apply update_lru.
  - done.
  - apply update_global.
  - intros f' r' t'' gid' g' grp0 [[-> ->]|(Hne & t0 & HG)]%update_cachedG; [done|].
    rewrite !HP by done. by eapply (g_pin P st Hwf).
  - intros f' r' t'' gid' g' grp0 [[-> ->]|(_ & t0 & HG)]%update_cachedG; [done|].
    by eapply (g_bytes P st Hwf).
  - rewrite Hb, (g_total P st Hwf). symmetry. apply update_bytes.
  - done.
  - intros r'. rewrite Htr. intros Hr'. enough (r' < nextRef st) by lia.
    apply (g_fresh_track P st Hwf). apply lookup_insert_is_Some' in Hr' as [<-|?]; [|done].
    exists t. apply Ht.
  - intros g'. rewrite Hh. intros [<-|Hg']%lookup_insert_is_Some'; [done|].
    pose proof (g_fresh_group P st Hwf g' Hg'). lia.
  - apply update_fresh.
  - intros n ([n' [f' gid']] & -> & Hin)%list_elem_of_fmap. cbn.
    apply Hglobal in Hin as [[_ Hin]|[_ Hi]]; [|auto].
    pose proof (g_fresh_global P st Hwf n' (elem_of_fst _ _ _ Hin)). lia.
Qed.
End GroupUpdate.

(** ** Writing a group that keeps its LRU nodes *)

Lemma lru_self P st f r t gid g grp n : gwf P st → cachedG st f r t gid g grp →
  (n, gid) ∈ groupLRU t ↔ lruIter_ grp = Some n.
Proof.
  intros Hwf (Ht & Hg & Hgrp). rewrite (g_lru P st Hwf f r t n gid Ht). split.
  - intros (g' & grp' & Hg' & Hgrp' & Hi). by simplify_eq.
  - intros Hi. by exists g, grp.
Qed.

Lemma global_self P st f r t gid g grp n : gwf P st → cachedG st f r t gid g grp →
  (n, (f, gid)) ∈ globalGroupLRU_ st ↔ globalLruIter_ grp = Some n.
Proof.
  intros Hwf HG. pose proof HG as ([Hf Ht] & Hg & Hgrp). rewrite (g_global P st Hwf). split.
  - intros (r' & t' & g' & grp' & ([Hf' Ht'] & Hg' & Hgrp') & Hi). by simplify_eq.
  - intros Hi. by exists r, t, g, grp.
Qed.

Lemma groupBytes_cached st f r t gid g grp :
  cachedG st f r t gid g grp → groupBytes st g = totalBytes grp.
Proof. intros (_ & _ & E). unfold groupBytes. by rewrite E. Qed.

Lemma gwf_write P st st' f r t t' gid g grp grp' :
  gwf P st → cachedG st f r t gid g grp → same_groups t t' →
  cache_ st' = cache_ st → tracks st' = <[r := t']> (tracks st) →
  groupHeap st' = <[g := grp']> (groupHeap st) → globalGroupLRU_ st' = globalGroupLRU_ st →
  lruIter_ grp' = lruIter_ grp → globalLruIter_ grp' = globalLruIter_ grp → group_ok grp' →
  totalCachedBytes_ st' = totalCachedBytes_ st - totalBytes grp + totalBytes grp' →
  is_u64 (totalCachedBytes_ st') → nextRef st <= nextRef st' → gwf P st'.
Proof.
  intros Hwf HG [Es Esl] Hc Htr Hh Hgl Ei Egi Hok Hb Hr Hn. pose proof HG as (Ht & Hg & Hgrp).
  assert (∀ n, lruIter_ grp = Some n → n < nextRef st) as Hf1.
  { intros n Hi. eapply (g_fresh_lru P st Hwf f r t n Ht), elem_of_fst.
    by apply (lru_self P st f r t gid g grp). }
  assert (∀ n, globalLruIter_ grp = Some n → n < nextRef st) as Hf2.
  { intros n Hi. eapply (g_fresh_global P st Hwf n), elem_of_fst.
    by apply (global_self P st f r t gid g grp). }
  apply (gwf_update P P st st' f r t t' gid g grp'); try done.
  - by left.
  - rewrite Es. by rewrite insert_id.
  - rewrite Esl. by eapply (g_lru_nodup P st Hwf).
  - intros n gid'. rewrite Esl, Ei, <-(lru_self P st f r t gid g grp n Hwf HG).
    destruct (decide (gid' = gid)) as [->|]; tauto.
  - rewrite Hgl. apply (g_global_nodup P st Hwf).
  - intros n f' gid'. rewrite Hgl, Egi, <-(global_self P st f r t gid g grp n Hwf HG).
    destruct (decide ((f', gid') = (f, gid))) as [[= -> ->]|]; tauto.
  - rewrite Ei, Egi. by eapply (g_pin P st Hwf).
  - by rewrite (groupBytes_cached st f r t gid g grp HG).
  - pose proof (g_fresh_group P st Hwf g ltac:(eauto)). lia.
  - intros n. rewrite Ei, Egi. intros [Hi|Hi]; [apply Hf1 in Hi|apply Hf2 in Hi]; lia.
Qed.

(** ** What stays cached *)

(** Pinned groups stay where they are. *)
Definition stays P st st' : Prop :=
  ∀ f r t gid g, cachedT st f r t → groups t !! gid = Some g → g ∈ P →
  ∃ t', cachedT st' f r t' ∧ groups t' !! gid = Some g.

Lemma stays_trans P st st' st'' : stays P st st' → stays P st' st'' → stays P st st''.
Proof.
  intros Hs Hs' f r t gid g Ht Hg HP. destruct (Hs f r t gid g Ht Hg HP) as (t' & Ht' & Hg').
  by apply (Hs' f r t').
Qed.

Definition liveOf st : gmap Z Z := liveWritebackCount <$> tracks st.

(** Live counts stay; new tracks have none. *)
Definition lives st st' : Prop :=
  ∀ r, liveOf st' !! r = liveOf st !! r ∨ liveOf st !! r = None ∧ liveOf st' !! r = Some 0.

Lemma lives_trans st st' st'' : lives st st' → lives st' st'' → lives st st''.
Proof.
  intros Hl Hl' r. destruct (Hl r) as [E|[E1 E2]], (Hl' r) as [E'|[E1' E2']];
    [left|right; split|right; split|]; congruence.
Qed.

Lemma lives_lookup st st' r t : lives st st' → tracks st !! r = Some t →
  ∃ t', tracks st' !! r = Some t' ∧ liveWritebackCount t' = liveWritebackCount t.
Proof.
  intros Hl Ht. destruct (Hl r) as [E|[E _]]; unfold liveOf in E;
    rewrite !lookup_fmap, ?Ht in E; [|done].
  destruct (tracks st' !! r) as [t'|]; [|done]. injection E as E. eauto.
Qed.

(** What an operation that neither adds nor drops writebacks carries over:
    pinned groups and live counts; a track leaves the cache only with its
    [evicted] flag set, and new entries have new references. *)
Record carries P st st' : Prop := {
  c_stays : stays P st st';
  c_lives : lives st st';
  c_home f r t : tracks st !! r = Some t → evicted t = true ∨ cache_ st !! f = Some r →
    ∃ t', tracks st' !! r = Some t' ∧ (evicted t' = true ∨ cache_ st' !! f = Some r);
  c_names f r : cache_ st' !! f = Some r → cache_ st !! f = Some r ∨ nextRef st <= r;
  c_next : nextRef st <= nextRef st';
}.

Lemma carries_refl P st : carries P st st.
Proof.
  constructor; try done.
  - intros f r t. eauto.
  - intros r. by left.
  - intros f r t Ht ?. eauto.
  - by left.
Qed.

Lemma carries_trans P st st' st'' : carries P st st' → carries P st' st'' → carries P st st''.
Proof.
  intros [Hs Hl Hc Hb Hn] [Hs' Hl' Hc' Hb' Hn']. constructor; [| | | |lia].
  - by eapply stays_trans.
  - by eapply lives_trans.
  - intros f r t Ht Hh. destruct (Hc f r t Ht Hh) as (t' & Ht' & Hh'). by apply (Hc' f r t').
  - intros f r Hf. destruct (Hb' f r Hf) as [Hf'|]; [|right; lia]. by apply Hb.
Qed.

Lemma keeps_carries P D st st' :
  wf P st → (∀ f r t gid g, cachedT st f r t → groups t !! gid = Some g → g ∈ P → f ∉ D) →
  keeps P D st st' → carries P st st'.
Proof.
  intros Hwf HD Hk. constructor.
  - intros f r t gid g Ht Hg HP.
    destruct (k_pin _ _ _ _ Hk f r t gid g Ht Hg HP) as (t' & Ht' & Hg').
    destruct (pin_live P st Hwf f r t gid g Ht Hg HP) as [Hl _]. specialize (HD f r t gid g Ht Hg HP).
    exists t'. split; [|done]. split; [|done]. by eapply (k_cached _ _ _ _ Hk).
  - intros r. left. unfold liveOf. by rewrite (k_live _ _ _ _ Hk).
  - apply (k_home _ _ _ _ Hk).
  - intros f r Hf. left. by apply (k_cache _ _ _ _ Hk).
  - by rewrite (k_next _ _ _ _ Hk).
Qed.

Lemma idle_carries P st st' : wf P st → keeps P ∅ st st' → carries P st st'.
Proof. intros Hwf. apply keeps_carries; [done|]. set_solver. Qed.

(** Writing one track. *)
Lemma carries_put_track P st st' r t t' :
  tracks st !! r = Some t → cache_ st' = cache_ st → tracks st' = <[r := t']> (tracks st) →
  same_track t t' → (∀ gid g, groups t !! gid = Some g → groups t' !! gid = Some g) →
  nextRef st <= nextRef st' → carries P st st'.
Proof.
  intros Ht Hc Htr (Ee & El & _) Hg Hn. constructor; try done.
  - intros f r' t0 gid g [Hf Ht0] Hg0 _. destruct (decide (r' = r)) as [->|Hne].
    + simplify_eq. exists t'. split; [|by apply Hg]. split; [by rewrite Hc|].
      rewrite Htr. apply lookup_insert_eq.
    + exists t0. split; [|done]. split; [by rewrite Hc|]. by rewrite Htr, lookup_insert_ne.
  - intros r'. left. unfold liveOf. rewrite Htr. by rewrite (live_put r t).
  - intros f r' t0 Ht0 Hh. rewrite Htr, Hc. destruct (decide (r' = r)) as [->|].
    + exists t'. rewrite lookup_insert_eq. simplify_eq. by rewrite Ee.
    + exists t0. by rewrite lookup_insert_ne.
  - intros f r'. rewrite Hc. by left.
Qed.

Lemma twf_pins P P' st :
  twf P st → (∀ f r t gid g, cachedT st f r t → groups t !! gid = Some g → g ∈ P' →
                0 < liveWritebackCount t) → twf P' st.
Proof. intros Hwf Hp. destruct Hwf. by constructor. Qed.

(** ** Pinning and unpinning a group *)

Definition same_content (t t' : ctrack) : Prop :=
  gaps t' = gaps t ∧ cachedContent t' = cachedContent t.

Lemma content_same st st' t t' g grp grp' :
  content_ok st t → groups t' = groups t → same_content t t' →
  groupHeap st !! g = Some grp → groupHeap st' = <[g := grp']> (groupHeap st) →
  objects grp' = objects grp → content_ok st' t'.
Proof.
  intros (Hid & Hob & Hin) Eg [Egap Econ] Hgrp Hh Eo. unfold content_ok. rewrite Eg, Egap, Econ, Hh.
  split; [done|]. split.
  - intros gid g' grp0 oid e Hg' [[<- <-]|[_ Hgrp']]%lookup_insert_Some He; [|by eapply Hob].
    rewrite Eo in He. by eapply Hob.
  - intros l Hl Hl'. destruct (Hin l Hl Hl') as [?|(g' & grp0 & Hg' & Hgrp' & Ho)]; [by left|right].
    destruct (decide (g' = g)) as [->|Hne].
    + exists g, grp'. rewrite lookup_insert_eq, Eo. simplify_eq. done.
    + exists g', grp0. by rewrite lookup_insert_ne.
Qed.

(** Only the LRU nodes and the pin of one group change. *)
Lemma wf_regroup P P' st st' f r t t' gid g grp grp' :
  wf P st → cachedG st f r t gid g grp → gwf P' st' →
  cache_ st' = cache_ st → tracks st' = <[r := t']> (tracks st) →
  groups t' = groups t → same_track t t' → same_content t t' →
  groupHeap st' = <[g := grp']> (groupHeap st) → objects grp' = objects grp →
  trackLRU_ st' = trackLRU_ st → config st' = config st → nextRef st <= nextRef st' →
  (g ∈ P' → 0 < liveWritebackCount t) → (∀ g', g' ≠ g → g' ∈ P' ↔ g' ∈ P) →
  wf P' st' ∧ carries P st st' ∧ (∃ t'', cachedT st' f r t'' ∧ groups t'' = groups t).
Proof.
  intros Hwf HG Hg' Hc Htr Egs Hs Hsc Hh Eo Hl Hcfg Hn Hlive HP. pose proof HG as (Ht & Hgid & Hgrp).
  assert (Hgs' : groups t' = <[gid := g]> (groups t)) by (by rewrite Egs, insert_id).
  split; [constructor|].
  - done.
  - apply (twf_pins P).
    + eapply (twf_put_track P st _ r t t'); try done; [apply (wf_t _ _ Hwf)|apply Ht|by rewrite Egs].
    + intros f' r' t0 gid' g' Ht0 Hg0 Hin.
      destruct (decide (g' = g)) as [->|Hne].
      * assert (t0 = t') as ->; [|by destruct Hs as (_ & -> & _); auto].
        apply (update_track P st st' f r t t' (wf_g _ _ Hwf) Ht Hc Htr) in Ht0
          as [(_ & _ & ->)|(Hf' & _ & Ht0)]; [done|].
        by destruct (g_ginj P st (wf_g _ _ Hwf) f r t gid f' r' t0 gid' g Ht Hgid Ht0 Hg0) as [-> _].
      * apply HP in Hin; [|done].
        apply (update_track P st st' f r t t' (wf_g _ _ Hwf) Ht Hc Htr) in Ht0
          as [(-> & -> & ->)|(Hf' & _ & Ht0)].
        -- destruct Hs as (_ & -> & _). rewrite Egs in Hg0. by eapply (t_pin P st (wf_t _ _ Hwf)).
        -- by eapply (t_pin P st (wf_t _ _ Hwf)).
  - eapply (cwf_update P st st' f r t t' gid g grp'); try done; [apply (wf_g _ _ Hwf)|by left|apply (wf_c _ _ Hwf)|].
    eapply (content_same st st' t t' g grp grp'); try done. by apply (wf_c _ _ Hwf f r).
  - injection Hcfg as E1 E2 E3 E4 _ _. unfold limits_ok. rewrite E1, E2, E3, E4. apply (wf_l _ _ Hwf).
  - intros g' Hin. enough (g' < nextRef st) by lia. destruct (decide (g' = g)) as [->|Hne].
    + apply (g_fresh_group P st (wf_g _ _ Hwf)). eauto.
    + apply (wf_p _ _ Hwf). by apply HP.
  - split.
    + eapply (carries_put_track P st st' r t t'); try done; [apply Ht|by rewrite Egs].
    + exists t'. split; [|done]. split; [rewrite Hc; apply Ht|rewrite Htr; apply lookup_insert_eq].
Qed.

Section Pin.
Context (P : gset Z) (st : cache) (f : FullTrackName) (r : Z) (t : ctrack) (gid g : Z)
        (grp : cgroup).
Context (Hwf : wf P st) (HG : cachedG st f r t gid g grp).

Definition pinned (n gn : Z) : cache :=
  put_group g (set_iters None None grp)
    (put_track r (set_groupLRU (filter (λ p, p.1 ≠ n) (groupLRU t)) t)
       (with_globalLRU (filter (λ p, p.1 ≠ gn) (globalGroupLRU_ st)) st)).

Lemma gwf_pin n gn : lruIter_ grp = Some n → globalLruIter_ grp = Some gn →
  gwf ({[ g ]} ∪ P) (pinned n gn).
Proof.
  intros Hn Hgn. pose proof HG as (Ht & Hgid & Hgrp). pose proof (wf_g _ _ Hwf) as Hg.
  apply (gwf_update P ({[ g ]} ∪ P) st _ f r t
           (set_groupLRU (filter (λ p, p.1 ≠ n) (groupLRU t)) t) gid g (set_iters None None grp));
    try done; cbn.
  - by left.
  - by rewrite insert_id.
  - apply nodup_erased. by eapply (g_lru_nodup P st Hg).
  - intros n' gid'. rewrite elem_of_erased. split.
    + intros [Hin' Hne]. left. split; [|done]. intros ->. apply Hne.
      apply (lru_self P st f r t gid g grp n' Hg HG) in Hin'. congruence.
    + intros [[Hne Hin']|[_ [=]]]. split; [done|]. intros ->. apply Hne.
      eapply (nodup_fst (groupLRU t) n); [by eapply (g_lru_nodup P st Hg)|done|].
      by apply (lru_self P st f r t gid g grp n Hg HG).
  - apply nodup_erased, (g_global_nodup P st Hg).
  - intros n' f' gid'. rewrite elem_of_erased. split.
    + intros [Hin' Hne]. left. split; [|done]. intros [= -> ->]. apply Hne.
      apply (global_self P st f r t gid g grp n' Hg HG) in Hin'. congruence.
    + intros [[Hne Hin']|[_ [=]]]. split; [done|]. intros ->. apply Hne.
      eapply (nodup_fst (globalGroupLRU_ st) gn); [by eapply (g_global_nodup P st Hg)|done|].
      by apply (global_self P st f r t gid g grp gn Hg HG).
  - set_solver.
  - set_solver.
  - exact (g_bytes P st Hg _ _ _ _ _ _ HG).
  - rewrite (groupBytes_cached st f r t gid g grp HG). lia.
  - apply (g_range P st Hg).
  - apply (g_fresh_group P st Hg). eauto.
  - by intros n' [?|?].
Qed.

Lemma pin_spec : g ∉ P → 0 < liveWritebackCount t →
  ∃ st', removeGroupFromLRU g r st = Some st' ∧ wf ({[ g ]} ∪ P) st' ∧ carries P st st' ∧
    (∃ t', cachedT st' f r t' ∧ groups t' = groups t).
Proof.
  intros HP Hl. pose proof (wf_g _ _ Hwf) as Hg.
  destruct (evictable_iters P st _ _ _ _ _ _ Hg HG HP) as (n & gn & Hn & Hgn & Hin & Hgin).
  pose proof HG as (Ht & Hgid & Hgrp).
  exists (pinned n gn). split.
  - unfold removeGroupFromLRU. rewrite Hgrp. cbn [mbind option_bind]. rewrite (proj2 Ht).
    cbn [mbind option_bind]. rewrite Hn, Hgn. unfold eraseMaybe.
    rewrite (eraseNode_Some _ _ _ Hin), (eraseNode_Some _ _ _ Hgin). done.
  - eapply (wf_regroup P ({[ g ]} ∪ P) st (pinned n gn) f r t _ gid g grp); try done.
    + by apply gwf_pin.
    + set_solver.
Qed.

Definition unpinned : cache :=
  put_group g (set_iters (Some (nextRef st)) (Some (nextRef st + 1)) grp)
    (put_track r (set_groupLRU ((nextRef st, gid) :: groupLRU t) t)
       (with_nextRef (nextRef st + 2)
          (with_globalLRU ((nextRef st + 1, (f, gid)) :: globalGroupLRU_ st) st))).

Lemma gwf_unpin : g ∈ P → gwf (P ∖ {[ g ]}) unpinned.
Proof.
  intros HP. pose proof HG as (Ht & Hgid & Hgrp). pose proof (wf_g _ _ Hwf) as Hg.
  destruct (g_pin P st Hg _ _ _ _ _ _ HG) as [[_ Hi] [_ Hgi]]. specialize (Hi HP). specialize (Hgi HP).
  apply (gwf_update P (P ∖ {[ g ]}) st _ f r t (set_groupLRU ((nextRef st, gid) :: groupLRU t) t) gid g
           (set_iters (Some (nextRef st)) (Some (nextRef st + 1)) grp)); try done; cbn.
  - by left.
  - by rewrite insert_id.
  - apply NoDup_cons. split; [|by eapply (g_lru_nodup P st Hg)].
    intros Hin. pose proof (g_fresh_lru P st Hg f r t _ Ht Hin). lia.
  - intros n' gid'. rewrite elem_of_cons. split.
    + intros [[= -> ->]|Hin']; [by right|]. left. split; [|done]. intros ->.
      apply (lru_self P st f r t gid g grp n' Hg HG) in Hin'. congruence.
    + intros [[_ Hin']|[-> [= ->]]]; [by right|by left].
  - apply NoDup_cons. split; [|apply (g_global_nodup P st Hg)].
    intros Hin. pose proof (g_fresh_global P st Hg _ Hin). lia.
  - intros n' f' gid'. rewrite elem_of_cons. split.
    + intros [[= -> -> ->]|Hin']; [by right|]. left. split; [|done]. intros [= -> ->].
      apply (global_self P st f r t gid g grp n' Hg HG) in Hin'. congruence.
    + intros [[_ Hin']|[[= -> ->] [= ->]]]; [by right|by left].
  - set_solver.
  - set_solver.
  - exact (g_bytes P st Hg _ _ _ _ _ _ HG).
  - rewrite (groupBytes_cached st f r t gid g grp HG). lia.
  - apply (g_range P st Hg).
  - lia.
  - pose proof (g_fresh_group P st Hg g ltac:(eauto)). lia.
  - intros n' [[= <-]|[= <-]]; lia.
Qed.

Lemma unpin_spec : g ∈ P →
  ∃ st', addGroupToLRU f gid g r st = Some st' ∧ wf (P ∖ {[ g ]}) st' ∧ carries P st st'.
Proof.
  intros HP. pose proof HG as (Ht & Hgid & Hgrp). pose proof (wf_g _ _ Hwf) as Hg.
  destruct (g_pin P st Hg _ _ _ _ _ _ HG) as [[_ Hi] _]. specialize (Hi HP).
  exists unpinned. split.
  - unfold addGroupToLRU. rewrite Hgrp. cbn [mbind option_bind]. rewrite (proj2 Ht).
    cbn [mbind option_bind]. by rewrite Hi.
  - destruct (wf_regroup P (P ∖ {[ g ]}) st unpinned f r t
      (set_groupLRU ((nextRef st, gid) :: groupLRU t) t) gid g grp
      (set_iters (Some (nextRef st)) (Some (nextRef st + 1)) grp)) as (? & ? & _); try done.
    + by apply gwf_unpin.
    + cbn. lia.
    + set_solver.
    + set_solver.
Qed.
End Pin.

(** ** A new group *)

Section NewGroup.
Context (P : gset Z) (st : cache) (f : FullTrackName) (r : Z) (t : ctrack) (gid : Z).
Context (Hwf : wf P st) (Ht : cachedT st f r t) (Hnone : groups t !! gid = None)
        (Hgid : 0 <= gid <= group kLocationMax).
Let g := nextRef st.
Let n := nextRef st + 1.
Let t' := set_groupLRU ((n, gid) :: groupLRU t) (set_groups (<[gid := g]> (groups t)) t).
Let grp' : cgroup := set_iters (Some n) (Some (n + 1)) newGroup.

Lemma newGroup_eq :
  ∃ st', addGroupToLRU f gid g r (emplaceGroup r gid t st).1 = Some st' ∧
    cache_ st' = cache_ st ∧ tracks st' = <[r := t']> (tracks st) ∧
    groupHeap st' = <[g := grp']> (groupHeap st) ∧
    globalGroupLRU_ st' = (n + 1, (f, gid)) :: globalGroupLRU_ st ∧
    trackLRU_ st' = trackLRU_ st ∧ totalCachedBytes_ st' = totalCachedBytes_ st ∧
    nextRef st' = n + 2 ∧ config st' = config st.
Proof.
  unfold addGroupToLRU, emplaceGroup. cbn. rewrite !lookup_insert_eq. cbn. eexists. split; [done|]. cbn. rewrite !insert_insert_eq. done.
Qed.

Lemma fresh_group : groupHeap st !! g = None.
Proof.
  apply eq_None_not_Some. intros Hg. pose proof (g_fresh_group P st (wf_g _ _ Hwf) g Hg). unfold n, g in *; lia.
Qed.

Lemma gwf_newGroup st' :
  cache_ st' = cache_ st → tracks st' = <[r := t']> (tracks st) →
  groupHeap st' = <[g := grp']> (groupHeap st) →
  globalGroupLRU_ st' = (n + 1, (f, gid)) :: globalGroupLRU_ st →
  totalCachedBytes_ st' = totalCachedBytes_ st → nextRef st' = n + 2 → gwf P st'.
Proof.
  intros Hc Htr Hh Hgl Hb Hn. pose proof (wf_g _ _ Hwf) as Hg. pose proof fresh_group as Hfresh.
  apply (gwf_update P P st st' f r t t' gid g grp'); try done; cbn.
  - by right.
  - apply NoDup_cons. split; [|by eapply (g_lru_nodup P st Hg)].
    intros Hin. pose proof (g_fresh_lru P st Hg f r t _ Ht Hin). unfold n, g in *; lia.
  - intros n' gid'. rewrite elem_of_cons. split.
    + intros [[= -> ->]|Hin']; [by right|]. left. split; [|done]. intros ->.
      apply (g_lru P st Hg f r t n' gid Ht) in Hin' as (g' & _ & E & _). congruence.
    + intros [[_ Hin']|[-> [= ->]]]; [by right|by left].
  - rewrite Hgl. apply NoDup_cons. split; [|apply (g_global_nodup P st Hg)].
    intros Hin. pose proof (g_fresh_global P st Hg _ Hin) as Hlt. cbn in Hlt.
    unfold n, g in *; lia.
  - intros n' f' gid'. rewrite Hgl, elem_of_cons. split.
    + intros [[= -> -> ->]|Hin']; [by right|]. left. split; [|done]. intros [= -> ->].
      apply (g_global P st Hg) in Hin' as (r' & t0 & g' & grp0 & ([Hf' Ht0] & E & _) & _).
      destruct Ht. congruence.
    + intros [[_ Hin']|[[= -> ->] [= ->]]]; [by right|by left].
  - assert (g ∉ P) by (intros HP; pose proof (wf_p _ _ Hwf _ HP); unfold n, g in *; lia).
    split; split; intros ?; done.
  - assert (groupBytes st g = 0) as -> by (unfold groupBytes; by rewrite Hfresh). rewrite Hb. unfold n, g in *; lia.
  - rewrite Hb. apply (g_range P st Hg).
  - unfold n, g in *; lia.
  - unfold n, g in *; lia.
  - intros n' [[= <-]|[= <-]];
    unfold n, g in *; lia.
Qed.

Lemma newGroup_spec :
  ∃ st', addGroupToLRU f gid g r (emplaceGroup r gid t st).1 = Some st' ∧ wf P st' ∧
    carries P st st' ∧ cachedG st' f r t' gid g grp' ∧ g ∉ P ∧
    totalCachedBytes_ st' = totalCachedBytes_ st.
Proof.
  destruct newGroup_eq as (st' & E & Hc & Htr & Hh & Hgl & Hl & Hb & Hn & Hcfg).
  exists st'. split; [done|].
  assert (HgP : g ∉ P) by (intros HP; pose proof (wf_p _ _ Hwf _ HP); unfold n, g in *; lia).
  pose proof (wf_g _ _ Hwf) as Hg. pose proof fresh_group as Hfresh.
  assert (cachedT st' f r t') as Ht'
    by (split; [rewrite Hc; apply Ht|rewrite Htr; apply lookup_insert_eq]).
  split; [constructor|].
  - by apply gwf_newGroup.
  - apply (twf_same P st); [apply (wf_t _ _ Hwf)|done|done|unfold n, g in *; lia| |].
    + intros f' r' t0 [(-> & -> & ->)|(_ & _ & Ht0)]%(update_track P st st' f r t t' Hg Ht Hc Htr).
      * exists t. split; [done|]. split; [by split_and!|]. cbn.
        intros gid' g' [[<- <-]|[_ ?]]%lookup_insert_Some; [done|eauto].
      * exists t0. split; [done|]. split; [by split_and!|]. eauto.
    + intros f' r' t0 [_ ?]. rewrite Htr. apply lookup_insert_is_Some'. eauto.
  - eapply (cwf_update P st st' f r t t' gid g grp'); try done; [by right|apply (wf_c _ _ Hwf)|].
    destruct (wf_c _ _ Hwf f r t Ht) as (Hid & Hob & Hin). unfold content_ok. rewrite Hh. cbn. split_and!.
    + intros gid' g' [[<- <-]|[_ ?]]%lookup_insert_Some; [done|]. by eapply Hid.
    + intros gid' g' grp0 oid e [[<- <-]|[_ Hg']]%lookup_insert_Some Hgrp He.
      * rewrite lookup_insert_eq in Hgrp. injection Hgrp as <-. done.
      * rewrite lookup_insert_ne in Hgrp; [by eapply Hob|].
        intros <-. destruct (g_heap P st Hg _ _ _ _ _ Ht Hg'). congruence.
    + intros l Hlv Hl'. destruct (Hin l Hlv Hl') as [?|(g' & grp0 & Hg' & Hgrp & Ho)]; [by left|right].
      exists g', grp0. split_and!; [|rewrite lookup_insert_ne; congruence|done].
      apply lookup_insert_Some. right. split; [congruence|done].
  - injection Hcfg as E1 E2 E3 E4 _ _. unfold limits_ok. rewrite E1, E2, E3, E4. apply (wf_l _ _ Hwf).
  - intros g' Hin. pose proof (wf_p _ _ Hwf g' Hin). unfold n, g in *; lia.
  - split.
    { apply (carries_put_track P st st' r t t'); try done; [apply Ht| |unfold n in *; lia]. cbn.
      intros gid' g' Hg'. apply lookup_insert_Some. right. split; [congruence|done]. }
    split; [|done]. split; [done|]. cbn. by rewrite Hh, !lookup_insert_eq.
Qed.
End NewGroup.

Lemma getOrCreateGroupWithEviction_spec P st f r t gid :
  wf P st → cachedT st f r t → 0 <= gid <= group kLocationMax →
  ∃ st' t' g grp, getOrCreateGroupWithEviction f r gid st = Some (st', g) ∧ wf P st' ∧
    carries P st st' ∧ cachedG st' f r t' gid g grp ∧ same_track t t' ∧
    (groups t !! gid = Some g ∨ g ∉ P) ∧ totalCachedBytes_ st' <= totalCachedBytes_ st ∧
    (groups t !! gid = None → maxCachedGroupsPerTrack_ st ≠ 0 →
     Z.of_nat (size (groups t')) <= maxCachedGroupsPerTrack_ st + 1 ∨
     ∀ gid' g', groups t' !! gid' = Some g' → gid' ≠ gid → g' ∈ P).
Proof.
  intros Hwf Ht Hgid. unfold getOrCreateGroupWithEviction. rewrite (proj2 Ht).
  cbn [mbind option_bind]. destruct (groups t !! gid) as [g|] eqn:Eg.
  - destruct (g_heap P st (wf_g _ _ Hwf) _ _ _ _ _ Ht Eg) as [grp Hgrp].
    exists st, t, g, grp. do 2 (split; [done|]). split; [apply carries_refl|].
    split; [done|]. split; [by split_and!|]. split; [by left|]. split; [lia|done].
  - destruct (evictOldestGroupsIfNeeded_spec P f r st t Hwf Ht)
      as (st1 & t1 & -> & Hwf1 & Hk & Ht1 & Hc & Hsub & Hs & Hend). cbn [mbind option_bind].
    rewrite (proj2 Ht1). cbn [mbind option_bind].
    assert (groups t1 !! gid = None) as Hnone by (by eapply lookup_weaken_None).
    destruct (newGroup_spec P st1 f r t1 gid Hwf1 Ht1 Hnone Hgid)
      as (st2 & E2 & Hwf2 & Hcar & HG & HP & Hb).
    destruct (emplaceGroup r gid t1 st1) as [st' g'] eqn:Ee. injection Ee as Est <-. cbn in E2.
    rewrite E2. cbn [mbind option_bind].
    eexists st2, _, _, _. split; [done|]. split; [done|].
    split; [eapply carries_trans; [by eapply idle_carries|done]|]. split; [done|].
    split; [by destruct Hs as (? & ? & ? & ?); split_and!|]. split; [by right|].
    split; [rewrite Hb; apply (k_total _ _ _ _ Hk)|].
    intros _ Hmax. cbn. rewrite map_size_insert_None by done.
    destruct Hend as [?|[?|Hnil]]; [done|left; lia|right].
    intros gid' g' [[<- _]|[_ Hg']]%lookup_insert_Some Hne; [done|].
    destruct (g_heap P st1 (wf_g _ _ Hwf1) _ _ _ _ _ Ht1 Hg') as [grp' Hgrp'].
    destruct (g_pin P st1 (wf_g _ _ Hwf1) f r t1 gid' g' grp') as [[Hp _] _]; [done|]. apply Hp.
    destruct (lruIter_ grp') as [n|] eqn:Ei; [|done].
    assert ((n, gid') ∈ groupLRU t1) as Hin
      by (by apply (lru_self P st1 f r t1 gid' g' grp' n (wf_g _ _ Hwf1))).
    rewrite Hnil in Hin. by apply elem_of_nil in Hin.
Qed.

End Operations.
