(* ===== verification/CacheWrites.v ===== *)
(** * The object cache: writing and expiring objects

    What [cacheObject] does to the group and the track it writes, and that
    writing, appending to and expiring objects keep the invariant. *)

From S2P Require Import Prelude Locations CacheRanges CacheStore CacheInvariant CacheOperations.

Section Writes.
Context `{LocationLaws} {IS : Type} `{IntervalOps IS} `{!IntervalLaws IS}
        {Extensions : Type} `{!ExtensionOps Extensions} `{!ExtensionLaws}
        {FullTrackName : Type} `{Countable FullTrackName}.

Notation cache := (MoqxCache (IS:=IS) (Extensions:=Extensions) (FullTrackName:=FullTrackName)).
Notation ctrack := (CacheTrack (IS:=IS) (Extensions:=Extensions)).
Notation cgroup := (CacheGroup (Extensions:=Extensions)).
Notation centry := (CacheEntry (Extensions:=Extensions)).
Implicit Types (st : cache) (f : FullTrackName) (P : gset Z) (t : ctrack) (grp : cgroup).

(** ** Inserting gaps *)

Inductive gapped t : ctrack → Prop :=
| gapped_refl : gapped t t
| gapped_insert t' a b : gapped t t' → valid_loc a → valid_loc b → gapped t (insertGap a b t').

Lemma gapped_fields t t' : gapped t t' → same_groups t t' ∧ same_track t t'.
Proof.
  induction 1 as [|t' a b _ [[? ?] (? & ? & ? & ?)]]; [by split; split_and!|].
  split; split_and!; done.
Qed.

Lemma gapped_grows t t' l : gapped t t' → valid_loc l →
  (iv_contains (gaps t) l = true → iv_contains (gaps t') l = true) ∧
  (iv_contains (cachedContent t) l = true → iv_contains (cachedContent t') l = true).
Proof.
  intros Hg Hl. induction Hg as [|t' a b _ [IH1 IH2] Ha Hb]; [done|]. cbn.
  rewrite !contains_insert by done. split; intros Hc; apply orb_true_iff; auto.
Qed.

Lemma content_insertGap st t a b : content_ok st t → valid_loc a → valid_loc b →
  content_ok st (insertGap a b t).
Proof.
  intros (Hid & Hob & Hin) Ha Hb. unfold content_ok. cbn. split; [done|]. split.
  - intros gid g grp oid e Hg Hgrp He. destruct (Hob gid g grp oid e Hg Hgrp He) as [Hv Hc].
    split; [done|]. intros Hce. rewrite contains_insert by done. rewrite (Hc Hce). apply orb_true_r.
  - intros l Hl. rewrite !contains_insert by done. intros [Hr|Hr]%orb_true_iff; [rewrite Hr; by left|].
    destruct (Hin l Hl Hr) as [Hg|?]; [|by right]. left. rewrite Hg. apply orb_true_r.
Qed.

Lemma content_gapped st t t' : gapped t t' → content_ok st t → content_ok st t'.
Proof. intros Hg Hok. induction Hg; [done|]. by apply content_insertGap. Qed.

(** ** Shapes *)

Lemma put_track_id st r t : tracks st !! r = Some t → put_track r t st = st.
Proof. intros Ht. unfold put_track. rewrite insert_id by done. by destruct st. Qed.

Lemma put_group_id st g grp : groupHeap st !! g = Some grp → put_group g grp st = st.
Proof. intros Hg. unfold put_group. rewrite insert_id by done. by destruct st. Qed.

Lemma put_track_twice st r t t' : put_track r t' (put_track r t st) = put_track r t' st.
Proof. unfold put_track, with_tracks. cbn. by rewrite insert_insert_eq. Qed.

Lemma put_group_twice st g grp grp' : put_group g grp' (put_group g grp st) = put_group g grp' st.
Proof. unfold put_group, with_groupHeap. cbn. by rewrite insert_insert_eq. Qed.

Lemma put_comm st r t g grp :
  put_group g grp (put_track r t st) = put_track r t (put_group g grp st).
Proof. done. Qed.

(** The group apart from the prior-group-gap value it has seen. *)
Definition seen grp grp' : Prop := grp' = grp ∨ ∃ n, grp' = set_seenPriorGroupIdGap n grp.

(** The entry that a write stores. *)
Definition storedEntry (old : option centry) (sg : Z) (s : ObjectStatus) (e : Extensions)
    (p : Payload) (c dg : bool) (now : Z) : centry :=
  match old with
  | Some o => mkEntry (subgroup o) s e p (payloadLength p) c (forwardingPreferenceIsDatagram o) now
  | None => mkEntry sg s e p (payloadLength p) c dg now
  end.

Lemma payloadLength_nonneg (p : Payload) : 0 <= payloadLength p.
Proof. destruct p; cbn; unfold computeChainDataLength; lia. Qed.

Lemma objectBytes_le grp oid e : objects grp !! oid = Some e →
  payloadLength (payload e) <= objectBytes grp.
Proof.
  intros He. apply (msum_elem_le (λ _ e, payloadLength (payload e)) _ oid e); [|done].
  intros. apply payloadLength_nonneg.
Qed.

Lemma objectBytes_insert grp oid e' m : objects grp = m →
  msum (λ _ e, payloadLength (payload e)) (<[oid := e']> m) =
  objectBytes grp - (match m !! oid with Some e => payloadLength (payload e) | None => 0 end)
  + payloadLength (payload e').
Proof.
  intros <-. unfold objectBytes. destruct (objects grp !! oid) as [e|] eqn:E.
  - by rewrite (msum_replace _ _ oid e e' E).
  - rewrite msum_insert by done. lia.
Qed.

Lemma storeEntry_ok grp oid sg s e p c dg now :
  group_ok grp → totalBytes grp + payloadLength p < u64_modulus →
  let grp' := storeEntry oid sg s e p c dg now grp in
  objects grp' = <[oid := storedEntry (objects grp !! oid) sg s e p c dg now]> (objects grp) ∧
  group_ok grp' ∧ totalBytes grp' <= totalBytes grp + payloadLength p ∧
  lruIter_ grp' = lruIter_ grp ∧ globalLruIter_ grp' = globalLruIter_ grp.
Proof.
  intros [Eb Hsz] Hbound. pose proof (payloadLength_nonneg p) as Hp.
  assert (0 <= objectBytes grp) by (apply msum_nonneg; intros; apply payloadLength_nonneg).
  unfold storeEntry, group_ok, objectBytes. destruct (objects grp !! oid) as [old|] eqn:E; cbn.
  - pose proof (objectBytes_le _ _ _ E). pose proof (payloadLength_nonneg (payload old)).
    rewrite (Hsz _ _ E), (u64_small (totalBytes grp - _)), u64_small by (unfold is_u64; lia).
    split; [done|]. split; [split|split; [lia|done]].
    + rewrite (objectBytes_insert grp oid _ (objects grp) eq_refl), E. cbn. lia.
    + intros oid' e'. rewrite lookup_insert_Some. intros [[_ <-]|[_ ?]]; [done|]. by eapply Hsz.
  - rewrite u64_small by (unfold is_u64; lia).
    split; [done|]. split; [split|split; [lia|done]].
    + rewrite (objectBytes_insert grp oid _ (objects grp) eq_refl), E. cbn. lia.
    + intros oid' e'. rewrite lookup_insert_Some. intros [[_ <-]|[_ ?]]; [done|]. by eapply Hsz.
Qed.

Section Shape.
Context (st : cache) (f : FullTrackName) (r : Z) (t : ctrack) (gid g : Z) (grp : cgroup).
Context (HG : cachedG st f r t gid g grp) (oid : Z) (Hv : valid_loc (mkLoc gid oid)).

Let upd (t' : ctrack) (grp' : cgroup) : cache := put_group g grp' (put_track r t' st).

Lemma upd_tracks t' grp' : tracks (upd t' grp') !! r = Some t'.
Proof. cbn. apply lookup_insert_eq. Qed.
Lemma upd_group t' grp' : groupHeap (upd t' grp') !! g = Some grp'.
Proof. cbn. apply lookup_insert_eq. Qed.
Lemma upd_id : st = upd t grp.
Proof.
  destruct HG as ([Hf Ht] & Hg & Hgrp). unfold upd.
  rewrite put_track_id by done. by rewrite put_group_id.
Qed.
Lemma upd_put_track t' grp' t'' : put_track r t'' (upd t' grp') = upd t'' grp'.
Proof. unfold upd. by rewrite <-put_comm, put_track_twice. Qed.
Lemma upd_put_group t' grp' grp'' : put_group g grp'' (upd t' grp') = upd t' grp''.
Proof. unfold upd. by rewrite put_group_twice. Qed.

Lemma getOrCreateGroup_upd t' grp' : groups t' = groups t →
  getOrCreateGroup r gid (upd t' grp') = Some (upd t' grp', g).
Proof.
  intros E. unfold getOrCreateGroup. rewrite upd_tracks. cbn [mbind option_bind].
  by rewrite E, (proj1 (proj2 HG)).
Qed.

Lemma valid_pred a b : 0 <= a <= group kLocationMax → 0 <= b <= object kLocationMax →
  valid_loc (mkLoc a b).
Proof. done. Qed.

Lemma priorGroupGap_shape gap : 0 <= gap →
  ∃ t' grp' res, priorGroupGap r gid gap (upd t grp) = Some (upd t' grp', res) ∧
    gapped t t' ∧ seen grp grp'.
Proof.
  intros Hgap. unfold priorGroupGap. destruct Hv as [Hv1 Hv2]. cbn in Hv1, Hv2.
  destruct (Z.ltb_spec gid gap).
  - eexists t, grp, _. split; [done|]. split; [constructor|by left].
  - rewrite getOrCreateGroup_upd by done. cbn [mbind option_bind]. rewrite upd_group.
    cbn [mbind option_bind]. destruct (seenPriorGroupIdGap grp) as [n|].
    + destruct (n =? gap); eexists t, grp, _; (split; [done|]); (split; [constructor|by left]).
    + rewrite upd_put_group. destruct (Z.ltb_spec 0 gap).
      * rewrite upd_tracks. cbn [mbind option_bind]. case_match.
        -- eexists t, _, _. split; [done|]. split; [constructor|right; eauto].
        -- rewrite upd_put_track. eexists _, _, _. split; [done|]. split; [|right; eauto].
           apply gapped_insert; [constructor| |]; apply valid_pred; cbn; pose proof max_object_pos; lia.
      * eexists t, _, _. split; [done|]. split; [constructor|right; eauto].
Qed.

Lemma priorObjectGap_shape t' grp' gap : 0 <= gap → gapped t t' → seen grp grp' →
  ∃ t'' res, priorObjectGap r gid oid gap (upd t' grp') = Some (upd t'' grp', res) ∧ gapped t t''.
Proof.
  intros Hgap Hg Hs. unfold priorObjectGap. destruct Hv as [Hv1 Hv2]. cbn in Hv1, Hv2.
  destruct (Z.ltb_spec oid gap); [by eexists t', _|].
  destruct (Z.ltb_spec 0 gap); [|by eexists t', _].
  rewrite getOrCreateGroup_upd by apply (gapped_fields t t' Hg). cbn [mbind option_bind].
  rewrite upd_group. cbn [mbind option_bind]. rewrite upd_tracks. cbn [mbind option_bind].
  case_match; [by eexists t', _|]. rewrite upd_put_track. eexists _, _. split; [done|].
  apply gapped_insert; [done| |]; apply valid_pred; cbn; lia.
Qed.

Lemma processGapExtensions_shape e :
  ∃ t' grp' res, processGapExtensions r gid oid e (upd t grp) = Some (upd t' grp', res) ∧
    gapped t t' ∧ seen grp grp'.
Proof.
  unfold processGapExtensions.
  assert (∃ t' grp' res,
    match getIntExtension e kPriorGroupIdGapExtensionType with
    | Some gap => priorGroupGap r gid gap (upd t grp)
    | None => Some (upd t grp, value tt)
    end = Some (upd t' grp', res) ∧ gapped t t' ∧ seen grp grp') as (t' & grp' & res & -> & Hg & Hs).
  { destruct (getIntExtension e kPriorGroupIdGapExtensionType) as [gap|] eqn:E.
    - apply priorGroupGap_shape. apply (getIntExtension_u64 _ _ _ E).
    - exists t, grp, (value tt). split; [done|]. split; [constructor|by left]. }
  cbn [mbind option_bind]. destruct res as [|err]; [|by eexists t', grp', _].
  destruct (getIntExtension e kPriorObjectIdGapExtensionType) as [gap|] eqn:E.
  - destruct (priorObjectGap_shape t' grp' gap) as (t'' & res & -> & Hg'); try done.
    { apply (getIntExtension_u64 _ _ _ E). }
    by exists t'', grp', res.
  - by exists t', grp', (value tt).
Qed.

Lemma endMarkerGaps_gapped s t' : gapped t t' → gapped t (endMarkerGaps gid oid s t').
Proof.
  intros Hg. pose proof Hv as [Hv1 Hv2]. cbn in Hv1, Hv2. pose proof max_object_pos.
  pose proof max_group_pos.
  assert (valid_loc (mkLoc gid 0)) as Hv0 by (apply valid_pred; lia).
  assert (gapped t (match nextInGroup (mkLoc gid oid) with
                    | Some n => insertGap n (mkLoc gid (object kLocationMax)) t'
                    | None => t' end)) as Hg1.
  { rewrite nextInGroup_law by done. cbn. destruct (Z.ltb_spec oid (object kLocationMax)); [|done].
    apply gapped_insert; [done| |]; apply valid_pred; lia. }
  unfold endMarkerGaps. destruct s; [done|done|]. rewrite nextGroup_law by done. cbn [group].
  destruct (Z.ltb_spec gid (group kLocationMax)); [|done].
  apply gapped_insert; [done|apply valid_pred; lia|]. unfold valid_loc. lia.
Qed.

(** A write changes the gaps and the content of the track, and the group. *)
Record written (sg : Z) (s : ObjectStatus) (e : Extensions) (p : Payload) (c dg : bool) (now : Z)
    (res : Expected PublishError unit) (t' : ctrack) (grp' : cgroup) : Prop := {
  w_groups : same_groups t t';
  w_track : same_track t t';
  w_lru : lruIter_ grp' = lruIter_ grp;
  w_glru : globalLruIter_ grp' = globalLruIter_ grp;
  w_ok : group_ok grp';
  w_bytes : totalBytes grp' <= totalBytes grp + payloadLength p;
  w_res : match res with
          | unexpected _ => gapped t t' ∧ objects grp' = objects grp ∧
                            totalBytes grp' = totalBytes grp
          | value _ =>
              objects grp' =
                <[oid := storedEntry (objects grp !! oid) sg s e p c dg now]> (objects grp) ∧
              ∃ t1, gapped t t1 ∧
                t' = if c then set_content (iv_insert (cachedContent t1) (mkLoc gid oid)
                                              (mkLoc gid oid)) t1 else t1
          end;
}.

Lemma rejected_written sg s e p c dg now err t' grp' :
  group_ok grp → gapped t t' → objects grp' = objects grp → totalBytes grp' = totalBytes grp →
  lruIter_ grp' = lruIter_ grp → globalLruIter_ grp' = globalLruIter_ grp →
  written sg s e p c dg now (unexpected err) t' grp'.
Proof.
  intros [Eb Hsz] Hg Eo Et El Egl. destruct (gapped_fields _ _ Hg). constructor; try done.
  - unfold group_ok, objectBytes. by rewrite Eo, Et.
  - pose proof (payloadLength_nonneg p). lia.
Qed.

Lemma cacheObject_shape sg s e p c dg now :
  group_ok grp → totalBytes grp + payloadLength p < u64_modulus →
  ∃ t' grp' res,
    cacheObject g r gid sg oid s e p c dg now (upd t grp) = Some (upd t' grp', res) ∧
    written sg s e p c dg now res t' grp'.
Proof.
  intros Hok Hbound. unfold cacheObject. rewrite upd_tracks.
  cbn [mbind option_bind]. destruct (iv_contains (gaps t) (mkLoc gid oid)).
  { eexists t, grp, _. split; [done|]. apply rejected_written; try done. constructor. }
  destruct (processGapExtensions_shape e) as (t1 & grp1 & res & -> & Hg & Hs).
  cbn [mbind option_bind].
  assert (objects grp1 = objects grp ∧ totalBytes grp1 = totalBytes grp ∧
          lruIter_ grp1 = lruIter_ grp ∧ globalLruIter_ grp1 = globalLruIter_ grp)
    as (Eo & Et & El & Egl) by (destruct Hs as [->|[? ->]]; done).
  destruct res as [[]|err].
  2: { eexists t1, grp1, _. split; [done|]. by apply rejected_written. }
  rewrite upd_tracks. cbn [mbind option_bind]. rewrite upd_group. cbn [mbind option_bind].
  set (t2 := if bool_decide (s = END_OF_GROUP ∨ s = END_OF_TRACK) then endMarkerGaps gid oid s t1 else t1).
  set (grp2 := if bool_decide (s = END_OF_GROUP ∨ s = END_OF_TRACK) then set_endOfGroup true grp1 else grp1).
  assert ((if bool_decide (s = END_OF_GROUP ∨ s = END_OF_TRACK) then (endMarkerGaps gid oid s t1, set_endOfGroup true grp1)
           else (t1, grp1)) = (t2, grp2)) as -> by (unfold t2, grp2; by case_bool_decide).
  assert (gapped t t2) as Hg2 by (unfold t2; case_bool_decide; [by apply endMarkerGaps_gapped|done]).
  assert (objects grp2 = objects grp ∧ totalBytes grp2 = totalBytes grp ∧
          lruIter_ grp2 = lruIter_ grp ∧ globalLruIter_ grp2 = globalLruIter_ grp)
    as (Eo2 & Et2 & El2 & Egl2) by (unfold grp2; case_bool_decide; done).
  rewrite upd_put_track, upd_put_group.
  destruct (objects grp2 !! oid ≫= conflict s p dg) as [err|].
  { eexists t2, grp2, _. split; [done|]. by apply rejected_written. }
  rewrite upd_put_track, upd_put_group. eexists _, _, (value tt). split; [done|].
  destruct (storeEntry_ok grp2 oid sg s e p c dg now) as (Eo3 & Hok3 & Hb3 & El3 & Egl3).
  { destruct Hok as [? ?]. unfold group_ok, objectBytes. by rewrite Eo2, Et2. }
  { by rewrite Et2. }
  destruct (gapped_fields _ _ Hg2) as [[Hgr Hgl] (Hs1 & Hs2 & Hs3 & Hs4)].
  rewrite Eo2 in Eo3. rewrite Et2 in Hb3. rewrite El2 in El3. rewrite Egl2 in Egl3.
  constructor; try (destruct c; done); try (destruct (_ <=? oid); done).
  split; [destruct (_ <=? oid); done|]. exists t2. by destruct c.
Qed.
End Shape.

(** ** Contents after a write *)

(** Storing [en] at [{gid, oid}], where the content may grow by that location. *)
Lemma content_store st st' f r t t1 t' gid g grp grp' oid en :
  content_ok st t → cachedG st f r t gid g grp →
  (∀ gid' g', groups t !! gid' = Some g' → gid' ≠ gid → g' ≠ g) →
  gapped t t1 → groups t' = groups t1 → gaps t' = gaps t1 → valid_loc (mkLoc gid oid) →
  (complete en = true → iv_contains (cachedContent t') (mkLoc gid oid) = true) →
  (∀ l, valid_loc l → iv_contains (cachedContent t1) l = true →
        iv_contains (cachedContent t') l = true) →
  (∀ l, valid_loc l → iv_contains (cachedContent t') l = true →
        iv_contains (cachedContent t1) l = true ∨ l = mkLoc gid oid) →
  groupHeap st' = <[g := grp']> (groupHeap st) → objects grp' = <[oid := en]> (objects grp) →
  content_ok st' t'.
Proof.
  intros Hok (Ht & Hg & Hgrp) Hinj Hgap Egr Egaps Hv Hen Hgrow Hback Hh Eo.
  destruct (content_gapped st t t1 Hgap Hok) as (Hid & Hob & Hin).
  destruct (gapped_fields t t1 Hgap) as [[Eg1 _] _].
  unfold content_ok. rewrite Egr, Egaps, Hh. split; [done|]. split.
  - intros gid' g' grp0 oid' e' Hg' Hgrp' He'.
    apply lookup_insert_Some in Hgrp' as [[<- <-]|[Hne Hgrp']].
    + assert (gid' = gid) as ->.
      { destruct (decide (gid' = gid)); [done|]. exfalso. apply (Hinj gid' g); [by rewrite <-Eg1|done|done]. }
      rewrite Eo in He'. apply lookup_insert_Some in He' as [[<- <-]|[_ He']]; [done|].
      destruct (Hob gid g grp oid' e' Hg' Hgrp He') as [? ?]. split; [done|]. auto.
    + destruct (Hob gid' g' grp0 oid' e' Hg' Hgrp' He') as [? ?]. split; [done|]. auto.
  - intros l Hl [Hc1| ->]%Hback; [|right; cbn; exists g, grp'|done].
    + destruct (Hin l Hl Hc1) as [?|(g' & grp0 & Hg' & Hgrp0 & Ho)]; [by left|right].
      destruct (decide (g' = g)) as [->|Hne].
      * exists g, grp'. rewrite lookup_insert_eq, Eo. split_and!; [done|done|].
        simplify_eq. apply lookup_insert_is_Some'. by right.
      * exists g', grp0. by rewrite lookup_insert_ne.
    + rewrite lookup_insert_eq, Eo, lookup_insert_eq, Eg1. eauto.
Qed.

(** Storing a complete entry also inserts its location. *)
Lemma content_insert (c : bool) (cs cs' : IS) loc :
  valid_loc loc → cs' = (if c then iv_insert cs loc loc else cs) →
  (c = true → iv_contains cs' loc = true) ∧
  (∀ l, valid_loc l → iv_contains cs l = true → iv_contains cs' l = true) ∧
  (∀ l, valid_loc l → iv_contains cs' l = true → iv_contains cs l = true ∨ l = loc).
Proof.
  intros Hv ->. destruct c; [|by split_and!; auto]. split_and!.
  - intros _. rewrite contains_insert by done. apply orb_true_iff. left. unfold loc_leb. lia.
  - intros l Hl Hc. rewrite contains_insert by done. rewrite Hc. apply orb_true_r.
  - intros l Hl. rewrite contains_insert by done. intros [Hc|]%orb_true_iff; [right|by left].
    apply loc_eq_iff. loc_unfold. lia.
Qed.

(** ** A write keeps the invariant *)

(** Any update of one group and its track that keeps the LRU nodes and says
    what it did to the content. *)
Lemma wf_rewrite P st st' f r t t' gid g grp grp' :
  wf P st → cachedG st f r t gid g grp → same_groups t t' → same_track t t' →
  lruIter_ grp' = lruIter_ grp → globalLruIter_ grp' = globalLruIter_ grp → group_ok grp' →
  content_ok st' t' →
  cache_ st' = cache_ st → tracks st' = <[r := t']> (tracks st) →
  groupHeap st' = <[g := grp']> (groupHeap st) → globalGroupLRU_ st' = globalGroupLRU_ st →
  trackLRU_ st' = trackLRU_ st → config st' = config st → nextRef st' = nextRef st →
  totalCachedBytes_ st' = totalCachedBytes_ st - totalBytes grp + totalBytes grp' →
  totalCachedBytes_ st - totalBytes grp + totalBytes grp' < u64_modulus →
  wf P st' ∧ carries P st st'.
Proof.
  intros Hwf HG Hgs Hs El Egl Hok Hcon Hc Htr Hh Hgl Hl Hcfg Hn Hb Hbound.
  pose proof HG as (Ht & Hgid & Hgrp). pose proof (wf_g _ _ Hwf) as Hg.
  pose proof (totalBytes_le P st _ _ _ _ _ _ Hg HG) as Hle.
  assert (is_u64 (totalCachedBytes_ st')) as Hu.
  { assert (0 <= objectBytes grp') by (apply msum_nonneg; intros; apply payloadLength_nonneg).
    unfold is_u64. rewrite Hb. rewrite (proj1 Hok) in *. lia. }
  pose proof (proj1 Hgs) as Egr. split; [constructor|].
  - eapply (gwf_write P st st' f r t t' gid g grp grp'); try done. lia.
  - eapply (twf_put_track P st st' r t t'); try done; [apply (wf_t _ _ Hwf)|apply Ht|by rewrite Egr|lia].
  - eapply (cwf_update P st st' f r t t' gid g grp'); try done; [by left|by rewrite Egr, insert_id|apply (wf_c _ _ Hwf)].
  - injection Hcfg as E1 E2 E3 E4 _ _. unfold limits_ok. rewrite E1, E2, E3, E4. apply (wf_l _ _ Hwf).
  - rewrite Hn. apply (wf_p _ _ Hwf).
  - eapply (carries_put_track P st st' r t t'); try done; [apply Ht|by rewrite Egr|lia].
Qed.

Lemma group_alone P st f r t gid g : gwf P st → cachedT st f r t → groups t !! gid = Some g →
  ∀ gid' g', groups t !! gid' = Some g' → gid' ≠ gid → g' ≠ g.
Proof.
  intros Hg Ht Hgid gid' g' Hg' Hne ->. apply Hne.
  by destruct (g_ginj P st Hg f r t gid' f r t gid g Ht Hg' Ht Hgid).
Qed.

Lemma wf_written P st st' f r t t' t'' gid g grp grp' oid sg s e p c dg now res :
  wf P st → cachedG st f r t gid g grp → valid_loc (mkLoc gid oid) →
  written t gid grp oid sg s e p c dg now res t' grp' →
  same_groups t' t'' → same_track t' t'' → same_content t' t'' →
  cache_ st' = cache_ st → tracks st' = <[r := t'']> (tracks st) →
  groupHeap st' = <[g := grp']> (groupHeap st) → globalGroupLRU_ st' = globalGroupLRU_ st →
  trackLRU_ st' = trackLRU_ st → config st' = config st → nextRef st' = nextRef st →
  totalCachedBytes_ st' = totalCachedBytes_ st - totalBytes grp + totalBytes grp' →
  totalCachedBytes_ st + payloadLength p < u64_modulus →
  wf P st' ∧ carries P st st'.
Proof.
  intros Hwf HG Hv Hw [Eg2 El2] (A1 & A2 & A3 & A4) [Ega2 Eco2] Hc Htr Hh Hgl Hl Hcfg Hn Hb Hbound.
  pose proof HG as (Ht & Hgid & Hgrp). pose proof (wf_g _ _ Hwf) as Hg.
  destruct Hw as [[Eg1 El1] (B1 & B2 & B3 & B4) Hlr Hglr Hok Hwb Hres].
  apply (wf_rewrite P st st' f r t t'' gid g grp grp'); try done.
  - split; congruence.
  - split_and!; congruence.
  - pose proof (wf_c _ _ Hwf f r t Ht) as Hcok. destruct res as [|err].
    + destruct Hres as (Eo & t1 & Hgap & Et').
      destruct (content_insert c (cachedContent t1) (cachedContent t'') (mkLoc gid oid) Hv)
        as (Hi & Hgrow & Hback).
      { rewrite Eco2, Et'. by destruct c. }
      eapply (content_store st st' f r t t1 t'' gid g grp grp' oid); try done.
      * by eapply group_alone.
      * rewrite Eg2, Et'. by destruct c.
      * rewrite Ega2, Et'. by destruct c.
      * by destruct (objects grp !! oid).
    + destruct Hres as (Hgap & Eo & _).
      eapply (content_same st st' t' t'' g grp grp'); try done. by apply (content_gapped st t).
  - lia.
Qed.

Lemma cacheObjectAndUpdateBytes_spec P st f r t gid g grp oid sg s e p c dg now :
  wf P st → cachedG st f r t gid g grp → valid_loc (mkLoc gid oid) →
  totalCachedBytes_ st + payloadLength p < u64_modulus →
  ∃ st' res t' grp',
    cacheObjectAndUpdateBytes g r gid sg oid s e p c dg now st = Some (st', res) ∧
    wf P st' ∧ carries P st st' ∧
    groupHeap st' = <[g := grp']> (groupHeap st) ∧
    written t gid grp oid sg s e p c dg now res t' grp' ∧
    (∀ err, res = unexpected err → totalCachedBytes_ st' = totalCachedBytes_ st).
Proof.
  intros Hwf HG Hv Hbound. pose proof HG as (Ht & Hgid & Hgrp). pose proof (wf_g _ _ Hwf) as Hg.
  pose proof (totalBytes_le P st _ _ _ _ _ _ Hg HG) as Hle.
  destruct (cacheObject_shape st f r t gid g grp HG oid Hv sg s e p c dg now) as (t' & grp' & res & E & Hw).
  { by eapply (g_bytes P st Hg). }
  { lia. }
  rewrite <-(upd_id st f r t gid g grp HG) in E.
  unfold cacheObjectAndUpdateBytes. rewrite Hgrp. cbn [mbind option_bind]. rewrite E.
  cbn [mbind option_bind]. destruct res as [[]|err].
  - pose proof (w_bytes _ _ _ _ _ _ _ _ _ _ _ _ _ _ Hw) as Hwb.
    assert (0 <= totalBytes grp') as Hnn.
    { rewrite (proj1 (w_ok _ _ _ _ _ _ _ _ _ _ _ _ _ _ Hw)).
      apply msum_nonneg; intros; apply payloadLength_nonneg. }
    rewrite (upd_group st r g t' grp'). cbn [mbind option_bind].
    set (nb := totalCachedBytes_ st - totalBytes grp + totalBytes grp').
    assert ((if totalBytes grp <=? totalBytes grp'
      then Some (with_bytes (u64 (totalCachedBytes_ (put_group g grp' (put_track r t' st)) +
                   (totalBytes grp' - totalBytes grp))) (put_group g grp' (put_track r t' st)))
      else if totalCachedBytes_ (put_group g grp' (put_track r t' st)) <? totalBytes grp - totalBytes grp'
      then None
      else Some (with_bytes (totalCachedBytes_ (put_group g grp' (put_track r t' st)) -
                   (totalBytes grp - totalBytes grp')) (put_group g grp' (put_track r t' st)))) =
      Some (with_bytes nb (put_group g grp' (put_track r t' st)))) as ->.
    { cbn. destruct (Z.leb_spec (totalBytes grp) (totalBytes grp')).
      - rewrite u64_small by (unfold is_u64; lia). unfold nb. do 2 f_equal. lia.
      - destruct (Z.ltb_spec (totalCachedBytes_ st) (totalBytes grp - totalBytes grp')); [lia|].
        unfold nb. do 2 f_equal. lia. }
    cbn [mbind option_bind]. set (st2 := with_bytes nb _).
    assert (tracks st2 !! r = Some t') as -> by apply (upd_tracks st r g t' grp').
    cbn [mbind option_bind].
    destruct (wf_written P st (put_track r (set_lastWrite now t') st2) f r t t' (set_lastWrite now t')
                gid g grp grp' oid sg s e p c dg now (value tt)) as (Hwf3 & Hcar); try done.
    { cbn. by rewrite insert_insert_eq. }
    destruct (evictForByteLimitIfNeeded_spec P _ Hwf3) as (st4 & b & -> & Hwf4 & Hk & _).
    cbn [mbind option_bind]. eexists st4, _, t', grp'. split; [done|]. split; [done|].
    split; [eapply carries_trans; [done|by eapply idle_carries]|].
    split; [by rewrite (k_heap _ _ _ _ Hk)|]. by split.
  - pose proof (w_res _ _ _ _ _ _ _ _ _ _ _ _ _ _ Hw) as (_ & _ & Et).
    destruct (wf_written P st (put_group g grp' (put_track r t' st)) f r t t' t'
                gid g grp grp' oid sg s e p c dg now (unexpected err)) as (Hwf3 & Hcar); try done.
    { cbn. lia. }
    by eexists _, _, t', grp'.
Qed.

(** ** Appending to an object *)

Lemma appendPayload_length p bytes :
  payloadLength (appendPayload p bytes) = payloadLength p + computeChainDataLength bytes.
Proof. destruct p; cbn; unfold computeChainDataLength; rewrite ?length_app; lia. Qed.

Lemma sgObjectPayload_spec P w st t grp entry bytes fin :
  wf P st → cachedG st (sg_ftn_ w) (cacheTrack_ w) t (group_ w) (cacheGroup_ w) grp →
  valid_loc (mkLoc (group_ w) (currentObject_ w)) →
  objects grp !! currentObject_ w = Some entry →
  computeChainDataLength bytes <= currentLength_ w →
  totalCachedBytes_ st + computeChainDataLength bytes < u64_modulus →
  ∃ st' w' out, sgObjectPayload w bytes fin st = Some (st', w', out) ∧ wf P st' ∧
    carries P st st' ∧
    sg_ftn_ w' = sg_ftn_ w ∧ cacheTrack_ w' = cacheTrack_ w ∧ cacheGroup_ w' = cacheGroup_ w ∧
    group_ w' = group_ w.
Proof.
  intros Hwf HG Hv He Hlen Hbound. pose proof HG as (Ht & Hgid & Hgrp).
  pose proof (wf_g _ _ Hwf) as Hg. unfold sgObjectPayload. rewrite (proj2 Ht).
  cbn [mbind option_bind]. destruct (shouldSkipCaching t).
  { eexists st, w, _. split; [done|]. split; [done|]. split; [apply carries_refl|done]. }
  rewrite Hgrp. cbn [mbind option_bind]. rewrite He. cbn [mbind option_bind].
  destruct (Z.ltb_spec (currentLength_ w) (computeChainDataLength bytes)) as [|_]; [lia|].
  set (left := currentLength_ w - computeChainDataLength bytes).
  set (entry' := mkEntry (subgroup entry) _ _ _ _ _ _ _). set (t' := if left =? 0 then _ else t).
  set (grp' := set_totalBytes _ _). set (st1 := with_bytes _ _).
  destruct (g_bytes P st Hg _ _ _ _ _ _ HG) as [Eb Hsz].
  pose proof (totalBytes_le P st _ _ _ _ _ _ Hg HG) as Hle.
  pose proof (objectBytes_le _ _ _ He) as Hel. pose proof (payloadLength_nonneg (payload entry)).
  assert (0 <= computeChainDataLength bytes) by (unfold computeChainDataLength; lia).
  pose proof (g_range P st Hg) as Hr.
  assert (Etb : totalBytes grp' = totalBytes grp + computeChainDataLength bytes)
    by (cbn; apply u64_small; unfold is_u64 in *; lia).
  assert (Est : totalCachedBytes_ st1 = totalCachedBytes_ st + computeChainDataLength bytes)
    by (cbn; apply u64_small; unfold is_u64 in *; lia).
  assert (Eps : payloadSize entry' = payloadLength (payload entry')).
  { cbn. rewrite appendPayload_length, (Hsz _ _ He). apply u64_small. unfold is_u64 in *. lia. }
  destruct (wf_rewrite P st st1 (sg_ftn_ w) (cacheTrack_ w) t t' (group_ w) (cacheGroup_ w) grp grp')
    as (Hwf1 & Hcar); try done; try (unfold t'; destruct (left =? 0); done).
  - split.
    + rewrite Etb, Eb. unfold objectBytes at 2. cbn.
      rewrite (objectBytes_insert grp _ _ (objects grp) eq_refl), He. cbn.
      rewrite appendPayload_length. lia.
    + intros oid' e'. cbn. rewrite lookup_insert_Some. intros [[_ <-]|[_ ?]]; [done|]. by eapply Hsz.
  - destruct (content_insert (left =? 0) (cachedContent t) (cachedContent t')
      (mkLoc (group_ w) (currentObject_ w)) Hv) as (Hi & Hgrow & Hback).
    { unfold t'. by destruct (left =? 0). }
    eapply (content_store st st1 _ _ t t t' (group_ w) (cacheGroup_ w) grp grp' (currentObject_ w) entry');
      try done; try (unfold t'; destruct (left =? 0); done).
    + by apply (wf_c _ _ Hwf (sg_ftn_ w) (cacheTrack_ w)).
    + by eapply group_alone.
    + constructor.
    + cbn. destruct (left =? 0) eqn:El; [auto|]. intros Hce. apply Hgrow; [done|].
      destruct (wf_c _ _ Hwf _ _ _ Ht) as (_ & Hob & _).
      by eapply (Hob _ _ _ _ _ Hgid Hgrp He).
  - rewrite Est, Etb. lia.
  - rewrite Etb. lia.
  - destruct (evictForByteLimitIfNeeded_spec P st1 Hwf1) as (st4 & b & -> & Hwf4 & Hk & _).
    cbn [mbind option_bind]. eexists st4, _, _. split; [done|]. split; [done|].
    split; [eapply carries_trans; [done|by eapply idle_carries]|done].
Qed.

(** ** Looking up and expiring an object *)

Lemma content_expire st st' f r t t' gid g grp grp' oid :
  content_ok st t → cachedG st f r t gid g grp → valid_loc (mkLoc gid oid) →
  (∀ gid' g', groups t !! gid' = Some g' → gid' ≠ gid → g' ≠ g) →
  groups t' = groups t → gaps t' = gaps t →
  cachedContent t' = iv_remove (cachedContent t) (mkLoc gid oid) (mkLoc gid oid) →
  groupHeap st' = <[g := grp']> (groupHeap st) → objects grp' = delete oid (objects grp) →
  content_ok st' t'.
Proof.
  intros (Hid & Hob & Hin) (Ht & Hg & Hgrp) Hv Hinj Egr Egaps Econ Hh Eo.
  assert (Hcon : ∀ l, valid_loc l → iv_contains (cachedContent t') l =
                   negb (bool_decide (l = mkLoc gid oid)) && iv_contains (cachedContent t) l).
  { intros l Hl. rewrite Econ, contains_remove by done. f_equal. f_equal.
    case_bool_decide as E; [subst; unfold loc_leb; cbn; lia|].
    rewrite loc_eq_iff in E. unfold loc_leb. cbn in *. lia. }
  unfold content_ok. rewrite Egr, Egaps, Hh. split; [done|]. split.
  - intros gid' g' grp0 oid' e' Hg' Hgrp' He'.
    assert (∃ grp1, groupHeap st !! g' = Some grp1 ∧ objects grp1 !! oid' = Some e' ∧
      mkLoc gid' oid' ≠ mkLoc gid oid) as (grp1 & Hgrp1 & He1 & Hne).
    { apply lookup_insert_Some in Hgrp' as [[<- <-]|[Hne Hgrp']].
      - rewrite Eo in He'. apply lookup_delete_Some in He' as [? ?]. exists grp. split_and!; try done. congruence.
      - exists grp0. split_and!; try done. intros [= -> ->]. by simplify_eq. }
    destruct (Hob gid' g' grp1 oid' e' Hg' Hgrp1 He1) as [? Hc]. split; [done|]. intros Hce.
    rewrite Hcon by done. rewrite bool_decide_false by done. by rewrite Hc.
  - intros l Hl. rewrite Hcon by done. intros [Hne%negb_true_iff%bool_decide_eq_false Hc]%andb_true_iff.
    destruct (Hin l Hl Hc) as [?|(g' & grp0 & Hg' & Hgrp0 & Ho)]; [by left|right].
    destruct (decide (g' = g)) as [->|Hgg]; [|exists g', grp0; by rewrite lookup_insert_ne].
    exists g, grp'. rewrite lookup_insert_eq, Eo. split_and!; [done|done|].
    simplify_eq. apply lookup_delete_is_Some. split; [|done]. intros Eoid. apply Hne.
    apply loc_eq_iff. cbn. split; [|done].
    destruct (decide (group l = gid)); [done|]. exfalso. by apply (Hinj (group l) g).
Qed.

Lemma getCachedObjectMaybe_spec P st f r t loc now :
  wf P st → cachedT st f r t → valid_loc loc →
  (∀ d, effectiveDuration t st = Some d → is_Some (toNanoseconds d)) →
  ∃ st' res, getCachedObjectMaybe r loc now st = Some (st', res) ∧ wf P st' ∧ carries P st st'.
Proof.
  intros Hwf Ht Hv Hd. pose proof (wf_g _ _ Hwf) as Hg.
  assert (Hsame : ∃ st', st' = st ∧ wf P st' ∧ carries P st st').
  { exists st. do 2 (split; [done|]). apply carries_refl. }
  unfold getCachedObjectMaybe. rewrite (proj2 Ht). cbn [mbind option_bind].
  destruct (groups t !! group loc) as [g|] eqn:Egid; [|destruct Hsame as (? & -> & ?); eauto].
  destruct (g_heap P st Hg _ _ _ _ _ Ht Egid) as [grp Hgrp]. rewrite Hgrp. cbn [mbind option_bind].
  destruct (objects grp !! object loc) as [entry|] eqn:Eo; [|destruct Hsame as (? & -> & ?); eauto].
  assert (is_Some (isExpired now t st entry)) as [b Eb].
  { unfold isExpired. destruct (effectiveDuration t st) as [d|]; [|eauto].
    destruct (Hd d eq_refl) as [ns ->]. cbn. eauto. }
  rewrite Eb. cbn [mbind option_bind]. destruct b; [|destruct Hsame as (? & -> & ?); eauto].
  assert (cachedG st f r t (group loc) g grp) as HG by done.
  destruct (g_bytes P st Hg _ _ _ _ _ _ HG) as [Ebytes Hsz].
  pose proof (totalBytes_le P st _ _ _ _ _ _ Hg HG) as Hle. pose proof (objectBytes_le _ _ _ Eo) as Hel.
  pose proof (payloadLength_nonneg (payload entry)). pose proof (g_range P st Hg) as Hr.
  set (grp' := set_objects _ _). set (t' := set_content _ t).
  assert (Etb : totalBytes grp' = totalBytes grp - payloadLength (payload entry)).
  { cbn. rewrite (Hsz _ _ Eo). apply u64_small. unfold is_u64 in *. lia. }
  eexists _, None. split; [done|].
  set (st' := put_track r t' _).
  assert (totalCachedBytes_ st' = totalCachedBytes_ st - payloadLength (payload entry)) as Etc.
  { cbn. rewrite (Hsz _ _ Eo). apply u64_small. unfold is_u64 in *. lia. }
  destruct (wf_rewrite P st st' f r t t' (group loc) g grp grp') as (? & ?); try done.
  - split; [|intros oid e'; cbn; intros [_ ?]%lookup_delete_Some; by eapply Hsz].
    rewrite Etb, Ebytes. unfold objectBytes at 2. cbn.
    by rewrite (msum_delete _ _ (object loc) entry Eo).
  - eapply (content_expire st st' f r t t' (group loc) g grp grp' (object loc)); try done.
    + by apply (wf_c _ _ Hwf f r).
    + by eapply group_alone.
    + cbn. by destruct loc.
  - rewrite Etb, Etc. lia.
  - rewrite Etb. unfold is_u64 in *. lia.
Qed.

End Writes.
