(* ===== verification/CacheWritebacks.v ===== *)
(** * The object cache: tracks and writebacks

    The LRU list of tracks and the writebacks that subscriptions hold keep the
    invariant. *)

From S2P Require Import Prelude Locations CacheRanges CacheStore CacheInvariant CacheOperations.
From S2P Require Import CacheWrites.

Section Writebacks.
Context `{LocationLaws} {IS : Type} `{IntervalOps IS} `{!IntervalLaws IS}
        {Extensions : Type} `{!ExtensionOps Extensions} `{!ExtensionLaws}
        {FullTrackName : Type} `{Countable FullTrackName}.

Notation cache := (MoqxCache (IS:=IS) (Extensions:=Extensions) (FullTrackName:=FullTrackName)).
Notation ctrack := (CacheTrack (IS:=IS) (Extensions:=Extensions)).
Notation cgroup := (CacheGroup (Extensions:=Extensions)).
Implicit Types (st : cache) (f : FullTrackName) (P : gset Z) (t : ctrack).

(** ** The track list *)

(** What the LRU list must say after the entry of [f] becomes [t']. *)
Definition relisted st st' f (t' : ctrack) : Prop :=
  NoDup (trackLRU_ st').*1 ∧
  (∀ n, n ∈ (trackLRU_ st').*1 → n < nextRef st') ∧
  ∀ n f', (n, f') ∈ trackLRU_ st' ↔
    f' ≠ f ∧ (n, f') ∈ trackLRU_ st ∨ f' = f ∧ trackLruIter_ t' = Some n.

(** The fields of a track that the list and the eviction of tracks depend on. *)
Definition track_ok P (t' : ctrack) : Prop :=
  evicted t' = false ∧ 0 <= liveWritebackCount t' ∧
  (is_Some (trackLruIter_ t') ↔ canEvict t' = true) ∧
  ∀ gid g, groups t' !! gid = Some g → g ∈ P → 0 < liveWritebackCount t'.

Lemma cachedT_update P st st' f r t' f' r' t'' :
  gwf P st → (∀ f0, cache_ st !! f0 = Some r → f0 = f) →
  cache_ st' = <[f := r]> (cache_ st) → tracks st' = <[r := t']> (tracks st) →
  cachedT st' f' r' t'' ↔ (f' = f ∧ r' = r ∧ t'' = t') ∨ (f' ≠ f ∧ r' ≠ r ∧ cachedT st f' r' t'').
Proof.
  intros Hg Hinj Hc Htr. unfold cachedT. rewrite Hc, Htr. split.
  - intros [Hf' Ht'']. apply lookup_insert_Some in Hf' as [[<- <-]|[Hne Hf']].
    + rewrite lookup_insert_eq in Ht''. left. by simplify_eq.
    + assert (r' ≠ r) by (intros ->; by apply Hne, eq_sym, Hinj).
      rewrite lookup_insert_ne in Ht'' by done. by right.
  - intros [(-> & -> & ->)|(Hne & Hne' & Hf' & Ht'')]; [by rewrite !lookup_insert_eq|].
    by rewrite !lookup_insert_ne.
Qed.

Lemma twf_update P st st' f r t' :
  wf P st → (∀ f0, cache_ st !! f0 = Some r → f0 = f) →
  cache_ st' = <[f := r]> (cache_ st) → tracks st' = <[r := t']> (tracks st) →
  relisted st st' f t' → track_ok P t' → fetchesInProgress t' = [] → twf P st'.
Proof.
  intros Hwf Hinj Hc Htr (Hnd & Hfresh & Hl) (Hev & Hlive & Hce & Hpin) Hfe.
  pose proof (wf_t _ _ Hwf) as Htw.
  assert (HT := λ f' r' t'', cachedT_update P st st' f r t' f' r' t'' (wf_g _ _ Hwf) Hinj Hc Htr).
  constructor.
  - intros f' r' t'' [(_ & _ & ->)|(_ & _ & ?)]%HT; [done|]. by eapply (t_evicted P st Htw).
  - intros f' r' t'' [(_ & _ & ->)|(_ & _ & ?)]%HT; [done|]. by eapply (t_live P st Htw).
  - done.
  - intros n f'. rewrite Hl, (t_lru P st Htw). split.
    + intros [(Hne & r' & t'' & Ht'' & Hi)|[-> Hi]].
      * exists r', t''. split; [|done]. apply HT. right. split_and; [done|].
        split; [|done]. intros ->. by apply Hne, Hinj, Ht''.
      * exists r, t'. split; [|done]. apply HT. by left.
    + intros (r' & t'' & [(-> & -> & ->)|(Hne & _ & Ht'')]%HT & Hi); [by right|].
      left. split; [done|]. by exists r', t''.
  - intros f' r' t'' [(_ & _ & ->)|(_ & _ & ?)]%HT; [done|]. by eapply (t_evictable P st Htw).
  - intros f' r' t'' gid g [(_ & _ & ->)|(_ & _ & ?)]%HT; [by apply Hpin|]. by eapply (t_pin P st Htw).
  - done.
  - intros f' r' t'' [(_ & _ & ->)|(_ & _ & ?)]%HT; [done|]. by eapply (t_fetches P st Htw).
Qed.

(** The live count of one track becomes [k]; otherwise as [carries]. *)
Record recounts P (r k : Z) st st' : Prop := {
  rc_stays : stays P st st';
  rc_live : liveOf st' = <[r := k]> (liveOf st);
  rc_home f r' t : tracks st !! r' = Some t → evicted t = true ∨ cache_ st !! f = Some r' →
    ∃ t', tracks st' !! r' = Some t' ∧ (evicted t' = true ∨ cache_ st' !! f = Some r');
  rc_names f r' : cache_ st' !! f = Some r' → cache_ st !! f = Some r' ∨ nextRef st <= r';
  rc_next : nextRef st <= nextRef st';
}.

Lemma recounts_carries P r k st st' :
  recounts P r k st st' → (liveOf st !! r = Some k ∨ liveOf st !! r = None ∧ k = 0) →
  carries P st st'.
Proof.
  intros [Hs Hl Hh Hb Hn] Hk. constructor; try done.
  intros r'. rewrite Hl. destruct (decide (r' = r)) as [->|].
  - rewrite lookup_insert_eq. destruct Hk as [E|[E ->]]; [left; congruence|by right].
  - left. by rewrite lookup_insert_ne.
Qed.

Lemma recounts_put_track P st st' r t t' :
  tracks st !! r = Some t → cache_ st' = cache_ st → tracks st' = <[r := t']> (tracks st) →
  evicted t' = evicted t → groups t' = groups t → nextRef st <= nextRef st' →
  recounts P r (liveWritebackCount t') st st'.
Proof.
  intros Ht Hc Htr Ee Hg Hn. constructor; try done.
  - intros f r' t0 gid g [Hf Ht0] Hg0 _. destruct (decide (r' = r)) as [->|Hne].
    + simplify_eq. exists t'. split; [|by rewrite Hg]. split; [by rewrite Hc|].
      rewrite Htr. apply lookup_insert_eq.
    + exists t0. split; [|done]. split; [by rewrite Hc|]. by rewrite Htr, lookup_insert_ne.
  - unfold liveOf. by rewrite Htr, fmap_insert.
  - intros f r' t0 Ht0 Hh. rewrite Htr, Hc. destruct (decide (r' = r)) as [->|].
    + exists t'. rewrite lookup_insert_eq. simplify_eq. by rewrite Ee.
    + exists t0. by rewrite lookup_insert_ne.
  - intros f r'. rewrite Hc. by left.
Qed.

(** An existing track whose groups and content stay. *)
Lemma wf_retrack P st st' f r t t' :
  wf P st → cachedT st f r t → same_groups t t' → same_content t t' → track_ok P t' →
  fetchesInProgress t' = fetchesInProgress t → cache_ st' = cache_ st → tracks st' = <[r := t']> (tracks st) →
  groupHeap st' = groupHeap st → globalGroupLRU_ st' = globalGroupLRU_ st →
  totalCachedBytes_ st' = totalCachedBytes_ st → config st' = config st →
  nextRef st <= nextRef st' → relisted st st' f t' →
  wf P st' ∧ recounts P r (liveWritebackCount t') st st' ∧ cachedT st' f r t'.
Proof.
  intros Hwf Ht Hs [Ega Eco] Hok Hfe Hc Htr Hh Hgl Hb Hcfg Hn Hl. pose proof (wf_g _ _ Hwf) as Hg.
  assert (Hinj : ∀ f0, cache_ st !! f0 = Some r → f0 = f)
    by (intros f0 Hf0; apply (g_inj P st Hg f0 f r Hf0), Ht).
  split; [constructor|split].
  - eapply (gwf_put_track P st st' r t t'); try done. apply Ht.
  - eapply (twf_update P st st' f r t'); try done.
    + rewrite Hc. symmetry. apply insert_id, Ht.
    + rewrite Hfe. by apply (t_fetches P st (wf_t _ _ Hwf) f r).
  - eapply (cwf_put_track st st' f r t'); try done; [apply (wf_c _ _ Hwf)|].
    pose proof (wf_c _ _ Hwf f r t Ht) as Hcok. unfold content_ok in *.
    by rewrite Hh, Ega, Eco, (proj1 Hs).
  - injection Hcfg as E1 E2 E3 E4 _ _. unfold limits_ok. rewrite E1, E2, E3, E4. apply (wf_l _ _ Hwf).
  - intros g Hin. pose proof (wf_p _ _ Hwf g Hin). lia.
  - eapply (recounts_put_track P st st' r t t'); try done; [apply Ht| |apply Hs].
    rewrite (t_evicted P st (wf_t _ _ Hwf) f r t Ht). apply Hok.
  - split; [rewrite Hc; apply Ht|rewrite Htr; apply lookup_insert_eq].
Qed.

(** A new, empty track. *)
Lemma gwf_newTrack P st st' f r t' :
  gwf P st → cache_ st !! f = None → r = nextRef st → groups t' = ∅ → groupLRU t' = [] →
  cache_ st' = <[f := r]> (cache_ st) → tracks st' = <[r := t']> (tracks st) →
  groupHeap st' = groupHeap st → globalGroupLRU_ st' = globalGroupLRU_ st →
  totalCachedBytes_ st' = totalCachedBytes_ st → nextRef st < nextRef st' → gwf P st'.
Proof.
  intros Hg Hf Hr Eg El Hc Htr Hh Hgl Hb Hn.
  assert (Hfr : tracks st !! r = None).
  { apply eq_None_not_Some. intros Hs. pose proof (g_fresh_track P st Hg r Hs). lia. }
  assert (Hinj : ∀ f0, cache_ st !! f0 = Some r → f0 = f).
  { intros f0 Hf0. destruct (g_track P st Hg _ _ Hf0). congruence. }
  assert (HT := λ f' r' t'', cachedT_update P st st' f r t' f' r' t'' Hg Hinj Hc Htr).
  assert (HTg : ∀ f' r' t'' gid g, cachedT st' f' r' t'' → groups t'' !! gid = Some g →
                  cachedT st f' r' t'').
  { intros f' r' t'' gid g [(_ & _ & ->)|(_ & _ & ?)]%HT Hgid; [|done].
    by rewrite Eg, lookup_empty in Hgid. }
  constructor.
  - intros f' r'. rewrite Hc, Htr. intros [[<- <-]|[_ Hf']]%lookup_insert_Some;
      apply lookup_insert_is_Some'; [by left|right]. by eapply (g_track P st Hg).
  - intros f1 f2 r'. rewrite Hc. intros [[<- <-]|[_ H1']]%lookup_insert_Some
      [[<- E]|[_ H2']]%lookup_insert_Some; try done.
    + symmetry. by apply Hinj.
    + subst r'. by apply Hinj.
    + by eapply (g_inj P st Hg).
  - intros f' r' t'' gid g Ht'' Hgid. rewrite Hh. by eapply (g_heap P st Hg); [eapply HTg|].
  - intros f1 r1 t1 gid1 f2 r2 t2 gid2 g Ht1 Hg1 Ht2 Hg2.
    by eapply (g_ginj P st Hg); [eapply (HTg f1)| |eapply (HTg f2)|].
  - intros f' r' t'' [(_ & _ & ->)|(_ & _ & ?)]%HT; [rewrite El; apply NoDup_nil_2|].
    by eapply (g_lru_nodup P st Hg).
  - intros f' r' t'' n gid [(_ & _ & ->)|(_ & _ & ?)]%HT; rewrite Hh; [|by eapply (g_lru P st Hg)].
    rewrite El, Eg. split; [by intros ?%elem_of_nil|]. intros (g & grp & Hgid & _).
    by rewrite lookup_empty in Hgid.
  - rewrite Hgl. apply (g_global_nodup P st Hg).
  - intros n f' gid. rewrite Hgl, (g_global P st Hg). split.
    + intros (r' & t'' & g & grp & (Ht'' & Hgid & Hgrp) & Hi). exists r', t'', g, grp.
      split; [|done]. split; [|by rewrite Hh]. apply HT. right.
      split; [intros ->; destruct Ht''; congruence|]. split; [intros ->; destruct Ht''; congruence|done].
    + intros (r' & t'' & g & grp & (Ht'' & Hgid & Hgrp) & Hi). rewrite Hh in Hgrp.
      exists r', t'', g, grp. split; [|done]. split; [by eapply HTg|done].
  - intros f' r' t'' gid g grp (Ht'' & Hgid & Hgrp). rewrite Hh in Hgrp.
    apply (g_pin P st Hg f' r' t'' gid g grp). split; [by eapply HTg|done].
  - intros f' r' t'' gid g grp (Ht'' & Hgid & Hgrp). rewrite Hh in Hgrp.
    apply (g_bytes P st Hg f' r' t'' gid g grp). split; [by eapply HTg|done].
  - rewrite Hb, (g_total P st Hg). unfold storeBytes. rewrite Hc, msum_insert by done.
    unfold trackBytes at 2. rewrite Htr, lookup_insert_eq, Eg, msum_empty.
    apply msum_ext. intros f' r' Hf'. unfold trackBytes, groupBytes. rewrite Htr, Hh.
    rewrite lookup_insert_ne; [done|]. intros <-. rewrite (Hinj f' Hf') in Hf'. congruence.
  - rewrite Hb. apply (g_range P st Hg).
  - intros r'. rewrite Htr. intros [<-|Hs]%lookup_insert_is_Some'; [lia|].
    pose proof (g_fresh_track P st Hg r' Hs). lia.
  - intros g. rewrite Hh. intros Hs. pose proof (g_fresh_group P st Hg g Hs). lia.
  - intros f' r' t'' n [(_ & _ & ->)|(_ & _ & Ht'')]%HT; [rewrite El; by intros ?%elem_of_nil|].
    intros Hin. pose proof (g_fresh_lru P st Hg _ _ _ n Ht'' Hin). lia.
  - intros n. rewrite Hgl. intros Hin. pose proof (g_fresh_global P st Hg n Hin). lia.
Qed.

Lemma wf_newTrack P st st' f r t' :
  wf P st → cache_ st !! f = None → r = nextRef st → groups t' = ∅ → groupLRU t' = [] →
  gaps t' = iv_empty → cachedContent t' = iv_empty → track_ok P t' →
  fetchesInProgress t' = [] → cache_ st' = <[f := r]> (cache_ st) → tracks st' = <[r := t']> (tracks st) →
  groupHeap st' = groupHeap st → globalGroupLRU_ st' = globalGroupLRU_ st →
  totalCachedBytes_ st' = totalCachedBytes_ st → config st' = config st →
  nextRef st < nextRef st' → relisted st st' f t' →
  wf P st' ∧ recounts P r (liveWritebackCount t') st st' ∧ cachedT st' f r t'.
Proof.
  intros Hwf Hf Hr Eg El Ega Eco Hok Hfe Hc Htr Hh Hgl Hb Hcfg Hn Hl. pose proof (wf_g _ _ Hwf) as Hg.
  assert (Hfr : tracks st !! r = None).
  { apply eq_None_not_Some. intros Hs. pose proof (g_fresh_track P st Hg r Hs). lia. }
  assert (Hinj : ∀ f0, cache_ st !! f0 = Some r → f0 = f).
  { intros f0 Hf0. destruct (g_track P st Hg _ _ Hf0). congruence. }
  assert (HT := λ f' r' t'', cachedT_update P st st' f r t' f' r' t'' Hg Hinj Hc Htr).
  split; [constructor|split].
  - by eapply (gwf_newTrack P st st' f r t').
  - by eapply (twf_update P st st' f r t').
  - intros f' r' t'' [(_ & _ & ->)|(_ & _ & Ht'')]%HT.
    + unfold content_ok. rewrite Eg, Eco. split_and!.
      * intros gid g. by rewrite lookup_empty.
      * intros gid g grp oid e Hgid. by rewrite lookup_empty in Hgid.
      * intros l _. by rewrite contains_empty.
    + pose proof (wf_c _ _ Hwf f' r' t'' Ht'') as Hcok. unfold content_ok in *. by rewrite Hh.
  - injection Hcfg as E1 E2 E3 E4 _ _. unfold limits_ok. rewrite E1, E2, E3, E4. apply (wf_l _ _ Hwf).
  - intros g Hin. pose proof (wf_p _ _ Hwf g Hin). lia.
  - constructor; [| | | |lia].
    + intros f' r' t'' gid g Ht'' Hgid HP. exists t''. split; [|done]. apply HT. right.
      split; [intros ->; destruct Ht''; congruence|]. split; [intros ->; destruct Ht''; congruence|done].
    + unfold liveOf. by rewrite Htr, fmap_insert.
    + intros f' r' t'' Ht'' Hh'. exists t''. rewrite Htr, Hc, lookup_insert_ne by congruence.
      split; [done|]. destruct Hh' as [?|Hf']; [by left|right].
      rewrite lookup_insert_ne; [done|congruence].
    + intros f' r'. rewrite Hc. intros [[<- <-]|[_ ?]]%lookup_insert_Some; [right; lia|by left].
  - apply HT. by left.
Qed.

(** *** Changes of the list *)

(** Removing the node of [f], if it has one. *)
Lemma relisted_remove P st st' f r t t' l :
  wf P st → cachedT st f r t → trackLruIter_ t' = None →
  eraseMaybe (trackLruIter_ t) (trackLRU_ st) = Some l → trackLRU_ st' = l →
  nextRef st <= nextRef st' → relisted st st' f t'.
Proof.
  intros Hwf Ht Hi El Hl Hn. pose proof (wf_t _ _ Hwf) as Htw.
  destruct (eraseMaybe_track P st f r t Htw Ht) as (l' & El' & Hnd & Hin).
  rewrite El in El'. injection El' as <-. rewrite <-Hl in *. split_and!; [done| |].
  - intros n ([n' f'] & -> & [Hin' _]%Hin)%list_elem_of_fmap.
    pose proof (t_fresh P st Htw n' (elem_of_fst _ _ _ Hin')). cbn. lia.
  - intros n f'. rewrite Hin, Hi. split; [tauto|]. intros [?|[_ [=]]]. tauto.
Qed.

(** Adding a node for [f], which has none. *)
Lemma relisted_add P st st' f t' n :
  wf P st → (∀ n', (n', f) ∉ trackLRU_ st) → nextRef st <= n < nextRef st' →
  trackLRU_ st' = (n, f) :: trackLRU_ st → trackLruIter_ t' = Some n → relisted st st' f t'.
Proof.
  intros Hwf Hno Hn Hl Hi. pose proof (wf_t _ _ Hwf) as Htw. unfold relisted. rewrite Hl. split_and!.
  - cbn. apply NoDup_cons. split; [|apply (t_nodup P st Htw)]. intros Hin.
    pose proof (t_fresh P st Htw n Hin). lia.
  - intros n' [->|Hin]%elem_of_cons; cbn; [lia|]. pose proof (t_fresh P st Htw n' Hin). lia.
  - intros n' f'. rewrite elem_of_cons, Hi. split.
    + intros [[= -> ->]|Hin]; [by right|]. left. split; [|done]. intros ->. by apply (Hno n').
    + intros [[_ ?]|[-> [= ->]]]; [by right|by left].
Qed.

(** Leaving the list alone. *)
Lemma relisted_same P st st' f r t t' :
  wf P st → cachedT st f r t → trackLruIter_ t' = trackLruIter_ t →
  trackLRU_ st' = trackLRU_ st → nextRef st <= nextRef st' → relisted st st' f t'.
Proof.
  intros Hwf Ht Hi Hl Hn. pose proof (wf_t _ _ Hwf) as Htw. unfold relisted. rewrite Hl, Hi. split_and!.
  - apply (t_nodup P st Htw).
  - intros n Hin. pose proof (t_fresh P st Htw n Hin). lia.
  - intros n f'. split.
    + intros Hin. destruct (decide (f' = f)) as [->|]; [right|by left]. split; [done|].
      apply (t_lru P st Htw) in Hin as (r' & t0 & [? ?] & ?). destruct Ht. by simplify_eq.
    + intros [[_ ?]|[-> Hi']]; [done|]. apply (t_lru P st Htw). by exists r, t.
Qed.

Lemma not_listed P st f : wf P st → cache_ st !! f = None → ∀ n, (n, f) ∉ trackLRU_ st.
Proof.
  intros Hwf Hf n (r & t & [? ?] & ?)%(t_lru P st (wf_t _ _ Hwf)). congruence.
Qed.

(** A new track that is not listed leaves the list alone. *)
Lemma relisted_new P st st' f t' :
  wf P st → cache_ st !! f = None → trackLruIter_ t' = None →
  trackLRU_ st' = trackLRU_ st → nextRef st <= nextRef st' → relisted st st' f t'.
Proof.
  intros Hwf Hf Hi Hl Hn. pose proof (wf_t _ _ Hwf) as Htw. unfold relisted. rewrite Hl, Hi. split_and!.
  - apply (t_nodup P st Htw).
  - intros n Hin. pose proof (t_fresh P st Htw n Hin). lia.
  - intros n f'. split; [|by intros [[_ ?]|[_ [=]]]]. intros Hin. left. split; [|done].
    intros ->. by apply (not_listed P st f Hwf Hf n).
Qed.

(** ** Evicting the oldest track *)

Lemma evictTrack_idle P st f r t :
  wf P st → cachedT st f r t → canEvict t = true →
  ∃ st', evictTrack f st = Some (st', 1) ∧ wf P st' ∧ keeps P ∅ st st' ∧
    cache_ st' = delete f (cache_ st) ∧
    (∀ n f', (n, f') ∈ trackLRU_ st' ↔ (n, f') ∈ trackLRU_ st ∧ f' ≠ f).
Proof.
  intros Hwf Ht He.
  destruct (evictTrack_spec P st f r t Hwf Ht) as (st' & E & Hwf' & Hc & Hk & Hl).
  { intros gid g Hg. by eapply idle_unpinned. }
  exists st'. do 2 (split; [done|]). split; [by eapply keeps_idle|done].
Qed.

Lemma evictOldestTrackIfNeeded_spec P st :
  wf P st →
  ∃ st' b, evictOldestTrackIfNeeded st = Some (st', b) ∧ wf P st' ∧ keeps P ∅ st st' ∧
    (st' = st ∨ ∃ f n, (n, f) ∈ trackLRU_ st ∧ cache_ st' = delete f (cache_ st) ∧
      ∀ n f', (n, f') ∈ trackLRU_ st' ↔ (n, f') ∈ trackLRU_ st ∧ f' ≠ f) ∧
    (maxCachedTracks_ st ≠ 0 → maxCachedTracks_ st <= cacheSize st → trackLRU_ st ≠ [] → st' ≠ st).
Proof.
  intros Hwf. unfold evictOldestTrackIfNeeded.
  destruct ((maxCachedTracks_ st =? 0) || (cacheSize st <? maxCachedTracks_ st)) eqn:E.
  { exists st, true. do 2 (split; [done|]). split; [apply keeps_refl|]. split; [by left|]. lia. }
  destruct (last (trackLRU_ st)) as [[n f]|] eqn:El.
  - apply last_Some_elem_of in El. pose proof (wf_t _ _ Hwf) as Htw.
    pose proof (proj1 (t_lru P st Htw n f) El) as (r & t & Ht & Hi).
    destruct (evictTrack_idle P st f r t Hwf Ht) as (st' & -> & Hwf' & Hk & Hc & Hl).
    { apply (t_evictable P st Htw f r t Ht). eauto. }
    cbn [mbind option_bind]. eexists st', _. do 3 (split; [done|]).
    split; [right; by exists f, n|]. intros _ _ _ ->.
    assert (cache_ st !! f = None) as Hf by (rewrite Hc; apply lookup_delete_eq).
    destruct Ht. congruence.
  - apply last_None in El. exists st, false. do 2 (split; [done|]). split; [apply keeps_refl|].
    split; [by left|]. intros _ _ Hne. done.
Qed.

(** ** Subscribing *)

Lemma canEvict_live t : canEvict t = true → liveWritebackCount t = 0.
Proof. unfold canEvict. lia. Qed.

(** The constructor of [SubscribeWriteback] on a cached track. *)
Lemma subscribe_cached P st f r t :
  wf P st → cachedT st f r t →
  ∃ st2 st', removeTrackFromLRU r st = Some st2 ∧
    (t2 ← tracks st2 !! r; Some (put_track r (set_live (liveWritebackCount t2 + 1) t2) st2)) = Some st' ∧
    wf P st' ∧ recounts P r (liveWritebackCount t + 1) st st' ∧
    (∃ t', cachedT st' f r t' ∧ 0 < liveWritebackCount t').
Proof.
  intros Hwf Ht. pose proof (t_live P st (wf_t _ _ Hwf) f r t Ht) as Hlive.
  destruct (eraseMaybe_track P st f r t (wf_t _ _ Hwf) Ht) as (l & El & _).
  set (t' := set_live (liveWritebackCount t + 1) (set_trackLruIter None t)).
  set (st2 := put_track r (set_trackLruIter None t) (with_trackLRU l st)).
  exists st2, (put_track r t' st2). split; [|split].
  - unfold removeTrackFromLRU. rewrite (proj2 Ht). cbn [mbind option_bind].
    destruct (trackLruIter_ t) as [n|] eqn:Ei; cbn in El.
    + by rewrite El.
    + injection El as <-. unfold st2. destruct t. cbn in Ei. subst. cbn.
      rewrite put_track_id; [by destruct st|]. cbn. apply Ht.
  - assert (tracks st2 !! r = Some (set_trackLruIter None t)) as -> by (cbn; apply lookup_insert_eq). done.
  - unfold st2. rewrite put_track_twice.
    destruct (wf_retrack P st (put_track r t' (with_trackLRU l st)) f r t t') as (Hwf' & Hst & Ht'); try done.
    + split; [apply (t_evicted P st (wf_t _ _ Hwf) f r t Ht)|]. split; [cbn; lia|].
      split; [|intros; cbn; lia]. split; [by intros [? [=]]|]. intros E%canEvict_live. cbn in E. lia.
    + by eapply (relisted_remove P st _ f r t t' l).
    + split; [done|]. split; [done|]. exists t'. split; [done|cbn; lia].
Qed.

Lemma getSubscribeWriteback_spec P st f :
  wf P st →
  ∃ st1 st' r, getSubscribeWriteback f st = Some (st', mkSubscribe r f) ∧
    wf P st1 ∧ carries P st st1 ∧
    wf P st' ∧ recounts P r (default 0 (liveOf st1 !! r) + 1) st1 st' ∧
    (∃ t', cachedT st' f r t' ∧ 0 < liveWritebackCount t').
Proof.
  intros Hwf. unfold getSubscribeWriteback. destruct (cache_ st !! f) as [r|] eqn:Ef.
  - destruct (g_track P st (wf_g _ _ Hwf) f r Ef) as [t Ht]. cbn [mbind option_bind].
    destruct (subscribe_cached P st f r t Hwf (conj Ef Ht)) as (st2 & st' & -> & E & Hrest).
    cbn [mbind option_bind]. destruct (tracks st2 !! r) as [t2|]; [|done].
    cbn [mbind option_bind] in *. injection E as E. rewrite E. exists st, st', r. split; [done|].
    split; [done|]. split; [apply carries_refl|]. unfold liveOf. by rewrite lookup_fmap, Ht.
  - assert (∃ st1, (if maxCachedTracks_ st <=? cacheSize st
                    then '(st', _) ← evictOldestTrackIfNeeded st; Some st' else Some st) = Some st1 ∧
              wf P st1 ∧ keeps P ∅ st st1) as (st1 & -> & Hwf1 & Hk).
    { destruct (maxCachedTracks_ st <=? cacheSize st); [|exists st; by split_and!; [| |apply keeps_refl]].
      destruct (evictOldestTrackIfNeeded_spec P st Hwf) as (st1 & b & -> & ? & ? & _).
      by exists st1. }
    cbn [mbind option_bind].
    assert (cache_ st1 !! f = None) as Ef1.
    { destruct (cache_ st1 !! f) as [r|] eqn:E; [|done]. apply (k_cache _ _ _ _ Hk) in E. congruence. }
    unfold emplaceTrack. set (r := nextRef st1). set (st2 := with_nextRef (r + 1) _).
    assert (tracks st2 !! r = Some newTrack) as Ht2 by (cbn; apply lookup_insert_eq).
    assert (removeTrackFromLRU r st2 = Some st2) as -> by (unfold removeTrackFromLRU; by rewrite Ht2).
    cbn [mbind option_bind]. rewrite Ht2. cbn [mbind option_bind].
    eexists st1, _, r. split; [done|].
    destruct (wf_newTrack P st1 (put_track r (set_live 1 newTrack) st2) f r (set_live 1 newTrack))
      as (Hwf' & Hst & Ht'); try done.
    + split_and!; cbn; done.
    + cbn. by rewrite insert_insert_eq.
    + cbn. unfold r. lia.
    + eapply (relisted_new P st1); try done. cbn. unfold r. lia.
    + split; [done|]. split; [by apply idle_carries|]. split; [done|].
      split; [|eexists; split; [exact Ht'|cbn; lia]].
      assert (liveOf st1 !! r = None) as ->; [|done].
      unfold liveOf. rewrite lookup_fmap. destruct (tracks st1 !! r) eqn:E; [|done].
      pose proof (g_fresh_track P st1 (wf_g _ _ Hwf1) r ltac:(eauto)). unfold r in *. lia.
Qed.

(** ** Unsubscribing *)

Lemma evictable_listed P st f r t : wf P st → cachedT st f r t → canEvict t = true →
  addTrackToLRU f r st = Some st.
Proof.
  intros Hwf Ht He. unfold addTrackToLRU. rewrite (proj2 Ht). cbn [mbind option_bind].
  apply (t_evictable P st (wf_t _ _ Hwf) f r t Ht) in He as [n ->]. done.
Qed.

Lemma onTrackBecameEvictable_id P st f : wf P st → onTrackBecameEvictable f st = Some st.
Proof.
  intros Hwf. unfold onTrackBecameEvictable. destruct (cache_ st !! f) as [r|] eqn:Ef; [|done].
  destruct (g_track P st (wf_g _ _ Hwf) f r Ef) as [t Ht]. rewrite Ht. cbn [mbind option_bind].
  destruct (canEvict t) eqn:E; [|done]. by eapply evictable_listed.
Qed.

(** Writing a track that has left the cache. *)
Lemma wf_detached P st r t t' :
  wf P st → (∀ f, cache_ st !! f ≠ Some r) → tracks st !! r = Some t → same_groups t t' → evicted t' = evicted t →
  wf P (put_track r t' st) ∧ recounts P r (liveWritebackCount t') st (put_track r t' st).
Proof.
  intros Hwf Hno Ht Hs Ee.
  assert (HT : ∀ f r' t'', cachedT (put_track r t' st) f r' t'' ↔ cachedT st f r' t'').
  { intros f r' t''. rewrite cachedT_put. split.
    - intros [Hf [[-> _]|[_ ?]]]; [|done]. by destruct (Hno f).
    - intros [Hf Ht'']. split; [done|]. right. split; [|done]. intros ->. by apply (Hno f). }
  split; [constructor|].
  - by eapply (gwf_put_track P st _ r t t'); [apply (wf_g _ _ Hwf)|..].
  - apply (twf_same P st); try done; [apply (wf_t _ _ Hwf)| |].
    + intros f r' t'' Ht''%HT. exists t''. split; [done|]. split; [by split_and!|eauto].
    + intros f r' t'' [_ ?]. cbn. apply lookup_insert_is_Some'. eauto.
  - intros f r' t'' Ht''%HT. by apply (wf_c _ _ Hwf f r').
  - apply (wf_l _ _ Hwf).
  - apply (wf_p _ _ Hwf).
  - eapply (recounts_put_track P st _ r t t'); try done. apply Hs.
Qed.

Lemma closeSubscribe_cached P st f r t :
  wf P st → cachedT st f r t → 0 < liveWritebackCount t →
  (liveWritebackCount t = 1 → ∀ gid g, groups t !! gid = Some g → g ∉ P) →
  ∃ st', onTrackBecameEvictable f (put_track r (set_live (liveWritebackCount t - 1) t) st) = Some st' ∧
    wf P st' ∧ recounts P r (liveWritebackCount t - 1) st st'.
Proof.
  intros Hwf Ht Hlive Hpin. set (t1 := set_live _ t).
  assert (trackLruIter_ t = None) as Hi.
  { destruct (trackLruIter_ t) eqn:E; [|done].
    assert (canEvict t = true) as Hc by (apply (t_evictable P st (wf_t _ _ Hwf) f r t Ht); eauto).
    apply canEvict_live in Hc. lia. }
  assert (Hpin' : ∀ gid g, groups t !! gid = Some g → g ∈ P → 0 < liveWritebackCount t - 1).
  { intros gid g Hg HP. destruct (decide (liveWritebackCount t = 1)) as [E|]; [|lia]. by destruct (Hpin E gid g). }
  unfold onTrackBecameEvictable. cbn. rewrite (proj1 Ht), lookup_insert_eq. cbn [mbind option_bind].
  destruct (canEvict t1) eqn:Ec.
  - set (n := nextRef st). unfold addTrackToLRU. cbn. rewrite lookup_insert_eq. cbn [mbind option_bind].
    cbn. rewrite Hi. eexists. split; [done|].
    set (t2 := set_trackLruIter (Some n) t1).
    match goal with |- wf P ?s ∧ _ => set (st' := s) end.
    destruct (wf_retrack P st st' f r t t2) as (Hwf' & Hst & _); try done.
    + split; [apply (t_evicted P st (wf_t _ _ Hwf) f r t Ht)|]. split; [cbn; lia|].
      split; [|exact Hpin']. split; [by intros _|]. cbn. eauto.
    + cbn. by rewrite insert_insert_eq.
    + cbn. lia.
    + eapply (relisted_add P st st' f t2 n); try done; [|cbn; lia].
      intros n' (r' & t0 & [? ?] & ?)%(t_lru P st (wf_t _ _ Hwf)). destruct Ht. simplify_eq.
  - eexists. split; [done|].
    destruct (wf_retrack P st (put_track r t1 st) f r t t1) as (Hwf' & Hst & _); try done.
    + split; [apply (t_evicted P st (wf_t _ _ Hwf) f r t Ht)|]. split; [cbn; lia|].
      split; [|exact Hpin']. cbn. rewrite Hi. rewrite Ec. split; [by intros [? [=]]|done].
    + by eapply (relisted_same P st _ f r t t1).
Qed.

Lemma closeSubscribe_spec P st w t :
  wf P st → tracks st !! track_ w = Some t → 0 < liveWritebackCount t →
  (∀ f, cache_ st !! f = Some (track_ w) → f = ftn_ w) →
  (liveWritebackCount t = 1 → cache_ st !! ftn_ w = Some (track_ w) →
   ∀ gid g, groups t !! gid = Some g → g ∉ P) →
  ∃ st', closeSubscribe w st = Some st' ∧ wf P st' ∧
    recounts P (track_ w) (liveWritebackCount t - 1) st st'.
Proof.
  intros Hwf Ht Hlive Hown Hpin. unfold closeSubscribe. rewrite Ht. cbn [mbind option_bind].
  destruct (Z.leb_spec (liveWritebackCount t) 0); [lia|].
  destruct (decide (cache_ st !! ftn_ w = Some (track_ w))) as [Hf|Hf].
  - apply (closeSubscribe_cached P st (ftn_ w) (track_ w) t); [done|by split|lia|intros E; by apply Hpin].
  - destruct (wf_detached P st (track_ w) t (set_live (liveWritebackCount t - 1) t) Hwf) as [Hwf' Hst];
      try done.
    { intros f Hf'. by rewrite <-(Hown f Hf') in Hf. }
    rewrite (onTrackBecameEvictable_id P _ (ftn_ w) Hwf'). by eexists.
Qed.

(** ** Track settings *)

(** A field of a cached track that no invariant mentions. *)
Lemma set_field P st f r t t' :
  wf P st → cachedT st f r t → same_groups t t' → same_track t t' → same_content t t' →
  wf P (put_track r t' st) ∧ carries P st (put_track r t' st).
Proof.
  intros Hwf Ht Hs (Ee & El & Ei & Ef) Hc. pose proof (wf_t _ _ Hwf) as Htw.
  destruct (wf_retrack P st (put_track r t' st) f r t t') as (Hwf' & Hst & Ht'); try done.
  - split; [rewrite Ee; by apply (t_evicted P st Htw f r)|].
    split; [rewrite El; by apply (t_live P st Htw f r)|].
    split; [unfold canEvict; rewrite Ei, El, Ef; by apply (t_evictable P st Htw f r)|].
    intros gid g. rewrite (proj1 Hs), El. intros Hg HP. by eapply (t_pin P st Htw f r t gid g Ht).
  - by eapply (relisted_same P st _ f r t t').
  - split; [done|]. apply (recounts_carries P r _ _ _ Hst). left.
    unfold liveOf. by rewrite lookup_fmap, (proj2 Ht), El.
Qed.

Lemma findOrCreateTrack_spec P st f :
  wf P st →
  ∃ st' r t, findOrCreateTrack f st = Some (st', r) ∧ wf P st' ∧ carries P st st' ∧ cachedT st' f r t.
Proof.
  intros Hwf. unfold findOrCreateTrack. destruct (cache_ st !! f) as [r|] eqn:Ef.
  { destruct (g_track P st (wf_g _ _ Hwf) f r Ef) as [t Ht]. exists st, r, t.
    split; [done|]. split; [done|]. split; [apply carries_refl|done]. }
  unfold emplaceTrack. set (r := nextRef st). unfold addTrackToLRU. cbn. rewrite lookup_insert_eq.
  cbn. eexists _, r, _. split; [done|].
  match goal with |- wf P ?s ∧ _ => set (st' := s) end.
  set (t' := set_trackLruIter (Some (r + 1)) newTrack).
  destruct (wf_newTrack P st st' f r t') as (Hwf' & Hst & Ht'); try done.
  - cbn. by rewrite insert_insert_eq.
  - cbn. unfold r. lia.
  - eapply (relisted_add P st st' f t' (r + 1)); try done; [by eapply not_listed|cbn; unfold r; lia].
  - split; [done|]. split; [|exact Ht']. apply (recounts_carries P r _ _ _ Hst). right.
    split; [|done]. unfold liveOf. rewrite lookup_fmap. destruct (tracks st !! r) eqn:E; [|done].
    pose proof (g_fresh_track P st (wf_g _ _ Hwf) r ltac:(eauto)). unfold r in *. lia.
Qed.

Lemma setTrackExtensions_spec P st f e :
  wf P st → ∃ st', setTrackExtensions f e st = Some st' ∧ wf P st' ∧ carries P st st'.
Proof.
  intros Hwf. unfold setTrackExtensions.
  assert (∃ st1, match getEffectiveCacheDuration e st with
                 | Some dur => setMaxCacheDuration f dur st
                 | None => clearMaxCacheDuration f st
                 end = Some st1 ∧ wf P st1 ∧ carries P st st1) as (st1 & -> & Hwf1 & Hc1).
  { destruct (getEffectiveCacheDuration e st) as [d|].
    - unfold setMaxCacheDuration.
      destruct (findOrCreateTrack_spec P st f Hwf) as (st1 & r & t & -> & Hwf1 & Hc1 & Ht).
      cbn [mbind option_bind]. rewrite (proj2 Ht). cbn [mbind option_bind]. eexists. split; [done|].
      destruct (set_field P st1 f r t (set_duration (Some d) t)) as [? ?]; try done.
      split; [done|]. by eapply carries_trans.
    - unfold clearMaxCacheDuration. destruct (cache_ st !! f) as [r|] eqn:Ef.
      + destruct (g_track P st (wf_g _ _ Hwf) f r Ef) as [t Ht]. rewrite Ht. cbn [mbind option_bind].
        eexists. split; [done|]. by apply (set_field P st f r t).
      + exists st. split; [done|]. split; [done|apply carries_refl]. }
  cbn [mbind option_bind].
  destruct (findOrCreateTrack_spec P st1 f Hwf1) as (st2 & r & t & -> & Hwf2 & Hc2 & Ht).
  cbn [mbind option_bind]. rewrite (proj2 Ht). cbn [mbind option_bind]. eexists. split; [done|].
  destruct (set_field P st2 f r t (set_extensions e t)) as [? ?]; try done.
  split; [done|]. eapply carries_trans; [exact Hc1|]. by eapply carries_trans.
Qed.

(** ** Purging *)

(** Every pinned group is in a cached track that is not in [names]. *)
Definition owned P (names : list FullTrackName) st : Prop :=
  ∀ g, g ∈ P → ∃ f r t gid, cachedT st f r t ∧ groups t !! gid = Some g ∧ f ∉ names.

Lemma owned_unpinned P names st f r t gid g :
  gwf P st → owned P names st → f ∈ names → cachedT st f r t → groups t !! gid = Some g → g ∉ P.
Proof.
  intros Hg Ho Hf Ht Hgid HP. destruct (Ho g HP) as (f' & r' & t' & gid' & Ht' & Hg' & Hne).
  destruct (g_ginj P st Hg f r t gid f' r' t' gid' g Ht Hgid Ht' Hg') as [-> _]. done.
Qed.

Lemma owned_carries P names st st' : owned P names st → carries P st st' → owned P names st'.
Proof.
  intros Ho Hc g HP. destruct (Ho g HP) as (f & r & t & gid & Ht & Hg & Hf).
  destruct (c_stays _ _ _ Hc f r t gid g Ht Hg HP) as (t' & Ht' & Hg'). by exists f, r, t', gid.
Qed.

Lemma purge_spec P st f :
  wf P st → owned P [f] st →
  ∃ st' n, evictTrack f st = Some (st', n) ∧ wf P st' ∧ carries P st st' ∧
    cache_ st' = delete f (cache_ st) ∧ (n = if decide (is_Some (cache_ st !! f)) then 1 else 0).
Proof.
  intros Hwf Ho. destruct (cache_ st !! f) as [r|] eqn:Ef.
  - destruct (g_track P st (wf_g _ _ Hwf) f r Ef) as [t Ht].
    assert (HP : ∀ r t gid g, cachedT st f r t → groups t !! gid = Some g → g ∉ P).
    { intros r' t' gid g. apply (owned_unpinned P [f] st f); [apply (wf_g _ _ Hwf)|done|by left]. }
    destruct (evictTrack_spec P st f r t Hwf (conj Ef Ht)) as (st' & E & Hwf' & Hc & Hk & _).
    { intros gid g Hg. by apply (HP r t gid g). }
    exists st', 1. do 2 (split; [done|]). split; [|split; [done|by rewrite decide_True by eauto]].
    apply (keeps_carries P {[ f ]}); [done| |done].
    intros f' r' t' gid g Ht' Hg Hin ->%elem_of_singleton. by apply (HP r' t' gid g).
  - exists st, 0. unfold evictTrack. rewrite Ef. do 2 (split; [done|]).
    split; [apply carries_refl|]. split; [by rewrite delete_id|].
    rewrite decide_False; [done|]. by intros [? ?].
Qed.

Lemma evictTracks_spec P names st :
  wf P st → owned P names st →
  ∃ st' n, evictTracks names st = Some (st', n) ∧ wf P st' ∧ carries P st st' ∧
    ∀ f r, cache_ st' !! f = Some r ↔ cache_ st !! f = Some r ∧ f ∉ names.
Proof.
  revert st. induction names as [|f names IH]; intros st Hwf Ho.
  { exists st, 0. do 2 (split; [done|]). split; [apply carries_refl|]. intros f r.
    split; [|by intros [? _]]. intros ?. split; [done|]. apply not_elem_of_nil. }
  destruct (purge_spec P st f Hwf) as (st1 & n & E & Hwf1 & Hc1 & Hdel & _).
  { intros g HP. destruct (Ho g HP) as (f' & r & t & gid & Ht & Hg & Hne).
    exists f', r, t, gid. split; [done|]. split; [done|]. set_solver. }
  cbn [evictTracks]. rewrite E. cbn [mbind option_bind].
  destruct (IH st1 Hwf1) as (st2 & m & -> & Hwf2 & Hc2 & Hgone).
  { intros g HP. destruct (owned_carries _ _ _ _ Ho Hc1 g HP) as (f' & r & t & gid & Ht & Hg & Hne).
    exists f', r, t, gid. split; [done|]. split; [done|]. set_solver. }
  cbn [mbind option_bind]. eexists st2, _. do 2 (split; [done|]).
  split; [by eapply carries_trans|]. intros f' r. rewrite Hgone, Hdel, lookup_delete_Some.
  rewrite not_elem_of_cons. naive_solver.
Qed.

(** ** Limits *)

Lemma wf_limits P st a b c d :
  wf P st → 0 <= a → 0 <= b → 0 <= c → 0 <= d →
  wf P (with_limits a b c d st) ∧ carries P st (with_limits a b c d st).
Proof.
  intros [Hg Ht Hc _ Hp] Ha Hb Hcc Hd. split.
  - constructor; [destruct Hg; by constructor|destruct Ht; by constructor|done|by split_and!|done].
  - constructor; try done; [intros f r t; eauto|by left|intros f r t; eauto|by left].
Qed.

Lemma wf_durations P st d a :
  wf P st → wf P (with_durations d a st) ∧ carries P st (with_durations d a st).
Proof.
  intros [Hg Ht Hc Hl Hp]. split.
  - constructor; [destruct Hg; by constructor|destruct Ht; by constructor|done|done|done].
  - constructor; try done; [intros f r t; eauto|by left|intros f r t; eauto|by left].
Qed.

Lemma setMaxCachedBytes_spec P st maxBytes :
  wf P st → 0 <= maxBytes →
  ∃ st', setMaxCachedBytes maxBytes st = Some st' ∧ wf P st' ∧ carries P st st'.
Proof.
  intros Hwf Hm. pose proof (wf_l _ _ Hwf) as (? & ? & ? & ?). unfold setMaxCachedBytes.
  destruct (wf_limits P st (maxCachedTracks_ st) (maxCachedGroupsPerTrack_ st) maxBytes
              (minEvictionBytes_ st)) as [Hwf1 Hc1]; try done.
  destruct (evictForByteLimitIfNeeded_spec P _ Hwf1) as (st' & b & -> & Hwf' & Hk & _).
  exists st'. split; [done|]. split; [done|]. eapply carries_trans; [done|by apply idle_carries].
Qed.

(** The list of tracks gets shorter with every track evicted from it. *)
Lemma lru_shorter P st st' f n :
  wf P st → wf P st' → (n, f) ∈ trackLRU_ st →
  (∀ n f', (n, f') ∈ trackLRU_ st' ↔ (n, f') ∈ trackLRU_ st ∧ f' ≠ f) →
  (length (trackLRU_ st') < length (trackLRU_ st))%nat.
Proof.
  intros Hwf Hwf' Hin Hl.
  assert (NoDup (trackLRU_ st')) as Hnd
    by (eapply NoDup_fmap_1, (t_nodup P st' (wf_t _ _ Hwf'))).
  assert ((n, f) :: trackLRU_ st' ⊆+ trackLRU_ st) as Hsub.
  { apply NoDup_submseteq.
    - apply NoDup_cons. split; [|done]. rewrite Hl. tauto.
    - intros [n' f'] [[= -> ->]|[? _]%Hl]%elem_of_cons; done. }
  apply submseteq_length in Hsub. cbn in Hsub. lia.
Qed.

Lemma evictTracksDown_spec P fuel st :
  wf P st → (length (trackLRU_ st) <= fuel)%nat →
  ∃ st', evictTracksDown fuel st = Some st' ∧ wf P st' ∧ carries P st st' ∧
    (maxCachedTracks_ st = 0 ∨ cacheSize st' <= maxCachedTracks_ st ∨ trackLRU_ st' = []).
Proof.
  revert st. induction fuel as [|fuel IH]; intros st Hwf Hfuel; cbn [evictTracksDown];
    destruct (wf_l _ _ Hwf) as (Hpos & _);
    destruct ((0 <? maxCachedTracks_ st) && (maxCachedTracks_ st <? cacheSize st)) eqn:E; cbn [andb].
  - case_bool_decide as El; [|destruct (trackLRU_ st); [done|cbn in Hfuel; lia]].
    exists st. do 2 (split; [done|]). split; [apply carries_refl|by auto].
  - exists st. do 2 (split; [done|]). split; [apply carries_refl|]. lia.
  - case_bool_decide as El; cbn [negb].
    { exists st. do 2 (split; [done|]). split; [apply carries_refl|by auto]. }
    destruct (evictOldestTrackIfNeeded_spec P st Hwf) as (st1 & b & -> & Hwf1 & Hk & Hcase & Hne).
    cbn [mbind option_bind].
    destruct Hcase as [->|(f & n & Hin & Hc & Hl)]; [by destruct Hne; [lia|lia|done|]|].
    pose proof (lru_shorter P st st1 f n Hwf Hwf1 Hin Hl).
    destruct (IH st1 Hwf1 ltac:(lia)) as (st' & -> & Hwf' & Hcar & Hend).
    exists st'. do 2 (split; [done|]). split; [eapply carries_trans; [by apply idle_carries|done]|].
    pose proof (k_config _ _ _ _ Hk) as Ec. injection Ec as Ec _ _ _ _ _. by rewrite <-Ec.
  - exists st. do 2 (split; [done|]). split; [apply carries_refl|]. lia.
Qed.

Lemma setMaxCachedTracks_spec P st maxTracks :
  wf P st → 0 <= maxTracks →
  ∃ st', setMaxCachedTracks maxTracks st = Some st' ∧ wf P st' ∧ carries P st st' ∧
    (maxTracks = 0 ∨ cacheSize st' <= maxTracks ∨ trackLRU_ st' = []).
Proof.
  intros Hwf Hm. pose proof (wf_l _ _ Hwf) as (? & ? & ? & ?). unfold setMaxCachedTracks.
  destruct (wf_limits P st maxTracks (maxCachedGroupsPerTrack_ st) (maxCachedBytes_ st)
              (minEvictionBytes_ st)) as [Hwf1 Hc1]; try done.
  destruct (evictTracksDown_spec P (S (length (trackLRU_ st))) _ Hwf1) as (st' & -> & Hwf' & Hc' & Hend).
  { cbn. lia. }
  exists st'. split; [done|]. split; [done|]. split; [by eapply carries_trans|done].
Qed.

Lemma evictGroupsOfTracks_spec P refs st :
  wf P st → (∀ r, r ∈ refs → ∃ f, cache_ st !! f = Some r) →
  ∃ st', evictGroupsOfTracks refs st = Some st' ∧ wf P st' ∧ carries P st st'.
Proof.
  revert st. induction refs as [|r refs IH]; intros st Hwf Hrefs; cbn [evictGroupsOfTracks].
  { exists st. do 2 (split; [done|]). apply carries_refl. }
  destruct (Hrefs r) as [f Hf]; [by left|].
  destruct (g_track P st (wf_g _ _ Hwf) f r Hf) as [t Ht].
  destruct (evictOldestGroupsIfNeeded_spec P f r st t Hwf (conj Hf Ht))
    as (st1 & t1 & -> & Hwf1 & Hk & _ & Hc & _). cbn [mbind option_bind].
  destruct (IH st1 Hwf1) as (st' & -> & Hwf' & Hcar).
  { intros r' Hr'. rewrite Hc. apply Hrefs. by right. }
  exists st'. do 2 (split; [done|]). eapply carries_trans; [by apply idle_carries|done].
Qed.

Lemma setMaxCachedGroupsPerTrack_spec P st maxGroups :
  wf P st → 0 <= maxGroups →
  ∃ st', setMaxCachedGroupsPerTrack maxGroups st = Some st' ∧ wf P st' ∧ carries P st st'.
Proof.
  intros Hwf Hm. pose proof (wf_l _ _ Hwf) as (? & ? & ? & ?). unfold setMaxCachedGroupsPerTrack.
  destruct (wf_limits P st (maxCachedTracks_ st) maxGroups (maxCachedBytes_ st)
              (minEvictionBytes_ st)) as [Hwf1 Hc1]; try done.
  destruct (maxGroups <? maxCachedGroupsPerTrack_ st); [|by eexists].
  destruct (evictGroupsOfTracks_spec P (map_to_list (cache_ st)).*2 _ Hwf1) as (st' & -> & Hwf' & Hc').
  { intros r ([f r'] & -> & Hin%elem_of_map_to_list)%list_elem_of_fmap. by exists f. }
  exists st'. split; [done|]. split; [done|]. by eapply carries_trans.
Qed.

End Writebacks.
