(* ===== verification/CacheSystem.v ===== *)
(** * The object cache in use

    The cache together with the writebacks that subscriptions hold.  A
    [SubscribeWriteback] and a [SubgroupWriteback] are objects that callers
    destroy when they like, so their order of destruction is part of a
    sequence of operations.  [admissible] is the discipline under which the
    code is safe: one open subgroup of a group at a time, no purge of a track
    with an open subgroup, the subgroups of a track ended before its last
    subscription, and writes that fit in the 64-bit account.  The protocol and
    the code accept more; [CacheExamples] shows what then fails.  Fetches in
    progress are not operations here. *)

From S2P Require Import Prelude Locations CacheRanges CacheStore CacheInvariant CacheOperations.
From S2P Require Import CacheWrites CacheWritebacks.

Section System.
Context `{LocationLaws} {IS : Type} `{IntervalOps IS} `{!IntervalLaws IS}
        {Extensions : Type} `{!ExtensionOps Extensions} `{!ExtensionLaws}
        {FullTrackName : Type} `{Countable FullTrackName}.

Notation cache := (MoqxCache (IS:=IS) (Extensions:=Extensions) (FullTrackName:=FullTrackName)).
Notation ctrack := (CacheTrack (IS:=IS) (Extensions:=Extensions)).
Notation cgroup := (CacheGroup (Extensions:=Extensions)).
Notation sub := (SubscribeWriteback (FullTrackName:=FullTrackName)).
Notation sgw := (SubgroupWriteback (FullTrackName:=FullTrackName)).
Implicit Types (st : cache) (f : FullTrackName) (P : gset Z) (t : ctrack)
  (subs : gmap Z sub) (sgs : gmap Z sgw).

(** ** Operations *)

Record System := mkSystem {
  sys_cache : cache;
  sys_subs : gmap Z sub;
  sys_sgs : gmap Z sgw;
  sys_next : Z;
}.

Inductive Op :=
| OSubscribe (f : FullTrackName)
| OUnsubscribe (i : Z)
| OBeginSubgroup (i groupID sg : Z) (answer : Expected PublishError unit)
| OObject (j objID : Z) (p : Payload) (e : Extensions) (fin : bool) (now : Z)
| OBeginObject (j objID len : Z) (p : Payload) (e : Extensions) (now : Z)
| OObjectPayload (j : Z) (bytes : list Z) (fin : bool)
| OEndOfGroup (j objID now : Z)
| OEndOfTrackAndGroup (j objID now : Z)
| OCloseSubgroup (j : Z)
| OObjectStream (i : Z) (h : ObjectHeader (Extensions:=Extensions)) (p : Payload) (now : Z)
| ODatagram (i : Z) (h : ObjectHeader (Extensions:=Extensions)) (p : Payload) (now : Z)
| OLookup (f : FullTrackName) (loc : AbsoluteLocation) (now : Z)
| OPurge (f : FullTrackName)
| OPurgeNamespace (inNamespace : FullTrackName → bool)
| OPurgeAll
| OSetTrackExtensions (f : FullTrackName) (e : Extensions)
| OSetMaxCachedTracks (n : Z)
| OSetMaxCachedBytes (n : Z)
| OSetMinEvictionBytes (n : Z)
| OSetMaxCachedGroupsPerTrack (n : Z)
| OSetDefaultMaxCacheDuration (d : option Z)
| OSetMaxAllowedCacheDuration (d : option Z).

Definition with_store (st : cache) (y : System) : System :=
  mkSystem st (sys_subs y) (sys_sgs y) (sys_next y).
Definition with_sg (j : Z) (w : sgw) (st : cache) (y : System) : System :=
  mkSystem st (sys_subs y) (<[j := w]> (sys_sgs y)) (sys_next y).

(** An operation on a writeback that does not exist is no operation. *)
Definition onSg (j : Z) (y : System) (k : sgw → option System) : option System :=
  match sys_sgs y !! j with Some w => k w | None => Some y end.
Definition onSub (i : Z) (y : System) (k : sub → option System) : option System :=
  match sys_subs y !! i with Some w => k w | None => Some y end.

Definition stepStore {A} (y : System) (m : option (cache * A)) : option System :=
  '(st, _) ← m; Some (with_store st y).

Definition sysStep (o : Op) (y : System) : option System :=
  let st := sys_cache y in
  match o with
  | OSubscribe f =>
      '(st', w) ← getSubscribeWriteback f st;
      Some (mkSystem st' (<[sys_next y := w]> (sys_subs y)) (sys_sgs y) (sys_next y + 1))
  | OUnsubscribe i => onSub i y (λ w,
      st' ← closeSubscribe w st;
      Some (mkSystem st' (delete i (sys_subs y)) (sys_sgs y) (sys_next y)))
  | OBeginSubgroup i groupID sg answer => onSub i y (λ w,
      '(st', res) ← beginSubgroup w groupID sg answer st;
      match res with
      | SubgroupCached s =>
          Some (mkSystem st' (sys_subs y) (<[sys_next y := s]> (sys_sgs y)) (sys_next y + 1))
      | _ => Some (with_store st' y)
      end)
  | OObject j objID p e fin now => onSg j y (λ w, stepStore y (sgObject w objID p e fin now st))
  | OBeginObject j objID len p e now => onSg j y (λ w,
      '(st', w', _) ← sgBeginObject w objID len p e now st; Some (with_sg j w' st' y))
  | OObjectPayload j bytes fin => onSg j y (λ w,
      '(st', w', _) ← sgObjectPayload w bytes fin st; Some (with_sg j w' st' y))
  | OEndOfGroup j objID now => onSg j y (λ w, stepStore y (sgEndOfGroup w objID now st))
  | OEndOfTrackAndGroup j objID now =>
      onSg j y (λ w, stepStore y (sgEndOfTrackAndGroup w objID now st))
  | OCloseSubgroup j => onSg j y (λ w,
      st' ← closeSubgroup w st;
      Some (mkSystem st' (sys_subs y) (delete j (sys_sgs y)) (sys_next y)))
  | OObjectStream i h p now => onSub i y (λ w, stepStore y (cacheObjectStream w h p now st))
  | ODatagram i h p now => onSub i y (λ w, stepStore y (cacheDatagram w h p now st))
  | OLookup f loc now => stepStore y (hasCachedObject f loc now st)
  | OPurge f => stepStore y (purge f st)
  | OPurgeNamespace inNamespace => stepStore y (purgeNamespace inNamespace st)
  | OPurgeAll => stepStore y (purgeAll st)
  | OSetTrackExtensions f e => st' ← setTrackExtensions f e st; Some (with_store st' y)
  | OSetMaxCachedTracks n => st' ← setMaxCachedTracks n st; Some (with_store st' y)
  | OSetMaxCachedBytes n => st' ← setMaxCachedBytes n st; Some (with_store st' y)
  | OSetMinEvictionBytes n => Some (with_store (setMinEvictionBytes n st) y)
  | OSetMaxCachedGroupsPerTrack n =>
      st' ← setMaxCachedGroupsPerTrack n st; Some (with_store st' y)
  | OSetDefaultMaxCacheDuration d => Some (with_store (setDefaultMaxCacheDuration d st) y)
  | OSetMaxAllowedCacheDuration d => Some (with_store (setMaxAllowedCacheDuration d st) y)
  end.

Fixpoint sysRun (ops : list Op) (y : System) : option System :=
  match ops with
  | [] => Some y
  | o :: rest => y' ← sysStep o y; sysRun rest y'
  end.

Definition newSystem (maxTracks maxGroups maxBytes minEviction : Z) : System :=
  mkSystem (newCache maxTracks maxGroups maxBytes minEviction) ∅ ∅ 0.

(** ** The discipline *)

(** The number of subscribe writebacks of a track. *)
Definition subsOf subs (r : Z) : Z := msum (λ _ w, if track_ w =? r then 1 else 0) subs.

(** A write of [p] fits in the 64-bit byte account. *)
Definition fits (p : Payload) st : Prop := totalCachedBytes_ st + payloadLength p < u64_modulus.

Definition admissible (o : Op) (y : System) : Prop :=
  let st := sys_cache y in
  match o with
  | OUnsubscribe i => ∀ w, sys_subs y !! i = Some w →
      (* the last writeback of a track outlives the subgroups of the track *)
      1 < subsOf (sys_subs y) (track_ w) ∨
      ∀ j s, sys_sgs y !! j = Some s → cacheTrack_ s ≠ track_ w
  | OBeginSubgroup i groupID _ _ => ∀ w, sys_subs y !! i = Some w →
      0 <= groupID <= group kLocationMax ∧
      (* one subgroup at a time in a group *)
      ∀ j s, sys_sgs y !! j = Some s → cacheTrack_ s = track_ w → group_ s ≠ groupID
  | OObject j objID p _ _ _ => ∀ w, sys_sgs y !! j = Some w →
      valid_loc (mkLoc (group_ w) objID) ∧ fits p st
  | OBeginObject j objID len p _ _ => ∀ w, sys_sgs y !! j = Some w →
      valid_loc (mkLoc (group_ w) objID) ∧ fits p st ∧ payloadLength p <= len
  | OObjectPayload j bytes _ => ∀ w, sys_sgs y !! j = Some w →
      fits (Some bytes) st ∧ computeChainDataLength bytes <= currentLength_ w ∧
      (* the object that beginObject stored is still there *)
      ∃ grp, groupHeap st !! cacheGroup_ w = Some grp ∧ is_Some (objects grp !! currentObject_ w)
  | OEndOfGroup j objID _ | OEndOfTrackAndGroup j objID _ => ∀ w, sys_sgs y !! j = Some w →
      valid_loc (mkLoc (group_ w) objID)
  | OObjectStream _ h p _ | ODatagram _ h p _ =>
      valid_loc (mkLoc (h_group h) (h_id h)) ∧ fits p st
  | OLookup f loc _ => valid_loc loc ∧
      ∀ r t d, cachedT st f r t → effectiveDuration t st = Some d → is_Some (toNanoseconds d)
  (* a purged track has no open subgroup *)
  | OPurge f => ∀ j s, sys_sgs y !! j = Some s → sg_ftn_ s ≠ f
  | OPurgeNamespace inNamespace =>
      ∀ j s, sys_sgs y !! j = Some s → inNamespace (sg_ftn_ s) = false
  | OPurgeAll => sys_sgs y = ∅
  | OSetMaxCachedTracks n | OSetMaxCachedBytes n | OSetMinEvictionBytes n
  | OSetMaxCachedGroupsPerTrack n => 0 <= n
  | _ => True
  end.

Fixpoint admissibleRun (ops : list Op) (y : System) : Prop :=
  match ops with
  | [] => True
  | o :: rest => admissible o y ∧ ∀ y', sysStep o y = Some y' → admissibleRun rest y'
  end.

(** ** The invariant *)

Definition pins sgs : gset Z := map_img (cacheGroup_ <$> sgs).

(** The writebacks of subscriptions: live counts are exact, and the track of a
    writeback is cached under its name or marked as evicted. *)
Record subinv st subs : Prop := {
  s_live r k : liveOf st !! r = Some k → k = subsOf subs r;
  s_subs i w : subs !! i = Some w →
    ∃ t, tracks st !! track_ w = Some t ∧
         (evicted t = true ∨ cache_ st !! ftn_ w = Some (track_ w));
  s_names i w f : subs !! i = Some w → cache_ st !! f = Some (track_ w) → f = ftn_ w;
}.

(** The open subgroups: each pins a cached group of its own. *)
Record sysinv st subs sgs (next : Z) : Prop := {
  s_wf : wf (pins sgs) st;
  s_inj j j' w w' : sgs !! j = Some w → sgs !! j' = Some w' → cacheGroup_ w = cacheGroup_ w' →
    j = j';
  s_open j w : sgs !! j = Some w →
    ∃ t, cachedT st (sg_ftn_ w) (cacheTrack_ w) t ∧ groups t !! group_ w = Some (cacheGroup_ w);
  s_sub : subinv st subs;
  s_ids i : is_Some (subs !! i) ∨ is_Some (sgs !! i) → i < next;
}.

Definition sysOk (y : System) : Prop :=
  sysinv (sys_cache y) (sys_subs y) (sys_sgs y) (sys_next y).

Lemma elem_of_pins sgs g : g ∈ pins sgs ↔ ∃ j w, sgs !! j = Some w ∧ g = cacheGroup_ w.
Proof.
  unfold pins. rewrite elem_of_map_img. split.
  - intros [j Hj]. rewrite lookup_fmap, fmap_Some in Hj. naive_solver.
  - intros (j & w & Hj & ->). exists j. by rewrite lookup_fmap, Hj.
Qed.

Lemma subsOf_none st subs r : subinv st subs → tracks st !! r = None → subsOf subs r = 0.
Proof.
  intros Hy Hr. unfold subsOf. rewrite (msum_ext _ (λ _ _, 0)).
  - clear. induction subs as [|i w m Hi IH] using map_ind; [done|]. by rewrite msum_insert.
  - intros i w Hi. destruct (s_subs _ _ Hy i w Hi) as (t & Ht & _).
    destruct (Z.eqb_spec (track_ w) r); [congruence|done].
Qed.

Lemma subinv_carries P P' st st' subs :
  wf P st → subinv st subs → carries P' st st' → subinv st' subs.
Proof.
  intros Hwf Hy Hc. constructor.
  - intros r k Hk. destruct (c_lives _ _ _ Hc r) as [E|[E E']].
    + rewrite E in Hk. by apply (s_live _ _ Hy).
    + assert (k = 0) as -> by congruence. symmetry. apply (subsOf_none st); [done|].
      unfold liveOf in E. by rewrite lookup_fmap, fmap_None in E.
  - intros i w Hi. destruct (s_subs _ _ Hy i w Hi) as (t & Ht & Hh).
    by apply (c_home _ _ _ Hc _ _ t).
  - intros i w f Hi Hf. destruct (c_names _ _ _ Hc f _ Hf) as [Hf'|Hge].
    + by apply (s_names _ _ Hy i w f).
    + destruct (s_subs _ _ Hy i w Hi) as (t & Ht & _).
      pose proof (g_fresh_track _ _ (wf_g _ _ Hwf) (track_ w) ltac:(eauto)). lia.
Qed.

Lemma open_stays st st' subs sgs n j w :
  sysinv st subs sgs n → stays (pins sgs) st st' → sgs !! j = Some w →
  ∃ t, cachedT st' (sg_ftn_ w) (cacheTrack_ w) t ∧ groups t !! group_ w = Some (cacheGroup_ w).
Proof.
  intros Hy Hs Hj. destruct (s_open _ _ _ _ Hy j w Hj) as (t & Ht & Hg).
  apply (Hs _ _ t); [done..|]. apply elem_of_pins. eauto.
Qed.

(** An operation that moves no writeback keeps the invariant. *)
Lemma sysinv_carries st st' subs sgs n :
  sysinv st subs sgs n → wf (pins sgs) st' → carries (pins sgs) st st' → sysinv st' subs sgs n.
Proof.
  intros Hy Hwf Hc. constructor; [done|apply (s_inj _ _ _ _ Hy)| | |apply (s_ids _ _ _ _ Hy)].
  - intros j w. eapply open_stays; [done|apply Hc].
  - eapply subinv_carries; [apply Hy..|done].
Qed.

(** ** Single operations *)

Lemma updateLargest_fields (l : AbsoluteLocation) eot t :
  same_groups t (updateLargest l eot t).1 ∧ same_track t (updateLargest l eot t).1 ∧
  same_content t (updateLargest l eot t).1.
Proof. unfold updateLargest. by repeat case_match. Qed.

Lemma fits_None P st : wf P st → fits None st.
Proof. intros Hwf. pose proof (g_range _ _ (wf_g _ _ Hwf)) as Hr. unfold fits, is_u64 in *. cbn. lia. Qed.

(** What a write leaves in its group: the stored entry, or, when it is
    rejected, the objects and the byte account as they were. *)
Definition left_behind st st' g objID (en : option (CacheEntry (Extensions:=Extensions)) →
    CacheEntry (Extensions:=Extensions)) (out : Outcome (Extensions:=Extensions)) : Prop :=
  ∃ grp grp', groupHeap st !! g = Some grp ∧ groupHeap st' = <[g := grp']> (groupHeap st) ∧
    match out with
    | Forward _ => objects grp' = <[objID := en (objects grp !! objID)]> (objects grp)
    | Reject _ _ => objects grp' = objects grp ∧ totalBytes grp' = totalBytes grp ∧
                    totalCachedBytes_ st' = totalCachedBytes_ st
    end.

Lemma left_behind_same st st' g grp objID en calls err :
  groupHeap st !! g = Some grp → groupHeap st' = groupHeap st →
  totalCachedBytes_ st' = totalCachedBytes_ st → left_behind st st' g objID en (Reject calls err).
Proof. intros Hg Hh Hb. exists grp, grp. split; [done|]. by rewrite insert_id. Qed.

Lemma writeThrough_spec P w objID s eot e p c now k st t :
  wf P st → cachedT st (sg_ftn_ w) (cacheTrack_ w) t →
  groups t !! group_ w = Some (cacheGroup_ w) →
  valid_loc (mkLoc (group_ w) objID) → fits p st →
  ∃ st' out, writeThrough w objID s eot e p c now k st = Some (st', out) ∧ wf P st' ∧
    carries P st st' ∧
    (shouldSkipCaching t = false →
     left_behind st st' (cacheGroup_ w) objID (λ old, storedEntry old (subgroup_ w) s e p c false now) out).
Proof.
  intros Hwf Hc Hg Hv Hf. unfold writeThrough. rewrite (proj2 Hc). cbn [mbind option_bind].
  destruct (g_heap _ _ (wf_g _ _ Hwf) _ _ _ _ _ Hc Hg) as [grp Hgrp].
  destruct (shouldSkipCaching t).
  { eexists _, _. do 2 (split; [done|]). by split; [apply carries_refl|]. }
  pose proof (updateLargest_fields (mkLoc (group_ w) objID) eot t) as (Hs1 & Hs2 & Hs3).
  destruct (updateLargest _ eot t) as [t' [|err]]; cbn in Hs1, Hs2, Hs3;
    [|eauto 8 using carries_refl, left_behind_same].
  destruct (set_field P st _ _ t t' Hwf Hc Hs1 Hs2 Hs3) as [Hwf1 Hc1].
  destruct (cacheObjectAndUpdateBytes_spec P (put_track (cacheTrack_ w) t' st) (sg_ftn_ w)
    (cacheTrack_ w) t' (group_ w) (cacheGroup_ w) grp objID (subgroup_ w) s e p c false now)
    as (st2 & res & t2 & grp2 & E & Hwf2 & Hc2 & Hh2 & Hw & Hb2); [done| |done..|].
  - split; [|by rewrite (proj1 Hs1)]. split; [apply Hc|apply lookup_insert_eq].
  - rewrite E. cbn [mbind option_bind]. pose proof (w_res _ _ _ _ _ _ _ _ _ _ _ _ _ _ Hw) as Hres.
    destruct res as [u|err]; eexists st2, _; (split; [done|]); (split; [done|]);
      (split; [by eapply carries_trans|]); intros _; exists grp, grp2; (split; [done|]);
      (split; [done|]); [apply Hres|]. destruct Hres as (_ & Ho & Ht). by rewrite (Hb2 err).
Qed.

Lemma writeHeader_spec P dg w h p now k st t :
  wf P st → tracks st !! track_ w = Some t →
  evicted t = true ∨ cache_ st !! ftn_ w = Some (track_ w) →
  valid_loc (mkLoc (h_group h) (h_id h)) → fits p st →
  ∃ st' out, writeHeader dg w h p now k st = Some (st', out) ∧ wf P st' ∧ carries P st st'.
Proof.
  intros Hwf Ht Hh Hv Hf. unfold writeHeader. rewrite Ht. cbn [mbind option_bind].
  destruct (shouldSkipCaching t) eqn:Hskip. { eauto using carries_refl. }
  assert (cachedT st (ftn_ w) (track_ w) t) as Hc.
  { destruct Hh as [Hev|]; [|done]. unfold shouldSkipCaching in Hskip. by rewrite Hev in Hskip. }
  pose proof (updateLargest_fields (mkLoc (h_group h) (h_id h)) (isEndOfTrack (h_status h)) t)
    as (Hs1 & Hs2 & Hs3).
  destruct (updateLargest _ _ t) as [t' [|err]]; cbn in Hs1, Hs2, Hs3; [|eauto using carries_refl].
  destruct (set_field P st _ _ t t' Hwf Hc Hs1 Hs2 Hs3) as [Hwf1 Hc1].
  destruct (getOrCreateGroupWithEviction_spec P _ (ftn_ w) (track_ w) t' (h_group h) Hwf1)
    as (st2 & t2 & g & grp & E & Hwf2 & Hc2 & HG & _ & _ & Hb & _).
  { split; [apply Hc|apply lookup_insert_eq]. }
  { apply Hv. }
  rewrite E. cbn [mbind option_bind].
  destruct (cacheObjectAndUpdateBytes_spec P st2 (ftn_ w) (track_ w) t2 (h_group h) g grp (h_id h)
    (h_subgroup h) (h_status h) (h_extensions h) p true dg now)
    as (st3 & res & t3 & grp3 & E3 & Hwf3 & Hc3 & _); [done..| |].
  - unfold fits in Hf. cbn in Hb. lia.
  - rewrite E3. cbn [mbind option_bind]. destruct res; eauto 8 using carries_trans.
Qed.

(** *** Subgroups *)

Lemma sub_live subs i w : subs !! i = Some w → 0 < subsOf subs (track_ w).
Proof.
  intros Hi. unfold subsOf.
  enough (1 <= msum (λ _ w', if track_ w' =? track_ w then 1 else 0) subs) by lia.
  etrans; [|apply (msum_elem_le _ _ i w); [|done]].
  - cbn. by rewrite Z.eqb_refl.
  - intros. case_match; lia.
Qed.

Lemma live_subs st subs r t : subinv st subs → tracks st !! r = Some t →
  liveWritebackCount t = subsOf subs r.
Proof. intros Hy Ht. apply (s_live _ _ Hy). unfold liveOf. by rewrite lookup_fmap, Ht. Qed.

Lemma beginSubgroup_spec st subs sgs n i w gid sg answer :
  sysinv st subs sgs n → subs !! i = Some w → 0 <= gid <= group kLocationMax →
  (∀ j s, sgs !! j = Some s → cacheTrack_ s = track_ w → group_ s ≠ gid) →
  ∃ st' res, beginSubgroup w gid sg answer st = Some (st', res) ∧
    carries (pins sgs) st st' ∧
    match res with
    | SubgroupCached s => wf ({[ cacheGroup_ s ]} ∪ pins sgs) st' ∧ cacheGroup_ s ∉ pins sgs ∧
        ∃ t', cachedT st' (sg_ftn_ s) (cacheTrack_ s) t' ∧ groups t' !! group_ s = Some (cacheGroup_ s)
    | _ => wf (pins sgs) st'
    end.
Proof.
  intros Hy Hi Hgid Hone. pose proof (s_wf _ _ _ _ Hy) as Hwf.
  destruct (s_subs _ _ (s_sub _ _ _ _ Hy) i w Hi) as (t & Ht & Hh). unfold beginSubgroup. rewrite Ht.
  cbn [mbind option_bind]. destruct (isGroupNonExistent (gaps t) gid).
  { eexists _, _. split; [done|]. by split; [apply carries_refl|]. }
  destruct answer as [[]|err]; [|eexists _, _; split; [done|]; by split; [apply carries_refl|]].
  destruct (shouldSkipCaching t) eqn:Hskip.
  { eexists _, _. split; [done|]. by split; [apply carries_refl|]. }
  assert (cachedT st (ftn_ w) (track_ w) t) as Hc.
  { destruct Hh as [Hev|]; [|done]. unfold shouldSkipCaching in Hskip. by rewrite Hev in Hskip. }
  destruct (getOrCreateGroupWithEviction_spec _ st (ftn_ w) (track_ w) t gid Hwf Hc Hgid)
    as (st1 & t1 & g & grp & -> & Hwf1 & Hc1 & HG & (_ & Hl & _) & Hg & _ & _).
  cbn [mbind option_bind].
  assert (g ∉ pins sgs) as HP.
  { destruct Hg as [Hg|]; [|done]. intros (j & s & Hj & ->)%elem_of_pins.
    destruct (s_open _ _ _ _ Hy j s Hj) as (t0 & Ht0 & Hg0).
    destruct (g_ginj _ _ (wf_g _ _ Hwf) _ _ _ _ _ _ _ _ _ Ht0 Hg0 Hc Hg) as [E1 E2].
    destruct Ht0 as [Hf0 _], Hc as [Hf _]. apply (Hone j s Hj); [congruence|done]. }
  unfold newSubgroupWriteback.
  destruct (pin_spec _ st1 (ftn_ w) (track_ w) t1 gid g grp Hwf1 HG HP)
    as (st2 & -> & Hwf2 & Hc2 & t2 & Ht2 & Hg2).
  { rewrite Hl, (live_subs _ _ _ _ (s_sub _ _ _ _ Hy) Ht). by eapply sub_live. }
  cbn [mbind option_bind]. eexists _, _. split; [done|].
  split; [by eapply carries_trans|]. cbn. split; [done|]. split; [done|].
  exists t2. split; [done|]. rewrite Hg2. apply HG.
Qed.

Lemma pins_insert sgs j (s : sgw) : sgs !! j = None → pins (<[j := s]> sgs) = {[ cacheGroup_ s ]} ∪ pins sgs.
Proof.
  intros Hj. apply set_eq. intros g. rewrite elem_of_union, elem_of_singleton, !elem_of_pins. split.
  - intros (j' & w & [[<- <-]|[_ ?]]%lookup_insert_Some & ->); eauto.
  - intros [->|(j' & w & Hj' & ->)]; [exists j, s; by rewrite lookup_insert_eq|].
    exists j', w. rewrite lookup_insert_ne; [done|congruence].
Qed.

Lemma pins_delete st subs sgs n j w : sysinv st subs sgs n → sgs !! j = Some w →
  pins (delete j sgs) = pins sgs ∖ {[ cacheGroup_ w ]}.
Proof.
  intros Hy Hj. apply set_eq. intros g. rewrite elem_of_difference, elem_of_singleton, !elem_of_pins. split.
  - intros (j' & w' & [Hne Hj']%lookup_delete_Some & ->). split; [eauto|].
    intros E. by apply Hne, (s_inj _ _ _ _ Hy j j' w w' Hj Hj').
  - intros ((j' & w' & Hj' & ->) & Hne). exists j', w'. split; [|done].
    apply lookup_delete_Some. split; [|done]. intros <-. apply Hne. congruence.
Qed.

Lemma sysinv_begin st st' subs sgs n (s : sgw) :
  sysinv st subs sgs n → carries (pins sgs) st st' → wf ({[ cacheGroup_ s ]} ∪ pins sgs) st' →
  cacheGroup_ s ∉ pins sgs →
  (∃ t', cachedT st' (sg_ftn_ s) (cacheTrack_ s) t' ∧ groups t' !! group_ s = Some (cacheGroup_ s)) →
  sysinv st' subs (<[n := s]> sgs) (n + 1).
Proof.
  intros Hy Hc Hwf HP Hs.
  assert (sgs !! n = None) as Hn.
  { apply eq_None_not_Some. intros Hn. pose proof (s_ids _ _ _ _ Hy n ltac:(by right)). lia. }
  assert (Hpin : ∀ j w, sgs !! j = Some w → cacheGroup_ w ∈ pins sgs) by (intros; apply elem_of_pins; eauto).
  constructor.
  - by rewrite pins_insert.
  - intros j j' w w' [[<- <-]|[? Hj]]%lookup_insert_Some [[<- <-]|[? Hj']]%lookup_insert_Some E;
      [done| | |by apply (s_inj _ _ _ _ Hy j j' w w')].
    + destruct HP. rewrite E. eauto.
    + destruct HP. rewrite <-E. eauto.
  - intros j w [[<- <-]|[? Hj]]%lookup_insert_Some; [done|].
    by eapply open_stays; [|apply Hc|].
  - eapply subinv_carries; [apply Hy..|done].
  - intros i [Hi|[w [[<- _]|[_ Hi]]%lookup_insert_Some]]; [|lia|];
      pose proof (s_ids _ _ _ _ Hy i); [|assert (is_Some (sgs !! i)) by eauto]; intuition lia.
Qed.

Lemma sysinv_close st subs sgs n j w :
  sysinv st subs sgs n → sgs !! j = Some w →
  ∃ st', closeSubgroup w st = Some st' ∧ sysinv st' subs (delete j sgs) n.
Proof.
  intros Hy Hj. destruct (s_open _ _ _ _ Hy j w Hj) as (t & Ht & Hg).
  destruct (g_heap _ _ (wf_g _ _ (s_wf _ _ _ _ Hy)) _ _ _ _ _ Ht Hg) as [grp Hgrp].
  destruct (unpin_spec (pins sgs) st (sg_ftn_ w) (cacheTrack_ w) t (group_ w) (cacheGroup_ w) grp)
    as (st' & E & Hwf & Hc); [apply Hy|done|apply elem_of_pins; eauto|].
  exists st'. split; [done|]. constructor.
  - by rewrite (pins_delete _ _ _ _ _ _ Hy Hj).
  - intros j1 j2 w1 w2 [_ ?]%lookup_delete_Some [_ ?]%lookup_delete_Some. by eapply (s_inj _ _ _ _ Hy).
  - intros j' w' [_ Hj']%lookup_delete_Some. by eapply open_stays; [|apply Hc|].
  - eapply subinv_carries; [apply Hy..|done].
  - intros i Hi. apply (s_ids _ _ _ _ Hy). rewrite lookup_delete_is_Some in Hi. tauto.
Qed.

(** A subgroup writeback moves on in its object. *)
Lemma sysinv_sg st subs sgs n j w w' :
  sysinv st subs sgs n → sgs !! j = Some w →
  sg_ftn_ w' = sg_ftn_ w → cacheTrack_ w' = cacheTrack_ w → cacheGroup_ w' = cacheGroup_ w →
  group_ w' = group_ w → sysinv st subs (<[j := w']> sgs) n.
Proof.
  intros Hy Hj E1 E2 E3 E4.
  assert (Hold : ∀ j1 w1, <[j := w']> sgs !! j1 = Some w1 → ∃ w0, sgs !! j1 = Some w0 ∧
    sg_ftn_ w1 = sg_ftn_ w0 ∧ cacheTrack_ w1 = cacheTrack_ w0 ∧ cacheGroup_ w1 = cacheGroup_ w0 ∧
    group_ w1 = group_ w0).
  { intros j1 w1 [[<- <-]|[_ ?]]%lookup_insert_Some; eauto 6. }
  assert (pins (<[j := w']> sgs) = pins sgs) as EP.
  { unfold pins. rewrite fmap_insert, insert_id; [done|]. by rewrite lookup_fmap, Hj, E3. }
  constructor.
  - rewrite EP. apply Hy.
  - intros j1 j2 w1 w2 Hj1 Hj2 E. destruct (Hold _ _ Hj1) as (w1' & ? & ? & ? & ? & ?).
    destruct (Hold _ _ Hj2) as (w2' & ? & ? & ? & ? & ?). apply (s_inj _ _ _ _ Hy j1 j2 w1' w2'); congruence.
  - intros j1 w1 Hj1. destruct (Hold _ _ Hj1) as (w0 & Hw0 & -> & -> & -> & ->). by eapply (s_open _ _ _ _ Hy).
  - apply Hy.
  - intros i Hi. apply (s_ids _ _ _ _ Hy). destruct Hi as [|[w1 Hw1]]; [by left|right].
    destruct (Hold _ _ Hw1) as (w0 & ? & _). eauto.
Qed.

(** *** Subscriptions *)

Lemma subsOf_insert subs i (w : sub) r : subs !! i = None →
  subsOf (<[i := w]> subs) r = subsOf subs r + (if track_ w =? r then 1 else 0).
Proof. intros Hi. unfold subsOf. rewrite msum_insert by done. lia. Qed.

Lemma subsOf_delete subs i (w : sub) r : subs !! i = Some w →
  subsOf (delete i subs) r = subsOf subs r - (if track_ w =? r then 1 else 0).
Proof. intros Hi. unfold subsOf. by rewrite (msum_delete _ _ i w Hi). Qed.

(** The track [r] gains or loses a writeback. *)
Lemma subinv_recounts P P' st st' subs subs' r k :
  wf P st → subinv st subs → recounts P' r k st st' →
  (∀ r', subsOf subs' r' = if r =? r' then k else subsOf subs r') →
  (∀ i w, subs' !! i = Some w → subs !! i = Some w ∨
     track_ w = r ∧ cache_ st' !! ftn_ w = Some r ∧ ∀ f, cache_ st' !! f = Some r → f = ftn_ w) →
  subinv st' subs'.
Proof.
  intros Hwf Hy Hc Hk Hs. pose proof (wf_g _ _ Hwf) as Hg. constructor.
  - intros r' k' Hk'. rewrite (rc_live _ _ _ _ _ Hc) in Hk'. rewrite Hk.
    apply lookup_insert_Some in Hk' as [[<- <-]|[Hne Hk']]; [by rewrite Z.eqb_refl|].
    destruct (Z.eqb_spec r r'); [done|]. by apply (s_live _ _ Hy).
  - intros i w Hi. destruct (Hs i w Hi) as [Hi'|(<- & Hf & _)].
    + destruct (s_subs _ _ Hy i w Hi') as (t & Ht & Hh). by apply (rc_home _ _ _ _ _ Hc _ _ t).
    + assert (is_Some (liveOf st' !! track_ w)) as [l Hl]
        by (rewrite (rc_live _ _ _ _ _ Hc), lookup_insert_eq; eauto).
      unfold liveOf in Hl. rewrite lookup_fmap, fmap_Some in Hl. destruct Hl as (t & Ht & _). eauto.
  - intros i w f Hi Hf. destruct (Hs i w Hi) as [Hi'|(<- & _ & Hn)]; [|eauto].
    destruct (rc_names _ _ _ _ _ Hc f _ Hf) as [Hf'|Hge]; [by apply (s_names _ _ Hy i w f)|].
    destruct (s_subs _ _ Hy i w Hi') as (t & Ht & _).
    pose proof (g_fresh_track _ _ Hg (track_ w) ltac:(eauto)). lia.
Qed.

Lemma sysinv_recounts st st' subs subs' sgs n n' r k :
  sysinv st subs sgs n → wf (pins sgs) st' → recounts (pins sgs) r k st st' →
  subinv st' subs' → n <= n' → (∀ i, is_Some (subs' !! i) → is_Some (subs !! i) ∨ i < n') →
  sysinv st' subs' sgs n'.
Proof.
  intros Hy Hwf Hc Hsub Hn Hids. constructor; [done|apply (s_inj _ _ _ _ Hy)| |done|].
  - intros j w. eapply open_stays; [done|apply Hc].
  - intros i [Hi|Hi].
    + destruct (Hids i Hi) as [Hi'|]; [|done]. pose proof (s_ids _ _ _ _ Hy i). intuition lia.
    + pose proof (s_ids _ _ _ _ Hy i). intuition lia.
Qed.

Lemma sysinv_subscribe st subs sgs n f :
  sysinv st subs sgs n →
  ∃ st' w, getSubscribeWriteback f st = Some (st', w) ∧ sysinv st' (<[n := w]> subs) sgs (n + 1).
Proof.
  intros Hy. destruct (getSubscribeWriteback_spec (pins sgs) st f) as
    (st1 & st' & r & E & Hwf1 & Hc1 & Hwf' & Hc & t' & Ht' & _); [apply Hy|].
  exists st', (mkSubscribe r f). split; [done|].
  pose proof (sysinv_carries _ _ _ _ _ Hy Hwf1 Hc1) as Hy1.
  assert (subs !! n = None) as Hn.
  { apply eq_None_not_Some. intros Hn. pose proof (s_ids _ _ _ _ Hy n ltac:(by left)). lia. }
  apply (sysinv_recounts st1 st' subs _ sgs n (n + 1) r _ Hy1 Hwf' Hc); [|lia|].
  - apply (subinv_recounts _ _ st1 st' subs _ r _ Hwf1 (s_sub _ _ _ _ Hy1) Hc).
    + intros r'. rewrite subsOf_insert by done. cbn. destruct (Z.eqb_spec r r') as [<-|]; [|lia].
      f_equal. destruct (liveOf st1 !! r) as [k|] eqn:Ek; cbn.
      * symmetry. by apply (s_live _ _ (s_sub _ _ _ _ Hy1)).
      * apply (subsOf_none st1); [apply Hy1|]. unfold liveOf in Ek. by rewrite lookup_fmap, fmap_None in Ek.
    + intros i w [[<- <-]|[_ ?]]%lookup_insert_Some; [right|by left]. cbn. split; [done|].
      split; [apply Ht'|]. intros f' Hf'. by apply (g_inj _ _ (wf_g _ _ Hwf') f' f r Hf'), Ht'.
  - intros i [w [[<- _]|[_ ?]]%lookup_insert_Some]; [right; lia|left; eauto].
Qed.

Lemma sysinv_unsubscribe st subs sgs n i w :
  sysinv st subs sgs n → subs !! i = Some w →
  1 < subsOf subs (track_ w) ∨ (∀ j s, sgs !! j = Some s → cacheTrack_ s ≠ track_ w) →
  ∃ st', closeSubscribe w st = Some st' ∧ sysinv st' (delete i subs) sgs n.
Proof.
  intros Hy Hi Hlast. pose proof (s_sub _ _ _ _ Hy) as Hsub. pose proof (s_wf _ _ _ _ Hy) as Hwf.
  destruct (s_subs _ _ Hsub i w Hi) as (t & Ht & Hh).
  pose proof (live_subs _ _ _ _ Hsub Ht) as El. pose proof (sub_live _ _ _ Hi) as Hpos.
  destruct (closeSubscribe_spec (pins sgs) st w t) as (st' & E & Hwf' & Hc); [done|done|lia| | |].
  - intros f. by eapply (s_names _ _ Hsub).
  - intros E1 Hf gid g Hg (j & s & Hj & ->)%elem_of_pins.
    destruct Hlast as [|Hno]; [lia|]. apply (Hno j s Hj).
    destruct (s_open _ _ _ _ Hy j s Hj) as (t0 & Ht0 & Hg0).
    destruct (g_ginj _ _ (wf_g _ _ Hwf) _ _ _ _ _ _ _ _ _ Ht0 Hg0 (conj Hf Ht) Hg) as [E2 _].
    destruct Ht0 as [Hf0 _]. congruence.
  - exists st'. split; [done|]. rewrite El in Hc.
    apply (sysinv_recounts st st' subs _ sgs n n (track_ w) _ Hy Hwf' Hc); [|lia|].
    + apply (subinv_recounts _ _ st st' subs _ (track_ w) _ Hwf Hsub Hc).
      * intros r'. rewrite (subsOf_delete _ i w) by done. destruct (Z.eqb_spec (track_ w) r') as [<-|]; lia.
      * intros i' w' [_ ?]%lookup_delete_Some. by left.
    + intros i' [w' [_ ?]%lookup_delete_Some]. left. eauto.
Qed.

(** *** Steps *)

Lemma writeThrough_ok P w objID s eot e p c now k st t :
  wf P st → cachedT st (sg_ftn_ w) (cacheTrack_ w) t →
  groups t !! group_ w = Some (cacheGroup_ w) →
  valid_loc (mkLoc (group_ w) objID) → fits p st →
  ∃ st' out, writeThrough w objID s eot e p c now k st = Some (st', out) ∧ wf P st' ∧
    carries P st st'.
Proof.
  intros Hwf Ht Hg Hv Hf.
  destruct (writeThrough_spec P w objID s eot e p c now k st t) as (? & ? & ? & ? & ? & _); eauto.
Qed.


Lemma sys_owned y (names : list FullTrackName) : sysOk y →
  (∀ j s, sys_sgs y !! j = Some s → sg_ftn_ s ∉ names) →
  owned (pins (sys_sgs y)) names (sys_cache y).
Proof.
  intros Hy Hn g (j & s & Hj & ->)%elem_of_pins. destruct (s_open _ _ _ _ Hy j s Hj) as (t & Ht & Hg).
  eauto 10.
Qed.

Lemma step_carries y st' : sysOk y → wf (pins (sys_sgs y)) st' →
  carries (pins (sys_sgs y)) (sys_cache y) st' → sysOk (with_store st' y).
Proof. apply sysinv_carries. Qed.

Lemma step_store {A} y (m : option (cache * A)) : sysOk y →
  (∃ st' a, m = Some (st', a) ∧ wf (pins (sys_sgs y)) st' ∧
     carries (pins (sys_sgs y)) (sys_cache y) st') →
  ∃ y', stepStore y m = Some y' ∧ sysOk y'.
Proof.
  intros Hy (st' & a & -> & Hwf & Hc). unfold stepStore. cbn [mbind option_bind].
  eauto using step_carries.
Qed.

Lemma step_plain y (m : option cache) : sysOk y →
  (∃ st', m = Some st' ∧ wf (pins (sys_sgs y)) st' ∧
     carries (pins (sys_sgs y)) (sys_cache y) st') →
  ∃ y', (st' ← m; Some (with_store st' y)) = Some y' ∧ sysOk y'.
Proof. intros Hy (st' & -> & Hwf & Hc). cbn [mbind option_bind]. eauto using step_carries. Qed.

Lemma onSg_ok j y k : sysOk y →
  (∀ w t, sys_sgs y !! j = Some w →
     cachedT (sys_cache y) (sg_ftn_ w) (cacheTrack_ w) t → groups t !! group_ w = Some (cacheGroup_ w) →
     ∃ y', k w = Some y' ∧ sysOk y') →
  ∃ y', onSg j y k = Some y' ∧ sysOk y'.
Proof.
  intros Hy Hk. unfold onSg. destruct (sys_sgs y !! j) as [w|] eqn:Hj; [|eauto].
  destruct (s_open _ _ _ _ Hy j w Hj) as (t & Ht & Hg). by apply (Hk w t).
Qed.

Lemma onSub_ok i y k : sysOk y →
  (∀ w t, sys_subs y !! i = Some w → tracks (sys_cache y) !! track_ w = Some t →
     evicted t = true ∨ cache_ (sys_cache y) !! ftn_ w = Some (track_ w) →
     ∃ y', k w = Some y' ∧ sysOk y') →
  ∃ y', onSub i y k = Some y' ∧ sysOk y'.
Proof.
  intros Hy Hk. unfold onSub. destruct (sys_subs y !! i) as [w|] eqn:Hi; [|eauto].
  destruct (s_subs _ _ (s_sub _ _ _ _ Hy) i w Hi) as (t & Ht & Hg). by apply (Hk w t).
Qed.

Lemma sgBeginObject_spec P w objID len p e now st t :
  wf P st → cachedT st (sg_ftn_ w) (cacheTrack_ w) t →
  groups t !! group_ w = Some (cacheGroup_ w) →
  valid_loc (mkLoc (group_ w) objID) → fits p st → payloadLength p <= len →
  ∃ st' w' out, sgBeginObject w objID len p e now st = Some (st', w', out) ∧ wf P st' ∧
    carries P st st' ∧ sg_ftn_ w' = sg_ftn_ w ∧ cacheTrack_ w' = cacheTrack_ w ∧
    cacheGroup_ w' = cacheGroup_ w ∧ group_ w' = group_ w.
Proof.
  intros Hwf Hc Hg Hv Hf Hlen. unfold sgBeginObject. rewrite (proj2 Hc). cbn [mbind option_bind].
  destruct (writeThrough_spec P w objID NORMAL false e p false now (CallBeginObject objID len p e) st t)
    as (st' & out & -> & Hwf' & Hc' & _); [done..|]. cbn [mbind option_bind].
  destruct (shouldSkipCaching t); [by eexists _, _, _|].
  destruct out; [|by eexists _, _, _]. destruct (Z.ltb_spec len (payloadLength p)); [lia|].
  by eexists _, _, _.
Qed.

Lemma step_sg y j w (m : option (cache * sgw * Outcome (Extensions:=Extensions))) : sysOk y → sys_sgs y !! j = Some w →
  (∃ st' w' out, m = Some (st', w', out) ∧ wf (pins (sys_sgs y)) st' ∧
    carries (pins (sys_sgs y)) (sys_cache y) st' ∧
    sg_ftn_ w' = sg_ftn_ w ∧ cacheTrack_ w' = cacheTrack_ w ∧ cacheGroup_ w' = cacheGroup_ w ∧
    group_ w' = group_ w) →
  ∃ y', ('(st', w', _) ← m; Some (with_sg j w' st' y)) = Some y' ∧ sysOk y'.
Proof.
  intros Hy Hj (st' & w' & out & -> & Hwf & Hc & E1 & E2 & E3 & E4). cbn [mbind option_bind].
  eexists. split; [done|]. eapply (sysinv_sg st'); [|done..]. by eapply sysinv_carries.
Qed.

Lemma step_payload y j w t bytes fin :
  sysOk y → sys_sgs y !! j = Some w → admissible (OObjectPayload j bytes fin) y →
  cachedT (sys_cache y) (sg_ftn_ w) (cacheTrack_ w) t → groups t !! group_ w = Some (cacheGroup_ w) →
  ∃ y', ('(st', w', _) ← sgObjectPayload w bytes fin (sys_cache y); Some (with_sg j w' st' y)) = Some y' ∧
    sysOk y'.
Proof.
  intros Hy Hj Ha Ht Hg. destruct (Ha w Hj) as (Hf & Hlen & grp & Hgrp & [entry He]).
  pose proof (s_wf _ _ _ _ Hy) as Hwf.
  apply (step_sg y j w _ Hy Hj). apply (sgObjectPayload_spec _ w _ t grp entry); try done.
  destruct (wf_c _ _ Hwf _ _ _ Ht) as (_ & Hob & _). by eapply Hob.
Qed.

Lemma step_purge y names : sysOk y → (∀ j s, sys_sgs y !! j = Some s → sg_ftn_ s ∉ names) →
  ∃ st' n, evictTracks names (sys_cache y) = Some (st', n) ∧ wf (pins (sys_sgs y)) st' ∧
    carries (pins (sys_sgs y)) (sys_cache y) st'.
Proof.
  intros Hy Hn. destruct (evictTracks_spec (pins (sys_sgs y)) names (sys_cache y))
    as (st' & n & ? & ? & ? & _); [apply Hy|by apply sys_owned|eauto].
Qed.

Lemma sysStep_lookup y f loc now : sysOk y → admissible (OLookup f loc now) y →
  ∃ y', sysStep (OLookup f loc now) y = Some y' ∧ sysOk y'.
Proof.
  intros Hy [Hv Hd]. pose proof (s_wf _ _ _ _ Hy) as Hwf. cbn. apply step_store; [done|].
  unfold hasCachedObject. destruct (cache_ _ !! f) as [r|] eqn:Hf; [|eauto using carries_refl].
  destruct (g_track _ _ (wf_g _ _ Hwf) f r Hf) as [t Ht].
  destruct (getCachedObjectMaybe_spec _ _ f r t loc now Hwf (conj Hf Ht) Hv) as (st' & res & -> & ? & ?).
  { intros d. by apply (Hd r). }
  cbn [mbind option_bind]. eauto.
Qed.

Lemma sysStep_begin y i gid sg answer : sysOk y → admissible (OBeginSubgroup i gid sg answer) y →
  ∃ y', sysStep (OBeginSubgroup i gid sg answer) y = Some y' ∧ sysOk y'.
Proof.
  intros Hy Ha. cbn. apply onSub_ok; [done|]. intros w t Hi _ _. destruct (Ha w Hi) as [Hgid Hone].
  destruct (beginSubgroup_spec _ _ _ _ i w gid sg answer Hy Hi Hgid Hone)
    as (st' & res & -> & Hc & Hres). cbn [mbind option_bind].
  destruct res; [eauto using step_carries..|]. destruct Hres as (Hwf & HP & Ho).
  eexists. split; [done|]. by apply (sysinv_begin (sys_cache y)).
Qed.

Lemma sysStep_ok o y : sysOk y → admissible o y → ∃ y', sysStep o y = Some y' ∧ sysOk y'.
Proof.
  intros Hy Ha. pose proof (s_wf _ _ _ _ Hy) as Hwf. destruct o; cbn in Ha.
  - cbn. destruct (sysinv_subscribe _ _ _ _ f Hy) as (st' & w & -> & Hy'). cbn [mbind option_bind]. eauto.
  - cbn. apply onSub_ok; [done|]. intros w t Hi _ _.
    destruct (sysinv_unsubscribe _ _ _ _ i w Hy Hi (Ha w Hi)) as (st' & -> & Hy').
    cbn [mbind option_bind]. eauto.
  - by apply sysStep_begin.
  - cbn. apply onSg_ok; [done|]. intros w t Hj Ht Hg. destruct (Ha w Hj). apply step_store; [done|].
    by apply (writeThrough_ok _ w _ _ _ _ _ _ _ _ _ t).
  - cbn. apply onSg_ok; [done|]. intros w t Hj Ht Hg. destruct (Ha w Hj) as (? & ? & ?).
    apply (step_sg y j w _ Hy Hj). by apply (sgBeginObject_spec _ w _ _ _ _ _ _ t).
  - cbn. apply onSg_ok; [done|]. intros w t Hj Ht Hg. by apply (step_payload y j w t).
  - cbn. apply onSg_ok; [done|]. intros w t Hj Ht Hg. apply step_store; [done|].
    apply (writeThrough_ok _ w _ _ _ _ _ _ _ _ _ t); eauto using fits_None.
  - cbn. apply onSg_ok; [done|]. intros w t Hj Ht Hg. apply step_store; [done|].
    apply (writeThrough_ok _ w _ _ _ _ _ _ _ _ _ t); eauto using fits_None.
  - cbn. apply onSg_ok; [done|]. intros w t Hj _ _.
    destruct (sysinv_close _ _ _ _ j w Hy Hj) as (st' & -> & Hy'). cbn [mbind option_bind]. eauto.
  - cbn. apply onSub_ok; [done|]. intros w t Hi Ht Hh. apply step_store; [done|].
    by apply (writeHeader_spec _ _ w _ _ _ _ _ t Hwf Ht Hh); apply Ha.
  - cbn. apply onSub_ok; [done|]. intros w t Hi Ht Hh. apply step_store; [done|].
    by apply (writeHeader_spec _ _ w _ _ _ _ _ t Hwf Ht Hh); apply Ha.
  - by apply sysStep_lookup.
  - cbn. apply step_store; [done|].
    destruct (purge_spec (pins (sys_sgs y)) (sys_cache y) f) as (st' & n & ? & ? & ? & _);
      [done| |eauto]. apply sys_owned; [done|]. intros j s Hj. pose proof (Ha j s Hj). set_solver.
  - cbn. apply step_store; [done|]. apply step_purge; [done|].
    intros j s Hj [E _]%list_elem_of_filter. by rewrite (Ha j s Hj) in E.
  - cbn. apply step_store; [done|]. unfold purgeAll.
    destruct (step_purge y (cachedNames (sys_cache y)) Hy) as (st' & n & -> & ? & ?).
    { intros j s. by rewrite Ha, lookup_empty. }
    cbn [mbind option_bind]. eauto.
  - cbn. apply step_plain; [done|]. by apply setTrackExtensions_spec.
  - cbn. apply step_plain; [done|].
    destruct (setMaxCachedTracks_spec _ _ n Hwf Ha) as (st' & ? & ? & ? & _). eauto.
  - cbn. apply step_plain; [done|]. by apply setMaxCachedBytes_spec.
  - cbn. eexists. split; [done|]. destruct (wf_l _ _ Hwf) as (? & ? & ? & ?).
    apply step_carries; [done|..]; by apply wf_limits.
  - cbn. apply step_plain; [done|]. by apply setMaxCachedGroupsPerTrack_spec.
  - cbn. eexists. split; [done|]. apply step_carries; [done|..]; by apply wf_durations.
  - cbn. eexists. split; [done|]. apply step_carries; [done|..]; by apply wf_durations.
Qed.

(** ** Reachable states *)

Inductive reachable : System → Prop :=
| reach_new maxTracks maxGroups maxBytes minEviction :
    0 <= maxTracks → 0 <= maxGroups → 0 <= maxBytes → 0 <= minEviction →
    reachable (newSystem maxTracks maxGroups maxBytes minEviction)
| reach_step y o y' :
    reachable y → admissible o y → sysStep o y = Some y' → reachable y'.

Lemma new_ok a b c d : 0 <= a → 0 <= b → 0 <= c → 0 <= d → sysOk (newSystem a b c d).
Proof.
  intros. assert (Hno : ∀ f r t, ¬ cachedT (newCache a b c d : cache) f r t).
  { intros f r t [Hf _]. cbn in Hf. by rewrite lookup_empty in Hf. }
  constructor; cbn.
  - constructor; [constructor|constructor| |done|]; cbn;
      try (intros * Hc; destruct (Hno _ _ _ Hc)); try (intros * (Hc & _); destruct (Hno _ _ _ Hc)).
    all: rewrite ?lookup_empty; try done; try (intros *; by rewrite lookup_empty); try apply NoDup_nil_2.
    all: try by intros *; rewrite elem_of_nil.
    all: try by intros ? []%elem_of_nil.
    + intros n f gid. rewrite elem_of_nil. split; [done|]. by intros (? & ? & ? & ? & (Hc & _) & _); destruct (Hno _ _ _ Hc).
    + intros n f. rewrite elem_of_nil. split; [done|]. by intros (? & ? & Hc & _); destruct (Hno _ _ _ Hc).
    + intros f r t Hc. destruct (Hno _ _ _ Hc).
  - intros j j' w w' Hj. by rewrite lookup_empty in Hj.
  - intros j w Hj. by rewrite lookup_empty in Hj.
  - constructor.
    + intros r k Hk. unfold liveOf in Hk. cbn in Hk. by rewrite fmap_empty, lookup_empty in Hk.
    + intros i w Hi. by rewrite lookup_empty in Hi.
    + intros i w f Hi. by rewrite lookup_empty in Hi.
  - intros i [[? Hi]|[? Hi]]; by rewrite lookup_empty in Hi.
Qed.

Lemma reachable_ok y : reachable y → sysOk y.
Proof.
  induction 1 as [|y o y' Hr IH Ha E]; [by apply new_ok|].
  destruct (sysStep_ok o y IH Ha) as (y1 & E1 & Hy1). congruence.
Qed.
#[local] Hint Resolve reachable_ok : moqx.

(** The maps of the cache own their tracks and groups. *)
Lemma reachable_owns y f r : reachable y → cache_ (sys_cache y) !! f = Some r →
  ∃ t, tracks (sys_cache y) !! r = Some t ∧
    ∀ gid g, groups t !! gid = Some g → is_Some (groupHeap (sys_cache y) !! g).
Proof.
  intros Hr%reachable_ok Hf. pose proof (wf_g _ _ (s_wf _ _ _ _ Hr)) as Hg.
  destruct (g_track _ _ Hg f r Hf) as [t Ht]. exists t. split; [done|].
  intros gid g. by apply (g_heap _ _ Hg f r t gid g).
Qed.

(** ** The byte account and the lists *)

(** The payload bytes that are in the cache. *)
Definition cachedPayload st : Z :=
  msum (λ _ r, match tracks st !! r with
               | Some t => msum (λ _ g, match groupHeap st !! g with
                                        | Some grp => objectBytes grp | None => 0 end) (groups t)
               | None => 0
               end) (cache_ st).

Lemma storeBytes_payload P st : gwf P st → storeBytes st = cachedPayload st.
Proof.
  intros Hg. apply msum_ext. intros f r Hf. unfold trackBytes.
  destruct (tracks st !! r) as [t|] eqn:Ht; [|done]. apply msum_ext. intros gid g Hgid.
  unfold groupBytes. destruct (groupHeap st !! g) as [grp|] eqn:Hgrp; [|done].
  by apply (g_bytes P st Hg f r t gid g grp).
Qed.

Lemma subsOf_zero subs r : subsOf subs r = 0 ↔ ∀ i w, subs !! i = Some w → track_ w ≠ r.
Proof.
  split.
  - intros E i w Hi <-. pose proof (sub_live _ _ _ Hi). lia.
  - intros Hno. unfold subsOf. rewrite (msum_ext _ (λ _ _, 0)).
    + clear. induction subs as [|i w m Hi IH] using map_ind; [done|]. by rewrite msum_insert.
    + intros i w Hi. pose proof (Hno i w Hi). by destruct (Z.eqb_spec (track_ w) r).
Qed.

Lemma global_listed P st f gid : gwf P st →
  (∃ n, (n, (f, gid)) ∈ globalGroupLRU_ st) ↔
  ∃ r t g, cachedT st f r t ∧ groups t !! gid = Some g ∧ g ∉ P.
Proof.
  intros Hg. split.
  - intros (n & (r & t & g & grp & HG & Hi)%(g_global P st Hg)). exists r, t, g.
    destruct (g_pin P st Hg _ _ _ _ _ _ HG) as [_ Hp]. destruct HG as (? & ? & _).
    do 2 (split; [done|]). rewrite <-Hp. congruence.
  - intros (r & t & g & Ht & Hgid & HP). destruct (g_heap P st Hg _ _ _ _ _ Ht Hgid) as [grp Hgrp].
    assert (cachedG st f r t gid g grp) as HG by done.
    destruct (g_pin P st Hg _ _ _ _ _ _ HG) as [_ Hp].
    destruct (globalLruIter_ grp) as [n|] eqn:En; [|by destruct HP; apply Hp].
    exists n. apply (g_global P st Hg). eauto 10.
Qed.

Lemma track_listed st subs sgs n f : sysinv st subs sgs n →
  (∃ n, (n, f) ∈ trackLRU_ st) ↔
  ∃ r t, cachedT st f r t ∧ subsOf subs r = 0.
Proof.
  intros Hy. pose proof (wf_t _ _ (s_wf _ _ _ _ Hy)) as Htw.
  assert (Hev : ∀ r t, cachedT st f r t → canEvict t = true ↔ subsOf subs r = 0).
  { intros r t Ht. unfold canEvict. rewrite (live_subs _ _ _ _ (s_sub _ _ _ _ Hy) (proj2 Ht)).
    rewrite (t_fetches _ _ Htw f r t Ht), andb_true_iff, bool_decide_eq_true, Z.eqb_eq. tauto. }
  split.
  - intros (m & (r & t & Ht & Hi)%(t_lru _ _ Htw)). exists r, t. split; [done|].
    apply (Hev r t Ht), (t_evictable _ _ Htw f r t Ht); eauto.
  - intros (r & t & Ht & He). destruct (proj2 (t_evictable _ _ Htw f r t Ht)) as [m Hm].
    { by apply (Hev r t Ht). } exists m. apply (t_lru _ _ Htw). eauto.
Qed.

(** ** Theorems *)


(** C2: In every state that admissible operations reach, the byte account is the
    number of payload bytes in the cache and a 64-bit value.  Admissible
    operations open at most one subgroup of a group at a time, purge no track
    with an open subgroup, end the subgroups of a track before its last
    subscription, and write no more than fits in the 64-bit account;
    [shared_group_leaks] shows that two open subgroups of one group break the
    account. *)
Theorem cache_bytes_exact y :
  reachable y →
  totalCachedBytes_ (sys_cache y) = cachedPayload (sys_cache y) ∧
  is_u64 (cachedPayload (sys_cache y)).
Proof.
  intros Hr%reachable_ok. pose proof (wf_g _ _ (s_wf _ _ _ _ Hr)) as Hg.
  rewrite <-(storeBytes_payload _ _ Hg), <-(g_total _ _ Hg). split; [done|apply (g_range _ _ Hg)].
Qed.

(** C21: In every state that admissible operations reach (at most one open
    subgroup of a group at a time), the global group list names exactly the
    cached groups without an open subgroup, and the track list exactly the
    cached tracks without a subscription.  The operations are those of
    subscriptions: none of them registers a fetch. *)
Theorem cache_lists_exact y f gid :
  reachable y →
  let st := sys_cache y in
  ((∃ n, (n, (f, gid)) ∈ globalGroupLRU_ st) ↔
   ∃ r t g, cachedT st f r t ∧ groups t !! gid = Some g ∧
     ∀ j s, sys_sgs y !! j = Some s → cacheGroup_ s ≠ g) ∧
  ((∃ n, (n, f) ∈ trackLRU_ st) ↔
   ∃ r t, cachedT st f r t ∧
     ∀ i w, sys_subs y !! i = Some w → track_ w ≠ r).
Proof.
  intros Hr%reachable_ok st. pose proof (wf_g _ _ (s_wf _ _ _ _ Hr)) as Hg. split.
  - unfold st. rewrite (global_listed _ _ f gid Hg).
    assert (Hp : ∀ g, g ∉ pins (sys_sgs y) ↔ ∀ j s, sys_sgs y !! j = Some s → cacheGroup_ s ≠ g).
    { intros g. rewrite elem_of_pins. naive_solver. }
    by setoid_rewrite Hp.
  - unfold st. rewrite (track_listed _ _ _ _ f Hr). by setoid_rewrite subsOf_zero.
Qed.

(** C22: Eviction for the byte limit ends.  A cache within its limit (or
    without one) is left as it is.  Above the limit exactly the last groups of
    the least-recently-used list go, as many as it takes: their bytes are given
    back, every other group keeps its payload, the loop stops at the target
    (limit less the eviction batch, not below zero) or when every group left is
    being written, and without the last eviction the target would not have been
    reached.  The result says whether the cache is within its limit. *)
Theorem byte_limit_eviction y :
  reachable y →
  let st := sys_cache y in
  let target := Z.max 0 (maxCachedBytes_ st - minEvictionBytes_ st) in
  ∃ st' b gone, evictForByteLimitIfNeeded st = Some (st', b) ∧
    (maxCachedBytes_ st = 0 ∨ totalCachedBytes_ st <= maxCachedBytes_ st →
     st' = st ∧ b = true ∧ gone = []) ∧
    globalGroupLRU_ st = globalGroupLRU_ st' ++ gone ∧
    totalCachedBytes_ st' = totalCachedBytes_ st - foldr (λ x n, groupPayload st x + n) 0 gone.*2 ∧
    (∀ x, groupPayload st' x = if decide (x ∈ gone.*2) then 0 else groupPayload st x) ∧
    (0 < maxCachedBytes_ st < totalCachedBytes_ st →
     (totalCachedBytes_ st' <= target ∨ globalGroupLRU_ st' = []) ∧
     (∀ n x rest, gone = (n, x) :: rest → target < totalCachedBytes_ st' + groupPayload st x) ∧
     (b = true ↔ totalCachedBytes_ st' <= maxCachedBytes_ st)) ∧
    totalCachedBytes_ st' = cachedPayload st'.
Proof.
  intros Hr%reachable_ok st target. pose proof (s_wf _ _ _ _ Hr) as Hwf. fold st in Hwf.
  unfold evictForByteLimitIfNeeded. destruct (wf_l _ _ Hwf) as (_ & _ & Hm & He).
  assert (targetBytes st = target) as Etar by (unfold targetBytes, target; zcases; lia).
  destruct (orb _ _) eqn:E.
  - exists st, true, []. destruct (evicts_nothing st) as (? & ? & ? & _).
    do 5 (split; [done|]). split; [lia|].
    rewrite <-(storeBytes_payload _ _ (wf_g _ _ Hwf)). apply (g_total _ _ (wf_g _ _ Hwf)).
  - destruct (evictForByteLimit_spec _ (2 * length (globalGroupLRU_ st)) st Hwf ltac:(lia))
      as (st' & gone & -> & Hwf' & Hk & (El & Eb & Ep & Hmin) & Hend). cbn [mbind option_bind].
    rewrite Etar in Hend, Hmin.
    eexists st', _, gone. split; [done|]. split; [lia|]. do 3 (split; [done|]). split.
    + intros _. do 2 (split; [done|]). pose proof (k_config _ _ _ _ Hk) as Ec. injection Ec as _ _ -> _ _ _.
      apply Z.leb_le.
    + rewrite <-(storeBytes_payload _ _ (wf_g _ _ Hwf')). apply (g_total _ _ (wf_g _ _ Hwf')).
Qed.

(** A write that a subgroup rejects leaves the objects of every group and
    the byte account as they were. *)
Theorem rejected_write_keeps_objects y j w objID s eot e p complete_ now c st' calls err :
  reachable y → sys_sgs y !! j = Some w → valid_loc (mkLoc (group_ w) objID) → fits p (sys_cache y) →
  writeThrough w objID s eot e p complete_ now c (sys_cache y) = Some (st', Reject calls err) →
  totalCachedBytes_ st' = totalCachedBytes_ (sys_cache y) ∧
  (∀ g, objects <$> groupHeap st' !! g = objects <$> groupHeap (sys_cache y) !! g) ∧
  calls = [CallReset].
Proof.
  intros Hr%reachable_ok Hj Hv Hf E. destruct (s_open _ _ _ _ Hr j w Hj) as (t & Ht & Hg).
  destruct (writeThrough_spec (pins (sys_sgs y)) w objID s eot e p complete_ now c (sys_cache y) t)
    as (st1 & out & E1 & _ & _ & Hleft); [apply Hr|done..|].
  assert (calls = [CallReset] ∧ shouldSkipCaching t = false) as [-> Hskip].
  { revert E. unfold writeThrough. rewrite (proj2 Ht). cbn [mbind option_bind].
    destruct (shouldSkipCaching t); [done|]. destruct (updateLargest _ _ _) as [? []]; [|by intros [= <- <-]].
    destruct (cacheObjectAndUpdateBytes _ _ _ _ _ _ _ _ _ _ _ _) as [[? []]|]; cbn;
      by intros [= <- <-]. }
  rewrite E1 in E. injection E as -> ->. destruct (Hleft Hskip) as (grp & grp' & Hgrp & Hh & Ho & _ & Hb).
  split; [done|]. split; [|done]. intros g. rewrite Hh. destruct (decide (g = cacheGroup_ w)) as [->|].
  - by rewrite lookup_insert_eq, Hgrp; cbn; rewrite Ho.
  - by rewrite lookup_insert_ne.
Qed.

End System.
