(* ===== verification/CacheRetention.v ===== *)
(** * The object cache keeps what an open subgroup wrote

    An object that a subgroup has written stays in the cache while the subgroup
    is open, whatever other admissible operations run in between: evictions for
    the byte, group and track limits, writes of other objects, purges of other
    tracks, changes of the limits.  [calm] says that an operation leaves one
    object of one group as it is. *)

From S2P Require Import Prelude Locations CacheRanges CacheStore CacheInvariant CacheOperations.
From S2P Require Import CacheWrites CacheWritebacks CacheSystem.

Create HintDb calm.

Section Retention.
Context `{LocationLaws} {IS : Type} `{IntervalOps IS} `{!IntervalLaws IS}
        {Extensions : Type} `{!ExtensionOps Extensions} `{!ExtensionLaws}
        {FullTrackName : Type} `{Countable FullTrackName}.

Notation cache := (MoqxCache (IS:=IS) (Extensions:=Extensions) (FullTrackName:=FullTrackName)).
Notation centry := (CacheEntry (Extensions:=Extensions)).
Notation sub := (SubscribeWriteback (FullTrackName:=FullTrackName)).
Notation sgw := (SubgroupWriteback (FullTrackName:=FullTrackName)).
Notation system := (System (IS:=IS) (Extensions:=Extensions) (FullTrackName:=FullTrackName)).
Notation op := (Op (Extensions:=Extensions) (FullTrackName:=FullTrackName)).
Implicit Types (st : cache) (f : FullTrackName) (y : system).

Definition objAt st (g o : Z) : option centry := grp ← groupHeap st !! g; objects grp !! o.

Definition calm (g o : Z) st st' : Prop :=
  nextRef st <= nextRef st' ∧ (g < nextRef st → objAt st' g o = objAt st g o).

Lemma calm_refl g o st : calm g o st st.
Proof. done. Qed.

Lemma calm_trans g o st st' st'' : calm g o st st' → calm g o st' st'' → calm g o st st''.
Proof. intros [Hn Ho] [Hn' Ho']. split; [lia|]. intros Hg. rewrite Ho', Ho; [done|lia..]. Qed.

Lemma calm_put_track g o r t st st' : calm g o st st' → calm g o st (put_track r t st').
Proof. done. Qed.
Lemma calm_with_bytes g o n st st' : calm g o st st' → calm g o st (with_bytes n st').
Proof. done. Qed.
Lemma calm_with_cache g o m st st' : calm g o st st' → calm g o st (with_cache m st').
Proof. done. Qed.
Lemma calm_with_trackLRU g o l st st' : calm g o st st' → calm g o st (with_trackLRU l st').
Proof. done. Qed.
Lemma calm_with_globalLRU g o l st st' : calm g o st st' → calm g o st (with_globalLRU l st').
Proof. done. Qed.
Lemma calm_with_limits g o a b c d st st' : calm g o st st' → calm g o st (with_limits a b c d st').
Proof. done. Qed.
Lemma calm_with_nextRef g o n st st' :
  calm g o st st' → nextRef st' <= n → calm g o st (with_nextRef n st').
Proof. intros [? ?] ?. split; [cbn; lia|done]. Qed.

Lemma calm_put_group g o g' grp grp' st st' :
  calm g o st st' → groupHeap st' !! g' = Some grp →
  (g' = g → objects grp' !! o = objects grp !! o) → calm g o st (put_group g' grp' st').
Proof.
  intros [Hn Ho] Hg' E. split; [done|]. intros Hg. rewrite <- (Ho Hg). unfold objAt. cbn.
  destruct (decide (g' = g)) as [->|]; [|by rewrite lookup_insert_ne].
  rewrite lookup_insert_eq, Hg'. cbn. by apply E.
Qed.

Lemma calm_emplaceGroup g o r gid t st st' g' :
  emplaceGroup r gid t st = (st', g') → calm g o st st'.
Proof.
  intros [= <- _]. split; [cbn; lia|]. intros Hg. unfold objAt. cbn. rewrite lookup_insert_ne; [done|lia].
Qed.

Lemma calm_emplaceTrack g o f st st' r : emplaceTrack f st = (st', r) → calm g o st st'.
Proof. intros [= <- _]. split; [cbn; lia|done]. Qed.

#[local] Hint Resolve calm_refl calm_put_track calm_with_bytes calm_with_cache calm_with_trackLRU
  calm_with_globalLRU calm_with_limits calm_with_nextRef calm_emplaceGroup calm_emplaceTrack : calm.
#[local] Hint Extern 1 (_ <= _) => (cbn; lia) : calm.

(** Runs the computation in [H] along each of its branches. *)
Ltac run_in H := repeat (progress simplify_option_eq || case_match); try done.

(** ** Evictions *)

Lemma evictGroup_calm g o r gid st st' : evictGroup r gid st = Some st' → calm g o st st'.
Proof. unfold evictGroup. intros E. run_in E; eauto with calm. Qed.
#[local] Hint Resolve evictGroup_calm : calm.

Lemma evictGroups_calm g o r ids st st' : evictGroups r ids st = Some st' → calm g o st st'.
Proof.
  revert st. induction ids as [|gid ids IH]; cbn; intros st E; run_in E; eauto using calm_trans with calm.
Qed.
#[local] Arguments evictGroups : simpl never.

Lemma evictTrack_calm g o f st st' n : evictTrack f st = Some (st', n) → calm g o st st'.
Proof.
  unfold evictTrack. intros E. run_in E. apply calm_with_cache.
  eapply calm_trans; [|by eapply evictGroups_calm]. done.
Qed.
#[local] Hint Resolve evictTrack_calm : calm.

Lemma evictTracks_calm g o names st st' n : evictTracks names st = Some (st', n) → calm g o st st'.
Proof.
  revert st n. induction names as [|f names IH]; cbn; intros st n E; run_in E;
    eauto using calm_trans with calm.
Qed.
#[local] Arguments evictTracks : simpl never.

Lemma evictOldestTrackIfNeeded_calm g o st st' b :
  evictOldestTrackIfNeeded st = Some (st', b) → calm g o st st'.
Proof. unfold evictOldestTrackIfNeeded. intros E. run_in E; eauto with calm. Qed.
#[local] Hint Resolve evictOldestTrackIfNeeded_calm : calm.

Lemma evictOldestGroups_calm g o fuel r st st' :
  evictOldestGroups fuel r st = Some st' → calm g o st st'.
Proof.
  revert st. induction fuel as [|fuel IH]; cbn; intros st E; run_in E; eauto using calm_trans with calm.
Qed.
#[local] Arguments evictOldestGroups : simpl never.

Lemma evictOldestGroupsIfNeeded_calm g o r st st' :
  evictOldestGroupsIfNeeded r st = Some st' → calm g o st st'.
Proof. unfold evictOldestGroupsIfNeeded. intros E. run_in E; eauto using evictOldestGroups_calm with calm. Qed.
#[local] Hint Resolve evictOldestGroupsIfNeeded_calm : calm.

Lemma evictOldestGroup_calm g o f gid st st' : evictOldestGroup f gid st = Some st' → calm g o st st'.
Proof. unfold evictOldestGroup. intros E. run_in E; eauto using calm_trans with calm. Qed.

Lemma evictForByteLimit_calm g o fuel st st' : evictForByteLimit fuel st = Some st' → calm g o st st'.
Proof.
  revert st. induction fuel as [|fuel IH]; cbn; intros st E; run_in E;
    eauto using calm_trans, evictOldestGroup_calm with calm.
Qed.
#[local] Arguments evictForByteLimit : simpl never.

Lemma evictForByteLimitIfNeeded_calm g o st st' b :
  evictForByteLimitIfNeeded st = Some (st', b) → calm g o st st'.
Proof. unfold evictForByteLimitIfNeeded. intros E. run_in E; eauto using evictForByteLimit_calm with calm. Qed.
#[local] Hint Resolve evictForByteLimitIfNeeded_calm : calm.

Lemma evictTracksDown_calm g o fuel st st' : evictTracksDown fuel st = Some st' → calm g o st st'.
Proof.
  revert st. induction fuel as [|fuel IH]; cbn; intros st E; run_in E; eauto using calm_trans with calm.
Qed.
#[local] Arguments evictTracksDown : simpl never.

Lemma evictGroupsOfTracks_calm g o refs st st' :
  evictGroupsOfTracks refs st = Some st' → calm g o st st'.
Proof.
  revert st. induction refs as [|r refs IH]; cbn; intros st E; run_in E; eauto using calm_trans with calm.
Qed.
#[local] Arguments evictGroupsOfTracks : simpl never.

(** ** Lists and tracks *)

Lemma addTrackToLRU_calm g o f r st st' : addTrackToLRU f r st = Some st' → calm g o st st'.
Proof. unfold addTrackToLRU. intros E. run_in E; eauto with calm. Qed.
#[local] Hint Resolve addTrackToLRU_calm : calm.

Lemma removeTrackFromLRU_calm g o r st st' : removeTrackFromLRU r st = Some st' → calm g o st st'.
Proof. unfold removeTrackFromLRU. intros E. run_in E; eauto with calm. Qed.
#[local] Hint Resolve removeTrackFromLRU_calm : calm.

Lemma onTrackBecameEvictable_calm g o f st st' :
  onTrackBecameEvictable f st = Some st' → calm g o st st'.
Proof. unfold onTrackBecameEvictable. intros E. run_in E; eauto with calm. Qed.

Lemma addGroupToLRU_calm g o f gid g' r st st' :
  addGroupToLRU f gid g' r st = Some st' → calm g o st st'.
Proof.
  unfold addGroupToLRU. intros E. run_in E. eapply calm_put_group; [|done|done].
  eauto with calm.
Qed.
#[local] Hint Resolve addGroupToLRU_calm : calm.

Lemma removeGroupFromLRU_calm g o g' r st st' :
  removeGroupFromLRU g' r st = Some st' → calm g o st st'.
Proof.
  unfold removeGroupFromLRU. intros E. run_in E. eapply calm_put_group; [|done|done].
  eauto with calm.
Qed.
#[local] Hint Resolve removeGroupFromLRU_calm : calm.

Lemma findOrCreateTrack_calm g o f st st' r :
  findOrCreateTrack f st = Some (st', r) → calm g o st st'.
Proof.
  unfold findOrCreateTrack. intros E. run_in E.
  eapply calm_trans; [by eapply calm_emplaceTrack|]. by eapply addTrackToLRU_calm.
Qed.

Lemma setTrackExtensions_calm g o f e st st' : setTrackExtensions f e st = Some st' → calm g o st st'.
Proof.
  unfold setTrackExtensions, setMaxCacheDuration, clearMaxCacheDuration. intros E.
  run_in E; apply calm_put_track;
    eauto using calm_trans, findOrCreateTrack_calm with calm.
Qed.

(** ** Writes *)

Lemma getOrCreateGroup_calm g o r gid st st' g' :
  getOrCreateGroup r gid st = Some (st', g') → calm g o st st'.
Proof. unfold getOrCreateGroup. intros E. run_in E. by eapply calm_emplaceGroup. Qed.
#[local] Hint Resolve getOrCreateGroup_calm : calm.

Lemma getOrCreateGroupWithEviction_calm g o f r gid st st' g' :
  getOrCreateGroupWithEviction f r gid st = Some (st', g') → calm g o st st'.
Proof.
  unfold getOrCreateGroupWithEviction. intros E. run_in E.
  eapply calm_trans; [by eapply evictOldestGroupsIfNeeded_calm|].
  eapply calm_trans; [by eapply calm_emplaceGroup|]. by eapply addGroupToLRU_calm.
Qed.
#[local] Hint Resolve getOrCreateGroupWithEviction_calm : calm.

Lemma processGapExtensions_calm g o r gid oid e st st' res :
  processGapExtensions r gid oid e st = Some (st', res) → calm g o st st'.
Proof.
  unfold processGapExtensions, priorGroupGap, priorObjectGap. intros E. run_in E;
    repeat first [apply calm_refl | apply calm_put_track
                 | eapply calm_put_group; [|done|done]
                 | eapply calm_trans; [|by eapply getOrCreateGroup_calm]
                 | by eapply getOrCreateGroup_calm].
Qed.

Lemma storeEntry_other o oid sg s e p c dg now (grp : CacheGroup (Extensions:=Extensions)) :
  oid ≠ o → objects (storeEntry oid sg s e p c dg now grp) !! o = objects grp !! o.
Proof. intros Hne. unfold storeEntry. case_match; cbn; by rewrite lookup_insert_ne. Qed.

Lemma cacheObject_calm g o g' r gid sg oid s e p c dg now st st' res :
  (g' = g → oid ≠ o) → cacheObject g' r gid sg oid s e p c dg now st = Some (st', res) →
  calm g o st st'.
Proof.
  intros Hne. unfold cacheObject. destruct (tracks st !! r) as [t|]; [|done]. cbn [mbind option_bind].
  destruct (iv_contains _ _); [by intros [= <- _]|].
  destruct (processGapExtensions r gid oid e st) as [[st1 gapRes]|] eqn:Egap; [|done].
  apply (processGapExtensions_calm g o) in Egap. cbn [mbind option_bind].
  destruct gapRes; [|by intros [= <- _]].
  destruct (tracks st1 !! r) as [t1|]; [|done]. destruct (groupHeap st1 !! g') as [grp1|] eqn:Eg; [|done].
  cbn [mbind option_bind].
  destruct (if bool_decide _ then _ else _) as [t2 grp2] eqn:E2.
  assert (objects grp2 = objects grp1) as Eo by (case_bool_decide; by injection E2 as <- <-).
  assert (calm g o st (put_group g' grp2 (put_track r t2 st1))) as Hc2.
  { eapply calm_put_group; [by apply calm_put_track|exact Eg|]. intros _. by rewrite Eo. }
  destruct (_ ≫= _); intros [= <- _]; [done|].
  eapply calm_put_group; [by apply calm_put_track|cbn; apply lookup_insert_eq|].
  intros Hg. rewrite <- (storeEntry_other o oid sg s e p c dg now grp2) by auto. by destruct (maxCachedObject _ <=? oid).
Qed.

Lemma cacheObjectAndUpdateBytes_calm g o g' r gid sg oid s e p c dg now st st' res :
  (g' = g → oid ≠ o) →
  cacheObjectAndUpdateBytes g' r gid sg oid s e p c dg now st = Some (st', res) → calm g o st st'.
Proof.
  intros Hne. unfold cacheObjectAndUpdateBytes.
  destruct (groupHeap st !! g') as [grp|]; [|done]. cbn [mbind option_bind].
  destruct (cacheObject _ _ _ _ _ _ _ _ _ _ _ st) as [[st1 res1]|] eqn:E1; [|done].
  apply (cacheObject_calm g o) in E1; [|done]. cbn [mbind option_bind].
  destruct res1; [|by intros [= <- _]]. destruct (groupHeap st1 !! g') as [grp1|]; [|done].
  cbn [mbind option_bind]. intros E. run_in E;
    (eapply calm_trans; [exact E1|]; eapply calm_trans; [|by eapply evictForByteLimitIfNeeded_calm]);
    done.
Qed.

Lemma writeThrough_calm g o (w : sgw) oid s eot e p c now k st st' out :
  (cacheGroup_ w = g → oid ≠ o) →
  writeThrough w oid s eot e p c now k st = Some (st', out) → calm g o st st'.
Proof.
  intros Hne. unfold writeThrough. destruct (tracks st !! cacheTrack_ w) as [t|]; [|done].
  cbn [mbind option_bind]. destruct (shouldSkipCaching t); [by intros [= <- _]|].
  destruct (updateLargest _ eot t) as [t' []]; [|by intros [= <- _]].
  destruct (cacheObjectAndUpdateBytes _ _ _ _ _ _ _ _ _ _ _ _) as [[st1 res]|] eqn:E1; [|done].
  apply (cacheObjectAndUpdateBytes_calm g o) in E1; [|done]. cbn [mbind option_bind].
  destruct res; intros [= <- _]; exact E1.
Qed.

Lemma sgBeginObject_calm g o (w w' : sgw) oid len p e now st st' out :
  (cacheGroup_ w = g → oid ≠ o) →
  sgBeginObject w oid len p e now st = Some (st', w', out) → calm g o st st'.
Proof.
  intros Hne. unfold sgBeginObject. destruct (tracks st !! cacheTrack_ w) as [t|]; [|done].
  cbn [mbind option_bind]. destruct (writeThrough _ _ _ _ _ _ _ _ _ _) as [[st1 out1]|] eqn:E1; [|done].
  apply (writeThrough_calm g o) in E1; [|done]. cbn [mbind option_bind]. intros E. run_in E.
Qed.

Lemma sgObjectPayload_calm g o (w w' : sgw) bytes fin st st' out :
  (cacheGroup_ w = g → currentObject_ w ≠ o) →
  sgObjectPayload w bytes fin st = Some (st', w', out) → calm g o st st'.
Proof.
  intros Hne. unfold sgObjectPayload. destruct (tracks st !! cacheTrack_ w) as [t|]; [|done].
  cbn [mbind option_bind]. destruct (shouldSkipCaching t); [by intros [= <- _ _]|].
  destruct (groupHeap st !! cacheGroup_ w) as [grp|] eqn:Eg; [|done]. cbn [mbind option_bind].
  destruct (objects grp !! currentObject_ w) as [en|]; [|done]. cbn [mbind option_bind].
  destruct (_ <? _); [done|].
  destruct (evictForByteLimitIfNeeded _) as [[st1 b]|] eqn:E1; [|done]. intros [= <- _ _].
  eapply calm_trans; [|by eapply evictForByteLimitIfNeeded_calm].
  apply calm_with_bytes. eapply calm_put_group; [apply calm_put_track, calm_refl|exact Eg|].
  intros Hg. cbn. rewrite lookup_insert_ne; auto.
Qed.

Lemma getSubscribeWriteback_calm g o f st st' w :
  getSubscribeWriteback f st = Some (st', w) → calm g o st st'.
Proof.
  unfold getSubscribeWriteback. intros E.
  destruct (match cache_ st !! f with Some r => Some (st, r) | None => _ end) as [[st1 r]|] eqn:E1;
    [|done]. cbn [mbind option_bind] in E.
  assert (calm g o st st1) as Hc1.
  { destruct (cache_ st !! f); [by injection E1 as <- <-|]. run_in E1; 
      eauto using calm_trans, calm_emplaceTrack with calm. }
  clear E1. run_in E. apply calm_put_track. eapply calm_trans; [done|]. eauto with calm.
Qed.

Lemma closeSubscribe_calm g o (w : sub) st st' : closeSubscribe w st = Some st' → calm g o st st'.
Proof.
  unfold closeSubscribe. intros E. run_in E.
  eapply calm_trans; [|by eapply onTrackBecameEvictable_calm]. done.
Qed.

Lemma beginSubgroup_calm g o (w : sub) gid sg answer st st' res :
  beginSubgroup w gid sg answer st = Some (st', res) → calm g o st st'.
Proof.
  unfold beginSubgroup, newSubgroupWriteback. intros E. run_in E. eauto using calm_trans with calm.
Qed.

(** A write outside a subgroup, at another location than the object of a pinned
    group. *)
Lemma writeHeader_calm P f r t gid g o dg (w : sub) h p now k st st' out tw :
  wf P st → tracks st !! track_ w = Some tw →
  evicted tw = true ∨ cache_ st !! ftn_ w = Some (track_ w) →
  0 <= h_group h <= group kLocationMax →
  cachedT st f r t → groups t !! gid = Some g → g ∈ P →
  (ftn_ w, h_group h, h_id h) ≠ (f, gid, o) →
  writeHeader dg w h p now k st = Some (st', out) → calm g o st st'.
Proof.
  intros Hwf Htw Hh Hgid Ht Hg HP Hne. unfold writeHeader. rewrite Htw. cbn [mbind option_bind].
  destruct (shouldSkipCaching tw) eqn:Hskip; [by intros [= <- _]|].
  assert (cachedT st (ftn_ w) (track_ w) tw) as Hc.
  { destruct Hh as [Hev|]; [|done]. unfold shouldSkipCaching in Hskip. by rewrite Hev in Hskip. }
  pose proof (updateLargest_fields (mkLoc (h_group h) (h_id h)) (isEndOfTrack (h_status h)) tw)
    as (Hs1 & Hs2 & Hs3).
  destruct (updateLargest _ _ tw) as [t' []]; cbn in Hs1, Hs2, Hs3; [|by intros [= <- _]].
  destruct (set_field P st _ _ tw t' Hwf Hc Hs1 Hs2 Hs3) as [Hwf1 Hc1].
  destruct (getOrCreateGroupWithEviction_spec P _ (ftn_ w) (track_ w) t' (h_group h) Hwf1)
    as (st2 & t2 & g2 & grp & E & Hwf2 & Hc2 & HG & _); [|done|].
  { split; [apply Hc|apply lookup_insert_eq]. }
  rewrite E. apply (getOrCreateGroupWithEviction_calm g o) in E. cbn [mbind option_bind].
  destruct (cacheObjectAndUpdateBytes _ _ _ _ _ _ _ _ _ _ _ st2) as [[st3 res]|] eqn:E3; [|done].
  apply (cacheObjectAndUpdateBytes_calm g o) in E3.
  - cbn [mbind option_bind]. assert (calm g o st st3) by (eapply calm_trans; [exact E|exact E3]).
    destruct res; by intros [= <- _].
  - intros -> Eo. apply Hne. rewrite Eo.
    destruct (c_stays _ _ _ (carries_trans _ _ _ _ Hc1 Hc2) _ _ _ _ _ Ht Hg HP) as (t3 & Ht3 & Hg3).
    destruct HG as (Htw2 & Hg2 & _).
    by destruct (g_ginj P st2 (wf_g _ _ Hwf2) _ _ _ _ _ _ _ _ _ Htw2 Hg2 Ht3 Hg3) as [-> ->].
Qed.

(** ** Lookups *)

(** At [now] an object of the track that was cached at [at_] has not expired. *)
Definition unexpired f (at_ now : Z) st : Prop :=
  ∀ r t d, cachedT st f r t → effectiveDuration t st = Some d →
    is_Some (toNanoseconds d) ∧ now - at_ <= d * 1000000.

Lemma toNanoseconds_value d ns : toNanoseconds d = Some ns → ns = d * 1000000.
Proof. unfold toNanoseconds. case_match; [|done]. by intros [= <-]. Qed.

Lemma lookup_found f r t gid g o en now st :
  cachedT st f r t → groups t !! gid = Some g → objAt st g o = Some en →
  unexpired f (cachedAt en) now st →
  getCachedObjectMaybe r (mkLoc gid o) now st = Some (st, if complete en then Some en else None).
Proof.
  intros Ht Hg Ho Hu. unfold getCachedObjectMaybe. rewrite (proj2 Ht). cbn. rewrite Hg.
  unfold objAt in Ho. destruct (groupHeap st !! g) as [grp|]; [|done]. cbn in Ho |- *. rewrite Ho.
  unfold isExpired. destruct (effectiveDuration t st) as [d|] eqn:Ed; [|done]. cbn.
  destruct (Hu r t d Ht Ed) as [[ns Hns] Hd]. rewrite Hns. cbn.
  rewrite (toNanoseconds_value d ns Hns). by destruct (Z.ltb_spec (d * 1000000) (now - cachedAt en)); [lia|].
Qed.

(** A lookup drops an expired object at its own location only. *)
Lemma lookup_calm P f r t gid g o f' loc now st st' b :
  wf P st → cachedT st f r t → groups t !! gid = Some g → (f', group loc, object loc) ≠ (f, gid, o) →
  hasCachedObject f' loc now st = Some (st', b) → calm g o st st'.
Proof.
  intros Hwf Ht Hg Hne. unfold hasCachedObject, getCachedObjectMaybe.
  destruct (cache_ st !! f') as [r'|] eqn:Hf'; [|by intros [= <- _]].
  destruct (tracks st !! r') as [t'|] eqn:Ht'; [|done]. cbn [mbind option_bind].
  destruct (groups t' !! group loc) as [g'|] eqn:Hg'; [|by intros [= <- _]].
  destruct (groupHeap st !! g') as [grp|] eqn:Hgrp; [|done]. cbn [mbind option_bind].
  destruct (objects grp !! object loc) as [en|]; [|by intros [= <- _]].
  destruct (isExpired now t' st en) as [[]|]; [|by intros [= <- _]|done].
  intros [= <- _]. apply calm_put_track. eapply calm_put_group; [apply calm_with_bytes, calm_refl|exact Hgrp|].
  intros ->. cbn. rewrite lookup_delete_ne; [done|]. intros Eo. apply Hne. rewrite Eo.
  assert (cachedT st f' r' t') as HT' by done.
  by destruct (g_ginj P st (wf_g _ _ Hwf) _ _ _ _ _ _ _ _ _ HT' Hg' Ht Hg) as [-> ->].
Qed.

(** ** Operations that spare an object

    The operation neither writes the object [o] of the group [gid] of [f] nor
    ends the subgroup [j], and does not look the object up after it has expired;
    [at_] is when it was cached. *)
Definition spares f (gid o j at_ : Z) (x : op) y : Prop :=
  let elsewhere j' oid := ∀ w, sys_sgs y !! j' = Some w → (sg_ftn_ w, group_ w, oid) ≠ (f, gid, o) in
  match x with
  | OObject j' oid _ _ _ _ | OBeginObject j' oid _ _ _ _
  | OEndOfGroup j' oid _ | OEndOfTrackAndGroup j' oid _ => elsewhere j' oid
  | OObjectPayload j' _ _ =>
      ∀ w, sys_sgs y !! j' = Some w → (sg_ftn_ w, group_ w, currentObject_ w) ≠ (f, gid, o)
  | OObjectStream i h _ _ | ODatagram i h _ _ =>
      ∀ w, sys_subs y !! i = Some w → (ftn_ w, h_group h, h_id h) ≠ (f, gid, o)
  | OLookup f' loc now =>
      (f', group loc, object loc) = (f, gid, o) → unexpired f at_ now (sys_cache y)
  | OCloseSubgroup j' => j' ≠ j
  | _ => True
  end.

(** A run of admissible operations that all spare the object. *)
Fixpoint sparing f (gid o j at_ : Z) (ops : list op) y : Prop :=
  match ops with
  | [] => True
  | x :: rest => admissible x y ∧ spares f gid o j at_ x y ∧
                 ∀ y', sysStep x y = Some y' → sparing f gid o j at_ rest y'
  end.

(** Subgroup [j] is open on the group [g] of [f]. *)
Definition openOn f (gid j r g : Z) y : Prop :=
  ∃ w, sys_sgs y !! j = Some w ∧ sg_ftn_ w = f ∧ group_ w = gid ∧ cacheTrack_ w = r ∧
       cacheGroup_ w = g.

Lemma openOn_cached f gid j r g y : sysOk y → openOn f gid j r g y →
  ∃ t, cachedT (sys_cache y) f r t ∧ groups t !! gid = Some g ∧ g ∈ pins (sys_sgs y).
Proof.
  intros Hy (w & Hw & <- & <- & <- & <-). destruct (s_open _ _ _ _ Hy j w Hw) as (t & Ht & Hg).
  exists t. split; [done|]. split; [done|]. apply elem_of_pins. eauto.
Qed.

(** The writer of another object of the group is the subgroup itself. *)
Lemma other_object f gid j r g (o : Z) j' oid (w' : sgw) y :
  sysOk y → openOn f gid j r g y → sys_sgs y !! j' = Some w' →
  (sg_ftn_ w', group_ w', oid) ≠ (f, gid, o) → cacheGroup_ w' = g → oid ≠ o.
Proof.
  intros Hy (w & Hw & <- & <- & <- & <-) Hw' Hne E ->. apply Hne.
  assert (j' = j) as -> by (by apply (s_inj _ _ _ _ Hy j' j w' w)). congruence.
Qed.

Lemma onSg_run j y k y' : onSg j y k = Some y' →
  y' = y ∨ ∃ w, sys_sgs y !! j = Some w ∧ k w = Some y'.
Proof. unfold onSg. case_match; [eauto|]. intros [= ->]. by left. Qed.

Lemma onSub_run i y k y' : onSub i y k = Some y' →
  y' = y ∨ ∃ w, sys_subs y !! i = Some w ∧ k w = Some y'.
Proof. unfold onSub. case_match; [eauto|]. intros [= ->]. by left. Qed.

Lemma stepStore_run {A} y (m : option (cache * A)) y' : stepStore y m = Some y' →
  ∃ st' a, m = Some (st', a) ∧ y' = with_store st' y.
Proof. unfold stepStore. destruct m as [[st' a]|]; [|done]. intros [= <-]. eauto. Qed.

Lemma write_calm f gid j r g o j' oid s eot e p c now k y y' :
  sysOk y → openOn f gid j r g y →
  (∀ w, sys_sgs y !! j' = Some w → (sg_ftn_ w, group_ w, oid) ≠ (f, gid, o)) →
  onSg j' y (λ w, stepStore y (writeThrough w oid s eot e p c now (k w) (sys_cache y))) = Some y' →
  calm g o (sys_cache y) (sys_cache y').
Proof.
  intros Hy Ho Hs [->|(w & Hw & (st' & a & E & ->)%stepStore_run)]%onSg_run; [done|].
  eapply writeThrough_calm; [|exact E]. by eapply other_object; eauto.
Qed.

Lemma header_calm f gid j r g o dg i h p now k y y' :
  sysOk y → openOn f gid j r g y → 0 <= h_group h <= group kLocationMax →
  (∀ w, sys_subs y !! i = Some w → (ftn_ w, h_group h, h_id h) ≠ (f, gid, o)) →
  onSub i y (λ w, stepStore y (writeHeader dg w h p now k (sys_cache y))) = Some y' →
  calm g o (sys_cache y) (sys_cache y').
Proof.
  intros Hy Ho Hv Hs [->|(w & Hw & (st' & a & E & ->)%stepStore_run)]%onSub_run; [done|].
  destruct (openOn_cached _ _ _ _ _ _ Hy Ho) as (t & Ht & Hg & HP).
  destruct (s_subs _ _ (s_sub _ _ _ _ Hy) i w Hw) as (tw & Htw & Hh).
  by eapply (writeHeader_calm _ f r t gid g); [apply (s_wf _ _ _ _ Hy)|eauto..].
Qed.

(** An operation that spares an object leaves it as it is. *)
Lemma step_calm f gid j r g o en x y y' :
  sysOk y → openOn f gid j r g y → objAt (sys_cache y) g o = Some en → admissible x y →
  spares f gid o j (cachedAt en) x y → sysStep x y = Some y' →
  calm g o (sys_cache y) (sys_cache y').
Proof.
  intros Hy Ho Hen Ha Hs E. destruct (openOn_cached _ _ _ _ _ _ Hy Ho) as (t & Ht & Hg & HP).
  destruct x; cbn in Ha, Hs, E.
  - run_in E. eauto using getSubscribeWriteback_calm.
  - apply onSub_run in E as [->|(w & _ & E)]; [done|]. run_in E. eauto using closeSubscribe_calm.
  - apply onSub_run in E as [->|(w & _ & E)]; [done|]. run_in E; eauto using beginSubgroup_calm.
  - by eapply (write_calm f gid j r g o j0 objID _ _ _ _ _ _ (λ _, _)).
  - apply onSg_run in E as [->|(w & Hw & E)]; [done|]. run_in E.
    eapply sgBeginObject_calm; [|done]. by eapply other_object; eauto.
  - apply onSg_run in E as [->|(w & Hw & E)]; [done|]. run_in E.
    eapply sgObjectPayload_calm; [|done]. by eapply other_object; eauto.
  - by eapply (write_calm f gid j r g o j0 objID _ _ _ _ _ _ (λ _, _)).
  - by eapply (write_calm f gid j r g o j0 objID _ _ _ _ _ _ (λ _, _)).
  - apply onSg_run in E as [->|(w & Hw & E)]; [done|]. run_in E. eauto using addGroupToLRU_calm.
  - eapply (header_calm f gid j r g o false i h p now); [done..| |done|exact E]. apply Ha.
  - eapply (header_calm f gid j r g o true i h p now); [done..| |done|exact E]. apply Ha.
  - apply stepStore_run in E as (st' & b & E & ->).
    destruct (decide ((f0, group loc, object loc) = (f, gid, o))) as [Hl|Hl].
    + specialize (Hs Hl). injection Hl as -> <- <-. unfold hasCachedObject in E.
      rewrite (proj1 Ht) in E. destruct loc as [lg lo]. cbn in Hg, Hen.
      by rewrite (lookup_found f r t lg g lo en) in E; [injection E as <- _|..].
    + by eapply (lookup_calm _ f r t gid g o); [apply (s_wf _ _ _ _ Hy)|..].
  - apply stepStore_run in E as (st' & b & E & ->). by eapply evictTrack_calm.
  - apply stepStore_run in E as (st' & b & E & ->). by eapply evictTracks_calm.
  - apply stepStore_run in E as (st' & b & E & ->). unfold purgeAll in E. run_in E. by eapply evictTracks_calm.
  - run_in E. by eapply setTrackExtensions_calm.
  - run_in E. eapply calm_trans; [|by eapply evictTracksDown_calm]. done.
  - unfold setMaxCachedBytes in E. run_in E. eapply calm_trans; [|by eapply evictForByteLimitIfNeeded_calm]. done.
  - by injection E as <-.
  - unfold setMaxCachedGroupsPerTrack in E. run_in E.
    eapply calm_trans; [|by eapply evictGroupsOfTracks_calm]. done.
  - by injection E as <-.
  - by injection E as <-.
Qed.

(** The subgroup stays open. *)
Lemma step_open f gid j r g o at_ x y y' :
  sysOk y → openOn f gid j r g y → spares f gid o j at_ x y → sysStep x y = Some y' →
  openOn f gid j r g y'.
Proof.
  intros Hy Ho Hs E. pose proof Ho as (w & Hw & <- & <- & <- & <-).
  assert (Hmove : ∀ j' w0 w1 st', sys_sgs y !! j' = Some w0 → sg_ftn_ w1 = sg_ftn_ w0 →
    group_ w1 = group_ w0 → cacheTrack_ w1 = cacheTrack_ w0 → cacheGroup_ w1 = cacheGroup_ w0 →
    openOn (sg_ftn_ w) (group_ w) j (cacheTrack_ w) (cacheGroup_ w) (with_sg j' w1 st' y)).
  { intros j' w0 w1 st' Hw0 E1 E2 E3 E4. unfold openOn. cbn. destruct (decide (j' = j)) as [->|].
    - exists w1. rewrite lookup_insert_eq. split; [done|]. split_and!; congruence.
    - exists w. by rewrite lookup_insert_ne. }
  destruct x; cbn in Hs, E;
    try (apply onSg_run in E as [->|(w0 & Hw0 & E)]; [done|]);
    try (apply onSub_run in E as [->|(w0 & Hw0 & E)]; [done|]);
    try (apply stepStore_run in E as (st' & b & E & ->); by exists w).
  all: try by (run_in E; exists w).
  - run_in E; exists w; try done. cbn. rewrite lookup_insert_ne; [done|].
    pose proof (s_ids _ _ _ _ Hy j ltac:(eauto)). lia.
  - unfold sgBeginObject in E. run_in E; by eapply Hmove.
  - unfold sgObjectPayload in E. run_in E; by eapply Hmove.
  - run_in E. exists w. cbn. by rewrite lookup_delete_ne.
Qed.

Lemma sparing_holds f gid j r g o en ops y y' :
  reachable y → openOn f gid j r g y → objAt (sys_cache y) g o = Some en →
  sparing f gid o j (cachedAt en) ops y → sysRun ops y = Some y' →
  reachable y' ∧ openOn f gid j r g y' ∧ objAt (sys_cache y') g o = Some en.
Proof.
  revert y. induction ops as [|x ops IH]; cbn; intros y Hr Ho Hen Hs E; [by injection E as <-|].
  destruct Hs as (Ha & Hx & Hrest). destruct (sysStep x y) as [y1|] eqn:E1; [|done].
  cbn [mbind option_bind] in E. pose proof (reachable_ok y Hr) as Hy.
  apply (IH y1); [by eapply reach_step|by eapply step_open| |by apply Hrest|done].
  destruct (step_calm f gid j r g o en x y y1 Hy Ho Hen Ha Hx E1) as [_ Hc]. rewrite Hc; [done|].
  apply (g_fresh_group _ _ (wf_g _ _ (s_wf _ _ _ _ Hy))). unfold objAt in Hen.
  destruct (groupHeap (sys_cache y) !! g); [eauto|done].
Qed.

(** C23: An object that an open subgroup has written on a track that caches, and
    that was accepted, is found with the payload and extensions it was written
    with after any run of admissible operations, evictions of every kind
    included, that does not write the object again, does not end the subgroup
    and does not look the object up after it has expired, as long as it has not
    expired. *)
Theorem written_object_found y j w t objID p e fin now st1 c ops y2 now' :
  reachable y → admissible (OObject j objID p e fin now) y →
  sys_sgs y !! j = Some w → tracks (sys_cache y) !! cacheTrack_ w = Some t →
  shouldSkipCaching t = false →
  sgObject w objID p e fin now (sys_cache y) = Some (st1, Forward c) →
  sparing (sg_ftn_ w) (group_ w) objID j now ops (with_store st1 y) →
  sysRun ops (with_store st1 y) = Some y2 →
  unexpired (sg_ftn_ w) now now' (sys_cache y2) →
  ∃ en, getCachedObjectMaybe (cacheTrack_ w) (mkLoc (group_ w) objID) now' (sys_cache y2) =
          Some (sys_cache y2, Some en) ∧
    payload en = p ∧ ce_extensions en = e ∧ status en = NORMAL ∧ cachedAt en = now.
Proof.
  intros Hr Ha Hj Ht Hskip E Hs E2 Hu. pose proof (reachable_ok y Hr) as Hy.
  destruct (Ha w Hj) as [Hv Hf]. destruct (s_open _ _ _ _ Hy j w Hj) as (t0 & Ht0 & Hg).
  assert (t0 = t) as -> by (destruct Ht0; congruence).
  destruct (writeThrough_spec (pins (sys_sgs y)) w objID NORMAL false e p true now
              (CallObject objID p e fin) (sys_cache y) t)
    as (st' & out & E1 & _ & _ & Hleft); [apply Hy|done..|].
  pose proof E as E'. unfold sgObject in E'. rewrite E1 in E'. injection E' as -> ->.
  destruct (Hleft Hskip) as (grp & grp' & Hgrp & Hh & Ho).
  set (en := storedEntry _ _ _ _ _ _ _ _) in Ho. exists en.
  assert (payload en = p ∧ ce_extensions en = e ∧ status en = NORMAL ∧ cachedAt en = now ∧
          complete en = true) as (? & ? & ? & Ea & Ec) by (unfold en, storedEntry; by case_match).
  destruct (sparing_holds (sg_ftn_ w) (group_ w) j (cacheTrack_ w) (cacheGroup_ w) objID en ops
              (with_store st1 y) y2) as (Hr2 & Ho2 & Hen2).
  - apply (reach_step y (OObject j objID p e fin now)); [done..|]. cbn. unfold onSg, stepStore.
    by rewrite Hj, E.
  - by exists w.
  - unfold objAt. cbn. by rewrite Hh, lookup_insert_eq; cbn; rewrite Ho, lookup_insert_eq.
  - by rewrite Ea.
  - done.
  - destruct (openOn_cached _ _ _ _ _ _ (reachable_ok _ Hr2) Ho2) as (t2 & Ht2 & Hg2 & _).
    split; [|done]. erewrite lookup_found; [by rewrite Ec|done..|by rewrite Ea].
Qed.

End Retention.
