(* ===== verification/CacheExamples.v ===== *)
(** * The object cache: runs

    The cache with concrete locations, extensions and names: the states at
    which the theorems of [CacheSystem] apply, and the runs outside its
    discipline that the code does not survive. *)

From S2P Require Import Prelude Locations CacheRanges CacheStore CacheInvariant CacheOperations.
From S2P Require Import CacheWrites CacheWritebacks CacheSystem CacheRetention.
Import StdLocations.

Module CacheExamples.

(** Integer extensions as an association list. *)
Notation ext := (list (Z * Z)).

#[export] Instance extOps : ExtensionOps ext := {
  noExtensions := [];
  getIntExtension e t := u64 <$> (snd <$> find (λ p, p.1 =? t) e);
  kPriorGroupIdGapExtensionType := 60;
  kPriorObjectIdGapExtensionType := 62;
  kMaxCacheDurationExtensionType := 4;
}.

#[export] Instance extLaws : ExtensionLaws.
Proof. intros e t v. cbn. destruct (snd <$> _) as [x|]; [|done]. intros [= <-]. apply u64_range. Qed.

Notation system := (System (IS:=ivset) (Extensions:=ext) (FullTrackName:=Z)).
Notation op := (Op (Extensions:=ext) (FullTrackName:=Z)).

(** A cache of 100 bytes, three groups for each track and 50 bytes for each
    round of eviction. *)
Definition start : system := newSystem 100 3 100 50.

Definition after (ops : list op) : system := default start (sysRun ops start).

Definition filler (n : nat) : Payload := Some (replicate n 7).

Definition subscribe1 : list op := [OSubscribe 1].
Definition open1 : list op := subscribe1 ++ [OBeginSubgroup 0 0 0 (value tt)].
Definition wrote1 : list op := open1 ++ [OObject 1 0 (filler 5) [] false 10].

Lemma start_reachable : reachable start.
Proof. by apply reach_new. Qed.

Lemma open1_reachable : reachable (after open1).
Proof.
  apply (reach_step (after subscribe1) (OBeginSubgroup 0 0 0 (value tt))).
  - apply (reach_step start (OSubscribe 1)); [apply start_reachable|done|]. by vm_compute.
  - intros w _. split; [by vm_compute|]. intros j s Hj. vm_compute in Hj. done.
  - by vm_compute.
Qed.

Lemma object_admissible ops j o n at_ :
  (∃ w, sys_sgs (after ops) !! j = Some w ∧ valid_loc (mkLoc (group_ w) o)) →
  totalCachedBytes_ (sys_cache (after ops)) + Z.of_nat n < 2 ^ 63 →
  admissible (OObject j o (filler n) [] false at_) (after ops).
Proof.
  intros (w & Hw & Hg) Hn w' Hw'. pose proof (eq_trans (eq_sym Hw) Hw') as [= <-]. split; [done|].
  unfold fits, filler, payloadLength, computeChainDataLength, u64_modulus.
  rewrite length_replicate. lia.
Qed.

Lemma open1_writer : ∃ w, sys_sgs (after open1) !! 1 = Some w ∧ valid_loc (mkLoc (group_ w) 0).
Proof. exists (mkSubgroup 0 0 0 1 1 0 0). split; [by vm_compute|]. by vm_compute. Qed.

Lemma wrote1_reachable : reachable (after wrote1).
Proof.
  apply (reach_step (after open1) (OObject 1 0 (filler 5) [] false 10)); [apply open1_reachable| |by vm_compute].
  apply object_admissible; [apply open1_writer|by vm_compute].
Qed.

(** ** Witnesses *)


Lemma cache_bytes_exact_witness :
  totalCachedBytes_ (sys_cache (after wrote1)) = 5 ∧
  totalCachedBytes_ (sys_cache (after wrote1)) = cachedPayload (sys_cache (after wrote1)) ∧
  is_u64 (cachedPayload (sys_cache (after wrote1))).
Proof. split; [by vm_compute|]. apply (cache_bytes_exact (after wrote1)), wrote1_reachable. Defined.

Lemma cache_lists_exact_witness :
  let st := sys_cache (after wrote1) in
  (∃ n, (n, (1, 0)) ∈ globalGroupLRU_ st) ↔
   ∃ r t g, cachedT st 1 r t ∧ groups t !! 0 = Some g ∧
     ∀ j s, sys_sgs (after wrote1) !! j = Some s → cacheGroup_ s ≠ g.
Proof. apply (cache_lists_exact (after wrote1) 1 0), wrote1_reachable. Defined.

(** Groups of 80 and 40 bytes are written, and closed in this order. *)
Definition wrote80 : list op := open1 ++ [OObject 1 0 (filler 80) [] false 10].
Definition open2 : list op := wrote80 ++ [OBeginSubgroup 0 1 0 (value tt)].
Definition wrote120 : list op := open2 ++ [OObject 2 0 (filler 40) [] false 20].
Definition idle120 : list op := wrote120 ++ [OCloseSubgroup 1; OCloseSubgroup 2].

Lemma wrote80_reachable : reachable (after wrote80).
Proof.
  apply (reach_step (after open1) (OObject 1 0 (filler 80) [] false 10));
    [apply open1_reachable| |by vm_compute].
  apply object_admissible; [apply open1_writer|by vm_compute].
Qed.

Lemma open2_reachable : reachable (after open2).
Proof.
  apply (reach_step (after wrote80) (OBeginSubgroup 0 1 0 (value tt)));
    [apply wrote80_reachable| |by vm_compute].
  intros w _. split; [by vm_compute|]. intros j s Hj _.
  assert (map_Forall (λ _ s, group_ s ≠ 1) (sys_sgs (after wrote80))) as Hall
    by (apply (bool_decide_unpack _); by vm_compute).
  apply (Hall j s Hj).
Qed.

Lemma idle120_reachable : reachable (after idle120).
Proof.
  apply (reach_step (after (wrote120 ++ [OCloseSubgroup 1])) (OCloseSubgroup 2)); [|exact I|by vm_compute].
  apply (reach_step (after wrote120) (OCloseSubgroup 1)); [|exact I|by vm_compute].
  apply (reach_step (after open2) (OObject 2 0 (filler 40) [] false 20));
    [apply open2_reachable| |by vm_compute].
  apply object_admissible; [|by vm_compute].
  exists (mkSubgroup 1 0 0 4 1 0 0). split; [by vm_compute|]. by vm_compute.
Qed.

(** The group of 80 bytes goes, the group of 40 bytes stays. *)
Lemma byte_limit_eviction_witness :
  let st := sys_cache (after idle120) in
  0 < maxCachedBytes_ st < totalCachedBytes_ st ∧
  ∃ st' gone, evictForByteLimitIfNeeded st = Some (st', true) ∧
    globalGroupLRU_ st = globalGroupLRU_ st' ++ gone ∧ gone.*2 = [(1, 0)] ∧
    totalCachedBytes_ st' = 40 ∧ 50 < totalCachedBytes_ st' + groupPayload st (1, 0).
Proof.
  intros st. assert (0 < maxCachedBytes_ st < totalCachedBytes_ st) as Hlim by (by vm_compute).
  split; [exact Hlim|].
  destruct (byte_limit_eviction (after idle120) idle120_reachable)
    as (st' & b & gone & E & _ & Hl & _ & _ & Hend & _).
  assert ((λ x, (globalGroupLRU_ x.1, totalCachedBytes_ x.1, x.2)) <$> evictForByteLimitIfNeeded st =
          Some ([(10, (1, 1))], 40, true)) as Hrun by (vm_compute; reflexivity).
  assert (globalGroupLRU_ st = [(10, (1, 1)); (8, (1, 0))]) as Hst by (vm_compute; reflexivity).
  fold st in E, Hl, Hend. rewrite E in Hrun. cbn in Hrun. injection Hrun as H1 H2 ->.
  exists st', gone. split; [exact E|]. split; [exact Hl|].
  rewrite H1, Hst in Hl. cbn in Hl. injection Hl as <-. split; [done|]. split; [exact H2|].
  destruct (Hend Hlim) as (_ & Hmin & _). exact (Hmin 8 (1, 0) [] eq_refl).
Defined.

(** The writer of [open1]. *)
Definition writer1 : SubgroupWriteback (FullTrackName:=Z) := mkSubgroup 0 0 0 1 1 0 0.

(** Another group of 97 bytes is written beside the object, ends, and is evicted
    when the limit is lowered. *)
Definition beside : list op :=
  [OBeginSubgroup 0 1 0 (value tt); OObject 2 0 (filler 97) [] false 20; OCloseSubgroup 2;
   OSetMaxCachedBytes 50].

Lemma sparing_step f gid o j at_ x rest (y y' : system) :
  sysStep x y = Some y' → admissible x y → spares f gid o j at_ x y →
  sparing f gid o j at_ rest y' → sparing f gid o j at_ (x :: rest) y.
Proof. intros E Ha Hs Hr. split; [done|]. split; [done|]. intros y1 E1. congruence. Qed.

Lemma beside_sparing : sparing 1 0 0 1 10 beside (after wrote1).
Proof.
  apply (sparing_step _ _ _ _ _ _ _ _ (after (wrote1 ++ take 1 beside))); [by vm_compute| |exact I|].
  { intros w _. split; [by vm_compute|]. intros j s Hj _.
    assert (map_Forall (λ _ s, group_ s ≠ 1) (sys_sgs (after wrote1))) as Hall
      by (apply (bool_decide_unpack _); by vm_compute).
    apply (Hall j s Hj). }
  apply (sparing_step _ _ _ _ _ _ _ _ (after (wrote1 ++ take 2 beside))); [by vm_compute| | |].
  { apply (object_admissible (wrote1 ++ take 1 beside)); [|by vm_compute].
    exists (mkSubgroup 1 0 0 4 1 0 0). split; [by vm_compute|]. by vm_compute. }
  { intros w Hw. vm_compute in Hw. by injection Hw as <-. }
  apply (sparing_step _ _ _ _ _ _ _ _ (after (wrote1 ++ take 3 beside))); [by vm_compute|exact I|done|].
  apply (sparing_step _ _ _ _ _ _ _ _ (after (wrote1 ++ beside))); [by vm_compute|by vm_compute|exact I|].
  exact I.
Qed.

Lemma written_object_found_witness :
  let y := after (wrote1 ++ beside) in
  totalCachedBytes_ (sys_cache y) = 5 ∧
  ∃ en, getCachedObjectMaybe 0 (mkLoc 0 0) 1000 (sys_cache y) = Some (sys_cache y, Some en) ∧
    payload en = filler 5.
Proof.
  intros y. split; [vm_compute; reflexivity|].
  assert (with_store (sys_cache (after wrote1)) (after open1) = after wrote1) as Ey
    by (vm_compute; reflexivity).
  destruct (tracks (sys_cache (after open1)) !! 0) as [t|] eqn:Et; [|by vm_compute in Et].
  destruct (written_object_found (after open1) 1 writer1 t 0 (filler 5) [] false 10
              (sys_cache (after wrote1)) (CallObject 0 (filler 5) [] false) beside y 1000)
    as (en & Hen & Hp & _).
  - apply open1_reachable.
  - apply object_admissible; [apply open1_writer|by vm_compute].
  - by vm_compute.
  - exact Et.
  - vm_compute in Et. by injection Et as <-.
  - vm_compute. reflexivity.
  - rewrite Ey. apply beside_sparing.
  - vm_compute. reflexivity.
  - intros r t' d [Hf Ht'] Hd. vm_compute in Hf. injection Hf as <-.
    vm_compute in Ht'. injection Ht' as <-. vm_compute in Hd. done.
  - exists en. split; [exact Hen|exact Hp].
Defined.

(** An end-of-group marker for an object that exists. *)
Definition end1 :=
  writeThrough writer1 0 END_OF_GROUP false [] None true 20 (CallEndOfGroup 0) (sys_cache (after wrote1)).

Lemma rejected_write_keeps_objects_witness :
  ∃ st' err, end1 = Some (st', Reject [CallReset] err) ∧
    totalCachedBytes_ st' = totalCachedBytes_ (sys_cache (after wrote1)).
Proof.
  destruct end1 as [[st' [|calls err]]|] eqn:E; [by vm_compute in E| |by vm_compute in E].
  destruct (rejected_write_keeps_objects (after wrote1) 1 writer1 0 END_OF_GROUP false [] None true 20
              (CallEndOfGroup 0) st' calls err) as (Hb & _ & ->).
  - apply wrote1_reachable.
  - by vm_compute.
  - by vm_compute.
  - by vm_compute.
  - exact E.
  - exists st', err. split; [done|exact Hb].
Defined.

(** ** Outside the discipline *)

Section Stuck.
Context `{LocationOps} {IS : Type} `{IntervalOps IS} {Extensions : Type}
        `{ExtensionOps Extensions} {FullTrackName : Type} `{Countable FullTrackName}.

(** A round of the byte-limit loop that changes nothing repeats forever. *)
Lemma evictForByteLimit_stuck n f gid
    (st : MoqxCache (IS:=IS) (Extensions:=Extensions) (FullTrackName:=FullTrackName)) :
  targetBytes st < totalCachedBytes_ st → last (globalGroupLRU_ st) = Some (n, (f, gid)) →
  evictOldestGroup f gid st = Some st → ∀ fuel, evictForByteLimit fuel st = None.
Proof.
  intros Ht Hl Hs fuel. induction fuel as [|fuel IH]; cbn [evictForByteLimit]; rewrite Hl;
    (destruct (Z.ltb_spec (targetBytes st) (totalCachedBytes_ st)); [|lia]); [done|].
  rewrite Hs. exact IH.
Qed.

End Stuck.

(** Subscribe, open a subgroup, purge the track, and end the subgroup and the
    subscription; then the track is published again and cached. *)
Definition purgedWhileOpen : list op :=
  open1 ++ [OPurge 1; OCloseSubgroup 1; OUnsubscribe 0; OSubscribe 1;
            OObjectStream 2 (mkHeader 5 0 0 NORMAL []) (filler 60) 30].

(** After a track is purged while one of its subgroups is open, the end of
    the subgroup leaves a stale node in the global group list, and once the
    track is cached again an eviction for the byte limit does not terminate. *)
Theorem purge_of_open_subgroup_hangs :
  ∃ y, sysRun purgedWhileOpen start = Some y ∧
    ∀ fuel, evictForByteLimit fuel (with_limits 100 3 50 0 (sys_cache y)) = None.
Proof.
  exists (after purgedWhileOpen). split; [by vm_compute|].
  apply (evictForByteLimit_stuck 5 1 0); by vm_compute.
Qed.

(** Two subgroups of one group; the first ends, and a write to another group
    evicts the group before the second writes on. *)
Definition sharedGroup : list op :=
  [OSubscribe 1; OBeginSubgroup 0 0 0 (value tt); OBeginSubgroup 0 0 1 (value tt);
   OCloseSubgroup 1; OBeginSubgroup 0 1 0 (value tt); OObject 3 0 (filler 200) [] false 10;
   OObject 2 0 (filler 10) [] false 11].

(** When one of two subgroups of a group ends, the group can be evicted
    while the other still writes: its bytes are counted and never given back. *)
Theorem shared_group_leaks :
  ∃ y, sysRun sharedGroup start = Some y ∧
    totalCachedBytes_ (sys_cache y) = 210 ∧ cachedPayload (sys_cache y) = 200.
Proof. exists (after sharedGroup). split; [by vm_compute|]. split; by vm_compute. Qed.

(** An object of ten bytes is begun with five of them; it expires, and a lookup
    drops it, before the rest arrives. *)
Definition expiredWhileOpen : list op :=
  OSetDefaultMaxCacheDuration (Some 1) ::
  open1 ++ [OBeginObject 1 0 10 (filler 5) [] 0; OLookup 1 (mkLoc 0 0) 2000000].

(** A lookup drops an object that expires while its payload still arrives,
    and the next piece of payload dereferences a null entry. *)
Theorem payload_of_expired_object_crashes :
  ∃ y, sysRun expiredWhileOpen start = Some y ∧
    sysStep (OObjectPayload 1 (replicate 5 7) false) y = None.
Proof. exists (after expiredWhileOpen). split; by vm_compute. Qed.

(** An end-of-group marker that is rejected, because the object exists with
    another status, has already declared the rest of the group non-existent. *)
Theorem rejected_end_marker_leaves_gaps :
  ∃ st' err, end1 = Some (st', Reject [CallReset] err) ∧
    (endOfGroup <$> groupHeap st' !! 1) = Some true ∧
    ((λ t, iv_contains (gaps t) (mkLoc 0 1)) <$> tracks st' !! 0) = Some true ∧
    ((λ t, iv_contains (gaps t) (mkLoc 0 (object kLocationMax))) <$> tracks st' !! 0) = Some true.
Proof.
  destruct end1 as [[st' out]|] eqn:E; vm_compute in E; [|done]. injection E as <- <-.
  eexists _, _. split; [reflexivity|]. split_and!; by vm_compute.
Qed.

End CacheExamples.
