(* ===== verification/FetchExamples.v ===== *)
(** * Fetches: runs

    The states at which the theorems about fetches apply, and two fetches of
    opposite order that abort the process. *)

From S2P Require Import Prelude Locations CacheRanges CacheStore FetchIterator FetchWriteback.
From S2P Require Import CacheFetch FetchTheorems CacheSystem CacheExamples.
Import StdLocations.

Module FetchExamples.
Import CacheExamples.

Notation mcache := (MoqxCache (IS:=ivset) (Extensions:=ext) (FullTrackName:=Z)).
Notation mcall := (FetchCall (Extensions:=ext)).

(** A group with one object and its end. *)
Definition group0 : mcache :=
  sys_cache (after (open1 ++ [OObject 1 0 (filler 5) [] false 10; OEndOfGroup 1 1 11])).
Definition track0 : CacheTrack := default newTrack (tracks group0 !! 0).

Definition request (o : GroupOrder) (a b : AbsoluteLocation) : Fetch (FullTrackName:=Z) :=
  mkFetchReq 7 1 a b 0 o.

(** An upstream that delivers one object of five bytes in two pieces and ends
    the fetch with the second. *)
Definition pieces (q : Fetch (FullTrackName:=Z)) : Answer (Extensions:=ext) :=
  mkAnswer (value (mkOk 0 OldestFirst false (f_end q) []))
    [(FBeginObject (group (f_start q)) 0 (object (f_start q)) 5 (filler 2) [], 20);
     (FObjectPayload [7; 7; 7] true, 21)] 22.

Definition accept (c : mcall) : Expected PublishError unit := value tt.

Lemma group0_shape : tracks group0 !! 0 = Some track0 ∧ fetchesInProgress track0 = [] ∧
  groups track0 = {[ 0 := 1 ]} ∧ endOfTrack track0 = false.
Proof. by vm_compute. Qed.

Definition grp0 : CacheGroup := default newGroup (groupHeap group0 !! 1).

Lemma grp0_shape : groupHeap group0 !! 1 = Some grp0 ∧ maxCachedObject grp0 = 1 ∧
  dom (objects grp0) = {[ 0; 1 ]}.
Proof. by vm_compute. Qed.

Lemma group0_bounded : bounded group0 track0.
Proof.
  destruct group0_shape as (_ & _ & Eg & _). destruct grp0_shape as (Hg & Hm & Hd).
  intros gid g. rewrite Eg. intros [<- <-]%lookup_singleton_Some. exists grp0. split; [done|].
  rewrite Hm. split; [by vm_compute|]. intros o en Ho.
  assert (o ∈ dom (objects grp0)) as Hin by (apply elem_of_dom; eauto). rewrite Hd in Hin.
  apply elem_of_union in Hin as [->%elem_of_singleton| ->%elem_of_singleton]; done.
Qed.

(** The objects that [group0] holds. *)
Definition object_ (o : Z) : CacheEntry (Extensions:=ext) :=
  default (mkEntry 0 NORMAL [] None 0 false false 0) (objects grp0 !! o).

Lemma stored0 o : o = 0 ∨ o = 1 → stored group0 track0 (mkLoc 0 o) (object_ o).
Proof. intros [->| ->]; exists 1, grp0; by vm_compute. Qed.

Lemma group0_cached : fullyCached group0 track0 30 (mkLoc 0 0) (mkLoc 1 0).
Proof.
  intros x [Hx1 Hx2] Ha Hb. assert (group x = 0) as Eg by (unfold loc_le, loc_lt in *; cbn in *; lia).
  destruct (decide (object x = 0 ∨ object x = 1)) as [Ho|Ho].
  - right. exists (object_ (object x)). replace x with (mkLoc 0 (object x)) by (destruct x; cbn in *; congruence).
    cbn [object]. split; [by apply stored0|]. destruct Ho as [-> | ->]; vm_compute; split_and!; eauto; discriminate.
  - left. assert (ivs (gaps track0) = [(mkLoc 0 2, mkLoc 0 (object kLocationMax))]) as E by (by vm_compute).
    destruct x as [g o]. cbn in Eg, Ho, Hx2. subst g. unfold iv_contains. cbn. rewrite E. cbn.
    unfold holds. loc_unfold. cbn. lia.
Qed.


Lemma payload_end_suspends_fetch_witness :
  ∃ res, fetchUpstream pieces 100 (mkLoc 1 0) (mkLoc 1 5) false
           (request OldestFirst (mkLoc 1 0) (mkLoc 2 0)) 0 group0 = Some res ∧ res.2 = UpSuspended.
Proof.
  destruct (fetchUpstream pieces 100 (mkLoc 1 0) (mkLoc 1 5) false
              (request OldestFirst (mkLoc 1 0) (mkLoc 2 0)) 0 group0) as [res|] eqn:E;
    [|vm_compute in E; discriminate E].
  exists res. split; [reflexivity|].
  apply (payload_end_suspends_fetch pieces 100 (mkLoc 1 0) (mkLoc 1 5)
           (request OldestFirst (mkLoc 1 0) (mkLoc 2 0)) 0 group0 res).
  - intros q. reflexivity.
  - exact E.
  - intros q err. discriminate.
Defined.

(** A gap from the end of group 4 into group 5, as an oldest-first fetch that
    misses [{5, 0}] inserts it. *)
Definition crossing : mcache :=
  put_track 0 (insertGap (mkLoc 4 3) (mkLoc 5 0) newTrack) (newCache 100 3 100 50).

Definition atTail : FetchRangeIterator :=
  mkIter (mkLoc 5 0) (mkLoc 5 3) NewestFirst 0 (mkLoc 5 2) (mkLoc 5 3) true
    (group kLocationMax, None) (group kLocationMax, None).

Lemma newest_first_jumps_back_witness :
  skipUncached crossing atTail = Some (set_current (mkLoc 5 0) atTail).
Proof.
  destruct (tracks crossing !! 0) as [t|] eqn:Et; [|vm_compute in Et; discriminate Et].
  apply (newest_first_jumps_back crossing t atTail (mkLoc 4 3) (mkLoc 5 0)
           (mkLoc 4 (object kLocationMax))); try exact Et; try reflexivity;
    vm_compute in Et; injection Et as <-.
  - intros E. discriminate E.
  - by vm_compute.
  - intros first last Hf. vm_compute in Hf. discriminate Hf.
  - by vm_compute.
  - right. by vm_compute.
  - by vm_compute.
Defined.

(** ** Fetches that meet *)

(** A track with one object of group 3, whose objects expire after one
    millisecond. *)
Definition oneObject : mcache :=
  sys_cache (after [OSetDefaultMaxCacheDuration (Some 1); OSubscribe 1;
                    OObjectStream 0 (mkHeader 3 0 0 NORMAL []) (filler 5) 10; OUnsubscribe 0]).

(** An upstream fetch of the groups 0 and 1 is in progress, and has delivered
    its first object. *)
Definition inProgress (o : GroupOrder) (gid : Z) : option mcache :=
  it ← newIterator (mkLoc 0 0) (mkLoc 2 0) o 0 oneObject;
  '(st1, w) ← newFetchWriteback 100 (mkLoc 0 0) (mkLoc 2 0) true it 1 oneObject;
  '(st2, _, _) ← fwObject gid 0 0 (filler 3) [] false false 20 w st1;
  Some st2.

(** A fetch of the object that has been delivered, at a given time. *)
Definition refetch (now : Z) (st : mcache) :=
  fetch_ pieces accept (value tt) 1 (request OldestFirst (mkLoc 0 0) (mkLoc 0 1)) 200 now st.

(** A fetch of an object that has expired while the upstream fetch that
    delivered it is still in progress aborts the process; before the object
    expires the same fetch is served. *)
Theorem expired_refetch_aborts :
  ∃ st, inProgress OldestFirst 0 = Some st ∧ is_Some (refetch 30 st) ∧ refetch 3000000 st = None.
Proof.
  destruct (inProgress OldestFirst 0) as [st|] eqn:E; [|by vm_compute in E].
  exists st. vm_compute in E. injection E as <-. split; [done|]. split; [|by vm_compute].
  vm_compute. eauto.
Qed.

(** While a newest-first fetch is in progress, the positions of the older
    groups that it has still to deliver do not count as in progress: another
    fetch asks the upstream for them again. *)
Theorem newest_first_not_coalesced :
  ∃ st t, inProgress NewestFirst 1 = Some st ∧ tracks st !! 0 = Some t ∧
    iv_contains (cachedContent t) (mkLoc 0 0) = false ∧
    findFetchInProgress (mkLoc 0 0) t = None ∧ findFetchInProgress (mkLoc 1 1) t = Some 100.
Proof.
  destruct (inProgress NewestFirst 1) as [st|] eqn:E; [|by vm_compute in E].
  destruct (tracks st !! 0) as [t|] eqn:Et; vm_compute in E; injection E as <-; vm_compute in Et; [|done].
  injection Et as <-. eexists _, _. split; [reflexivity|]. split; [reflexivity|].
  split_and!; by vm_compute.
Qed.

End FetchExamples.
