(* ===== verification/NamespaceTree.v ===== *)
(** * The namespace tree

    [src/src/NamespaceTree.{h,cpp}]: the tree of announced namespaces and
    namespace subscriptions.  A node is identified by its path from the root,
    written leaf first, so that the parent of [k :: p] is [p] (the code's
    [parent_]), the children of [p] are the nodes [k :: p] (the code's
    [children_], keyed by [k]), and the root is [[]].  Erasing a child from
    [children_] drops the whole subtree.

    A failed [XCHECK] and the dereference of a null ranking are [None]. *)

From S2P Require Import Prelude.

Section Tree.
Context {Session : Type} `{Countable Session}.
Context {NsHandle PubHandle PubCallback Ranking : Type}.

Inductive SubscribeNamespaceOptions := PUBLISH | NAMESPACE | BOTH.

Record TrackFilter := mkTrackFilter { propertyType : Z; maxSelected : Z }.

Record NamespaceSubscriberInfo := mkInfo {
  forward : bool;
  options : SubscribeNamespaceOptions;
  namespacePublishHandle : option NsHandle;
  trackNamespacePrefix : list string;
  trackFilter : option TrackFilter;
}.

Record NamespaceNode := mkNode {
  trackNamespace : list string;
  activeChildCount_ : Z;
  publisherSession_ : option Session;
  publisherPeerID_ : string;
  publishes_ : gmap string Session;
  subscribers_ : gmap Session NamespaceSubscriberInfo;
  publishNamespaceCallback_ : option PubCallback;
  publishNamespaceOk : option Z;
  rankings_ : gmap Z (option Ranking);
  draft14PubNsHandles_ : gmap Session PubHandle;
}.

Abbreviation tree := (gmap (list string) NamespaceNode).
Abbreviation rpath := (list string).
Abbreviation SessionSubscriberList := (list (Session * NamespaceSubscriberInfo)).

Definition newNode (ns : list string) : NamespaceNode :=
  mkNode ns 0 None "" ∅ ∅ None None ∅ ∅.

(** The tree of a new relay: the root alone. *)
Definition emptyTree : tree := {[ [] := newNode [] ]}.

Definition set_active (a : Z) (n : NamespaceNode) : NamespaceNode :=
  mkNode (trackNamespace n) a (publisherSession_ n) (publisherPeerID_ n) (publishes_ n)
    (subscribers_ n) (publishNamespaceCallback_ n) (publishNamespaceOk n) (rankings_ n)
    (draft14PubNsHandles_ n).
Definition set_publishes (m : gmap string Session) (n : NamespaceNode) : NamespaceNode :=
  mkNode (trackNamespace n) (activeChildCount_ n) (publisherSession_ n) (publisherPeerID_ n) m
    (subscribers_ n) (publishNamespaceCallback_ n) (publishNamespaceOk n) (rankings_ n)
    (draft14PubNsHandles_ n).
Definition set_subscribers (m : gmap Session NamespaceSubscriberInfo) (n : NamespaceNode) :
    NamespaceNode :=
  mkNode (trackNamespace n) (activeChildCount_ n) (publisherSession_ n) (publisherPeerID_ n)
    (publishes_ n) m (publishNamespaceCallback_ n) (publishNamespaceOk n) (rankings_ n)
    (draft14PubNsHandles_ n).
Definition set_handles (m : gmap Session PubHandle) (n : NamespaceNode) : NamespaceNode :=
  mkNode (trackNamespace n) (activeChildCount_ n) (publisherSession_ n) (publisherPeerID_ n)
    (publishes_ n) (subscribers_ n) (publishNamespaceCallback_ n) (publishNamespaceOk n)
    (rankings_ n) m.
Definition set_rankings (m : gmap Z (option Ranking)) (n : NamespaceNode) : NamespaceNode :=
  mkNode (trackNamespace n) (activeChildCount_ n) (publisherSession_ n) (publisherPeerID_ n)
    (publishes_ n) (subscribers_ n) (publishNamespaceCallback_ n) (publishNamespaceOk n)
    m (draft14PubNsHandles_ n).
Definition clear_publisher (n : NamespaceNode) : NamespaceNode :=
  mkNode (trackNamespace n) (activeChildCount_ n) None (publisherPeerID_ n) (publishes_ n)
    (subscribers_ n) None (publishNamespaceOk n) (rankings_ n) (draft14PubNsHandles_ n).
Definition install_publisher (ns : list string) (session : Session) (peerID : string)
    (callback : option PubCallback) (requestID : Z) (n : NamespaceNode) : NamespaceNode :=
  mkNode ns (activeChildCount_ n) (Some session) peerID (publishes_ n) (subscribers_ n)
    callback (Some requestID) (rankings_ n) (draft14PubNsHandles_ n).

(** The edits that the operations below bracket with a guard. *)
Definition drop_announcement (n : NamespaceNode) : NamespaceNode :=
  mkNode (trackNamespace n) (activeChildCount_ n) None "" (publishes_ n) (subscribers_ n) None
    (publishNamespaceOk n) (rankings_ n) ∅.
Definition remove_publish (trackName : string) (n : NamespaceNode) : NamespaceNode :=
  set_publishes (delete trackName (publishes_ n)) n.
Definition put_publish (trackName : string) (session : Session) (n : NamespaceNode) :
    NamespaceNode :=
  set_publishes (<[trackName := session]> (publishes_ n)) n.
Definition put_subscriber (session : Session) (info : NamespaceSubscriberInfo)
    (n : NamespaceNode) : NamespaceNode :=
  match subscribers_ n !! session with
  | Some _ => n
  | None => set_subscribers (<[session := info]> (subscribers_ n)) n
  end.
Definition remove_subscriber (session : Session) (n : NamespaceNode) : NamespaceNode :=
  set_subscribers (delete session (subscribers_ n)) n.
Definition put_handle (session : Session) (handle : PubHandle) (n : NamespaceNode) :
    NamespaceNode :=
  match draft14PubNsHandles_ n !! session with
  | Some _ => n
  | None => set_handles (<[session := handle]> (draft14PubNsHandles_ n)) n
  end.

(** [NamespaceNode::hasContent] and [NamespaceTree::shouldKeep] *)
Definition hasContent (n : NamespaceNode) : bool :=
  negb (bool_decide (publishes_ n = ∅)) || negb (bool_decide (subscribers_ n = ∅)) ||
  negb (bool_decide (draft14PubNsHandles_ n = ∅)) ||
  bool_decide (is_Some (publisherSession_ n)).
Definition shouldKeep (n : NamespaceNode) : bool :=
  hasContent n || (0 <? activeChildCount_ n).

(** [incrementActiveChildren] *)
Fixpoint incrementActiveChildren (t : tree) (p : rpath) : tree :=
  match t !! p with
  | None => t
  | Some n =>
      let t' := <[p := set_active (activeChildCount_ n + 1) n]> t in
      match p with
      | [] => t'
      | _ :: parent =>
          if (activeChildCount_ n + 1 =? 1) && negb (hasContent n)
          then incrementActiveChildren t' parent else t'
      end
  end.

(** Erasing the child [v] from its parent's [children_]. *)
Definition eraseSubtree (v : rpath) (t : tree) : tree :=
  filter (λ '(q, _), ¬ v `suffix_of` q) t.

(** The loop of [tryPruneChild]: decrements the counts on the way up and
    finds the highest empty ancestor.  [None] is the failed [XCHECK_GT]. *)
Fixpoint pruneWalk (t : tree) (current victim : rpath) : option (tree * rpath) :=
  match t !! current with
  | None => None
  | Some n =>
      if activeChildCount_ n <=? 0 then None
      else
        let n' := set_active (activeChildCount_ n - 1) n in
        let t' := <[current := n']> t in
        if hasContent n' || (0 <? activeChildCount_ n') then Some (t', victim)
        else
          match current with
          | [] => Some (t', victim)
          | _ :: parent => pruneWalk t' parent current
          end
  end.

(** [tryPruneChild] *)
Definition tryPruneChild (t : tree) (parentNode : rpath) (childKey : string) : option tree :=
  match t !! (childKey :: parentNode) with
  | None => Some t
  | Some childNode =>
      if shouldKeep childNode then Some t
      else
        '(t', victim) ← pruneWalk t parentNode (childKey :: parentNode);
        Some (eraseSubtree victim t')
  end.

(** [notifyParentIfFirstContent] *)
Definition notifyParentIfFirstContent (t : tree) (p : rpath) (wasEmpty : bool) : tree :=
  match t !! p, p with
  | Some n, _ :: parent =>
      if wasEmpty && hasContent n then incrementActiveChildren t parent else t
  | _, _ => t
  end.

(** [tryPruneSelf] *)
Definition tryPruneSelf (t : tree) (p : rpath) (hadContent : bool) : option tree :=
  match t !! p, p with
  | Some n, key :: parent =>
      if hadContent && negb (shouldKeep n) then tryPruneChild t parent key else Some t
  | _, _ => Some t
  end.

(** A mutation [f] of the node [p] bracketed by a [NodeMutationGuard]. *)
Definition guarded (t : tree) (p : rpath) (f : NamespaceNode → NamespaceNode) : option tree :=
  match t !! p with
  | None => None
  | Some n =>
      let hadContent := hasContent n in
      let t1 := <[p := f n]> t in
      let t2 := notifyParentIfFirstContent t1 p (negb hadContent) in
      tryPruneSelf t2 p hadContent
  end.

(** ** Lookup *)

Inductive MatchType := Exact | Prefix.
Inductive Error := NodeNotFound | NotOwner | NotSubscribed.

Definition subscribersAt (t : tree) (p : rpath) : SessionSubscriberList :=
  match t !! p with Some n => map_to_list (subscribers_ n) | None => [] end.

(** The loop of [findNode] from the node [at_] on: the new tree, the node
    found and the subscribers collected on the way. *)
Fixpoint findNodeFrom (t : tree) (at_ : rpath) (rest : list string)
    (createMissingNodes : bool) (matchType : MatchType) (subscribers : SessionSubscriberList) :
    tree * option rpath * SessionSubscriberList :=
  match rest with
  | [] => (t, Some at_, subscribers)
  | name :: rest' =>
      let subscribers' := subscribers ++ subscribersAt t at_ in
      match t !! (name :: at_) with
      | Some _ => findNodeFrom t (name :: at_) rest' createMissingNodes matchType subscribers'
      | None =>
          if createMissingNodes then
            findNodeFrom (<[name :: at_ := newNode (rev (name :: at_))]> t) (name :: at_) rest'
              createMissingNodes matchType subscribers'
          else
            match matchType, at_ with
            | Prefix, _ :: _ => (t, Some at_, subscribers')
            | _, _ => (t, None, subscribers')
            end
      end
  end.

(** [findNode] *)
Definition findNode (t : tree) (ns : list string) (createMissingNodes : bool)
    (matchType : MatchType) : tree * option rpath * SessionSubscriberList :=
  findNodeFrom t [] ns createMissingNodes matchType [].

(** [findPublisherSession] *)
Definition findPublisherSession (t : tree) (ns : list string) : option Session :=
  match findNode t ns false Prefix with
  | (_, Some p, _) => n ← t !! p; publisherSession_ n
  | (_, None, _) => None
  end.

(** ** Updates *)

Record SetPublisherResult := {
  sp_node : rpath;
  sp_subscribers : SessionSubscriberList;
  sp_replacedSession : option Session;
  (** The callback on which [publishNamespaceCancel] was called. *)
  sp_cancelled : option PubCallback;
}.

(** [setPublisher] *)
Definition setPublisher (t : tree) (ns : list string) (session : Session)
    (callback : option PubCallback) (peerID : string) (requestID : Z) :
    option (tree * SetPublisherResult) :=
  match findNode t ns true Exact with
  | (t1, Some p, subscribers) =>
      n ← t1 !! p;
      let replaced := publisherSession_ n in
      let cancelled :=
        match replaced with Some _ => publishNamespaceCallback_ n | None => None end in
      let t2 :=
        match replaced with Some _ => <[p := clear_publisher n]> t1 | None => t1 end in
      let subscribers' := subscribers ++ subscribersAt t2 p in
      t3 ← guarded t2 p (install_publisher ns session peerID callback requestID);
      Some (t3, {| sp_node := p; sp_subscribers := subscribers';
                   sp_replacedSession := replaced; sp_cancelled := cancelled |})
  | (_, None, _) => None
  end.

Record UnpublishNamespaceResult := {
  un_subscribers : SessionSubscriberList;
  un_legacyHandles : list (Session * PubHandle);
}.

(** [unpublishNamespace] *)
Definition unpublishNamespace (t : tree) (ns : list string) (session : Session) :
    option (tree * Expected Error UnpublishNamespaceResult) :=
  match findNode t ns false Exact with
  | (_, None, _) => Some (t, unexpected NodeNotFound)
  | (_, Some p, subscribers) =>
      n ← t !! p;
      if bool_decide (publisherSession_ n = Some session) then
        let result :=
          {| un_subscribers := subscribers ++ subscribersAt t p;
             un_legacyHandles := map_to_list (draft14PubNsHandles_ n) |} in
        t' ← guarded t p drop_announcement;
        Some (t', value result)
      else Some (t, unexpected NotOwner)
  end.

(** [unpublishTrack] *)
Definition unpublishTrack (t : tree) (ns : list string) (trackName : string) :
    option (tree * Expected Error unit) :=
  match findNode t ns false Exact with
  | (_, None, _) => Some (t, unexpected NodeNotFound)
  | (_, Some p, _) =>
      t' ← guarded t p (remove_publish trackName);
      Some (t', value tt)
  end.

(** The rankings passed to [onRanking]: those of the node and its ancestors. *)
Fixpoint rankingsUp (t : tree) (p : rpath) : list (Z * Ranking) :=
  match t !! p with
  | Some n => omap (λ '(ty, r), (λ r, (ty, r)) <$> r) (map_to_list (rankings_ n))
  | None => []
  end ++ match p with [] => [] | _ :: parent => rankingsUp t parent end.

(** [addPublish]: the new tree, the node, the subscribers and the calls of
    [onRanking]. *)
Definition addPublish (t : tree) (ns : list string) (trackName : string) (session : Session) :
    option (tree * (rpath * SessionSubscriberList * list (Z * Ranking))) :=
  match findNode t ns true Exact with
  | (t1, Some p, subscribers) =>
      let subscribers' := subscribers ++ subscribersAt t1 p in
      t2 ← guarded t1 p (put_publish trackName session);
      Some (t2, (p, subscribers', rankingsUp t2 p))
  | (_, None, _) => None
  end.

(** [addNamespaceSubscriber]; [emplace] keeps an existing entry. *)
Definition addNamespaceSubscriber (t : tree) (ns : list string) (session : Session)
    (info : NamespaceSubscriberInfo) : option (tree * rpath) :=
  match findNode t ns true Exact with
  | (t1, Some p, _) =>
      t2 ← guarded t1 p (put_subscriber session info);
      Some (t2, p)
  | (_, None, _) => None
  end.

(** [removeNamespaceSubscriber]: also the ranking and the [maxSelected] from
    which the session was removed.  A null ranking is dereferenced. *)
Definition removeNamespaceSubscriber (t : tree) (ns : list string) (session : Session) :
    option (tree * Expected Error (option (Ranking * Z))) :=
  match findNode t ns false Exact with
  | (_, None, _) => Some (t, unexpected NodeNotFound)
  | (_, Some p, _) =>
      n ← t !! p;
      match subscribers_ n !! session with
      | None => Some (t, unexpected NotSubscribed)
      | Some info =>
          removed ←
            match trackFilter info with
            | Some f =>
                match rankings_ n !! propertyType f with
                | Some (Some r) => Some (Some (r, maxSelected f))
                | Some None => None
                | None => Some None
                end
            | None => Some None
            end;
          t' ← guarded t p (remove_subscriber session);
          Some (t', value removed)
      end
  end.

(** [getOrInsertRanking] and the store through the reference it returns. *)
Definition setRanking (t : tree) (p : rpath) (ty : Z) (r : option Ranking) : tree :=
  alter (λ n, set_rankings (<[ty := r]> (rankings_ n)) n) p t.
Definition getOrInsertRanking (t : tree) (p : rpath) (ty : Z) : tree * option Ranking :=
  match t !! p with
  | Some n =>
      match rankings_ n !! ty with
      | Some r => (t, r)
      | None => (setRanking t p ty None, None)
      end
  | None => (t, None)
  end.

(** [addDraft14PublishNamespaceHandle], which has no mutation guard. *)
Definition addDraft14PublishNamespaceHandle (t : tree) (p : rpath) (session : Session)
    (handle : PubHandle) : tree :=
  alter (put_handle session handle) p t.

(** ** Invariant *)

Definition kept (t : tree) (p : rpath) : Prop :=
  ∃ n, t !! p = Some n ∧ shouldKeep n = true.

(** The children of [p] that hold content in their subtree, as the counts
    see it. *)
Definition keptChildren (t : tree) (p : rpath) : gset rpath :=
  dom (filter (λ '(q, n), q ≠ [] ∧ tail q = p ∧ shouldKeep n = true) t).

Definition nkept (t : tree) (p : rpath) : Z := Z.of_nat (size (keptChildren t p)).

(** Every count is at least the number of children to keep, plus [d] at the
    node [p0]. *)
Definition countsAtLeast (t : tree) (p0 : rpath) (d : Z) : Prop :=
  ∀ p n, t !! p = Some n →
    nkept t p + (if decide (p = p0) then d else 0) <= activeChildCount_ n ∧
    0 <= activeChildCount_ n.

Definition closed (t : tree) : Prop :=
  is_Some (t !! []) ∧ ∀ k p, is_Some (t !! (k :: p)) → is_Some (t !! p).

(** Every node off the path to [p] is there for a reason. *)
Definition noEmptyOff (t : tree) (p : rpath) : Prop :=
  ∀ q, q ≠ [] → is_Some (t !! q) → kept t q ∨ q `suffix_of` p.

(** The invariant of the tree between two operations. *)
Record wf (t : tree) : Prop := {
  wf_closed : closed t;
  wf_counts : countsAtLeast t [] 0;
  wf_kept : noEmptyOff t [];
}.

Lemma elem_keptChildren t p q :
  q ∈ keptChildren t p ↔ ∃ k, q = k :: p ∧ kept t q.
Proof.
  unfold keptChildren, kept. rewrite elem_of_dom. unfold is_Some.
  setoid_rewrite map_lookup_filter_Some.
  split.
  - intros (n & Hn & Hne & Ht & Hk). destruct q as [|k q]; [done|]. simpl in Ht. subst q. eauto.
  - intros (k & -> & n & Hn & Hk). eauto.
Qed.

Lemma nkept_nonneg t p : 0 <= nkept t p.
Proof. unfold nkept. lia. Qed.

Lemma nkept_mono t t' p : (∀ k, kept t (k :: p) → kept t' (k :: p)) → nkept t p <= nkept t' p.
Proof.
  intros Hk. unfold nkept. apply Nat2Z.inj_le. apply subseteq_size. intros q.
  rewrite !elem_keptChildren. naive_solver.
Qed.

Lemma nkept_le_S t t' p q :
  (∀ k, kept t (k :: p) → k :: p = q ∨ kept t' (k :: p)) → nkept t p <= nkept t' p + 1.
Proof.
  intros Hk. unfold nkept.
  assert (keptChildren t p ⊆ {[q]} ∪ keptChildren t' p) as Hs.
  { intros x. rewrite elem_of_union, elem_of_singleton, !elem_keptChildren. naive_solver. }
  apply subseteq_size in Hs. rewrite size_union_alt, size_singleton in Hs.
  assert (size (keptChildren t' p ∖ {[q]}) <= size (keptChildren t' p))%nat.
  { apply subseteq_size. set_solver. }
  lia.
Qed.

Lemma nkept_S_le t t' p k :
  (∀ k, kept t' (k :: p) → kept t (k :: p)) → kept t (k :: p) → ¬ kept t' (k :: p) →
  nkept t' p + 1 <= nkept t p.
Proof.
  intros Hk Hin Hout. unfold nkept.
  assert (keptChildren t' p ⊂ keptChildren t p) as Hs%subset_size.
  { split.
    - intros q. rewrite !elem_keptChildren. naive_solver.
    - intros Hs. apply Hout. specialize (Hs (k :: p)). rewrite !elem_keptChildren in Hs.
      destruct Hs as (? & ? & ?); eauto. }
  lia.
Qed.

(** ** Counting up and down *)

(** The tree without its counts. *)
Definition strip (t : tree) : tree := set_active 0 <$> t.

Lemma strip_insert t p n a : t !! p = Some n → strip (<[p := set_active a n]> t) = strip t.
Proof.
  intros Hp. apply map_eq. intros q. unfold strip. rewrite !lookup_fmap.
  destruct (decide (q = p)) as [->|]; [|by rewrite lookup_insert_ne].
  by rewrite lookup_insert_eq, Hp.
Qed.

Lemma strip_lookup t t' p n : strip t' = strip t → t !! p = Some n →
  ∃ a, t' !! p = Some (set_active a n).
Proof.
  intros Hs Hp. assert (strip t' !! p = strip t !! p) as E by by rewrite Hs.
  unfold strip in E. rewrite !lookup_fmap, Hp in E. simpl in E.
  destruct (t' !! p) as [n'|]; [|done]. injection E as E. exists (activeChildCount_ n').
  destruct n, n'. unfold set_active in *; simpl in *. congruence.
Qed.

Lemma strip_is_Some t t' p : strip t' = strip t → is_Some (t' !! p) ↔ is_Some (t !! p).
Proof.
  intros Hs. assert (strip t' !! p = strip t !! p) as E by by rewrite Hs.
  unfold strip in E. rewrite !lookup_fmap in E. destruct (t' !! p), (t !! p); naive_solver.
Qed.

Lemma strip_closed t t' : strip t' = strip t → closed t → closed t'.
Proof.
  intros Hs [H1 H2]. split; [by rewrite strip_is_Some|].
  intros k p. rewrite !(strip_is_Some t t') by done. apply H2.
Qed.

Lemma kept_insert t p n q :
  kept (<[p := n]> t) q ↔ (q = p ∧ shouldKeep n = true) ∨ (q ≠ p ∧ kept t q).
Proof.
  unfold kept. destruct (decide (q = p)) as [->|Hq].
  - rewrite lookup_insert_eq. naive_solver.
  - rewrite lookup_insert_ne by done. naive_solver.
Qed.

Lemma shouldKeep_set_active a n :
  shouldKeep (set_active a n) = hasContent n || (0 <? a).
Proof. done. Qed.

Lemma countsAtLeast_zero t p p' : countsAtLeast t p 0 → countsAtLeast t p' 0.
Proof. intros Hc q n Hq. destruct (Hc q n Hq). repeat case_decide; lia. Qed.

(** Counting one more child at [p]. *)
Lemma bump_spec t p n : t !! p = Some n → countsAtLeast t p (-1) →
  let t' := <[p := set_active (activeChildCount_ n + 1) n]> t in
  kept t' p ∧ (∀ q, kept t q → kept t' q) ∧
  (p = [] ∨ kept t p → countsAtLeast t' [] 0) ∧
  (∀ k parent, p = k :: parent → countsAtLeast t' parent (-1)).
Proof.
  intros Hn Hc t'. destruct (Hc _ _ Hn) as [Hc1 Hc2]. rewrite decide_True in Hc1 by done.
  assert (kept t' p) as Hkp.
  { apply kept_insert. left. split; [done|]. rewrite shouldKeep_set_active. lia. }
  assert (∀ q, kept t q → kept t' q) as Hmono.
  { intros q Hq. destruct (decide (q = p)) as [->|]; [done|]. apply kept_insert. by right. }
  assert (∀ q, kept t' q → q = p ∨ kept t q) as Hinv.
  { intros q Hq. apply kept_insert in Hq. tauto. }
  assert (∀ q m, t' !! q = Some m → ∃ m', t !! q = Some m' ∧
            activeChildCount_ m = activeChildCount_ m' + (if decide (q = p) then 1 else 0)) as Hact.
  { intros q m. unfold t'. destruct (decide (q = p)) as [->|].
    - rewrite lookup_insert_eq. intros [= <-]. exists n. done.
    - rewrite lookup_insert_ne by done. intros Hq. exists m. split; [done|lia]. }
  split_and!; try done.
  - intros Hp q m Hq. destruct (Hact q m Hq) as (m' & Hq' & ->).
    destruct (Hc _ _ Hq') as [Hc3 Hc4].
    assert (nkept t' q <= nkept t q).
    { apply nkept_mono. intros k Hk. destruct (Hinv _ Hk) as [E|]; [|done].
      destruct Hp as [->|Hp]; [done|]. by rewrite E. }
    repeat case_decide; lia.
  - intros k parent -> q m Hq. destruct (Hact q m Hq) as (m' & Hq' & ->).
    destruct (Hc _ _ Hq') as [Hc3 Hc4].
    destruct (decide (q = parent)) as [->|Hqp].
    + assert (nkept t' parent <= nkept t parent + 1).
      { apply (nkept_le_S _ _ _ (k :: parent)). intros k' Hk'. by apply Hinv. }
      repeat case_decide; simplify_eq; lia.
    + assert (nkept t' q <= nkept t q).
      { apply nkept_mono. intros k' Hk'. destruct (Hinv _ Hk') as [[= -> ->]|]; done. }
      repeat case_decide; lia.
Qed.

Lemma incrementActiveChildren_spec t p :
  is_Some (t !! p) → closed t → countsAtLeast t p (-1) →
  let t' := incrementActiveChildren t p in
  strip t' = strip t ∧ countsAtLeast t' [] 0 ∧ kept t' p ∧ ∀ q, kept t q → kept t' q.
Proof.
  revert t. induction p as [|k parent IH]; intros t [n Hn] Hcl Hc;
    destruct (bump_spec _ _ _ Hn Hc) as (Hk & Hmono & Hdone & Hup); simpl; rewrite Hn.
  - split_and!; eauto using strip_insert.
  - destruct ((activeChildCount_ n + 1 =? 1) && negb (hasContent n)) eqn:E.
    + specialize (IH (<[k :: parent := set_active (activeChildCount_ n + 1) n]> t)).
      destruct IH as (IH1 & IH2 & IH3 & IH4).
      * rewrite lookup_insert_ne by (intros E'; apply (f_equal length) in E'; simpl in E'; lia).
        apply Hcl with k. eauto.
      * eapply strip_closed; [|done]. by apply strip_insert.
      * by apply (Hup k).
      * split_and!; eauto. rewrite IH1. by apply strip_insert.
    + split_and!; eauto using strip_insert. apply Hdone. right.
      destruct (Hc _ _ Hn) as [_ Hn0]. exists n. split; [done|]. unfold shouldKeep.
      destruct (hasContent n); [done|]. simpl in *. lia.
Qed.

(** [p] loses a child that its count still includes. *)
Lemma drop_spec t p n : t !! p = Some n → countsAtLeast t p 1 →
  let n' := set_active (activeChildCount_ n - 1) n in
  let t' := <[p := n']> t in
  0 < activeChildCount_ n ∧ (∀ q, kept t' q → kept t q) ∧
  (∀ q, kept t q → q = p ∨ kept t' q) ∧
  (p = [] ∨ shouldKeep n' = true → countsAtLeast t' [] 0) ∧
  (∀ k parent, p = k :: parent → shouldKeep n' = false → countsAtLeast t' parent 1).
Proof.
  intros Hn Hc n' t'. destruct (Hc _ _ Hn) as [Hc1 Hc2]. rewrite decide_True in Hc1 by done.
  pose proof (nkept_nonneg t p) as Hnn.
  assert (kept t p) as Hkp.
  { exists n. split; [done|]. unfold shouldKeep. apply orb_true_iff. right. lia. }
  assert (∀ q, kept t' q → kept t q) as Hmono.
  { intros q Hq. apply kept_insert in Hq. destruct Hq as [[-> _]|[_ ?]]; done. }
  assert (∀ q m, t' !! q = Some m → ∃ m', t !! q = Some m' ∧
            activeChildCount_ m = activeChildCount_ m' - (if decide (q = p) then 1 else 0)) as Hact.
  { intros q m. unfold t'. destruct (decide (q = p)) as [->|].
    - rewrite lookup_insert_eq. intros [= <-]. exists n. done.
    - rewrite lookup_insert_ne by done. intros Hq. exists m. split; [done|lia]. }
  assert (∀ q, nkept t' q <= nkept t q) as Hle.
  { intros q. apply nkept_mono. eauto. }
  split_and!; try done; [lia| | |].
  - intros q Hq. destruct (decide (q = p)); [by left|right]. apply kept_insert. by right.
  - intros Hp q m Hq. destruct (Hact q m Hq) as (m' & Hq' & ->).
    destruct (Hc _ _ Hq') as [Hc3 Hc4]. specialize (Hle q). pose proof (nkept_nonneg t q).
    repeat case_decide; simplify_eq; lia.
  - intros k parent -> Hk q m Hq. destruct (Hact q m Hq) as (m' & Hq' & ->).
    destruct (Hc _ _ Hq') as [Hc3 Hc4]. specialize (Hle q). pose proof (nkept_nonneg t q).
    destruct (decide (q = parent)) as [->|Hqp].
    + assert (nkept t' parent + 1 <= nkept t parent).
      { apply (nkept_S_le _ _ _ k); [eauto|done|]. unfold t'. rewrite kept_insert.
        intros [[_ ?]|[? _]]; [congruence|done]. }
      repeat case_decide; simplify_eq; lia.
    + repeat case_decide; simplify_eq; lia.
Qed.

Lemma pruneWalk_spec t current victim :
  is_Some (t !! current) → closed t → countsAtLeast t current 1 →
  ¬ kept t victim → victim ≠ [] → current `suffix_of` victim →
  ∃ t' v, pruneWalk t current victim = Some (t', v) ∧
    strip t' = strip t ∧ countsAtLeast t' [] 0 ∧ ¬ kept t' v ∧ v ≠ [] ∧ v `suffix_of` victim ∧
    ∀ q, q ≠ [] → kept t q → kept t' q ∨ v `suffix_of` q.
Proof.
  revert t victim. induction current as [|k parent IH];
    intros t victim [n Hn] Hcl Hc Hv Hne Hsuf;
    destruct (drop_spec _ _ _ Hn Hc) as (Hpos & Hback & Hfwd & Hdone & Hup); simpl; rewrite Hn;
    rewrite (proj2 (Z.leb_gt _ _)) by done.
  - eexists _, victim. split; [by case_match|].
    split_and!; try done; eauto using strip_insert.
    intros q Hq0 Hq. destruct (Hfwd _ Hq) as [->|?]; [done|by left].
  - set (n' := set_active (activeChildCount_ n - 1) n) in *.
    change (activeChildCount_ n') with (activeChildCount_ n - 1).
    change (hasContent n' || (0 <? activeChildCount_ n - 1)) with (shouldKeep n').
    destruct (shouldKeep n') eqn:Ek.
    + eexists _, victim. split; [done|]. split_and!; try done; eauto using strip_insert.
      intros q _ Hq. left. destruct (Hfwd _ Hq) as [->|]; [|done].
      apply kept_insert. by left.
    + destruct (IH (<[k :: parent := n']> t) (k :: parent)) as (t' & v & Hw & IH1 & IH2 & IH3 &
        IH4 & IH5 & IH6).
      * rewrite lookup_insert_ne by (intros E'; apply (f_equal length) in E'; simpl in E'; lia).
        apply Hcl with k. eauto.
      * eapply strip_closed; [|done]. by apply strip_insert.
      * by apply (Hup k).
      * intros [[_ E']|[E' _]]%kept_insert; [congruence|done].
      * done.
      * by apply suffix_cons_r.
      * exists t', v. rewrite Hw. split_and!; try done.
        -- rewrite IH1. by apply strip_insert.
        -- by etrans.
        -- intros q Hq0 Hq. destruct (Hfwd _ Hq) as [->|Hq']; [by right|by apply IH6].
Qed.

(** ** Pruning removes only empty nodes *)

Lemma kept_parent t k p : closed t → countsAtLeast t [] 0 → kept t (k :: p) → kept t p.
Proof.
  intros Hcl Hc Hk. destruct (proj2 Hcl k p) as [n Hn]; [destruct Hk as (? & ? & ?); eauto|].
  destruct (Hc _ _ Hn) as [Hc1 _]. exists n. split; [done|]. unfold shouldKeep.
  assert (1 <= nkept t p).
  { unfold nkept. assert (k :: p ∈ keptChildren t p) as Hin by (apply elem_keptChildren; eauto).
    assert (size (keptChildren t p) ≠ 0%nat) by (apply size_non_empty_iff; set_solver). lia. }
  apply orb_true_iff. right. case_decide; lia.
Qed.

Lemma kept_ancestor t p q :
  closed t → countsAtLeast t [] 0 → q `suffix_of` p → kept t p → kept t q.
Proof. intros Hcl Hc [x ->]. induction x; simpl; eauto using kept_parent. Qed.

Lemma eraseSubtree_lookup t v q :
  eraseSubtree v t !! q = if decide (v `suffix_of` q) then None else t !! q.
Proof.
  unfold eraseSubtree. apply option_eq. intros n. rewrite map_lookup_filter_Some.
  case_decide; naive_solver.
Qed.

Lemma eraseSubtree_kept t v q : kept (eraseSubtree v t) q ↔ kept t q ∧ ¬ v `suffix_of` q.
Proof. unfold kept. rewrite eraseSubtree_lookup. case_decide; naive_solver. Qed.

Lemma eraseSubtree_closed t v : v ≠ [] → closed t → closed (eraseSubtree v t).
Proof.
  intros Hv [H1 H2]. split.
  - rewrite eraseSubtree_lookup, decide_False; [done|]. intros [x Hx]. by destruct x, v.
  - intros k p. rewrite !eraseSubtree_lookup. repeat case_decide; eauto; [intros []; done|].
    exfalso. naive_solver eauto using suffix_cons_r.
Qed.

Lemma eraseSubtree_counts t v : countsAtLeast t [] 0 → countsAtLeast (eraseSubtree v t) [] 0.
Proof.
  intros Hc p n. rewrite eraseSubtree_lookup. case_decide; [done|]. intros Hp.
  destruct (Hc _ _ Hp). assert (nkept (eraseSubtree v t) p <= nkept t p).
  { apply nkept_mono. intros k. rewrite eraseSubtree_kept. tauto. }
  case_decide; lia.
Qed.

(** What the namespace [q] holds: the fields that [hasContent] looks at. *)
Record Content := mkContent {
  c_publisher : option Session;
  c_publishes : gmap string Session;
  c_subscribers : gmap Session NamespaceSubscriberInfo;
  c_handles : gmap Session PubHandle;
}.
Definition noContent : Content := mkContent None ∅ ∅ ∅.
Definition nodeContent (n : NamespaceNode) : Content :=
  mkContent (publisherSession_ n) (publishes_ n) (subscribers_ n) (draft14PubNsHandles_ n).
Definition contentAt (t : tree) (q : rpath) : Content :=
  match t !! q with Some n => nodeContent n | None => noContent end.

Lemma hasContent_false n : hasContent n = false ↔ nodeContent n = noContent.
Proof.
  unfold hasContent, nodeContent, noContent. rewrite !orb_false_iff, !negb_false_iff.
  rewrite !bool_decide_eq_true, bool_decide_eq_false, <-eq_None_not_Some.
  split; [intros (((? & ?) & ?) & ?); congruence|intros [= ]; naive_solver].
Qed.

Lemma contentAt_strip t t' q : strip t' = strip t → contentAt t' q = contentAt t q.
Proof.
  intros Hs. unfold contentAt. destruct (t !! q) as [n|] eqn:Hq.
  - destruct (strip_lookup _ _ _ _ Hs Hq) as [a ->]. done.
  - apply eq_None_not_Some in Hq. rewrite <-(strip_is_Some _ _ _ Hs) in Hq.
    apply eq_None_not_Some in Hq. by rewrite Hq.
Qed.

Lemma contentAt_kept t q : ¬ kept t q → contentAt t q = noContent.
Proof.
  intros Hk. unfold contentAt. destruct (t !! q) as [n|] eqn:Hq; [|done].
  apply hasContent_false. destruct (hasContent n) eqn:E; [|done]. destruct Hk.
  exists n. split; [done|]. unfold shouldKeep. by rewrite E.
Qed.

Lemma eraseSubtree_content t v q :
  closed t → countsAtLeast t [] 0 → ¬ kept t v →
  contentAt (eraseSubtree v t) q = contentAt t q.
Proof.
  intros Hcl Hc Hv. unfold contentAt at 1. rewrite eraseSubtree_lookup.
  case_decide as Hs; [|done]. symmetry. apply contentAt_kept. intros Hk.
  apply Hv. eauto using kept_ancestor.
Qed.

(** ** A guarded mutation

    [f] replaces the contents of the node [p] and leaves its count alone. *)

Lemma path_cases (p : rpath) : p = [] ∨ ∃ k parent, p = k :: parent.
Proof. destruct p; eauto. Qed.

Section Guard.
Context (t : tree) (p : rpath) (n m : NamespaceNode).
Context (Hn : t !! p = Some n) (Hact : activeChildCount_ m = activeChildCount_ n).
Context (Hcl : closed t) (Hc : countsAtLeast t [] 0).

Let t1 : tree := <[p := m]> t.

Lemma replace_lookup q : is_Some (t1 !! q) ↔ is_Some (t !! q).
Proof.
  unfold t1. destruct (decide (q = p)) as [->|]; [|by rewrite lookup_insert_ne].
  rewrite lookup_insert_eq, Hn. naive_solver.
Qed.

Lemma replace_closed : closed t1.
Proof.
  destruct Hcl as [H1 H2]. split; [by rewrite replace_lookup|].
  intros k q. rewrite !replace_lookup. apply H2.
Qed.

Lemma replace_active q x : t1 !! q = Some x →
  ∃ y, t !! q = Some y ∧ activeChildCount_ x = activeChildCount_ y.
Proof.
  unfold t1. destruct (decide (q = p)) as [->|].
  - rewrite lookup_insert_eq. intros [= <-]. eauto.
  - rewrite lookup_insert_ne by done. eauto.
Qed.

Lemma replace_content q :
  contentAt t1 q = if decide (q = p) then nodeContent m else contentAt t q.
Proof.
  unfold contentAt, t1. case_decide as E; [subst; by rewrite lookup_insert_eq|].
  by rewrite lookup_insert_ne.
Qed.

(** The node is kept after the replacement only if it was kept before. *)
Lemma replace_counts :
  (p = [] ∨ (shouldKeep m = true → shouldKeep n = true)) → countsAtLeast t1 [] 0.
Proof.
  intros Hp q x Hq. destruct (replace_active q x Hq) as (y & Hy & ->).
  destruct (Hc _ _ Hy). assert (nkept t1 q <= nkept t q).
  { apply nkept_mono. intros k [[E Hm]|[_ ?]]%kept_insert; [|done].
    destruct Hp as [->|Hp]; [done|]. rewrite E. exists n. eauto. }
  case_decide; lia.
Qed.

Lemma replace_counts_gain k parent : p = k :: parent → countsAtLeast t1 parent (-1).
Proof.
  intros Hp q x Hq. destruct (replace_active q x Hq) as (y & Hy & ->).
  destruct (Hc _ _ Hy) as [Hc1 Hc2]. destruct (decide (q = parent)) as [->|Hne].
  - assert (nkept t1 parent <= nkept t parent + 1).
    { apply (nkept_le_S _ _ _ p). intros k' [[E _]|[_ ?]]%kept_insert; eauto. }
    repeat case_decide; lia.
  - assert (nkept t1 q <= nkept t q).
    { apply nkept_mono. intros k' [[E _]|[_ ?]]%kept_insert; [|done]. congruence. }
    repeat case_decide; lia.
Qed.

Lemma replace_counts_loss k parent :
  p = k :: parent → shouldKeep n = true → shouldKeep m = false → countsAtLeast t1 parent 1.
Proof.
  intros Hp Hkn Hkm q x Hq. destruct (replace_active q x Hq) as (y & Hy & ->).
  destruct (Hc _ _ Hy) as [Hc1 Hc2].
  assert (∀ q, kept t1 q → kept t q) as Hmono.
  { intros q' [[-> ?]|[_ ?]]%kept_insert; [congruence|done]. }
  destruct (decide (q = parent)) as [->|Hne].
  - assert (nkept t1 parent + 1 <= nkept t parent).
    { apply (nkept_S_le _ _ _ k); [eauto| |].
      - rewrite <-Hp. exists n. done.
      - rewrite <-Hp. intros [[_ ?]|[? _]]%kept_insert; [congruence|done]. }
    repeat case_decide; lia.
  - assert (nkept t1 q <= nkept t q) by (apply nkept_mono; eauto).
    repeat case_decide; lia.
Qed.

Lemma notify_root w : p = [] → notifyParentIfFirstContent t1 p w = t1.
Proof. intros E. rewrite E. unfold notifyParentIfFirstContent. by destruct (t1 !! []). Qed.

Lemma notify_child w k parent : p = k :: parent →
  notifyParentIfFirstContent t1 p w =
    if w && hasContent m then incrementActiveChildren t1 parent else t1.
Proof.
  intros Ep. unfold notifyParentIfFirstContent, t1. rewrite lookup_insert_eq. by rewrite Ep at 1.
Qed.

(** The node holds content for the first time. *)
Lemma guard_gain : noEmptyOff t p → hasContent m = true →
  let t2 := notifyParentIfFirstContent t1 p true in
  wf t2 ∧ strip t2 = strip t1.
Proof.
  intros Hoff Hcm. assert (kept t1 p) as Hk1.
  { apply kept_insert. left. split; [done|]. unfold shouldKeep. by rewrite Hcm. }
  destruct (path_cases p) as [Ep|(k & parent & Ep)].
  - rewrite notify_root by done. split; [|done].
    split; [apply replace_closed|apply replace_counts; by left|].
    intros q Hq Hsome. rewrite replace_lookup in Hsome.
    destruct (Hoff q Hq Hsome) as [Hk|Hs]; [left|right; by rewrite Ep in Hs].
    apply kept_insert. right. split; [by rewrite Ep|done].
  - rewrite (notify_child _ k parent), Hcm by done. simpl.
    destruct (incrementActiveChildren_spec t1 parent) as (Hs & Hc2 & Hkp & Hmono).
    + rewrite replace_lookup. apply (proj2 Hcl k). rewrite <-Ep, Hn. eauto.
    + apply replace_closed.
    + by eapply replace_counts_gain.
    + split; [|done]. pose proof (strip_closed _ _ Hs replace_closed) as Hcl2.
      split; [done|done|]. intros q Hq Hsome. left.
      rewrite (strip_is_Some _ _ _ Hs), replace_lookup in Hsome.
      destruct (Hoff q Hq Hsome) as [Hk|Hsuf].
      * apply Hmono. destruct (decide (q = p)) as [->|]; [done|]. apply kept_insert. by right.
      * apply (kept_ancestor _ p); eauto.
Qed.

(** The node was kept and is kept, or was not and is not. *)
Lemma guard_same : noEmptyOff t [] → shouldKeep m = shouldKeep n → wf t1.
Proof.
  intros Hoff Hk. split; [apply replace_closed|apply replace_counts; right; congruence|].
  intros q Hq Hsome. rewrite replace_lookup in Hsome.
  destruct (Hoff q Hq Hsome) as [Hkq|Hs]; [|by right]. left. apply kept_insert.
  destruct (decide (q = p)) as [->|]; [left|by right]. split; [done|].
  destruct Hkq as (n' & Hn' & ?). congruence.
Qed.

(** The node is now empty and is pruned. *)
Lemma guard_prune k parent : p = k :: parent → noEmptyOff t [] →
  shouldKeep n = true → shouldKeep m = false →
  ∃ t', tryPruneChild t1 parent k = Some t' ∧ wf t' ∧ ∀ q, contentAt t' q = contentAt t1 q.
Proof.
  intros Ep Hoff Hkn Hkm. unfold tryPruneChild. rewrite <-Ep. unfold t1 at 1.
  rewrite lookup_insert_eq, Hkm.
  destruct (pruneWalk_spec t1 parent p) as (t2 & v & -> & Hs & Hc2 & Hv & Hv0 & Hvs & Hkeep).
  - rewrite replace_lookup. apply (proj2 Hcl k). rewrite <-Ep, Hn. eauto.
  - apply replace_closed.
  - by eapply replace_counts_loss.
  - intros [[_ ?]|[? _]]%kept_insert; [congruence|done].
  - by rewrite Ep.
  - rewrite Ep. by apply suffix_cons_r.
  - simpl. pose proof (strip_closed _ _ Hs replace_closed) as Hcl2.
    eexists; split; [done|]. split; [split|].
    + by apply eraseSubtree_closed.
    + by apply eraseSubtree_counts.
    + intros q Hq. rewrite eraseSubtree_lookup. case_decide as Hvq; [intros []; done|].
      intros Hsome. left. rewrite (strip_is_Some _ _ _ Hs), replace_lookup in Hsome.
      apply eraseSubtree_kept. split; [|done].
      destruct (Hoff q Hq Hsome) as [Hk|[x Hx]]; [|by destruct x, q].
      destruct (Hkeep q) as [|]; [done| |done|done].
      apply kept_insert. right. split; [|done]. intros ->. done.
    + intros q. rewrite eraseSubtree_content by done. by apply contentAt_strip.
Qed.
Lemma guard_root : p = [] → noEmptyOff t [] → wf t1.
Proof.
  intros Ep Hoff. split; [apply replace_closed|apply replace_counts; by left|].
  intros q Hq Hsome. rewrite replace_lookup in Hsome.
  destruct (Hoff q Hq Hsome) as [Hk|Hs]; [left|by right].
  apply kept_insert. right. split; [by rewrite Ep|done].
Qed.
End Guard.

Lemma noEmptyOff_mono t p q : q `suffix_of` p → noEmptyOff t q → noEmptyOff t p.
Proof.
  intros Hs Hoff x Hx Hsome. destruct (Hoff x Hx Hsome); [by left|right]. by etrans.
Qed.

Lemma noEmptyOff_nil t p : noEmptyOff t [] → noEmptyOff t p.
Proof. apply noEmptyOff_mono, suffix_nil. Qed.

Lemma noEmptyOff_kept t p : closed t → countsAtLeast t [] 0 → kept t p →
  noEmptyOff t p → noEmptyOff t [].
Proof.
  intros Hcl Hc Hk Hoff q Hq Hsome. left.
  destruct (Hoff q Hq Hsome); [done|]. by apply (kept_ancestor _ p).
Qed.

Lemma tryPruneSelf_false t p : tryPruneSelf t p false = Some t.
Proof. unfold tryPruneSelf. by destruct (t !! p), p. Qed.

(** A guarded mutation never fails an [XCHECK], preserves the invariant,
    changes the contents of its node as [f] says and of no other node. *)
Lemma guarded_spec t p n f :
  t !! p = Some n → activeChildCount_ (f n) = activeChildCount_ n →
  closed t → countsAtLeast t [] 0 → noEmptyOff t p →
  hasContent (f n) = true ∨ noEmptyOff t [] →
  ∃ t', guarded t p f = Some t' ∧ wf t' ∧
    ∀ q, contentAt t' q = if decide (q = p) then nodeContent (f n) else contentAt t q.
Proof.
  intros Hn Hact Hcl Hc Hoff Hor. unfold guarded. rewrite Hn.
  setoid_rewrite <-(replace_content t p (f n)).
  destruct (hasContent n) eqn:Ehad; simpl negb.
  - assert (kept t p) as Hk by (exists n; split; [done|]; unfold shouldKeep; by rewrite Ehad).
    assert (noEmptyOff t []) as Hoff0 by by eapply noEmptyOff_kept.
    destruct (path_cases p) as [Ep|(k & parent & Ep)].
    + rewrite notify_root by done. exists (<[p := f n]> t). split; [|eauto using guard_root].
      rewrite Ep. unfold tryPruneSelf. by destruct (_ !! []).
    + rewrite (notify_child t p (f n) _ k parent) by done. simpl.
      unfold tryPruneSelf. rewrite lookup_insert_eq, Ep, <-Ep.
      destruct (shouldKeep (f n)) eqn:Ek; simpl.
      * eexists; split; [done|]. split; [|done]. eapply guard_same; eauto.
        rewrite Ek. unfold shouldKeep. by rewrite Ehad.
      * eapply guard_prune; eauto. unfold shouldKeep. by rewrite Ehad.
  - rewrite tryPruneSelf_false. eexists; split; [done|].
    destruct (hasContent (f n)) eqn:Econt.
    + destruct (guard_gain t p n (f n)) as [Hwf Hs]; try done. split; [done|].
      intros q. by apply contentAt_strip.
    + destruct Hor as [|Hoff0]; [done|].
      assert (notifyParentIfFirstContent (<[p := f n]> t) p true = <[p := f n]> t) as ->.
      { unfold notifyParentIfFirstContent. rewrite lookup_insert_eq, Econt. by destruct p. }
      split; [|done]. eapply guard_same; eauto. unfold shouldKeep.
      by rewrite Ehad, Econt, Hact.
Qed.

(** ** Rankings are never null *)

Definition rankingsFrom (t t' : tree) : Prop :=
  ∀ q x, t' !! q = Some x → ∃ y, t !! q = Some y ∧ rankings_ x = rankings_ y.

#[local] Instance rankingsFrom_preorder : PreOrder rankingsFrom.
Proof.
  split; [intros t q x ?; eauto|]. intros t1 t2 t3 H12 H23 q x Hx.
  destruct (H23 _ _ Hx) as (y & Hy & ->). eauto.
Qed.

Lemma rankingsFrom_set_active t p n a : t !! p = Some n →
  rankingsFrom t (<[p := set_active a n]> t).
Proof.
  intros Hp q x. destruct (decide (q = p)) as [->|].
  - rewrite lookup_insert_eq. intros [= <-]. eauto.
  - rewrite lookup_insert_ne by done. eauto.
Qed.

Lemma increment_rankings t p : rankingsFrom t (incrementActiveChildren t p).
Proof.
  revert t. induction p as [|k p IH]; intros t; simpl; destruct (t !! _) eqn:Hn; try done.
  - by apply rankingsFrom_set_active.
  - case_match; [|by apply rankingsFrom_set_active].
    etrans; [|apply IH]. by apply rankingsFrom_set_active.
Qed.

Lemma pruneWalk_rankings t current victim t' v :
  pruneWalk t current victim = Some (t', v) → rankingsFrom t t'.
Proof.
  revert t victim. induction current as [|k p IH]; intros t victim; simpl;
    destruct (t !! _) eqn:Hn; try done; case_match; try done; case_match;
    try (intros [= <- <-]; by apply rankingsFrom_set_active).
  intros Hw. etrans; [|by eapply IH]. by apply rankingsFrom_set_active.
Qed.

Lemma guarded_rankings t p n f t' : t !! p = Some n → rankings_ (f n) = rankings_ n →
  guarded t p f = Some t' → rankingsFrom t t'.
Proof.
  intros Hn Hr. unfold guarded. rewrite Hn.
  assert (rankingsFrom t (<[p := f n]> t)) as H1.
  { intros q x. destruct (decide (q = p)) as [->|].
    - rewrite lookup_insert_eq. intros [= <-]. eauto.
    - rewrite lookup_insert_ne by done. eauto. }
  set (t1 := <[p := f n]> t) in *.
  assert (rankingsFrom t (notifyParentIfFirstContent t1 p (negb (hasContent n)))) as H2.
  { unfold notifyParentIfFirstContent. repeat case_match; try done.
    etrans; [done|]. apply increment_rankings. }
  set (t2 := notifyParentIfFirstContent _ _ _) in *. unfold tryPruneSelf, tryPruneChild.
  repeat case_match; try (by intros [= <-]).
  intros ([t3 v] & Hw & [= <-])%bind_Some. etrans; [done|].
  apply pruneWalk_rankings in Hw. etrans; [done|]. intros q x.
  rewrite eraseSubtree_lookup. case_decide; [done|eauto].
Qed.

Definition noNullRanking (t : tree) : Prop :=
  ∀ q n ty, t !! q = Some n → rankings_ n !! ty ≠ Some None.

Lemma noNullRanking_from t t' : rankingsFrom t t' → noNullRanking t → noNullRanking t'.
Proof. intros Hf Hnn q x ty Hx. destruct (Hf _ _ Hx) as (y & Hy & ->). eauto. Qed.

(** ** Finding nodes *)

(** The nodes passed on the way from [at_] down [rest], the last one
    excluded. *)
Fixpoint passed (at_ : rpath) (rest : list string) : list rpath :=
  match rest with [] => [] | name :: rest' => at_ :: passed (name :: at_) rest' end.

Lemma elem_passed at_ rest q :
  q ∈ passed at_ rest ↔ ∃ a b, rest = a ++ b ∧ b ≠ [] ∧ q = rev a ++ at_.
Proof.
  revert at_. induction rest as [|name rest IH]; intros at_; simpl.
  - rewrite elem_of_nil. split; [done|]. intros (a & b & E & Hb & _). by destruct a, b.
  - rewrite elem_of_cons, IH. split.
    + intros [->|(a & b & -> & Hb & ->)]; [by exists [], (name :: rest)|].
      exists (name :: a), b. simpl. by rewrite <-app_assoc.
    + intros (a & b & E & Hb & ->). destruct a as [|x a]; [by left|right].
      injection E as -> ->. exists a, b. simpl. by rewrite <-app_assoc.
Qed.

Lemma kept_newNode ns : shouldKeep (newNode ns) = false.
Proof. done. Qed.

(** A fresh empty child leaves the counts and the contents as they are. *)
Lemma fresh_spec t k p :
  let t' := <[k :: p := newNode (rev (k :: p))]> t in
  t !! (k :: p) = None → is_Some (t !! p) → closed t → countsAtLeast t [] 0 →
  closed t' ∧ countsAtLeast t' [] 0 ∧ (∀ q, contentAt t' q = contentAt t q) ∧
  (noEmptyOff t p → noEmptyOff t' (k :: p)) ∧ (noNullRanking t → noNullRanking t').
Proof.
  intros t' Hnone Hp Hcl Hc.
  assert (∀ q, kept t' q → kept t q) as Hback.
  { intros q [[_ ?]|[_ ?]]%kept_insert; [by rewrite kept_newNode in *|done]. }
  split_and!.
  - destruct Hcl as [H1 H2]. unfold t'. split; [by rewrite lookup_insert_ne|]. intros k' q.
    destruct (decide (q = k :: p)) as [->|]; [by rewrite lookup_insert_eq|].
    rewrite (lookup_insert_ne _ _ q) by done.
    destruct (decide (k' :: q = k :: p)) as [[= -> ->]|]; [done|].
    rewrite lookup_insert_ne by done. apply H2.
  - intros q n. assert (nkept t' q <= nkept t q) by (apply nkept_mono; eauto).
    destruct (decide (q = k :: p)) as [->|Hq].
    + unfold t' at 1. rewrite lookup_insert_eq. intros [= <-]. simpl.
      assert (nkept t (k :: p) = 0).
      { unfold nkept. assert (size (keptChildren t (k :: p)) = 0%nat) as ->; [|done].
        apply size_empty_iff. intros x. rewrite elem_keptChildren. split; [|set_solver].
        intros (k' & -> & n & Hn & _). destruct (proj2 Hcl k' (k :: p)); [eauto|congruence]. }
      repeat case_decide; lia.
    + unfold t' at 1. rewrite lookup_insert_ne by done. intros Hn. destruct (Hc _ _ Hn).
      repeat case_decide; lia.
  - intros q. unfold contentAt, t'. destruct (decide (q = k :: p)) as [->|].
    + by rewrite lookup_insert_eq, Hnone.
    + by rewrite lookup_insert_ne.
  - intros Hoff q Hq. unfold t' at 1. destruct (decide (q = k :: p)) as [->|Hne]; [by right|].
    rewrite lookup_insert_ne by done. intros Hs. destruct (Hoff q Hq Hs) as [Hk|Hsuf].
    + left. apply kept_insert. by right.
    + right. by apply suffix_cons_r.
  - intros Hnn q n ty. unfold t'. destruct (decide (q = k :: p)) as [->|].
    + rewrite lookup_insert_eq. intros [= <-]. done.
    + rewrite lookup_insert_ne by done. apply Hnn.
Qed.

Lemma subscribersAt_content t t' q :
  c_subscribers (contentAt t' q) = c_subscribers (contentAt t q) →
  subscribersAt t' q = subscribersAt t q.
Proof.
  unfold contentAt, subscribersAt.
  destruct (t' !! q) as [x|], (t !! q) as [y|]; simpl; intros Hc; try done.
  - by rewrite Hc.
  - rewrite Hc. apply map_to_list_empty.
  - rewrite <-Hc. by rewrite map_to_list_empty.
Qed.

Lemma findNodeFrom_create t at_ rest mt subs :
  is_Some (t !! at_) → closed t → countsAtLeast t [] 0 → noEmptyOff t at_ → noNullRanking t →
  ∃ t', findNodeFrom t at_ rest true mt subs =
      (t', Some (rev rest ++ at_), subs ++ flat_map (subscribersAt t) (passed at_ rest)) ∧
    is_Some (t' !! (rev rest ++ at_)) ∧ closed t' ∧ countsAtLeast t' [] 0 ∧
    noEmptyOff t' (rev rest ++ at_) ∧ noNullRanking t' ∧
    ∀ q, contentAt t' q = contentAt t q.
Proof.
  revert t at_ subs. induction rest as [|name rest IH]; intros t at_ subs Hs Hcl Hc Hoff Hnn; simpl.
  - exists t. by rewrite app_nil_r.
  - rewrite <-app_assoc. simpl. destruct (t !! (name :: at_)) as [n|] eqn:Hn.
    + destruct (IH t (name :: at_) (subs ++ subscribersAt t at_)) as (t' & -> & Ht'); eauto.
      { apply (noEmptyOff_mono _ _ at_); [by apply suffix_cons_r|done]. }
      exists t'. by rewrite <-app_assoc.
    + destruct (fresh_spec t name at_) as (F1 & F2 & F3 & F4 & F5); try done.
      set (t1 := <[name :: at_ := _]> t) in *.
      destruct (IH t1 (name :: at_) (subs ++ subscribersAt t at_)) as (t' & Hf & Ht'); eauto.
      { unfold t1. rewrite lookup_insert_eq. eauto. }
      exists t'. simpl rev in Hf. rewrite Hf. rewrite <-app_assoc. split.
      * do 3 f_equal. apply flat_map_ext. intros q. apply subscribersAt_content. by rewrite F3.
      * destruct Ht' as (? & ? & ? & ? & ? & Hct). split_and!; try done.
        intros q. by rewrite Hct.
Qed.

Lemma findNodeFrom_exact t at_ rest subs :
  is_Some (t !! at_) → closed t →
  findNodeFrom t at_ rest false Exact subs =
    (t, if decide (is_Some (t !! (rev rest ++ at_))) then Some (rev rest ++ at_) else None,
     (findNodeFrom t at_ rest false Exact subs).2) ∧
  (is_Some (t !! (rev rest ++ at_)) →
     (findNodeFrom t at_ rest false Exact subs).2 =
       subs ++ flat_map (subscribersAt t) (passed at_ rest)).
Proof.
  revert at_ subs. induction rest as [|name rest IH]; intros at_ subs Hs Hcl; simpl.
  - rewrite decide_True by done. by rewrite app_nil_r.
  - rewrite <-app_assoc. simpl. destruct (t !! (name :: at_)) as [n|] eqn:Hn.
    + destruct (IH (name :: at_) (subs ++ subscribersAt t at_)) as [IH1 IH2]; eauto.
      split; [done|]. intros Hd. rewrite IH2 by done. by rewrite <-app_assoc.
    + assert (¬ is_Some (t !! (rev rest ++ name :: at_))) as Hnone.
      { intros Hd. revert Hn. apply not_eq_None_Some. revert Hd. generalize (rev rest).
        intros l. induction l as [|x l IHl]; simpl; [done|]. intros Hd.
        apply IHl. by apply (proj2 Hcl x). }
      rewrite decide_False by done. done.
Qed.

Lemma wf_root t : wf t → is_Some (t !! []).
Proof. intros Hwf. apply (wf_closed _ Hwf). Qed.

(** [findNode] in its two uses. *)
Lemma findNode_create t ns mt : wf t → noNullRanking t →
  ∃ t', findNode t ns true mt = (t', Some (rev ns), flat_map (subscribersAt t) (passed [] ns)) ∧
    is_Some (t' !! rev ns) ∧ closed t' ∧ countsAtLeast t' [] 0 ∧ noEmptyOff t' (rev ns) ∧
    noNullRanking t' ∧ ∀ q, contentAt t' q = contentAt t q.
Proof.
  intros Hwf Hnn. unfold findNode.
  destruct (findNodeFrom_create t [] ns mt []) as (t' & -> & Ht'); eauto using wf_root.
  - apply Hwf.
  - apply Hwf.
  - apply Hwf.
  - exists t'. by rewrite app_nil_r in *.
Qed.

Lemma findNode_exact t ns : wf t →
  ∃ subs, findNode t ns false Exact =
      (t, if decide (is_Some (t !! rev ns)) then Some (rev ns) else None, subs) ∧
    (is_Some (t !! rev ns) → subs = flat_map (subscribersAt t) (passed [] ns)).
Proof.
  intros Hwf. unfold findNode.
  destruct (findNodeFrom_exact t [] ns []) as [H1 H2]; [by apply wf_root|apply Hwf|].
  rewrite app_nil_r in *. eexists. split; [exact H1|done].
Qed.

(** ** The contract of the tree

    What a client sees: the contents of each namespace.  The operations are
    updates of the contents of one namespace; creating, counting and pruning
    nodes is invisible. *)

Inductive Op :=
| SetPublisher (ns : list string) (s : Session) (cb : option PubCallback) (peer : string) (rid : Z)
| UnpublishNamespace (ns : list string) (s : Session)
| UnpublishTrack (ns : list string) (tn : string)
| AddPublish (ns : list string) (tn : string) (s : Session)
| AddSubscriber (ns : list string) (s : Session) (i : NamespaceSubscriberInfo)
| RemoveSubscriber (ns : list string) (s : Session)
| AddHandle (ns : list string) (s : Session) (h : PubHandle)
| SetRanking (ns : list string) (ty : Z) (r : Ranking).

(** The code's transition; [None] when an [XCHECK] fails or a null pointer is
    dereferenced. *)
Definition step (t : tree) (op : Op) : option tree :=
  match op with
  | SetPublisher ns s cb peer rid => fst <$> setPublisher t ns s cb peer rid
  | UnpublishNamespace ns s => fst <$> unpublishNamespace t ns s
  | UnpublishTrack ns tn => fst <$> unpublishTrack t ns tn
  | AddPublish ns tn s => fst <$> addPublish t ns tn s
  | AddSubscriber ns s i => fst <$> addNamespaceSubscriber t ns s i
  | RemoveSubscriber ns s => fst <$> removeNamespaceSubscriber t ns s
  | AddHandle ns s h => Some (addDraft14PublishNamespaceHandle t (rev ns) s h)
  | SetRanking ns ty r => Some (setRanking t (rev ns) ty (Some r))
  end.

(** [c'] is [c] with the contents of [ns] changed by [f]. *)
Definition updated (c c' : rpath → Content) (ns : list string) (f : Content → Content) : Prop :=
  ∀ q, c' q = if decide (q = rev ns) then f (c q) else c q.

Definition c_setPublisher (s : Session) (x : Content) : Content :=
  mkContent (Some s) (c_publishes x) (c_subscribers x) (c_handles x).
Definition c_unpublish (s : Session) (x : Content) : Content :=
  if decide (c_publisher x = Some s)
  then mkContent None (c_publishes x) (c_subscribers x) ∅ else x.
Definition c_removePublish (tn : string) (x : Content) : Content :=
  mkContent (c_publisher x) (delete tn (c_publishes x)) (c_subscribers x) (c_handles x).
Definition c_putPublish (tn : string) (s : Session) (x : Content) : Content :=
  mkContent (c_publisher x) (<[tn := s]> (c_publishes x)) (c_subscribers x) (c_handles x).
Definition c_putSubscriber (s : Session) (i : NamespaceSubscriberInfo) (x : Content) : Content :=
  match c_subscribers x !! s with
  | Some _ => x
  | None => mkContent (c_publisher x) (c_publishes x) (<[s := i]> (c_subscribers x)) (c_handles x)
  end.
Definition c_removeSubscriber (s : Session) (x : Content) : Content :=
  mkContent (c_publisher x) (c_publishes x) (delete s (c_subscribers x)) (c_handles x).
Definition c_putHandle (s : Session) (h : PubHandle) (x : Content) : Content :=
  match c_handles x !! s with
  | Some _ => x
  | None => mkContent (c_publisher x) (c_publishes x) (c_subscribers x) (<[s := h]> (c_handles x))
  end.

Definition specStep (op : Op) (c c' : rpath → Content) : Prop :=
  match op with
  | SetPublisher ns s _ _ _ => updated c c' ns (c_setPublisher s)
  | UnpublishNamespace ns s => updated c c' ns (c_unpublish s)
  | UnpublishTrack ns tn => updated c c' ns (c_removePublish tn)
  | AddPublish ns tn s => updated c c' ns (c_putPublish tn s)
  | AddSubscriber ns s i => updated c c' ns (c_putSubscriber s i)
  | RemoveSubscriber ns s => updated c c' ns (c_removeSubscriber s)
  | AddHandle ns s h =>
      (** The node may have been pruned in the meantime. *)
      updated c c' ns id ∨ updated c c' ns (c_putHandle s h)
  | SetRanking ns _ _ => updated c c' ns id
  end.

(** ** The code implements the contract *)

(** [f] changes contents by [g] and touches neither count nor rankings. *)
Definition changes (f : NamespaceNode → NamespaceNode) (g : Content → Content) : Prop :=
  ∀ n, activeChildCount_ (f n) = activeChildCount_ n ∧ rankings_ (f n) = rankings_ n ∧
       nodeContent (f n) = g (nodeContent n).

Lemma hasContent_true n : nodeContent n ≠ noContent → hasContent n = true.
Proof. destruct (hasContent n) eqn:E; [done|]. by apply hasContent_false in E. Qed.

Lemma existing_guarded t ns f g : wf t → noNullRanking t → changes f g →
  is_Some (t !! rev ns) →
  ∃ t', guarded t (rev ns) f = Some t' ∧ wf t' ∧ noNullRanking t' ∧
    updated (contentAt t) (contentAt t') ns g.
Proof.
  intros Hwf Hnn Hf [n Hn]. destruct (Hf n) as (Hf1 & Hf2 & Hf3).
  destruct (guarded_spec t (rev ns) n f) as (t' & Hg & Hwf' & Hct); try done; try apply Hwf.
  - apply noEmptyOff_nil, Hwf.
  - right. apply Hwf.
  - exists t'. split_and!; try done.
    + eapply noNullRanking_from; [|done]. by eapply guarded_rankings.
    + intros q. rewrite Hct. case_decide; [|done]. subst q. unfold contentAt. by rewrite Hn, Hf3.
Qed.

Lemma created_guarded t t1 ns f g : noNullRanking t1 → changes f g →
  is_Some (t1 !! rev ns) → closed t1 → countsAtLeast t1 [] 0 → noEmptyOff t1 (rev ns) →
  (∀ q, q ≠ rev ns → contentAt t1 q = contentAt t q) →
  g (contentAt t1 (rev ns)) = g (contentAt t (rev ns)) → g (contentAt t (rev ns)) ≠ noContent →
  ∃ t', guarded t1 (rev ns) f = Some t' ∧ wf t' ∧ noNullRanking t' ∧
    updated (contentAt t) (contentAt t') ns g.
Proof.
  intros Hnn Hf [n Hn] Hcl Hc Hoff Hct Hg Hne. destruct (Hf n) as (Hf1 & Hf2 & Hf3).
  assert (nodeContent (f n) = g (contentAt t (rev ns))) as Hfn.
  { rewrite Hf3, <-Hg. unfold contentAt. by rewrite Hn. }
  destruct (guarded_spec t1 (rev ns) n f) as (t' & Hgd & Hwf' & Hct'); try done.
  - left. apply hasContent_true. congruence.
  - exists t'. split_and!; try done.
    + eapply noNullRanking_from; [|done]. by eapply guarded_rankings.
    + intros q. rewrite Hct'. case_decide; [subst; congruence|by apply Hct].
Qed.

(** Dropping the publisher that is about to be replaced. *)
Lemma clear_publisher_ok t p n : t !! p = Some n → closed t → countsAtLeast t [] 0 →
  noEmptyOff t p → noNullRanking t →
  let t' := <[p := clear_publisher n]> t in
  is_Some (t' !! p) ∧ closed t' ∧ countsAtLeast t' [] 0 ∧ noEmptyOff t' p ∧ noNullRanking t' ∧
  (∀ q, q ≠ p → contentAt t' q = contentAt t q) ∧
  contentAt t' p = mkContent None (publishes_ n) (subscribers_ n) (draft14PubNsHandles_ n).
Proof.
  intros Hn Hcl Hc Hoff Hnn t'. split_and!.
  - unfold t'. by rewrite lookup_insert_eq.
  - by eapply replace_closed.
  - eapply replace_counts; [done|done|done|]. right. unfold shouldKeep, hasContent. simpl.
    destruct (0 <? activeChildCount_ n); [by rewrite !orb_true_r|]. rewrite !orb_false_r.
    intros E. by rewrite E.
  - intros q Hq. unfold t' at 1. rewrite (replace_lookup t p n) by done. intros Hs.
    destruct (decide (q = p)) as [->|]; [by right|].
    destruct (Hoff q Hq Hs); [left; apply kept_insert; by right|by right].
  - intros q x ty. unfold t'. destruct (decide (q = p)) as [->|].
    + rewrite lookup_insert_eq. intros [= <-]. exact (Hnn p n ty Hn).
    + rewrite lookup_insert_ne by done. apply Hnn.
  - intros q Hq. unfold t'. rewrite replace_content, decide_False by done. done.
  - unfold t'. by rewrite replace_content, decide_True by done.
Qed.

Lemma updated_id c ns f : f (c (rev ns)) = c (rev ns) → updated c c ns f.
Proof. intros Hf q. case_decide; [by subst|done]. Qed.

Lemma setPublisher_refines t ns s cb peer rid : wf t → noNullRanking t →
  ∃ t' r, setPublisher t ns s cb peer rid = Some (t', r) ∧ wf t' ∧ noNullRanking t' ∧
    specStep (SetPublisher ns s cb peer rid) (contentAt t) (contentAt t') ∧
    sp_node r = rev ns ∧
    sp_subscribers r = flat_map (subscribersAt t) (passed [] ns ++ [rev ns]) ∧
    sp_replacedSession r = c_publisher (contentAt t (rev ns)).
Proof.
  intros Hwf Hnn. unfold setPublisher.
  destruct (findNode_create t ns Exact Hwf Hnn) as (t1 & -> & [n Hn] & Hcl & Hc & Hoff & Hnn1 & Hct).
  rewrite Hn. simpl.
  pose proof (Hct (rev ns)) as Hctn. unfold contentAt in Hctn at 1. rewrite Hn in Hctn.
  set (t2 := match publisherSession_ n with Some _ => <[rev ns := clear_publisher n]> t1
             | None => t1 end).
  assert (is_Some (t2 !! rev ns) ∧ closed t2 ∧ countsAtLeast t2 [] 0 ∧ noEmptyOff t2 (rev ns) ∧
    noNullRanking t2 ∧ (∀ q, q ≠ rev ns → contentAt t2 q = contentAt t1 q) ∧
    contentAt t2 (rev ns) =
      mkContent None (publishes_ n) (subscribers_ n) (draft14PubNsHandles_ n)) as
    (A1 & A2 & A3 & A4 & A5 & A6 & A7).
  { unfold t2. destruct (publisherSession_ n) eqn:Es; [by apply clear_publisher_ok|].
    split_and!; eauto. unfold contentAt. rewrite Hn. unfold nodeContent. by rewrite Es. }
  destruct (created_guarded t t2 ns (install_publisher ns s peer cb rid) (c_setPublisher s)) as
    (t' & Hg & Hwf' & Hnn' & Hupd); try done.
  - intros q Hq. by rewrite A6, Hct.
  - by rewrite A7, <-Hctn.
  - rewrite Hg. simpl. eexists _, _. split; [done|]. split_and!; try done; simpl.
    + rewrite flat_map_app. simpl. rewrite app_nil_r. f_equal.
      apply subscribersAt_content. by rewrite A7, <-Hctn.
    + by rewrite <-Hctn.
Qed.

(** Operations that look up their node first. *)
Lemma exact_cases t ns : wf t →
  (findNode t ns false Exact = (t, None, (findNode t ns false Exact).2) ∧
     contentAt t (rev ns) = noContent) ∨
  (∃ n, t !! rev ns = Some n ∧ findNode t ns false Exact =
     (t, Some (rev ns), flat_map (subscribersAt t) (passed [] ns))).
Proof.
  intros Hwf. destruct (findNode_exact t ns Hwf) as (subs & -> & Hsubs). case_decide as Hd.
  - right. destruct Hd as [n Hn]. exists n. rewrite Hsubs by eauto. done.
  - left. split; [done|]. unfold contentAt. by destruct (t !! rev ns); [destruct Hd|].
Qed.

Lemma unpublishNamespace_refines t ns s : wf t → noNullRanking t →
  ∃ t' r, unpublishNamespace t ns s = Some (t', r) ∧ wf t' ∧ noNullRanking t' ∧
    specStep (UnpublishNamespace ns s) (contentAt t) (contentAt t').
Proof.
  intros Hwf Hnn. unfold unpublishNamespace.
  destruct (exact_cases t ns Hwf) as [[-> Hc]|(n & Hn & ->)].
  - eexists _, _. split; [done|]. split_and!; try done. apply updated_id. by rewrite Hc.
  - rewrite Hn. simpl.
    assert (contentAt t (rev ns) = nodeContent n) as Hcn by (unfold contentAt; by rewrite Hn).
    case_bool_decide as Hs.
    + destruct (existing_guarded t ns drop_announcement (λ x,
          mkContent None (c_publishes x) (c_subscribers x) ∅))
        as (t' & -> & ? & ? & Hu); eauto; [done|].
      eexists _, _. split; [done|]. split_and!; try done. intros q. rewrite (Hu q).
      case_decide; [|done]. subst q. rewrite Hcn. unfold c_unpublish. by rewrite decide_True.
    + eexists _, _. split; [done|]. split_and!; try done. apply updated_id.
      rewrite Hcn. unfold c_unpublish. by rewrite decide_False.
Qed.

Lemma unpublishTrack_refines t ns tn : wf t → noNullRanking t →
  ∃ t' r, unpublishTrack t ns tn = Some (t', r) ∧ wf t' ∧ noNullRanking t' ∧
    specStep (UnpublishTrack ns tn) (contentAt t) (contentAt t').
Proof.
  intros Hwf Hnn. unfold unpublishTrack.
  destruct (exact_cases t ns Hwf) as [[-> Hc]|(n & Hn & ->)].
  - eexists _, _. split; [done|]. split_and!; try done. apply updated_id. rewrite Hc.
    unfold c_removePublish, noContent. simpl. by rewrite delete_empty.
  - destruct (existing_guarded t ns (remove_publish tn) (c_removePublish tn))
      as (t' & -> & ? & ? & Hu); eauto; [done|]. by eexists _, _.
Qed.

Lemma addPublish_refines t ns tn s : wf t → noNullRanking t →
  ∃ t' r, addPublish t ns tn s = Some (t', r) ∧ wf t' ∧ noNullRanking t' ∧
    specStep (AddPublish ns tn s) (contentAt t) (contentAt t').
Proof.
  intros Hwf Hnn. unfold addPublish.
  destruct (findNode_create t ns Exact Hwf Hnn) as (t1 & -> & Hn & Hcl & Hc & Hoff & Hnn1 & Hct).
  destruct (created_guarded t t1 ns (put_publish tn s) (c_putPublish tn s))
    as (t' & -> & ? & ? & Hu); try done; eauto.
  - by rewrite Hct.
  - intros [= _ E _ _]. by apply insert_non_empty in E.
  - by eexists _, _.
Qed.

Lemma addNamespaceSubscriber_refines t ns s i : wf t → noNullRanking t →
  ∃ t' r, addNamespaceSubscriber t ns s i = Some (t', r) ∧ wf t' ∧ noNullRanking t' ∧
    specStep (AddSubscriber ns s i) (contentAt t) (contentAt t').
Proof.
  intros Hwf Hnn. unfold addNamespaceSubscriber.
  destruct (findNode_create t ns Exact Hwf Hnn) as (t1 & -> & Hn & Hcl & Hc & Hoff & Hnn1 & Hct).
  destruct (created_guarded t t1 ns (put_subscriber s i) (c_putSubscriber s i))
    as (t' & -> & ? & ? & Hu); try done; eauto.
  - intros n'. unfold put_subscriber, c_putSubscriber. simpl. by destruct (subscribers_ n' !! s).
  - by rewrite Hct.
  - unfold c_putSubscriber. destruct (c_subscribers _ !! s) eqn:E.
    + intros E'. rewrite E' in E. simpl in E. by rewrite lookup_empty in E.
    + intros [= _ _ E' _]. by apply insert_non_empty in E'.
  - by eexists _, _.
Qed.

Lemma removeNamespaceSubscriber_refines t ns s : wf t → noNullRanking t →
  ∃ t' r, removeNamespaceSubscriber t ns s = Some (t', r) ∧ wf t' ∧ noNullRanking t' ∧
    specStep (RemoveSubscriber ns s) (contentAt t) (contentAt t').
Proof.
  intros Hwf Hnn. unfold removeNamespaceSubscriber.
  destruct (exact_cases t ns Hwf) as [[-> Hc]|(n & Hn & ->)].
  - eexists _, _. split; [done|]. split_and!; try done. apply updated_id. rewrite Hc.
    unfold c_removeSubscriber, noContent. simpl. by rewrite delete_empty.
  - rewrite Hn. simpl. destruct (subscribers_ n !! s) as [info|] eqn:Hs.
    + assert (∃ x, match trackFilter info with
        | Some f => match rankings_ n !! propertyType f with
                    | Some (Some r) => Some (Some (r, maxSelected f))
                    | Some None => None | None => Some None end
        | None => Some None end = Some x) as [x ->].
      { repeat case_match; eauto. exfalso. by eapply Hnn. }
      simpl. destruct (existing_guarded t ns (remove_subscriber s) (c_removeSubscriber s))
        as (t' & -> & ? & ? & Hu); eauto; [done|]. by eexists _, _.
    + eexists _, _. split; [done|]. split_and!; try done. apply updated_id.
      unfold contentAt. rewrite Hn. unfold c_removeSubscriber, nodeContent. simpl.
      by rewrite delete_id.
Qed.

(** A change of a node of the tree that keeps its count and does not empty it
    needs no guard. *)
Lemma alter_ok t ns f g : wf t →
  (∀ n, activeChildCount_ (f n) = activeChildCount_ n) →
  (∀ n, nodeContent (f n) = g (nodeContent n)) →
  (∀ n, shouldKeep n = true → shouldKeep (f n) = true) →
  wf (alter f (rev ns) t) ∧
  (updated (contentAt t) (contentAt (alter f (rev ns) t)) ns id ∨
   updated (contentAt t) (contentAt (alter f (rev ns) t)) ns g).
Proof.
  intros Hwf Hf1 Hf3 Hk. destruct (t !! rev ns) as [n|] eqn:Hn; cycle 1.
  { rewrite alter_id by (intros x; congruence). split; [done|]. left. by apply updated_id. }
  assert (alter f (rev ns) t = <[rev ns := f n]> t) as ->.
  { apply map_eq. intros q. destruct (decide (q = rev ns)) as [->|].
    - by rewrite lookup_alter_eq, lookup_insert_eq, Hn.
    - by rewrite lookup_alter_ne, lookup_insert_ne. }
  split.
  - destruct (path_cases (rev ns)) as [Ep|(k & parent & Ep)].
    + eapply guard_root; eauto; apply Hwf.
    + eapply guard_same; eauto; try apply Hwf.
      assert (shouldKeep n = true) as Hkn.
      { destruct (wf_kept _ Hwf (rev ns)) as [(n' & ? & ?)|Hs]; [by rewrite Ep|by eauto|congruence|].
        apply suffix_nil_inv in Hs. by rewrite Ep in Hs. }
      rewrite Hkn. auto.
  - right. intros q. rewrite replace_content. case_decide; [|done]. subst q.
    rewrite Hf3. unfold contentAt. by rewrite Hn.
Qed.

Lemma put_handle_changes s h : changes (put_handle s h) (c_putHandle s h).
Proof.
  intros n. unfold put_handle, c_putHandle. simpl. by destruct (draft14PubNsHandles_ n !! s).
Qed.

Lemma put_handle_keeps s h n : shouldKeep n = true → shouldKeep (put_handle s h n) = true.
Proof.
  unfold put_handle. destruct (_ !! s); [done|]. intros _. unfold shouldKeep.
  rewrite hasContent_true; [done|]. intros [= _ _ _ E]. by apply insert_non_empty in E.
Qed.

Lemma step_refines t op : wf t → noNullRanking t →
  ∃ t', step t op = Some t' ∧ wf t' ∧ noNullRanking t' ∧ specStep op (contentAt t) (contentAt t').
Proof.
  intros Hwf Hnn. destruct op as [ns s cb peer rid|ns s|ns tn|ns tn s|ns s i|ns s|ns s h|ns ty r].
  - destruct (setPublisher_refines t ns s cb peer rid) as (t' & r & E & ? & ? & ? & _); try done.
    exists t'. simpl. by rewrite E.
  - destruct (unpublishNamespace_refines t ns s) as (t' & r & E & ?); try done.
    exists t'. simpl. by rewrite E.
  - destruct (unpublishTrack_refines t ns tn) as (t' & r & E & ?); try done.
    exists t'. simpl. by rewrite E.
  - destruct (addPublish_refines t ns tn s) as (t' & r & E & ?); try done.
    exists t'. simpl. by rewrite E.
  - destruct (addNamespaceSubscriber_refines t ns s i) as (t' & r & E & ?); try done.
    exists t'. simpl. by rewrite E.
  - destruct (removeNamespaceSubscriber_refines t ns s) as (t' & r & E & ?); try done.
    exists t'. simpl. by rewrite E.
  - destruct (alter_ok t ns (put_handle s h) (c_putHandle s h)) as [Hwf' Hu];
      try done; try apply put_handle_changes; eauto using put_handle_keeps.
    eexists; split; [done|]. split_and!; try done.
    intros q n ty. unfold addDraft14PublishNamespaceHandle. rewrite lookup_alter_Some.
    intros [(_ & n' & Hn' & ->)|[_ Hn']]; [|by eapply Hnn].
    rewrite (proj1 (proj2 (put_handle_changes s h n'))). by eapply Hnn.
  - destruct (alter_ok t ns (λ n, set_rankings (<[ty := Some r]> (rankings_ n)) n) id)
      as [Hwf' Hu]; try done.
    eexists; split; [done|]. split_and!; [done| |by destruct Hu].
    intros q n ty'. unfold setRanking. rewrite lookup_alter_Some.
    intros [(_ & n' & Hn' & ->)|[_ Hn']]; [|by eapply Hnn]. simpl.
    rewrite lookup_insert. case_decide; [done|]. by eapply Hnn.
Qed.

Lemma emptyTree_wf : wf emptyTree ∧ noNullRanking emptyTree.
Proof.
  unfold emptyTree. split; [split|].
  - split; [by rewrite lookup_singleton_eq|]. intros k p.
    rewrite lookup_singleton_ne by done. intros []; done.
  - intros p n. rewrite lookup_singleton_Some. intros [<- <-]. simpl.
    assert (nkept {[ [] := newNode [] ]} [] = 0) as ->; [|done].
    unfold nkept. apply (f_equal Z.of_nat (y := 0%nat)), size_empty_iff. intros q.
    rewrite elem_keptChildren. split; [|set_solver].
    intros (k & -> & n & Hn & _). by rewrite lookup_singleton_ne in Hn.
  - intros q Hq. rewrite lookup_singleton_ne by done. intros []; done.
  - intros q n ty. rewrite lookup_singleton_Some. intros [_ <-]. done.
Qed.

(** A run of the code, and of the contract. *)
Fixpoint run (t : tree) (ops : list Op) : option tree :=
  match ops with
  | [] => Some t
  | op :: ops' => t' ← step t op; run t' ops'
  end.

Inductive specRun : (rpath → Content) → list Op → (rpath → Content) → Prop :=
| specRun_nil c c' : (∀ q, c' q = c q) → specRun c [] c'
| specRun_cons c op c' ops c'' :
    specStep op c c' → specRun c' ops c'' → specRun c (op :: ops) c''.

Lemma specRun_ext c c0 ops c' : (∀ q, c q = c0 q) → specRun c ops c' → specRun c0 ops c'.
Proof.
  intros He Hr. destruct Hr as [c c' Hc|c op c1 ops c' Hs Hr].
  - constructor. intros q. by rewrite Hc.
  - econstructor; [|done]. revert Hs. destruct op; simpl;
      try (intros Hu q; rewrite (Hu q), He; done).
    intros [Hu|Hu]; [left|right]; intros q; rewrite (Hu q), He; done.
Qed.

(** C4: Whatever sequence of operations a relay performs, no [XCHECK] of the
    tree fails and no null ranking is dereferenced, the tree invariant holds
    in the final state, and the contents of every namespace are those of the
    contract, in which an operation changes the contents of one namespace:
    creating, counting and pruning nodes never loses an announcement, a
    published track or a subscription. *)
Theorem run_refines ops :
  ∃ t, run emptyTree ops = Some t ∧ wf t ∧ specRun (λ _, noContent) ops (contentAt t).
Proof.
  assert (∀ t, wf t → noNullRanking t → ∃ t', run t ops = Some t' ∧ wf t' ∧
    specRun (contentAt t) ops (contentAt t')) as Hgen.
  { induction ops as [|op ops IH]; intros t Hwf Hnn; simpl.
    - exists t. split_and!; try done. by constructor.
    - destruct (step_refines t op Hwf Hnn) as (t1 & -> & Hwf1 & Hnn1 & Hs). simpl.
      destruct (IH t1 Hwf1 Hnn1) as (t' & ? & ? & ?). exists t'. split_and!; try done.
      by econstructor. }
  destruct emptyTree_wf as [Hwf Hnn].
  destruct (Hgen emptyTree Hwf Hnn) as (t & ? & ? & Hs). exists t. split_and!; try done.
  assert (∀ q, contentAt emptyTree q = noContent) as He.
  { intros q. unfold contentAt, emptyTree. destruct (decide (q = [])) as [->|].
    - by rewrite lookup_singleton_eq.
    - by rewrite lookup_singleton_ne. }
  by eapply specRun_ext.
Qed.

Lemma reachable_wf ops t : run emptyTree ops = Some t → wf t ∧ noNullRanking t.
Proof.
  assert (∀ t0, wf t0 ∧ noNullRanking t0 → run t0 ops = Some t → wf t ∧ noNullRanking t) as Hgen.
  { induction ops as [|op ops IH]; intros t0 [Hwf Hnn]; simpl; [by intros [= <-]|].
    destruct (step_refines t0 op Hwf Hnn) as (t1 & -> & ? & ? & _). simpl. by apply IH. }
  apply Hgen, emptyTree_wf.
Qed.

Lemma elem_subscribersAt t q s i :
  (s, i) ∈ subscribersAt t q ↔ c_subscribers (contentAt t q) !! s = Some i.
Proof.
  unfold subscribersAt, contentAt. destruct (t !! q); simpl.
  - apply elem_of_map_to_list.
  - by rewrite elem_of_nil, lookup_empty.
Qed.

(** The subscribers collected on the way to a namespace. *)
Lemma elem_path_subscribers t ns sub i :
  (sub, i) ∈ flat_map (subscribersAt t) (passed [] ns ++ [rev ns]) ↔
  ∃ a b, ns = a ++ b ∧ c_subscribers (contentAt t (rev a)) !! sub = Some i.
Proof.
  rewrite list_elem_of_In, in_flat_map. setoid_rewrite <-list_elem_of_In.
  setoid_rewrite elem_subscribersAt. setoid_rewrite elem_of_app. setoid_rewrite elem_passed.
  setoid_rewrite list_elem_of_singleton. split.
  - intros (q & [(a & b & -> & _ & ->)| -> ] & Hq).
    + rewrite app_nil_r in Hq. eauto.
    + exists ns, []. by rewrite app_nil_r.
  - intros (a & b & -> & Hq). exists (rev a). split; [|done].
    destruct (decide (b = [])) as [->|]; [right; by rewrite app_nil_r|left].
    exists a, b. by rewrite app_nil_r.
Qed.

(** An announcement is reported to exactly the sessions that subscribed
    to the announced namespace or to one of its prefixes, with the options
    they subscribed with. *)
Theorem setPublisher_notifies ops t ns s cb peer rid :
  run emptyTree ops = Some t →
  ∃ t' r, setPublisher t ns s cb peer rid = Some (t', r) ∧
    ∀ sub i, (sub, i) ∈ sp_subscribers r ↔
      ∃ a b, ns = a ++ b ∧ c_subscribers (contentAt t (rev a)) !! sub = Some i.
Proof.
  intros Hr. apply reachable_wf in Hr as [Hwf Hnn].
  destruct (setPublisher_refines t ns s cb peer rid Hwf Hnn) as (t' & r & E & _ & _ & _ & _ & Hsub & _).
  exists t', r. split; [done|]. intros sub i.
  rewrite Hsub. apply elem_path_subscribers.
Qed.

Lemma findNodeFrom_prefix t at_ a b subs :
  closed t → is_Some (t !! (rev a ++ at_)) →
  (b = [] ∨ ∃ k b', b = k :: b' ∧ t !! (k :: rev a ++ at_) = None) →
  (findNodeFrom t at_ (a ++ b) false Prefix subs).1.2 =
    match b, rev a ++ at_ with _ :: _, [] => None | _, p => Some p end.
Proof.
  intros Hcl. revert at_ subs. induction a as [|x a IH]; intros at_ subs Hs Hb; simpl.
  - destruct Hb as [->|(k & b' & -> & Hk)]; [done|]. simpl in *. rewrite Hk. by destruct at_.
  - simpl in *. rewrite <-app_assoc in *. simpl in *.
    assert (is_Some (t !! (x :: at_))) as [n Hn].
    { revert Hs. generalize (rev a). intros l. induction l as [|y l IHl]; simpl; [done|].
      intros Hd. apply IHl. by apply (proj2 Hcl y). }
    rewrite Hn. by apply IH.
Qed.

(** [findPublisherSession] answers with the publisher of the deepest node
    that exists on the path of the namespace, whether or not that node has
    one; the root alone never answers for a longer namespace. *)
Theorem findPublisherSession_deepest ops t a b :
  run emptyTree ops = Some t → is_Some (t !! rev a) →
  (b = [] ∨ ∃ k b', b = k :: b' ∧ t !! (k :: rev a) = None) →
  findPublisherSession t (a ++ b) =
    match b, a with _ :: _, [] => None | _, _ => c_publisher (contentAt t (rev a)) end.
Proof.
  intros Hr Hs Hb. apply reachable_wf in Hr as [Hwf Hnn]. unfold findPublisherSession, findNode.
  pose proof (findNodeFrom_prefix t [] a b []) as Hf. rewrite app_nil_r in Hf.
  specialize (Hf (wf_closed _ Hwf) Hs Hb).
  destruct (findNodeFrom t [] (a ++ b) false Prefix []) as [[t' o] subs]. simpl in Hf. subst o.
  destruct Hs as [n Hn]. unfold contentAt. rewrite Hn.
  destruct b as [|k b]; [by rewrite Hn|]. destruct a as [|x a]; [done|].
  simpl rev in *. destruct (rev a ++ [x]) eqn:E; [by destruct (rev a)|]. by rewrite Hn.
Qed.
End Tree.

(** ** Concrete runs *)

Module TreeExamples.
Abbreviation Operation := (Op (Session:=nat) (NsHandle:=unit) (PubHandle:=unit)
  (PubCallback:=unit) (Ranking:=unit)).
Abbreviation exampleTree := (gmap (list string) (NamespaceNode (Session:=nat) (NsHandle:=unit)
  (PubHandle:=unit) (PubCallback:=unit) (Ranking:=unit))).

Definition anyInfo : NamespaceSubscriberInfo (NsHandle:=unit) := mkInfo true BOTH None [] None.
Definition runFrom : list Operation → option exampleTree := run emptyTree.

Definition replacePublisher : list Operation :=
  [SetPublisher ["x"; "a"] 1%nat None "" 0; SetPublisher ["x"; "a"] 2%nat None "" 1;
   UnpublishNamespace ["x"; "a"] 2%nat].

Definition subscribeAbovePublish : list Operation :=
  [AddPublish ["x"; "a"; "b"] "t" 1%nat; AddSubscriber ["x"; "a"] 2%nat anyInfo;
   RemoveSubscriber ["x"; "a"] 2%nat; UnpublishTrack ["x"; "a"; "b"] "t"].

(** Nothing holds content, and a childless node [x] is left. *)
Definition leaked (ops : list Operation) : bool :=
  match runFrom ops with
  | Some t =>
      bool_decide (map_Forall (λ _ n, hasContent n = false) t) &&
      bool_decide (activeChildCount_ <$> t !! ["x"] = Some 1) &&
      bool_decide (keptChildren t ["x"] = ∅)
  | None => false
  end.

Lemma leaked_spec ops : leaked ops = true →
  ∃ t, runFrom ops = Some t ∧ (∀ q, contentAt t q = noContent) ∧
    activeChildCount_ <$> t !! ["x"] = Some 1 ∧ keptChildren t ["x"] = ∅.
Proof.
  unfold leaked. destruct (runFrom ops) as [t|]; [|done].
  rewrite !andb_true_iff, !bool_decide_eq_true. intros [[H1 H2] H3]. exists t.
  split_and!; try done. intros q. unfold contentAt. destruct (t !! q) as [n|] eqn:Hq; [|done].
  apply hasContent_false. by apply (H1 q).
Qed.

(** Pruning can leak nodes.  After a publisher of [x/a] was replaced and
    the new one left, nothing is announced, published or subscribed any more,
    but the node [x] stays in the tree, without children: its count was
    incremented once too often.  The same happens when a namespace gets its
    first subscriber after one of its descendants. *)
Theorem prune_leaks :
  (∃ t, runFrom replacePublisher = Some t ∧ (∀ q, contentAt t q = noContent) ∧
     activeChildCount_ <$> t !! ["x"] = Some 1 ∧ keptChildren t ["x"] = ∅) ∧
  (∃ t, runFrom subscribeAbovePublish = Some t ∧ (∀ q, contentAt t q = noContent) ∧
     activeChildCount_ <$> t !! ["x"] = Some 1 ∧ keptChildren t ["x"] = ∅).
Proof. split; apply leaked_spec; vm_compute; reflexivity. Qed.

Definition publisherAbove : list Operation :=
  [SetPublisher ["a"] 7%nat None "" 0; AddSubscriber ["a"; "b"] 2%nat anyInfo].

(** [findPublisherSession] is not a longest-prefix match on publishers:
    with a publisher of [a] and a mere subscriber of [a/b], a track of
    [a/b/c] has no publisher, although the announced prefix [a] covers it. *)
Theorem findPublisherSession_shadowed :
  match runFrom publisherAbove with
  | Some t =>
      findPublisherSession t ["a"; "c"] = Some 7%nat ∧
      c_publisher (contentAt t (rev ["a"])) = Some 7%nat ∧
      findPublisherSession t ["a"; "b"; "c"] = None
  | None => False
  end.
Proof. vm_compute. done. Qed.

Lemma setPublisher_notifies_witness :
  ∃ t r, setPublisher (default emptyTree (runFrom publisherAbove)) ["a"; "b"; "c"] 9%nat None "" 0
           = Some (t, r) ∧ (2%nat, anyInfo) ∈ sp_subscribers r.
Proof.
  destruct (setPublisher_notifies publisherAbove (default emptyTree (runFrom publisherAbove))
    ["a"; "b"; "c"] 9%nat None "" 0) as (t & r & E & Hin); [vm_compute; reflexivity|].
  exists t, r. split; [exact E|]. apply Hin. exists ["a"; "b"], ["c"].
  split; [reflexivity|]. vm_compute. reflexivity.
Defined.

Lemma findPublisherSession_deepest_witness :
  findPublisherSession (default emptyTree (runFrom publisherAbove)) (["a"] ++ ["c"]) = Some 7%nat.
Proof.
  rewrite (findPublisherSession_deepest publisherAbove
    (default emptyTree (runFrom publisherAbove)) ["a"] ["c"]).
  - vm_compute. reflexivity.
  - vm_compute. reflexivity.
  - eexists. vm_compute. reflexivity.
  - right. exists "c", []. split; [reflexivity|]. vm_compute. reflexivity.
Defined.
End TreeExamples.
