(* ===== verification/NamespaceWalk.v ===== *)
(** * Traversals of the namespace tree

    [forEachNodeInSubtree] (breadth first) and [walkTree] (depth first) of
    [src/src/NamespaceTree.h].  The order in which a hash map lists the
    children of a node is that of [map_to_list].  The queue and the recursion
    are run with the number of nodes of the tree as a bound;
    [forEachNodeInSubtree_exact] shows that this is enough and that every node
    of the subtree is visited once. *)

From S2P Require Import Prelude NamespaceTree.

Section Walk.
Context {Session : Type} `{Countable Session}.
Context {NsHandle PubHandle PubCallback Ranking : Type}.

#[local] Abbreviation Node := (@NamespaceNode Session _ _ NsHandle PubHandle PubCallback Ranking).
#[local] Abbreviation tree := (gmap (list string) Node).
#[local] Abbreviation rpath := (list string).

Implicit Types (t : tree) (p q : rpath).

(** [children_] of the node [p]. *)
Definition childrenOf (t : tree) (p : rpath) : list rpath :=
  filter (λ q, q ≠ [] ∧ tail q = p) (map_to_list t).*1.

(** The nodes in the order in which [fn] is called; the namespace passed with
    the node [q] is [rev q]. *)
Fixpoint bfs (fuel : nat) (t : tree) (queue : list rpath) : list rpath :=
  match fuel, queue with
  | S fuel, p :: queue => p :: bfs fuel t (queue ++ childrenOf t p)
  | _, _ => []
  end.

Definition forEachNodeInSubtree (t : tree) (startNode : rpath) : list rpath :=
  bfs (size t) t [startNode].

(** The calls of [walkTree]. *)
Inductive WalkCall := Begin (childKey : string) (node : rpath) | End_.

Fixpoint walk (fuel : nat) (t : tree) (key : string) (p : rpath) : list WalkCall :=
  match fuel with
  | O => []
  | S fuel =>
      Begin key p ::
      mjoin ((λ q, walk fuel t (default EmptyString (head q)) q) <$> childrenOf t p) ++ [End_]
  end.

Definition walkTree (t : tree) : list WalkCall := walk (size t) t EmptyString [].

(** ** Every node once *)

(** The nodes of the subtree of [p]. *)
Definition subtree (t : tree) (p : rpath) : list rpath :=
  filter (λ q, p `suffix_of` q) (map_to_list t).*1.

Lemma elem_keys (t : tree) q : q ∈ (map_to_list t).*1 ↔ is_Some (t !! q).
Proof.
  rewrite list_elem_of_fmap. split.
  - intros ([q' n]&->&Hq%elem_of_map_to_list). eauto.
  - intros [n Hn]. exists (q, n). split; [done|]. by apply elem_of_map_to_list.
Qed.

Lemma elem_subtree t p q : q ∈ subtree t p ↔ p `suffix_of` q ∧ is_Some (t !! q).
Proof. unfold subtree. by rewrite list_elem_of_filter, elem_keys. Qed.

Lemma elem_childrenOf t p q : q ∈ childrenOf t p ↔ ∃ k, q = k :: p ∧ is_Some (t !! q).
Proof.
  unfold childrenOf. rewrite list_elem_of_filter, elem_keys. split.
  - intros [[Hq Ht] Hs]. destruct q as [|k q]; [done|]. cbn in Ht. subst. eauto.
  - intros (k&->&Hs). done.
Qed.

Lemma subtree_NoDup t p : NoDup (subtree t p).
Proof. apply NoDup_filter, NoDup_fst_map_to_list. Qed.

Lemma suffix_step (p q : rpath) : p `suffix_of` q → q = p ∨ ∃ k, (k :: p) `suffix_of` q.
Proof.
  intros [l ->]. induction l as [|k l] using rev_ind; [by left|]. right. exists k, l.
  by rewrite <-app_assoc.
Qed.

Lemma closed_suffix t p q : closed t → is_Some (t !! q) → p `suffix_of` q → is_Some (t !! p).
Proof.
  intros [_ Hcl] Hq [l ->]. induction l as [|k l IH]; [done|]. apply IH. by apply (Hcl k).
Qed.

Lemma NoDup_mjoin {A B} (f : A → list B) (l : list A) :
  NoDup l → (∀ x, x ∈ l → NoDup (f x)) →
  (∀ x y z, x ∈ l → y ∈ l → z ∈ f x → z ∈ f y → x = y) → NoDup (mjoin (f <$> l)).
Proof.
  induction 1 as [|x l Hx _ IH]; intros Hf Hd; cbn; [constructor|]. apply NoDup_app. split_and!.
  - apply Hf. by left.
  - intros z Hz (fy&Hzy&(y&->&Hy)%list_elem_of_fmap)%list_elem_of_join.
    apply Hx. rewrite (Hd x y z); [done|by left|by right|done|done].
  - apply IH; [intros; apply Hf; by right|]. intros a b z Ha Hb. apply Hd; by right.
Qed.

(** The subtree of a node is the node and the subtrees of its children. *)
Lemma subtree_children t p : closed t → is_Some (t !! p) →
  subtree t p ≡ₚ p :: mjoin (subtree t <$> childrenOf t p).
Proof.
  intros Hcl Hp. apply NoDup_Permutation; [apply subtree_NoDup| |].
  - apply NoDup_cons. split.
    + intros (l&Hin&(q&->&(k&->&_)%elem_childrenOf)%list_elem_of_fmap)%list_elem_of_join.
      apply elem_subtree in Hin as [Hs%suffix_length _]. cbn in Hs. lia.
    + apply NoDup_mjoin; [apply NoDup_filter, NoDup_fst_map_to_list|intros; apply subtree_NoDup|].
      intros x y z (k&->&_)%elem_childrenOf (k'&->&_)%elem_childrenOf [[l1 ->] _]%elem_subtree
        [[l2 Hz] _]%elem_subtree.
      rewrite (cons_middle k l1 p), (cons_middle k' l2 p), !app_assoc in Hz.
      apply app_inj_2 in Hz as [Hz _]; [|done]. apply app_inj_2 in Hz as [_ Hz]; [|done]. congruence.
  - intros q. rewrite elem_of_cons, list_elem_of_join, elem_subtree. split.
    + intros [[->|[k Hk]]%suffix_step Hq]; [by left|]. right.
      exists (subtree t (k :: p)). rewrite elem_subtree. split; [done|].
      apply list_elem_of_fmap. exists (k :: p). split; [done|]. apply elem_childrenOf.
      exists k. split; [done|]. by eapply closed_suffix.
    + intros [->|(l&Hin&(q'&->&(k&->&_)%elem_childrenOf)%list_elem_of_fmap)]; [done|].
      apply elem_subtree in Hin as [Hs Hq]. split; [|done]. etrans; [|exact Hs]. by exists [k].
Qed.

Lemma childrenOf_in t p q : q ∈ childrenOf t p → is_Some (t !! q).
Proof. by intros (k&->&?)%elem_childrenOf. Qed.

Lemma bfs_exact t fuel queue : closed t → (∀ p, p ∈ queue → is_Some (t !! p)) →
  (length (mjoin (subtree t <$> queue)) <= fuel)%nat →
  bfs fuel t queue ≡ₚ mjoin (subtree t <$> queue).
Proof.
  intros Hcl. revert queue. induction fuel as [|fuel IH]; intros queue Hq Hlen.
  - cbn. by rewrite (nil_length_inv (mjoin (subtree t <$> queue))) by lia.
  - destruct queue as [|p queue]; [done|]. cbn [bfs].
    assert (mjoin (subtree t <$> p :: queue) ≡ₚ
            p :: mjoin (subtree t <$> queue ++ childrenOf t p)) as Hperm.
    { cbn [fmap list_fmap]. rewrite mjoin_cons, (subtree_children t p Hcl (Hq p ltac:(by left))).
      rewrite fmap_app, join_app. cbn. by rewrite Permutation_app_comm. }
    rewrite Hperm in Hlen |- *. rewrite IH; [done| |cbn in Hlen; lia].
    intros q [?|?]%elem_of_app; [apply Hq; by right|by eapply childrenOf_in].
Qed.

(** [forEachNodeInSubtree] ends and calls its function once for every node of
    the subtree of the start node, and for no other node. *)
Theorem forEachNodeInSubtree_exact t p :
  wf t → is_Some (t !! p) →
  NoDup (forEachNodeInSubtree t p) ∧
  ∀ q, q ∈ forEachNodeInSubtree t p ↔ p `suffix_of` q ∧ is_Some (t !! q).
Proof.
  intros Hwf Hp. unfold forEachNodeInSubtree.
  assert (bfs (size t) t [p] ≡ₚ subtree t p) as Hperm.
  { rewrite bfs_exact; [cbn; by rewrite app_nil_r|apply Hwf|by intros q ->%list_elem_of_singleton|].
    cbn. rewrite app_nil_r. unfold subtree. etrans; [apply length_filter|].
    by rewrite length_fmap, length_map_to_list. }
  split; [rewrite Hperm; apply subtree_NoDup|]. intros q. by rewrite Hperm, elem_subtree.
Qed.

(** The nodes [walkTree] enters. *)
Definition begins (calls : list WalkCall) : list rpath :=
  omap (λ c, match c with Begin _ q => Some q | End_ => None end) calls.

Lemma begins_join (ls : list (list WalkCall)) : begins (mjoin ls) = mjoin (begins <$> ls).
Proof.
  unfold begins. induction ls as [|l ls IH]; [done|]. cbn [fmap list_fmap].
  rewrite !mjoin_cons, omap_app. by rewrite IH.
Qed.

Lemma mjoin_Permutation {A B} (f g : A → list B) (l : list A) :
  (∀ x, x ∈ l → f x ≡ₚ g x) → mjoin (f <$> l) ≡ₚ mjoin (g <$> l).
Proof.
  induction l as [|x l IH]; intros Hf; [done|]. cbn [fmap list_fmap]. rewrite !mjoin_cons.
  rewrite (Hf x) by (by left). rewrite IH; [done|]. intros. apply Hf. by right.
Qed.

Lemma elem_length_mjoin {A B} (f : A → list B) (l : list A) x :
  x ∈ l → (length (f x) <= length (mjoin (f <$> l)))%nat.
Proof.
  induction 1 as [x l|x y l _ IH]; cbn [fmap list_fmap]; rewrite mjoin_cons, length_app; lia.
Qed.

Lemma walk_exact t fuel key p : closed t → is_Some (t !! p) →
  (length (subtree t p) <= fuel)%nat → begins (walk fuel t key p) ≡ₚ subtree t p.
Proof.
  intros Hcl. revert key p. induction fuel as [|fuel IH]; intros key p Hp Hlen;
    pose proof (subtree_children t p Hcl Hp) as Hperm.
  { rewrite Hperm in Hlen. cbn in Hlen. lia. }
  rewrite Hperm in Hlen |- *. cbn [walk]. unfold begins at 1. cbn. rewrite omap_app. cbn.
  rewrite app_nil_r. fold (begins (mjoin ((λ q, walk fuel t (default EmptyString (head q)) q) <$> childrenOf t p))).
  rewrite begins_join, <-list_fmap_compose. apply perm_skip, mjoin_Permutation. intros q Hq. cbn.
  apply IH; [by eapply childrenOf_in|]. cbn in Hlen.
  pose proof (elem_length_mjoin (subtree t) (childrenOf t p) q Hq). lia.
Qed.

(** [walkTree] enters every node of the tree once. *)
Lemma walkTree_exact t : wf t →
  NoDup (begins (walkTree t)) ∧ ∀ q, q ∈ begins (walkTree t) ↔ is_Some (t !! q).
Proof.
  intros Hwf. unfold walkTree.
  assert (begins (walk (size t) t EmptyString []) ≡ₚ subtree t []) as Hperm.
  { apply walk_exact; [apply Hwf|apply Hwf|]. unfold subtree. etrans; [apply length_filter|].
    by rewrite length_fmap, length_map_to_list. }
  split; [rewrite Hperm; apply subtree_NoDup|]. intros q. rewrite Hperm, elem_subtree.
  split; [naive_solver|]. split; [apply suffix_nil|done].
Qed.

End Walk.
