(* ===== verification/PropertyRanking.v ===== *)
(** * PropertyRanking: top-N track selection by a property value

    Models [src/src/relay/PropertyRanking.h] and [PropertyRanking.cpp].

    - [rankedTracks_], a [std::map] ordered by [std::greater<RankKey>], is the
      list of its nodes in iteration order; an iterator into it is the key of
      its node ([rankIter] of [RankIndex]).
    - [trackIndexByName_], [topNGroups_], [sessions], [trackStates] and
      [publisherTrackCount_] are finite maps.  The loops over an F14 map touch
      each element once and an element's step reads only state that the loop
      does not write, so the model maps the step over the elements and
      concatenates the callbacks; where the order of the loop is observable
      (the idle sweep) it is a parameter.
    - The three callbacks are outputs: every operation returns the list of the
      calls it makes, in order.  A [std::function] that is not set is a [false]
      flag of [Config].
    - A failed [XCHECK] and the dereference of an iterator whose node is gone
      are [None]; [run_wf] shows that neither happens.

    [iteratingSessions_] only matters to a callback that calls back into the
    ranking; since callbacks are outputs here it is not part of the state. *)

From S2P Require Import Prelude.

(** ** Ranking keys *)

Record RankKey := mkKey {
  rvalue : Z;       (* property value: higher ranks first *)
  arrivalSeq : Z    (* tie-breaker: earlier arrival ranks first *)
}.

#[global] Instance RankKey_eq_dec : EqDecision RankKey.
Proof. solve_decision. Defined.

Definition key_lt (a b : RankKey) : bool :=
  if negb (rvalue a =? rvalue b) then rvalue a <? rvalue b
  else arrivalSeq b <? arrivalSeq a.

Definition key_gt (a b : RankKey) : bool :=
  if negb (rvalue a =? rvalue b) then rvalue b <? rvalue a
  else arrivalSeq a <? arrivalSeq b.

Definition key_eq (a b : RankKey) : bool :=
  (rvalue a =? rvalue b) && (arrivalSeq a =? arrivalSeq b).

Definition key_ge (a b : RankKey) : bool := key_gt a b || key_eq a b.

Inductive TrackState := Selected | Deselected.

#[global] Instance TrackState_eq_dec : EqDecision TrackState.
Proof. solve_decision. Defined.

Section Ranking.
Context {FullTrackName : Type} `{Countable FullTrackName}.
Context {MoQSession : Type} `{Countable MoQSession}.

(** The order in which an F14 container of track names is iterated. *)
Context (f14_order : list FullTrackName → list FullTrackName).

(** ** Data *)

Record RankedEntry := mkEntry {
  ftn : FullTrackName;
  publisherRaw : MoQSession
}.

Record RankIndex := mkIndex {
  rankIter : RankKey;
  cachedRank : Z
}.

Record SessionInfo := mkSession {
  forward : bool;
  waterlineKey : option RankKey;
  selectedTracks : gset FullTrackName
}.

Record TopNGroup := mkGroup {
  maxSelected : Z;
  sessions : gmap MoQSession SessionInfo;
  trackStates : gmap FullTrackName TrackState;
  deselectedQueue : list FullTrackName
}.

(** The constructor's arguments.  The durations are in milliseconds. *)
Record Config := mkConfig {
  propertyType_ : Z;
  maxDeselected_ : Z;
  idleTimeout_ : Z;
  sweepThrottle_ : Z;
  onBatchSelected_ : bool;
  onSelected_ : bool;
  onEvicted_ : bool
}.

Record PropertyRanking := mkRanking {
  cfg : Config;
  lastSweepTime_ : option Z;
  rankedTracks_ : list (RankKey * RankedEntry);
  trackIndexByName_ : gmap FullTrackName RankIndex;
  topNGroups_ : gmap Z TopNGroup;
  publisherTrackCount_ : gmap MoQSession Z;
  nextSeq_ : Z;
  selectionThreshold_ : Z;
  publisherExtendedThreshold_ : Z;
  sortedThresholds_ : list Z;
  rankCacheValid_ : bool
}.

(** The calls an operation makes to the relay. *)
Inductive Event :=
| OnBatchSelected (f : FullTrackName) (batch : list (MoQSession * bool))
| OnSelected (f : FullTrackName) (s : MoQSession) (fwd : bool)
| OnEvicted (f : FullTrackName) (s : MoQSession).

Definition newRanking (c : Config) : PropertyRanking :=
  mkRanking c None [] ∅ ∅ ∅ 0 0 0 [] false.

(** Field updates. *)
Definition set_groups (gs : gmap Z TopNGroup) (st : PropertyRanking) : PropertyRanking :=
  mkRanking (cfg st) (lastSweepTime_ st) (rankedTracks_ st) (trackIndexByName_ st) gs
    (publisherTrackCount_ st) (nextSeq_ st) (selectionThreshold_ st)
    (publisherExtendedThreshold_ st) (sortedThresholds_ st) (rankCacheValid_ st).

Definition set_counts (m : gmap MoQSession Z) (st : PropertyRanking) : PropertyRanking :=
  mkRanking (cfg st) (lastSweepTime_ st) (rankedTracks_ st) (trackIndexByName_ st)
    (topNGroups_ st) m (nextSeq_ st) (selectionThreshold_ st)
    (publisherExtendedThreshold_ st) (sortedThresholds_ st) (rankCacheValid_ st).

Definition set_ranked (l : list (RankKey * RankedEntry)) (idx : gmap FullTrackName RankIndex)
    (valid : bool) (st : PropertyRanking) : PropertyRanking :=
  mkRanking (cfg st) (lastSweepTime_ st) l idx (topNGroups_ st)
    (publisherTrackCount_ st) (nextSeq_ st) (selectionThreshold_ st)
    (publisherExtendedThreshold_ st) (sortedThresholds_ st) valid.

Definition set_nextSeq (n : Z) (st : PropertyRanking) : PropertyRanking :=
  mkRanking (cfg st) (lastSweepTime_ st) (rankedTracks_ st) (trackIndexByName_ st)
    (topNGroups_ st) (publisherTrackCount_ st) n (selectionThreshold_ st)
    (publisherExtendedThreshold_ st) (sortedThresholds_ st) (rankCacheValid_ st).

Definition set_thresholds (sel ext : Z) (sorted : list Z) (st : PropertyRanking) :
    PropertyRanking :=
  mkRanking (cfg st) (lastSweepTime_ st) (rankedTracks_ st) (trackIndexByName_ st)
    (topNGroups_ st) (publisherTrackCount_ st) (nextSeq_ st) sel ext sorted
    (rankCacheValid_ st).

Definition set_lastSweep (t : option Z) (st : PropertyRanking) : PropertyRanking :=
  mkRanking (cfg st) t (rankedTracks_ st) (trackIndexByName_ st)
    (topNGroups_ st) (publisherTrackCount_ st) (nextSeq_ st) (selectionThreshold_ st)
    (publisherExtendedThreshold_ st) (sortedThresholds_ st) (rankCacheValid_ st).

Definition set_sessions (ss : gmap MoQSession SessionInfo) (g : TopNGroup) : TopNGroup :=
  mkGroup (maxSelected g) ss (trackStates g) (deselectedQueue g).

Definition set_states (ts : gmap FullTrackName TrackState) (g : TopNGroup) : TopNGroup :=
  mkGroup (maxSelected g) (sessions g) ts (deselectedQueue g).

Definition set_queue (q : list FullTrackName) (g : TopNGroup) : TopNGroup :=
  mkGroup (maxSelected g) (sessions g) (trackStates g) q.

(** ** [rankedTracks_] as a [std::map] *)

(** [emplace]: a node with an equivalent key is left alone. *)
Fixpoint emplace (k : RankKey) (e : RankedEntry) (l : list (RankKey * RankedEntry)) :
    list (RankKey * RankedEntry) :=
  match l with
  | [] => [(k, e)]
  | (k', e') :: l' =>
      if key_gt k k' then (k, e) :: l
      else if key_gt k' k then (k', e') :: emplace k e l'
      else l
  end.

(** [erase(iterator)] and the dereference of an iterator. *)
Fixpoint erase_node (k : RankKey) (l : list (RankKey * RankedEntry)) :
    list (RankKey * RankedEntry) :=
  match l with
  | [] => []
  | (k', e') :: l' => if key_eq k k' then l' else (k', e') :: erase_node k l'
  end.

Fixpoint deref (k : RankKey) (l : list (RankKey * RankedEntry)) : option RankedEntry :=
  match l with
  | [] => None
  | (k', e') :: l' => if key_eq k k' then Some e' else deref k l'
  end.

(** The tracks a loop with a rank counter visits before the counter reaches
    [n], and the entry it finds at rank [n]. *)
Fixpoint tracksBelow (rank n : Z) (l : list (RankKey * RankedEntry)) : list FullTrackName :=
  match l with
  | [] => []
  | (_, e) :: l' => if rank >=? n then [] else ftn e :: tracksBelow (rank + 1) n l'
  end.

Fixpoint entryAt (count n : Z) (l : list (RankKey * RankedEntry)) : option RankedEntry :=
  match l with
  | [] => None
  | (_, e) :: l' => if count =? n then Some e else entryAt (count + 1) n l'
  end.

(** ** Rank cache *)

Fixpoint rebuildFrom (rank : Z) (l : list (RankKey * RankedEntry))
    (idx : gmap FullTrackName RankIndex) : gmap FullTrackName RankIndex :=
  match l with
  | [] => idx
  | (_, e) :: l' =>
      rebuildFrom (rank + 1) l' (alter (λ ri, mkIndex (rankIter ri) rank) (ftn e) idx)
  end.

Definition rebuildRankCacheIfNeeded (st : PropertyRanking) : PropertyRanking :=
  if rankCacheValid_ st then st
  else set_ranked (rankedTracks_ st)
         (rebuildFrom 0 (rankedTracks_ st) (trackIndexByName_ st)) true st.

Definition getCachedRank (f : FullTrackName) (st : PropertyRanking) : PropertyRanking * Z :=
  let st := rebuildRankCacheIfNeeded st in
  match trackIndexByName_ st !! f with
  | None => (st, u64_max)
  | Some ri => (st, cachedRank ri)
  end.

Definition getRank (k : RankKey) (st : PropertyRanking) : option (PropertyRanking * Z) :=
  match deref k (rankedTracks_ st) with
  | None => Some (st, u64_max)
  | Some e =>
      let st := rebuildRankCacheIfNeeded st in
      match trackIndexByName_ st !! ftn e with
      | None => None
      | Some ri => Some (st, cachedRank ri)
      end
  end.

Definition invalidateRankCache (st : PropertyRanking) : PropertyRanking :=
  set_ranked (rankedTracks_ st) (trackIndexByName_ st) false st.

(** ** Loops over the groups and over the sessions of a group *)

Definition forGroups (f : Z → TopNGroup → TopNGroup * list Event)
    (gs : gmap Z TopNGroup) : gmap Z TopNGroup * list Event :=
  (map_imap (λ n g, Some (f n g).1) gs,
   mjoin ((λ p : Z * TopNGroup, (f p.1 p.2).2) <$> map_to_list gs)).

Definition forSessions (f : MoQSession → SessionInfo → SessionInfo * list Event)
    (ss : gmap MoQSession SessionInfo) : gmap MoQSession SessionInfo * list Event :=
  (map_imap (λ s i, Some (f s i).1) ss,
   mjoin ((λ p : MoQSession * SessionInfo, (f p.1 p.2).2) <$> map_to_list ss)).

Definition isPublisher (st : PropertyRanking) (s : MoQSession) : bool :=
  bool_decide (is_Some (publisherTrackCount_ st !! s)).

(** ** Thresholds *)

Definition maxN (gs : gmap Z TopNGroup) : Z :=
  foldr Z.max 0 ((map_to_list gs).*1).

Definition updateSelectionThreshold (st : PropertyRanking) : PropertyRanking :=
  let gs := topNGroups_ st in
  set_thresholds (u64 (maxN gs + maxDeselected_ (cfg st))) (publisherExtendedThreshold_ st)
    (merge_sort Z.le (map_to_list gs).*1) st.

(** [max(N + selfTrackCount)] over the publisher-subscribers, from [init]. *)
Definition maxExtendedFrom (init : Z) (st : PropertyRanking) : Z :=
  foldr (λ p acc,
    foldr (λ q acc,
        match publisherTrackCount_ st !! q.1 with
        | Some c => Z.max acc (u64 (p.1 + c))
        | None => acc
        end) acc (map_to_list (sessions p.2)))
    init (map_to_list (topNGroups_ st)).

Definition updatePublisherExtendedThreshold (st : PropertyRanking) : PropertyRanking :=
  set_thresholds (selectionThreshold_ st)
    (u64 (maxExtendedFrom 0 st + maxDeselected_ (cfg st))) (sortedThresholds_ st) st.

(** [std::upper_bound] on the sorted thresholds. *)
Fixpoint upper_bound (l : list Z) (x : Z) : option Z :=
  match l with
  | [] => None
  | y :: l' => if x <? y then Some y else upper_bound l' x
  end.

Definition crossesThreshold (st : PropertyRanking) (oldRank newRank : Z) : bool :=
  if bool_decide (topNGroups_ st = ∅) then false
  else
    let effectiveThreshold :=
      Z.max (selectionThreshold_ st) (publisherExtendedThreshold_ st) in
    if (oldRank >=? effectiveThreshold) && (newRank >=? effectiveThreshold) then false
    else
      let minRank := Z.min oldRank newRank in
      let maxRank := Z.max oldRank newRank in
      let oldInAnyTopN := oldRank <? selectionThreshold_ st in
      let newInAnyTopN := newRank <? selectionThreshold_ st in
      if negb (eqb oldInAnyTopN newInAnyTopN) then true
      else
        let crossed := match upper_bound (sortedThresholds_ st) minRank with
                       | Some t => t <=? maxRank
                       | None => false
                       end in
        if crossed then true
        else if bool_decide (publisherTrackCount_ st = ∅) then false
        else
          let maxExtended := maxExtendedFrom (maxN (topNGroups_ st)) st in
          (minRank <? maxExtended) || (maxRank <? maxExtended).

(** ** Personal selection of a publisher-subscriber *)

Fixpoint waterlineFrom (nonSelfCount n : Z) (s : MoQSession)
    (l : list (RankKey * RankedEntry)) : option RankKey :=
  match l with
  | [] => None
  | (k, e) :: l' =>
      if bool_decide (publisherRaw e ≠ s) then
        if nonSelfCount + 1 =? n then Some k else waterlineFrom (nonSelfCount + 1) n s l'
      else waterlineFrom nonSelfCount n s l'
  end.

Definition computeWaterlineKey (st : PropertyRanking) (s : MoQSession) (n : Z) :
    option RankKey :=
  waterlineFrom 0 n s (rankedTracks_ st).

Definition aboveWaterline (w : option RankKey) (k : RankKey) : bool :=
  match w with None => true | Some k' => key_ge k k' end.

Definition nowSelectedList (w : option RankKey) (s : MoQSession)
    (l : list (RankKey * RankedEntry)) : list FullTrackName :=
  omap (λ p, if bool_decide (publisherRaw p.2 ≠ s) && aboveWaterline w p.1
             then Some (ftn p.2) else None) l.

Definition reconcilePublisherSelection (st : PropertyRanking) (info : SessionInfo) (n : Z)
    (s : MoQSession) : SessionInfo * list Event :=
  let w := computeWaterlineKey st s n in
  let nowSelected : gset FullTrackName :=
    list_to_set (nowSelectedList w s (rankedTracks_ st)) in
  let evicted := if onEvicted_ (cfg st)
                 then (λ f, OnEvicted f s) <$> elements (selectedTracks info ∖ nowSelected)
                 else [] in
  let selected := if onSelected_ (cfg st)
                  then (λ f, OnSelected f s (forward info)) <$>
                         elements (nowSelected ∖ selectedTracks info)
                  else [] in
  (mkSession (forward info) w nowSelected, evicted ++ selected).

(** [reconcile] on the publishers of a group, viewers untouched. *)
Definition reconcilePublishers (st : PropertyRanking) (n : Z) (skip : option MoQSession)
    (g : TopNGroup) : TopNGroup * list Event :=
  let r := forSessions (λ s info,
             if isPublisher st s && bool_decide (skip ≠ Some s)
             then reconcilePublisherSelection st info n s else (info, [])) (sessions g) in
  (set_sessions r.1 g, r.2).

Definition viewerBatch (st : PropertyRanking) (g : TopNGroup) : list (MoQSession * bool) :=
  omap (λ p, if isPublisher st p.1 then None else Some (p.1, forward p.2))
       (map_to_list (sessions g)).

Definition batchSelected (st : PropertyRanking) (f : FullTrackName)
    (batch : list (MoQSession * bool)) : list Event :=
  if negb (bool_decide (batch = [])) && onBatchSelected_ (cfg st)
  then [OnBatchSelected f batch] else [].

Definition notifyTrackSelected (st : PropertyRanking) (f : FullTrackName) (g : TopNGroup) :
    TopNGroup * list Event :=
  let r := reconcilePublishers st (maxSelected g) None g in
  (r.1, r.2 ++ batchSelected st f (viewerBatch st g)).

(** ** The deselected queue *)

Definition evictedEvents (st : PropertyRanking) (f : FullTrackName) (g : TopNGroup) :
    list Event :=
  if onEvicted_ (cfg st) then (λ s, OnEvicted f s) <$> (map_to_list (sessions g)).*1 else [].

Fixpoint trimLoop (st : PropertyRanking) (q : list FullTrackName) (g : TopNGroup) :
    TopNGroup * list Event :=
  match q with
  | [] => (set_queue [] g, [])
  | f :: q' =>
      if Z.of_nat (length q) >? maxDeselected_ (cfg st) then
        let g := set_states (delete f (trackStates g)) g in
        let r := trimLoop st q' g in
        (r.1, evictedEvents st f g ++ r.2)
      else (set_queue q g, [])
  end.

Definition trimDeselectedQueue (st : PropertyRanking) (g : TopNGroup) :
    TopNGroup * list Event :=
  trimLoop st (deselectedQueue g) g.

Definition removeFromDeselectedQueue (f : FullTrackName) (g : TopNGroup) : TopNGroup :=
  set_queue (filter (λ f', f' ≠ f) (deselectedQueue g)) g.

Definition demoteTrack (st : PropertyRanking) (f : FullTrackName) (g : TopNGroup) :
    TopNGroup * list Event :=
  let g := set_states (<[f := Deselected]> (trackStates g)) g in
  let g := set_queue (deselectedQueue g ++ [f]) g in
  trimDeselectedQueue st g.

Definition demoteTrackAtRank (st : PropertyRanking) (n : Z) (g : TopNGroup) :
    TopNGroup * list Event :=
  match entryAt 0 n (rankedTracks_ st) with
  | None => (g, [])
  | Some e =>
      match trackStates g !! ftn e with
      | Some Selected =>
          let g := set_states (<[ftn e := Deselected]> (trackStates g)) g in
          let g := set_queue (deselectedQueue g ++ [ftn e]) g in
          trimDeselectedQueue st g
      | _ => (g, [])
      end
  end.

(** Mark a track selected, drop it from the queue and notify the group. *)
Definition selectTrack (st : PropertyRanking) (f : FullTrackName) (g : TopNGroup) :
    TopNGroup * list Event :=
  let g := set_states (<[f := Selected]> (trackStates g)) g in
  let g := removeFromDeselectedQueue f g in
  notifyTrackSelected st f g.

Fixpoint promoteLoop (st : PropertyRanking) (l : list (RankKey * RankedEntry))
    (exclude : FullTrackName) (g : TopNGroup) : TopNGroup * list Event :=
  match l with
  | [] => (g, [])
  | (_, e) :: l' =>
      if bool_decide (ftn e = exclude) then promoteLoop st l' exclude g
      else if bool_decide (trackStates g !! ftn e = Some Selected)
      then promoteLoop st l' exclude g
      else selectTrack st (ftn e) g
  end.

Definition promoteNextAvailableTrack (st : PropertyRanking) (exclude : FullTrackName)
    (g : TopNGroup) : TopNGroup * list Event :=
  promoteLoop st (rankedTracks_ st) exclude g.

(** ** Operations *)

Definition seedSelection (n : Z) (l : list (RankKey * RankedEntry)) (info : SessionInfo) :
    SessionInfo :=
  mkSession (forward info) (waterlineKey info)
    (selectedTracks info ∪ list_to_set (tracksBelow 0 n l)).

Definition wasPublisher (info : SessionInfo) : bool :=
  negb (bool_decide (selectedTracks info = ∅)) || bool_decide (is_Some (waterlineKey info)).

Definition reconcileInGroup (st : PropertyRanking) (s : MoQSession) (n : Z) (g : TopNGroup) :
    TopNGroup * list Event :=
  match sessions g !! s with
  | None => (g, [])
  | Some info =>
      let info := if wasPublisher info then info
                  else seedSelection n (rankedTracks_ st) info in
      let r := reconcilePublisherSelection st info n s in
      (set_sessions (<[s := r.1]> (sessions g)) g, r.2)
  end.

Definition reconcilePublisherInAllGroups (st : PropertyRanking) (s : MoQSession) :
    PropertyRanking * list Event :=
  let r := forGroups (reconcileInGroup st s) (topNGroups_ st) in
  (set_groups r.1 st, r.2).

(** The step of [registerTrack]'s loop for one group. *)
Definition registerInGroup (st : PropertyRanking) (f : FullTrackName) (rank : Z)
    (n : Z) (g : TopNGroup) : TopNGroup * list Event :=
  if rank <? n then
    let g := set_states (<[f := Selected]> (trackStates g)) g in
    let r := notifyTrackSelected st f g in
    let r' := demoteTrackAtRank st n r.1 in
    (r'.1, r.2 ++ r'.2)
  else reconcilePublishers st n None g.

(** A new node with the next arrival number, and its rank. *)
Definition insertTrack (f : FullTrackName) (value : Z) (p : MoQSession)
    (st : PropertyRanking) : PropertyRanking * Z :=
  let key := mkKey value (nextSeq_ st) in
  let st := set_nextSeq (u64 (nextSeq_ st + 1)) st in
  let count := u64 (default 0 (publisherTrackCount_ st !! p) + 1) in
  let st := set_counts (<[p := count]> (publisherTrackCount_ st)) st in
  let st := updatePublisherExtendedThreshold st in
  let st := set_ranked (emplace key (mkEntry f p) (rankedTracks_ st))
              (<[f := mkIndex key u64_max]> (trackIndexByName_ st))
              (rankCacheValid_ st) st in
  let st := invalidateRankCache st in
  getCachedRank f st.

Definition registerTrack (f : FullTrackName) (initialPropertyValue : option Z)
    (publisher : option MoQSession) (st : PropertyRanking) :
    option (PropertyRanking * list Event) :=
  match publisher with
  | None => None
  | Some p =>
      match trackIndexByName_ st !! f with
      | Some _ => Some (st, [])
      | None =>
          let value := default 0 initialPropertyValue in
          let '(st, rank) := insertTrack f value p st in
          let '(st, evs1) := reconcilePublisherInAllGroups st p in
          let '(gs, evs2) := forGroups (registerInGroup st f rank) (topNGroups_ st) in
          Some (set_groups gs st, evs1 ++ evs2)
      end
  end.

(** Promotion of the track now at rank [N-1]. *)
Definition promoteTrackAtRank (st : PropertyRanking) (n : Z) (g : TopNGroup) :
    TopNGroup * list Event :=
  match entryAt 0 (u64 (n - 1)) (rankedTracks_ st) with
  | None => (g, [])
  | Some e =>
      if bool_decide (trackStates g !! ftn e = Some Selected) then (g, [])
      else selectTrack st (ftn e) g
  end.

Definition recomputeGroup (st : PropertyRanking) (f : FullTrackName)
    (ftnPublisher : option MoQSession) (oldRank newRank : Z) (n : Z) (g : TopNGroup) :
    TopNGroup * list Event :=
  let wasInTopN := oldRank <? n in
  let nowInTopN := newRank <? n in
  let r1 :=
    if eqb wasInTopN nowInTopN then (g, [])
    else if nowInTopN then
      (removeFromDeselectedQueue f (set_states (<[f := Selected]> (trackStates g)) g), [])
    else demoteTrack st f g in
  let r2 := reconcilePublishers st n ftnPublisher r1.1 in
  let entered := negb wasInTopN && nowInTopN in
  let evs3 := batchSelected st f (if entered then viewerBatch st r2.1 else []) in
  let r4 := if entered then demoteTrackAtRank st n r2.1 else (r2.1, []) in
  let r5 := if wasInTopN && negb nowInTopN then promoteTrackAtRank st n r4.1
            else (r4.1, []) in
  (r5.1, r1.2 ++ r2.2 ++ evs3 ++ r4.2 ++ r5.2).

Definition recomputeTopNGroups (f : FullTrackName) (oldRank newRank : Z)
    (st : PropertyRanking) : option (PropertyRanking * list Event) :=
  match (match trackIndexByName_ st !! f with
         | None => Some None
         | Some ri => Some <$> (publisherRaw <$> deref (rankIter ri) (rankedTracks_ st))
         end) with
  | None => None
  | Some ftnPublisher =>
      let '(gs, evs) :=
        forGroups (recomputeGroup st f ftnPublisher oldRank newRank) (topNGroups_ st) in
      Some (set_groups gs st, evs)
  end.

(** *** Idle sweep

    [now] and the activity times are readings of the steady clock in
    nanoseconds; the epoch is 0. *)

Definition ms (d : Z) : Z := d * 1000000.

Definition isIdle (st : PropertyRanking) (now : Z) (lastActivity : Z) : bool :=
  (lastActivity =? 0) || negb (now - lastActivity <=? ms (idleTimeout_ (cfg st))).

Definition selectedSnapshot (g : TopNGroup) : list FullTrackName :=
  f14_order (omap (λ p : FullTrackName * TrackState,
                     if bool_decide (p.2 = Selected) then Some p.1 else None)
                  (map_to_list (trackStates g))).

Fixpoint sweepTracks (st : PropertyRanking) (now : Z)
    (getLastActivity : FullTrackName → Z) (l : list FullTrackName) (g : TopNGroup) :
    TopNGroup * list Event :=
  match l with
  | [] => (g, [])
  | f :: l' =>
      if isIdle st now (getLastActivity f) then
        let r1 := demoteTrack st f g in
        let r2 := promoteNextAvailableTrack st f r1.1 in
        let r3 := sweepTracks st now getLastActivity l' r2.1 in
        (r3.1, r1.2 ++ r2.2 ++ r3.2)
      else sweepTracks st now getLastActivity l' g
  end.

Definition sweepGroup (st : PropertyRanking) (now : Z) (getLastActivity : FullTrackName → Z)
    (n : Z) (g : TopNGroup) : TopNGroup * list Event :=
  sweepTracks st now getLastActivity (selectedSnapshot g) g.

Definition sweepIdle (now : Z) (getLastActivity : option (FullTrackName → Z))
    (st : PropertyRanking) : PropertyRanking * list Event :=
  if idleTimeout_ (cfg st) =? 0 then (st, [])
  else match getLastActivity with
  | None => (st, [])
  | Some gla =>
      let throttled := match lastSweepTime_ st with
                       | Some t => (0 <? sweepThrottle_ (cfg st))
                                   && (now - t <? ms (sweepThrottle_ (cfg st)))
                       | None => false
                       end in
      if throttled then (st, [])
      else
        let st := set_lastSweep (Some now) st in
        let '(gs, evs) := forGroups (sweepGroup st now gla) (topNGroups_ st) in
        (set_groups gs st, evs)
  end.

(** The node of [f] under its new key, and its new rank. *)
Definition moveTrack (f : FullTrackName) (oldKey newKey : RankKey) (rankedEntry : RankedEntry)
    (st : PropertyRanking) : PropertyRanking * Z :=
  let st := set_ranked
              (emplace newKey rankedEntry (erase_node oldKey (rankedTracks_ st)))
              (alter (λ ri, mkIndex newKey (cachedRank ri)) f (trackIndexByName_ st))
              (rankCacheValid_ st) st in
  let st := invalidateRankCache st in
  getCachedRank f st.

Definition updateSortValue (now : Z) (getLastActivity : option (FullTrackName → Z))
    (f : FullTrackName) (value : Z) (st : PropertyRanking) :
    option (PropertyRanking * list Event) :=
  match trackIndexByName_ st !! f with
  | None => Some (st, [])
  | Some ri =>
      match deref (rankIter ri) (rankedTracks_ st) with
      | None => None
      | Some rankedEntry =>
          let oldKey := rankIter ri in
          if rvalue oldKey =? value then Some (st, [])
          else
            let newKey := mkKey value (arrivalSeq oldKey) in
            let '(st, oldRank) := getCachedRank f st in
            let '(st, newRank) := moveTrack f oldKey newKey rankedEntry st in
            if crossesThreshold st oldRank newRank then
              match recomputeTopNGroups f oldRank newRank st with
              | None => None
              | Some (st, evs1) =>
                  let '(st, evs2) := sweepIdle now getLastActivity st in
                  Some (st, evs1 ++ evs2)
              end
            else Some (st, [])
      end
  end.

Definition removeInGroup (st : PropertyRanking) (f : FullTrackName) (n : Z) (g : TopNGroup) :
    TopNGroup * list Event :=
  match trackStates g !! f with
  | None => (g, [])
  | Some state =>
      let g := set_states (delete f (trackStates g)) g in
      let g := removeFromDeselectedQueue f g in
      match state with
      | Deselected => (g, [])
      | Selected =>
          match deselectedQueue g with
          | promoted :: q =>
              let g := set_queue q g in
              let g := set_states (<[promoted := Selected]> (trackStates g)) g in
              notifyTrackSelected st promoted g
          | [] => promoteNextAvailableTrack st f g
          end
      end
  end.

Definition dropCount (p : MoQSession) (st : PropertyRanking) : PropertyRanking :=
  match publisherTrackCount_ st !! p with
  | None => st
  | Some c =>
      let c := u64 (c - 1) in
      updatePublisherExtendedThreshold
        (set_counts (if c =? 0 then delete p (publisherTrackCount_ st)
                     else <[p := c]> (publisherTrackCount_ st)) st)
  end.

Definition eraseTrack (f : FullTrackName) (key : RankKey) (p : MoQSession)
    (st : PropertyRanking) : PropertyRanking :=
  let st := dropCount p st in
  let st := set_ranked (erase_node key (rankedTracks_ st))
              (delete f (trackIndexByName_ st)) (rankCacheValid_ st) st in
  invalidateRankCache st.

Definition removeTrack (f : FullTrackName) (st : PropertyRanking) :
    option (PropertyRanking * list Event) :=
  match trackIndexByName_ st !! f with
  | None => Some (st, [])
  | Some ri =>
      let st := (getCachedRank f st).1 in
      match deref (rankIter ri) (rankedTracks_ st) with
      | None => None
      | Some e =>
          let st := eraseTrack f (rankIter ri) (publisherRaw e) st in
          let '(gs, evs) := forGroups (removeInGroup st f) (topNGroups_ st) in
          Some (set_groups gs st, evs)
      end
  end.

Definition getOrCreateTopNGroup (n : Z) (st : PropertyRanking) : PropertyRanking :=
  match topNGroups_ st !! n with
  | Some _ => st
  | None =>
      let st := updateSelectionThreshold (set_groups (<[n := mkGroup n ∅ ∅ []]> (topNGroups_ st)) st) in
      let ts := foldl (λ m f, <[f := Selected]> m) ∅ (tracksBelow 0 n (rankedTracks_ st)) in
      set_groups (<[n := mkGroup n ∅ ts []]> (topNGroups_ st)) st
  end.

Definition addSessionToTopNGroup (n : Z) (s : MoQSession) (fwd : bool)
    (st : PropertyRanking) : PropertyRanking * list Event :=
  let st := getOrCreateTopNGroup n st in
  match topNGroups_ st !! n with
  | None => (st, [])
  | Some g =>
      let info := mkSession fwd None ∅ in
      let g := set_sessions (<[s := info]> (sessions g)) g in
      let st := set_groups (<[n := g]> (topNGroups_ st)) st in
      if isPublisher st s then
        let st := updatePublisherExtendedThreshold st in
        let r := reconcilePublisherSelection st info n s in
        let g := set_sessions (<[s := r.1]> (sessions g)) g in
        (set_groups (<[n := g]> (topNGroups_ st)) st, r.2)
      else
        (st, if onSelected_ (cfg st)
             then (λ f, OnSelected f s fwd) <$> tracksBelow 0 n (rankedTracks_ st)
             else [])
  end.

Definition removeTopNGroup (n : Z) (st : PropertyRanking) : PropertyRanking :=
  updateSelectionThreshold (set_groups (delete n (topNGroups_ st)) st).

Definition removeSessionFromTopNGroup (n : Z) (s : MoQSession) (st : PropertyRanking) :
    PropertyRanking :=
  match topNGroups_ st !! n with
  | None => st
  | Some g =>
      let wasPublisher := isPublisher st s in
      let g := set_sessions (delete s (sessions g)) g in
      let st := set_groups (<[n := g]> (topNGroups_ st)) st in
      let st := if bool_decide (sessions g = ∅) then removeTopNGroup n st else st in
      if wasPublisher then updatePublisherExtendedThreshold st else st
  end.

Definition updateSessionForward (n : Z) (s : MoQSession) (fwd : bool)
    (st : PropertyRanking) : PropertyRanking :=
  match topNGroups_ st !! n with
  | None => st
  | Some g =>
      match sessions g !! s with
      | None => st
      | Some info =>
          let info := mkSession fwd (waterlineKey info) (selectedTracks info) in
          set_groups (<[n := set_sessions (<[s := info]> (sessions g)) g]> (topNGroups_ st)) st
      end
  end.

(** ** Sequences of operations *)

Inductive Op :=
| ORegisterTrack (f : FullTrackName) (v : option Z) (p : MoQSession)
| OUpdateSortValue (now : Z) (gla : option (FullTrackName → Z)) (f : FullTrackName) (v : Z)
| ORemoveTrack (f : FullTrackName)
| OGetOrCreateTopNGroup (n : Z)
| ORemoveTopNGroup (n : Z)
| OAddSession (n : Z) (s : MoQSession) (fwd : bool)
| ORemoveSession (n : Z) (s : MoQSession)
| OUpdateForward (n : Z) (s : MoQSession) (fwd : bool)
| OSweepIdle (now : Z) (gla : option (FullTrackName → Z)).

Definition stepOp (o : Op) (st : PropertyRanking) : option (PropertyRanking * list Event) :=
  match o with
  | ORegisterTrack f v p => registerTrack f v (Some p) st
  | OUpdateSortValue now gla f v => updateSortValue now gla f v st
  | ORemoveTrack f => removeTrack f st
  | OGetOrCreateTopNGroup n => Some (getOrCreateTopNGroup n st, [])
  | ORemoveTopNGroup n => Some (removeTopNGroup n st, [])
  | OAddSession n s fwd => Some (addSessionToTopNGroup n s fwd st)
  | ORemoveSession n s => Some (removeSessionFromTopNGroup n s st, [])
  | OUpdateForward n s fwd => Some (updateSessionForward n s fwd st, [])
  | OSweepIdle now gla => Some (sweepIdle now gla st)
  end.

Fixpoint run (ops : list Op) (st : PropertyRanking) : option (PropertyRanking * list Event) :=
  match ops with
  | [] => Some (st, [])
  | o :: ops' =>
      match stepOp o st with
      | None => None
      | Some (st, evs) =>
          match run ops' st with
          | None => None
          | Some (st, evs') => Some (st, evs ++ evs')
          end
      end
  end.

End Ranking.

Arguments RankedEntry FullTrackName MoQSession : clear implicits.
Arguments SessionInfo FullTrackName {_ _}.
