(* ===== verification/RankingOrder.v ===== *)
(** * Ranking order: facts about [rankedTracks_] and its index

    The sorted list behind [PropertyRanking.rankedTracks_], the invariant
    [core] that ties the list, the name index, the rank cache and the
    publisher counts together, and what each change of the list does to the
    top of the ranking. *)

From S2P Require Import Prelude PropertyRanking.

(** ** The order on keys *)

Lemma key_eq_spec a b : key_eq a b = true ↔ a = b.
Proof.
  unfold key_eq. destruct a as [v q], b as [v' q']; cbn.
  rewrite andb_true_iff, !Z.eqb_eq. split; [intros [-> ->]; done|intros [= -> ->]; done].
Qed.

Lemma key_gt_spec a b :
  key_gt a b = true ↔
  rvalue b < rvalue a ∨ (rvalue a = rvalue b ∧ arrivalSeq a < arrivalSeq b).
Proof. unfold key_gt. destruct (Z.eqb_spec (rvalue a) (rvalue b)); cbn; lia. Qed.

Lemma key_gt_irrefl a : key_gt a a = false.
Proof. apply not_true_iff_false. rewrite key_gt_spec. lia. Qed.

Lemma key_gt_trans a b c : key_gt a b = true → key_gt b c = true → key_gt a c = true.
Proof. rewrite !key_gt_spec. lia. Qed.

Lemma key_gt_total a b : a ≠ b → key_gt a b = false → key_gt b a = true.
Proof.
  intros Hne Hf. apply not_true_iff_false in Hf. rewrite key_gt_spec in *.
  destruct a as [v q], b as [v' q']; cbn in *.
  destruct (decide (v = v')); [subst; assert (q ≠ q') by congruence|]; lia.
Qed.

Lemma key_ge_spec a b : key_ge a b = true ↔ key_gt a b = true ∨ a = b.
Proof. unfold key_ge. by rewrite orb_true_iff, key_eq_spec. Qed.

Section RankingOrder.
Context {FullTrackName : Type} `{Countable FullTrackName}.
Context {MoQSession : Type} `{Countable MoQSession}.

(** ** The ranking as a sorted list *)

#[local] Abbreviation RankedEntry := (RankedEntry FullTrackName MoQSession).
#[local] Abbreviation ranked := (list (RankKey * RankedEntry)).
#[local] Abbreviation ranking :=
  (PropertyRanking (FullTrackName:=FullTrackName) (MoQSession:=MoQSession)).

Implicit Types (st : ranking) (l : ranked) (f : FullTrackName) (s : MoQSession).

Definition above (p q : RankKey * RankedEntry) : Prop := key_gt p.1 q.1 = true.

Definition names (l : ranked) : list FullTrackName := (λ p, ftn p.2) <$> l.

Lemma names_app l1 l2 : names (l1 ++ l2) = names l1 ++ names l2.
Proof. apply fmap_app. Qed.

Lemma sorted_app (l1 l2 : ranked) :
  StronglySorted above (l1 ++ l2) ↔
  StronglySorted above l1 ∧ StronglySorted above l2 ∧
  (∀ p q, p ∈ l1 → q ∈ l2 → above p q).
Proof.
  induction l1 as [|x l1 IH]; cbn.
  - split; [intros; split_and!; [constructor|done|intros ?? []%elem_of_nil]|naive_solver].
  - split.
    + intros [Hs Hf]%StronglySorted_inv. apply IH in Hs as (?&?&Hc).
      rewrite Forall_app, !Forall_forall in Hf. destruct Hf as [Hf1 Hf2].
      split_and!; [constructor; [done|by apply Forall_forall]|done|].
      intros p q [->|?]%elem_of_cons ?; eauto.
    + intros ([Hs Hf]%StronglySorted_inv & Hs2 & Hc). constructor.
      * apply IH. split_and!; [done..|]. intros. apply Hc; [by right|done].
      * apply Forall_app. split; [done|]. apply Forall_forall. intros q Hq.
        apply Hc; [by left|done].
Qed.

Lemma sorted_middle (l1 l2 : ranked) x :
  StronglySorted above (l1 ++ x :: l2) → StronglySorted above (l1 ++ l2).
Proof.
  rewrite !sorted_app. intros (?&[? ?]%StronglySorted_inv&Hc).
  split_and!; [done..|]. intros. apply Hc; [done|by right].
Qed.

Lemma above_irrefl p : ¬ above p p.
Proof. unfold above. by rewrite key_gt_irrefl. Qed.

Lemma sorted_key_inj (l : ranked) k e e' :
  StronglySorted above l → (k, e) ∈ l → (k, e') ∈ l → e = e'.
Proof.
  induction 1 as [|x l Hs IH Hf]; [by intros ?%elem_of_nil|].
  rewrite Forall_forall in Hf.
  intros [He|He]%elem_of_cons [He'|He']%elem_of_cons; try congruence; [| |by eauto].
  - apply Hf in He'. subst x. unfold above in He'. cbn in He'. by rewrite key_gt_irrefl in He'.
  - apply Hf in He. subst x. unfold above in He. cbn in He. by rewrite key_gt_irrefl in He.
Qed.

(** [emplace] of a fresh key puts the node at the one place that keeps the
    order. *)
Lemma emplace_split k e (l : ranked) :
  StronglySorted above l → (∀ p, p ∈ l → p.1 ≠ k) →
  ∃ l1 l2, l = l1 ++ l2 ∧ emplace k e l = l1 ++ (k, e) :: l2 ∧
    StronglySorted above (l1 ++ (k, e) :: l2).
Proof.
  induction 1 as [|[k' e'] l Hs IH Hf]; intros Hk; cbn.
  - exists [], []. split_and!; [done..|]. repeat constructor.
  - destruct (key_gt k k') eqn:Hgt.
    + exists [], ((k', e') :: l). split_and!; [done..|]. cbn.
      constructor; [by constructor|]. constructor; [done|].
      eapply Forall_impl; [done|]. intros q Hq. red in Hq |- *. cbn in *. by apply key_gt_trans with k'.
    + rewrite (key_gt_total k k'); [|specialize (Hk (k', e')); intros ->; by apply Hk; [left|]|done].
      destruct IH as (l1&l2&->&->&Hs'); [intros; apply Hk; by right|].
      exists ((k', e') :: l1), l2. split_and!; [done..|]. cbn. constructor; [done|].
      rewrite Forall_app in Hf. destruct Hf as [? ?].
      apply Forall_app; split; [done|]. constructor; [|done].
      red. cbn. apply key_gt_total; [|done]. intros ->. apply (Hk (k', e')); [left|done].
Qed.

(** A node that is there is found and erased at its place. *)
Lemma deref_split k e (l : ranked) :
  deref k l = Some e → ∃ l1 l2, l = l1 ++ (k, e) :: l2 ∧ erase_node k l = l1 ++ l2.
Proof.
  induction l as [|[k' e'] l IH]; [done|]. cbn. destruct (key_eq k k') eqn:Hk.
  - apply key_eq_spec in Hk as <-. intros [= ->]. by exists [], l.
  - intros (l1&l2&->&->)%IH. by exists ((k', e') :: l1), l2.
Qed.

Lemma deref_elem k e (l : ranked) :
  StronglySorted above l → (k, e) ∈ l → deref k l = Some e.
Proof.
  intros Hs Hin. destruct (deref k l) as [e'|] eqn:Hd.
  - f_equal. apply deref_split in Hd as (l1&l2&->&_). apply (sorted_key_inj _ k _ _ Hs); [set_solver|done].
  - exfalso. clear Hs. induction l as [|[k' e'] l IH]; [by apply elem_of_nil in Hin|].
    cbn in Hd. destruct (key_eq k k') eqn:Hk; [done|].
    apply elem_of_cons in Hin as [[= -> ->]|Hin]; [|by apply IH].
    by rewrite (proj2 (key_eq_spec k' k')) in Hk.
Qed.

Lemma tracksBelow_take rank n (l : ranked) :
  tracksBelow rank n l = take (Z.to_nat (n - rank)) (names l).
Proof.
  revert rank. induction l as [|[k e] l IH]; intros rank; cbn; [by rewrite take_nil|].
  destruct (Z.geb_spec rank n).
  - by replace (Z.to_nat (n - rank)) with 0%nat by lia.
  - rewrite IH. by replace (Z.to_nat (n - rank)) with (S (Z.to_nat (n - (rank + 1)))) by lia.
Qed.

Lemma entryAt_lookup count n (l : ranked) :
  count ≤ n → entryAt count n l = snd <$> l !! Z.to_nat (n - count).
Proof.
  revert count. induction l as [|[k e] l IH]; intros count Hc; cbn; [done|].
  destruct (Z.eqb_spec count n).
  - by replace (Z.to_nat (n - count)) with 0%nat by lia.
  - rewrite IH by lia.
    by replace (Z.to_nat (n - count)) with (S (Z.to_nat (n - (count + 1)))) by lia.
Qed.

(** ** The top of a ranking *)

Definition topSet (n : Z) (l : ranked) : gset FullTrackName :=
  list_to_set (take (Z.to_nat n) (names l)).

Lemma topSet_tracksBelow n (l : ranked) : topSet n l = list_to_set (tracksBelow 0 n l).
Proof. by rewrite tracksBelow_take, Z.sub_0_r. Qed.

(** A node put at a rank below [n] enters the top [n] and shifts the rest. *)
Lemma topSet_middle n (l1 l2 : ranked) x :
  topSet n (l1 ++ x :: l2) =
  if Z.of_nat (length l1) <? n then {[ftn x.2]} ∪ topSet (n - 1) (l1 ++ l2)
  else topSet n (l1 ++ l2).
Proof.
  unfold topSet. rewrite !names_app. cbn.
  assert (length (names l1) = length l1) as Hl by apply length_fmap.
  destruct (Z.ltb_spec (Z.of_nat (length l1)) n).
  - rewrite !take_app, Hl, !(take_ge (names l1)) by lia.
    replace (Z.to_nat n - length l1)%nat with (S (Z.to_nat (n - 1) - length l1)) by lia.
    cbn. set_solver.
  - rewrite !take_app, Hl.
    by replace (Z.to_nat n - length l1)%nat with 0%nat by lia.
Qed.

(** The top [n] is the top [n-1] and the track at rank [n-1], if there is one. *)
Lemma topSet_pred n (l : ranked) :
  0 < n →
  topSet n l = topSet (n - 1) l ∪ (match entryAt 0 (n - 1) l with
                                   | Some e => {[ftn e]} | None => ∅ end).
Proof.
  intros Hn. rewrite entryAt_lookup by lia. unfold topSet.
  replace (Z.to_nat n) with (S (Z.to_nat (n - 1))) by lia.
  replace (n - 1 - 0) with (n - 1) by lia.
  destruct (l !! Z.to_nat (n - 1)) as [p|] eqn:Hp; cbn.
  - erewrite take_S_r by (unfold names; by rewrite list_lookup_fmap, Hp).
    rewrite list_to_set_app_L; cbn; set_solver.
  - apply lookup_ge_None_1 in Hp. rewrite !take_ge by (unfold names; rewrite length_fmap; lia).
    set_solver.
Qed.

Lemma topSet_nonpos n (l : ranked) : n <= 0 → topSet n l = ∅.
Proof. intros. unfold topSet. by replace (Z.to_nat n) with 0%nat by lia. Qed.

Lemma topSet_names n (l : ranked) f : f ∈ topSet n l → f ∈ names l.
Proof.
  unfold topSet. rewrite elem_of_list_to_set. intros (?&?&?)%elem_of_take. by eapply list_elem_of_lookup_2.
Qed.

(** With distinct names, the track at rank [n] is not in the top [n]. *)
Lemma topSet_entryAt_fresh n (l : ranked) e :
  0 <= n → NoDup (names l) → entryAt 0 n l = Some e → ftn e ∉ topSet n l.
Proof.
  intros Hn Hnd. rewrite entryAt_lookup by lia.
  rewrite fmap_Some. intros ([k e']&Hl&->). cbn. unfold topSet.
  rewrite elem_of_list_to_set. intros (i&Hi)%list_elem_of_lookup.
  apply lookup_take_Some in Hi as [Hi Hlt].
  replace (n - 0) with n in Hl by lia.
  assert (names l !! Z.to_nat n = Some (ftn e')) as Hl'
    by (unfold names; by rewrite list_lookup_fmap, Hl).
  specialize (NoDup_lookup _ _ _ _ Hnd Hi Hl'). lia.
Qed.

(** ** Counting a publisher's tracks *)

Definition selfCount (s : MoQSession) (l : ranked) : Z :=
  Z.of_nat (length (filter (λ p, publisherRaw p.2 = s) l)).

Lemma selfCount_middle s (l1 l2 : ranked) x :
  selfCount s (l1 ++ x :: l2) =
  selfCount s (l1 ++ l2) + (if bool_decide (publisherRaw x.2 = s) then 1 else 0).
Proof.
  unfold selfCount. rewrite !filter_app, filter_cons, !length_app.
  case_bool_decide as Hx; [rewrite decide_True by done|rewrite decide_False by done]; cbn; lia.
Qed.

Lemma selfCount_range s (l : ranked) : 0 <= selfCount s l <= Z.of_nat (length l).
Proof. unfold selfCount. pose proof (length_filter (λ p, publisherRaw p.2 = s) l). lia. Qed.

(** ** The core invariant *)

Definition rank_at (l : ranked) (f : FullTrackName) (r : Z) : Prop :=
  0 <= r ∧ names l !! Z.to_nat r = Some f.

Record core_of (l : ranked) (idx : gmap FullTrackName RankIndex) (cnt : gmap MoQSession Z)
    (seq : Z) (valid : bool) : Prop := {
  core_sorted : StronglySorted above l;
  core_index : ∀ f k, rankIter <$> idx !! f = Some k ↔ ∃ p, (k, mkEntry f p) ∈ l;
  core_seq : NoDup ((λ p, arrivalSeq p.1) <$> l);
  core_seq_lt : ∀ p, p ∈ l → arrivalSeq p.1 < seq;
  core_len : Z.of_nat (length l) <= seq;
  core_cache : valid = true → ∀ f ri, idx !! f = Some ri → rank_at l f (cachedRank ri);
  core_count : ∀ s, cnt !! s =
    (let c := selfCount s l in if c =? 0 then None else Some c)
}.

Definition core (st : PropertyRanking) : Prop :=
  core_of (rankedTracks_ st) (trackIndexByName_ st) (publisherTrackCount_ st) (nextSeq_ st)
    (rankCacheValid_ st).

Lemma core_of_names_inj l idx cnt seq v p q :
  core_of l idx cnt seq v → p ∈ l → q ∈ l → ftn p.2 = ftn q.2 → p = q.
Proof.
  intros Hc Hp Hq He. destruct p as [k [f s]], q as [k' [f' s']]; cbn in *; subst f'.
  assert (rankIter <$> idx !! f = Some k) as Hk by (apply (core_index _ _ _ _ _ Hc); eauto).
  assert (rankIter <$> idx !! f = Some k') as Hk' by (apply (core_index _ _ _ _ _ Hc); eauto).
  assert (k = k') as <- by congruence. f_equal.
  apply (sorted_key_inj l k); [apply Hc|done|done].
Qed.

Lemma sorted_NoDup (l : ranked) : StronglySorted above l → NoDup l.
Proof.
  induction 1 as [|x l _ IH Hf]; constructor; [|done].
  rewrite Forall_forall in Hf. intros Hx%Hf. by apply above_irrefl in Hx.
Qed.

Lemma core_of_names l idx cnt seq v : core_of l idx cnt seq v → NoDup (names l).
Proof.
  intros Hc. apply NoDup_fmap_2_strong; [|apply sorted_NoDup, Hc].
  intros p q Hp Hq He. eapply core_of_names_inj; done.
Qed.

Lemma core_of_indexed l idx cnt seq v f :
  core_of l idx cnt seq v → f ∈ names l ↔ is_Some (idx !! f).
Proof.
  intros Hc. unfold names. rewrite list_elem_of_fmap. split.
  - intros ([k [f' s]]&->&Hin). cbn.
    assert (rankIter <$> idx !! f' = Some k) as Hk by (apply (core_index _ _ _ _ _ Hc); eauto).
    destruct (idx !! f'); [eauto|done].
  - intros [ri Hri]. assert (rankIter <$> idx !! f = Some (rankIter ri)) as Hk by by rewrite Hri.
    apply (core_index _ _ _ _ _ Hc) in Hk as [s Hin]. by exists (rankIter ri, mkEntry f s).
Qed.

(** *** The rank cache *)

Lemma rebuildFrom_iter r (l : ranked) idx f :
  rankIter <$> rebuildFrom r l idx !! f = rankIter <$> idx !! f.
Proof.
  revert r idx. induction l as [|[k e] l IH]; intros r idx; cbn; [done|].
  rewrite IH. destruct (decide (ftn e = f)) as [<-|].
  - rewrite lookup_alter_eq. by destruct (idx !! ftn e).
  - by rewrite lookup_alter_ne.
Qed.

Lemma rebuildFrom_notin r (l : ranked) idx f :
  f ∉ names l → rebuildFrom r l idx !! f = idx !! f.
Proof.
  revert r idx. induction l as [|[k e] l IH]; intros r idx; cbn; [done|].
  rewrite not_elem_of_cons. intros [? ?]. rewrite IH by done. by rewrite lookup_alter_ne.
Qed.

Lemma rebuildFrom_rank r (l : ranked) idx f ri :
  0 <= r → NoDup (names l) → f ∈ names l → rebuildFrom r l idx !! f = Some ri →
  r <= cachedRank ri ∧ names l !! Z.to_nat (cachedRank ri - r) = Some f.
Proof.
  revert r idx. induction l as [|[k e] l IH]; intros r idx Hr; cbn; [by intros _ ?%elem_of_nil|].
  intros [Hne Hnd]%NoDup_cons. cbn in Hne. intros [->|Hf]%elem_of_cons Hl.
  - rewrite rebuildFrom_notin in Hl by done. rewrite lookup_alter_eq in Hl.
    destruct (idx !! ftn e) as [ri0|]; [|done]. injection Hl as <-. cbn.
    by replace (Z.to_nat (r - r)) with 0%nat by lia.
  - apply IH in Hl as [? Hl]; [|lia|done|done].
    replace (Z.to_nat (cachedRank ri - r)) with (S (Z.to_nat (cachedRank ri - (r + 1)))) by lia.
    split; [lia|done].
Qed.

Lemma core_rebuild st : core st → core (rebuildRankCacheIfNeeded st).
Proof.
  intros Hc. unfold rebuildRankCacheIfNeeded. destruct (rankCacheValid_ st) eqn:Hv; [done|].
  pose proof Hc as [? Hidx ? ? ? Hcache ?]. constructor; cbn; try done.
  - intros f k. by rewrite rebuildFrom_iter.
  - intros _ f ri Hri.
    assert (f ∈ names (rankedTracks_ st)) as Hf.
    { eapply (core_of_indexed _ _ _ _ _ f Hc).
      pose proof (rebuildFrom_iter 0 (rankedTracks_ st) (trackIndexByName_ st) f) as Hi.
      rewrite Hri in Hi. destruct (trackIndexByName_ st !! f); [eauto|done]. }
    apply rebuildFrom_rank in Hri as [? Hn]; [|lia|by eapply core_of_names|done].
    rewrite Z.sub_0_r in Hn. by split.
Qed.

Lemma rebuild_valid st : rankCacheValid_ (rebuildRankCacheIfNeeded st) = true.
Proof. unfold rebuildRankCacheIfNeeded. by destruct (rankCacheValid_ st) eqn:?. Qed.

(** [getCachedRank] only refreshes the cache, and returns the rank. *)
Lemma getCachedRank_spec st f :
  core st → is_Some (trackIndexByName_ st !! f) →
  ∃ r, getCachedRank f st = (rebuildRankCacheIfNeeded st, r) ∧
    rank_at (rankedTracks_ st) f r.
Proof.
  intros Hc Hf. unfold getCachedRank.
  assert (rankedTracks_ (rebuildRankCacheIfNeeded st) = rankedTracks_ st) as Hl
    by (unfold rebuildRankCacheIfNeeded; by destruct (rankCacheValid_ st)).
  pose proof (core_rebuild _ Hc) as Hc'.
  assert (is_Some (trackIndexByName_ (rebuildRankCacheIfNeeded st) !! f)) as [ri Hri].
  { eapply core_of_indexed; [apply Hc'|]. rewrite Hl. by eapply core_of_indexed. }
  rewrite Hri. eexists; split; [done|]. rewrite <- Hl.
  eapply core_cache; [apply Hc'|apply rebuild_valid|done].
Qed.

(** *** Changes of the ranking *)

Definition counts_ok (cnt : gmap MoQSession Z) (l : ranked) : Prop :=
  ∀ s, cnt !! s = (let c := selfCount s l in if c =? 0 then None else Some c).

Lemma core_add l1 l2 idx cnt cnt' seq seq' v k f p r :
  core_of (l1 ++ l2) idx cnt seq v →
  StronglySorted above (l1 ++ (k, mkEntry f p) :: l2) →
  idx !! f = None →
  (∀ q, q ∈ l1 ++ l2 → arrivalSeq q.1 ≠ arrivalSeq k) →
  arrivalSeq k < seq' → seq <= seq' → Z.of_nat (length (l1 ++ l2)) < seq' →
  counts_ok cnt' (l1 ++ (k, mkEntry f p) :: l2) →
  core_of (l1 ++ (k, mkEntry f p) :: l2) (<[f := mkIndex k r]> idx) cnt' seq' false.
Proof.
  intros Hc Hs Hf Hk Hseq Hle Hlen Hcnt. pose proof Hc as [_ Hidx Hnd Hlt _ _ _].
  assert (l1 ++ (k, mkEntry f p) :: l2 ≡ₚ (k, mkEntry f p) :: l1 ++ l2) as Hp
    by (symmetry; apply Permutation_middle).
  constructor; [done| | | | |done|done].
  - intros f' k'. setoid_rewrite Hp. destruct (decide (f' = f)) as [->|Hne].
    + rewrite lookup_insert_eq. cbn. split.
      * intros [= ->]. exists p. by left.
      * intros [p' [[= -> ->]|Hin]%elem_of_cons]; [done|]. exfalso.
        assert (rankIter <$> idx !! f = Some k') as Hx by (apply Hidx; eauto).
        by rewrite Hf in Hx.
    + rewrite lookup_insert_ne, Hidx by done. apply exist_proper. intros p'.
      rewrite elem_of_cons. split; [by right|]. intros [[= -> -> ->]|?]; done.
  - rewrite Hp. cbn. constructor; [|done]. rewrite list_elem_of_fmap.
    intros (q&He&Hq). by apply (Hk q Hq).
  - intros q. rewrite Hp. intros [->|Hq]%elem_of_cons; [done|]. specialize (Hlt q Hq). lia.
  - rewrite Hp. cbn [length]. lia.
Qed.

Lemma core_del l1 l2 idx cnt cnt' seq v k f p :
  core_of (l1 ++ (k, mkEntry f p) :: l2) idx cnt seq v →
  counts_ok cnt' (l1 ++ l2) →
  core_of (l1 ++ l2) (delete f idx) cnt' seq false.
Proof.
  intros Hc Hcnt. pose proof Hc as [Hs Hidx Hnd Hlt Hlen _ _].
  assert (l1 ++ (k, mkEntry f p) :: l2 ≡ₚ (k, mkEntry f p) :: l1 ++ l2) as Hp
    by (symmetry; apply Permutation_middle).
  constructor; [by eapply sorted_middle| | | | |done|done].
  - intros f' k'. destruct (decide (f' = f)) as [->|Hne].
    + rewrite lookup_delete_eq. cbn. split; [done|]. intros [p' Hin]. exfalso.
      assert ((k', mkEntry f p') = (k, mkEntry f p)) as [= -> ->].
      { eapply core_of_names_inj; [done|rewrite Hp; by right|rewrite Hp; by left|done]. }
      apply sorted_NoDup in Hs. rewrite Hp in Hs. by apply NoDup_cons in Hs as [? _].
    + rewrite lookup_delete_ne, Hidx by done. apply exist_proper. intros p'. rewrite Hp.
      rewrite elem_of_cons. split; [|by right]. intros [[= -> -> ->]|?]; done.
  - rewrite Hp in Hnd. cbn in Hnd. by apply NoDup_cons in Hnd as [_ ?].
  - intros q Hq. apply Hlt. rewrite Hp. by right.
  - rewrite Hp in Hlen. cbn [length] in Hlen. lia.
Qed.

Lemma counts_ok_add cnt l1 l2 k f p c :
  counts_ok cnt (l1 ++ l2) →
  c = default 0 (cnt !! p) + 1 →
  counts_ok (<[p := c]> cnt) (l1 ++ (k, mkEntry f p) :: l2).
Proof.
  intros Hc -> s. cbn zeta. rewrite selfCount_middle. cbn [publisherRaw snd].
  rewrite (Hc p). cbn zeta. pose proof (selfCount_range p (l1 ++ l2)).
  case_bool_decide as Hp; [subst s; rewrite lookup_insert_eq|rewrite lookup_insert_ne, (Hc s) by done].
  - destruct (Z.eqb_spec (selfCount p (l1 ++ l2)) 0); cbn; zcases; try (f_equal; lia); lia.
  - by rewrite Z.add_0_r.
Qed.

Lemma counts_ok_del cnt l1 l2 k f p c :
  counts_ok cnt (l1 ++ (k, mkEntry f p) :: l2) →
  cnt !! p = Some c →
  counts_ok (if c - 1 =? 0 then delete p cnt else <[p := c - 1]> cnt) (l1 ++ l2).
Proof.
  intros Hc Hp s. pose proof (Hc p) as Hcp. pose proof (Hc s) as Hcs. cbn zeta in *.
  rewrite selfCount_middle in Hcp, Hcs. cbn [publisherRaw snd] in *.
  rewrite bool_decide_eq_true_2 in Hcp by done.
  rewrite Hp in Hcp. pose proof (selfCount_range p (l1 ++ l2)).
  destruct (Z.eqb_spec (selfCount p (l1 ++ l2) + 1) 0); [lia|]. injection Hcp as ->.
  replace (selfCount p (l1 ++ l2) + 1 - 1) with (selfCount p (l1 ++ l2)) by lia.
  case_bool_decide as Hps; [subst s|rewrite Z.add_0_r in Hcs].
  - destruct (Z.eqb_spec (selfCount p (l1 ++ l2)) 0); [by rewrite lookup_delete_eq|].
    by rewrite lookup_insert_eq.
  - rewrite <- Hcs. destruct (selfCount p (l1 ++ l2) =? 0); [by rewrite lookup_delete_ne|by rewrite lookup_insert_ne].
Qed.

Lemma counts_ok_move cnt l1 l2 l1' l2' k k' f p :
  l1 ++ l2 = l1' ++ l2' →
  counts_ok cnt (l1 ++ (k, mkEntry f p) :: l2) →
  counts_ok cnt (l1' ++ (k', mkEntry f p) :: l2').
Proof.
  intros He Hc s. rewrite (Hc s). cbn zeta. by rewrite !selfCount_middle, He.
Qed.

(** The rank of the middle node is the length of what precedes it. *)
Lemma rank_at_middle l1 l2 k f p r :
  NoDup (names (l1 ++ (k, mkEntry f p) :: l2)) →
  rank_at (l1 ++ (k, mkEntry f p) :: l2) f r → r = Z.of_nat (length l1).
Proof.
  intros Hnd [Hr Hl].
  assert (names (l1 ++ (k, mkEntry f p) :: l2) !! length l1 = Some f) as Hl'.
  { rewrite names_app. rewrite lookup_app_r by (unfold names; by rewrite length_fmap).
    replace (length l1 - length (names l1))%nat with 0%nat; [done|].
    unfold names. rewrite length_fmap. lia. }
  specialize (NoDup_lookup _ _ _ _ Hnd Hl Hl'). lia.
Qed.
End RankingOrder.
