(* ===== verification/RankingInvariant.v ===== *)
(** * Ranking invariant

    [wf]: the well-formedness of a [PropertyRanking] (the core invariant of
    RankingOrder, the group keys and the thresholds), that every operation
    preserves it and never aborts, and what the fast path of
    [updateSortValue] may skip. *)

From S2P Require Import Prelude PropertyRanking RankingOrder.

Section RankingInvariant.
Context {FullTrackName : Type} `{Countable FullTrackName}.
Context {MoQSession : Type} `{Countable MoQSession}.
Context (f14_order : list FullTrackName → list FullTrackName).

#[local] Abbreviation RankedEntry := (RankedEntry FullTrackName MoQSession).
#[local] Abbreviation ranked := (list (RankKey * RankedEntry)).
#[local] Abbreviation ranking :=
  (PropertyRanking (FullTrackName:=FullTrackName) (MoQSession:=MoQSession)).
#[local] Abbreviation groups :=
  (gmap Z (TopNGroup (FullTrackName:=FullTrackName) (MoQSession:=MoQSession))).

Implicit Types (st : ranking) (l : ranked) (f : FullTrackName) (s : MoQSession)
  (gs : groups).

(** Selection limits, track counts and the deselected limit stay below this
    bound, so that their sums do not wrap around. *)
Definition bnd : Z := 2 ^ 62.

Record thresholds_of gs (cnt : gmap MoQSession Z) (maxDes sel ext : Z) (sorted : list Z) :
    Prop := {
  thr_des : 0 <= maxDes <= bnd;
  thr_group : ∀ n g, gs !! n = Some g → 0 <= n <= bnd ∧ maxSelected g = n;
  thr_sel : ∀ n, is_Some (gs !! n) → n <= sel;
  thr_sorted : gs ≠ ∅ → StronglySorted Z.le sorted ∧ ∀ n, is_Some (gs !! n) → n ∈ sorted;
  thr_ext : ∀ n g s c, gs !! n = Some g → is_Some (sessions g !! s) → cnt !! s = Some c →
    n + c <= ext
}.

Definition thresholds st : Prop :=
  thresholds_of (topNGroups_ st) (publisherTrackCount_ st) (maxDeselected_ (cfg st))
    (selectionThreshold_ st) (publisherExtendedThreshold_ st) (sortedThresholds_ st).

Definition wf st : Prop := core st ∧ thresholds st.

(** ** Threshold computations *)

Lemma maxN_ge gs n : is_Some (gs !! n) → n <= maxN gs.
Proof.
  intros [g Hg]. unfold maxN. apply (foldr_ge_elem Z.max 0 _ n); [lia| |lia].
  apply list_elem_of_fmap. exists (n, g). split; [done|]. by apply elem_of_map_to_list.
Qed.

Lemma maxN_le gs B : 0 <= B → (∀ n, is_Some (gs !! n) → n <= B) → maxN gs <= B.
Proof.
  intros HB Hn. unfold maxN. apply foldr_le; [done|].
  intros n acc ([n' g]&->&Hin%elem_of_map_to_list)%list_elem_of_fmap Hacc. cbn.
  specialize (Hn n'). rewrite Hin in Hn. specialize (Hn ltac:(eauto)). lia.
Qed.

Lemma maxN_nonneg gs : 0 <= maxN gs.
Proof. apply foldr_ge. lia. Qed.

Lemma maxExtended_inner_mono (cnt : gmap MoQSession Z) n
    (q : MoQSession * SessionInfo FullTrackName) acc :
  acc <= match cnt !! q.1 with Some c => Z.max acc (u64 (n + c)) | None => acc end.
Proof. destruct (cnt !! q.1); lia. Qed.

Lemma maxExtendedFrom_ge init st n g s c :
  topNGroups_ st !! n = Some g → is_Some (sessions g !! s) →
  publisherTrackCount_ st !! s = Some c →
  u64 (n + c) <= maxExtendedFrom init st.
Proof.
  intros Hg [i Hs] Hc. unfold maxExtendedFrom.
  eapply (foldr_ge_elem _ _ _ (n, g)).
  - intros. apply foldr_ge. intros. apply maxExtended_inner_mono.
  - by apply elem_of_map_to_list.
  - intros acc. eapply (foldr_ge_elem _ _ _ (s, i)); cbn.
    + intros. apply maxExtended_inner_mono.
    + by apply elem_of_map_to_list.
    + intros. rewrite Hc. lia.
Qed.

Lemma maxExtendedFrom_init init st : init <= maxExtendedFrom init st.
Proof.
  apply foldr_ge. intros. apply foldr_ge. intros. apply maxExtended_inner_mono.
Qed.

Lemma maxExtendedFrom_le init st B :
  init <= B →
  (∀ n g s c, topNGroups_ st !! n = Some g → publisherTrackCount_ st !! s = Some c →
     u64 (n + c) <= B) →
  maxExtendedFrom init st <= B.
Proof.
  intros Hi HB. apply foldr_le; [done|].
  intros [n g] acc Hin%elem_of_map_to_list Hacc. cbn. apply foldr_le; [done|].
  intros [s i] acc' _ Hacc'. cbn. destruct (publisherTrackCount_ st !! s) as [c|] eqn:Hc; [|done].
  specialize (HB n g s c Hin Hc). lia.
Qed.

Lemma core_count_range st s c :
  core st → publisherTrackCount_ st !! s = Some c → 0 < c <= nextSeq_ st.
Proof.
  intros Hc Hs. rewrite (core_count _ _ _ _ _ Hc s) in Hs. cbn zeta in Hs.
  pose proof (selfCount_range s (rankedTracks_ st)).
  pose proof (core_len _ _ _ _ _ Hc).
  destruct (Z.eqb_spec (selfCount s (rankedTracks_ st)) 0); [done|]. injection Hs as <-. lia.
Qed.

Lemma isPublisher_spec st s :
  core st → isPublisher st s = true ↔ 0 < selfCount s (rankedTracks_ st).
Proof.
  intros Hc. unfold isPublisher. rewrite bool_decide_eq_true.
  rewrite (core_count _ _ _ _ _ Hc s). cbn zeta.
  pose proof (selfCount_range s (rankedTracks_ st)).
  destruct (Z.eqb_spec (selfCount s (rankedTracks_ st)) 0).
  - split; [by intros [? ?]|lia].
  - split; [lia|eauto].
Qed.

(** Recomputing the extended threshold establishes its bound. *)
Lemma thresholds_update_ext st cnt :
  thresholds_of (topNGroups_ st) cnt (maxDeselected_ (cfg st)) (selectionThreshold_ st)
    (publisherExtendedThreshold_ st) (sortedThresholds_ st) →
  (∀ s c, publisherTrackCount_ st !! s = Some c → 0 < c <= bnd) →
  thresholds (updatePublisherExtendedThreshold st).
Proof.
  intros [Hd Hg Hs Ho _] Hc. constructor; try done; cbn.
  assert (∀ n g s c, topNGroups_ st !! n = Some g → publisherTrackCount_ st !! s = Some c →
            u64 (n + c) = n + c ∧ n + c <= 2 * bnd) as Hsm.
  { intros n g s c Hn Hs'. apply Hg in Hn as [? _]. apply Hc in Hs'.
    split; [apply u64_small; unfold is_u64, u64_modulus|]; unfold bnd in *; lia. }
  assert (0 <= maxExtendedFrom 0 st <= 2 * bnd) as Hm.
  { split; [apply maxExtendedFrom_init|]. apply maxExtendedFrom_le; [unfold bnd; lia|].
    intros n g s c Hn Hs'. destruct (Hsm n g s c Hn Hs') as [-> ?]. done. }
  intros n g s c Hn Hi Hs'. pose proof (maxExtendedFrom_ge 0 st n g s c Hn Hi Hs') as Hge.
  destruct (Hsm n g s c Hn Hs') as [Hu ?]. rewrite Hu in Hge.
  rewrite u64_small by (unfold is_u64, u64_modulus, bnd in *; lia). lia.
Qed.

(** Adding or removing a group, then recomputing the selection threshold. *)
Lemma thresholds_update_sel st ext sel sorted gs :
  thresholds_of gs (publisherTrackCount_ st) (maxDeselected_ (cfg st)) sel ext sorted →
  ext = publisherExtendedThreshold_ st →
  (∀ n g, topNGroups_ st !! n = Some g →
     (0 <= n <= bnd ∧ maxSelected g = n) ∧
     ∀ s, is_Some (sessions g !! s) → ∃ g', gs !! n = Some g' ∧ is_Some (sessions g' !! s)) →
  thresholds (updateSelectionThreshold st).
Proof.
  intros [Hd _ _ _ He] -> Hg. constructor; cbn; [done|intros; by eapply Hg| | |].
  - intros n Hn. pose proof (maxN_ge _ _ Hn) as Hge.
    assert (maxN (topNGroups_ st) <= bnd) as Hle.
    { apply maxN_le; [unfold bnd; lia|]. intros n' [g' Hg']. apply Hg in Hg' as [[? _] _]. lia. }
    rewrite u64_small; [lia|]. pose proof (maxN_nonneg (topNGroups_ st)).
    unfold is_u64, u64_modulus, bnd in *; lia.
  - intros _. split; [apply StronglySorted_merge_sort; [apply _|intros ??; lia]|].
    intros n [g Hn]. rewrite (merge_sort_Permutation Z.le).
    apply list_elem_of_fmap. exists (n, g). split; [done|]. by apply elem_of_map_to_list.
  - intros n g s c Hn Hs Hc. apply Hg in Hn as [_ Hn]. destruct (Hn s Hs) as (g'&Hg'&Hs').
    by eapply He.
Qed.

(** ** Changes of the ranking *)

Lemma insertTrack_spec st f v p :
  wf st → trackIndexByName_ st !! f = None → 0 <= nextSeq_ st < bnd →
  ∃ st' l1 l2,
    insertTrack f v p st = (st', Z.of_nat (length l1)) ∧
    rankedTracks_ st = l1 ++ l2 ∧
    rankedTracks_ st' = l1 ++ (mkKey v (nextSeq_ st), mkEntry f p) :: l2 ∧
    wf st' ∧ topNGroups_ st' = topNGroups_ st ∧ cfg st' = cfg st ∧
    nextSeq_ st' = nextSeq_ st + 1.
Proof.
  intros [Hc Ht] Hf Hseq. set (k := mkKey v (nextSeq_ st)).
  destruct (emplace_split k (mkEntry f p) (rankedTracks_ st)) as (l1&l2&Hl&He&Hs).
  { apply Hc. } { intros q Hq Hk. apply (core_seq_lt _ _ _ _ _ Hc) in Hq. rewrite Hk in Hq. cbn in Hq. lia. }
  assert (u64 (nextSeq_ st + 1) = nextSeq_ st + 1) as Hu
    by (apply u64_small; unfold is_u64, u64_modulus, bnd in *; lia).
  pose (cnt' := <[p := u64 (default 0 (publisherTrackCount_ st !! p) + 1)]>
                  (publisherTrackCount_ st)).
  pose (stA := set_counts cnt' (set_nextSeq (u64 (nextSeq_ st + 1)) st)).
  pose (stB := updatePublisherExtendedThreshold stA).
  pose (stC := set_ranked (emplace k (mkEntry f p) (rankedTracks_ st))
                 (<[f := mkIndex k u64_max]> (trackIndexByName_ st)) false stB).
  assert (core stC) as HcC.
  { unfold core; cbn. rewrite He. unfold core in Hc. rewrite Hl in Hc. eapply core_add.
    - exact Hc.
    - done.
    - done.
    - intros q Hq. apply (core_seq_lt _ _ _ _ _ Hc) in Hq. cbn. lia.
    - cbn. lia.
    - lia.
    - pose proof (core_len _ _ _ _ _ Hc). lia.
    - unfold cnt'. apply counts_ok_add; [intros s; apply Hc|]. apply u64_small.
      destruct (publisherTrackCount_ st !! p) as [c|] eqn:Hp; cbn.
      + rewrite <- Hl in Hc. pose proof (core_count_range _ _ _ Hc Hp).
        unfold is_u64, u64_modulus, bnd in *; lia.
      + unfold is_u64, u64_modulus; lia. }
  assert (thresholds stC) as HtC.
  { apply (thresholds_update_ext stA (publisherTrackCount_ st)); [exact Ht|].
    intros s c Hsc. apply (core_count_range _ _ _ HcC) in Hsc. cbn in Hsc. lia. }
  destruct (getCachedRank_spec stC f HcC) as (r&Hr&Hrank); [cbn; rewrite lookup_insert_eq; eauto|].
  cbn [rankedTracks_ stC set_ranked] in Hrank. rewrite He in Hrank.
  apply rank_at_middle in Hrank as ->.
  2:{ unfold core in HcC; cbn in HcC. rewrite He in HcC. by eapply core_of_names. }
  exists (rebuildRankCacheIfNeeded stC), l1, l2. split_and!; [exact Hr|done|exact He| |done..|exact Hu].
  split; [by apply core_rebuild|exact HtC].
Qed.

Lemma rebuild_wf st : wf st → wf (rebuildRankCacheIfNeeded st).
Proof.
  intros [Hc Ht]. split; [by apply core_rebuild|].
  unfold rebuildRankCacheIfNeeded. by destruct (rankCacheValid_ st).
Qed.

Lemma rebuild_frame st :
  rankedTracks_ (rebuildRankCacheIfNeeded st) = rankedTracks_ st ∧
  topNGroups_ (rebuildRankCacheIfNeeded st) = topNGroups_ st ∧
  cfg (rebuildRankCacheIfNeeded st) = cfg st ∧
  nextSeq_ (rebuildRankCacheIfNeeded st) = nextSeq_ st ∧
  publisherTrackCount_ (rebuildRankCacheIfNeeded st) = publisherTrackCount_ st.
Proof. unfold rebuildRankCacheIfNeeded. by destruct (rankCacheValid_ st). Qed.

(** The node of a registered track. *)
Lemma indexed_node st f ri :
  core st → trackIndexByName_ st !! f = Some ri →
  ∃ l1 l2 p, rankedTracks_ st = l1 ++ (rankIter ri, mkEntry f p) :: l2 ∧
    deref (rankIter ri) (rankedTracks_ st) = Some (mkEntry f p) ∧
    erase_node (rankIter ri) (rankedTracks_ st) = l1 ++ l2.
Proof.
  intros Hc Hf. destruct (proj1 (core_index _ _ _ _ _ Hc f (rankIter ri))) as [p Hp]; [by rewrite Hf|].
  assert (deref (rankIter ri) (rankedTracks_ st) = Some (mkEntry f p)) as Hd
    by (apply deref_elem; [apply Hc|done]).
  destruct (deref_split _ _ _ Hd) as (l1&l2&Hl&He). by exists l1, l2, p.
Qed.

Lemma core_middle_deref st l1 l2 k f p :
  core st → rankedTracks_ st = l1 ++ (k, mkEntry f p) :: l2 →
  is_Some (trackIndexByName_ st !! f) ∧
  (trackIndexByName_ st !! f ≫= λ ri, deref (rankIter ri) (rankedTracks_ st)) =
    Some (mkEntry f p).
Proof.
  intros Hc Hl.
  assert (is_Some (trackIndexByName_ st !! f)) as [ri Hri].
  { eapply core_of_indexed; [exact Hc|]. rewrite Hl, names_app. cbn. rewrite elem_of_app, elem_of_cons. auto. }
  split; [eauto|]. rewrite Hri. cbn [mbind option_bind].
  destruct (indexed_node _ f ri Hc Hri) as (a&b&p'&Hab&Hd&_). rewrite Hd.
  assert ((rankIter ri, mkEntry f p') = (k, mkEntry f p)) as [= _ ->]; [|done].
  eapply core_of_names_inj; [exact Hc|rewrite Hab|rewrite Hl|done]; rewrite elem_of_app, elem_of_cons; auto.
Qed.

Lemma seq_fresh l1 l2 x q :
  NoDup ((λ p, arrivalSeq p.1) <$> l1 ++ x :: l2) → q ∈ l1 ++ l2 →
  arrivalSeq q.1 ≠ arrivalSeq x.1.
Proof.
  rewrite fmap_app, fmap_cons, <- Permutation_middle, NoDup_cons, <- fmap_app.
  intros [Hnd _] Hq He. apply Hnd. rewrite <- He.
  by apply (list_elem_of_fmap_2 (λ p, arrivalSeq p.1)).
Qed.

Lemma moveTrack_core st f k k' p l1 l2 l1' l2' :
  core st → rankedTracks_ st = l1 ++ (k, mkEntry f p) :: l2 →
  arrivalSeq k' = arrivalSeq k → l1 ++ l2 = l1' ++ l2' →
  StronglySorted above (l1' ++ (k', mkEntry f p) :: l2') →
  is_Some (trackIndexByName_ st !! f) →
  core_of (l1' ++ (k', mkEntry f p) :: l2')
    (alter (λ ri, mkIndex k' (cachedRank ri)) f (trackIndexByName_ st))
    (publisherTrackCount_ st) (nextSeq_ st) false.
Proof.
  intros Hc Hl Hseq Hll Hs [ri Hri]. unfold core in Hc. rewrite Hl in Hc.
  assert (counts_ok (publisherTrackCount_ st) (l1 ++ (k, mkEntry f p) :: l2)) as Hcnt
    by (intros s; apply Hc).
  assert (alter (λ ri, mkIndex k' (cachedRank ri)) f (trackIndexByName_ st) =
          <[f := mkIndex k' (cachedRank ri)]> (delete f (trackIndexByName_ st))) as ->.
  { rewrite insert_delete_eq. apply map_eq. intros f'. destruct (decide (f' = f)) as [->|].
    - by rewrite lookup_alter_eq, lookup_insert_eq, Hri.
    - by rewrite lookup_alter_ne, lookup_insert_ne. }
  pose proof (core_seq _ _ _ _ _ Hc) as Hnd. pose proof (core_len _ _ _ _ _ Hc) as Hlen.
  rewrite length_app in Hlen. cbn [length] in Hlen.
  eapply (core_add l1' l2' _
    (if default 0 (publisherTrackCount_ st !! p) - 1 =? 0 then delete p (publisherTrackCount_ st)
     else <[p := default 0 (publisherTrackCount_ st !! p) - 1]> (publisherTrackCount_ st))
    _ (nextSeq_ st) _ false); [|done|by rewrite lookup_delete_eq| |rewrite Hseq|done| |].
  - rewrite <- Hll. eapply core_del; [exact Hc|].
    destruct (publisherTrackCount_ st !! p) as [c|] eqn:Hp.
    + by eapply counts_ok_del.
    + exfalso. rewrite (Hcnt p) in Hp. cbn zeta in Hp. rewrite selfCount_middle in Hp.
      cbn in Hp. rewrite bool_decide_eq_true_2 in Hp by done.
      pose proof (selfCount_range p (l1 ++ l2)).
      destruct (Z.eqb_spec (selfCount p (l1 ++ l2) + 1) 0); [lia|done].
  - rewrite <- Hll, Hseq. intros q Hq. by apply (seq_fresh _ _ _ _ Hnd Hq).
  - apply (core_seq_lt _ _ _ _ _ Hc (k, mkEntry f p)). set_solver.
  - rewrite <- Hll, length_app. lia.
  - by apply (counts_ok_move _ l1 l2 l1' l2' k).
Qed.

Lemma moveTrack_spec st f ri v :
  wf st → trackIndexByName_ st !! f = Some ri → v ≠ rvalue (rankIter ri) →
  let newKey := mkKey v (arrivalSeq (rankIter ri)) in
  ∃ st' l1 l2 l1' l2' p,
    deref (rankIter ri) (rankedTracks_ st) = Some (mkEntry f p) ∧
    getCachedRank f st = (rebuildRankCacheIfNeeded st, Z.of_nat (length l1)) ∧
    moveTrack f (rankIter ri) newKey (mkEntry f p) (rebuildRankCacheIfNeeded st) =
      (st', Z.of_nat (length l1')) ∧
    rankedTracks_ st = l1 ++ (rankIter ri, mkEntry f p) :: l2 ∧
    rankedTracks_ st' = l1' ++ (newKey, mkEntry f p) :: l2' ∧
    l1 ++ l2 = l1' ++ l2' ∧
    wf st' ∧ topNGroups_ st' = topNGroups_ st ∧ cfg st' = cfg st ∧
    nextSeq_ st' = nextSeq_ st ∧ publisherTrackCount_ st' = publisherTrackCount_ st ∧
    (trackIndexByName_ st' !! f ≫= λ ri, deref (rankIter ri) (rankedTracks_ st')) =
      Some (mkEntry f p).
Proof.
  intros Hwf Hri Hv k'. pose proof (rebuild_wf _ Hwf) as [Hc Ht].
  destruct (rebuild_frame st) as (Fl&Fg&Fc&Fs&Fp).
  destruct Hwf as [Hc0 Ht0].
  destruct (indexed_node st f ri Hc0 Hri) as (l1&l2&p&Hl&Hd&He).
  destruct (getCachedRank_spec st f Hc0) as (r&Hr&Hrank); [eauto|].
  rewrite Hl in Hrank. apply rank_at_middle in Hrank as ->.
  2:{ unfold core in Hc0. rewrite Hl in Hc0. by eapply core_of_names. }
  set (stR := rebuildRankCacheIfNeeded st) in *.
  pose proof (core_seq _ _ _ _ _ Hc0) as Hnd. rewrite Hl in Hnd.
  destruct (emplace_split k' (mkEntry f p) (l1 ++ l2)) as (l1'&l2'&Hll&Hem&Hs').
  { eapply sorted_middle. rewrite <- Hl. apply Hc0. }
  { intros q Hq Heq. apply (seq_fresh _ _ _ _ Hnd Hq). by rewrite Heq. }
  pose (stC := set_ranked (emplace k' (mkEntry f p) (erase_node (rankIter ri) (rankedTracks_ stR)))
    (alter (λ ri, mkIndex k' (cachedRank ri)) f (trackIndexByName_ stR)) false stR).
  assert (rankedTracks_ stC = l1' ++ (k', mkEntry f p) :: l2') as HlC
    by (cbn; by rewrite Fl, He).
  assert (rankedTracks_ stR = l1 ++ (rankIter ri, mkEntry f p) :: l2) as HlR by by rewrite Fl.
  assert (core stC) as HcC.
  { unfold core. rewrite HlC. apply (moveTrack_core stR f (rankIter ri) k' p l1 l2); try done.
    by eapply core_middle_deref. }
  destruct (getCachedRank_spec stC f HcC) as (r'&Hr'&Hrank'); [by eapply core_middle_deref|].
  rewrite HlC in Hrank'. apply rank_at_middle in Hrank' as ->.
  2:{ rewrite <- HlC. by eapply core_of_names. }
  assert (wf (rebuildRankCacheIfNeeded stC)) as HwfC by (apply rebuild_wf; split; [done|exact Ht]).
  exists (rebuildRankCacheIfNeeded stC), l1, l2, l1', l2', p.
  split_and!; try done; try exact Hr'; try (by cbn; rewrite ?Fl, ?Fg, ?Fc, ?Fs, ?Fp).
  eapply core_middle_deref; [apply HwfC|exact HlC].
Qed.

Lemma eraseTrack_spec st f ri :
  wf st → trackIndexByName_ st !! f = Some ri → nextSeq_ st <= bnd →
  let st0 := (getCachedRank f st).1 in
  ∃ st' l1 l2 p,
    deref (rankIter ri) (rankedTracks_ st0) = Some (mkEntry f p) ∧
    eraseTrack f (rankIter ri) p st0 = st' ∧
    rankedTracks_ st = l1 ++ (rankIter ri, mkEntry f p) :: l2 ∧
    rankedTracks_ st' = l1 ++ l2 ∧
    wf st' ∧ topNGroups_ st' = topNGroups_ st ∧ cfg st' = cfg st ∧
    nextSeq_ st' = nextSeq_ st.
Proof.
  intros Hwf Hri Hseq. destruct (getCachedRank_spec st f) as (r&Hr&_); [apply Hwf|eauto|].
  rewrite Hr. cbn [fst]. pose proof (rebuild_wf _ Hwf) as [Hc Ht].
  destruct (rebuild_frame st) as (Fl&Fg&Fc&Fs&Fp). destruct Hwf as [Hc0 _].
  set (stR := rebuildRankCacheIfNeeded st) in *.
  destruct (indexed_node st f ri Hc0 Hri) as (l1&l2&p&Hl&Hd&He).
  unfold core in Hc. rewrite Fl, Hl in Hc.
  assert (counts_ok (publisherTrackCount_ stR) (l1 ++ (rankIter ri, mkEntry f p) :: l2)) as Hcnt
    by (intros s; apply Hc).
  eexists _, l1, l2, p. split; [by rewrite Fl|]. split; [reflexivity|].
  unfold eraseTrack, dropCount. destruct (publisherTrackCount_ stR !! p) as [c|] eqn:Hp.
  2:{ exfalso. rewrite (Hcnt p) in Hp. cbn zeta in Hp. rewrite selfCount_middle in Hp.
      cbn in Hp. rewrite bool_decide_eq_true_2 in Hp by done.
      pose proof (selfCount_range p (l1 ++ l2)).
      destruct (Z.eqb_spec (selfCount p (l1 ++ l2) + 1) 0); [lia|done]. }
  assert (0 < c <= nextSeq_ st) as Hcr.
  { rewrite Fp in Hp. eapply core_count_range; [exact Hc0|exact Hp]. }
  rewrite (u64_small (c - 1)) by (unfold is_u64, u64_modulus, bnd in *; lia).
  split_and!; [done|cbn; by rewrite Fl, He| |done..].
  match goal with |- wf ?s => set (stE := s) end.
  assert (core stE) as HcE.
  { unfold core, stE. cbn. rewrite Fl, He. eapply core_del; [exact Hc|].
    by eapply counts_ok_del. }
  split; [done|]. unfold stE.
  apply (thresholds_update_ext (set_counts _ stR) (publisherTrackCount_ stR)); [exact Ht|].
  intros s c' Hs. apply (core_count_range stE) in Hs; [|done]. cbn in Hs. rewrite Fs in Hs. lia.
Qed.

(** ** The fast path of [updateSortValue] *)

Lemma upper_bound_spec (l : list Z) x :
  StronglySorted Z.le l →
  match upper_bound l x with
  | Some y => ∀ z, z ∈ l → z <= x ∨ y <= z
  | None => ∀ z, z ∈ l → z <= x
  end.
Proof.
  induction 1 as [|y l Hs IH Hf]; cbn; [by intros ? ?%elem_of_nil|].
  rewrite Forall_forall in Hf. destruct (Z.ltb_spec x y).
  - intros z [->|Hz%Hf]%elem_of_cons; lia.
  - destruct (upper_bound l x) as [w|]; intros z [->|Hz]%elem_of_cons; try lia; by apply IH.
Qed.

(** When no threshold is crossed, the move changes no group's top-N and stays
    outside the extended window of every publisher-subscriber. *)
Lemma crossesThreshold_false st oldRank newRank :
  wf st → nextSeq_ st <= bnd → crossesThreshold st oldRank newRank = false →
  ∀ n g, topNGroups_ st !! n = Some g →
    (oldRank < n ↔ newRank < n) ∧
    ∀ s c, is_Some (sessions g !! s) → publisherTrackCount_ st !! s = Some c →
      n + c <= oldRank ∧ n + c <= newRank.
Proof.
  intros [Hc Ht] Hb Hx n g Hn. unfold crossesThreshold in Hx.
  assert (topNGroups_ st ≠ ∅) as Hne by (intros He; by rewrite He in Hn).
  rewrite bool_decide_eq_false_2 in Hx by done.
  pose proof (thr_sel _ _ _ _ _ _ Ht n ltac:(by rewrite Hn)) as Hsel.
  pose proof (thr_ext _ _ _ _ _ _ Ht n g) as Hext.
  destruct (thr_sorted _ _ _ _ _ _ Ht Hne) as [Hsort Hmem].
  destruct (_ && _) eqn:Heff in Hx; [apply andb_true_iff in Heff as [Ho Hn']|].
  { split; [lia|]. intros s c Hs Hcnt. specialize (Hext s c Hn Hs Hcnt). lia. }
  destruct (negb _) eqn:Hin in Hx; [done|].
  destruct (match upper_bound _ _ with Some _ => _ | None => _ end) eqn:Hub in Hx; [done|].
  assert (oldRank < n ↔ newRank < n) as Hiff.
  { pose proof (upper_bound_spec (sortedThresholds_ st) (Z.min oldRank newRank) Hsort) as Hspec.
    specialize (Hmem n ltac:(by rewrite Hn)).
    destruct (upper_bound _ _) as [t|]; specialize (Hspec n Hmem); lia. }
  split; [done|]. intros s c Hs Hcnt.
  destruct (bool_decide _) eqn:Hemp in Hx.
  { apply bool_decide_eq_true in Hemp. by rewrite Hemp in Hcnt. }
  pose proof (maxExtendedFrom_ge (maxN (topNGroups_ st)) st n g s c Hn Hs Hcnt) as Hge.
  rewrite u64_small in Hge; [lia|].
  pose proof (core_count_range _ _ _ Hc Hcnt). apply (thr_group _ _ _ _ _ _ Ht) in Hn.
  unfold is_u64, u64_modulus, bnd in *. lia.
Qed.

(** ** Steps on one group keep its limit and its sessions *)

#[local] Abbreviation group := (TopNGroup (FullTrackName:=FullTrackName) (MoQSession:=MoQSession)).
#[local] Abbreviation event := (Event (FullTrackName:=FullTrackName) (MoQSession:=MoQSession)).

Definition same_shape (g g' : group) : Prop :=
  maxSelected g' = maxSelected g ∧
  ∀ s, forward <$> sessions g' !! s = forward <$> sessions g !! s.

#[global] Instance same_shape_preorder : PreOrder same_shape.
Proof.
  split; [by intros g|]. intros g1 g2 g3 [H1 H1'] [H2 H2']. split; [congruence|].
  intros s. by rewrite H2', H1'.
Qed.

Lemma forSessions_lookup (h : MoQSession → SessionInfo FullTrackName →
    SessionInfo FullTrackName * list event) ss s :
  (forSessions h ss).1 !! s = (λ i, (h s i).1) <$> ss !! s.
Proof. cbn. rewrite map_lookup_imap. by destruct (ss !! s). Qed.

Lemma forGroups_lookup (h : Z → group → group * list event) gs n :
  (forGroups h gs).1 !! n = (λ g, (h n g).1) <$> gs !! n.
Proof. cbn. rewrite map_lookup_imap. by destruct (gs !! n). Qed.

Lemma reconcilePublishers_shape st n skip g : same_shape g (reconcilePublishers st n skip g).1.
Proof.
  split; [done|]. intros s. unfold reconcilePublishers. cbn [fst sessions set_sessions].
  rewrite forSessions_lookup. destruct (sessions g !! s) as [i|]; [|done]. cbn.
  by destruct (_ && _).
Qed.

Lemma notifyTrackSelected_shape st f g : same_shape g (notifyTrackSelected st f g).1.
Proof. apply reconcilePublishers_shape. Qed.

Lemma trimLoop_shape st q g : same_shape g (trimLoop st q g).1.
Proof.
  revert g. induction q as [|f q IH]; intros g; cbn [trimLoop]; [done|].
  destruct (_ >? _); [|done]. cbn [fst]. etrans; [|apply IH]. done.
Qed.

Lemma demoteTrack_shape st f g : same_shape g (demoteTrack st f g).1.
Proof. unfold demoteTrack, trimDeselectedQueue. etrans; [|apply trimLoop_shape]. done. Qed.

Lemma demoteTrackAtRank_shape st n g : same_shape g (demoteTrackAtRank st n g).1.
Proof.
  unfold demoteTrackAtRank. destruct (entryAt _ _ _) as [e|]; [|done].
  destruct (trackStates g !! ftn e) as [[]|]; [|done..]. apply demoteTrack_shape.
Qed.

Lemma selectTrack_shape st f g : same_shape g (selectTrack st f g).1.
Proof. unfold selectTrack. etrans; [|apply notifyTrackSelected_shape]. done. Qed.

Lemma promoteLoop_shape st l x g : same_shape g (promoteLoop st l x g).1.
Proof.
  induction l as [|[k e] l IH]; cbn; [done|].
  destruct (bool_decide _); [done|]. destruct (bool_decide _); [done|apply selectTrack_shape].
Qed.

Lemma promoteTrackAtRank_shape st n g : same_shape g (promoteTrackAtRank st n g).1.
Proof.
  unfold promoteTrackAtRank. destruct (entryAt _ _ _) as [e|]; [|done].
  destruct (bool_decide _); [done|apply selectTrack_shape].
Qed.

Hint Resolve reconcilePublishers_shape notifyTrackSelected_shape trimLoop_shape
  demoteTrack_shape demoteTrackAtRank_shape selectTrack_shape promoteLoop_shape
  promoteTrackAtRank_shape : moqx.

Lemma reconcileInGroup_shape st s n g : same_shape g (reconcileInGroup st s n g).1.
Proof.
  unfold reconcileInGroup. destruct (sessions g !! s) as [i|] eqn:Hs; [|done].
  split; [done|]. intros s'. cbn. destruct (decide (s' = s)) as [->|].
  - rewrite lookup_insert_eq, Hs. cbn. by destruct (wasPublisher i).
  - by rewrite lookup_insert_ne.
Qed.

Lemma registerInGroup_shape st f r n g : same_shape g (registerInGroup st f r n g).1.
Proof.
  unfold registerInGroup. destruct (_ <? _); [|auto with moqx]. cbn [fst].
  etrans; [|apply demoteTrackAtRank_shape]. etrans; [|apply notifyTrackSelected_shape]. done.
Qed.

Lemma same_shape_if (b : bool) (r : group * list event) g :
  same_shape g r.1 → same_shape g (if b then r else (g, [])).1.
Proof. by destruct b. Qed.

Hint Resolve same_shape_if : moqx.

Lemma recomputeGroup_shape st f p r r' n g : same_shape g (recomputeGroup st f p r r' n g).1.
Proof.
  unfold recomputeGroup. cbn [fst].
  etrans; [|apply same_shape_if; auto with moqx].
  etrans; [|apply same_shape_if; auto with moqx].
  etrans; [|apply reconcilePublishers_shape].
  destruct (eqb _ _); [done|]. destruct (r' <? n); [done|auto with moqx].
Qed.

Lemma removeInGroup_shape st f n g : same_shape g (removeInGroup st f n g).1.
Proof.
  unfold removeInGroup. destruct (trackStates g !! f) as [[]|]; [|done..].
  destruct (deselectedQueue _) as [|x q].
  - etrans; [|apply promoteLoop_shape]. done.
  - etrans; [|apply notifyTrackSelected_shape]. done.
Qed.

Lemma sweepTracks_shape st now gla fs g : same_shape g (sweepTracks st now gla fs g).1.
Proof.
  revert g. induction fs as [|f fs IH]; intros g; cbn; [done|].
  destruct (isIdle _ _ _); [|apply IH]. cbn [fst]. etrans; [|apply IH].
  etrans; [|apply promoteLoop_shape]. apply demoteTrack_shape.
Qed.

Hint Resolve reconcileInGroup_shape registerInGroup_shape recomputeGroup_shape
  removeInGroup_shape sweepTracks_shape : moqx.

Lemma forGroups_wf st (h : Z → group → group * list event) :
  (∀ n g, same_shape g (h n g).1) → wf st →
  wf (set_groups (forGroups h (topNGroups_ st)).1 st).
Proof.
  intros Hh [Hc Ht]. split; [exact Hc|]. unfold thresholds; cbn [cfg selectionThreshold_
    publisherExtendedThreshold_ sortedThresholds_ topNGroups_ publisherTrackCount_ set_groups].
  set (gs' := (forGroups h (topNGroups_ st)).1).
  assert (∀ n g', gs' !! n = Some g' → ∃ g, topNGroups_ st !! n = Some g ∧ same_shape g g') as Hgs.
  { intros n g'. unfold gs'. rewrite forGroups_lookup, fmap_Some.
    intros (g&Hg&->). eauto. }
  destruct Ht as [Hd Hg Hs Ho He]. constructor; [done| | | |].
  - intros n g' (g&Hn&[Hm _])%Hgs. rewrite Hm. by apply Hg.
  - intros n [g' (g&Hn&_)%Hgs]. apply Hs. eauto.
  - intros Hne. destruct Ho as [? Ho].
    { intros He'. apply Hne. unfold gs'. rewrite He'. apply map_imap_empty. }
    split; [done|]. intros n [g' (g&Hn&_)%Hgs]. apply Ho. eauto.
  - intros n g' s c (g&Hn&[_ Hm])%Hgs Hi. specialize (Hm s). apply (He n g); [done|].
    destruct Hi as [i Hi]. rewrite Hi in Hm. by destruct (sessions g !! s).
Qed.

(** ** Every operation preserves the invariant and succeeds *)

Lemma reconcileAll_wf st s : wf st → wf (reconcilePublisherInAllGroups st s).1.
Proof. apply forGroups_wf. auto with moqx. Qed.

Lemma sweepIdle_wf now gla st : wf st → wf (sweepIdle f14_order now gla st).1.
Proof.
  intros Hwf. unfold sweepIdle. destruct (_ =? 0); [done|]. destruct gla as [gla|]; [|done].
  destruct (match lastSweepTime_ st with Some _ => _ | None => _ end); [done|].
  apply (forGroups_wf (set_lastSweep (Some now) st)); [|done].
  intros. apply sweepTracks_shape.
Qed.

Lemma sweepIdle_frame now gla st :
  cfg (sweepIdle f14_order now gla st).1 = cfg st ∧
  nextSeq_ (sweepIdle f14_order now gla st).1 = nextSeq_ st ∧
  rankedTracks_ (sweepIdle f14_order now gla st).1 = rankedTracks_ st ∧
  publisherTrackCount_ (sweepIdle f14_order now gla st).1 = publisherTrackCount_ st.
Proof.
  unfold sweepIdle. destruct (_ =? 0); [done|]. destruct gla as [gla|]; [|done].
  by destruct (match lastSweepTime_ st with Some _ => _ | None => _ end).
Qed.

(** Replacing a group, with at most publisher-free additions to its sessions. *)
Lemma set_group_wf n g g' st :
  wf st → topNGroups_ st !! n = Some g → maxSelected g' = maxSelected g →
  (∀ s, is_Some (sessions g' !! s) → isPublisher st s = true → is_Some (sessions g !! s)) →
  wf (set_groups (<[n := g']> (topNGroups_ st)) st).
Proof.
  intros [Hc Ht] Hg Hm Hss. split; [exact Hc|].
  assert (∀ n', is_Some (<[n := g']> (topNGroups_ st) !! n') ↔
                is_Some (topNGroups_ st !! n')) as Hdom.
  { intros n'. destruct (decide (n' = n)) as [->|]; [rewrite lookup_insert_eq, Hg|by rewrite lookup_insert_ne].
    split; eauto. }
  destruct Ht as [Hd Hgr Hs Ho He]. constructor; cbn; [done| | | |].
  - intros n' g''. rewrite lookup_insert_Some. intros [[<- <-]|[Hne Hg']]; [rewrite Hm|]; by eapply Hgr.
  - intros n' Hn'%Hdom. by apply Hs.
  - intros Hne. destruct Ho as [? Ho]; [intros He'; by rewrite He' in Hg|].
    split; [done|]. intros n' Hn'%Hdom. by apply Ho.
  - intros n' g'' s c. rewrite lookup_insert_Some. intros [[<- <-]|[Hne Hg']] Hi Hcnt.
    + apply (He n g s c); [done| |done]. apply Hss; [done|].
      unfold isPublisher. apply bool_decide_eq_true. eauto.
    + by apply (He n' g'' s c).
Qed.

Lemma getOrCreateTopNGroup_wf n st :
  wf st → 0 <= n <= bnd → wf (getOrCreateTopNGroup n st).
Proof.
  intros [Hc Ht] Hn. unfold getOrCreateTopNGroup.
  destruct (topNGroups_ st !! n) as [g|] eqn:Hg; [done|].
  set (gE := mkGroup n ∅ ∅ []).
  apply (set_group_wf n gE _ (updateSelectionThreshold (set_groups (<[n := gE]> (topNGroups_ st)) st)));
    [|apply lookup_insert_eq|done|done].
  split; [exact Hc|].
  eapply (thresholds_update_sel (set_groups (<[n := gE]> (topNGroups_ st)) st)); [exact Ht|done|].
  intros n' g'. cbn. rewrite lookup_insert_Some. intros [[<- <-]|[Hne Hg']].
  - split; [done|]. intros s [i Hi]. cbn in Hi. by rewrite lookup_empty in Hi.
  - split; [by apply Ht|]. eauto.
Qed.

Lemma removeTopNGroup_wf n st : wf st → wf (removeTopNGroup n st).
Proof.
  intros [Hc Ht]. split; [exact Hc|].
  eapply (thresholds_update_sel (set_groups (delete n (topNGroups_ st)) st)); [exact Ht|done|].
  intros n' g'. cbn. rewrite lookup_delete_Some. intros [Hne Hg'].
  split; [by apply Ht|]. eauto.
Qed.

(** Replacing a group's sessions and recomputing the extended threshold. *)
Lemma set_sessions_ext_wf n g ss st :
  wf st → nextSeq_ st <= bnd → topNGroups_ st !! n = Some g →
  wf (updatePublisherExtendedThreshold
        (set_groups (<[n := set_sessions ss g]> (topNGroups_ st)) st)).
Proof.
  intros Hwf Hb Hg. split; [apply Hwf|].
  set (ss0 := filter (λ p, ¬ isPublisher st p.1) ss).
  assert (wf (set_groups (<[n := set_sessions ss0 g]> (topNGroups_ st)) st)) as [_ Ht].
  { apply (set_group_wf n g); [done|done|done|]. intros s [i Hi] Hp. cbn in Hi.
    apply map_lookup_filter_Some in Hi as [_ Hi]. cbn in Hi. by rewrite Hp in Hi. }
  apply (thresholds_update_ext _ ∅).
  - destruct Ht as [Hd Hgr Hs Ho _]. constructor; cbn in *; [done| | | |done].
    + intros n' g'. rewrite lookup_insert_Some. destruct Hwf as [_ Ht'].
      intros [[<- <-]|[? ?]]; [exact (thr_group _ _ _ _ _ _ Ht' n g Hg)|by apply (thr_group _ _ _ _ _ _ Ht')].
    + intros n' Hn'. apply Hs. destruct (decide (n' = n)) as [->|].
      * rewrite lookup_insert_eq. eauto.
      * by rewrite lookup_insert_ne in Hn' |- *.
    + intros _. destruct Ho as [? Ho].
      { intros He. assert (∅ !! n = Some (set_sessions ss0 g)) as Hx
          by (rewrite <- He; apply lookup_insert_eq). by rewrite lookup_empty in Hx. }
      split; [done|]. intros n' Hn'. apply Ho. destruct (decide (n' = n)) as [->|].
      * rewrite lookup_insert_eq. eauto.
      * by rewrite lookup_insert_ne in Hn' |- *.
  - cbn. intros s c Hs. destruct Hwf as [Hc _]. pose proof (core_count_range _ _ _ Hc Hs). lia.
Qed.

Lemma registerTrack_wf st f v p :
  wf st → 0 <= nextSeq_ st < bnd →
  ∃ st' evs, registerTrack f v (Some p) st = Some (st', evs) ∧ wf st' ∧ cfg st' = cfg st ∧
    nextSeq_ st <= nextSeq_ st' <= nextSeq_ st + 1.
Proof.
  intros Hwf Hb. unfold registerTrack.
  destruct (trackIndexByName_ st !! f) eqn:Hf; [eexists _, _; split_and!; [done..|lia|lia]|].
  destruct (insertTrack_spec st f (default 0 v) p Hwf Hf Hb)
    as (st1&l1&l2&->&_&_&Hwf1&_&Hcfg&Hseq).
  eexists _, _. split; [reflexivity|]. split; [|cbn; split; [done|lia]].
  apply (forGroups_wf (reconcilePublisherInAllGroups st1 p).1); [auto with moqx|].
  by apply reconcileAll_wf.
Qed.

Lemma recomputeTopNGroups_wf st f e oldRank newRank :
  wf st →
  (trackIndexByName_ st !! f ≫= λ ri, deref (rankIter ri) (rankedTracks_ st)) = Some e →
  recomputeTopNGroups f oldRank newRank st =
    Some (set_groups (forGroups (recomputeGroup st f (Some (publisherRaw e)) oldRank newRank)
                        (topNGroups_ st)).1 st,
          (forGroups (recomputeGroup st f (Some (publisherRaw e)) oldRank newRank)
             (topNGroups_ st)).2) ∧
  wf (set_groups (forGroups (recomputeGroup st f (Some (publisherRaw e)) oldRank newRank)
                    (topNGroups_ st)).1 st).
Proof.
  intros Hwf Hd. split; [|apply forGroups_wf; auto with moqx].
  unfold recomputeTopNGroups. destruct (trackIndexByName_ st !! f) as [ri|]; [|done].
  cbn in Hd. rewrite Hd. done.
Qed.

(** The outcome of [updateSortValue] on a registered track whose value
    changes: the fast path, or the slow path followed by the sweep. *)
Lemma updateSortValue_cases st now gla f ri v :
  wf st → trackIndexByName_ st !! f = Some ri → v ≠ rvalue (rankIter ri) →
  ∃ st1 l1 l2 l1' l2' p,
    let st2 := set_groups (forGroups (recomputeGroup st1 f (Some p)
                 (Z.of_nat (length l1)) (Z.of_nat (length l1'))) (topNGroups_ st1)).1 st1 in
    rankedTracks_ st = l1 ++ (rankIter ri, mkEntry f p) :: l2 ∧
    rankedTracks_ st1 = l1' ++ (mkKey v (arrivalSeq (rankIter ri)), mkEntry f p) :: l2' ∧
    l1 ++ l2 = l1' ++ l2' ∧
    wf st1 ∧ topNGroups_ st1 = topNGroups_ st ∧ cfg st1 = cfg st ∧
    nextSeq_ st1 = nextSeq_ st ∧ publisherTrackCount_ st1 = publisherTrackCount_ st ∧
    wf st2 ∧
    updateSortValue f14_order now gla f v st =
      if crossesThreshold st1 (Z.of_nat (length l1)) (Z.of_nat (length l1')) then
        Some ((sweepIdle f14_order now gla st2).1,
          (forGroups (recomputeGroup st1 f (Some p)
             (Z.of_nat (length l1)) (Z.of_nat (length l1'))) (topNGroups_ st1)).2 ++
          (sweepIdle f14_order now gla st2).2)
      else Some (st1, []).
Proof.
  intros Hwf Hri Hv.
  destruct (moveTrack_spec st f ri v Hwf Hri Hv)
    as (st1&l1&l2&l1'&l2'&p&Hd&Hr&Hm&Hl&Hl'&Hll&Hwf1&Hg&Hcfg&Hseq&Hcnt&Hd').
  destruct (recomputeTopNGroups_wf st1 f (mkEntry f p) (Z.of_nat (length l1))
              (Z.of_nat (length l1')) Hwf1 Hd') as [Hrec Hwf2].
  exists st1, l1, l2, l1', l2', p. split_and!; try done.
  unfold updateSortValue. rewrite Hri, Hd.
  rewrite (proj2 (Z.eqb_neq _ _)) by done. rewrite Hr, Hm. cbn zeta.
  destruct (crossesThreshold _ _ _); [|done]. rewrite Hrec. cbn [publisherRaw].
  by destruct (sweepIdle _ _ _ _).
Qed.

Lemma updateSortValue_wf st now gla f v :
  wf st →
  ∃ st' evs, updateSortValue f14_order now gla f v st = Some (st', evs) ∧ wf st' ∧
    cfg st' = cfg st ∧ nextSeq_ st' = nextSeq_ st.
Proof.
  intros Hwf. destruct (trackIndexByName_ st !! f) as [ri|] eqn:Hri.
  2:{ unfold updateSortValue. rewrite Hri. eauto 10. }
  destruct (decide (v = rvalue (rankIter ri))) as [->|Hv].
  { unfold updateSortValue. rewrite Hri.
    destruct (indexed_node st f ri) as (?&?&?&_&->&_); [apply Hwf|done|].
    rewrite Z.eqb_refl. eauto 10. }
  destruct (updateSortValue_cases st now gla f ri v Hwf Hri Hv)
    as (st1&l1&l2&l1'&l2'&p&_&_&_&Hwf1&_&Hcfg&Hseq&_&Hwf2&->).
  destruct (crossesThreshold _ _ _); [|eauto 10].
  eexists _, _. split; [reflexivity|]. split; [by apply sweepIdle_wf|].
  match goal with |- cfg (sweepIdle _ ?a ?b ?c).1 = _ ∧ _ =>
    destruct (sweepIdle_frame a b c) as (->&->&_&_) end.
  done.
Qed.

Lemma removeTrack_wf st f :
  wf st → nextSeq_ st <= bnd →
  ∃ st' evs, removeTrack f st = Some (st', evs) ∧ wf st' ∧
    cfg st' = cfg st ∧ nextSeq_ st' = nextSeq_ st.
Proof.
  intros Hwf Hb. unfold removeTrack. destruct (trackIndexByName_ st !! f) as [ri|] eqn:Hri; [|eauto 10].
  destruct (eraseTrack_spec st f ri Hwf Hri Hb) as (st1&l1&l2&p&Hd&He&_&_&Hwf1&_&Hcfg&Hseq).
  cbn zeta. rewrite Hd. cbn [publisherRaw]. rewrite He.
  eexists _, _. split; [reflexivity|]. split; [apply forGroups_wf; auto with moqx|done].
Qed.

Lemma addSession_frame st n s fwd :
  let st' := (addSessionToTopNGroup n s fwd st).1 in
  cfg st' = cfg st ∧ nextSeq_ st' = nextSeq_ st ∧ rankedTracks_ st' = rankedTracks_ st ∧
  publisherTrackCount_ st' = publisherTrackCount_ st.
Proof.
  unfold addSessionToTopNGroup. set (st0 := getOrCreateTopNGroup n st).
  assert (cfg st0 = cfg st ∧ nextSeq_ st0 = nextSeq_ st ∧ rankedTracks_ st0 = rankedTracks_ st ∧
          publisherTrackCount_ st0 = publisherTrackCount_ st) as Hf.
  { unfold st0, getOrCreateTopNGroup. by destruct (topNGroups_ st !! n). }
  destruct (topNGroups_ st0 !! n) as [g|]; [|done]. cbn zeta. by destruct (isPublisher _ s).
Qed.

Lemma addSession_wf st n s fwd :
  wf st → 0 <= n <= bnd → nextSeq_ st <= bnd →
  wf (addSessionToTopNGroup n s fwd st).1.
Proof.
  intros Hwf Hn Hb. apply (getOrCreateTopNGroup_wf n) in Hwf; [|done].
  unfold addSessionToTopNGroup. set (st0 := getOrCreateTopNGroup n st) in *.
  assert (nextSeq_ st0 = nextSeq_ st) as Hseq
    by (unfold st0, getOrCreateTopNGroup; by destruct (topNGroups_ st !! n)).
  destruct (topNGroups_ st0 !! n) as [g|] eqn:Hg; [|done]. cbn zeta.
  destruct (isPublisher _ s) eqn:Hp; cbn [fst].
  - pose proof (set_sessions_ext_wf n g (<[s := mkSession fwd None ∅]> (sessions g)) st0 Hwf
      ltac:(by rewrite Hseq) Hg) as Hwf'.
    eapply set_group_wf in Hwf'; [exact Hwf'|apply lookup_insert_eq|done|].
    cbn. intros s' Hs' _. destruct (decide (s' = s)) as [->|Hne].
    + rewrite lookup_insert_eq. eauto.
    + by rewrite lookup_insert_ne in Hs' by done.
  - apply (set_group_wf n g); [done|done|done|]. cbn. intros s' Hs' Hp'.
    destruct (decide (s' = s)) as [->|Hne]; [|by rewrite lookup_insert_ne in Hs'].
    unfold isPublisher in *. cbn in Hp. congruence.
Qed.

Lemma updateExtended_wf st :
  wf st → nextSeq_ st <= bnd → wf (updatePublisherExtendedThreshold st).
Proof.
  intros [Hc Ht] Hb. split; [exact Hc|]. eapply thresholds_update_ext; [exact Ht|].
  intros s c Hs. pose proof (core_count_range _ _ _ Hc Hs). lia.
Qed.

Lemma removeSession_wf st n s :
  wf st → nextSeq_ st <= bnd → wf (removeSessionFromTopNGroup n s st).
Proof.
  intros Hwf Hb. unfold removeSessionFromTopNGroup.
  destruct (topNGroups_ st !! n) as [g|] eqn:Hg; [|done]. cbn zeta.
  assert (wf (set_groups (<[n := set_sessions (delete s (sessions g)) g]> (topNGroups_ st)) st)) as Hwf1.
  { apply (set_group_wf n g); [done..|]. cbn. intros s' [i [_ Hi]%lookup_delete_Some] _. eauto. }
  case_bool_decide; (destruct (isPublisher st s);
    [apply updateExtended_wf; [|done]|]); auto using removeTopNGroup_wf.
Qed.

Lemma updateForward_wf st n s fwd : wf st → wf (updateSessionForward n s fwd st).
Proof.
  intros Hwf. unfold updateSessionForward.
  destruct (topNGroups_ st !! n) as [g|] eqn:Hg; [|done].
  destruct (sessions g !! s) as [i|] eqn:Hs; [|done].
  apply (set_group_wf n g); [done..|]. cbn. intros s' Hs' _.
  destruct (decide (s' = s)) as [->|]; [eauto|by rewrite lookup_insert_ne in Hs'].
Qed.

(** Limits small enough for the threshold sums; any limit a subscriber asks
    for below 2^62. *)
Definition op_ok (o : Op (FullTrackName:=FullTrackName) (MoQSession:=MoQSession)) : Prop :=
  match o with
  | OGetOrCreateTopNGroup n | OAddSession n _ _ => 0 <= n <= bnd
  | _ => True
  end.

Lemma step_wf o st :
  wf st → 0 <= nextSeq_ st < bnd → op_ok o →
  ∃ st' evs, stepOp f14_order o st = Some (st', evs) ∧ wf st' ∧ cfg st' = cfg st ∧
    nextSeq_ st <= nextSeq_ st' <= nextSeq_ st + 1.
Proof.
  intros Hwf Hb Ho. destruct o as [f v p|now gla f v|f|n|n|n s fwd|n s|n s fwd|now gla]; cbn in *.
  - by apply registerTrack_wf.
  - destruct (updateSortValue_wf st now gla f v Hwf) as (st'&evs&->&?&?&?).
    eexists _, _. split_and!; [done..|lia|lia].
  - destruct (removeTrack_wf st f Hwf) as (st'&evs&->&?&?&?); [lia|].
    eexists _, _. split_and!; [done..|lia|lia].
  - eexists _, _. split; [done|]. split; [by apply getOrCreateTopNGroup_wf|].
    unfold getOrCreateTopNGroup. destruct (topNGroups_ st !! n); cbn; split; done || lia.
  - eexists _, _. split; [done|]. split; [by apply removeTopNGroup_wf|]. cbn; split; done || lia.
  - eexists _, _. split; [apply f_equal, surjective_pairing|].
    split; [apply addSession_wf; [done|done|lia]|].
    destruct (addSession_frame st n s fwd) as (->&->&_&_). split; [done|lia].
  - eexists _, _. split; [done|]. split; [apply removeSession_wf; [done|lia]|].
    unfold removeSessionFromTopNGroup. destruct (topNGroups_ st !! n); [|split; done || lia].
    destruct (bool_decide _), (isPublisher st s); cbn; split; done || lia.
  - eexists _, _. split; [done|]. split; [by apply updateForward_wf|].
    unfold updateSessionForward. destruct (topNGroups_ st !! n) as [g|]; [|split; done || lia].
    destruct (sessions g !! s); cbn; split; done || lia.
  - eexists _, _. split; [apply f_equal, surjective_pairing|]. split; [by apply sweepIdle_wf|].
    destruct (sweepIdle_frame now gla st) as (->&->&_&_). split; done || lia.
Qed.

Lemma run_wf_from ops st :
  wf st → 0 <= nextSeq_ st → nextSeq_ st + Z.of_nat (length ops) < bnd → Forall op_ok ops →
  ∃ st' evs, run f14_order ops st = Some (st', evs) ∧ wf st' ∧ cfg st' = cfg st ∧
    nextSeq_ st <= nextSeq_ st' <= nextSeq_ st + Z.of_nat (length ops).
Proof.
  revert st. induction ops as [|o ops IH]; intros st Hwf Hz Hb Ho; cbn [run length] in *.
  - eexists _, _. split_and!; [done..|lia|lia].
  - apply Forall_cons in Ho as [Ho Hos].
    destruct (step_wf o st) as (st1&e1&->&Hwf1&Hcfg1&Hseq1); [done|lia|done|].
    destruct (IH st1) as (st2&e2&->&Hwf2&Hcfg2&Hseq2); [done|lia|lia|done|].
    eexists _, _. split_and!; [done..|congruence|lia|lia].
Qed.

Lemma newRanking_wf c : 0 <= maxDeselected_ c <= bnd → wf (newRanking c).
Proof.
  intros Hd. split; constructor; cbn; try done.
  - constructor.
  - intros f k. rewrite lookup_empty. cbn. split; [done|]. intros [p Hp]. by apply elem_of_nil in Hp.
  - constructor.
  - by intros p Hp%elem_of_nil.
  - intros n [g Hg]. by rewrite lookup_empty in Hg.
Qed.

(** C8: From the empty ranking, any sequence of operations whose limits stay
    below 2^62 runs to the end (no check fails and no stale iterator is
    dereferenced) in a well-formed state: the ranking is sorted by value and
    arrival, the name index holds exactly the ranked tracks and their keys,
    a valid rank cache gives each track's position, the publisher counts are
    the numbers of ranked tracks per session, and the stored thresholds bound
    every group's limit and every publisher's extended window. *)
Theorem run_wf c ops :
  0 <= maxDeselected_ c <= bnd → Z.of_nat (length ops) < bnd → Forall op_ok ops →
  ∃ st evs, run f14_order ops (newRanking c) = Some (st, evs) ∧ wf st.
Proof.
  intros Hd Hl Ho.
  destruct (run_wf_from ops (newRanking c)) as (st&evs&?&?&_);
    [by apply newRanking_wf|done|done|done|]. eauto.
Qed.

End RankingInvariant.
