(* ===== verification/RankingSelection.v ===== *)
(** * Top-N selection: what the subscribers of a ranking are sent

    The set of tracks a session has been sent is the fold [view] of the
    callbacks over its earlier set.  For a publisher-subscriber the intended
    set is [personal], the first N tracks that are not its own; for a viewer
    it is [topSet], the first N tracks. *)

From S2P Require Import Prelude PropertyRanking RankingOrder RankingInvariant.

Section RankingSelection.
Context {FullTrackName : Type} `{Countable FullTrackName}.
Context {MoQSession : Type} `{Countable MoQSession}.

#[local] Abbreviation RankedEntry := (RankedEntry FullTrackName MoQSession).
#[local] Abbreviation ranked := (list (RankKey * RankedEntry)).
#[local] Abbreviation ranking :=
  (PropertyRanking (FullTrackName:=FullTrackName) (MoQSession:=MoQSession)).
#[local] Abbreviation group := (TopNGroup (FullTrackName:=FullTrackName) (MoQSession:=MoQSession)).
#[local] Abbreviation event := (Event (FullTrackName:=FullTrackName) (MoQSession:=MoQSession)).
#[local] Abbreviation groups := (gmap Z group).

Implicit Types (st : ranking) (l : ranked) (f : FullTrackName) (s : MoQSession)
  (g : group) (gs : groups) (v : gset FullTrackName).

(** ** What a session has been sent *)

Definition applyEvent s (e : event) v : gset FullTrackName :=
  match e with
  | OnBatchSelected f batch => if bool_decide (s ∈ batch.*1) then {[f]} ∪ v else v
  | OnSelected f s' _ => if bool_decide (s' = s) then {[f]} ∪ v else v
  | OnEvicted f s' => if bool_decide (s' = s) then v ∖ {[f]} else v
  end.

Definition view s (evs : list event) v : gset FullTrackName :=
  foldl (λ v e, applyEvent s e v) v evs.

(** An event that does not concern [s]. *)
Definition foreign s (e : event) : Prop :=
  match e with
  | OnBatchSelected f batch => s ∉ batch.*1
  | OnSelected f s' _ => s' ≠ s
  | OnEvicted f s' => s' ≠ s
  end.

Lemma view_app s evs evs' v : view s (evs ++ evs') v = view s evs' (view s evs v).
Proof. apply foldl_app. Qed.

Lemma view_foreign s evs v : Forall (foreign s) evs → view s evs v = v.
Proof.
  intros Hf. revert v. induction Hf as [|e evs He _ IH]; intros v; [done|].
  cbn. unfold view in IH. rewrite IH. destruct e; cbn in *; by rewrite bool_decide_eq_false_2.
Qed.

Lemma view_evicts s (fs : list FullTrackName) v :
  view s ((λ f, OnEvicted f s) <$> fs) v = v ∖ list_to_set fs.
Proof.
  revert v. induction fs as [|f fs IH]; intros v; cbn; [set_solver|].
  rewrite bool_decide_eq_true_2 by done. unfold view in IH. rewrite IH. set_solver.
Qed.

Lemma view_selects s fwd (fs : list FullTrackName) v :
  view s ((λ f, OnSelected f s fwd) <$> fs) v = v ∪ list_to_set fs.
Proof.
  revert v. induction fs as [|f fs IH]; intros v; cbn; [set_solver|].
  rewrite bool_decide_eq_true_2 by done. unfold view in IH. rewrite IH. set_solver.
Qed.

(** ** The personal selection of a publisher-subscriber *)

Definition nonSelf s l : ranked := filter (λ p, publisherRaw p.2 ≠ s) l.

Definition personal (n : Z) s l : gset FullTrackName := topSet n (nonSelf s l).

Lemma nonSelf_elem s l p : p ∈ nonSelf s l → p ∈ l ∧ publisherRaw p.2 ≠ s.
Proof. unfold nonSelf. rewrite list_elem_of_filter. naive_solver. Qed.

Lemma waterlineFrom_elem c n s l k : waterlineFrom c n s l = Some k → k ∈ l.*1.
Proof.
  revert c. induction l as [|[k' e] l IH]; intros c; cbn; [done|].
  case_bool_decide; [destruct (_ =? n)|].
  - intros [= ->]. by left.
  - intros ?%IH. by right.
  - intros ?%IH. by right.
Qed.

Lemma nowSelectedList_cons w s k e l :
  nowSelectedList w s ((k, e) :: l) =
  (if bool_decide (publisherRaw e ≠ s) && aboveWaterline w k then [ftn e] else []) ++
  nowSelectedList w s l.
Proof. unfold nowSelectedList. cbn. by destruct (_ && _). Qed.

Lemma nowSelectedList_below k s l :
  (∀ p, p ∈ l → key_gt k p.1 = true) → nowSelectedList (Some k) s l = [].
Proof.
  induction l as [|[k' e] l IH]; intros Hl; [done|].
  rewrite nowSelectedList_cons, IH by (intros; apply Hl; by right).
  specialize (Hl (k', e) ltac:(by left)). cbn in Hl |- *.
  destruct (key_ge k' k) eqn:Hge; [|by rewrite andb_false_r].
  apply key_ge_spec in Hge as [Hge| ->].
  - pose proof (key_gt_trans _ _ _ Hl Hge) as Hx. by rewrite key_gt_irrefl in Hx.
  - by rewrite key_gt_irrefl in Hl.
Qed.

(** The tracks at or above the waterline are the first [n] non-self tracks. *)
Lemma nowSelectedList_waterline c n s l :
  StronglySorted above l → 0 <= c < n →
  nowSelectedList (waterlineFrom c n s l) s l =
  take (Z.to_nat (n - c)) (names (nonSelf s l)).
Proof.
  intros Hs. revert c. induction Hs as [|[k e] l Hs IH Hf]; intros c Hc; [by cbn; rewrite take_nil|].
  rewrite Forall_forall in Hf. unfold nonSelf. rewrite filter_cons, nowSelectedList_cons.
  cbn [snd waterlineFrom].
  destruct (decide (publisherRaw e ≠ s)) as [Hself|Hself];
    [rewrite bool_decide_eq_true_2 by done|rewrite bool_decide_eq_false_2 by done].
  2:{ cbn [andb app]. by apply IH. }
  cbn [andb names fmap list_fmap]. replace (Z.to_nat (n - c)) with (S (Z.to_nat (n - (c + 1)))) by lia.
  destruct (Z.eqb_spec (c + 1) n) as [Hn|Hn].
  - rewrite nowSelectedList_below by (intros p Hp; apply (Hf p Hp)). cbn.
    rewrite (proj2 (key_ge_spec k k)) by auto. cbn.
    by replace (Z.to_nat (n - (c + 1))) with 0%nat by lia.
  - rewrite IH by lia. destruct (waterlineFrom (c + 1) n s l) as [k'|] eqn:Hw; [|done].
    apply waterlineFrom_elem, list_elem_of_fmap in Hw as ([k'' e'']&->&Hin). apply Hf in Hin.
    cbn in *. by rewrite (proj2 (key_ge_spec _ _)) by by left.
Qed.

Definition callbacks_set (c : Config) : Prop :=
  onBatchSelected_ c = true ∧ onSelected_ c = true ∧ onEvicted_ c = true.

Lemma reconcile_selected st info n s :
  core st → 1 <= n →
  selectedTracks (reconcilePublisherSelection st info n s).1 = personal n s (rankedTracks_ st).
Proof.
  intros Hc Hn. cbn. unfold computeWaterlineKey. rewrite nowSelectedList_waterline; [|apply Hc|lia].
  by rewrite Z.sub_0_r.
Qed.

Lemma reconcile_foreign st info n s s' :
  s' ≠ s → Forall (foreign s') (reconcilePublisherSelection st info n s).2.
Proof.
  intros Hne. cbn. apply Forall_app.
  split; [destruct (onEvicted_ _)|destruct (onSelected_ _)]; try done;
    apply Forall_fmap, Forall_forall; cbn; congruence.
Qed.

(** [reconcilePublisherSelection] gives a publisher-subscriber exactly its
    first N tracks that are not its own, and its callbacks are exactly the
    difference: applied to what the session had, they give the new selection,
    every eviction is of a track that left and every selection is of one that
    entered, and no other session is called. *)
Theorem reconcilePublisherSelection_exact st info n s :
  core st → 1 <= n → callbacks_set (cfg st) →
  let r := reconcilePublisherSelection st info n s in
  let old := selectedTracks info in
  let new := personal n s (rankedTracks_ st) in
  selectedTracks r.1 = new ∧
  view s r.2 old = new ∧
  (∀ f, OnEvicted f s ∈ r.2 ↔ f ∈ old ∖ new) ∧
  (∀ f fwd, OnSelected f s fwd ∈ r.2 ↔ f ∈ new ∖ old ∧ fwd = forward info) ∧
  (∀ s' v, s' ≠ s → view s' r.2 v = v).
Proof.
  intros Hc Hn (_&Hsel&Hev) r old new.
  pose proof (reconcile_selected st info n s Hc Hn) as Hr. fold r new in Hr.
  assert (r.2 = ((λ f, OnEvicted f s) <$> elements (old ∖ new)) ++
                ((λ f, OnSelected f s (forward info)) <$> elements (new ∖ old))) as He.
  { rewrite <- Hr. unfold r, reconcilePublisherSelection. cbn. by rewrite Hsel, Hev. }
  split_and!; [done| | | |].
  - rewrite He, view_app, view_evicts, view_selects, !list_to_set_elements_L.
    apply set_eq. intros f. rewrite elem_of_union, !elem_of_difference.
    destruct (decide (f ∈ old)), (decide (f ∈ new)); tauto.
  - intros f. rewrite He, elem_of_app, !list_elem_of_fmap. setoid_rewrite elem_of_elements. naive_solver.
  - intros f fwd. rewrite He, elem_of_app, !list_elem_of_fmap. setoid_rewrite elem_of_elements. naive_solver.
  - intros s' v Hne. apply view_foreign. by apply reconcile_foreign.
Qed.

(** ** How a change of the ranking moves the personal selections *)

Lemma personal_middle n s l1 l2 x :
  personal n s (l1 ++ x :: l2) =
  if bool_decide (publisherRaw x.2 = s) then personal n s (l1 ++ l2)
  else if Z.of_nat (length (nonSelf s l1)) <? n
  then {[ftn x.2]} ∪ personal (n - 1) s (l1 ++ l2)
  else personal n s (l1 ++ l2).
Proof.
  unfold personal, nonSelf. rewrite !filter_app, filter_cons.
  case_bool_decide; [by rewrite decide_False by (intros Hx; by apply Hx)|].
  rewrite decide_True by done. apply topSet_middle.
Qed.

Lemma nonSelf_length s l :
  Z.of_nat (length (nonSelf s l)) = Z.of_nat (length l) - selfCount s l.
Proof.
  unfold nonSelf, selfCount. induction l as [|p l IH]; [done|]. rewrite !filter_cons.
  destruct (decide (publisherRaw p.2 = s)).
  - rewrite decide_False by (intros Hx; by apply Hx). cbn [length]. lia.
  - rewrite decide_True by done. cbn [length]. lia.
Qed.

Lemma selfCount_app s l1 l2 : selfCount s (l1 ++ l2) = selfCount s l1 + selfCount s l2.
Proof. unfold selfCount. rewrite filter_app, length_app. lia. Qed.

(** A node at or below rank [n + c], [c] the session's own tracks, is outside
    its personal top [n]. *)
Lemma personal_outside n s l1 l2 x :
  n + selfCount s (l1 ++ x :: l2) <= Z.of_nat (length l1) →
  personal n s (l1 ++ x :: l2) = personal n s (l1 ++ l2).
Proof.
  intros Hn. rewrite personal_middle. case_bool_decide; [done|].
  rewrite (proj2 (Z.ltb_ge _ _)); [done|]. rewrite nonSelf_length.
  rewrite selfCount_app in Hn. pose proof (selfCount_range s (x :: l2)). lia.
Qed.

(** ** The publishers of a group hold their personal selections *)

Definition pub_ok st (n : Z) g : Prop :=
  ∀ s i, sessions g !! s = Some i → isPublisher st s = true → 1 <= n →
    selectedTracks i = personal n s (rankedTracks_ st).

Lemma trimLoop_sessions st q g : sessions (trimLoop st q g).1 = sessions g.
Proof.
  revert g. induction q as [|f q IH]; intros g; cbn [trimLoop]; [done|].
  destruct (_ >? _); [|done]. cbn [fst]. by rewrite IH.
Qed.

Lemma demoteTrack_sessions st f g : sessions (demoteTrack st f g).1 = sessions g.
Proof. unfold demoteTrack, trimDeselectedQueue. by rewrite trimLoop_sessions. Qed.

Lemma demoteTrackAtRank_sessions st n g : sessions (demoteTrackAtRank st n g).1 = sessions g.
Proof.
  unfold demoteTrackAtRank. destruct (entryAt _ _ _) as [e|]; [|done].
  destruct (trackStates g !! ftn e) as [[]|]; [|done..]. apply demoteTrack_sessions.
Qed.

Lemma reconcilePublishers_pub st n skip g :
  core st →
  (∀ s i, sessions g !! s = Some i → skip = Some s → isPublisher st s = true → 1 <= n →
     selectedTracks i = personal n s (rankedTracks_ st)) →
  pub_ok st n (reconcilePublishers st n skip g).1.
Proof.
  intros Hc Hskip s i'. unfold reconcilePublishers. cbn [fst sessions set_sessions].
  rewrite forSessions_lookup, fmap_Some. intros (i&Hs&->) Hp Hn. rewrite Hp. cbn [andb].
  case_bool_decide as Hx; [by apply reconcile_selected|].
  cbn. by apply (Hskip s i).
Qed.

Lemma notifyTrackSelected_pub st f g n :
  core st → maxSelected g = n → pub_ok st n (notifyTrackSelected st f g).1.
Proof.
  intros Hc <-. unfold notifyTrackSelected. cbn [fst].
  apply reconcilePublishers_pub; [done|]. by intros.
Qed.

Lemma selectTrack_pub st f g n :
  core st → maxSelected g = n → pub_ok st n (selectTrack st f g).1.
Proof. intros Hc Hm. unfold selectTrack. by apply notifyTrackSelected_pub. Qed.

Lemma promoteLoop_pub st l f g n :
  core st → maxSelected g = n → pub_ok st n g → pub_ok st n (promoteLoop st l f g).1.
Proof.
  intros Hc Hm Hp. induction l as [|[k e] l IH]; cbn; [done|].
  destruct (bool_decide _); [done|]. destruct (bool_decide _); [done|by apply selectTrack_pub].
Qed.

Lemma demoteTrack_pub st f g n : pub_ok st n g → pub_ok st n (demoteTrack st f g).1.
Proof. unfold pub_ok. by rewrite demoteTrack_sessions. Qed.

Lemma demoteTrackAtRank_pub st r g n : pub_ok st n g → pub_ok st n (demoteTrackAtRank st r g).1.
Proof. unfold pub_ok. by rewrite demoteTrackAtRank_sessions. Qed.

Lemma registerInGroup_pub st f r n g :
  core st → maxSelected g = n → pub_ok st n (registerInGroup st f r n g).1.
Proof.
  intros Hc Hm. unfold registerInGroup. destruct (_ <? _).
  - apply demoteTrackAtRank_pub. by apply notifyTrackSelected_pub.
  - apply reconcilePublishers_pub; [done|]. by intros.
Qed.

(** In [recomputeTopNGroups] the publisher [p] of the moved track is skipped. *)
Lemma recomputeGroup_pub st f p r r' n g :
  core st → maxSelected g = n →
  (∀ i, sessions g !! p = Some i → isPublisher st p = true → 1 <= n →
     selectedTracks i = personal n p (rankedTracks_ st)) →
  pub_ok st n (recomputeGroup st f (Some p) r r' n g).1.
Proof.
  intros Hc Hm Hp. unfold recomputeGroup. cbn [fst].
  set (r1 := if eqb _ _ then (g, []) else _).
  assert (sessions r1.1 = sessions g ∧ maxSelected r1.1 = n) as [Hs Hm1].
  { unfold r1. destruct (eqb _ _); [done|]. destruct (_ <? _); [done|].
    rewrite demoteTrack_sessions. by destruct (demoteTrack_shape st f g) as [-> _]. }
  assert (pub_ok st n (reconcilePublishers st n (Some p) r1.1).1) as H2.
  { apply reconcilePublishers_pub; [done|]. rewrite Hs. intros s i Hi [= <-]. by apply Hp. }
  destruct (reconcilePublishers_shape st n (Some p) r1.1) as [Hm2 _]. rewrite Hm1 in Hm2.
  set (r2 := reconcilePublishers st n (Some p) r1.1) in *.
  set (r4 := if negb _ && _ then _ else _).
  assert (pub_ok st n r4.1 ∧ maxSelected r4.1 = n) as [H4 Hm4].
  { unfold r4. destruct (negb _ && _); [|done]. split; [by apply demoteTrackAtRank_pub|].
    by destruct (demoteTrackAtRank_shape st n r2.1) as [-> _]. }
  destruct (_ && negb _); [|done]. unfold promoteTrackAtRank.
  destruct (entryAt _ _ _) as [e|]; [|done].
  destruct (bool_decide _); [done|by apply selectTrack_pub].
Qed.

Lemma sweepTracks_pub st now gla fs g n :
  core st → maxSelected g = n → pub_ok st n g → pub_ok st n (sweepTracks st now gla fs g).1.
Proof.
  intros Hc. revert g. induction fs as [|f fs IH]; intros g Hm Hp; cbn [sweepTracks]; [done|].
  destruct (isIdle _ _ _); [|by apply IH]. cbn [fst].
  destruct (demoteTrack_shape st f g) as [Hm1 _].
  destruct (promoteLoop_shape st (rankedTracks_ st) f (demoteTrack st f g).1) as [Hm2 _].
  apply IH; [unfold promoteNextAvailableTrack; congruence|].
  apply promoteLoop_pub; [done|congruence|by apply demoteTrack_pub].
Qed.

Definition publishers_ok st : Prop :=
  ∀ n g, topNGroups_ st !! n = Some g → pub_ok st n g.

Lemma forGroups_publishers st (h : Z → group → group * list event) :
  (∀ n g, topNGroups_ st !! n = Some g → pub_ok st n (h n g).1) →
  publishers_ok (set_groups (forGroups h (topNGroups_ st)).1 st).
Proof.
  intros Hh n g'. cbn [topNGroups_ set_groups]. rewrite forGroups_lookup, fmap_Some.
  intros (g&Hg&->). by apply Hh.
Qed.

Lemma wf_maxSelected st n g : wf st → topNGroups_ st !! n = Some g → maxSelected g = n.
Proof. intros [_ Ht] Hg. by apply (thr_group _ _ _ _ _ _ Ht) in Hg as [_ ?]. Qed.

Lemma registerTrack_publishers st f ov p st' evs :
  wf st → publishers_ok st → 0 <= nextSeq_ st < bnd →
  registerTrack f ov (Some p) st = Some (st', evs) → publishers_ok st'.
Proof.
  intros Hwf Hp Hb. unfold registerTrack.
  destruct (trackIndexByName_ st !! f) eqn:Hf; [by intros [= <- <-]|].
  destruct (insertTrack_spec st f (default 0 ov) p Hwf Hf Hb)
    as (st1&l1&l2&->&_&_&Hwf1&_&_&_).
  pose proof (reconcileAll_wf st1 p Hwf1) as Hwf2.
  destruct (reconcilePublisherInAllGroups st1 p) as [st2 e1]. cbn [fst] in Hwf2.
  intros [= <- <-]. apply (forGroups_publishers st2). intros n g Hg.
  apply registerInGroup_pub; [apply Hwf2|by eapply wf_maxSelected].
Qed.

Context (f14_order : list FullTrackName → list FullTrackName).

Lemma sweepIdle_publishers st now gla :
  wf st → publishers_ok st → publishers_ok (sweepIdle f14_order now gla st).1.
Proof.
  intros Hwf Hp. unfold sweepIdle. destruct (_ =? 0); [done|]. destruct gla as [gla|]; [|done].
  destruct (match lastSweepTime_ st with Some _ => _ | None => _ end); [done|].
  apply (forGroups_publishers (set_lastSweep (Some now) st)). intros n g Hg.
  apply sweepTracks_pub; [apply Hwf|by eapply wf_maxSelected|by apply Hp].
Qed.

(** The personal selections are the same before and after a fast-path move,
    and a session's own moves never change its personal selection. *)
Lemma move_personal st st1 f k k' p l1 l2 l1' l2' n s :
  core st → core st1 → publisherTrackCount_ st1 = publisherTrackCount_ st →
  rankedTracks_ st = l1 ++ (k, mkEntry f p) :: l2 →
  rankedTracks_ st1 = l1' ++ (k', mkEntry f p) :: l2' →
  l1 ++ l2 = l1' ++ l2' →
  isPublisher st1 s = true →
  (s ≠ p → ∀ c, publisherTrackCount_ st1 !! s = Some c →
    n + c <= Z.of_nat (length l1) ∧ n + c <= Z.of_nat (length l1')) →
  personal n s (rankedTracks_ st1) = personal n s (rankedTracks_ st).
Proof.
  intros Hc Hc1 Hcnt Hl Hl1 Hll Hp Hout. rewrite Hl, Hl1. destruct (decide (s = p)) as [->|Hne].
  - rewrite !personal_middle. cbn. rewrite bool_decide_eq_true_2 by done. by rewrite Hll.
  - assert (∃ c, publisherTrackCount_ st1 !! s = Some c) as [c Hs]
      by (unfold isPublisher in Hp; by apply bool_decide_eq_true in Hp).
    destruct (Hout Hne c Hs) as [Ho Hn].
    assert (∀ l, counts_ok (publisherTrackCount_ st1) l → selfCount s l = c) as Hself.
    { intros l Hl0. rewrite (Hl0 s) in Hs. cbn zeta in Hs. destruct (_ =? 0); congruence. }
    rewrite !personal_outside; [by rewrite Hll| |].
    + rewrite Hself; [done|]. rewrite <- Hl. rewrite Hcnt. intros s'. apply Hc.
    + rewrite Hself; [done|]. rewrite <- Hl1. intros s'. apply Hc1.
Qed.

Lemma isPublisher_counts st st' s :
  publisherTrackCount_ st' = publisherTrackCount_ st → isPublisher st' s = isPublisher st s.
Proof. unfold isPublisher. by intros ->. Qed.

Lemma updateSortValue_publishers st now gla f x st' evs :
  wf st → publishers_ok st → nextSeq_ st <= bnd →
  updateSortValue f14_order now gla f x st = Some (st', evs) → publishers_ok st'.
Proof.
  intros Hwf Hp Hb. destruct (trackIndexByName_ st !! f) as [ri|] eqn:Hri.
  2:{ unfold updateSortValue. rewrite Hri. by intros [= <- <-]. }
  destruct (decide (x = rvalue (rankIter ri))) as [->|Hv].
  { unfold updateSortValue. rewrite Hri.
    destruct (indexed_node st f ri) as (?&?&?&_&->&_); [apply Hwf|done|].
    rewrite Z.eqb_refl. by intros [= <- <-]. }
  destruct (updateSortValue_cases f14_order st now gla f ri x Hwf Hri Hv)
    as (st1&l1&l2&l1'&l2'&p&Hl&Hl1&Hll&Hwf1&Hg1&_&Hseq&Hcnt&Hwf2&->).
  assert (∀ s, isPublisher st1 s = isPublisher st s) as Hpub by (intros; by apply isPublisher_counts).
  destruct (crossesThreshold _ _ _) eqn:Hx; intros [= <- <-].
  - apply sweepIdle_publishers; [done|]. apply forGroups_publishers. intros n g Hg.
    apply recomputeGroup_pub; [apply Hwf1|by apply (wf_maxSelected st1)|].
    intros i Hi Hs Hn. rewrite (Hp n g) with (s := p); [|by rewrite <- Hg1|done|by rewrite <- Hpub|done].
    symmetry. by apply (move_personal st st1 _ _ _ _ _ _ _ _ n p (proj1 Hwf) (proj1 Hwf1) Hcnt Hl Hl1 Hll).
  - intros n g Hg s i Hi Hs Hn.
    destruct (crossesThreshold_false st1 _ _ Hwf1 ltac:(by rewrite Hseq) Hx n g Hg) as [_ Hout].
    rewrite (Hp n g) with (s := s); [|by rewrite <- Hg1|done|by rewrite <- Hpub|done].
    symmetry. apply (move_personal st st1 _ _ _ _ _ _ _ _ n s (proj1 Hwf) (proj1 Hwf1) Hcnt Hl Hl1 Hll Hs).
    intros _ c Hc. apply (Hout s c); [eauto|done].
Qed.

Lemma getOrCreate_publishers n st : publishers_ok st → publishers_ok (getOrCreateTopNGroup n st).
Proof.
  intros Hp. unfold getOrCreateTopNGroup. destruct (topNGroups_ st !! n); [done|].
  intros n' g'. cbn. rewrite insert_insert_eq, lookup_insert_Some.
  intros [[<- <-]|[_ Hg]]; [|by apply Hp]. intros s i Hi. cbn in Hi. by rewrite lookup_empty in Hi.
Qed.

Lemma addSession_publishers st n s fwd :
  wf st → publishers_ok st → 0 <= n <= bnd → publishers_ok (addSessionToTopNGroup n s fwd st).1.
Proof.
  intros Hwf Hp Hn. apply (getOrCreate_publishers n) in Hp.
  apply (getOrCreateTopNGroup_wf n) in Hwf; [|done].
  unfold addSessionToTopNGroup. set (st0 := getOrCreateTopNGroup n st) in *.
  destruct (topNGroups_ st0 !! n) as [g|] eqn:Hg; [|done]. cbn zeta.
  destruct (isPublisher _ s) eqn:Hs; cbn [fst]; intros n' g'.
  - cbn [topNGroups_ set_groups updatePublisherExtendedThreshold set_thresholds].
    rewrite insert_insert_eq, lookup_insert_Some. intros [[<- <-]|[_ Hg']]; [|by apply (Hp n' g')].
    intros s' i'. cbn [sessions set_sessions]. rewrite insert_insert_eq, lookup_insert_Some.
    intros [[<- <-]|[_ Hi']]; [|by apply (Hp n g)].
    intros _ Hn1. by apply (reconcile_selected (updatePublisherExtendedThreshold
      (set_groups (<[n:=set_sessions (<[s:=mkSession fwd None ∅]> (sessions g)) g]>
         (topNGroups_ st0)) st0))); [apply Hwf|].
  - cbn [topNGroups_ set_groups]. rewrite lookup_insert_Some.
    intros [[<- <-]|[_ Hg']]; [|by apply (Hp n' g')].
    intros s' i'. cbn [sessions set_sessions]. rewrite lookup_insert_Some.
    intros [[<- <-]|[_ Hi']]; [|by apply (Hp n g)].
    intros Hs'. change (isPublisher st0 s = true) in Hs'. change (isPublisher st0 s = false) in Hs.
    congruence.
Qed.

Lemma removeSession_publishers st n s :
  publishers_ok st → publishers_ok (removeSessionFromTopNGroup n s st).
Proof.
  intros Hp. unfold removeSessionFromTopNGroup.
  destruct (topNGroups_ st !! n) as [g|] eqn:Hg; [|done]. cbn zeta.
  assert (publishers_ok (set_groups (<[n := set_sessions (delete s (sessions g)) g]>
            (topNGroups_ st)) st)) as H1.
  { intros n' g'. cbn. rewrite lookup_insert_Some. intros [[<- <-]|[_ Hg']]; [|by apply Hp].
    intros s' i' Hi. cbn in Hi. apply lookup_delete_Some in Hi as [_ Hi]. by apply (Hp n g). }
  assert (∀ st0, publishers_ok st0 → publishers_ok (removeTopNGroup n st0)) as H2.
  { intros st0 H0' n' g'. cbn. rewrite lookup_delete_Some. intros [_ Hg']. by apply (H0' n' g'). }
  destruct (bool_decide _), (isPublisher st s); first [exact H1|exact (H2 _ H1)].
Qed.

Definition notRemove (o : Op (FullTrackName:=FullTrackName) (MoQSession:=MoQSession)) : Prop :=
  match o with ORemoveTrack _ => False | _ => True end.

Lemma step_publishers o st st' evs :
  wf st → publishers_ok st → 0 <= nextSeq_ st < bnd → op_ok o → notRemove o →
  stepOp f14_order o st = Some (st', evs) → publishers_ok st'.
Proof.
  intros Hwf Hp Hb Ho Hr.
  destruct o as [f ov p|now gla f x|f|n|n|n s fwd|n s|n s fwd|now gla]; cbn in *.
  - by apply registerTrack_publishers.
  - apply updateSortValue_publishers; [done|done|lia].
  - done.
  - intros [= <- <-]. by apply getOrCreate_publishers.
  - intros [= <- <-] n' g'. cbn. rewrite lookup_delete_Some. intros [_ Hg']. by apply (Hp n' g').
  - intros [= He]. replace st' with (addSessionToTopNGroup n s fwd st).1 by by rewrite He.
    by apply addSession_publishers.
  - intros [= <- <-]. by apply removeSession_publishers.
  - intros [= <- <-]. unfold updateSessionForward.
    destruct (topNGroups_ st !! n) as [g|] eqn:Hg; [|done].
    destruct (sessions g !! s) as [i|] eqn:Hi; [|done].
    intros n' g'. cbn. rewrite lookup_insert_Some. intros [[<- <-]|[_ Hg']]; [|by apply Hp].
    intros s' i'. cbn. rewrite lookup_insert_Some. intros [[<- <-]|[_ Hi']]; [|by apply (Hp n g)].
    cbn. by apply (Hp n g).
  - intros [= He]. replace st' with (sweepIdle f14_order now gla st).1 by by rewrite He.
    by apply sweepIdle_publishers.
Qed.

Lemma run_publishers_from ops st st' evs :
  wf st → publishers_ok st → 0 <= nextSeq_ st → nextSeq_ st + Z.of_nat (length ops) < bnd →
  Forall op_ok ops → Forall notRemove ops →
  run f14_order ops st = Some (st', evs) → publishers_ok st'.
Proof.
  revert st evs. induction ops as [|o ops IH]; intros st evs Hwf Hp Hz Hb Ho Hr; cbn [run length] in *.
  - by intros [= <- <-].
  - apply Forall_cons in Ho as [Ho Hos]. apply Forall_cons in Hr as [Hr Hrs].
    destruct (step_wf f14_order o st) as (st1&e1&Hs&Hwf1&_&Hseq1); [done|lia|done|].
    rewrite Hs. apply step_publishers in Hs; [|done|done|lia|done|done].
    destruct (run f14_order ops st1) as [[st2 e2]|] eqn:Hrun; [|done]. intros [= <- <-].
    apply (IH st1 e2); [done|done|lia|lia|done|done|done].
Qed.

(** In every run that removes no track, each publisher-subscriber of a
    group with a limit of at least one holds exactly its personal selection,
    the first N tracks of other publishers, after every operation; the fast
    path of [updateSortValue] never leaves a personal selection stale. *)
Theorem run_publisher_selection c ops st evs n g s i :
  0 <= maxDeselected_ c <= bnd → Z.of_nat (length ops) < bnd → Forall op_ok ops →
  Forall notRemove ops →
  run f14_order ops (newRanking c) = Some (st, evs) →
  topNGroups_ st !! n = Some g → sessions g !! s = Some i → isPublisher st s = true → 1 <= n →
  selectedTracks i = personal n s (rankedTracks_ st).
Proof.
  intros Hd Hl Ho Hr Hrun Hg Hs Hp Hn.
  assert (publishers_ok st) as Hok.
  { eapply run_publishers_from; [by apply newRanking_wf| |..|exact Hrun]; done. }
  by apply (Hok n g Hg s i).
Qed.

(** ** Shared selection without a deselected queue

    With [maxDeselected = 0], the configuration the header declares fully
    supported, and no idle timeout. *)

Definition plain (c : Config) : Prop := maxDeselected_ c = 0 ∧ idleTimeout_ c = 0.

Definition exact_group l (n : Z) g : Prop :=
  trackStates g = gset_to_gmap Selected (topSet n l) ∧ deselectedQueue g = [].

Definition with_states g (X : gset FullTrackName) : group :=
  set_queue [] (set_states (gset_to_gmap Selected X) g).

Lemma exact_with_states l n g : exact_group l n g → g = with_states g (topSet n l).
Proof. destruct g as [m ss ts q]. intros [Ht Hq]. cbn in *. by subst. Qed.

Lemma demoteTrack_plain st f g X :
  plain (cfg st) →
  demoteTrack st f (with_states g X) =
    (with_states g (X ∖ {[f]}), evictedEvents st f g).
Proof.
  intros [Hm _]. unfold demoteTrack, trimDeselectedQueue. cbn. rewrite Hm. cbn.
  f_equal; [|by rewrite app_nil_r]. unfold with_states, set_queue, set_states. cbn. f_equal.
  rewrite delete_insert_eq. by rewrite gset_to_gmap_difference_singleton.
Qed.

Lemma demoteTrackAtRank_plain st n g X :
  plain (cfg st) →
  demoteTrackAtRank st n (with_states g X) =
    match entryAt 0 n (rankedTracks_ st) with
    | Some e => if bool_decide (ftn e ∈ X)
                then (with_states g (X ∖ {[ftn e]}), evictedEvents st (ftn e) g)
                else (with_states g X, [])
    | None => (with_states g X, [])
    end.
Proof.
  intros Hm. unfold demoteTrackAtRank. destruct (entryAt _ _ _) as [e|]; [|done].
  cbn [trackStates with_states set_queue set_states].
  case_bool_decide as Hx.
  - rewrite (proj2 (lookup_gset_to_gmap_Some _ _ _ _)) by done. by rewrite <- demoteTrack_plain.
  - by rewrite (proj2 (lookup_gset_to_gmap_None _ _ _)).
Qed.

Lemma selectTrack_plain st f g X :
  selectTrack st f (with_states g X) =
    notifyTrackSelected st f (with_states g ({[f]} ∪ X)).
Proof.
  unfold selectTrack. f_equal. unfold with_states, removeFromDeselectedQueue, set_queue, set_states.
  cbn. by rewrite gset_to_gmap_union_singleton.
Qed.

Lemma reconcilePublishers_states st n skip g X :
  (reconcilePublishers st n skip (with_states g X)).1 =
    with_states (reconcilePublishers st n skip g).1 X.
Proof. done. Qed.

Lemma notify_states st f g X :
  (notifyTrackSelected st f (with_states g X)).1 = with_states (notifyTrackSelected st f g).1 X.
Proof. done. Qed.

(** *** Callbacks seen by a viewer and by a session outside the group *)

Definition viewer st g s : Prop := is_Some (sessions g !! s) ∧ isPublisher st s = false.

Lemma forSessions_foreign (h : MoQSession → SessionInfo FullTrackName →
    SessionInfo FullTrackName * list event) ss s :
  (∀ s' i, ss !! s' = Some i → Forall (foreign s) (h s' i).2) →
  Forall (foreign s) (forSessions h ss).2.
Proof.
  intros Hh. cbn. apply Forall_forall. intros e.
  rewrite list_elem_of_join. intros (evs&He&Hin). apply list_elem_of_fmap in Hin as ([s' i]&->&Hi).
  apply elem_of_map_to_list in Hi. specialize (Hh s' i Hi). rewrite Forall_forall in Hh. by apply Hh.
Qed.

Lemma reconcilePublishers_foreign st n skip g s :
  isPublisher st s = false ∨ sessions g !! s = None →
  Forall (foreign s) (reconcilePublishers st n skip g).2.
Proof.
  intros Hs. apply forSessions_foreign. intros s' i Hi.
  destruct (isPublisher st s') eqn:Hp; cbn [andb]; [|constructor].
  case_bool_decide; [|constructor]. apply reconcile_foreign. intros ->.
  destruct Hs; congruence.
Qed.

Lemma viewerBatch_elem st g s :
  s ∈ (viewerBatch st g).*1 ↔ viewer st g s.
Proof.
  unfold viewerBatch, viewer. rewrite list_elem_of_fmap. setoid_rewrite list_elem_of_omap. split.
  - intros ([s' b]&->&[s'' i]&Hi%elem_of_map_to_list&Hx). cbn in *.
    destruct (isPublisher st s'') eqn:Hp; [done|]. injection Hx as <- <-. eauto.
  - intros [[i Hi] Hp]. exists (s, forward i). split; [done|]. exists (s, i).
    split; [by apply elem_of_map_to_list|]. cbn. by rewrite Hp.
Qed.

Lemma batchSelected_view st f batch s v :
  onBatchSelected_ (cfg st) = true →
  view s (batchSelected st f batch) v = if bool_decide (s ∈ batch.*1) then {[f]} ∪ v else v.
Proof.
  intros Hc. unfold batchSelected. rewrite Hc, andb_true_r.
  destruct (bool_decide (batch = [])) eqn:Hb; cbn; [|done].
  apply bool_decide_eq_true in Hb as ->. cbn. by rewrite bool_decide_eq_false_2 by apply not_elem_of_nil.
Qed.

Lemma evictedEvents_foreign st f g s :
  sessions g !! s = None → Forall (foreign s) (evictedEvents st f g).
Proof.
  intros Hs. unfold evictedEvents. destruct (onEvicted_ _); [|constructor].
  apply Forall_fmap, Forall_forall. intros s' ([s'' i]&->&Hi%elem_of_map_to_list)%list_elem_of_fmap.
  cbn. intros ->. congruence.
Qed.

Lemma evictedEvents_view st f g s v :
  onEvicted_ (cfg st) = true → is_Some (sessions g !! s) →
  view s (evictedEvents st f g) v = v ∖ {[f]}.
Proof.
  intros Hc [i Hi]. unfold evictedEvents. rewrite Hc.
  apply elem_of_map_to_list, (list_elem_of_fmap_2 fst) in Hi. cbn in Hi.
  assert (∀ ss v, view s ((λ s', OnEvicted f s') <$> ss) v =
            if bool_decide (s ∈ ss) then v ∖ {[f]} else v) as Hv.
  { clear. induction ss as [|s' ss IH]; intros v; [by rewrite bool_decide_eq_false_2 by apply not_elem_of_nil|].
    cbn. unfold view in IH. rewrite IH. destruct (decide (s' = s)) as [->|].
    - rewrite (bool_decide_eq_true_2 (s = s)), (bool_decide_eq_true_2 (s ∈ s :: ss)) by (done || by left).
      case_bool_decide; [set_solver|done].
    - rewrite (bool_decide_eq_false_2 (s' = s)) by done.
      destruct (decide (s ∈ ss)); [rewrite !bool_decide_eq_true_2 by (done || by right); done|].
      rewrite !bool_decide_eq_false_2; [done| |done]. rewrite elem_of_cons. naive_solver. }
  by rewrite Hv, bool_decide_eq_true_2.
Qed.

(** *** Entering and leaving the top N *)

Lemma entryAt_shift n l1 l2 x :
  Z.of_nat (length l1) < n →
  entryAt 0 n (l1 ++ x :: l2) = entryAt 0 (n - 1) (l1 ++ l2).
Proof.
  intros Hn. rewrite !entryAt_lookup by lia. f_equal. rewrite !lookup_app_r by lia.
  by replace (Z.to_nat (n - 0) - length l1)%nat with (S (Z.to_nat (n - 1 - 0) - length l1)) by lia.
Qed.

Lemma entryAt_prefix n l1 l2 x :
  0 <= n < Z.of_nat (length l1) →
  entryAt 0 n (l1 ++ x :: l2) = entryAt 0 n (l1 ++ l2).
Proof.
  intros Hn. rewrite !entryAt_lookup by lia. f_equal. by rewrite !lookup_app_l by lia.
Qed.

Lemma names_middle l1 l2 (x : RankKey * RankedEntry) :
  NoDup (names (l1 ++ x :: l2)) → NoDup (names (l1 ++ l2)) ∧ ftn x.2 ∉ names (l1 ++ l2).
Proof.
  rewrite !names_app. cbn. rewrite <- Permutation_middle, NoDup_cons. naive_solver.
Qed.

Lemma entryAt_names n l (e : RankedEntry) : 0 <= n → entryAt 0 n l = Some e → ftn e ∈ names l.
Proof.
  intros Hn. rewrite entryAt_lookup by lia. rewrite fmap_Some.
  intros (p&Hp%list_elem_of_lookup_2&->). by apply (list_elem_of_fmap_2 (λ p, ftn p.2)).
Qed.

Lemma enter_sets n l1 l2 x :
  Z.of_nat (length l1) < n → NoDup (names (l1 ++ x :: l2)) →
  match entryAt 0 n (l1 ++ x :: l2) with
  | Some e => ftn e ∈ {[ftn x.2]} ∪ topSet n (l1 ++ l2) ∧
              ({[ftn x.2]} ∪ topSet n (l1 ++ l2)) ∖ {[ftn e]} = topSet n (l1 ++ x :: l2)
  | None => {[ftn x.2]} ∪ topSet n (l1 ++ l2) = topSet n (l1 ++ x :: l2)
  end.
Proof.
  intros Hn [Hnd Hx]%names_middle. rewrite topSet_middle, (proj2 (Z.ltb_lt _ _)) by done.
  rewrite entryAt_shift by done. rewrite (topSet_pred n) by lia.
  destruct (entryAt 0 (n - 1) (l1 ++ l2)) as [e|] eqn:He; [|by rewrite union_empty_r_L].
  pose proof (topSet_entryAt_fresh (n - 1) _ e ltac:(lia) Hnd He) as Hfr.
  apply entryAt_names in He; [|lia]. assert (ftn e ≠ ftn x.2) by congruence.
  split; [set_solver|]. apply set_eq. intros f. set_solver.
Qed.

Lemma leave_sets n l1 l2 x :
  0 < n <= Z.of_nat (length l1) → NoDup (names (l1 ++ x :: l2)) →
  match entryAt 0 (n - 1) (l1 ++ x :: l2) with
  | Some e => ftn e ∉ topSet (n - 1) (l1 ++ l2) ∧
              {[ftn e]} ∪ topSet (n - 1) (l1 ++ l2) = topSet n (l1 ++ x :: l2)
  | None => topSet (n - 1) (l1 ++ l2) = topSet n (l1 ++ x :: l2)
  end.
Proof.
  intros Hn [Hnd Hx]%names_middle. rewrite topSet_middle, (proj2 (Z.ltb_ge _ _)) by lia.
  rewrite entryAt_prefix by lia. rewrite (topSet_pred n) by lia.
  destruct (entryAt 0 (n - 1) (l1 ++ l2)) as [e|] eqn:He; [|by rewrite union_empty_r_L].
  split; [apply topSet_entryAt_fresh; [lia|done|done]|]. set_solver.
Qed.

(** *** The outcome of one group step *)

Record delivered st g (r : group * list event) (X Y : gset FullTrackName) : Prop := {
  dl_exact : trackStates r.1 = gset_to_gmap Selected Y ∧ deselectedQueue r.1 = [];
  dl_view : ∀ s, viewer st g s → view s r.2 X = Y;
  dl_out : ∀ s v, sessions g !! s = None → view s r.2 v = v
}.

Lemma delivered_refl st g X :
  trackStates g = gset_to_gmap Selected X → deselectedQueue g = [] →
  delivered st g (g, []) X X.
Proof. by intros. Qed.

Lemma viewer_shape st g g' s : same_shape g g' → viewer st g s ↔ viewer st g' s.
Proof.
  intros [_ Hs]. unfold viewer. specialize (Hs s).
  destruct (sessions g !! s), (sessions g' !! s); try done; naive_solver.
Qed.

Lemma outsider_shape g g' s : same_shape g g' → sessions g !! s = None ↔ sessions g' !! s = None.
Proof. intros [_ Hs]. specialize (Hs s). by destruct (sessions g !! s), (sessions g' !! s). Qed.

Lemma delivered_trans st g r1 r2 X Y Z :
  same_shape g r1.1 →
  delivered st g r1 X Y → delivered st r1.1 r2 Y Z →
  delivered st g (r2.1, r1.2 ++ r2.2) X Z.
Proof.
  intros Hs [_ Hv1 Ho1] [He Hv2 Ho2]. constructor; [done| |].
  - intros s Hvw. cbn [snd]. rewrite view_app, Hv1 by done. apply Hv2. by apply (viewer_shape st g r1.1 s Hs).
  - intros s v Hout. cbn [snd]. rewrite view_app, Ho1 by done. apply Ho2. by apply (outsider_shape g r1.1 s Hs).
Qed.

Lemma reconcile_delivered st n skip g X :
  delivered st (with_states g X) (reconcilePublishers st n skip (with_states g X)) X X.
Proof.
  constructor; [by rewrite reconcilePublishers_states| |].
  - intros s [_ Hp]. apply view_foreign. apply reconcilePublishers_foreign. by left.
  - intros s v Hs. apply view_foreign. apply reconcilePublishers_foreign. by right.
Qed.

(** The viewer batch for [f], once the shared state marks it selected. *)
Lemma select_delivered st n skip f g gB X :
  callbacks_set (cfg st) → same_shape g gB →
  let r := reconcilePublishers st n skip (with_states g ({[f]} ∪ X)) in
  delivered st (with_states g ({[f]} ∪ X)) (r.1, r.2 ++ batchSelected st f (viewerBatch st gB))
    X ({[f]} ∪ X).
Proof.
  intros (Hc&_&_) Hsh r. destruct (reconcile_delivered st n skip g ({[f]} ∪ X)) as [_ _ Ho].
  fold r in Ho. constructor; [done| |]; cbn [snd].
  - intros s Hv. rewrite view_app.
    rewrite (view_foreign s r.2) by (apply reconcilePublishers_foreign; left; apply Hv).
    rewrite batchSelected_view by done. rewrite bool_decide_eq_true_2; [done|].
    apply viewerBatch_elem, (viewer_shape st g gB s Hsh), Hv.
  - intros s v Hs. rewrite view_app, Ho by done. rewrite batchSelected_view by done.
    rewrite bool_decide_eq_false_2; [done|]. rewrite viewerBatch_elem.
    intros [Hi _]%(viewer_shape st g gB s Hsh). cbn in Hs. rewrite Hs in Hi. by destruct Hi.
Qed.

Lemma notify_delivered st f g X :
  callbacks_set (cfg st) →
  delivered st (with_states g ({[f]} ∪ X)) (notifyTrackSelected st f (with_states g ({[f]} ∪ X)))
    X ({[f]} ∪ X).
Proof. intros Hc. by apply select_delivered. Qed.

Lemma evict_delivered st f g X :
  callbacks_set (cfg st) →
  delivered st (with_states g X) (with_states g (X ∖ {[f]}), evictedEvents st f g) X (X ∖ {[f]}).
Proof.
  intros (_&_&Hc). constructor; [done| |]; cbn [snd].
  - intros s [Hs _]. by apply evictedEvents_view.
  - intros s v Hs. apply view_foreign. by apply evictedEvents_foreign.
Qed.

Lemma delivered_sessions st g g' r X Y :
  sessions g = sessions g' → delivered st g r X Y → delivered st g' r X Y.
Proof.
  intros Hs [He Hv Ho]. constructor; [done| |].
  - intros s. unfold viewer. rewrite <- Hs. apply Hv.
  - intros s v. rewrite <- Hs. apply Ho.
Qed.

Lemma insert_with_states f g X :
  set_states (<[f := Selected]> (trackStates (with_states g X))) (with_states g X) =
  with_states g ({[f]} ∪ X).
Proof. unfold with_states, set_states, set_queue. cbn. by rewrite gset_to_gmap_union_singleton. Qed.

Section Steps.
Context (st : ranking) (n : Z) (l1 l2 : ranked) (x : RankKey * RankedEntry).
Context (Hranked : rankedTracks_ st = l1 ++ x :: l2)
  (Hplain : plain (cfg st)) (Hcb : callbacks_set (cfg st))
  (Hnames : NoDup (names (l1 ++ x :: l2))) (Hn : 0 <= n <= bnd).

(** The track that [x] pushed out of the top [n] is evicted. *)
Lemma demoteAtRank_delivered g :
  Z.of_nat (length l1) < n →
  let X := {[ftn x.2]} ∪ topSet n (l1 ++ l2) in
  delivered st (with_states g X) (demoteTrackAtRank st n (with_states g X)) X
    (topSet n (l1 ++ x :: l2)).
Proof.
  intros Hr X. rewrite demoteTrackAtRank_plain, Hranked by done.
  pose proof (enter_sets n l1 l2 x Hr Hnames) as Hen. fold X in Hen.
  destruct (entryAt _ _ _) as [e|].
  - destruct Hen as [Hin <-]. rewrite bool_decide_eq_true_2 by done. by apply evict_delivered.
  - rewrite <- Hen. by apply delivered_refl.
Qed.

(** The track that moves up to rank [n-1] is selected. *)
Lemma promoteAtRank_delivered g :
  0 < n <= Z.of_nat (length l1) →
  let X := topSet (n - 1) (l1 ++ l2) in
  delivered st (with_states g X) (promoteTrackAtRank st n (with_states g X)) X
    (topSet n (l1 ++ x :: l2)).
Proof.
  intros Hr X. unfold promoteTrackAtRank. rewrite u64_small, Hranked
    by (unfold is_u64, u64_modulus, bnd in *; lia).
  pose proof (leave_sets n l1 l2 x Hr Hnames) as Hle. fold X in Hle.
  destruct (entryAt _ _ _) as [e|].
  - destruct Hle as [Hout <-]. rewrite bool_decide_eq_false_2.
    + rewrite selectTrack_plain.
      apply (delivered_sessions _ (with_states g ({[ftn e]} ∪ X))); [done|]. by apply notify_delivered.
    + cbn. rewrite lookup_gset_to_gmap_Some. by intros [? _].
  - rewrite <- Hle. by apply delivered_refl.
Qed.

Lemma registerInGroup_delivered g :
  exact_group (l1 ++ l2) n g →
  delivered st g (registerInGroup st (ftn x.2) (Z.of_nat (length l1)) n g)
    (topSet n (l1 ++ l2)) (topSet n (l1 ++ x :: l2)).
Proof.
  intros He%exact_with_states. rewrite He. unfold registerInGroup.
  destruct (Z.ltb_spec (Z.of_nat (length l1)) n) as [Hlt|Hge].
  - cbn zeta. rewrite insert_with_states.
    apply (delivered_sessions _ (with_states g ({[ftn x.2]} ∪ topSet n (l1 ++ l2)))); [done|].
    eapply delivered_trans; [apply notifyTrackSelected_shape|by apply notify_delivered|].
    rewrite notify_states. by apply demoteAtRank_delivered.
  - rewrite topSet_middle, (proj2 (Z.ltb_ge _ _)) by done. apply reconcile_delivered.
Qed.

Lemma topSet_names_fresh m : ftn x.2 ∉ topSet m (l1 ++ l2).
Proof. intros Hx%topSet_names. by apply names_middle in Hnames as [_ ?]. Qed.
End Steps.

Lemma batchSelected_nil st f : batchSelected st f [] = [].
Proof. done. Qed.

Lemma recomputeGroup_delivered st n l1 l2 l1' l2' k k' f p g :
  rankedTracks_ st = l1' ++ (k', mkEntry f p) :: l2' → l1 ++ l2 = l1' ++ l2' →
  plain (cfg st) → callbacks_set (cfg st) →
  NoDup (names (l1' ++ (k', mkEntry f p) :: l2')) → 0 <= n <= bnd →
  exact_group (l1 ++ (k, mkEntry f p) :: l2) n g →
  delivered st g
    (recomputeGroup st f (Some p) (Z.of_nat (length l1)) (Z.of_nat (length l1')) n g)
    (topSet n (l1 ++ (k, mkEntry f p) :: l2)) (topSet n (l1' ++ (k', mkEntry f p) :: l2')).
Proof.
  intros Hl Hll Hpl Hcb Hnd Hn Hex. apply exact_with_states in Hex. rewrite Hex.
  pose proof (topSet_names_fresh l1' l2' _ Hnd) as Hfresh. cbn in Hfresh.
  assert (({[f]} ∪ topSet (n - 1) (l1' ++ l2')) ∖ {[f]} = topSet (n - 1) (l1' ++ l2')) as Hdel
    by (apply set_eq; intros f'; specialize (Hfresh (n - 1)); set_solver).
  rewrite (topSet_middle n l1 l2), Hll. cbn [ftn snd]. unfold recomputeGroup. cbv zeta.
  destruct (Z.ltb_spec (Z.of_nat (length l1)) n) as [Ho|Ho],
    (Z.ltb_spec (Z.of_nat (length l1')) n) as [Hw|Hw]; cbn [eqb negb andb fst snd app].
  - rewrite (topSet_middle n l1' l2'), (proj2 (Z.ltb_lt _ _)) by done.
    rewrite batchSelected_nil, app_nil_r. apply reconcile_delivered.
  - rewrite demoteTrack_plain by done. cbn [fst snd]. rewrite batchSelected_nil. cbn [app].
    eapply (delivered_trans _ _ (with_states g (({[f]} ∪ topSet (n - 1) (l1' ++ l2')) ∖ {[f]}), evictedEvents st f g)
      (_, (reconcilePublishers st n (Some p) _).2 ++ _)); [done|by apply evict_delivered|].
    rewrite Hdel. cbn [fst].
    eapply (delivered_trans _ _ (reconcilePublishers st n (Some p) _));
      [apply reconcilePublishers_shape|apply reconcile_delivered|].
    rewrite reconcilePublishers_states. apply (promoteAtRank_delivered st n l1' l2'); try done. lia.
  - rewrite insert_with_states, app_nil_r, app_assoc.
    change (removeFromDeselectedQueue f (with_states g ?X)) with (with_states g X).
    apply (delivered_sessions _ (with_states g ({[f]} ∪ topSet n (l1' ++ l2')))); [done|].
    eapply (delivered_trans _ _ (_, (reconcilePublishers st n (Some p) _).2 ++ _));
      [apply reconcilePublishers_shape|apply select_delivered; [done|]|].
    + etrans; [|apply reconcilePublishers_shape]. done.
    + cbn [fst]. rewrite reconcilePublishers_states.
      by apply (demoteAtRank_delivered st n l1' l2' (k', mkEntry f p)).
  - rewrite (topSet_middle n l1' l2'), (proj2 (Z.ltb_ge _ _)) by done.
    rewrite batchSelected_nil, app_nil_r. apply reconcile_delivered.
Qed.

Lemma promoteLoop_skip st (pre post : ranked) f g X :
  f ∉ names (pre ++ post) → (∀ f', f' ∈ names pre → f' ∈ X) →
  promoteLoop st (pre ++ post) f (with_states g X) = promoteLoop st post f (with_states g X).
Proof.
  induction pre as [|[k e] pre IH]; intros Hf HX; [done|]. cbn [app promoteLoop].
  cbn in Hf. apply not_elem_of_cons in Hf as [Hne Hf].
  rewrite bool_decide_eq_false_2 by congruence.
  rewrite bool_decide_eq_true_2; [apply IH; [done|intros; apply HX; by right]|].
  cbn. apply lookup_gset_to_gmap_Some. split; [|done]. apply HX. by left.
Qed.

(** With the top [m] selected, the next available track is the one at rank [m]. *)
Lemma promoteNext_plain st f g m :
  0 <= m → NoDup (names (rankedTracks_ st)) → f ∉ names (rankedTracks_ st) →
  let X := topSet m (rankedTracks_ st) in
  promoteNextAvailableTrack st f (with_states g X) =
    match entryAt 0 m (rankedTracks_ st) with
    | Some e => selectTrack st (ftn e) (with_states g X)
    | None => (with_states g X, [])
    end.
Proof.
  intros Hm Hnd Hf X. unfold promoteNextAvailableTrack. set (l := rankedTracks_ st) in *.
  rewrite <- (take_drop (Z.to_nat m) l) at 1.
  rewrite promoteLoop_skip; [|by rewrite take_drop|].
  2:{ intros f' Hf'. unfold X, topSet. apply elem_of_list_to_set.
      unfold names in *. by rewrite <- fmap_take. }
  destruct (entryAt 0 m l) as [e|] eqn:He.
  - pose proof (topSet_entryAt_fresh m l e Hm Hnd He) as Hfr.
    pose proof (entryAt_names m l e Hm He) as Hen.
    rewrite entryAt_lookup, Z.sub_0_r in He by lia. apply fmap_Some in He as ([k e']&Hl&->).
    rewrite (drop_S _ _ _ Hl). cbn [promoteLoop snd] in *.
    rewrite bool_decide_eq_false_2 by (intros <-; done).
    rewrite bool_decide_eq_false_2; [done|]. cbn. rewrite lookup_gset_to_gmap_Some. by intros [? _].
  - rewrite entryAt_lookup, Z.sub_0_r in He by lia. apply fmap_None in He.
    by rewrite drop_ge by by apply lookup_ge_None_1.
Qed.

(** The removed track itself ends with its publication, not with a callback. *)
Lemma removeInGroup_delivered st n l1 l2 x g :
  rankedTracks_ st = l1 ++ l2 → callbacks_set (cfg st) →
  NoDup (names (l1 ++ x :: l2)) →
  exact_group (l1 ++ x :: l2) n g →
  delivered st g (removeInGroup st (ftn x.2) n g)
    (topSet n (l1 ++ x :: l2) ∖ {[ftn x.2]}) (topSet n (l1 ++ l2)).
Proof.
  intros Hl Hcb Hnd Hex%exact_with_states. rewrite Hex.
  pose proof (topSet_names_fresh l1 l2 x Hnd) as Hfresh.
  apply names_middle in Hnd as [Hnd Hx]. rewrite !topSet_middle. unfold removeInGroup.
  destruct (Z.ltb_spec (Z.of_nat (length l1)) n) as [Hlt|Hge]; cbn [trackStates with_states set_queue set_states].
  - rewrite (proj2 (lookup_gset_to_gmap_Some _ _ _ _)) by (split; [set_solver|reflexivity]).
    match goal with |- context [removeFromDeselectedQueue ?f ?g0] =>
      replace (removeFromDeselectedQueue f g0) with (with_states g (topSet (n - 1) (rankedTracks_ st))) end.
    2:{ unfold with_states, removeFromDeselectedQueue, set_states, set_queue. cbn. f_equal.
        rewrite <- gset_to_gmap_difference_singleton, Hl. f_equal. apply set_eq. intros f.
        specialize (Hfresh (n - 1)). set_solver. }
    cbn [deselectedQueue with_states set_queue]. rewrite promoteNext_plain by (try lia; by rewrite Hl).
    rewrite Hl. rewrite (topSet_pred n) by lia.
    replace (({[ftn x.2]} ∪ topSet (n - 1) (l1 ++ l2)) ∖ {[ftn x.2]}) with (topSet (n - 1) (l1 ++ l2))
      by (apply set_eq; intros f; specialize (Hfresh (n - 1)); set_solver).
    destruct (entryAt _ _ _) as [e|]; [|rewrite union_empty_r_L].
    + rewrite selectTrack_plain, (union_comm_L (topSet _ _)).
      apply (delivered_sessions _ (with_states g ({[ftn e]} ∪ topSet (n - 1) (l1 ++ l2)))); [done|].
      by apply notify_delivered.
    + by apply (delivered_sessions _ (with_states g (topSet (n - 1) (l1 ++ l2)))), delivered_refl.
  - specialize (Hfresh n). rewrite (proj2 (lookup_gset_to_gmap_None _ _ _)) by done.
    replace (topSet n (l1 ++ l2) ∖ {[ftn x.2]}) with (topSet n (l1 ++ l2)) by set_solver.
    by apply delivered_refl.
Qed.

(** ** The shared selection over whole runs *)

Definition selection_ok st : Prop :=
  ∀ n g, topNGroups_ st !! n = Some g → exact_group (rankedTracks_ st) n g.

(** [s] is a viewer of the group with limit [n] and of no other. *)
Definition sole_viewer st (n : Z) s : Prop :=
  isPublisher st s = false ∧
  is_Some (topNGroups_ st !! n) ∧
  ∀ n' g, topNGroups_ st !! n' = Some g → is_Some (sessions g !! s) ↔ n' = n.

Lemma view_join s (h : Z → group → list event) (L : list (Z * group)) n g v :
  NoDup L.*1 → (n, g) ∈ L →
  (∀ n' g' w, (n', g') ∈ L → n' ≠ n → view s (h n' g') w = w) →
  view s (mjoin ((λ p, h p.1 p.2) <$> L)) v = view s (h n g) v.
Proof.
  intros Hnd. revert v. induction L as [|[n' g'] L IH]; intros v Hin Hout; [by apply elem_of_nil in Hin|].
  cbn [fmap list_fmap] in Hnd |- *. cbn [mjoin list_join fst snd].
  apply NoDup_cons in Hnd as [Hn' Hnd]. rewrite view_app.
  apply elem_of_cons in Hin as [[= <- <-]|Hin].
  - clear IH. generalize (view s (h n g) v). clear v.
    induction L as [|[n1 g1] L IH]; intros v; [done|]. cbn [fmap list_fmap mjoin list_join fst snd].
    rewrite view_app, Hout; [|by right; left|intros ->; apply Hn'; by left]. apply IH.
    + cbn in Hn'. apply not_elem_of_cons in Hn' as [_ ?]. done.
    + by apply NoDup_cons in Hnd as [_ ?].
    + intros n2 g2 w [Hx|Hx]%elem_of_cons; apply Hout; [rewrite Hx; by left|by right; right].
  - rewrite Hout; [|by left|]. { apply IH; [done|done|]. intros. apply Hout; [by right|done]. }
    intros ->. apply Hn'. by apply (list_elem_of_fmap_2 fst) in Hin.
Qed.

Lemma forGroups_view st (h : Z → group → group * list event) n s X Y :
  sole_viewer st n s →
  (∀ n' g, topNGroups_ st !! n' = Some g → delivered st g (h n' g) (X n') (Y n')) →
  view s (forGroups h (topNGroups_ st)).2 (X n) = Y n.
Proof.
  intros (Hp&[g Hg]&Hsole) Hh. unfold forGroups. cbn [snd]. rewrite (view_join s (λ n g, (h n g).2) _ n g).
  - apply (dl_view _ _ _ _ _ (Hh n g Hg)). split; [by apply (Hsole n g)|done].
  - apply NoDup_fst_map_to_list.
  - by apply elem_of_map_to_list.
  - intros n' g' w Hg'%elem_of_map_to_list Hne. apply (dl_out _ _ _ _ _ (Hh n' g' Hg')).
    destruct (sessions g' !! s) eqn:Hs; [|done]. exfalso. apply Hne, (Hsole n' g' Hg'). eauto.
Qed.

Lemma forGroups_selection st (h : Z → group → group * list event) X :
  (∀ n g, topNGroups_ st !! n = Some g →
     delivered st g (h n g) (X n) (topSet n (rankedTracks_ st))) →
  selection_ok (set_groups (forGroups h (topNGroups_ st)).1 st).
Proof.
  intros Hh n g'. cbn [topNGroups_ set_groups rankedTracks_]. rewrite forGroups_lookup, fmap_Some.
  intros (g&Hg&->). apply (dl_exact _ _ _ _ _ (Hh n g Hg)).
Qed.

(** Steps that keep the shape of the groups keep sole viewers. *)
Lemma sole_viewer_forGroups st st' (h : Z → group → group * list event) n s :
  (∀ n g, same_shape g (h n g).1) → isPublisher st' s = false →
  topNGroups_ st' = (forGroups h (topNGroups_ st)).1 →
  sole_viewer st n s → sole_viewer st' n s.
Proof.
  intros Hh Hp' Hgs (_&[g Hg]&Hsole). split; [done|]. rewrite Hgs. split.
  - rewrite forGroups_lookup, Hg. eauto.
  - intros n' g'. rewrite forGroups_lookup, fmap_Some. intros (g0&Hg0&->).
    rewrite <- (Hsole n' g0 Hg0). destruct (Hh n' g0) as [_ Hs]. specialize (Hs s).
    destruct (sessions (h n' g0).1 !! s), (sessions g0 !! s); naive_solver.
Qed.

Lemma reconcileInGroup_delivered st p n g X :
  trackStates g = gset_to_gmap Selected X → deselectedQueue g = [] →
  isPublisher st p = true →
  delivered st g (reconcileInGroup st p n g) X X.
Proof.
  intros Ht Hq Hp. unfold reconcileInGroup. destruct (sessions g !! p) as [i|] eqn:Hi; [|by apply delivered_refl].
  constructor; [done| |]; cbn [snd].
  - intros s [_ Hs]. apply view_foreign, reconcile_foreign. congruence.
  - intros s v Hs. apply view_foreign, reconcile_foreign. congruence.
Qed.

#[local] Abbreviation op := (Op (FullTrackName:=FullTrackName) (MoQSession:=MoQSession)).

(** Operations that leave the viewer [s] of the group [n] a viewer of it. *)
Definition keeps (n : Z) s (o : op) : Prop :=
  match o with
  | ORegisterTrack _ _ p => p ≠ s
  | OAddSession _ s' _ | ORemoveSession _ s' => s' ≠ s
  | ORemoveTopNGroup n' => n' ≠ n
  | _ => True
  end.

(** A removed track ends for every session. *)
Definition ended (o : op) v : gset FullTrackName :=
  match o with ORemoveTrack f => v ∖ {[f]} | _ => v end.

Definition step_delivers st o st' (evs : list event) : Prop :=
  selection_ok st' ∧
  ∀ n s, sole_viewer st n s → keeps n s o →
    sole_viewer st' n s ∧
    view s evs (ended o (topSet n (rankedTracks_ st))) = topSet n (rankedTracks_ st').

Lemma notPublisher_add st st' l1 l2 k f p s :
  core st → core st' → rankedTracks_ st = l1 ++ l2 →
  rankedTracks_ st' = l1 ++ (k, mkEntry f p) :: l2 → p ≠ s →
  isPublisher st s = false → isPublisher st' s = false.
Proof.
  intros Hc Hc' Hl Hl' Hne. rewrite <- !not_true_iff_false.
  rewrite (isPublisher_spec st s Hc), (isPublisher_spec st' s Hc'), Hl, Hl', selfCount_middle.
  cbn. rewrite bool_decide_eq_false_2 by done. by rewrite Z.add_0_r.
Qed.

Lemma notPublisher_del st st' l1 l2 k f p s :
  core st → core st' → rankedTracks_ st = l1 ++ (k, mkEntry f p) :: l2 →
  rankedTracks_ st' = l1 ++ l2 →
  isPublisher st s = false → isPublisher st' s = false.
Proof.
  intros Hc Hc' Hl Hl'. rewrite <- !not_true_iff_false.
  rewrite (isPublisher_spec st s Hc), (isPublisher_spec st' s Hc'), Hl, Hl', selfCount_middle.
  intros Hx Hy. apply Hx. destruct (bool_decide _); lia.
Qed.

(** The two group loops of [registerTrack] and what each of them delivers. *)
Lemma registerTrack_loops st f ov p :
  wf st → plain (cfg st) → callbacks_set (cfg st) → selection_ok st → 0 <= nextSeq_ st < bnd →
  trackIndexByName_ st !! f = None →
  ∃ st1 l1 l2 k,
    let st2 := set_groups (forGroups (reconcileInGroup st1 p) (topNGroups_ st1)).1 st1 in
    let h := registerInGroup st2 f (Z.of_nat (length l1)) in
    rankedTracks_ st = l1 ++ l2 ∧ rankedTracks_ st1 = l1 ++ (k, mkEntry f p) :: l2 ∧
    wf st1 ∧ topNGroups_ st1 = topNGroups_ st ∧
    registerTrack f ov (Some p) st =
      Some (set_groups (forGroups h (topNGroups_ st2)).1 st2,
            (forGroups (reconcileInGroup st1 p) (topNGroups_ st1)).2 ++
            (forGroups h (topNGroups_ st2)).2) ∧
    (∀ n g, topNGroups_ st1 !! n = Some g →
       delivered st1 g (reconcileInGroup st1 p n g) (topSet n (l1 ++ l2)) (topSet n (l1 ++ l2))) ∧
    (∀ n g, topNGroups_ st2 !! n = Some g →
       delivered st2 g (h n g) (topSet n (l1 ++ l2)) (topSet n (rankedTracks_ st2))).
Proof.
  intros Hwf Hpl Hcb Hok Hb Hf. unfold registerTrack. rewrite Hf.
  destruct (insertTrack_spec st f (default 0 ov) p Hwf Hf Hb)
    as (st1&l1&l2&->&Hl&Hl1&Hwf1&Hg1&Hcfg1&_).
  eexists st1, l1, l2, _. split; [exact Hl|]. split; [exact Hl1|]. split; [done|]. split; [done|].
  split; [done|].
  assert (isPublisher st1 p = true) as Hp1.
  { apply isPublisher_spec; [apply Hwf1|]. rewrite Hl1, selfCount_middle. cbn.
    rewrite bool_decide_eq_true_2 by done. pose proof (selfCount_range p (l1 ++ l2)). lia. }
  assert (∀ n g, topNGroups_ st1 !! n = Some g → exact_group (l1 ++ l2) n g) as Hex
    by (intros n g Hg; rewrite <- Hl; apply Hok; by rewrite <- Hg1).
  split.
  - intros n g Hg. destruct (Hex n g Hg). by apply reconcileInGroup_delivered.
  - intros n g Hg. cbn [topNGroups_ set_groups] in Hg. rewrite forGroups_lookup, fmap_Some in Hg.
    destruct Hg as (g0&Hg0&->). cbn [rankedTracks_ set_groups]. rewrite Hl1.
    eapply (registerInGroup_delivered (set_groups (forGroups (reconcileInGroup st1 p) (topNGroups_ st1)).1 st1)
              n l1 l2 (_, mkEntry f p)); [exact Hl1|by cbn; rewrite Hcfg1..| |].
    + rewrite <- Hl1. eapply core_of_names. apply Hwf1.
    + destruct (Hex n g0 Hg0). by eapply reconcileInGroup_delivered.
Qed.

Lemma registerTrack_delivers st f ov p st' evs :
  wf st → plain (cfg st) → callbacks_set (cfg st) → selection_ok st → 0 <= nextSeq_ st < bnd →
  registerTrack f ov (Some p) st = Some (st', evs) →
  step_delivers st (ORegisterTrack f ov p) st' evs.
Proof.
  intros Hwf Hpl Hcb Hok Hb. destruct (trackIndexByName_ st !! f) eqn:Hf.
  { unfold registerTrack. rewrite Hf. by intros [= <- <-]. }
  destruct (registerTrack_loops st f ov p Hwf Hpl Hcb Hok Hb Hf)
    as (st1&l1&l2&k&Hl&Hl1&Hwf1&Hg1&->&D1&D2).
  set (h1 := reconcileInGroup st1 p) in *.
  set (st2 := set_groups (forGroups h1 (topNGroups_ st1)).1 st1) in *.
  set (h2 := registerInGroup st2 f _) in *. intros [= <- <-].
  split; [exact (forGroups_selection st2 h2 (λ n, topSet n (l1 ++ l2)) D2)|].
  intros n s Hs Hk. cbn in Hk.
  assert (isPublisher st1 s = false) as Hs1
    by (eapply (notPublisher_add st st1); [apply Hwf|apply Hwf1|exact Hl|exact Hl1|done|apply Hs]).
  assert (sole_viewer st1 n s) as Hv1 by (destruct Hs as (_&?&?); split; [done|by rewrite Hg1]).
  assert (sole_viewer st2 n s) as Hv2
    by (apply (sole_viewer_forGroups st1 st2 h1); [apply reconcileInGroup_shape|done|done|done]).
  split; [apply (sole_viewer_forGroups st2 _ h2); [apply registerInGroup_shape|done|done|done]|].
  rewrite view_app. cbn [ended]. rewrite Hl.
  change (view s (forGroups h2 (topNGroups_ st2)).2
    (view s (forGroups h1 (topNGroups_ st1)).2 (topSet n (l1 ++ l2))) = topSet n (rankedTracks_ st2)).
  rewrite (forGroups_view st1 h1 n s (λ n, topSet n (l1 ++ l2)) (λ n, topSet n (l1 ++ l2)) Hv1 D1).
  apply (forGroups_view st2 h2 n s (λ n, topSet n (l1 ++ l2)) (λ n, topSet n (rankedTracks_ st2)) Hv2 D2).
Qed.

Lemma sweepIdle_plain st now gla :
  plain (cfg st) → sweepIdle f14_order now gla st = (st, []).
Proof. intros [_ Hi]. unfold sweepIdle. by rewrite Hi. Qed.

Lemma sole_viewer_same st st' n s :
  topNGroups_ st' = topNGroups_ st → isPublisher st' s = isPublisher st s →
  sole_viewer st n s → sole_viewer st' n s.
Proof. unfold sole_viewer. by intros -> ->. Qed.

Lemma updateSortValue_delivers st now gla f x st' evs :
  wf st → plain (cfg st) → callbacks_set (cfg st) → selection_ok st → nextSeq_ st <= bnd →
  updateSortValue f14_order now gla f x st = Some (st', evs) →
  step_delivers st (OUpdateSortValue now gla f x) st' evs.
Proof.
  intros Hwf Hpl Hcb Hok Hb. destruct (trackIndexByName_ st !! f) as [ri|] eqn:Hri.
  2:{ unfold updateSortValue. rewrite Hri. by intros [= <- <-]. }
  destruct (decide (x = rvalue (rankIter ri))) as [->|Hv].
  { unfold updateSortValue. rewrite Hri.
    destruct (indexed_node st f ri) as (?&?&?&_&->&_); [apply Hwf|done|].
    rewrite Z.eqb_refl. by intros [= <- <-]. }
  destruct (updateSortValue_cases f14_order st now gla f ri x Hwf Hri Hv)
    as (st1&l1&l2&l1'&l2'&p&Hl&Hl1&Hll&Hwf1&Hg1&Hcfg&Hseq&Hcnt&_&->).
  assert (∀ s, isPublisher st1 s = isPublisher st s) as Hpub by (intros; by apply isPublisher_counts).
  destruct (crossesThreshold _ _ _) eqn:Hx.
  - rewrite sweepIdle_plain by by cbn; rewrite Hcfg. cbn [fst snd]. rewrite app_nil_r.
    set (h := recomputeGroup _ _ _ _ _). intros Heq.
    assert (∀ n g, topNGroups_ st1 !! n = Some g →
      delivered st1 g (h n g) (topSet n (rankedTracks_ st)) (topSet n (rankedTracks_ st1))) as D.
    { intros n g Hg. rewrite Hl, Hl1.
      apply (recomputeGroup_delivered st1 n l1 l2 l1' l2' (rankIter ri)); rewrite ?Hcfg; try done.
      - rewrite <- Hl1. eapply core_of_names. apply Hwf1.
      - by apply (thr_group _ _ _ _ _ _ (proj2 Hwf1)) in Hg as [? _].
      - rewrite <- Hl. apply Hok. by rewrite <- Hg1. }
    assert (st' = set_groups (forGroups h (topNGroups_ st1)).1 st1 ∧
            evs = (forGroups h (topNGroups_ st1)).2) as [-> ->] by (by injection Heq as <- <-).
    split; [exact (forGroups_selection st1 h (λ n, topSet n (rankedTracks_ st)) D)|].
    intros n s Hs _. apply (sole_viewer_same st st1) in Hs; [|done|done].
    split; [apply (sole_viewer_forGroups st1 _ h); [apply recomputeGroup_shape|apply Hs|done|done]|].
    exact (forGroups_view st1 h n s (λ n, topSet n (rankedTracks_ st))
             (λ n, topSet n (rankedTracks_ st1)) Hs D).
  - intros [= <- <-].
    assert (∀ n g, topNGroups_ st1 !! n = Some g →
              topSet n (rankedTracks_ st1) = topSet n (rankedTracks_ st)) as Hsame.
    { intros n g Hg.
      destruct (crossesThreshold_false st1 _ _ Hwf1 ltac:(by rewrite Hseq) Hx n g Hg) as [Hiff _].
      rewrite Hl, Hl1, !topSet_middle, Hll. cbn [ftn snd]. zcases; try done; lia. }
    split.
    + intros n g Hg. unfold exact_group. rewrite (Hsame n g Hg). apply Hok. by rewrite <- Hg1.
    + intros n s Hs _. apply (sole_viewer_same st st1) in Hs; [|done|done].
      split; [done|]. destruct Hs as (_&[g Hg]&_). symmetry. by eapply Hsame.
Qed.

Lemma removeTrack_delivers st f st' evs :
  wf st → plain (cfg st) → callbacks_set (cfg st) → selection_ok st → nextSeq_ st <= bnd →
  removeTrack f st = Some (st', evs) → step_delivers st (ORemoveTrack f) st' evs.
Proof.
  intros Hwf Hpl Hcb Hok Hb. unfold removeTrack.
  destruct (trackIndexByName_ st !! f) as [ri|] eqn:Hri.
  2:{ intros [= <- <-]. split; [done|]. intros n s Hs _. split; [done|]. cbn.
      assert (f ∉ topSet n (rankedTracks_ st)); [|set_solver]. intros Hin%topSet_names.
      apply (core_of_indexed _ _ _ _ _ f (proj1 Hwf)) in Hin. rewrite Hri in Hin. by destruct Hin. }
  destruct (eraseTrack_spec st f ri Hwf Hri Hb) as (st1&l1&l2&p&Hd&He&Hl&Hl1&Hwf1&Hg1&Hcfg&_).
  cbn zeta. rewrite Hd. cbn [publisherRaw]. rewrite He.
  set (h := removeInGroup st1 f). intros Heq.
  assert (∀ n g, topNGroups_ st1 !! n = Some g →
    delivered st1 g (h n g) (topSet n (rankedTracks_ st) ∖ {[f]}) (topSet n (rankedTracks_ st1))) as D.
  { intros n g Hg. rewrite Hl, Hl1.
    apply (removeInGroup_delivered st1 n l1 l2 (rankIter ri, mkEntry f p)); rewrite ?Hcfg; try done.
    - rewrite <- Hl. eapply core_of_names. apply Hwf.
    - rewrite <- Hl. apply Hok. by rewrite <- Hg1. }
  assert (st' = set_groups (forGroups h (topNGroups_ st1)).1 st1 ∧
          evs = (forGroups h (topNGroups_ st1)).2) as [-> ->] by (by injection Heq as <- <-).
  split; [exact (forGroups_selection st1 h (λ n, topSet n (rankedTracks_ st) ∖ {[f]}) D)|].
  intros n s Hs _.
  assert (sole_viewer st1 n s) as Hs1.
  { destruct Hs as (Hp&?&?). split; [|by rewrite Hg1].
    by eapply (notPublisher_del st st1); [apply Hwf|apply Hwf1|exact Hl|exact Hl1|]. }
  split; [apply (sole_viewer_forGroups st1 _ h); [apply removeInGroup_shape|apply Hs1|done|done]|].
  exact (forGroups_view st1 h n s (λ n, topSet n (rankedTracks_ st) ∖ {[f]})
           (λ n, topSet n (rankedTracks_ st1)) Hs1 D).
Qed.

Lemma foldl_select (fs : list FullTrackName) X :
  foldl (λ m f, <[f := Selected]> m) (gset_to_gmap Selected X) fs =
  gset_to_gmap Selected (X ∪ list_to_set fs).
Proof.
  revert X. induction fs as [|f fs IH]; intros X; cbn; [by rewrite union_empty_r_L|].
  rewrite <- gset_to_gmap_union_singleton, IH. f_equal. set_solver.
Qed.

Lemma getOrCreate_selection n st :
  selection_ok st → selection_ok (getOrCreateTopNGroup n st).
Proof.
  intros Hok. unfold getOrCreateTopNGroup. destruct (topNGroups_ st !! n); [done|].
  intros n' g'. cbn -[foldl tracksBelow]. rewrite insert_insert_eq, lookup_insert_Some.
  intros [[<- <-]|[_ Hg]]; [|by apply Hok]. split; [|done]. cbn [trackStates].
  rewrite <- (gset_to_gmap_empty Selected), foldl_select, union_empty_l_L. by rewrite topSet_tracksBelow.
Qed.

Lemma getOrCreate_frame n st :
  rankedTracks_ (getOrCreateTopNGroup n st) = rankedTracks_ st ∧
  publisherTrackCount_ (getOrCreateTopNGroup n st) = publisherTrackCount_ st ∧
  cfg (getOrCreateTopNGroup n st) = cfg st ∧
  (∀ n' g, topNGroups_ st !! n' = Some g → topNGroups_ (getOrCreateTopNGroup n st) !! n' = Some g) ∧
  (∀ n' g s, topNGroups_ (getOrCreateTopNGroup n st) !! n' = Some g → is_Some (sessions g !! s) →
     topNGroups_ st !! n' = Some g).
Proof.
  unfold getOrCreateTopNGroup. destruct (topNGroups_ st !! n) as [g0|] eqn:Hg0.
  { split_and!; done. }
  split_and!; [done..| |].
  - intros n' g Hg. cbn. rewrite insert_insert_eq. rewrite lookup_insert_ne by congruence. done.
  - intros n' g s. cbn. rewrite insert_insert_eq, lookup_insert_Some.
    intros [[<- <-]|[_ Hg]]; [|done]. cbn. rewrite lookup_empty. by intros [??].
Qed.

Lemma getOrCreate_sole n st n' s :
  sole_viewer st n' s → sole_viewer (getOrCreateTopNGroup n st) n' s.
Proof.
  destruct (getOrCreate_frame n st) as (_&Hc&_&Hold&Hnew). intros (Hp&[g Hg]&Hs).
  split; [by rewrite (isPublisher_counts st)|]. split; [eauto|].
  intros n1 g1 Hg1. split.
  - intros Hi. apply (Hs n1 g1); [by eapply Hnew|done].
  - intros ->. rewrite (Hold n' g Hg) in Hg1. injection Hg1 as <-. by apply (Hs n' g Hg).
Qed.

(** Replacing one group, without touching the viewer [s]. *)
Lemma sole_viewer_set st st' n0 g0 g0' n s :
  topNGroups_ st !! n0 = Some g0 →
  topNGroups_ st' = <[n0 := g0']> (topNGroups_ st) →
  publisherTrackCount_ st' = publisherTrackCount_ st →
  (is_Some (sessions g0' !! s) ↔ is_Some (sessions g0 !! s)) →
  sole_viewer st n s → sole_viewer st' n s.
Proof.
  intros Hg0 Hgs Hc Hiff (Hp&[g Hg]&Hs). split; [by rewrite (isPublisher_counts st)|].
  rewrite Hgs. split.
  - destruct (decide (n = n0)) as [->|]; [rewrite lookup_insert_eq|rewrite lookup_insert_ne by done]; eauto.
  - intros n1 g1. rewrite lookup_insert_Some. intros [[<- <-]|[_ Hg1]]; [|by apply Hs].
    rewrite Hiff. by apply Hs.
Qed.

Lemma addSession_delivers st m s0 fwd :
  wf st → selection_ok st → 0 <= m <= bnd →
  step_delivers st (OAddSession m s0 fwd) (addSessionToTopNGroup m s0 fwd st).1
    (addSessionToTopNGroup m s0 fwd st).2.
Proof.
  intros Hwf Hok Hm. pose proof (getOrCreate_selection m st Hok) as Hok0.
  destruct (addSession_frame st m s0 fwd) as (_&_&Hl&_).
  destruct (getOrCreate_frame m st) as (Hl0&_).
  unfold step_delivers. rewrite Hl. unfold addSessionToTopNGroup.
  pose proof (λ n s, getOrCreate_sole m st n s) as Hsole.
  set (st0 := getOrCreateTopNGroup m st) in *.
  destruct (topNGroups_ st0 !! m) as [g|] eqn:Hg; [|split; [done|]; intros; by split; [apply Hsole|]].
  cbn zeta.
  assert (∀ st1 g', topNGroups_ st1 = <[m := g']> (topNGroups_ st0) →
            rankedTracks_ st1 = rankedTracks_ st0 →
            trackStates g' = trackStates g → deselectedQueue g' = deselectedQueue g →
            selection_ok st1) as Hsel.
  { intros st1 g' Hgs Hr Ht Hq n g1. rewrite Hgs, lookup_insert_Some. unfold exact_group. rewrite Hr.
    intros [[<- <-]|[_ Hg1]]; [|by apply Hok0]. rewrite Ht, Hq. by apply Hok0. }
  destruct (isPublisher _ s0); cbn [fst snd]; split.
  - eapply Hsel; [cbn [topNGroups_ set_groups updatePublisherExtendedThreshold set_thresholds];
      by rewrite insert_insert_eq|done..].
  - intros n s Hs Hk. cbn in Hk. split.
    + eapply (sole_viewer_set st0 _ m g); [done| |done| |by apply Hsole].
      * cbn [topNGroups_ set_groups updatePublisherExtendedThreshold set_thresholds].
        by rewrite insert_insert_eq.
      * cbn. by rewrite !lookup_insert_ne.
    + apply view_foreign, reconcile_foreign. congruence.
  - by eapply Hsel.
  - intros n s Hs Hk. cbn in Hk. split.
    + eapply (sole_viewer_set st0 _ m g); [done|done|done| |by apply Hsole]. cbn. by rewrite lookup_insert_ne.
    + apply view_foreign. destruct (onSelected_ _); [|constructor].
      apply Forall_fmap, Forall_forall. cbn. congruence.
Qed.

Lemma removeTopNGroup_delivers st m :
  selection_ok st → step_delivers st (ORemoveTopNGroup m) (removeTopNGroup m st) [].
Proof.
  intros Hok. split.
  - intros n g. cbn. rewrite lookup_delete_Some. intros [_ Hg]. by apply Hok.
  - intros n s (Hp&[g Hg]&Hs) Hk. cbn in Hk. split; [|done]. split; [done|]. cbn. split.
    + rewrite lookup_delete_ne by done. eauto.
    + intros n' g' [_ Hg']%lookup_delete_Some. by apply Hs.
Qed.

Lemma removeSession_delivers st m s0 :
  selection_ok st → step_delivers st (ORemoveSession m s0) (removeSessionFromTopNGroup m s0 st) [].
Proof.
  intros Hok. unfold removeSessionFromTopNGroup.
  destruct (topNGroups_ st !! m) as [g|] eqn:Hg; [|done]. cbn zeta.
  set (st1 := set_groups (<[m := set_sessions (delete s0 (sessions g)) g]> (topNGroups_ st)) st).
  assert (step_delivers st (ORemoveSession m s0) st1 []) as [Hok1 Hv1].
  { split.
    - intros n g'. cbn. rewrite lookup_insert_Some. intros [[<- <-]|[_ Hg']]; [exact (Hok m g Hg)|by apply Hok].
    - intros n s Hs Hk. cbn in Hk. split; [|done].
      apply (sole_viewer_set st st1 m g _ n s Hg eq_refl eq_refl); [|done].
      cbn. by rewrite lookup_delete_ne. }
  set (b := bool_decide _). destruct b eqn:Hb; unfold b in Hb.
  - apply bool_decide_eq_true in Hb. destruct (removeTopNGroup_delivers st1 m Hok1) as [Hok2 Hv2].
    assert (step_delivers st (ORemoveSession m s0) (removeTopNGroup m st1) []) as Hd.
    { split; [done|]. intros n s Hs Hk. destruct (Hv1 n s Hs Hk) as [Hs1 _]. apply Hv2; [done|].
      cbn. intros <-. destruct Hs1 as (_&_&Hs1).
      specialize (Hs1 m _ (lookup_insert_eq _ _ _)). cbn in Hb, Hs1. rewrite Hb, lookup_empty in Hs1.
      by destruct (proj2 Hs1 eq_refl). }
    destruct (isPublisher st s0); exact Hd.
  - destruct (isPublisher st s0); exact (conj Hok1 Hv1).
Qed.

Lemma updateForward_delivers st m s0 fwd :
  selection_ok st → step_delivers st (OUpdateForward m s0 fwd) (updateSessionForward m s0 fwd st) [].
Proof.
  intros Hok. unfold updateSessionForward.
  destruct (topNGroups_ st !! m) as [g|] eqn:Hg; [|done].
  destruct (sessions g !! s0) as [i|] eqn:Hi; [|done]. split.
  - intros n g'. cbn. rewrite lookup_insert_Some. intros [[<- <-]|[_ Hg']]; [exact (Hok m g Hg)|by apply Hok].
  - intros n s Hs _. split; [|done]. eapply (sole_viewer_set st _ m g _ n s Hg); [done|done| |done].
    cbn. destruct (decide (s = s0)) as [->|]; [|by rewrite lookup_insert_ne].
    rewrite lookup_insert_eq, Hi. split; eauto.
Qed.

Lemma step_delivers_ok o st st' evs :
  wf st → plain (cfg st) → callbacks_set (cfg st) → selection_ok st → 0 <= nextSeq_ st < bnd →
  op_ok o → stepOp f14_order o st = Some (st', evs) → step_delivers st o st' evs.
Proof.
  intros Hwf Hpl Hcb Hok Hb Ho.
  destruct o as [f ov p|now gla f x|f|n|n|n s fwd|n s|n s fwd|now gla]; cbn [stepOp op_ok] in *.
  - by apply registerTrack_delivers.
  - apply updateSortValue_delivers; [done..|lia].
  - apply removeTrack_delivers; [done..|lia].
  - intros [= <- <-]. destruct (getOrCreate_frame n st) as (Hl&_). split; [by apply getOrCreate_selection|].
    intros n' s Hs _. rewrite Hl. split; [by apply getOrCreate_sole|done].
  - intros [= <- <-]. by apply removeTopNGroup_delivers.
  - intros [= He]. pose proof (addSession_delivers st n s fwd Hwf Hok Ho) as Hd. by rewrite He in Hd.
  - intros [= <- <-]. by apply removeSession_delivers.
  - intros [= <- <-]. by apply updateForward_delivers.
  - rewrite sweepIdle_plain by done. by intros [= <- <-].
Qed.

(** A viewer that joins is sent the current top [n]. *)
Lemma addSession_joins st n s fwd :
  wf st → callbacks_set (cfg st) → selection_ok st → 0 <= n <= bnd →
  isPublisher st s = false →
  (∀ n' g, topNGroups_ st !! n' = Some g → sessions g !! s = None) →
  sole_viewer (addSessionToTopNGroup n s fwd st).1 n s ∧
  view s (addSessionToTopNGroup n s fwd st).2 ∅ =
    topSet n (rankedTracks_ (addSessionToTopNGroup n s fwd st).1).
Proof.
  intros Hwf (_&Hcb&_) Hok Hn Hp Habs. unfold addSessionToTopNGroup.
  destruct (getOrCreate_frame n st) as (Hl&Hc&Hcf&_&Hnew).
  assert (is_Some (topNGroups_ (getOrCreateTopNGroup n st) !! n)) as [g Hg].
  { unfold getOrCreateTopNGroup. destruct (topNGroups_ st !! n) eqn:Hg; [rewrite Hg; eauto|].
    cbn. rewrite lookup_insert_eq. eauto. }
  rewrite Hg. cbn zeta.
  set (st1 := set_groups (<[n := _]> _) _).
  assert (isPublisher st1 s = false) as Hp1 by (rewrite (isPublisher_counts st); [done|exact Hc]).
  rewrite Hp1. cbn [fst snd]. split.
  - split; [done|]. cbn. rewrite lookup_insert_eq. split; [eauto|].
    intros n' g'. rewrite lookup_insert_Some. intros [[<- <-]|[Hne Hg']].
    + cbn. rewrite lookup_insert_eq. split; eauto.
    + split; [|congruence]. intros Hi. specialize (Hnew n' g' s Hg' Hi).
      rewrite (Habs n' g' Hnew) in Hi. by destruct Hi.
  - cbn [cfg st1 set_groups]. rewrite Hcf, Hcb, view_selects, union_empty_l_L.
    by rewrite topSet_tracksBelow.
Qed.

(** What [s] holds after a sequence of operations, from [v]. *)
Fixpoint watch s (ops : list op) st v : option (ranking * gset FullTrackName) :=
  match ops with
  | [] => Some (st, v)
  | o :: ops' =>
      match stepOp f14_order o st with
      | None => None
      | Some (st', evs) => watch s ops' st' (view s evs (ended o v))
      end
  end.

Lemma run_selection_from ops st st' evs :
  wf st → plain (cfg st) → callbacks_set (cfg st) → selection_ok st →
  0 <= nextSeq_ st → nextSeq_ st + Z.of_nat (length ops) < bnd → Forall op_ok ops →
  run f14_order ops st = Some (st', evs) → selection_ok st'.
Proof.
  revert st evs. induction ops as [|o ops IH]; intros st evs Hwf Hpl Hcb Hok Hz Hb Ho; cbn [run length] in *.
  - by intros [= <- <-].
  - apply Forall_cons in Ho as [Ho Hos].
    destruct (step_wf f14_order o st) as (st1&e1&Hs&Hwf1&Hcfg&Hseq1); [done|lia|done|].
    rewrite Hs. apply step_delivers_ok in Hs as [Hok1 _]; [|done..|lia|done].
    destruct (run f14_order ops st1) as [[st2 e2]|] eqn:Hrun; [|done]. intros [= <- <-].
    apply (IH st1 e2); try done; [by rewrite Hcfg..|lia|lia].
Qed.

Lemma watch_viewer ops st n s :
  wf st → plain (cfg st) → callbacks_set (cfg st) → selection_ok st →
  0 <= nextSeq_ st → nextSeq_ st + Z.of_nat (length ops) < bnd → Forall op_ok ops →
  sole_viewer st n s → Forall (keeps n s) ops →
  ∃ st', watch s ops st (topSet n (rankedTracks_ st)) = Some (st', topSet n (rankedTracks_ st')).
Proof.
  revert st. induction ops as [|o ops IH]; intros st Hwf Hpl Hcb Hok Hz Hb Ho Hs Hk; cbn [watch length] in *.
  - eauto.
  - apply Forall_cons in Ho as [Ho Hos]. apply Forall_cons in Hk as [Hk Hks].
    destruct (step_wf f14_order o st) as (st1&e1&Hst&Hwf1&Hcfg&Hseq1); [done|lia|done|].
    rewrite Hst. apply step_delivers_ok in Hst as [Hok1 Hv]; [|done..|lia|done].
    destruct (Hv n s Hs Hk) as [Hs1 ->].
    apply IH; try done; [by rewrite Hcfg..|lia|lia].
Qed.

(** With no deselected queue and no idle timeout, after any sequence of
    operations every group marks exactly the first N tracks of the ranking as
    selected (or all of them when there are fewer) and its deselected queue is
    empty. *)
Theorem run_selection_exact c ops st evs n g :
  plain c → callbacks_set c → Z.of_nat (length ops) < bnd → Forall op_ok ops →
  run f14_order ops (newRanking c) = Some (st, evs) →
  topNGroups_ st !! n = Some g →
  (∀ f, trackStates g !! f =
     if bool_decide (f ∈ take (Z.to_nat n) (names (rankedTracks_ st))) then Some Selected else None) ∧
  deselectedQueue g = [].
Proof.
  intros Hpl Hcb Hl Ho Hrun Hg.
  assert (selection_ok st) as Hok.
  { eapply run_selection_from; [apply newRanking_wf| | | |..|exact Hrun]; try done.
    destruct Hpl as [-> _]. unfold bnd. lia. }
  destruct (Hok n g Hg) as [Ht Hq]. split; [|done]. intros f. rewrite Ht.
  case_bool_decide as Hf.
  - apply lookup_gset_to_gmap_Some. split; [|done]. by apply elem_of_list_to_set.
  - apply lookup_gset_to_gmap_None. unfold topSet. by rewrite elem_of_list_to_set.
Qed.

(** C5: In the same configuration, a session that joins a group with limit N
    in any reachable state, and is neither a publisher nor a member of another
    group, is sent exactly the first N tracks, and whatever is registered,
    updated, removed or joined afterwards, the callbacks keep it at exactly
    the first N tracks of the ranking. *)
Theorem viewer_always_has_top_n c pre st0 evs0 n s fwd post :
  plain c → callbacks_set c → Z.of_nat (length pre + S (length post)) < bnd →
  Forall op_ok pre → Forall op_ok post → 0 <= n <= bnd → Forall (keeps n s) post →
  run f14_order pre (newRanking c) = Some (st0, evs0) →
  isPublisher st0 s = false →
  (∀ n' g, topNGroups_ st0 !! n' = Some g → sessions g !! s = None) →
  ∃ st, watch s (OAddSession n s fwd :: post) st0 ∅ = Some (st, topSet n (rankedTracks_ st)).
Proof.
  intros Hpl Hcb Hlen Ho Ho' Hn Hk Hrun Hp Habs.
  assert (wf (newRanking c : ranking)) as Hwf by (apply newRanking_wf; destruct Hpl as [-> _]; unfold bnd; lia).
  destruct (run_wf_from f14_order pre (newRanking c)) as (st0'&e'&Hrun'&Hwf0&Hcfg0&Hseq0);
    [done|done|cbn; lia|done|].
  rewrite Hrun in Hrun'. injection Hrun' as <- <-. cbn in Hseq0, Hcfg0.
  assert (selection_ok st0) as Hok0.
  { eapply run_selection_from; [exact Hwf| | | |..|exact Hrun]; try done. cbn. lia. }
  destruct (addSession_joins st0 n s fwd) as [Hs Hv]; [done|by rewrite Hcfg0|done|done|done|done|].
  destruct (addSession_frame st0 n s fwd) as (Hc1&Hs1&_&_).
  destruct (addSession_delivers st0 n s fwd Hwf0 Hok0 Hn) as [Hok1 _].
  pose proof (addSession_wf st0 n s fwd Hwf0 Hn ltac:(lia)) as Hwf1.
  cbn [watch stepOp ended]. destruct (addSessionToTopNGroup n s fwd st0) as [st1 e1]. cbn [fst snd] in *.
  rewrite Hv. apply watch_viewer; try done; [by rewrite Hc1, Hcfg0..|lia|lia].
Qed.

(** ** The deselected queue stays within its bound *)

Definition queue_ok st g : Prop :=
  Z.of_nat (length (deselectedQueue g)) <= maxDeselected_ (cfg st).

Lemma trimLoop_queue st q g :
  0 <= maxDeselected_ (cfg st) → queue_ok st (trimLoop st q g).1.
Proof.
  intros Hm. revert g. induction q as [|f q IH]; intros g; cbn [trimLoop]; [done|].
  destruct (Z.gtb_spec (Z.of_nat (length (f :: q))) (maxDeselected_ (cfg st))); [apply IH|].
  unfold queue_ok. cbn in *. lia.
Qed.

Lemma demoteTrack_queue st f g :
  0 <= maxDeselected_ (cfg st) → queue_ok st (demoteTrack st f g).1.
Proof. intros. by apply trimLoop_queue. Qed.

Lemma demoteTrackAtRank_queue st n g :
  0 <= maxDeselected_ (cfg st) → queue_ok st g → queue_ok st (demoteTrackAtRank st n g).1.
Proof.
  intros Hm Hq. unfold demoteTrackAtRank. destruct (entryAt _ _ _) as [e|]; [|done].
  destruct (trackStates g !! ftn e) as [[]|]; [|done..]. by apply demoteTrack_queue.
Qed.

Lemma removeFromQueue_queue st f g : queue_ok st g → queue_ok st (removeFromDeselectedQueue f g).
Proof.
  unfold queue_ok. cbn. pose proof (length_filter (λ f', f' ≠ f) (deselectedQueue g)). lia.
Qed.

Lemma selectTrack_queue st f g : queue_ok st g → queue_ok st (selectTrack st f g).1.
Proof. intros Hq. exact (removeFromQueue_queue st f _ Hq). Qed.

Lemma promoteLoop_queue st l f g : queue_ok st g → queue_ok st (promoteLoop st l f g).1.
Proof.
  intros Hq. induction l as [|[k e] l IH]; cbn; [done|].
  destruct (bool_decide _); [done|]. destruct (bool_decide _); [done|by apply selectTrack_queue].
Qed.

Lemma recomputeGroup_queue st f p r r' n g :
  0 <= maxDeselected_ (cfg st) → queue_ok st g → queue_ok st (recomputeGroup st f p r r' n g).1.
Proof.
  intros Hm Hq. unfold recomputeGroup. cbn [fst].
  set (r1 := if eqb _ _ then (g, []) else _).
  assert (queue_ok st r1.1) as H1.
  { unfold r1. destruct (eqb _ _); [done|]. destruct (_ <? _);
      [exact (removeFromQueue_queue st f _ Hq)|by apply demoteTrack_queue]. }
  set (r2 := reconcilePublishers st n p r1.1). assert (queue_ok st r2.1) as H2 by done.
  set (r4 := if negb _ && _ then _ else _).
  assert (queue_ok st r4.1) as H4
    by (unfold r4; destruct (negb _ && _); [by apply demoteTrackAtRank_queue|done]).
  destruct (_ && negb _); [|done]. unfold promoteTrackAtRank.
  destruct (entryAt _ _ _) as [e|]; [|done]. destruct (bool_decide _); [done|by apply selectTrack_queue].
Qed.

Lemma removeInGroup_queue st f n g : queue_ok st g → queue_ok st (removeInGroup st f n g).1.
Proof.
  intros Hq. unfold removeInGroup. destruct (trackStates g !! f) as [[]|]; [| |done].
  - assert (queue_ok st (removeFromDeselectedQueue f (set_states (delete f (trackStates g)) g))) as H1
      by exact (removeFromQueue_queue st f _ Hq).
    destruct (deselectedQueue (removeFromDeselectedQueue _ _)) as [|x q] eqn:Hd.
    + by apply promoteLoop_queue.
    + unfold queue_ok in H1. rewrite Hd in H1. cbn [length] in H1.
      unfold queue_ok. cbn -[Z.of_nat]. lia.
  - exact (removeFromQueue_queue st f _ Hq).
Qed.

Lemma sweepTracks_queue st now gla fs g :
  0 <= maxDeselected_ (cfg st) → queue_ok st g → queue_ok st (sweepTracks st now gla fs g).1.
Proof.
  intros Hm. revert g. induction fs as [|f fs IH]; intros g Hq; cbn [sweepTracks]; [done|].
  destruct (isIdle _ _ _); [|by apply IH]. apply IH, promoteLoop_queue. by apply demoteTrack_queue.
Qed.

Definition queues_ok st : Prop := ∀ n g, topNGroups_ st !! n = Some g → queue_ok st g.

Lemma forGroups_queues st (h : Z → group → group * list event) :
  (∀ n g, topNGroups_ st !! n = Some g → queue_ok st g → queue_ok st (h n g).1) →
  queues_ok st → queues_ok (set_groups (forGroups h (topNGroups_ st)).1 st).
Proof.
  intros Hh Hq n g'. cbn [topNGroups_ set_groups]. rewrite forGroups_lookup, fmap_Some.
  intros (g&Hg&->). apply Hh; [done|by eapply Hq].
Qed.

Lemma sweepIdle_queues st now gla :
  0 <= maxDeselected_ (cfg st) → queues_ok st → queues_ok (sweepIdle f14_order now gla st).1.
Proof.
  intros Hm Hq. unfold sweepIdle. destruct (_ =? 0); [done|]. destruct gla as [gla|]; [|done].
  destruct (match lastSweepTime_ st with Some _ => _ | None => _ end); [done|].
  apply (forGroups_queues (set_lastSweep (Some now) st)); [|done].
  intros n g _ Hg. by apply sweepTracks_queue.
Qed.

Lemma registerTrack_queues st f ov p st' evs :
  wf st → queues_ok st → 0 <= nextSeq_ st < bnd →
  registerTrack f ov (Some p) st = Some (st', evs) → queues_ok st'.
Proof.
  intros Hwf Hq Hb. unfold registerTrack.
  destruct (trackIndexByName_ st !! f) eqn:Hf; [by intros [= <- <-]|].
  destruct (insertTrack_spec st f (default 0 ov) p Hwf Hf Hb) as (st1&l1&l2&->&_&_&Hwf1&Hg1&Hcfg&_).
  assert (queues_ok st1) as Hq1.
  { intros n g. rewrite Hg1. unfold queue_ok. rewrite Hcfg. apply Hq. }
  unfold reconcilePublisherInAllGroups.
  pose proof (forGroups_queues st1 (reconcileInGroup st1 p)) as H2.
  specialize (H2 ltac:(intros n g _ Hg; unfold reconcileInGroup; by destruct (sessions g !! p)) Hq1).
  revert H2. set (st2 := set_groups (forGroups _ _).1 st1). intros H2 [= <- <-].
  apply (forGroups_queues st2); [|done]. intros n g _ Hg. unfold registerInGroup.
  destruct (_ <? _); [|done]. apply demoteTrackAtRank_queue; [|done].
  apply (thr_des _ _ _ _ _ _ (proj2 Hwf1)).
Qed.

Lemma updateSortValue_queues st now gla f x st' evs :
  wf st → queues_ok st → updateSortValue f14_order now gla f x st = Some (st', evs) → queues_ok st'.
Proof.
  intros Hwf Hq. destruct (trackIndexByName_ st !! f) as [ri|] eqn:Hri.
  2:{ unfold updateSortValue. rewrite Hri. by intros [= <- <-]. }
  destruct (decide (x = rvalue (rankIter ri))) as [->|Hv].
  { unfold updateSortValue. rewrite Hri.
    destruct (indexed_node st f ri) as (?&?&?&_&->&_); [apply Hwf|done|].
    rewrite Z.eqb_refl. by intros [= <- <-]. }
  destruct (updateSortValue_cases f14_order st now gla f ri x Hwf Hri Hv)
    as (st1&l1&l2&l1'&l2'&p&_&_&_&Hwf1&Hg1&Hcfg&_&_&_&->).
  pose proof (thr_des _ _ _ _ _ _ (proj2 Hwf1)) as Hd.
  assert (queues_ok st1) as Hq1
    by (intros n g; rewrite Hg1; unfold queue_ok; rewrite Hcfg; apply Hq).
  destruct (crossesThreshold _ _ _); intros [= <- <-]; [|done].
  apply sweepIdle_queues; [cbn; lia|]. apply forGroups_queues; [|done].
  intros n g _ Hg. apply recomputeGroup_queue; [lia|done].
Qed.

Lemma set_group_queues st n g g' :
  queues_ok st → topNGroups_ st !! n = Some g → deselectedQueue g' = deselectedQueue g →
  queues_ok (set_groups (<[n := g']> (topNGroups_ st)) st).
Proof.
  intros Hq Hg He n' g''. cbn. rewrite lookup_insert_Some. intros [[<- <-]|[_ Hg']].
  - unfold queue_ok. rewrite He. by apply (Hq n g).
  - by apply (Hq n' g'').
Qed.

Lemma getOrCreate_queues st n :
  0 <= maxDeselected_ (cfg st) → queues_ok st → queues_ok (getOrCreateTopNGroup n st).
Proof.
  intros Hm Hq. unfold getOrCreateTopNGroup. destruct (topNGroups_ st !! n); [done|].
  intros n' g'. cbn. rewrite insert_insert_eq, lookup_insert_Some.
  intros [[<- <-]|[_ Hg]]; [done|by apply (Hq n' g')].
Qed.

Lemma addSession_queues st n s fwd :
  0 <= maxDeselected_ (cfg st) → queues_ok st → queues_ok (addSessionToTopNGroup n s fwd st).1.
Proof.
  intros Hm Hq. apply (getOrCreate_queues st n) in Hq; [|done].
  unfold addSessionToTopNGroup. set (st0 := getOrCreateTopNGroup n st) in *.
  destruct (topNGroups_ st0 !! n) as [g|] eqn:Hg; [|done]. cbn zeta.
  destruct (isPublisher _ s); cbn [fst].
  - intros n' g'. cbn [topNGroups_ set_groups updatePublisherExtendedThreshold set_thresholds].
    rewrite insert_insert_eq. by apply (set_group_queues st0 n g).
  - by apply (set_group_queues st0 n g).
Qed.

Lemma removeTopNGroup_queues st n : queues_ok st → queues_ok (removeTopNGroup n st).
Proof. intros Hq n' g'. cbn. rewrite lookup_delete_Some. intros [_ Hg]. by apply (Hq n' g'). Qed.

Lemma step_queues o st st' evs :
  wf st → queues_ok st → 0 <= nextSeq_ st < bnd →
  stepOp f14_order o st = Some (st', evs) → queues_ok st'.
Proof.
  intros Hwf Hq Hb. pose proof (thr_des _ _ _ _ _ _ (proj2 Hwf)) as Hd.
  destruct o as [f ov p|now gla f x|f|n|n|n s fwd|n s|n s fwd|now gla]; cbn [stepOp].
  - by apply registerTrack_queues.
  - by apply updateSortValue_queues.
  - unfold removeTrack. destruct (trackIndexByName_ st !! f) as [ri|] eqn:Hri; [|by intros [= <- <-]].
    destruct (eraseTrack_spec st f ri Hwf Hri ltac:(lia)) as (st1&?&?&p&He&He'&_&_&_&Hg1&Hcfg&_).
    cbn zeta. rewrite He. cbn [publisherRaw]. rewrite He'. intros [= <- <-].
    apply (forGroups_queues st1); [intros; by apply removeInGroup_queue|].
    intros n g. rewrite Hg1. unfold queue_ok. rewrite Hcfg. apply Hq.
  - intros [= <- <-]. apply getOrCreate_queues; [lia|done].
  - intros [= <- <-]. by apply removeTopNGroup_queues.
  - intros [= He]. replace st' with (addSessionToTopNGroup n s fwd st).1 by by rewrite He.
    apply addSession_queues; [lia|done].
  - intros [= <- <-]. unfold removeSessionFromTopNGroup.
    destruct (topNGroups_ st !! n) as [g|] eqn:Hg; [|done]. cbn zeta.
    pose proof (set_group_queues st n g (set_sessions (delete s (sessions g)) g) Hq Hg eq_refl) as H1.
    destruct (bool_decide _), (isPublisher st s);
      first [exact H1|exact (removeTopNGroup_queues _ n H1)].
  - intros [= <- <-]. unfold updateSessionForward.
    destruct (topNGroups_ st !! n) as [g|] eqn:Hg; [|done].
    destruct (sessions g !! s); [|done]. by apply (set_group_queues st n g).
  - intros [= He]. replace st' with (sweepIdle f14_order now gla st).1 by by rewrite He.
    apply sweepIdle_queues; [lia|done].
Qed.

(** In any configuration, idle sweeps included, the deselected queue of
    every group never holds more than [maxDeselected] tracks after an
    operation. *)
Theorem run_queue_bounded c ops st evs n g :
  0 <= maxDeselected_ c <= bnd → Z.of_nat (length ops) < bnd → Forall op_ok ops →
  run f14_order ops (newRanking c) = Some (st, evs) →
  topNGroups_ st !! n = Some g →
  Z.of_nat (length (deselectedQueue g)) <= maxDeselected_ c.
Proof.
  intros Hd Hl Ho Hrun Hg.
  assert (∀ ops st st' evs, wf st → queues_ok st → 0 <= nextSeq_ st →
    nextSeq_ st + Z.of_nat (length ops) < bnd → Forall op_ok ops →
    run f14_order ops st = Some (st', evs) → queues_ok st' ∧ cfg st' = cfg st) as Hgen.
  { clear. induction ops as [|o ops IH]; intros st st' evs Hwf Hq Hz Hb Ho; cbn [run length] in *.
    { by intros [= <- <-]. }
    apply Forall_cons in Ho as [Ho Hos].
    destruct (step_wf f14_order o st) as (st1&e1&Hs&Hwf1&Hcfg&Hseq1); [done|lia|done|].
    rewrite Hs. apply step_queues in Hs; [|done|done|lia].
    destruct (run f14_order ops st1) as [[st2 e2]|] eqn:Hrun; [|done]. intros [= <- <-].
    rewrite <- Hcfg. apply (IH st1 _ e2); try done; lia. }
  destruct (Hgen ops (newRanking c) st evs) as [Hq Hc]; [by apply newRanking_wf|done..|].
  pose proof (Hq n g Hg) as Hx. unfold queue_ok in Hx. by rewrite Hc in Hx.
Qed.

(** A publisher-subscriber with the limit 0 is sent every track of the
    other publishers: the waterline of the zeroth track does not exist, and
    no waterline means that everything is selected. *)
Theorem reconcile_zero_selects_all st info s :
  selectedTracks (reconcilePublisherSelection st info 0 s).1 =
  list_to_set (names (nonSelf s (rankedTracks_ st))).
Proof.
  assert (∀ l c, 0 <= c → waterlineFrom c 0 s l = None) as Hw.
  { induction l as [|[k e] l IH]; intros c Hc; cbn; [done|].
    destruct (bool_decide _); [|by apply IH]. destruct (Z.eqb_spec (c + 1) 0); [lia|apply IH; lia]. }
  unfold reconcilePublisherSelection, computeWaterlineKey. rewrite Hw by lia. cbn. f_equal.
  induction (rankedTracks_ st) as [|[k e] l IH]; [done|]. unfold nonSelf in *. rewrite filter_cons.
  rewrite nowSelectedList_cons. cbn [snd]. rewrite andb_true_r.
  destruct (decide (publisherRaw e ≠ s)) as [Hx|Hx];
    [rewrite bool_decide_eq_true_2 by done|rewrite bool_decide_eq_false_2 by done]; cbn; by rewrite IH.
Qed.

End RankingSelection.
