(* ===== verification/RankingExamples.v ===== *)
(** * Concrete runs of the ranking

    Witnesses of the ranking theorems, and runs in which the code departs from
    the selection it means to keep. *)

From S2P Require Import Prelude PropertyRanking RankingOrder RankingInvariant RankingSelection.

Module RankingExamples.

(** Track names and sessions are numbers; F14 containers iterate in key order. *)
#[local] Abbreviation ranking := (PropertyRanking (FullTrackName:=Z) (MoQSession:=Z)).
#[local] Abbreviation op := (Op (FullTrackName:=Z) (MoQSession:=Z)).
#[local] Abbreviation event := (Event (FullTrackName:=Z) (MoQSession:=Z)).

Definition order (l : list Z) : list Z := l.

(** No deselected queue, no idle timeout, all callbacks set. *)
Definition plainConfig : Config := mkConfig 1 0 0 0 true true true.

Definition final (c : Config) (ops : list op) : ranking :=
  match run order ops (newRanking c) with Some (st, _) => st | None => newRanking c end.

Definition calls (c : Config) (ops : list op) : list event :=
  match run order ops (newRanking c) with Some (_, evs) => evs | None => [] end.

Definition groupOf (st : ranking) (n : Z) : TopNGroup :=
  default (mkGroup 0 ∅ ∅ []) (topNGroups_ st !! n).

Definition infoOf (st : ranking) (n s : Z) : SessionInfo Z :=
  default (mkSession false None ∅) (sessions (groupOf st n) !! s).

(** Session 7 publishes track 70 and subscribes to the top 1; session 8
    publishes tracks 80 and 81; session 9 only watches. *)
Definition mixedOps : list op :=
  [ORegisterTrack 70 (Some 50) 7; ORegisterTrack 80 (Some 40) 8; ORegisterTrack 81 (Some 30) 8;
   OAddSession 1 7 true; OAddSession 2 9 true; OUpdateSortValue 0 None 81 60].

Lemma mixedOps_ok : Forall op_ok mixedOps.
Proof. repeat constructor; vm_compute; congruence. Qed.

Lemma run_wf_witness :
  ∃ st evs, run order mixedOps (newRanking plainConfig) = Some (st, evs) ∧ wf st.
Proof. apply (run_wf order plainConfig mixedOps); [vm_compute; split; congruence|reflexivity|exact mixedOps_ok]. Defined.

Lemma mixed_run : run order mixedOps (newRanking plainConfig) =
  Some (final plainConfig mixedOps, calls plainConfig mixedOps).
Proof. vm_compute. reflexivity. Qed.

Lemma mixed_run_wf st evs :
  run order mixedOps (newRanking plainConfig) = Some (st, evs) → wf st.
Proof.
  destruct (run_wf_from order mixedOps (newRanking plainConfig)) as (st'&evs'&->&Hwf&_);
    [apply newRanking_wf; vm_compute; split; congruence|done|reflexivity|exact mixedOps_ok|].
  by intros [= <- _].
Qed.

Lemma run_publisher_selection_witness :
  selectedTracks (infoOf (final plainConfig mixedOps) 1 7) =
    personal 1 7 (rankedTracks_ (final plainConfig mixedOps)) ∧
  selectedTracks (infoOf (final plainConfig mixedOps) 1 7) = {[81]}.
Proof.
  split; [|vm_compute; reflexivity].
  apply (run_publisher_selection order plainConfig mixedOps (final plainConfig mixedOps)
           (calls plainConfig mixedOps) 1 (groupOf (final plainConfig mixedOps) 1) 7
           (infoOf (final plainConfig mixedOps) 1 7));
    [vm_compute; split; congruence|reflexivity|exact mixedOps_ok|repeat constructor
    |exact mixed_run|vm_compute; reflexivity|vm_compute; reflexivity|vm_compute; reflexivity|lia].
Defined.

Lemma run_selection_exact_witness :
  (∀ f, trackStates (groupOf (final plainConfig mixedOps) 2) !! f =
     if bool_decide (f ∈ take (Z.to_nat 2) (names (rankedTracks_ (final plainConfig mixedOps))))
     then Some Selected else None) ∧
  deselectedQueue (groupOf (final plainConfig mixedOps) 2) = [].
Proof.
  apply (run_selection_exact order plainConfig mixedOps (final plainConfig mixedOps)
           (calls plainConfig mixedOps) 2 (groupOf (final plainConfig mixedOps) 2));
    [split; reflexivity|repeat split|reflexivity|exact mixedOps_ok|exact mixed_run
    |vm_compute; reflexivity].
Defined.

Lemma run_queue_bounded_witness :
  Z.of_nat (length (deselectedQueue (groupOf (final plainConfig mixedOps) 2))) <= 0.
Proof.
  apply (run_queue_bounded order plainConfig mixedOps (final plainConfig mixedOps)
           (calls plainConfig mixedOps) 2 (groupOf (final plainConfig mixedOps) 2));
    [vm_compute; split; congruence|reflexivity|exact mixedOps_ok|exact mixed_run
    |vm_compute; reflexivity].
Defined.

(** A session that joins after [mixedOps], then a move into the top, the end of
    a selected track and a new track. *)
Definition laterOps : list op :=
  [OUpdateSortValue 0 None 80 90; ORemoveTrack 81; ORegisterTrack 82 (Some 70) 8].

Lemma viewer_always_has_top_n_witness :
  (∃ st, watch order 5 (OAddSession 3 5 false :: laterOps) (final plainConfig mixedOps) ∅ =
     Some (st, topSet 3 (rankedTracks_ st))) ∧
  option_map snd (watch order 5 (OAddSession 3 5 false :: laterOps) (final plainConfig mixedOps) ∅)
    = Some {[80; 82; 70]}.
Proof.
  split; [|vm_compute; reflexivity].
  apply (viewer_always_has_top_n order plainConfig mixedOps (final plainConfig mixedOps)
           (calls plainConfig mixedOps) 3 5 false laterOps);
    [split; reflexivity|repeat split|reflexivity|exact mixedOps_ok|repeat constructor
    |vm_compute; split; congruence|repeat constructor; cbn; congruence|exact mixed_run
    |vm_compute; reflexivity|].
  assert (map_Forall (λ _ g, sessions g !! 5 = None) (topNGroups_ (final plainConfig mixedOps))) as Hall
    by (refine (bool_decide_unpack _ _); vm_compute; exact I).
  intros n g Hg. exact (Hall n g Hg).
Defined.

Lemma reconcilePublisherSelection_exact_witness :
  view 7 (reconcilePublisherSelection (final plainConfig mixedOps) (mkSession true None {[80]}) 1 7).2
    {[80]} = personal 1 7 (rankedTracks_ (final plainConfig mixedOps)) ∧
  personal 1 7 (rankedTracks_ (final plainConfig mixedOps)) = {[81]}.
Proof.
  split; [|vm_compute; reflexivity].
  apply (reconcilePublisherSelection_exact (final plainConfig mixedOps) (mkSession true None {[80]}) 1 7);
    [exact (proj1 (mixed_run_wf _ _ mixed_run))|lia|repeat split].
Defined.

(** ** Departures from the intended selection *)

(** Session 7 publishes 70 and subscribes to the top 1; its personal selection
    is track 80, which is outside the shared top 1.  Track 80 then ends. *)
Definition staleOps : list op :=
  [ORegisterTrack 70 (Some 50) 7; ORegisterTrack 80 (Some 40) 8; ORegisterTrack 81 (Some 30) 8;
   OAddSession 1 7 true; ORemoveTrack 80].

(** [removeTrack] skips a group whose shared state does not hold the track,
    so a publisher-subscriber that was sent the track from outside the shared
    top N is not reconciled: it keeps a track that is gone and is not sent the
    one that takes its place. *)
Theorem removeTrack_leaves_publisher_stale :
  run order staleOps (newRanking plainConfig) =
    Some (final plainConfig staleOps, calls plainConfig staleOps) ∧
  isPublisher (final plainConfig staleOps) 7 = true ∧
  names (rankedTracks_ (final plainConfig staleOps)) = [70; 81] ∧
  selectedTracks (infoOf (final plainConfig staleOps) 1 7) = {[80]} ∧
  personal 1 7 (rankedTracks_ (final plainConfig staleOps)) = {[81]} ∧
  view 7 (calls plainConfig staleOps) ∅ = {[80]}.
Proof. split_and!; vm_compute; reflexivity. Qed.

(** Session 7 watches the top 1, track 80, and then publishes track 70 above it. *)
Definition upgradeOps : list op :=
  [ORegisterTrack 80 (Some 40) 8; OAddSession 1 7 true; ORegisterTrack 70 (Some 50) 7].

(** When a track is displaced from the shared top N, [trimDeselectedQueue]
    evicts it for every session of the group, also for a publisher-subscriber
    whose personal selection still contains it: the session ends up without
    the track that its selection says it has. *)
Theorem trim_evicts_publisher_selection :
  run order upgradeOps (newRanking plainConfig) =
    Some (final plainConfig upgradeOps, calls plainConfig upgradeOps) ∧
  personal 1 7 (rankedTracks_ (final plainConfig upgradeOps)) = {[80]} ∧
  selectedTracks (infoOf (final plainConfig upgradeOps) 1 7) = {[80]} ∧
  view 7 (calls plainConfig upgradeOps) ∅ = ∅.
Proof. split_and!; vm_compute; reflexivity. Qed.

(** An idle timeout of 1 ms and room for two deselected tracks. *)
Definition idleConfig : Config := mkConfig 1 2 1 0 true true true.

(** Two selected tracks that never sent an object, and a sweep. *)
Definition idleOps : list op :=
  [ORegisterTrack 80 (Some 40) 8; ORegisterTrack 81 (Some 30) 8; OAddSession 2 9 true;
   OSweepIdle 10 (Some (λ _, 0))].

(** The idle sweep promotes the highest-ranked unselected track even when
    it is one the same sweep has just deselected as idle: an idle track is
    still selected after the sweep. *)
Theorem sweepIdle_reselects_idle :
  run order idleOps (newRanking idleConfig) =
    Some (final idleConfig idleOps, calls idleConfig idleOps) ∧
  isIdle (final idleConfig idleOps) 10 0 = true ∧
  trackStates (groupOf (final idleConfig idleOps) 2) !! 81 = Some Selected ∧
  trackStates (groupOf (final idleConfig idleOps) 2) !! 80 = Some Deselected.
Proof. split_and!; vm_compute; reflexivity. Qed.

End RankingExamples.
