(* ===== verification/ServiceMatcher.v ===== *)
(** * ServiceMatcher: which service serves an (authority, path) pair

    Models [src/src/ServiceMatcher.h], [ServiceMatcher.cpp] and the match
    entries of [src/src/config/Config.h].  The services are the list of
    (name, entries) pairs in the iteration order of the F14 map.  [std::sort]
    is not stable, so the order it gives to prefixes of the same length is not
    fixed: it is a parameter of which the model uses that the result is a
    permutation of its input sorted by the comparator.

    [match_best] is the documented contract: the service found is the one of a
    matching rule with the highest priority (authority tier, then exact path,
    then length of the prefix), and nothing is found only when no rule
    matches. *)

From S2P Require Import Prelude.

#[local] Open Scope string_scope.

(** ** Configuration data *)

Inductive PathMatcher :=
| ExactPath (value : string)
| PrefixPath (value : string).

Inductive AuthorityMatcher :=
| ExactAuthority (value : string)
| WildcardAuthority (pattern : string)
| AnyAuthority.

Record MatchEntry := mkMatch {
  authority : AuthorityMatcher;
  path : PathMatcher
}.

Definition Services : Type := list (string * list MatchEntry).

(** ** Rule sets *)

Record PathRuleSet := mkRules {
  exactPaths : gmap string string;
  prefixPaths : list (string * string)   (* prefix, service name *)
}.

Definition emptyRules : PathRuleSet := mkRules ∅ [].

Definition addRule (p : PathMatcher) (serviceName : string) (rs : PathRuleSet) : PathRuleSet :=
  match p with
  | ExactPath val =>
      mkRules (match exactPaths rs !! val with
               | Some _ => exactPaths rs            (* try_emplace *)
               | None => <[val := serviceName]> (exactPaths rs)
               end) (prefixPaths rs)
  | PrefixPath val => mkRules (exactPaths rs) (prefixPaths rs ++ [(val, serviceName)])
  end.

Definition longer (a b : string * string) : Prop :=
  (String.length b.1 <= String.length a.1)%nat.

(** [path.size() >= prefix.size() && path.substr(0, prefix.size()) == prefix] *)
Definition startsWith (prefix path : string) : bool :=
  (String.length prefix <=? String.length path)%nat &&
  bool_decide (String.substring 0 (String.length prefix) path = prefix).

Fixpoint scanPrefixes (rules : list (string * string)) (p : string) : option string :=
  match rules with
  | [] => None
  | (prefix, svc) :: rest => if startsWith prefix p then Some svc else scanPrefixes rest p
  end.

Definition matchPath (rs : PathRuleSet) (p : string) : option string :=
  match exactPaths rs !! p with
  | Some svc => Some svc
  | None => scanPrefixes (prefixPaths rs) p
  end.

Record ServiceMatcher := mkMatcher {
  exactAuthorityRules_ : gmap string PathRuleSet;
  wildcardAuthorityRules_ : gmap string PathRuleSet;
  anyAuthorityRules_ : PathRuleSet
}.

(** [auth.pattern.substr(1)], which throws on an empty pattern. *)
Definition wildcardSuffix (pattern : string) : option string :=
  match pattern with
  | EmptyString => None
  | String _ rest => Some rest
  end.

(** [operator[]] followed by [addRule]. *)
Definition addRuleAt (key : string) (p : PathMatcher) (name : string)
    (m : gmap string PathRuleSet) : gmap string PathRuleSet :=
  <[key := addRule p name (default emptyRules (m !! key))]> m.

Definition addEntry (name : string) (e : MatchEntry) (sm : ServiceMatcher) :
    option ServiceMatcher :=
  match authority e with
  | ExactAuthority val =>
      Some (mkMatcher (addRuleAt val (path e) name (exactAuthorityRules_ sm))
              (wildcardAuthorityRules_ sm) (anyAuthorityRules_ sm))
  | WildcardAuthority pattern =>
      match wildcardSuffix pattern with
      | None => None
      | Some suffix =>
          Some (mkMatcher (exactAuthorityRules_ sm)
                  (addRuleAt suffix (path e) name (wildcardAuthorityRules_ sm))
                  (anyAuthorityRules_ sm))
      end
  | AnyAuthority =>
      Some (mkMatcher (exactAuthorityRules_ sm) (wildcardAuthorityRules_ sm)
              (addRule (path e) name (anyAuthorityRules_ sm)))
  end.

(** The rules in the order in which the constructor meets them. *)
Definition rulesOf (services : Services) : list (string * MatchEntry) :=
  mjoin ((λ s : string * list MatchEntry, (λ e, (s.1, e)) <$> s.2) <$> services).

Fixpoint addEntries (rules : list (string * MatchEntry)) (sm : ServiceMatcher) :
    option ServiceMatcher :=
  match rules with
  | [] => Some sm
  | (name, e) :: rest =>
      match addEntry name e sm with
      | None => None
      | Some sm => addEntries rest sm
      end
  end.

(** The end of the authority from its first dot on. *)
Definition authoritySuffix (auth : string) : option string :=
  match String.index 0 "." auth with
  | None => None
  | Some dot => Some (String.substring dot (String.length auth - dot) auth)
  end.

Definition effectivePath (p : string) : string :=
  if bool_decide (p = "") then "/" else p.

Definition smMatch (sm : ServiceMatcher) (auth p : string) : option string :=
  let p := effectivePath p in
  match (exactAuthorityRules_ sm !! auth) ≫= (λ rs, matchPath rs p) with
  | Some svc => Some svc
  | None =>
      match (authoritySuffix auth ≫= λ suffix, wildcardAuthorityRules_ sm !! suffix) ≫=
              (λ rs, matchPath rs p) with
      | Some svc => Some svc
      | None => matchPath (anyAuthorityRules_ sm) p
      end
  end.

(** [allExactPaths]: the paths of one rule set not seen before, then the rest. *)
Fixpoint collectPaths (paths : list string) (seen : gset string) (result : list string) :
    gset string * list string :=
  match paths with
  | [] => (seen, result)
  | p :: rest =>
      if bool_decide (p ∈ seen) then collectPaths rest seen result
      else collectPaths rest ({[p]} ∪ seen) (result ++ [p])
  end.

Definition pathsOf (rs : PathRuleSet) : list string := (map_to_list (exactPaths rs)).*1.

Definition allExactPaths (sm : ServiceMatcher) : list string :=
  (collectPaths
     (mjoin ((λ kv : string * PathRuleSet, pathsOf kv.2) <$> map_to_list (exactAuthorityRules_ sm)) ++
      mjoin ((λ kv : string * PathRuleSet, pathsOf kv.2) <$> map_to_list (wildcardAuthorityRules_ sm)) ++
      pathsOf (anyAuthorityRules_ sm)) ∅ []).2.

Section Matcher.
(** [std::sort] with the comparator of [finalize]. *)
Context (std_sort : list (string * string) → list (string * string)).

Definition finalize (rs : PathRuleSet) : PathRuleSet :=
  mkRules (exactPaths rs) (std_sort (prefixPaths rs)).

Definition newServiceMatcher (services : Services) : option ServiceMatcher :=
  match addEntries (rulesOf services) (mkMatcher ∅ ∅ emptyRules) with
  | None => None
  | Some sm =>
      Some (mkMatcher (finalize <$> exactAuthorityRules_ sm)
              (finalize <$> wildcardAuthorityRules_ sm) (finalize (anyAuthorityRules_ sm)))
  end.

(** ** The contract *)

#[local] Abbreviation Rule := (string * MatchEntry)%type.

Definition pathMatches (pm : PathMatcher) (p : string) : Prop :=
  match pm with
  | ExactPath v => v = p
  | PrefixPath v => startsWith v p = true
  end.

Definition authMatches (am : AuthorityMatcher) (auth : string) : Prop :=
  match am with
  | ExactAuthority v => v = auth
  | WildcardAuthority pattern =>
      ∃ suffix, wildcardSuffix pattern = Some suffix ∧ authoritySuffix auth = Some suffix
  | AnyAuthority => True
  end.

Definition ruleMatches (r : Rule) (auth p : string) : Prop :=
  authMatches (authority r.2) auth ∧ pathMatches (path r.2) (effectivePath p).

Definition tier (am : AuthorityMatcher) : nat :=
  match am with ExactAuthority _ => 2 | WildcardAuthority _ => 1 | AnyAuthority => 0 end.

Definition pathRank (pm : PathMatcher) : nat :=
  match pm with ExactPath _ => 1 | PrefixPath _ => 0 end.

Definition pathLength (pm : PathMatcher) : nat :=
  match pm with ExactPath v | PrefixPath v => String.length v end.

(** [r] has at least the priority of [r']. *)
Definition path_ge (pm pm' : PathMatcher) : Prop :=
  (pathRank pm' < pathRank pm)%nat ∨
  (pathRank pm' = pathRank pm ∧ (pathLength pm' <= pathLength pm)%nat).

Definition rule_ge (r r' : Rule) : Prop :=
  (tier (authority r'.2) < tier (authority r.2))%nat ∨
  (tier (authority r'.2) = tier (authority r.2) ∧ path_ge (path r.2) (path r'.2)).

(** ** What a rule set holds *)

(** [rs] holds the rules of [L] that belong to it. *)
Record holds (L : list Rule) (sel : AuthorityMatcher → Prop) (rs : PathRuleSet) : Prop := {
  holds_exact : ∀ v s, exactPaths rs !! v = Some s →
    ∃ r, r ∈ L ∧ sel (authority r.2) ∧ path r.2 = ExactPath v ∧ r.1 = s;
  holds_exact_all : ∀ r v, r ∈ L → sel (authority r.2) → path r.2 = ExactPath v →
    is_Some (exactPaths rs !! v);
  holds_prefix : ∀ v s, (v, s) ∈ prefixPaths rs ↔
    ∃ r, r ∈ L ∧ sel (authority r.2) ∧ path r.2 = PrefixPath v ∧ r.1 = s
}.

Lemma holds_skip L sel rs (r : Rule) :
  ¬ sel (authority r.2) → holds L sel rs → holds (L ++ [r]) sel rs.
Proof.
  intros Hr [He Ha Hp]. constructor.
  - intros v s (r'&?&?)%He. exists r'. set_solver.
  - intros r' v [?|?%list_elem_of_singleton]%elem_of_app; [by apply Ha|by subst].
  - intros v s. rewrite Hp. split; intros (r'&Hin&?&?&?); exists r'; [set_solver|].
    apply elem_of_app in Hin as [?|?%list_elem_of_singleton]; [done|by subst].
Qed.

Lemma holds_add L (sel : AuthorityMatcher → Prop) rs (r : Rule) :
  sel (authority r.2) → holds L sel rs → holds (L ++ [r]) sel (addRule (path r.2) r.1 rs).
Proof.
  intros Hr [He Ha Hp]. destruct (path r.2) as [w|w] eqn:Hw; constructor; cbn.
  - intros v s. destruct (exactPaths rs !! w) eqn:Hx.
    + intros (r'&?&?)%He. exists r'. set_solver.
    + rewrite lookup_insert_Some. intros [[<- <-]|[_ (r'&?&?)%He]];
        [exists r|exists r']; set_solver.
  - intros r' v Hin Hs Hv. destruct (exactPaths rs !! w) eqn:Hx; cbn.
    + apply elem_of_app in Hin as [?|?%list_elem_of_singleton]; [by apply (Ha r')|subst].
      assert (v = w) as -> by congruence. eauto.
    + destruct (decide (v = w)) as [->|]; [rewrite lookup_insert_eq; eauto|].
      rewrite lookup_insert_ne by done.
      apply elem_of_app in Hin as [?|?%list_elem_of_singleton]; [by apply (Ha r')|subst]. congruence.
  - intros v s. rewrite Hp. split; intros (r'&Hin&?&?&?); exists r'; [set_solver|].
    apply elem_of_app in Hin as [?|?%list_elem_of_singleton]; [done|subst; congruence].
  - intros v s (r'&?&?)%He. exists r'. set_solver.
  - intros r' v Hin Hs Hv.
    apply elem_of_app in Hin as [?|?%list_elem_of_singleton]; [by apply (Ha r')|subst; congruence].
  - intros v s. rewrite elem_of_app, list_elem_of_singleton, Hp. split.
    + intros [(r'&?&?)|[= -> ->]]; [exists r'|exists r]; set_solver.
    + intros (r'&Hin&?&?&?). apply elem_of_app in Hin as [?|?%list_elem_of_singleton].
      * left. by exists r'.
      * right. subst. congruence.
Qed.

Definition rulesAt (m : gmap string PathRuleSet) (k : string) : PathRuleSet :=
  default emptyRules (m !! k).

Definition selExact (k : string) (am : AuthorityMatcher) : Prop := am = ExactAuthority k.
Definition selWild (k : string) (am : AuthorityMatcher) : Prop :=
  ∃ pattern, am = WildcardAuthority pattern ∧ wildcardSuffix pattern = Some k.
Definition selAny (am : AuthorityMatcher) : Prop := am = AnyAuthority.

Record matcher_holds (L : list Rule) (sm : ServiceMatcher) : Prop := {
  mh_exact : ∀ k, holds L (selExact k) (rulesAt (exactAuthorityRules_ sm) k);
  mh_wild : ∀ k, holds L (selWild k) (rulesAt (wildcardAuthorityRules_ sm) k);
  mh_any : holds L selAny (anyAuthorityRules_ sm)
}.

Lemma rulesAt_add m k k' pm name :
  rulesAt (addRuleAt k pm name m) k' =
  if bool_decide (k = k') then addRule pm name (rulesAt m k) else rulesAt m k'.
Proof.
  unfold rulesAt, addRuleAt. case_bool_decide; [subst; by rewrite lookup_insert_eq|].
  by rewrite lookup_insert_ne.
Qed.

Lemma addEntry_holds L sm sm' (r : Rule) :
  matcher_holds L sm → addEntry r.1 r.2 sm = Some sm' → matcher_holds (L ++ [r]) sm'.
Proof.
  intros [He Hw Ha]. unfold addEntry. destruct (authority r.2) as [v|pattern|] eqn:Hau.
  - intros [= <-]. constructor; cbn.
    + intros k. rewrite rulesAt_add. case_bool_decide as Hk; [subst; by apply holds_add|].
      apply holds_skip; [|done]. unfold selExact. congruence.
    + intros k. apply holds_skip; [|done]. rewrite Hau. by intros (?&?&_).
    + apply holds_skip; [|done]. unfold selAny. congruence.
  - destruct (wildcardSuffix pattern) as [suffix|] eqn:Hs; [|done]. intros [= <-]. constructor; cbn.
    + intros k. apply holds_skip; [|done]. unfold selExact. congruence.
    + intros k. rewrite rulesAt_add. case_bool_decide as Hk.
      * subst. apply holds_add; [|done]. exists pattern. by rewrite Hau.
      * apply holds_skip; [|done]. rewrite Hau. intros (?&?&?). congruence.
    + apply holds_skip; [|done]. unfold selAny. congruence.
  - intros [= <-]. constructor; cbn.
    + intros k. apply holds_skip; [|done]. unfold selExact. congruence.
    + intros k. apply holds_skip; [|done]. rewrite Hau. by intros (?&?&_).
    + by apply holds_add.
Qed.

Lemma addEntries_holds L L' sm sm' :
  matcher_holds L sm → addEntries L' sm = Some sm' → matcher_holds (L ++ L') sm'.
Proof.
  revert L sm. induction L' as [|[name e] L' IH]; intros L sm Hm; cbn.
  - intros [= <-]. by rewrite app_nil_r.
  - destruct (addEntry name e sm) as [sm1|] eqn:H1; [|done]. intros H2.
    rewrite (cons_middle (name, e) L L'), app_assoc. eapply IH; [|exact H2].
    by apply (addEntry_holds L sm sm1 (name, e)).
Qed.

Lemma empty_holds : matcher_holds [] (mkMatcher ∅ ∅ emptyRules).
Proof.
  assert (∀ sel, holds [] sel emptyRules) as Hh.
  { intros sel. constructor; cbn; [by intros v s; rewrite lookup_empty|by intros r v ?%elem_of_nil|].
    intros v s. split; [by intros ?%elem_of_nil|by intros (r&?%elem_of_nil&_)]. }
  constructor; intros; unfold rulesAt; cbn; rewrite ?lookup_empty; apply Hh.
Qed.

(** ** The first match is the best match *)

Context (std_sort_perm : ∀ l, std_sort l ≡ₚ l).
Context (std_sort_sorted : ∀ l, StronglySorted longer (std_sort l)).

Lemma finalize_holds L sel rs :
  holds L sel rs → holds L sel (finalize rs) ∧ StronglySorted longer (prefixPaths (finalize rs)).
Proof.
  intros [He Ha Hp]. split; [|apply std_sort_sorted]. constructor; cbn; [done|done|].
  intros v s. by rewrite std_sort_perm, Hp.
Qed.

Lemma scanPrefixes_spec rules p :
  StronglySorted longer rules →
  match scanPrefixes rules p with
  | Some svc => ∃ v, (v, svc) ∈ rules ∧ startsWith v p = true ∧
      ∀ v' s', (v', s') ∈ rules → startsWith v' p = true → (String.length v' <= String.length v)%nat
  | None => ∀ v s, (v, s) ∈ rules → startsWith v p = false
  end.
Proof.
  induction 1 as [|[v s] rules Hs IH Hf]; cbn; [by intros ?? ?%elem_of_nil|].
  rewrite Forall_forall in Hf. destruct (startsWith v p) eqn:Hv.
  - exists v. split_and!; [by left|done|]. intros v' s' [[= -> ->]|Hin]%elem_of_cons; [done|].
    intros _. by apply Hf in Hin.
  - destruct (scanPrefixes rules p) as [svc|].
    + destruct IH as (v'&?&?&Hbest). exists v'. split_and!; [by right|done|].
      intros v'' s'' [[= -> ->]|Hin]%elem_of_cons ?; [congruence|by eapply Hbest].
    + intros v' s' [[= -> ->]|Hin]%elem_of_cons; [done|by eapply IH].
Qed.

(** The best rule of a rule set, or none. *)
Lemma matchPath_spec L sel rs p :
  holds L sel rs → StronglySorted longer (prefixPaths rs) →
  match matchPath rs p with
  | Some svc => ∃ r, r ∈ L ∧ sel (authority r.2) ∧ pathMatches (path r.2) p ∧ r.1 = svc ∧
      ∀ r', r' ∈ L → sel (authority r'.2) → pathMatches (path r'.2) p → path_ge (path r.2) (path r'.2)
  | None => ∀ r, r ∈ L → sel (authority r.2) → ¬ pathMatches (path r.2) p
  end.
Proof.
  intros [He Ha Hp] Hs. unfold matchPath. destruct (exactPaths rs !! p) as [svc|] eqn:Hx.
  - destruct (He p svc Hx) as (r&?&?&Hr&?). exists r. rewrite Hr. split_and!; try done.
    intros r' Hr' Hsel Hm. unfold path_ge. destruct (path r'.2); cbn in *; [subst; right; lia|left; lia].
  - assert (∀ r, r ∈ L → sel (authority r.2) → ∀ v, path r.2 = ExactPath v → v ≠ p) as Hne.
    { intros r ? ? v Hv ->. destruct (Ha r p) as [? ?]; [done..|congruence]. }
    pose proof (scanPrefixes_spec (prefixPaths rs) p Hs) as Hscan.
    destruct (scanPrefixes (prefixPaths rs) p) as [svc|].
    + destruct Hscan as (v&Hin&Hst&Hbest). apply Hp in Hin as (r&?&?&Hr&?). exists r. rewrite Hr.
      split_and!; try done. intros r' Hr' Hsel Hm. unfold path_ge.
      destruct (path r'.2) as [v'|v'] eqn:Hv'; cbn in *; [by destruct (Hne r' Hr' Hsel v' Hv')|].
      right. split; [done|]. apply (Hbest v' r'.1); [|done]. apply Hp. by exists r'.
    + intros r Hr Hsel Hm. destruct (path r.2) as [v|v] eqn:Hv; cbn in *.
      * by destruct (Hne r Hr Hsel v Hv).
      * rewrite (Hscan v r.1) in Hm; [done|]. apply Hp. by exists r.
Qed.

Lemma matchPath_empty p : matchPath emptyRules p = None.
Proof. unfold matchPath. cbn. by rewrite lookup_empty. Qed.

Lemma bind_rulesAt (m : gmap string PathRuleSet) k p :
  ((finalize <$> m) !! k ≫= λ rs, matchPath rs p) =
  match m !! k with Some rs => matchPath (finalize rs) p | None => None end.
Proof. rewrite lookup_fmap. by destruct (m !! k). Qed.

(** The verdict of one authority tier, from the rules of the tier that apply. *)
Definition tier_verdict (L : list Rule) (auth p : string) (t : nat) (res : option string) : Prop :=
  match res with
  | Some svc => ∃ r, r ∈ L ∧ tier (authority r.2) = t ∧ authMatches (authority r.2) auth ∧
      pathMatches (path r.2) p ∧ r.1 = svc ∧
      ∀ r', r' ∈ L → tier (authority r'.2) = t → authMatches (authority r'.2) auth →
        pathMatches (path r'.2) p → path_ge (path r.2) (path r'.2)
  | None => ∀ r, r ∈ L → tier (authority r.2) = t → authMatches (authority r.2) auth →
      ¬ pathMatches (path r.2) p
  end.

Lemma verdict_of_holds L sel rs auth p t :
  (∀ am, sel am ↔ tier am = t ∧ authMatches am auth) → holds L sel rs →
  tier_verdict L auth p t (matchPath (finalize rs) p).
Proof.
  intros Hsel [Hh Hs]%finalize_holds. pose proof (matchPath_spec L sel _ p Hh Hs) as Hm.
  unfold tier_verdict. destruct (matchPath _ _).
  - destruct Hm as (r&?&[? ?]%Hsel&?&?&Hb). exists r. split_and!; try done.
    intros r' ????. apply Hb; [done|by apply Hsel|done].
  - intros r ???. apply Hm; [done|by apply Hsel].
Qed.

Lemma verdict_none L auth p t :
  (∀ r : Rule, tier (authority r.2) = t → ¬ authMatches (authority r.2) auth) →
  tier_verdict L auth p t None.
Proof. intros Hn r _ Ht Ha. by destruct (Hn r Ht). Qed.

Lemma verdict_rulesAt L sel (m : gmap string PathRuleSet) k auth p t :
  (∀ am, sel am ↔ tier am = t ∧ authMatches am auth) → holds L sel (rulesAt m k) →
  tier_verdict L auth p t ((finalize <$> m) !! k ≫= λ rs, matchPath rs p).
Proof.
  intros Hsel Hh. rewrite bind_rulesAt. unfold rulesAt in Hh. destruct (m !! k) as [rs|].
  - by eapply verdict_of_holds.
  - intros r Hr Ht Ha Hm. cbn in Hh. assert (sel (authority r.2)) as Hs by by apply Hsel.
    destruct Hh as [_ Hx Hp], (path r.2) as [v|v] eqn:Hv; cbn in *.
    + destruct (Hx r v Hr Hs Hv) as [? Hl]. by rewrite lookup_empty in Hl.
    + assert ((v, r.1) ∈ ([] : list (string * string))) as Hin by (apply Hp; by exists r).
      by apply elem_of_nil in Hin.
Qed.

(** A verdict with nothing in the higher tiers is the overall best match. *)
Lemma best_of_verdict L auth p t svc :
  tier_verdict L auth (effectivePath p) t (Some svc) →
  (∀ t', (t < t' <= 2)%nat → tier_verdict L auth (effectivePath p) t' None) →
  ∃ r, r ∈ L ∧ ruleMatches r auth p ∧ r.1 = svc ∧
    ∀ r', r' ∈ L → ruleMatches r' auth p → rule_ge r r'.
Proof.
  intros (r&Hr&Ht&?&?&?&Hb) Hnone. exists r. split_and!; try done.
  intros r' Hr' [Ha Hp]. unfold rule_ge. rewrite Ht.
  destruct (lt_eq_lt_dec (tier (authority r'.2)) t) as [[Hlt|Heq]|Hgt].
  - by left.
  - right. split; [done|]. by apply Hb.
  - exfalso. refine (Hnone (tier (authority r'.2)) _ r' Hr' eq_refl Ha Hp).
    split; [done|]. destruct (authority r'.2); cbn; lia.
Qed.

Lemma exact_verdict L sm auth p :
  matcher_holds L sm →
  tier_verdict L auth p 2
    ((finalize <$> exactAuthorityRules_ sm) !! auth ≫= λ rs, matchPath rs p).
Proof.
  intros [He _ _]. apply (verdict_rulesAt L (selExact auth)); [|done]. unfold selExact.
  intros am. split; [by intros ->|]. destruct am as [v|v|]; cbn; intros [? Hm]; congruence.
Qed.

Lemma wildcard_verdict L sm auth p :
  matcher_holds L sm →
  tier_verdict L auth p 1
    ((authoritySuffix auth ≫= λ suffix, (finalize <$> wildcardAuthorityRules_ sm) !! suffix)
      ≫= λ rs, matchPath rs p).
Proof.
  intros [_ Hw _]. destruct (authoritySuffix auth) as [suffix|] eqn:Hs; cbn [mbind option_bind].
  - apply (verdict_rulesAt L (selWild suffix)); [|done]. intros am. unfold selWild. split.
    + intros (pt&->&Hp). cbn. split; [done|]. eauto.
    + destruct am as [v|v|]; cbn; intros [? Hm]; try done. destruct Hm as (x&?&?).
      exists v. split; [done|]. congruence.
  - apply verdict_none. intros r Ht. destruct (authority r.2); cbn in *; try done.
    intros (x&_&Hx). congruence.
Qed.

Lemma any_verdict L sm auth p :
  matcher_holds L sm → tier_verdict L auth p 0 (matchPath (finalize (anyAuthorityRules_ sm)) p).
Proof.
  intros [_ _ Ha]. apply (verdict_of_holds L selAny); [|done]. unfold selAny.
  intros am. split; [by intros ->|]. destruct am; cbn; by intros [? ?].
Qed.

(** [res] is the service of a best rule among those of [L] that match, or
    nothing when none matches. *)
Definition best_match (L : list Rule) (auth p : string) (res : option string) : Prop :=
  match res with
  | Some svc => ∃ r, r ∈ L ∧ ruleMatches r auth p ∧ r.1 = svc ∧
      ∀ r', r' ∈ L → ruleMatches r' auth p → rule_ge r r'
  | None => ∀ r, r ∈ L → ¬ ruleMatches r auth p
  end.

Lemma smMatch_best services sm auth p :
  newServiceMatcher services = Some sm → best_match (rulesOf services) auth p (smMatch sm auth p).
Proof.
  unfold newServiceMatcher, best_match. destruct (addEntries _ _) as [sm0|] eqn:Hadd; [|done].
  intros [= <-]. apply (addEntries_holds []) in Hadd; [|apply empty_holds]. cbn [app] in Hadd.
  set (L := rulesOf services) in *.
  pose proof (exact_verdict L sm0 auth (effectivePath p) Hadd) as V2.
  pose proof (wildcard_verdict L sm0 auth (effectivePath p) Hadd) as V1.
  pose proof (any_verdict L sm0 auth (effectivePath p) Hadd) as V0.
  unfold smMatch. cbv zeta. cbn [exactAuthorityRules_ wildcardAuthorityRules_ anyAuthorityRules_].
  destruct ((finalize <$> exactAuthorityRules_ sm0) !! auth ≫= _) as [svc|].
  { apply (best_of_verdict _ _ _ _ _ V2). lia. }
  destruct ((authoritySuffix auth ≫= _) ≫= _) as [svc|].
  { apply (best_of_verdict _ _ _ _ _ V1). intros t' ?. by replace t' with 2%nat by lia. }
  destruct (matchPath _ _) as [svc|].
  { apply (best_of_verdict _ _ _ _ _ V0). intros t' ?.
    destruct (decide (t' = 1%nat)) as [->|]; [done|by replace t' with 2%nat by lia]. }
  intros r Hr [Ha Hp]. destruct (tier (authority r.2)) as [|[|[|t]]] eqn:Ht.
  - by apply (V0 r).
  - by apply (V1 r).
  - by apply (V2 r).
  - by destruct (authority r.2).
Qed.

(** C28: The service that [match] returns is that of a matching rule of the
    highest priority: an exact authority before a wildcard before any, and
    within the authority tier an exact path before the longest matching
    prefix; [match] returns nothing only when no rule matches the authority
    and path.  This holds for any order [std::sort] leaves prefixes of equal
    length in. *)
Theorem match_best services sm auth p :
  newServiceMatcher services = Some sm →
  match smMatch sm auth p with
  | Some svc => ∃ r, r ∈ rulesOf services ∧ ruleMatches r auth p ∧ r.1 = svc ∧
      ∀ r', r' ∈ rulesOf services → ruleMatches r' auth p → rule_ge r r'
  | None => ∀ r, r ∈ rulesOf services → ¬ ruleMatches r auth p
  end.
Proof.
  intros Hnew. pose proof (smMatch_best services sm auth p Hnew) as Hb.
  by destruct (smMatch sm auth p).
Qed.

(** [allExactPaths] lists every exact path of every rule once. *)

Lemma collectPaths_spec paths seen result :
  NoDup result → (∀ v, v ∈ seen ↔ v ∈ result) →
  NoDup (collectPaths paths seen result).2 ∧
  ∀ v, v ∈ (collectPaths paths seen result).2 ↔ v ∈ result ∨ v ∈ paths.
Proof.
  revert seen result. induction paths as [|q paths IH]; intros seen result Hnd Hs; cbn.
  { split; [done|]. intros v. rewrite elem_of_nil. tauto. }
  case_bool_decide as Hq.
  - destruct (IH seen result Hnd Hs) as [? Hv]. split; [done|]. intros v. rewrite Hv, elem_of_cons.
    apply Hs in Hq. naive_solver.
  - destruct (IH ({[q]} ∪ seen) (result ++ [q])%list) as [? Hv].
    + apply NoDup_app. split_and!; [done| |apply NoDup_singleton].
      intros v Hv ->%list_elem_of_singleton. by apply Hq, Hs.
    + intros v. rewrite elem_of_union, elem_of_app, Hs, elem_of_singleton, list_elem_of_singleton. tauto.
    + split; [done|]. intros v. rewrite Hv, elem_of_app, list_elem_of_singleton, elem_of_cons. tauto.
Qed.

Lemma pathsOf_elem rs v : v ∈ pathsOf rs ↔ is_Some (exactPaths rs !! v).
Proof.
  unfold pathsOf. rewrite list_elem_of_fmap. split.
  - intros ([v' s]&->&Hv%elem_of_map_to_list). eauto.
  - intros [s Hs]. exists (v, s). split; [done|]. by apply elem_of_map_to_list.
Qed.

Lemma mapPaths_elem (m : gmap string PathRuleSet) v :
  v ∈ mjoin ((λ kv : string * PathRuleSet, pathsOf kv.2) <$> map_to_list (finalize <$> m)) ↔
  ∃ k, is_Some (exactPaths (rulesAt m k) !! v).
Proof.
  rewrite list_elem_of_join. setoid_rewrite list_elem_of_fmap. split.
  - intros (ps&Hv&[k rs]&->&Hk%elem_of_map_to_list). cbn in Hv. apply pathsOf_elem in Hv.
    rewrite lookup_fmap, fmap_Some in Hk. destruct Hk as (rs0&Hk&->). exists k.
    unfold rulesAt. by rewrite Hk.
  - intros [k Hk]. unfold rulesAt in Hk. destruct (m !! k) as [rs|] eqn:Hm.
    + exists (pathsOf (finalize rs)). split; [by apply pathsOf_elem|]. exists (k, finalize rs).
      split; [done|]. apply elem_of_map_to_list. by rewrite lookup_fmap, Hm.
    + cbn in Hk. rewrite lookup_empty in Hk. by destruct Hk.
Qed.

Lemma addEntries_suffix L sm sm' r pattern :
  addEntries L sm = Some sm' → r ∈ L → authority r.2 = WildcardAuthority pattern →
  is_Some (wildcardSuffix pattern).
Proof.
  revert sm. induction L as [|[name e] L IH]; intros sm; [by intros _ ?%elem_of_nil|]. cbn.
  destruct (addEntry name e sm) as [sm1|] eqn:H1; [|done]. intros H2 [->|Hr]%elem_of_cons Ha; [|by eapply IH].
  unfold addEntry in H1. cbn in Ha. rewrite Ha in H1. destruct (wildcardSuffix pattern); [eauto|done].
Qed.

(** The constructor only throws on an empty wildcard pattern. *)
Lemma addEntries_defined L sm :
  (∀ r, r ∈ L → authority r.2 ≠ WildcardAuthority "") → ∃ sm', addEntries L sm = Some sm'.
Proof.
  revert sm. induction L as [|[name e] L IH]; intros sm HL; cbn; [eauto|].
  assert (∃ sm1, addEntry name e sm = Some sm1) as [sm1 ->].
  { specialize (HL (name, e) ltac:(by left)). unfold addEntry. cbn in HL.
    destruct (authority e) as [v|[|c pattern]|]; cbn; eauto. done. }
  apply IH. intros r Hr. apply HL. by right.
Qed.

Lemma allExactPaths_complete services sm :
  newServiceMatcher services = Some sm →
  NoDup (allExactPaths sm) ∧
  ∀ v, v ∈ allExactPaths sm ↔ ∃ r, r ∈ rulesOf services ∧ path r.2 = ExactPath v.
Proof.
  unfold newServiceMatcher. destruct (addEntries _ _) as [sm0|] eqn:Hadd; [|done].
  intros [= <-].
  pose proof Hadd as Hh. apply (addEntries_holds []) in Hh as [He Hw Ha]; [|apply empty_holds].
  cbn [app] in *. unfold allExactPaths.
  match goal with |- context [collectPaths ?ps _ _] =>
    destruct (collectPaths_spec ps ∅ []) as [Hnd Hel] end;
    [constructor|intros v; rewrite elem_of_nil; set_solver|].
  split; [done|]. intros v. rewrite Hel, elem_of_nil, !elem_of_app.
  cbn [exactAuthorityRules_ wildcardAuthorityRules_ anyAuthorityRules_]. rewrite !mapPaths_elem, pathsOf_elem.
  split.
  - intros [[]|[[k [s Hs]]|[[k [s Hs]]|[s Hs]]]];
      [apply He in Hs|apply Hw in Hs|apply Ha in Hs]; destruct Hs as (r&?&_&?&_); by exists r.
  - intros (r&Hr&Hp). right. destruct (authority r.2) as [k|pattern|] eqn:Hau.
    + left. exists k. eapply (He k); [exact Hr|by rewrite Hau|done].
    + right; left. destruct (addEntries_suffix _ _ _ r pattern Hadd Hr Hau) as [k Hk].
      exists k. eapply (Hw k); [exact Hr|rewrite Hau; by exists pattern|done].
    + right; right. eapply Ha; [exact Hr|by rewrite Hau|done].
Qed.

End Matcher.

(** ** A sort that meets the parameter's laws, and a small deployment *)

Module MatcherExamples.

#[local] Instance longer_dec : RelDecision longer.
Proof. intros a b. unfold longer. apply _. Defined.

Definition sortByLength (l : list (string * string)) : list (string * string) :=
  merge_sort longer l.

Lemma sortByLength_perm l : sortByLength l ≡ₚ l.
Proof. apply merge_sort_Permutation. Qed.

Lemma sortByLength_sorted l : StronglySorted longer (sortByLength l).
Proof.
  apply StronglySorted_merge_sort; [intros ???; unfold longer; lia|intros ??; unfold longer; lia].
Qed.

Definition deployment : Services :=
  [("live", [mkMatch (WildcardAuthority "*.example.com") (PrefixPath "/live");
             mkMatch (ExactAuthority "cdn.example.com") (PrefixPath "/")]);
   ("vod", [mkMatch AnyAuthority (PrefixPath "/"); mkMatch AnyAuthority (ExactPath "/vod")])].

Definition deployed : ServiceMatcher :=
  default (mkMatcher ∅ ∅ emptyRules) (newServiceMatcher sortByLength deployment).

Lemma match_best_witness :
  smMatch deployed "a.example.com" "/live/1" = Some "live" ∧
  ∃ r, r ∈ rulesOf deployment ∧ ruleMatches r "a.example.com" "/live/1" ∧ r.1 = "live" ∧
    ∀ r', r' ∈ rulesOf deployment → ruleMatches r' "a.example.com" "/live/1" → rule_ge r r'.
Proof.
  split; [vm_compute; reflexivity|].
  exact (match_best sortByLength sortByLength_perm sortByLength_sorted deployment deployed
           "a.example.com" "/live/1" ltac:(vm_compute; reflexivity)).
Defined.

End MatcherExamples.
