(* ===== verification/ConfigData.v ===== *)
(** * Configuration data

    The parsed configuration ([config/loader/ParsedConfig.h]) and the resolved
    one ([config/Config.h], [config/ResolvedConfig.h]).  [std::map]s are lists
    of pairs in key order; the resolved services are listed in the same order.
    [float] and [double] values are [Double]s: the resolver compares them with
    0 and 1 only, and a comparison with NaN is false; a decimal literal stands
    for the nearest value of its format. *)

From Stdlib Require Import QArith.
From S2P Require Import Prelude ServiceMatcher.

#[global] Open Scope Z_scope.

(** ** Floating-point values *)

Inductive Double := Finite (q : Q) | Infinite (negative : bool) | NaN.

Definition double_le (x : Double) (q : Q) : bool :=
  match x with Finite p => Qle_bool p q | Infinite negative => negative | NaN => false end.
Definition double_ge (x : Double) (q : Q) : bool :=
  match x with Finite p => Qle_bool q p | Infinite negative => negb negative | NaN => false end.
Definition double_lt (x : Double) (q : Q) : bool :=
  match x with
  | Finite p => Qle_bool p q && negb (Qle_bool q p)
  | Infinite negative => negative
  | NaN => false
  end.

(** ** The parsed configuration *)

Record ParsedSocketConfig := mkPSocket { sock_address : string; sock_port : Z }.

Record ParsedListenerTlsConfig := mkPTls {
  ptls_cert_file : option string; ptls_key_file : option string; ptls_insecure : bool;
}.

Record ParsedAdminTlsConfig := mkPAdminTls {
  patls_cert_file : option string; patls_key_file : option string; patls_alpn : option (list string);
}.

Record ParsedQuicConfig := mkPQuic {
  max_data : option Z; max_stream_data : option Z; max_uni_streams : option Z;
  max_bidi_streams : option Z; pq_idle_timeout_ms : option Z; max_ack_delay_us : option Z;
  min_ack_delay_us : option Z; default_stream_priority : option Z;
  default_datagram_priority : option Z; cc_algo : option string;
}.

Record ParsedBBR := mkPBBR {
  conservative_recovery : option bool; large_probe_rtt_cwnd : option bool;
  enable_ack_aggregation_in_startup : option bool;
  probe_rtt_disabled_if_app_limited : option bool; drain_to_target : option bool;
}.

Record ParsedBBR2 := mkPBBR2 {
  ignore_inflight_long_term : option bool; ignore_short_term : option bool;
  exit_startup_on_loss : option bool; enable_recovery_in_startup : option bool;
  enable_recovery_in_probe_states : option bool; enable_reno_coexistence : option bool;
  pace_init_cwnd : option bool; override_cruise_pacing_gain : option Double;
  override_cruise_cwnd_gain : option Double; override_startup_pacing_gain : option Double;
  override_bw_short_beta : option Double;
}.

Record ParsedCubic := mkPCubic {
  additive_increase_after_hystart : option bool; only_grow_cwnd_when_limited : option bool;
  leave_headroom_for_cwnd_limited : option bool;
}.

Record ParsedMvfstConfig := mkPMvfst {
  max_cwnd_in_mss : option Z; pacing_enabled : option bool; enable_gso : option bool;
  max_conn_packets_sent_per_loop : option Z; use_recvmmsg : option bool;
  max_server_recv_packets_per_loop : option Z; num_gro_buffers : option Z;
  p_bbr : option ParsedBBR; p_bbr2 : option ParsedBBR2; p_cubic : option ParsedCubic;
  (** [copa.delta_param] and [l4s.ce_target] *)
  p_copa : option (option Double); p_l4s : option (option Double);
}.

Record ParsedListenerConfig := mkPListener {
  pl_name : string; pl_socket : ParsedSocketConfig; pl_tls : ParsedListenerTlsConfig;
  pl_endpoint : string; moqt_versions : option (list Z); quic_stack : option string;
  pl_quic : option ParsedQuicConfig; pl_mvfst : option ParsedMvfstConfig;
}.

Record ParsedCacheConfig := mkPCache {
  enabled : option bool; max_tracks : option Z; max_groups_per_track : option Z;
  max_cached_mb : option Z; min_eviction_kb : option Z; max_cache_duration_s : option Z;
  default_max_cache_duration_s : option Z;
}.

Record ParsedAdminConfig := mkPAdmin {
  pa_port : Z; pa_address : string; plaintext : bool; pa_tls : option ParsedAdminTlsConfig;
}.

Record ParsedUpstreamConfig := mkPUpstream {
  pu_url : string; pu_insecure : bool; ca_cert : option string;
  connect_timeout_ms : option Z; pu_idle_timeout_ms : option Z;
}.

Inductive AuthorityMatch :=
| PExactAuthority (exact : string)
| PWildcardAuthority (wildcard : string)
| PAnyAuthority (any : bool).

(** A path match has the alternatives of the resolved one. *)
Record MatchRule := mkRule { r_authority : AuthorityMatch; r_path : PathMatcher }.

Record ParsedServiceConfig := mkPService {
  ps_match : list MatchRule; ps_cache : option ParsedCacheConfig;
  ps_upstream : option ParsedUpstreamConfig;
}.

Record ParsedSbdConfig := mkPSbd {
  psbd_enabled : option bool; delay_source : option string; output_file : option string;
  algorithm : option string;
}.

Record ParsedConfig := mkPConfig {
  rtt_outputs : option (list (string * string));
  pc_edge : option bool;
  pc_sbd : option ParsedSbdConfig;
  listeners : list ParsedListenerConfig;
  (** [service_defaults.cache] *)
  defaults_cache : option ParsedCacheConfig;
  services : list (string * ParsedServiceConfig);
  pc_admin : option ParsedAdminConfig;
  relay_id : option string;
  (** [listener_defaults.quic] and [listener_defaults.mvfst] *)
  defaults_quic : option ParsedQuicConfig;
  defaults_mvfst : option ParsedMvfstConfig;
  pc_threads : option Z;
  mvfst_bpf_steering : option bool;
}.

(** ** The resolved configuration *)

Record TlsConfig := mkTls { certFile : string; keyFile : string; alpn : list string }.

Inductive TlsMode := Insecure | Tls (tls : TlsConfig).

(** Durations are milliseconds. *)
Record CacheConfig := mkCacheConfig {
  maxCachedTracks : Z; maxCachedGroupsPerTrack : Z; maxCachedMb : Z; minEvictionKb : Z;
  cc_maxCacheDuration : Z; defaultMaxCacheDuration : option Z;
}.

Inductive QuicStack := Mvfst | Picoquic.

Record QuicConfig := mkQuic {
  maxData : Z; maxStreamData : Z; maxUniStreams : Z; maxBidiStreams : Z; idleTimeoutMs : Z;
  maxAckDelayUs : Z; minAckDelayUs : Z; defaultStreamPriority : Z; defaultDatagramPriority : Z;
  ccAlgo : string;
}.

Definition defaultQuic : QuicConfig :=
  mkQuic 67108864 16777216 8192 16 30000 25000 1000 2 1 "bbr".

Record BBR := mkBBR {
  conservativeRecovery : bool; largeProbeRttCwnd : bool; enableAckAggregationInStartup : bool;
  probeRttDisabledIfAppLimited : bool; drainToTarget : bool;
}.
Record BBR2 := mkBBR2 {
  ignoreInflightLongTerm : bool; ignoreShortTerm : bool; exitStartupOnLoss : bool;
  enableRecoveryInStartup : bool; enableRecoveryInProbeStates : bool;
  enableRenoCoexistence : bool; paceInitCwnd : bool; overrideCruisePacingGain : Double;
  overrideCruiseCwndGain : Double; overrideStartupPacingGain : Double;
  overrideBwShortBeta : Double;
}.
Record Cubic := mkCubic {
  additiveIncreaseAfterHystart : bool; onlyGrowCwndWhenLimited : bool;
  leaveHeadroomForCwndLimited : bool;
}.

Record MvfstConfig := mkMvfst {
  maxCwndInMss : Z; pacingEnabled : bool; enableGSO : bool; maxConnPacketsSentPerLoop : Z;
  useRecvmmsg : bool; maxServerRecvPacketsPerLoop : Z; numGROBuffers : Z;
  bbr : BBR; bbr2 : BBR2; cubic : Cubic; deltaParam : Double; ceTarget : Double;
}.

Definition defaultMvfst : MvfstConfig :=
  mkMvfst 860000 true true 48 true 64 1
    (mkBBR false false false false false)
    (mkBBR2 false false true true true false false (Finite (-1)) (Finite (-1)) (Finite (-1))
       (Finite 0))
    (mkCubic false false false) (Finite (5 # 100)) (Finite 0).

Record UpstreamConfig := mkUpstream {
  u_url : string; u_insecure : bool; caCertFile : option string; connectTimeout : Z;
  idleTimeout : Z;
}.

Record ServiceConfig := mkService {
  s_match : list MatchEntry; s_cache : CacheConfig; s_upstream : option UpstreamConfig;
}.

Record SbdConfig := mkSbd {
  sbd_enabled : bool; delaySource : string; outputFile : string; sbd_algorithm : string;
}.

Section Resolved.
Context {SocketAddress : Type}.

Record ListenerConfig := mkListener {
  l_name : string; l_address : SocketAddress; tlsMode : TlsMode; l_endpoint : string;
  moqtVersions : string; quicStack : QuicStack; l_quic : QuicConfig; sbdOwd : bool;
  l_mvfst : MvfstConfig;
}.

Record AdminConfig := mkAdmin { a_address : SocketAddress; a_tls : option TlsConfig }.

Record Config := mkConfig {
  c_listeners : list ListenerConfig;
  c_services : list (string * ServiceConfig);
  c_admin : option AdminConfig;
  relayID : string;
  c_threads : Z;
  mvfstBpfSteering : bool;
  c_edge : bool;
  c_sbd : SbdConfig;
  rttOutputs : list (string * string);
}.

End Resolved.
