(* ===== verification/ConfigResolver.v ===== *)
(** * Configuration resolution

    Models [src/src/config/ConfigResolver.cpp]: the validation of a parsed
    configuration, the merging of defaults and overrides, and the resolved
    configuration.  Where the source formats a message and pushes it on
    [errors] or [warnings], the model appends a constructor that carries the
    values the message names, in the same order.

    [folly::SocketAddress]'s constructor, which throws on an address it cannot
    parse, and [folly::IPAddress::validate] are parameters.  The two draws of
    [std::random_device] are arguments of [resolveConfig]. *)

From stdpp Require Import pretty.
From Stdlib Require Import QArith Ascii.
From S2P Require Import Prelude ServiceMatcher ConfigData.

#[local] Open Scope string_scope.
#[local] Open Scope Z_scope.

(** ** Outcomes

    [Throws] is an exception that leaves [resolveConfig]; [Undefined] is the
    dereference of an empty [std::optional] or an index past the end of a
    vector, which the language leaves undefined. *)

Inductive Outcome (A : Type) := Done (a : A) | Throws | Undefined.
Arguments Done {A} a.
Arguments Throws {A}.
Arguments Undefined {A}.

#[export] Instance outcome_ret : MRet Outcome := λ A a, Done a.
#[export] Instance outcome_bind : MBind Outcome := λ A B f o,
  match o with Done a => f a | Throws => Throws | Undefined => Undefined end.

(** [*o] *)
Definition deref {A} (o : option A) : Outcome A :=
  match o with Some a => Done a | None => Undefined end.

(** A call that throws when it has no result. *)
Definition orThrow {A} (o : option A) : Outcome A :=
  match o with Some a => Done a | None => Throws end.

Fixpoint mapOutcome {A B} (f : A → Outcome B) (l : list A) : Outcome (list B) :=
  match l with
  | [] => Done []
  | x :: l => y ← f x; ys ← mapOutcome f l; Done (y :: ys)
  end.

(** ** Diagnostics *)

Inductive ConfigError :=
| NoListener
| ListenerPortZero (listener : string)
| ListenerTlsFilesRequired (listener : string)
| UnknownQuicStack (listener stack : string)
| PicoquicNeedsTls (listener : string)
| DuplicateListenerAddress (addr : string)
| MaxDataTooSmall (listener : string) (maxData maxStreamData : Z)
| MaxAckDelayTooSmall (listener : string) (maxAckDelay minAckDelay : Z)
| CcAlgoInvalid (listener algo : string)
| ZeroMaxCwnd (listener : string)
| ZeroPacketsPerLoop (listener : string)
| ZeroGroBuffers (listener : string)
| CopaDeltaOutOfRange (listener : string) (delta : Double)
| CeTargetOutOfRange (listener : string) (target : Double)
| PacingRequired (listener algo : string)
| AdminPortZero
| AdminPlaintextAndTls
| AdminPlaintextOrTls
| AdminTlsFilesRequired
| NoService
| ExactAuthorityEmpty (service : string) (j : nat)
| WildcardMalformed (service : string) (j : nat) (pattern : string)
| WildcardManyStars (service : string) (j : nat) (pattern : string)
| AnyAuthorityFalse (service : string) (j : nat)
| PathEmpty (service : string) (j : nat)
| PathNotAbsolute (service : string) (j : nat) (path : string)
| DuplicateRule (service key : string)
| CacheEnabledRequired (service : string)
| CacheMaxTracksRequired (service : string)
| CacheMaxGroupsRequired (service : string)
| CacheMaxGroupsZero (service : string)
| CacheDurationZero (service : string)
| CacheMbZero (service : string)
| UpstreamUrlEmpty
| UpstreamTlsConflict
| ThreadsZero
| ThreadsUnsupported
| SbdDelaySourceInvalid
| SbdAlgorithmInvalid
| SbdDelaySourceForDcSbd
| SbdRequiresEdge
| RttRequiresMvfst
| RttOutputInvalid.

Inductive ConfigWarning :=
| TlsFilesIgnored (listener : string)
| FewUniStreams (listener : string) (n : Z)
| FewBidiStreams (listener : string) (n : Z)
| ShortIdleTimeout (listener : string) (ms : Z)
| ManyGroBuffers (listener : string) (n : Z)
| PrefixPathOnPico (listeners : list string) (service : string) (j : nat) (prefix : string)
| NoExactPathOnPico (listeners : list string).

(** The errors and warnings a validator appends. *)
Definition Diagnostics : Type := list ConfigError * list ConfigWarning.

Definition errorIf (b : bool) (e : ConfigError) : Diagnostics := (if b then [e] else [], []).
Definition warnIf (b : bool) (w : ConfigWarning) : Diagnostics := ([], if b then [w] else []).
Definition andThen (d d' : Diagnostics) : Diagnostics := (d.1 ++ d'.1, d.2 ++ d'.2)%list.

Declare Scope config_scope.
#[local] Open Scope config_scope.
Infix ">+>" := andThen (at level 60, right associativity) : config_scope.

Definition is_set {A} (o : option A) : bool := match o with Some _ => true | None => false end.
Definition nonEmpty (s : string) : bool := negb (String.eqb s "").

(** [o.has_value() && !o->empty()] *)
Definition hasFile (o : option string) : bool :=
  match o with Some s => nonEmpty s | None => false end.

(** ** TLS *)

Definition validateListenerTlsConfig (tls : ParsedListenerTlsConfig) (listener : string) :
    Diagnostics :=
  let hasCert := hasFile (ptls_cert_file tls) in
  let hasKey := hasFile (ptls_key_file tls) in
  if negb (ptls_insecure tls) then
    errorIf (negb hasCert || negb hasKey) (ListenerTlsFilesRequired listener)
  else warnIf (hasCert || hasKey) (TlsFilesIgnored listener).

Definition validateAdminTlsConfig (tls : ParsedAdminTlsConfig) : Diagnostics :=
  let hasCert := hasFile (patls_cert_file tls) in
  let hasKey := hasFile (patls_key_file tls) in
  errorIf (negb hasCert || negb hasKey) AdminTlsFilesRequired.

Definition resolveTlsConfig (tls : ParsedListenerTlsConfig) : TlsConfig :=
  mkTls (default "" (ptls_cert_file tls)) (default "" (ptls_key_file tls)) [].

Definition resolveAdminTlsConfig (tls : ParsedAdminTlsConfig) (defaultAlpn : list string) :
    TlsConfig :=
  mkTls (default "" (patls_cert_file tls)) (default "" (patls_key_file tls))
    (default defaultAlpn (patls_alpn tls)).

(** ** Cache settings *)

(** [overlay.has_value() ? overlay : base] *)
Definition override {A} (overlay base : option A) : option A :=
  match overlay with Some _ => overlay | None => base end.

Definition mergeCacheConfigs (base overlay : ParsedCacheConfig) : ParsedCacheConfig :=
  mkPCache (override (enabled overlay) (enabled base))
    (override (max_tracks overlay) (max_tracks base))
    (override (max_groups_per_track overlay) (max_groups_per_track base))
    (override (max_cached_mb overlay) (max_cached_mb base))
    (override (min_eviction_kb overlay) (min_eviction_kb base))
    (override (max_cache_duration_s overlay) (max_cache_duration_s base))
    (override (default_max_cache_duration_s overlay) (default_max_cache_duration_s base)).

Definition kDefaultMaxCacheDurationS : Z := 86400.

Definition resolveCacheConfig (cache : ParsedCacheConfig) : Outcome CacheConfig :=
  let maxCacheDuration := 1000 * default kDefaultMaxCacheDurationS (max_cache_duration_s cache) in
  let defaultMax :=
    match default_max_cache_duration_s cache with
    | Some s => 1000 * s
    | None => maxCacheDuration
    end in
  on ← deref (enabled cache);
  tracks ← (if on : bool then deref (max_tracks cache) else Done 0);
  groups ← deref (max_groups_per_track cache);
  Done (mkCacheConfig tracks groups (default 16 (max_cached_mb cache))
          (default 64 (min_eviction_kb cache)) maxCacheDuration (Some defaultMax)).

(** The [merged] settings of [validateService]. *)
Definition noCache : ParsedCacheConfig := mkPCache None None None None None None None.

Definition mergedCache (svc : ParsedServiceConfig) (defaults : option ParsedCacheConfig) :
    ParsedCacheConfig :=
  match ps_cache svc, defaults with
  | Some c, Some d => mergeCacheConfigs d c
  | Some c, None => c
  | None, Some d => d
  | None, None => noCache
  end.

(** ** Listeners *)

Definition kStackMvfst : string := "mvfst".
Definition kStackPicoquic : string := "picoquic".

(** [listener.quic_stack.value_or(kStackMvfst)] *)
Definition stackName (l : ParsedListenerConfig) : string := default kStackMvfst (quic_stack l).

Definition stackOf (l : ParsedListenerConfig) : QuicStack :=
  if String.eqb (stackName l) kStackPicoquic then Picoquic else Mvfst.

Definition moqtVersionsToString (l : ParsedListenerConfig) : string :=
  match moqt_versions l with
  | None | Some [] => ""
  | Some vs => String.concat "," (pretty <$> vs)
  end.

Definition validateListener (l : ParsedListenerConfig) : Diagnostics :=
  errorIf (sock_port (pl_socket l) =? 0) (ListenerPortZero (pl_name l)) >+>
  validateListenerTlsConfig (pl_tls l) (pl_name l) >+>
  match quic_stack l with
  | Some s => errorIf (negb (String.eqb s kStackMvfst) && negb (String.eqb s kStackPicoquic))
                (UnknownQuicStack (pl_name l) s)
  | None => ([], [])
  end >+>
  errorIf (String.eqb (stackName l) kStackPicoquic && ptls_insecure (pl_tls l))
    (PicoquicNeedsTls (pl_name l)).

(** [address + ":" + std::to_string(port)] *)
Definition listenerAddr (l : ParsedListenerConfig) : string :=
  sock_address (pl_socket l) ++ ":" ++ pretty (sock_port (pl_socket l)).

(** *** QUIC settings *)

Definition applyQuicOverride (base : QuicConfig) (o : ParsedQuicConfig) : QuicConfig :=
  mkQuic (default (maxData base) (max_data o))
    (default (maxStreamData base) (max_stream_data o))
    (default (maxUniStreams base) (max_uni_streams o))
    (default (maxBidiStreams base) (max_bidi_streams o))
    (default (idleTimeoutMs base) (pq_idle_timeout_ms o))
    (default (maxAckDelayUs base) (max_ack_delay_us o))
    (default (minAckDelayUs base) (min_ack_delay_us o))
    (default (defaultStreamPriority base) (default_stream_priority o))
    (default (defaultDatagramPriority base) (default_datagram_priority o))
    (default (ccAlgo base) (cc_algo o)).

(** [if (o) apply(result, *o)] *)
Definition applyIf {A B} (apply : A → B → A) (base : A) (o : option B) : A :=
  match o with Some b => apply base b | None => base end.

Definition mergeQuicConfig (defaults perListener : option ParsedQuicConfig) : QuicConfig :=
  let result := defaultQuic in
  let result := applyIf applyQuicOverride result defaults in
  applyIf applyQuicOverride result perListener.

Definition applyBBROverride (base : BBR) (b : ParsedBBR) : BBR :=
  mkBBR (default (conservativeRecovery base) (conservative_recovery b))
    (default (largeProbeRttCwnd base) (large_probe_rtt_cwnd b))
    (default (enableAckAggregationInStartup base) (enable_ack_aggregation_in_startup b))
    (default (probeRttDisabledIfAppLimited base) (probe_rtt_disabled_if_app_limited b))
    (default (drainToTarget base) (drain_to_target b)).

Definition applyBBR2Override (base : BBR2) (b : ParsedBBR2) : BBR2 :=
  mkBBR2 (default (ignoreInflightLongTerm base) (ignore_inflight_long_term b))
    (default (ignoreShortTerm base) (ignore_short_term b))
    (default (exitStartupOnLoss base) (exit_startup_on_loss b))
    (default (enableRecoveryInStartup base) (enable_recovery_in_startup b))
    (default (enableRecoveryInProbeStates base) (enable_recovery_in_probe_states b))
    (default (enableRenoCoexistence base) (enable_reno_coexistence b))
    (default (paceInitCwnd base) (pace_init_cwnd b))
    (default (overrideCruisePacingGain base) (override_cruise_pacing_gain b))
    (default (overrideCruiseCwndGain base) (override_cruise_cwnd_gain b))
    (default (overrideStartupPacingGain base) (override_startup_pacing_gain b))
    (default (overrideBwShortBeta base) (override_bw_short_beta b)).

Definition applyCubicOverride (base : Cubic) (c : ParsedCubic) : Cubic :=
  mkCubic (default (additiveIncreaseAfterHystart base) (additive_increase_after_hystart c))
    (default (onlyGrowCwndWhenLimited base) (only_grow_cwnd_when_limited c))
    (default (leaveHeadroomForCwndLimited base) (leave_headroom_for_cwnd_limited c)).

Definition applyMvfstOverride (base : MvfstConfig) (o : ParsedMvfstConfig) : MvfstConfig :=
  mkMvfst (default (maxCwndInMss base) (max_cwnd_in_mss o))
    (default (pacingEnabled base) (pacing_enabled o))
    (default (enableGSO base) (enable_gso o))
    (default (maxConnPacketsSentPerLoop base) (max_conn_packets_sent_per_loop o))
    (default (useRecvmmsg base) (use_recvmmsg o))
    (default (maxServerRecvPacketsPerLoop base) (max_server_recv_packets_per_loop o))
    (default (numGROBuffers base) (num_gro_buffers o))
    (applyIf applyBBROverride (bbr base) (p_bbr o))
    (applyIf applyBBR2Override (bbr2 base) (p_bbr2 o))
    (applyIf applyCubicOverride (cubic base) (p_cubic o))
    (applyIf (λ x v, default x v) (deltaParam base) (p_copa o))
    (applyIf (λ x v, default x v) (ceTarget base) (p_l4s o)).

Definition mergeMvfstConfig (defaults perListener : option ParsedMvfstConfig) : MvfstConfig :=
  let result := defaultMvfst in
  let result := applyIf applyMvfstOverride result defaults in
  applyIf applyMvfstOverride result perListener.

Definition kPicoCcAlgos : list string :=
  ["bbr"; "bbr1"; "c4"; "cubic"; "dcubic"; "fast"; "newreno"; "prague"; "reno"].
Definition kMvfstCcAlgos : list string :=
  ["bbr"; "bbr2"; "bbr2modular"; "copa"; "cubic"; "newreno"; "none"].

Definition validAlgos (stack : QuicStack) : list string :=
  match stack with Picoquic => kPicoCcAlgos | Mvfst => kMvfstCcAlgos end.

Definition validateQuicConfig (quic : QuicConfig) (stack : QuicStack) (listener : string) :
    Diagnostics :=
  errorIf (maxData quic <? maxStreamData quic)
    (MaxDataTooSmall listener (maxData quic) (maxStreamData quic)) >+>
  warnIf (maxUniStreams quic <? 100) (FewUniStreams listener (maxUniStreams quic)) >+>
  warnIf (maxBidiStreams quic <? 16) (FewBidiStreams listener (maxBidiStreams quic)) >+>
  warnIf (idleTimeoutMs quic <? 5000) (ShortIdleTimeout listener (idleTimeoutMs quic)) >+>
  errorIf (maxAckDelayUs quic <? minAckDelayUs quic)
    (MaxAckDelayTooSmall listener (maxAckDelayUs quic) (minAckDelayUs quic)) >+>
  errorIf (negb (bool_decide (ccAlgo quic ∈ validAlgos stack)))
    (CcAlgoInvalid listener (ccAlgo quic)).

Definition validateMvfstConfig (m : MvfstConfig) (listener : string) : Diagnostics :=
  errorIf (maxCwndInMss m =? 0) (ZeroMaxCwnd listener) >+>
  errorIf (maxConnPacketsSentPerLoop m =? 0) (ZeroPacketsPerLoop listener) >+>
  errorIf (numGROBuffers m =? 0) (ZeroGroBuffers listener) >+>
  warnIf (64 <? numGROBuffers m) (ManyGroBuffers listener (numGROBuffers m)) >+>
  errorIf (double_le (deltaParam m) 0 || double_ge (deltaParam m) 1)
    (CopaDeltaOutOfRange listener (deltaParam m)) >+>
  errorIf (double_lt (ceTarget m) 0 || double_ge (ceTarget m) 1)
    (CeTargetOutOfRange listener (ceTarget m)).

(** The pacing check at the end of the listener loop. *)
Definition validatePacing (quic : QuicConfig) (m : MvfstConfig) (listener : string) : Diagnostics :=
  errorIf (negb (pacingEnabled m) && bool_decide (ccAlgo quic ∈ ["bbr"; "bbr2"; "bbr2modular"]))
    (PacingRequired listener (ccAlgo quic)).

(** ** Admin server *)

Definition validateAdmin (admin : option ParsedAdminConfig) : Diagnostics :=
  match admin with
  | None => ([], [])
  | Some a =>
      let hasTls := is_set (pa_tls a) in
      errorIf (pa_port a =? 0) AdminPortZero >+>
      (if hasTls && plaintext a then errorIf true AdminPlaintextAndTls
       else errorIf (negb hasTls && negb (plaintext a)) AdminPlaintextOrTls) >+>
      match pa_tls a with Some tls => validateAdminTlsConfig tls | None => ([], []) end
  end.

(** ** Match rules *)

Record AuthorityInfo := mkInfo { info_type : string; info_value : string }.

(** [s.find(c) != npos] *)
Fixpoint contains (c : Ascii.ascii) (s : string) : bool :=
  match s with
  | EmptyString => false
  | String d s => Ascii.eqb c d || contains c s
  end.

(** [s[n] == c], for an index within the string *)
Definition charIs (n : nat) (c : Ascii.ascii) (s : string) : bool :=
  match String.get n s with Some d => Ascii.eqb d c | None => false end.

Definition validateAuthority (a : AuthorityMatch) (service : string) (j : nat) :
    option AuthorityInfo * Diagnostics :=
  match a with
  | PExactAuthority v =>
      if String.eqb v "" then (None, errorIf true (ExactAuthorityEmpty service j))
      else (Some (mkInfo "exact" v), ([], []))
  | PWildcardAuthority pat =>
      if (String.length pat <? 3)%nat || negb (charIs 0 "*"%char pat) || negb (charIs 1 "."%char pat) then
        (None, errorIf true (WildcardMalformed service j pat))
      else if contains "*"%char (String.substring 2 (String.length pat - 2) pat) then
        (None, errorIf true (WildcardManyStars service j pat))
      else (Some (mkInfo "wildcard" pat), ([], []))
  | PAnyAuthority any =>
      if negb any then (None, errorIf true (AnyAuthorityFalse service j))
      else (Some (mkInfo "any" ""), ([], []))
  end.

Definition pathValue (p : PathMatcher) : string :=
  match p with ExactPath v | PrefixPath v => v end.

Definition validatePath (p : PathMatcher) (service : string) (j : nat) : bool * Diagnostics :=
  let v := pathValue p in
  if String.eqb v "" then (false, errorIf true (PathEmpty service j))
  else if negb (charIs 0 "/"%char v) then (false, errorIf true (PathNotAbsolute service j v))
  else (true, ([], [])).

Definition makeCompositeKey (info : AuthorityInfo) (p : PathMatcher) : string :=
  info_type info ++ ":" ++ info_value info ++ "|" ++
  match p with ExactPath v => "exact:" ++ v | PrefixPath v => "prefix:" ++ v end.

(** The loop of [validateService] over the match entries, from index [j]. *)
Fixpoint validateRules (service : string) (j : nat) (rules : list MatchRule)
    (compositeKeys : gset string) : gset string * Diagnostics :=
  match rules with
  | [] => (compositeKeys, ([], []))
  | entry :: rest =>
      let '(authInfo, d) := validateAuthority (r_authority entry) service j in
      match authInfo with
      | None =>
          let '(keys, d') := validateRules service (S j) rest compositeKeys in (keys, d >+> d')
      | Some info =>
          let '(valid, d1) := validatePath (r_path entry) service j in
          if negb valid then
            let '(keys, d') := validateRules service (S j) rest compositeKeys in
            (keys, d >+> d1 >+> d')
          else
            let key := makeCompositeKey info (r_path entry) in
            let '(keys, d') := validateRules service (S j) rest ({[key]} ∪ compositeKeys) in
            (keys, d >+> d1 >+>
                   errorIf (bool_decide (key ∈ compositeKeys)) (DuplicateRule service key) >+> d')
      end
  end.

(** ** Upstream *)

Definition validateUpstream (u : ParsedUpstreamConfig) : Diagnostics :=
  errorIf (String.eqb (pu_url u) "") UpstreamUrlEmpty >+>
  errorIf (pu_insecure u && is_set (ca_cert u)) UpstreamTlsConflict.

Definition resolveUpstream (u : ParsedUpstreamConfig) : UpstreamConfig :=
  mkUpstream (pu_url u) (pu_insecure u) (ca_cert u) (default 5000 (connect_timeout_ms u))
    (default 5000 (pu_idle_timeout_ms u)).

(** ** Services *)

(** [o.has_value()] and [p] of its value *)
Definition holdsOf {A} (p : A → bool) (o : option A) : bool :=
  match o with Some a => p a | None => false end.

Definition validateCache (service : string) (merged : ParsedCacheConfig) : Diagnostics :=
  errorIf (negb (is_set (enabled merged))) (CacheEnabledRequired service) >+>
  errorIf (negb (is_set (max_tracks merged))) (CacheMaxTracksRequired service) >+>
  errorIf (negb (is_set (max_groups_per_track merged))) (CacheMaxGroupsRequired service) >+>
  errorIf (holdsOf (λ on, on) (enabled merged) && holdsOf (λ n, n <? 1) (max_groups_per_track merged))
    (CacheMaxGroupsZero service) >+>
  errorIf (holdsOf (λ s, s =? 0) (max_cache_duration_s merged)) (CacheDurationZero service) >+>
  errorIf (holdsOf (λ n, n =? 0) (max_cached_mb merged)) (CacheMbZero service).

(** [mergedCaches.emplace(name, merged)] *)
Definition emplaceCache (name : string) (merged : ParsedCacheConfig)
    (mergedCaches : gmap string ParsedCacheConfig) : gmap string ParsedCacheConfig :=
  match mergedCaches !! name with
  | Some _ => mergedCaches
  | None => <[name := merged]> mergedCaches
  end.

Definition validateService (name : string) (svc : ParsedServiceConfig)
    (defaults : option ParsedCacheConfig) (compositeKeys : gset string)
    (mergedCaches : gmap string ParsedCacheConfig) :
    gset string * gmap string ParsedCacheConfig * Diagnostics :=
  let '(keys, d) := validateRules name 0 (ps_match svc) compositeKeys in
  let merged := mergedCache svc defaults in
  (keys, emplaceCache name merged mergedCaches,
   d >+> validateCache name merged >+>
   match ps_upstream svc with Some u => validateUpstream u | None => ([], []) end).

(** The loop over the services; [std::map] iterates in key order. *)
Fixpoint validateServices (defaults : option ParsedCacheConfig)
    (services : list (string * ParsedServiceConfig)) (compositeKeys : gset string)
    (mergedCaches : gmap string ParsedCacheConfig) :
    gmap string ParsedCacheConfig * Diagnostics :=
  match services with
  | [] => (mergedCaches, ([], []))
  | (name, svc) :: rest =>
      let '(keys, caches, d) := validateService name svc defaults compositeKeys mergedCaches in
      let '(caches, d') := validateServices defaults rest keys caches in
      (caches, d >+> d')
  end.

(** *** Paths of picoquic listeners *)

Definition isExactPath (p : PathMatcher) : bool :=
  match p with ExactPath _ => true | PrefixPath _ => false end.

(** The warnings for the prefix paths of a service's rules, from index [j]. *)
Fixpoint prefixWarnings (picoListenerNames : list string) (service : string) (j : nat)
    (rules : list MatchRule) : list ConfigWarning :=
  match rules with
  | [] => []
  | r :: rest =>
      match r_path r with
      | PrefixPath v => PrefixPathOnPico picoListenerNames service j v ::
                        prefixWarnings picoListenerNames service (S j) rest
      | ExactPath _ => prefixWarnings picoListenerNames service (S j) rest
      end
  end.

Definition validatePicoServicePaths (services : list (string * ParsedServiceConfig))
    (picoListenerNames : list string) : list ConfigWarning :=
  let exactPathCount :=
    length (filter (λ r, isExactPath (r_path r) = true) (mjoin (ps_match <$> services.*2))) in
  (mjoin ((λ s : string * ParsedServiceConfig,
             prefixWarnings picoListenerNames s.1 0 (ps_match s.2)) <$> services) ++
   if (exactPathCount =? 0)%nat then [NoExactPathOnPico picoListenerNames] else [])%list.

Definition validatePico (c : ParsedConfig) : Diagnostics :=
  let picoListenerNames :=
    pl_name <$> filter (λ l, stackName l = kStackPicoquic) (listeners c) in
  match picoListenerNames with
  | [] => ([], [])
  | names => ([], validatePicoServicePaths (services c) names)
  end.

(** *** The listener loop *)

Fixpoint validateListeners (quicDefaults : option ParsedQuicConfig)
    (mvfstDefaults : option ParsedMvfstConfig) (ls : list ParsedListenerConfig)
    (listenerAddrs : gset string) : list QuicConfig * list MvfstConfig * Diagnostics :=
  match ls with
  | [] => ([], [], ([], []))
  | l :: rest =>
      let addr := listenerAddr l in
      let quic := mergeQuicConfig quicDefaults (pl_quic l) in
      let mvfst := mergeMvfstConfig mvfstDefaults (pl_mvfst l) in
      let d :=
        validateListener l >+>
        errorIf (bool_decide (addr ∈ listenerAddrs)) (DuplicateListenerAddress addr) >+>
        validateQuicConfig quic (stackOf l) (pl_name l) >+>
        validateMvfstConfig mvfst (pl_name l) >+>
        validatePacing quic mvfst (pl_name l) in
      let '(quics, mvfsts, d') :=
        validateListeners quicDefaults mvfstDefaults rest ({[addr]} ∪ listenerAddrs) in
      (quic :: quics, mvfst :: mvfsts, d >+> d')
  end.

(** *** Threads, shared-bottleneck detection *)

Definition validateThreads (threads : Z) : Diagnostics :=
  if threads =? 0 then errorIf true ThreadsZero else errorIf (1 <? threads) ThreadsUnsupported.

Definition kPracticalPassiveAndRFC : string := "PracticalPassiveAndRFC".
Definition kDcSbd : string := "DcSBD".
Definition kWei2020ECN : string := "Wei2020ECN".

Definition resolveSbd (o : option ParsedSbdConfig) : SbdConfig :=
  match o with
  | None => mkSbd false "owd" "" kPracticalPassiveAndRFC
  | Some s => mkSbd (default false (psbd_enabled s)) (default "owd" (delay_source s))
                (default "" (output_file s)) (default kPracticalPassiveAndRFC (algorithm s))
  end.

Definition validateSbd (sbd : SbdConfig) (edge : bool) : Diagnostics :=
  errorIf (negb (bool_decide (delaySource sbd ∈ ["owd"; "rtt"]))) SbdDelaySourceInvalid >+>
  errorIf (negb (bool_decide (sbd_algorithm sbd ∈ [kPracticalPassiveAndRFC; kDcSbd; kWei2020ECN])))
    SbdAlgorithmInvalid >+>
  errorIf (String.eqb (sbd_algorithm sbd) kDcSbd && negb (String.eqb (delaySource sbd) "owd"))
    SbdDelaySourceForDcSbd >+>
  errorIf (sbd_enabled sbd && negb edge) SbdRequiresEdge.

(** ** Relay identity *)

Definition hexDigit (d : Z) : ascii :=
  ascii_of_N (Z.to_N (if d <? 10 then 48 + d else 87 + d)).

(** [n] hexadecimal digits of [v], the most significant first. *)
Fixpoint hexDigits (n : nat) (v : Z) : string :=
  match n with
  | O => ""
  | S n => hexDigits n (v / 16) ++ String (hexDigit (v mod 16)) ""
  end.

(** [std::hex << std::setfill('0') << std::setw(16)] of the two 32-bit draws. *)
Definition generateRelayID (draw1 draw2 : Z) : string :=
  hexDigits 16 (Z.lor (Z.shiftl draw1 32) draw2).

(** ** Resolution *)

Section Resolve.
Context {SocketAddress : Type}.
(** [folly::SocketAddress(address, port)], [None] when it throws. *)
Context (socketAddress : string → Z → option SocketAddress).
(** [folly::IPAddress::validate] *)
Context (validateIP : string → bool).

Definition resolveListener (l : ParsedListenerConfig) (quic : QuicConfig) (mvfst : MvfstConfig) :
    Outcome (@ListenerConfig SocketAddress) :=
  let tlsMode := if ptls_insecure (pl_tls l) then Insecure else Tls (resolveTlsConfig (pl_tls l)) in
  address ← orThrow (socketAddress (sock_address (pl_socket l)) (sock_port (pl_socket l)));
  Done (mkListener (pl_name l) address tlsMode (pl_endpoint l) (moqtVersionsToString l) (stackOf l)
          quic false mvfst).

(** The listeners from index [i] on. *)
Fixpoint resolveListeners (i : nat) (ls : list ParsedListenerConfig) (quics : list QuicConfig)
    (mvfsts : list MvfstConfig) : Outcome (list (@ListenerConfig SocketAddress)) :=
  match ls with
  | [] => Done []
  | l :: rest =>
      quic ← deref (quics !! i);
      mvfst ← deref (mvfsts !! i);
      r ← resolveListener l quic mvfst;
      rs ← resolveListeners (S i) rest quics mvfsts;
      Done (r :: rs)
  end.

Definition resolveMatchEntry (r : MatchRule) : MatchEntry :=
  mkMatch
    match r_authority r with
    | PExactAuthority v => ExactAuthority v
    | PWildcardAuthority v => WildcardAuthority v
    | PAnyAuthority _ => AnyAuthority
    end (r_path r).

Definition resolveService (svc : ParsedServiceConfig) (cache : ParsedCacheConfig) :
    Outcome ServiceConfig :=
  let entries := resolveMatchEntry <$> ps_match svc in
  let upstream := resolveUpstream <$> ps_upstream svc in
  resolved ← resolveCacheConfig cache;
  Done (mkService entries resolved upstream).

Definition resolveServices (mergedCaches : gmap string ParsedCacheConfig)
    (services : list (string * ParsedServiceConfig)) : Outcome (list (string * ServiceConfig)) :=
  mapOutcome (λ s : string * ParsedServiceConfig,
    cache ← orThrow (mergedCaches !! s.1);
    r ← resolveService s.2 cache;
    Done (s.1, r)) services.

Definition kDefaultAdminAlpn : list string := ["h2"; "http/1.1"].

Definition resolveAdmin (admin : option ParsedAdminConfig) :
    Outcome (option (@AdminConfig SocketAddress)) :=
  match admin with
  | None => Done None
  | Some a =>
      let tls := (λ t, resolveAdminTlsConfig t kDefaultAdminAlpn) <$> pa_tls a in
      address ← orThrow (socketAddress (pa_address a) (pa_port a));
      Done (Some (mkAdmin address tls))
  end.

Definition absoluteDirectory (directory : string) : bool :=
  nonEmpty directory && charIs 0 "/" directory.

Definition validateRttOutputs (c : ParsedConfig) (rttOutputs : list (string * string)) :
    Diagnostics :=
  ((match rttOutputs with
    | [] => []
    | _ => (λ _, RttRequiresMvfst) <$> filter (λ l, stackName l ≠ kStackMvfst) (listeners c)
    end) ++
   ((λ _, RttOutputInvalid) <$>
      filter (λ o : string * string, negb (validateIP o.1 && absoluteDirectory o.2) = true)
        rttOutputs), [])%list.

(** [config::ResolvedConfig] *)
Record ResolvedConfig := mkResolved {
  rc_config : @Config SocketAddress;
  rc_warnings : list ConfigWarning;
}.

Definition resolveConfig (c : ParsedConfig) (draw1 draw2 : Z) :
    Outcome (Expected (list ConfigError) ResolvedConfig) :=
  match listeners c with
  | [] => Done (unexpected [NoListener])
  | _ =>
      let '(quics, mvfsts, dListeners) :=
        validateListeners (defaults_quic c) (defaults_mvfst c) (listeners c) ∅ in
      let '(mergedCaches, dServices) := validateServices (defaults_cache c) (services c) ∅ ∅ in
      let threads := default 1 (pc_threads c) in
      let edge := default false (pc_edge c) in
      let sbd := resolveSbd (pc_sbd c) in
      let rttOutputs := default [] (rtt_outputs c) in
      let '(errors, warnings) :=
        dListeners >+> validatePico c >+> validateAdmin (pc_admin c) >+>
        errorIf (bool_decide (services c = [])) NoService >+> dServices >+>
        validateThreads threads >+> validateSbd sbd edge >+> validateRttOutputs c rttOutputs in
      match errors with
      | _ :: _ => Done (unexpected errors)
      | [] =>
          resolvedServices ← resolveServices mergedCaches (services c);
          admin ← resolveAdmin (pc_admin c);
          let relayID := default (generateRelayID draw1 draw2) (relay_id c) in
          resolvedListeners ← resolveListeners 0 (listeners c) quics mvfsts;
          Done (value (mkResolved
            (mkConfig resolvedListeners resolvedServices admin relayID threads
               (default true (mvfst_bpf_steering c)) edge sbd rttOutputs) warnings))
      end
  end.

End Resolve.
