(* ===== verification/ConfigTheorems.v ===== *)
(** * What an accepted configuration is

    [valid_config] says which parsed configurations are acceptable, without
    the order of the checks or the sets that find duplicates.
    [config_accepted_iff] shows that [resolveConfig] accepts exactly these
    when the addresses parse; [resolve_defined] that resolution never
    dereferences an empty optional; [resolved_settings] how
    defaults and overrides combine;
    [routing_deterministic] that the matcher built from an accepted
    configuration does not depend on the iteration order of the services. *)

From Stdlib Require Import QArith Ascii.
From S2P Require Import Prelude ServiceMatcher ConfigData ConfigResolver.

#[local] Open Scope string_scope.
#[local] Open Scope config_scope.
#[local] Open Scope Z_scope.

(** ** Acceptable configurations *)

Definition valid_tls (tls : ParsedListenerTlsConfig) : Prop :=
  ptls_insecure tls = false →
  hasFile (ptls_cert_file tls) = true ∧ hasFile (ptls_key_file tls) = true.

Record valid_quic (q : QuicConfig) (stack : QuicStack) : Prop := {
  vq_data : maxStreamData q <= maxData q;
  vq_ack : minAckDelayUs q <= maxAckDelayUs q;
  vq_algo : ccAlgo q ∈ validAlgos stack;
}.

(** Not out of range: NaN is not smaller or larger than any bound. *)
Record valid_mvfst (m : MvfstConfig) : Prop := {
  vm_cwnd : maxCwndInMss m ≠ 0;
  vm_packets : maxConnPacketsSentPerLoop m ≠ 0;
  vm_gro : numGROBuffers m ≠ 0;
  vm_delta : double_le (deltaParam m) 0 = false ∧ double_ge (deltaParam m) 1 = false;
  vm_target : double_lt (ceTarget m) 0 = false ∧ double_ge (ceTarget m) 1 = false;
}.

Definition paced (q : QuicConfig) (m : MvfstConfig) : Prop :=
  ccAlgo q ∈ ["bbr"; "bbr2"; "bbr2modular"] → pacingEnabled m = true.

Record valid_listener (c : ParsedConfig) (l : ParsedListenerConfig) : Prop := {
  vl_port : sock_port (pl_socket l) ≠ 0;
  vl_tls : valid_tls (pl_tls l);
  vl_stack : stackName l = kStackMvfst ∨
             stackName l = kStackPicoquic ∧ ptls_insecure (pl_tls l) = false;
  vl_quic : valid_quic (mergeQuicConfig (defaults_quic c) (pl_quic l)) (stackOf l);
  vl_mvfst : valid_mvfst (mergeMvfstConfig (defaults_mvfst c) (pl_mvfst l));
  vl_paced : paced (mergeQuicConfig (defaults_quic c) (pl_quic l))
               (mergeMvfstConfig (defaults_mvfst c) (pl_mvfst l));
}.

Definition valid_admin (a : ParsedAdminConfig) : Prop :=
  pa_port a ≠ 0 ∧
  match pa_tls a with
  | None => plaintext a = true
  | Some tls => plaintext a = false ∧ hasFile (patls_cert_file tls) = true ∧
                hasFile (patls_key_file tls) = true
  end.

Definition valid_authority (a : AuthorityMatch) : Prop :=
  match a with
  | PExactAuthority v => v ≠ ""
  | PWildcardAuthority pat => ∃ domain, pat = "*." ++ domain ∧ domain ≠ "" ∧
                                contains "*" domain = false
  | PAnyAuthority any => any = true
  end.

Definition valid_rule (r : MatchRule) : Prop :=
  valid_authority (r_authority r) ∧ ∃ rest, pathValue (r_path r) = "/" ++ rest.

Definition authorityInfo (a : AuthorityMatch) : AuthorityInfo :=
  match a with
  | PExactAuthority v => mkInfo "exact" v
  | PWildcardAuthority pat => mkInfo "wildcard" pat
  | PAnyAuthority _ => mkInfo "any" ""
  end.

Definition ruleKey (r : MatchRule) : string :=
  makeCompositeKey (authorityInfo (r_authority r)) (r_path r).

Record valid_cache (m : ParsedCacheConfig) : Prop := {
  vc_enabled : is_Some (enabled m);
  vc_tracks : is_Some (max_tracks m);
  vc_groups : ∃ n, max_groups_per_track m = Some n ∧ (enabled m = Some true → 1 <= n);
  vc_duration : max_cache_duration_s m ≠ Some 0;
  vc_mb : max_cached_mb m ≠ Some 0;
}.

Definition valid_upstream (u : ParsedUpstreamConfig) : Prop :=
  pu_url u ≠ "" ∧ (pu_insecure u = true → ca_cert u = None).

Record valid_service (defaults : option ParsedCacheConfig) (svc : ParsedServiceConfig) : Prop := {
  vs_rules : Forall valid_rule (ps_match svc);
  vs_cache : valid_cache (mergedCache svc defaults);
  vs_upstream : ∀ u, ps_upstream svc = Some u → valid_upstream u;
}.

Record valid_sbd (s : SbdConfig) (edge : bool) : Prop := {
  vb_delay : delaySource s ∈ ["owd"; "rtt"];
  vb_algorithm : sbd_algorithm s ∈ [kPracticalPassiveAndRFC; kDcSbd; kWei2020ECN];
  vb_dcsbd : sbd_algorithm s = kDcSbd → delaySource s = "owd";
  vb_edge : sbd_enabled s = true → edge = true;
}.

Definition parsedRules (services : list (string * ParsedServiceConfig)) : list MatchRule :=
  mjoin (ps_match <$> services.*2).

Section Validity.
Context {SocketAddress : Type} (socketAddress : string → Z → option SocketAddress).
Context (validateIP : string → bool).

Definition valid_rtt (c : ParsedConfig) : Prop :=
  ∀ peer directory, (peer, directory) ∈ default [] (rtt_outputs c) →
    validateIP peer = true ∧ absoluteDirectory directory = true ∧
    Forall (λ l, stackName l = kStackMvfst) (listeners c).

Record valid_config (c : ParsedConfig) : Prop := {
  v_some_listener : listeners c ≠ [];
  v_listeners : Forall (valid_listener c) (listeners c);
  v_addresses : NoDup (listenerAddr <$> listeners c);
  v_admin : ∀ a, pc_admin c = Some a → valid_admin a;
  v_some_service : services c ≠ [];
  v_services : Forall (λ s, valid_service (defaults_cache c) s.2) (services c);
  v_rules : NoDup (ruleKey <$> parsedRules (services c));
  (** the value is unsigned, so it is 1 *)
  v_threads : default 1 (pc_threads c) ≠ 0 ∧ default 1 (pc_threads c) <= 1;
  v_sbd : valid_sbd (resolveSbd (pc_sbd c)) (default false (pc_edge c));
  v_rtt : valid_rtt c;
}.

(** The addresses of the listeners and of the admin server parse. *)
Definition addresses_parse (c : ParsedConfig) : Prop :=
  (∀ l, l ∈ listeners c →
     is_Some (socketAddress (sock_address (pl_socket l)) (sock_port (pl_socket l)))) ∧
  (∀ a, pc_admin c = Some a → is_Some (socketAddress (pa_address a) (pa_port a))).

End Validity.

(** ** Validators that report nothing *)

Lemma errors_andThen d d' : (d >+> d').1 = [] ↔ d.1 = [] ∧ d'.1 = [].
Proof. apply app_nil. Qed.
Lemma errors_errorIf b e : (errorIf b e).1 = [] ↔ b = false.
Proof. by destruct b. Qed.
Lemma errors_warnIf b w : (warnIf b w).1 = [] ↔ True.
Proof. done. Qed.

Create Rewrite HintDb errors.
Hint Rewrite errors_andThen errors_errorIf orb_false_iff andb_false_iff negb_false_iff negb_true_iff
  Z.eqb_neq Z.ltb_ge String.eqb_eq String.eqb_neq bool_decide_eq_true bool_decide_eq_false : errors.

Lemma validateListenerTls_ok tls name :
  (validateListenerTlsConfig tls name).1 = [] ↔ valid_tls tls.
Proof.
  unfold validateListenerTlsConfig, valid_tls. destruct (ptls_insecure tls); cbn [negb].
  - rewrite errors_warnIf. naive_solver.
  - rewrite errors_errorIf, orb_false_iff, !negb_false_iff. naive_solver.
Qed.

Lemma validateListener_ok l :
  (validateListener l).1 = [] ↔
  sock_port (pl_socket l) ≠ 0 ∧ valid_tls (pl_tls l) ∧
  (stackName l = kStackMvfst ∨ stackName l = kStackPicoquic ∧ ptls_insecure (pl_tls l) = false).
Proof.
  unfold validateListener, stackName. rewrite !errors_andThen, validateListenerTls_ok.
  rewrite !errors_errorIf, Z.eqb_neq. destruct (quic_stack l) as [s|]; cbn [default].
  - rewrite errors_errorIf. autorewrite with errors.
    destruct (decide (s = kStackMvfst)) as [->|]; [naive_solver|]. destruct (decide (s = kStackPicoquic)); naive_solver.
  - naive_solver.
Qed.

Lemma validateQuic_ok q stack name :
  (validateQuicConfig q stack name).1 = [] ↔ valid_quic q stack.
Proof.
  unfold validateQuicConfig. autorewrite with errors. split; [intros; constructor; naive_solver|].
  intros []. naive_solver.
Qed.

Lemma validateMvfst_ok m name : (validateMvfstConfig m name).1 = [] ↔ valid_mvfst m.
Proof.
  unfold validateMvfstConfig. autorewrite with errors. split; [intros; constructor; naive_solver|].
  intros []. naive_solver.
Qed.

Lemma validatePacing_ok q m name : (validatePacing q m name).1 = [] ↔ paced q m.
Proof.
  unfold validatePacing, paced. autorewrite with errors. destruct (pacingEnabled m); naive_solver.
Qed.

Lemma validateAdmin_ok o : (validateAdmin o).1 = [] ↔ ∀ a, o = Some a → valid_admin a.
Proof.
  destruct o as [a|]; [|naive_solver].
  assert ((∀ b, Some a = Some b → valid_admin b) ↔ valid_admin a) as -> by naive_solver.
  unfold validateAdmin, valid_admin, validateAdminTlsConfig, is_set.
  rewrite !errors_andThen, errors_errorIf, Z.eqb_neq.
  destruct (pa_tls a) as [tls|], (plaintext a); cbn [andb negb]; autorewrite with errors; naive_solver.
Qed.

(** ** Match rules *)

Lemma wildcard_form pat :
  ((String.length pat <? 3)%nat || negb (charIs 0 "*" pat) || negb (charIs 1 "." pat) = false ∧
   contains "*" (String.substring 2 (String.length pat - 2) pat) = false) ↔
  ∃ domain, pat = "*." ++ domain ∧ domain ≠ "" ∧ contains "*" domain = false.
Proof.
  destruct pat as [|a [|b [|c rest]]]; cbn -[Ascii.eqb contains String.substring].
  1-3: split; [naive_solver|]; intros (domain&[=]&?&?); by destruct domain.
  assert (String.substring 2 (S (String.length rest)) (String a (String b (String c rest)))
          = String c rest) as ->.
  { cbn. f_equal. induction rest as [|d rest IH]; [done|]. cbn. f_equal. exact IH. }
  rewrite orb_false_iff, !negb_false_iff, !Ascii.eqb_eq. split.
  - intros [[-> ->] ?]. by exists (String c rest).
  - intros (domain&Heq&_&?). injection Heq as -> -> Hd. by rewrite Hd.
Qed.

Lemma validateAuthority_ok a name j :
  match validateAuthority a name j with
  | (Some info, d) => valid_authority a ∧ info = authorityInfo a ∧ d.1 = []
  | (None, d) => ¬ valid_authority a ∧ d.1 ≠ []
  end.
Proof.
  destruct a as [v|pat|any]; unfold validateAuthority; cbn [valid_authority authorityInfo].
  - destruct (String.eqb_spec v ""); cbn; naive_solver.
  - pose proof (wildcard_form pat) as Hw.
    destruct (_ || _ || _); [cbn; naive_solver|]. destruct (contains _ _); cbn; naive_solver.
  - destruct any; cbn; naive_solver.
Qed.

Lemma validatePath_ok p name j :
  match validatePath p name j with
  | (valid, d) => (valid = true ↔ ∃ rest, pathValue p = "/" ++ rest) ∧ (valid = true ↔ d.1 = [])
  end.
Proof.
  unfold validatePath. destruct (pathValue p) as [|c rest]; cbn -[Ascii.eqb].
  { split; [|done]. split; [done|]. by intros [rest ?]. }
  destruct (Ascii.eqb_spec c "/") as [->|Hc]; cbn; (split; [|done]).
  - split; [|done]. intros _. by exists rest.
  - split; [done|]. intros [r Hr]. by injection Hr as ->.
Qed.

Lemma validateRules_ok name j rules keys :
  match validateRules name j rules keys with
  | (keys', d) =>
      d.1 = [] ↔ Forall valid_rule rules ∧ NoDup (ruleKey <$> rules) ∧
                 (∀ r, r ∈ rules → ruleKey r ∉ keys)
  end.
Proof.
  revert j keys. induction rules as [|r rules IH]; intros j keys; cbn.
  { split; [|done]. intros _. split_and!; [done|constructor|by intros r ?%elem_of_nil]. }
  pose proof (validateAuthority_ok (r_authority r) name j) as Ha.
  destruct (validateAuthority _ _ _) as [[info|] d].
  2:{ specialize (IH (S j) keys). destruct (validateRules _ _ _ _) as [keys' d'].
      rewrite errors_andThen, Forall_cons. unfold valid_rule at 1. naive_solver. }
  pose proof (validatePath_ok (r_path r) name j) as Hp. destruct (validatePath _ _ _) as [[] d1]; cbn [negb].
  2:{ specialize (IH (S j) keys). destruct (validateRules _ _ _ _) as [keys' d'].
      rewrite !errors_andThen, Forall_cons. unfold valid_rule at 1. naive_solver. }
  destruct Ha as (?&->&Hd). fold (ruleKey r).
  specialize (IH (S j) ({[ruleKey r]} ∪ keys)). destruct (validateRules _ _ _ _) as [keys' d'].
  rewrite !errors_andThen, errors_errorIf, bool_decide_eq_false, Forall_cons, NoDup_cons, IH.
  assert (valid_rule r) by (unfold valid_rule; naive_solver).
  setoid_rewrite elem_of_cons. setoid_rewrite not_elem_of_union. setoid_rewrite not_elem_of_singleton.
  rewrite list_elem_of_fmap. naive_solver.
Qed.

Lemma validateRules_keys name j rules keys :
  match validateRules name j rules keys with
  | (keys', d) => d.1 = [] → ∀ k, k ∈ keys' ↔ k ∈ keys ∨ k ∈ ruleKey <$> rules
  end.
Proof.
  revert j keys. induction rules as [|r rules IH]; intros j keys; cbn.
  { intros _ k. rewrite elem_of_nil. tauto. }
  pose proof (validateAuthority_ok (r_authority r) name j) as Ha.
  destruct (validateAuthority _ _ _) as [[info|] d].
  2:{ destruct (validateRules _ _ _ _) as [keys' d']. rewrite errors_andThen. naive_solver. }
  pose proof (validatePath_ok (r_path r) name j) as Hp. destruct (validatePath _ _ _) as [[] d1]; cbn [negb].
  2:{ destruct (validateRules _ _ _ _) as [keys' d']. rewrite !errors_andThen. naive_solver. }
  destruct Ha as (?&->&Hd). fold (ruleKey r).
  specialize (IH (S j) ({[ruleKey r]} ∪ keys)). destruct (validateRules _ _ _ _) as [keys' d'].
  rewrite !errors_andThen. intros (_&_&_&H') k. rewrite IH by done. rewrite elem_of_union, elem_of_singleton, elem_of_cons.
  tauto.
Qed.

(** ** Services *)

Lemma validateCache_ok name m : (validateCache name m).1 = [] ↔ valid_cache m.
Proof.
  unfold validateCache, is_set, holdsOf. autorewrite with errors. split.
  - intros (He&Ht&Hg&Hz&Hd&Hb).
    destruct (enabled m) as [on|] eqn:Ee, (max_tracks m) eqn:Et, (max_groups_per_track m) as [n|] eqn:En; try done.
    constructor; rewrite ?Ee, ?Et, ?En; eauto.
    + exists n. split; [done|]. intros [= ->]. destruct Hz as [?|Hz%Z.ltb_ge]; done.
    + by intros E; rewrite E in Hd.
    + by intros E; rewrite E in Hb.
  - intros [[on Ee] [t Et] (n&En&Hn) Hd Hb]. rewrite Ee, Et, En in *.
    split_and!; [done|done|done| | |].
    + destruct on; [right; apply Z.ltb_ge; auto|by left].
    + destruct (max_cache_duration_s m); [|done]. apply Z.eqb_neq. congruence.
    + destruct (max_cached_mb m); [|done]. apply Z.eqb_neq. congruence.
Qed.

Lemma validateUpstream_ok u : (validateUpstream u).1 = [] ↔ valid_upstream u.
Proof.
  unfold validateUpstream, valid_upstream, is_set. autorewrite with errors.
  destruct (pu_insecure u), (ca_cert u); naive_solver.
Qed.

Lemma validateService_ok name svc defaults keys caches :
  match validateService name svc defaults keys caches with
  | (_, _, d) => d.1 = [] ↔ valid_service defaults svc ∧ NoDup (ruleKey <$> ps_match svc) ∧
                            (∀ r, r ∈ ps_match svc → ruleKey r ∉ keys)
  end.
Proof.
  unfold validateService. pose proof (validateRules_ok name 0 (ps_match svc) keys) as Hr.
  destruct (validateRules _ _ _ _) as [keys' d]. rewrite !errors_andThen, Hr, validateCache_ok.
  assert ((match ps_upstream svc with Some u => validateUpstream u | None => ([], []) end).1 = [] ↔
          ∀ u, ps_upstream svc = Some u → valid_upstream u) as ->.
  { destruct (ps_upstream svc) as [u|]; [rewrite validateUpstream_ok|]; naive_solver. }
  split; [intros ([? ?]&?&?); split; [by constructor|done]|]. intros [[] []]. done.
Qed.

(** A service's keys are added to the set. *)
Lemma validateService_keys name svc defaults keys caches :
  match validateService name svc defaults keys caches with
  | (keys', _, d) => d.1 = [] → ∀ k, k ∈ keys' ↔ k ∈ keys ∨ k ∈ ruleKey <$> ps_match svc
  end.
Proof.
  unfold validateService. pose proof (validateRules_keys name 0 (ps_match svc) keys) as Hr.
  destruct (validateRules _ _ _ _) as [keys' d]. rewrite !errors_andThen. naive_solver.
Qed.

Lemma validateServices_ok defaults services keys caches :
  (validateServices defaults services keys caches).2.1 = [] ↔
  Forall (λ s, valid_service defaults s.2) services ∧
  NoDup (ruleKey <$> parsedRules services) ∧
  (∀ r, r ∈ parsedRules services → ruleKey r ∉ keys).
Proof.
  revert keys caches. induction services as [|[name svc] services IH]; intros keys caches.
  { cbn. split; [|done]. intros _. split_and!; [done|constructor|by intros r ?%elem_of_nil]. }
  cbn [validateServices].
  pose proof (validateService_ok name svc defaults keys caches) as Hs.
  pose proof (validateService_keys name svc defaults keys caches) as Hk.
  destruct (validateService _ _ _ _ _) as [[keys' caches'] d].
  specialize (IH keys' caches'). destruct (validateServices _ _ _ _) as [caches'' d']. cbn [snd] in *.
  rewrite errors_andThen, Forall_cons, IH, Hs. unfold parsedRules. cbn [fmap list_fmap snd].
  rewrite mjoin_cons, fmap_app, NoDup_app. setoid_rewrite elem_of_app.
  assert (Hin : ∀ r l, r ∈ l → ruleKey r ∈ ruleKey <$> l) by (intros; by apply list_elem_of_fmap_2).
  split.
  - intros ((?&?&?)&?&?&Hnew). split_and!; try done.
    + intros k Hk1 (r&->&Hr)%list_elem_of_fmap. apply (Hnew r Hr). apply Hk; naive_solver.
    + intros r [Hr|Hr]; [auto|]. intros Hr'. apply (Hnew r Hr). apply Hk; naive_solver.
  - intros ([? ?]&(?&Hdisj&?)&Hnew). split_and!; try done; [naive_solver|].
    intros r Hr Hr'. apply Hk in Hr'; [|naive_solver].
    destruct Hr' as [?|Hr']; [naive_solver|]. apply (Hdisj _ Hr'). by apply Hin.
Qed.

(** Every service's merged cache settings are recorded, and were validated. *)
Lemma emplaceCache_lookup name m caches k x :
  emplaceCache name m caches !! k = Some x → caches !! k = Some x ∨ k = name ∧ x = m.
Proof.
  unfold emplaceCache. destruct (caches !! name); [by left|]. rewrite lookup_insert_Some. naive_solver.
Qed.

Lemma emplaceCache_has name m caches : is_Some (emplaceCache name m caches !! name).
Proof.
  unfold emplaceCache. destruct (caches !! name) eqn:E; [by rewrite E|]. rewrite lookup_insert_eq. eauto.
Qed.

Lemma emplaceCache_mono name m caches k x : caches !! k = Some x → emplaceCache name m caches !! k = Some x.
Proof.
  unfold emplaceCache. destruct (caches !! name) eqn:E; [done|]. intros Hk.
  rewrite lookup_insert_ne; [done|congruence].
Qed.

Lemma validateServices_mono defaults services keys caches k x :
  caches !! k = Some x → (validateServices defaults services keys caches).1 !! k = Some x.
Proof.
  revert keys caches. induction services as [|[name svc] services IH]; intros keys caches Hk; [done|].
  cbn. unfold validateService. destruct (validateRules _ _ _ _) as [keys' d].
  pose proof (IH keys' (emplaceCache name (mergedCache svc defaults) caches)) as H'.
  destruct (validateServices _ _ _ _) as [caches' d']. cbn in *. by apply H', emplaceCache_mono.
Qed.

Lemma validateServices_caches defaults services keys caches :
  map_Forall (λ _, valid_cache) caches →
  Forall (λ s, valid_service defaults s.2) services →
  map_Forall (λ _, valid_cache) (validateServices defaults services keys caches).1 ∧
  ∀ s, s ∈ services → is_Some ((validateServices defaults services keys caches).1 !! s.1).
Proof.
  revert keys caches. induction services as [|[name svc] services IH]; intros keys caches Hc Hs.
  { split; [done|]. by intros s ?%elem_of_nil. }
  apply Forall_cons in Hs as [[Hr Hm Hu] Hs]. cbn. unfold validateService.
  destruct (validateRules _ _ _ _) as [keys' d]. set (caches1 := emplaceCache _ _ _).
  pose proof (IH keys' caches1) as IH1. pose proof (validateServices_mono defaults services keys' caches1) as Hmono.
  destruct (validateServices _ _ _ _) as [caches' d']. cbn in *. destruct IH1 as [? Hall]; [|done|].
  { intros k x [Hk|[-> ->]]%emplaceCache_lookup; [by apply (Hc k)|done]. }
  split; [done|]. intros s [->|Hin]%elem_of_cons; [|auto]. cbn.
  destruct (emplaceCache_has name (mergedCache svc defaults) caches) as [x Hx].
  exists x. by apply Hmono.
Qed.

(** ** Listeners *)

Definition listener_ok (qd : option ParsedQuicConfig) (md : option ParsedMvfstConfig)
    (l : ParsedListenerConfig) : Prop :=
  (validateListener l).1 = [] ∧
  valid_quic (mergeQuicConfig qd (pl_quic l)) (stackOf l) ∧
  valid_mvfst (mergeMvfstConfig md (pl_mvfst l)) ∧
  paced (mergeQuicConfig qd (pl_quic l)) (mergeMvfstConfig md (pl_mvfst l)).

Lemma listener_ok_iff c l : listener_ok (defaults_quic c) (defaults_mvfst c) l ↔ valid_listener c l.
Proof.
  unfold listener_ok. rewrite validateListener_ok. split; [|intros []; done].
  intros ((?&?&?)&?&?&?). by constructor.
Qed.

Lemma validateListeners_ok qd md ls addrs :
  (validateListeners qd md ls addrs).2.1 = [] ↔
  Forall (listener_ok qd md) ls ∧ NoDup (listenerAddr <$> ls) ∧ (∀ l, l ∈ ls → listenerAddr l ∉ addrs).
Proof.
  revert addrs. induction ls as [|l ls IH]; intros addrs.
  { cbn. split; [|done]. intros _. split_and!; [done|constructor|by intros l ?%elem_of_nil]. }
  cbn [validateListeners]. specialize (IH ({[listenerAddr l]} ∪ addrs)).
  destruct (validateListeners _ _ _ _) as [[quics mvfsts] d']. cbn [snd] in *.
  rewrite !errors_andThen, validateQuic_ok, validateMvfst_ok, validatePacing_ok, errors_errorIf.
  rewrite bool_decide_eq_false, Forall_cons, IH. cbn [fmap list_fmap]. rewrite NoDup_cons.
  setoid_rewrite elem_of_cons. setoid_rewrite not_elem_of_union. setoid_rewrite not_elem_of_singleton.
  rewrite list_elem_of_fmap. unfold listener_ok. naive_solver.
Qed.

(** The listeners' settings are merged one by one. *)
Lemma validateListeners_merged qd md ls addrs :
  (validateListeners qd md ls addrs).1 =
  ((λ l, mergeQuicConfig qd (pl_quic l)) <$> ls, (λ l, mergeMvfstConfig md (pl_mvfst l)) <$> ls).
Proof.
  revert addrs. induction ls as [|l ls IH]; intros addrs; [done|]. cbn.
  specialize (IH ({[listenerAddr l]} ∪ addrs)).
  destruct (validateListeners _ _ _ _) as [[quics mvfsts] d']. cbn in *. by injection IH as -> ->.
Qed.

(** ** The rest of the checks *)

Lemma validateThreads_ok n : (validateThreads n).1 = [] ↔ n ≠ 0 ∧ n <= 1.
Proof.
  unfold validateThreads. destruct (Z.eqb_spec n 0); rewrite errors_errorIf, ?Z.ltb_ge; [|lia].
  split; [done|lia].
Qed.

Lemma validateSbd_ok s edge : (validateSbd s edge).1 = [] ↔ valid_sbd s edge.
Proof.
  unfold validateSbd. autorewrite with errors. split.
  - intros (?&?&Hd&He). constructor; [done|done| |]; [|destruct (sbd_enabled s), edge; naive_solver].
    destruct (decide (sbd_algorithm s = kDcSbd)); naive_solver.
  - intros [? ? Hd He]. split_and!; [done|done| |destruct (sbd_enabled s), edge; naive_solver].
    destruct (decide (sbd_algorithm s = kDcSbd)); naive_solver.
Qed.

Lemma filter_nil_iff {A} (P : A → Prop) `{!∀ x, Decision (P x)} (l : list A) :
  filter P l = [] ↔ Forall (λ x, ¬ P x) l.
Proof.
  induction l as [|x l IH]; [done|]. rewrite filter_cons, Forall_cons. case_decide; naive_solver.
Qed.

Lemma fmap_nil_iff {A B} (f : A → B) (l : list A) : f <$> l = [] ↔ l = [].
Proof. by destruct l. Qed.

Lemma mapOutcome_defined {A B} (f : A → Outcome B) (l : list A) :
  (∀ x, x ∈ l → ∃ y, f x = Done y) → ∃ ys, mapOutcome f l = Done ys.
Proof.
  induction l as [|x l IH]; intros Hf; cbn; [eauto|]. destruct (Hf x) as [y ->]; [by left|].
  destruct IH as [ys ->]; [intros; apply Hf; by right|]. cbn. eauto.
Qed.

Section Acceptance.
Context {SocketAddress : Type} (socketAddress : string → Z → option SocketAddress).
Context (validateIP : string → bool).

Lemma validateRtt_ok c :
  (validateRttOutputs validateIP c (default [] (rtt_outputs c))).1 = [] ↔ valid_rtt validateIP c.
Proof.
  unfold validateRttOutputs, valid_rtt. cbn [fst]. rewrite app_nil, fmap_nil_iff, filter_nil_iff, Forall_forall.
  destruct (default [] (rtt_outputs c)) as [|o os] eqn:Ho.
  { split; [by intros _ ?? ?%elem_of_nil|]. intros _. split; [done|]. by intros x ?%elem_of_nil. }
  rewrite fmap_nil_iff, filter_nil_iff. split.
  - intros [Hl Hall] peer dir Hin. specialize (Hall (peer, dir) Hin). cbn in Hall.
    rewrite negb_true_iff, not_false_iff_true, andb_true_iff in Hall. destruct Hall. split_and!; [done..|].
    eapply Forall_impl; [exact Hl|]. intros l Hdec. by destruct (decide (stackName l = kStackMvfst)).
  - intros Hall. split.
    + destruct o as [peer dir]. destruct (Hall peer dir) as (_&_&Hf); [by left|].
      eapply Forall_impl; [exact Hf|]. naive_solver.
    + intros [peer dir] Hin. destruct (Hall peer dir Hin) as (Hip&Hdir&_). cbn. by rewrite Hip, Hdir.
Qed.

(** ** Resolution of what was validated *)

Lemma resolveCacheConfig_defined m :
  valid_cache m → ∃ r, resolveCacheConfig m = Done r.
Proof.
  intros [[on He] [t Ht] (g&Hg&_) _ _]. unfold resolveCacheConfig. rewrite He, Ht, Hg.
  destruct on; cbn; eauto.
Qed.

Lemma resolveServices_defined caches services :
  map_Forall (λ _, valid_cache) caches → (∀ s, s ∈ services → is_Some (caches !! s.1)) →
  ∃ r, resolveServices caches services = Done r.
Proof.
  intros Hc Hs. apply mapOutcome_defined. intros s Hin. destruct (Hs s Hin) as [m Hm]. rewrite Hm. cbn.
  unfold resolveService. destruct (resolveCacheConfig_defined m (Hc _ _ Hm)) as [r Hr].
  rewrite Hr. cbn. eauto.
Qed.

(** Resolving the listeners only fails on an address. *)
Lemma resolveListeners_cases i ls quics mvfsts :
  (i + length ls <= length quics)%nat → (i + length ls <= length mvfsts)%nat →
  match resolveListeners socketAddress i ls quics mvfsts with
  | Done _ => ∀ l, l ∈ ls → is_Some (socketAddress (sock_address (pl_socket l)) (sock_port (pl_socket l)))
  | Throws => ∃ l, l ∈ ls ∧ socketAddress (sock_address (pl_socket l)) (sock_port (pl_socket l)) = None
  | Undefined => False
  end.
Proof.
  revert i. induction ls as [|l ls IH]; intros i Hq Hm; cbn; [by intros l ?%elem_of_nil|].
  cbn in Hq, Hm. destruct (lookup_lt_is_Some_2 quics i) as [q Hqi]; [lia|].
  destruct (lookup_lt_is_Some_2 mvfsts i) as [m Hmi]; [lia|]. rewrite Hqi, Hmi. cbn.
  unfold resolveListener. destruct (socketAddress _ _) as [a|] eqn:Ha; cbn; [|exists l; split; [by left|done]].
  specialize (IH (S i) ltac:(lia) ltac:(lia)). destruct (resolveListeners _ _ _ _ _); cbn; [| |done].
  - intros l' [->|?]%elem_of_cons; [by rewrite Ha|auto].
  - destruct IH as (l'&?&?). exists l'. split; [by right|done].
Qed.

Lemma resolveAdmin_cases o :
  match resolveAdmin socketAddress o with
  | Done _ => ∀ a, o = Some a → is_Some (socketAddress (pa_address a) (pa_port a))
  | Throws => ∃ a, o = Some a ∧ socketAddress (pa_address a) (pa_port a) = None
  | Undefined => False
  end.
Proof.
  destruct o as [a|]; cbn; [|done].
  destruct (socketAddress _ _) as [x|] eqn:Ha; cbn; [intros a' [= <-]; by rewrite Ha|eauto].
Qed.

(** All diagnostics of a configuration with a listener, in order. *)
Definition diagnostics (c : ParsedConfig) : Diagnostics :=
  (validateListeners (defaults_quic c) (defaults_mvfst c) (listeners c) ∅).2 >+>
  validatePico c >+> validateAdmin (pc_admin c) >+>
  errorIf (bool_decide (services c = [])) NoService >+>
  (validateServices (defaults_cache c) (services c) ∅ ∅).2 >+>
  validateThreads (default 1 (pc_threads c)) >+>
  validateSbd (resolveSbd (pc_sbd c)) (default false (pc_edge c)) >+>
  validateRttOutputs validateIP c (default [] (rtt_outputs c)).

Lemma diagnostics_ok c :
  listeners c ≠ [] → (diagnostics c).1 = [] ↔ valid_config validateIP c.
Proof.
  intros Hl. unfold diagnostics.
  rewrite !errors_andThen, validateListeners_ok, validateAdmin_ok, errors_errorIf, bool_decide_eq_false,
    validateServices_ok, validateThreads_ok, validateSbd_ok, validateRtt_ok.
  assert ((validatePico c).1 = []) as -> by (unfold validatePico; by destruct (pl_name <$> _)).
  assert (Forall (listener_ok (defaults_quic c) (defaults_mvfst c)) (listeners c) ↔
          Forall (valid_listener c) (listeners c)) as ->.
  { by apply Forall_iff; intros l; apply listener_ok_iff. }
  split.
  - intros ((?&?&_)&_&?&?&(?&?&_)&?&?&?). by constructor.
  - intros []. split_and!; try done; intros; try apply not_elem_of_empty; tauto.
Qed.

Lemma resolveConfig_cases c draw1 draw2 :
  match resolveConfig socketAddress validateIP c draw1 draw2 with
  | Done (value _) => valid_config validateIP c ∧ addresses_parse socketAddress c
  | Done (unexpected errors) => ¬ valid_config validateIP c ∧ errors ≠ []
  | Throws => valid_config validateIP c ∧ ¬ addresses_parse socketAddress c
  | Undefined => False
  end.
Proof.
  unfold resolveConfig. destruct (listeners c) as [|l0 ls] eqn:Hl; [split; [|done]; by intros []|].
  rewrite <-Hl. pose proof (diagnostics_ok c ltac:(by rewrite Hl)) as Hd. unfold diagnostics in Hd.
  pose proof (validateListeners_merged (defaults_quic c) (defaults_mvfst c) (listeners c) ∅) as Hm.
  pose proof (validateServices_caches (defaults_cache c) (services c) ∅ ∅) as Hc.
  destruct (validateListeners _ _ _ _) as [[quics mvfsts] dl]. injection Hm as -> ->.
  destruct (validateServices _ _ _ _) as [caches ds]. cbn [fst snd] in *.
  destruct (dl >+> _) as [[|e errors] warnings] eqn:He; cbn [fst] in Hd.
  2:{ split; [|done]. rewrite <-Hd. done. }
  destruct Hd as [Hv _]. specialize (Hv eq_refl).
  destruct Hc as [Hc Hs]; [apply map_Forall_empty|apply Hv|].
  destruct (resolveServices_defined caches (services c) Hc Hs) as [rs ->]. cbn [mbind outcome_bind].
  pose proof (resolveAdmin_cases (pc_admin c)) as Ha.
  destruct (resolveAdmin _ _); cbn [mbind outcome_bind]; [| |done].
  2:{ split; [done|]. intros [_ Hp]. destruct Ha as (a&E&?). destruct (Hp a E) as [? ?]. congruence. }
  pose proof (resolveListeners_cases 0 (listeners c)
    ((λ l, mergeQuicConfig (defaults_quic c) (pl_quic l)) <$> listeners c)
    ((λ l, mergeMvfstConfig (defaults_mvfst c) (pl_mvfst l)) <$> listeners c)) as Hr.
  rewrite !length_fmap in Hr. specialize (Hr ltac:(done) ltac:(done)).
  destruct (resolveListeners _ _ _ _ _); cbn [mbind outcome_bind]; [split; [done|by split]| |done].
  split; [done|]. intros [Hp _]. destruct Hr as (l&Hin&?). destruct (Hp l Hin). congruence.
Qed.

(** C9: [resolveConfig] accepts a configuration exactly when it is valid (every
    listener, service and rule meets its conditions, listener addresses and
    rule keys are distinct) and its addresses parse. *)
Theorem config_accepted_iff c draw1 draw2 :
  (∃ rc, resolveConfig socketAddress validateIP c draw1 draw2 = Done (value rc)) ↔
  valid_config validateIP c ∧ addresses_parse socketAddress c.
Proof.
  pose proof (resolveConfig_cases c draw1 draw2) as H.
  destruct (resolveConfig _ _ _ _ _) as [[rc|es]| |]; naive_solver.
Qed.

(** C36: Resolving a configuration never dereferences an empty optional, never
    indexes past a vector, and throws only when the configuration is valid and
    the address of a listener or of the admin server does not parse. *)
Theorem resolve_defined c draw1 draw2 :
  resolveConfig socketAddress validateIP c draw1 draw2 ≠ Undefined ∧
  (resolveConfig socketAddress validateIP c draw1 draw2 = Throws ↔
   valid_config validateIP c ∧ ¬ addresses_parse socketAddress c).
Proof.
  pose proof (resolveConfig_cases c draw1 draw2) as H.
  destruct (resolveConfig _ _ _ _ _) as [[rc|es]| |]; naive_solver.
Qed.

(** ** What the resolved configuration holds *)

Lemma mapOutcome_done {A B} (f : A → Outcome B) l ys :
  mapOutcome f l = Done ys → Forall2 (λ x y, f x = Done y) l ys.
Proof.
  revert ys. induction l as [|x l IH]; intros ys; cbn; [intros [= <-]; constructor|].
  destruct (f x) as [y| |] eqn:Hx; cbn; try done. destruct (mapOutcome f l); cbn; try done.
  intros [= <-]. constructor; auto.
Qed.

(** The rules of the resolved services, as the service matcher reads them. *)
Definition routes (cfg : @Config SocketAddress) : Services :=
  (λ s : string * ServiceConfig, (s.1, s_match s.2)) <$> c_services cfg.

Lemma resolved_routes c draw1 draw2 rc :
  resolveConfig socketAddress validateIP c draw1 draw2 = Done (value rc) →
  routes (rc_config rc) =
  (λ s : string * ParsedServiceConfig, (s.1, resolveMatchEntry <$> ps_match s.2)) <$> services c.
Proof.
  unfold resolveConfig. destruct (listeners c); [done|].
  destruct (validateListeners _ _ _ _) as [[quics mvfsts] dl].
  destruct (validateServices _ _ _ _) as [caches ds].
  destruct (dl >+> _) as [[|e errors] warnings]; [|done].
  destruct (resolveServices _ _) as [rs| |] eqn:Hrs; cbn [mbind outcome_bind]; try done.
  destruct (resolveAdmin _ _); cbn [mbind outcome_bind]; try done.
  destruct (resolveListeners _ _ _ _ _); cbn [mbind outcome_bind]; try done.
  intros [= <-]. unfold routes. cbn. apply mapOutcome_done in Hrs.
  induction Hrs as [|s r services rs Hr _ IH]; [done|]. cbn. f_equal; [|exact IH].
  destruct (caches !! s.1); cbn in Hr; [|done]. unfold resolveService in Hr.
  destruct (resolveCacheConfig _); cbn in Hr; [|done..]. by injection Hr as <-.
Qed.

End Acceptance.

(** ** Routing *)

Definition entryKey (e : MatchEntry) : string :=
  makeCompositeKey
    match authority e with
    | ExactAuthority v => mkInfo "exact" v
    | WildcardAuthority pat => mkInfo "wildcard" pat
    | AnyAuthority => mkInfo "any" ""
    end (path e).

Lemma ruleKey_entry r : ruleKey r = entryKey (resolveMatchEntry r).
Proof. unfold ruleKey, entryKey. by destruct r as [[] ?]. Qed.

Lemma rulesOf_entries (services : list (string * ParsedServiceConfig)) :
  (rulesOf ((λ s, (s.1, resolveMatchEntry <$> ps_match s.2)) <$> services)).*2 =
  resolveMatchEntry <$> parsedRules services.
Proof.
  unfold rulesOf, parsedRules. induction services as [|s services IH]; [done|].
  cbn [fmap list_fmap]. rewrite !mjoin_cons, !fmap_app. f_equal; [|exact IH]. cbn.
  rewrite <-!list_fmap_compose. by apply list_fmap_ext.
Qed.

Lemma NoDup_snd_inj {A B} (l : list (A * B)) x y : NoDup l.*2 → x ∈ l → y ∈ l → x.2 = y.2 → x = y.
Proof.
  intros Hnd (i&Hi)%list_elem_of_lookup (j&Hj)%list_elem_of_lookup Heq.
  assert (i = j) as <-; [|congruence].
  eapply NoDup_lookup; [exact Hnd| |]; rewrite list_lookup_fmap; [by rewrite Hi|by rewrite Hj, Heq].
Qed.

(** Wildcard patterns begin with a star. *)
Definition starred (r : string * MatchEntry) : Prop :=
  ∀ pattern, authority r.2 = WildcardAuthority pattern → ∃ suffix, pattern = String "*" suffix.

Lemma accepted_rules_distinct validateIP c :
  valid_config validateIP c →
  let L := rulesOf ((λ s, (s.1, resolveMatchEntry <$> ps_match s.2)) <$> services c) in
  NoDup L.*2 ∧ Forall starred L.
Proof.
  intros Hv L. assert (HL : L.*2 = resolveMatchEntry <$> parsedRules (services c)) by apply rulesOf_entries.
  split.
  - rewrite HL. apply (NoDup_fmap_1 entryKey). rewrite <-list_fmap_compose.
    rewrite <-(list_fmap_ext _ _ _ (λ _ r _, ruleKey_entry r)). apply Hv.
  - apply Forall_forall. intros [name e] Hr pattern Hp. cbn in Hp.
    assert (e ∈ L.*2) as He by (apply list_elem_of_fmap; by exists (name, e)).
    rewrite HL in He. apply list_elem_of_fmap in He as (r&->&He).
    unfold parsedRules in He. apply list_elem_of_join in He as (rules&Hin&(svc&->&(s&->&Hs)%list_elem_of_fmap)%list_elem_of_fmap).
    pose proof (v_services _ _ Hv) as Hall. rewrite Forall_forall in Hall. destruct (Hall s Hs) as [Hrules _ _].
    rewrite Forall_forall in Hrules. destruct (Hrules r Hin) as [Ha _].
    unfold resolveMatchEntry in Hp. cbn in Hp. destruct (r_authority r) as [| |]; try done. injection Hp as ->.
    destruct Ha as (domain&->&_). by exists (String "." domain).
Qed.

(** Two best rules are the same rule. *)
Lemma same_authority r r' auth :
  starred r → starred r' → tier (authority r.2) = tier (authority r'.2) →
  authMatches (authority r.2) auth → authMatches (authority r'.2) auth → authority r.2 = authority r'.2.
Proof.
  unfold starred. destruct (authority r.2) as [v|v|], (authority r'.2) as [w|w|]; cbn; try done; [congruence|].
  intros Hs Hs' _ (x&Hx&?) (y&Hy&?). destruct (Hs v eq_refl) as [sv ->], (Hs' w eq_refl) as [sw ->].
  cbn in *. congruence.
Qed.

Lemma same_path (pm pm' : PathMatcher) p :
  pathRank pm = pathRank pm' → pathLength pm = pathLength pm' → pathMatches pm p → pathMatches pm' p → pm = pm'.
Proof.
  destruct pm as [v|v], pm' as [w|w]; cbn; try done; [congruence|]. intros _ Hlen.
  unfold startsWith. rewrite !andb_true_iff, !bool_decide_eq_true, Hlen. intros [_ Hv] [_ Hw]. congruence.
Qed.

Lemma best_unique L auth p res res' :
  NoDup L.*2 → Forall starred L → best_match L auth p res → best_match L auth p res' → res = res'.
Proof.
  intros Hnd Hst Hb Hb'. rewrite Forall_forall in Hst.
  destruct res as [s|], res' as [s'|]; cbn in *; [|naive_solver..].
  destruct Hb as (r&Hr&[Ha Hp]&<-&Hbest), Hb' as (r'&Hr'&[Ha' Hp']&<-&Hbest').
  pose proof (Hbest r' Hr' (conj Ha' Hp')) as Hge. pose proof (Hbest' r Hr (conj Ha Hp)) as Hge'.
  unfold rule_ge, path_ge in *. assert (r = r') as ->; [|done].
  eapply NoDup_snd_inj; [exact Hnd|done|done|].
  assert (authority r.2 = authority r'.2) as Hau by (eapply same_authority; eauto; lia).
  assert (path r.2 = path r'.2) as Hpa by (eapply same_path; eauto; lia).
  destruct r as [? []], r' as [? []]. cbn in *. by subst.
Qed.

Lemma best_match_ext L L' auth p res :
  (∀ r, r ∈ L ↔ r ∈ L') → best_match L auth p res → best_match L' auth p res.
Proof. intros HL. destruct res; cbn; naive_solver. Qed.

Lemma rulesOf_perm (s s' : Services) : s ≡ₚ s' → ∀ r, r ∈ rulesOf s ↔ r ∈ rulesOf s'.
Proof.
  intros Hp r. unfold rulesOf. rewrite !list_elem_of_join. setoid_rewrite list_elem_of_fmap.
  by setoid_rewrite Hp.
Qed.

(** A matcher is built from rules whose wildcards are well formed, and finds a
    best rule of any list with the same rules. *)
Lemma matcher_built std_sort (order : Services) L auth p :
  (∀ l, std_sort l ≡ₚ l) → (∀ l, StronglySorted longer (std_sort l)) →
  (∀ r, r ∈ rulesOf order ↔ r ∈ L) → Forall starred L →
  ∃ sm, newServiceMatcher std_sort order = Some sm ∧ best_match L auth p (smMatch sm auth p).
Proof.
  intros Hperm Hsort HL Hst. rewrite Forall_forall in Hst.
  assert (∃ sm, newServiceMatcher std_sort order = Some sm) as [sm Hsm].
  { unfold newServiceMatcher.
    destruct (addEntries_defined (rulesOf order) (mkMatcher ∅ ∅ emptyRules)) as [sm0 ->]; [|eauto].
    intros r Hr%HL Ha. destruct (Hst r Hr _ Ha) as [suffix ?]. done. }
  exists sm. split; [done|]. eapply best_match_ext; [exact HL|]. by eapply smMatch_best.
Qed.

Section Routing.
Context {SocketAddress : Type} (socketAddress : string → Z → option SocketAddress).
Context (validateIP : string → bool).
(** Two runs of the constructor may see the services in different orders and
    sort prefixes of equal length differently. *)
Context (std_sort std_sort' : list (string * string) → list (string * string)).
Context (sort_perm : ∀ l, std_sort l ≡ₚ l) (sort_sorted : ∀ l, StronglySorted longer (std_sort l)).
Context (sort_perm' : ∀ l, std_sort' l ≡ₚ l) (sort_sorted' : ∀ l, StronglySorted longer (std_sort' l)).

(** The matcher of an accepted configuration is always built, and the service
    it finds for an authority and path does not depend on the order in which
    the hash map lists the services, nor on how [std::sort] orders prefixes of
    the same length. *)
Theorem routing_deterministic c draw1 draw2 rc order order' auth p :
  resolveConfig socketAddress validateIP c draw1 draw2 = Done (value rc) →
  order ≡ₚ routes (rc_config rc) → order' ≡ₚ routes (rc_config rc) →
  ∃ sm sm', newServiceMatcher std_sort order = Some sm ∧
    newServiceMatcher std_sort' order' = Some sm' ∧ smMatch sm auth p = smMatch sm' auth p.
Proof.
  intros Hres Hp Hp'. rewrite (resolved_routes _ _ _ _ _ _ Hres) in Hp, Hp'.
  pose proof (resolveConfig_cases socketAddress validateIP c draw1 draw2) as Hv. rewrite Hres in Hv.
  destruct (accepted_rules_distinct validateIP c (proj1 Hv)) as [Hnd Hst].
  destruct (matcher_built std_sort order _ auth p sort_perm sort_sorted (rulesOf_perm _ _ Hp) Hst)
    as (sm&Hsm&Hb).
  destruct (matcher_built std_sort' order' _ auth p sort_perm' sort_sorted' (rulesOf_perm _ _ Hp') Hst)
    as (sm'&Hsm'&Hb').
  exists sm, sm'. split_and!; [done..|]. by eapply best_unique.
Qed.

End Routing.

(** ** Defaults and overrides

    A setting is that of the listener or service if it sets it, else that of
    the defaults section, else the built-in value. *)

Definition pick {A B} (f : B → option A) (builtin : A) (defaults own : option B) : A :=
  default builtin (override (own ≫= f) (defaults ≫= f)).

Definition pickIn {A B C} (sub : C → option B) (f : B → option A) (builtin : A)
    (defaults own : option C) : A := pick (λ c, sub c ≫= f) builtin defaults own.

Definition quicSettings (d l : option ParsedQuicConfig) : QuicConfig :=
  mkQuic (pick max_data 67108864 d l) (pick max_stream_data 16777216 d l)
    (pick max_uni_streams 8192 d l) (pick max_bidi_streams 16 d l)
    (pick pq_idle_timeout_ms 30000 d l) (pick max_ack_delay_us 25000 d l)
    (pick min_ack_delay_us 1000 d l) (pick default_stream_priority 2 d l)
    (pick default_datagram_priority 1 d l) (pick cc_algo "bbr" d l).

Definition mvfstSettings (d l : option ParsedMvfstConfig) : MvfstConfig :=
  mkMvfst (pick max_cwnd_in_mss 860000 d l) (pick pacing_enabled true d l) (pick enable_gso true d l)
    (pick max_conn_packets_sent_per_loop 48 d l) (pick use_recvmmsg true d l)
    (pick max_server_recv_packets_per_loop 64 d l) (pick num_gro_buffers 1 d l)
    (mkBBR (pickIn p_bbr conservative_recovery false d l) (pickIn p_bbr large_probe_rtt_cwnd false d l)
       (pickIn p_bbr enable_ack_aggregation_in_startup false d l)
       (pickIn p_bbr probe_rtt_disabled_if_app_limited false d l)
       (pickIn p_bbr drain_to_target false d l))
    (mkBBR2 (pickIn p_bbr2 ignore_inflight_long_term false d l)
       (pickIn p_bbr2 ignore_short_term false d l) (pickIn p_bbr2 exit_startup_on_loss true d l)
       (pickIn p_bbr2 enable_recovery_in_startup true d l)
       (pickIn p_bbr2 enable_recovery_in_probe_states true d l)
       (pickIn p_bbr2 enable_reno_coexistence false d l) (pickIn p_bbr2 pace_init_cwnd false d l)
       (pickIn p_bbr2 override_cruise_pacing_gain (Finite (-1)) d l)
       (pickIn p_bbr2 override_cruise_cwnd_gain (Finite (-1)) d l)
       (pickIn p_bbr2 override_startup_pacing_gain (Finite (-1)) d l)
       (pickIn p_bbr2 override_bw_short_beta (Finite 0) d l))
    (mkCubic (pickIn p_cubic additive_increase_after_hystart false d l)
       (pickIn p_cubic only_grow_cwnd_when_limited false d l)
       (pickIn p_cubic leave_headroom_for_cwnd_limited false d l))
    (pickIn p_copa id (Finite (5 # 100)) d l) (pickIn p_l4s id (Finite 0) d l).

Lemma pick_apply {A B} (f : B → option A) (x : A) (d l : option B) :
  pick f x d l = applyIf (λ a b, default a (f b)) (applyIf (λ a b, default a (f b)) x d) l.
Proof. unfold pick. destruct d as [d|], l as [l|]; cbn; [destruct (f l)|destruct (f d)|destruct (f l)|]; done. Qed.

Lemma mergeQuic_settings d l : mergeQuicConfig d l = quicSettings d l.
Proof. unfold quicSettings. rewrite !pick_apply. by destruct d, l. Qed.

Lemma pickIn_apply {A B C} (sub : C → option B) (f : B → option A) (x : A) (d l : option C) :
  pickIn sub f x d l = applyIf (λ a c, applyIf (λ a b, default a (f b)) a (sub c))
                         (applyIf (λ a c, applyIf (λ a b, default a (f b)) a (sub c)) x d) l.
Proof.
  unfold pickIn. rewrite pick_apply.
  destruct d as [d|], l as [l|]; cbn; try destruct (sub d); try destruct (sub l); done.
Qed.

Lemma mergeMvfst_settings d l : mergeMvfstConfig d l = mvfstSettings d l.
Proof.
  unfold mvfstSettings. rewrite !pick_apply, !pickIn_apply.
  unfold mergeMvfstConfig, applyMvfstOverride, defaultMvfst.
  destruct d as [d|], l as [l|]; cbn; [| | |done];
    try destruct (p_bbr d), (p_bbr2 d), (p_cubic d); try destruct (p_bbr l), (p_bbr2 l), (p_cubic l); done.
Qed.

(** The cache settings of a service, from its own section and the defaults. *)
Definition cacheSettings (d own : option ParsedCacheConfig) (r : CacheConfig) : Prop :=
  maxCachedTracks r = (if pick enabled false d own then pick max_tracks 0 d own else 0) ∧
  maxCachedGroupsPerTrack r = pick max_groups_per_track 0 d own ∧
  maxCachedMb r = pick max_cached_mb 16 d own ∧
  minEvictionKb r = pick min_eviction_kb 64 d own ∧
  cc_maxCacheDuration r = 1000 * pick max_cache_duration_s 86400 d own ∧
  defaultMaxCacheDuration r =
    Some (1000 * pick default_max_cache_duration_s (pick max_cache_duration_s 86400 d own) d own).

Lemma mergedCache_pick {A} (f : ParsedCacheConfig → option A) svc d :
  f noCache = None → (∀ b o, f (mergeCacheConfigs b o) = override (f o) (f b)) →
  ∀ x, default x (f (mergedCache svc d)) = pick f x d (ps_cache svc).
Proof.
  intros Hn Hm x. unfold mergedCache, pick.
  destruct (ps_cache svc) as [c|], d as [b|]; cbn; [by rewrite Hm| |done|by rewrite Hn].
  by destruct (f c).
Qed.

Lemma resolveCache_settings svc d r :
  resolveCacheConfig (mergedCache svc d) = Done r → cacheSettings d (ps_cache svc) r.
Proof.
  unfold resolveCacheConfig, cacheSettings, kDefaultMaxCacheDurationS.
  rewrite <-!(mergedCache_pick _ svc d) by done.
  destruct (enabled (mergedCache svc d)) as [on|]; cbn [deref mbind outcome_bind]; [|done].
  destruct on.
  - destruct (max_tracks _); cbn [deref mbind outcome_bind]; [|done].
    destruct (max_groups_per_track _); cbn [deref mbind outcome_bind]; [|done]. intros [= <-]. cbn.
    split_and!; try done. by destruct (default_max_cache_duration_s _).
  - cbn [deref mbind outcome_bind].
    destruct (max_groups_per_track _); cbn [deref mbind outcome_bind]; [|done]. intros [= <-]. cbn.
    split_and!; try done. by destruct (default_max_cache_duration_s _).
Qed.

(** With distinct names, a service's merged settings are found under its name. *)
Lemma validateServices_lookup defaults services keys caches s :
  NoDup services.*1 → (∀ s, s ∈ services → caches !! s.1 = None) → s ∈ services →
  (validateServices defaults services keys caches).1 !! s.1 = Some (mergedCache s.2 defaults).
Proof.
  revert keys caches. induction services as [|[name svc] services IH]; intros keys caches Hnd Hc Hs.
  { by apply elem_of_nil in Hs. }
  apply NoDup_cons in Hnd as [Hname Hnd]. cbn. unfold validateService.
  destruct (validateRules _ _ _ _) as [keys' d]. set (caches1 := emplaceCache _ _ _).
  assert (caches1 = <[name := mergedCache svc defaults]> caches) as Hc1.
  { pose proof (Hc (name, svc) ltac:(by left)) as Hn. cbn in Hn. unfold caches1, emplaceCache. by rewrite Hn. }
  pose proof (IH keys' caches1 Hnd) as IH1.
  pose proof (validateServices_mono defaults services keys' caches1 name (mergedCache svc defaults)) as Hmono.
  destruct (validateServices _ _ _ _) as [caches' d']. cbn in *. rewrite Hc1 in *.
  apply elem_of_cons in Hs as [->|Hs].
  - apply Hmono, lookup_insert_eq.
  - apply IH1; [|done]. intros s' Hs'. rewrite lookup_insert_ne; [apply Hc; by right|].
    intros ->. apply Hname. by apply list_elem_of_fmap_2.
Qed.

Lemma Forall2_impl_elem {A B} (P Q : A → B → Prop) l k :
  Forall2 P l k → (∀ x y, x ∈ l → P x y → Q x y) → Forall2 Q l k.
Proof.
  induction 1 as [|x y l k Hxy _ IH]; intros HQ; constructor; [apply HQ; [by left|done]|].
  apply IH. intros. apply HQ; [by right|done].
Qed.

Section Settings.
Context {SocketAddress : Type} (socketAddress : string → Z → option SocketAddress).
Context (validateIP : string → bool).

(** What one resolved listener and one resolved service are. *)
Definition listenerOf (c : ParsedConfig) (l : ParsedListenerConfig) (r : @ListenerConfig SocketAddress) :
    Prop :=
  l_name r = pl_name l ∧
  socketAddress (sock_address (pl_socket l)) (sock_port (pl_socket l)) = Some (l_address r) ∧
  quicStack r = stackOf l ∧ l_quic r = quicSettings (defaults_quic c) (pl_quic l) ∧
  l_mvfst r = mvfstSettings (defaults_mvfst c) (pl_mvfst l) ∧
  (tlsMode r = Insecure ↔ ptls_insecure (pl_tls l) = true).

Definition serviceOf (c : ParsedConfig) (s : string * ParsedServiceConfig) (r : string * ServiceConfig) :
    Prop :=
  r.1 = s.1 ∧ s_match r.2 = resolveMatchEntry <$> ps_match s.2 ∧
  s_upstream r.2 = resolveUpstream <$> ps_upstream s.2 ∧
  cacheSettings (defaults_cache c) (ps_cache s.2) (s_cache r.2).

Lemma resolveListeners_settings c i ls pre rs :
  resolveListeners socketAddress i ls
    (pre.*1 ++ ((λ l, mergeQuicConfig (defaults_quic c) (pl_quic l)) <$> ls))
    (pre.*2 ++ ((λ l, mergeMvfstConfig (defaults_mvfst c) (pl_mvfst l)) <$> ls)) = Done rs →
  length pre = i → Forall2 (listenerOf c) ls rs.
Proof.
  revert i pre rs. induction ls as [|l ls IH]; intros i pre rs Hres Hlen; cbn in Hres.
  { injection Hres as <-. constructor. }
  rewrite !list_lookup_middle in Hres by (by rewrite length_fmap). cbn in Hres.
  unfold resolveListener in Hres. destruct (socketAddress _ _) as [a|] eqn:Ha; cbn in Hres; [|done].
  destruct (resolveListeners _ _ _ _ _) as [rs'| |] eqn:Hrs; cbn in Hres; try done.
  injection Hres as <-. constructor.
  - split_and!; cbn; [done|done|done|apply mergeQuic_settings|apply mergeMvfst_settings|].
    by destruct (ptls_insecure (pl_tls l)).
  - apply (IH (S i) (pre ++ [(mergeQuicConfig (defaults_quic c) (pl_quic l),
                              mergeMvfstConfig (defaults_mvfst c) (pl_mvfst l))])%list).
    + by rewrite !fmap_app, <-!app_assoc.
    + rewrite length_app, Hlen. cbn. lia.
Qed.

(** In the resolved configuration every listener and service keeps its place
    and its rules, and every setting is the one the listener or service gives,
    else the one of the defaults section, else the built-in value. *)
Theorem resolved_settings c draw1 draw2 rc :
  NoDup (services c).*1 →
  resolveConfig socketAddress validateIP c draw1 draw2 = Done (value rc) →
  Forall2 (listenerOf c) (listeners c) (c_listeners (rc_config rc)) ∧
  Forall2 (serviceOf c) (services c) (c_services (rc_config rc)).
Proof.
  intros Hnd. unfold resolveConfig. destruct (listeners c) as [|l0 ls] eqn:Hl; [done|]. rewrite <-Hl.
  pose proof (validateListeners_merged (defaults_quic c) (defaults_mvfst c) (listeners c) ∅) as Hm.
  pose proof (λ s, validateServices_lookup (defaults_cache c) (services c) ∅ ∅ s Hnd
                     (λ s _, lookup_empty s.1)) as Hc.
  destruct (validateListeners _ _ _ _) as [[quics mvfsts] dl]. injection Hm as -> ->.
  destruct (validateServices _ _ _ _) as [caches ds]. cbn [fst] in Hc.
  destruct (dl >+> _) as [[|e errors] warnings]; [|done].
  destruct (resolveServices _ _) as [rs| |] eqn:Hrs; cbn [mbind outcome_bind]; try done.
  destruct (resolveAdmin _ _); cbn [mbind outcome_bind]; try done.
  destruct (resolveListeners _ _ _ _ _) eqn:Hls; cbn [mbind outcome_bind]; try done.
  intros [= <-]. cbn. split; [by apply (resolveListeners_settings c 0 _ [])|].
  apply mapOutcome_done in Hrs. eapply Forall2_impl_elem; [exact Hrs|]. intros s r Hs Hr.
  cbn beta in Hr. specialize (Hc s Hs). destruct (caches !! s.1); [|done]. injection Hc as ->.
  cbn [orThrow mbind outcome_bind] in Hr. unfold resolveService in Hr.
  destruct (resolveCacheConfig _) as [rcache| |] eqn:Hcache; cbn in Hr; try done. injection Hr as <-.
  split_and!; [done..|]. by apply resolveCache_settings.
Qed.

End Settings.
