(* ===== verification/ConfigExamples.v ===== *)
(** * Concrete configurations

    Witnesses for the theorems on configuration resolution, and inputs on
    which the validation is stricter or laxer than its messages say. *)

From Stdlib Require Import QArith Ascii.
From S2P Require Import Prelude ServiceMatcher ConfigData ConfigResolver ConfigTheorems.

#[local] Open Scope string_scope.
#[local] Open Scope Z_scope.

Module ConfigExamples.

(** Addresses are pairs here; "?" does not parse. *)
Definition toyAddress (address : string) (port : Z) : option (string * Z) :=
  if String.eqb address "?" then None else Some (address, port).
Definition toyIP (peer : string) : bool := nonEmpty peer.

Definition socket1 := mkPSocket "0.0.0.0" 4433.
Definition tls1 := mkPTls (Some "cert.pem") (Some "key.pem") false.
Definition quic1 := mkPQuic None None (Some 4096) None None None None None None None.
Definition quicDefaults1 := mkPQuic None None (Some 64) None None None None None None (Some "copa").

Definition listener1 := mkPListener "main" socket1 tls1 "/moq" (Some [14; 16]) None (Some quic1) None.

Definition cacheDefaults1 := mkPCache (Some true) (Some 100) (Some 3) None None None None.
Definition cache1 := mkPCache None (Some 50) None None None None (Some 0).

Definition services1 : list (string * ParsedServiceConfig) :=
  [("live", mkPService [mkRule (PWildcardAuthority "*.example.com") (PrefixPath "/live")] (Some cache1) None);
   ("vod", mkPService [mkRule (PAnyAuthority true) (PrefixPath "/");
                       mkRule (PAnyAuthority true) (ExactPath "/vod")] None None)].

Definition config1 : ParsedConfig :=
  mkPConfig None None None [listener1] (Some cacheDefaults1) services1 None (Some "relay")
    (Some quicDefaults1) None None None.

Definition with_mvfst (m : option ParsedMvfstConfig) : ParsedConfig :=
  mkPConfig None None None
    [mkPListener "main" socket1 tls1 "/moq" None None None m] (Some cacheDefaults1) services1 None
    (Some "relay") None None None None.

Definition with_rules (rules : list MatchRule) : ParsedConfig :=
  mkPConfig None None None [listener1] (Some cacheDefaults1) [("s", mkPService rules None None)] None
    (Some "relay") None None None None.

Definition resolveToy (c : ParsedConfig) := resolveConfig toyAddress toyIP c 1 2.

Definition noConfig : @Config (string * Z) :=
  mkConfig [] [] None "" 1 true false (mkSbd false "" "" "") [].

Definition resolved1 : ResolvedConfig :=
  match resolveToy config1 with Done (value rc) => rc | _ => mkResolved noConfig [] end.

Lemma resolve_config1 : resolveToy config1 = Done (value resolved1).
Proof. vm_compute. reflexivity. Qed.

Lemma resolved_settings_witness :
  l_quic <$> c_listeners (rc_config resolved1) =
    [mkQuic 67108864 16777216 4096 16 30000 25000 1000 2 1 "copa"] ∧
  (λ s, s_cache s.2) <$> c_services (rc_config resolved1) =
    [mkCacheConfig 50 3 16 64 86400000 (Some 0); mkCacheConfig 100 3 16 64 86400000 (Some 86400000)] ∧
  Forall2 (listenerOf toyAddress config1) (listeners config1) (c_listeners (rc_config resolved1)).
Proof.
  split; [vm_compute; reflexivity|]. split; [vm_compute; reflexivity|].
  apply (resolved_settings toyAddress toyIP config1 1 2 resolved1); [|exact resolve_config1].
  apply (bool_decide_unpack _). vm_compute. exact I.
Defined.

(** The matchers of both orders of the two services agree. *)
Lemma routing_deterministic_witness :
  ∃ sm sm', newServiceMatcher MatcherExamples.sortByLength (routes (rc_config resolved1)) = Some sm ∧
    newServiceMatcher MatcherExamples.sortByLength (reverse (routes (rc_config resolved1))) = Some sm' ∧
    smMatch sm "a.example.com" "/live/1" = smMatch sm' "a.example.com" "/live/1".
Proof.
  apply (routing_deterministic toyAddress toyIP MatcherExamples.sortByLength MatcherExamples.sortByLength
           MatcherExamples.sortByLength_perm MatcherExamples.sortByLength_sorted
           MatcherExamples.sortByLength_perm MatcherExamples.sortByLength_sorted config1 1 2 resolved1).
  - exact resolve_config1.
  - reflexivity.
  - apply reverse_Permutation.
Defined.

(** A listener without credentials and a service without cache settings: both
    are reported. *)
Example errors_collected :
  resolveToy (mkPConfig None None None
    [mkPListener "main" (mkPSocket "0.0.0.0" 0) (mkPTls None None false) "/moq" None (Some "tcp") None None]
    None [("s", mkPService [mkRule (PExactAuthority "") (ExactPath "x")] None None)] None None None None
    (Some 2) None) =
  Done (unexpected
    [ListenerPortZero "main"; ListenerTlsFilesRequired "main"; UnknownQuicStack "main" "tcp";
     ExactAuthorityEmpty "s" 0; CacheEnabledRequired "s"; CacheMaxTracksRequired "s";
     CacheMaxGroupsRequired "s"; ThreadsUnsupported]).
Proof. vm_compute. reflexivity. Qed.

Definition copa (delta : Double) : ParsedMvfstConfig :=
  mkPMvfst None None None None None None None None None None (Some (Some delta)) None.

Definition accepted (c : ParsedConfig) : bool :=
  match resolveToy c with Done (value _) => true | _ => false end.

(** A [copa.delta_param] of NaN passes the check that it lies in (0, 1). *)
Example nan_delta_accepted :
  accepted (with_mvfst (Some (copa NaN))) = true ∧
  accepted (with_mvfst (Some (copa (Finite 1)))) = false.
Proof. split; vm_compute; reflexivity. Qed.

(** Two rules with different authorities and paths have one composite key, and
    are rejected as duplicates. *)
Example composite_key_collision :
  let r := mkRule (PExactAuthority "a") (ExactPath "/b|exact:/c") in
  let r' := mkRule (PExactAuthority "a|exact:/b") (ExactPath "/c") in
  resolveMatchEntry r ≠ resolveMatchEntry r' ∧
  resolveToy (with_rules [r; r']) =
    Done (unexpected [DuplicateRule "s" "exact:a|exact:/b|exact:/c"]).
Proof. split; [done|]. vm_compute. reflexivity. Qed.

(** A disabled cache with [max_cached_mb: 0] is rejected. *)
Example disabled_cache_still_checked :
  resolveToy (mkPConfig None None None [listener1] None
    [("s", mkPService [] (Some (mkPCache (Some false) (Some 0) (Some 0) (Some 0) None None None)) None)]
    None (Some "relay") None None None None) = Done (unexpected [CacheMbZero "s"]).
Proof. vm_compute. reflexivity. Qed.

Example relay_id : generateRelayID 1 255 = "00000001000000ff".
Proof. vm_compute. reflexivity. Qed.

End ConfigExamples.
