(* ===== verification/SubscriptionRegistry.v ===== *)
(** * SubscriptionRegistry: one upstream subscription per track

    Models [src/src/SubscriptionRegistry.h] and [SubscriptionRegistry.cpp].

    - A forwarder is the number of the object: [std::weak_ptr::lock] compares
      equal to an entry's forwarder iff it is the same object, since the entry
      keeps it alive.
    - The [SharedPromise] of an entry lives in the entry's map node.  Its state
      is kept in [promises], keyed by the number of the node: subscribers that
      wait on it outlive the entry.  Erasing an entry whose promise is not yet
      fulfilled breaks the promise, which is an error for the waiters.
    - [setActivityTarget] stores the address of the entry's [lastObjectTime] in
      the filter: [targets] maps a filter to the node it writes to.
    - [MoQForwarder::empty] and the filter-chain builder are code outside this
      repository's registry and are arguments.
    - Fulfilling a promise twice and dereferencing a null filter abort: [None]. *)

From S2P Require Import Prelude.

Section Registry.
Context {FullTrackName : Type} `{Countable FullTrackName}.
Context {Session Handle Consumer : Type}.

(** ** Data *)

Inductive PromiseState := Pending | Fulfilled | Failed | Broken.

#[global] Instance PromiseState_eq_dec : EqDecision PromiseState.
Proof. solve_decision. Defined.

Record RelaySubscription := mkSub {
  node : Z;                       (* the map node, and the promise in it *)
  forwarder : Z;
  upstream : option Session;
  requestID : Z;
  handle : option Handle;
  isPublish : bool;
  topNFilter : option Z;
  lastObjectTime : Z
}.

Record SubscriptionRegistry := mkRegistry {
  subscriptions_ : gmap FullTrackName RelaySubscription;
  promises : gmap Z PromiseState;
  targets : gmap Z Z;             (* filter -> node it writes its activity to *)
  nextNode : Z;
  nextForwarder : Z
}.

Definition newRegistry : SubscriptionRegistry := mkRegistry ∅ ∅ ∅ 0 0.

(** The result of building the filter chain. *)
Record FilterChainResult := mkChain {
  consumer : Consumer;
  chainFilter : option Z
}.

(** [UpstreamSubscribePending]. *)
Record Token := mkToken {
  tokFtn : FullTrackName;
  tokForwarder : Z
}.

Inductive SubscribeResult :=
| FirstSubscriber (fwd : Z) (c : Consumer) (pending : Token)
| AwaitSubsequent (promise : Z).

Record Evicted := mkEvicted {
  evForwarder : Z;
  evHandle : option Handle
}.

(** ** The map *)

Definition set_subs (m : gmap FullTrackName RelaySubscription) (st : SubscriptionRegistry) :
    SubscriptionRegistry :=
  mkRegistry m (promises st) (targets st) (nextNode st) (nextForwarder st).

Definition set_promise (n : Z) (p : PromiseState) (st : SubscriptionRegistry) :
    SubscriptionRegistry :=
  mkRegistry (subscriptions_ st) (<[n := p]> (promises st)) (targets st) (nextNode st)
    (nextForwarder st).

(** [SharedPromise::setValue] and [setException]. *)
Definition resolve (n : Z) (p : PromiseState) (st : SubscriptionRegistry) :
    option SubscriptionRegistry :=
  match promises st !! n with
  | Some Pending => Some (set_promise n p st)
  | _ => None
  end.

(** [subscriptions_.emplace] of an absent key: a new node with its promise. *)
Definition emplaceSub (f : FullTrackName) (fwd : Z) (u : option Session) (now : Z)
    (st : SubscriptionRegistry) : SubscriptionRegistry :=
  mkRegistry
    (<[f := mkSub (nextNode st) fwd u 0 None false None now]> (subscriptions_ st))
    (<[nextNode st := Pending]> (promises st)) (targets st) (nextNode st + 1)
    (nextForwarder st).

(** [subscriptions_.erase]: the node and its promise are destroyed. *)
Definition eraseSub (f : FullTrackName) (st : SubscriptionRegistry) : SubscriptionRegistry :=
  match subscriptions_ st !! f with
  | None => st
  | Some e =>
      let st' := set_subs (delete f (subscriptions_ st)) st in
      match promises st !! node e with
      | Some Pending => set_promise (node e) Broken st'
      | _ => st'
      end
  end.

(** ** Subscribe path *)

Definition getOrCreateFromSubscribe (f : FullTrackName) (now : Z)
    (chainBuilder : Z → FilterChainResult) (st : SubscriptionRegistry) :
    SubscriptionRegistry * SubscribeResult :=
  match subscriptions_ st !! f with
  | None =>
      let fwd := nextForwarder st in
      let st := mkRegistry (subscriptions_ st) (promises st) (targets st) (nextNode st) (fwd + 1) in
      let r := chainBuilder fwd in
      let st := emplaceSub f fwd None now st in
      let st := set_subs (alter (λ e, mkSub (node e) (forwarder e) (upstream e) (requestID e)
                  (handle e) (isPublish e) (chainFilter r) (lastObjectTime e)) f
                  (subscriptions_ st)) st in
      (st, FirstSubscriber fwd (consumer r) (mkToken f fwd))
  | Some e => (st, AwaitSubsequent (node e))
  end.

(** [awaitSubsequent], when the waiter runs: it is still suspended, it throws,
    or it finds the entry again. *)
Inductive Awaited := Suspended | Threw | SubsequentSubscriber (fwd : Z).

Definition awaitSubsequent (f : FullTrackName) (promise : Z) (st : SubscriptionRegistry) :
    option Awaited :=
  match promises st !! promise with
  | None => None
  | Some Pending => Some Suspended
  | Some Failed | Some Broken => Some Threw
  | Some Fulfilled =>
      match subscriptions_ st !! f with
      | None => Some Threw
      | Some e => Some (SubsequentSubscriber (forwarder e))
      end
  end.

Definition completeSubscription (t : Token) (h : option Handle) (r : Z) (u : option Session)
    (st : SubscriptionRegistry) : option (SubscriptionRegistry * bool) :=
  match subscriptions_ st !! tokFtn t with
  | None => Some (st, false)
  | Some e =>
      if bool_decide (forwarder e ≠ tokForwarder t) then Some (st, false)
      else
        let st := set_subs (<[tokFtn t := mkSub (node e) (forwarder e) u r h (isPublish e)
                    (topNFilter e) (lastObjectTime e)]> (subscriptions_ st)) st in
        match resolve (node e) Fulfilled st with
        | None => None
        | Some st => Some (st, true)
        end
  end.

Definition failAndRemove (t : Token) (st : SubscriptionRegistry) : option SubscriptionRegistry :=
  match subscriptions_ st !! tokFtn t with
  | None => Some st
  | Some e =>
      if bool_decide (forwarder e = tokForwarder t) then
        match resolve (node e) Failed st with
        | None => None
        | Some st => Some (eraseSub (tokFtn t) st)
        end
      else Some st
  end.

(** ** Publish path *)

Definition createFromPublish (f : FullTrackName) (fwd : Z) (s : option Session) (r : Z)
    (h : option Handle) (now : Z) (chainBuilder : Z → FilterChainResult)
    (st : SubscriptionRegistry) :
    option (SubscriptionRegistry * Consumer * option Evicted) :=
  let evicted := match subscriptions_ st !! f with
                 | None => None
                 | Some e => Some (mkEvicted (forwarder e) (handle e))
                 end in
  let st := eraseSub f st in
  let st := emplaceSub f fwd s now st in
  match resolve (nextNode st - 1) Fulfilled st with
  | None => None
  | Some st =>
      let c := chainBuilder fwd in
      match chainFilter c with
      | None => None
      | Some flt =>
          let st := set_subs (alter (λ e, mkSub (node e) (forwarder e) (upstream e) r h true
                      (Some flt) (lastObjectTime e)) f (subscriptions_ st)) st in
          let st := mkRegistry (subscriptions_ st) (promises st)
                      (<[flt := nextNode st - 1]> (targets st)) (nextNode st) (nextForwarder st) in
          Some (st, consumer c, evicted)
      end
  end.

(** ** Lookup *)

Definition exists_ (f : FullTrackName) (st : SubscriptionRegistry) : bool :=
  bool_decide (is_Some (subscriptions_ st !! f)).

Definition getForwarder (f : FullTrackName) (st : SubscriptionRegistry) : option Z :=
  forwarder <$> subscriptions_ st !! f.

Record TopNView := mkTopNView {
  tvForwarder : Z; tvFilter : option Z; tvLastObjectTime : Z
}.

Definition getTopNView (f : FullTrackName) (st : SubscriptionRegistry) : option TopNView :=
  (λ e, mkTopNView (forwarder e) (topNFilter e) (lastObjectTime e)) <$> subscriptions_ st !! f.

Definition isFulfilled (n : Z) (st : SubscriptionRegistry) : bool :=
  match promises st !! n with
  | Some Pending | None => false
  | Some _ => true
  end.

Record UpstreamView := mkUpstreamView {
  uvForwarder : Z; uvUpstream : option Session; uvHandle : option Handle; uvRequestID : Z;
  uvIsPublish : bool; uvIsReady : bool
}.

Definition getUpstreamView (f : FullTrackName) (st : SubscriptionRegistry) :
    option UpstreamView :=
  (λ e, mkUpstreamView (forwarder e) (upstream e) (handle e) (requestID e) (isPublish e)
          (isFulfilled (node e) st)) <$> subscriptions_ st !! f.

Record FetchView := mkFetchView {
  fvForwarder : Z; fvUpstream : option Session; fvRequestID : Z; fvIsReady : bool
}.

Definition getFetchView (f : FullTrackName) (st : SubscriptionRegistry) : option FetchView :=
  (λ e, mkFetchView (forwarder e) (upstream e) (requestID e) (isFulfilled (node e) st)) <$>
    subscriptions_ st !! f.

(** ** Lifecycle *)

Definition onPublisherTerminated (f : FullTrackName) (forwarderEmpty : Z → bool)
    (st : SubscriptionRegistry) : SubscriptionRegistry * option Z :=
  match subscriptions_ st !! f with
  | None => (st, None)
  | Some e =>
      let e := mkSub (node e) (forwarder e) None (requestID e) None (isPublish e)
                 (topNFilter e) (lastObjectTime e) in
      let st := set_subs (<[f := e]> (subscriptions_ st)) st in
      if forwarderEmpty (forwarder e) then (eraseSub f st, None)
      else (st, Some (forwarder e))
  end.

Definition remove (f : FullTrackName) (st : SubscriptionRegistry) : SubscriptionRegistry :=
  eraseSub f st.

Record EntryView := mkEntryView {
  enForwarder : Z; enUpstream : option Session; enIsPublish : bool; enLastObjectTime : Z
}.

Definition entryView (e : RelaySubscription) : EntryView :=
  mkEntryView (forwarder e) (upstream e) (isPublish e) (lastObjectTime e).

Definition removeIf (predicate : FullTrackName → EntryView → bool)
    (st : SubscriptionRegistry) : SubscriptionRegistry :=
  foldr (λ p st, if predicate p.1 (entryView p.2) then eraseSub p.1 st else st) st
    (map_to_list (subscriptions_ st)).

Definition forEach {A} (fn : FullTrackName → EntryView → A) (st : SubscriptionRegistry) : list A :=
  (λ p : FullTrackName * RelaySubscription, fn p.1 (entryView p.2)) <$>
    map_to_list (subscriptions_ st).

(** A write through a filter's activity target ([*activityTarget_ = now] in
    [TopNFilter::checkProperties]); [None] when the node is gone. *)
Definition writeActivity (flt now : Z) (st : SubscriptionRegistry) :
    option SubscriptionRegistry :=
  match targets st !! flt with
  | None => Some st
  | Some n =>
      if bool_decide (map_Exists (λ _ e, node e = n) (subscriptions_ st)) then
        Some (set_subs ((λ e, if node e =? n
                              then mkSub (node e) (forwarder e) (upstream e) (requestID e) (handle e)
                                     (isPublish e) (topNFilter e) now
                              else e) <$> subscriptions_ st) st)
      else None
  end.

(** ** The registry and the pending subscribes that use it *)

#[global] Instance Token_eq_dec : EqDecision Token.
Proof. solve_decision. Defined.

Record System := mkSystem {
  reg : SubscriptionRegistry;
  tokens : list Token             (* the active [UpstreamSubscribePending]s *)
}.

Inductive Op :=
| OSubscribe (f : FullTrackName) (now : Z) (chain : Z → FilterChainResult)
| OPublish (f : FullTrackName) (s : option Session) (r : Z) (h : option Handle) (now : Z)
    (c : Consumer) (flt : Z)
| OComplete (t : Token) (h : option Handle) (r : Z) (u : option Session)
| ODestroy (t : Token)
| OTerminated (f : FullTrackName) (forwarderEmpty : Z → bool)
| ORemove (f : FullTrackName)
| ORemoveIf (predicate : FullTrackName → EntryView → bool).

Definition dropToken (t : Token) (ts : list Token) : list Token := filter (λ t', t' ≠ t) ts.

(** [complete] and the destructor act once, on an active token; a publisher
    brings a forwarder of its own. *)
Definition sysStep (o : Op) (sys : System) : option System :=
  match o with
  | OSubscribe f now chain =>
      let '(st, r) := getOrCreateFromSubscribe f now chain (reg sys) in
      Some (mkSystem st (match r with
                         | FirstSubscriber _ _ t => t :: tokens sys
                         | AwaitSubsequent _ => tokens sys
                         end))
  | OPublish f s r h now c flt =>
      let st := reg sys in
      let fwd := nextForwarder st in
      let st := mkRegistry (subscriptions_ st) (promises st) (targets st) (nextNode st) (fwd + 1) in
      match createFromPublish f fwd s r h now (λ _, mkChain c (Some flt)) st with
      | None => None
      | Some (st, _, _) => Some (mkSystem st (tokens sys))
      end
  | OComplete t h r u =>
      if bool_decide (t ∈ tokens sys) then
        match completeSubscription t h r u (reg sys) with
        | None => None
        | Some (st, _) => Some (mkSystem st (dropToken t (tokens sys)))
        end
      else Some sys
  | ODestroy t =>
      if bool_decide (t ∈ tokens sys) then
        match failAndRemove t (reg sys) with
        | None => None
        | Some st => Some (mkSystem st (dropToken t (tokens sys)))
        end
      else Some sys
  | OTerminated f e => Some (mkSystem (onPublisherTerminated f e (reg sys)).1 (tokens sys))
  | ORemove f => Some (mkSystem (remove f (reg sys)) (tokens sys))
  | ORemoveIf p => Some (mkSystem (removeIf p (reg sys)) (tokens sys))
  end.

Fixpoint sysRun (ops : list Op) (sys : System) : option System :=
  match ops with
  | [] => Some sys
  | o :: ops' => match sysStep o sys with None => None | Some sys => sysRun ops' sys end
  end.

(** ** Invariant *)

Implicit Types (st : SubscriptionRegistry) (f : FullTrackName) (t : Token).

Record inv st (ts : list Token) : Prop := {
  inv_entry : ∀ f e, subscriptions_ st !! f = Some e →
    node e < nextNode st ∧ forwarder e < nextForwarder st ∧
    (promises st !! node e = Some Pending ∨ promises st !! node e = Some Fulfilled);
  inv_node : ∀ f f' e e', subscriptions_ st !! f = Some e → subscriptions_ st !! f' = Some e' →
    node e = node e' → f = f';
  inv_pending : ∀ n, promises st !! n = Some Pending →
    ∃ f e, subscriptions_ st !! f = Some e ∧ node e = n ∧ mkToken f (forwarder e) ∈ ts;
  inv_promise : ∀ n p, promises st !! n = Some p → n < nextNode st;
  inv_token : ∀ t, t ∈ ts → tokForwarder t < nextForwarder st ∧
    ∀ e, subscriptions_ st !! tokFtn t = Some e → forwarder e = tokForwarder t →
      promises st !! node e = Some Pending
}.

(** Erasing an entry. *)
Lemma eraseSub_lookup st f f' :
  subscriptions_ (eraseSub f st) !! f' =
  if bool_decide (f' = f) then None else subscriptions_ st !! f'.
Proof.
  unfold eraseSub. destruct (subscriptions_ st !! f) as [e|] eqn:He; case_bool_decide as Hf; subst.
  - by destruct (promises st !! node e) as [[]|]; cbn; rewrite lookup_delete_eq.
  - by destruct (promises st !! node e) as [[]|]; cbn; rewrite lookup_delete_ne.
  - done.
  - done.
Qed.

Lemma eraseSub_promise st f n :
  promises (eraseSub f st) !! n =
  match subscriptions_ st !! f with
  | Some e => if bool_decide (n = node e ∧ promises st !! n = Some Pending) then Some Broken
              else promises st !! n
  | None => promises st !! n
  end.
Proof.
  unfold eraseSub. destruct (subscriptions_ st !! f) as [e|]; [|done].
  destruct (decide (n = node e)) as [->|Hn].
  - destruct (promises st !! node e) as [[]|] eqn:Hp; cbn; rewrite ?lookup_insert_eq, ?Hp;
      [by rewrite bool_decide_eq_true_2|rewrite bool_decide_eq_false_2; [done|naive_solver]..].
  - rewrite bool_decide_eq_false_2 by naive_solver.
    destruct (promises st !! node e) as [[]|]; cbn; rewrite ?lookup_insert_ne by done; done.
Qed.

Lemma eraseSub_frame st f :
  nextNode (eraseSub f st) = nextNode st ∧ nextForwarder (eraseSub f st) = nextForwarder st ∧
  targets (eraseSub f st) = targets st.
Proof.
  unfold eraseSub. destruct (subscriptions_ st !! f) as [e|]; [|done].
  by destruct (promises st !! node e) as [[]|].
Qed.

Lemma eraseSub_inv st ts f : inv st ts → inv (eraseSub f st) ts.
Proof.
  intros [He Hn Hp Hpr Ht]. destruct (eraseSub_frame st f) as (Fn&Ff&_).
  assert (∀ f' e', subscriptions_ (eraseSub f st) !! f' = Some e' →
            subscriptions_ st !! f' = Some e' ∧ f' ≠ f ∧
            promises (eraseSub f st) !! node e' = promises st !! node e') as Hl.
  { intros f' e'. rewrite eraseSub_lookup. case_bool_decide as Hf; [done|]. intros He'.
    split_and!; [done|done|]. rewrite eraseSub_promise.
    destruct (subscriptions_ st !! f) as [e|] eqn:Hfe; [|done].
    rewrite bool_decide_eq_false_2; [done|]. intros [Hne _]. by apply Hf, (Hn f' f e' e). }
  constructor; rewrite ?Fn, ?Ff.
  - intros f' e' (Hs&_&->)%Hl. by apply He with f'.
  - intros f1 f2 e1 e2 (?&_&_)%Hl (?&_&_)%Hl. by apply Hn.
  - intros n. rewrite eraseSub_promise. intros Hpn.
    assert (promises st !! n = Some Pending ∧
            ∀ e, subscriptions_ st !! f = Some e → n ≠ node e) as [Hpn' Hne].
    { destruct (subscriptions_ st !! f) as [e|] eqn:Hfe; [|done].
      case_bool_decide as Hb; [done|]. split; [done|]. intros ? [= <-] ->. by apply Hb. }
    destruct (Hp n Hpn') as (f'&e'&Hs&Hnode&Hin). exists f', e'. split_and!; try done.
    rewrite eraseSub_lookup. case_bool_decide as Hf; [|done]. subst f'. by destruct (Hne e').
  - intros n p. rewrite eraseSub_promise. destruct (subscriptions_ st !! f) as [e|] eqn:Hfe; [|apply Hpr].
    case_bool_decide as Hb; [|apply Hpr]. intros _. destruct Hb as [_ Hb]. by eapply Hpr.
  - intros t Hin. destruct (Ht t Hin) as [? Hx]. split; [done|].
    intros e' (Hs&_&->)%Hl Hf. by apply Hx.
Qed.

(** Rewriting an entry without changing its node or forwarder. *)
Lemma update_inv st ts f e e' :
  inv st ts → subscriptions_ st !! f = Some e → node e' = node e → forwarder e' = forwarder e →
  inv (set_subs (<[f := e']> (subscriptions_ st)) st) ts.
Proof.
  intros [He Hn Hp Hpr Ht] Hf Hnd Hfw.
  assert (∀ f1 e1, <[f := e']> (subscriptions_ st) !! f1 = Some e1 →
            ∃ e0, subscriptions_ st !! f1 = Some e0 ∧ node e1 = node e0 ∧ forwarder e1 = forwarder e0) as Hl.
  { intros f1 e1. rewrite lookup_insert_Some. intros [[<- <-]|[_ ?]]; eauto. }
  constructor; cbn.
  - intros f1 e1 (e0&Hs&->&->)%Hl. by eapply He.
  - intros f1 f2 e1 e2 (e3&?&->&_)%Hl (e4&?&->&_)%Hl. by apply Hn.
  - intros n (f1&e1&Hs&Hn1&Hin)%Hp. destruct (decide (f1 = f)) as [->|].
    + exists f, e'. rewrite lookup_insert_eq. assert (e1 = e) as -> by congruence.
      split_and!; [done|congruence|congruence].
    + exists f1, e1. by rewrite lookup_insert_ne.
  - done.
  - intros t Hin. destruct (Ht t Hin) as [? Hx]. split; [done|].
    intros e1 (e0&Hs&->&->)%Hl. by apply Hx.
Qed.

(** A new entry with a new forwarder, with its promise pending under a new
    token, or fulfilled. *)
Lemma emplace_inv st ts f u now (ready : bool) :
  inv st ts → subscriptions_ st !! f = None →
  let fwd := nextForwarder st in
  let st1 := mkRegistry (subscriptions_ st) (promises st) (targets st) (nextNode st) (fwd + 1) in
  let st2 := emplaceSub f fwd u now st1 in
  inv (if ready then set_promise (nextNode st) Fulfilled st2 else st2)
      (if ready then ts else mkToken f fwd :: ts).
Proof.
  intros [He Hn Hp Hpr Ht] Hf fwd st1 st2.
  assert (promises st !! nextNode st = None) as Hnew.
  { destruct (promises st !! nextNode st) eqn:Hx; [|done]. apply Hpr in Hx. lia. }
  set (pr := if ready then Fulfilled else Pending).
  assert (∀ st', subscriptions_ st' = subscriptions_ st2 → nextNode st' = nextNode st + 1 →
     nextForwarder st' = fwd + 1 → (∀ n, promises st' !! n = if bool_decide (n = nextNode st) then Some pr
       else promises st !! n) → inv st' (if ready then ts else mkToken f fwd :: ts)) as Hgoal.
  { intros st' Hs Hnn Hnf Hpp. constructor; rewrite ?Hs, ?Hnn, ?Hnf; cbn.
    - intros f' e'. rewrite lookup_insert_Some. intros [[<- <-]|[_ He']].
      + cbn. rewrite Hpp, bool_decide_eq_true_2 by done. split_and!; [lia|lia|]. unfold pr. destruct ready; auto.
      + destruct (He f' e' He') as (?&?&?). split_and!; [lia|lia|].
        by rewrite Hpp, bool_decide_eq_false_2 by lia.
    - intros f1 f2 e1 e2. rewrite !lookup_insert_Some.
      intros [[<- <-]|[_ H1]] [[<- <-]|[_ H2]]; cbn; [done| | |by eapply Hn].
      + destruct (He f2 e2 H2) as (?&_). lia.
      + destruct (He f1 e1 H1) as (?&_). lia.
    - intros n. rewrite Hpp. case_bool_decide as Hb.
      + subst n. unfold pr. destruct ready; [done|]. intros _. eexists f, _.
        rewrite lookup_insert_eq. split_and!; [done|done|]. by left.
      + intros (f'&e'&Hs'&Hn'&Hin)%Hp. exists f', e'.
        rewrite lookup_insert_ne by congruence. split_and!; [done|done|]. destruct ready; [done|by right].
    - intros n p. rewrite Hpp. case_bool_decide; [lia|]. intros Hx%Hpr. lia.
    - intros t Hin. assert (t ∈ ts ∨ (ready = false ∧ t = mkToken f fwd)) as [Hin'|[Hr ->]].
      { destruct ready; [auto|]. apply elem_of_cons in Hin as [->|]; auto. }
      + destruct (Ht t Hin') as [Hlt Hx]. split; [unfold fwd; lia|].
        intros e. rewrite lookup_insert_Some. intros [[Hff <-]|[_ Hs']] Hfw; [cbn in Hfw; unfold fwd in *; lia|].
        destruct (He _ _ Hs') as (?&_). rewrite Hpp, bool_decide_eq_false_2 by lia. by apply Hx.
      + cbn. split; [lia|]. intros e. rewrite lookup_insert_eq. intros [= <-] _. cbn.
        rewrite Hpp, bool_decide_eq_true_2 by done. unfold pr. by rewrite Hr. }
  apply Hgoal; destruct ready; try done; intros n; cbn; case_bool_decide as Hb; subst;
    rewrite ?lookup_insert_eq, ?lookup_insert_ne by done; done.
Qed.

Lemma subscribe_inv st ts f now chain :
  inv st ts →
  inv (getOrCreateFromSubscribe f now chain st).1
      (match (getOrCreateFromSubscribe f now chain st).2 with
       | FirstSubscriber _ _ t => t :: ts | AwaitSubsequent _ => ts end).
Proof.
  intros Hi. unfold getOrCreateFromSubscribe.
  destruct (subscriptions_ st !! f) as [e|] eqn:Hf; [done|]. cbn [fst snd].
  pose proof (emplace_inv st ts f None now false Hi Hf) as Hi'. cbn in Hi'.
  cbn. rewrite alter_insert_eq. unfold set_subs at 1. cbn.
  eapply (update_inv _ _ f _ (mkSub (nextNode st) (nextForwarder st) None 0 None false
    (chainFilter (chain (nextForwarder st))) now)) in Hi'; [|apply lookup_insert_eq|done|done].
  cbn in Hi'. rewrite insert_insert_eq in Hi'. exact Hi'.
Qed.

(** Only [subscriptions_], [promises] and the counters matter. *)
Lemma inv_targets st ts tg :
  inv st ts →
  inv (mkRegistry (subscriptions_ st) (promises st) tg (nextNode st) (nextForwarder st)) ts.
Proof. by intros [? ? ? ? ?]. Qed.

Lemma publish_inv st ts f s r h now c flt :
  inv st ts →
  let fwd := nextForwarder st in
  let st1 := mkRegistry (subscriptions_ st) (promises st) (targets st) (nextNode st) (fwd + 1) in
  ∃ st2 ev, createFromPublish f fwd s r h now (λ _, mkChain c (Some flt)) st1 = Some (st2, c, ev) ∧
    inv st2 ts ∧
    subscriptions_ st2 !! f = Some (mkSub (nextNode st) fwd s r h true (Some flt) now) ∧
    promises st2 !! nextNode st = Some Fulfilled ∧
    (∀ n, n ≠ nextNode st → promises st2 !! n = promises (eraseSub f st) !! n) ∧
    ev = ((λ e, mkEvicted (forwarder e) (handle e)) <$> subscriptions_ st !! f).
Proof.
  intros Hi fwd st1. pose proof (eraseSub_inv st ts f Hi) as He.
  destruct (eraseSub_frame st f) as (Fn&Ff&Ft).
  assert (eraseSub f st1 = mkRegistry (subscriptions_ (eraseSub f st)) (promises (eraseSub f st))
            (targets st) (nextNode st) (fwd + 1)) as Hst1.
  { unfold eraseSub. cbn. destruct (subscriptions_ st !! f) as [e|]; [|done].
    by destruct (promises st !! node e) as [[]|]. }
  pose proof (emplace_inv (eraseSub f st) ts f s now true He) as Hm.
  rewrite eraseSub_lookup, bool_decide_eq_true_2, Fn, Ff, Ft in Hm by done. specialize (Hm eq_refl).
  cbv zeta in Hm. cbn [negb] in Hm.
  unfold createFromPublish. rewrite Hst1. cbn -[eraseSub]. unfold resolve. cbn -[eraseSub].
  replace (nextNode st + 1 - 1) with (nextNode st) by lia. rewrite lookup_insert_eq.
  cbn -[eraseSub]. rewrite alter_insert_eq. cbn -[eraseSub].
  eexists _, _. split; [reflexivity|]. split_and!.
  - eapply (update_inv _ _ f _ (mkSub (nextNode st) fwd s r h true (Some flt) now)) in Hm;
      [|cbn -[eraseSub]; apply lookup_insert_eq|done|done].
    eapply inv_targets in Hm. cbn -[eraseSub] in Hm. rewrite insert_insert_eq in Hm.
    replace (nextNode st + 1 - 1) with (nextNode st) by lia. exact Hm.
  - cbn -[eraseSub]. by rewrite lookup_insert_eq.
  - cbn -[eraseSub]. by rewrite lookup_insert_eq.
  - intros n Hn. cbn -[eraseSub]. by rewrite !lookup_insert_ne.
  - by destruct (subscriptions_ st !! f).
Qed.

Lemma dropToken_elem t t' ts : t' ∈ dropToken t ts ↔ t' ≠ t ∧ t' ∈ ts.
Proof. unfold dropToken. by rewrite list_elem_of_filter. Qed.

(** A closed token whose entry is gone or replaced. *)
Lemma drop_stale_inv st ts t :
  inv st ts →
  (∀ e, subscriptions_ st !! tokFtn t = Some e → forwarder e ≠ tokForwarder t) →
  inv st (dropToken t ts).
Proof.
  intros [He Hn Hp Hpr Ht] Hst. constructor; try done.
  - intros n (f&e&Hs&Hnd&Hin)%Hp. exists f, e. split_and!; try done.
    apply dropToken_elem. split; [|done]. intros <-. by apply (Hst e).
  - intros t' [_ Hin]%dropToken_elem. by apply Ht.
Qed.

(** Resolving the promise of an entry and closing its token. *)
Lemma resolve_inv st ts f e (t := mkToken f (forwarder e)) :
  inv st ts → t ∈ ts → subscriptions_ st !! f = Some e →
  ∃ st', resolve (node e) Fulfilled st = Some st' ∧ inv st' (dropToken t ts) ∧
    st' = set_promise (node e) Fulfilled st.
Proof.
  intros Hi Hin Hs. pose proof Hi as [He Hn Hp Hpr Ht]. destruct (Ht t Hin) as [_ Hx].
  specialize (Hx e Hs eq_refl). unfold resolve. rewrite Hx. eexists. split_and!; [done| |done].
  constructor; cbn.
  - intros f' e' Hs'. destruct (He f' e' Hs') as (?&?&Hpp). split_and!; [done|done|].
    destruct (decide (node e' = node e)) as [->|]; [rewrite lookup_insert_eq; auto|].
    by rewrite lookup_insert_ne.
  - done.
  - intros n. rewrite lookup_insert_Some. intros [[_ ?]|[Hne Hpn]]; [done|].
    destruct (Hp n Hpn) as (f'&e'&Hs'&Hnd&Hin'). exists f', e'. split_and!; try done.
    apply dropToken_elem. split; [|done]. unfold t. intros [= -> _]. congruence.
  - intros n p. rewrite lookup_insert_Some. intros [[<- _]|[_ Hpn]]; by eapply Hpr.
  - intros t' [Hne Hin']%dropToken_elem. destruct (Ht t' Hin') as [? Hx']. split; [done|].
    intros e' Hs' Hf'. rewrite lookup_insert_ne; [by apply Hx'|]. intros Heq. apply Hne.
    assert (f = tokFtn t') as Hff by (by eapply (Hn f (tokFtn t') e e')). subst f.
    assert (e' = e) as -> by congruence. unfold t. rewrite Hf'. by destruct t'.
Qed.

Lemma set_failed_inv st ts n :
  inv st ts → promises st !! n = Some Broken → inv (set_promise n Failed st) ts.
Proof.
  intros [He Hn Hp Hpr Ht] Hb. constructor; cbn.
  - intros f e Hs. destruct (He f e Hs) as (?&?&Hx). split_and!; [done|done|].
    rewrite lookup_insert_ne; [done|]. intros ->. destruct Hx; congruence.
  - done.
  - intros m. rewrite lookup_insert_Some. intros [[_ ?]|[_ Hm]]; [done|by apply Hp].
  - intros m p. rewrite lookup_insert_Some. intros [[<- _]|[_ Hm]]; by eapply Hpr.
  - intros t Hin. destruct (Ht t Hin) as [? Hx]. split; [done|]. intros e Hs Hf.
    specialize (Hx e Hs Hf). rewrite lookup_insert_ne; [done|]. intros ->. congruence.
Qed.

Lemma complete_inv st ts t h r u :
  inv st ts → t ∈ ts →
  ∃ st' b, completeSubscription t h r u st = Some (st', b) ∧ inv st' (dropToken t ts).
Proof.
  intros Hi Hin. unfold completeSubscription.
  destruct (subscriptions_ st !! tokFtn t) as [e|] eqn:Hs.
  2:{ eexists _, _. split; [done|]. apply drop_stale_inv; [done|]. congruence. }
  case_bool_decide as Hf.
  { eexists _, _. split; [done|]. apply drop_stale_inv; [done|]. congruence. }
  destruct t as [f fwd]. cbn in *. subst fwd.
  set (e' := mkSub (node e) (forwarder e) u r h (isPublish e) (topNFilter e) (lastObjectTime e)).
  pose proof (update_inv st ts f e e' Hi Hs eq_refl eq_refl) as Hi'.
  destruct (resolve_inv _ ts f e' Hi' Hin) as (st'&Hr&Hi''&_); [apply lookup_insert_eq|].
  change (node e') with (node e) in Hr. rewrite Hr. eauto.
Qed.

Lemma destroy_inv st ts t :
  inv st ts → t ∈ ts → ∃ st', failAndRemove t st = Some st' ∧ inv st' (dropToken t ts).
Proof.
  intros Hi Hin. unfold failAndRemove.
  destruct (subscriptions_ st !! tokFtn t) as [e|] eqn:Hs.
  2:{ eexists. split; [done|]. apply drop_stale_inv; [done|]. congruence. }
  case_bool_decide as Hf.
  2:{ eexists. split; [done|]. apply drop_stale_inv; [done|]. congruence. }
  assert (promises st !! node e = Some Pending) as Hp by (by apply (inv_token _ _ Hi t Hin)).
  unfold resolve. rewrite Hp. eexists. split; [done|].
  pose proof (eraseSub_inv st ts (tokFtn t) Hi) as He.
  assert (promises (eraseSub (tokFtn t) st) !! node e = Some Broken) as Hb.
  { by rewrite eraseSub_promise, Hs, bool_decide_eq_true_2. }
  apply (set_failed_inv _ _ _ He) in Hb.
  assert (eraseSub (tokFtn t) (set_promise (node e) Failed st) =
          set_promise (node e) Failed (eraseSub (tokFtn t) st)) as ->.
  { unfold eraseSub. cbn. rewrite Hs, Hp, lookup_insert_eq. unfold set_promise. cbn.
    by rewrite insert_insert_eq. }
  apply drop_stale_inv; [done|]. intros e'. cbn. rewrite eraseSub_lookup, bool_decide_eq_true_2 by done. done.
Qed.

Lemma terminated_inv st ts f em : inv st ts → inv (onPublisherTerminated f em st).1 ts.
Proof.
  intros Hi. unfold onPublisherTerminated. destruct (subscriptions_ st !! f) as [e|] eqn:Hs; [|done].
  cbn zeta. match goal with |- context [set_subs (<[f := ?e']> _) _] =>
    pose proof (update_inv st ts f e e' Hi Hs eq_refl eq_refl) as Hi' end.
  destruct (em _); cbn [fst]; [by apply eraseSub_inv|done].
Qed.

Lemma removeIf_inv st ts p : inv st ts → inv (removeIf p st) ts.
Proof.
  intros Hi. unfold removeIf. generalize (map_to_list (subscriptions_ st)). intros l.
  induction l as [|[f e] l IH]; cbn; [done|]. destruct (p _ _); [by apply eraseSub_inv|done].
Qed.

Lemma step_inv o sys :
  inv (reg sys) (tokens sys) →
  ∃ sys', sysStep o sys = Some sys' ∧ inv (reg sys') (tokens sys').
Proof.
  intros Hi. destruct o as [f now chain|f s r h now c flt|t h r u|t|f em|f|p]; cbn.
  - pose proof (subscribe_inv (reg sys) (tokens sys) f now chain Hi) as Hi'.
    destruct (getOrCreateFromSubscribe f now chain (reg sys)) as [st r]. eauto.
  - destruct (publish_inv (reg sys) (tokens sys) f s r h now c flt Hi) as (st2&ev&->&Hi'&_). eauto.
  - case_bool_decide; [|eauto].
    destruct (complete_inv (reg sys) (tokens sys) t h r u Hi) as (st'&b&->&Hi'); [done|]. eauto.
  - case_bool_decide; [|eauto].
    destruct (destroy_inv (reg sys) (tokens sys) t Hi) as (st'&->&Hi'); [done|]. eauto.
  - eexists. split; [done|]. by apply terminated_inv.
  - eexists. split; [done|]. by apply eraseSub_inv.
  - eexists. split; [done|]. by apply removeIf_inv.
Qed.

Lemma newRegistry_inv : inv newRegistry [].
Proof. constructor; cbn; try (intros; by rewrite lookup_empty in *); by intros ? ?%elem_of_nil. Qed.

Lemma sysRun_inv ops sys :
  inv (reg sys) (tokens sys) → ∃ sys', sysRun ops sys = Some sys' ∧ inv (reg sys') (tokens sys').
Proof.
  revert sys. induction ops as [|o ops IH]; intros sys Hi; cbn; [eauto|].
  destruct (step_inv o sys Hi) as (sys1&->&Hi1). by apply IH.
Qed.

(** C7: Whatever sequence of subscribes, publishes, completions, failures,
    terminations and removals is run, no promise is resolved twice, every
    entry has a promise of its own that is not broken, and no waiter is
    forgotten: a promise that is still pending belongs to an entry of the
    registry whose upstream subscribe is still in progress, so once every
    pending subscribe has completed or been destroyed each waiting subscriber
    resumes, with the current forwarder of the track or an error. *)
Theorem registry_no_lost_waiters ops :
  ∃ sys, sysRun ops (mkSystem newRegistry []) = Some sys ∧
    (∀ f e, subscriptions_ (reg sys) !! f = Some e →
       (promises (reg sys) !! node e = Some Pending ∨ promises (reg sys) !! node e = Some Fulfilled) ∧
       ∀ f' e', subscriptions_ (reg sys) !! f' = Some e' → node e' = node e → f' = f) ∧
    (∀ n, promises (reg sys) !! n = Some Pending →
       ∃ f e, subscriptions_ (reg sys) !! f = Some e ∧ node e = n ∧
         mkToken f (forwarder e) ∈ tokens sys) ∧
    (tokens sys = [] → ∀ n f p, promises (reg sys) !! n = Some p →
       awaitSubsequent f n (reg sys) = Some Threw ∨
       ∃ fwd, getForwarder f (reg sys) = Some fwd ∧
         awaitSubsequent f n (reg sys) = Some (SubsequentSubscriber fwd)).
Proof.
  destruct (sysRun_inv ops (mkSystem newRegistry [])) as (sys&Hr&Hi); [apply newRegistry_inv|].
  exists sys. split_and!; [done| |by apply Hi|].
  { intros f e He. split; [by apply (inv_entry _ _ Hi f e He)|]. intros f' e' He'. by eapply (inv_node _ _ Hi). }
  intros Ht n f p Hp.
  unfold awaitSubsequent, getForwarder. rewrite Hp. destruct p; [|..|by auto]; auto.
  - exfalso. destruct (inv_pending _ _ Hi n Hp) as (?&?&_&_&Hin). rewrite Ht in Hin.
    by apply elem_of_nil in Hin.
  - destruct (subscriptions_ (reg sys) !! f) as [e|]; [|auto]. right. by exists (forwarder e).
Qed.

(** A publisher that takes over a track while a subscribe for it is still
    waiting upstream wins: the old entry's forwarder and handle are handed
    back for cleanup, the new entry is a ready publish entry, and the late
    completion or failure of the old subscribe finds the forwarder replaced,
    reports it and changes nothing. *)
Theorem publish_takes_over ops sys f s r h now c flt sys' :
  sysRun ops (mkSystem newRegistry []) = Some sys →
  sysStep (OPublish f s r h now c flt) sys = Some sys' →
  (∃ e, subscriptions_ (reg sys') !! f = Some e ∧ forwarder e = nextForwarder (reg sys) ∧
     isPublish e = true ∧ isFulfilled (node e) (reg sys') = true ∧ upstream e = s ∧ handle e = h) ∧
  (∀ e, subscriptions_ (reg sys) !! f = Some e → promises (reg sys) !! node e = Some Pending →
     promises (reg sys') !! node e = Some Broken) ∧
  ∀ t, t ∈ tokens sys → tokFtn t = f →
    (∀ h' r' u', completeSubscription t h' r' u' (reg sys') = Some (reg sys', false)) ∧
    failAndRemove t (reg sys') = Some (reg sys').
Proof.
  intros Hrun Hstep.
  destruct (sysRun_inv ops (mkSystem newRegistry [])) as (sys0&Hr&Hi); [apply newRegistry_inv|].
  assert (sys0 = sys) as -> by congruence. cbn in Hstep.
  destruct (publish_inv (reg sys) (tokens sys) f s r h now c flt Hi) as (st2&ev&Hc&Hi2&Hs&Hp&Hpo&_).
  rewrite Hc in Hstep. injection Hstep as <-. cbn. split_and!.
  - eexists. split; [exact Hs|]. cbn. split_and!; try done. unfold isFulfilled. by rewrite Hp.
  - intros e He Hpe. pose proof (inv_promise _ _ Hi _ _ Hpe). rewrite Hpo by lia.
    by rewrite eraseSub_promise, He, bool_decide_eq_true_2.
  - intros t Hin Hf. destruct (inv_token _ _ Hi t Hin) as [Hlt _].
    assert (nextForwarder (reg sys) ≠ tokForwarder t) as Hne by lia. subst f. split.
    + intros. unfold completeSubscription. rewrite Hs. by rewrite bool_decide_eq_true_2.
    + unfold failAndRemove. rewrite Hs. by rewrite bool_decide_eq_false_2.
Qed.

End Registry.

Module RegistryExamples.

(** Track names, sessions, handles and consumers are numbers. *)
#[local] Abbreviation op := (Op (FullTrackName:=Z) (Session:=Z) (Handle:=Z) (Consumer:=Z)).
#[local] Abbreviation system := (System (FullTrackName:=Z) (Session:=Z) (Handle:=Z)).

Definition emptySystem : system := mkSystem newRegistry [].

Definition after (ops : list op) : system := default emptySystem (sysRun ops emptySystem).

(** A subscriber waits upstream for track 1 when a publisher brings it. *)
Definition waiting : list op := [OSubscribe 1 0 (λ fwd, mkChain fwd (Some 9))].
Definition takeover : op := OPublish 1 (Some 7) 3 (Some 8) 5 0 10.

Lemma publish_takes_over_witness :
  promises (reg (after (waiting ++ [takeover]))) !! 0 = Some Broken ∧
  completeSubscription (mkToken 1 0) None 0 None (reg (after (waiting ++ [takeover]))) =
    Some (reg (after (waiting ++ [takeover])), false).
Proof.
  destruct (publish_takes_over waiting (after waiting) 1 (Some 7) 3 (Some 8) 5 0 10
              (after (waiting ++ [takeover])) ltac:(vm_compute; reflexivity) ltac:(vm_compute; reflexivity))
    as (_&Hb&Ht).
  split.
  - apply (Hb (mkSub 0 0 None 0 None false (Some 9) 0)); vm_compute; reflexivity.
  - apply (Ht (mkToken 1 0)); [vm_compute; by left|reflexivity].
Defined.

(** Two publishers of track 1, one after the other. *)
Definition reconnect : list op := [OPublish 1 (Some 7) 3 None 0 0 10; OPublish 1 (Some 8) 4 None 5 0 11].

(** [createFromPublish] makes the filter of a publish entry write its
    activity time into the entry, and nothing resets the filter when the entry
    is erased: after a publisher has been replaced, the next object that
    passes the first publisher's filter writes to an entry that is gone. *)
Theorem activity_target_dangles :
  targets (reg (after reconnect)) !! 10 = Some 0 ∧
  map_Forall (λ _ e, node e ≠ 0) (subscriptions_ (reg (after reconnect))) ∧
  writeActivity 10 6 (reg (after reconnect)) = None.
Proof.
  split; [vm_compute; reflexivity|]. split; [|vm_compute; reflexivity].
  refine (bool_decide_unpack _ _). vm_compute. exact I.
Qed.

End RegistryExamples.
