(* ===== verification/Relay.v ===== *)
(** * MoqxRelay: announcements, publishes, subscribes and fetches

    Models [src/src/MoqxRelay.cpp] and the inline members of [MoqxRelay.h] on
    top of the namespace tree and the subscription registry.

    - Objects of the transport library (sessions, forwarders, handles,
      callbacks) and rankings are numbers.  Calls on them are [Effect]s, in the
      order in which the handler makes them; what such a call returns is an
      argument of the handler.
    - A coroutine is split at its suspension points: each segment is one
      definition, and other handlers may run between two segments.
    - Metrics ([clientNetworkMetrics_]) and the video watcher are observers of
      the relay and are left out.  The cache is a stage of the filter chain and
      the target of [fetch].
    - [None] is a failed [XCHECK]/[CHECK] or a null dereference. *)

From S2P Require Import Prelude NamespaceTree NamespaceWalk.
From S2P Require Import SubscriptionRegistry.

#[local] Open Scope Z_scope.

Abbreviation Session := Z (only parsing).
Abbreviation TrackNamespace := (list string) (only parsing).
Abbreviation FullTrackName := (list string * string)%type (only parsing).

Abbreviation RelayNode :=
  (NamespaceNode (Session:=Z) (NsHandle:=Z) (PubHandle:=Z) (PubCallback:=Z) (Ranking:=Z)).
Abbreviation RelayTree := (gmap (list string) RelayNode).
Abbreviation SubscriberInfo := (NamespaceSubscriberInfo (NsHandle:=Z)).
Abbreviation RelayRegistry :=
  (SubscriptionRegistry (FullTrackName:=FullTrackName) (Session:=Z) (Handle:=Z)).

(** ** The filter chain *)

Inductive TrackConsumer :=
| ForwarderConsumer (fwd : Z)
| CacheWriteback (ftn : FullTrackName) (downstream : TrackConsumer)
| TerminationFilter (ftn : FullTrackName) (publisherSession : option Session)
    (downstream : TrackConsumer)
| TopNStage (filter : Z) (downstream : TrackConsumer).

(** ** State *)

Record PeerInfo := mkPeer { peerHandle : Z; peerRelayID : string }.

Record MoqxRelay := mkRelay {
  allowedNamespacePrefix_ : TrackNamespace;
  relayID_ : string;
  hasCache : bool;                                  (* cache_ *)
  hasUpstream : bool;                               (* upstream_ *)
  upstreamSubNsHandle_ : option Z;
  peerSubNsHandles_ : gmap Session PeerInfo;
  namespaceTree_ : RelayTree;
  registry_ : RelayRegistry;
  nextRanking : Z;
  nextFilter : Z;
}.

Definition newRelay (allowed : TrackNamespace) (relayID : string) (cache upstream : bool) :
    MoqxRelay :=
  mkRelay allowed relayID cache upstream None ∅ emptyTree newRegistry 0 0.

Definition set_tree (t : RelayTree) (r : MoqxRelay) : MoqxRelay :=
  mkRelay (allowedNamespacePrefix_ r) (relayID_ r) (hasCache r) (hasUpstream r)
    (upstreamSubNsHandle_ r) (peerSubNsHandles_ r) t (registry_ r) (nextRanking r) (nextFilter r).
Definition set_registry (st : RelayRegistry) (r : MoqxRelay) : MoqxRelay :=
  mkRelay (allowedNamespacePrefix_ r) (relayID_ r) (hasCache r) (hasUpstream r)
    (upstreamSubNsHandle_ r) (peerSubNsHandles_ r) (namespaceTree_ r) st (nextRanking r)
    (nextFilter r).
Definition set_peers (m : gmap Session PeerInfo) (r : MoqxRelay) : MoqxRelay :=
  mkRelay (allowedNamespacePrefix_ r) (relayID_ r) (hasCache r) (hasUpstream r)
    (upstreamSubNsHandle_ r) m (namespaceTree_ r) (registry_ r) (nextRanking r) (nextFilter r).
Definition set_upstreamHandle (h : option Z) (r : MoqxRelay) : MoqxRelay :=
  mkRelay (allowedNamespacePrefix_ r) (relayID_ r) (hasCache r) (hasUpstream r) h
    (peerSubNsHandles_ r) (namespaceTree_ r) (registry_ r) (nextRanking r) (nextFilter r).
Definition bump_ranking (r : MoqxRelay) : MoqxRelay :=
  mkRelay (allowedNamespacePrefix_ r) (relayID_ r) (hasCache r) (hasUpstream r)
    (upstreamSubNsHandle_ r) (peerSubNsHandles_ r) (namespaceTree_ r) (registry_ r)
    (nextRanking r + 1) (nextFilter r).
Definition bump_filter (r : MoqxRelay) : MoqxRelay :=
  mkRelay (allowedNamespacePrefix_ r) (relayID_ r) (hasCache r) (hasUpstream r)
    (upstreamSubNsHandle_ r) (peerSubNsHandles_ r) (namespaceTree_ r) (registry_ r)
    (nextRanking r) (nextFilter r + 1).

(** ** Effects *)

Inductive Effect :=
| NamespaceMsg (h : Z) (suffix : TrackNamespace)
| NamespaceDoneMsg (h : Z) (suffix : TrackNamespace)
| StartPublishNamespace (to : Session) (ns : TrackNamespace) (node : list string)
| LegacyNamespaceDone (to : Session) (h : Z)
| CancelCallback (cb : Z)
| StartPublish (to : Session) (fwd : Z) (forward trackFilterSubscriber : bool)
| Unsubscribe (h : Z)
| ForwarderPublishDone (fwd : Z)
| SubscribeUpdate (h : Z) (forward : bool)
| NewGroupRequestUpdate (h : Z) (group : Z)
| RegisterTrack (ranking : Z) (ftn : FullTrackName) (initial : option Z) (s : Session)
| RegisterObserver (filter propertyType ranking : Z) (ftn : FullTrackName)
| AddSessionToTopNGroup (ranking maxSelected : Z) (s : Session) (forward : bool)
| RemoveSessionFromTopNGroup (ranking maxSelected : Z) (s : Session)
| PeerSubscribeNamespace (s : Session) (token : option string)
| AddSubscriber (fwd : Z) (s : Session)
| UpstreamSubscribe (upstream : Session) (ftn : FullTrackName) (c : TrackConsumer)
| RemoveSubscriberDone (fwd : Z) (s : Session).

Definition wantsNamespaces (o : SubscribeNamespaceOptions) : bool :=
  match o with NAMESPACE | BOTH => true | PUBLISH => false end.
Definition wantsPublishes (o : SubscribeNamespaceOptions) : bool :=
  match o with PUBLISH | BOTH => true | NAMESPACE => false end.

(** [ns.startsWith(prefix)] *)
Definition startsWithNs (prefix ns : TrackNamespace) : bool := bool_decide (prefix `prefix_of` ns).

(** The elements of [ns] from [prefix.size()] on. *)
Definition suffixOf (info : SubscriberInfo) (ns : TrackNamespace) : TrackNamespace :=
  drop (length (trackNamespacePrefix info)) ns.

(** ** Announcements *)

(** One round of the notification loop of [doPublishNamespace]. *)
Definition announceTo (ns : TrackNamespace) (session : Session) (node : list string)
    (sub : Session * SubscriberInfo) : list Effect :=
  let '(outSession, info) := sub in
  if negb (outSession =? session) && wantsNamespaces (options info) then
    match namespacePublishHandle info with
    | Some h => [NamespaceMsg h (suffixOf info ns)]
    | None => [StartPublishNamespace outSession ns node]
    end
  else [].

(** The subscriptions that go with a replaced publisher. *)
Definition ofReplaced (ns : TrackNamespace) (replaced : Session) (ftn : FullTrackName)
    (e : EntryView) : bool :=
  startsWithNs ns ftn.1 && bool_decide (enUpstream e = Some replaced).

Definition doPublishNamespace (ns : TrackNamespace) (session : Session) (callback : option Z)
    (peerID : string) (requestID : Z) (r : MoqxRelay) :
    option (MoqxRelay * list Effect * option (list string)) :=
  if negb (startsWithNs (allowedNamespacePrefix_ r) ns) then Some (r, [], None)
  else
    '(t, res) ← setPublisher (namespaceTree_ r) ns session callback peerID requestID;
    let st :=
      match sp_replacedSession res with
      | Some replaced => removeIf (ofReplaced ns replaced) (registry_ r)
      | None => registry_ r
      end in
    let effects :=
      (match sp_cancelled res with Some cb => [CancelCallback cb] | None => [] end) ++
      mjoin (announceTo ns session (sp_node res) <$> sp_subscribers res) in
    Some (set_registry st (set_tree t r), effects, Some (sp_node res)).

Inductive RequestErrorCode :=
| UNINTERESTED | INTERNAL_ERROR | NAMESPACE_PREFIX_UNKNOWN | TRACK_NOT_EXIST | INVALID_RANGE
| NOT_SUPPORTED | UpstreamError (code : Z).

Definition publishNamespace (ns : TrackNamespace) (session : Session) (callback : option Z)
    (requestID : Z) (r : MoqxRelay) :
    option (MoqxRelay * list Effect * Expected RequestErrorCode (list string)) :=
  '(r, effects, result) ← doPublishNamespace ns session callback EmptyString requestID r;
  Some (r, effects,
        match result with Some node => value node | None => unexpected UNINTERESTED end).

(** [publishNamespaceToSession] when the peer's reply arrives. *)
Definition publishNamespaceReply (session : Session) (node : list string) (reply : option Z)
    (r : MoqxRelay) : MoqxRelay :=
  match reply with
  | None => r
  | Some handle =>
      set_tree (addDraft14PublishNamespaceHandle (namespaceTree_ r) node session handle) r
  end.

Section Versions.
(** [getDraftMajorVersion] of a session's negotiated version. *)
Context (draftVersion : Session → option Z).

Definition announceDoneTo (ns : TrackNamespace) (session : Session)
    (sub : Session * SubscriberInfo) : list Effect :=
  let '(outSession, info) := sub in
  if negb (outSession =? session) && wantsNamespaces (options info) then
    match draftVersion outSession with
    | Some v =>
        if 16 <=? v then
          match namespacePublishHandle info with
          | Some h => [NamespaceDoneMsg h (suffixOf info ns)]
          | None => []
          end
        else []
    | None => []
    end
  else [].

Definition doPublishNamespaceDone (ns : TrackNamespace) (session : Session) (r : MoqxRelay) :
    option (MoqxRelay * list Effect) :=
  '(t, result) ← unpublishNamespace (namespaceTree_ r) ns session;
  match result with
  | unexpected _ => Some (set_tree t r, [])
  | value res =>
      Some (set_tree t r,
            ((λ p, LegacyNamespaceDone p.1 p.2) <$> un_legacyHandles res) ++
            mjoin (announceDoneTo ns session <$> un_subscribers res))
  end.
End Versions.

(** ** Publishing a track *)

(** [buildFilterChain]: TopNFilter, TerminationFilter, the cache if there is
    one, and the forwarder. *)
Definition buildFilterChain (ftn : FullTrackName) (publisherSession : option Session)
    (r : MoqxRelay) (fwd : Z) : FilterChainResult (Consumer:=TrackConsumer) :=
  let baseConsumer :=
    if hasCache r then CacheWriteback ftn (ForwarderConsumer fwd) else ForwarderConsumer fwd in
  let terminationFilter := TerminationFilter ftn publisherSession baseConsumer in
  mkChain (TopNStage (nextFilter r) terminationFilter) (Some (nextFilter r)).

(** [onPublishDone]; [forwarderEmpty] is [MoQForwarder::empty]. *)
Definition onPublishDone (ftn : FullTrackName) (forwarderEmpty : Z → bool) (r : MoqxRelay) :
    option MoqxRelay :=
  t ← (match getUpstreamView ftn (registry_ r) with
       | Some v =>
           if uvIsPublish v then fst <$> unpublishTrack (namespaceTree_ r) ftn.1 ftn.2
           else Some (namespaceTree_ r)
       | None => Some (namespaceTree_ r)
       end);
  Some (set_registry (onPublisherTerminated ftn forwarderEmpty (registry_ r)).1 (set_tree t r)).

(** [TerminationFilter::publishDone] of the chain built for
    [publisherSession]; the call goes on to the downstream consumer. *)
Definition terminationPublishDone (ftn : FullTrackName) (publisherSession : option Session)
    (forwarderEmpty : Z → bool) (r : MoqxRelay) : option MoqxRelay :=
  onPublishDone ftn forwarderEmpty r.

Record PublishReply := mkPublishReply { pr_consumer : TrackConsumer; pr_forward : bool }.

(** The callback [publish] passes to [addPublish]. *)
Definition onRanking (ftn : FullTrackName) (session : Session) (flt : Z)
    (extension : Z → option Z) (rk : Z * Z) : list Effect :=
  let '(propertyType, ranking) := rk in
  [RegisterTrack ranking ftn (extension propertyType) session;
   RegisterObserver flt propertyType ranking ftn].

(** The sessions that [publish] publishes to. *)
Definition isDirect (session : Session) (sub : Session * SubscriberInfo) : bool :=
  match trackFilter sub.2 with
  | Some _ => false
  | None => negb (sub.1 =? session) && wantsPublishes (options sub.2)
  end.

Definition hasTrackFilter (sub : Session * SubscriberInfo) : bool :=
  match trackFilter sub.2 with Some _ => true | None => false end.

Definition publish (ftn : FullTrackName) (session : Session) (requestID : Z) (handle : option Z)
    (extension : Z → option Z) (now : Z) (r : MoqxRelay) :
    option (MoqxRelay * list Effect * Expected RequestErrorCode PublishReply) :=
  h ← handle;
  if negb (startsWithNs (allowedNamespacePrefix_ r) ftn.1) then
    Some (r, [], unexpected UNINTERESTED)
  else if bool_decide (ftn.1 = []) then Some (r, [], unexpected INTERNAL_ERROR)
  else
    let st := registry_ r in
    let fwd := nextForwarder st in
    let st := mkRegistry (subscriptions_ st) (promises st) (targets st) (nextNode st) (fwd + 1) in
    '(st, consumer, evicted) ←
      createFromPublish ftn fwd (Some session) requestID (Some h) now
        (buildFilterChain ftn (Some session) r) st;
    let evictedEffects :=
      match evicted with
      | Some ev =>
          match evHandle ev with
          | Some h' => [Unsubscribe h'; ForwarderPublishDone (evForwarder ev)]
          | None => []
          end
      | None => []
      end in
    view ← getTopNView ftn st;
    '(t, (_, sessions, rankings)) ← addPublish (namespaceTree_ r) ftn.1 ftn.2 session;
    rankingEffects ←
      (match rankings with
       | [] => Some []
       | _ => flt ← tvFilter view; Some (mjoin (onRanking ftn session flt extension <$> rankings))
       end);
    let direct := filter (λ s, isDirect session s = true) sessions in
    let hasTrackFilterSub := existsb hasTrackFilter sessions in
    let shouldForward := (0 <? length direct)%nat || hasTrackFilterSub in
    Some (bump_filter (set_registry st (set_tree t r)),
          evictedEffects ++ rankingEffects ++
            ((λ s, StartPublish s.1 fwd (forward s.2) false) <$> direct),
          value (mkPublishReply consumer shouldForward)).

(** [publishToSession], from the results of its calls: whether the session is
    closed, whether the forwarder accepts the subscriber, the result of the
    session's [publish] and the peer's answer ([None] while it is awaited and
    for an error, an exception or a cancellation).  The guard unsubscribes
    unless the peer accepted. *)
Inductive PublishOutcome :=
| SkippedClosed | SubscribeFailed | UnsubscribedByGuard (pinned : bool) | PublishedOk (pinned : bool).

Definition publishToSession (closed added published accepted trackFilterSubscriber : bool) :
    PublishOutcome :=
  if closed then SkippedClosed
  else if negb added then SubscribeFailed
  else
    let pinned := negb trackFilterSubscriber in
    if negb published then UnsubscribedByGuard pinned
    else if negb accepted then UnsubscribedByGuard pinned
    else PublishedOk pinned.

(** ** Rankings *)

Section Rankings.
(** [std::sort] by [lastObjectTime]; the order of equal times is not fixed. *)
Context (std_sort : list (FullTrackName * Session * option Z * Z) →
                    list (FullTrackName * Session * option Z * Z)).
(** [forwarder->extensions().getIntExtension(propertyType)] *)
Context (forwarderExtension : Z → Z → option Z).

(** The observers and tracks of the node [q]. *)
Definition retroTracks (st : RelayRegistry) (t : RelayTree) (propertyType ranking : Z)
    (q : list string) : list Effect * list (FullTrackName * Session * option Z * Z) :=
  match t !! q with
  | None => ([], [])
  | Some n =>
      let entries := map_to_list (publishes_ n) in
      let one := λ p : string * Session,
        let ftn := (rev q, p.1) in
        match getTopNView ftn st with
        | Some view =>
            (match tvFilter view with
             | Some flt => [RegisterObserver flt propertyType ranking ftn]
             | None => []
             end,
             (ftn, p.2, forwarderExtension (tvForwarder view) propertyType, tvLastObjectTime view))
        | None => ([], (ftn, p.2, None, 0))
        end in
      (mjoin (fst <$> (one <$> entries)), snd <$> (one <$> entries))
  end.

Definition registerRetro (ranking : Z) (x : FullTrackName * Session * option Z * Z) : Effect :=
  let '(ftn, s, v, _) := x in RegisterTrack ranking ftn v s.

Definition getOrCreateRanking (node : list string) (propertyType : Z) (r : MoqxRelay) :
    MoqxRelay * Z * list Effect :=
  let '(t, existing) := getOrInsertRanking (namespaceTree_ r) node propertyType in
  match existing with
  | Some ranking => (set_tree t r, ranking, [])
  | None =>
      let ranking := nextRanking r in
      let t := setRanking t node propertyType (Some ranking) in
      let visit := λ q,
        let '(observers, tracks) := retroTracks (registry_ r) t propertyType ranking q in
        observers ++ (registerRetro ranking <$> std_sort tracks) in
      (bump_ranking (set_tree t r), ranking, mjoin (visit <$> forEachNodeInSubtree t node))
  end.

(** [onTrackSelected] *)
Definition onTrackSelected (ftn : FullTrackName) (session : Session) (closed forward : bool)
    (r : MoqxRelay) : list Effect :=
  if closed then []
  else match getForwarder ftn (registry_ r) with
       | None => []
       | Some fwd => [StartPublish session fwd forward true]
       end.

(** [onTrackEvicted]; [subscriber] is the forwarder's entry for the session:
    whether it is pinned. *)
Definition onTrackEvicted (ftn : FullTrackName) (session : Session) (closed : bool)
    (subscriber : Z → option bool) (r : MoqxRelay) : list Effect :=
  if closed then []
  else match getForwarder ftn (registry_ r) with
       | None => []
       | Some fwd =>
           match subscriber fwd with
           | None | Some true => []
           | Some false => [RemoveSubscriberDone fwd session]
           end
       end.

(** ** Namespace subscriptions *)

(** The first segment of [subscribeNamespace]: the peer relay's identity, when
    the request carries a relay token and this relay has an identity; the
    relay then subscribes at the peer and waits. *)
Definition incomingPeer (token : option string) (r : MoqxRelay) : option string :=
  if bool_decide (relayID_ r = EmptyString) then None else token.

Record SubscribeNamespace := mkSubNs {
  sn_prefix : TrackNamespace; sn_options : SubscribeNamespaceOptions; sn_forward : bool;
  (** the first TRACK_FILTER parameter *)
  sn_filter : option TrackFilter;
}.

(** What [subscribeNamespace] does at the node [q] of the subtree.  A draft-16
    session brings a handle for NAMESPACE messages, which is not checked. *)
Definition visitNode (session : Session) (version : Z) (nsHandle : option Z)
    (incomingPeerID : string) (sub : SubscribeNamespace) (r : MoqxRelay) (q : list string) :
    option (list Effect) :=
  match namespaceTree_ r !! q with
  | None => Some []
  | Some n =>
      let announced :=
        match publisherSession_ n with
        | Some p => negb (p =? session) &&
                    (bool_decide (incomingPeerID = EmptyString) ||
                     negb (bool_decide (publisherPeerID_ n = incomingPeerID)))
        | None => false
        end in
      nsEffects ←
        (if negb announced then Some []
         else if 16 <=? version then
           if wantsNamespaces (sn_options sub)
           then h ← nsHandle; Some [NamespaceMsg h (drop (length (sn_prefix sub)) (rev q))]
           else Some []
         else Some [StartPublishNamespace session (rev q) q]);
      let publishEffects :=
        mjoin ((λ p : string * Session,
          match getForwarder (rev q, p.1) (registry_ r) with
          | None => []
          | Some fwd =>
              match sn_filter sub with
              | Some _ => []
              | None =>
                  if ((version <=? 15) || wantsPublishes (sn_options sub)) && negb (p.2 =? session)
                  then [StartPublish session fwd (sn_forward sub) false] else []
              end
          end) <$> map_to_list (publishes_ n)) in
      Some (nsEffects ++ publishEffects)
  end.

Fixpoint visitNodes (visit : list string → option (list Effect)) (qs : list (list string)) :
    option (list Effect) :=
  match qs with
  | [] => Some []
  | q :: qs => es ← visit q; rest ← visitNodes visit qs; Some (es ++ rest)
  end.

(** [subscribeNamespace] from the answer of the peer on; [reciprocal] is the
    peer's identity and, if its answer was positive, the handle. *)
Definition subscribeNamespace (session : Session) (version : option Z) (nsHandle : option Z)
    (reciprocal : option (string * option Z)) (sub : SubscribeNamespace) (r : MoqxRelay) :
    option (MoqxRelay * list Effect * Expected RequestErrorCode TrackNamespace) :=
  let incomingPeerID := match reciprocal with Some (p, _) => p | None => EmptyString end in
  let r :=
    match reciprocal with
    | Some (p, Some h) =>
        match peerSubNsHandles_ r !! session with
        | Some _ => r
        | None => set_peers (<[session := mkPeer h p]> (peerSubNsHandles_ r)) r
        end
    | _ => r
    end in
  version ← version;
  if bool_decide (sn_prefix sub = []) && (version <? 16) then
    Some (r, [], unexpected NAMESPACE_PREFIX_UNKNOWN)
  else
    let info := mkInfo (sn_forward sub) (sn_options sub) nsHandle (sn_prefix sub) (sn_filter sub) in
    '(t, node) ← addNamespaceSubscriber (namespaceTree_ r) (sn_prefix sub) session info;
    let r := set_tree t r in
    let '(r, rankingEffects) :=
      match sn_filter sub with
      | None => (r, [])
      | Some f =>
          let '(r, ranking, effects) := getOrCreateRanking node (propertyType f) r in
          (r, effects ++ [AddSessionToTopNGroup ranking (maxSelected f) session (sn_forward sub)])
      end in
    effects ← visitNodes (visitNode session version nsHandle incomingPeerID sub r)
                (forEachNodeInSubtree (namespaceTree_ r) node);
    Some (r, rankingEffects ++ effects, value (sn_prefix sub)).
End Rankings.

Definition unsubscribeNamespace (prefix : TrackNamespace) (session : Session) (r : MoqxRelay) :
    option (MoqxRelay * list Effect) :=
  let r := set_peers (delete session (peerSubNsHandles_ r)) r in
  '(t, result) ← removeNamespaceSubscriber (namespaceTree_ r) prefix session;
  Some (set_tree t r,
        match result with
        | value (Some (ranking, maxSelected)) => [RemoveSessionFromTopNGroup ranking maxSelected session]
        | _ => []
        end).

(** [findPublishState]: whether the node exists, and the publish session. *)
Definition findPublishState (ftn : FullTrackName) (r : MoqxRelay) : bool * option Session :=
  match findNode (namespaceTree_ r) ftn.1 false Exact with
  | (_, Some p, _) =>
      (true, n ← namespaceTree_ r !! p; publishes_ n !! ftn.2)
  | (_, None, _) => (false, None)
  end.

(** ** Peering *)

(** Before the wait of [subscribeNamespace]: a request without token, so that
    the peer does not answer with one of its own. *)
Definition reciprocate (session : Session) (token : option string) (r : MoqxRelay) : list Effect :=
  match incomingPeer token r with
  | Some _ => [PeerSubscribeNamespace session None]
  | None => []
  end.

Definition onUpstreamConnect (session : Session) (r : MoqxRelay) : list Effect :=
  [PeerSubscribeNamespace session (Some (relayID_ r))].
Definition onUpstreamConnectReply (reply : option Z) (r : MoqxRelay) : MoqxRelay :=
  match reply with Some h => set_upstreamHandle (Some h) r | None => r end.
Definition onUpstreamDisconnect (r : MoqxRelay) : MoqxRelay := set_upstreamHandle None r.

(** [MoqxRelayNamespaceHandle]: the namespaces a peer announced through it. *)
Record NamespaceBridge := mkBridge {
  br_session : Session; br_peerID : string; activeNamespaces_ : gset TrackNamespace;
}.

Definition namespaceMsg (ns : TrackNamespace) (b : NamespaceBridge) (r : MoqxRelay) :
    option (NamespaceBridge * MoqxRelay * list Effect) :=
  let b := mkBridge (br_session b) (br_peerID b) ({[ns]} ∪ activeNamespaces_ b) in
  '(r, effects, _) ← doPublishNamespace ns (br_session b) None (br_peerID b) 0 r;
  Some (b, r, effects).

Section Bridge.
Context (draftVersion : Session → option Z).

Definition namespaceDoneMsg (ns : TrackNamespace) (b : NamespaceBridge) (r : MoqxRelay) :
    option (NamespaceBridge * MoqxRelay * list Effect) :=
  let b := mkBridge (br_session b) (br_peerID b) (activeNamespaces_ b ∖ {[ns]}) in
  '(r, effects) ← doPublishNamespaceDone draftVersion ns (br_session b) r;
  Some (b, r, effects).

Fixpoint withdrawAll (nss : list TrackNamespace) (session : Session) (r : MoqxRelay) :
    option (MoqxRelay * list Effect) :=
  match nss with
  | [] => Some (r, [])
  | ns :: nss =>
      '(r, effects) ← doPublishNamespaceDone draftVersion ns session r;
      '(r, rest) ← withdrawAll nss session r;
      Some (r, effects ++ rest)
  end.

(** [~MoqxRelayNamespaceHandle] *)
Definition destroyBridge (b : NamespaceBridge) (r : MoqxRelay) : option (MoqxRelay * list Effect) :=
  withdrawAll (elements (activeNamespaces_ b)) (br_session b) r.
End Bridge.

(** ** Subscribe *)

Inductive Begun := Rejected (e : RequestErrorCode) | WaitForUpstream | Proceed.

(** Up to the wait for the upstream connection. *)
Definition subscribeBegin (ftn : FullTrackName) (r : MoqxRelay) : Begun :=
  if bool_decide (ftn.1 = []) then Rejected TRACK_NOT_EXIST
  else if negb (exists_ ftn (registry_ r)) && hasUpstream r &&
          negb (bool_decide (is_Some (findPublisherSession (namespaceTree_ r) ftn.1)))
  then WaitForUpstream else Proceed.

(** What becomes of a subscribe at its second wait, or its answer. *)
Inductive SubscribeState :=
| Subscribing (pending : Token (FullTrackName:=FullTrackName)) (upstream : Session)
| WaitingFor (promise : Z)
| SubscribeRejected (e : RequestErrorCode)
| Subscribed (fwd : Z).

(** From the wait for the upstream connection on.  [added] says whether the
    new forwarder accepts the subscriber. *)
Definition subscribeProceed (ftn : FullTrackName) (session : Session) (added : bool) (now : Z)
    (r : MoqxRelay) : option (MoqxRelay * list Effect * SubscribeState) :=
  let '(st, res) :=
    getOrCreateFromSubscribe ftn now (buildFilterChain ftn None r) (registry_ r) in
  match res with
  | AwaitSubsequent promise => Some (set_registry st r, [], WaitingFor promise)
  | FirstSubscriber fwd consumer pending =>
      let r := bump_filter (set_registry st r) in
      match findPublisherSession (namespaceTree_ r) ftn.1 with
      | None =>
          st ← failAndRemove pending (registry_ r);
          Some (set_registry st r, [], SubscribeRejected TRACK_NOT_EXIST)
      | Some upstreamSession =>
          if negb added then
            st ← failAndRemove pending (registry_ r);
            Some (set_registry st r, [AddSubscriber fwd session], SubscribeRejected INTERNAL_ERROR)
          else
            Some (r, [AddSubscriber fwd session; UpstreamSubscribe upstreamSession ftn consumer],
                  Subscribing pending upstreamSession)
      end
  end.

(** When the upstream answers: an error code, or the handle and request of the
    subscription. *)
Definition subscribeReply (pending : Token (FullTrackName:=FullTrackName)) (upstreamSession : Session)
    (reply : Z + Z * Z) (r : MoqxRelay) : option (MoqxRelay * SubscribeState) :=
  match reply with
  | inl code =>
      st ← failAndRemove pending (registry_ r);
      Some (set_registry st r, SubscribeRejected (UpstreamError code))
  | inr (handle, requestID) =>
      '(st, completed) ←
        completeSubscription pending (Some handle) requestID (Some upstreamSession) (registry_ r);
      Some (set_registry st r,
            if completed : bool then Subscribed (tokForwarder pending)
            else SubscribeRejected INTERNAL_ERROR)
  end.

(** A later subscriber, when its promise is resolved: [None] when the wait
    throws.  [inPast] says that the requested absolute range ends before the
    largest group of the forwarder. *)
Definition subscribeResume (ftn : FullTrackName) (promise : Z) (inPast added : Z → bool)
    (session : Session) (r : MoqxRelay) : option (option (list Effect * SubscribeState)) :=
  awaited ← awaitSubsequent ftn promise (registry_ r);
  match awaited with
  | Suspended => Some (Some ([], WaitingFor promise))
  | Threw => Some None
  | SubsequentSubscriber fwd =>
      Some (Some
        (if inPast fwd then ([], SubscribeRejected INVALID_RANGE)
         else if negb (added fwd) then ([AddSubscriber fwd session], SubscribeRejected INTERNAL_ERROR)
         else ([AddSubscriber fwd session], Subscribed fwd)))
  end.

(** ** Fetch and track status *)

Inductive FetchArgs :=
| Standalone (start end_ : Z * Z)
| Joining (joiningRequestID : Z).

Inductive FetchRoute :=
| FetchRejected (e : RequestErrorCode)
| FetchWaits (args : FetchArgs)
| FetchUpstream (upstream : Session) (args : FetchArgs)
| FetchFromCache (upstream : Session) (args : FetchArgs).

(** The arguments after a joining fetch is resolved, or passed on with the
    upstream's request; [resolveJoiningFetch] is the forwarder's. *)
Definition resolveJoining (ftn : FullTrackName) (args : FetchArgs)
    (resolveJoiningFetch : Z → RequestErrorCode + (Z * Z) * (Z * Z)) (r : MoqxRelay) :
    RequestErrorCode + FetchArgs :=
  match args with
  | Standalone _ _ => inr args
  | Joining _ =>
      match getFetchView ftn (registry_ r) with
      | None => inl TRACK_NOT_EXIST
      | Some view =>
          if fvIsReady view then
            match resolveJoiningFetch (fvForwarder view) with
            | inl e => inl e
            | inr (start, end_) => inr (Standalone start end_)
            end
          else inr (Joining (fvRequestID view))
      end
  end.

(** The rest of [fetch], once the upstream was waited for or need not be. *)
Definition fetchRoute (ftn : FullTrackName) (session : Session) (args : FetchArgs) (r : MoqxRelay) :
    FetchRoute :=
  let upstreamSession :=
    match findPublisherSession (namespaceTree_ r) ftn.1 with
    | Some s => Some s
    | None => view ← getFetchView ftn (registry_ r); fvUpstream view
    end in
  match upstreamSession with
  | None => FetchRejected TRACK_NOT_EXIST
  | Some u =>
      if session =? u then FetchRejected INTERNAL_ERROR
      else match args with
           | Standalone _ _ => if hasCache r then FetchFromCache u args else FetchUpstream u args
           | Joining _ => FetchUpstream u args
           end
  end.

Definition fetch (ftn : FullTrackName) (session : Session) (args : FetchArgs)
    (resolveJoiningFetch : Z → RequestErrorCode + (Z * Z) * (Z * Z)) (r : MoqxRelay) : FetchRoute :=
  if bool_decide (ftn.1 = []) then FetchRejected TRACK_NOT_EXIST
  else match resolveJoining ftn args resolveJoiningFetch r with
       | inl e => FetchRejected e
       | inr args =>
           match findPublisherSession (namespaceTree_ r) ftn.1 with
           | None => if hasUpstream r then FetchWaits args else fetchRoute ftn session args r
           | Some _ => fetchRoute ftn session args r
           end
       end.

Inductive TrackStatusCode := TRACK_NOT_STARTED | IN_PROGRESS | UNKNOWN_STATUS.

Inductive TrackStatusRoute :=
| StatusLocal (fwd : Z) (code : TrackStatusCode)
| StatusWaits
| StatusUpstream (upstream : Session)
| StatusRejected (e : RequestErrorCode).

Definition statusUpstream (ftn : FullTrackName) (r : MoqxRelay) : TrackStatusRoute :=
  match findPublisherSession (namespaceTree_ r) ftn.1 with
  | Some u => StatusUpstream u
  | None => StatusRejected TRACK_NOT_EXIST
  end.

(** [forwarding] and [hasLargest] are [numForwardingSubscribers() > 0] and
    [largest()] of a forwarder. *)
Definition trackStatus (ftn : FullTrackName) (forwarding hasLargest : Z → bool) (r : MoqxRelay) :
    TrackStatusRoute :=
  if bool_decide (ftn.1 = []) then StatusRejected TRACK_NOT_EXIST
  else
    let elsewhere :=
      match findPublisherSession (namespaceTree_ r) ftn.1 with
      | None => if hasUpstream r then StatusWaits else statusUpstream ftn r
      | Some _ => statusUpstream ftn r
      end in
    match getUpstreamView ftn (registry_ r) with
    | Some v =>
        if forwarding (uvForwarder v) then
          StatusLocal (uvForwarder v)
            (if hasLargest (uvForwarder v) then
               match uvHandle v with Some _ => IN_PROGRESS | None => UNKNOWN_STATUS end
             else TRACK_NOT_STARTED)
        else elsewhere
    | None => elsewhere
    end.

(** ** Callbacks of the forwarders *)

(** [onEmpty] of a forwarder for the track [ftn].  [upstream->getExecutor()]
    dereferences the upstream of a published track. *)
Definition onEmpty (ftn : FullTrackName) (r : MoqxRelay) : option (MoqxRelay * list Effect) :=
  match getUpstreamView ftn (registry_ r) with
  | None => Some (r, [])
  | Some v =>
      match uvHandle v with
      | None => Some (set_registry (remove ftn (registry_ r)) r, [])
      | Some h =>
          if uvIsPublish v then _ ← uvUpstream v; Some (r, [SubscribeUpdate h false])
          else Some (set_registry (remove ftn (registry_ r)) r, [Unsubscribe h])
      end
  end.

Definition forwardChanged (ftn : FullTrackName) (forward : bool) (r : MoqxRelay) :
    option (list Effect) :=
  match getUpstreamView ftn (registry_ r) with
  | None => Some []
  | Some v =>
      if negb (uvIsReady v) then Some []
      else match uvHandle v with
           | None => Some []
           | Some h => _ ← uvUpstream v; Some [SubscribeUpdate h forward]
           end
  end.

Definition newGroupRequested (ftn : FullTrackName) (group : Z) (r : MoqxRelay) :
    option (list Effect) :=
  match getUpstreamView ftn (registry_ r) with
  | None => Some []
  | Some v =>
      match uvHandle v with
      | None => Some []
      | Some h => _ ← uvUpstream v; Some [NewGroupRequestUpdate h group]
      end
  end.
