(* ===== verification/RelaySystem.v ===== *)
(** * Runs of the relay

    The handlers of [Relay] as one transition system: requests, the answers
    that resume a suspended coroutine, and the callbacks of forwarders and
    filters, in any order.  [relay_never_stuck] shows that no handler fails an
    [XCHECK] or dereferences null in a state that can be reached, and
    [live_publish_listed] that the tree and the registry agree on the tracks
    with a live publisher. *)

From S2P Require Import Prelude NamespaceTree NamespaceWalk.
From S2P Require Import SubscriptionRegistry.
From S2P Require Import Relay.

Section System.
Context (std_sort : list (FullTrackName * Session * option Z * Z) →
                    list (FullTrackName * Session * option Z * Z)).
Context (forwarderExtension : Z → Z → option Z).
Context (draftVersion : Session → option Z).

Abbreviation RelayToken := (Token (FullTrackName:=FullTrackName)).

(** The relay and the upstream subscribes in flight. *)
Record RelaySystem := mkSys { relay : MoqxRelay; inFlight : list RelayToken }.

Inductive RelayOp :=
| RPublishNamespace (ns : TrackNamespace) (s : Session) (cb : option Z) (peer : string) (rid : Z)
| RPublishNamespaceReply (s : Session) (node : list string) (reply : option Z)
| RPublishNamespaceDone (ns : TrackNamespace) (s : Session)
| RPublish (ftn : FullTrackName) (s : Session) (rid h : Z) (extension : Z → option Z) (now : Z)
| RPublishDone (ftn : FullTrackName) (publisher : option Session) (forwarderEmpty : Z → bool)
| RSubscribeNamespace (s : Session) (version : Z) (nsHandle : option Z)
    (reciprocal : option (string * option Z)) (sub : SubscribeNamespace)
| RUnsubscribeNamespace (prefix : TrackNamespace) (s : Session)
| RSubscribe (ftn : FullTrackName) (s : Session) (added : bool) (now : Z)
| RSubscribeReply (pending : RelayToken) (upstream : Session) (reply : Z + Z * Z)
| RSubscribeCancelled (pending : RelayToken)
| REmpty (ftn : FullTrackName)
| RForwardChanged (ftn : FullTrackName) (forward : bool)
| RNewGroup (ftn : FullTrackName) (group : Z)
| RUpstreamReply (reply : option Z)
| RUpstreamDisconnect.

(** A draft-16 session brings a handle for NAMESPACE messages. *)
Definition admissible (op : RelayOp) : Prop :=
  match op with
  | RSubscribeNamespace _ version nsHandle _ _ => 16 <= version → is_Some nsHandle
  | _ => True
  end.

Definition relayStep (op : RelayOp) (sys : RelaySystem) : option RelaySystem :=
  let r := relay sys in
  match op with
  | RPublishNamespace ns s cb peer rid =>
      '(r, _, _) ← doPublishNamespace ns s cb peer rid r; Some (mkSys r (inFlight sys))
  | RPublishNamespaceReply s node reply =>
      Some (mkSys (publishNamespaceReply s node reply r) (inFlight sys))
  | RPublishNamespaceDone ns s =>
      '(r, _) ← doPublishNamespaceDone draftVersion ns s r; Some (mkSys r (inFlight sys))
  | RPublish ftn s rid h extension now =>
      '(r, _, _) ← publish ftn s rid (Some h) extension now r; Some (mkSys r (inFlight sys))
  | RPublishDone ftn publisher forwarderEmpty =>
      r ← terminationPublishDone ftn publisher forwarderEmpty r; Some (mkSys r (inFlight sys))
  | RSubscribeNamespace s version nsHandle reciprocal sub =>
      '(r, _, _) ← subscribeNamespace std_sort forwarderExtension s (Some version) nsHandle reciprocal sub r;
      Some (mkSys r (inFlight sys))
  | RUnsubscribeNamespace prefix s =>
      '(r, _) ← unsubscribeNamespace prefix s r; Some (mkSys r (inFlight sys))
  | RSubscribe ftn s added now =>
      '(r, _, state) ← subscribeProceed ftn s added now r;
      Some (mkSys r (match state with
                     | Subscribing pending _ => pending :: inFlight sys
                     | _ => inFlight sys
                     end))
  | RSubscribeReply pending upstream reply =>
      if bool_decide (pending ∈ inFlight sys) then
        '(r, _) ← subscribeReply pending upstream reply r;
        Some (mkSys r (dropToken pending (inFlight sys)))
      else Some sys
  | RSubscribeCancelled pending =>
      if bool_decide (pending ∈ inFlight sys) then
        st ← failAndRemove pending (registry_ r);
        Some (mkSys (set_registry st r) (dropToken pending (inFlight sys)))
      else Some sys
  | REmpty ftn => '(r, _) ← onEmpty ftn r; Some (mkSys r (inFlight sys))
  | RForwardChanged ftn forward => _ ← forwardChanged ftn forward r; Some sys
  | RNewGroup ftn group => _ ← newGroupRequested ftn group r; Some sys
  | RUpstreamReply reply => Some (mkSys (onUpstreamConnectReply reply r) (inFlight sys))
  | RUpstreamDisconnect => Some (mkSys (onUpstreamDisconnect r) (inFlight sys))
  end.

Fixpoint relayRun (ops : list RelayOp) (sys : RelaySystem) : option RelaySystem :=
  match ops with
  | [] => Some sys
  | op :: ops => sys ← relayStep op sys; relayRun ops sys
  end.

(** ** Invariant *)

Definition publishAt (t : RelayTree) (f : FullTrackName) : option Session :=
  c_publishes (contentAt t (rev f.1)) !! f.2.

(** What is true of every entry of the registry. *)
Record entry_ok (st : RelayRegistry) (t : RelayTree) (f : FullTrackName)
    (e : RelaySubscription (Session:=Z) (Handle:=Z)) : Prop := {
  eo_upstream : is_Some (handle e) → is_Some (upstream e);
  eo_fulfilled : isPublish e = true → promises st !! node e = Some Fulfilled;
  eo_listed : isPublish e = true → is_Some (handle e) → publishAt t f = upstream e;
}.

(** A subscription is stored with the prefix at whose node it is. *)
Definition prefixes_ok (t : RelayTree) : Prop :=
  ∀ q s i, c_subscribers (contentAt t q) !! s = Some i → trackNamespacePrefix i = rev q.

Record relay_inv (sys : RelaySystem) : Prop := {
  ri_tree : wf (namespaceTree_ (relay sys));
  ri_rankings : noNullRanking (namespaceTree_ (relay sys));
  ri_registry : inv (registry_ (relay sys)) (inFlight sys);
  ri_entries : ∀ f e, subscriptions_ (registry_ (relay sys)) !! f = Some e →
    entry_ok (registry_ (relay sys)) (namespaceTree_ (relay sys)) f e;
  ri_prefixes : prefixes_ok (namespaceTree_ (relay sys));
}.

Implicit Types (st : RelayRegistry) (t : RelayTree) (f : FullTrackName).

(** *** The registry's operations keep the entries in order *)

Definition entries_ok st t : Prop :=
  ∀ f e, subscriptions_ st !! f = Some e → entry_ok st t f e.

(** Fewer entries, and no fulfilled promise lost. *)
Lemma entries_shrink st st' t :
  (∀ f e, subscriptions_ st' !! f = Some e → subscriptions_ st !! f = Some e) →
  (∀ n, promises st !! n = Some Fulfilled → promises st' !! n = Some Fulfilled) →
  entries_ok st t → entries_ok st' t.
Proof.
  intros Hs Hp He f e Hf. destruct (He f e (Hs f e Hf)) as [Hu Hfu Hl]. constructor; auto.
Qed.

Lemma erase_entries st t f : entries_ok st t → entries_ok (eraseSub f st) t.
Proof.
  apply entries_shrink.
  - intros f' e. rewrite eraseSub_lookup. by case_bool_decide.
  - intros n Hn. rewrite eraseSub_promise. destruct (subscriptions_ st !! f); [|done].
    rewrite bool_decide_eq_false_2; [done|]. intros [_ ?]. congruence.
Qed.

Lemma removeIf_entries st t p : entries_ok st t → entries_ok (removeIf p st) t.
Proof.
  intros He. unfold removeIf. generalize (map_to_list (subscriptions_ st)). intros l.
  induction l as [|[f e] l IH]; cbn; [done|]. destruct (p _ _); [by apply erase_entries|done].
Qed.

Lemma subscribe_entries st ts t f now chain :
  inv st ts → entries_ok st t →
  entries_ok (getOrCreateFromSubscribe (Consumer:=TrackConsumer) f now chain st).1 t.
Proof.
  intros Hi He. unfold getOrCreateFromSubscribe.
  destruct (subscriptions_ st !! f) as [e0|] eqn:Hf; [done|]. cbn. rewrite alter_insert_eq.
  intros f' e. cbn. rewrite lookup_insert_Some. intros [[<- <-]|[Hne Hs]].
  - constructor; cbn; [by intros [? ?]|done|done].
  - destruct (He f' e Hs) as [Hu Hfu Hl]. constructor; [done| |done]. cbn. intros Hp.
    rewrite lookup_insert_ne; [auto|]. destruct (inv_entry _ _ Hi f' e Hs). lia.
Qed.

(** An entry with a pending promise is not a publish. *)
Lemma pending_not_publish st t f e : entries_ok st t → subscriptions_ st !! f = Some e →
  promises st !! node e = Some Pending → isPublish e = false.
Proof.
  intros He Hs Hp. destruct (isPublish e) eqn:E; [|done]. destruct (He f e Hs) as [_ Hfu _].
  specialize (Hfu E). congruence.
Qed.

Lemma complete_entries st ts t tok h r u st' b :
  inv st ts → entries_ok st t → tok ∈ ts →
  completeSubscription tok (Some h) r (Some u) st = Some (st', b) → entries_ok st' t.
Proof.
  intros Hi He Hin. unfold completeSubscription.
  destruct (subscriptions_ st !! tokFtn tok) as [e|] eqn:Hs; [|by intros [= <- <-]].
  case_bool_decide as Hf; [by intros [= <- <-]|].
  assert (promises st !! node e = Some Pending) as Hp by (by apply (inv_token _ _ Hi tok Hin)).
  unfold resolve. cbn. rewrite Hp. intros [= <- <-] f' e'. cbn. rewrite lookup_insert_Some.
  pose proof (pending_not_publish _ _ _ _ He Hs Hp) as Hnp.
  intros [[<- <-]|[Hne Hs']]; cbn.
  - constructor; cbn; [eauto|congruence|congruence].
  - destruct (He f' e' Hs') as [Hu Hfu Hl]. constructor; [done| |done]. intros Hpub. cbn.
    rewrite lookup_insert_ne; [auto|]. intros Hn. rewrite Hn, Hfu in Hp; done.
Qed.

Lemma destroy_entries st ts t tok st' :
  inv st ts → entries_ok st t → tok ∈ ts → failAndRemove tok st = Some st' → entries_ok st' t.
Proof.
  intros Hi He Hin. unfold failAndRemove.
  destruct (subscriptions_ st !! tokFtn tok) as [e|] eqn:Hs; [|by intros [= <-]].
  case_bool_decide as Hf; [|by intros [= <-]].
  assert (promises st !! node e = Some Pending) as Hp by (by apply (inv_token _ _ Hi tok Hin)).
  unfold resolve. rewrite Hp. intros [= <-]. apply erase_entries.
  revert He. apply entries_shrink; cbn; [done|]. intros n Hn. rewrite lookup_insert_ne; [done|congruence].
Qed.

(** A terminated publisher leaves its entry without handle and upstream. *)
Lemma terminated_entries st t t' f em :
  (∀ f', f' ≠ f → publishAt t' f' = publishAt t f') →
  entries_ok st t → entries_ok (onPublisherTerminated f em st).1 t'.
Proof.
  intros Ht He. unfold onPublisherTerminated.
  assert (entries_ok st t → subscriptions_ st !! f = None → entries_ok st t') as Hnone.
  { intros He' Hn f' e' Hs. destruct (He' f' e' Hs) as [Hu Hfu Hl]. constructor; [done|done|].
    intros. rewrite Ht; [auto|congruence]. }
  destruct (subscriptions_ st !! f) as [e|] eqn:Hs; [|by apply Hnone]. cbv zeta.
  match goal with |- context [set_subs (<[f := ?e']> _) _] => set (e1 := e') end.
  assert (entries_ok (set_subs (<[f := e1]> (subscriptions_ st)) st) t') as Hst.
  { intros f' e'. cbn. rewrite lookup_insert_Some. intros [[<- <-]|[Hne Hs']].
    - destruct (He f e Hs) as [_ Hfu _]. constructor; cbn; [by intros [? ?]|done|by intros _ [? ?]].
    - destruct (He f' e' Hs') as [Hu Hfu Hl]. constructor; [done|done|]. intros. rewrite Ht; [auto|congruence]. }
  destruct (em _); cbn [fst]; [by apply erase_entries|done].
Qed.

Lemma createFromPublish_frame st f fwd s r h now (chain : Z → FilterChainResult (Consumer:=TrackConsumer))
    st' c ev f' :
  createFromPublish f fwd s r h now chain st = Some (st', c, ev) → f' ≠ f →
  subscriptions_ st' !! f' = subscriptions_ st !! f'.
Proof.
  unfold createFromPublish. destruct (resolve _ _ _) as [st2|] eqn:Hr; [|done].
  destruct (chainFilter _); [|done]. intros [= <- <- <-] Hne. cbn.
  rewrite lookup_alter_ne by done. unfold resolve in Hr.
  destruct (promises _ !! _) as [[]|]; try done. injection Hr as <-. cbn.
  rewrite lookup_insert_ne by done. rewrite eraseSub_lookup. by rewrite bool_decide_eq_false_2.
Qed.

(** A publish replaces the entry of its track. *)
Lemma publish_entries st ts t t' f s r h now (chain : Z → FilterChainResult (Consumer:=TrackConsumer)) c flt :
  inv st ts → entries_ok st t → (∀ f', f' ≠ f → publishAt t' f' = publishAt t f') →
  publishAt t' f = Some s → chain (nextForwarder st) = mkChain c (Some flt) →
  let fwd := nextForwarder st in
  let st1 := mkRegistry (subscriptions_ st) (promises st) (targets st) (nextNode st) (fwd + 1) in
  ∃ st2 ev, createFromPublish f fwd (Some s) r (Some h) now chain st1 = Some (st2, c, ev) ∧
    inv st2 ts ∧ entries_ok st2 t' ∧
    subscriptions_ st2 !! f = Some (mkSub (nextNode st) fwd (Some s) r (Some h) true (Some flt) now) ∧
    (∀ f', f' ≠ f → subscriptions_ st2 !! f' = subscriptions_ st !! f') ∧
    ev = ((λ e, mkEvicted (forwarder e) (handle e)) <$> subscriptions_ st !! f).
Proof.
  intros Hi He Ht Hf Hchain fwd st1.
  destruct (publish_inv (Consumer:=TrackConsumer) st ts f (Some s) r (Some h) now c flt Hi) as (st2&ev&Hc&Hi2&Hs2&Hp2&Hpr&Hev).
  assert (createFromPublish f fwd (Some s) r (Some h) now chain st1 = Some (st2, c, ev)) as Hcreate.
  { rewrite <-Hc. unfold createFromPublish. fold fwd in Hchain. by rewrite Hchain. }
  assert (∀ f', f' ≠ f → subscriptions_ st2 !! f' = subscriptions_ st !! f') as Hfr.
  { intros f' Hne. by eapply (createFromPublish_frame st1) in Hcreate. }
  exists st2, ev. split_and!; try done. intros f' e. destruct (decide (f' = f)) as [->|Hne].
  - rewrite Hs2. intros [= <-]. constructor; cbn; [eauto|done|done].
  - rewrite Hfr by done. intros Hs. destruct (He f' e Hs) as [Hu Hfu Hl].
    constructor; [done| |intros; rewrite Ht; auto]. intros Hpub. specialize (Hfu Hpub).
    destruct (inv_entry _ _ Hi f' e Hs) as (Hlt&_). rewrite Hpr by lia. rewrite eraseSub_promise.
    destruct (subscriptions_ st !! f); [|done]. rewrite bool_decide_eq_false_2; [done|].
    intros [_ ?]. congruence.
Qed.

(** *** The tree's operations *)

Definition same_publishes t t' : Prop :=
  ∀ q, c_publishes (contentAt t' q) = c_publishes (contentAt t q).

Lemma same_entries st t t' : same_publishes t t' → entries_ok st t → entries_ok st t'.
Proof.
  intros Ht He f e Hs. destruct (He f e Hs) as [Hu Hfu Hl]. constructor; [done|done|].
  intros. unfold publishAt. rewrite Ht. by apply Hl.
Qed.

Lemma updated_same t t' ns g : updated (contentAt t) (contentAt t') ns g →
  (∀ x, c_publishes (g x) = c_publishes x) → same_publishes t t'.
Proof. intros Hu Hg q. rewrite (Hu q). by case_decide. Qed.

Lemma updated_publish t t' ns g f : updated (contentAt t) (contentAt t') ns g →
  (f.1 = ns → ∀ x, c_publishes (g x) !! f.2 = c_publishes x !! f.2) → publishAt t' f = publishAt t f.
Proof.
  intros Hu Hg. unfold publishAt. rewrite (Hu (rev f.1)). case_decide as Hr; [|done].
  apply Hg. by rewrite <-(rev_involutive f.1), Hr, rev_involutive.
Qed.

(** Subscriptions only come from [put_subscriber]. *)
Lemma updated_prefixes t t' ns g : updated (contentAt t) (contentAt t') ns g →
  (∀ x s i, c_subscribers (g x) !! s = Some i →
     c_subscribers x !! s = Some i ∨ trackNamespacePrefix i = ns) →
  prefixes_ok t → prefixes_ok t'.
Proof.
  intros Hu Hg Hp q s i. rewrite (Hu q). case_decide as Hq; [|apply Hp].
  intros [Hx|Hx]%Hg; [by eapply Hp|]. by rewrite Hq, rev_involutive.
Qed.

Lemma mk_inv r ts :
  wf (namespaceTree_ r) → noNullRanking (namespaceTree_ r) → inv (registry_ r) ts →
  entries_ok (registry_ r) (namespaceTree_ r) → prefixes_ok (namespaceTree_ r) →
  relay_inv (mkSys r ts).
Proof. intros. by constructor. Qed.

Lemma publishNamespace_inv ns s cb peer rid r ts :
  relay_inv (mkSys r ts) →
  ∃ r' es res, doPublishNamespace ns s cb peer rid r = Some (r', es, res) ∧ relay_inv (mkSys r' ts).
Proof.
  intros [Hwf Hnn Hi He Hpx]. cbn in *. unfold doPublishNamespace.
  destruct (negb _); [eexists _, _, _; split; [done|by apply mk_inv]|].
  destruct (setPublisher_refines (namespaceTree_ r) ns s cb peer rid Hwf Hnn)
    as (t'&res&->&Hwf'&Hnn'&Hspec&_). cbn [mbind option_bind].
  eexists _, _, _. split; [done|]. apply mk_inv; cbn; [done|done| | |].
  3:{ eapply updated_prefixes; [exact Hspec| |done]. cbn. auto. }
  - destruct (sp_replacedSession res); [by apply removeIf_inv|done].
  - apply (same_entries _ (namespaceTree_ r)); [by eapply updated_same|].
    destruct (sp_replacedSession res); [by apply removeIf_entries|done].
Qed.

Lemma publishNamespaceReply_inv s node reply r ts :
  relay_inv (mkSys r ts) → relay_inv (mkSys (publishNamespaceReply s node reply r) ts).
Proof.
  intros [Hwf Hnn Hi He Hpx]. cbn in *. destruct reply as [h|]; cbn; [|by apply mk_inv].
  destruct (step_refines (namespaceTree_ r) (AddHandle (rev node) s h) Hwf Hnn)
    as (t'&Ht'&Hwf'&Hnn'&Hspec). cbn in Ht'. rewrite rev_involutive in Ht'. injection Ht' as <-.
  apply mk_inv; cbn; [done|done|done| |].
  - apply (same_entries _ (namespaceTree_ r)); [|done].
    destruct Hspec as [Hu|Hu]; (eapply updated_same; [exact Hu|]); [done|].
    intros x. unfold c_putHandle. by destruct (c_handles x !! s).
  - destruct Hspec as [Hu|Hu]; (eapply updated_prefixes; [exact Hu| |done]); [by left|].
    intros x s' i. unfold c_putHandle. destruct (c_handles x !! s); by left.
Qed.

Lemma publishNamespaceDone_inv ns s r ts :
  relay_inv (mkSys r ts) →
  ∃ r' es, doPublishNamespaceDone draftVersion ns s r = Some (r', es) ∧ relay_inv (mkSys r' ts).
Proof.
  intros [Hwf Hnn Hi He Hpx]. cbn in *. unfold doPublishNamespaceDone.
  destruct (unpublishNamespace_refines (namespaceTree_ r) ns s Hwf Hnn) as (t'&res&->&Hwf'&Hnn'&Hspec).
  cbn [mbind option_bind].
  assert (relay_inv (mkSys (set_tree t' r) ts)) as Hinv.
  { apply mk_inv; cbn; [done|done|done| |].
    - apply (same_entries _ (namespaceTree_ r)); [|done].
      eapply updated_same; [exact Hspec|]. intros x. unfold c_unpublish. by case_decide.
    - eapply updated_prefixes; [exact Hspec| |done]. intros x s' i. unfold c_unpublish. case_decide; by left. }
  destruct res; eauto.
Qed.

Lemma publish_step_inv f s rid h extension now r ts :
  relay_inv (mkSys r ts) →
  ∃ r' es res, publish f s rid (Some h) extension now r = Some (r', es, res) ∧ relay_inv (mkSys r' ts).
Proof.
  intros [Hwf Hnn Hi He Hpx]. cbn in *. unfold publish. cbn [mbind option_bind].
  destruct (negb _); [eexists _, _, _; split; [done|by apply mk_inv]|].
  case_bool_decide as Hempty; [eexists _, _, _; split; [done|by apply mk_inv]|].
  destruct (addPublish_refines (namespaceTree_ r) f.1 f.2 s Hwf Hnn) as (t'&[[q subs] rks]&Hadd&Hwf'&Hnn'&Hspec).
  destruct (publish_entries (registry_ r) ts (namespaceTree_ r) t' f s rid h now
              (buildFilterChain f (Some s) r)
              (consumer (buildFilterChain f (Some s) r (nextForwarder (registry_ r)))) (nextFilter r) Hi He) as (st2&ev&Hc&Hi2&He2&Hs2&_&_).
  - intros f' Hne. eapply updated_publish; [exact Hspec|]. intros Hns x. cbn.
    apply lookup_insert_ne. intros ?. apply Hne. destruct f, f'. cbn in *. congruence.
  - unfold publishAt. rewrite (Hspec (rev f.1)), decide_True by done. cbn. apply lookup_insert_eq.
  - reflexivity.
  - rewrite Hc. cbn [mbind option_bind]. unfold getTopNView. rewrite Hs2. cbn [fmap option_fmap option_map].
    cbn [mbind option_bind]. rewrite Hadd. cbn [mbind option_bind].
    assert (prefixes_ok t') as Hpx' by (eapply updated_prefixes; [exact Hspec|cbn; auto|done]).
    destruct rks as [|rk rks]; cbn [mbind option_bind tvFilter];
      eexists _, _, _; (split; [done|by apply mk_inv]).
Qed.

Lemma publishDone_inv f publisher em r ts :
  relay_inv (mkSys r ts) →
  ∃ r', terminationPublishDone f publisher em r = Some r' ∧ relay_inv (mkSys r' ts).
Proof.
  intros [Hwf Hnn Hi He Hpx]. cbn in *. unfold terminationPublishDone, onPublishDone.
  destruct (unpublishTrack_refines (namespaceTree_ r) f.1 f.2 Hwf Hnn) as (t'&res&Hut&Hwf'&Hnn'&Hspec).
  assert (∀ f', f' ≠ f → publishAt t' f' = publishAt (namespaceTree_ r) f') as Ht'.
  { intros f' Hne. eapply updated_publish; [exact Hspec|]. intros Hns x. cbn.
    apply lookup_delete_ne. intros ?. apply Hne. destruct f, f'. cbn in *. congruence. }
  unfold getUpstreamView. destruct (subscriptions_ (registry_ r) !! f) as [e|] eqn:Hs;
    cbn [fmap option_fmap option_map]; [destruct (uvIsPublish _)|].
  - rewrite Hut. cbn [fmap option_fmap option_map mbind option_bind]. eexists. split; [done|].
    apply mk_inv; cbn; [done|done|by apply terminated_inv|by eapply terminated_entries|].
    eapply updated_prefixes; [exact Hspec|cbn; auto|done].
  - cbn [mbind option_bind]. eexists. split; [done|].
    apply mk_inv; cbn; [done|done|by apply terminated_inv|by eapply terminated_entries|done].
  - cbn [mbind option_bind]. eexists. split; [done|].
    apply mk_inv; cbn; [done|done|by apply terminated_inv|by eapply terminated_entries|done].
Qed.

Lemma addNamespaceSubscriber_node t ns s i t' q :
  wf t → noNullRanking t → addNamespaceSubscriber t ns s i = Some (t', q) → q = rev ns.
Proof.
  intros Hwf Hnn. unfold addNamespaceSubscriber.
  destruct (findNode_create t ns Exact Hwf Hnn) as (t1&->&_). destruct (guarded _ _ _); [|done].
  by intros [= _ <-].
Qed.

(** A ranking is created with the store that [getOrInsertRanking] hands out. *)
Lemma getOrCreateRanking_inv ns ty r ts :
  relay_inv (mkSys r ts) →
  relay_inv (mkSys (getOrCreateRanking std_sort forwarderExtension (rev ns) ty r).1.1 ts).
Proof.
  intros [Hwf Hnn Hi He Hpx]. cbn in *. unfold getOrCreateRanking, getOrInsertRanking.
  assert (∀ t0, (t0 = namespaceTree_ r ∨ ∃ x, t0 = setRanking (namespaceTree_ r) (rev ns) ty x) →
    setRanking t0 (rev ns) ty (Some (nextRanking r)) =
    setRanking (namespaceTree_ r) (rev ns) ty (Some (nextRanking r))) as Hset.
  { intros t0 [->|[x ->]]; [done|]. unfold setRanking.
    apply map_eq. intros q. destruct (decide (q = rev ns)) as [->|]; [|by rewrite !lookup_alter_ne].
    rewrite !lookup_alter_eq. destruct (namespaceTree_ r !! rev ns); [|done]. cbn. f_equal.
    unfold set_rankings. cbn. rewrite insert_insert_eq. done. }
  assert (∀ t0, (t0 = namespaceTree_ r ∨ ∃ x, t0 = setRanking (namespaceTree_ r) (rev ns) ty x) →
    relay_inv (mkSys (bump_ranking (set_tree (setRanking t0 (rev ns) ty (Some (nextRanking r))) r)) ts)) as Hnew.
  { intros t0 Ht0. rewrite (Hset t0 Ht0).
    destruct (step_refines (namespaceTree_ r) (SetRanking ns ty (nextRanking r)) Hwf Hnn)
      as (t'&Ht'&Hwf'&Hnn'&Hspec). cbn in Ht'. injection Ht' as <-.
    apply mk_inv; cbn; [done|done|done| |].
    - apply (same_entries _ (namespaceTree_ r)); [|done]. by eapply updated_same.
    - eapply updated_prefixes; [exact Hspec|by left|done]. }
  destruct (namespaceTree_ r !! rev ns) as [n|] eqn:Hn; [|cbn; by apply Hnew; left].
  destruct (rankings_ n !! ty) as [[rk|]|] eqn:Hr; cbn.
  - by apply mk_inv.
  - exfalso. by eapply Hnn.
  - apply Hnew. right. eauto.
Qed.

Lemma visitNode_defined s version nsHandle peer sub r q :
  (16 <= version → is_Some nsHandle) → ∃ es, visitNode s version nsHandle peer sub r q = Some es.
Proof.
  intros Hv. unfold visitNode. destruct (namespaceTree_ r !! q) as [n|]; [|eauto].
  match goal with |- context [mbind _ ?o] => assert (∃ x, o = Some x) as [x ->] end.
  { destruct (negb _); [eauto|]. destruct (Z.leb_spec 16 version); [|eauto].
    destruct (wantsNamespaces _); [|eauto]. destruct Hv as [h ->]; [done|]. cbn. eauto. }
  cbn. eauto.
Qed.

Lemma visitNodes_defined visit qs :
  (∀ q, ∃ es, visit q = Some es) → ∃ es, visitNodes visit qs = Some es.
Proof.
  intros Hv. induction qs as [|q qs [es' IH]]; cbn; [eauto|]. destruct (Hv q) as [es ->]. cbn.
  rewrite IH. cbn. eauto.
Qed.

Lemma subscribeNamespace_inv s version nsHandle reciprocal sub r ts :
  (16 <= version → is_Some nsHandle) → relay_inv (mkSys r ts) →
  ∃ r' es res, subscribeNamespace std_sort forwarderExtension s (Some version) nsHandle reciprocal sub r =
    Some (r', es, res) ∧ relay_inv (mkSys r' ts).
Proof.
  intros Hv Hinv. unfold subscribeNamespace. cbv zeta.
  set (r0 := match reciprocal with Some (p, Some h) => _ | _ => r end).
  assert (relay_inv (mkSys r0 ts)) as Hinv0.
  { unfold r0. destruct Hinv as [? ? ? ? ?].
    destruct reciprocal as [[p [h|]]|]; [destruct (peerSubNsHandles_ r !! s)| |]; by apply mk_inv. }
  clearbody r0. cbn [mbind option_bind]. destruct (_ && _); [eexists _, _, _; by split|].
  destruct Hinv0 as [Hwf Hnn Hi He Hpx]. cbn in *.
  set (info := mkInfo _ _ _ _ _).
  destruct (addNamespaceSubscriber_refines (namespaceTree_ r0) (sn_prefix sub) s info Hwf Hnn)
    as (t'&q&Hadd&Hwf'&Hnn'&Hspec).
  pose proof (addNamespaceSubscriber_node _ _ _ _ _ _ Hwf Hnn Hadd) as ->. rewrite Hadd.
  cbn [mbind option_bind].
  assert (relay_inv (mkSys (set_tree t' r0) ts)) as Hinv1.
  { apply mk_inv; cbn; [done|done|done| |].
    - apply (same_entries _ (namespaceTree_ r0)); [|done]. eapply updated_same; [exact Hspec|].
      intros x. unfold c_putSubscriber. by destruct (c_subscribers x !! s).
    - eapply updated_prefixes; [exact Hspec| |done]. intros x s' i. unfold c_putSubscriber.
      destruct (c_subscribers x !! s); [by left|]. cbn. rewrite lookup_insert_Some.
      intros [[_ <-]|[_ ?]]; [by right|by left]. }
  destruct (sn_filter sub) as [flt|].
  - pose proof (getOrCreateRanking_inv (sn_prefix sub) (propertyType flt) _ _ Hinv1) as Hinv2.
    destruct (getOrCreateRanking _ _ _ _ _) as [[r2 rk] es]. cbn in Hinv2.
    match goal with |- context [visitNodes ?v ?qs] => destruct (visitNodes_defined v qs) as [es' ->] end;
      [intros q; by apply visitNode_defined|]. cbn. eauto.
  - match goal with |- context [visitNodes ?v ?qs] => destruct (visitNodes_defined v qs) as [es' ->] end;
      [intros q; by apply visitNode_defined|]. cbn. eauto.
Qed.

Lemma unsubscribeNamespace_inv prefix s r ts :
  relay_inv (mkSys r ts) →
  ∃ r' es, unsubscribeNamespace prefix s r = Some (r', es) ∧ relay_inv (mkSys r' ts).
Proof.
  intros [Hwf Hnn Hi He Hpx]. cbn in *. unfold unsubscribeNamespace. cbn [namespaceTree_ set_peers].
  destruct (removeNamespaceSubscriber_refines (namespaceTree_ r) prefix s Hwf Hnn)
    as (t'&res&->&Hwf'&Hnn'&Hspec). cbn [mbind option_bind].
  eexists _, _. split; [done|]. apply mk_inv; cbn; [done|done|done| |].
  - apply (same_entries _ (namespaceTree_ r)); [|done]. by eapply updated_same.
  - eapply updated_prefixes; [exact Hspec| |done]. intros x s' i. cbn.
    rewrite lookup_delete_Some. naive_solver.
Qed.

Lemma destroy_ok st ts t tok :
  inv st ts → entries_ok st t → tok ∈ ts →
  ∃ st', failAndRemove tok st = Some st' ∧ inv st' (dropToken tok ts) ∧ entries_ok st' t.
Proof.
  intros Hi He Hin. destruct (destroy_inv st ts tok Hi Hin) as (st'&Hd&Hi').
  exists st'. split_and!; [done|done|exact (destroy_entries _ _ _ _ _ Hi He Hin Hd)].
Qed.

Lemma dropToken_head (tok : RelayToken) ts : tok ∉ ts → dropToken tok (tok :: ts) = ts.
Proof.
  intros Hn. unfold dropToken. rewrite filter_cons. rewrite decide_False by tauto.
  induction ts as [|t' ts IH]; [done|]. rewrite not_elem_of_cons in Hn. destruct Hn as [Hne Hn].
  rewrite filter_cons, decide_True by congruence. f_equal. by apply IH.
Qed.

Lemma subscribe_step_inv f s added now r ts :
  relay_inv (mkSys r ts) →
  ∃ r' es state, subscribeProceed f s added now r = Some (r', es, state) ∧
    relay_inv (mkSys r' (match state with Subscribing tok _ => tok :: ts | _ => ts end)).
Proof.
  intros [Hwf Hnn Hi He Hpx]. cbn in *. unfold subscribeProceed.
  pose proof (subscribe_inv (registry_ r) ts f now (buildFilterChain f None r) Hi) as Hi1.
  pose proof (subscribe_entries (registry_ r) ts (namespaceTree_ r) f now (buildFilterChain f None r) Hi He) as He1.
  assert (match (getOrCreateFromSubscribe f now (buildFilterChain f None r) (registry_ r)).2 with
          | FirstSubscriber _ _ tok => tok ∉ ts | _ => True end) as Hfresh.
  { unfold getOrCreateFromSubscribe. destruct (subscriptions_ _ !! f); cbn; [done|].
    intros Hin. destruct (inv_token _ _ Hi _ Hin) as [Hlt _]. cbn in Hlt. lia. }
  destruct (getOrCreateFromSubscribe _ _ _ _) as [st res]. cbn in *.
  destruct res as [fwd c tok|promise]; [|eexists _, _, _; split; [done|by apply mk_inv]].
  assert (∃ st', failAndRemove tok st = Some st' ∧ inv st' ts ∧ entries_ok st' (namespaceTree_ r)) as (st'&Hd&Hi2&He2).
  { destruct (destroy_ok st (tok :: ts) (namespaceTree_ r) tok Hi1 He1) as (st'&Hd&Hi2&He2); [by left|].
    rewrite dropToken_head in Hi2 by done. eauto. }
  destruct (findPublisherSession _ _) as [u|].
  - destruct added; cbn [negb].
    + eexists _, _, _. split; [done|]. by apply mk_inv.
    + rewrite Hd. cbn [mbind option_bind]. eexists _, _, _. split; [done|]. by apply mk_inv.
  - rewrite Hd. cbn [mbind option_bind]. eexists _, _, _. split; [done|]. by apply mk_inv.
Qed.

Lemma reply_inv tok u reply r ts :
  relay_inv (mkSys r ts) → tok ∈ ts →
  ∃ r' state, subscribeReply tok u reply r = Some (r', state) ∧ relay_inv (mkSys r' (dropToken tok ts)).
Proof.
  intros [Hwf Hnn Hi He Hpx] Hin. cbn in *. unfold subscribeReply. destruct reply as [code|[h rid]].
  - destruct (destroy_ok _ _ _ _ Hi He Hin) as (st'&->&?&?). cbn [mbind option_bind].
    eexists _, _. split; [done|]. by apply mk_inv.
  - destruct (complete_inv _ _ tok (Some h) rid (Some u) Hi Hin) as (st'&b&Hc&Hi').
    pose proof (complete_entries _ _ _ _ _ _ _ _ _ Hi He Hin Hc) as He'. rewrite Hc.
    cbn [mbind option_bind]. eexists _, _. split; [done|]. by apply mk_inv.
Qed.

(** The upstream of an entry with a handle is set, so its executor exists. *)
Lemma handle_upstream r ts f v h :
  relay_inv (mkSys r ts) → getUpstreamView f (registry_ r) = Some v → uvHandle v = Some h →
  ∃ u, uvUpstream v = Some u.
Proof.
  intros Hinv. unfold getUpstreamView. rewrite fmap_Some. intros (e&Hs&->) Hh. cbn in *.
  destruct (ri_entries _ Hinv f e Hs) as [Hu _ _]. apply Hu. eauto.
Qed.

Lemma empty_inv f r ts :
  relay_inv (mkSys r ts) → ∃ r' es, onEmpty f r = Some (r', es) ∧ relay_inv (mkSys r' ts).
Proof.
  intros Hinv. assert (relay_inv (mkSys (set_registry (remove f (registry_ r)) r) ts)) as Hrm.
  { destruct Hinv as [Hwf Hnn Hi He Hpx]. cbn in *. apply mk_inv; cbn; [done|done|by apply eraseSub_inv|by apply erase_entries|done]. }
  unfold onEmpty. destruct (getUpstreamView f (registry_ r)) as [v|] eqn:Hv; [|eauto].
  destruct (uvHandle v) as [h|] eqn:Hh; [|eauto]. destruct (uvIsPublish v); [|eauto].
  destruct (handle_upstream r ts f v h Hinv Hv Hh) as [u ->]. cbn. eauto.
Qed.

Lemma relayStep_inv op sys :
  relay_inv sys → admissible op → ∃ sys', relayStep op sys = Some sys' ∧ relay_inv sys'.
Proof.
  destruct sys as [r ts]. intros Hinv Hadm.
  destruct op as [ns s cb peer rid|s q reply|ns s|f s rid h ext now|f pub em|s v nh rec sub|pre s
    |f s added now|tok u reply|tok|f|f fw|f g|reply|]; cbn [relayStep relay inFlight admissible] in *.
  - destruct (publishNamespace_inv ns s cb peer rid r ts Hinv) as (r'&es&res&->&?). cbn. eauto.
  - eauto using publishNamespaceReply_inv.
  - destruct (publishNamespaceDone_inv ns s r ts Hinv) as (r'&es&->&?). cbn. eauto.
  - destruct (publish_step_inv f s rid h ext now r ts Hinv) as (r'&es&res&->&?). cbn. eauto.
  - destruct (publishDone_inv f pub em r ts Hinv) as (r'&->&?). cbn. eauto.
  - destruct (subscribeNamespace_inv s v nh rec sub r ts Hadm Hinv) as (r'&es&res&->&?). cbn. eauto.
  - destruct (unsubscribeNamespace_inv pre s r ts Hinv) as (r'&es&->&?). cbn. eauto.
  - destruct (subscribe_step_inv f s added now r ts Hinv) as (r'&es&state&->&?). cbn. eauto.
  - case_bool_decide as Hin; [|eauto].
    destruct (reply_inv tok u reply r ts Hinv Hin) as (r'&state&->&?). cbn. eauto.
  - case_bool_decide as Hin; [|eauto]. destruct Hinv as [Hwf Hnn Hi He Hpx]. cbn in *.
    destruct (destroy_ok _ _ _ _ Hi He Hin) as (st'&->&?&?). cbn. eexists. split; [done|]. by apply mk_inv.
  - destruct (empty_inv f r ts Hinv) as (r'&es&->&?). cbn. eauto.
  - unfold forwardChanged. destruct (getUpstreamView f (registry_ r)) as [v|] eqn:Hv; [|cbn; eauto].
    destruct (negb _); [cbn; eauto|]. destruct (uvHandle v) as [h|] eqn:Hh; [|cbn; eauto].
    destruct (handle_upstream r ts f v h Hinv Hv Hh) as [u ->]. cbn. eauto.
  - unfold newGroupRequested. destruct (getUpstreamView f (registry_ r)) as [v|] eqn:Hv; [|cbn; eauto].
    destruct (uvHandle v) as [h|] eqn:Hh; [|cbn; eauto].
    destruct (handle_upstream r ts f v h Hinv Hv Hh) as [u ->]. cbn. eauto.
  - destruct Hinv. destruct reply; cbn; eexists; (split; [done|]); by apply mk_inv.
  - destruct Hinv. eexists. split; [done|]. by apply mk_inv.
Qed.

Definition start (allowed : TrackNamespace) (relayID : string) (cache up : bool) : RelaySystem :=
  mkSys (newRelay allowed relayID cache up) [].

Lemma start_inv allowed relayID cache up : relay_inv (start allowed relayID cache up).
Proof.
  destruct (emptyTree_wf (Session:=Z) (NsHandle:=Z) (PubHandle:=Z) (PubCallback:=Z) (Ranking:=Z)) as [Hwf Hnn].
  apply mk_inv; cbn; [done|done|apply newRegistry_inv| |].
  - intros f e. cbn. by rewrite lookup_empty.
  - intros q s i. unfold contentAt, emptyTree. destruct (decide (q = [])) as [->|].
    + rewrite lookup_singleton_eq. cbn. by rewrite lookup_empty.
    + rewrite lookup_singleton_ne by done. cbn. by rewrite lookup_empty.
Qed.

Lemma relayRun_inv ops sys :
  relay_inv sys → Forall admissible ops → ∃ sys', relayRun ops sys = Some sys' ∧ relay_inv sys'.
Proof.
  intros Hinv Hops. revert sys Hinv. induction Hops as [|op ops Hop Hops IH]; intros sys Hinv; cbn [relayRun]; [eauto|].
  destruct (relayStep_inv op sys Hinv Hop) as (sys1&->&Hinv1). cbn [mbind option_bind]. by apply IH.
Qed.

(** C3: In any sequence of requests, answers and callbacks (a draft-16 session
    subscribes with a NAMESPACE handle) no handler of the relay fails an
    [XCHECK], resolves a promise twice, reads an entry that is gone or uses
    the executor of an upstream that is not there. *)
Theorem relay_never_stuck allowed relayID cache up ops :
  Forall admissible ops → ∃ sys, relayRun ops (start allowed relayID cache up) = Some sys.
Proof.
  intros Hops. destruct (relayRun_inv ops _ (start_inv allowed relayID cache up) Hops) as (sys&?&_). eauto.
Qed.

Lemma reachable_inv allowed relayID cache up ops sys :
  Forall admissible ops → relayRun ops (start allowed relayID cache up) = Some sys → relay_inv sys.
Proof.
  intros Hops Hrun. destruct (relayRun_inv ops _ (start_inv allowed relayID cache up) Hops) as (sys'&?&?).
  congruence.
Qed.

Lemma findPublishState_listed r f s :
  wf (namespaceTree_ r) → publishAt (namespaceTree_ r) f = Some s → findPublishState f r = (true, Some s).
Proof.
  intros Hwf. unfold publishAt, findPublishState.
  destruct (exact_cases (namespaceTree_ r) f.1 Hwf) as [[-> Hc]|(n&Hn&->)].
  - rewrite Hc. cbn. by rewrite lookup_empty.
  - unfold contentAt. rewrite Hn. cbn. by intros ->.
Qed.

(** C27: Whatever happened before, a track whose publisher is connected (its
    registry entry is a publish with a handle) is listed in the namespace tree
    under the session that publishes it, so that later namespace subscribers
    find it. *)
Theorem live_publish_listed allowed relayID cache up ops sys f e :
  Forall admissible ops → relayRun ops (start allowed relayID cache up) = Some sys →
  subscriptions_ (registry_ (relay sys)) !! f = Some e → isPublish e = true → is_Some (handle e) →
  ∃ s, upstream e = Some s ∧ findPublishState f (relay sys) = (true, Some s).
Proof.
  intros Hops Hrun Hs Hp Hh. pose proof (reachable_inv _ _ _ _ _ _ Hops Hrun) as Hinv.
  destruct (ri_entries _ Hinv f e Hs) as [Hu _ Hl]. destruct (Hu Hh) as [s Hus].
  exists s. split; [done|]. apply findPublishState_listed; [apply Hinv|]. by rewrite Hl.
Qed.

(** *** Who is told about a publish *)

Lemma addPublish_subscribers t ns tn s t' q subs rks :
  wf t → noNullRanking t → addPublish t ns tn s = Some (t', (q, subs, rks)) →
  ∀ sub i, (sub, i) ∈ subs ↔ ∃ a b, ns = a ++ b ∧ c_subscribers (contentAt t (rev a)) !! sub = Some i.
Proof.
  intros Hwf Hnn. unfold addPublish.
  destruct (findNode_create t ns Exact Hwf Hnn) as (t1&->&_&_&_&_&_&Hct).
  destruct (guarded _ _ _); [|done]. intros [= _ _ <- _] sub i.
  rewrite <-elem_path_subscribers, flat_map_app. cbn [flat_map]. rewrite app_nil_r.
  rewrite (subscribersAt_content t t1 (rev ns)); [done|by rewrite Hct].
Qed.

(** The namespace subscription of [out] on a prefix of [ns]. *)
Definition subscribedAbove t (ns : TrackNamespace) (out : Session) (i : SubscriberInfo) : Prop :=
  ∃ a b, ns = a ++ b ∧ c_subscribers (contentAt t (rev a)) !! out = Some i.

Lemma isDirect_true s out i :
  isDirect s (out, i) = true ↔ trackFilter i = None ∧ out ≠ s ∧ wantsPublishes (options i) = true.
Proof.
  unfold isDirect. cbn. destruct (trackFilter i); [naive_solver|].
  rewrite andb_true_iff, negb_true_iff, Z.eqb_neq. naive_solver.
Qed.

Lemma onRanking_no_publish f s flt extension rks out fwd fw tf :
  StartPublish out fwd fw tf ∉ mjoin (onRanking f s flt extension <$> rks).
Proof.
  intros (es&Hin&([ty rk]&->&_)%list_elem_of_fmap)%list_elem_of_join.
  cbn in Hin. rewrite !elem_of_cons, elem_of_nil in Hin. naive_solver.
Qed.

Lemma length_pos_elem {A} (l : list A) : (0 < length l)%nat ↔ ∃ x, x ∈ l.
Proof.
  destruct l as [|x l]; cbn; split; intros Hl; [lia|by destruct Hl as [? ?%elem_of_nil]|exists x; by left|lia].
Qed.

(** C25: In any reachable state, an accepted publish is offered to exactly the other
    sessions that subscribed to the track's namespace or a prefix of it for
    publishes and without a track filter, with the forward flag of their
    subscription; and the publisher is told to forward exactly when there is
    such a session or one with a track filter. *)
Theorem publish_notifies allowed relayID cache up ops sys f s rid h extension now r' es reply :
  Forall admissible ops → relayRun ops (start allowed relayID cache up) = Some sys →
  publish f s rid (Some h) extension now (relay sys) = Some (r', es, value reply) →
  let t := namespaceTree_ (relay sys) in
  let fwd := nextForwarder (registry_ (relay sys)) in
  (∀ out fwd' fw flt, StartPublish out fwd' fw flt ∈ es ↔ fwd' = fwd ∧ flt = false ∧
     ∃ i, subscribedAbove t f.1 out i ∧ trackFilter i = None ∧ out ≠ s ∧
       wantsPublishes (options i) = true ∧ fw = forward i) ∧
  (pr_forward reply = true ↔ ∃ out i, subscribedAbove t f.1 out i ∧
     (is_Some (trackFilter i) ∨ out ≠ s ∧ wantsPublishes (options i) = true)).
Proof.
  intros Hops Hrun Hpub t fwd. pose proof (reachable_inv _ _ _ _ _ _ Hops Hrun) as [Hwf Hnn _ _ _].
  unfold publish in Hpub. cbn [mbind option_bind] in Hpub. destruct (negb _); [done|].
  case_bool_decide; [done|].
  destruct (createFromPublish _ _ _ _ _ _ _ _) as [[[st2 c] ev]|]; cbn [mbind option_bind] in Hpub; [|done].
  destruct (getTopNView _ _) as [view|]; cbn [mbind option_bind] in Hpub; [|done].
  destruct (addPublish _ _ _ _) as [[t' [[q subs] rks]]|] eqn:Hadd; cbn [mbind option_bind] in Hpub; [|done].
  pose proof (addPublish_subscribers _ _ _ _ _ _ _ _ Hwf Hnn Hadd) as Hsubs.
  match type of Hpub with context [mbind _ ?o] => destruct o as [res|] eqn:Hrk end;
    cbn [mbind option_bind] in Hpub; [|done].
  injection Hpub as _ <- <-. cbn [pr_forward]. split.
  - intros out fwd' fw flt. rewrite !elem_of_app. split.
    + intros [Hin|[Hin|Hin]].
      * exfalso. destruct ev as [[? [?|]]|]; cbn in Hin; set_solver.
      * exfalso. destruct rks as [|rk rks]; [injection Hrk as <-; by apply elem_of_nil in Hin|].
        destruct (tvFilter view); cbn [mbind option_bind] in Hrk; [|done]. injection Hrk as <-.
        exact (onRanking_no_publish _ _ _ _ (rk :: rks) _ _ _ _ Hin).
      * apply list_elem_of_fmap in Hin as ([o i]&[= -> -> -> ->]&[Hd Hin]%list_elem_of_filter).
        apply isDirect_true in Hd as (?&?&?). split_and!; [done|done|]. exists i. by rewrite Hsubs in Hin.
    + intros (->&->&i&Hab&?&?&?&->). right; right. apply list_elem_of_fmap. exists (out, i).
      split; [done|]. apply list_elem_of_filter. split; [by apply isDirect_true|by apply Hsubs].
  - rewrite orb_true_iff, Nat.ltb_lt, length_pos_elem, existsb_exists. split.
    + intros [([o i]&[Hd Hin]%list_elem_of_filter)|([o i]&Hin&Hd)].
      * apply isDirect_true in Hd as (?&?&?). exists o, i. rewrite Hsubs in Hin. auto.
      * rewrite <-list_elem_of_In, Hsubs in Hin. exists o, i. unfold hasTrackFilter in Hd. cbn in Hd.
        destruct (trackFilter i); [|done]. eauto.
    + intros (o&i&Hab%Hsubs&Hd). destruct (trackFilter i) as [tf|] eqn:Htf.
      * right. exists (o, i). rewrite <-list_elem_of_In. unfold hasTrackFilter. cbn. by rewrite Htf.
      * left. exists (o, i). apply list_elem_of_filter. split; [|done]. apply isDirect_true.
        destruct Hd as [[? ?]|[? ?]]; done.
Qed.

(** *** Announcements *)

Lemma elem_announceTo ns s q out i h suffix :
  NamespaceMsg h suffix ∈ announceTo ns s q (out, i) ↔
  out ≠ s ∧ wantsNamespaces (options i) = true ∧ namespacePublishHandle i = Some h ∧
  suffix = suffixOf i ns.
Proof.
  unfold announceTo. destruct (Z.eqb_spec out s) as [->|Hne]; cbn [negb andb].
  { rewrite elem_of_nil. naive_solver. }
  destruct (wantsNamespaces (options i)); [|rewrite elem_of_nil; naive_solver].
  destruct (namespacePublishHandle i) as [h'|]; rewrite list_elem_of_singleton; naive_solver.
Qed.

(** C26: In any reachable state, an announcement under the allowed prefix is sent
    to exactly the NAMESPACE handles of the other sessions that subscribed to
    a prefix of the namespace for announcements, with what follows their
    prefix as the suffix; an announcement outside the allowed prefix is
    refused and changes nothing. *)
Theorem announce_exact allowed relayID cache up ops sys ns s cb peer rid :
  Forall admissible ops → relayRun ops (start allowed relayID cache up) = Some sys →
  ∃ r' es res, doPublishNamespace ns s cb peer rid (relay sys) = Some (r', es, res) ∧
    (allowedNamespacePrefix_ (relay sys) `prefix_of` ns → res = Some (rev ns) ∧
       ∀ h suffix, NamespaceMsg h suffix ∈ es ↔
         ∃ prefix out i, ns = prefix ++ suffix ∧ out ≠ s ∧
           c_subscribers (contentAt (namespaceTree_ (relay sys)) (rev prefix)) !! out = Some i ∧
           wantsNamespaces (options i) = true ∧ namespacePublishHandle i = Some h) ∧
    (¬ allowedNamespacePrefix_ (relay sys) `prefix_of` ns → r' = relay sys ∧ es = [] ∧ res = None).
Proof.
  intros Hops Hrun. pose proof (reachable_inv _ _ _ _ _ _ Hops Hrun) as [Hwf Hnn _ _ Hpx].
  unfold doPublishNamespace, startsWithNs. case_bool_decide as Hallowed; cbn [negb].
  2:{ eexists _, _, _. split; [done|]. split; [done|]. done. }
  destruct (setPublisher_refines (namespaceTree_ (relay sys)) ns s cb peer rid Hwf Hnn)
    as (t'&res&->&_&_&_&Hnode&Hsubs&_). cbn [mbind option_bind].
  eexists _, _, _. split; [done|]. split; [|done]. intros _. split; [by rewrite Hnode|].
  intros h suffix. rewrite elem_of_app, list_elem_of_join. setoid_rewrite list_elem_of_fmap. split.
  - intros [Hin|(l&Hin&[out i]&->&Hel)].
    { destruct (sp_cancelled res); cbn in Hin; [|by apply elem_of_nil in Hin].
      by apply list_elem_of_singleton in Hin. }
    apply elem_announceTo in Hin as (?&?&?&->). rewrite Hsubs, elem_path_subscribers in Hel.
    destruct Hel as (a&b&->&Hi). exists a, out, i. split_and!; try done. unfold suffixOf.
    by rewrite (Hpx _ _ _ Hi), rev_involutive, drop_app_length.
  - intros (a&out&i&->&?&Hi&?&?). right. eexists. split; [|exists (out, i); split; [done|]].
    + apply elem_announceTo. split_and!; try done. unfold suffixOf.
      by rewrite (Hpx _ _ _ Hi), rev_involutive, drop_app_length.
    + rewrite Hsubs, elem_path_subscribers. eauto.
Qed.

(** *** Subscribing to an announced track *)

Lemma findPublisherSession_exact t ns :
  wf t → is_Some (t !! rev ns) → findPublisherSession t ns = c_publisher (contentAt t (rev ns)).
Proof.
  intros Hwf Hs. unfold findPublisherSession, findNode.
  pose proof (findNodeFrom_prefix t [] ns [] [] (wf_closed _ Hwf)) as Hf. rewrite !app_nil_r in Hf.
  specialize (Hf Hs (or_introl eq_refl)).
  destruct (findNodeFrom t [] ns false Prefix []) as [[t' o] subs]. cbn in Hf. subst o.
  destruct Hs as [n Hn]. unfold contentAt. by rewrite Hn.
Qed.

(** The chain objects of a subscribed track run through. *)
Definition subscribeChain (r : MoqxRelay) (f : FullTrackName) (fwd : Z) : TrackConsumer :=
  consumer (buildFilterChain f None r fwd).

(** C24: In any reachable state, once a session has announced a namespace, the
    first subscribe for one of its tracks is sent to that session with a new
    forwarder behind the filter chain; when it accepts, the entry is ready
    with that session as upstream, and every later subscriber joins the same
    forwarder without a second upstream subscribe. *)
Theorem subscribe_reaches_publisher allowed relayID cache up ops sys ns tn s cb peer rid r' es node
    sub now h rid' :
  Forall admissible ops → relayRun ops (start allowed relayID cache up) = Some sys →
  doPublishNamespace ns s cb peer rid (relay sys) = Some (r', es, Some node) →
  subscriptions_ (registry_ r') !! (ns, tn) = None →
  let fwd := nextForwarder (registry_ r') in
  ∃ r1 tok, subscribeProceed (ns, tn) sub true now r' =
      Some (r1, [AddSubscriber fwd sub; UpstreamSubscribe s (ns, tn) (subscribeChain r' (ns, tn) fwd)],
            Subscribing tok s) ∧
    ∃ r2, subscribeReply tok s (inr (h, rid')) r1 = Some (r2, Subscribed fwd) ∧
      getUpstreamView (ns, tn) (registry_ r2) = Some (mkUpstreamView fwd (Some s) (Some h) rid' false true) ∧
      ∀ sub' now' added, ∃ promise,
        subscribeProceed (ns, tn) sub' added now' r2 = Some (r2, [], WaitingFor promise) ∧
        subscribeResume (ns, tn) promise (λ _, false) (λ _, true) sub' r2 =
          Some (Some ([AddSubscriber fwd sub'], Subscribed fwd)).
Proof.
  intros Hops Hrun Hann Hnone fwd. pose proof (reachable_inv _ _ _ _ _ _ Hops Hrun) as [Hwf Hnn _ _ _].
  unfold doPublishNamespace in Hann. destruct (negb _); [done|].
  destruct (setPublisher_refines (namespaceTree_ (relay sys)) ns s cb peer rid Hwf Hnn)
    as (t'&res&Hset&Hwf'&_&Hspec&_). rewrite Hset in Hann. cbn [mbind option_bind] in Hann.
  injection Hann as Hr' _ _.
  assert (findPublisherSession (namespaceTree_ r') ns = Some s) as Hfind.
  { rewrite <-Hr'. cbn. assert (c_publisher (contentAt t' (rev ns)) = Some s) as Hc.
    { rewrite (Hspec (rev ns)), decide_True by done. done. }
    rewrite findPublisherSession_exact; [done|done|]. unfold contentAt in Hc.
    destruct (t' !! rev ns); [eauto|done]. }
  clear Hr'. unfold subscribeProceed at 1, getOrCreateFromSubscribe. rewrite Hnone. cbn -[buildFilterChain].
  rewrite Hfind. cbn [negb]. eexists _, _. split; [done|].
  unfold subscribeReply, completeSubscription. cbn -[buildFilterChain]. rewrite alter_insert_eq.
  cbn -[buildFilterChain]. rewrite lookup_insert_eq. cbn -[buildFilterChain].
  rewrite bool_decide_eq_false_2 by (intros Hne; by apply Hne). unfold resolve. cbn -[buildFilterChain].
  rewrite lookup_insert_eq. cbn -[buildFilterChain]. eexists. split; [done|].
  unfold getUpstreamView, isFulfilled. cbn -[buildFilterChain]. rewrite lookup_insert_eq. cbn -[buildFilterChain].
  rewrite lookup_insert_eq. split; [done|]. intros sub' now' added.
  unfold subscribeProceed, getOrCreateFromSubscribe. cbn -[buildFilterChain]. rewrite lookup_insert_eq.
  eexists. split; [done|]. unfold subscribeResume, awaitSubsequent. cbn -[buildFilterChain].
  rewrite lookup_insert_eq. cbn -[buildFilterChain]. rewrite lookup_insert_eq. done.
Qed.

End System.
