(* ===== verification/RelayExamples.v ===== *)
(** * Concrete runs of the relay

    Witnesses for the theorems of [RelaySystem] and [NamespaceWalk], and runs
    in which a publisher that was replaced still acts on its successor. *)

From S2P Require Import Prelude NamespaceTree NamespaceWalk.
From S2P Require Import SubscriptionRegistry.
From S2P Require Import Relay RelaySystem.

#[local] Open Scope string_scope.
#[local] Open Scope Z_scope.

Module RelayExamples.

Definition keepOrder (l : list (FullTrackName * Session * option Z * Z)) := l.
Definition noExtension (fwd ty : Z) : option Z := None.
Definition draft16 (s : Session) : option Z := Some 16.

Definition noSystem : RelaySystem := start [] "" false false.
Definition runRelay (ops : list RelayOp) : option RelaySystem :=
  relayRun keepOrder noExtension draft16 ops (start ["a"] "id" true false).
Definition after (ops : list RelayOp) : RelaySystem := default noSystem (runRelay ops).

Definition track : FullTrackName := (["a"; "b"], "t").
Definition everything : SubscribeNamespace := mkSubNs ["a"] BOTH true None.
Definition ranked : SubscribeNamespace := mkSubNs ["a"] PUBLISH true (Some (mkTrackFilter 7 3)).

(** Session 9 subscribes to [a] for all, session 8 for the top 3. *)
Definition watchers : list RelayOp :=
  [RSubscribeNamespace 9 16 (Some 90) None everything;
   RSubscribeNamespace 8 16 (Some 80) None ranked].

Definition publishBy (s h : Z) : RelayOp := RPublish track s 1 h (λ _, None) 5.

Lemma watchers_admissible : Forall admissible watchers.
Proof. repeat constructor; cbn; eauto. Qed.

Lemma publishBy_admissible s h : Forall admissible (watchers ++ [publishBy s h])%list.
Proof. apply Forall_app. split; [apply watchers_admissible|by repeat constructor]. Qed.

Lemma relay_never_stuck_witness :
  ∃ sys, runRelay (watchers ++ [publishBy 1 10; publishBy 2 20]) = Some sys.
Proof.
  apply (relay_never_stuck keepOrder noExtension draft16 ["a"] "id" true false).
  apply Forall_app. split; [apply watchers_admissible|by repeat constructor].
Defined.

Lemma live_publish_listed_witness :
  ∃ s, Some 1 = Some s ∧ findPublishState track (relay (after (watchers ++ [publishBy 1 10]))) = (true, Some s).
Proof.
  apply (live_publish_listed keepOrder noExtension draft16 ["a"] "id" true false (watchers ++ [publishBy 1 10])
           (after (watchers ++ [publishBy 1 10])) track
           (mkSub 0 0 (Some 1) 1 (Some 10) true (Some 0) 5) (publishBy_admissible 1 10)).
  - vm_compute. reflexivity.
  - vm_compute. reflexivity.
  - reflexivity.
  - cbn. eauto.
Defined.

(** The publish goes to session 9 only, and to the ranking of session 8. *)
Lemma publish_notifies_witness :
  ∃ r' es reply, publish track 1 1 (Some 10) (λ _, None) 5 (relay (after watchers)) = Some (r', es, value reply) ∧
    es = [RegisterTrack 0 track None 1; RegisterObserver 0 7 0 track; StartPublish 9 0 true false] ∧
    (pr_forward reply = true ↔ ∃ out i,
       subscribedAbove (namespaceTree_ (relay (after watchers))) track.1 out i ∧
       (is_Some (trackFilter i) ∨ out ≠ 1 ∧ wantsPublishes (options i) = true)).
Proof.
  destruct (publish track 1 1 (Some 10) (λ _, None) 5 (relay (after watchers))) as [[[r' es] [reply|e]]|] eqn:E.
  2,3: exfalso; vm_compute in E; discriminate E.
  exists r', es, reply. split; [reflexivity|]. split.
  - vm_compute in E. injection E as _ E _. symmetry. exact E.
  - apply (publish_notifies keepOrder noExtension draft16 ["a"] "id" true false watchers (after watchers)
             track 1 1 10 (λ _, None) 5 r' es reply watchers_admissible ltac:(vm_compute; reflexivity) E).
Defined.

Lemma announce_exact_witness :
  ∃ r' es res, doPublishNamespace ["a"; "b"] 1 None "" 2 (relay (after watchers)) = Some (r', es, res) ∧
    (["a"] `prefix_of` ["a"; "b"] → res = Some (rev ["a"; "b"]) ∧
       ∀ h suffix, NamespaceMsg h suffix ∈ es ↔
         ∃ prefix out i, ["a"; "b"] = (prefix ++ suffix)%list ∧ out ≠ 1 ∧
           c_subscribers (contentAt (namespaceTree_ (relay (after watchers))) (rev prefix)) !! out = Some i ∧
           wantsNamespaces (options i) = true ∧ namespacePublishHandle i = Some h) ∧
    (¬ ["a"] `prefix_of` ["a"; "b"] → r' = relay (after watchers) ∧ es = [] ∧ res = None).
Proof.
  exact (announce_exact keepOrder noExtension draft16 ["a"] "id" true false watchers (after watchers)
           ["a"; "b"] 1 None "" 2 watchers_admissible ltac:(vm_compute; reflexivity)).
Defined.

Definition announced : RelaySystem := after (watchers ++ [RPublishNamespace ["a"; "b"] 1 None "" 2]).

Lemma subscribe_reaches_publisher_witness :
  ∃ r1 tok, subscribeProceed track 3 true 6 (relay announced) =
      Some (r1, [AddSubscriber 0 3; UpstreamSubscribe 1 track (subscribeChain (relay announced) track 0)],
            Subscribing tok 1) ∧
    ∃ r2, subscribeReply tok 1 (inr (30, 4)) r1 = Some (r2, Subscribed 0) ∧
      getUpstreamView track (registry_ r2) = Some (mkUpstreamView 0 (Some 1) (Some 30) 4 false true) ∧
      ∀ sub' now' added, ∃ promise,
        subscribeProceed track sub' added now' r2 = Some (r2, [], WaitingFor promise) ∧
        subscribeResume track promise (λ _, false) (λ _, true) sub' r2 =
          Some (Some ([AddSubscriber 0 sub'], Subscribed 0)).
Proof.
  destruct (doPublishNamespace ["a"; "b"] 1 None "" 2 (relay (after watchers))) as [[[r' es] [node|]]|] eqn:E.
  2,3: exfalso; vm_compute in E; discriminate E.
  assert (r' = relay announced) as Hr by (vm_compute in E; injection E as E _ _; rewrite <-E; vm_compute; reflexivity).
  assert (nextForwarder (registry_ r') = 0) as Hfwd by (rewrite Hr; vm_compute; reflexivity).
  pose proof (subscribe_reaches_publisher keepOrder noExtension draft16 ["a"] "id" true false watchers
    (after watchers) ["a"; "b"] "t" 1 None "" 2 r' es node 3 6 30 4 watchers_admissible
    ltac:(vm_compute; reflexivity) E ltac:(rewrite Hr; vm_compute; reflexivity)) as Hsub.
  cbv zeta in Hsub. rewrite Hfwd, Hr in Hsub. exact Hsub.
Defined.

(** ** A replaced publisher *)

(** Session 1 announces [a/b] and publishes a track in it; session 2 announces
    [a/b] and then session 1's track ends. *)
Definition namespaceTakeover : list RelayOp :=
  [RPublishNamespace ["a"; "b"] 1 None "" 1; publishBy 1 10; RPublishNamespace ["a"; "b"] 2 None "" 2;
   RPublishDone track (Some 1) (λ _, true)].

(** When another session announces the namespace of a published track, the
    registry drops the track but the tree keeps it, and the end of the publish
    no longer removes it: the tree lists a track that has no forwarder. *)
Theorem takeover_leaves_publish :
  findPublishState track (relay (after namespaceTakeover)) = (true, Some 1) ∧
  getForwarder track (registry_ (relay (after namespaceTakeover))) = None ∧
  findPublishState track (relay (after (namespaceTakeover ++ [RPublishNamespaceDone ["a"; "b"] 2]))) =
    (true, Some 1).
Proof. split_and!; vm_compute; reflexivity. Qed.

Definition reconnect : list RelayOp := watchers ++ [publishBy 1 10; publishBy 2 20].

(** The end of a publish that was replaced by a new publisher of the track
    terminates the new publisher: its entry loses upstream and handle and the
    tree no longer lists it. *)
Theorem stale_publishDone_ends_successor :
  getUpstreamView track (registry_ (relay (after reconnect))) =
    Some (mkUpstreamView 1 (Some 2) (Some 20) 1 true true) ∧
  getUpstreamView track (registry_ (relay (after (reconnect ++ [RPublishDone track (Some 1) (λ _, false)])))) =
    Some (mkUpstreamView 1 None None 1 true true) ∧
  findPublishState track (relay (after (reconnect ++ [RPublishDone track (Some 1) (λ _, false)]))) =
    (false, None).
Proof. split_and!; vm_compute; reflexivity. Qed.

(** A second publisher of a track with subscribers is told to forward; when
    the forwarder of the first one, which [publish] has just closed, reports
    that it is empty, the second publisher is told to stop. *)
Theorem evicted_forwarder_stops_successor :
  (∃ r' es reply, publish track 2 1 (Some 20) (λ _, None) 5 (relay (after (watchers ++ [publishBy 1 10]))) =
     Some (r', es, value reply) ∧ pr_forward reply = true ∧
     Unsubscribe 10 ∈ es ∧ ForwarderPublishDone 0 ∈ es) ∧
  onEmpty track (relay (after reconnect)) = Some (relay (after reconnect), [SubscribeUpdate 20 false]).
Proof.
  split.
  - destruct (publish track 2 1 (Some 20) (λ _, None) 5 (relay (after (watchers ++ [publishBy 1 10]))))
      as [[[r' es] [reply|e]]|] eqn:E; [|exfalso; vm_compute in E; discriminate E..].
    vm_compute in E. injection E as _ Hes Hreply. exists r', es, reply.
    rewrite <-Hes, <-Hreply. split_and!; [done|done|by left|by right; left].
  - vm_compute. reflexivity.
Qed.

(** ** Traversal *)

Definition sample : RelayTree := namespaceTree_ (relay (after (watchers ++ [publishBy 1 10]))).

Lemma sample_wf : wf sample.
Proof.
  destruct (relayRun_inv keepOrder noExtension draft16 (watchers ++ [publishBy 1 10]) _
    (start_inv ["a"] "id" true false) (publishBy_admissible 1 10)) as (sys&E&Hinv).
  unfold sample, after, runRelay. rewrite E. apply Hinv.
Qed.

Lemma forEachNodeInSubtree_exact_witness :
  forEachNodeInSubtree sample ["a"] = [["a"]; ["b"; "a"]] ∧
  ∀ q, q ∈ forEachNodeInSubtree sample ["a"] ↔ ["a"] `suffix_of` q ∧ is_Some (sample !! q).
Proof.
  split; [vm_compute; reflexivity|].
  apply (forEachNodeInSubtree_exact sample ["a"] sample_wf). eexists. vm_compute. reflexivity.
Defined.

End RelayExamples.
