(* ===== verification/TopNFilter.v ===== *)
(** * TopNFilter: property observation on the object path of a track

    Models [src/src/relay/TopNFilter.h] and [TopNFilter.cpp].  The extensions
    of an object are given by [getIntExtension] (moxygen code): the integer
    value of a property type, if present.  Callbacks, the write through
    [activityTarget_] and the call to the downstream consumer are outputs, in
    order; the downstream consumer's answer is an argument.  Times are readings
    of the steady clock in nanoseconds, the threshold is in milliseconds. *)

From S2P Require Import Prelude.

Section Filter.
(** Arguments of the consumer calls and the errors they can return. *)
Context {Header Payload Done Error : Type}.

(** Which of the observer's functions are set. *)
Record PropertyObserver := mkObserver {
  onValueChanged : bool;
  onTrackEnded : bool;
  onActivity : bool
}.

Record ObserverEntry := mkObserverEntry {
  lastSeenValue : option Z;
  observer : PropertyObserver
}.

Record TopNFilter := mkFilter {
  observers_ : gmap Z ObserverEntry;
  ended_ : bool;
  activityTarget_ : bool;          (* a target is set *)
  activityThreshold_ : Z;
  lastActivityNotify_ : option Z
}.

Definition newFilter : TopNFilter := mkFilter ∅ false false 0 None.

(** A call on the downstream track or subgroup consumer. *)
Inductive Call :=
| CBeginSubgroup (groupID subgroupID priority : Z) (containsLastInGroup : bool)
| CObjectStream (h : Header) (p : Payload) (lastInGroup : bool)
| CDatagram (h : Header) (p : Payload) (lastInGroup : bool)
| CPublishDone (d : Done)
| CObject (objectID : Z) (p : Payload) (finSubgroup : bool)
| CBeginObject (objectID length : Z) (p : Payload).

Inductive Out :=
| ValueChanged (propertyType val : Z)
| TrackEnded (propertyType : Z)
| Activity (propertyType : Z)
| WriteTarget (now : Z)
| Downstream (c : Call).

(** ** Registration *)

Definition set_observers (m : gmap Z ObserverEntry) (st : TopNFilter) : TopNFilter :=
  mkFilter m (ended_ st) (activityTarget_ st) (activityThreshold_ st) (lastActivityNotify_ st).

Definition registerObserver (propertyType : Z) (o : PropertyObserver) (st : TopNFilter) :
    TopNFilter :=
  set_observers (<[propertyType := mkObserverEntry None o]> (observers_ st)) st.

Definition removeObserver (propertyType : Z) (st : TopNFilter) : TopNFilter :=
  set_observers (delete propertyType (observers_ st)) st.

Definition hasObservers (st : TopNFilter) : bool := negb (bool_decide (observers_ st = ∅)).

Definition setActivityTarget (b : bool) (st : TopNFilter) : TopNFilter :=
  mkFilter (observers_ st) (ended_ st) b (activityThreshold_ st) (lastActivityNotify_ st).

Definition setActivityThreshold (t : Z) (st : TopNFilter) : TopNFilter :=
  mkFilter (observers_ st) (ended_ st) (activityTarget_ st) t (lastActivityNotify_ st).

(** ** Object path *)

Definition nanos (ms : Z) : Z := ms * 1000000.

Definition activityThrottleAllows (now : Z) (st : TopNFilter) : bool :=
  (0 <? activityThreshold_ st) &&
  match lastActivityNotify_ st with
  | None => true
  | Some t => nanos (activityThreshold_ st) <=? now - t
  end.

(** The loop body for one observer: its new entry and its outputs. *)
Definition checkEntry (now : Z) (allowed target : bool) (getIntExtension : Z → option Z)
    (propertyType : Z) (entry : ObserverEntry) : ObserverEntry * list Out :=
  match getIntExtension propertyType with
  | None => (entry, [])
  | Some val =>
      let touch := if target then [WriteTarget now] else [] in
      let changed := match lastSeenValue entry with
                     | None => true
                     | Some v => negb (v =? val)
                     end in
      let entry' := if changed then mkObserverEntry (Some val) (observer entry) else entry in
      let notify := if changed && onValueChanged (observer entry)
                    then [ValueChanged propertyType val] else [] in
      let activity := if allowed && onActivity (observer entry)
                      then [Activity propertyType] else [] in
      (entry', touch ++ notify ++ activity)
  end.

Definition isActivity (o : Out) : bool := match o with Activity _ => true | _ => false end.

Definition checkProperties (now : Z) (getIntExtension : Z → option Z) (st : TopNFilter) :
    TopNFilter * list Out :=
  if bool_decide (observers_ st = ∅) then (st, [])
  else
    let allowed := activityThrottleAllows now st in
    let step := checkEntry now allowed (activityTarget_ st) getIntExtension in
    let outs := mjoin ((λ p : Z * ObserverEntry, (step p.1 p.2).2) <$> map_to_list (observers_ st)) in
    let firedAnyActivity := existsb isActivity outs in
    (mkFilter (map_imap (λ k e, Some (step k e).1) (observers_ st)) (ended_ st)
       (activityTarget_ st) (activityThreshold_ st)
       (if firedAnyActivity then Some now else lastActivityNotify_ st), outs).

Definition notifyTrackEnded (st : TopNFilter) : list Out :=
  omap (λ p : Z * ObserverEntry, if onTrackEnded (observer p.2) then Some (TrackEnded p.1) else None)
    (map_to_list (observers_ st)).

(** ** Consumer interface *)

(** [beginSubgroup]: on success the downstream subgroup is wrapped, so that
    its objects come back to [object] and [beginObject] below. *)
Definition beginSubgroup {S W} (wrap : S → W) (answer : Expected Error S)
    (g s p : Z) (last : bool) (st : TopNFilter) : TopNFilter * list Out * Expected Error W :=
  (st, [Downstream (CBeginSubgroup g s p last)],
   match answer with
   | value a => value (wrap a)
   | unexpected e => unexpected e
   end).

Definition objectStream (now : Z) (ext : Z → option Z) (answer : Expected Error unit)
    (h : Header) (p : Payload) (last : bool) (st : TopNFilter) :
    TopNFilter * list Out * Expected Error unit :=
  let '(st, outs) := checkProperties now ext st in
  (st, outs ++ [Downstream (CObjectStream h p last)], answer).

Definition datagram (now : Z) (ext : Z → option Z) (answer : Expected Error unit)
    (h : Header) (p : Payload) (last : bool) (st : TopNFilter) :
    TopNFilter * list Out * Expected Error unit :=
  let '(st, outs) := checkProperties now ext st in
  (st, outs ++ [Downstream (CDatagram h p last)], answer).

Definition publishDone (answer : Expected Error unit) (d : Done) (st : TopNFilter) :
    TopNFilter * list Out * Expected Error unit :=
  let st := mkFilter (observers_ st) true (activityTarget_ st) (activityThreshold_ st)
              (lastActivityNotify_ st) in
  (st, notifyTrackEnded st ++ [Downstream (CPublishDone d)], answer).

Definition object (now : Z) (ext : Z → option Z) (answer : Expected Error unit)
    (objectID : Z) (p : Payload) (fin : bool) (st : TopNFilter) :
    TopNFilter * list Out * Expected Error unit :=
  let '(st, outs) := checkProperties now ext st in
  (st, outs ++ [Downstream (CObject objectID p fin)], answer).

Definition beginObject (now : Z) (ext : Z → option Z) (answer : Expected Error unit)
    (objectID len : Z) (p : Payload) (st : TopNFilter) :
    TopNFilter * list Out * Expected Error unit :=
  let '(st, outs) := checkProperties now ext st in
  (st, outs ++ [Downstream (CBeginObject objectID len p)], answer).

(** The objects of a track, one [checkProperties] each. *)
Fixpoint checkAll (objs : list (Z * (Z → option Z))) (st : TopNFilter) :
    TopNFilter * list (Z * list Out) :=
  match objs with
  | [] => (st, [])
  | (now, ext) :: rest =>
      let r := checkProperties now ext st in
      let r' := checkAll rest r.1 in
      (r'.1, (now, r.2) :: r'.2)
  end.

(** ** Value changes are reported once each *)

(** The values announced for [pt]. *)
Definition announced (pt : Z) (outs : list Out) : list Z :=
  omap (λ o, match o with ValueChanged k v => if k =? pt then Some v else None | _ => None end) outs.

(** Consecutive repetitions removed, after a first value [last]. *)
Fixpoint changes (last : option Z) (vs : list Z) : list Z :=
  match vs with
  | [] => []
  | v :: vs' => if bool_decide (last = Some v) then changes last vs' else v :: changes (Some v) vs'
  end.

Lemma announced_app pt o1 o2 : announced pt (o1 ++ o2) = announced pt o1 ++ announced pt o2.
Proof. apply omap_app. Qed.

Lemma announced_other pt k now a t ext e :
  k ≠ pt → announced pt (checkEntry now a t ext k e).2 = [].
Proof.
  intros Hne. unfold checkEntry. destruct (ext k) as [v|]; [|done]. cbn [snd].
  rewrite !announced_app. destruct t, (_ && onValueChanged _), (a && onActivity _); cbn;
    rewrite ?(proj2 (Z.eqb_neq k pt)) by done; done.
Qed.

Lemma announced_loop pt now a t ext (L : list (Z * ObserverEntry)) e :
  NoDup L.*1 → (pt, e) ∈ L →
  announced pt (mjoin ((λ p, (checkEntry now a t ext p.1 p.2).2) <$> L)) =
  announced pt (checkEntry now a t ext pt e).2.
Proof.
  induction L as [|[k e'] L IH]; intros Hnd Hin; [by apply elem_of_nil in Hin|].
  rewrite fmap_cons in Hnd. rewrite fmap_cons, mjoin_cons. cbn [fst snd] in *. apply NoDup_cons in Hnd as [Hk Hnd].
  rewrite announced_app. apply elem_of_cons in Hin as [[= <- <-]|Hin].
  - rewrite <- (app_nil_r (announced pt (checkEntry now a t ext pt e).2)) at 2. f_equal. clear IH Hnd.
    induction L as [|[k1 e1] L IH]; [done|]. rewrite fmap_cons in Hk. rewrite fmap_cons, mjoin_cons. cbn [fst snd] in *.
    apply not_elem_of_cons in Hk as [Hne Hk]. cbn in Hne. rewrite announced_app, announced_other by done.
    by apply IH.
  - rewrite IH by done. rewrite announced_other; [done|]. intros ->. apply Hk.
    by apply (list_elem_of_fmap_2 fst) in Hin.
Qed.

Lemma checkProperties_lookup now ext st pt :
  observers_ (checkProperties now ext st).1 !! pt =
  (λ e, (checkEntry now (activityThrottleAllows now st) (activityTarget_ st) ext pt e).1) <$>
    observers_ st !! pt.
Proof.
  unfold checkProperties. case_bool_decide as He.
  - cbn. by rewrite He, lookup_empty.
  - cbn. rewrite map_lookup_imap. by destruct (observers_ st !! pt).
Qed.

Lemma checkProperties_announced now ext st pt e :
  observers_ st !! pt = Some e →
  announced pt (checkProperties now ext st).2 =
  announced pt (checkEntry now (activityThrottleAllows now st) (activityTarget_ st) ext pt e).2.
Proof.
  intros He. unfold checkProperties. case_bool_decide as Hm; [by rewrite Hm in He|].
  apply announced_loop; [apply NoDup_fst_map_to_list|by apply elem_of_map_to_list].
Qed.

Lemma checkAll_announced objs st pt e :
  observers_ st !! pt = Some e → onValueChanged (observer e) = true →
  announced pt (mjoin (checkAll objs st).2.*2) =
  changes (lastSeenValue e) (omap (λ o : Z * (Z → option Z), o.2 pt) objs).
Proof.
  revert st e. induction objs as [|[now ext] objs IH]; intros st e He Hv; [done|].
  cbn [checkAll snd]. rewrite !fmap_cons, mjoin_cons. cbn [omap list_omap snd].
  rewrite announced_app, (checkProperties_announced now ext st pt e He).
  pose proof (checkProperties_lookup now ext st pt) as Hl. rewrite He in Hl. cbn in Hl.
  unfold checkEntry in Hl |- *. destruct (ext pt) as [v|] eqn:Hx; [|by cbn; apply IH].
  cbn [fst snd] in *. set (ch := match lastSeenValue e with None => true | Some _ => _ end) in *.
  assert (ch = negb (bool_decide (lastSeenValue e = Some v))) as Hch.
  { unfold ch. destruct (lastSeenValue e) as [w|]; [|done]. f_equal.
    destruct (Z.eqb_spec w v); symmetry; [apply bool_decide_eq_true_2|apply bool_decide_eq_false_2]; congruence. }
  rewrite Hv, andb_true_r. rewrite (IH _ _ Hl); [|by destruct ch].
  rewrite !announced_app.
  assert (announced pt (if activityTarget_ st then [WriteTarget now] else []) = []) as ->
    by (by destruct (activityTarget_ st)).
  assert (announced pt (if activityThrottleAllows now st && onActivity (observer e)
            then [Activity pt] else []) = []) as -> by (by destruct (_ && _)).
  cbn [changes]. rewrite Hch. case_bool_decide; cbn; [done|].
  by rewrite Z.eqb_refl.
Qed.

(** Whatever objects pass the filter, an observer registered for a property
    type is called with exactly the changes of the property's value: the
    values carried by the objects with consecutive repetitions removed,
    starting with the first value seen after the registration. *)
Theorem value_changes_exact objs st pt o :
  onValueChanged o = true →
  announced pt (mjoin (checkAll objs (registerObserver pt o st)).2.*2) =
  changes None (omap (λ ob : Z * (Z → option Z), ob.2 pt) objs).
Proof.
  intros Hv. rewrite (checkAll_announced objs _ pt (mkObserverEntry None o)); [done| |done].
  cbn. apply lookup_insert_eq.
Qed.

(** ** The activity throttle *)

(** The times at which at least one [onActivity] fired. *)
Definition activityTimes (log : list (Z * list Out)) : list Z :=
  omap (λ p : Z * list Out, if existsb isActivity p.2 then Some p.1 else None) log.

(** Consecutive times at least [d] apart, after an optional earlier one. *)
Fixpoint spaced (d : Z) (last : option Z) (ts : list Z) : Prop :=
  match ts with
  | [] => True
  | t :: ts' => match last with None => True | Some t0 => d <= t - t0 end ∧ spaced d (Some t) ts'
  end.

Lemma checkEntry_no_activity now t ext k e :
  existsb isActivity (checkEntry now false t ext k e).2 = false.
Proof.
  unfold checkEntry. destruct (ext k); [|done]. cbn. by destruct t, (_ && _).
Qed.

Lemma checkProperties_activity now ext st :
  existsb isActivity (checkProperties now ext st).2 = true →
  activityThrottleAllows now st = true ∧
  lastActivityNotify_ (checkProperties now ext st).1 = Some now.
Proof.
  unfold checkProperties. case_bool_decide; [done|]. cbn [snd fst lastActivityNotify_].
  intros Hx. rewrite Hx. split; [|done]. destruct (activityThrottleAllows now st); [done|].
  exfalso. revert Hx. generalize (map_to_list (observers_ st)). intros L.
  induction L as [|[k e] L IH]; [done|]. rewrite fmap_cons, mjoin_cons.
  rewrite existsb_app, checkEntry_no_activity. done.
Qed.

Lemma checkProperties_quiet now ext st :
  existsb isActivity (checkProperties now ext st).2 = false →
  lastActivityNotify_ (checkProperties now ext st).1 = lastActivityNotify_ st.
Proof. unfold checkProperties. case_bool_decide; [done|]. cbn [snd fst lastActivityNotify_]. by intros ->. Qed.

Lemma checkProperties_threshold now ext st :
  activityThreshold_ (checkProperties now ext st).1 = activityThreshold_ st.
Proof. unfold checkProperties. by case_bool_decide. Qed.

(** The filter calls its [onActivity] observers at most once per
    threshold: any two consecutive objects at which it does are at least the
    threshold apart, and with a zero threshold it never does. *)
Theorem activity_throttled objs st :
  spaced (nanos (activityThreshold_ st)) (lastActivityNotify_ st)
    (activityTimes (checkAll objs st).2) ∧
  (activityThreshold_ st = 0 → activityTimes (checkAll objs st).2 = []).
Proof.
  revert st. induction objs as [|[now ext] objs IH]; intros st; [done|].
  cbn [checkAll snd]. specialize (IH (checkProperties now ext st).1). destruct IH as [Hs Hz].
  rewrite checkProperties_threshold in Hs, Hz.
  unfold activityTimes. cbn [omap list_omap snd].
  destruct (existsb isActivity (checkProperties now ext st).2) eqn:Hx.
  - apply checkProperties_activity in Hx as [Hal Hl]. rewrite Hl in Hs.
    unfold activityThrottleAllows in Hal. apply andb_true_iff in Hal as [Hpos Hal]. split.
    + cbn. split; [|exact Hs]. destruct (lastActivityNotify_ st); [lia|done].
    + lia.
  - apply checkProperties_quiet in Hx. rewrite Hx in Hs. split; [exact Hs|]. intros H0. by apply Hz.
Qed.

End Filter.

Module FilterExamples.

(** Audio level (property 1) carried by three of four objects. *)
Definition levels : list (Z * (Z → option Z)) :=
  [(10, λ k, if k =? 1 then Some 5 else None); (20, λ k, if k =? 1 then Some 5 else None);
   (30, λ _, None); (40, λ k, if k =? 1 then Some 7 else None)].

Lemma value_changes_exact_witness :
  announced 1 (mjoin (checkAll levels (registerObserver 1 (mkObserver true true true) newFilter)).2.*2
                : list (Out (Header:=unit) (Payload:=unit) (Done:=unit))) = [5; 7].
Proof.
  rewrite (value_changes_exact levels newFilter 1 (mkObserver true true true) eq_refl). reflexivity.
Defined.

End FilterExamples.
