(* ===== verification/BpfSteering.v ===== *)
(** * QuicReuseportSteering: the classic BPF filter of the worker sockets

    Models [src/src/bpf/QuicReuseportSteering.cpp].  [kFilter] is the program,
    instruction by instruction; [runFilter] is the classic BPF machine for the
    instructions it uses: 32-bit accumulator [A] and index register [X], byte
    and big-endian half-word loads from the packet (which starts at the UDP
    header), a load beyond the packet ends the program with 0, and jumps are
    forward, relative to the next instruction. *)

From S2P Require Import Prelude.

Definition u32 (x : Z) : Z := x mod 2 ^ 32.

(** ** The machine *)

Inductive Instr :=
| LD_B_ABS (k : Z)              (* BPF_LD | BPF_B | BPF_ABS *)
| LD_H_ABS (k : Z)              (* BPF_LD | BPF_H | BPF_ABS *)
| ALU_AND_K (k : Z)
| ALU_LSH_K (k : Z)
| ALU_RSH_K (k : Z)
| ALU_OR_X
| MISC_TAX
| JMP_JEQ_K (k : Z) (jt jf : nat)
| RET_A.

Definition byteAt (pkt : list Z) (k : Z) : option Z := pkt !! Z.to_nat k.

(** One path through the program: every instruction moves forward, so the rest
    of the program is the fuel. *)
Fixpoint runFilter (prog : list Instr) (skip : nat) (A X : Z) (pkt : list Z) : option Z :=
  match prog with
  | [] => None
  | i :: rest =>
      match skip with
      | S skip' => runFilter rest skip' A X pkt
      | O =>
          match i with
          | LD_B_ABS k =>
              match byteAt pkt k with
              | Some b => runFilter rest 0 b X pkt
              | None => Some 0
              end
          | LD_H_ABS k =>
              match byteAt pkt k, byteAt pkt (k + 1) with
              | Some hi, Some lo => runFilter rest 0 (Z.lor (Z.shiftl hi 8) lo) X pkt
              | _, _ => Some 0
              end
          | ALU_AND_K k => runFilter rest 0 (Z.land A k) X pkt
          | ALU_LSH_K k => runFilter rest 0 (u32 (Z.shiftl A k)) X pkt
          | ALU_RSH_K k => runFilter rest 0 (Z.shiftr A k) X pkt
          | ALU_OR_X => runFilter rest 0 (Z.lor A X) X pkt
          | MISC_TAX => runFilter rest 0 A A pkt
          | JMP_JEQ_K k jt jf => runFilter rest (if A =? k then jt else jf) A X pkt
          | RET_A => Some A
          end
      end
  end.

(** ** The program *)

Definition kFilter : list Instr :=
  [ LD_B_ABS 8;
    ALU_AND_K 128;
    JMP_JEQ_K 0 2 0;
    LD_H_ABS 0;
    RET_A;
    LD_B_ABS 11;
    ALU_LSH_K 2;
    MISC_TAX;
    LD_B_ABS 12;
    ALU_RSH_K 6;
    ALU_OR_X;
    RET_A ].

(** The value the kernel takes modulo the number of sockets. *)
Definition steer (pkt : list Z) : option Z := runFilter kFilter 0 0 0 pkt.

(** ** What the filter computes *)

Definition isByte (b : Z) : Prop := 0 <= b < 256.

Lemma long_header_bit b : isByte b → Z.land b 128 = if b <? 128 then 0 else 128.
Proof.
  intros [Hl Hu]. destruct (Z.ltb_spec b 128) as [Hb|Hb].
  - apply Z.bits_inj'. intros i Hi. rewrite Z.land_spec, Z.bits_0, (Z.pow2_bits_eqb 7) by lia.
    destruct (Z.eqb_spec 7 i) as [<-|]; [|by rewrite andb_false_r]. rewrite andb_true_r.
    apply Z.testbit_false; [lia|]. rewrite Z.div_small by lia. done.
  - apply Z.bits_inj'. intros i Hi. rewrite Z.land_spec, (Z.pow2_bits_eqb 7) by lia.
    destruct (Z.eqb_spec 7 i) as [<-|]; [|by rewrite andb_false_r]. rewrite andb_true_r.
    apply Z.testbit_true; [lia|]. replace (b / 2 ^ 7) with 1; [done|].
    apply (Z.div_unique b (2 ^ 7) 1 (b - 128)); lia.
Qed.

(** A disjunction of a multiple of [2^n] and a number below it is their sum. *)
Lemma lor_low a b n : 0 <= n → 0 <= b < 2 ^ n → Z.lor b (Z.shiftl a n) = b + a * 2 ^ n.
Proof.
  intros Hn Hb. rewrite <- Z.shiftl_mul_pow2 by done.
  assert (Z.land b (Z.shiftl a n) = 0) as Hz.
  { apply Z.bits_inj'. intros i Hi. rewrite Z.land_spec, Z.bits_0.
    destruct (Z.ltb_spec i n).
    - rewrite Z.shiftl_spec_low by done. apply andb_false_r.
    - destruct (decide (b = 0)) as [->|]; [by rewrite Z.bits_0|].
      rewrite Z.bits_above_log2; [done|lia|].
      assert (Z.log2 b < n) by (apply Z.log2_lt_pow2; lia). lia. }
  rewrite <- Z.lxor_lor by done. symmetry. by apply Z.add_nocarry_lxor.
Qed.

(** For a short-header packet the filter returns
    [4 * CID[2] + CID[3] / 64], the two connection-id bytes at offsets 11 and
    12 with the low six bits of the second dropped, a value below 1024; for a
    long-header packet it returns the UDP source port; a packet too short for
    its path goes to socket 0. *)
Theorem steer_value pkt b :
  Forall isByte pkt → pkt !! 8%nat = Some b →
  steer pkt =
    if b <? 128 then
      match pkt !! 11%nat, pkt !! 12%nat with
      | Some c2, Some c3 => Some (4 * c2 + c3 / 64)
      | _, _ => Some 0
      end
    else
      match pkt !! 0%nat, pkt !! 1%nat with
      | Some hi, Some lo => Some (256 * hi + lo)
      | _, _ => Some 0
      end.
Proof.
  intros Hb H8. rewrite Forall_lookup in Hb. unfold steer, kFilter.
  cbn [runFilter]. change (byteAt pkt 8) with (pkt !! 8%nat). rewrite H8.
  cbn [runFilter]. rewrite (long_header_bit b (Hb _ _ H8)).
  destruct (b <? 128); cbn [Z.eqb runFilter].
  - change (byteAt pkt 11) with (pkt !! 11%nat). change (byteAt pkt 12) with (pkt !! 12%nat).
    destruct (pkt !! 11%nat) as [c2|] eqn:H2; [|done]. destruct (pkt !! 12%nat) as [c3|] eqn:H3; [|done].
    pose proof (Hb _ _ H2) as [? ?]. pose proof (Hb _ _ H3) as [? ?].
    rewrite Z.shiftr_div_pow2 by lia. change (2 ^ 6) with 64.
    unfold u32. rewrite (Z.mod_small (Z.shiftl c2 2)) by (rewrite Z.shiftl_mul_pow2 by lia; lia).
    rewrite lor_low; [f_equal; lia|lia|]. split; [apply Z.div_pos; lia|].
    apply Z.div_lt_upper_bound; lia.
  - change (byteAt pkt 0) with (pkt !! 0%nat). change (byteAt pkt (0 + 1)) with (pkt !! 1%nat).
    destruct (pkt !! 0%nat) as [hi|] eqn:H0; [|done]. destruct (pkt !! 1%nat) as [lo|] eqn:H1; [|done].
    pose proof (Hb _ _ H1) as [? ?]. rewrite Z.lor_comm, lor_low; [f_equal; lia|lia|lia].
Qed.

Module SteeringExamples.

(** A short-header packet with CID[2] = 0x41 and CID[3] = 0x80. *)
Definition shortPacket : list Z := [17; 112; 1; 187; 0; 0; 0; 0; 64; 1; 2; 65; 128].

Lemma steer_value_witness :
  steer shortPacket = Some (4 * 65 + 128 / 64).
Proof.
  apply (steer_value shortPacket 64); [|reflexivity].
  repeat (constructor; [unfold isByte; lia|]). constructor.
Defined.

(** The layout the comment gives, bits 7:2 of CID[2] as the upper six bits of an
    eight-bit worker id: with six sockets it selects another socket. *)
Definition documentedWorker (c2 c3 : Z) : Z := Z.lor (Z.land c2 252) (Z.shiftr c3 6).

Lemma steering_differs_from_layout :
  steer shortPacket = Some 262 ∧ documentedWorker 65 128 = 66 ∧ 262 mod 6 ≠ 66 mod 6.
Proof. split_and!; vm_compute; congruence. Qed.

End SteeringExamples.
