(* ===== verification/Upstream.v ===== *)
(** * UpstreamProvider: the connection to the upstream relay

    Models [src/src/UpstreamProvider.{h,cpp}]: the connection state, the
    promise that concurrent callers wait on, the reconnect backoff, close
    notifications, GOAWAY and shutdown.  A connection attempt is a coroutine
    with two waits: for the session to be set up, and for the [onConnect]
    hook; [attempts] are those in flight.  The forwarding methods pass a
    request to the session of [getSession] or wait for [getOrConnectSession].

    [None] is a failed [CHECK], the use of an empty optional, or a promise
    that is resolved twice. *)

From S2P Require Import Prelude.

Inductive State := Disconnected | Connecting | Connected.
#[export] Instance State_eq_dec : EqDecision State.
Proof. solve_decision. Defined.

Inductive Promise := Pending | Resolved | Failed | Broken.
#[export] Instance Promise_eq_dec : EqDecision Promise.
Proof. solve_decision. Defined.

Record UpstreamProvider := mkProvider {
  state_ : State;
  client_ : bool;
  session_ : option Z;
  url_ : string;
  onConnect_ : bool;              (* whether the hooks are set *)
  onDisconnect_ : bool;
  stopped_ : bool;
  connectPromise_ : option Z;
  promises_ : gmap Z Promise;     (* the shared state of the promises *)
  nextPromise : Z;
  reconnectBackoff_ : Z;          (* milliseconds *)
}.

Definition newProvider (url : string) (onConnect onDisconnect : bool) : UpstreamProvider :=
  mkProvider Disconnected false None url onConnect onDisconnect false None ∅ 0 0.

Definition with_connection (s : State) (c : bool) (sess : option Z) (p : UpstreamProvider) :
    UpstreamProvider :=
  mkProvider s c sess (url_ p) (onConnect_ p) (onDisconnect_ p) (stopped_ p) (connectPromise_ p)
    (promises_ p) (nextPromise p) (reconnectBackoff_ p).
Definition with_promise (cp : option Z) (m : gmap Z Promise) (p : UpstreamProvider) :
    UpstreamProvider :=
  mkProvider (state_ p) (client_ p) (session_ p) (url_ p) (onConnect_ p) (onDisconnect_ p)
    (stopped_ p) cp m (nextPromise p) (reconnectBackoff_ p).
Definition with_backoff (b : Z) (p : UpstreamProvider) : UpstreamProvider :=
  mkProvider (state_ p) (client_ p) (session_ p) (url_ p) (onConnect_ p) (onDisconnect_ p)
    (stopped_ p) (connectPromise_ p) (promises_ p) (nextPromise p) b.
Definition with_url (u : string) (p : UpstreamProvider) : UpstreamProvider :=
  mkProvider (state_ p) (client_ p) (session_ p) u (onConnect_ p) (onDisconnect_ p) (stopped_ p)
    (connectPromise_ p) (promises_ p) (nextPromise p) (reconnectBackoff_ p).

Definition stateString (p : UpstreamProvider) : string :=
  match state_ p with
  | Disconnected => "disconnected"
  | Connecting => "connecting"
  | Connected => "connected"
  end.

(** ** Sessions *)

(** The synchronous path of the forwarding methods. *)
Definition getSession (p : UpstreamProvider) : option Z :=
  if negb (stopped_ p) && bool_decide (state_ p = Connected) then session_ p else None.

(** The promise [waitForConnected] waits on, if it waits at all. *)
Definition waitForConnected (p : UpstreamProvider) : option Z :=
  if stopped_ p || (bool_decide (state_ p = Connected) && bool_decide (is_Some (session_ p)))
  then None else connectPromise_ p.

(** [connectPromise_.emplace()]: an unresolved promise that it replaces is
    broken. *)
Definition emplacePromise (p : UpstreamProvider) : UpstreamProvider :=
  let m := match connectPromise_ p with
           | Some n => match promises_ p !! n with
                       | Some Pending => <[n := Broken]> (promises_ p)
                       | _ => promises_ p
                       end
           | None => promises_ p
           end in
  mkProvider (state_ p) (client_ p) (session_ p) (url_ p) (onConnect_ p) (onDisconnect_ p)
    (stopped_ p) (Some (nextPromise p)) (<[nextPromise p := Pending]> m) (nextPromise p + 1)
    (reconnectBackoff_ p).

(** [connectPromise_->setValue] and [setException]. *)
Definition resolvePromise (r : Promise) (p : UpstreamProvider) : option UpstreamProvider :=
  n ← connectPromise_ p;
  match promises_ p !! n with
  | Some Pending => Some (with_promise (Some n) (<[n := r]> (promises_ p)) p)
  | _ => None
  end.

Inductive Connect :=
| StoppedError
| Ready (session : Z)
| AwaitConnect (promise : Z)
| Attempt (p : UpstreamProvider).

(** [getOrConnectSession] up to its first wait; an attempt creates the client. *)
Definition getOrConnectSession (p : UpstreamProvider) : option Connect :=
  if stopped_ p then Some StoppedError
  else
    match state_ p, session_ p with
    | Connected, Some s => Some (Ready s)
    | Connecting, _ => n ← connectPromise_ p; Some (AwaitConnect n)
    | _, _ => Some (Attempt (emplacePromise (with_connection Connecting true (session_ p) p)))
    end.

(** How [subscribe], [fetch], [trackStatus], [subscribeNamespace] and
    [publishNamespace] find the session for their request: at once, or in
    their coroutine form through [getOrConnectSession]. *)
Inductive Route := Direct (session : Z) | Slow (c : Connect).

Definition forwardRequest (p : UpstreamProvider) : option Route :=
  match getSession p with
  | Some s => Some (Direct s)
  | None => c ← getOrConnectSession p; Some (Slow c)
  end.

(** [publish] answers at once: with an error, with the session's consumer, or
    with a consumer that [coPublish] connects later. *)
Inductive PublishRoute := PublishStopped | PublishDirect (session : Z) | PublishPending.

Definition publishRoute (p : UpstreamProvider) : PublishRoute :=
  if stopped_ p then PublishStopped
  else match state_ p, session_ p with
       | Connected, Some s => PublishDirect s
       | _, _ => PublishPending
       end.

(** A caller that waited for another attempt. *)
Definition afterAwait (p : UpstreamProvider) : option Z := session_ p.

(** [doConnect] when the session is set up. *)
Definition setupDone (s : Z) (p : UpstreamProvider) : UpstreamProvider :=
  with_connection (state_ p) (client_ p) (Some s) p.

(** The rest of [getOrConnectSession] after [doConnect] returns or throws.
    When the client that is dropped had a session, its destructor closes the
    session: a close notification right after the failure. *)
Definition finishConnect (p : UpstreamProvider) : option UpstreamProvider :=
  resolvePromise Resolved (with_connection Connected (client_ p) (session_ p) p).

Definition failConnect (p : UpstreamProvider) : option UpstreamProvider :=
  p ← resolvePromise Failed (with_connection Disconnected false (session_ p) p);
  Some (with_promise None (promises_ p) p).

(** ** Close, GOAWAY, stop *)

(** [resetSession], and whether [onDisconnect_] is called. *)
Definition resetSession (p : UpstreamProvider) : UpstreamProvider * bool :=
  (with_connection Disconnected (client_ p) None p,
   bool_decide (is_Some (session_ p)) && onDisconnect_ p).

(** [onMoQSessionClosed]; the result also says whether a reconnect loop is
    started. *)
Definition onMoQSessionClosed (p : UpstreamProvider) : UpstreamProvider * bool :=
  let '(p, _) := resetSession p in
  if negb (stopped_ p) then (with_backoff 0 p, true) else (p, false).

Definition goaway (newSessionUri : string) (p : UpstreamProvider) : UpstreamProvider * bool :=
  let p := if bool_decide (newSessionUri = EmptyString) then p else with_url newSessionUri p in
  onMoQSessionClosed p.

(** [stop] cancels the attempts and starts [close]. *)
Definition stop (p : UpstreamProvider) : UpstreamProvider :=
  mkProvider (state_ p) (client_ p) (session_ p) (url_ p) false false true (connectPromise_ p)
    (promises_ p) (nextPromise p) (reconnectBackoff_ p).

Definition close (p : UpstreamProvider) : UpstreamProvider := with_connection Disconnected false None p.

(** [~UpstreamProvider]: both checks. *)
Definition destroyProvider (p : UpstreamProvider) : option unit :=
  if bool_decide (is_Some (session_ p)) then None else if client_ p then None else Some tt.

(** The checks of the destructor pass once the [close] that [stop] starts has
    run, whatever the connection was doing. *)
Lemma destroy_after_stop p : destroyProvider (close (stop p)) = Some tt.
Proof. unfold destroyProvider. by case_bool_decide as Hs; [apply is_Some_None in Hs|]. Qed.

(** ** The reconnect loop *)

Definition kInitialReconnectBackoff : Z := 1000.
Definition kMaxReconnectBackoff : Z := 60000.

(** The backoff after a failed attempt. *)
Definition nextBackoff (b : Z) : Z :=
  if b =? 0 then kInitialReconnectBackoff else Z.min (b * 2) kMaxReconnectBackoff.

(** The end of a round of [reconnectLoop]: whether the loop goes on. *)
Definition loopConnected (p : UpstreamProvider) : UpstreamProvider * bool := (with_backoff 0 p, false).
Definition loopFailed (p : UpstreamProvider) : UpstreamProvider * bool :=
  if stopped_ p then (p, false) else (with_backoff (nextBackoff (reconnectBackoff_ p)) p, true).

(** ** Runs *)

(** What an attempt in flight waits for. *)
Inductive Phase := Setup | Hook.

Record ProviderSystem := mkPSys { provider : UpstreamProvider; attempts : list Phase }.

Inductive ProviderOp :=
| PConnect                      (* a caller or the reconnect loop needs a session *)
| PSetupDone (i : nat) (s : Z)
| PHookDone (i : nat)
| PAttemptFails (i : nat)
| PClosed
| PGoaway (uri : string)
| PStop
| PClose.

Definition finishAttempt (i : nat) (sys : ProviderSystem) (p : UpstreamProvider) :
    option ProviderSystem :=
  p ← finishConnect p; Some (mkPSys p (delete i (attempts sys))).

Definition providerStep (op : ProviderOp) (sys : ProviderSystem) : option ProviderSystem :=
  let p := provider sys in
  match op with
  | PConnect =>
      c ← getOrConnectSession p;
      Some (match c with Attempt p => mkPSys p (attempts sys ++ [Setup]) | _ => sys end)
  | PSetupDone i s =>
      match attempts sys !! i with
      | Some Setup =>
          let p := setupDone s p in
          if onConnect_ p then Some (mkPSys p (<[i := Hook]> (attempts sys)))
          else finishAttempt i sys p
      | _ => Some sys
      end
  | PHookDone i =>
      match attempts sys !! i with
      | Some Hook => finishAttempt i sys p
      | _ => Some sys
      end
  | PAttemptFails i =>
      match attempts sys !! i with
      | Some _ => p ← failConnect p; Some (mkPSys p (delete i (attempts sys)))
      | None => Some sys
      end
  | PClosed => Some (mkPSys (onMoQSessionClosed p).1 (attempts sys))
  | PGoaway uri => Some (mkPSys (goaway uri p).1 (attempts sys))
  | PStop => Some (mkPSys (stop p) (attempts sys))
  | PClose => Some (mkPSys (close p) (attempts sys))
  end.

Fixpoint providerRun (ops : list ProviderOp) (sys : ProviderSystem) : option ProviderSystem :=
  match ops with
  | [] => Some sys
  | op :: ops => sys ← providerStep op sys; providerRun ops sys
  end.

(** ** Invariant of admissible runs

    A close notification or GOAWAY comes for a session in use, that is, with
    no attempt in flight; [close] is only started by [stop]. *)
Definition providerAdmissible (op : ProviderOp) (sys : ProviderSystem) : bool :=
  match op with
  | PClosed | PGoaway _ => bool_decide (attempts sys = [])
  | PClose => stopped_ (provider sys)
  | _ => true
  end.

Fixpoint admissibleRun (ops : list ProviderOp) (sys : ProviderSystem) : bool :=
  match ops with
  | [] => true
  | op :: ops =>
      providerAdmissible op sys &&
      match providerStep op sys with Some sys => admissibleRun ops sys | None => true end
  end.

Record provider_inv (sys : ProviderSystem) : Prop := mkProviderInv {
  pi_attempts : attempts sys = [] ∨ ∃ x, attempts sys = [x];
  pi_inflight : attempts sys ≠ [] → ∃ n,
    connectPromise_ (provider sys) = Some n ∧ promises_ (provider sys) !! n = Some Pending;
  pi_pending : ∀ n, promises_ (provider sys) !! n = Some Pending →
    connectPromise_ (provider sys) = Some n ∧ attempts sys ≠ [];
  pi_unbroken : ∀ n, promises_ (provider sys) !! n ≠ Some Broken;
  pi_fresh : ∀ n, is_Some (promises_ (provider sys) !! n) → n < nextPromise (provider sys);
  pi_connecting : state_ (provider sys) = Connecting → attempts sys ≠ [];
  pi_attempting : stopped_ (provider sys) = false → attempts sys ≠ [] →
    state_ (provider sys) = Connecting;
  pi_session : stopped_ (provider sys) = false →
    state_ (provider sys) = Connected ∨ attempts sys = [Hook] → is_Some (session_ (provider sys));
}.

Lemma newProvider_inv url c d : provider_inv (mkPSys (newProvider url c d) []).
Proof.
  split; cbn; try done; auto.
  all: try (intros n; rewrite lookup_empty; try intros [? [=]]; done).
  intros _ [?|?]; done.
Qed.

(** Changes that leave the promises alone. *)
Lemma provider_inv_quiet sys p :
  provider_inv sys →
  connectPromise_ p = connectPromise_ (provider sys) → promises_ p = promises_ (provider sys) →
  nextPromise p = nextPromise (provider sys) →
  (state_ p = Connecting → attempts sys ≠ []) →
  (stopped_ p = false → attempts sys ≠ [] → state_ p = Connecting) →
  (stopped_ p = false → state_ p = Connected ∨ attempts sys = [Hook] → is_Some (session_ p)) →
  provider_inv (mkPSys p (attempts sys)).
Proof. intros [] E1 E2 E3 ???. by split; cbn; rewrite ?E1, ?E2, ?E3. Qed.

(** The end of the attempt resolves its promise. *)
Lemma provider_inv_end sys r p p' :
  provider_inv sys → attempts sys ≠ [] →
  connectPromise_ p = connectPromise_ (provider sys) → promises_ p = promises_ (provider sys) →
  nextPromise p = nextPromise (provider sys) → state_ p ≠ Connecting →
  (state_ p = Connected → stopped_ p = false → is_Some (session_ p)) →
  r ≠ Pending → r ≠ Broken → resolvePromise r p = Some p' →
  provider_inv (mkPSys p' []) ∧ provider_inv (mkPSys (with_promise None (promises_ p') p') []).
Proof.
  intros [] Ha E1 E2 E3 Hs Hsess Hr Hb. destruct (pi_inflight0 Ha) as (n & Hn & Hp).
  unfold resolvePromise. rewrite E1, Hn. cbn [mbind option_bind]. rewrite E2, Hp.
  intros [= <-].
  assert (Hm : ∀ k, <[n:=r]> (promises_ (provider sys)) !! k ≠ Some Pending ∧
                    <[n:=r]> (promises_ (provider sys)) !! k ≠ Some Broken).
  { intros k. destruct (decide (k = n)) as [->|?].
    - rewrite lookup_insert_eq. split; congruence.
    - rewrite lookup_insert_ne by done. split; [|done].
      intros Hk. apply pi_pending0 in Hk as [? _]. congruence. }
  assert (Hf : ∀ k, is_Some (<[n:=r]> (promises_ (provider sys)) !! k) →
                    k < nextPromise (provider sys)).
  { intros k. destruct (decide (k = n)) as [->|?]; [intros _|rewrite lookup_insert_ne by done]; eauto. }
  split; split; cbn; rewrite ?E3; try done; auto.
  all: try (intros k Hk; by destruct (Hm k)).
  all: try (intros k; by destruct (Hm k)).
  all: try (intros ? [?|?]; [auto|done]).
Qed.

Lemma resolvePromise_defined sys r p :
  provider_inv sys → attempts sys ≠ [] →
  connectPromise_ p = connectPromise_ (provider sys) → promises_ p = promises_ (provider sys) →
  is_Some (resolvePromise r p).
Proof.
  intros [] Ha E1 E2. destruct (pi_inflight0 Ha) as (n & Hn & Hp).
  unfold resolvePromise. rewrite E1, Hn. cbn [mbind option_bind]. rewrite E2, Hp. eauto.
Qed.

Lemma getOrConnectSession_attempt sys p :
  provider_inv sys → getOrConnectSession (provider sys) = Some (Attempt p) →
  provider_inv (mkPSys p (attempts sys ++ [Setup])).
Proof.
  intros Hinv. unfold getOrConnectSession. destruct (stopped_ (provider sys)) eqn:Est; [done|].
  intros Hc.
  assert (Hne : state_ (provider sys) ≠ Connecting).
  { intros E. rewrite E in Hc. by destruct (connectPromise_ _). }
  assert (Ea : attempts sys = []).
  { destruct (attempts sys) eqn:E; [done|]. destruct Hne. apply pi_attempting; by rewrite ?E. }
  assert (Hp : p = emplacePromise (with_connection Connecting true (session_ (provider sys)) (provider sys))).
  { destruct (state_ (provider sys)), (session_ (provider sys)); by simplify_eq. }
  clear Hc. destruct Hinv.
  assert (Hem : p = mkProvider Connecting true (session_ (provider sys)) (url_ (provider sys))
    (onConnect_ (provider sys)) (onDisconnect_ (provider sys)) false (Some (nextPromise (provider sys)))
    (<[nextPromise (provider sys) := Pending]> (promises_ (provider sys)))
    (nextPromise (provider sys) + 1) (reconnectBackoff_ (provider sys))).
  { subst p. unfold emplacePromise. cbn. rewrite Est. f_equal. f_equal.
    destruct (connectPromise_ _) as [n|]; [|done].
    destruct (promises_ _ !! n) as [[]|] eqn:E; try done.
    by apply pi_pending0 in E as [_ E]. }
  subst p. rewrite Hem, Ea. clear Hem. split; cbn; eauto; try done.
  - intros _. exists (nextPromise (provider sys)). by rewrite lookup_insert_eq.
  - intros n. destruct (decide (n = nextPromise (provider sys))) as [->|?]; [done|].
    rewrite lookup_insert_ne by done. intros Hn. by apply pi_pending0 in Hn as [_ ?].
  - intros n. destruct (decide (n = nextPromise (provider sys))) as [->|?].
    + by rewrite lookup_insert_eq.
    + by rewrite lookup_insert_ne by done.
  - intros n. destruct (decide (n = nextPromise (provider sys))) as [->|?]; [lia|].
    rewrite lookup_insert_ne by done. intros Hn. apply pi_fresh0 in Hn. lia.
  - intros _ [?|?]; done.
Qed.

Lemma attempt_at sys i x :
  provider_inv sys → attempts sys !! i = Some x → i = 0%nat ∧ attempts sys = [x].
Proof.
  intros [[E|[y E]] _ _ _ _ _ _ _]; rewrite E; destruct i as [|i]; cbn; try done.
  - by intros [= ->].
Qed.

Lemma finishAttempt_ok sys i x p :
  provider_inv sys → attempts sys !! i = Some x →
  connectPromise_ p = connectPromise_ (provider sys) → promises_ p = promises_ (provider sys) →
  nextPromise p = nextPromise (provider sys) →
  (stopped_ p = false → is_Some (session_ p)) →
  ∃ sys', finishAttempt i sys p = Some sys' ∧ provider_inv sys' ∧ attempts sys' = [].
Proof.
  intros Hinv Hi E1 E2 E3 Hs. destruct (attempt_at _ _ _ Hinv Hi) as [-> Ea].
  assert (Hne : attempts sys ≠ []) by by rewrite Ea.
  set (q := with_connection Connected (client_ p) (session_ p) p).
  destruct (resolvePromise_defined sys Resolved q Hinv Hne E1 E2) as [p' Hp'].
  unfold finishAttempt, finishConnect. fold q. rewrite Hp'. cbn [mbind option_bind].
  eexists. split; [done|]. rewrite Ea. cbn. split; [|done].
  by apply (provider_inv_end sys Resolved q).
Qed.

Lemma failAttempt_ok sys i x :
  provider_inv sys → attempts sys !! i = Some x →
  ∃ p', failConnect (provider sys) = Some p' ∧ provider_inv (mkPSys p' (delete i (attempts sys))) ∧
    delete i (attempts sys) = [].
Proof.
  intros Hinv Hi. destruct (attempt_at _ _ _ Hinv Hi) as [-> Ea].
  assert (Hne : attempts sys ≠ []) by by rewrite Ea.
  set (q := with_connection Disconnected false (session_ (provider sys)) (provider sys)).
  destruct (resolvePromise_defined sys Failed q Hinv Hne eq_refl eq_refl) as [p' Hp'].
  unfold failConnect. fold q. rewrite Hp'. cbn [mbind option_bind].
  eexists. split; [done|]. rewrite Ea. cbn. split; [|done].
  by apply (provider_inv_end sys Failed q).
Qed.

Lemma setupDone_ok sys s :
  provider_inv sys → attempts sys = [Setup] →
  provider_inv (mkPSys (setupDone s (provider sys)) [Hook]).
Proof.
  intros [] Ea. rewrite Ea in *. split; cbn; eauto; try done.
  intros n Hn. by destruct (pi_pending0 n Hn).
Qed.

Lemma closed_inv sys p :
  provider_inv sys → attempts sys = [] → state_ p = Disconnected →
  connectPromise_ p = connectPromise_ (provider sys) → promises_ p = promises_ (provider sys) →
  nextPromise p = nextPromise (provider sys) → provider_inv (mkPSys p (attempts sys)).
Proof.
  intros Hinv Ea Es E1 E2 E3. apply provider_inv_quiet; auto.
  - congruence.
  - by intros _ ?.
  - rewrite Ea. intros _ [?|?]; congruence.
Qed.

Lemma onMoQSessionClosed_fields p :
  let p' := (onMoQSessionClosed p).1 in
  state_ p' = Disconnected ∧ session_ p' = None ∧ connectPromise_ p' = connectPromise_ p ∧
  promises_ p' = promises_ p ∧ nextPromise p' = nextPromise p ∧ stopped_ p' = stopped_ p.
Proof. unfold onMoQSessionClosed. cbn. by destruct (stopped_ p) eqn:E; cbn; rewrite ?E. Qed.

Lemma getOrConnectSession_defined sys :
  provider_inv sys → is_Some (getOrConnectSession (provider sys)).
Proof.
  intros Hinv. unfold getOrConnectSession. destruct (stopped_ _); [by eexists|].
  destruct (state_ (provider sys)) eqn:Es; [by eexists| |destruct (session_ _); by eexists].
  destruct (pi_inflight _ Hinv (pi_connecting _ Hinv Es)) as (n & -> & _). by eexists.
Qed.

Lemma provider_step_ok op sys :
  provider_inv sys → providerAdmissible op sys = true →
  ∃ sys', providerStep op sys = Some sys' ∧ provider_inv sys'.
Proof.
  intros Hinv Hadm. destruct op as [|i s|i|i| |uri| |]; cbn [providerStep].
  - destruct (getOrConnectSession_defined _ Hinv) as [c Ec]. rewrite Ec. cbn [mbind option_bind].
    eexists. split; [done|]. destruct c; try done. by apply getOrConnectSession_attempt.
  - destruct (attempts sys !! i) as [[]|] eqn:Ei; eauto.
    destruct (attempt_at _ _ _ Hinv Ei) as [-> Ea].
    destruct (onConnect_ _).
    + rewrite Ea. eexists. split; [done|]. by apply setupDone_ok.
    + edestruct (finishAttempt_ok sys 0 Setup (setupDone s (provider sys))) as (?&?&?&?); eauto.
  - destruct (attempts sys !! i) as [[]|] eqn:Ei; eauto.
    edestruct (finishAttempt_ok sys i Hook (provider sys)) as (?&?&?&?); eauto.
    destruct (attempt_at _ _ _ Hinv Ei). intros. apply (pi_session _ Hinv); auto.
  - destruct (attempts sys !! i) as [x|] eqn:Ei; [|eauto].
    destruct (failAttempt_ok _ _ _ Hinv Ei) as (p' & -> & ? & _). cbn [mbind option_bind]. eauto.
  - apply bool_decide_eq_true_1 in Hadm. eexists. split; [done|].
    destruct (onMoQSessionClosed_fields (provider sys)) as (?&?&?&?&?&?). by apply closed_inv.
  - apply bool_decide_eq_true_1 in Hadm. eexists. split; [done|]. unfold goaway.
    case_bool_decide.
    + destruct (onMoQSessionClosed_fields (provider sys)) as (?&?&?&?&?&?). by apply closed_inv.
    + destruct (onMoQSessionClosed_fields (with_url uri (provider sys))) as (?&?&?&?&?&?). by apply closed_inv.
  - eexists. split; [done|]. apply provider_inv_quiet; cbn; auto; try done. apply pi_connecting, Hinv.
  - cbn in Hadm. eexists. split; [done|]. apply provider_inv_quiet; cbn; try done; congruence.
Qed.

Lemma provider_run_inv ops : ∀ sys,
  provider_inv sys → admissibleRun ops sys = true →
  ∃ sys', providerRun ops sys = Some sys' ∧ provider_inv sys'.
Proof.
  induction ops as [|op ops IH]; intros sys Hinv; cbn; [eauto|].
  intros [Ha Hr]%andb_true_iff.
  destruct (provider_step_ok op sys Hinv Ha) as (sys' & E & Hinv').
  rewrite E in *. cbn [mbind option_bind]. eauto.
Qed.

(** C11: Over every admissible sequence of connects, set-ups, hook completions,
    failures, closes, GOAWAYs and shutdowns, no [CHECK] fails, no promise is
    resolved twice or broken, and at most one attempt is in flight; a caller
    that would wait is given a pending promise; every request finds its way to
    a session, an attempt or the error of a stopped provider; while the provider is
    running and connected the synchronous path has a session; and when the
    attempt in flight ends, in whichever way, no caller is left waiting. *)
Theorem provider_never_stuck url c d ops :
  admissibleRun ops (mkPSys (newProvider url c d) []) = true →
  ∃ sys, providerRun ops (mkPSys (newProvider url c d) []) = Some sys ∧
    (length (attempts sys) ≤ 1)%nat ∧
    (∀ n, promises_ (provider sys) !! n ≠ Some Broken) ∧
    (∀ n, getOrConnectSession (provider sys) = Some (AwaitConnect n) →
       promises_ (provider sys) !! n = Some Pending ∧ attempts sys ≠ []) ∧
    is_Some (forwardRequest (provider sys)) ∧
    (stopped_ (provider sys) = false → state_ (provider sys) = Connected →
       ∃ s, getSession (provider sys) = Some s ∧ forwardRequest (provider sys) = Some (Direct s) ∧
         publishRoute (provider sys) = PublishDirect s) ∧
    (attempts sys = [] → ∀ n, promises_ (provider sys) !! n ≠ Some Pending) ∧
    (attempts sys ≠ [] → ∃ sys', providerStep (PAttemptFails 0) sys = Some sys' ∧
       attempts sys' = [] ∧ ∀ n, promises_ (provider sys') !! n ≠ Some Pending) ∧
    (attempts sys = [Hook] → ∃ sys', providerStep (PHookDone 0) sys = Some sys' ∧
       attempts sys' = [] ∧ ∀ n, promises_ (provider sys') !! n ≠ Some Pending).
Proof.
  intros Ha. destruct (provider_run_inv ops _ (newProvider_inv url c d) Ha) as (sys & -> & Hinv).
  assert (Hidle : ∀ sys', provider_inv sys' → attempts sys' = [] →
    ∀ n, promises_ (provider sys') !! n ≠ Some Pending).
  { intros sys' Hi E n Hn. by apply (pi_pending _ Hi) in Hn as [_ ?]. }
  exists sys. split; [done|]. split_and!; auto.
  - destruct (pi_attempts _ Hinv) as [->|[? ->]]; cbn; lia.
  - apply pi_unbroken, Hinv.
  - intros n. unfold getOrConnectSession. destruct (stopped_ _); [done|].
    destruct (state_ (provider sys)) eqn:Es; [done| |by destruct (session_ _)].
    pose proof (pi_connecting _ Hinv Es) as Hne.
    destruct (pi_inflight _ Hinv Hne) as (m & -> & Hm). cbn. by intros [= <-].
  - unfold forwardRequest. destruct (getSession _); [by eexists|].
    destruct (getOrConnectSession_defined _ Hinv) as [x ->]. by eexists.
  - intros Hst Hs. destruct (pi_session _ Hinv Hst (or_introl Hs)) as [s Es]. exists s.
    unfold forwardRequest, publishRoute, getSession. by rewrite Hst, Hs, Es.
  - intros Hne. destruct (attempts sys) as [|x l] eqn:E; [done|].
    assert (Hi : attempts sys !! 0%nat = Some x) by by rewrite E.
    destruct (failAttempt_ok _ _ _ Hinv Hi) as (p' & Hp & Hinv' & Hd).
    cbn [providerStep]. rewrite Hi, Hp. cbn [mbind option_bind]. eexists. split; [done|].
    rewrite Hd in *. eauto.
  - intros Hk. assert (Hi : attempts sys !! 0%nat = Some Hook) by by rewrite Hk.
    cbn [providerStep]. rewrite Hi.
    edestruct (finishAttempt_ok sys 0 Hook (provider sys)) as (s' & -> & ? & ?); eauto.
    intros. apply (pi_session _ Hinv); auto.
Qed.

Definition sampleRun : list ProviderOp :=
  [PConnect; PConnect; PSetupDone 0 7; PHookDone 0; PClosed; PConnect; PAttemptFails 0;
   PGoaway "moqt://other"; PConnect; PSetupDone 0 8; PConnect; PStop; PClose].

Lemma provider_never_stuck_witness :
  admissibleRun sampleRun (mkPSys (newProvider "moqt://up" true true) []) = true ∧
  ∃ sys, providerRun sampleRun (mkPSys (newProvider "moqt://up" true true) []) = Some sys ∧
    attempts sys = [Hook] ∧ ∃ sys', providerStep (PHookDone 0) sys = Some sys'.
Proof.
  assert (H : admissibleRun sampleRun (mkPSys (newProvider "moqt://up" true true) []) = true)
    by (vm_compute; reflexivity).
  split; [exact H|].
  destruct (provider_never_stuck "moqt://up" true true sampleRun H)
    as (sys & E & _ & _ & _ & _ & _ & _ & _ & Hh).
  assert (Ea : attempts sys = [Hook]).
  { vm_compute in E. injection E as <-. reflexivity. }
  exists sys. split; [exact E|]. split; [exact Ea|].
  destruct (Hh Ea) as (sys' & Es & _). exists sys'. exact Es.
Defined.

(** A close notification while [onConnect] runs puts the provider back to
    Disconnected although the attempt goes on; the next caller starts a
    second attempt and breaks the first one's promise; the first attempt's
    completion then resolves the second's promise, before that has a
    session, and the second's own completion resolves it again. *)
Theorem close_during_hook_resolves_twice :
  providerRun [PConnect; PSetupDone 0 1; PClosed; PConnect; PHookDone 0; PSetupDone 0 2; PHookDone 0]
    (mkPSys (newProvider "moqt://up" true true) []) = None ∧
  (∃ sys, providerRun [PConnect; PSetupDone 0 1; PClosed; PConnect; PHookDone 0]
       (mkPSys (newProvider "moqt://up" true true) []) = Some sys ∧
     promises_ (provider sys) !! 0 = Some Broken ∧ promises_ (provider sys) !! 1 = Some Resolved ∧
     state_ (provider sys) = Connected ∧ session_ (provider sys) = None).
Proof.
  split; [vm_compute; reflexivity|]. eexists. split; [vm_compute; reflexivity|].
  split_and!; vm_compute; reflexivity.
Qed.

(** ** Backoff *)

Fixpoint loopFailures (n : nat) (p : UpstreamProvider) : UpstreamProvider :=
  match n with O => p | S n => (loopFailed (loopFailures n p)).1 end.

Lemma loopFailures_stopped n p : stopped_ (loopFailures n p) = stopped_ p.
Proof.
  induction n as [|n IH]; [done|]. cbn. unfold loopFailed.
  by destruct (stopped_ (loopFailures n p)) eqn:E; cbn; rewrite ?E.
Qed.

Lemma loopFailures_backoff n p :
  stopped_ p = false →
  reconnectBackoff_ (loopFailures (S n) p) = nextBackoff (reconnectBackoff_ (loopFailures n p)).
Proof. intros Hs. cbn. unfold loopFailed. by rewrite loopFailures_stopped, Hs. Qed.

(** The backoff of a running provider after [n + 1] failed rounds in a row is
    [1000 * 2^n] milliseconds, at most a minute, and a round that connects or
    a closed session starts it over: the loop's first retry is immediate. *)
Theorem backoff_doubles p n :
  stopped_ p = false →
  reconnectBackoff_ (loopFailures (S n) (loopConnected p).1) = Z.min (1000 * 2 ^ Z.of_nat n) 60000 ∧
  (loopFailed (loopFailures n (loopConnected p).1)).2 = true ∧
  reconnectBackoff_ (onMoQSessionClosed p).1 = 0.
Proof.
  intros Hs. split_and!.
  - induction n as [|n IH]; rewrite loopFailures_backoff by done; [done|]. rewrite IH.
    unfold nextBackoff, kMaxReconnectBackoff, kInitialReconnectBackoff.
    assert (0 < 2 ^ Z.of_nat n) by (apply Z.pow_pos_nonneg; lia).
    rewrite Nat2Z.inj_succ, Z.pow_succ_r by lia.
    destruct (Z.eqb_spec (Z.min (1000 * 2 ^ Z.of_nat n) 60000) 0); lia.
  - unfold loopFailed. rewrite loopFailures_stopped. cbn. by rewrite Hs.
  - unfold onMoQSessionClosed. cbn. by rewrite Hs.
Qed.

Lemma backoff_doubles_witness :
  reconnectBackoff_ (loopFailures 4 (loopConnected (newProvider "moqt://up" true true)).1) = 8000 ∧
  reconnectBackoff_ (loopFailures 8 (loopConnected (newProvider "moqt://up" true true)).1) = 60000.
Proof.
  split.
  - exact (proj1 (backoff_doubles (newProvider "moqt://up" true true) 3 eq_refl)).
  - exact (proj1 (backoff_doubles (newProvider "moqt://up" true true) 7 eq_refl)).
Defined.

(** ** Peering requests *)

Definition kRelayAuthTokenType : Z := 0x1B2C3D4E5F6A7B8C.

Record AuthToken := mkAuthToken { tokenType : Z; tokenValue : string }.
Record RequestParam := mkParam { key : Z; asAuthToken : AuthToken }.
Inductive NamespaceOptions := PUBLISH | NAMESPACE | BOTH.
Record PeerSubNs := mkPeerSubNs {
  trackNamespacePrefix : list string; options : NamespaceOptions; forward : bool;
  params : list RequestParam }.

Section Peering.
(** The parameter key of an authorization token, an enumerator of the
    protocol library. *)
Context (AUTHORIZATION_TOKEN : Z).

Fixpoint findRelayToken (ps : list RequestParam) : option string :=
  match ps with
  | [] => None
  | param :: ps =>
      if (key param =? AUTHORIZATION_TOKEN) &&
         (tokenType (asAuthToken param) =? kRelayAuthTokenType)
      then Some (tokenValue (asAuthToken param))
      else findRelayToken ps
  end.

Definition getPeerRelayID (subNs : PeerSubNs) : option string := findRelayToken (params subNs).

Definition makePeerSubNs (relayID : option string) : PeerSubNs :=
  mkPeerSubNs [] BOTH false
    (match relayID with
     | Some id => [mkParam AUTHORIZATION_TOKEN (mkAuthToken kRelayAuthTokenType id)]
     | None => []
     end).

(** A peering request names the relay that made it, and the reciprocal
    request, made without an identity, names none, so that it is not
    answered by another; parameters that carry no relay token, before it
    or after it, change nothing.  The token type fits a QUIC integer. *)
Theorem peering_roundtrip id before after :
  findRelayToken before = None → findRelayToken after = None →
  getPeerRelayID
    (mkPeerSubNs [] BOTH false (before ++ params (makePeerSubNs id) ++ after)) = id ∧
  0 ≤ kRelayAuthTokenType < 2 ^ 62.
Proof.
  intros Hb Ha. split; [|done]. unfold getPeerRelayID. cbn [params].
  induction before as [|q l IH]; cbn [app findRelayToken] in *.
  - destruct id; cbn; by rewrite ?Z.eqb_refl.
  - by destruct ((key q =? _) && _); [|apply IH].
Qed.

End Peering.

Lemma peering_roundtrip_witness :
  getPeerRelayID 3 (makePeerSubNs 3 (Some "relay-1")) = Some "relay-1" ∧
  getPeerRelayID 3 (mkPeerSubNs [] BOTH false
    ([mkParam 3 (mkAuthToken 1 "user")] ++ params (makePeerSubNs 3 None) ++ [])) = None.
Proof.
  split.
  - exact (proj1 (peering_roundtrip 3 (Some "relay-1") [] [] eq_refl eq_refl)).
  - exact (proj1 (peering_roundtrip 3 None [mkParam 3 (mkAuthToken 1 "user")] [] eq_refl eq_refl)).
Defined.
