(* ===== verification/WeiDetector.v ===== *)
(** * WeiDetector: shared-bottleneck groups from ECN marks

    Models [src/src/sbd/WeiDetector.{h,cpp}]: the per-connection packet
    ordinals and feedback watermark, the congestion events, the observations
    that wait for feedback, and the groups they create, confirm and dissolve.

    A [std::map] of connections or groups is a [gmap]; [observations_], which
    is keyed by an increasing identifier, is the list of its values in key
    order.  Rows of the event file are [LogRow]s; the output files themselves
    are not modelled.  Identifiers and packet ordinals count up without
    wrap-around.  [None] is a missing key in [at]. *)

From S2P Require Import Prelude.

Inductive State := Monitoring | Judgement | FinalJudgement.
#[export] Instance State_eq_dec : EqDecision State.
Proof. solve_decision. Defined.

Inductive EventType := Ce | Loss.

Inductive Stage := Preliminary | VerifyPreliminary | VerifyFinal.
#[export] Instance Stage_eq_dec : EqDecision Stage.
Proof. solve_decision. Defined.

Record CongestionEvent := mkEvent {
  type_ : EventType; time_ : Z; packetIndex : Z; count_ : Z }.

Record Connection := mkConnection {
  peer_ : string;
  eligible_ : bool;
  closed_ : bool;
  state_ : State;
  groupId_ : option Z;
  ect0_ : Z; ect1_ : Z; ce_ : Z;
  cwndBytes_ : Z; maxDatagramSize_ : Z;
  sentPackets_ : Z; feedbackWatermark_ : Z;
  packetIndex_ : gmap Z Z;        (* packet number to ordinal *)
  resolvedPackets_ : gset Z;
  events_ : list CongestionEvent;
}.

Definition newConnection : Connection :=
  mkConnection EmptyString false false Monitoring None 0 0 0 0 0 0 0 ∅ ∅ [].

Record Window := mkWindow { anchor : Z; half : Z; lower : Z; upper : Z }.

Record Observation := mkObservation {
  obsId : Z;
  stage : Stage;
  trigger : string;
  triggerTime : Z; triggerUnixNs : Z;
  triggerCwndBytes : Z; triggerMaxDatagramSize : Z; triggerHalf : Z;
  ceDelta : Z;
  obsGroup : option Z;
  windows : gmap string Window;
}.

Record Group := mkGroup {
  confirmed : bool;
  members : gset string;
  created : Z * Z;          (* monotonic and unix time *)
  confirmedAt : Z * Z;
}.

(** Rows of the event file. *)
Inductive LogRow :=
| CongestionRow (id : string) (type : EventType) (time count ceDelta packet : Z)
| StartedRow (o : Observation)
| DecisionRow (o : Observation) (candidates : gset string) (success : bool) (result : string)
    (group : option Z)
| InvalidatedRow (group : Z) (g : Group) (reason : string).

Record WeiDetector := mkWei {
  enabled_ : bool;
  connections_ : gmap string Connection;
  groups_ : gmap Z Group;
  observations_ : list Observation;
  nextGroupId_ : Z;
  nextObservationId_ : Z;
  rows_ : list LogRow;            (* latest first *)
}.

Definition newWei (enabled : bool) : WeiDetector := mkWei enabled ∅ ∅ [] 1 1 [].

(** ** Field updates *)

Definition attached (p : string) (c : Connection) : Connection :=
  mkConnection p (eligible_ c) false (state_ c) (groupId_ c) (ect0_ c) (ect1_ c) (ce_ c)
    (cwndBytes_ c) (maxDatagramSize_ c) (sentPackets_ c) (feedbackWatermark_ c) (packetIndex_ c)
    (resolvedPackets_ c) (events_ c).
Definition with_group (s : State) (g : option Z) (c : Connection) : Connection :=
  mkConnection (peer_ c) (eligible_ c) (closed_ c) s g (ect0_ c) (ect1_ c) (ce_ c) (cwndBytes_ c)
    (maxDatagramSize_ c) (sentPackets_ c) (feedbackWatermark_ c) (packetIndex_ c)
    (resolvedPackets_ c) (events_ c).
Definition with_closed (b : bool) (c : Connection) : Connection :=
  mkConnection (peer_ c) (eligible_ c) b (state_ c) (groupId_ c) (ect0_ c) (ect1_ c) (ce_ c)
    (cwndBytes_ c) (maxDatagramSize_ c) (sentPackets_ c) (feedbackWatermark_ c) (packetIndex_ c)
    (resolvedPackets_ c) (events_ c).
Definition with_cwnd (cwnd mds : Z) (c : Connection) : Connection :=
  mkConnection (peer_ c) (eligible_ c) (closed_ c) (state_ c) (groupId_ c) (ect0_ c) (ect1_ c)
    (ce_ c) cwnd mds (sentPackets_ c) (feedbackWatermark_ c) (packetIndex_ c)
    (resolvedPackets_ c) (events_ c).
Definition with_packets (sent mark : Z) (m : gmap Z Z) (r : gset Z) (c : Connection) : Connection :=
  mkConnection (peer_ c) (eligible_ c) (closed_ c) (state_ c) (groupId_ c) (ect0_ c) (ect1_ c)
    (ce_ c) (cwndBytes_ c) (maxDatagramSize_ c) sent mark m r (events_ c).
Definition with_ecn (e0 e1 e2 : Z) (c : Connection) : Connection :=
  mkConnection (peer_ c) (eligible_ c) (closed_ c) (state_ c) (groupId_ c) e0 e1 e2 (cwndBytes_ c)
    (maxDatagramSize_ c) (sentPackets_ c) (feedbackWatermark_ c) (packetIndex_ c)
    (resolvedPackets_ c) (events_ c).
Definition with_events (l : list CongestionEvent) (c : Connection) : Connection :=
  mkConnection (peer_ c) (eligible_ c) (closed_ c) (state_ c) (groupId_ c) (ect0_ c) (ect1_ c)
    (ce_ c) (cwndBytes_ c) (maxDatagramSize_ c) (sentPackets_ c) (feedbackWatermark_ c)
    (packetIndex_ c) (resolvedPackets_ c) l.

Definition set_connections (m : gmap string Connection) (d : WeiDetector) : WeiDetector :=
  mkWei (enabled_ d) m (groups_ d) (observations_ d) (nextGroupId_ d) (nextObservationId_ d) (rows_ d).
Definition set_groups (m : gmap Z Group) (d : WeiDetector) : WeiDetector :=
  mkWei (enabled_ d) (connections_ d) m (observations_ d) (nextGroupId_ d) (nextObservationId_ d)
    (rows_ d).
Definition set_observations (l : list Observation) (d : WeiDetector) : WeiDetector :=
  mkWei (enabled_ d) (connections_ d) (groups_ d) l (nextGroupId_ d) (nextObservationId_ d) (rows_ d).
Definition log (r : LogRow) (d : WeiDetector) : WeiDetector :=
  mkWei (enabled_ d) (connections_ d) (groups_ d) (observations_ d) (nextGroupId_ d)
    (nextObservationId_ d) (r :: rows_ d).

(** [connections_[id]]: a missing connection is created. *)
Definition connection (id : string) (d : WeiDetector) : Connection :=
  default newConnection (connections_ d !! id).
Definition put (id : string) (c : Connection) (d : WeiDetector) : WeiDetector :=
  set_connections (<[id := c]> (connections_ d)) d.

(** [flow.eligible && !flow.closed]. *)
Definition active (c : Connection) : bool := eligible_ c && negb (closed_ c).

(** ** Packets *)

Definition saturatedAdd (left right : Z) : Z :=
  if u64_max - left <? right then u64_max else left + right.

Definition halfWindow (c : Connection) : Z :=
  if maxDatagramSize_ c =? 0 then 0 else cwndBytes_ c / maxDatagramSize_ c / 2.

Definition writePacket (c : Connection) (packetNumber : Z) : Connection :=
  match packetIndex_ c !! packetNumber with
  | Some _ => c
  | None =>
      with_packets (sentPackets_ c + 1) (feedbackWatermark_ c)
        (<[packetNumber := sentPackets_ c + 1]> (packetIndex_ c)) (resolvedPackets_ c) c
  end.

Definition packetsWritten (id : string) (packetNumbers : list Z) (cwnd mds : Z) (d : WeiDetector) :
    WeiDetector :=
  if negb (enabled_ d) || bool_decide (packetNumbers = []) then d
  else put id (foldl writePacket (with_cwnd cwnd mds (connection id d)) packetNumbers) d.

Definition resolveOne (c : Connection) (packetNumber : Z) : Connection :=
  match packetIndex_ c !! packetNumber with
  | None => c
  | Some i =>
      with_packets (sentPackets_ c) (feedbackWatermark_ c) (delete packetNumber (packetIndex_ c))
        ({[i]} ∪ resolvedPackets_ c) c
  end.

(** The loop that moves the watermark erases a resolved ordinal per round, so
    that it ends within as many rounds as there are. *)
Fixpoint advance (fuel : nat) (mark : Z) (resolved : gset Z) : Z * gset Z :=
  match fuel with
  | O => (mark, resolved)
  | S fuel =>
      if decide (mark + 1 ∈ resolved) then advance fuel (mark + 1) (resolved ∖ {[mark + 1]})
      else (mark, resolved)
  end.

Definition resolvePackets (c : Connection) (packetNumbers : list Z) : Connection :=
  let c := foldl resolveOne c packetNumbers in
  let '(mark, r) := advance (size (resolvedPackets_ c)) (feedbackWatermark_ c) (resolvedPackets_ c) in
  with_packets (sentPackets_ c) mark (packetIndex_ c) r c.

Definition recordEvent (type : EventType) (time count : Z) (c : Connection) : Connection :=
  with_events (events_ c ++ [mkEvent type time (sentPackets_ c) count]) c.

(** ** Observations *)

Definition hasEvidence (c : Connection) (w : Window) : bool :=
  existsb (λ e, (lower w <=? packetIndex e) && (packetIndex e <=? upper w)) (events_ c).

Definition windowReady (d : WeiDetector) (id : string) (w : Window) : Prop :=
  match connections_ d !! id with
  | Some c => active c = true → upper w <= feedbackWatermark_ c
  | None => True
  end.

#[export] Instance windowReady_dec d id w : Decision (windowReady d id w).
Proof. unfold windowReady. destruct (connections_ d !! id); apply _. Defined.

Definition observationReady (d : WeiDetector) (o : Observation) : bool :=
  bool_decide (map_Forall (windowReady d) (windows o)).

Definition candidateWindow (c : Connection) : Window :=
  let h := halfWindow c in
  mkWindow (sentPackets_ c) h (if h <? sentPackets_ c then sentPackets_ c - h else 0)
    (saturatedAdd (sentPackets_ c) h).

Definition includes (d : WeiDetector) (group : option Z) (id : string) (c : Connection) : bool :=
  bool_decide (state_ c = Monitoring) ||
  match group with
  | Some g => match groups_ d !! g with
              | Some grp => bool_decide (id ∈ members grp)
              | None => false
              end
  | None => false
  end.

Definition candidateWindows (d : WeiDetector) (trig : string) (group : option Z) :
    gmap string Window :=
  map_imap (λ id c,
    if bool_decide (id = trig) || negb (active c) || negb (includes d group id c) then None
    else Some (candidateWindow c)) (connections_ d).

(** The stage and group of a new observation, unless one is pending. *)
Definition observationStage (trig : string) (c : Connection) (d : WeiDetector) :
    option (Stage * option Z) :=
  match state_ c with
  | Monitoring =>
      if existsb (λ o, bool_decide (stage o = Preliminary) && bool_decide (trigger o = trig))
           (observations_ d)
      then None else Some (Preliminary, None)
  | s =>
      match groupId_ c with
      | None => None
      | Some g =>
          if negb (bool_decide (is_Some (groups_ d !! g))) then None
          else if existsb (λ o, bool_decide (obsGroup o = Some g)) (observations_ d) then None
          else Some (if decide (s = Judgement) then VerifyPreliminary else VerifyFinal, Some g)
      end
  end.

Definition startObservation (trig : string) (time unix delta : Z) (d : WeiDetector) : WeiDetector :=
  let c := connection trig d in
  match observationStage trig c d with
  | None => d
  | Some (st, group) =>
      let o := mkObservation (nextObservationId_ d) st trig time unix (cwndBytes_ c)
                 (maxDatagramSize_ c) (halfWindow c) delta group (candidateWindows d trig group) in
      log (StartedRow o)
        (mkWei (enabled_ d) (connections_ d) (groups_ d) (observations_ d ++ [o]) (nextGroupId_ d)
           (nextObservationId_ d + 1) (rows_ d))
  end.

(** [connections_.at(id)] updated for every member. *)
Definition updateMembers (f : Connection → Connection) (ids : gset string) (d : WeiDetector) :
    option WeiDetector :=
  if bool_decide (ids ⊆ dom (connections_ d)) then
    Some (set_connections
      (map_imap (λ id c, Some (if bool_decide (id ∈ ids) then f c else c)) (connections_ d)) d)
  else None.

Definition dissolveGroup (g : Z) (reason : string) (d : WeiDetector) : WeiDetector :=
  match groups_ d !! g with
  | None => d
  | Some grp =>
      let conns := map_imap (λ id c,
        Some (if bool_decide (id ∈ members grp) then with_group Monitoring None c else c))
        (connections_ d) in
      let obs := filter (λ o, obsGroup o ≠ Some g) (observations_ d) in
      log (InvalidatedRow g grp reason)
        (set_groups (delete g (groups_ d)) (set_observations obs (set_connections conns d)))
  end.

(** A connection of the windows that is active, [Monitoring] and has evidence. *)
Definition matching (d : WeiDetector) (id : string) (w : Window) : Prop :=
  match connections_ d !! id with
  | Some c => active c = true ∧ state_ c = Monitoring ∧ hasEvidence c w = true
  | None => False
  end.

#[export] Instance matching_dec d id w : Decision (matching d id w).
Proof. unfold matching. destruct (connections_ d !! id); apply _. Defined.

Definition matchingIds (d : WeiDetector) (o : Observation) : gset string :=
  dom (filter (λ '(id, w), matching d id w) (windows o)).

Definition completePreliminary (now : Z * Z) (o : Observation) (c : Connection) (d : WeiDetector) :
    option WeiDetector :=
  if negb (bool_decide (state_ c = Monitoring)) then
    Some (log (DecisionRow o ∅ false "trigger_no_longer_monitoring" None) d)
  else
    let ids := {[trigger o]} ∪ matchingIds d o in
    if bool_decide (size ids < 2)%nat then
      Some (log (DecisionRow o ids false "no_preliminary_set" None) d)
    else
      let g := nextGroupId_ d in
      d ← updateMembers (with_group Judgement (Some g)) ids
            (mkWei (enabled_ d) (connections_ d) (<[g := mkGroup false ids now (0, 0)]> (groups_ d))
               (observations_ d) (g + 1) (nextObservationId_ d) (rows_ d));
      Some (log (DecisionRow o ids true "preliminary_set_created" (Some g)) d).

(** A member has evidence in its window. *)
Definition memberMatches (d : WeiDetector) (o : Observation) (id : string) : bool :=
  match windows o !! id, connections_ d !! id with
  | Some w, Some c => active c && hasEvidence c w
  | _, _ => false
  end.

Definition membersMatch (d : WeiDetector) (o : Observation) (grp : Group) : bool :=
  bool_decide (set_Forall (λ id, id = trigger o ∨ memberMatches d o id = true) (members grp)).

Definition outsiderMatch (d : WeiDetector) (o : Observation) (grp : Group) : bool :=
  negb (bool_decide (matchingIds d o ⊆ members grp)).

Definition completeVerify (now : Z * Z) (o : Observation) (c : Connection) (d : WeiDetector) :
    option WeiDetector :=
  match obsGroup o ≫= λ g, pair g <$> groups_ d !! g with
  | None => Some (log (DecisionRow o ∅ false "group_no_longer_exists" (obsGroup o)) d)
  | Some (g, grp) =>
      let expected := if decide (stage o = VerifyPreliminary) then Judgement else FinalJudgement in
      if negb (bool_decide (groupId_ c = obsGroup o)) || negb (bool_decide (state_ c = expected)) then
        Some (log (DecisionRow o (members grp) false "group_state_changed" (obsGroup o)) d)
      else if membersMatch d o grp && negb (outsiderMatch d o grp) then
        if confirmed grp then
          Some (log (DecisionRow o (members grp) true "confirmed_set_verified" (Some g)) d)
        else
          d ← updateMembers (λ c, with_group FinalJudgement (groupId_ c) c) (members grp)
                (set_groups (<[g := mkGroup true (members grp) (created grp) now]> (groups_ d)) d);
          Some (log (DecisionRow o (members grp) true "preliminary_set_confirmed" (Some g)) d)
      else
        let result := if outsiderMatch d o grp then "outside_connection_matched"
                      else "member_missing_evidence" in
        Some (dissolveGroup g "verification_failed"
                (log (DecisionRow o (members grp) false result (Some g)) d))
  end.

Definition completeObservation (now : Z * Z) (o : Observation) (d : WeiDetector) :
    option WeiDetector :=
  match connections_ d !! trigger o with
  | Some c =>
      if active c then
        if decide (stage o = Preliminary) then completePreliminary now o c d
        else completeVerify now o c d
      else Some (log (DecisionRow o ∅ false "trigger_inactive" None) d)
  | None => Some (log (DecisionRow o ∅ false "trigger_inactive" None) d)
  end.

(** The first ready observation, and the others. *)
Fixpoint takeReady (d : WeiDetector) (l : list Observation) : option (Observation * list Observation) :=
  match l with
  | [] => None
  | o :: l =>
      if observationReady d o then Some (o, l)
      else '(r, l) ← takeReady d l; Some (r, o :: l)
  end.

(** The loop erases an observation per round. *)
Fixpoint completeLoop (fuel : nat) (now : Z * Z) (d : WeiDetector) : option (WeiDetector * bool) :=
  match fuel with
  | O => Some (d, false)
  | S fuel =>
      match takeReady d (observations_ d) with
      | None => Some (d, false)
      | Some (o, l) =>
          d ← completeObservation now o (set_observations l d);
          '(d, _) ← completeLoop fuel now d;
          Some (d, true)
      end
  end.

Definition completeReadyObservations (now : Z * Z) (d : WeiDetector) : option (WeiDetector * bool) :=
  completeLoop (length (observations_ d)) now d.

(** ** Interface *)

Definition dropWindow (id : string) (o : Observation) : Observation :=
  mkObservation (obsId o) (stage o) (trigger o) (triggerTime o) (triggerUnixNs o)
    (triggerCwndBytes o) (triggerMaxDatagramSize o) (triggerHalf o) (ceDelta o) (obsGroup o)
    (delete id (windows o)).

Definition removed (c : Connection) : Connection :=
  mkConnection (peer_ c) false (closed_ c) Monitoring None (ect0_ c) (ect1_ c) (ce_ c) (cwndBytes_ c)
    (maxDatagramSize_ c) (sentPackets_ c) (feedbackWatermark_ c) (packetIndex_ c)
    (resolvedPackets_ c) [].

Definition removeFromDetection (now : Z * Z) (id reason : string) (d : WeiDetector) :
    option WeiDetector :=
  match connections_ d !! id with
  | None => Some d
  | Some c =>
      let d := match groupId_ c with Some g => dissolveGroup g reason d | None => d end in
      let d := put id (removed (connection id d)) d in
      let obs := dropWindow id <$> filter (λ o, trigger o ≠ id) (observations_ d) in
      '(d, _) ← completeReadyObservations now (set_observations obs d);
      Some d
  end.

Definition attach (id peer : string) (d : WeiDetector) : WeiDetector :=
  if negb (enabled_ d) || bool_decide (id = EmptyString) then d
  else put id (attached peer (connection id d)) d.

Definition restarted (c : Connection) : Connection :=
  mkConnection (peer_ c) true false Monitoring None (ect0_ c) (ect1_ c) (ce_ c) (cwndBytes_ c)
    (maxDatagramSize_ c) 0 0 ∅ ∅ [].

Definition eligible (now : Z * Z) (id : string) (value : bool) (d : WeiDetector) : option WeiDetector :=
  if negb (enabled_ d) || bool_decide (id = EmptyString) then Some d
  else
    let c := connection id d in
    let d := put id c d in
    if Bool.eqb (eligible_ c) value && negb (closed_ c) then Some d
    else if value then Some (put id (restarted c) d)
    else removeFromDetection now id "ineligible" d.

Definition close (now : Z * Z) (id : string) (d : WeiDetector) : option WeiDetector :=
  if negb (enabled_ d) || bool_decide (id = EmptyString) then Some d
  else
    d ← removeFromDetection now id "connection_closed" d;
    match connections_ d !! id with
    | Some c => Some (put id (with_closed true c) d)
    | None => Some d
    end.

(** [ackEcn] and [loss] up to the completion of observations. *)
Definition ackRecord (now : Z * Z) (id : string) (ackTime : Z) (acked : list Z)
    (e0 e1 e2 cwnd mds : Z) (d : WeiDetector) : WeiDetector :=
  let c := resolvePackets (with_cwnd cwnd mds (connection id d)) acked in
  let previousCe := ce_ c in
  let c := with_ecn (Z.max (ect0_ c) e0) (Z.max (ect1_ c) e1) (Z.max (ce_ c) e2) c in
  let deltaCe := ce_ c - previousCe in
  if negb (deltaCe =? 0) && active c then
    startObservation id ackTime now.2 deltaCe
      (log (CongestionRow id Ce ackTime deltaCe deltaCe (sentPackets_ c))
         (put id (recordEvent Ce ackTime deltaCe c) d))
  else put id c d.

Definition lossRecord (id : string) (lossTime : Z) (lost : list Z) (cwnd mds : Z) (d : WeiDetector) :
    WeiDetector :=
  let c := resolvePackets (with_cwnd cwnd mds (connection id d)) lost in
  if active c then
    log (CongestionRow id Loss lossTime (Z.of_nat (length lost)) 0 (sentPackets_ c))
      (put id (recordEvent Loss lossTime (Z.of_nat (length lost)) c) d)
  else put id c d.

Definition ackEcn (now : Z * Z) (id : string) (ackTime : Z) (acked : list Z) (e0 e1 e2 cwnd mds : Z)
    (d : WeiDetector) : option WeiDetector :=
  if negb (enabled_ d) then Some d
  else
    '(d, _) ← completeReadyObservations now (ackRecord now id ackTime acked e0 e1 e2 cwnd mds d);
    Some d.

Definition loss (now : Z * Z) (id : string) (lossTime : Z) (lost : list Z) (cwnd mds : Z)
    (d : WeiDetector) : option WeiDetector :=
  if negb (enabled_ d) || bool_decide (lost = []) then Some d
  else
    '(d, _) ← completeReadyObservations now (lossRecord id lossTime lost cwnd mds d);
    Some d.

(** What [buildSnapshotLocked] reports about groups. *)
Record Snapshot := mkSnapshot {
  independent : gset string;
  snapGroups : gmap Z (gset string);
  candidateGroups : gmap Z (gset string);
}.

Definition buildSnapshot (d : WeiDetector) : Snapshot :=
  mkSnapshot
    (dom (filter (λ '(_, c), active c = true ∧ state_ c = Monitoring) (connections_ d)))
    (members <$> filter (λ '(_, g), confirmed g = true) (groups_ d))
    (members <$> filter (λ '(_, g), confirmed g = false) (groups_ d)).

(** ** Runs *)

Inductive WeiOp :=
| WAttach (id peer : string)
| WEligible (now : Z * Z) (id : string) (value : bool)
| WClose (now : Z * Z) (id : string)
| WPackets (id : string) (pns : list Z) (cwnd mds : Z)
| WAck (now : Z * Z) (id : string) (time : Z) (pns : list Z) (e0 e1 e2 cwnd mds : Z)
| WLoss (now : Z * Z) (id : string) (time : Z) (pns : list Z) (cwnd mds : Z).

Definition weiStep (op : WeiOp) (d : WeiDetector) : option WeiDetector :=
  match op with
  | WAttach id peer => Some (attach id peer d)
  | WEligible now id v => eligible now id v d
  | WClose now id => close now id d
  | WPackets id pns cwnd mds => Some (packetsWritten id pns cwnd mds d)
  | WAck now id t pns e0 e1 e2 cwnd mds => ackEcn now id t pns e0 e1 e2 cwnd mds d
  | WLoss now id t pns cwnd mds => loss now id t pns cwnd mds d
  end.

Fixpoint weiRun (ops : list WeiOp) (d : WeiDetector) : option WeiDetector :=
  match ops with
  | [] => Some d
  | op :: ops => d ← weiStep op d; weiRun ops d
  end.
