(* ===== verification/WeiInvariant.v ===== *)
(** * WeiDetector: the invariant of groups, connections and observations

    Every operation of [WeiDetector] preserves [wei_inv]: membership and the
    states of connections agree, an observation waits only for active
    connections and its trigger still has the role it had when the observation
    started, and no ready observation is left pending. *)

From S2P Require Import Prelude WeiDetector.

(** The role of a member follows from its group. *)
Definition memberState (grp : Group) : State := if confirmed grp then FinalJudgement else Judgement.
Definition verifyStage (grp : Group) : Stage := if confirmed grp then VerifyFinal else VerifyPreliminary.

Definition conn_ok (d : WeiDetector) (id : string) (c : Connection) : Prop :=
  (closed_ c = true → eligible_ c = false) ∧
  match groupId_ c with
  | None => state_ c = Monitoring
  | Some g => active c = true ∧ events_ c ≠ [] ∧
      ∃ grp, groups_ d !! g = Some grp ∧ id ∈ members grp ∧ state_ c = memberState grp
  end.

Definition group_ok (d : WeiDetector) (g : Z) (grp : Group) : Prop :=
  (2 ≤ size (members grp))%nat ∧ g < nextGroupId_ d ∧
  ∀ id, id ∈ members grp → ∃ c, connections_ d !! id = Some c ∧ groupId_ c = Some g.

Definition obs_ok (d : WeiDetector) (o : Observation) : Prop :=
  (∃ c, connections_ d !! trigger o = Some c ∧ active c = true ∧ events_ c ≠ []) ∧
  match obsGroup o with
  | None => stage o = Preliminary
  | Some g => ∃ grp, groups_ d !! g = Some grp ∧ trigger o ∈ members grp ∧ stage o = verifyStage grp
  end ∧
  ∀ id w, windows o !! id = Some w → ∃ c, connections_ d !! id = Some c ∧ active c = true.

(** Results that no decision has. *)
Definition deadResults : list string :=
  ["trigger_inactive"; "group_no_longer_exists"; "group_state_changed"].

Definition row_ok (r : LogRow) : Prop :=
  match r with DecisionRow _ _ _ result _ => result ∉ deadResults | _ => True end.

Lemma not_dead r :
  forallb (λ x, negb (bool_decide (r = x))) deadResults = true → r ∉ deadResults.
Proof.
  intros H Hr. rewrite forallb_forall in H. apply list_elem_of_In in Hr.
  specialize (H r Hr). by rewrite bool_decide_eq_true_2 in H.
Qed.

Record wei_inv (d : WeiDetector) : Prop := mkWeiInv {
  wi_conn : map_Forall (conn_ok d) (connections_ d);
  wi_group : map_Forall (group_ok d) (groups_ d);
  wi_obs : Forall (obs_ok d) (observations_ d);
  wi_single : NoDup (omap obsGroup (observations_ d));
  wi_rows : Forall row_ok (rows_ d);
}.

Lemma newWei_inv b : wei_inv (newWei b).
Proof. split; cbn; [apply map_Forall_empty|apply map_Forall_empty|constructor|constructor|constructor]. Qed.

Lemma log_inv r d : row_ok r → wei_inv d → wei_inv (log r d).
Proof. intros Hr []. split; try done. by constructor. Qed.

Lemma connection_lookup id c d : connections_ d !! id = Some c → connection id d = c.
Proof. unfold connection. by intros ->. Qed.

Lemma connection_put id c d : connection id (put id c d) = c.
Proof. unfold connection. cbn. by rewrite lookup_insert_eq. Qed.

(** ** One connection changes, its role does not *)

Definition same_role (c c' : Connection) : Prop :=
  groupId_ c' = groupId_ c ∧ state_ c' = state_ c ∧ active c' = active c ∧
  (events_ c ≠ [] → events_ c' ≠ []) ∧ (closed_ c' = true → eligible_ c' = false).

Lemma put_lookup id c d id' c0 :
  connections_ d !! id' = Some c0 → same_role (connection id d) c →
  ∃ c1, connections_ (put id c d) !! id' = Some c1 ∧ groupId_ c1 = groupId_ c0 ∧
    active c1 = active c0 ∧ (events_ c0 ≠ [] → events_ c1 ≠ []).
Proof.
  intros Hc (Hg & _ & Ha & He & _). cbn. destruct (decide (id' = id)) as [->|?].
  - rewrite lookup_insert_eq. exists c. unfold connection in *. rewrite Hc in *. cbn in *. done.
  - rewrite lookup_insert_ne by done. eauto.
Qed.

Lemma put_inv id c d : wei_inv d → same_role (connection id d) c → wei_inv (put id c d).
Proof.
  intros Hinv Hrole. pose proof (λ id' c0 H, put_lookup id c d id' c0 H Hrole) as Hput.
  destruct Hinv. split; try done.
  - intros id' c'. cbn. destruct (decide (id' = id)) as [->|?].
    + rewrite lookup_insert_eq. intros [= <-]. destruct Hrole as (Hg & Hs & Ha & He & Hc).
      split; [done|]. cbn. rewrite Hg, Hs, Ha. unfold connection in *.
      destruct (connections_ d !! id) as [c0|] eqn:E; cbn in *; [|done].
      destruct (wi_conn0 id c0 E) as [_ H]. destruct (groupId_ c0); [|done].
      destruct H as (? & ? & ?). auto.
    + rewrite lookup_insert_ne by done. intros H. apply (wi_conn0 _ _ H).
  - intros g grp H. destruct (wi_group0 g grp H) as (? & ? & Hm). split_and!; [done|done|].
    intros id' Hid. destruct (Hm id' Hid) as (c0 & Hc0 & Hg). destruct (Hput _ _ Hc0) as (c1 & ? & ? & _).
    exists c1. split; [done|congruence].
  - eapply Forall_impl; [exact wi_obs0|]. intros o (( c0 & Hc0 & Ha & He) & Hs & Hw). split_and!; [|done|].
    + destruct (Hput _ _ Hc0) as (c1 & ? & ? & ? & ?). exists c1. rewrite <-Ha. auto.
    + intros id' w Hid. destruct (Hw id' w Hid) as (c0' & Hc0' & Ha').
      destruct (Hput _ _ Hc0') as (c1 & ? & ? & ? & ?). exists c1. split; [done|congruence].
Qed.

Lemma connection_closed id d :
  wei_inv d → closed_ (connection id d) = true → eligible_ (connection id d) = false.
Proof.
  intros Hinv. unfold connection. destruct (connections_ d !! id) as [c|] eqn:E; cbn; [|done].
  apply (wi_conn _ Hinv id c E).
Qed.

(** Updates of packets and counters keep the role. *)
Lemma writePackets_role c l :
  let c' := foldl writePacket c l in
  groupId_ c' = groupId_ c ∧ state_ c' = state_ c ∧ eligible_ c' = eligible_ c ∧
  closed_ c' = closed_ c ∧ events_ c' = events_ c.
Proof.
  cbn. revert c. induction l as [|pn l IH]; intros c; cbn; [done|].
  destruct (IH (writePacket c pn)) as (-> & -> & -> & -> & ->).
  unfold writePacket. by destruct (packetIndex_ c !! pn).
Qed.

Lemma resolvePackets_role c l :
  let c' := resolvePackets c l in
  groupId_ c' = groupId_ c ∧ state_ c' = state_ c ∧ eligible_ c' = eligible_ c ∧
  closed_ c' = closed_ c ∧ events_ c' = events_ c.
Proof.
  cbn. unfold resolvePackets.
  assert (H : ∀ c, let c' := foldl resolveOne c l in groupId_ c' = groupId_ c ∧ state_ c' = state_ c ∧
    eligible_ c' = eligible_ c ∧ closed_ c' = closed_ c ∧ events_ c' = events_ c).
  { cbn. clear c. induction l as [|pn l IH]; intros c; cbn; [done|].
    destruct (IH (resolveOne c pn)) as (-> & -> & -> & -> & ->).
    unfold resolveOne. by destruct (packetIndex_ c !! pn). }
  destruct (advance _ _ _). cbn. apply H.
Qed.

(** ** Dissolving a group *)

Lemma dissolveGroup_lookup g reason d id c :
  connections_ d !! id = Some c →
  ∃ c', connections_ (dissolveGroup g reason d) !! id = Some c' ∧ active c' = active c ∧
    events_ c' = events_ c ∧ closed_ c' = closed_ c ∧ eligible_ c' = eligible_ c ∧
    (c' = c ∨ groupId_ c' = None ∧ state_ c' = Monitoring).
Proof.
  intros Hc. unfold dissolveGroup. destruct (groups_ d !! g) as [grp|]; [|by eauto 8].
  cbn. rewrite map_lookup_imap, Hc. cbn. eexists. split; [done|]. by case_bool_decide; auto 8.
Qed.

Lemma dissolveGroup_inv g reason d :
  wei_inv d → wei_inv (dissolveGroup g reason d) ∧
  (length (observations_ (dissolveGroup g reason d)) ≤ length (observations_ d))%nat ∧
  groups_ (dissolveGroup g reason d) = delete g (groups_ d) ∧
  ∀ id c, connections_ (dissolveGroup g reason d) !! id = Some c → groupId_ c ≠ Some g.
Proof.
  intros Hinv. pose proof (dissolveGroup_lookup g reason d) as Hl. unfold dissolveGroup in *.
  destruct (groups_ d !! g) as [grp|] eqn:Eg; cycle 1.
  { split_and!; [done|done|by rewrite delete_id|]. intros id c Hc Hg.
    destruct (wi_conn _ Hinv id c Hc) as [_ H]. rewrite Hg in H. destruct H as (_ & _ & grp & ? & _). congruence. }
  assert (Hout : ∀ id c, connections_ d !! id = Some c → id ∉ members grp → groupId_ c ≠ Some g).
  { intros id c Hc Hid Hg. destruct (wi_conn _ Hinv id c Hc) as [_ H]. rewrite Hg in H.
    destruct H as (_ & _ & grp' & ? & ? & _). congruence. }
  split_and!.
  - apply log_inv; [done|]. destruct Hinv. split; cbn.
    + intros id c'. rewrite map_lookup_imap. destruct (connections_ d !! id) as [c|] eqn:Ec; [|done].
      cbn. intros [= <-]. destruct (wi_conn0 id c Ec) as [Hcl H]. case_bool_decide as Hid; [done|].
      split; [done|]. destruct (groupId_ c) as [g'|] eqn:Eg'; [|done].
      destruct H as (? & ? & grp' & Hg' & ? & ?). split_and!; [done|done|]. exists grp'. cbn.
      rewrite lookup_delete_ne; [done|]. intros ->. by apply (Hout id c Ec Hid).
    + intros g' grp' [Hne Hg']%lookup_delete_Some. destruct (wi_group0 g' grp' Hg') as (? & ? & Hm).
      split_and!; [done|done|]. intros id Hid. destruct (Hm id Hid) as (c & Hc & Hgc). cbn.
      rewrite map_lookup_imap, Hc. cbn. eexists. split; [done|].
      case_bool_decide as Hin; [|done]. destruct (wi_group0 g grp Eg) as (_ & _ & Hm').
      destruct (Hm' id Hin) as (? & ? & ?). congruence.
    + apply Forall_forall. intros o [Hg Ho]%list_elem_of_filter.
      rewrite Forall_forall in wi_obs0. destruct (wi_obs0 o Ho) as ((c & Hc & Ha & He) & Hs & Hw).
      split_and!.
      * destruct (Hl _ _ Hc) as (c' & Hc' & Ha' & He' & _). exists c'. cbn. rewrite Ha', He'. done.
      * destruct (obsGroup o) as [g'|]; [|done]. destruct Hs as (grp' & ? & ?). exists grp'. cbn.
        rewrite lookup_delete_ne by congruence. done.
      * intros id w Hid. destruct (Hw id w Hid) as (c0 & Hc0 & Ha0).
        destruct (Hl _ _ Hc0) as (c' & ? & ? & _). exists c'. split; [done|congruence].
    + eapply sublist_NoDup; [exact wi_single0|]. clear.
      induction (observations_ d) as [|o l IH]; [done|]. rewrite filter_cons. case_decide; cbn.
      * destruct (obsGroup o); [by apply sublist_skip|done].
      * destruct (obsGroup o); [by apply sublist_cons|done].
    + done.
  - cbn. apply length_filter.
  - done.
  - intros id c'. cbn. rewrite map_lookup_imap. destruct (connections_ d !! id) as [c|] eqn:Ec; [|done].
    cbn. intros [= <-]. case_bool_decide; [done|]. eauto.
Qed.

(** ** Completing an observation *)

Lemma set_observations_inv l d :
  wei_inv d → l `sublist_of` observations_ d → wei_inv (set_observations l d).
Proof.
  intros [] Hl. split; try done; cbn.
  - rewrite Forall_forall in *. intros o Ho. apply wi_obs0. by eapply elem_of_sublist.
  - eapply sublist_NoDup; [exact wi_single0|]. clear -Hl.
    induction Hl as [|o l1 l2 Hl IH|o l1 l2 Hl IH]; cbn; [done| |]; destruct (obsGroup o);
      by eauto using sublist_skip, sublist_cons.
Qed.

Lemma matching_conn d o id :
  id ∈ matchingIds d o → ∃ c, connections_ d !! id = Some c ∧ active c = true ∧
    state_ c = Monitoring ∧ events_ c ≠ [].
Proof.
  unfold matchingIds. rewrite elem_of_dom. intros [w [_ Hm]%map_lookup_filter_Some].
  unfold matching in Hm. destruct (connections_ d !! id) as [c|]; [|done].
  destruct Hm as (? & ? & He). exists c. split_and!; try done.
  intros E. unfold hasEvidence in He. by rewrite E in He.
Qed.

(** The members of a group change state together. *)
Lemma updateMembers_lookup f ids d d' id :
  updateMembers f ids d = Some d' →
  connections_ d' !! id = (λ c, if bool_decide (id ∈ ids) then f c else c) <$> connections_ d !! id.
Proof.
  unfold updateMembers. case_bool_decide; [|done]. intros [= <-]. cbn. rewrite map_lookup_imap.
  by destruct (connections_ d !! id).
Qed.

Lemma updateMembers_defined f ids d :
  (∀ id, id ∈ ids → is_Some (connections_ d !! id)) →
  ∃ d', updateMembers f ids d = Some d' ∧ groups_ d' = groups_ d ∧
    observations_ d' = observations_ d ∧ rows_ d' = rows_ d ∧ nextGroupId_ d' = nextGroupId_ d.
Proof.
  intros H. unfold updateMembers. rewrite bool_decide_eq_true_2; [by eauto 8|].
  intros id Hid. apply elem_of_dom. auto.
Qed.

Lemma completePreliminary_ok now o c d :
  wei_inv d → connections_ d !! trigger o = Some c → active c = true → events_ c ≠ [] →
  ∃ d', completePreliminary now o c d = Some d' ∧ wei_inv d' ∧ observations_ d' = observations_ d.
Proof.
  intros Hinv Hc Ha He. unfold completePreliminary.
  case_bool_decide as Hs; cbn [negb]; cycle 1.
  { eexists. split; [done|]. split; [|done]. apply log_inv; [by apply not_dead|done]. }
  set (ids := {[trigger o]} ∪ matchingIds d o). case_bool_decide as Hsize.
  { eexists. split; [done|]. split; [|done]. apply log_inv; [by apply not_dead|done]. }
  set (g := nextGroupId_ d). set (d1 := mkWei _ _ _ _ _ _ _).
  assert (Hids : ∀ id, id ∈ ids → ∃ c, connections_ d !! id = Some c ∧ active c = true ∧
    state_ c = Monitoring ∧ events_ c ≠ []).
  { intros id [->%elem_of_singleton|Hm]%elem_of_union; [by eauto|]. by apply matching_conn in Hm. }
  destruct (updateMembers_defined (with_group Judgement (Some g)) ids d1) as (d2 & E & Eg & Eo & Er & En).
  { intros id Hid. destruct (Hids id Hid) as (? & ? & _). by eexists. }
  rewrite E. cbn [mbind option_bind]. eexists. split; [done|]. split; [|done].
  apply log_inv; [by apply not_dead|].
  pose proof (λ id, updateMembers_lookup _ _ _ _ id E) as Hl. cbn in Hl.
  assert (Hfresh : ∀ g' grp, groups_ d !! g' = Some grp → groups_ d2 !! g' = Some grp).
  { intros g' grp H. rewrite Eg. cbn. rewrite lookup_insert_ne; [done|].
    destruct (wi_group _ Hinv g' grp H) as (_ & ? & _). unfold g. lia. }
  assert (Hlive : ∀ id c, connections_ d !! id = Some c → ∃ c', connections_ d2 !! id = Some c' ∧
    active c' = active c ∧ events_ c' = events_ c).
  { intros id c0 H0. rewrite Hl, H0. cbn. eexists. split; [done|]. by case_bool_decide. }
  destruct Hinv. split.
  - intros id c'. rewrite Hl. destruct (connections_ d !! id) as [c0|] eqn:E0; [|done].
    cbn. intros [= <-]. destruct (wi_conn0 id c0 E0) as [Hcl H]. case_bool_decide as Hid.
    + destruct (Hids id Hid) as (c1 & ? & ? & ? & ?). simplify_eq. split; [done|]. cbn.
      split_and!; [done|done|]. rewrite Eg. cbn. rewrite lookup_insert_eq. by eexists.
    + split; [done|]. destruct (groupId_ c0); [|done]. destruct H as (? & ? & grp & Hg & ? & ?).
      split_and!; [done|done|]. exists grp. auto.
  - intros g' grp'. rewrite Eg. cbn. intros [[<- <-]|[Hne Hg']]%lookup_insert_Some.
    + split_and!; cbn; [lia|rewrite En; cbn; lia|]. intros id Hid.
      destruct (Hids id Hid) as (c1 & Hc1 & _). rewrite Hl, Hc1. cbn.
      rewrite bool_decide_eq_true_2 by done. by eexists.
    + destruct (wi_group0 g' grp' Hg') as (? & ? & Hm). split_and!; [done|rewrite En; cbn; lia|].
      intros id Hid. destruct (Hm id Hid) as (c0 & Hc0 & Hg0). rewrite Hl, Hc0. cbn. eexists. split; [done|].
      case_bool_decide as Hin; [|done]. destruct (Hids id Hin) as (c1 & ? & ? & Hs1 & ?). simplify_eq.
      destruct (wi_conn0 id _ Hc0) as [_ Hk]. rewrite Hg0 in Hk. destruct Hk as (_ & _ & grp & _ & _ & Hst).
      rewrite Hs1 in Hst. unfold memberState in Hst. by destruct (confirmed grp).
  - rewrite Eo. cbn. eapply Forall_impl; [exact wi_obs0|]. intros o' ((c0 & H0 & ? & ?) & Hst & Hw). split_and!.
    + destruct (Hlive _ _ H0) as (c1 & ? & ? & Hev). exists c1. rewrite Hev. split_and!; [done|congruence|done].
    + destruct (obsGroup o'); [|done]. destruct Hst as (grp & ? & ?). exists grp. auto.
    + intros id w Hid. destruct (Hw id w Hid) as (c0' & H0' & ?).
      destruct (Hlive _ _ H0') as (c1 & ? & ? & _). exists c1. split; [done|congruence].
  - by rewrite Eo.
  - by rewrite Er.
Qed.

(** Confirming a group that no observation is left for. *)
Lemma confirm_inv g grp now d d' :
  wei_inv d → groups_ d !! g = Some grp → confirmed grp = false →
  Some g ∉ (obsGroup <$> observations_ d) →
  updateMembers (λ c, with_group FinalJudgement (groupId_ c) c) (members grp)
    (set_groups (<[g := mkGroup true (members grp) (created grp) now]> (groups_ d)) d) = Some d' →
  wei_inv d' ∧ observations_ d' = observations_ d.
Proof.
  intros Hinv Hg Hconf Hno E.
  pose proof (λ id, updateMembers_lookup _ _ _ _ id E) as Hl. cbn in Hl.
  unfold updateMembers in E. case_bool_decide; [|done]. injection E as E.
  assert (Eg : groups_ d' = <[g:=mkGroup true (members grp) (created grp) now]> (groups_ d)) by by subst d'.
  assert (Eo : observations_ d' = observations_ d) by by subst d'.
  assert (Er : rows_ d' = rows_ d) by by subst d'.
  assert (En : nextGroupId_ d' = nextGroupId_ d) by by subst d'. clear E.
  assert (Hlive : ∀ id c, connections_ d !! id = Some c → ∃ c', connections_ d' !! id = Some c' ∧
    active c' = active c ∧ events_ c' = events_ c ∧ groupId_ c' = groupId_ c).
  { intros id c0 Hi0. rewrite Hl, Hi0. cbn. eexists. split; [done|]. by case_bool_decide. }
  split; [|done]. destruct Hinv. split.
  - intros id c'. rewrite Hl. destruct (connections_ d !! id) as [c0|] eqn:E0; [|done]. cbn. intros [= <-].
    destruct (wi_conn0 id c0 E0) as [Hcl Hi0]. destruct (wi_group0 g grp Hg) as (_ & _ & Hm).
    case_bool_decide as Hid.
    + destruct (Hm id Hid) as (c1 & ? & Hg1). simplify_eq. split; [done|]. cbn. rewrite Hg1 in *.
      destruct Hi0 as (? & ? & _). split_and!; [done|done|]. rewrite Eg, lookup_insert_eq. by eexists.
    + split; [done|]. destruct (groupId_ c0) as [g0|]; [|done].
      destruct Hi0 as (? & ? & grp0 & Hg0 & ? & ?). split_and!; [done|done|].
      assert (g0 ≠ g) by (intros ->; congruence). exists grp0. rewrite Eg, lookup_insert_ne; done.
  - intros g' grp'. rewrite Eg. intros Hg'.
    assert (∃ grp0, groups_ d !! g' = Some grp0 ∧ members grp' = members grp0) as (grp0 & Hg0 & Hmem).
    { apply lookup_insert_Some in Hg' as [[<- <-]|[? ?]]; eauto. }
    destruct (wi_group0 g' grp0 Hg0) as (? & ? & Hm). unfold group_ok. rewrite Hmem, En.
    split_and!; [done|done|]. intros id Hid. destruct (Hm id Hid) as (c0 & Hi0 & Hg0').
    destruct (Hlive _ _ Hi0) as (c1 & ? & _ & _ & ?). exists c1. split; [done|congruence].
  - rewrite Eo. apply Forall_forall. intros o' Ho'. rewrite Forall_forall in wi_obs0.
    destruct (wi_obs0 o' Ho') as ((c0 & Hi0 & ? & ?) & Hst & Hw). split_and!.
    + destruct (Hlive _ _ Hi0) as (c1 & ? & ? & Hev & _). exists c1. rewrite Hev. split_and!; [done|congruence|done].
    + destruct (obsGroup o') as [g0|] eqn:Eog; [|done]. destruct Hst as (grp0 & ? & ?). exists grp0.
      rewrite Eg, lookup_insert_ne; [done|]. intros ->. apply Hno. rewrite <-Eog.
      by apply list_elem_of_fmap_2.
    + intros id w Hid. destruct (Hw id w Hid) as (c0' & Hi0' & ?).
      destruct (Hlive _ _ Hi0') as (c1 & ? & ? & _). exists c1. split; [done|congruence].
  - by rewrite Eo.
  - by rewrite Er.
Qed.

Lemma completeVerify_ok now o c d g :
  wei_inv d → connections_ d !! trigger o = Some c → obsGroup o = Some g → obs_ok d o →
  Some g ∉ (obsGroup <$> observations_ d) →
  ∃ d', completeVerify now o c d = Some d' ∧ wei_inv d' ∧
    (length (observations_ d') ≤ length (observations_ d))%nat.
Proof.
  intros Hinv Hc Eg (_ & Hs & _) Hno. rewrite Eg in Hs. destruct Hs as (grp & Hg & Ht & Hst).
  destruct (wi_group _ Hinv g grp Hg) as (_ & _ & Hm). destruct (Hm _ Ht) as (c' & Hc' & Hgc).
  simplify_eq. destruct (wi_conn _ Hinv _ _ Hc) as [_ Hrole]. rewrite Hgc in Hrole.
  destruct Hrole as (_ & _ & grp' & ? & _ & Hstate). simplify_eq.
  unfold completeVerify. rewrite Eg. cbn [mbind option_bind]. rewrite Hg. cbn [fmap option_fmap option_map].
  rewrite Hgc, bool_decide_eq_true_2 by done. cbn [negb orb].
  rewrite (bool_decide_eq_true_2 (state_ c = _)); cycle 1.
  { rewrite Hstate, Hst. unfold memberState, verifyStage. by destruct (confirmed grp). }
  cbn [negb]. destruct (membersMatch d o grp && negb (outsiderMatch d o grp)).
  - destruct (confirmed grp) eqn:Ec.
    + eexists. split; [done|]. split; [|done]. apply log_inv; [by apply not_dead|done].
    + edestruct (updateMembers_defined (λ c, with_group FinalJudgement (groupId_ c) c) (members grp))
        as (d2 & E & _); cycle 1.
      * rewrite E. cbn [mbind option_bind].
        destruct (confirm_inv _ _ _ _ _ Hinv Hg Ec Hno E) as [Hinv' Ho].
        eexists. split; [done|]. split; [apply log_inv; [by apply not_dead|done]|]. cbn. by rewrite Ho.
      * intros id Hid. destruct (Hm id Hid) as (? & ? & _). by eexists.
  - eexists. split; [done|].
    match goal with |- context [dissolveGroup g ?r ?x] => destruct (dissolveGroup_inv g r x) as (? & ? & _) end.
    + apply log_inv; [|done]. destruct (outsiderMatch _ _ _); by apply not_dead.
    + split; done.
Qed.

Lemma takeReady_Some d l o l' :
  takeReady d l = Some (o, l') → ∃ l1 l2, l = l1 ++ o :: l2 ∧ l' = l1 ++ l2.
Proof.
  revert l'. induction l as [|x l IH]; intros l'; cbn; [done|]. destruct (observationReady d x).
  - intros [= -> ->]. by exists [], l'.
  - destruct (takeReady d l) as [[r k]|]; cbn; [|done]. intros [= -> <-].
    destruct (IH k eq_refl) as (l1 & l2 & -> & ->). by exists (x :: l1), l2.
Qed.

Lemma takeReady_ready d l o l' : takeReady d l = Some (o, l') → observationReady d o = true.
Proof.
  revert l'. induction l as [|x l IH]; intros l'; cbn; [done|]. destruct (observationReady d x) eqn:E.
  - by intros [= -> _].
  - destruct (takeReady d l) as [[r k]|]; cbn; [|done]. intros [= -> _]. eauto.
Qed.

Lemma takeReady_None d l : takeReady d l = None → Forall (λ o, observationReady d o = false) l.
Proof.
  induction l as [|x l IH]; cbn; [constructor|]. destruct (observationReady d x) eqn:E; [done|].
  destruct (takeReady d l) as [[r k]|]; cbn; [done|]. auto.
Qed.

Lemma omap_single {A B} (f : A → option B) l1 x l2 y :
  NoDup (omap f (l1 ++ x :: l2)) → f x = Some y → Some y ∉ f <$> (l1 ++ l2).
Proof.
  rewrite omap_app. cbn. intros Hnd E. rewrite E in Hnd.
  apply NoDup_app in Hnd as (_ & H1 & H2). apply NoDup_cons in H2 as [H2 _].
  rewrite fmap_app, elem_of_app. intros [H|H]; apply list_elem_of_fmap in H as (z & Hz & Hin).
  - apply (H1 y); [apply list_elem_of_omap; eauto|by left].
  - apply H2, list_elem_of_omap. eauto.
Qed.

Lemma completeObservation_ok now d o l1 l2 :
  wei_inv d → observations_ d = l1 ++ o :: l2 →
  ∃ d', completeObservation now o (set_observations (l1 ++ l2) d) = Some d' ∧ wei_inv d' ∧
    (length (observations_ d') ≤ length (l1 ++ l2))%nat.
Proof.
  intros Hinv El.
  assert (Hin : o ∈ observations_ d) by (rewrite El; apply elem_of_app; right; by left).
  pose proof (proj1 (Forall_forall _ _) (wi_obs _ Hinv) o Hin) as Hok.
  assert (Hinv0 : wei_inv (set_observations (l1 ++ l2) d)).
  { apply set_observations_inv; [done|]. rewrite El. apply sublist_app; [done|by apply sublist_cons]. }
  destruct Hok as ((c & Hc & Ha & He) & Hs & Hw). unfold completeObservation. cbn [connections_ set_observations].
  rewrite Hc, Ha. case_decide as Est.
  - destruct (completePreliminary_ok now o c _ Hinv0 Hc Ha He) as (d' & ? & ? & E).
    exists d'. rewrite E. done.
  - destruct (obsGroup o) as [g|] eqn:Eg; [|done].
    destruct (completeVerify_ok now o c (set_observations (l1 ++ l2) d) g) as (d' & ? & ? & ?); eauto.
    + split_and!; [by eauto|by rewrite Eg|done].
    + cbn. apply (omap_single _ _ o); [|done]. rewrite <-El. apply Hinv.
Qed.

(** The loop ends with no ready observation. *)
Definition none_ready (d : WeiDetector) : Prop :=
  Forall (λ o, observationReady d o = false) (observations_ d).

Lemma completeLoop_ok now fuel : ∀ d,
  wei_inv d → (length (observations_ d) ≤ fuel)%nat →
  ∃ d' b, completeLoop fuel now d = Some (d', b) ∧ wei_inv d' ∧ none_ready d'.
Proof.
  induction fuel as [|fuel IH]; intros d Hinv Hf; cbn.
  - exists d, false. split_and!; [done|done|]. unfold none_ready.
    destruct (observations_ d); [constructor|cbn in Hf; lia].
  - destruct (takeReady d (observations_ d)) as [[o l]|] eqn:E; cycle 1.
    { exists d, false. split_and!; [done|done|]. by apply takeReady_None. }
    destruct (takeReady_Some _ _ _ _ E) as (l1 & l2 & El & ->).
    destruct (completeObservation_ok now d o l1 l2 Hinv El) as (d1 & -> & Hinv1 & Hlen).
    cbn [mbind option_bind]. rewrite El in Hf. rewrite length_app in *. cbn in *.
    destruct (IH d1 Hinv1) as (d2 & b & -> & ? & ?); [lia|]. cbn. by exists d2, true.
Qed.

Lemma completeReadyObservations_ok now d :
  wei_inv d → ∃ d' b, completeReadyObservations now d = Some (d', b) ∧ wei_inv d' ∧ none_ready d'.
Proof. intros. by apply completeLoop_ok. Qed.

(** ** What completing leaves alone *)

Definition facts (c : Connection) :=
  (eligible_ c, closed_ c, (sentPackets_ c, feedbackWatermark_ c, packetIndex_ c, resolvedPackets_ c),
   events_ c).

Definition same_facts (d d' : WeiDetector) : Prop :=
  ∀ id, facts <$> connections_ d' !! id = facts <$> connections_ d !! id.

#[export] Instance same_facts_preorder : PreOrder same_facts.
Proof. split; [by intros d id|]. intros d1 d2 d3 H1 H2 id. by rewrite H2, H1. Qed.

Lemma dissolveGroup_facts g reason d : same_facts d (dissolveGroup g reason d).
Proof.
  intros id. unfold dissolveGroup. destruct (groups_ d !! g); [|done]. cbn. rewrite map_lookup_imap.
  destruct (connections_ d !! id); [|done]. cbn. by case_bool_decide.
Qed.

Lemma updateMembers_facts f ids d d' :
  (∀ c, facts (f c) = facts c) → updateMembers f ids d = Some d' → same_facts d d'.
Proof.
  intros Hf E id. rewrite (updateMembers_lookup _ _ _ _ _ E). destruct (connections_ d !! id); [|done].
  cbn. case_bool_decide; [|done]. by rewrite Hf.
Qed.

Lemma completeObservation_facts now o d d' :
  completeObservation now o d = Some d' → same_facts d d'.
Proof.
  unfold completeObservation, completePreliminary, completeVerify. intros H.
  repeat case_match; simplify_eq; try done; try apply bind_Some in H as (d1 & Hu & ?); simplify_eq.
  all: first [ pose proof (λ Hf, updateMembers_facts _ _ _ _ Hf Hu) as F | pose proof dissolveGroup_facts as F ].
  all: intros id; first [exact (F (λ _, eq_refl) id) | exact (F _ _ _ id)].
Qed.

Lemma completeLoop_facts now fuel : ∀ d d' b, completeLoop fuel now d = Some (d', b) → same_facts d d'.
Proof.
  induction fuel as [|fuel IH]; intros d d' b; cbn; [by intros [= <- <-]|].
  destruct (takeReady d _) as [[o l]|]; [|by intros [= <- <-]].
  destruct (completeObservation _ _ _) as [d1|] eqn:E1; [|done]. cbn.
  destruct (completeLoop fuel now d1) as [[d2 b2]|] eqn:E2; [|done]. cbn. intros [= <- <-].
  transitivity d1; [|by eapply IH]. apply completeObservation_facts in E1. exact E1.
Qed.

Lemma same_facts_lookup d d' id c' :
  same_facts d d' → connections_ d' !! id = Some c' →
  ∃ c, connections_ d !! id = Some c ∧ facts c' = facts c.
Proof.
  intros H E. specialize (H id). rewrite E in H. cbn in H.
  destruct (connections_ d !! id) as [c|]; [|done]. exists c. split; [done|]. by apply (inj Some) in H.
Qed.

(** ** The operations *)

(** A connection that takes no part in a group or observation. *)
Definition uninvolved (id : string) (d : WeiDetector) : Prop :=
  (∀ g grp, groups_ d !! g = Some grp → id ∉ members grp) ∧
  Forall (λ o, trigger o ≠ id ∧ windows o !! id = None) (observations_ d).

Lemma inactive_uninvolved id d :
  wei_inv d → active (connection id d) = false → uninvolved id d.
Proof.
  intros Hinv Ha.
  assert (Hno : ∀ c, connections_ d !! id = Some c → active c = true → False).
  { intros c Hc. rewrite <-(connection_lookup _ _ _ Hc). congruence. }
  split.
  - intros g grp Hg Hid. destruct (wi_group _ Hinv g grp Hg) as (_ & _ & Hm).
    destruct (Hm id Hid) as (c & Hc & Hgc). destruct (wi_conn _ Hinv id c Hc) as [_ H].
    rewrite Hgc in H. destruct H as [H _]. eauto.
  - eapply Forall_impl; [exact (wi_obs _ Hinv)|]. intros o ((c & Hc & Hac & _) & _ & Hw). split.
    + intros <-. eauto.
    + destruct (windows o !! id) as [w|] eqn:E; [|done]. destruct (Hw id w E) as (c' & ? & ?).
      exfalso. eauto.
Qed.

Lemma put_uninvolved id c d :
  wei_inv d → uninvolved id d → groupId_ c = None → state_ c = Monitoring →
  (closed_ c = true → eligible_ c = false) → wei_inv (put id c d).
Proof.
  intros [] [Hg Ho] Hc Hs Hcl. split; try done.
  - intros id' c'. cbn. intros [[<- <-]|[? H]]%lookup_insert_Some.
    + split; [done|]. by rewrite Hc.
    + apply (wi_conn0 _ _ H).
  - intros g grp H. destruct (wi_group0 g grp H) as (? & ? & Hm). split_and!; [done|done|].
    intros id' Hid. cbn. rewrite lookup_insert_ne; [by apply Hm|]. intros ->. by apply (Hg g grp).
  - cbn. rewrite Forall_forall in *. intros o Hin. destruct (Ho o Hin) as [Ht Hwn].
    destruct (wi_obs0 o Hin) as ((c0 & ? & ?) & ? & Hw). split_and!; [|done|].
    + exists c0. cbn. by rewrite lookup_insert_ne.
    + intros id' w Hid. cbn. rewrite lookup_insert_ne; [by eapply Hw|]. congruence.
Qed.

(** The group of a connection is dissolved before the connection is removed. *)
Lemma leaveGroup_ok id c reason d :
  wei_inv d → connections_ d !! id = Some c →
  let d1 := match groupId_ c with Some g => dissolveGroup g reason d | None => d end in
  wei_inv d1 ∧ ∀ g grp, groups_ d1 !! g = Some grp → id ∉ members grp.
Proof.
  intros Hinv Hc d1.
  assert (Hno : ∀ g grp, groups_ d !! g = Some grp → id ∈ members grp → groupId_ c = Some g).
  { intros g grp Hg Hid. destruct (wi_group _ Hinv g grp Hg) as (_ & _ & Hm).
    destruct (Hm id Hid) as (? & ? & ?). congruence. }
  unfold d1. destruct (groupId_ c) as [g|] eqn:Eg.
  - destruct (dissolveGroup_inv g reason d Hinv) as (? & _ & Egr & _). split; [done|].
    rewrite Egr. intros g' grp [Hne Hg']%lookup_delete_Some Hid. specialize (Hno g' grp Hg' Hid). congruence.
  - split; [done|]. intros g grp H Hid. by specialize (Hno g grp H Hid).
Qed.

Lemma dropObservations_inv id d :
  wei_inv d →
  wei_inv (set_observations (dropWindow id <$> filter (λ o, trigger o ≠ id) (observations_ d)) d).
Proof.
  intros []. split; try done; cbn.
  - apply Forall_fmap, Forall_forall. intros o [? Ho]%list_elem_of_filter. cbn.
    rewrite Forall_forall in wi_obs0. destruct (wi_obs0 o Ho) as (? & ? & Hw). split_and!; [done|done|].
    intros id' w. cbn. intros [_ ?]%lookup_delete_Some. by eapply Hw.
  - eapply sublist_NoDup; [exact wi_single0|]. clear.
    induction (observations_ d) as [|o l IH]; [done|]. rewrite filter_cons. case_decide; cbn.
    + destruct (obsGroup o); [by apply sublist_skip|done].
    + destruct (obsGroup o); [by apply sublist_cons|done].
Qed.

Lemma removeFromDetection_ok now id reason d :
  wei_inv d →
  ∃ d', removeFromDetection now id reason d = Some d' ∧ wei_inv d' ∧
    (is_Some (connections_ d !! id) → none_ready d') ∧
    ∀ c, connections_ d' !! id = Some c → eligible_ c = false.
Proof.
  intros Hinv. unfold removeFromDetection. destruct (connections_ d !! id) as [c|] eqn:Ec; cycle 1.
  { exists d. split_and!; [done|done|by intros [? ?]|congruence]. }
  destruct (leaveGroup_ok id c reason d Hinv Ec) as [Hinv1 Hout].
  set (d1 := match groupId_ c with Some g => dissolveGroup g reason d | None => d end) in *.
  cbv zeta. set (c1 := removed (connection id d1)).
  set (obs := dropWindow id <$> filter (λ o, trigger o ≠ id) (observations_ (put id c1 d1))).
  assert (Hinv2 : wei_inv (put id c1 (set_observations obs d1))).
  { apply put_uninvolved; [exact (dropObservations_inv id d1 Hinv1)|split; [done|]|done|done|done].
    cbn. unfold obs. apply Forall_fmap, Forall_forall. intros o [? Ho]%list_elem_of_filter. cbn.
    by rewrite lookup_delete_eq. }
  destruct (completeReadyObservations_ok now _ Hinv2) as (d' & b & E & ? & ?).
  exists d'. change (set_observations obs (put id c1 d1)) with (put id c1 (set_observations obs d1)).
  rewrite E. cbn. split_and!; try done.
  intros c' Hc'. apply completeLoop_facts in E. destruct (same_facts_lookup _ _ _ _ E Hc') as (c2 & Hc2 & Hf).
  cbn in Hc2. rewrite lookup_insert_eq in Hc2. injection Hc2 as <-. by injection Hf as -> _.
Qed.

Lemma observationStage_spec trig c d st group :
  wei_inv d → connections_ d !! trig = Some c →
  observationStage trig c d = Some (st, group) →
  match group with
  | None => st = Preliminary
  | Some g => ∃ grp, groups_ d !! g = Some grp ∧ trig ∈ members grp ∧ st = verifyStage grp ∧
      Some g ∉ obsGroup <$> observations_ d
  end.
Proof.
  intros Hinv Hc. destruct (wi_conn _ Hinv trig c Hc) as [_ Hrole]. unfold observationStage.
  destruct (groupId_ c) as [g|] eqn:Eg; cycle 1.
  { rewrite Hrole. destruct (existsb _ _); [done|]. by intros [= <- <-]. }
  destruct Hrole as (_ & _ & grp & Hg & Hin & Hs).
  assert (Hst : state_ c ≠ Monitoring) by (rewrite Hs; unfold memberState; by destruct (confirmed grp)).
  intros H.
  assert (Hr : existsb (λ o, bool_decide (obsGroup o = Some g)) (observations_ d) = false ∧
    st = (if decide (state_ c = Judgement) then VerifyPreliminary else VerifyFinal) ∧ group = Some g).
  { rewrite bool_decide_eq_true_2 in H by by eexists. cbn [negb] in H.
    destruct (state_ c); [done| |]; destruct (existsb _ (observations_ d)); by simplify_eq. }
  destruct Hr as (He & -> & ->). exists grp. split_and!; [done|done| |].
  - rewrite Hs. unfold memberState, verifyStage. by destruct (confirmed grp).
  - intros (o & Ho & Hin')%list_elem_of_fmap. apply not_true_iff_false in He. apply He.
    apply existsb_exists. exists o. split; [by apply list_elem_of_In|]. by apply bool_decide_eq_true_2.
Qed.

Lemma startObservation_inv trig time unix delta c d :
  wei_inv d → connections_ d !! trig = Some c → active c = true → events_ c ≠ [] →
  wei_inv (startObservation trig time unix delta d).
Proof.
  intros Hinv Hc Ha He. unfold startObservation. rewrite (connection_lookup _ _ _ Hc).
  destruct (observationStage trig c d) as [[st group]|] eqn:E; [|done].
  pose proof (observationStage_spec _ _ _ _ _ Hinv Hc E) as Hst.
  apply log_inv; [done|]. destruct Hinv. split; try done; cbn.
  - apply Forall_app. split; [exact wi_obs0|]. constructor; [|constructor]. split_and!; cbn.
    + by exists c.
    + destruct group; [|done]. destruct Hst as (grp & ? & ? & ? & _). by exists grp.
    + intros id w. unfold candidateWindows. rewrite map_lookup_imap.
      destruct (connections_ d !! id) as [c'|]; [|done]. cbn. intros Hw. exists c'. split; [done|].
      destruct (active c'); [done|]. by rewrite orb_true_r in Hw.
  - rewrite omap_app. apply NoDup_app. split_and!; [done| |].
    + intros g Hg. cbn. destruct group as [g'|]; [|apply not_elem_of_nil].
      rewrite list_elem_of_singleton. intros ->. destruct Hst as (_ & _ & _ & _ & Hno).
      apply Hno. apply list_elem_of_omap in Hg as (o & ? & Ho). rewrite <-Ho.
      by apply list_elem_of_fmap_2.
    + cbn. destruct group; [apply NoDup_singleton|constructor].
Qed.

(** The part of [ackEcn] and [loss] before the observations are completed. *)
Lemma feedback_role id cwnd mds pns e d :
  wei_inv d →
  let c := resolvePackets (with_cwnd cwnd mds (connection id d)) pns in
  same_role (connection id d) c ∧ same_role (connection id d) (with_ecn e.1.1 e.1.2 e.2 c) ∧
  ∀ t a b, same_role (connection id d) (recordEvent t a b c) ∧
    same_role (connection id d) (recordEvent t a b (with_ecn e.1.1 e.1.2 e.2 c)).
Proof.
  intros Hinv. cbv zeta.
  pose proof (resolvePackets_role (with_cwnd cwnd mds (connection id d)) pns) as (Hg & Hs & He & Hc & Hev).
  cbn in Hg, Hs, He, Hc, Hev. pose proof (connection_closed id d Hinv).
  assert (Happ : ∀ l (x : CongestionEvent), l ++ [x] ≠ []) by (intros [] ?; done).
  split_and!; [..|intros ???; split]; unfold same_role, active, recordEvent; cbn;
    rewrite ?Hg, ?Hs, ?He, ?Hc, ?Hev; split_and!; auto.
Qed.

Lemma ackRecord_inv now id t pns e0 e1 e2 cwnd mds d :
  wei_inv d → wei_inv (ackRecord now id t pns e0 e1 e2 cwnd mds d).
Proof.
  intros Hinv. unfold ackRecord.
  set (c := resolvePackets (with_cwnd cwnd mds (connection id d)) pns).
  destruct (feedback_role id cwnd mds pns (Z.max (ect0_ c) e0, Z.max (ect1_ c) e1, Z.max (ce_ c) e2) d Hinv)
    as (_ & Hr & Hev). cbn in Hr, Hev. fold c in Hr, Hev. set (c1 := with_ecn _ _ _ c) in *.
  destruct (_ && _) eqn:E; [|by apply put_inv]. apply andb_true_iff in E as [_ Ha].
  eapply (startObservation_inv _ _ _ _ (recordEvent Ce t (ce_ c1 - ce_ c) c1)).
  - apply log_inv; [done|]. apply put_inv; [done|]. apply Hev.
  - cbn. by rewrite lookup_insert_eq.
  - done.
  - cbn. by destruct (events_ _).
Qed.

Lemma lossRecord_inv id t pns cwnd mds d :
  wei_inv d → wei_inv (lossRecord id t pns cwnd mds d).
Proof.
  intros Hinv. unfold lossRecord.
  destruct (feedback_role id cwnd mds pns (0, 0, 0) d Hinv) as (Hr & _ & Hev).
  destruct (active _); [|by apply put_inv]. apply log_inv; [done|]. apply put_inv; [done|]. apply Hev.
Qed.

Lemma ackEcn_ok now id t pns e0 e1 e2 cwnd mds d :
  wei_inv d → ∃ d', ackEcn now id t pns e0 e1 e2 cwnd mds d = Some d' ∧ wei_inv d' ∧
    (none_ready d → none_ready d').
Proof.
  intros Hinv. unfold ackEcn. destruct (negb _); [by eauto|].
  destruct (completeReadyObservations_ok now _ (ackRecord_inv now id t pns e0 e1 e2 cwnd mds d Hinv))
    as (d' & b & -> & ? & ?). cbn. eauto.
Qed.

Lemma loss_ok now id t pns cwnd mds d :
  wei_inv d → ∃ d', loss now id t pns cwnd mds d = Some d' ∧ wei_inv d' ∧
    (none_ready d → none_ready d').
Proof.
  intros Hinv. unfold loss. destruct (negb _ || _); [by eauto|].
  destruct (completeReadyObservations_ok now _ (lossRecord_inv id t pns cwnd mds d Hinv))
    as (d' & b & -> & ? & ?). cbn. eauto.
Qed.

Lemma wei_step_inv op d :
  wei_inv d → ∃ d', weiStep op d = Some d' ∧ wei_inv d'.
Proof.
  intros Hinv. destruct op as [id peer|now id v|now id|id pns cwnd mds|now id t pns e0 e1 e2 cwnd mds
                              |now id t pns cwnd mds]; cbn [weiStep].
  - eexists. split; [done|]. unfold attach. destruct (negb _ || _); [done|].
    apply put_inv; [done|]. unfold same_role, active. cbn.
    pose proof (connection_closed id d Hinv) as Hcl. split_and!; try done.
    destruct (closed_ (connection id d)); [|done]. by rewrite Hcl.
  - unfold eligible. destruct (negb _ || _); [by eauto|].
    assert (Hput : wei_inv (put id (connection id d) d)).
    { apply put_inv; [done|]. split_and!; try done. by apply connection_closed. }
    destruct (Bool.eqb _ v && _) eqn:Ev; [by eauto|]. destruct v.
    + eexists. split; [done|]. apply put_uninvolved; try done. apply inactive_uninvolved; [done|].
      rewrite connection_put. unfold active. pose proof (connection_closed id d Hinv).
      destruct (eligible_ (connection id d)), (closed_ (connection id d)); auto.
    + destruct (removeFromDetection_ok now id "ineligible" _ Hput) as (d' & ? & ? & _). eauto.
  - unfold close. destruct (negb _ || _); [by eauto|].
    destruct (removeFromDetection_ok now id "connection_closed" _ Hinv) as (d' & -> & Hinv' & _ & He). cbn.
    destruct (connections_ d' !! id) as [c|] eqn:Ec; [|by eauto].
    eexists. split; [done|]. apply put_inv; [done|]. rewrite (connection_lookup _ _ _ Ec).
    unfold same_role, active. cbn. by rewrite (He c eq_refl).
  - eexists. split; [done|]. unfold packetsWritten. destruct (negb _ || _); [done|].
    apply put_inv; [done|].
    pose proof (writePackets_role (with_cwnd cwnd mds (connection id d)) pns) as (Hg & Hs & He & Hc & Hev).
    cbn in Hg, Hs, He, Hc, Hev. unfold same_role, active. rewrite Hg, Hs, He, Hc, Hev.
    split_and!; try done. by apply connection_closed.
  - destruct (ackEcn_ok now id t pns e0 e1 e2 cwnd mds d Hinv) as (d' & ? & ? & _). eauto.
  - destruct (loss_ok now id t pns cwnd mds d Hinv) as (d' & ? & ? & _). eauto.
Qed.
