(* ===== verification/WeiTheorems.v ===== *)
(** * WeiDetector: theorems about runs

    The snapshot partitions the active connections, pending observations wait
    for feedback that is outstanding, the feedback watermark is exact, and an
    idle connection can hold up an observation for good. *)

From S2P Require Import Prelude WeiDetector WeiInvariant.

(** ** Ready observations *)

Lemma windowReady_connection d id w :
  windowReady d id w ↔ (active (connection id d) = true → upper w <= feedbackWatermark_ (connection id d)).
Proof. unfold windowReady, connection. by destruct (connections_ d !! id). Qed.

Lemma observationReady_spec d o :
  observationReady d o = true ↔ ∀ id w, windows o !! id = Some w →
    active (connection id d) = true → upper w <= feedbackWatermark_ (connection id d).
Proof.
  unfold observationReady. rewrite bool_decide_eq_true. split; intros H id w Hw.
  - by apply windowReady_connection, H.
  - apply windowReady_connection. eauto.
Qed.

Lemma connection_put_ne id id' c d : id' ≠ id → connection id' (put id c d) = connection id' d.
Proof. intros. unfold connection. cbn. by rewrite lookup_insert_ne. Qed.

(** Readiness reads activity and watermark of the connections in the windows. *)
Lemma put_none_ready id c d :
  none_ready d →
  (uninvolved id d ∨ active c = active (connection id d) ∧
     feedbackWatermark_ c = feedbackWatermark_ (connection id d)) →
  none_ready (put id c d).
Proof.
  intros Hn Hc. unfold none_ready in *. cbn [observations_ put set_connections].
  apply Forall_forall. intros o Ho. rewrite Forall_forall in Hn.
  apply not_true_iff_false. intros Hr. apply (not_true_iff_false _) in Hn as Hnr; [|exact Ho].
  apply Hnr, observationReady_spec. intros id' w Hw. destruct (decide (id' = id)) as [->|?].
  - destruct Hc as [[_ Hu]|[Ha Hm]].
    + rewrite Forall_forall in Hu. destruct (Hu o Ho). congruence.
    + intros Hact. pose proof (proj1 (observationReady_spec _ _) Hr id w Hw) as H.
      rewrite connection_put in H. rewrite <-Hm. apply H. congruence.
  - pose proof (proj1 (observationReady_spec _ _) Hr id' w Hw) as H. by rewrite connection_put_ne in H.
Qed.

Lemma writePackets_mark c l : feedbackWatermark_ (foldl writePacket c l) = feedbackWatermark_ c.
Proof.
  revert c. induction l as [|pn l IH]; intros c; cbn; [done|]. rewrite IH.
  unfold writePacket. by destruct (packetIndex_ c !! pn).
Qed.

Lemma wei_step_ready op d d' :
  wei_inv d → none_ready d → weiStep op d = Some d' → none_ready d'.
Proof.
  intros Hinv Hn. destruct op as [id peer|now id v|now id|id pns cwnd mds|now id t pns e0 e1 e2 cwnd mds
                              |now id t pns cwnd mds]; cbn [weiStep].
  - intros [= <-]. unfold attach. destruct (negb _ || _); [done|]. apply put_none_ready; [done|]. right.
    unfold active. cbn. pose proof (connection_closed id d Hinv) as Hcl. split; [|done].
    destruct (closed_ (connection id d)); [|done]. by rewrite Hcl.
  - unfold eligible. destruct (negb _ || _); [by intros [= <-]|]. cbv zeta.
    assert (Hput : wei_inv (put id (connection id d) d)).
    { apply put_inv; [done|]. split_and!; try done. by apply connection_closed. }
    assert (Hn' : none_ready (put id (connection id d) d)) by (apply put_none_ready; auto).
    destruct (Bool.eqb _ v && _) eqn:Ev; [by intros [= <-]|]. destruct v.
    + intros [= <-]. apply put_none_ready; [done|]. left. apply inactive_uninvolved; [done|].
      rewrite connection_put. unfold active. pose proof (connection_closed id d Hinv).
      destruct (eligible_ (connection id d)), (closed_ (connection id d)); auto.
    + intros E. destruct (removeFromDetection_ok now id "ineligible" _ Hput) as (d1 & E1 & _ & Hr & _).
      rewrite E1 in E. injection E as <-. apply Hr. cbn. rewrite lookup_insert_eq. by eexists.
  - unfold close. destruct (negb _ || _); [by intros [= <-]|].
    destruct (removeFromDetection_ok now id "connection_closed" _ Hinv) as (d1 & E1 & Hinv1 & Hr & He).
    rewrite E1. cbn [mbind option_bind].
    assert (Hn1 : none_ready d1).
    { destruct (connections_ d !! id) eqn:Ec; [apply Hr; by eexists|].
      unfold removeFromDetection in E1. rewrite Ec in E1. by injection E1 as <-. }
    destruct (connections_ d1 !! id) as [c|] eqn:Ec; [|by intros [= <-]]. intros [= <-].
    apply put_none_ready; [done|]. right. rewrite (connection_lookup _ _ _ Ec). unfold active. cbn.
    by rewrite (He c eq_refl).
  - intros [= <-]. unfold packetsWritten. destruct (negb _ || _); [done|]. apply put_none_ready; [done|].
    right. rewrite writePackets_mark.
    pose proof (writePackets_role (with_cwnd cwnd mds (connection id d)) pns) as (Hg & Hs & He & Hc & Hev).
    unfold active. by rewrite He, Hc.
  - intros E. destruct (ackEcn_ok now id t pns e0 e1 e2 cwnd mds d Hinv) as (d1 & E1 & _ & Hr).
    rewrite E1 in E. injection E as <-. auto.
  - intros E. destruct (loss_ok now id t pns cwnd mds d Hinv) as (d1 & E1 & _ & Hr).
    rewrite E1 in E. injection E as <-. auto.
Qed.

Lemma wei_run_ok ops : ∀ d,
  wei_inv d → none_ready d → ∃ d', weiRun ops d = Some d' ∧ wei_inv d' ∧ none_ready d'.
Proof.
  induction ops as [|op ops IH]; intros d Hinv Hn; cbn; [by eauto|].
  destruct (wei_step_inv op d Hinv) as (d1 & E & Hinv1). rewrite E. cbn [mbind option_bind].
  apply IH; [done|]. exact (wei_step_ready op d d1 Hinv Hn E).
Qed.

Lemma newWei_none_ready b : none_ready (newWei b).
Proof. constructor. Qed.

(** ** The snapshot *)

(** The groups that the snapshot reports, confirmed or not. *)
Definition reportedGroup (s : Snapshot) (g : Z) (ids : gset string) : Prop :=
  snapGroups s !! g = Some ids ∨ candidateGroups s !! g = Some ids.

Lemma reportedGroup_spec d g ids :
  reportedGroup (buildSnapshot d) g ids ↔ ∃ grp, groups_ d !! g = Some grp ∧ members grp = ids.
Proof.
  unfold reportedGroup, buildSnapshot. cbn. rewrite !lookup_fmap_Some. split.
  - intros [(grp & ? & [? _]%map_lookup_filter_Some)|(grp & ? & [? _]%map_lookup_filter_Some)]; eauto.
  - intros (grp & Hg & Hm). destruct (confirmed grp) eqn:E; [left|right]; exists grp; (split; [done|]);
      by apply map_lookup_filter_Some.
Qed.

Lemma independent_spec d id :
  id ∈ independent (buildSnapshot d) ↔
  ∃ c, connections_ d !! id = Some c ∧ active c = true ∧ state_ c = Monitoring.
Proof.
  unfold buildSnapshot. cbn. rewrite elem_of_dom. split.
  - intros [c [? ?]%map_lookup_filter_Some]. eauto.
  - intros (c & ? & ?). exists c. by apply map_lookup_filter_Some.
Qed.

(** C12: Every sequence of events is handled without a missing key, and the
    snapshot classifies the eligible open connections: each is either
    independent or in exactly one reported group, and nothing else is
    reported.  A group has at least two members, each with a congestion event
    of its own. *)
Theorem wei_partition b ops :
  ∃ d, weiRun ops (newWei b) = Some d ∧
    (∀ id, (∃ c, connections_ d !! id = Some c ∧ active c = true) ↔
       id ∈ independent (buildSnapshot d) ∨ ∃ g ids, reportedGroup (buildSnapshot d) g ids ∧ id ∈ ids) ∧
    (∀ g ids id, reportedGroup (buildSnapshot d) g ids → id ∈ ids →
       id ∉ independent (buildSnapshot d) ∧
       ∃ c, connections_ d !! id = Some c ∧ events_ c ≠ []) ∧
    (∀ g g' ids ids' id, reportedGroup (buildSnapshot d) g ids → reportedGroup (buildSnapshot d) g' ids' →
       id ∈ ids → id ∈ ids' → g = g') ∧
    (∀ g ids, reportedGroup (buildSnapshot d) g ids → (2 ≤ size ids)%nat).
Proof.
  destruct (wei_run_ok ops _ (newWei_inv b) (newWei_none_ready b)) as (d & E & Hinv & _).
  exists d. split; [done|].
  assert (Hmem : ∀ g ids id, reportedGroup (buildSnapshot d) g ids → id ∈ ids →
    ∃ c grp, connections_ d !! id = Some c ∧ groupId_ c = Some g ∧ active c = true ∧ events_ c ≠ [] ∧
      state_ c = memberState grp).
  { intros g ids id (grp & Hg & <-)%reportedGroup_spec Hid.
    destruct (wi_group _ Hinv g grp Hg) as (_ & _ & Hm). destruct (Hm id Hid) as (c & Hc & Hgc).
    destruct (wi_conn _ Hinv id c Hc) as [_ H]. rewrite Hgc in H.
    destruct H as (? & ? & grp' & ? & ? & ?). exists c, grp'. done. }
  split_and!.
  - intros id. split.
    + intros (c & Hc & Ha). destruct (wi_conn _ Hinv id c Hc) as [_ H].
      destruct (groupId_ c) as [g|].
      * right. destruct H as (_ & _ & grp & ? & ? & _). exists g, (members grp).
        split; [|done]. apply reportedGroup_spec. eauto.
      * left. apply independent_spec. eauto.
    + intros [(c & ? & ? & _)%independent_spec|(g & ids & Hr & Hid)]; [by eauto|].
      destruct (Hmem _ _ _ Hr Hid) as (c & grp & ? & ? & ? & _). eauto.
  - intros g ids id Hr Hid. destruct (Hmem _ _ _ Hr Hid) as (c & grp & Hc & _ & _ & He & Hs). split; [|by eauto].
    intros (c' & Hc' & _ & Hs')%independent_spec. simplify_eq.
    rewrite Hs' in Hs. unfold memberState in Hs. by destruct (confirmed grp).
  - intros g g' ids ids' id Hr Hr' Hid Hid'. destruct (Hmem _ _ _ Hr Hid) as (c & _ & Hc & Hg & _).
    destruct (Hmem _ _ _ Hr' Hid') as (c' & _ & Hc' & Hg' & _). congruence.
  - intros g ids (grp & Hg & <-)%reportedGroup_spec. by destruct (wi_group _ Hinv g grp Hg).
Qed.

(** C31: Every pending observation waits for feedback of an active connection
    in its windows; and a verification is the only one of its group, which exists and is in
    the stage that it verifies.  So no decision finds its trigger gone or its
    group changed. *)
Theorem wei_pending_waits b ops :
  ∃ d, weiRun ops (newWei b) = Some d ∧
    (∀ o, o ∈ observations_ d →
       (∃ id w c, windows o !! id = Some w ∧ connections_ d !! id = Some c ∧ active c = true ∧
          feedbackWatermark_ c < upper w) ∧
       match obsGroup o with
       | None => stage o = Preliminary
       | Some g => ∃ grp, groups_ d !! g = Some grp ∧ trigger o ∈ members grp ∧ stage o = verifyStage grp
       end) ∧
    NoDup (omap obsGroup (observations_ d)) ∧
    (∀ o ids ok r g, DecisionRow o ids ok r g ∈ rows_ d → r ∉ deadResults).
Proof.
  destruct (wei_run_ok ops _ (newWei_inv b) (newWei_none_ready b)) as (d & E & Hinv & Hn).
  exists d. split; [done|]. split_and!.
  - intros o Ho. destruct (proj1 (Forall_forall _ _) (wi_obs _ Hinv) o Ho) as (_ & Hs & Hw). split; [|done].
    pose proof (proj1 (Forall_forall _ _) Hn o Ho) as Hr. unfold observationReady in Hr.
    apply bool_decide_eq_false in Hr. apply map_not_Forall in Hr as (id & w & Hid & Hnr); [|apply _].
    destruct (Hw id w Hid) as (c & Hc & Ha). exists id, w, c. split_and!; [done|done|done|].
    unfold windowReady in Hnr. rewrite Hc in Hnr. destruct (Z.lt_ge_cases (feedbackWatermark_ c) (upper w)); [done|].
    by destruct Hnr.
  - apply Hinv.
  - intros o ids ok r g Hin. exact (proj1 (Forall_forall _ _) (wi_rows _ Hinv) _ Hin).
Qed.

(** ** The feedback watermark *)

(** An ordinal whose packet has neither been acknowledged nor declared lost. *)
Definition outstanding (c : Connection) (k : Z) : Prop := ∃ pn, packetIndex_ c !! pn = Some k.

Record pkt_pre (c : Connection) : Prop := mkPkt {
  pk_mark : 0 <= feedbackWatermark_ c <= sentPackets_ c;
  pk_range : ∀ k, k ∈ resolvedPackets_ c ∨ outstanding c k ↔ feedbackWatermark_ c < k <= sentPackets_ c;
  pk_inj : ∀ pn pn' k, packetIndex_ c !! pn = Some k → packetIndex_ c !! pn' = Some k → pn = pn';
  pk_disj : ∀ k, k ∈ resolvedPackets_ c → ¬ outstanding c k;
}.

Definition pkt_ok (c : Connection) : Prop :=
  pkt_pre c ∧ feedbackWatermark_ c + 1 ∉ resolvedPackets_ c.

(** Only the packet fields matter. *)
Lemma pkt_ok_ext c c' : facts c' = facts c → pkt_ok c → pkt_ok c'.
Proof.
  intros [= He Hc Hs Hm Hi Hr Hv] [[] Hn]. split; [|congruence].
  split; unfold outstanding in *; rewrite ?Hs, ?Hm, ?Hi, ?Hr; done.
Qed.

Lemma newConnection_pkt : pkt_ok newConnection.
Proof.
  split; [|cbn; set_solver]. split; cbn; [lia| |done|set_solver].
  intros k. unfold outstanding. cbn. split; [|lia]. intros [?|[pn Hpn]]; [set_solver|].
  by rewrite lookup_empty in Hpn.
Qed.

Lemma writePacket_pkt c pn : pkt_ok c → pkt_ok (writePacket c pn).
Proof.
  intros [[] Hn]. unfold writePacket. destruct (packetIndex_ c !! pn) eqn:E; [done|].
  assert (Hnew : ∀ k, outstanding c k → k <= sentPackets_ c).
  { intros k Ho. specialize (pk_range0 k). intuition lia. }
  split; [|done]. split; unfold outstanding in *; cbn.
  - lia.
  - intros k. specialize (pk_range0 k). split.
    + intros [?|[pn' [[<- <-]|[? ?]]%lookup_insert_Some]]; [|lia|].
      { assert (feedbackWatermark_ c < k <= sentPackets_ c) by (apply pk_range0; auto). lia. }
      assert (feedbackWatermark_ c < k <= sentPackets_ c) by (apply pk_range0; eauto). lia.
    + intros Hk. destruct (decide (k = sentPackets_ c + 1)) as [->|?].
      * right. exists pn. apply lookup_insert_eq.
      * destruct (proj2 pk_range0) as [?|[pn' ?]]; [lia|by left|]. right. exists pn'.
        rewrite lookup_insert_ne; [done|congruence].
  - intros p p' k [[<- <-]|[? H]]%lookup_insert_Some [[<- Hk]|[? H']]%lookup_insert_Some; [done| | |by eauto].
    + assert (sentPackets_ c + 1 <= sentPackets_ c) by eauto. lia.
    + subst k. assert (sentPackets_ c + 1 <= sentPackets_ c) by eauto. lia.
  - intros k Hk [p [[<- <-]|[? H]]%lookup_insert_Some]; [|by apply (pk_disj0 k Hk); eauto].
    specialize (pk_range0 (sentPackets_ c + 1)). intuition lia.
Qed.

Lemma resolveOne_pre c pn : pkt_pre c → pkt_pre (resolveOne c pn).
Proof.
  intros []. unfold resolveOne. destruct (packetIndex_ c !! pn) as [i|] eqn:E; [|done].
  split; unfold outstanding in *; cbn; [done| | |].
  - intros k. rewrite <-pk_range0, elem_of_union, elem_of_singleton. split.
    + intros [[->|?]|[p [? ?]%lookup_delete_Some]]; eauto.
    + intros [?|[p Hp]]; [by auto|]. destruct (decide (p = pn)) as [->|?]; [left; left; congruence|].
      right. exists p. by rewrite lookup_delete_ne.
  - intros p p' k [_ ?]%lookup_delete_Some [_ ?]%lookup_delete_Some. eauto.
  - intros k [->%elem_of_singleton|Hk]%elem_of_union [p [Hne Hp]%lookup_delete_Some].
    + apply Hne. by eapply pk_inj0.
    + by apply (pk_disj0 k Hk); eauto.
Qed.

Lemma advance_spec fuel : ∀ m r,
  (size r ≤ fuel)%nat →
  let '(m', r') := advance fuel m r in
  m <= m' ∧ (∀ k, m < k <= m' → k ∈ r) ∧ (∀ k, k ∈ r' ↔ k ∈ r ∧ ¬ (m < k <= m')) ∧ m' + 1 ∉ r'.
Proof.
  induction fuel as [|fuel IH]; intros m r Hf; cbn.
  - assert (r ≡ ∅) as Hr by (apply size_empty_inv; lia).
    split_and!; [lia|intros; lia|intros; intuition lia|set_solver].
  - case_decide as Hin; [|split_and!; [lia|intros; lia|intros; intuition lia|done]].
    specialize (IH (m + 1) (r ∖ {[m + 1]})).
    destruct (advance fuel (m + 1) (r ∖ {[m + 1]})) as [m' r'].
    destruct IH as (H1 & H2 & H3 & H4).
    { rewrite size_difference by set_solver. rewrite size_singleton. lia. }
    split_and!; [lia| | |done].
    + intros k Hk. destruct (decide (k = m + 1)) as [->|?]; [done|]. specialize (H2 k). set_solver by lia.
    + intros k. rewrite H3. rewrite elem_of_difference, not_elem_of_singleton.
      destruct (decide (k = m + 1)) as [->|?]; intuition lia.
Qed.

Lemma resolvePackets_pkt c l : pkt_ok c → pkt_ok (resolvePackets c l).
Proof.
  intros [Hpre _]. unfold resolvePackets.
  assert (H : pkt_pre (foldl resolveOne c l)).
  { revert c Hpre. induction l as [|pn l IH]; intros c Hpre; cbn; [done|]. by apply IH, resolveOne_pre. }
  set (c1 := foldl resolveOne c l) in *. clearbody c1. clear c Hpre.
  pose proof (advance_spec (size (resolvedPackets_ c1)) (feedbackWatermark_ c1) (resolvedPackets_ c1) (le_n _)) as Ha.
  destruct (advance _ _ _) as [m r]. destruct Ha as (H1 & H2 & H3 & H4). destruct H.
  assert (Hm : m <= sentPackets_ c1).
  { destruct (decide (m = feedbackWatermark_ c1)) as [->|?]; [lia|].
    apply pk_range0. left. apply H2. lia. }
  split; [|done]. split; unfold outstanding in *; cbn; [lia| |done|].
  - intros k. rewrite H3. specialize (pk_range0 k). specialize (pk_disj0 k). specialize (H2 k). split.
    + intros [[Hk Hn]|Ho]; [assert (feedbackWatermark_ c1 < k <= sentPackets_ c1) by (apply pk_range0; auto); lia|].
      assert (¬ (feedbackWatermark_ c1 < k <= m)) by naive_solver.
      assert (feedbackWatermark_ c1 < k <= sentPackets_ c1) by (apply pk_range0; auto). lia.
    + intros Hk. destruct (proj2 pk_range0) as [?|?]; [lia|left; split; [done|lia]|by right].
  - intros k [Hk _]%H3. eauto.
Qed.

Definition all_pkt (d : WeiDetector) : Prop := ∀ id, pkt_ok (connection id d).

Lemma put_pkt id c d : all_pkt d → pkt_ok c → all_pkt (put id c d).
Proof.
  intros Hd Hc id'. destruct (decide (id' = id)) as [->|?]; [by rewrite connection_put|].
  by rewrite connection_put_ne.
Qed.

Lemma same_facts_pkt d d' : same_facts d d' → all_pkt d → all_pkt d'.
Proof.
  intros Hf Hd id. specialize (Hf id). specialize (Hd id). unfold connection in *.
  destruct (connections_ d' !! id) as [c'|], (connections_ d !! id) as [c|]; cbn in *; try done.
  apply (inj Some) in Hf. by eapply pkt_ok_ext.
Qed.

Lemma completeReadyObservations_pkt now d d' b :
  completeReadyObservations now d = Some (d', b) → all_pkt d → all_pkt d'.
Proof. intros E. eapply same_facts_pkt, completeLoop_facts, E. Qed.

Lemma removeFromDetection_pkt now id reason d d' :
  removeFromDetection now id reason d = Some d' → all_pkt d → all_pkt d'.
Proof.
  unfold removeFromDetection. destruct (connections_ d !! id) as [c|]; [|by intros [= <-]]. cbv zeta.
  set (d1 := match groupId_ c with Some g => dissolveGroup g reason d | None => d end).
  intros (d2 & E & ?)%bind_Some Hd. destruct d2 as [d2 b]. simplify_eq.
  assert (Hd1 : all_pkt d1).
  { unfold d1. destruct (groupId_ c); [|done]. eapply same_facts_pkt; [apply dissolveGroup_facts|done]. }
  apply (completeReadyObservations_pkt _ _ _ _ E). change (all_pkt (put id (removed (connection id d1)) d1)).
  apply put_pkt; [done|]. destruct (Hd1 id) as [[] ?]. by split.
Qed.

Lemma feedback_pkt id cwnd mds pns d :
  all_pkt d → pkt_pre (resolvePackets (with_cwnd cwnd mds (connection id d)) pns) ∧
  feedbackWatermark_ (resolvePackets (with_cwnd cwnd mds (connection id d)) pns) + 1 ∉
    resolvedPackets_ (resolvePackets (with_cwnd cwnd mds (connection id d)) pns).
Proof. intros Hd. apply resolvePackets_pkt. by destruct (Hd id) as [[] ?]; split. Qed.

Lemma ackRecord_pkt now id t pns e0 e1 e2 cwnd mds d :
  all_pkt d → all_pkt (ackRecord now id t pns e0 e1 e2 cwnd mds d).
Proof.
  intros Hd. destruct (feedback_pkt id cwnd mds pns d Hd) as [[] ?]. unfold ackRecord.
  destruct (_ && _); [|by apply put_pkt; [|split]]. unfold startObservation.
  destruct (observationStage _ _ _) as [[? ?]|]; intros id'; apply (put_pkt id _ d Hd); by split.
Qed.

Lemma lossRecord_pkt id t pns cwnd mds d :
  all_pkt d → all_pkt (lossRecord id t pns cwnd mds d).
Proof.
  intros Hd. destruct (feedback_pkt id cwnd mds pns d Hd) as [[] ?]. unfold lossRecord.
  destruct (active _); intros id'; apply (put_pkt id _ d Hd); by split.
Qed.

Lemma wei_step_pkt op d d' : weiStep op d = Some d' → all_pkt d → all_pkt d'.
Proof.
  intros E Hd. destruct op as [id peer|now id v|now id|id pns cwnd mds|now id t pns e0 e1 e2 cwnd mds
                              |now id t pns cwnd mds]; cbn [weiStep] in E.
  - injection E as <-. unfold attach. destruct (negb _ || _); [done|]. apply put_pkt; [done|].
    by destruct (Hd id) as [[] ?]; split.
  - unfold eligible in E. destruct (negb _ || _); [by simplify_eq|]. cbv zeta in E.
    assert (Hp : all_pkt (put id (connection id d) d)) by by apply put_pkt.
    destruct (Bool.eqb _ v && _); [by simplify_eq|]. destruct v; [|by eapply removeFromDetection_pkt].
    simplify_eq. apply put_pkt; [done|]. destruct newConnection_pkt as [[] ?]. by split.
  - unfold close in E. destruct (negb _ || _); [by simplify_eq|].
    apply bind_Some in E as (d1 & E1 & E). apply removeFromDetection_pkt in E1; [|done].
    destruct (connections_ d1 !! id) as [c|] eqn:Ec; simplify_eq; [|done]. apply put_pkt; [done|].
    specialize (E1 id). rewrite (connection_lookup _ _ _ Ec) in E1. by destruct E1 as [[] ?]; split.
  - injection E as <-. unfold packetsWritten. destruct (negb _ || _); [done|]. apply put_pkt; [done|].
    assert (H : pkt_ok (with_cwnd cwnd mds (connection id d))) by (by destruct (Hd id) as [[] ?]; split).
    revert H. generalize (with_cwnd cwnd mds (connection id d)).
    induction pns as [|pn pns IH]; intros c Hc; cbn; [done|]. by apply IH, writePacket_pkt.
  - unfold ackEcn in E. destruct (negb _); [by simplify_eq|].
    apply bind_Some in E as ([d2 b] & E & ?). simplify_eq.
    by eapply completeReadyObservations_pkt, ackRecord_pkt.
  - unfold loss in E. destruct (negb _ || _); [by simplify_eq|].
    apply bind_Some in E as ([d2 b] & E & ?). simplify_eq.
    by eapply completeReadyObservations_pkt, lossRecord_pkt.
Qed.

Lemma wei_run_pkt ops : ∀ d d', weiRun ops d = Some d' → all_pkt d → all_pkt d'.
Proof.
  induction ops as [|op ops IH]; intros d d'; cbn; [by intros [= <-]|].
  intros (d1 & E1 & E)%bind_Some Hd. eapply IH; [exact E|]. by eapply wei_step_pkt.
Qed.

(** The feedback watermark of a connection is exact: the packets up to it
    have all been acknowledged or declared lost, and the next one, if it has
    been sent, is outstanding.  Ordinals are given to packets one to one. *)
Theorem wei_watermark_exact b ops :
  ∃ d, weiRun ops (newWei b) = Some d ∧ ∀ id c, connections_ d !! id = Some c →
    0 <= feedbackWatermark_ c <= sentPackets_ c ∧
    (∀ k, outstanding c k → feedbackWatermark_ c < k <= sentPackets_ c) ∧
    (feedbackWatermark_ c < sentPackets_ c → outstanding c (feedbackWatermark_ c + 1)) ∧
    (∀ pn pn' k, packetIndex_ c !! pn = Some k → packetIndex_ c !! pn' = Some k → pn = pn').
Proof.
  destruct (wei_run_ok ops _ (newWei_inv b) (newWei_none_ready b)) as (d & E & _ & _).
  exists d. split; [done|]. intros id c Hc.
  assert (Hd : all_pkt d).
  { apply (wei_run_pkt _ _ _ E). intros id'. apply newConnection_pkt. }
  specialize (Hd id). rewrite (connection_lookup _ _ _ Hc) in Hd. destruct Hd as [[] Hn].
  split_and!; [lia|lia| | |done].
  - intros k Hk. apply pk_range0. by right.
  - intros Hlt. destruct (proj2 (pk_range0 (feedbackWatermark_ c + 1))) as [?|?]; [lia|done|done].
Qed.

(** ** Idle connections *)

(** Operations that neither send packets on the connection [id] nor remove it
    or the trigger [t]. *)
Definition leavesIdle (id t : string) (op : WeiOp) : bool :=
  match op with
  | WPackets id' _ _ _ => negb (bool_decide (id' = id))
  | WEligible _ id' _ | WClose _ id' => negb (bool_decide (id' = id)) && negb (bool_decide (id' = t))
  | _ => true
  end.

(** Observation [n] of trigger [t] waits for a packet of [id] that has not
    been sent. *)
Definition blocked (n : Z) (id t : string) (d : WeiDetector) : Prop :=
  ∃ o w, o ∈ observations_ d ∧ obsId o = n ∧ trigger o = t ∧ obsGroup o = None ∧
    windows o !! id = Some w ∧ active (connection id d) = true ∧
    sentPackets_ (connection id d) < upper w.

Lemma completeObservation_keeps now o o' d d' :
  completeObservation now o d = Some d' → o' ∈ observations_ d → obsGroup o' = None →
  o' ∈ observations_ d'.
Proof.
  unfold completeObservation, completePreliminary, completeVerify, updateMembers, dissolveGroup.
  intros H Ho Hg. repeat case_match; simplify_eq; try done;
    try apply bind_Some in H as (d1 & Hu & ?); simplify_eq; try done.
  all: cbn; apply list_elem_of_filter; (split; [congruence|done]).
Qed.

Lemma same_facts_connection d d' id :
  same_facts d d' → facts (connection id d') = facts (connection id d).
Proof.
  intros H. specialize (H id). unfold connection.
  destruct (connections_ d' !! id), (connections_ d !! id); cbn in *; try done. by apply (inj Some) in H.
Qed.

Lemma same_facts_blocked n id t d d' :
  same_facts d d' → blocked n id t d →
  (∀ o, o ∈ observations_ d → obsGroup o = None → observationReady d o = false → o ∈ observations_ d') →
  all_pkt d → blocked n id t d'.
Proof.
  intros Hf (o & w & Ho & Hn & Ht & Hg & Hw & Ha & Hs) Hk Hp.
  pose proof (same_facts_connection _ _ id Hf) as Hc.
  assert (He : eligible_ (connection id d') = eligible_ (connection id d) ∧
    closed_ (connection id d') = closed_ (connection id d) ∧
    sentPackets_ (connection id d') = sentPackets_ (connection id d)) by by injection Hc.
  destruct He as (He & Hcl & Hse). exists o, w. split_and!; try done.
  - apply Hk; [done|done|]. apply not_true_iff_false. intros Hr.
    pose proof (proj1 (observationReady_spec _ _) Hr id w Hw Ha). destruct (Hp id) as [[] _]. lia.
  - unfold active in *. by rewrite He, Hcl.
  - by rewrite Hse.
Qed.

Lemma completeLoop_blocked now fuel n id t : ∀ d d' b,
  completeLoop fuel now d = Some (d', b) → all_pkt d → blocked n id t d → blocked n id t d'.
Proof.
  induction fuel as [|fuel IH]; intros d d' b; cbn; [by intros [= <- <-]|].
  destruct (takeReady d _) as [[o l]|] eqn:Et; [|by intros [= <- <-]].
  intros (d1 & E1 & ([d2 b2] & E2 & ?)%bind_Some)%bind_Some Hp Hb. simplify_eq.
  pose proof (completeObservation_facts _ _ _ _ E1) as Hf.
  apply (IH _ _ _ E2); [by eapply (same_facts_pkt d)|].
  apply (same_facts_blocked n id t d); try done. intros o' Ho' Hg Hr.
  apply (completeObservation_keeps _ _ _ _ _ E1); [|done]. cbn.
  pose proof (takeReady_ready _ _ _ _ Et). destruct (takeReady_Some _ _ _ _ Et) as (l1 & l2 & El & ->).
  rewrite El in Ho'. apply elem_of_app in Ho' as [?|[->|?]%elem_of_cons]; [| congruence|];
    apply elem_of_app; auto.
Qed.

Lemma put_blocked n id t id' c d :
  blocked n id t d →
  (id' = id → active c = active (connection id d) ∧ sentPackets_ c = sentPackets_ (connection id d)) →
  blocked n id t (put id' c d).
Proof.
  intros (o & w & Ho & Hn & Ht & Hg & Hw & Ha & Hs) Hc. exists o, w. cbn [observations_ put set_connections].
  destruct (decide (id' = id)) as [->|?].
  - rewrite connection_put. destruct (Hc eq_refl) as [-> ->]. done.
  - by rewrite connection_put_ne.
Qed.

Lemma removeFromDetection_blocked now id' reason n id t d d' :
  removeFromDetection now id' reason d = Some d' → id' ≠ id → id' ≠ t → all_pkt d →
  blocked n id t d → blocked n id t d'.
Proof.
  intros E Hid Ht Hp Hb. unfold removeFromDetection in E.
  destruct (connections_ d !! id') as [c|]; [|by simplify_eq]. cbv zeta in E.
  set (d1 := match groupId_ c with Some g => dissolveGroup g reason d | None => d end) in E.
  assert (Hf : same_facts d d1).
  { unfold d1. destruct (groupId_ c); [apply dissolveGroup_facts|done]. }
  assert (Hb1 : blocked n id t d1).
  { apply (same_facts_blocked n id t d); try done. intros o Ho Hg _. unfold d1.
    destruct (groupId_ c); [|done]. unfold dissolveGroup. destruct (groups_ d !! _); [|done]. cbn.
    apply list_elem_of_filter. split; [congruence|done]. }
  assert (Hp1 : all_pkt d1) by by eapply same_facts_pkt.
  apply bind_Some in E as ([d2 b] & E & ?). simplify_eq.
  apply (completeLoop_blocked _ _ _ _ _ _ _ _ E).
  - change (all_pkt (put id' (removed (connection id' d1)) d1)). apply put_pkt; [done|].
    by destruct (Hp1 id') as [[] ?]; split.
  - destruct Hb1 as (o & w & Ho & Hn & Htr & Hg & Hw & Ha & Hs). exists (dropWindow id' o), w.
    rewrite <-(connection_put_ne id' id (removed (connection id' d1)) d1) in Ha, Hs by done.
    split_and!; try done.
    + apply list_elem_of_fmap_2, list_elem_of_filter. split; [congruence|done].
    + cbn. by rewrite lookup_delete_ne.
Qed.

Lemma resolvePackets_sent c l : sentPackets_ (resolvePackets c l) = sentPackets_ c.
Proof.
  unfold resolvePackets. destruct (advance _ _ _). cbn. revert c. induction l as [|pn l IH]; intros c; cbn; [done|].
  rewrite IH. unfold resolveOne. by destruct (packetIndex_ c !! pn).
Qed.

Lemma feedback_same c cwnd mds pns :
  active (resolvePackets (with_cwnd cwnd mds c) pns) = active c ∧
  sentPackets_ (resolvePackets (with_cwnd cwnd mds c) pns) = sentPackets_ c.
Proof.
  pose proof (resolvePackets_role (with_cwnd cwnd mds c) pns) as (_ & _ & He & Hc & _).
  unfold active. by rewrite He, Hc, resolvePackets_sent.
Qed.

Lemma log_blocked n id t r d : blocked n id t d → blocked n id t (log r d).
Proof. done. Qed.

Lemma startObservation_blocked n id t trig a b e d :
  blocked n id t d → blocked n id t (startObservation trig a b e d).
Proof.
  intros Hb. unfold startObservation. destruct (observationStage _ _ _) as [[? ?]|]; [|done].
  destruct Hb as (x & w & Ho & ?). exists x, w. split; [|done]. cbn. apply elem_of_app. by left.
Qed.

Lemma wei_step_blocked op n id t d d' :
  wei_inv d → all_pkt d → leavesIdle id t op = true → weiStep op d = Some d' →
  blocked n id t d → blocked n id t d'.
Proof.
  intros Hinv Hp Hl E Hb.
  assert (Hput : ∀ id' c, id' ≠ id → blocked n id t (put id' c d)) by (intros; by apply put_blocked).
  destruct op as [id' peer|now id' v|now id'|id' pns cwnd mds|now id' u pns e0 e1 e2 cwnd mds
                 |now id' u pns cwnd mds]; cbn [weiStep leavesIdle] in *.
  - injection E as <-. unfold attach. destruct (negb _ || _); [done|]. apply put_blocked; [done|].
    intros ->. cbn. split; [|done]. unfold active. cbn.
    destruct Hb as (o & w & _ & _ & _ & _ & _ & Ha & _). apply andb_true_iff in Ha as [-> Hc]. by rewrite Hc.
  - apply andb_true_iff in Hl as [H1 H2]. apply negb_true_iff, bool_decide_eq_false in H1, H2.
    unfold eligible in E. destruct (negb _ || _); [by simplify_eq|]. cbv zeta in E.
    destruct (Bool.eqb _ v && _); [simplify_eq; by apply Hput|]. destruct v.
    + simplify_eq. apply put_blocked; [by apply Hput|done].
    + eapply removeFromDetection_blocked; [exact E|done|done| |by apply Hput]. by apply put_pkt.
  - apply andb_true_iff in Hl as [H1 H2]. apply negb_true_iff, bool_decide_eq_false in H1, H2.
    unfold close in E. destruct (negb _ || _); [by simplify_eq|]. apply bind_Some in E as (d1 & E1 & E).
    pose proof (removeFromDetection_blocked _ _ _ n id t _ _ E1 H1 H2 Hp Hb).
    destruct (connections_ d1 !! id'); simplify_eq; [by apply put_blocked|done].
  - apply negb_true_iff, bool_decide_eq_false in Hl. injection E as <-. unfold packetsWritten.
    destruct (negb _ || _); [done|]. by apply Hput.
  - unfold ackEcn in E. destruct (negb _); [by simplify_eq|].
    apply bind_Some in E as ([d2 b] & E & ?). simplify_eq.
    refine (completeLoop_blocked _ _ _ _ _ _ _ _ E _ _); [by apply ackRecord_pkt|]. unfold ackRecord.
    destruct (feedback_same (connection id' d) cwnd mds pns) as [Ha Hs].
    destruct (_ && _); [apply startObservation_blocked, log_blocked|];
      (apply put_blocked; [done|intros ->; split; [exact Ha|exact Hs]]).
  - unfold loss in E. destruct (negb _ || _); [by simplify_eq|].
    apply bind_Some in E as ([d2 b] & E & ?). simplify_eq.
    refine (completeLoop_blocked _ _ _ _ _ _ _ _ E _ _); [by apply lossRecord_pkt|]. unfold lossRecord.
    pose proof (feedback_same (connection id' d) cwnd mds pns) as [Ha Hs].
    match goal with |- context [if active ?c then _ else _] => set (c1 := c) in * end.
    destruct (active c1) in |- *; [apply log_blocked|]; (apply put_blocked; [done|intros ->; split; [exact Ha|exact Hs]]).
Qed.

Definition pendingIds (d : WeiDetector) : list Z := obsId <$> observations_ d.

(** A preliminary observation whose window on an active connection reaches
    past the packets sent on it stays pending as long as that connection sends
    nothing and neither it nor the trigger leaves, whatever feedback arrives on
    any connection: there is no timeout. *)
Theorem idle_connection_blocks b ops d n id t later :
  weiRun ops (newWei b) = Some d → blocked n id t d → forallb (leavesIdle id t) later = true →
  ∃ d', weiRun later d = Some d' ∧ n ∈ pendingIds d'.
Proof.
  intros E Hb Hl.
  destruct (wei_run_ok ops _ (newWei_inv b) (newWei_none_ready b)) as (d0 & E0 & Hinv & _).
  rewrite E in E0. injection E0 as <-.
  assert (Hp : all_pkt d) by (apply (wei_run_pkt _ _ _ E); intros id'; apply newConnection_pkt).
  clear E. revert d Hb Hinv Hp Hl. induction later as [|op later IH]; intros d Hb Hinv Hp; cbn.
  - intros _. exists d. split; [done|]. destruct Hb as (o & w & Ho & <- & _).
    by apply list_elem_of_fmap_2.
  - intros [Ho Hl]%andb_true_iff. destruct (wei_step_inv op d Hinv) as (d1 & E & Hinv1). rewrite E.
    cbn [mbind option_bind]. apply IH; try done.
    + exact (wei_step_blocked op n id t d d1 Hinv Hp Ho E Hb).
    + exact (wei_step_pkt op d d1 E Hp).
Qed.

Module WeiExamples.

(** Two viewers; "a" sees a CE mark while "b" has sent one packet of a
    two-packet half window. *)
Definition markedRun : list WeiOp :=
  [WAttach "a" "pa"; WEligible (0, 0) "a" true; WAttach "b" "pb"; WEligible (0, 0) "b" true;
   WPackets "a" [1; 2] 6000 1500; WPackets "b" [1] 6000 1500; WAck (5, 5) "b" 5 [1] 1 0 0 6000 1500;
   WAck (6, 6) "a" 6 [1] 1 0 1 6000 1500].

Definition marked : WeiDetector := default (newWei true) (weiRun markedRun (newWei true)).

Lemma idle_connection_blocks_witness :
  ∃ d', weiRun [WAck (7, 7) "a" 7 [2] 2 0 1 6000 1500; WLoss (8, 8) "a" 8 [3] 6000 1500;
                WPackets "a" [4; 5; 6] 6000 1500] marked = Some d' ∧ 1 ∈ pendingIds d'.
Proof.
  apply (idle_connection_blocks true markedRun marked 1 "b" "a"
    [WAck (7, 7) "a" 7 [2] 2 0 1 6000 1500; WLoss (8, 8) "a" 8 [3] 6000 1500;
     WPackets "a" [4; 5; 6] 6000 1500]).
  - vm_compute. reflexivity.
  - unfold blocked. set (m := marked). vm_compute in m. subst m. eexists _, _.
    split; [left|]. repeat split; vm_compute; reflexivity.
  - vm_compute. reflexivity.
Defined.

(** Both see congestion inside their windows: a group is created, confirmed by
    a second mark, and dissolved when a verification finds no evidence. *)
Definition sharedRun : list WeiOp :=
  markedRun ++
  [WPackets "b" [2; 3] 6000 1500; WAck (9, 9) "b" 9 [2; 3] 1 0 1 6000 1500].

Example shared_group_created :
  option_map (λ d, let s := buildSnapshot d in
    (bool_decide (independent s = ∅), candidateGroups s !! 1, snapGroups s !! 1)) (weiRun sharedRun (newWei true)) =
  Some (true, Some {["a"; "b"]}, None).
Proof. vm_compute. reflexivity. Qed.

End WeiExamples.
