(* ===== verification/SbdDetector.v ===== *)
(** * Detector and group: passive shared-bottleneck detection

    Models [src/src/sbd/Detector.{h,cpp}]: the per-connection estimator with
    its ring buffer of intervals, and the grouping of flow summaries.

    A [double] is an IEEE binary64 value as the Standard Library specifies it
    ([SpecFloat] with precision 53 and exponent bound 1024), so that the
    estimates are computed as the program computes them. *)

From Stdlib Require Import SpecFloat.
From S2P Require Import Prelude.

(** ** Doubles *)

Definition double := spec_float.
Definition fadd : double → double → double := SFadd 53 1024.
Definition fsub : double → double → double := SFsub 53 1024.
Definition fmul : double → double → double := SFmul 53 1024.
Definition fdiv : double → double → double := SFdiv 53 1024.
Definition fabs : double → double := SFabs.
Definition flt (a b : double) : bool := SFltb a b.
Definition fle (a b : double) : bool := SFleb a b.
Definition feq (a b : double) : bool := SFeqb a b.
Definition fmax (a b : double) : double := if flt a b then b else a.
Definition fmin (a b : double) : double := if flt b a then b else a.
(** [m * 2^e], rounded; conversions from integers have exponent 0. *)
Definition scaled (m e : Z) : double := binary_normalize 53 1024 m e false.
Definition of_int (z : Z) : double := scaled z 0.
Definition fzero : double := of_int 0.

Declare Scope double_scope.
Delimit Scope double_scope with D.
Infix "+" := fadd : double_scope.
Infix "-" := fsub : double_scope.
Infix "*" := fmul : double_scope.
Infix "/" := fdiv : double_scope.
Infix "<?" := flt : double_scope.
Infix "<=?" := fle : double_scope.
Infix "=?" := feq : double_scope.

(** ** Parameters *)

Definition kN : nat := 50.
Definition kM : nat := 50.
Definition kGroupingWarmupIntervals : Z := 2 * 50.
Definition kLossThreshold : double := scaled 1 (-2).
Definition kFrequencyThreshold : double := scaled 3602879701896397 (-54).
Definition kVariationThreshold : double := scaled 5404319552844595 (-54).
Definition kSkewThreshold : double := scaled 3602879701896397 (-54).
Definition kLossDifferenceThreshold : double := scaled 3602879701896397 (-55).
Definition kCrossingThreshold : double := scaled 3602879701896397 (-54).

(** ** Summaries *)

Record Summary := mkSummary {
  intervals : Z; samples : Z; acked : Z; lost : Z;
  readyAfter : Z; groupingReadyAfter : Z; fullHistoryAfter : Z;
  skew : double; variation : double; frequency : double; loss : double; groupingVariation : double;
  intervalMeanDelayUs : double; intervalMinDelayUs : double; intervalMaxDelayUs : double;
  intervalStartUs : Z; intervalEndUs : Z;
  bottleneck : bool;
  measurementValid : bool;
}.

Definition emptySummary : Summary :=
  mkSummary 0 0 0 0 50 kGroupingWarmupIntervals kGroupingWarmupIntervals fzero fzero fzero fzero fzero
    fzero fzero fzero 0 0 false false.

Definition ready (s : Summary) : bool := readyAfter s <=? intervals s.
Definition groupingReady (s : Summary) : bool := groupingReadyAfter s <=? intervals s.
Definition fullHistory (s : Summary) : bool := fullHistoryAfter s <=? intervals s.

(** ** The detector *)

Record Interval := mkInterval {
  i_count : Z; i_acked : Z; i_lost : Z;
  i_mean : double; i_skewBase : double; i_varBase : double; i_variation : double;
  i_validBase : bool; i_validVar : bool;
}.

Definition emptyInterval : Interval := mkInterval 0 0 0 fzero fzero fzero fzero false false.

Record Detector := mkDetector {
  history_ : list Interval; cursor_ : nat; size_ : nat;
  intervals_ : Z; count_ : Z; acked_ : Z; lost_ : Z;
  sum_ : double; skewBase_ : double; minDelay_ : double; maxDelay_ : double; mean_ : double;
  previousMeanValid_ : bool;
}.

Definition newDetector : Detector :=
  mkDetector (replicate kN emptyInterval) 0 0 0 0 0 0 fzero fzero fzero fzero fzero false.

Definition sample (delayUs : double) (d : Detector) : Detector :=
  let count := u64 (count_ d + 1) in
  mkDetector (history_ d) (cursor_ d) (size_ d) (intervals_ d) count (acked_ d) (lost_ d)
    (sum_ d + delayUs)%D
    (if previousMeanValid_ d then
       (skewBase_ d + of_int (if delayUs <? mean_ d then 1 else if mean_ d <? delayUs then -1 else 0))%D
     else skewBase_ d)
    (if count =? 1 then delayUs else fmin (minDelay_ d) delayUs)
    (if count =? 1 then delayUs else fmax (maxDelay_ d) delayUs)
    (mean_ d) (previousMeanValid_ d).

Definition outcomes (ack los : Z) (d : Detector) : Detector :=
  mkDetector (history_ d) (cursor_ d) (size_ d) (intervals_ d) (count_ d) (u64 (acked_ d + ack))
    (u64 (lost_ d + los)) (sum_ d) (skewBase_ d) (minDelay_ d) (maxDelay_ d) (mean_ d)
    (previousMeanValid_ d).

(** [at]: the interval of an age, through the ring buffer. *)
Definition ringIndex (cursor age : nat) : nat := ((cursor + kN - age) mod kN)%nat.
Arguments ringIndex : simpl never.
Definition ringAt {A} (dflt : A) (h : list A) (cursor age : nat) : A :=
  default dflt (h !! ringIndex cursor age).

(** The estimates over a window, newest first: [take m] of it for the means. *)
Definition sumSkew (l : list Interval) : double :=
  foldl (λ acc h, if i_validBase h then (acc + i_skewBase h)%D else acc) fzero l.
Definition sumVariation (l : list Interval) : double :=
  foldl (λ acc h, if i_count h =? 0 then acc else (acc + i_varBase h)%D) fzero l.
Definition sumMean (l : list Interval) : double :=
  foldl (λ acc h, if i_count h =? 0 then acc else (acc + i_mean h)%D) fzero l.
Definition validMeans (l : list Interval) : Z :=
  foldl (λ acc h, if i_count h =? 0 then acc else acc + 1) 0 l.
Definition sumU64 {A} (f : A → Z) (l : list A) : Z := foldl (λ acc h, u64 (acc + f h)) 0 l.

Definition averaged (s : double) (n : Z) : double := if n =? 0 then s else (s / of_int n)%D.

(** The side of the mean that an interval is on, outside the deadband. *)
Definition side (mean threshold x : double) : Z :=
  if (mean + threshold <? x)%D then 1 else if (x <? mean - threshold)%D then -1 else 0.

(** Crossings from the oldest interval to the newest. *)
Fixpoint crossings (mean threshold : double) (previous : Z) (freq : double) (l : list Interval) : double :=
  match l with
  | [] => freq
  | h :: l =>
      if i_count h =? 0 then crossings mean threshold 0 freq l
      else
        let s := side mean threshold (i_mean h) in
        if s =? 0 then crossings mean threshold previous freq l
        else crossings mean threshold s
               (freq + of_int (if negb (previous =? 0)%Z && negb (s =? previous)%Z then 1 else 0))%D l
  end.

(** The summary of a window of intervals, the current one first.  The
    arguments are the number of intervals since the last reset and the extreme
    delays of the current one. *)
Definition summarize (n : Z) (current : Interval) (minDelay maxDelay : double) (window : list Interval) :
    Summary :=
  let meanWindow := take kM window in
  let sk := averaged (sumSkew meanWindow) (Z.of_nat (length meanWindow)) in
  let var := averaged (sumVariation meanWindow) (validMeans meanWindow) in
  let mean := averaged (sumMean meanWindow) (validMeans meanWindow) in
  let ack := sumU64 i_acked window in
  let los := sumU64 i_lost window in
  let total := u64 (ack + los) in
  let lossRate := if total =? 0 then fzero else (of_int los / of_int total)%D in
  let threshold := (kCrossingThreshold * var)%D in
  mkSummary n (i_count current) ack los 50 kGroupingWarmupIntervals kGroupingWarmupIntervals sk var
    (crossings mean threshold 0 fzero (rev window) / of_int (Z.of_nat (length window)))%D
    lossRate var (i_mean current) minDelay maxDelay 0 0
    (i_validBase current && ((sk <? fzero)%D || (kLossThreshold <? lossRate)%D))
    (i_validBase current).

(** The interval that ends. *)
Definition currentInterval (d : Detector) : Interval :=
  let mean := (sum_ d / of_int (count_ d))%D in
  mkInterval (count_ d) (acked_ d) (lost_ d) mean
    (if previousMeanValid_ d then (skewBase_ d / of_int (count_ d))%D else fzero)
    (maxDelay_ d - mean)%D fzero (previousMeanValid_ d) false.

Definition finishInterval (d : Detector) : Detector * Summary :=
  if count_ d =? 0 then (newDetector, emptySummary)
  else
    let current := currentInterval d in
    let h := <[cursor_ d := current]> (history_ d) in
    let size := Nat.min (size_ d + 1) kN in
    let n := u64 (intervals_ d + 1) in
    let window := ringAt emptyInterval h (cursor_ d) <$> seq 0 size in
    let result := summarize n current (minDelay_ d) (maxDelay_ d) window in
    let stored := mkInterval (i_count current) (i_acked current) (i_lost current) (i_mean current)
                    (i_skewBase current) (i_varBase current) (variation result)
                    (i_validBase current) (bottleneck result) in
    (mkDetector (<[cursor_ d := stored]> h) ((cursor_ d + 1) mod kN)%nat size n 0 0 0
       fzero fzero fzero fzero (i_mean current) true,
     result).

(** ** The ring buffer holds the last intervals *)

(** What is read of an interval later. *)
Definition essence (i : Interval) : Interval :=
  mkInterval (i_count i) (i_acked i) (i_lost i) (i_mean i) (i_skewBase i) (i_varBase i) fzero
    (i_validBase i) false.

Inductive DetectorOp := OSample (delayUs : double) | OOutcomes (ack los : Z) | OFinish | OReset.

Definition detectorStep (op : DetectorOp) (d : Detector) : Detector * list Summary :=
  match op with
  | OSample x => (sample x d, [])
  | OOutcomes a l => (outcomes a l d, [])
  | OFinish => let '(d, s) := finishInterval d in (d, [s])
  | OReset => (newDetector, [])
  end.

Fixpoint detectorRun (ops : list DetectorOp) (d : Detector) : list Summary :=
  match ops with
  | [] => []
  | op :: ops => let '(d, out) := detectorStep op d in out ++ detectorRun ops d
  end.

(** The estimates by definition: over the last [kN] of all intervals since the
    last reset, newest first in [p]; the detector holds the open interval. *)
Fixpoint specRun (ops : list DetectorOp) (p : list Interval) (d : Detector) : list Summary :=
  match ops with
  | [] => []
  | OFinish :: ops =>
      if count_ d =? 0 then emptySummary :: specRun ops [] newDetector
      else
        let current := currentInterval d in
        summarize (u64 (intervals_ d + 1)) current (minDelay_ d) (maxDelay_ d) (take kN (current :: p))
          :: specRun ops (current :: p) (finishInterval d).1
  | OReset :: ops => specRun ops [] newDetector
  | op :: ops => specRun ops p (detectorStep op d).1
  end.

Lemma foldl_essence {B} (f : B → Interval → B) (b : B) l :
  (∀ b i, f b (essence i) = f b i) → foldl f b (essence <$> l) = foldl f b l.
Proof. intros Hf. revert b. induction l as [|i l IH]; intros b; cbn; [done|]. by rewrite Hf, IH. Qed.

Lemma crossings_essence mean thr prev fr l :
  crossings mean thr prev fr (essence <$> l) = crossings mean thr prev fr l.
Proof.
  revert prev fr. induction l as [|i l IH]; intros prev fr; cbn; [done|].
  destruct (i_count i =? 0); [by rewrite IH|]. destruct (side _ _ _ =? 0); by rewrite IH.
Qed.

Lemma summarize_essence n c a b w : summarize n c a b (essence <$> w) = summarize n c a b w.
Proof.
  unfold summarize, sumSkew, sumVariation, sumMean, validMeans, sumU64.
  rewrite <-fmap_take, !foldl_essence by done.
  rewrite !length_fmap. change (rev (essence <$> w)) with (rev (map essence w)).
  rewrite <-map_rev. change (map essence (rev w)) with (essence <$> rev w). by rewrite crossings_essence.
Qed.

Lemma summarize_ext n c a b w w' :
  essence <$> w = essence <$> w' → summarize n c a b w = summarize n c a b w'.
Proof. intros E. by rewrite <-summarize_essence, E, summarize_essence. Qed.

(** The ring after an interval has ended: its newest entry is below the cursor. *)
Record ring (d : Detector) (p : list Interval) : Prop := mkRing {
  ring_length : length (history_ d) = kN;
  ring_cursor : (cursor_ d < kN)%nat;
  ring_size : size_ d = Nat.min (length p) kN;
  ring_entries : ∀ j i, (j < kN)%nat → p !! j = Some i →
    essence <$> history_ d !! ringIndex (cursor_ d) (S j) = Some (essence i);
}.

Lemma ringIndex_lt c j : (ringIndex c j < kN)%nat.
Proof. apply Nat.mod_upper_bound. unfold kN. lia. Qed.

Lemma ringIndex_0 c : (c < kN)%nat → ringIndex c 0 = c.
Proof.
  intros. unfold ringIndex. rewrite Nat.sub_0_r, Nat.Div0.add_mod, Nat.Div0.mod_same, Nat.add_0_r.
  rewrite Nat.Div0.mod_mod. by apply Nat.mod_small.
Qed.

Lemma ringIndex_ne c j : (c < kN)%nat → (0 < j < kN)%nat → ringIndex c j ≠ c.
Proof.
  intros Hc Hj. unfold ringIndex. destruct (decide (j ≤ c)%nat).
  - replace (c + kN - j)%nat with (c - j + 1 * kN)%nat by lia. rewrite Nat.Div0.mod_add.
    rewrite Nat.mod_small by lia. lia.
  - rewrite Nat.mod_small by lia. lia.
Qed.

Lemma ringIndex_next c j : (c < kN)%nat → (j < kN)%nat → ringIndex ((c + 1) mod kN) (S j) = ringIndex c j.
Proof.
  intros Hc Hj. unfold ringIndex. destruct (decide (c + 1 = kN)%nat) as [E|?].
  - rewrite E, Nat.Div0.mod_same. replace (c + kN - j)%nat with (0 + kN - S j + 1 * kN)%nat by lia.
    by rewrite Nat.Div0.mod_add.
  - rewrite (Nat.mod_small (c + 1)) by lia. f_equal. lia.
Qed.

Lemma newDetector_ring : ring newDetector [].
Proof. split; [done|cbn; unfold kN; lia|done|done]. Qed.

Lemma finish_window d p :
  ring d p →
  essence <$> (ringAt emptyInterval (<[cursor_ d := currentInterval d]> (history_ d)) (cursor_ d) <$>
                 seq 0 (Nat.min (size_ d + 1) kN)) =
  essence <$> take kN (currentInterval d :: p).
Proof.
  intros [Hl Hc Hs He]. apply list_eq. intros j. rewrite !list_lookup_fmap.
  destruct (decide (j < Nat.min (size_ d + 1) kN)%nat) as [Hj|Hj].
  - rewrite lookup_seq_lt by done. cbn [fmap option_fmap option_map]. rewrite lookup_take_lt by lia.
    unfold ringAt. rewrite Nat.add_0_l. destruct j as [|j].
    + rewrite ringIndex_0 by done. by rewrite list_lookup_insert_eq by lia.
    + change ((currentInterval d :: p) !! S j) with (p !! j). rewrite list_lookup_insert_ne by (apply not_eq_sym, ringIndex_ne; [done|lia]).
      destruct (lookup_lt_is_Some_2 p j) as [i Hi]; [lia|]. rewrite Hi. cbn.
      specialize (He j i ltac:(lia) Hi). destruct (history_ d !! _); cbn in *; congruence.
  - rewrite lookup_seq_ge by lia. rewrite lookup_ge_None_2; [done|]. rewrite length_take, length_cons. lia.
Qed.

Lemma finish_ring d p :
  ring d p → count_ d ≠ 0 → ring (finishInterval d).1 (currentInterval d :: p).
Proof.
  intros [Hl Hc Hs He] Hn. unfold finishInterval. rewrite (proj2 (Z.eqb_neq _ _) Hn). cbv zeta.
  set (stored := mkInterval _ _ _ _ _ _ _ _ _). cbn [fst]. split; cbn [history_ cursor_ size_].
  - by rewrite !length_insert.
  - apply Nat.mod_upper_bound. unfold kN. lia.
  - rewrite Hs, length_cons. lia.
  - intros j i Hj Hi. rewrite ringIndex_next by done. destruct j as [|j]; cbn in Hi.
    + injection Hi as <-. rewrite ringIndex_0 by done. by rewrite list_lookup_insert_eq by (rewrite length_insert; lia).
    + rewrite !list_lookup_insert_ne by (apply not_eq_sym, ringIndex_ne; [done|lia]). apply He; [lia|done].
Qed.

