(* ===== verification/SbdGroups.v ===== *)
(** * group: clustering of flow summaries

    Models [group] of [src/src/sbd/Detector.cpp] and the clusterer of
    [src/src/sbd/DcSbd.cpp].  [std::sort] is an insertion sort; the results do
    not depend on it, since the comparisons are strict total orders on the
    flows that are sorted. *)

From Stdlib Require Import SpecFloat Ascii.
From S2P Require Import Prelude SbdDetector.

(** ** Sorting *)

Section Sorting.
Context {A : Type} (lt : A → A → bool).

Fixpoint insertBy (x : A) (l : list A) : list A :=
  match l with
  | [] => [x]
  | y :: l' => if lt y x then y :: insertBy x l' else x :: y :: l'
  end.

Definition sortBy (l : list A) : list A := foldr insertBy [] l.

Lemma insertBy_Permutation x l : insertBy x l ≡ₚ x :: l.
Proof. induction l as [|y l IH]; cbn; [done|]. destruct (lt y x); [|done]. rewrite IH. apply Permutation_swap. Qed.

Lemma sortBy_Permutation l : sortBy l ≡ₚ l.
Proof. induction l as [|x l IH]; cbn; [done|]. by rewrite insertBy_Permutation, IH. Qed.

(** [lt] orders the elements of [U]. *)
Definition orders (U : list A) : Prop :=
  (∀ a b c, a ∈ U → b ∈ U → c ∈ U → lt a b = true → lt b c = true → lt a c = true) ∧
  (∀ a b, a ∈ U → b ∈ U → lt a b = true → lt b a = false) ∧
  (∀ a b, a ∈ U → b ∈ U → lt a b = true ∨ lt b a = true ∨ a = b).

Definition below (a b : A) : Prop := lt a b = true ∨ a = b.

Lemma insertBy_sorted U x l :
  orders U → x ∈ U → Forall (.∈ U) l → StronglySorted below l → StronglySorted below (insertBy x l).
Proof.
  intros (Ht & Ha & Htot) Hx HU. induction l as [|y l IH]; intros Hs; cbn.
  - constructor; constructor.
  - inversion HU as [|? ? Hy HUl]; subst. inversion Hs as [|? ? Hsl Hyl]; subst.
    destruct (lt y x) eqn:E.
    + constructor; [by apply IH|]. rewrite insertBy_Permutation. constructor; [by left|done].
    + assert (Hxy : below x y).
      { destruct (Htot x y Hx Hy) as [?|[?|?]]; [by left|congruence|by right]. }
      constructor; [done|]. constructor; [done|]. rewrite Forall_forall in *. intros z Hz.
      destruct Hxy as [Hxy| ->]; [|by apply Hyl]. destruct (Hyl z Hz) as [?| <-]; left; [|done].
      eapply Ht; [done|exact Hy|by apply HUl|done|done].
Qed.

Lemma sortBy_sorted U l : orders U → Forall (.∈ U) l → StronglySorted below (sortBy l).
Proof.
  intros Ho. induction l as [|x l IH]; intros HU; cbn; [constructor|].
  inversion HU; subst. apply (insertBy_sorted U); try done; [|by apply IH].
  by rewrite sortBy_Permutation.
Qed.

(** Sorting forgets the order of its input. *)
Lemma sortBy_perm l l' : orders l → l ≡ₚ l' → sortBy l = sortBy l'.
Proof.
  intros Ho Hp. apply StronglySorted_unique_strong with (R := below).
  - intros a b Ha Hb [Hab|?] [Hba|?]; try done. exfalso. destruct Ho as (_ & Has & _).
    rewrite sortBy_Permutation in Ha, Hb. rewrite <-Hp in Hb. specialize (Has a b Ha Hb Hab). congruence.
  - apply (sortBy_sorted l); [done|]. by apply Forall_forall.
  - apply (sortBy_sorted l); [done|]. apply Forall_forall. intros x Hx. by rewrite Hp.
  - by rewrite !sortBy_Permutation.
Qed.
End Sorting.

(** ** Orders *)

(** [std::string::operator<]: bytes compared from the first. *)
Fixpoint strLt (s t : string) : bool :=
  match s, t with
  | _, EmptyString => false
  | EmptyString, _ => true
  | String a s, String b t =>
      if (N_of_ascii a <? N_of_ascii b)%N then true
      else if (N_of_ascii b <? N_of_ascii a)%N then false
      else strLt s t
  end.

Lemma strLt_asym s t : strLt s t = true → strLt t s = false.
Proof.
  revert t. induction s as [|a s IH]; intros [|b t]; cbn; try done.
  destruct (N.ltb_spec (N_of_ascii a) (N_of_ascii b)), (N.ltb_spec (N_of_ascii b) (N_of_ascii a)); try done; [lia|auto].
Qed.

Lemma strLt_trans s t u : strLt s t = true → strLt t u = true → strLt s u = true.
Proof.
  revert t u. induction s as [|a s IH]; intros [|b t] [|c u]; cbn; try done.
  destruct (N.ltb_spec (N_of_ascii a) (N_of_ascii b)), (N.ltb_spec (N_of_ascii b) (N_of_ascii a)),
    (N.ltb_spec (N_of_ascii b) (N_of_ascii c)), (N.ltb_spec (N_of_ascii c) (N_of_ascii b)),
    (N.ltb_spec (N_of_ascii a) (N_of_ascii c)), (N.ltb_spec (N_of_ascii c) (N_of_ascii a)); try done; try lia; eauto.
Qed.

Lemma strLt_total s t : strLt s t = true ∨ strLt t s = true ∨ s = t.
Proof.
  revert t. induction s as [|a s IH]; intros [|b t]; cbn; auto.
  destruct (N.ltb_spec (N_of_ascii a) (N_of_ascii b)), (N.ltb_spec (N_of_ascii b) (N_of_ascii a)); auto.
  assert (a = b) as ->. { rewrite <-(ascii_N_embedding a), <-(ascii_N_embedding b). f_equal. lia. }
  destruct (IH t) as [?|[?| ->]]; auto.
Qed.

(** Doubles other than NaN are ordered as keys. *)
Definition isNan (x : double) : bool := match x with S754_nan => true | _ => false end.

Definition key (x : double) : Z * Z * Z :=
  match x with
  | S754_nan => (3, 0, 0)
  | S754_infinity s => (if s then -2 else 2, 0, 0)
  | S754_zero _ => (0, 0, 0)
  | S754_finite s m e => if s then (-1, - e, Z.neg m) else (1, e, Z.pos m)
  end.

Definition keyLt (a b : Z * Z * Z) : Prop :=
  a.1.1 < b.1.1 ∨ a.1.1 = b.1.1 ∧ (a.1.2 < b.1.2 ∨ a.1.2 = b.1.2 ∧ a.2 < b.2).

Lemma SFcompare_key a b :
  isNan a = false → isNan b = false →
  match SFcompare a b with
  | Some Lt => keyLt (key a) (key b)
  | Some Eq => key a = key b
  | Some Gt => keyLt (key b) (key a)
  | None => False
  end.
Proof.
  unfold keyLt. destruct a as [sa|sa| |sa ma ea], b as [sb|sb| |sb mb eb]; try done; intros _ _;
    try destruct sa; try destruct sb; cbn; try lia; try done.
  all: destruct (Z.compare_spec ea eb); try lia.
  all: change (Pos.compare_cont Eq ma mb) with (Pos.compare ma mb);
    destruct (Pos.compare_spec ma mb); cbn; subst; try done; lia.
Qed.

Lemma flt_key a b : isNan a = false → isNan b = false → flt a b = true ↔ keyLt (key a) (key b).
Proof.
  intros Ha Hb. pose proof (SFcompare_key a b Ha Hb) as H. unfold flt, SFltb.
  destruct (SFcompare a b) as [[]|]; [| | |done]; split; try done; unfold keyLt in *.
  - rewrite H. lia.
  - lia.
Qed.

Lemma feq_key a b : isNan a = false → isNan b = false → feq a b = true ↔ key a = key b.
Proof.
  intros Ha Hb. pose proof (SFcompare_key a b Ha Hb) as H. unfold feq, SFeqb.
  destruct (SFcompare a b) as [[]|]; [| | |done]; split; try done; intros E; unfold keyLt in H; rewrite E in H; lia.
Qed.

(** ** Flows *)

Record FlowSummary := mkFlow { id : string; metrics : Summary }.

(** The order of [subdivide]: larger values first, ties by identifier. *)
Definition before (metric : Summary → double) (a b : FlowSummary) : bool :=
  let av := metric (metrics a) in
  let bv := metric (metrics b) in
  if (av =? bv)%D then strLt (id a) (id b) else (bv <? av)%D.

Lemma before_orders metric U :
  (∀ f, f ∈ U → isNan (metric (metrics f)) = false) →
  (∀ f f', f ∈ U → f' ∈ U → id f = id f' → f = f') → orders (before metric) U.
Proof.
  intros Hn Hid.
  assert (Hspec : ∀ a b, a ∈ U → b ∈ U → before metric a b = true ↔
    keyLt (key (metric (metrics b))) (key (metric (metrics a))) ∨
    key (metric (metrics a)) = key (metric (metrics b)) ∧ strLt (id a) (id b) = true).
  { intros a b Ha Hb. unfold before. pose proof (feq_key _ _ (Hn a Ha) (Hn b Hb)) as He.
    pose proof (flt_key _ _ (Hn b Hb) (Hn a Ha)) as Hl.
    destruct (feq _ _).
    - assert (E : key (metric (metrics a)) = key (metric (metrics b))) by by apply He.
      split; [auto|]. intros [H|[_ H]]; [|done]. unfold keyLt in H. rewrite E in H. lia.
    - rewrite Hl. split; [auto|]. intros [H|[E _]]; [done|]. by apply He in E. }
  split_and!.
  - intros a b c Ha Hb Hc. rewrite !Hspec by done. unfold keyLt.
    intros [H1|[E1 S1]] [H2|[E2 S2]].
    + left. lia.
    + left. rewrite <-E2. done.
    + left. rewrite E1. done.
    + right. split; [congruence|]. by eapply strLt_trans.
  - intros a b Ha Hb H. apply not_true_iff_false. intros H'. apply Hspec in H, H'; try done.
    unfold keyLt in *. destruct H as [H|[E S]], H' as [H'|[E' S']]; try lia.
    + rewrite E' in H. lia.
    + rewrite E in H'. lia.
    + apply strLt_asym in S. congruence.
  - intros a b Ha Hb. rewrite !Hspec by done. unfold keyLt.
    destruct (key (metric (metrics a))) as [[a1 a2] a3] eqn:Ea, (key (metric (metrics b))) as [[b1 b2] b3] eqn:Eb.
    cbn. destruct (strLt_total (id a) (id b)) as [S|[S|S]]; [| |by right; right; apply Hid].
    all: destruct (Z.lt_total a1 b1) as [?|[?|?]]; try lia.
    all: destruct (Z.lt_total a2 b2) as [?|[?|?]]; try lia.
    all: destruct (Z.lt_total a3 b3) as [?|[?|?]]; try lia; subst; intuition auto.
Qed.

(** Runs of neighbours that belong together. *)
Fixpoint runs (together : FlowSummary → FlowSummary → bool) (l : list FlowSummary) :
    list (list FlowSummary) :=
  match l with
  | [] => []
  | x :: l =>
      match runs together l with
      | (y :: g) :: gs => if together x y then (x :: y :: g) :: gs else [x] :: (y :: g) :: gs
      | gs => [x] :: gs
      end
  end.

Definition subdivide (source : list (list FlowSummary)) (metric : Summary → double)
    (together : double → double → bool) : list (list FlowSummary) :=
  mjoin ((λ g, runs (λ a b, together (metric (metrics a)) (metric (metrics b)))
                 (sortBy (before metric) g)) <$> source).

Definition frequencyTogether (a b : double) : bool := (fabs (a - b) <? kFrequencyThreshold)%D.
Definition variationTogether (a b : double) : bool :=
  (a =? b)%D || (fabs (a - b) <? kVariationThreshold * fmax a b)%D.
Definition skewTogether (a b : double) : bool := (fabs (a - b) <? kSkewThreshold)%D.
Definition lossTogether (a b : double) : bool :=
  let high := fmax a b in
  (high <=? kLossThreshold)%D || (fabs (a - b) <? kLossDifferenceThreshold * high)%D.

Definition groupable (f : FlowSummary) : bool := groupingReady (metrics f) && bottleneck (metrics f).

Definition allHigh (g : list FlowSummary) : bool :=
  forallb (λ f, (kLossThreshold <? loss (metrics f))%D) g.

(** [std::vector<std::string>::operator<]. *)
Fixpoint idsLt (a b : list string) : bool :=
  match a, b with
  | _, [] => false
  | [], _ => true
  | x :: a, y :: b => if strLt x y then true else if strLt y x then false else idsLt a b
  end.

(** The identifiers of the groups that have two members or more. *)
Definition report (groups : list (list string)) : list (list string) :=
  sortBy idsLt (sortBy strLt <$> filter (λ g, 2 ≤ length g)%nat groups).

(** The clusters before they are reported. *)
Definition clusters (flows : list FlowSummary) : list (list FlowSummary) :=
  let flows := filter (λ f, groupable f = true) flows in
  let groups := match flows with [] => [] | _ => [flows] end in
  let groups := subdivide groups frequency frequencyTogether in
  let groups := subdivide groups groupingVariation variationTogether in
  let highLoss := filter (λ g, allHigh g = true) groups in
  let remaining := filter (λ g, allHigh g = false) groups in
  subdivide highLoss loss lossTogether ++
  subdivide (subdivide remaining skew skewTogether) loss lossTogether.

Definition group (flows : list FlowSummary) : list (list string) :=
  report ((λ g : list FlowSummary, id <$> g) <$> clusters flows).

(** ** Groups are disjoint sets of bottlenecked flows *)

Lemma runs_join together l : mjoin (runs together l) = l.
Proof.
  induction l as [|x l IH]; cbn; [done|]. rewrite <-IH at 2.
  destruct (runs together l) as [|[|y g] gs]; cbn; try done. by destruct (together x y).
Qed.

Lemma subdivide_join source metric together : mjoin (subdivide source metric together) ≡ₚ mjoin source.
Proof.
  unfold subdivide. induction source as [|g source IH]; [done|].
  rewrite fmap_cons, !mjoin_cons, join_app. by rewrite runs_join, sortBy_Permutation, IH.
Qed.

Lemma filter_join (P : list FlowSummary → bool) (gs : list (list FlowSummary)) :
  mjoin (filter (λ g, P g = true) gs) ++ mjoin (filter (λ g, P g = false) gs) ≡ₚ mjoin gs.
Proof.
  induction gs as [|g gs IH]; [done|]. rewrite !filter_cons.
  destruct (P g); repeat case_decide; try done; rewrite !mjoin_cons, <-IH; [by rewrite (assoc (++))|].
  rewrite !(assoc (++)). apply Permutation_app_tail, Permutation_app_comm.
Qed.

Lemma clusters_join flows : mjoin (clusters flows) ≡ₚ filter (λ f, groupable f = true) flows.
Proof.
  unfold clusters. rewrite join_app, !subdivide_join, filter_join, !subdivide_join.
  destruct (filter _ flows); [done|]. cbn. by rewrite app_nil_r.
Qed.

Lemma mjoin_perm {A} (l l' : list (list A)) : l ≡ₚ l' → mjoin l ≡ₚ mjoin l'.
Proof.
  induction 1 as [|x l l' _ IH|x y l|l l' l'' _ IH1 _ IH2]; [done| | |by rewrite IH1].
  - by rewrite !mjoin_cons, IH.
  - rewrite !mjoin_cons, !(assoc (++)). apply Permutation_app_tail, Permutation_app_comm.
Qed.

Lemma strLt_orders U : orders strLt U.
Proof.
  split_and!.
  - intros a b c _ _ _. apply strLt_trans.
  - intros a b _ _. apply strLt_asym.
  - intros a b _ _. apply strLt_total.
Qed.

Lemma report_join groups :
  mjoin (report groups) ≡ₚ mjoin (filter (λ g, 2 ≤ length g)%nat groups).
Proof.
  unfold report. rewrite (mjoin_perm _ _ (sortBy_Permutation _ _)).
  induction (filter _ groups) as [|g gs IH]; [done|].
  by rewrite fmap_cons, !mjoin_cons, sortBy_Permutation, IH.
Qed.

(** A report of disjoint groups: disjoint, sorted, with two members or more,
    and nothing but what was there. *)
Lemma report_ok groups :
  NoDup (mjoin groups) →
  NoDup (mjoin (report groups)) ∧
  ∀ g, g ∈ report groups → (2 ≤ length g)%nat ∧ StronglySorted (below strLt) g ∧
    ∃ g', g' ∈ groups ∧ g ≡ₚ g'.
Proof.
  intros Hn. split.
  - rewrite report_join. revert Hn. induction groups as [|g gs IH]; [done|]. rewrite filter_cons, mjoin_cons.
    intros (Hg & Hd & Hgs)%NoDup_app. specialize (IH Hgs). case_decide; [|done]. rewrite mjoin_cons.
    apply NoDup_app. split_and!; [done| |done]. intros i Hi Hin. apply (Hd i Hi).
    apply list_elem_of_join in Hin as (g' & Hi' & [_ Hg']%list_elem_of_filter).
    apply list_elem_of_join. eauto.
  - unfold report. intros g. rewrite sortBy_Permutation.
    intros (g' & -> & [Hl Hg]%list_elem_of_filter)%list_elem_of_fmap. split_and!.
    + by rewrite sortBy_Permutation.
    + apply (sortBy_sorted _ g'); [apply strLt_orders|by apply Forall_forall].
    + exists g'. split; [done|apply sortBy_Permutation].
Qed.

Lemma ids_join (gs : list (list FlowSummary)) :
  mjoin ((λ g : list FlowSummary, id <$> g) <$> gs) = id <$> mjoin gs.
Proof. induction gs as [|g gs IH]; [done|]. by rewrite fmap_cons, !mjoin_cons, IH, fmap_app. Qed.

Lemma fmap_filter_sublist {A B} (f : A → B) (P : A → Prop) `{∀ x, Decision (P x)} (l : list A) :
  f <$> filter P l `sublist_of` f <$> l.
Proof.
  induction l as [|x l IH]; [done|]. rewrite filter_cons. case_decide; rewrite ?fmap_cons;
    by constructor.
Qed.

Lemma NoDup_ids flows f f' :
  NoDup (id <$> flows) → f ∈ flows → f' ∈ flows → id f = id f' → f = f'.
Proof.
  intros Hn (i & Hi)%list_elem_of_lookup (j & Hj)%list_elem_of_lookup E.
  assert (i = j) as ->; [|congruence]. eapply NoDup_lookup; [exact Hn| |].
  - rewrite list_lookup_fmap, Hi. reflexivity.
  - rewrite list_lookup_fmap, Hj. cbn. by rewrite E.
Qed.

Lemma clusters_perm flows flows' :
  NoDup (id <$> flows) →
  (∀ f, f ∈ flows → groupable f = true → isNan (frequency (metrics f)) = false) →
  flows ≡ₚ flows' → clusters flows = clusters flows'.
Proof.
  intros Hn Hnan Hp. unfold clusters.
  assert (Hf : filter (λ f, groupable f = true) flows ≡ₚ filter (λ f, groupable f = true) flows')
    by by rewrite Hp.
  assert (E : subdivide match filter (λ f, groupable f = true) flows with [] => [] | _ => [filter (λ f, groupable f = true) flows] end frequency frequencyTogether =
    subdivide match filter (λ f, groupable f = true) flows' with [] => [] | _ => [filter (λ f, groupable f = true) flows'] end frequency frequencyTogether).
  2: by rewrite E.
  assert (Es : sortBy (before frequency) (filter (λ f, groupable f = true) flows) =
    sortBy (before frequency) (filter (λ f, groupable f = true) flows')).
  { apply sortBy_perm; [|done]. apply before_orders.
    - intros f [? ?]%list_elem_of_filter. auto.
    - intros f f' [_ ?]%list_elem_of_filter [_ ?]%list_elem_of_filter. by eapply NoDup_ids. }
  destruct (filter _ flows) as [|x l], (filter _ flows') as [|y l']; [done|..].
  - by apply Permutation_nil_cons in Hf.
  - by symmetry in Hf; apply Permutation_nil_cons in Hf.
  - unfold subdivide. cbn [fmap list_fmap]. by rewrite Es.
Qed.

(** The disjointness of the groups, and where their members come from. *)
Lemma group_ok flows :
  NoDup (id <$> flows) →
  NoDup (mjoin (group flows)) ∧
  ∀ g, g ∈ group flows → (2 ≤ length g)%nat ∧ StronglySorted (below strLt) g ∧
    ∀ i, i ∈ g → ∃ f, f ∈ flows ∧ id f = i ∧ groupable f = true.
Proof.
  intros Hn. set (gs := (λ g : list FlowSummary, id <$> g) <$> clusters flows).
  assert (Hj : mjoin gs ≡ₚ id <$> filter (λ f, groupable f = true) flows).
  { unfold gs. by rewrite ids_join, clusters_join. }
  assert (Hnj : NoDup (mjoin gs)).
  { rewrite Hj. eapply sublist_NoDup; [exact Hn|]. apply fmap_filter_sublist. }
  destruct (report_ok gs Hnj) as [H1 H2]. split; [done|].
  intros g Hg. destruct (H2 g Hg) as (? & ? & g' & Hg' & Hp). split_and!; [done|done|].
  intros i Hi. rewrite Hp in Hi. assert (Hin : i ∈ mjoin gs) by (apply list_elem_of_join; eauto).
  rewrite Hj in Hin. apply list_elem_of_fmap in Hin as (f & -> & [? ?]%list_elem_of_filter). eauto.
Qed.

(** The groups of the passive detector are disjoint, each has at least two
    members in order of their identifiers, and every member is a flow of the
    input that is ready and bottlenecked.  The result does not depend on the
    order of the flows, which come from an unordered map. *)
Theorem group_sound flows :
  NoDup (id <$> flows) →
  NoDup (mjoin (group flows)) ∧
  (∀ g, g ∈ group flows → (2 ≤ length g)%nat ∧ StronglySorted (below strLt) g ∧
     ∀ i, i ∈ g → ∃ f, f ∈ flows ∧ id f = i ∧ groupable f = true) ∧
  ((∀ f, f ∈ flows → groupable f = true → isNan (frequency (metrics f)) = false) →
   ∀ flows', flows ≡ₚ flows' → group flows = group flows').
Proof.
  intros Hn. destruct (group_ok flows Hn) as [H1 H2]. split_and!; [done|done|].
  intros Hnan flows' Hp. unfold group. by rewrite (clusters_perm _ _ Hn Hnan Hp).
Qed.
