(* ===== verification/SbdDc.v ===== *)
(** * DcSbd: the alternative estimator and its clusterer

    Models [src/src/sbd/DcSbd.{h,cpp}].  [None] is a missing key in [at]. *)

From Stdlib Require Import SpecFloat.
From S2P Require Import Prelude SbdDetector SbdGroups.

Definition kDcN : nat := 50.
Definition kDcM : nat := 30.
Definition kDcF : nat := 20.
Definition kDcFullHistoryIntervals : Z := 2 * 50.
Definition kDcCongestionSkew : double := scaled 3602879701896397 (-55).
Definition kDcHysteresisSkew : double := scaled 5404319552844595 (-54).
Definition kDcLossThreshold : double := scaled 1 (-2).
Definition kDcFrequencyDifference : double := scaled 3602879701896397 (-55).
Definition kDcMadDifference : double := scaled 3602879701896397 (-55).
Definition kDcSkewDifference : double := scaled 5404319552844595 (-55).
Definition kDcLossDifference : double := scaled 3602879701896397 (-55).
Definition kDcCrossingThreshold : double := scaled 3152519739159347 (-52).

(** ** The estimator *)

Record DcInterval := mkDcInterval {
  dc_count : Z; dc_mean : double; dc_skewBase : double; dc_varBase : double }.
Definition emptyDcInterval : DcInterval := mkDcInterval 0 fzero fzero fzero.

Record DcEstimator := mkDc {
  dcHistory_ : list DcInterval; dcSamples_ : list double; dcCursor_ : nat; dcSize_ : nat;
  dcIntervals_ : Z }.
Definition newDcEstimator : DcEstimator := mkDc (replicate kDcN emptyDcInterval) [] 0 0 0.

Definition dcSample (delayUs : double) (d : DcEstimator) : DcEstimator :=
  mkDc (dcHistory_ d) (dcSamples_ d ++ [delayUs]) (dcCursor_ d) (dcSize_ d) (dcIntervals_ d).

Definition weight (age : nat) : Z :=
  Z.of_nat (if (age <? kDcF)%nat then kDcM - kDcF + 1 else kDcM - age).

Definition sumD {A} (f : A → double) (l : list A) : double := foldl (λ acc x, (acc + f x)%D) fzero l.

(** The interval that ends, given the mean of the previous ones. *)
Definition dcCurrent (previous : option double) (ds : list double) : DcInterval :=
  let mean := (sumD (λ x, x) ds / of_int (Z.of_nat (length ds)))%D in
  mkDcInterval (Z.of_nat (length ds)) mean
    (match previous with
     | Some pm => sumD (λ x, of_int (if (x <? pm)%D then 1 else if (pm <? x)%D then -1 else 0)) ds
     | None => fzero
     end)
    (sumD (λ x, fabs (x - mean)%D) ds).

Fixpoint dcCrossings (mean deadband : double) (previous : Z) (freq : double) (l : list DcInterval) :
    double :=
  match l with
  | [] => freq
  | h :: l =>
      let s := side mean deadband (dc_mean h) in
      if s =? 0 then dcCrossings mean deadband previous freq l
      else dcCrossings mean deadband s
             (freq + of_int (if negb (previous =? 0)%Z && negb (s =? previous)%Z then 1 else 0))%D l
  end.

Definition extreme (pick : double → double → double) (ds : list double) : double :=
  match ds with [] => fzero | x :: l => foldl pick x l end.

(** The summary of a window, the current interval first. *)
Definition dcSummarize (n : Z) (valid : bool) (current : DcInterval) (ds : list double)
    (window : list DcInterval) : Summary :=
  let metric := take kDcM window in
  let weighted := zip (seq 0 (length metric)) metric in
  let wsum := λ f : DcInterval → double,
    sumD (λ p : nat * DcInterval, (of_int (weight p.1) * f p.2)%D) weighted in
  let total := wsum (λ h, of_int (dc_count h)) in
  let sk := if (total =? fzero)%D then fzero else (wsum dc_skewBase / total)%D in
  let var := if (total =? fzero)%D then fzero else (wsum dc_varBase / total)%D in
  let mean := averaged (sumD dc_mean metric) (Z.of_nat (length metric)) in
  mkSummary n (dc_count current) 0 0 30 30 kDcFullHistoryIntervals sk var
    (dcCrossings mean (kDcCrossingThreshold * var)%D 0 fzero (rev window) / of_int 50)%D
    fzero var (dc_mean current) (extreme fmin ds) (extreme fmax ds) 0 0 false valid.

Definition dcFinishInterval (d : DcEstimator) : DcEstimator * Summary :=
  match dcSamples_ d with
  | [] => (newDcEstimator, emptySummary)
  | ds =>
      let previousMeans := Nat.min (dcSize_ d) kDcM in
      let previous := averaged
        (sumD dc_mean (ringAt emptyDcInterval (dcHistory_ d) (dcCursor_ d) <$> seq 1 previousMeans))
        (Z.of_nat previousMeans) in
      let valid := negb (previousMeans =? 0)%nat in
      let current := dcCurrent (if valid then Some previous else None) ds in
      let h := <[dcCursor_ d := current]> (dcHistory_ d) in
      let size := Nat.min (dcSize_ d + 1) kDcN in
      let n := u64 (dcIntervals_ d + 1) in
      let window := ringAt emptyDcInterval h (dcCursor_ d) <$> seq 0 size in
      (mkDc h [] ((dcCursor_ d + 1) mod kDcN)%nat size n, dcSummarize n valid current ds window)
  end.

Definition dcBottleneck (s : Summary) (previously : bool) : bool :=
  ready s && measurementValid s &&
  ((skew s <? kDcCongestionSkew)%D || (previously && (skew s <? kDcHysteresisSkew)%D) ||
   (kDcLossThreshold <? loss s)%D).

(** ** The clusterer *)

Definition relativeDifference (a b threshold : double) : double :=
  let high := fmax (fabs a) (fabs b) in
  if (high =? fzero)%D then fzero else (fabs (a - b) / (threshold * high))%D.

Definition dcDistanceSquared (a b : Summary) : double :=
  let sk := (fabs (skew a - skew b) / kDcSkewDifference)%D in
  let fr := (fabs (frequency a - frequency b) / kDcFrequencyDifference)%D in
  let va := relativeDifference (variation a) (variation b) kDcMadDifference in
  let lo := relativeDifference (loss a) (loss b) kDcLossDifference in
  (sk * sk + fr * fr + va * va + lo * lo)%D.

Record DcClusterer := mkClusterer { classes_ : gmap string Z; nextClass_ : Z }.
Definition newClusterer : DcClusterer := mkClusterer ∅ 1.

Definition removeClass (i : string) (c : DcClusterer) : DcClusterer :=
  mkClusterer (delete i (classes_ c)) (nextClass_ c).

Definition infinity : double := S754_infinity false.

(** The distance to the nearest other flow, and the nearest flow. *)
Definition nearest (f : FlowSummary) (cluster : list FlowSummary) : double :=
  foldl (λ acc g, if bool_decide (id f = id g) then acc
                  else fmin acc (dcDistanceSquared (metrics f) (metrics g))) infinity cluster.
Definition closest (f : FlowSummary) (flows : list FlowSummary) : option FlowSummary * double :=
  foldl (λ acc g, if bool_decide (id f = id g) then acc
                  else let x := dcDistanceSquared (metrics f) (metrics g) in
                       if (x <? acc.2)%D then (Some g, x) else acc) (None, infinity) flows.

(** The flow furthest from its nearest neighbour. *)
Definition furthest (cluster : list FlowSummary) : option FlowSummary * double :=
  foldl (λ acc f, let x := nearest f cluster in if (acc.2 <? x)%D then (Some f, x) else acc)
    (None, of_int (-1)) cluster.

(** Classes for flows that have none; 0 for flows that take no part. *)
Definition enroll (c : DcClusterer) (f : FlowSummary) : DcClusterer :=
  if groupable f then
    if default 0 (classes_ c !! id f) =? 0
    then mkClusterer (<[id f := nextClass_ c]> (classes_ c)) (nextClass_ c + 1)
    else c
  else mkClusterer (<[id f := 0]> (classes_ c)) (nextClass_ c).

(** The previous clusters in the order of their classes. *)
Definition byClass (m : gmap string Z) (flows : list FlowSummary) : option (list (list FlowSummary)) :=
  keys ← mapM (λ f, m !! id f) flows;
  Some ((λ k, filter (λ f, m !! id f = Some k) flows) <$> sortBy Z.ltb (remove_dups keys)).

(** A flow that is too far from its cluster is separated. *)
Definition separate (acc : DcClusterer * gset string) (cluster : list FlowSummary) :
    DcClusterer * gset string :=
  if (length cluster <? 2)%nat then acc
  else match furthest cluster with
       | (Some f, x) =>
           if (of_int 1 <? x)%D
           then (mkClusterer (<[id f := nextClass_ acc.1]> (classes_ acc.1)) (nextClass_ acc.1 + 1),
                 {[id f]} ∪ acc.2)
           else acc
       | (None, _) => acc
       end.

(** One flow of an iteration joins the class of its closest flow. *)
Definition join (flows : list FlowSummary) (m : option (gmap string Z)) (f : FlowSummary) :
    option (gmap string Z) :=
  m ← m;
  match closest f flows with
  | (Some g, x) => if (x <=? of_int 1)%D then k ← m !! id g; Some (<[id f := k]> m) else Some m
  | (None, _) => Some m
  end.

(** From the classes of the bottlenecked flows to the reported groups. *)
Definition recluster (bs : list FlowSummary) (c : DcClusterer) : option (DcClusterer * list (list string)) :=
  previous ← byClass (classes_ c) bs;
  let '(c, separated) := foldl separate (c, ∅) previous in
  let ordered := filter (λ f, id f ∉ separated) bs ++ filter (λ f, id f ∈ separated) bs in
  m ← foldl (join ordered) (Some (classes_ c)) (ordered ++ ordered);
  groups ← byClass m ordered;
  Some (mkClusterer m (nextClass_ c), report ((λ g : list FlowSummary, id <$> g) <$> groups)).

Definition update (flows : list FlowSummary) (c : DcClusterer) :
    option (DcClusterer * list (list string)) :=
  let flows := sortBy (λ a b, strLt (id a) (id b)) flows in
  let c := mkClusterer (filter (λ '(i, _), i ∈ id <$> flows) (classes_ c)) (nextClass_ c) in
  let c := foldl enroll c flows in
  recluster (filter (λ f, groupable f = true) flows) c.

(** ** The clusterer's groups *)

Lemma classes_join (key : FlowSummary → option Z) ks flows :
  NoDup ks → NoDup flows → (∀ f, f ∈ flows → ∃ k, key f = Some k ∧ k ∈ ks) →
  mjoin ((λ k, filter (λ f, key f = Some k) flows) <$> ks) ≡ₚ flows.
Proof.
  intros Hks Hfl Hall. apply NoDup_Permutation; [|done|].
  - clear Hall. induction Hks as [|k ks Hk Hks IH]; [constructor|]. rewrite fmap_cons, mjoin_cons.
    apply NoDup_app. split_and!; [by apply NoDup_filter| |done].
    intros f [Hf _]%list_elem_of_filter (l & Hl & (k' & -> & Hk')%list_elem_of_fmap)%list_elem_of_join.
    apply list_elem_of_filter in Hl as [Hf' _]. rewrite Hf in Hf'. injection Hf' as ->. done.
  - intros f. rewrite list_elem_of_join. split.
    + intros (l & Hl & (k & -> & _)%list_elem_of_fmap). by apply list_elem_of_filter in Hl as [_ ?].
    + intros Hf. destruct (Hall f Hf) as (k & ? & ?). exists (filter (λ f, key f = Some k) flows).
      split; [by apply list_elem_of_filter|]. apply list_elem_of_fmap. eauto.
Qed.

Lemma byClass_ok m flows :
  NoDup flows → (∀ f, f ∈ flows → is_Some (m !! id f)) →
  ∃ gs, byClass m flows = Some gs ∧ mjoin gs ≡ₚ flows ∧
    ∀ g, g ∈ gs → ∃ k, ∀ f, f ∈ g ↔ f ∈ flows ∧ m !! id f = Some k.
Proof.
  intros Hn Hm. unfold byClass.
  destruct (mapM_is_Some_2 (λ f, m !! id f) flows) as [keys E]; [by apply Forall_forall|].
  rewrite E. cbn [mbind option_bind]. eexists. split; [done|]. split.
  - apply (classes_join (λ f, m !! id f)); [|done|].
    + rewrite sortBy_Permutation. apply NoDup_remove_dups.
    + intros f Hf. destruct (Hm f Hf) as [k Hk]. exists k. split; [done|].
      rewrite sortBy_Permutation, elem_of_remove_dups. apply mapM_Some_1 in E.
      apply list_elem_of_lookup in Hf as (i & Hi). destruct (Forall2_lookup_l _ _ _ _ _ E Hi) as (k' & Hk' & E').
      apply list_elem_of_lookup. exists i. congruence.
  - intros g (k & -> & _)%list_elem_of_fmap. exists k. intros f. rewrite list_elem_of_filter. tauto.
Qed.

(** Classes are numbered from 1; 0 marks a flow that takes no part. *)
Record clusterer_ok (c : DcClusterer) : Prop := mkClusOk {
  ck_next : 1 <= nextClass_ c;
  ck_range : ∀ i k, classes_ c !! i = Some k → 0 <= k < nextClass_ c;
}.

(** What the classes say about a list of flows. *)
Definition classified (m : gmap string Z) (flows : list FlowSummary) : Prop :=
  ∀ f, f ∈ flows → ∃ k, m !! id f = Some k ∧ (k = 0 ↔ groupable f = false).

Lemma enroll_ok c f :
  clusterer_ok c → clusterer_ok (enroll c f) ∧ dom (classes_ (enroll c f)) = {[id f]} ∪ dom (classes_ c) ∧
  (∃ k, classes_ (enroll c f) !! id f = Some k ∧ (k = 0 ↔ groupable f = false)) ∧
  ∀ i, i ≠ id f → classes_ (enroll c f) !! i = classes_ c !! i.
Proof.
  intros [Hn Hr]. unfold enroll. destruct (groupable f) eqn:Eg.
  - destruct (Z.eqb_spec (default 0 (classes_ c !! id f)) 0) as [E|E].
    + cbn. split_and!; [split; cbn; [lia|]|by rewrite dom_insert_L| |].
      * intros i k [[<- <-]|[_ H]]%lookup_insert_Some; [lia|]. specialize (Hr i k H). lia.
      * rewrite lookup_insert_eq. eexists. split; [done|]. split; [lia|done].
      * intros i Hi. by rewrite lookup_insert_ne.
    + destruct (classes_ c !! id f) as [k|] eqn:Ek; [|done]. cbn in E.
      split_and!; [done| | |done].
      * symmetry. apply subseteq_union_1_L. apply singleton_subseteq_l, elem_of_dom. eauto.
      * exists k. split; [done|]. split; [lia|done].
  - cbn. split_and!; [split; cbn; [lia|]|by rewrite dom_insert_L| |].
    + intros i k [[<- <-]|[_ H]]%lookup_insert_Some; [lia|]. by apply (Hr i).
    + rewrite lookup_insert_eq. by eexists.
    + intros i Hi. by rewrite lookup_insert_ne.
Qed.

Lemma enrollAll_ok flows : ∀ c,
  NoDup (id <$> flows) → clusterer_ok c →
  clusterer_ok (foldl enroll c flows) ∧ classified (classes_ (foldl enroll c flows)) flows ∧
  dom (classes_ (foldl enroll c flows)) = list_to_set (id <$> flows) ∪ dom (classes_ c) ∧
  ∀ i, i ∉ id <$> flows → classes_ (foldl enroll c flows) !! i = classes_ c !! i.
Proof.
  induction flows as [|f flows IH]; intros c Hn Hc; cbn.
  - split_and!; [done|by intros ? ?%not_elem_of_nil|set_solver|done].
  - apply NoDup_cons in Hn as [Hf Hn]. destruct (enroll_ok c f Hc) as (H1 & H2 & H3 & H4).
    destruct (IH (enroll c f) Hn H1) as (I1 & I2 & I3 & I4). split_and!; [done| | |].
    + intros g [->|Hg]%elem_of_cons; [|by apply I2]. by rewrite I4.
    + rewrite I3, H2. set_solver.
    + intros i Hi. apply not_elem_of_cons in Hi as [? ?]. rewrite I4, H4; done.
Qed.

(** Steps that give flows of a list new non-zero classes. *)
Definition reclassified (flows : list FlowSummary) (m m' : gmap string Z) : Prop :=
  dom m' = dom m ∧
  (∀ i, i ∉ id <$> flows → m' !! i = m !! i) ∧
  ((∀ f, f ∈ flows → ∃ k, m !! id f = Some k ∧ k ≠ 0) →
   ∀ f, f ∈ flows → ∃ k, m' !! id f = Some k ∧ k ≠ 0).

#[export] Instance reclassified_preorder flows : PreOrder (reclassified flows).
Proof.
  split; [by intros m|]. intros m1 m2 m3 (A1 & A2 & A3) (B1 & B2 & B3). split_and!.
  - congruence.
  - intros i Hi. by rewrite B2, A2.
  - auto.
Qed.

Lemma reclassify_insert flows m f k :
  f ∈ flows → is_Some (m !! id f) → k ≠ 0 → reclassified flows m (<[id f := k]> m).
Proof.
  intros Hf Hm Hk. split_and!.
  - rewrite dom_insert_L. apply subseteq_union_1_L, singleton_subseteq_l, elem_of_dom, Hm.
  - intros i Hi. rewrite lookup_insert_ne; [done|]. intros <-. by apply Hi, list_elem_of_fmap_2.
  - intros H g Hg. destruct (decide (id g = id f)) as [->|?].
    + rewrite lookup_insert_eq. eauto.
    + rewrite lookup_insert_ne by done. auto.
Qed.

(** A fold that remembers one of the elements it has seen. *)
Lemma foldl_pick {A B} (step : option A * B → A → option A * B) (l : list A) (b : B) x y :
  (∀ acc z, step acc z = acc ∨ (step acc z).1 = Some z) → foldl step (None, b) l = (Some x, y) → x ∈ l.
Proof.
  intros Hs.
  assert (H : ∀ l' acc, l' ⊆ l → (∀ z, acc.1 = Some z → z ∈ l) →
    ∀ z, (foldl step acc l').1 = Some z → z ∈ l).
  { induction l' as [|w l' IH]; intros acc Hl Hacc; cbn; [done|]. apply IH; [set_solver|].
    intros z Hz. destruct (Hs acc w) as [E|E]; rewrite E in Hz; [auto|]. injection Hz as <-. set_solver. }
  intros E. apply (H l (None, b)); [done|done|by rewrite E].
Qed.

Lemma furthest_elem cluster f x : furthest cluster = (Some f, x) → f ∈ cluster.
Proof. apply foldl_pick. intros acc z. cbv zeta. destruct (_ <? _)%D; auto. Qed.

Lemma closest_elem f flows g x : closest f flows = (Some g, x) → g ∈ flows.
Proof.
  apply foldl_pick. intros acc z. cbv zeta. case_bool_decide; [auto|]. destruct (_ <? _)%D; auto.
Qed.

Lemma separate_ok flows clusters : ∀ c s,
  (∀ cl, cl ∈ clusters → cl ⊆ flows) → clusterer_ok c → (∀ f, f ∈ flows → is_Some (classes_ c !! id f)) →
  let c' := (foldl separate (c, s) clusters).1 in
  clusterer_ok c' ∧ reclassified flows (classes_ c) (classes_ c').
Proof.
  induction clusters as [|cl clusters IH]; intros c s Hcl Hc Hm; cbn; [done|].
  assert (Hstep : clusterer_ok (separate (c, s) cl).1 ∧
    reclassified flows (classes_ c) (classes_ (separate (c, s) cl).1)).
  { unfold separate. destruct (_ <? _)%nat; [done|]. destruct (furthest cl) as [[f|] x] eqn:E; [|done].
    destruct (_ <? _)%D; [|done]. cbn. destruct Hc as [Hn Hr].
    assert (Hf : f ∈ flows). { apply (Hcl cl); [by left|]. by eapply furthest_elem. }
    split; [|apply reclassify_insert; [done|by apply Hm|lia]]. split; cbn; [lia|].
    intros i k [[_ <-]|[_ H]]%lookup_insert_Some; [lia|]. specialize (Hr i k H). lia. }
  destruct (separate (c, s) cl) as [c1 s1]. cbn in Hstep. destruct Hstep as [H1 H2].
  destruct (IH c1 s1) as [H3 H4]; [set_solver|done| |].
  - intros f Hf. destruct H2 as (Hd & _). apply elem_of_dom. rewrite Hd. apply elem_of_dom. auto.
  - split; [done|]. by transitivity (classes_ c1).
Qed.

Lemma join_ok flows l : ∀ m,
  l ⊆ flows → (∀ f, f ∈ flows → ∃ k, m !! id f = Some k ∧ k ≠ 0) →
  (∃ n, ∀ i k, m !! i = Some k → 0 <= k < n) →
  ∃ m', foldl (join flows) (Some m) l = Some m' ∧ reclassified flows m m' ∧
    ∀ n, (∀ i k, m !! i = Some k → 0 <= k < n) → ∀ i k, m' !! i = Some k → 0 <= k < n.
Proof.
  induction l as [|f l IH]; intros m Hl Hm Hr; cbn [foldl]; [by exists m|].
  assert (Hstep : ∃ m1, join flows (Some m) f = Some m1 ∧ reclassified flows m m1 ∧
    ∀ n, (∀ i k, m !! i = Some k → 0 <= k < n) → ∀ i k, m1 !! i = Some k → 0 <= k < n).
  { unfold join. cbn [mbind option_bind]. destruct (closest f flows) as [[g|] x] eqn:E; [|by exists m].
    destruct (_ <=? _)%D; [|by exists m]. destruct (Hm g) as (k & Hk & Hk0); [by eapply closest_elem|].
    rewrite Hk. cbn [mbind option_bind]. eexists. split; [done|].
    assert (Hf : f ∈ flows) by set_solver. split.
    - apply reclassify_insert; [done| |done]. destruct (Hm f Hf) as (? & ? & _). eauto.
    - intros n Hn i k' [[_ <-]|[_ H]]%lookup_insert_Some; eauto. }
  destruct Hstep as (m1 & -> & H1 & H2). destruct (IH m1) as (m' & -> & H3 & H4).
  - set_solver.
  - by apply H1.
  - destruct Hr as [n Hn]. exists n. by apply H2.
  - exists m'. split; [done|]. split; [by transitivity m1|]. intros n Hn. exact (H4 n (H2 n Hn)).
Qed.

Lemma sorted_ids flows :
  NoDup (id <$> flows) → NoDup (id <$> sortBy (λ a b, strLt (id a) (id b)) flows).
Proof. intros. by rewrite sortBy_Permutation. Qed.

Lemma reclassified_perm flows flows' m m' :
  flows ≡ₚ flows' → reclassified flows m m' → reclassified flows' m m'.
Proof.
  intros Hp (H1 & H2 & H3). split_and!; [done| |].
  - intros i Hi. apply H2. by rewrite Hp.
  - intros H f Hf. rewrite <-Hp in Hf. apply H3; [|done]. intros g Hg. apply H. by rewrite <-Hp.
Qed.

Lemma partition_perm (P : FlowSummary → Prop) `{∀ f, Decision (P f)} l :
  filter (λ f, ¬ P f) l ++ filter P l ≡ₚ l.
Proof.
  induction l as [|f l IH]; [done|]. rewrite !filter_cons.
  destruct (decide (P f)); case_decide; try done; cbn; [|by rewrite IH].
  by rewrite <-Permutation_middle, IH.
Qed.

Lemma reported_ok bs gs (m : gmap string Z) :
  NoDup (id <$> bs) → mjoin gs ≡ₚ bs →
  (∀ g, g ∈ gs → ∃ k, ∀ f, f ∈ g ↔ f ∈ bs ∧ m !! id f = Some k) →
  let r := report ((λ g : list FlowSummary, id <$> g) <$> gs) in
  NoDup (mjoin r) ∧
  ∀ g, g ∈ r → (2 ≤ length g)%nat ∧ StronglySorted (below strLt) g ∧
    ∃ k : Z, ∀ i, i ∈ g ↔ ∃ f, f ∈ bs ∧ id f = i ∧ m !! i = Some k.
Proof.
  intros Hn Hj Hk r. destruct (report_ok ((λ g : list FlowSummary, id <$> g) <$> gs)) as [H1 H2].
  { by rewrite ids_join, Hj. }
  split; [done|]. intros g Hg. destruct (H2 g Hg) as (? & ? & g' & Hg' & Hp). split_and!; [done|done|].
  apply list_elem_of_fmap in Hg' as (fs & -> & Hfs). destruct (Hk fs Hfs) as [k Hfk]. exists k. intros i.
  rewrite Hp, list_elem_of_fmap. split.
  - intros (f & -> & [? ?]%Hfk). eauto.
  - intros (f & Hf & <- & Hi). exists f. split; [done|]. by apply Hfk.
Qed.

Lemma recluster_ok bs c :
  NoDup (id <$> bs) → clusterer_ok c → (∀ f, f ∈ bs → ∃ k, classes_ c !! id f = Some k ∧ k ≠ 0) →
  ∃ c' r, recluster bs c = Some (c', r) ∧ clusterer_ok c' ∧ reclassified bs (classes_ c) (classes_ c') ∧
    NoDup (mjoin r) ∧
    ∀ g, g ∈ r → (2 ≤ length g)%nat ∧ StronglySorted (below strLt) g ∧
      ∃ k : Z, ∀ i, i ∈ g ↔ ∃ f, f ∈ bs ∧ id f = i ∧ classes_ c' !! i = Some k.
Proof.
  intros Hn Hc Hcls. unfold recluster. assert (Hnb : NoDup bs) by by eapply NoDup_fmap_1.
  destruct (byClass_ok (classes_ c) bs Hnb) as (prev & -> & Hj & _).
  { intros f Hf. destruct (Hcls f Hf) as (k & ? & _). eauto. }
  cbn [mbind option_bind]. destruct (separate_ok bs prev c ∅) as [Hc2 Hr2]; [|done| |].
  { intros cl Hcl f Hf. rewrite <-Hj. apply list_elem_of_join. eauto. }
  { intros f Hf. destruct (Hcls f Hf) as (k & ? & _). eauto. }
  destruct (foldl separate (c, ∅) prev) as [c2 sep]. cbn [fst] in Hc2, Hr2.
  set (ord := filter (λ f, id f ∉ sep) bs ++ filter (λ f, id f ∈ sep) bs).
  assert (Hp : ord ≡ₚ bs) by apply (partition_perm (λ f, id f ∈ sep)).
  assert (Hcls2 : ∀ f, f ∈ ord → ∃ k, classes_ c2 !! id f = Some k ∧ k ≠ 0).
  { intros f Hf. rewrite Hp in Hf. by apply Hr2. }
  destruct (join_ok ord (ord ++ ord) (classes_ c2)) as (m & -> & Hrm & Hrange); [set_solver|done| |].
  { exists (nextClass_ c2). apply Hc2. }
  cbn [mbind option_bind]. assert (Hno : NoDup ord) by by rewrite Hp.
  destruct (byClass_ok m ord Hno) as (gs & -> & Hjg & Hgs).
  { intros f Hf. destruct Hrm as (_ & _ & Hrm). destruct (Hrm Hcls2 f Hf) as (k & ? & _). eauto. }
  cbn [mbind option_bind]. eexists _, _. split; [done|].
  split; [split; [apply Hc2|apply Hrange; apply Hc2]|].
  split; [transitivity (classes_ c2); [done|by eapply reclassified_perm]|].
  apply (reported_ok bs gs m Hn); [by rewrite Hjg|]. intros g Hg. destruct (Hgs g Hg) as [k Hk]. exists k.
  intros f. by rewrite Hk, Hp.
Qed.

Lemma update_ok flows c :
  NoDup (id <$> flows) → clusterer_ok c →
  ∃ c' r, update flows c = Some (c', r) ∧ clusterer_ok c' ∧
    NoDup (mjoin r) ∧
    (∀ g, g ∈ r → (2 ≤ length g)%nat ∧ StronglySorted (below strLt) g ∧
       ∃ k, ∀ i, i ∈ g ↔ ∃ f, f ∈ flows ∧ id f = i ∧ groupable f = true ∧ classes_ c' !! i = Some k) ∧
    dom (classes_ c') = list_to_set (id <$> flows) ∧
    classified (classes_ c') flows.
Proof.
  intros Hn Hc. unfold update. set (fs := sortBy _ flows).
  assert (Hp : fs ≡ₚ flows) by apply sortBy_Permutation.
  assert (Hnf : NoDup (id <$> fs)) by by apply sorted_ids.
  set (c0 := mkClusterer _ (nextClass_ c)).
  assert (Hc0 : clusterer_ok c0).
  { destruct Hc as [H1 H2]. split; [done|]. cbn. intros i k [H _]%map_lookup_filter_Some. eauto. }
  destruct (enrollAll_ok fs c0 Hnf Hc0) as (Hc1 & Hcl1 & Hd1 & _). set (c1 := foldl enroll c0 fs) in *.
  set (bs := filter (λ f, groupable f = true) fs).
  assert (Hbs : ∀ f, f ∈ bs ↔ f ∈ flows ∧ groupable f = true).
  { intros f. unfold bs. rewrite list_elem_of_filter, Hp. tauto. }
  destruct (recluster_ok bs c1) as (c' & r & E & Hc' & (Hd & Hout & Hin) & H1 & H2); [|done| |].
  { eapply sublist_NoDup; [exact Hnf|]. apply fmap_filter_sublist. }
  { intros f [Hf Hg]%Hbs. rewrite <-Hp in Hf. destruct (Hcl1 f Hf) as (k & ? & Hk). exists k.
    split; [done|]. intros Ez. apply Hk in Ez. congruence. }
  exists c', r. split_and!; [exact E|done|done| | |].
  - intros g Hg. destruct (H2 g Hg) as (? & ? & k & Hk). split_and!; [done|done|]. exists k. intros i.
    rewrite Hk. split; [intros (f & [? ?]%Hbs & ? & ?); eauto|]. intros (f & ? & ? & ? & ?). exists f.
    by rewrite Hbs.
  - rewrite Hd, Hd1. apply set_eq. intros i. rewrite elem_of_union, elem_of_dom, !elem_of_list_to_set, Hp.
    split; [|auto]. intros [?|[k [_ Hi]%map_lookup_filter_Some]]; [done|]. by rewrite Hp in Hi.
  - intros f Hf. rewrite <-Hp in Hf. destruct (Hcl1 f Hf) as (k & Hk & Hk0). destruct (groupable f) eqn:Eg.
    + assert (Hfb : f ∈ bs) by (apply Hbs; by rewrite <-Hp).
      destruct (Hin) with (f := f) as (k' & ? & ?); [|done|].
      * intros f' [Hf' Hg']%Hbs. rewrite <-Hp in Hf'. destruct (Hcl1 f' Hf') as (k' & ? & Hk').
        exists k'. split; [done|]. intros Ez. apply Hk' in Ez. congruence.
      * exists k'. split; [done|]. split; [lia|done].
    + exists k. split; [|done]. rewrite Hout; [done|]. intros (f' & E' & [Hf' Hg']%Hbs)%list_elem_of_fmap.
      rewrite <-Hp in Hf'. assert (f = f') as <- by by eapply (NoDup_ids fs). congruence.
Qed.

(** C33: An update of the clusterer always ends with a result: its groups are
    disjoint, each has at least two members in order of their identifiers, all
    of them flows of the input that are ready and bottlenecked, and a group is
    exactly the flows of one class.  Afterwards exactly the flows of the input
    have a class, and it is 0 for those that take no part. *)
Theorem dc_update_sound flows c :
  NoDup (id <$> flows) → clusterer_ok c →
  ∃ c' r, update flows c = Some (c', r) ∧ clusterer_ok c' ∧
    NoDup (mjoin r) ∧
    (∀ g, g ∈ r → (2 ≤ length g)%nat ∧ StronglySorted (below strLt) g ∧
       ∃ k, ∀ i, i ∈ g ↔ ∃ f, f ∈ flows ∧ id f = i ∧ groupable f = true ∧ classes_ c' !! i = Some k) ∧
    dom (classes_ c') = list_to_set (id <$> flows) ∧
    classified (classes_ c') flows.
Proof. apply update_ok. Qed.
