(* ===== verification/SbdIntervals.v ===== *)
(** * ReceiveIntervals and FeedbackLoss

    Models [src/src/sbd/ReceiveIntervals.{h,cpp}]: samples put in intervals of
    receiver time, over either estimator, and the ledger that counts the
    acknowledged and lost packets of an interval of send time. *)

From Stdlib Require Import SpecFloat.
From S2P Require Import Prelude SbdDetector SbdGroups SbdDc.

Definition kIntervalUs : Z := 350000.
Definition int64_max : Z := 2 ^ 63 - 1.

(** ** Estimators *)

(** What [ReceiveIntervals] uses of [Detector] and of [DcEstimator]. *)
Class Estimator (E : Type) := {
  est_new : E;
  est_sample : double → E → E;
  est_finish : E → E * Summary;
}.
#[export] Instance Detector_Estimator : Estimator Detector :=
  {| est_new := newDetector; est_sample := sample; est_finish := finishInterval |}.
#[export] Instance DcEstimator_Estimator : Estimator DcEstimator :=
  {| est_new := newDcEstimator; est_sample := dcSample; est_finish := dcFinishInterval |}.

(** ** Intervals of receiver time *)

Section ReceiveIntervals.
Context {E : Type} `{Estimator E}.

Record ReceiveIntervals := mkReceive {
  estimator : E;
  buckets_ : gmap Z (list double);
  next_ : option Z;
  first_ : option Z;
  watermark_ : Z;
  samples_ : Z;
}.

Definition newReceive : ReceiveIntervals := mkReceive est_new ∅ None None 0 0.

Definition isFinite (x : double) : bool :=
  match x with S754_zero _ | S754_finite _ _ _ => true | _ => false end.

Definition receiveSample (receiveUs : Z) (delayUs : double) (r : ReceiveIntervals) :
    ReceiveIntervals * bool :=
  if (receiveUs <? 0) || (int64_max - 10 * kIntervalUs <? receiveUs) || negb (isFinite delayUs)
  then (r, false)
  else
    let bucket := Z.quot receiveUs kIntervalUs in
    let '(first, next) := match next_ r, first_ r with
                          | Some n, Some f => (f, n)
                          | _, _ => (bucket, bucket + 1)
                          end in
    let r := mkReceive (estimator r) (buckets_ r) (Some next) (Some first) (watermark_ r) (samples_ r) in
    if bucket =? first then (r, true)
    else if (bucket <? next) || (8 <? bucket - next) || (65536 <=? samples_ r) then (r, false)
    else
      (mkReceive (estimator r) (<[bucket := default [] (buckets_ r !! bucket) ++ [delayUs]]> (buckets_ r))
         (Some next) (Some first) (watermark_ r) (samples_ r + 1), true).

Definition stamped (s : Summary) (n : Z) : Summary :=
  mkSummary (intervals s) (samples s) (acked s) (lost s) (readyAfter s) (groupingReadyAfter s)
    (fullHistoryAfter s) (skew s) (variation s) (frequency s) (loss s) (groupingVariation s)
    (intervalMeanDelayUs s) (intervalMinDelayUs s) (intervalMaxDelayUs s) (n * kIntervalUs)
    ((n + 1) * kIntervalUs) (bottleneck s) (measurementValid s).

(** One round of the loop of [finishThrough]: interval [n] ends. *)
Definition finishNext (n : Z) (r : ReceiveIntervals) : ReceiveIntervals * Summary :=
  let ds := default [] (buckets_ r !! n) in
  let e := foldl (flip est_sample) (estimator r) ds in
  let '(e, s) := est_finish e in
  (mkReceive e (delete n (buckets_ r)) (Some (n + 1)) (first_ r) (watermark_ r)
     (samples_ r - Z.of_nat (length ds)),
   stamped s n).

(** The loop runs while interval [next_] has ended at the watermark. *)
Fixpoint finishLoop (fuel : nat) (r : ReceiveIntervals) : ReceiveIntervals * list Summary :=
  match fuel, next_ r with
  | S fuel, Some n =>
      if (n + 1) * kIntervalUs <=? watermark_ r then
        let '(r, s) := finishNext n r in
        let '(r, l) := finishLoop fuel r in (r, s :: l)
      else (r, [])
  | _, _ => (r, [])
  end.

Definition finishThrough (receiveWatermarkUs : Z) (r : ReceiveIntervals) :
    ReceiveIntervals * list Summary :=
  match next_ r with
  | Some n =>
      if receiveWatermarkUs <? 0 then (r, [])
      else
        let w := Z.max (watermark_ r) receiveWatermarkUs in
        finishLoop (Z.to_nat (w / kIntervalUs - n))
          (mkReceive (estimator r) (buckets_ r) (Some n) (first_ r) w (samples_ r))
  | None => (r, [])
  end.

(** *** Bounds *)

Definition bucketed (m : gmap Z (list double)) : Z := msum (λ _ l, Z.of_nat (length l)) m.

Record receive_pre (r : ReceiveIntervals) : Prop := mkReceivePre {
  ro_samples : samples_ r = bucketed (buckets_ r);
  ro_limit : samples_ r <= 65536;
  ro_first : is_Some (first_ r) ↔ is_Some (next_ r);
  ro_buckets : ∀ k l, buckets_ r !! k = Some l → ∃ n, next_ r = Some n ∧ n <= k <= n + 8;
  ro_next : ∀ n, next_ r = Some n → 0 < n ∧ ∀ f, first_ r = Some f → f < n;
  ro_mark : 0 <= watermark_ r ∧ (next_ r = None → watermark_ r = 0);
}.

(** Every interval that has ended at the watermark has been finished. *)
Definition caughtUp (r : ReceiveIntervals) : Prop :=
  ∀ n, next_ r = Some n → watermark_ r < (n + 1) * kIntervalUs.

Definition receive_ok (r : ReceiveIntervals) : Prop := receive_pre r ∧ caughtUp r.

Lemma newReceive_ok : receive_ok newReceive.
Proof. split; [split|]; cbn; done. Qed.

(** The interval that the first sample falls in is skipped. *)
Lemma started_ok b r :
  receive_ok r → 0 <= b →
  let '(first, next) := match next_ r, first_ r with
                        | Some n, Some f => (f, n)
                        | _, _ => (b, b + 1)
                        end in
  receive_ok (mkReceive (estimator r) (buckets_ r) (Some next) (Some first) (watermark_ r) (samples_ r)).
Proof.
  intros [[] Hc] Hb. destruct (next_ r) as [n|] eqn:En.
  - destruct ro_first0 as [_ Hf]. destruct (first_ r) as [f|] eqn:Ef; [|by destruct (Hf (mk_is_Some _ _ eq_refl))].
    split; [split|]; cbn; rewrite ?En; try done; try (intuition eauto; fail).
    intros n' [= <-]. by apply Hc.
  - destruct ro_mark0 as [? Hw]. specialize (Hw eq_refl). split; [split|]; cbn; try done.
    + intros k l Hk. by destruct (ro_buckets0 k l Hk) as (? & ? & _).
    + intros n [= <-]. split; [lia|]. intros f [= <-]. lia.
    + intros n [= <-]. cbn. rewrite Hw. unfold kIntervalUs. lia.
Qed.

Lemma receiveSample_ok t x r :
  receive_ok r → receive_ok (receiveSample t x r).1.
Proof.
  intros Hok. unfold receiveSample.
  destruct ((t <? 0) || _ || _) eqn:Eg; [done|].
  apply orb_false_iff in Eg as [[Et _]%orb_false_iff _]. apply Z.ltb_ge in Et.
  set (b := Z.quot t kIntervalUs).
  assert (Hb : 0 <= b) by (apply Z.quot_pos; unfold kIntervalUs; lia).
  pose proof (started_ok b r Hok Hb) as Hs.
  destruct (match next_ r, first_ r with Some n, Some f => (f, n) | _, _ => (b, b + 1) end) as [f n].
  destruct (b =? f); [done|]. cbn [samples_].
  destruct ((b <? n) || (8 <? b - n) || (65536 <=? samples_ r)) eqn:Eb0; [done|].
  apply orb_false_iff in Eb0 as [[E1 E2]%orb_false_iff E3].
  apply Z.ltb_ge in E1, E2. apply Z.leb_gt in E3. clear Hok. destruct Hs as [[] Hc]. cbn in *.
  split; [split|]; cbn; try done.
  - unfold bucketed. destruct (buckets_ r !! b) as [l|] eqn:Eb; cbn.
    + rewrite (msum_replace _ _ _ l) by done. rewrite length_app. cbn. unfold bucketed in ro_samples0. lia.
    + rewrite msum_insert by done. cbn. unfold bucketed in ro_samples0. lia.
  - lia.
  - intros k l [[<- _]|[_ Hk]]%lookup_insert_Some; [|by eauto]. exists n. split; [done|]. lia.
Qed.

(** *** The intervals that end *)

(** The summaries of [c] consecutive intervals from [n] on. *)
Fixpoint expectedSummaries (c : nat) (n : Z) (e : E) (m : gmap Z (list double)) : list Summary :=
  match c with
  | O => []
  | S c =>
      let '(e, s) := est_finish (foldl (flip est_sample) e (default [] (m !! n))) in
      stamped s n :: expectedSummaries c (n + 1) e m
  end.

Lemma expectedSummaries_delete c n e m k :
  k < n → expectedSummaries c n e (delete k m) = expectedSummaries c n e m.
Proof.
  revert n e. induction c as [|c IH]; intros n e Hk; cbn; [done|]. rewrite lookup_delete_ne by lia.
  destruct (est_finish _) as [e' s]. rewrite IH by lia. done.
Qed.

Lemma expectedSummaries_length c n e m : length (expectedSummaries c n e m) = c.
Proof.
  revert n e. induction c as [|c IH]; intros n e; cbn; [done|]. destruct (est_finish _). cbn. by rewrite IH.
Qed.

Lemma expectedSummaries_stamp c n e m i s :
  expectedSummaries c n e m !! i = Some s →
  intervalStartUs s = (n + Z.of_nat i) * kIntervalUs ∧ intervalEndUs s = (n + Z.of_nat i + 1) * kIntervalUs.
Proof.
  revert n e i. induction c as [|c IH]; intros n e i; cbn; [done|]. destruct (est_finish _) as [e' s'].
  destruct i as [|i]; cbn; [intros [= <-]; cbn; split; lia|]. intros H'. apply IH in H' as [-> ->]. split; lia.
Qed.

Lemma finishNext_pre n r :
  receive_pre r → next_ r = Some n → receive_pre (finishNext n r).1.
Proof.
  intros [] En. unfold finishNext. destruct (est_finish _) as [e s]. cbn [fst].
  destruct (ro_next0 n En) as [Hn Hf]. split; cbn.
  - destruct (buckets_ r !! n) as [l|] eqn:El; cbn.
    + unfold bucketed in *. rewrite (msum_delete _ _ _ l) by done. lia.
    + rewrite delete_id by done. lia.
  - lia.
  - rewrite En in ro_first0. split; [by eexists|]. intros _. apply ro_first0. by eexists.
  - intros k l [Hne Hk]%lookup_delete_Some. destruct (ro_buckets0 k l Hk) as (n' & En' & ?).
    rewrite En in En'. injection En' as <-. exists (n + 1). split; [done|lia].
  - intros n' [= <-]. split; [lia|]. intros f Hff. specialize (Hf f Hff). lia.
  - split; [apply ro_mark0|done].
Qed.

Lemma finishLoop_ok fuel : ∀ r n,
  receive_pre r → next_ r = Some n → fuel = Z.to_nat (watermark_ r / kIntervalUs - n) →
  let '(r', out) := finishLoop fuel r in
  receive_ok r' ∧ out = expectedSummaries fuel n (estimator r) (buckets_ r).
Proof.
  induction fuel as [|fuel IH]; intros r n Hpre En Hf; cbn.
  - split; [|done]. split; [done|]. intros n' En'. rewrite En in En'. injection En' as <-.
    assert (watermark_ r / kIntervalUs < n + 1) by lia.
    apply (Z.lt_le_trans _ (kIntervalUs * (watermark_ r / kIntervalUs + 1))).
    + unfold kIntervalUs. pose proof (Z.mul_succ_div_gt (watermark_ r) 350000). lia.
    + unfold kIntervalUs in *. lia.
  - rewrite En. assert (Hle : (n + 1) * kIntervalUs <= watermark_ r).
    { assert (n + 1 <= watermark_ r / kIntervalUs) by lia.
      pose proof (Z.mul_div_le (watermark_ r) kIntervalUs). unfold kIntervalUs in *. lia. }
    rewrite (proj2 (Z.leb_le _ _) Hle). pose proof (finishNext_pre n r Hpre En) as Hpre'.
    unfold finishNext in *. destruct (est_finish _) as [e s]. cbn [fst] in Hpre'.
    specialize (IH _ (n + 1) Hpre' eq_refl). cbn in IH.
    destruct (finishLoop fuel _) as [r' l]. destruct IH as [? ->]; [cbn; lia|].
    split; [done|]. by rewrite expectedSummaries_delete by lia.
Qed.

Inductive ReceiveOp := RSample (t : Z) (x : double) | RFinish (w : Z).
Definition receiveStep (r : ReceiveIntervals) (op : ReceiveOp) : ReceiveIntervals :=
  match op with
  | RSample t x => (receiveSample t x r).1
  | RFinish w => (finishThrough w r).1
  end.

Lemma finishThrough_ok w r : receive_ok r → receive_ok (finishThrough w r).1.
Proof.
  intros [Hpre Hc]. unfold finishThrough. destruct (next_ r) as [n|] eqn:En; [|by split].
  destruct (w <? 0) eqn:Ew; [by split|]. apply Z.ltb_ge in Ew.
  set (r0 := mkReceive _ _ _ _ _ _). assert (Hpre0 : receive_pre r0).
  { destruct Hpre. split; cbn; rewrite ?En in *; try done. split; [lia|done]. }
  pose proof (finishLoop_ok _ r0 n Hpre0 eq_refl eq_refl) as HL. cbn [watermark_ r0] in HL.
  destruct (finishLoop _ _). by destruct HL.
Qed.

Lemma receive_run_ok ops : receive_ok (foldl receiveStep newReceive ops).
Proof.
  assert (Hall : ∀ ops r, receive_ok r → receive_ok (foldl receiveStep r ops)); [|by apply Hall, newReceive_ok].
  clear ops. induction ops as [|op ops IH]; intros r Hr; cbn; [done|]. apply IH.
  destruct op; [by apply receiveSample_ok|by apply finishThrough_ok].
Qed.

End ReceiveIntervals.
