(* ===== verification/SbdLoss.v ===== *)
(** * FeedbackLoss: the ledger of packet outcomes

    Models the class [FeedbackLoss] of [src/src/sbd/ReceiveIntervals.{h,cpp}]:
    transport outcomes counted by the interval that a packet was sent in, with
    corrections of spurious losses and bounded memory. *)

From Stdlib Require Import SpecFloat.
From S2P Require Import Prelude SbdDetector SbdGroups SbdIntervals.

Inductive Outcome := Acked | Lost.
#[export] Instance Outcome_eq_dec : EqDecision Outcome.
Proof. solve_decision. Defined.

Record FeedbackLoss := mkFeedback {
  history_ : gmap Z (Z * Z);                (* interval to acked and lost *)
  packets_ : gmap Z (Z * Outcome);          (* packet number to interval and outcome *)
  latestInterval_ : option Z;
}.

Definition newFeedback : FeedbackLoss := mkFeedback ∅ ∅ None.

(** The intervals that are kept after [latest]. *)
Definition cutoff (latest : Z) : Z := latest - 2 * Z.of_nat kN.

(** The loop that erases the first packets while they are old. *)
Fixpoint dropStale (cut : Z) (keys : list Z) (m : gmap Z (Z * Outcome)) : gmap Z (Z * Outcome) :=
  match keys with
  | [] => m
  | k :: keys =>
      match m !! k with
      | Some (i, _) => if i <=? cut then dropStale cut keys (delete k m) else m
      | None => m
      end
  end.

Definition expire (interval : Z) (f : FeedbackLoss) : FeedbackLoss :=
  let latest := Z.max (default interval (latestInterval_ f)) interval in
  mkFeedback (filter (λ '(k, _), (cutoff latest <? k) = true) (history_ f))
    (dropStale (cutoff latest) (sortBy Z.ltb (elements (dom (packets_ f)))) (packets_ f))
    (Some latest).

Definition count (v : Outcome) (e : Z * Z) : Z * Z :=
  match v with Acked => (e.1 + 1, e.2) | Lost => (e.1, e.2 + 1) end.

Definition outcome (sentUs packetNum : Z) (value : Outcome) (f : FeedbackLoss) : FeedbackLoss * bool :=
  let interval := Z.quot sentUs kIntervalUs in
  let f := expire interval f in
  if interval <=? cutoff (default interval (latestInterval_ f)) then (f, true)
  else
    match packets_ f !! packetNum with
    | Some (i, old) =>
        if bool_decide (old = value) || bool_decide (old = Acked) then (f, true)
        else
          let h := match history_ f !! i with
                   | Some (a, l) => if l =? 0 then history_ f else <[i := (a + 1, l - 1)]> (history_ f)
                   | None => history_ f
                   end in
          (mkFeedback h (<[packetNum := (i, Acked)]> (packets_ f)) (latestInterval_ f), true)
    | None =>
        if 65536 <=? Z.of_nat (size (packets_ f)) then (f, false)
        else
          (mkFeedback (<[interval := count value (default (0, 0) (history_ f !! interval))]> (history_ f))
             (<[packetNum := (interval, value)]> (packets_ f)) (latestInterval_ f), true)
    end.

Definition acknowledged (sentUs pn : Z) : FeedbackLoss → FeedbackLoss * bool := outcome sentUs pn Acked.
Definition declaredLost (sentUs pn : Z) : FeedbackLoss → FeedbackLoss * bool := outcome sentUs pn Lost.
Definition spuriousLoss (sentUs pn : Z) : FeedbackLoss → FeedbackLoss * bool := outcome sentUs pn Acked.

(** The intervals that [apply] counts. *)
Definition inWindow (last i : Z) : bool := (last - Z.of_nat kN <=? i) && (i <? last).

Definition with_loss (a l : Z) (s : Summary) : Summary :=
  let total := u64 (a + l) in
  let rate := if total =? 0 then fzero else (of_int l / of_int total)%D in
  mkSummary (intervals s) (samples s) a l (readyAfter s) (groupingReadyAfter s) (fullHistoryAfter s)
    (skew s) (variation s) (frequency s) rate (groupingVariation s) (intervalMeanDelayUs s)
    (intervalMinDelayUs s) (intervalMaxDelayUs s) (intervalStartUs s) (intervalEndUs s)
    (measurementValid s && ((skew s <? fzero)%D || (kLossThreshold <? rate)%D)) (measurementValid s).

Definition applyLoss (windowEndUs : Z) (s : Summary) (f : FeedbackLoss) : FeedbackLoss * Summary :=
  let last := Z.quot windowEndUs kIntervalUs in
  let f := expire last f in
  (f, with_loss
        (u64 (msum (λ i (e : Z * Z), if inWindow last i then e.1 else 0) (history_ f)))
        (u64 (msum (λ i (e : Z * Z), if inWindow last i then e.2 else 0) (history_ f))) s).

(** ** The history counts the ledger *)

(** The packets of the ledger after [cut] in intervals of [P] with outcome [v]. *)
Definition ledger (cut : Z) (P : Z → bool) (v : Outcome) (m : gmap Z (Z * Outcome)) :
    gmap Z (Z * Outcome) :=
  filter (λ '(_, (i, w)), cut < i ∧ P i = true ∧ w = v) m.

Definition pick (v : Outcome) (e : Z * Z) : Z := match v with Acked => e.1 | Lost => e.2 end.

Definition counts (cut : Z) (f : FeedbackLoss) : Prop :=
  map_Forall (λ (i : Z) (e : Z * Z), cut < i ∧ 0 <= e.1 ∧ 0 <= e.2) (history_ f) ∧
  ∀ (P : Z → bool) v, msum (λ i (e : Z * Z), if P i then pick v e else 0) (history_ f) =
         Z.of_nat (size (ledger cut P v (packets_ f))).

Lemma dropStale_lookup cut keys m k :
  dropStale cut keys m !! k = m !! k ∨
  dropStale cut keys m !! k = None ∧ ∃ i v, m !! k = Some (i, v) ∧ i <= cut.
Proof.
  revert m. induction keys as [|k0 keys IH]; intros m; cbn; [by left|].
  destruct (m !! k0) as [[i v]|] eqn:E0; [|by left]. destruct (Z.leb_spec i cut); [|by left].
  destruct (decide (k0 = k)) as [->|Hne].
  - right. split; [|by eauto]. destruct (IH (delete k m)) as [->|[-> _]]; [apply lookup_delete_eq|done].
  - destruct (IH (delete k0 m)) as [->|[-> Hk]]; rewrite lookup_delete_ne in * by done; auto.
Qed.

Lemma ledger_dropStale cut keys P v m : ledger cut P v (dropStale cut keys m) = ledger cut P v m.
Proof.
  apply map_eq. intros k. unfold ledger. apply option_eq. intros [i w].
  rewrite !map_lookup_filter_Some. destruct (dropStale_lookup cut keys m k) as [->|[-> (i' & v' & -> & ?)]]; [done|].
  split; [by intros [? _]|]. intros [[= -> ->] (? & _)]. lia.
Qed.

Lemma ledger_later cut cut' P v m :
  cut <= cut' → ledger cut' P v m = ledger cut (λ i, P i && (cut' <? i)) v m.
Proof.
  intros Hc. apply map_eq. intros k. apply option_eq. intros [i w]. unfold ledger.
  rewrite !map_lookup_filter_Some, andb_true_iff, Z.ltb_lt. intuition lia.
Qed.

Lemma msum_filter (f : Z → Z * Z → Z) (P : Z → bool) (m : gmap Z (Z * Z)) :
  msum f (filter (λ '(k, _), P k = true) m) = msum (λ k e, if P k then f k e else 0) m.
Proof.
  induction m as [|k e m Hk IH] using map_ind; [done|]. rewrite msum_insert by done.
  destruct (P k) eqn:EP.
  - rewrite map_filter_insert_True by done. rewrite msum_insert; [by rewrite IH|].
    apply map_lookup_filter_None. auto.
  - rewrite map_filter_insert_not' by (try done; intros; congruence). lia.
Qed.

Lemma expire_counts cut i f :
  counts cut f → cut <= cutoff (Z.max (default i (latestInterval_ f)) i) →
  counts (cutoff (Z.max (default i (latestInterval_ f)) i)) (expire i f).
Proof.
  intros [Hk Hc] Hle. unfold expire. set (c' := cutoff _) in *. split; cbn.
  - intros k e [He Hlt]%map_lookup_filter_Some. apply Z.ltb_lt in Hlt. destruct (Hk k e He) as (_ & ? & ?). done.
  - intros P v. rewrite ledger_dropStale, (ledger_later cut) by done. rewrite <-Hc.
    rewrite (msum_filter _ (λ k, c' <? k)). apply msum_ext. intros k e _. by destruct (P k), (c' <? k).
Qed.

(** Entering or replacing a packet of the ledger. *)
Definition indicator (cut : Z) (P : Z → bool) (v : Outcome) (i : Z) (w : Outcome) : Z :=
  if (cut <? i) && P i && bool_decide (w = v) then 1 else 0.

Lemma ledger_insert cut P v k i w m :
  m !! k = None →
  Z.of_nat (size (ledger cut P v (<[k := (i, w)]> m))) =
  Z.of_nat (size (ledger cut P v m)) + indicator cut P v i w.
Proof.
  intros Hk. unfold ledger, indicator. destruct (decide (cut < i ∧ P i = true ∧ w = v)) as [(H1 & H2 & ->)|Hn].
  - rewrite (proj2 (Z.ltb_lt _ _) H1), H2, bool_decide_eq_true_2 by done. cbn.
    rewrite map_filter_insert_True by done. rewrite map_size_insert_None; [lia|].
    apply map_lookup_filter_None. auto.
  - rewrite map_filter_insert_not' by (done || (intros; congruence)).
    destruct (Z.ltb_spec cut i), (P i); cbn; try lia. case_bool_decide; [|lia]. by destruct Hn.
Qed.

Lemma ledger_replace cut P v k i w w' m :
  m !! k = Some (i, w) →
  Z.of_nat (size (ledger cut P v (<[k := (i, w')]> m))) =
  Z.of_nat (size (ledger cut P v m)) - indicator cut P v i w + indicator cut P v i w'.
Proof.
  intros Hk. rewrite <-insert_delete_eq, ledger_insert by apply lookup_delete_eq.
  rewrite <-(insert_delete_id m k (i, w)) at 2 by done.
  rewrite ledger_insert by apply lookup_delete_eq. lia.
Qed.

Lemma msum_single (g : Z * Z → Z) (m : gmap Z (Z * Z)) i e :
  m !! i = Some e → msum (λ j e, if j =? i then g e else 0) m = g e.
Proof.
  intros Hi. rewrite <-(insert_delete_id m i e Hi), msum_insert by apply lookup_delete_eq.
  rewrite Z.eqb_refl, (msum_ext _ (λ _ _, 0)).
  - assert (Hz : ∀ m : gmap Z (Z * Z), msum (λ _ _, 0) m = 0).
    { clear. intros m. induction m as [|k x m Hk IH] using map_ind; [done|]. by rewrite msum_insert, IH. }
    rewrite Hz. lia.
  - intros k x [Hne _]%lookup_delete_Some. by destruct (Z.eqb_spec k i).
Qed.

Lemma msum_none (g : Z * Z → Z) (m : gmap Z (Z * Z)) i :
  m !! i = None → msum (λ j e, if j =? i then g e else 0) m = 0.
Proof.
  intros Hi. pose proof (msum_insert (λ j e, if j =? i then g e else 0) m i (0, 0) Hi) as H1.
  rewrite (msum_single g _ i (0, 0)) in H1 by apply lookup_insert_eq. rewrite Z.eqb_refl in H1. lia.
Qed.

Lemma count_counts cut i v f pn :
  counts cut f → cut < i → packets_ f !! pn = None →
  counts cut (mkFeedback (<[i := count v (default (0, 0) (history_ f !! i))]> (history_ f))
                (<[pn := (i, v)]> (packets_ f)) (latestInterval_ f)).
Proof.
  intros [Hk Hc] Hi Hpn. split; cbn.
  - intros k e [[<- <-]|[_ He]]%lookup_insert_Some; [|by apply Hk].
    destruct (history_ f !! i) as [e|] eqn:E; [destruct (Hk i e E) as (_ & ? & ?)|]; destruct v; cbn; lia.
  - intros P w. rewrite ledger_insert by done. rewrite <-Hc. unfold indicator.
    rewrite (proj2 (Z.ltb_lt _ _) Hi). destruct (history_ f !! i) as [e|] eqn:E.
    + rewrite (msum_replace _ _ _ e) by done. destruct (P i), v, w; cbn; repeat case_bool_decide; cbn; (done || lia).
    + rewrite msum_insert by done. destruct (P i), v, w; cbn; repeat case_bool_decide; cbn; (done || lia).
Qed.

(** A lost packet of the ledger is counted in its interval. *)
Lemma lost_counted cut f pn i :
  counts cut f → cut < i → packets_ f !! pn = Some (i, Lost) →
  ∃ a l, history_ f !! i = Some (a, l) ∧ 0 < l.
Proof.
  intros [Hk Hc] Hi Hpn. specialize (Hc (λ j, j =? i) Lost). cbn in Hc.
  assert (Hpos : (0 < size (ledger cut (λ j, (j =? i)%Z) Lost (packets_ f)))%nat).
  { apply Nat.neq_0_lt_0. intros Hz. apply map_size_empty_iff in Hz.
    assert (Hin : ledger cut (λ j, j =? i) Lost (packets_ f) !! pn = Some (i, Lost)).
    { apply map_lookup_filter_Some. split; [done|]. by rewrite Z.eqb_refl. }
    rewrite Hz in Hin. by rewrite lookup_empty in Hin. }
  destruct (history_ f !! i) as [[a l]|] eqn:E.
  - exists a, l. split; [done|]. rewrite (msum_single snd _ i (a, l)) in Hc by done. cbn in Hc. lia.
  - rewrite (msum_none snd) in Hc by done. lia.
Qed.

Lemma correct_counts cut pn i f a l :
  counts cut f → cut < i → packets_ f !! pn = Some (i, Lost) → history_ f !! i = Some (a, l) → 0 < l →
  counts cut (mkFeedback (<[i := (a + 1, l - 1)]> (history_ f)) (<[pn := (i, Acked)]> (packets_ f))
                (latestInterval_ f)).
Proof.
  intros [Hk Hc] Hi Hpn Hh Hl. split; cbn.
  - intros k e [[<- <-]|[_ He]]%lookup_insert_Some; [|by apply Hk]. destruct (Hk i _ Hh) as (_ & ? & ?). cbn in *. lia.
  - intros P w. rewrite (ledger_replace _ _ _ _ _ Lost) by done. rewrite <-Hc. unfold indicator.
    rewrite (proj2 (Z.ltb_lt _ _) Hi), (msum_replace _ _ _ (a, l)) by done.
    destruct (P i), w; cbn; repeat case_bool_decide; cbn; (done || lia).
Qed.

(** ** The ledger against the reports *)

(** Reports name a packet and its outcome; [send] gives the time at which a
    packet was sent.  The transport reports every packet with its own send
    time. *)
Section Reports.
Context (send : Z → Z).

Definition intervalOf (pn : Z) : Z := Z.quot (send pn) kIntervalUs.

(** An acknowledgement is final; a loss stands unless it was spurious. *)
Definition status (reports : list (Z * Outcome)) (pn : Z) : Outcome :=
  if decide ((pn, Acked) ∈ reports) then Acked else Lost.
Definition reported (reports : list (Z * Outcome)) : gset Z := list_to_set (fst <$> reports).

Inductive LossOp := FOutcome (pn : Z) (v : Outcome) | FApply (endUs : Z) (s : Summary).

(** [None] is a report that finds the ledger full; the observer then starts
    over. *)
Definition lossStep (op : LossOp) (f : FeedbackLoss) : option FeedbackLoss :=
  match op with
  | FOutcome pn v => let '(f, ok) := outcome (send pn) pn v f in if ok then Some f else None
  | FApply endUs s => Some (applyLoss endUs s f).1
  end.
Fixpoint lossRun (ops : list LossOp) (f : FeedbackLoss) : option FeedbackLoss :=
  match ops with
  | [] => Some f
  | op :: ops => f ← lossStep op f; lossRun ops f
  end.
Definition reportsOf (ops : list LossOp) : list (Z * Outcome) :=
  omap (λ op, match op with FOutcome pn v => Some (pn, v) | FApply _ _ => None end) ops.

Record loss_inv (reports : list (Z * Outcome)) (f : FeedbackLoss) : Prop := mkLossInv {
  li_none : latestInterval_ f = None → f = newFeedback ∧ reports = [];
  li_counts : ∀ L, latestInterval_ f = Some L → counts (cutoff L) f;
  li_packets : ∀ pn i v, packets_ f !! pn = Some (i, v) → i = intervalOf pn ∧ pn ∈ reported reports;
  li_status : ∀ L pn, latestInterval_ f = Some L → pn ∈ reported reports → cutoff L < intervalOf pn →
    packets_ f !! pn = Some (intervalOf pn, status reports pn);
  li_size : Z.of_nat (size (packets_ f)) <= 65536;
}.

Lemma newFeedback_inv : loss_inv [] newFeedback.
Proof. split; cbn; try done. Qed.

Lemma dropStale_size cut keys m : (size (dropStale cut keys m) ≤ size m)%nat.
Proof.
  rewrite <-!size_dom. apply subseteq_size. intros k.
  rewrite !elem_of_dom. destruct (dropStale_lookup cut keys m k) as [->|[-> _]]; [done|]. by intros [? ?].
Qed.

Lemma expire_inv reports i f : loss_inv reports f → loss_inv reports (expire i f).
Proof.
  intros []. set (L := Z.max (default i (latestInterval_ f)) i).
  assert (Hstale : ∀ k, packets_ (expire i f) !! k = packets_ f !! k ∨ packets_ (expire i f) !! k = None ∧
    ∃ j v, packets_ f !! k = Some (j, v) ∧ j <= cutoff L) by (intros k; apply dropStale_lookup).
  split.
  - done.
  - intros L' [= <-]. destruct (latestInterval_ f) as [L0|] eqn:E0.
    + pose proof (expire_counts (cutoff L0) i f (li_counts0 L0 eq_refl)) as Hx. rewrite E0 in Hx. apply Hx.
      cbn. unfold cutoff. lia.
    + destruct (li_none0 eq_refl) as [-> _].
      apply (expire_counts (cutoff i) i newFeedback); [|cbn; unfold cutoff; lia].
      split; [apply map_Forall_empty|]. intros P v. cbn. unfold ledger. by rewrite map_filter_empty, map_size_empty, msum_empty.
  - intros pn j v H. destruct (Hstale pn) as [E|[E _]]; rewrite E in H; [by apply li_packets0 in H|done].
  - intros L' pn [= <-] Hr Hc. fold L in Hc. destruct (latestInterval_ f) as [L0|] eqn:E0.
    + assert (Hc0 : cutoff L0 < intervalOf pn) by (unfold L, cutoff in *; cbn in *; lia).
      specialize (li_status0 L0 pn eq_refl Hr Hc0). destruct (Hstale pn) as [->|[_ (j & v & E & ?)]]; [done|].
      rewrite E in li_status0. injection li_status0 as -> _. lia.
    + destruct (li_none0 eq_refl) as [_ ->]. cbn in Hr. set_solver.
  - pose proof (dropStale_size (cutoff L) (sortBy Z.ltb (elements (dom (packets_ f)))) (packets_ f)).
    cbn [packets_ expire]. fold L. lia.
Qed.

Lemma reported_snoc reports pn v : reported (reports ++ [(pn, v)]) = reported reports ∪ {[pn]}.
Proof. unfold reported. rewrite fmap_app, list_to_set_app_L. cbn. by rewrite union_empty_r_L. Qed.

Lemma status_snoc_ne reports pn v pn' : pn' ≠ pn → status (reports ++ [(pn, v)]) pn' = status reports pn'.
Proof.
  intros Hne. unfold status. apply decide_ext. rewrite elem_of_app, list_elem_of_singleton. naive_solver.
Qed.

Lemma status_snoc reports pn v :
  status (reports ++ [(pn, v)]) pn = if decide (v = Acked) then Acked else status reports pn.
Proof.
  unfold status. destruct (decide ((pn, Acked) ∈ reports ++ [(pn, v)])) as [Hin|Hin];
    rewrite elem_of_app, list_elem_of_singleton in Hin; repeat case_decide; naive_solver.
Qed.

(** A report about the packet [pn], given that the ledger says the right thing
    about it afterwards. *)
Lemma report_inv reports f f' pn v L :
  loss_inv reports f → latestInterval_ f = Some L → latestInterval_ f' = Some L → counts (cutoff L) f' →
  (∀ k, k ≠ pn → packets_ f' !! k = packets_ f !! k) →
  (∀ i w, packets_ f' !! pn = Some (i, w) → i = intervalOf pn) →
  (cutoff L < intervalOf pn →
   packets_ f' !! pn = Some (intervalOf pn, status (reports ++ [(pn, v)]) pn)) →
  Z.of_nat (size (packets_ f')) <= 65536 →
  loss_inv (reports ++ [(pn, v)]) f'.
Proof.
  intros [] EL EL' Hc Hne Hpn Hst Hsz. split; rewrite ?EL'.
  - done.
  - by intros L' [= <-].
  - intros k i w Hk. rewrite reported_snoc. destruct (decide (k = pn)) as [->|?].
    + split; [by eapply Hpn|set_solver].
    + rewrite Hne in Hk by done. apply li_packets0 in Hk as [-> ?]. set_solver.
  - intros L' k [= <-] Hk Hck. rewrite reported_snoc in Hk. destruct (decide (k = pn)) as [->|?]; [by apply Hst|].
    rewrite Hne, status_snoc_ne by done. apply (li_status0 L); [done|set_solver|done].
  - done.
Qed.

Lemma outcome_inv reports pn v f f' :
  loss_inv reports f → outcome (send pn) pn v f = (f', true) → loss_inv (reports ++ [(pn, v)]) f'.
Proof.
  intros Hinv. apply (expire_inv _ (intervalOf pn)) in Hinv. unfold outcome. fold (intervalOf pn).
  set (f1 := expire (intervalOf pn) f) in *.
  set (L := Z.max (default (intervalOf pn) (latestInterval_ f)) (intervalOf pn)).
  assert (EL : latestInterval_ f1 = Some L) by done. rewrite EL. change (default (intervalOf pn) (Some L)) with L.
  clearbody L f1. pose proof (li_counts _ _ Hinv L EL) as Hc. pose proof Hinv as [].
  destruct (Z.leb_spec (intervalOf pn) (cutoff L)) as [Hle|Hlt].
  { intros [= <-]. apply (report_inv reports f1 f1 pn v L); try done; [|lia]. intros i w H. by apply li_packets0 in H as [-> _]. }
  destruct (packets_ f1 !! pn) as [[i old]|] eqn:Ep.
  - destruct (li_packets0 _ _ _ Ep) as [-> Hr]. pose proof (li_status0 L pn EL Hr Hlt) as Hst.
    rewrite Ep in Hst. injection Hst as ->.
    destruct (bool_decide (status reports pn = v) || bool_decide (status reports pn = Acked)) eqn:Eb.
    + intros [= <-]. apply (report_inv reports f1 f1 pn v L); try done.
      * intros i w H. by apply li_packets0 in H as [-> _].
      * intros _. rewrite Ep, status_snoc. apply orb_true_iff in Eb.
        rewrite !bool_decide_eq_true in Eb. case_decide; [|done]. destruct Eb as [Eb|Eb]; congruence.
    + apply orb_false_iff in Eb as [E1 E2]. apply bool_decide_eq_false in E1, E2.
      assert (Hl : status reports pn = Lost) by (by destruct (status reports pn)).
      assert (Hv : v = Acked) by (rewrite Hl in E1; by destruct v).
      rewrite Hl in Ep. destruct (lost_counted _ _ _ _ Hc Hlt Ep) as (a & l & Eh & Hpos).
      rewrite Eh. rewrite (proj2 (Z.eqb_neq l 0)) by lia. intros [= <-].
      apply (report_inv reports f1 _ pn v L); cbn; try done.
      * rewrite <-EL. by apply correct_counts.
      * intros k Hk. by rewrite lookup_insert_ne.
      * intros i w. rewrite lookup_insert_eq. by intros [= <- _].
      * intros _. rewrite lookup_insert_eq, status_snoc, Hv. by rewrite decide_True.
      * rewrite map_size_insert, Ep. done.
  - destruct (Z.leb_spec 65536 (Z.of_nat (size (packets_ f1)))) as [?|Es]; [done|]. intros [= <-].
    apply (report_inv reports f1 _ pn v L); cbn; try done.
    + rewrite <-EL. by apply count_counts.
    + intros k Hk. by rewrite lookup_insert_ne.
    + intros i w. rewrite lookup_insert_eq. by intros [= <- _].
    + intros _. rewrite lookup_insert_eq, status_snoc. f_equal. f_equal. case_decide; [done|].
      unfold status. rewrite decide_False; [by destruct v|]. intros Hin.
      assert (Hr : pn ∈ reported reports).
      { unfold reported. rewrite elem_of_list_to_set. apply list_elem_of_fmap. by exists (pn, Acked). }
      rewrite (li_status0 L pn EL Hr Hlt) in Ep. done.
    + rewrite map_size_insert, Ep. lia.
Qed.

Lemma lossRun_inv ops : ∀ reports f f',
  loss_inv reports f → lossRun ops f = Some f' → loss_inv (reports ++ reportsOf ops) f'.
Proof.
  induction ops as [|op ops IH]; intros reports f f' Hinv; cbn [lossRun reportsOf omap list_omap].
  - intros [= <-]. by rewrite app_nil_r.
  - intros (f1 & E1 & E)%bind_Some. destruct op as [pn v|endUs s]; cbn in E1.
    + destruct (outcome (send pn) pn v f) as [f2 []] eqn:Eo; [|done]. injection E1 as <-.
      rewrite cons_middle, (assoc (++)). eapply IH; [|exact E]. by eapply outcome_inv.
    + injection E1 as <-. eapply IH; [|exact E]. by apply expire_inv.
Qed.

(** *** The specification *)

(** The packets reported with outcome [v] that were sent in the fifty intervals
    before [last]. *)
Definition window (reports : list (Z * Outcome)) (last : Z) (v : Outcome) : gset Z :=
  filter (λ pn, (last - 50 <= intervalOf pn < last) ∧ status reports pn = v) (reported reports).

(** Those of them that are less than a hundred intervals behind [newest]. *)
Definition recent (newest : Z) (pns : gset Z) : gset Z := filter (λ pn, newest - 100 < intervalOf pn) pns.

(** The latest interval of a report, of an interval end, or [last]. *)
Definition opInterval (op : LossOp) : Z :=
  match op with FOutcome pn _ => intervalOf pn | FApply endUs _ => Z.quot endUs kIntervalUs end.
Definition newest (ops : list LossOp) (last : Z) : Z := foldr (λ op n, Z.max (opInterval op) n) last ops.

Lemma lossStep_latest op f f' :
  lossStep op f = Some f' →
  latestInterval_ f' = Some (Z.max (default (opInterval op) (latestInterval_ f)) (opInterval op)).
Proof.
  destruct op as [pn v|endUs s]; cbn [lossStep opInterval]; [|by intros [= <-]].
  unfold outcome. fold (intervalOf pn). intros Hst.
  repeat (case_match; simplify_eq/=; try done).
Qed.

Lemma lossRun_latest ops : ∀ f f' last,
  lossRun ops f = Some f' →
  Z.max (default last (latestInterval_ f')) last =
  Z.max (newest ops last) (Z.max (default last (latestInterval_ f)) last).
Proof.
  induction ops as [|op ops IH]; intros f f' last; cbn [lossRun newest foldr].
  - intros [= <-]. lia.
  - intros (f1 & E1%lossStep_latest & E)%bind_Some. rewrite (IH f1 f' last E), E1. fold (newest ops last).
    destruct (latestInterval_ f); cbn; lia.
Qed.

Lemma ledger_window reports f L last v :
  loss_inv reports f → latestInterval_ f = Some L →
  size (ledger (cutoff L) (inWindow last) v (packets_ f)) = size (recent L (window reports last v)).
Proof.
  intros [] EL. rewrite <-size_dom. f_equal. apply set_eq. intros pn. unfold recent, window, ledger.
  assert (Hcut : cutoff L = L - 100) by (unfold cutoff, kN; lia).
  assert (Hin : inWindow last (intervalOf pn) = true ↔ last - 50 <= intervalOf pn < last)
    by (unfold inWindow, kN; rewrite andb_true_iff, Z.leb_le, Z.ltb_lt; lia).
  rewrite elem_of_dom, !elem_of_filter, <-Hin, <-Hcut. split.
  - intros [[i w] [Hp (Hc & Hw & ->)]%map_lookup_filter_Some]. destruct (li_packets0 _ _ _ Hp) as [-> Hr].
    rewrite (li_status0 L pn EL Hr Hc) in Hp. by injection Hp as ->.
  - intros (Hc & (Hw & <-) & Hr). eexists. apply map_lookup_filter_Some. split; [by apply (li_status0 L)|done].
Qed.

(** C13: Whatever the order of reports and interval ends, as long as no report
    finds the ledger full, [apply] counts exactly the packets sent in the fifty
    intervals before the one that ends: those acknowledged, also after a loss
    was declared, as acknowledged, those declared lost and never acknowledged
    as lost, each packet once however often it is reported.  A packet of the
    window is only left out when something a hundred intervals later has been
    seen, so none is while nothing is fifty intervals ahead. *)
Theorem feedback_loss_exact ops f endUs s :
  lossRun ops newFeedback = Some f →
  let last := Z.quot endUs kIntervalUs in
  let counted v := recent (newest ops last) (window (reportsOf ops) last v) in
  let '(_, r) := applyLoss endUs s f in
  acked r = Z.of_nat (size (counted Acked)) ∧ lost r = Z.of_nat (size (counted Lost)) ∧
  (newest ops last < last + 50 → ∀ v, counted v = window (reportsOf ops) last v).
Proof.
  intros E last counted. unfold applyLoss. fold last. cbn [acked lost with_loss].
  pose proof (lossRun_inv ops [] newFeedback f newFeedback_inv E) as Hinv. cbn [app] in Hinv.
  pose proof (lossRun_latest ops _ _ last E) as Hnew. cbn [latestInterval_ newFeedback default] in Hnew.
  apply (expire_inv _ last) in Hinv. set (f1 := expire last f) in *.
  assert (EL : latestInterval_ f1 = Some (Z.max (default last (latestInterval_ f)) last)) by done.
  assert (Hge : last <= newest ops last).
  { clear. unfold newest. induction ops; cbn; lia. }
  rewrite Hnew in EL. replace (Z.max (newest ops last) _) with (newest ops last) in EL by (cbn; lia).
  destruct (li_counts _ _ Hinv _ EL) as [_ Hc]. pose proof (li_size _ _ Hinv) as Hsz.
  assert (Hle : ∀ v, 0 <= msum (λ i (e : Z * Z), if inWindow last i then pick v e else 0) (history_ f1) < u64_modulus).
  { intros v. rewrite Hc. split; [lia|]. apply Z.le_lt_trans with 65536; [|done].
    etrans; [|exact Hsz]. apply Nat2Z.inj_le. rewrite <-!size_dom. apply subseteq_size, dom_filter_subseteq. }
  split_and!.
  - change (λ i (e : Z * Z), if inWindow last i then e.1 else 0)
      with (λ i (e : Z * Z), if inWindow last i then pick Acked e else 0).
    rewrite u64_small by apply Hle. rewrite Hc. f_equal. by apply ledger_window.
  - change (λ i (e : Z * Z), if inWindow last i then e.2 else 0)
      with (λ i (e : Z * Z), if inWindow last i then pick Lost e else 0).
    rewrite u64_small by apply Hle. rewrite Hc. f_equal. by apply ledger_window.
  - intros Hlt v. apply set_eq. intros pn. unfold counted, recent. rewrite elem_of_filter.
    split; [by intros []|]. intros Hpn. split; [|done]. apply elem_of_filter in Hpn as [[? _] _]. lia.
Qed.
End Reports.

Module LossExamples.

(** Packet [n] is sent at [n] milliseconds; packet 400 is reported lost and
    then acknowledged, packet 500 is lost, packet 800 is in a later interval. *)
Definition sendTime (pn : Z) : Z := pn * 1000.
Definition reportsSample : list LossOp :=
  [FOutcome 400 Lost; FOutcome 500 Lost; FOutcome 400 Acked; FOutcome 800 Acked; FOutcome 500 Lost].

Lemma feedback_loss_exact_witness :
  ∃ f, lossRun sendTime reportsSample newFeedback = Some f ∧
    acked (applyLoss 700000 emptySummary f).2 = 1 ∧ lost (applyLoss 700000 emptySummary f).2 = 1.
Proof.
  eexists. split; [vm_compute; reflexivity|].
  match goal with |- acked (applyLoss _ _ ?x).2 = _ ∧ _ => set (f := x) end.
  pose proof (feedback_loss_exact sendTime reportsSample f 700000 emptySummary eq_refl) as H.
  cbv zeta in H. destruct (applyLoss 700000 emptySummary f) as [f' r]. destruct H as (Ha & Hl & _).
  cbn [snd]. rewrite Ha, Hl. split; vm_compute; reflexivity.
Defined.

End LossExamples.
