(* ===== verification/SbdService.v ===== *)
(** * Service: shared-bottleneck detection across connections

    Models the state of [src/src/sbd/Service.{h,cpp}]: the flows of the
    connections, the interval summaries they publish, and the groups that the
    worker computes from them; the Wei detector is called where the service
    has one.  Times are nanoseconds of the steady clock.  The JSON documents
    and the output files are not modelled.

    [flows_] is an unordered map; it is visited in the order of
    [map_to_list], and the theorems hold for any. *)

From Stdlib Require Import SpecFloat.
From S2P Require Import Prelude SbdDetector SbdGroups SbdDc SbdIntervals WeiDetector WeiInvariant WeiTheorems.

Record Config := mkConfig { enabled : bool; delaySource : string; algorithm : string }.

Definition kWei2020ECN : string := "Wei2020ECN".
Definition kDcSbd : string := "DcSBD".
Definition kIntervalNs : Z := 350000000.

Record Flow := mkSbdFlow {
  eligible_ : bool;
  videoStarted : bool;
  peer : string;
  summary : Summary;
  summaries : gmap Z Summary;
  status_ : string;
  updated : Z;
  lastBottleneck : option bool;
}.

Definition newFlow : Flow :=
  mkSbdFlow false false EmptyString emptySummary ∅ "waiting_for_subscription" 0 None.

Record Service := mkService {
  config_ : Config;
  flows_ : gmap string Flow;
  lastGroups_ : list (list string);
  lastGroupIntervalEndUs_ : Z;
  dcClusterer_ : DcClusterer;
  wei_ : option WeiDetector;
}.

Definition newService (c : Config) : Service :=
  mkService c ∅ [] 0 newClusterer
    (if bool_decide (algorithm c = kWei2020ECN) then Some (newWei (enabled c)) else None).

Definition set_flows (m : gmap string Flow) (s : Service) : Service :=
  mkService (config_ s) m (lastGroups_ s) (lastGroupIntervalEndUs_ s) (dcClusterer_ s) (wei_ s).
Definition set_clusterer (c : DcClusterer) (s : Service) : Service :=
  mkService (config_ s) (flows_ s) (lastGroups_ s) (lastGroupIntervalEndUs_ s) c (wei_ s).

(** Calls of the Wei detector, if there is one. *)
Definition onWei (f : WeiDetector → option WeiDetector) (s : Service) : option Service :=
  match wei_ s with
  | None => Some s
  | Some w =>
      w ← f w;
      Some (mkService (config_ s) (flows_ s) (lastGroups_ s) (lastGroupIntervalEndUs_ s)
              (dcClusterer_ s) (Some w))
  end.

Definition flowOf (i : string) (s : Service) : Flow := default newFlow (flows_ s !! i).

Definition attach (i p : string) (s : Service) : option Service :=
  let f := flowOf i s in
  onWei (λ w, Some (WeiDetector.attach i p w))
    (set_flows (<[i := mkSbdFlow (eligible_ f) (videoStarted f) p (summary f) (summaries f) (status_ f)
                         (updated f) (lastBottleneck f)]> (flows_ s)) s).

Definition eligible (now : Z * Z) (i : string) (value : bool) (s : Service) : option Service :=
  if negb (enabled (config_ s)) then Some s
  else
    let f := flowOf i s in
    let f :=
      if value then
        mkSbdFlow true (videoStarted f) (peer f) (summary f) (summaries f)
          (if videoStarted f then status_ f else "waiting_for_video") (updated f) (lastBottleneck f)
      else
        mkSbdFlow false (videoStarted f) (peer f) emptySummary ∅ "not_client" (updated f) None in
    let s := set_flows (<[i := f]> (flows_ s)) s in
    let s := if value then s else set_clusterer (removeClass i (dcClusterer_ s)) s in
    onWei (WeiDetector.eligible now i value) s.

(** The loop that keeps the four latest summaries. *)
Fixpoint keepLatest (fuel : nat) (m : gmap Z Summary) : gmap Z Summary :=
  match fuel with
  | O => m
  | S fuel =>
      if (4 <? size m)%nat then
        match sortBy Z.ltb (elements (dom m)) with
        | k :: _ => keepLatest fuel (delete k m)
        | [] => m
        end
      else m
  end.

Definition publish (now : Z) (i : string) (sm : Summary) (st : string) (s : Service) : Service :=
  match flows_ s !! i with
  | None => s
  | Some f =>
      let decisionValid := bool_decide (st = "ready") && ready sm && measurementValid sm in
      let detected := decisionValid && bottleneck sm in
      let restart := negb decisionValid && (intervals sm =? 0) in
      let last := if decisionValid then Some detected
                  else if restart then None else lastBottleneck f in
      let m := if restart then ∅ else summaries f in
      let m := if bool_decide (st = "ready") && (0 <? intervalEndUs sm) then
                 let m := <[intervalEndUs sm := sm]> m in keepLatest (size m) m
               else m in
      let s := if restart then set_clusterer (removeClass i (dcClusterer_ s)) s else s in
      set_flows (<[i := mkSbdFlow (eligible_ f) (videoStarted f) (peer f) sm m st now last]> (flows_ s)) s
  end.

Definition status (i st : string) (s : Service) : Service :=
  match flows_ s !! i with
  | Some f =>
      set_flows (<[i := mkSbdFlow (eligible_ f) (videoStarted f) (peer f) (summary f) (summaries f) st
                          (updated f) (lastBottleneck f)]> (flows_ s)) s
  | None => s
  end.

Definition close (now : Z * Z) (i : string) (s : Service) : option Service :=
  let s := match flows_ s !! i with
           | Some f =>
               set_clusterer (removeClass i (dcClusterer_ s))
                 (set_flows (<[i := mkSbdFlow false (videoStarted f) (peer f) (summary f) (summaries f)
                                      "closed" now.1 (lastBottleneck f)]> (flows_ s)) s)
           | None => s
           end in
  onWei (WeiDetector.close now i) s.

(** [VideoTrack]: the first payload delivered to the viewer. *)
Definition videoDelivered (i : string) (s : Service) : Service :=
  match flows_ s !! i with
  | Some f =>
      set_flows (<[i := mkSbdFlow (eligible_ f) true (peer f) (summary f) (summaries f) (status_ f)
                          (updated f) (lastBottleneck f)]> (flows_ s)) s
  | None => s
  end.

(** ** The worker *)

Definition isCandidate (now : Z) (f : Flow) : bool :=
  eligible_ f && bool_decide (status_ f = "ready") && (now - updated f <? 3 * kIntervalNs) &&
  negb (bool_decide (summaries f = ∅)).

Definition candidates (now : Z) (s : Service) : list (string * Flow) :=
  filter (λ p, isCandidate now p.2 = true) (map_to_list (flows_ s)).

(** The previous groups without the members that are no candidates. *)
Definition retained (cs : list (string * Flow)) (groups : list (list string)) : list (list string) :=
  filter (λ g, 2 ≤ length g)%nat ((λ g, filter (λ i, i ∈ fst <$> cs) g) <$> groups).

(** An interval end for which every candidate has a usable summary. *)
Definition commonAt (cs : list (string * Flow)) (e : Z) : bool :=
  forallb (λ p, match summaries p.2 !! e with
                | Some m => groupingReady m && measurementValid m
                | None => false
                end) cs.

Definition commonEnd (cs : list (string * Flow)) : option Z :=
  match cs with
  | [] => None
  | (_, f) :: _ => head (filter (λ e, commonAt cs e = true) (rev (sortBy Z.ltb (elements (dom (summaries f))))))
  end.

(** The groups of this round, and the clusterer after it. *)
Definition decideGroups (cs : list (string * Flow)) (s : Service) :
    option (list (list string) * Z * DcClusterer) :=
  let kept := (retained cs (lastGroups_ s), lastGroupIntervalEndUs_ s, dcClusterer_ s) in
  if bool_decide (delaySource (config_ s) = "owd") then
    match commonEnd cs with
    | Some e =>
        if lastGroupIntervalEndUs_ s <? e then
          flows ← mapM (λ p : string * Flow, m ← summaries p.2 !! e; Some (mkFlow p.1 m)) cs;
          if bool_decide (algorithm (config_ s) = kDcSbd) then
            '(c, groups) ← update flows (dcClusterer_ s); Some (groups, e, c)
          else Some (group flows, e, dcClusterer_ s)
        else Some kept
    | None => Some kept
    end
  else
    match cs with
    | [] => Some kept
    | _ => Some (group ((λ p : string * Flow, mkFlow p.1 (summary p.2)) <$> cs), lastGroupIntervalEndUs_ s,
                 dcClusterer_ s)
    end.

(** A round of the worker; closed flows are forgotten after ten seconds. *)
Definition snapshot (now : Z) (s : Service) : option Service :=
  '(groups, e, c) ← decideGroups (candidates now s) s;
  Some (mkService (config_ s)
          (filter (λ '(_, f), ¬ (status_ f = "closed" ∧ 10000000000 < now - updated f)) (flows_ s))
          groups e c (wei_ s)).

(** ** Runs *)

(** With the Wei algorithm there is no worker. *)
Inductive ServiceOp :=
| SAttach (i p : string)
| SEligible (now : Z * Z) (i : string) (v : bool)
| SPublish (now : Z) (i : string) (m : Summary) (st : string)
| SStatus (i st : string)
| SClose (now : Z * Z) (i : string)
| SVideo (i : string)
| SWei (op : WeiOp)                (* feedback that the Wei observer passes on *)
| SSnapshot (now : Z).

Definition serviceStep (op : ServiceOp) (s : Service) : option Service :=
  match op with
  | SAttach i p => attach i p s
  | SEligible now i v => eligible now i v s
  | SPublish now i m st => Some (publish now i m st s)
  | SStatus i st => Some (status i st s)
  | SClose now i => close now i s
  | SVideo i => Some (videoDelivered i s)
  | SWei op => onWei (weiStep op) s
  | SSnapshot now => match wei_ s with Some _ => Some s | None => snapshot now s end
  end.

Fixpoint serviceRun (ops : list ServiceOp) (s : Service) : option Service :=
  match ops with
  | [] => Some s
  | op :: ops => s ← serviceStep op s; serviceRun ops s
  end.

(** ** The groups of the service *)

Definition groups_ok (groups : list (list string)) : Prop :=
  NoDup (mjoin groups) ∧ Forall (λ g, 2 ≤ length g)%nat groups.

Record svc_inv (s : Service) : Prop := mkSvcInv {
  si_groups : groups_ok (lastGroups_ s);
  si_clusterer : clusterer_ok (dcClusterer_ s);
  si_flows : map_Forall (λ _ f, size (summaries f) ≤ 4)%nat (flows_ s);
  si_wei : ∀ w, wei_ s = Some w → wei_inv w;
}.

Lemma newService_inv c : svc_inv (newService c).
Proof.
  split; cbn.
  - split; constructor.
  - split; [done|]. intros i k. cbn. by rewrite lookup_empty.
  - apply map_Forall_empty.
  - intros w. case_bool_decide; [|done]. intros [= <-]. apply newWei_inv.
Qed.

Lemma removeClass_ok i c : clusterer_ok c → clusterer_ok (removeClass i c).
Proof. intros [H1 H2]. split; [done|]. intros j k. cbn. intros [_ H]%lookup_delete_Some. eauto. Qed.

Lemma set_flow_inv i f s :
  svc_inv s → (size (summaries f) ≤ 4)%nat → svc_inv (set_flows (<[i := f]> (flows_ s)) s).
Proof. intros [] Hf. split; try done. cbn. by apply map_Forall_insert_2. Qed.

Lemma set_clusterer_inv i s : svc_inv s → svc_inv (set_clusterer (removeClass i (dcClusterer_ s)) s).
Proof. intros []. split; try done. by apply removeClass_ok. Qed.

Lemma onWei_ok f s :
  svc_inv s → (∀ w, wei_inv w → ∃ w', f w = Some w' ∧ wei_inv w') → ∃ s', onWei f s = Some s' ∧ svc_inv s'.
Proof.
  intros Hs Hf. unfold onWei. destruct (wei_ s) as [w|] eqn:Ew; [|by eauto].
  destruct (Hf w) as (w' & -> & Hw'); [by apply (si_wei _ Hs)|]. cbn [mbind option_bind].
  eexists. split; [done|]. destruct Hs. split; try done. by intros ? [= <-].
Qed.

Lemma keepLatest_size fuel m : (size m ≤ fuel + 4)%nat → (size (keepLatest fuel m) ≤ 4)%nat.
Proof.
  revert m. induction fuel as [|fuel IH]; intros m Hm; cbn [keepLatest]; [lia|].
  destruct (Nat.ltb_spec 4 (size m)) as [Hlt|?]; [|lia].
  destruct (sortBy _ _) as [|k l] eqn:E.
  - assert (Hn : length (sortBy Z.ltb (elements (dom m))) = size m).
    { rewrite sortBy_Permutation. change (length (elements (dom m))) with (size (dom m)). apply size_dom. }
    rewrite E in Hn. cbn in Hn. lia.
  - apply IH. assert (Hk : k ∈ dom m).
    { apply elem_of_elements. rewrite <-(sortBy_Permutation Z.ltb), E. by left. }
    apply elem_of_dom in Hk as [x Hx]. rewrite map_size_delete_Some by by eexists. lia.
Qed.

Lemma candidates_spec now s i :
  i ∈ fst <$> candidates now s ↔ ∃ f, flows_ s !! i = Some f ∧ isCandidate now f = true.
Proof.
  unfold candidates. rewrite list_elem_of_fmap. split.
  - intros ([j f] & -> & [Hc Hin]%list_elem_of_filter). apply elem_of_map_to_list in Hin. eauto.
  - intros (f & Hf & Hc). exists (i, f). split; [done|]. apply list_elem_of_filter.
    split; [done|]. by apply elem_of_map_to_list.
Qed.

Lemma candidates_NoDup now s : NoDup (fst <$> candidates now s).
Proof.
  eapply sublist_NoDup; [apply (NoDup_fst_map_to_list (flows_ s))|]. apply fmap_filter_sublist.
Qed.

Lemma retained_ok cs groups :
  groups_ok groups → groups_ok (retained cs groups) ∧
  ∀ g i, g ∈ retained cs groups → i ∈ g → i ∈ fst <$> cs.
Proof.
  intros [Hn _]. unfold retained. split.
  - split; [|apply Forall_forall; by intros g [? _]%list_elem_of_filter].
    induction groups as [|g gs IH]; [constructor|]. rewrite mjoin_cons in Hn.
    apply NoDup_app in Hn as (Hg & Hd & Hgs). specialize (IH Hgs). rewrite fmap_cons, filter_cons.
    case_decide; [|done]. rewrite mjoin_cons. apply NoDup_app. split_and!; [by apply NoDup_filter| |done].
    intros i [_ Hi]%list_elem_of_filter (g' & Hi' & [_ Hg']%list_elem_of_filter)%list_elem_of_join.
    apply list_elem_of_fmap in Hg' as (g0 & -> & Hg0). apply list_elem_of_filter in Hi' as [_ Hi'].
    apply (Hd i Hi), list_elem_of_join. eauto.
  - intros g i [_ (g0 & -> & _)%list_elem_of_fmap]%list_elem_of_filter Hi. by apply list_elem_of_filter in Hi as [? _].
Qed.

Lemma group_ids_ok flows (ids : list string) :
  id <$> flows = ids → NoDup ids → groups_ok (group flows) ∧ ∀ g i, g ∈ group flows → i ∈ g → i ∈ ids.
Proof.
  intros <- Hn. destruct (SbdGroups.group_ok flows Hn) as [H1 H2]. split.
  - split; [done|]. apply Forall_forall. intros g Hg. by destruct (H2 g Hg).
  - intros g i Hg Hi. destruct (H2 g Hg) as (_ & _ & H3). destruct (H3 i Hi) as (f & Hf & <- & _).
    by apply list_elem_of_fmap_2.
Qed.

Lemma update_ids_ok flows (ids : list string) c :
  id <$> flows = ids → NoDup ids → clusterer_ok c →
  ∃ c' r, update flows c = Some (c', r) ∧ clusterer_ok c' ∧ groups_ok r ∧ ∀ g i, g ∈ r → i ∈ g → i ∈ ids.
Proof.
  intros <- Hn Hc. destruct (update_ok flows c Hn Hc) as (c' & r & E & Hc' & H1 & H2 & _).
  exists c', r. split_and!; [done|done|split; [done|]|].
  - apply Forall_forall. intros g Hg. by destruct (H2 g Hg).
  - intros g i Hg Hi. destruct (H2 g Hg) as (_ & _ & k & Hk). destruct (proj1 (Hk i) Hi) as (f & Hf & Ei & _).
    rewrite <-Ei. by apply list_elem_of_fmap_2.
Qed.

Lemma commonEnd_Some cs e : commonEnd cs = Some e → commonAt cs e = true.
Proof.
  unfold commonEnd. destruct cs as [|[i f] cs]; [done|]. intros [l Hl]%head_Some.
  assert (Hin : e ∈ filter (λ e, commonAt ((i, f) :: cs) e = true)
    (rev (sortBy Z.ltb (elements (dom (summaries f)))))) by (rewrite Hl; by left).
  by apply list_elem_of_filter in Hin as [? _].
Qed.

Lemma decideGroups_ok cs s :
  svc_inv s → NoDup (fst <$> cs) →
  ∃ groups e c, decideGroups cs s = Some (groups, e, c) ∧ groups_ok groups ∧ clusterer_ok c ∧
    lastGroupIntervalEndUs_ s <= e ∧ ∀ g i, g ∈ groups → i ∈ g → i ∈ fst <$> cs.
Proof.
  intros Hs Hn. destruct (retained_ok cs _ (si_groups _ Hs)) as [Hr1 Hr2].
  pose proof (si_clusterer _ Hs) as Hc. unfold decideGroups.
  set (kept := (retained cs (lastGroups_ s), lastGroupIntervalEndUs_ s, dcClusterer_ s)).
  assert (Hkept : ∃ groups e c, Some kept = Some (groups, e, c) ∧ groups_ok groups ∧ clusterer_ok c ∧
    lastGroupIntervalEndUs_ s <= e ∧ ∀ g i, g ∈ groups → i ∈ g → i ∈ fst <$> cs).
  { eexists _, _, _. split; [done|]. by split_and!. }
  case_bool_decide.
  - destruct (commonEnd cs) as [e|] eqn:Ee; [|exact Hkept].
    destruct (Z.ltb_spec (lastGroupIntervalEndUs_ s) e) as [Hlt|?]; [|exact Hkept].
    apply commonEnd_Some in Ee.
    assert (Hm : ∃ flows, mapM (λ p : string * Flow, m ← summaries p.2 !! e; Some (mkFlow p.1 m)) cs = Some flows ∧
      id <$> flows = fst <$> cs).
    { clear -Ee. induction cs as [|[i f] cs IH]; cbn in *; [by exists []|]. apply andb_true_iff in Ee as [E1 E2].
      destruct (summaries f !! e) as [m|]; [|done]. destruct (IH E2) as (flows & E & Hid). cbn.
      rewrite E. cbn. eexists. split; [done|]. cbn. by rewrite Hid. }
    destruct Hm as (flows & -> & Hid). cbn [mbind option_bind]. case_bool_decide.
    + destruct (update_ids_ok flows _ (dcClusterer_ s) Hid Hn Hc) as (c' & r & -> & ? & ? & ?).
      cbn. exists r, e, c'. split_and!; try done. lia.
    + destruct (group_ids_ok flows _ Hid Hn) as [? ?]. exists (group flows), e, (dcClusterer_ s). split_and!; try done. lia.
  - destruct cs as [|p cs]; [exact Hkept|]. set (fl := (λ p : string * Flow, mkFlow p.1 (summary p.2)) <$> p :: cs).
    destruct (group_ids_ok fl (fst <$> p :: cs)) as [? ?]; [|done|].
    + unfold fl. rewrite <-list_fmap_compose. done.
    + eexists _, _, _. split; [done|]. by split_and!.
Qed.

Lemma snapshot_ok now s :
  svc_inv s → ∃ s', snapshot now s = Some s' ∧ svc_inv s' ∧
    lastGroupIntervalEndUs_ s <= lastGroupIntervalEndUs_ s' ∧
    ∀ g i, g ∈ lastGroups_ s' → i ∈ g → ∃ f, flows_ s !! i = Some f ∧ isCandidate now f = true.
Proof.
  intros Hs. unfold snapshot.
  destruct (decideGroups_ok (candidates now s) s Hs (candidates_NoDup now s)) as (groups & e & c & -> & Hg & Hc & He & Hm).
  cbn [mbind option_bind]. eexists. split; [done|]. split_and!; [|done|].
  - destruct Hs. split; try done. cbn. intros i f [Hf _]%map_lookup_filter_Some. by apply (si_flows0 i f).
  - cbn. intros g i Hgi Hi. apply candidates_spec. eauto.
Qed.

Lemma flowOf_summaries i s : svc_inv s → (size (summaries (flowOf i s)) ≤ 4)%nat.
Proof.
  intros Hs. unfold flowOf. destruct (flows_ s !! i) as [f|] eqn:E; cbn; [apply (si_flows _ Hs i f E)|].
  rewrite map_size_empty. lia.
Qed.

Lemma service_publish_inv now i m st s : svc_inv s → svc_inv (publish now i m st s).
Proof.
  intros Hs. unfold publish. destruct (flows_ s !! i) as [f|] eqn:Ef; [|done].
  set (restart := negb _ && _). cbv zeta.
  assert (Hs' : svc_inv (if restart then set_clusterer (removeClass i (dcClusterer_ s)) s else s)).
  { destruct restart; [by apply set_clusterer_inv|done]. }
  apply set_flow_inv; [exact Hs'|]. cbn [summaries].
  assert (Hm : (size (if restart then ∅ else summaries f) ≤ 4)%nat).
  { destruct restart; [rewrite map_size_empty; lia|]. apply (si_flows _ Hs i f Ef). }
  clearbody restart. destruct (_ && _); [|exact Hm]. apply keepLatest_size. lia.
Qed.

Lemma service_step_ok op s : svc_inv s → ∃ s', serviceStep op s = Some s' ∧ svc_inv s'.
Proof.
  intros Hs. pose proof (flowOf_summaries) as Hf.
  destruct op as [i p|now i v|now i m st|i st|now i|i|op|now]; cbn [serviceStep].
  - apply onWei_ok; [apply set_flow_inv; [done|by apply Hf]|].
    intros w Hw. exact (wei_step_inv (WAttach i p) w Hw).
  - unfold eligible. destruct (negb _); [by eauto|]. apply onWei_ok; [|exact (wei_step_inv (WEligible now i v))].
    destruct v; [apply set_flow_inv; [done|by apply Hf]|].
    apply (set_clusterer_inv i (set_flows _ s)), set_flow_inv; [done|]. cbn. rewrite map_size_empty. lia.
  - eexists. split; [done|]. by apply service_publish_inv.
  - eexists. split; [done|]. unfold status. destruct (flows_ s !! i) as [f|] eqn:E; [|done].
    apply set_flow_inv; [done|]. apply (si_flows _ Hs i f E).
  - apply onWei_ok; [|exact (wei_step_inv (WClose now i))]. destruct (flows_ s !! i) as [f|] eqn:E; [|done].
    apply (set_clusterer_inv i (set_flows _ s)), set_flow_inv; [done|]. apply (si_flows _ Hs i f E).
  - eexists. split; [done|]. unfold videoDelivered. destruct (flows_ s !! i) as [f|] eqn:E; [|done].
    apply set_flow_inv; [done|]. apply (si_flows _ Hs i f E).
  - apply onWei_ok; [done|]. apply wei_step_inv.
  - destruct (wei_ s); [by eauto|]. destruct (snapshot_ok now s Hs) as (s' & ? & ? & _). eauto.
Qed.

Lemma service_run_ok ops : ∀ s, svc_inv s → ∃ s', serviceRun ops s = Some s' ∧ svc_inv s'.
Proof.
  induction ops as [|op ops IH]; intros s Hs; cbn; [by eauto|].
  destruct (service_step_ok op s Hs) as (s1 & -> & Hs1). cbn [mbind option_bind]. auto.
Qed.

(** What the worker asks of a connection that it groups. *)
Lemma isCandidate_spec now f :
  isCandidate now f = true ↔
  eligible_ f = true ∧ status_ f = "ready" ∧ now - updated f < 1050000000 ∧ summaries f ≠ ∅.
Proof.
  unfold isCandidate, kIntervalNs. rewrite !andb_true_iff, bool_decide_eq_true, Z.ltb_lt, negb_true_iff, bool_decide_eq_false.
  tauto.
Qed.

(** C32: Every sequence of connections, summaries, closes and worker rounds is
    handled without a missing key.  At any time the groups are disjoint and
    have at least two members, and a connection holds at most four summaries.
    A worker round leaves only groups of connections that were eligible, with
    status ready, heard of less than 1.05 seconds (three intervals) ago and not
    without a summary, and never goes back to an earlier interval. *)
Theorem service_groups_sound c ops now :
  ∃ s, serviceRun ops (newService c) = Some s ∧ groups_ok (lastGroups_ s) ∧
    map_Forall (λ _ f, size (summaries f) ≤ 4)%nat (flows_ s) ∧
    ∃ s', snapshot now s = Some s' ∧ groups_ok (lastGroups_ s') ∧
      lastGroupIntervalEndUs_ s <= lastGroupIntervalEndUs_ s' ∧
      ∀ g i, g ∈ lastGroups_ s' → i ∈ g →
        ∃ f, flows_ s !! i = Some f ∧ eligible_ f = true ∧ status_ f = "ready" ∧
          now - updated f < 1050000000 ∧ summaries f ≠ ∅.
Proof.
  destruct (service_run_ok ops _ (newService_inv c)) as (s & -> & Hs).
  exists s. split_and!; [done|apply Hs|apply Hs|].
  destruct (snapshot_ok now s Hs) as (s' & -> & Hs' & ? & Hg). exists s'. split_and!; [done|apply Hs'|done|].
  intros g i H1 H2. destruct (Hg g i H1 H2) as (f & Hf & Hc%isCandidate_spec). eauto.
Qed.
