(* ===== verification/WeiObserver.v ===== *)
(** * WeiObserver: a connection under the ECN-based detection

    Models [src/src/sbd/WeiObserver.{h,cpp}], which passes the packets, the ECN
    counts and the losses of one connection on to the [WeiDetector] of the
    service.  What the transport reports ([getTransportInfo], the packets of an
    event) is an argument of the handlers.  As in [SbdObserver], [clock k] is
    the [k]-th reading of the clocks and the calls of the service are logged. *)

From S2P Require Import Prelude WeiDetector SbdDetector SbdGroups SbdDc SbdIntervals SbdService.

Record WeiAck := mkWeiAck {
  ackImplicit : bool;
  ackAppData : bool;
  ackTime : Z;
  ackedNumbers : list Z;
  ect0Count : Z; ect1Count : Z; ceCount : Z;
  ccWindow : option Z;                      (* ccState, if there is one *)
}.

(** The fields of [TransportInfo] that are read. *)
Record PathInfo := mkPath { congestionWindow : Z; mss : Z }.

Record WeiObserver := mkWeiObs { id_ : string; closed_ : bool }.

Section WeiObserver.
Variable clock : nat → Z * Z.

Record World := mkWorld { obs : WeiObserver; svc : Service; tick : nat; log_ : list ServiceOp }.

Definition call (op : Z * Z → ServiceOp) (w : World) : option World :=
  let op := op (clock (tick w)) in
  s ← serviceStep op (svc w);
  Some (mkWorld (obs w) s (S (tick w)) (log_ w ++ [op])).

Definition create (serverCid clientCid : option string) (peer : string) (s : Service) (k : nat) :
    option World :=
  let id := match serverCid with Some i => i | None => default EmptyString clientCid end in
  let w := mkWorld (mkWeiObs id false) s k [] in
  if bool_decide (id = EmptyString) then Some w else call (λ _, SAttach id peer) w.

Definition destroy (w : World) : option World :=
  if negb (closed_ (obs w)) && negb (bool_decide (id_ (obs w) = EmptyString))
  then call (λ t, SClose t (id_ (obs w))) w else Some w.

(** [!detector || id_.empty()]. *)
Definition idle (w : World) : bool :=
  negb (bool_decide (is_Some (wei_ (svc w)))) || bool_decide (id_ (obs w) = EmptyString).

(** Packets are pairs of their number and whether they are application data. *)
Definition appNumbers (ps : list (Z * bool)) : list Z := fst <$> filter (λ p, p.2 = true) ps.

Definition packetsWritten (info : PathInfo) (ps : list (Z * bool)) (w : World) : option World :=
  if idle w then Some w
  else call (λ _, SWei (WPackets (id_ (obs w)) (appNumbers ps) (congestionWindow info) (mss info))) w.

Fixpoint acksLoop (info : PathInfo) (acks : list WeiAck) (w : World) : option World :=
  match acks with
  | [] => Some w
  | a :: acks =>
      if ackImplicit a || negb (ackAppData a) then acksLoop info acks w
      else
        w ← call (λ t, SWei (WAck t (id_ (obs w)) (ackTime a) (ackedNumbers a) (ect0Count a) (ect1Count a)
                               (ceCount a) (default (congestionWindow info) (ccWindow a)) (mss info))) w;
        acksLoop info acks w
  end.

Definition acksProcessed (info : PathInfo) (acks : list WeiAck) (w : World) : option World :=
  if idle w then Some w else acksLoop info acks w.

Definition packetLossDetected (info : PathInfo) (lossTime : Z) (ps : list (Z * bool)) (w : World) :
    option World :=
  if idle w then Some w
  else call (λ t, SWei (WLoss t (id_ (obs w)) lossTime (appNumbers ps) (congestionWindow info) (mss info))) w.

Definition closing (w : World) : option World :=
  let w := mkWorld (mkWeiObs (id_ (obs w)) true) (svc w) (tick w) (log_ w) in
  if bool_decide (id_ (obs w) = EmptyString) then Some w else call (λ t, SClose t (id_ (obs w))) w.

Inductive WeiEvent :=
| VWritten (info : PathInfo) (ps : list (Z * bool))
| VAcks (info : PathInfo) (acks : list WeiAck)
| VLoss (info : PathInfo) (lossTime : Z) (ps : list (Z * bool))
| VClosing
| VService (op : ServiceOp).

Definition weiObsStep (e : WeiEvent) (w : World) : option World :=
  match e with
  | VWritten info ps => packetsWritten info ps w
  | VAcks info acks => acksProcessed info acks w
  | VLoss info t ps => packetLossDetected info t ps w
  | VClosing => closing w
  | VService op => s ← serviceStep op (svc w); Some (mkWorld (obs w) s (tick w) (log_ w))
  end.

Fixpoint weiObsRun (es : list WeiEvent) (w : World) : option World :=
  match es with
  | [] => Some w
  | e :: es => w ← weiObsStep e w; weiObsRun es w
  end.

(** ** What is passed on *)

(** The calls that an event stands for, apart from the times. *)
Inductive Report :=
| Written (pns : list Z) (cwnd mds : Z)
| Acked (t : Z) (pns : list Z) (e0 e1 e2 cwnd mds : Z)
| Lost (t : Z) (pns : list Z) (cwnd mds : Z)
| Attached (peer : string)
| Closed.

Definition reportOf (i : string) (op : ServiceOp) : option Report :=
  match op with
  | SWei (WPackets j pns cwnd mds) => if decide (j = i) then Some (Written pns cwnd mds) else None
  | SWei (WAck _ j t pns e0 e1 e2 cwnd mds) => if decide (j = i) then Some (Acked t pns e0 e1 e2 cwnd mds) else None
  | SWei (WLoss _ j t pns cwnd mds) => if decide (j = i) then Some (Lost t pns cwnd mds) else None
  | SAttach j p => if decide (j = i) then Some (Attached p) else None
  | SClose _ j => if decide (j = i) then Some Closed else None
  | _ => None
  end.

Definition ackReport (info : PathInfo) (a : WeiAck) : option Report :=
  if negb (ackImplicit a) && ackAppData a
  then Some (Acked (ackTime a) (ackedNumbers a) (ect0Count a) (ect1Count a) (ceCount a)
               (default (congestionWindow info) (ccWindow a)) (mss info))
  else None.

Definition eventReports (e : WeiEvent) : list Report :=
  match e with
  | VWritten info ps => [Written (appNumbers ps) (congestionWindow info) (mss info)]
  | VAcks info acks => omap (ackReport info) acks
  | VLoss info t ps => [Lost t (appNumbers ps) (congestionWindow info) (mss info)]
  | VClosing => [Closed]
  | VService _ => []
  end.

Definition isClosing (e : WeiEvent) : bool := match e with VClosing => true | _ => false end.

(** The service has a Wei detector, and keeps it. *)
Definition weiReady (w : World) : Prop := svc_inv (svc w) ∧ is_Some (wei_ (svc w)).

Lemma onWei_some f s s' : onWei f s = Some s' → is_Some (wei_ s) → is_Some (wei_ s').
Proof. unfold onWei. intros E [w Hw]. rewrite Hw in E. destruct (f w); cbn in E; [|done]. by injection E as <-. Qed.

Lemma serviceStep_wei op s s' : serviceStep op s = Some s' → is_Some (wei_ s) → is_Some (wei_ s').
Proof.
  intros Hst Hs. destruct op as [i p|t i v|t i m st|i st|t i|i|op|t]; cbn [serviceStep] in Hst.
  - by eapply onWei_some.
  - unfold eligible in Hst. destruct (negb _); [by injection Hst as <-|]. eapply onWei_some; [exact Hst|]. by destruct v.
  - injection Hst as <-. unfold publish. destruct (flows_ s !! i); [|done]. cbn. by destruct (negb _ && _).
  - injection Hst as <-. unfold status. by destruct (flows_ s !! i).
  - eapply onWei_some; [exact Hst|]. by destruct (flows_ s !! i).
  - injection Hst as <-. unfold videoDelivered. by destruct (flows_ s !! i).
  - by eapply onWei_some.
  - destruct Hs as [w Hw]. rewrite Hw in Hst. by injection Hst as <-.
Qed.

Lemma weiCall_ok op w :
  weiReady w → ∃ w', call op w = Some w' ∧ weiReady w' ∧ obs w' = obs w ∧ log_ w' = log_ w ++ [op (clock (tick w))].
Proof.
  intros [Hs Hw]. unfold call. destruct (service_step_ok (op (clock (tick w))) (svc w) Hs) as (s & Es & Hs').
  rewrite Es. cbn. eexists. split_and!; [done| |done|done]. split; [done|]. by eapply serviceStep_wei.
Qed.

Definition reportsOf (i : string) (w : World) : list Report := omap (reportOf i) (log_ w).

Lemma acksLoop_ok info acks : ∀ w,
  weiReady w → ∃ w', acksLoop info acks w = Some w' ∧ weiReady w' ∧ obs w' = obs w ∧
    reportsOf (id_ (obs w)) w' = reportsOf (id_ (obs w)) w ++ omap (ackReport info) acks.
Proof.
  induction acks as [|a acks IH]; intros w Hw; cbn [acksLoop omap list_omap].
  { exists w. split_and!; try done. by rewrite app_nil_r. }
  unfold ackReport at 1. destruct (ackImplicit a); [by apply IH|]. destruct (ackAppData a); [|by apply IH]. cbn [orb negb andb].
  destruct (weiCall_ok (λ t, SWei (WAck t (id_ (obs w)) (ackTime a) (ackedNumbers a) (ect0Count a) (ect1Count a)
    (ceCount a) (default (congestionWindow info) (ccWindow a)) (mss info))) w Hw) as (w1 & -> & Hw1 & Ho1 & Hl1).
  cbn [mbind option_bind]. destruct (IH w1 Hw1) as (w2 & -> & Hw2 & Ho2 & Hr2).
  exists w2. split_and!; try done; [congruence|]. rewrite Ho1 in Hr2. rewrite Hr2. unfold reportsOf. rewrite Hl1, omap_app.
  cbn. rewrite decide_True by done. by rewrite <-app_assoc.
Qed.

Lemma weiObsStep_ok e w :
  weiReady w → id_ (obs w) ≠ EmptyString →
  ∃ w', weiObsStep e w = Some w' ∧ weiReady w' ∧ id_ (obs w') = id_ (obs w) ∧
    closed_ (obs w') = closed_ (obs w) || isClosing e ∧
    reportsOf (id_ (obs w)) w' = reportsOf (id_ (obs w)) w ++ eventReports e.
Proof.
  intros Hw Hid. pose proof Hw as [Hs Hwei].
  assert (Hidle : idle w = false) by (unfold idle; by rewrite bool_decide_true, bool_decide_false).
  assert (Hcall : ∀ op r, (∀ t, reportOf (id_ (obs w)) (op t) = Some r) → ∃ w', call op w = Some w' ∧ weiReady w' ∧
    id_ (obs w') = id_ (obs w) ∧ closed_ (obs w') = closed_ (obs w) || false ∧
    reportsOf (id_ (obs w)) w' = reportsOf (id_ (obs w)) w ++ [r]).
  { intros op r Hr. destruct (weiCall_ok op w Hw) as (w' & -> & ? & Ho & Hl). exists w'. rewrite orb_false_r.
    split_and!; [done|done|congruence|congruence|]. unfold reportsOf. rewrite Hl, omap_app. cbn. by rewrite Hr. }
  destruct e as [info ps|info acks|info t ps| |op]; cbn [weiObsStep eventReports isClosing].
  - unfold packetsWritten. rewrite Hidle. apply Hcall. intros t. cbn. by rewrite decide_True.
  - unfold acksProcessed. rewrite Hidle. destruct (acksLoop_ok info acks w Hw) as (w' & -> & ? & Ho & ?).
    exists w'. rewrite Ho, orb_false_r. by split_and!.
  - unfold packetLossDetected. rewrite Hidle. apply Hcall. intros t'. cbn. by rewrite decide_True.
  - unfold closing. cbn [obs id_]. rewrite bool_decide_false by done. set (w1 := mkWorld _ _ _ _).
    destruct (weiCall_ok (λ t, SClose t (id_ (obs w))) w1 Hw) as (w' & -> & ? & Ho & Hl). exists w'. rewrite Ho, orb_true_r.
    split_and!; try done. unfold reportsOf. rewrite Hl, omap_app. cbn. by rewrite decide_True.
  - destruct (service_step_ok op (svc w) Hs) as (s & Es & Hs'). rewrite Es. cbn. eexists. split_and!; [done| |done| |].
    + split; [done|]. by eapply serviceStep_wei.
    + by rewrite orb_false_r.
    + by rewrite app_nil_r.
Qed.

Lemma weiObsRun_ok es : ∀ w,
  weiReady w → id_ (obs w) ≠ EmptyString →
  ∃ w', weiObsRun es w = Some w' ∧ weiReady w' ∧ id_ (obs w') = id_ (obs w) ∧
    closed_ (obs w') = closed_ (obs w) || existsb isClosing es ∧
    reportsOf (id_ (obs w)) w' = reportsOf (id_ (obs w)) w ++ mjoin (eventReports <$> es).
Proof.
  induction es as [|e es IH]; intros w Hw Hid; cbn [weiObsRun existsb].
  { exists w. split_and!; try done; [by rewrite orb_false_r|]. by rewrite app_nil_r. }
  destruct (weiObsStep_ok e w Hw Hid) as (w1 & -> & Hw1 & Hi1 & Hc1 & Hr1). cbn [mbind option_bind].
  destruct (IH w1 Hw1) as (w2 & -> & Hw2 & Hi2 & Hc2 & Hr2); [congruence|]. exists w2.
  rewrite Hi1 in Hr2. rewrite Hr2, Hr1, Hc2, Hc1, <-app_assoc, orb_assoc. split_and!; [done|done|congruence|done|done].
Qed.

(** In every run the detector hears of the connection exactly what its events
    say, in their order: its attachment, the application packets that are
    written and lost, each explicit acknowledgment of application data, and its
    close, which the destructor only adds when the transport did not report it.
    No call fails, whatever else is done with the service. *)
Theorem wei_observer_exact c i peer es :
  algorithm c = kWei2020ECN → i ≠ EmptyString →
  ∃ w w', (create (Some i) None peer (newService c) 0 ≫= weiObsRun es) = Some w ∧ destroy w = Some w' ∧
    reportsOf i w' = Attached peer :: mjoin (eventReports <$> es) ++ (if existsb isClosing es then [] else [Closed]) ∧
    svc_inv (svc w').
Proof.
  intros Hc Hi. unfold create. rewrite bool_decide_false by done. set (w0 := mkWorld _ _ _ _).
  assert (H0 : weiReady w0).
  { split; [apply newService_inv|]. unfold w0. cbn. by rewrite bool_decide_true. }
  destruct (weiCall_ok (λ _, SAttach i peer) w0 H0) as (w1 & -> & Hw1 & Ho1 & Hl1). cbn [mbind option_bind].
  assert (Hid : id_ (obs w1) = i) by by rewrite Ho1.
  destruct (weiObsRun_ok es w1 Hw1) as (w & -> & Hw & Hiw & Hcw & Hrw); [congruence|]. rewrite Hid in *. exists w.
  assert (Hr1 : reportsOf i w1 = [Attached peer]) by (unfold reportsOf; rewrite Hl1; cbn; by rewrite decide_True).
  rewrite Hr1 in Hrw. unfold destroy. rewrite Hcw, Hiw, Ho1, (bool_decide_false (i = EmptyString)) by done. cbn [w0 obs closed_ orb].
  destruct (existsb isClosing es); cbn [negb andb].
  - exists w. split_and!; [done|done| |apply Hw]. by rewrite Hrw, app_nil_r.
  - destruct (weiCall_ok (λ t, SClose t i) w Hw) as (w' & -> & Hw' & _ & Hl'). exists w'. split_and!; [done|done| |apply Hw'].
    unfold reportsOf. rewrite Hl', omap_app. fold (reportsOf i w). rewrite Hrw. cbn. by rewrite decide_True.
Qed.
End WeiObserver.

Module WeiObserverExamples.
Definition weiEvents : list WeiEvent :=
  [VService (SEligible (0, 0) "a" true); VWritten (mkPath 12000 1200) [(1, true); (2, false); (3, true)];
   VAcks (mkPath 12000 1200)
     [mkWeiAck false true 5 [1] 0 0 1 (Some 9000); mkWeiAck true true 5 [] 0 0 1 None; mkWeiAck false false 6 [2] 0 0 2 None];
   VLoss (mkPath 9000 1200) 7 [(3, true)]].

Lemma wei_observer_exact_witness :
  ∃ w w', (create (λ _, (0, 0)) (Some "a") None "peer" (newService (mkConfig true "owd" "Wei2020ECN")) 0
             ≫= weiObsRun (λ _, (0, 0)) weiEvents) = Some w ∧ destroy (λ _, (0, 0)) w = Some w' ∧
    reportsOf "a" w' = [Attached "peer"; Written [1; 3] 12000 1200; Acked 5 [1] 0 0 1 9000 1200;
                        Lost 7 [3] 9000 1200; Closed].
Proof.
  destruct (wei_observer_exact (λ _, (0, 0)) (mkConfig true "owd" "Wei2020ECN") "a" "peer" weiEvents eq_refl
    ltac:(discriminate)) as (w & w' & H1 & H2 & H3 & _).
  exists w, w'. split; [exact H1|]. split; [exact H2|]. exact H3.
Defined.
End WeiObserverExamples.
