(* ===== verification/SbdObserver.v ===== *)
(** * Observer: a connection measured for bottleneck detection

    Models [src/src/sbd/Observer.{h,cpp}]: the observer of one connection, which
    samples delays and packet outcomes from the events of the transport and
    publishes interval summaries to [SbdService].  Its estimator is either of
    the two of [SbdIntervals].

    The world of the handlers is the observer, the service that it shares with
    every other connection, and the clock.  [clock k] is the [k]-th reading, of
    the steady clock in nanoseconds and of the system clock; each call of
    [now()], in the observer or in the service, takes the next one.  [flow_]
    points to the entry of the service's map under [id_]; a missing entry is a
    failure of the model, and the theorems show that there is none.  A handler
    runs without interruption.  [log_] lists the calls of the service. *)

From Stdlib Require Import SpecFloat.
From S2P Require Import Prelude SbdDetector SbdGroups SbdDc SbdIntervals SbdLoss SbdService.

(** ** Events *)

Record AckedPacket := mkAcked {
  packetNum : Z;
  sentAt : Z;                               (* outstandingPacketMetadata.time *)
  receiveRelativeTimeStampUsec : option Z;
}.

(** [getLargestAckedPacket] belongs to the transport; its result is part of the
    event. *)
Record AckEvent := mkAckEvent {
  implicit_ : bool;
  appData : bool;                           (* packetNumberSpace == AppData *)
  ackedPackets_ : list AckedPacket;
  largestAcked : option AckedPacket;
  rttSampleNoAckDelay : option Z;
}.

Record LostPacket := mkLost { lostNum : Z; lostSentAt : Z; lostAppData : bool }.

Definition clockUs (time : Z) : Z := Z.quot time 1000.
Definition kFeedbackTimeoutNs : Z := 5 * kIntervalNs.
Definition kIntervalMs : Z := 350.

Section Observer.
Context {E : Type} `{Estimator E}.
Variable clock : nat → Z * Z.

Record Observer := mkObs {
  id_ : string;
  flow_ : bool;                             (* flow_ is not null *)
  peerAddress_ : string;
  detector_ : Detector;
  receiver_ : ReceiveIntervals (E := E);
  loss_ : FeedbackLoss;
  started_ : bool;
  stopped_ : bool;
  closed_ : bool;
  dcPreviouslyBottlenecked_ : bool;
  obsSamples_ : Z;                          (* samples_ *)
  nextEnd_ : Z;                             (* next_ *)
  measurementStart_ : Z;
  lastFeedback_ : Z;
  timer_ : option Z;                        (* milliseconds, if scheduled *)
}.

Record World := mkWorld { obs : Observer; svc : Service; tick : nat; log_ : list ServiceOp }.

Definition onObs (f : Observer → Observer) (w : World) : World :=
  mkWorld (f (obs w)) (svc w) (tick w) (log_ w).

Definition now (w : World) : Z * World :=
  ((clock (tick w)).1, mkWorld (obs w) (svc w) (S (tick w)) (log_ w)).

(** A call of the service, which may read the clocks. *)
Definition call (op : Z * Z → ServiceOp) (w : World) : option World :=
  let op := op (clock (tick w)) in
  s ← serviceStep op (svc w);
  Some (mkWorld (obs w) s (S (tick w)) (log_ w ++ [op])).

Definition publish_ (m : Summary) (st : string) (w : World) : option World :=
  call (λ t, SPublish t.1 (id_ (obs w)) m st) w.

(** ** Changes of the observer *)

Definition set_timer (t : option Z) (o : Observer) : Observer :=
  mkObs (id_ o) (flow_ o) (peerAddress_ o) (detector_ o) (receiver_ o) (loss_ o) (started_ o) (stopped_ o)
    (closed_ o) (dcPreviouslyBottlenecked_ o) (obsSamples_ o) (nextEnd_ o) (measurementStart_ o)
    (lastFeedback_ o) t.
Definition scheduleTimeout (ms : Z) : World → World := onObs (set_timer (Some ms)).
Definition cancelTimeout : World → World := onObs (set_timer None).

Definition set_feedback (t : Z) (o : Observer) : Observer :=
  mkObs (id_ o) (flow_ o) (peerAddress_ o) (detector_ o) (receiver_ o) (loss_ o) (started_ o) (stopped_ o)
    (closed_ o) (dcPreviouslyBottlenecked_ o) (obsSamples_ o) (nextEnd_ o) (measurementStart_ o) t (timer_ o).

(** The estimators and the ledger. *)
Definition set_measures (d : Detector) (r : ReceiveIntervals) (l : FeedbackLoss) (dc : bool) (n : Z)
    (o : Observer) : Observer :=
  mkObs (id_ o) (flow_ o) (peerAddress_ o) d r l (started_ o) (stopped_ o) (closed_ o) dc n (nextEnd_ o)
    (measurementStart_ o) (lastFeedback_ o) (timer_ o).

(** [detector_.reset(); receiver_.reset(); loss_.reset();
    dcPreviouslyBottlenecked_ = false]. *)
Definition resetHistory (o : Observer) : Observer :=
  set_measures newDetector newReceive newFeedback false (obsSamples_ o) o.
Definition clearSamples (o : Observer) : Observer :=
  set_measures (detector_ o) (receiver_ o) (loss_ o) (dcPreviouslyBottlenecked_ o) 0 o.

Definition set_started (b : bool) (o : Observer) : Observer :=
  mkObs (id_ o) (flow_ o) (peerAddress_ o) (detector_ o) (receiver_ o) (loss_ o) b (stopped_ o) (closed_ o)
    (dcPreviouslyBottlenecked_ o) (obsSamples_ o) (nextEnd_ o) (measurementStart_ o) (lastFeedback_ o) (timer_ o).
Definition set_ended (stop close : bool) (o : Observer) : Observer :=
  mkObs (id_ o) (flow_ o) (peerAddress_ o) (detector_ o) (receiver_ o) (loss_ o) (started_ o) stop close
    (dcPreviouslyBottlenecked_ o) (obsSamples_ o) (nextEnd_ o) (measurementStart_ o) (lastFeedback_ o) (timer_ o).

Definition set_nextEnd (n : Z) (o : Observer) : Observer :=
  mkObs (id_ o) (flow_ o) (peerAddress_ o) (detector_ o) (receiver_ o) (loss_ o) (started_ o) (stopped_ o)
    (closed_ o) (dcPreviouslyBottlenecked_ o) (obsSamples_ o) n (measurementStart_ o) (lastFeedback_ o) (timer_ o).

(** [measurementStart_ = lastFeedback_ = t; next_ = measurementStart_ + kInterval]. *)
Definition startAt (t : Z) (o : Observer) : Observer :=
  mkObs (id_ o) (flow_ o) (peerAddress_ o) (detector_ o) (receiver_ o) (loss_ o) (started_ o) (stopped_ o)
    (closed_ o) (dcPreviouslyBottlenecked_ o) (obsSamples_ o) (t + kIntervalNs) t t (timer_ o).

(** ** Life of the observer *)

(** The connection id is that of the server, else that of the client. *)
Definition connectionId (serverCid clientCid : option string) : option string :=
  match serverCid with Some i => Some i | None => clientCid end.

Definition create (serverCid clientCid : option string) (peer : string) (s : Service) (k : nat) :
    option World :=
  let o i f st := mkObs i f peer newDetector newReceive newFeedback false st false false 0 0 0 0 None in
  match connectionId serverCid clientCid with
  | Some i =>
      w ← call (λ _, SAttach i peer) (mkWorld (o i true false) s k []);
      Some (scheduleTimeout kIntervalMs w)
  | None => Some (mkWorld (o EmptyString false true) s k [])
  end.

Definition measuring (w : World) : option (bool * World) :=
  let o := obs w in
  if closed_ o || stopped_ o || negb (flow_ o) then Some (false, w)
  else
    f ← flows_ (svc w) !! id_ o;
    if negb (eligible_ f) || negb (videoStarted f) then
      Some (false, if started_ o then onObs (λ o, clearSamples (set_started false (resetHistory o))) w else w)
    else if started_ o then Some (true, w)
    else
      let w := onObs (set_started true) w in
      let '(t, w) := now w in
      let w := scheduleTimeout kIntervalMs (onObs (startAt t) w) in
      w ← publish_ emptySummary "warming_up" w;
      Some (true, w).

Definition stop (reason : string) (w : World) : option World :=
  let w := onObs (λ o, resetHistory (set_ended true (closed_ o) o)) w in
  publish_ emptySummary reason (cancelTimeout w).

Definition recover (reason : string) (w : World) : option World :=
  let w := onObs (λ o, clearSamples (resetHistory o)) w in
  let '(t, w) := now w in
  let w := onObs (startAt t) w in
  w ← publish_ emptySummary reason w;
  Some (scheduleTimeout kIntervalMs w).

Definition closing (w : World) : option World :=
  let w := cancelTimeout (onObs (λ o, set_ended (stopped_ o) true o) w) in
  call (λ t, SClose t (id_ (obs w))) w.

Definition destroy (w : World) : option World :=
  let w := cancelTimeout w in
  if closed_ (obs w) then Some w else call (λ t, SClose t (id_ (obs w))) w.

(** ** The timer *)

Definition isOwd (w : World) : bool := bool_decide (delaySource (config_ (svc w)) = "owd").

Definition bounded (start end_ : Z) (m : Summary) : Summary :=
  mkSummary (intervals m) (samples m) (acked m) (lost m) (readyAfter m) (groupingReadyAfter m)
    (fullHistoryAfter m) (skew m) (variation m) (frequency m) (loss m) (groupingVariation m)
    (intervalMeanDelayUs m) (intervalMinDelayUs m) (intervalMaxDelayUs m) start end_ (bottleneck m)
    (measurementValid m).

(** The interval of the timer ends. *)
Definition finishTimer (w : World) : option World :=
  let o := obs w in
  let '(d, m) := finishInterval (detector_ o) in
  let m := bounded (clockUs (nextEnd_ o - kIntervalNs)) (clockUs (nextEnd_ o)) m in
  let '(l, m) := applyLoss (intervalEndUs m) m (loss_ o) in
  let w := onObs (set_measures d (receiver_ o) l (dcPreviouslyBottlenecked_ o) (obsSamples_ o)) w in
  w ← publish_ m (if ready m && measurementValid m then "ready" else "warming_up") w;
  Some (onObs (λ o, set_nextEnd (nextEnd_ o + kIntervalNs) (clearSamples o)) w).

Definition reschedule (t : Z) (w : World) : World :=
  scheduleTimeout (Z.max (Z.quot (nextEnd_ (obs w) - t) 1000000) 1) w.

(** The part of [timeoutExpired] after [measuring]. *)
Definition onTimer (w : World) : option World :=
  let '(t, w) := now w in
  let o := obs w in
  if isOwd w then
    w ← (if kFeedbackTimeoutNs <=? t - lastFeedback_ o
         then call (λ _, SStatus (id_ o) "waiting_feedback") w else Some w);
    Some (scheduleTimeout kIntervalMs w)
  else if nextEnd_ o <=? t then
    if kIntervalNs <=? t - nextEnd_ o then recover "waiting_after_timer_lag" w
    else if obsSamples_ o =? 0 then recover "waiting_feedback" w
    else w ← finishTimer w; Some (reschedule t w)
  else Some (reschedule t w).

Definition timeoutExpired (w : World) : option World :=
  if closed_ (obs w) || stopped_ (obs w) then Some w
  else
    '(b, w) ← measuring w;
    if negb b then Some (scheduleTimeout kIntervalMs w) else onTimer w.

(** ** Feedback *)

(** What the loops of [acksProcessed] change; an early return is the reason
    that is passed to [recover]. *)
Record Batch := mkBatch {
  b_loss : FeedbackLoss;
  b_received : list (Z * Z);                (* receive time, send time *)
  b_outcomes : Z;
  b_detector : Detector;
  b_samples : Z;
}.

Fixpoint foldE {A S} (f : S → A → string + S) (s : S) (l : list A) : string + S :=
  match l with
  | [] => inr s
  | x :: l => match f s x with inl e => inl e | inr s => foldE f s l end
  end.

Definition ackPacket (owd : bool) (start : Z) (b : Batch) (p : AckedPacket) : string + Batch :=
  if sentAt p <? start then inr b
  else
    match acknowledged (clockUs (sentAt p)) (packetNum p) (b_loss b) with
    | (_, false) => inl "waiting_outcome_capacity"
    | (l, true) =>
        let add received := mkBatch l (b_received b ++ received) (b_outcomes b + 1) (b_detector b) (b_samples b) in
        if owd then
          match receiveRelativeTimeStampUsec p with
          | None => inl "waiting_receive_timestamps"
          | Some rx =>
              if rx <? 0 then inl "waiting_valid_timestamp"
              else if 65536 <=? Z.of_nat (length (b_received b)) then inl "waiting_feedback_capacity"
              else inr (add [(rx, sentAt p)])
          end
        else inr (add [])
    end.

Definition rttSample (start : Z) (a : AckEvent) (b : Batch) : Batch :=
  match largestAcked a, rttSampleNoAckDelay a with
  | Some p, Some rtt =>
      if (start <=? sentAt p) && (0 <=? rtt)
      then mkBatch (b_loss b) (b_received b) (b_outcomes b) (sample (of_int rtt) (b_detector b))
             (u64 (b_samples b + 1))
      else b
  | _, _ => b
  end.

Definition ackEvent (owd : bool) (start : Z) (b : Batch) (a : AckEvent) : string + Batch :=
  if implicit_ a || negb (appData a) then inr b
  else
    match foldE (ackPacket owd start) b (ackedPackets_ a) with
    | inl reason => inl reason
    | inr b => inr (if owd then b else rttSample start a b)
    end.

(** The order of [std::pair]. *)
Definition pairLtb (a b : Z * Z) : bool := (a.1 <? b.1) || (a.1 =? b.1) && (a.2 <? b.2).

(** A timestamp of the sorted batch; the watermark is the last one. *)
Definition receiveOne (rw : ReceiveIntervals * option Z) (p : Z * Z) :
    string + (ReceiveIntervals (E := E) * option Z) :=
  let delay := of_int (p.1 - clockUs p.2) in
  if (delay <? fzero)%D then inl "waiting_shared_monotonic_clock"
  else match receiveSample p.1 delay rw.1 with
       | (_, false) => inl "waiting_late_or_excess_feedback"
       | (r, true) => inr (r, Some p.1)
       end.

Definition set_bottleneck (b : bool) (m : Summary) : Summary :=
  mkSummary (intervals m) (samples m) (acked m) (lost m) (readyAfter m) (groupingReadyAfter m)
    (fullHistoryAfter m) (skew m) (variation m) (frequency m) (loss m) (groupingVariation m)
    (intervalMeanDelayUs m) (intervalMinDelayUs m) (intervalMaxDelayUs m) (intervalStartUs m)
    (intervalEndUs m) b (measurementValid m).

Definition statusOf (m : Summary) : string :=
  if samples m =? 0 then "waiting_receiver_samples"
  else if negb (ready m) then "warming_up"
  else if measurementValid m then "ready" else "waiting_previous_interval".

(** An interval of receiver time that has ended. *)
Definition publishInterval (m : Summary) (w : World) : option World :=
  let o := obs w in
  let '(l, m) := applyLoss (intervalEndUs m) m (loss_ o) in
  let '(m, dc) :=
    if bool_decide (algorithm (config_ (svc w)) = kDcSbd) then
      let m := set_bottleneck (dcBottleneck m (dcPreviouslyBottlenecked_ o)) m in
      (m, if ready m && measurementValid m then bottleneck m
          else if intervals m =? 0 then false else dcPreviouslyBottlenecked_ o)
    else (m, dcPreviouslyBottlenecked_ o) in
  publish_ m (statusOf m) (onObs (set_measures (detector_ o) (receiver_ o) l dc (obsSamples_ o)) w).

Fixpoint publishIntervals (ms : list Summary) (w : World) : option World :=
  match ms with
  | [] => Some w
  | m :: ms => w ← publishInterval m w; publishIntervals ms w
  end.

(** The part of [acksProcessed] after the loop over the acknowledgments. *)
Definition processBatch (b : Batch) (w : World) : option World :=
  let o := obs w in
  let w := onObs (set_measures (b_detector b) (receiver_ o) (b_loss b) (dcPreviouslyBottlenecked_ o) (b_samples b)) w in
  let w := if b_outcomes b =? 0 then w else let '(t, w) := now w in onObs (set_feedback t) w in
  match foldE receiveOne (receiver_ o, None) (sortBy pairLtb (b_received b)) with
  | inl reason => recover reason w
  | inr (r, mark) =>
      let set r o := set_measures (detector_ o) r (loss_ o) (dcPreviouslyBottlenecked_ o) (obsSamples_ o) o in
      match mark with
      | Some t =>
          if isOwd w then
            let '(r, ms) := finishThrough t r in publishIntervals ms (onObs (set r) w)
          else Some (onObs (set r) w)
      | None => Some (onObs (set r) w)
      end
  end.

Definition acksProcessed (peer : string) (acks : list AckEvent) (w : World) : option World :=
  '(b, w) ← measuring w;
  if negb b then Some w
  else if negb (bool_decide (peer = peerAddress_ (obs w))) then stop "stopped_path_changed" w
  else
    let owd := isOwd w in
    w ← (if owd then Some w
         else let '(t, w) := now w in if nextEnd_ (obs w) <=? t then timeoutExpired w else Some w);
    let o := obs w in
    match foldE (ackEvent owd (measurementStart_ o)) (mkBatch (loss_ o) [] 0 (detector_ o) (obsSamples_ o)) acks with
    | inl reason => recover reason w
    | inr b => processBatch b w
    end.

(** The loops of [packetLossDetected] and [spuriousLossDetected]. *)
Definition reportPacket (report : Z → Z → FeedbackLoss → FeedbackLoss * bool) (start : Z) (l : FeedbackLoss)
    (p : LostPacket) : string + FeedbackLoss :=
  if negb (lostAppData p) || (lostSentAt p <? start) then inr l
  else match report (clockUs (lostSentAt p)) (lostNum p) l with
       | (_, false) => inl "waiting_outcome_capacity"
       | (l, true) => inr l
       end.

Definition set_loss (l : FeedbackLoss) (o : Observer) : Observer :=
  set_measures (detector_ o) (receiver_ o) l (dcPreviouslyBottlenecked_ o) (obsSamples_ o) o.

Definition packetLossDetected (lost : list LostPacket) (w : World) : option World :=
  '(b, w) ← measuring w;
  if negb b then Some w
  else
    match foldE (reportPacket declaredLost (measurementStart_ (obs w))) (loss_ (obs w)) lost with
    | inl reason => recover reason w
    | inr l => Some (onObs (set_loss l) w)
    end.

Definition spuriousLossDetected (packets : list LostPacket) (w : World) : option World :=
  '(b, w) ← measuring w;
  if negb b then Some w
  else
    match foldE (reportPacket spuriousLoss (measurementStart_ (obs w))) (loss_ (obs w)) packets with
    | inl reason => recover reason w
    | inr l => let '(t, w) := now (onObs (set_loss l) w) in Some (onObs (set_feedback t) w)
    end.

(** ** Runs *)

(** The events of the connection, and what others do with the service. *)
Inductive ObsEvent :=
| EAcks (peer : string) (acks : list AckEvent)
| ELoss (lost : list LostPacket)
| ESpurious (packets : list LostPacket)
| ETimer
| EClosing
| EService (op : ServiceOp).

(** The timer only fires when it is scheduled. *)
Definition obsStep (e : ObsEvent) (w : World) : option World :=
  match e with
  | EAcks peer acks => acksProcessed peer acks w
  | ELoss lost => packetLossDetected lost w
  | ESpurious packets => spuriousLossDetected packets w
  | ETimer => match timer_ (obs w) with
              | Some _ => timeoutExpired (cancelTimeout w)
              | None => Some w
              end
  | EClosing => closing w
  | EService op => s ← serviceStep op (svc w); Some (mkWorld (obs w) s (tick w) (log_ w))
  end.

Fixpoint obsRun (es : list ObsEvent) (w : World) : option World :=
  match es with
  | [] => Some w
  | e :: es => w ← obsStep e w; obsRun es w
  end.
End Observer.
