(* ===== verification/SbdObserverTheorems.v ===== *)
(** * The observer of a connection and the service that it feeds

    Theorems on [SbdObserver]: whatever the order of the connection's events,
    of the timer and of what others do with the service, the service only
    groups connections that are being measured, from summaries of whole
    intervals; the intervals published follow on one another; and the timer is
    never lost. *)

From Stdlib Require Import SpecFloat.
From S2P Require Import Prelude SbdDetector SbdGroups SbdDc SbdIntervals SbdLoss SbdService SbdObserver.

(** ** The flow of a connection under the operations of others *)

(** Operations of the service that the observer of [i] does not make. *)
Definition foreign (i : string) (op : ServiceOp) : Prop :=
  match op with
  | SPublish _ j _ _ | SStatus j _ | SClose _ j => j ≠ i
  | _ => True
  end.

Record derived (f f' : Flow) : Prop := mkDerived {
  dv_summaries : summaries f' ⊆ summaries f;
  dv_closed : status_ f' = "closed" → status_ f = "closed";
  dv_ready : status_ f' = "ready" → status_ f = "ready" ∧ summary f' = summary f ∧
    (eligible_ f = true → eligible_ f' = true) ∧ (videoStarted f = true → videoStarted f' = true);
}.

Lemma derived_refl f : derived f f.
Proof. by split. Qed.
#[local] Hint Resolve derived_refl : core.

Lemma flowOf_set i j f s : flowOf i (set_flows (<[j := f]> (flows_ s)) s) = if decide (i = j) then f else flowOf i s.
Proof.
  unfold flowOf. cbn. case_decide as E; [subst; by rewrite lookup_insert_eq|]. by rewrite lookup_insert_ne by congruence.
Qed.

Lemma is_Some_set i j f s :
  is_Some (flows_ s !! i) → is_Some (flows_ (set_flows (<[j := f]> (flows_ s)) s) !! i).
Proof. cbn. rewrite lookup_insert_is_Some'. auto. Qed.

Lemma onWei_frame g s s' : onWei g s = Some s' → flows_ s' = flows_ s ∧ config_ s' = config_ s.
Proof.
  unfold onWei. destruct (wei_ s); [|by intros [= <-]]. destruct (g _); cbn; [|done]. by intros [= <-].
Qed.

Lemma snapshot_frame t s s' :
  snapshot t s = Some s' → config_ s' = config_ s ∧
    flows_ s' = filter (λ '(_, f), ¬ (status_ f = "closed" ∧ 10000000000 < t - updated f)) (flows_ s).
Proof. unfold snapshot. destruct (decideGroups _ _) as [[[??]?]|]; cbn; [|done]. by intros [= <-]. Qed.

(** What one of these operations does to the entry of [i]. *)
Record framed (i : string) (s s' : Service) : Prop := mkFramed {
  fr_flow : derived (flowOf i s) (flowOf i s');
  fr_entry : is_Some (flows_ s !! i) → status_ (flowOf i s) ≠ "closed" → is_Some (flows_ s' !! i);
  fr_config : config_ s' = config_ s;
}.

Lemma framed_same i s s' : flows_ s' = flows_ s → config_ s' = config_ s → framed i s s'.
Proof. intros Ef Ec. split; [|by rewrite Ef|done]. unfold flowOf. by rewrite Ef. Qed.

Lemma framed_set i j f s :
  (j = i → derived (flowOf i s) f) → framed i s (set_flows (<[j := f]> (flows_ s)) s).
Proof.
  intros Hf. split; [|by intros; apply is_Some_set|done]. rewrite flowOf_set. case_decide; [auto|done].
Qed.

Lemma framed_eq i s s1 s' :
  framed i s s1 → flows_ s' = flows_ s1 → config_ s' = config_ s1 → framed i s s'.
Proof. intros [] Ef Ec. unfold flowOf in *. split; unfold flowOf; by rewrite ?Ef, ?Ec. Qed.

Lemma foreign_framed i op s s' : foreign i op → serviceStep op s = Some s' → framed i s s'.
Proof.
  intros Hf. destruct op as [j p|t j v|t j m st|j st|t j|j|op|t]; cbn [serviceStep foreign] in *.
  - intros [Ef Ec]%onWei_frame. eapply framed_eq; [|exact Ef|exact Ec]. apply framed_set. intros ->. by split.
  - unfold eligible. destruct (negb _); [intros [= <-]; by apply framed_same|]. cbv zeta.
    intros [Ef Ec]%onWei_frame. destruct v.
    + eapply framed_eq; [|exact Ef|exact Ec]. apply framed_set. intros ->. split; cbn; [done|..];
        destruct (videoStarted _) eqn:E; done.
    + eapply (framed_eq _ _ (set_flows _ s)); [|exact Ef|exact Ec]. apply framed_set. intros ->.
      split; cbn; [apply map_empty_subseteq|done|done].
  - intros [= <-]. unfold publish. destruct (flows_ s !! j); [|by apply framed_same]. set (restart := negb _ && _).
    cbv zeta. clearbody restart. destruct restart; (eapply (framed_eq _ _ (set_flows _ s));
      [|cbn; reflexivity|reflexivity]; by apply framed_set).
  - intros [= <-]. unfold status. destruct (flows_ s !! j); [|by apply framed_same]. by apply framed_set.
  - unfold close. intros [Ef Ec]%onWei_frame. destruct (flows_ s !! j); [|by apply framed_same].
    eapply (framed_eq _ _ (set_flows _ s)); [|exact Ef|exact Ec]. by apply framed_set.
  - intros [= <-]. unfold videoDelivered. destruct (flows_ s !! j) as [f|] eqn:E; [|by apply framed_same].
    apply framed_set. intros ->. unfold flowOf. rewrite E. by split.
  - intros [Ef Ec]%onWei_frame. by apply framed_same.
  - destruct (wei_ s); [intros [= <-]; by apply framed_same|]. intros [Ec Ef]%snapshot_frame.
    split; [| |done]; unfold flowOf; rewrite Ef, map_lookup_filter; destruct (flows_ s !! i) as [f|] eqn:E; cbn; try done.
    + case_guard; cbn; [done|]. by split; cbn; [apply map_empty_subseteq|..].
    + intros _ Hc. case_guard as Hg; [done|]. by destruct Hg.
Qed.

(** ** The flow of a connection when its observer publishes *)

Lemma keepLatest_subseteq fuel m : keepLatest fuel m ⊆ m.
Proof.
  revert m. induction fuel as [|fuel IH]; intros m; cbn [keepLatest]; [reflexivity|]. destruct (4 <? size m)%nat; [|reflexivity].
  destruct (sortBy _ _); [reflexivity|]. etrans; [apply IH|]. apply delete_subseteq.
Qed.

Record published (m : Summary) (st : string) (f f' : Flow) : Prop := mkPublished {
  pu_eligible : eligible_ f' = eligible_ f;
  pu_video : videoStarted f' = videoStarted f;
  pu_summary : summary f' = m;
  pu_status : status_ f' = st;
  pu_summaries : ∀ k x, summaries f' !! k = Some x →
    summaries f !! k = Some x ∨ st = "ready" ∧ k = intervalEndUs m ∧ x = m;
}.

Lemma publish_flow t i m st s f :
  flows_ s !! i = Some f → ∃ f', flows_ (publish t i m st s) !! i = Some f' ∧ published m st f f'.
Proof.
  intros Hf. unfold publish. rewrite Hf. set (restart := negb _ && _). cbv zeta. clearbody restart.
  exists (mkSbdFlow (eligible_ f) (videoStarted f) (peer f) m
    (let m0 := if restart then ∅ else summaries f in
     if bool_decide (st = "ready") && (0 <? intervalEndUs m)
     then keepLatest (size (<[intervalEndUs m := m]> m0)) (<[intervalEndUs m := m]> m0) else m0) st t
    (if bool_decide (st = "ready") && ready m && measurementValid m
     then Some (bool_decide (st = "ready") && ready m && measurementValid m && bottleneck m)
     else if restart then None else lastBottleneck f)).
  split; [destruct restart; cbn; by rewrite lookup_insert_eq|]. split; try done. cbn. intros k x.
  assert (H0 : ∀ x, (if restart then ∅ else summaries f) !! k = Some x → summaries f !! k = Some x).
  { intros y. destruct restart; [by rewrite lookup_empty|done]. }
  destruct (bool_decide _) eqn:Es; cbn [andb]; [|by auto]. apply bool_decide_eq_true_1 in Es.
  destruct (0 <? _); [|by auto]. intros Hk.
  pose proof (lookup_weaken _ _ _ _ Hk (keepLatest_subseteq _ _)) as Hx. apply lookup_insert_Some in Hx as [[? ?]|[_ ?]]; auto.
Qed.

Lemma publish_config t i m st s : config_ (publish t i m st s) = config_ s.
Proof. unfold publish. destruct (flows_ s !! i); [|done]. cbv zeta. by destruct (negb _ && _). Qed.

(** ** The invariant *)

(** A summary that may be grouped: of one whole interval. *)
Definition usable (m : Summary) : Prop :=
  ready m = true ∧ measurementValid m = true ∧ intervalEndUs m = intervalStartUs m + kIntervalUs.

(** The intervals published one after the other follow on one another, unless a
    summary without an interval, which restarts the history, is between. *)
Fixpoint contiguous (last : Z) (l : list ServiceOp) : Prop :=
  match l with
  | [] => True
  | SPublish _ _ m _ :: l =>
      (intervalEndUs m = 0 ∨ last = 0 ∨ intervalStartUs m = last) ∧ contiguous (intervalEndUs m) l
  | _ :: l => contiguous last l
  end.

Fixpoint lastEnd (last : Z) (l : list ServiceOp) : Z :=
  match l with
  | [] => last
  | SPublish _ _ m _ :: l => lastEnd (intervalEndUs m) l
  | _ :: l => lastEnd last l
  end.

Lemma contiguous_app a l1 l2 : contiguous a (l1 ++ l2) ↔ contiguous a l1 ∧ contiguous (lastEnd a l1) l2.
Proof. revert a. induction l1 as [|[] l1 IH]; intros a; cbn; rewrite ?IH; tauto. Qed.

Lemma lastEnd_app a l1 l2 : lastEnd a (l1 ++ l2) = lastEnd (lastEnd a l1) l2.
Proof. revert a. induction l1 as [|[] l1 IH]; intros a; cbn; by rewrite ?IH. Qed.

Section Invariant.
Context {E : Type} `{!Estimator E}.
Variable clock : nat → Z * Z.
Variable i : string.
Hypothesis clock_steady : ∀ j k, (j ≤ k)%nat → 0 <= (clock j).1 <= (clock k).1.
Notation World := (World (E := E)).
Notation Observer := (Observer (E := E)).

Definition alive (o : Observer) : Prop := flow_ o = true ∧ stopped_ o = false ∧ closed_ o = false.

Definition flowOf_ (w : World) : Flow := flowOf (id_ (obs w)) (svc w).

(** Everything but the meaning of the status "ready". *)
Record base (w : World) : Prop := mkBase {
  ba_id : id_ (obs w) = i;
  ba_svc : svc_inv (svc w);
  ba_summaries : map_Forall (λ k m, usable m ∧ intervalEndUs m = k) (summaries (flowOf_ w));
  ba_closed : closed_ (obs w) = false → status_ (flowOf_ w) ≠ "closed";
  ba_entry : flow_ (obs w) = true → closed_ (obs w) = false → is_Some (flows_ (svc w) !! id_ (obs w));
  ba_attached : flow_ (obs w) = false → stopped_ (obs w) = true;
  ba_next : started_ (obs w) = true → kIntervalNs <= nextEnd_ (obs w) <= (clock (tick w)).1 + kIntervalNs;
  ba_receiver : receive_ok (receiver_ (obs w));
}.

(** The connection is being measured. *)
Record running (w : World) : Prop := mkRunning {
  ru_alive : alive (obs w);
  ru_started : started_ (obs w) = true;
  ru_eligible : eligible_ (flowOf_ w) = true;
  ru_video : videoStarted (flowOf_ w) = true;
}.

Definition readyOk (w : World) : Prop :=
  status_ (flowOf_ w) = "ready" → running w ∧ usable (summary (flowOf_ w)).

(** Where the last published interval ended, the next one begins. *)
Definition resumes (w : World) : Prop :=
  started_ (obs w) = true → lastEnd 0 (log_ w) ≠ 0 →
  if isOwd w then ∃ n, SbdIntervals.next_ (receiver_ (obs w)) = Some n ∧ lastEnd 0 (log_ w) = n * kIntervalUs
  else lastEnd 0 (log_ w) = clockUs (nextEnd_ (obs w) - kIntervalNs).

Record chain (w : World) : Prop := mkChain {
  ch_log : contiguous 0 (log_ w);
  ch_resumes : resumes w;
}.

Definition inv (w : World) : Prop := base w ∧ readyOk w ∧ chain w.

Definition timer_ok (o : Observer) : Prop :=
  match timer_ o with Some d => alive o ∧ 1 <= d <= 350 | None => ¬ alive o end.

(** *** Changes that keep it *)

(** Only what is measured, or the timer, changes. *)
Record samePhase (o o' : Observer) : Prop := mkSamePhase {
  sp_id : id_ o' = id_ o; sp_flow : flow_ o' = flow_ o; sp_stopped : stopped_ o' = stopped_ o;
  sp_closed : closed_ o' = closed_ o; sp_started : started_ o' = started_ o;
}.

Lemma base_onObs g w :
  base w → samePhase (obs w) (g (obs w)) → receive_ok (receiver_ (g (obs w))) →
  (started_ (obs w) = true → kIntervalNs <= nextEnd_ (g (obs w)) <= (clock (tick w)).1 + kIntervalNs) →
  base (onObs g w).
Proof.
  intros [] [] Hr Hn. unfold flowOf_ in *. split; unfold flowOf_; cbn; rewrite ?sp_id0, ?sp_flow0, ?sp_closed0, ?sp_stopped0, ?sp_started0; auto.
Qed.

Lemma running_onObs g w : running w → samePhase (obs w) (g (obs w)) → running (onObs g w).
Proof.
  intros [[? []]] []. unfold flowOf_ in *. split; unfold alive, flowOf_; cbn; rewrite ?sp_id0, ?sp_flow0, ?sp_closed0, ?sp_stopped0, ?sp_started0; auto.
Qed.

Lemma readyOk_onObs g w : readyOk w → samePhase (obs w) (g (obs w)) → readyOk (onObs g w).
Proof.
  intros Hw Hg Hst. assert (Hf : flowOf_ (onObs g w) = flowOf_ w) by (unfold flowOf_; cbn; by rewrite (sp_id _ _ Hg)).
  rewrite Hf in *. destruct (Hw Hst). split; [by apply running_onObs|done].
Qed.

Lemma base_now w : base w → base (now clock w).2.
Proof. intros []. split; try done. cbn in *. intros Hs. specialize (ba_next0 Hs).
  pose proof (clock_steady (tick w) (S (tick w))). lia.
Qed.

Lemma publish_ok m st w :
  base w → st ≠ "closed" → (st = "ready" → usable m ∧ running w) →
  ∃ w', publish_ clock m st w = Some w' ∧ base w' ∧ readyOk w' ∧ obs w' = obs w ∧
    config_ (svc w') = config_ (svc w) ∧ (running w → running w') ∧
    tick w' = S (tick w) ∧ ∃ t, log_ w' = log_ w ++ [SPublish t (id_ (obs w)) m st].
Proof.
  intros Hw Hst Hm. unfold publish_, call. cbn [serviceStep mbind option_bind].
  set (s' := publish _ _ _ _ _). eexists. split; [done|]. destruct (base_now w Hw).
  assert (Hs' : svc_inv s') by by apply service_publish_inv.
  destruct (flows_ (svc w) !! id_ (obs w)) as [f|] eqn:Ef.
  - destruct (publish_flow (clock (tick w)).1 _ m st _ f Ef) as (f' & Ef' & []). fold s' in Ef'.
    assert (H1 : flowOf (id_ (obs w)) s' = f') by (unfold flowOf; by rewrite Ef').
    assert (H2 : flowOf_ w = f) by (unfold flowOf_, flowOf; by rewrite Ef).
    assert (Hru : running w → running (mkWorld (obs w) s' (S (tick w)) (log_ w ++ [SPublish (clock (tick w)).1 (id_ (obs w)) m st]))).
    { intros []. rewrite H2 in *. split; unfold flowOf_; cbn; rewrite ?H1; congruence. }
    split_and!; [|intros Hr|done|apply publish_config|done|done|by eexists].
    + split; unfold flowOf_ in *; cbn in *; rewrite ?H1, ?H2 in *; try done; [|congruence].
      intros k x [Hk|(Hr & -> & ->)]%pu_summaries0; [by apply ba_summaries0|]. by destruct (Hm Hr).
    + unfold flowOf_ in Hr. cbn in Hr. rewrite H1 in Hr. destruct (Hm ltac:(congruence)). split; [by apply Hru|].
      unfold flowOf_. cbn. rewrite H1. congruence.
  - assert (E1 : s' = svc w) by (unfold s', publish; by rewrite Ef). rewrite E1.
    split_and!; [by split|intros Hr|done|done|by intros []|done|by eexists].
    unfold flowOf_, flowOf in Hr. cbn in Hr. by rewrite Ef in Hr.
Qed.

(** A summary without an interval restarts the chain. *)
Lemma publish_empty st w :
  base w → contiguous 0 (log_ w) → st ≠ "closed" → st ≠ "ready" →
  ∃ w', publish_ clock emptySummary st w = Some w' ∧ inv w' ∧ obs w' = obs w ∧
    config_ (svc w') = config_ (svc w) ∧ (running w → running w').
Proof.
  intros Hw Hc H1 H2. destruct (publish_ok emptySummary st w Hw H1) as (w' & -> & Hb & Hr & Ho & Hcf & Hru & _ & t & Hl); [done|].
  exists w'. split_and!; try done. split_and!; [done|done|]. split.
  - rewrite Hl. apply contiguous_app. split; [done|]. cbn. auto.
  - unfold resumes. by rewrite Hl, lastEnd_app.
Qed.

(** What a handler leaves: the invariant, the configuration and the phase. *)
Record kept (w w' : World) : Prop := mkKept {
  ke_inv : inv w';
  ke_config : config_ (svc w') = config_ (svc w);
  ke_timer : timer_ok (obs w) → timer_ok (obs w');
  ke_running : running w → running w';
}.

Lemma kept_refl w : inv w → kept w w.
Proof. by split. Qed.

Lemma kept_trans w1 w2 w3 : kept w1 w2 → kept w2 w3 → kept w1 w3.
Proof. intros [] []. split; [done|congruence|auto|auto]. Qed.

Lemma alive_phase o o' : samePhase o o' → alive o' ↔ alive o.
Proof. intros []. unfold alive. by rewrite sp_flow0, sp_stopped0, sp_closed0. Qed.

Lemma timer_scheduled ms o : alive o → 1 <= ms <= 350 → timer_ok (set_timer (Some ms) o).
Proof. by split. Qed.

(** The observer changes within its phase, and the chain does not notice. *)
Lemma kept_onObs g w :
  inv w → samePhase (obs w) (g (obs w)) → receive_ok (receiver_ (g (obs w))) →
  nextEnd_ (g (obs w)) = nextEnd_ (obs w) → timer_ (g (obs w)) = timer_ (obs w) →
  (isOwd w = true → ∀ n, SbdIntervals.next_ (receiver_ (obs w)) = Some n →
     SbdIntervals.next_ (receiver_ (g (obs w))) = Some n) →
  kept w (onObs g w).
Proof.
  intros (Hb & Hr & [Hl Hres]) Hg Hrx Hn Ht Hnx. split.
  - split_and!; [|by apply readyOk_onObs|split; [done|]].
    + apply base_onObs; try done. rewrite Hn. apply Hb.
    + unfold resumes in *. cbn. rewrite (sp_started _ _ Hg), Hn. intros H1 H2. specialize (Hres H1 H2).
      change (isOwd (onObs g w)) with (isOwd w). destruct (isOwd w); [|done]. destruct Hres as (n & ? & ?). eauto.
  - done.
  - unfold timer_ok. cbn. rewrite Ht. by destruct (timer_ (obs w)); rewrite (alive_phase _ _ Hg).
  - intros ?. by apply running_onObs.
Qed.

Lemma kept_now w : inv w → kept w (now clock w).2.
Proof.
  intros (Hb & Hr & Hc). split; [split_and!; [by apply base_now| |]|done|done|by intros []].
  - intros Hst. destruct (Hr Hst) as [[] ?]. by split.
  - by destruct Hc.
Qed.

Lemma kept_schedule ms w : inv w → alive (obs w) → 1 <= ms <= 350 →
  kept w (scheduleTimeout ms w) ∧ timer_ok (obs (scheduleTimeout ms w)).
Proof.
  intros (Hb & Hr & [Hl Hres]) Ha Hms. split; [|by apply timer_scheduled]. split; [|done|by intros; apply timer_scheduled|].
  - split_and!; [by apply base_onObs; try apply Hb|by apply readyOk_onObs|by split].
  - intros ?. by apply running_onObs.
Qed.

(** The measurement begins anew, at the next reading of the clock. *)
Lemma base_startAt w : base w → base (onObs (startAt (now clock w).1) (now clock w).2).
Proof.
  intros Hw. apply base_onObs; [by apply base_now|done|apply Hw|]. intros _. cbn.
  pose proof (clock_steady (tick w) (S (tick w))). lia.
Qed.

Lemma recover_ok reason w :
  inv w → running w → reason ≠ "closed" → reason ≠ "ready" →
  ∃ w', recover clock reason w = Some w' ∧ kept w w' ∧ timer_ok (obs w').
Proof.
  intros (Hb & _ & [Hl _]) Hr H1 H2. unfold recover.
  set (w1 := onObs (λ o, clearSamples (resetHistory o)) w).
  assert (Hb1 : base w1) by (apply base_onObs; [done|done|apply newReceive_ok|apply Hb]).
  assert (Hr1 : running w1) by by apply running_onObs. pose proof (base_startAt w1 Hb1) as Hb2.
  destruct (now clock w1) as [t w2] eqn:Et. injection Et as <- <-. cbn [fst snd] in Hb2.
  destruct (publish_empty reason _ Hb2) as (w3 & E3 & Hi3 & Ho3 & Hc3 & Hr3); [exact Hl|done|done|].
  rewrite E3. cbn [mbind option_bind]. assert (Hr3' : running w3) by (apply Hr3; by destruct Hr1).
  destruct (kept_schedule kIntervalMs w3 Hi3) as [[] Ht]; [apply Hr3'|done|].
  eexists. split; [done|]. split; [|done]. split; [done|by rewrite ke_config0, Hc3|by intros _|by auto].
Qed.

(** *** Life of the observer *)

Lemma base_started b w :
  base w → (b = true → kIntervalNs <= nextEnd_ (obs w) <= (clock (tick w)).1 + kIntervalNs) →
  base (onObs (set_started b) w).
Proof. intros [] ?. by split. Qed.

Lemma measuring_start w :
  base w → contiguous 0 (log_ w) → alive (obs w) → eligible_ (flowOf_ w) = true → videoStarted (flowOf_ w) = true →
  ∃ w', (let w := onObs (set_started true) w in let '(t, w) := now clock w in
         let w := scheduleTimeout kIntervalMs (onObs (startAt t) w) in
         w ← publish_ clock emptySummary "warming_up" w; Some (true, w)) = Some (true, w') ∧
    inv w' ∧ config_ (svc w') = config_ (svc w) ∧ running w' ∧ timer_ok (obs w').
Proof.
  intros Hb Hl Ha He Hv. cbn -[publish_]. set (w1 := scheduleTimeout _ _).
  assert (Hb1 : base w1).
  { destruct Hb. split; try done. cbn. intros _. pose proof (clock_steady (tick w) (S (tick w))). lia. }
  destruct (publish_empty "warming_up" w1 Hb1 Hl) as (w2 & -> & Hi & Ho & Hc & Hr); [done|done|].
  exists w2. split_and!; [done|done|done|by apply Hr|]. rewrite Ho. by apply timer_scheduled.
Qed.

Lemma measuring_ok w :
  inv w → ∃ b w', measuring clock w = Some (b, w') ∧ kept w w' ∧ (alive (obs w') ↔ alive (obs w)) ∧
    (b = true → running w').
Proof.
  intros Hw. pose proof Hw as (Hb & Hr & [Hl Hres]). unfold measuring.
  destruct (closed_ _) eqn:Ec; [by exists false, w; auto using kept_refl|].
  destruct (stopped_ _) eqn:Es; [by exists false, w; auto using kept_refl|].
  destruct (flow_ _) eqn:Ef; [|by exists false, w; auto using kept_refl]. cbn [orb negb].
  assert (Ha : alive (obs w)) by done. destruct (ba_entry _ Hb Ef Ec) as [f Hf].
  assert (Hff : flowOf_ w = f) by (unfold flowOf_, flowOf; by rewrite Hf). rewrite Hf. cbn [mbind option_bind].
  destruct (negb (eligible_ f) || negb (videoStarted f)) eqn:En.
  - eexists false, _. split; [done|]. destruct (started_ (obs w)) eqn:Est; [|by auto using kept_refl].
    assert (Hnr : ¬ running w).
    { intros []. rewrite Hff in *. by rewrite ru_eligible0, ru_video0 in En. }
    split_and!; [|done|done]. split; [|done|done|done].
    split; [|split; [intros Hst; by destruct (Hr Hst)|by split]].
    destruct Hb. by split.
  - apply orb_false_iff in En as [E1%negb_false_iff E2%negb_false_iff]. destruct (started_ (obs w)) eqn:Est.
    + exists true, w. split_and!; [done|by apply kept_refl|done|]. intros _. split; by rewrite ?Hff.
    + destruct (measuring_start w) as (w' & Ew & Hi & Hc & Hru & Ht); try done; [by rewrite Hff..|].
      exists true, w'. split; [exact Ew|]. split_and!; [by split|split; [done|by intros; apply Hru]|done].
Qed.

Lemma stop_ok reason w :
  inv w → reason ≠ "closed" → reason ≠ "ready" →
  ∃ w', stop clock reason w = Some w' ∧ inv w' ∧ timer_ok (obs w') ∧ config_ (svc w') = config_ (svc w).
Proof.
  intros (Hb & _ & [Hl _]) H1 H2. unfold stop. set (w1 := cancelTimeout _).
  destruct (publish_empty reason w1) as (w2 & -> & Hi & Ho & Hc & _); [|done|done|done|].
  - destruct Hb. by split.
  - exists w2. split_and!; [done|done| |done]. rewrite Ho. by intros (? & [=] & ?).
Qed.

Lemma closed_flow j t s s' :
  SbdService.close t j s = Some s' → summaries (flowOf j s') = summaries (flowOf j s) ∧
    status_ (flowOf j s') ≠ "ready" ∧ config_ s' = config_ s.
Proof.
  unfold SbdService.close. intros [Ef Ec]%onWei_frame. unfold flowOf. rewrite Ef, Ec.
  destruct (flows_ s !! j) as [f|] eqn:E1; cbn; [by rewrite lookup_insert_eq|]. by rewrite E1.
Qed.

Lemma closing_ok w :
  inv w → ∃ w', closing clock w = Some w' ∧ inv w' ∧ timer_ok (obs w') ∧ config_ (svc w') = config_ (svc w).
Proof.
  intros (Hb & _ & [Hl Hres]). unfold closing. set (w1 := cancelTimeout _). unfold call. cbn [serviceStep].
  destruct (service_step_ok (SClose (clock (tick w1)) (id_ (obs w1))) (svc w1) (ba_svc _ Hb)) as (s' & Es & Hs').
  cbn [serviceStep] in Es. rewrite Es. destruct (closed_flow _ _ _ _ Es) as (E1 & E2 & E3).
  cbn [mbind option_bind]. eexists. split; [done|]. split_and!; [|by intros (_ & _ & [=])|done].
  destruct (base_now w Hb). split_and!; [|done|split].
  - split; try done. unfold flowOf_ in *. cbn in *. by rewrite E1.
  - cbn. apply contiguous_app. by split.
  - unfold resumes, isOwd in *. cbn in *. by rewrite lastEnd_app, E3.
Qed.

Lemma framed_ok w s' k :
  inv w → svc_inv s' → framed (id_ (obs w)) (svc w) s' → (tick w ≤ k)%nat →
  ∀ l, contiguous (lastEnd 0 (log_ w)) l → lastEnd (lastEnd 0 (log_ w)) l = lastEnd 0 (log_ w) →
  inv (mkWorld (obs w) s' k (log_ w ++ l)).
Proof.
  intros (Hb & Hr & [Hl Hres]) Hs' [[Hd1 Hd2 Hd3] He Hc] Hk l Hl1 Hl2. pose proof (clock_steady (tick w) k Hk) as Hck.
  assert (Hru : status_ (flowOf (id_ (obs w)) s') = "ready" → running (mkWorld (obs w) s' k (log_ w ++ l)) ∧
                usable (summary (flowOf (id_ (obs w)) s'))).
  { intros Hst. destruct (Hd3 Hst) as (H1 & H2 & H3 & H4). destruct (Hr H1) as [[] Hu]. unfold flowOf_ in *.
    rewrite H2. split; [|done]. split; auto. }
  split_and!; [|done|split].
  - destruct Hb. unfold flowOf_ in *. split; unfold flowOf_; cbn; auto.
    + intros j m Hj. apply ba_summaries0. by eapply lookup_weaken.
    + intros Ho ?. by apply (ba_closed0 Ho), Hd2.
    + intros Hst. specialize (ba_next0 Hst). lia.
  - cbn. by apply contiguous_app.
  - unfold resumes, isOwd in *. cbn. by rewrite lastEnd_app, Hl2, Hc.
Qed.

(** An operation of another user of the service. *)
Lemma foreign_ok op w :
  inv w → foreign (id_ (obs w)) op →
  ∃ s, serviceStep op (svc w) = Some s ∧ inv (mkWorld (obs w) s (tick w) (log_ w)).
Proof.
  intros Hw Hf. pose proof Hw as (Hb & _). destruct (service_step_ok op (svc w) (ba_svc _ Hb)) as (s & Es & Hs).
  exists s. split; [done|]. rewrite <-(app_nil_r (log_ w)). by apply framed_ok; try apply (foreign_framed _ op).
Qed.

(** *** The timer *)

Lemma clockUs_interval t : kIntervalNs <= t → clockUs t = clockUs (t - kIntervalNs) + kIntervalUs.
Proof.
  unfold clockUs, kIntervalNs, kIntervalUs. intros Ht. rewrite !Z.quot_div_nonneg by lia.
  replace t with (t - 350000000 + 350000 * 1000) at 1 by lia. rewrite Z.div_add by lia. done.
Qed.

Lemma status_feedback_ok w :
  inv w → ∃ w', call clock (λ _, SStatus (id_ (obs w)) "waiting_feedback") w = Some w' ∧ kept w w'.
Proof.
  intros Hw. pose proof Hw as (Hb & _). unfold call. cbn [serviceStep mbind option_bind]. eexists. split; [done|].
  assert (Hi : inv (mkWorld (obs w) (SbdService.status (id_ (obs w)) "waiting_feedback" (svc w)) (S (tick w))
    (log_ w ++ [SStatus (id_ (obs w)) "waiting_feedback"]))).
  { apply framed_ok; cbn; [done| | |lia|done|done].
    - destruct (service_step_ok (SStatus (id_ (obs w)) "waiting_feedback") (svc w) (ba_svc _ Hb)) as (s & [= <-] & Hs). done.
    - unfold SbdService.status. destruct (flows_ _ !! _) as [f|] eqn:Ef; [|by apply framed_same].
      apply framed_set. intros _. unfold flowOf. rewrite Ef. by split. }
  split; [done| |done|].
  - cbn. unfold SbdService.status. by destruct (flows_ _ !! _).
  - intros []. split; try done; unfold flowOf_, flowOf, SbdService.status in *; cbn;
      destruct (flows_ (svc w) !! id_ (obs w)) as [f|] eqn:Ef; cbn; by rewrite ?lookup_insert_eq, ?Ef.
Qed.

Lemma applyLoss_frame e m l :
  let m' := (applyLoss e m l).2 in
  ready m' = ready m ∧ measurementValid m' = measurementValid m ∧ intervalStartUs m' = intervalStartUs m ∧
  intervalEndUs m' = intervalEndUs m.
Proof. done. Qed.

(** The observer publishes the interval that follows on the last one. *)
Lemma publish_next m st w :
  base w → running w → contiguous 0 (log_ w) → (lastEnd 0 (log_ w) ≠ 0 → intervalStartUs m = lastEnd 0 (log_ w)) →
  st ≠ "closed" → (st = "ready" → usable m) →
  ∃ w', publish_ clock m st w = Some w' ∧ base w' ∧ readyOk w' ∧ obs w' = obs w ∧
    config_ (svc w') = config_ (svc w) ∧ running w' ∧ contiguous 0 (log_ w') ∧ lastEnd 0 (log_ w') = intervalEndUs m ∧
    tick w' = S (tick w).
Proof.
  intros Hb Hr Hl Hm Hst Hu. destruct (publish_ok m st w Hb Hst) as (w' & -> & ? & ? & ? & ? & Hr' & ? & t & Ht); [by auto|].
  exists w'. split_and!; try done; [by auto|..]; rewrite ?Ht.
  - apply contiguous_app. cbn. split_and!; [done| |done]. destruct (Z.eq_dec (lastEnd 0 (log_ w)) 0); auto.
  - by rewrite lastEnd_app.
Qed.

Lemma finishTimer_ok t w :
  inv w → running w → isOwd w = false → nextEnd_ (obs w) <= t <= (clock (tick w)).1 →
  ∃ w', finishTimer clock w = Some w' ∧ inv w' ∧ config_ (svc w') = config_ (svc w) ∧ running w' ∧
    nextEnd_ (obs w') = nextEnd_ (obs w) + kIntervalNs.
Proof.
  intros (Hb & _ & [Hl Hres]) Hr Ho Ht. unfold finishTimer. destruct (finishInterval _) as [d m0].
  destruct (ba_next _ Hb (ru_started _ Hr)) as [Hn _]. pose proof (clockUs_interval _ Hn) as Hus.
  set (m1 := bounded _ _ m0). destruct (applyLoss _ _ _) as [l m] eqn:El.
  pose proof (applyLoss_frame (intervalEndUs m1) m1 (loss_ (obs w))) as Hm. rewrite El in Hm. cbn [snd] in Hm.
  destruct Hm as (M1 & M2 & M3 & M4). set (w1 := onObs _ w). cbn [m1 bounded intervalStartUs intervalEndUs] in M3, M4.
  assert (Hb1 : base w1) by (apply base_onObs; [done|done|apply Hb|apply Hb]).
  assert (Hr1 : running w1) by by apply running_onObs. unfold resumes in Hres. rewrite Ho in Hres.
  destruct (publish_next m (if ready m && measurementValid m then "ready" else "warming_up") w1 Hb1 Hr1 Hl)
    as (w2 & -> & Hb2 & Hy2 & Ho2 & Hc2 & Hr2 & Hl2 & He2 & Ht2).
  - intros Hne. rewrite M3. symmetry. apply Hres; [apply Hr|done].
  - by destruct (ready m && _).
  - destruct (ready m && measurementValid m) eqn:Er; [|done]. apply andb_true_iff in Er as [??]. intros _.
    split_and!; [done|done|]. rewrite M3, M4. done.
  - cbn [mbind option_bind]. eexists. split; [done|].
    assert (Hn2 : nextEnd_ (obs w2) = nextEnd_ (obs w)) by by rewrite Ho2.
    split_and!; [split_and!; [|by apply readyOk_onObs|split; [done|]]|done|by apply running_onObs|by cbn; rewrite Hn2].
    + apply base_onObs; [done|done|apply Hb2|]. intros Hs2. destruct (ba_next _ Hb2 Hs2) as [Hx _].
      pose proof (clock_steady (tick w) (tick w2) ltac:(rewrite Ht2; cbn; lia)) as Hck.
      cbn. rewrite Hn2 in Hx |- *. unfold kIntervalNs in *. lia.
    + intros Hs2 _. change (isOwd (onObs _ w2)) with (isOwd w2). unfold isOwd in *. rewrite Hc2.
      cbn. rewrite Ho, He2, M4, Hn2. f_equal. lia.
Qed.

Lemma reschedule_ok t w :
  inv w → running w → t < nextEnd_ (obs w) <= t + kIntervalNs →
  kept w (reschedule t w) ∧ timer_ok (obs (reschedule t w)).
Proof.
  intros Hw Hr Ht. apply kept_schedule; [done|apply Hr|]. unfold kIntervalNs in Ht.
  assert (0 <= Z.quot (nextEnd_ (obs w) - t) 1000000 <= 350); [|lia].
  rewrite Z.quot_div_nonneg by lia. split; [apply Z.div_pos; lia|].
  transitivity (350000000 / 1000000); [apply Z.div_le_mono; lia|done].
Qed.

Lemma onTimer_ok w :
  inv w → running w → ∃ w', onTimer clock w = Some w' ∧ kept w w' ∧ timer_ok (obs w').
Proof.
  intros Hi1 Hr1. destruct (kept_now w Hi1) as [Hi2 Hc2 _ Hr2]. specialize (Hr2 Hr1).
  pose proof (ba_next _ (proj1 Hi1) (ru_started _ Hr1)) as Hn. unfold onTimer. cbn [now] in *.
  set (w2 := mkWorld _ _ _ _) in *. cbn [snd] in *. set (t := (clock (tick w)).1) in *.
  assert (Ht2 : t <= (clock (tick w2)).1) by (apply clock_steady; cbn; lia).
  assert (Hw2 : ∀ w', inv w' → config_ (svc w') = config_ (svc w) → running w' → timer_ok (obs w') → kept w w') by by split.
  assert (Hrec : ∀ reason, reason ≠ "closed" → reason ≠ "ready" →
    ∃ w', recover clock reason w2 = Some w' ∧ kept w w' ∧ timer_ok (obs w')).
  { intros reason H1 H2. destruct (recover_ok reason w2) as (w' & -> & [] & ?); try done. exists w'. auto. }
  destruct (isOwd w2) eqn:Eo.
  - assert (∃ w3, (if kFeedbackTimeoutNs <=? t - lastFeedback_ (obs w2)
        then call clock (λ _, SStatus (id_ (obs w2)) "waiting_feedback") w2 else Some w2) = Some w3 ∧ kept w2 w3)
      as (w3 & -> & [Hi3 Hc3 _ Hr3]).
    { destruct (_ <=? _); [by apply status_feedback_ok|]. exists w2. auto using kept_refl. }
    cbn [mbind option_bind]. destruct (kept_schedule kIntervalMs w3) as [[] Ht]; [done|apply Hr3, Hr2|done|].
    eexists. split; [done|]. split; [|done]. apply Hw2; [done|by rewrite ke_config0, Hc3|by auto|done].
  - destruct (Z.leb_spec (nextEnd_ (obs w2)) t) as [Hle|Hlt].
    + destruct (Z.leb_spec kIntervalNs (t - nextEnd_ (obs w2))) as [?|Hlag]; [by apply Hrec|].
      destruct (_ =? 0); [by apply Hrec|].
      destruct (finishTimer_ok t w2) as (w3 & -> & Hi3 & Hc3 & Hr3 & Hn3); try done.
      cbn [mbind option_bind]. destruct (reschedule_ok t w3 Hi3 Hr3) as [[] Ht]; [unfold kIntervalNs in *; lia|].
      eexists. split; [done|]. split; [|done]. apply Hw2; [done|by rewrite ke_config0, Hc3|by auto|done].
    + destruct (reschedule_ok t w2 Hi2 Hr2) as [[] Ht]; [cbn in *; lia|]. eexists. auto.
Qed.

Lemma timeoutExpired_ok w :
  inv w → ∃ w', timeoutExpired clock w = Some w' ∧ inv w' ∧ config_ (svc w') = config_ (svc w) ∧
    (running w → running w') ∧ (alive (obs w) → timer_ok (obs w')) ∧ (¬ alive (obs w) → w' = w).
Proof.
  intros Hw. unfold timeoutExpired. pose proof Hw as (Hb & _).
  destruct (closed_ (obs w) || stopped_ (obs w)) eqn:Eg.
  { exists w. split_and!; try done. intros (_ & E1 & E2). by rewrite E1, E2 in Eg. }
  apply orb_false_iff in Eg as [Ec Es].
  assert (Ha : alive (obs w)).
  { split_and!; try done. destruct (flow_ (obs w)) eqn:Ef; [done|]. by rewrite (ba_attached _ Hb Ef) in Es. }
  destruct (measuring_ok w Hw) as (b & w1 & -> & [Hi1 Hc1 _ Hr1] & Ha1 & Hb1). cbn [mbind option_bind].
  destruct b; cbn [negb].
  - destruct (onTimer_ok w1 Hi1) as (w2 & -> & [] & Ht); [by auto|]. exists w2. split_and!; [done|done|congruence|by auto|done|done].
  - destruct (kept_schedule kIntervalMs w1 Hi1) as [[] ?]; [by apply Ha1|done|]. eexists. split; [done|].
    split_and!; [done|done|by auto|done|done].
Qed.

(** *** Feedback *)

(** Summaries of consecutive intervals of receiver time, from [n] on. *)
Fixpoint consecutive (n : Z) (ms : list Summary) : Prop :=
  match ms with
  | [] => True
  | m :: ms => (intervalStartUs m = n * kIntervalUs ∧ intervalEndUs m = (n + 1) * kIntervalUs) ∧ consecutive (n + 1) ms
  end.

Lemma finishLoop_next fuel (r : ReceiveIntervals (E := E)) n :
  SbdIntervals.next_ r = Some n →
  let '(r', l) := finishLoop fuel r in
  SbdIntervals.next_ r' = Some (n + Z.of_nat (length l)) ∧ consecutive n l.
Proof.
  revert r n. induction fuel as [|fuel IH]; intros r n Hn; cbn [finishLoop]; rewrite ?Hn.
  { cbn. split; [|done]. f_equal. lia. }
  destruct (_ <=? _); [|cbn; split; [|done]; rewrite Hn; f_equal; lia].
  unfold finishNext. destruct (est_finish _) as [e m]. set (r1 := mkReceive _ _ _ _ _ _).
  specialize (IH r1 (n + 1) eq_refl). destruct (finishLoop fuel r1) as [r' l]. destruct IH as [-> IH].
  split; [f_equal; cbn [length]; lia|]. by split.
Qed.

Lemma finishThrough_next t (r : ReceiveIntervals (E := E)) n :
  SbdIntervals.next_ r = Some n →
  let '(r', l) := finishThrough t r in
  SbdIntervals.next_ r' = Some (n + Z.of_nat (length l)) ∧ consecutive n l.
Proof.
  intros Hn. unfold finishThrough. rewrite Hn. destruct (t <? 0).
  - cbn. split; [|done]. rewrite Hn. f_equal. lia.
  - by apply finishLoop_next.
Qed.

Lemma receiveSample_next t x (r : ReceiveIntervals (E := E)) n :
  receive_ok r → SbdIntervals.next_ r = Some n → SbdIntervals.next_ (receiveSample t x r).1 = Some n.
Proof.
  intros [Hp _] Hn. destruct (proj2 (ro_first _ Hp)) as [f Hf]; [by rewrite Hn|].
  unfold receiveSample. destruct (_ || _ || _); [done|]. rewrite Hn, Hf. destruct (_ =? f); [done|].
  cbn. by destruct (_ || _ || _).
Qed.

(** A sample that is accepted starts the intervals. *)
Lemma receiveSample_started t x (r r' : ReceiveIntervals (E := E)) :
  receiveSample t x r = (r', true) → is_Some (SbdIntervals.next_ r').
Proof.
  unfold receiveSample. destruct (_ || _ || _); [done|].
  destruct (match SbdIntervals.next_ r, first_ r with Some n, Some f => (f, n) | _, _ => _ end) as [f n].
  destruct (_ =? f); [by intros [= <-]|]. cbn. destruct (_ || _ || _); [done|]. by intros [= <-].
Qed.

Lemma foldE_inv {A S} (P : S → Prop) (f : S → A → string + S) s l s' :
  P s → (∀ s x s', P s → f s x = inr s' → P s') → foldE f s l = inr s' → P s'.
Proof.
  intros Hs Hf. revert s Hs. induction l as [|x l IH]; intros s Hs; cbn; [by intros [= <-]|].
  destruct (f s x) eqn:E1; [done|]. eauto.
Qed.

Lemma foldE_reasons {A S} (R : string → Prop) (f : S → A → string + S) s l reason :
  (∀ s x e, f s x = inl e → R e) → foldE f s l = inl reason → R reason.
Proof.
  intros Hf. revert s. induction l as [|x l IH]; intros s; cbn; [done|].
  destruct (f s x) eqn:E1; [|eauto]. intros [= <-]. eauto.
Qed.

Definition recoverable (e : string) : Prop := e ≠ "closed" ∧ e ≠ "ready".

Lemma receiveOne_all (r : ReceiveIntervals (E := E)) l r' mark :
  receive_ok r → foldE receiveOne (r, None) l = inr (r', mark) →
  receive_ok r' ∧ (∀ n, SbdIntervals.next_ r = Some n → SbdIntervals.next_ r' = Some n) ∧
  (is_Some mark → is_Some (SbdIntervals.next_ r')).
Proof.
  intros Hr Hf.
  refine (foldE_inv (λ rw : ReceiveIntervals (E := E) * option Z, receive_ok rw.1 ∧
    (∀ n, SbdIntervals.next_ r = Some n → SbdIntervals.next_ rw.1 = Some n) ∧
    (is_Some rw.2 → is_Some (SbdIntervals.next_ rw.1))) _ _ _ _ _ _ Hf); clear r' mark Hf;
    [by split_and!; [| |intros [? [=]]]|].
  intros [r1 k] [rx tx] [r2 k2] (H1 & H2 & _). unfold receiveOne. cbn [fst snd]. destruct (flt _ _); [done|].
  destruct (receiveSample _ _ _) as [r3 []] eqn:Es; [|done]. intros [= <- <-]. cbn [fst snd].
  pose proof (receiveSample_ok rx (of_int (rx - clockUs tx)) r1 H1) as Hok. rewrite Es in Hok.
  split_and!; [done| |intros _; by eapply receiveSample_started].
  intros n Hn. pose proof (receiveSample_next rx (of_int (rx - clockUs tx)) r1 n H1 (H2 n Hn)) as Hx. by rewrite Es in Hx.
Qed.

Lemma receiveOne_reason (s : ReceiveIntervals (E := E) * option Z) x e : receiveOne s x = inl e → recoverable e.
Proof. unfold receiveOne. destruct (flt _ _); [by intros [= <-]|]. by destruct (receiveSample _ _ _) as [? []]; intros [=<-]. Qed.

Lemma ackEvent_reason owd start b a e : ackEvent owd start b a = inl e → recoverable e.
Proof.
  unfold ackEvent. destruct (_ || _); [done|]. destruct (foldE _ _ _) as [e'|] eqn:E1; [|done]. intros [= <-].
  eapply foldE_reasons; [|exact E1]. clear. intros b p e. unfold ackPacket. destruct (_ <? _); [done|].
  destruct (acknowledged _ _ _) as [? []]; [|by intros [= <-]]. destruct owd; [|done].
  destruct (receiveRelativeTimeStampUsec p); [|by intros [= <-]]. destruct (_ <? _); [by intros [= <-]|].
  destruct (_ <=? _); [by intros [= <-]|done].
Qed.

Lemma reportPacket_reason report start l p e : reportPacket report start l p = inl e → recoverable e.
Proof. unfold reportPacket. destruct (_ || _); [done|]. by destruct (report _ _ _) as [? []]; [|intros [= <-]]. Qed.

(** What publishing intervals leaves of the observer. *)
Definition sameReceiver (o o' : Observer) : Prop :=
  samePhase o o' ∧ receiver_ o' = receiver_ o ∧ timer_ o' = timer_ o.

Lemma publishInterval_ok m n w :
  base w → running w → contiguous 0 (log_ w) → (lastEnd 0 (log_ w) ≠ 0 → lastEnd 0 (log_ w) = n * kIntervalUs) →
  intervalStartUs m = n * kIntervalUs → intervalEndUs m = (n + 1) * kIntervalUs →
  ∃ w', publishInterval clock m w = Some w' ∧ base w' ∧ readyOk w' ∧ running w' ∧ config_ (svc w') = config_ (svc w) ∧
    contiguous 0 (log_ w') ∧ lastEnd 0 (log_ w') = (n + 1) * kIntervalUs ∧ sameReceiver (obs w) (obs w').
Proof.
  intros Hb Hr Hl Hn Hs He. unfold publishInterval. destruct (applyLoss _ _ _) as [l m1] eqn:El.
  pose proof (applyLoss_frame (intervalEndUs m) m (loss_ (obs w))) as Hm. rewrite El in Hm. cbn [snd] in Hm.
  destruct Hm as (_ & _ & M3 & M4). rewrite Hs in M3. rewrite He in M4. clear El.
  set (p := if bool_decide _ then _ else _).
  assert (Hp : intervalStartUs p.1 = n * kIntervalUs ∧ intervalEndUs p.1 = (n + 1) * kIntervalUs)
    by (unfold p; by case_bool_decide).
  clearbody p. destruct p as [m2 dc]. cbn [fst] in Hp. destruct Hp as [P1 P2]. set (w1 := onObs _ w).
  destruct (publish_next m2 (statusOf m2) w1) as (w2 & -> & Hb2 & Hy2 & Ho2 & Hc2 & Hr2 & Hl2 & He2 & _).
  - apply base_onObs; [done|done|apply Hb|apply Hb].
  - by apply running_onObs.
  - done.
  - intros Hne. rewrite P1. symmetry. by apply Hn.
  - unfold statusOf. destruct (_ =? 0); [done|]. destruct (negb _); [done|]. by destruct (measurementValid m2).
  - unfold statusOf. destruct (_ =? 0); [done|]. destruct (ready m2) eqn:E1; [|done].
    destruct (measurementValid m2) eqn:E2; [|done]. intros _. split_and!; [done|done|lia].
  - exists w2. split_and!; try done; [by rewrite He2|]. unfold sameReceiver. by rewrite Ho2.
Qed.

Lemma publishIntervals_ok ms : ∀ n w,
  base w → readyOk w → running w → contiguous 0 (log_ w) →
  (lastEnd 0 (log_ w) ≠ 0 → lastEnd 0 (log_ w) = n * kIntervalUs) → consecutive n ms →
  ∃ w', publishIntervals clock ms w = Some w' ∧ base w' ∧ readyOk w' ∧ running w' ∧ config_ (svc w') = config_ (svc w) ∧
    contiguous 0 (log_ w') ∧ (lastEnd 0 (log_ w') ≠ 0 → lastEnd 0 (log_ w') = (n + Z.of_nat (length ms)) * kIntervalUs) ∧
    sameReceiver (obs w) (obs w').
Proof.
  induction ms as [|m ms IH]; intros n w Hb Hy Hr Hl Hn; cbn [publishIntervals consecutive].
  { intros _. exists w. split_and!; try done. cbn. by rewrite Z.add_0_r. }
  intros [[H1 H2] Hms]. destruct (publishInterval_ok m n w) as (w1 & -> & Hb1 & Hy1 & Hr1 & Hc1 & Hl1 & He1 & [[] [E1 E2]]); try done.
  cbn [mbind option_bind]. destruct (IH (n + 1) w1) as (w2 & -> & Hb2 & Hy2 & Hr2 & Hc2 & Hl2 & He2 & [[] [E3 E4]]); try done.
  exists w2. split_and!; try done; [congruence| |].
  - intros Hne. rewrite (He2 Hne). cbn [length]. f_equal. lia.
  - split_and!; [split|..]; congruence.
Qed.

Lemma kept_receiver w w' : sameReceiver (obs w) (obs w') → timer_ok (obs w) → timer_ok (obs w').
Proof. intros (Hp & _ & Ht). unfold timer_ok. rewrite Ht. by destruct (timer_ (obs w)); rewrite (alive_phase _ _ Hp). Qed.

Lemma processBatch_ok b w :
  inv w → running w → ∃ w', processBatch clock b w = Some w' ∧ kept w w'.
Proof.
  intros Hw Hr. unfold processBatch.
  set (w1 := onObs _ w). assert (K1 : kept w w1) by by apply kept_onObs; try apply Hw.
  set (w2 := if b_outcomes b =? 0 then w1 else _).
  assert (K2 : kept w w2 ∧ receiver_ (obs w2) = receiver_ (obs w) ∧ isOwd w2 = isOwd w).
  { unfold w2. destruct (_ =? 0); [done|]. split_and!; [|done|done]. eapply kept_trans; [exact K1|].
    eapply kept_trans; [apply kept_now, K1|]. apply kept_onObs; try done; [apply kept_now, K1|apply K1]. }
  clearbody w2. clear w1 K1. destruct K2 as (K2 & Erx & Eo). pose proof (ke_running _ _ K2 Hr) as Hr2.
  rewrite <-Erx. destruct (ke_inv _ _ K2) as (Hb2 & Hy2 & [Hl2 Hres2]).
  destruct (foldE receiveOne _ _) as [reason|[r mark]] eqn:Ef.
  - apply foldE_reasons with (R := recoverable) in Ef; [|exact receiveOne_reason]. destruct Ef.
    destruct (recover_ok reason w2) as (w3 & -> & K3 & _); [apply K2|done|done|done|]. exists w3. split; [done|].
    by eapply kept_trans.
  - destruct (receiveOne_all _ _ _ _ (ba_receiver _ Hb2) Ef) as (Hok & Hnx & Hmk).
    assert (K3 : kept w2 (onObs (λ o, set_measures (detector_ o) r (loss_ o) (dcPreviouslyBottlenecked_ o) (obsSamples_ o) o) w2))
      by (apply kept_onObs; try done; apply K2).
    assert (K3' := kept_trans _ _ _ K2 K3). destruct mark as [t|]; [|by eauto].
    destruct (isOwd w2) eqn:Eo2; [|by eauto]. destruct (Hmk ltac:(done)) as [n Hn].
    pose proof (finishThrough_next t r n Hn) as Hft. pose proof (finishThrough_ok t r Hok) as Hok'.
    destruct (finishThrough t r) as [r' ms]. destruct Hft as [Hn' Hms]. cbn [fst] in Hok'.
    set (w4 := onObs _ w2).
    destruct (publishIntervals_ok ms n w4) as (w5 & -> & Hb5 & Hy5 & Hr5 & Hc5 & Hl5 & He5 & Hsr); [..|done|].
    + apply base_onObs; [done|done|done|apply Hb2].
    + by apply readyOk_onObs.
    + by apply running_onObs.
    + done.
    + change (log_ w4) with (log_ w2). intros Hne. unfold resumes in Hres2. rewrite Eo2 in Hres2. destruct (Hres2 (ru_started _ Hr2) Hne) as (n' & Hn2 & ->).
      specialize (Hnx _ Hn2). congruence.
    + exists w5. split; [done|]. apply (kept_trans _ _ _ K2). split; [|done|by apply (kept_receiver w4)|done].
      split_and!; [done|done|]. split; [done|]. intros _ Hne. unfold isOwd in *. rewrite Hc5. cbn. rewrite Eo2.
      exists (n + Z.of_nat (length ms)). split; [|by apply He5]. destruct Hsr as (_ & -> & _). done.
Qed.

(** *** Handlers *)

Lemma acksProcessed_ok peer acks w :
  inv w → timer_ok (obs w) → ∃ w', acksProcessed clock peer acks w = Some w' ∧ inv w' ∧ timer_ok (obs w').
Proof.
  intros Hw Ht. unfold acksProcessed. destruct (measuring_ok w Hw) as (b & w1 & -> & K1 & _ & Hr1).
  cbn [mbind option_bind]. pose proof (ke_timer _ _ K1 Ht) as Ht1. pose proof (ke_inv _ _ K1) as Hi1.
  destruct b; cbn [negb]; [|by eauto]. specialize (Hr1 eq_refl).
  case_bool_decide; cbn [negb]; [|destruct (stop_ok "stopped_path_changed" w1) as (w2 & -> & ? & ? & _); by eauto].
  assert (∃ w2, (if isOwd w1 then Some w1 else let '(t, w) := now clock w1 in
      if nextEnd_ (obs w) <=? t then timeoutExpired clock w else Some w) = Some w2 ∧ kept w1 w2) as (w2 & -> & K2).
  { destruct (isOwd w1); [eauto using kept_refl|]. pose proof (kept_now w1 Hi1) as Kn. cbn [now] in *.
    set (wn := mkWorld _ _ _ _) in *. cbn [snd] in Kn. destruct (_ <=? _); [|by eauto].
    destruct (timeoutExpired_ok wn (ke_inv _ _ Kn)) as (w2 & -> & Hi2 & Hc2 & Hr2 & Ht2 & _). exists w2. split; [done|].
    apply (kept_trans _ _ _ Kn). split; [done|done|intros _; apply Ht2, Hr1|done]. }
  cbn [mbind option_bind]. pose proof (ke_running _ _ K2 Hr1) as Hr2. pose proof (ke_inv _ _ K2) as Hi2.
  destruct (foldE _ _ _) as [reason|b] eqn:Ef.
  - apply foldE_reasons with (R := recoverable) in Ef; [|apply ackEvent_reason]. destruct Ef.
    destruct (recover_ok reason w2) as (w3 & -> & K3 & ?); try done. exists w3. split_and!; [done|apply K3|done].
  - destruct (processBatch_ok b w2 Hi2 Hr2) as (w3 & -> & K3). exists w3. split_and!; [done|apply K3|].
    apply K3, K2, Ht1.
Qed.

(** A handler of packet reports: the ledger takes them, or the history restarts. *)
Lemma reports_ok report packets after w :
  inv w → running w → timer_ok (obs w) →
  (∀ w, inv w → kept w (after w)) →
  ∃ w', match foldE (reportPacket report (measurementStart_ (obs w))) (loss_ (obs w)) packets with
        | inl reason => recover clock reason w
        | inr l => Some (after (onObs (set_loss l) w))
        end = Some w' ∧ inv w' ∧ timer_ok (obs w').
Proof.
  intros Hw Hr Ht Hafter. destruct (foldE _ _ _) as [reason|l] eqn:Ef.
  - apply foldE_reasons with (R := recoverable) in Ef; [|apply reportPacket_reason]. destruct Ef.
    destruct (recover_ok reason w) as (w' & -> & K & ?); try done. exists w'. split_and!; [done|apply K|done].
  - assert (K : kept w (onObs (set_loss l) w)) by by apply kept_onObs; try apply Hw.
    pose proof (Hafter _ (ke_inv _ _ K)) as K'. eexists. split_and!; [done|apply K'|apply K', K, Ht].
Qed.

Lemma packetLossDetected_ok lost w :
  inv w → timer_ok (obs w) → ∃ w', packetLossDetected clock lost w = Some w' ∧ inv w' ∧ timer_ok (obs w').
Proof.
  intros Hw Ht. unfold packetLossDetected. destruct (measuring_ok w Hw) as (b & w1 & -> & K1 & _ & Hr1).
  cbn [mbind option_bind]. pose proof (ke_timer _ _ K1 Ht). pose proof (ke_inv _ _ K1).
  destruct b; cbn [negb]; [|by eauto]. apply (reports_ok _ _ (λ w, w)); auto using kept_refl.
Qed.

Lemma spuriousLossDetected_ok packets w :
  inv w → timer_ok (obs w) → ∃ w', spuriousLossDetected clock packets w = Some w' ∧ inv w' ∧ timer_ok (obs w').
Proof.
  intros Hw Ht. unfold spuriousLossDetected. destruct (measuring_ok w Hw) as (b & w1 & -> & K1 & _ & Hr1).
  cbn [mbind option_bind]. pose proof (ke_timer _ _ K1 Ht). pose proof (ke_inv _ _ K1).
  destruct b; cbn [negb]; [|by eauto].
  apply (reports_ok _ _ (λ w, let '(t, w) := now clock w in onObs (set_feedback t) w)); [done|by auto|done|].
  intros w2 Hw2. apply (kept_trans _ _ _ (kept_now w2 Hw2)). cbn [now snd].
  apply kept_onObs; try done; [apply (kept_now w2 Hw2)|apply Hw2].
Qed.

Lemma obsDestroy_ok w :
  inv w → ∃ w', destroy clock w = Some w' ∧ timer_ (obs w') = None.
Proof.
  intros (Hb & _). unfold destroy. destruct (closed_ _); [by eauto|]. unfold call. cbn [serviceStep].
  destruct (service_step_ok (SClose (clock (tick w)) (id_ (obs w))) (svc w) (ba_svc _ Hb)) as (s' & Es & _).
  cbn [serviceStep] in Es. eexists. by split; [cbn; rewrite Es|].
Qed.

Definition foreignEvent (e : ObsEvent) : Prop := match e with EService op => foreign i op | _ => True end.

Lemma obsStep_ok e w :
  inv w → timer_ok (obs w) → foreignEvent e → ∃ w', obsStep clock e w = Some w' ∧ inv w' ∧ timer_ok (obs w').
Proof.
  intros Hw Ht Hf. destruct e as [peer acks|lost|packets| | |op]; cbn [obsStep].
  - by apply acksProcessed_ok.
  - by apply packetLossDetected_ok.
  - by apply spuriousLossDetected_ok.
  - unfold timer_ok in Ht. destruct (timer_ (obs w)) as [d|] eqn:Et; [|exists w; unfold timer_ok; by rewrite Et].
    destruct Ht as [Ha _]. assert (Hi : inv (cancelTimeout w)).
    { destruct Hw as (Hb & Hy & []). split_and!; [by apply base_onObs; try apply Hb|by apply readyOk_onObs|by split]. }
    destruct (timeoutExpired_ok _ Hi) as (w' & -> & ? & _ & _ & Ht' & _). exists w'. split_and!; [done|done|by apply Ht'].
  - destruct (closing_ok w Hw) as (w' & -> & ? & ? & _). eauto.
  - destruct (foreign_ok op w Hw) as (s & -> & Hs); [by rewrite (ba_id _ (proj1 Hw))|]. cbn. eauto.
Qed.

Lemma obsRun_ok es : ∀ w,
  inv w → timer_ok (obs w) → Forall foreignEvent es → ∃ w', obsRun clock es w = Some w' ∧ inv w' ∧ timer_ok (obs w').
Proof.
  induction es as [|e es IH]; intros w Hw Ht Hes; cbn; [by eauto|]. apply Forall_cons in Hes as [He Hes].
  destruct (obsStep_ok e w Hw Ht He) as (w1 & -> & Hi1 & Ht1). cbn. by apply IH.
Qed.

(** *** Creation *)

(** The service before the observer: others may have made the flow eligible. *)
Lemma service_before c ops :
  Forall (foreign i) ops →
  ∃ s, serviceRun ops (newService c) = Some s ∧ svc_inv s ∧ summaries (flowOf i s) = ∅ ∧
    status_ (flowOf i s) ≠ "closed" ∧ status_ (flowOf i s) ≠ "ready" ∧ config_ s = c.
Proof.
  assert (Hrun : ∀ ops s, Forall (foreign i) ops → svc_inv s → summaries (flowOf i s) = ∅ →
    status_ (flowOf i s) ≠ "closed" → status_ (flowOf i s) ≠ "ready" →
    ∃ s', serviceRun ops s = Some s' ∧ svc_inv s' ∧ summaries (flowOf i s') = ∅ ∧
      status_ (flowOf i s') ≠ "closed" ∧ status_ (flowOf i s') ≠ "ready" ∧ config_ s' = config_ s).
  { clear. induction ops as [|op ops IH]; intros s Hf Hs H1 H2 H3; cbn; [by eauto 10|].
    apply Forall_cons in Hf as [Hop Hf]. destruct (service_step_ok op s Hs) as (s1 & Es & Hs1). rewrite Es. cbn.
    destruct (foreign_framed i op s s1 Hop Es) as [[D1 D2 D3] _ <-].
    apply IH; try done; [|by auto|intros Hst; by destruct (D3 Hst)].
    apply map_empty. intros k. rewrite H1 in D1. destruct (summaries (flowOf i s1) !! k) eqn:Ek; [|done]. by eapply lookup_weaken in D1; [|exact Ek]. }
  intros Hf. apply (Hrun ops (newService c)); [done|apply newService_inv|done..].
Qed.

Lemma create_ok server client peer s :
  svc_inv s → summaries (flowOf i s) = ∅ → status_ (flowOf i s) ≠ "closed" → status_ (flowOf i s) ≠ "ready" →
  i = default EmptyString (connectionId server client) →
  ∃ w, create clock server client peer s 0 = Some w ∧ inv w ∧ timer_ok (obs w).
Proof.
  intros Hs H1 H2 H3 Hi. unfold create. destruct (connectionId server client) as [j|]; cbn in Hi.
  - subst j. unfold call. destruct (service_step_ok (SAttach i peer) s Hs) as (s1 & Es & Hs1). cbn [svc]. rewrite Es.
    cbn [mbind option_bind]. eexists. split; [done|]. split; [|by apply timer_scheduled].
    destruct (foreign_framed i (SAttach i peer) s s1 I Es) as [[D1 D2 D3] _ _].
    assert (Hin : is_Some (flows_ s1 !! i)).
    { cbn [serviceStep] in Es. apply onWei_frame in Es as [-> _]. cbn. by rewrite lookup_insert_eq. }
    split_and!; [|intros Hst; by destruct (D3 Hst)|by split].
    split; unfold flowOf_; cbn; try done; [|by auto].
    rewrite H1 in D1. intros k m Hk. by eapply lookup_weaken in D1; [|exact Hk].
  - eexists. split; [done|]. split; [|by intros [[=] _]]. rewrite Hi in H1, H2, H3.
    split_and!; [|done|by split]. split; unfold flowOf_; cbn; try done. by rewrite H1.
Qed.
End Invariant.

(** ** Theorems *)

(** The connection of the observer, with what went before it. *)
Definition observed {E} `{!Estimator E} (clock : nat → Z * Z) (c : Config) (pre : list ServiceOp)
    (server client : option string) (peer : string) (es : list ObsEvent) : option (World (E := E)) :=
  s ← serviceRun pre (newService c);
  w ← create clock server client peer s 0;
  obsRun clock es w.

Section Theorems.
Context {E : Type} `{!Estimator E}.
Variable clock : nat → Z * Z.
Hypothesis clock_steady : ∀ j k, (j ≤ k)%nat → 0 <= (clock j).1 <= (clock k).1.
Variables (c : Config) (server client : option string) (peer : string).
Variables (pre : list ServiceOp) (es : list ObsEvent).
Let i : string := default EmptyString (connectionId server client).
Hypothesis pre_foreign : Forall (foreign i) pre.
Hypothesis es_foreign : Forall (foreignEvent i) es.

Lemma observed_ok :
  ∃ w : World (E := E), observed clock c pre server client peer es = Some w ∧ inv clock i w ∧ timer_ok (obs w).
Proof.
  destruct (service_before i c pre pre_foreign) as (s & Es & Hs & H1 & H2 & H3 & _). unfold observed. rewrite Es. cbn.
  destruct (create_ok clock i server client peer s Hs H1 H2 H3 eq_refl) as (w0 & -> & Hw0 & Ht0). cbn.
  by apply (obsRun_ok clock i clock_steady).
Qed.


(** C35: In the same runs the intervals that the observer publishes follow on one
    another without gap or overlap, except where an empty summary tells the
    service that the history restarts, and the timer is never lost: it is
    scheduled, between 1 and 350 ms ahead, exactly as long as the observer has
    neither stopped nor closed; the destructor then still closes the flow and
    leaves no timer. *)
Theorem observer_intervals_contiguous :
  ∃ w : World (E := E), observed clock c pre server client peer es = Some w ∧
    contiguous 0 (log_ w) ∧
    (alive (obs w) → ∃ d, timer_ (obs w) = Some d ∧ 1 <= d <= 350) ∧
    (¬ alive (obs w) → timer_ (obs w) = None) ∧
    ∃ w', destroy clock w = Some w' ∧ timer_ (obs w') = None.
Proof.
  destruct observed_ok as (w & -> & Hi & Ht). exists w. split; [done|].
  split_and!; [apply Hi| | |by apply (obsDestroy_ok clock i)]; unfold timer_ok in Ht; destruct (timer_ (obs w)) as [d|].
  - destruct Ht. eauto.
  - done.
  - by destruct Ht.
  - done.
Qed.
End Theorems.
