(* ===== verification/SbdObserverExamples.v ===== *)
(** * Examples of the observer of a connection

    A viewer measured from its first video to a group with a second one, at
    which the theorems are applied and the definitions evaluated. *)

From Stdlib Require Import SpecFloat.
From S2P Require Import Prelude SbdDetector SbdGroups SbdDc SbdIntervals SbdLoss SbdService SbdObserver.
From S2P Require Import SbdObserverTheorems.

Module SbdObserverExamples.

(** A reading of the clock every 50 milliseconds, from one second on. *)
Definition clockSample (k : nat) : Z * Z := (1000000000 + 50000000 * Z.of_nat k, 0).

Lemma clockSample_steady j k : (j ≤ k)%nat → 0 <= (clockSample j).1 <= (clockSample k).1.
Proof. unfold clockSample. cbn [fst]. lia. Qed.

Definition owdConfig : Config := mkConfig true "owd" "DcSBD".

(** Packet [n] is sent after ten seconds and received in interval [n + 30],
    later and later. *)
Definition packetSample (n : Z) : AckedPacket :=
  mkAcked n ((10000000 + n * 350000) * 1000) (Some (10600000 + n * 350000 + n * 1000)).

Definition ackSample (n : nat) : ObsEvent :=
  EAcks "peer" [mkAckEvent false true ((λ k, packetSample (Z.of_nat (6 * n + k))) <$> seq 0 6) None None].

Definition viewerEvents : list ObsEvent :=
  [EService (SEligible (0, 0) "a" true); EService (SVideo "a")] ++ (ackSample <$> seq 0 6).

Definition runSample (es : list ObsEvent) : option (World (E := DcEstimator)) :=
  observed clockSample owdConfig [] (Some "a") None "peer" es.

(** The second connection publishes a like summary of the same interval. *)
Definition likeSummary : Summary :=
  mkSummary 34 1 34 0 30 30 100 (of_int (-1)) fzero (of_int 1 / of_int 50)%D fzero fzero (of_int 620000)
    (of_int 620000) (of_int 620000) 22400000 22750000 true true.

Definition sampleEvents : list ObsEvent :=
  viewerEvents ++
  [EService (SAttach "b" "other"); EService (SEligible (0, 0) "b" true); EService (SVideo "b");
   EService (SPublish 3000000000 "b" likeSummary "ready")].

Lemma sampleEvents_foreign : Forall (foreignEvent "a") sampleEvents.
Proof. cbn. repeat constructor; discriminate. Qed.

(** The worker puts both in one group. *)
Lemma sample_grouped :
  lastGroups_ <$> (runSample sampleEvents ≫= λ w, snapshot 3200000000 (svc w)) = Some [["a"; "b"]].
Proof. vm_compute. reflexivity. Qed.


(** The same viewer measured by round trips, until its path changes. *)
Definition rttConfig : Config := mkConfig true "rtt" "PracticalPassiveAndRFC".

Definition rttSampleEvent (peer : string) (n : Z) : ObsEvent :=
  EAcks peer [mkAckEvent false true [packetSample n] (Some (packetSample n)) (Some (20000 + 100 * n))].

Definition rttEvents : list ObsEvent :=
  [EService (SEligible (0, 0) "a" true); EService (SVideo "a"); rttSampleEvent "peer" 1; rttSampleEvent "peer" 2;
   rttSampleEvent "peer" 3; rttSampleEvent "peer" 4; rttSampleEvent "peer" 5; ETimer; rttSampleEvent "peer" 6;
   rttSampleEvent "peer" 7; rttSampleEvent "peer" 8; rttSampleEvent "elsewhere" 9].

Lemma rttEvents_foreign : Forall (foreignEvent "a") rttEvents.
Proof. cbn. repeat constructor. Qed.

(** The ends of the intervals and the statuses that are published. *)
Definition publishedBy (w : World (E := Detector)) : list (Z * string) :=
  omap (λ op, match op with SPublish _ _ m st => Some (intervalEndUs m, st) | _ => None end) (log_ w).

Lemma observer_intervals_contiguous_witness :
  ∃ w : World (E := Detector), observed clockSample rttConfig [] (Some "a") None "peer" rttEvents = Some w ∧
    publishedBy w = [(0, "warming_up"); (1400000, "warming_up"); (1750000, "warming_up"); (0, "stopped_path_changed")] ∧
    contiguous 0 (log_ w) ∧ timer_ (obs w) = None.
Proof.
  destruct (observer_intervals_contiguous (E := Detector) clockSample clockSample_steady rttConfig (Some "a") None "peer" []
    rttEvents (Forall_nil_2 _) rttEvents_foreign) as (w & Ew & Hc & _ & Ht & _).
  exists w. split; [exact Ew|].
  assert (Hv : (λ w : World (E := Detector), (publishedBy w, stopped_ (obs w))) <$>
    observed clockSample rttConfig [] (Some "a") None "peer" rttEvents =
    Some ([(0, "warming_up"); (1400000, "warming_up"); (1750000, "warming_up"); (0, "stopped_path_changed")], true))
    by (vm_compute; reflexivity).
  rewrite Ew in Hv. injection Hv as Hp Hs. split; [exact Hp|]. split; [exact Hc|]. apply Ht.
  intros (_ & Hs' & _). rewrite Hs in Hs'. discriminate.
Defined.
End SbdObserverExamples.
