(* ===== verification/SbdExamples.v ===== *)
(** * Examples of the shared-bottleneck detection

    Concrete flows, summaries and reports, at which the theorems are applied
    and the definitions evaluated. *)

From Stdlib Require Import SpecFloat.
From S2P Require Import Prelude SbdDetector SbdGroups SbdDc SbdIntervals SbdLoss SbdService.

Module SbdExamples.

(** A summary that is ready, bottlenecked and has the given skew and
    frequency. *)
Definition metricsOf (sk fr : double) : Summary :=
  mkSummary 120 10 90 10 50 100 100 sk (of_int 5) fr (scaled 1 (-4)) (of_int 5) (of_int 20) (of_int 10)
    (of_int 30) 350000 700000 true true.

Definition flowA : FlowSummary := mkFlow "a" (metricsOf (of_int (-1)) (scaled 1 (-2))).
Definition flowB : FlowSummary := mkFlow "b" (metricsOf (of_int (-1)) (scaled 1 (-2))).
Definition flowC : FlowSummary := mkFlow "c" (metricsOf (of_int (-1)) (of_int 1)).

Lemma group_sound_witness :
  group [flowC; flowB; flowA] = [["a"; "b"]] ∧ group [flowA; flowB; flowC] = [["a"; "b"]].
Proof.
  assert (Hn : NoDup (id <$> [flowC; flowB; flowA])) by (apply (bool_decide_unpack _); vm_compute; exact I).
  destruct (group_sound [flowC; flowB; flowA] Hn) as (_ & _ & Hperm).
  assert (E : group [flowC; flowB; flowA] = [["a"; "b"]]) by (vm_compute; reflexivity).
  split; [exact E|]. rewrite <-E. symmetry. apply Hperm.
  - intros f Hf _. repeat (apply elem_of_cons in Hf as [->|Hf]; [vm_compute; reflexivity|]).
    by apply elem_of_nil in Hf.
  - exact (Permutation_rev [flowC; flowB; flowA]).
Defined.

Lemma dc_update_sound_witness :
  ∃ c r, update [flowC; flowB; flowA] newClusterer = Some (c, r) ∧ r = [["a"; "b"]] ∧
    classified (classes_ c) [flowC; flowB; flowA].
Proof.
  assert (Hn : NoDup (id <$> [flowC; flowB; flowA])) by (apply (bool_decide_unpack _); vm_compute; exact I).
  assert (Hc : clusterer_ok newClusterer).
  { split; [reflexivity || (cbn; lia)|]. intros i k. cbn. rewrite lookup_empty. discriminate. }
  destruct (dc_update_sound [flowC; flowB; flowA] newClusterer Hn Hc) as (c & r & E & _ & _ & _ & _ & Hcl).
  exists c, r. split; [exact E|]. split; [|exact Hcl]. vm_compute in E. injection E as _ <-. reflexivity.
Defined.

(** Three samples of the second and third interval after the first sample. *)
Definition receiveSampleRun : list ReceiveOp :=
  [RSample 100 (of_int 7); RSample 400000 (of_int 8); RSample 750000 (of_int 9); RSample 760000 (of_int 10)].


(** The estimator over fifty-two intervals: the loss counts of the first two
    have left the window. *)
Example detector_window_slides :
  last (acked <$> detectorRun
    (mjoin ((λ n, [OSample (of_int n); OOutcomes n 0; OFinish]) <$> (Z.of_nat <$> seq 1 52))) newDetector)
  = Some (foldl Z.add 0 (Z.of_nat <$> seq 3 50)).
Proof. vm_compute. reflexivity. Qed.

(** A worker round groups two ready viewers by their latest common interval. *)
Definition serviceSample : list ServiceOp :=
  [SAttach "a" "pa"; SAttach "b" "pb"; SEligible (0, 0) "a" true; SEligible (0, 0) "b" true;
   SPublish 1000 "a" (metrics flowA) "ready"; SPublish 1000 "b" (metrics flowB) "ready"; SSnapshot 2000].

Example service_groups :
  option_map lastGroups_ (serviceRun serviceSample (newService (mkConfig true "owd" "PracticalPassiveAndRFC"))) =
  Some [["a"; "b"]].
Proof. vm_compute. reflexivity. Qed.

End SbdExamples.
