(* ===== verification/CrossExec.v ===== *)
(** * Cross-executor filters: data and operations

    Models [src/src/relay/CrossExecFilter.{h,cpp}] and
    [src/src/relay/SubgroupConsumerUtil.h]: consumers whose calls are made on
    one thread (the source) and forwarded on another (the target executor)
    through its FIFO queue.

    - The queue of the target executor is a list of [Lambda]s; a source call
      appends to it, a step of the target runs its head.
    - Subgroup and fetch filters live in [filters] and are named by numbers.
      What keeps one alive is explicit: the reference of the source ([held]),
      the filter's own [selfGuard_], and the shared pointers that queued
      lambdas have captured ([captures]).  A lambda that uses [this] of a filter
      that nothing keeps alive is a use after free: [None].
    - What the downstream consumer answers is an argument of the lambda.
      [Event]s record the calls that were accepted and what became of them. *)

From S2P Require Import Prelude.

(** ** Payloads

    [moxygen::Payload] is a unique pointer to folly's [IOBuf], a chain of
    reference-counted buffers.  The filters use the length of a chain and the
    copy made by [cloneCoalesced] and [unshare]. *)

Class IOBufOps (IOBuf : Type) := {
  bytes : IOBuf → list Z;
  isShared : IOBuf → bool;
  computeChainDataLength : IOBuf → Z;
  cloneCoalesced : IOBuf → IOBuf;
  unshare : IOBuf → IOBuf
}.

Class IOBufLaws (IOBuf : Type) `{IOBufOps IOBuf} := {
  chain_length b : computeChainDataLength b = Z.of_nat (length (bytes b));
  bytes_clone b : bytes (cloneCoalesced b) = bytes b;
  bytes_unshare b : bytes (unshare b) = bytes b;
  clone_unshared b : isShared (unshare (cloneCoalesced b)) = false
}.

(** Values of [moxygen::MoQPublishError::Code] that the filters name. *)
Class PublishErrorCodes := {
  WRITE_ERROR : Z;
  CANCELLED : Z
}.

(** A code fits the 32 bits it is stored in and is not 0, which means open. *)
Definition is_code (e : Z) : Prop := 0 < e < 2 ^ 32.

Class PublishErrorLaws `{PublishErrorCodes} := {
  write_error_code : is_code WRITE_ERROR;
  cancelled_code : is_code CANCELLED
}.

Section Filters.
Context {IOBuf : Type} `{IOBufOps IOBuf} `{PublishErrorCodes}
        {Extensions Header Done : Type}.

Definition Payload : Type := option IOBuf.

Definition maybeDeepCopy (payload : Payload) (deepCopy : bool) : Payload :=
  match payload with
  | Some b => if deepCopy then Some (unshare (cloneCoalesced b)) else payload
  | None => payload
  end.

(** ** ObjectPayloadByteTracker *)

Inductive ObjectPublishStatus := DONE | IN_PROGRESS.

Definition trackerBeginObject (length : Z) (initialPayload : Payload) : Z :=
  match initialPayload with
  | Some b => length - Z.min length (computeChainDataLength b)
  | None => length
  end.

Definition consume (remaining : Z) (payload : Payload) : Z * ObjectPublishStatus :=
  let remaining' :=
    match payload with
    | Some b => if 0 <? remaining
                then remaining - Z.min remaining (computeChainDataLength b)
                else remaining
    | None => remaining
    end in
  (remaining', if remaining' =? 0 then DONE else IN_PROGRESS).

(** ** Calls *)

Inductive SubgroupCall :=
| SObject (objectID : Z) (payload : Payload) (extensions : Extensions) (finSubgroup : bool)
| SBeginObject (objectID length : Z) (initialPayload : Payload) (extensions : Extensions)
| SObjectPayload (payload : Payload) (finSubgroup : bool)
| SEndOfGroup (endOfGroupObjectID : Z)
| SEndOfTrackAndGroup (endOfTrackObjectID : Z)
| SEndOfSubgroup
| SCheckpoint
| SReset (error : Z).

Inductive FetchCall :=
| FObject (groupID subgroupID objectID : Z) (payload : Payload) (extensions : Extensions)
    (finFetch forwardingPreferenceIsDatagram : bool)
| FBeginObject (groupID subgroupID objectID length : Z) (initialPayload : Payload)
    (extensions : Extensions)
| FObjectPayload (payload : Payload) (finFetch : bool)
| FEndOfGroup (groupID subgroupID objectID : Z) (finFetch : bool)
| FEndOfTrackAndGroup (groupID subgroupID objectID : Z)
| FEndOfFetch
| FCheckpoint
| FEndOfUnknownRange (groupID objectID : Z) (finFetch : bool)
| FReset (error : Z).

Inductive FilterCall :=
| SubgroupC (c : SubgroupCall)
| FetchC (c : FetchCall).

Inductive TrackCall :=
| TSetTrackAlias (alias : Z)
| TBeginSubgroup (groupID subgroupID priority : Z) (containsLastInGroup : bool)
| TObjectStream (header : Header) (payload : Payload) (lastInGroup : bool)
| TDatagram (header : Header) (payload : Payload) (lastInGroup : bool)
| TPublishDone (pubDone : Done).

(** What waits in the queue of the target executor.  [FilterLambda] and
    [TrackLambda] are the lambdas of the methods; [GuardLambda] is the no-op of
    [enqueueDeactivate]; [PublishLambda] is the start of [doPublishOnExec] of
    [SubscriberCrossExecFilter].  The lambda of [beginSubgroup] carries the
    subgroup filter it has captured. *)
Inductive Lambda :=
| FilterLambda (id : Z) (c : FilterCall)
| TrackLambda (sub : option Z) (c : TrackCall)
| GuardLambda (id : Z)
| PublishLambda.

Inductive Event :=
| Accepted (id : Z) (c : FilterCall)
| Rejected (id : Z) (e : Z)
| Delivered (id : Z) (c : FilterCall) (answer : option Z)
| Skipped (id : Z) (c : FilterCall)
| TAccepted (c : TrackCall)
| TRejected (e : Z)
| TDelivered (c : TrackCall) (answer : option Z)
| TSkipped (c : TrackCall)
| Published (answer : option Z).

(** ** State *)

(** A [CrossExecSubgroupFilter] or a [FetchCrossExecFilter]. *)
Record Filter := mkFilter {
  isFetch : bool;
  deepCopyPayload_ : bool;
  deferredError_ : Z;
  downstream_ : bool;
  selfGuard_ : bool;
  keepAlive_ : bool;
  remaining_ : Z;
  held : bool
}.

(** The [CrossExecFilter] of a track, the filters and the queue. *)
Record World := mkWorld {
  tDeepCopy : bool;
  tDeferredError : Z;
  tDownstream : bool;
  tHeld : bool;
  objectStreamErrors_ : Z;
  datagramErrors_ : Z;
  filters : gmap Z Filter;
  queue : list Lambda;
  nextFilter : Z
}.

Definition newWorld (deepCopy inner : bool) : World :=
  mkWorld deepCopy 0 inner true 0 0 ∅ [] 0.

Definition set_filters (m : gmap Z Filter) (w : World) : World :=
  mkWorld (tDeepCopy w) (tDeferredError w) (tDownstream w) (tHeld w) (objectStreamErrors_ w)
    (datagramErrors_ w) m (queue w) (nextFilter w).
Definition set_queue (q : list Lambda) (w : World) : World :=
  mkWorld (tDeepCopy w) (tDeferredError w) (tDownstream w) (tHeld w) (objectStreamErrors_ w)
    (datagramErrors_ w) (filters w) q (nextFilter w).
Definition set_tDeferredError (e : Z) (w : World) : World :=
  mkWorld (tDeepCopy w) e (tDownstream w) (tHeld w) (objectStreamErrors_ w)
    (datagramErrors_ w) (filters w) (queue w) (nextFilter w).
Definition set_tDownstream (b : bool) (w : World) : World :=
  mkWorld (tDeepCopy w) (tDeferredError w) b (tHeld w) (objectStreamErrors_ w)
    (datagramErrors_ w) (filters w) (queue w) (nextFilter w).
Definition set_tHeld (b : bool) (w : World) : World :=
  mkWorld (tDeepCopy w) (tDeferredError w) (tDownstream w) b (objectStreamErrors_ w)
    (datagramErrors_ w) (filters w) (queue w) (nextFilter w).
Definition set_errors (os dg : Z) (w : World) : World :=
  mkWorld (tDeepCopy w) (tDeferredError w) (tDownstream w) (tHeld w) os dg
    (filters w) (queue w) (nextFilter w).

Definition addFilter (f : Filter) (w : World) : World :=
  mkWorld (tDeepCopy w) (tDeferredError w) (tDownstream w) (tHeld w) (objectStreamErrors_ w)
    (datagramErrors_ w) (<[nextFilter w := f]> (filters w)) (queue w) (nextFilter w + 1).

Definition set_deferredError (e : Z) (f : Filter) : Filter :=
  mkFilter (isFetch f) (deepCopyPayload_ f) e (downstream_ f) (selfGuard_ f) (keepAlive_ f)
    (remaining_ f) (held f).
Definition set_downstream (b : bool) (f : Filter) : Filter :=
  mkFilter (isFetch f) (deepCopyPayload_ f) (deferredError_ f) b (selfGuard_ f) (keepAlive_ f)
    (remaining_ f) (held f).
Definition set_selfGuard (b : bool) (f : Filter) : Filter :=
  mkFilter (isFetch f) (deepCopyPayload_ f) (deferredError_ f) (downstream_ f) b (keepAlive_ f)
    (remaining_ f) (held f).
Definition set_keepAlive (b : bool) (f : Filter) : Filter :=
  mkFilter (isFetch f) (deepCopyPayload_ f) (deferredError_ f) (downstream_ f) (selfGuard_ f) b
    (remaining_ f) (held f).
Definition set_remaining (n : Z) (f : Filter) : Filter :=
  mkFilter (isFetch f) (deepCopyPayload_ f) (deferredError_ f) (downstream_ f) (selfGuard_ f)
    (keepAlive_ f) n (held f).
Definition set_held (b : bool) (f : Filter) : Filter :=
  mkFilter (isFetch f) (deepCopyPayload_ f) (deferredError_ f) (downstream_ f) (selfGuard_ f)
    (keepAlive_ f) (remaining_ f) b.

(** ** CrossExecBase and CrossExecLifetime *)

Definition loadCode (code : Z) : option Z := if code =? 0 then None else Some code.
Definition storeCode (code : Z) : Z := code mod 2 ^ 32.

Definition loadDeferredError (f : Filter) : option Z := loadCode (deferredError_ f).
Definition storeDeferredError (code : Z) (f : Filter) : Filter :=
  set_deferredError (storeCode code) f.

(** [create] of either class: the object is its own anchor. *)
Definition createSubgroup (deepCopy : bool) : Filter :=
  mkFilter false deepCopy 0 false true false 0 true.
Definition createFetch (deepCopy downstream : bool) : Filter :=
  mkFilter true deepCopy 0 downstream true false 0 true.

Definition deactivate (f : Filter) : Filter := set_selfGuard false f.

Definition put (id : Z) (f : Filter) (w : World) : World := set_filters (<[id := f]> (filters w)) w.
Definition add (l : Lambda) (w : World) : World := set_queue (queue w ++ [l]) w.

Definition enqueueDeactivate (id : Z) (f : Filter) (w : World) : World :=
  if selfGuard_ f then add (GuardLambda id) (put id (set_selfGuard false f) w) else w.

(** [closeWithError] with [std::move(downstream_)] as [consumed]. *)
Definition closeWithError (code : Z) (f : Filter) : Filter :=
  set_downstream false (storeDeferredError code f).

(** The prologue of the methods. *)
Definition guarded {A} (id : Z) (w : World)
    (body : Filter → World * Expected Z A * list Event) :
    option (World * Expected Z A * list Event) :=
  f ← filters w !! id;
  Some (match loadDeferredError f with
        | Some err => (enqueueDeactivate id f w, unexpected err, [Rejected id err])
        | None => body f
        end).

(** The call of a lambda on the downstream consumer: an error closes the
    filter ([forward]) or is only logged ([forwardFinal]). *)
Definition forward (id : Z) (c : FilterCall) (answer : option Z) (f : Filter) :
    Filter * list Event :=
  if downstream_ f then
    (match answer with Some e => closeWithError e f | None => f end, [Delivered id c answer])
  else (f, [Skipped id c]).

Definition forwardFinal (id : Z) (c : FilterCall) (answer : option Z) (f : Filter) :
    Filter * list Event :=
  if downstream_ f then (f, [Delivered id c answer]) else (f, [Skipped id c]).

Definition finish (fin : bool) (r : Filter * list Event) : Filter * list Event :=
  if fin then (deactivate r.1, r.2) else r.

(** ** CrossExecSubgroupFilter *)

(** The lambda of a method is queued and the call returns at once: [c] is the
    call as the source made it, [c'] holds what the lambda has captured. *)
Definition post {A} (id : Z) (c c' : FilterCall) (a : A) (w : World) :
    World * Expected Z A * list Event :=
  (add (FilterLambda id c') w, value a, [Accepted id c]).
Definition postPlain {A} (id : Z) (c : FilterCall) (a : A) (w : World) :
    World * Expected Z A * list Event := post id c c a w.

Definition subgroupObject (id objectID : Z) (payload : Payload) (extensions : Extensions)
    (finSubgroup : bool) (w : World) : option (World * Expected Z unit * list Event) :=
  guarded id w (λ f,
    post id (SubgroupC (SObject objectID payload extensions finSubgroup))
      (SubgroupC (SObject objectID (maybeDeepCopy payload (deepCopyPayload_ f)) extensions
                    finSubgroup)) tt w).

Definition subgroupObjectLambda (id objectID : Z) (payload : Payload) (extensions : Extensions)
    (finSubgroup : bool) (answer : option Z) (f : Filter) : Filter * list Event :=
  finish finSubgroup
    (forward id (SubgroupC (SObject objectID payload extensions finSubgroup)) answer f).

Definition subgroupBeginObject (id objectID length : Z) (initialPayload : Payload)
    (extensions : Extensions) (w : World) : option (World * Expected Z unit * list Event) :=
  guarded id w (λ f,
    post id (SubgroupC (SBeginObject objectID length initialPayload extensions))
      (SubgroupC (SBeginObject objectID length
                    (maybeDeepCopy initialPayload (deepCopyPayload_ f)) extensions)) tt
      (put id (set_remaining (trackerBeginObject length initialPayload) f) w)).

Definition subgroupBeginObjectLambda (id objectID length : Z) (payload : Payload)
    (extensions : Extensions) (answer : option Z) (f : Filter) : Filter * list Event :=
  forward id (SubgroupC (SBeginObject objectID length payload extensions)) answer f.

Definition subgroupObjectPayload (id : Z) (payload : Payload) (finSubgroup : bool) (w : World) :
    option (World * Expected Z ObjectPublishStatus * list Event) :=
  guarded id w (λ f,
    let '(remaining, status) := consume (remaining_ f) payload in
    post id (SubgroupC (SObjectPayload payload finSubgroup))
      (SubgroupC (SObjectPayload (maybeDeepCopy payload (deepCopyPayload_ f)) finSubgroup))
      status (put id (set_remaining remaining f) w)).

Definition subgroupObjectPayloadLambda (id : Z) (payload : Payload) (finSubgroup : bool)
    (answer : option Z) (f : Filter) : Filter * list Event :=
  finish finSubgroup (forward id (SubgroupC (SObjectPayload payload finSubgroup)) answer f).

Definition subgroupEndOfGroup (id endOfGroupObjectID : Z) (w : World) :
    option (World * Expected Z unit * list Event) :=
  guarded id w (λ _, postPlain id (SubgroupC (SEndOfGroup endOfGroupObjectID)) tt w).

Definition subgroupEndOfGroupLambda (id endOfGroupObjectID : Z) (answer : option Z) (f : Filter) :
    Filter * list Event :=
  finish true (forwardFinal id (SubgroupC (SEndOfGroup endOfGroupObjectID)) answer f).

Definition subgroupEndOfTrackAndGroup (id endOfTrackObjectID : Z) (w : World) :
    option (World * Expected Z unit * list Event) :=
  guarded id w (λ _, postPlain id (SubgroupC (SEndOfTrackAndGroup endOfTrackObjectID)) tt w).

Definition subgroupEndOfTrackAndGroupLambda (id endOfTrackObjectID : Z) (answer : option Z)
    (f : Filter) : Filter * list Event :=
  finish true (forwardFinal id (SubgroupC (SEndOfTrackAndGroup endOfTrackObjectID)) answer f).

Definition subgroupEndOfSubgroup (id : Z) (w : World) :
    option (World * Expected Z unit * list Event) :=
  guarded id w (λ _, postPlain id (SubgroupC SEndOfSubgroup) tt w).

Definition subgroupEndOfSubgroupLambda (id : Z) (answer : option Z) (f : Filter) :
    Filter * list Event :=
  finish true (forwardFinal id (SubgroupC SEndOfSubgroup) answer f).

Definition subgroupReset (id error : Z) (w : World) :
    option (World * Expected Z unit * list Event) :=
  f ← filters w !! id;
  Some (postPlain id (SubgroupC (SReset error)) tt (put id (storeDeferredError CANCELLED f) w)).

Definition subgroupResetLambda (id error : Z) (f : Filter) : Filter * list Event :=
  finish true (forwardFinal id (SubgroupC (SReset error)) None f).

Definition subgroupCheckpoint (id : Z) (w : World) :
    option (World * Expected Z unit * list Event) :=
  guarded id w (λ _, postPlain id (SubgroupC SCheckpoint) tt w).

Definition subgroupCheckpointLambda (id : Z) (f : Filter) : Filter * list Event :=
  forwardFinal id (SubgroupC SCheckpoint) None f.

(** [awaitReadyToConsume] of either class: no backpressure, always ready. *)
Definition awaitReadyToConsume (id : Z) (w : World) :
    option (World * Expected Z Z * list Event) :=
  guarded id w (λ _, (w, value 0, [])).

(** ** FetchCrossExecFilter *)

Definition fetchObject (id groupID subgroupID objectID : Z) (payload : Payload)
    (extensions : Extensions) (finFetch forwardingPreferenceIsDatagram : bool) (w : World) :
    option (World * Expected Z unit * list Event) :=
  guarded id w (λ f,
    post id (FetchC (FObject groupID subgroupID objectID payload extensions finFetch
                       forwardingPreferenceIsDatagram))
      (FetchC (FObject groupID subgroupID objectID
                 (maybeDeepCopy payload (deepCopyPayload_ f)) extensions finFetch
                 forwardingPreferenceIsDatagram)) tt w).

Definition fetchObjectLambda (id groupID subgroupID objectID : Z) (payload : Payload)
    (extensions : Extensions) (finFetch forwardingPreferenceIsDatagram : bool)
    (answer : option Z) (f : Filter) : Filter * list Event :=
  finish finFetch
    (forward id (FetchC (FObject groupID subgroupID objectID payload extensions finFetch
                           forwardingPreferenceIsDatagram)) answer f).

Definition fetchBeginObject (id groupID subgroupID objectID length : Z) (initialPayload : Payload)
    (extensions : Extensions) (w : World) : option (World * Expected Z unit * list Event) :=
  guarded id w (λ f,
    post id (FetchC (FBeginObject groupID subgroupID objectID length initialPayload extensions))
      (FetchC (FBeginObject groupID subgroupID objectID length
                 (maybeDeepCopy initialPayload (deepCopyPayload_ f)) extensions)) tt
      (put id (set_remaining (trackerBeginObject length initialPayload) f) w)).

Definition fetchBeginObjectLambda (id groupID subgroupID objectID length : Z) (payload : Payload)
    (extensions : Extensions) (answer : option Z) (f : Filter) : Filter * list Event :=
  forward id (FetchC (FBeginObject groupID subgroupID objectID length payload extensions)) answer f.

Definition fetchObjectPayload (id : Z) (payload : Payload) (finFetch : bool) (w : World) :
    option (World * Expected Z ObjectPublishStatus * list Event) :=
  guarded id w (λ f,
    let '(remaining, status) := consume (remaining_ f) payload in
    post id (FetchC (FObjectPayload payload finFetch))
      (FetchC (FObjectPayload (maybeDeepCopy payload (deepCopyPayload_ f)) finFetch))
      status (put id (set_remaining remaining f) w)).

Definition fetchObjectPayloadLambda (id : Z) (payload : Payload) (finFetch : bool)
    (answer : option Z) (f : Filter) : Filter * list Event :=
  finish finFetch (forward id (FetchC (FObjectPayload payload finFetch)) answer f).

Definition fetchEndOfGroup (id groupID subgroupID objectID : Z) (finFetch : bool) (w : World) :
    option (World * Expected Z unit * list Event) :=
  guarded id w (λ _, postPlain id (FetchC (FEndOfGroup groupID subgroupID objectID finFetch)) tt w).

Definition fetchEndOfGroupLambda (id groupID subgroupID objectID : Z) (finFetch : bool)
    (answer : option Z) (f : Filter) : Filter * list Event :=
  finish finFetch
    (forward id (FetchC (FEndOfGroup groupID subgroupID objectID finFetch)) answer f).

Definition fetchEndOfTrackAndGroup (id groupID subgroupID objectID : Z) (w : World) :
    option (World * Expected Z unit * list Event) :=
  guarded id w (λ _, postPlain id (FetchC (FEndOfTrackAndGroup groupID subgroupID objectID)) tt w).

Definition fetchEndOfTrackAndGroupLambda (id groupID subgroupID objectID : Z) (answer : option Z)
    (f : Filter) : Filter * list Event :=
  finish true
    (forwardFinal id (FetchC (FEndOfTrackAndGroup groupID subgroupID objectID)) answer f).

Definition fetchEndOfFetch (id : Z) (w : World) : option (World * Expected Z unit * list Event) :=
  guarded id w (λ _, postPlain id (FetchC FEndOfFetch) tt w).

Definition fetchEndOfFetchLambda (id : Z) (answer : option Z) (f : Filter) : Filter * list Event :=
  finish true (forwardFinal id (FetchC FEndOfFetch) answer f).

Definition fetchCheckpoint (id : Z) (w : World) : option (World * Expected Z unit * list Event) :=
  guarded id w (λ _, postPlain id (FetchC FCheckpoint) tt w).

Definition fetchCheckpointLambda (id : Z) (f : Filter) : Filter * list Event :=
  forwardFinal id (FetchC FCheckpoint) None f.

Definition fetchEndOfUnknownRange (id groupID objectID : Z) (finFetch : bool) (w : World) :
    option (World * Expected Z unit * list Event) :=
  guarded id w (λ _, postPlain id (FetchC (FEndOfUnknownRange groupID objectID finFetch)) tt w).

Definition fetchEndOfUnknownRangeLambda (id groupID objectID : Z) (finFetch : bool)
    (answer : option Z) (f : Filter) : Filter * list Event :=
  finish finFetch (forward id (FetchC (FEndOfUnknownRange groupID objectID finFetch)) answer f).

Definition fetchReset (id error : Z) (w : World) : option (World * Expected Z unit * list Event) :=
  f ← filters w !! id;
  Some (postPlain id (FetchC (FReset error)) tt (put id (storeDeferredError CANCELLED f) w)).

Definition fetchResetLambda (id error : Z) (f : Filter) : Filter * list Event :=
  finish true (forwardFinal id (FetchC (FReset error)) None f).

(** ** CrossExecFilter *)

Definition trackGuarded {A} (w : World) (body : World * Expected Z A * list Event) :
    World * Expected Z A * list Event :=
  match loadCode (tDeferredError w) with
  | Some err => (w, unexpected err, [TRejected err])
  | None => body
  end.

Definition trackPost (c c' : TrackCall) (w : World) : World * Expected Z unit * list Event :=
  (add (TrackLambda None c') w, value tt, [TAccepted c]).

Definition setTrackAlias (alias : Z) (w : World) : World * Expected Z unit * list Event :=
  trackGuarded w (trackPost (TSetTrackAlias alias) (TSetTrackAlias alias) w).

Definition setTrackAliasLambda (alias : Z) (answer : option Z) (w : World) : World * list Event :=
  if tDownstream w then
    (match answer with
     | Some e => set_tDeferredError (storeCode e) w
     | None => w
     end, [TDelivered (TSetTrackAlias alias) answer])
  else (set_tDeferredError (storeCode WRITE_ERROR) w, [TSkipped (TSetTrackAlias alias)]).

(** The result is the number of the new subgroup filter. *)
Definition beginSubgroup (groupID subgroupID priority : Z) (containsLastInGroup : bool)
    (w : World) : World * Expected Z Z * list Event :=
  trackGuarded w
    (let subFilter := nextFilter w in
     let c := TBeginSubgroup groupID subgroupID priority containsLastInGroup in
     (add (TrackLambda (Some subFilter) c) (addFilter (createSubgroup (tDeepCopy w)) w),
      value subFilter, [TAccepted c])).

Definition beginSubgroupLambda (subFilter groupID subgroupID priority : Z)
    (containsLastInGroup : bool) (answer : option Z) (w : World) : option (World * list Event) :=
  f ← filters w !! subFilter;
  let c := TBeginSubgroup groupID subgroupID priority containsLastInGroup in
  Some (if tDownstream w then
          (match answer with
           | None => put subFilter (set_keepAlive true (set_downstream true f)) w
           | Some e => put subFilter (storeDeferredError e f) w
           end, [TDelivered c answer])
        else (put subFilter (storeDeferredError WRITE_ERROR f) w, [TSkipped c])).

Definition awaitStreamCredit (w : World) : World * Expected Z unit * list Event :=
  trackGuarded w (w, value tt, []).

Definition objectStream (header : Header) (payload : Payload) (lastInGroup : bool) (w : World) :
    World * Expected Z unit * list Event :=
  trackGuarded w
    (trackPost (TObjectStream header payload lastInGroup)
       (TObjectStream header (maybeDeepCopy payload (tDeepCopy w)) lastInGroup) w).

Definition objectStreamLambda (header : Header) (payload : Payload) (lastInGroup : bool)
    (answer : option Z) (w : World) : World * list Event :=
  let c := TObjectStream header payload lastInGroup in
  let failed := set_errors (u64 (objectStreamErrors_ w + 1)) (datagramErrors_ w) w in
  if tDownstream w then
    (match answer with Some _ => failed | None => w end, [TDelivered c answer])
  else (failed, [TSkipped c]).

Definition datagram (header : Header) (payload : Payload) (lastInGroup : bool) (w : World) :
    World * Expected Z unit * list Event :=
  trackGuarded w
    (trackPost (TDatagram header payload lastInGroup)
       (TDatagram header (maybeDeepCopy payload (tDeepCopy w)) lastInGroup) w).

Definition datagramLambda (header : Header) (payload : Payload) (lastInGroup : bool)
    (answer : option Z) (w : World) : World * list Event :=
  let c := TDatagram header payload lastInGroup in
  let failed := set_errors (objectStreamErrors_ w) (u64 (datagramErrors_ w + 1)) w in
  if tDownstream w then
    (match answer with Some _ => failed | None => w end, [TDelivered c answer])
  else (failed, [TSkipped c]).

(** [publishDone] does not look at the deferred error. *)
Definition publishDone (pubDone : Done) (w : World) : World * Expected Z unit * list Event :=
  trackPost (TPublishDone pubDone) (TPublishDone pubDone) w.

Definition publishDoneLambda (pubDone : Done) (answer : option Z) (w : World) :
    World * list Event :=
  (w, [if tDownstream w then TDelivered (TPublishDone pubDone) answer
       else TSkipped (TPublishDone pubDone)]).

(** [doPublishOnExec] up to [setDownstream]: the answer is that of
    [inner->publish]. *)
Definition doPublishOnExec (answer : option Z) (w : World) : World * list Event :=
  (match answer with Some _ => w | None => set_tDownstream true w end, [Published answer]).

(** ** The target executor *)

(** The shared pointers to filter [id], and to the track's filter, that a
    lambda has captured. *)
Definition captures (id : Z) (l : Lambda) : bool :=
  match l with
  | FilterLambda i (SubgroupC (SReset _)) | FilterLambda i (FetchC (FReset _)) => i =? id
  | TrackLambda (Some i) _ => i =? id
  | GuardLambda i => i =? id
  | _ => false
  end.

Definition capturesTrack (l : Lambda) : bool :=
  match l with
  | TrackLambda _ (TPublishDone _) => true
  | PublishLambda => true
  | _ => false
  end.

Definition alive (w : World) (id : Z) : bool :=
  match filters w !! id with
  | Some f => held f || selfGuard_ f || existsb (captures id) (queue w)
  | None => false
  end.

Definition trackAlive (w : World) : bool := tHeld w || existsb capturesTrack (queue w).

Definition runSubgroup (id : Z) (c : SubgroupCall) (answer : option Z) (f : Filter) :
    Filter * list Event :=
  match c with
  | SObject o p e fin => subgroupObjectLambda id o p e fin answer f
  | SBeginObject o n p e => subgroupBeginObjectLambda id o n p e answer f
  | SObjectPayload p fin => subgroupObjectPayloadLambda id p fin answer f
  | SEndOfGroup o => subgroupEndOfGroupLambda id o answer f
  | SEndOfTrackAndGroup o => subgroupEndOfTrackAndGroupLambda id o answer f
  | SEndOfSubgroup => subgroupEndOfSubgroupLambda id answer f
  | SCheckpoint => subgroupCheckpointLambda id f
  | SReset e => subgroupResetLambda id e f
  end.

Definition runFetch (id : Z) (c : FetchCall) (answer : option Z) (f : Filter) :
    Filter * list Event :=
  match c with
  | FObject g s o p e fin dg => fetchObjectLambda id g s o p e fin dg answer f
  | FBeginObject g s o n p e => fetchBeginObjectLambda id g s o n p e answer f
  | FObjectPayload p fin => fetchObjectPayloadLambda id p fin answer f
  | FEndOfGroup g s o fin => fetchEndOfGroupLambda id g s o fin answer f
  | FEndOfTrackAndGroup g s o => fetchEndOfTrackAndGroupLambda id g s o answer f
  | FEndOfFetch => fetchEndOfFetchLambda id answer f
  | FCheckpoint => fetchCheckpointLambda id f
  | FEndOfUnknownRange g o fin => fetchEndOfUnknownRangeLambda id g o fin answer f
  | FReset e => fetchResetLambda id e f
  end.

Definition runFilter (id : Z) (c : FilterCall) (answer : option Z) (f : Filter) :
    Filter * list Event :=
  match c with
  | SubgroupC c => runSubgroup id c answer f
  | FetchC c => runFetch id c answer f
  end.

Definition runTrack (sub : option Z) (c : TrackCall) (answer : option Z) (w : World) :
    option (World * list Event) :=
  match c, sub with
  | TSetTrackAlias a, _ => Some (setTrackAliasLambda a answer w)
  | TBeginSubgroup g s p b, Some i => beginSubgroupLambda i g s p b answer w
  | TBeginSubgroup _ _ _ _, None => None
  | TObjectStream h p b, _ => Some (objectStreamLambda h p b answer w)
  | TDatagram h p b, _ => Some (datagramLambda h p b answer w)
  | TPublishDone d, _ => Some (publishDoneLambda d answer w)
  end.

(** The lambda at the head of the queue runs.  What it has captured lives until
    it has run; [this] must be kept alive by something else. *)
Definition runHead (answer : option Z) (w : World) : option (World * list Event) :=
  match queue w with
  | [] => Some (w, [])
  | l :: q =>
      let w' := set_queue q w in
      match l with
      | FilterLambda id c =>
          if captures id l || alive w' id then
            f ← filters w !! id;
            let '(f', evs) := runFilter id c answer f in
            Some (put id f' w', evs)
          else None
      | TrackLambda sub c =>
          if capturesTrack l || trackAlive w' then runTrack sub c answer w' else None
      | GuardLambda _ => Some (w', [])
      | PublishLambda => Some (doPublishOnExec answer w')
      end
  end.

(** ** The source thread *)

(** The result of a source call, without its value. *)
Definition erase {A} (r : option (World * Expected Z A * list Event)) :
    option (World * list Event) :=
  '(w, _, evs) ← r; Some (w, evs).

Definition callSubgroup (id : Z) (c : SubgroupCall) (w : World) : option (World * list Event) :=
  match c with
  | SObject o p e fin => erase (subgroupObject id o p e fin w)
  | SBeginObject o n p e => erase (subgroupBeginObject id o n p e w)
  | SObjectPayload p fin => erase (subgroupObjectPayload id p fin w)
  | SEndOfGroup o => erase (subgroupEndOfGroup id o w)
  | SEndOfTrackAndGroup o => erase (subgroupEndOfTrackAndGroup id o w)
  | SEndOfSubgroup => erase (subgroupEndOfSubgroup id w)
  | SCheckpoint => erase (subgroupCheckpoint id w)
  | SReset e => erase (subgroupReset id e w)
  end.

Definition callFetch (id : Z) (c : FetchCall) (w : World) : option (World * list Event) :=
  match c with
  | FObject g s o p e fin dg => erase (fetchObject id g s o p e fin dg w)
  | FBeginObject g s o n p e => erase (fetchBeginObject id g s o n p e w)
  | FObjectPayload p fin => erase (fetchObjectPayload id p fin w)
  | FEndOfGroup g s o fin => erase (fetchEndOfGroup id g s o fin w)
  | FEndOfTrackAndGroup g s o => erase (fetchEndOfTrackAndGroup id g s o w)
  | FEndOfFetch => erase (fetchEndOfFetch id w)
  | FCheckpoint => erase (fetchCheckpoint id w)
  | FEndOfUnknownRange g o fin => erase (fetchEndOfUnknownRange id g o fin w)
  | FReset e => erase (fetchReset id e w)
  end.

Definition callFilter (id : Z) (c : FilterCall) (w : World) : option (World * list Event) :=
  match c with
  | SubgroupC c => callSubgroup id c w
  | FetchC c => callFetch id c w
  end.

Definition callTrack (c : TrackCall) (w : World) : option (World * list Event) :=
  match c with
  | TSetTrackAlias a => erase (Some (setTrackAlias a w))
  | TBeginSubgroup g s p b => erase (Some (beginSubgroup g s p b w))
  | TObjectStream h p b => erase (Some (objectStream h p b w))
  | TDatagram h p b => erase (Some (datagram h p b w))
  | TPublishDone d => erase (Some (publishDone d w))
  end.

End Filters.
