(* ===== verification/CrossExecSystem.v ===== *)
(** * Cross-executor filters: interleavings

    The source thread and the target executor as one transition system: a step
    is a call of the source, the end of one of its references, or the next
    lambda of the target, in any order.  Under the discipline [admissible] no
    lambda uses a filter after its destruction, calls reach the downstream
    consumer in order and with the same content, a call that does not reach it
    is reported to the source, and a filter is destroyed when the source is
    done with it. *)

From S2P Require Import Prelude CrossExec.

Section System.
Context {IOBuf : Type} `{IOBufLaws IOBuf} `{PublishErrorLaws}
        {Extensions Header Done : Type}.

Notation call := (FilterCall (IOBuf:=IOBuf) (Extensions:=Extensions)).
Notation tcall := (TrackCall (IOBuf:=IOBuf) (Header:=Header) (Done:=Done)).
Notation lambda := (Lambda (IOBuf:=IOBuf) (Extensions:=Extensions) (Header:=Header) (Done:=Done)).
Notation world := (World (IOBuf:=IOBuf) (Extensions:=Extensions) (Header:=Header) (Done:=Done)).
Notation event := (Event (IOBuf:=IOBuf) (Extensions:=Extensions) (Header:=Header) (Done:=Done)).
Implicit Types (c : call) (t : tcall) (l : lambda) (q : list lambda) (w : world) (f : Filter)
  (evs : list event) (id : Z).

(** ** Kinds of calls *)

Definition isReset c : bool :=
  match c with SubgroupC (SReset _) | FetchC (FReset _) => true | _ => false end.

(** The calls after which a stream is finished. *)
Definition terminal c : bool :=
  match c with
  | SubgroupC (SObject _ _ _ fin) | SubgroupC (SObjectPayload _ fin)
  | FetchC (FObject _ _ _ _ _ fin _) | FetchC (FObjectPayload _ fin)
  | FetchC (FEndOfGroup _ _ _ fin) | FetchC (FEndOfUnknownRange _ _ fin) => fin
  | SubgroupC (SEndOfGroup _) | SubgroupC (SEndOfTrackAndGroup _) | SubgroupC SEndOfSubgroup
  | FetchC (FEndOfTrackAndGroup _ _ _) | FetchC FEndOfFetch => true
  | _ => false
  end.

Definition forFetch c : bool := match c with FetchC _ => true | _ => false end.

(** A call with its payload as [maybeDeepCopy] hands it on. *)
Definition captureSubgroup (deep : bool) (c : SubgroupCall (IOBuf:=IOBuf)) :
    SubgroupCall (Extensions:=Extensions) :=
  match c with
  | SObject o p e fin => SObject o (maybeDeepCopy p deep) e fin
  | SBeginObject o n p e => SBeginObject o n (maybeDeepCopy p deep) e
  | SObjectPayload p fin => SObjectPayload (maybeDeepCopy p deep) fin
  | _ => c
  end.

Definition captureFetch (deep : bool) (c : FetchCall (IOBuf:=IOBuf)) :
    FetchCall (Extensions:=Extensions) :=
  match c with
  | FObject g s o p e fin dg => FObject g s o (maybeDeepCopy p deep) e fin dg
  | FBeginObject g s o n p e => FBeginObject g s o n (maybeDeepCopy p deep) e
  | FObjectPayload p fin => FObjectPayload (maybeDeepCopy p deep) fin
  | _ => c
  end.

Definition capture (deep : bool) c : call :=
  match c with
  | SubgroupC c => SubgroupC (captureSubgroup deep c)
  | FetchC c => FetchC (captureFetch deep c)
  end.

Definition usesThis id l : bool :=
  match l with FilterLambda i c => (i =? id) && negb (isReset c) | _ => false end.

Definition deactivates id l : bool :=
  match l with FilterLambda i c => (i =? id) && (terminal c || isReset c) | _ => false end.

Definition usesTrack l : bool :=
  match l with TrackLambda _ (TPublishDone _) => false | TrackLambda _ _ => true | _ => false end.

(** ** Steps *)

Inductive Step :=
| Call (id : Z) (c : call)
| AwaitReady (id : Z)
| CallTrack (t : tcall)
| AwaitCredit
| NewFetch (deepCopy : bool)
| StartPublish
| Drop (id : Z)
| DropTrack
| Target (answer : option Z).

(** The source's own account of what it did: streams it has finished with an
    accepted call, streams it has reset or on which a call was refused, and
    whether it has called [publishDone]. *)
Record System := mkSystem {
  world_ : world;
  finished : gset Z;
  told : gset Z;
  wasReset : gset Z;
  trackDone : bool
}.

Definition newSystem (deepCopy inner : bool) : System :=
  mkSystem (newWorld deepCopy inner) ∅ ∅ ∅ false.

Definition accepted evs : bool :=
  existsb (λ e, match e with Accepted _ _ => true | _ => false end) evs.

Definition isDone t : bool := match t with TPublishDone _ => true | _ => false end.

Definition step (s : System) (a : Step) : option (System * list event) :=
  let w := world_ s in
  let same w := mkSystem w (finished s) (told s) (wasReset s) (trackDone s) in
  match a with
  | Call id c =>
      '(w', evs) ← callFilter id c w;
      let ok := accepted evs in
      Some (mkSystem w'
              (if ok && terminal c then {[id]} ∪ finished s else finished s)
              (if ok then told s else {[id]} ∪ told s)
              (if isReset c then {[id]} ∪ wasReset s else wasReset s)
              (trackDone s), evs)
  | AwaitReady id =>
      '(w', r, evs) ← awaitReadyToConsume id w;
      Some (mkSystem w' (finished s)
              (match r with value _ => told s | unexpected _ => {[id]} ∪ told s end)
              (wasReset s) (trackDone s), evs)
  | CallTrack t =>
      '(w', evs) ← callTrack t w;
      Some (mkSystem w' (finished s) (told s) (wasReset s) (trackDone s || isDone t), evs)
  | AwaitCredit =>
      let '(w', _, evs) := awaitStreamCredit w in Some (same w', evs)
  | NewFetch deepCopy => Some (same (addFilter (createFetch deepCopy true) w), [])
  | StartPublish => Some (same (add PublishLambda w), [])
  | Drop id => f ← filters w !! id; Some (same (put id (set_held false f) w), [])
  | DropTrack => Some (same (set_tHeld false w), [])
  | Target answer => '(w', evs) ← runHead answer w; Some (same w', evs)
  end.

(** What the two threads guarantee: the source only uses references it holds,
    makes no call on a stream after it has finished it (a reset excepted) and
    none on the track after [publishDone], drops the track after [publishDone]
    or when none of its calls is pending, and errors carry error codes. *)
Definition admissible (s : System) (a : Step) : Prop :=
  match a with
  | Call id c => ∃ f, filters (world_ s) !! id = Some f ∧ held f = true ∧
      isFetch f = forFetch c ∧ (id ∈ finished s → isReset c = true)
  | AwaitReady id => ∃ f, filters (world_ s) !! id = Some f ∧ held f = true ∧ id ∉ finished s
  | CallTrack _ | AwaitCredit => tHeld (world_ s) = true ∧ trackDone s = false
  | NewFetch _ | StartPublish => True
  | Drop id => ∃ f, filters (world_ s) !! id = Some f ∧ held f = true
  | DropTrack => tHeld (world_ s) = true ∧
      (trackDone s = true ∨ Forall (λ l, usesTrack l = false) (queue (world_ s)))
  | Target answer => match answer with Some e => is_code e | None => True end
  end.

Inductive run : System → list event → System → Prop :=
| run_nil s : run s [] s
| run_step s evs s1 a s2 new : run s evs s1 → admissible s1 a → step s1 a = Some (s2, new) →
    run s (evs ++ new) s2.

(** ** What a call and a lambda do to a filter *)

Lemma terminal_capture deep c : terminal (capture deep c) = terminal c.
Proof. by destruct c as [[]|[]]. Qed.
Lemma isReset_capture deep c : isReset (capture deep c) = isReset c.
Proof. by destruct c as [[]|[]]. Qed.

(** The source's view of a filter's fields, which calls do not change. *)
Definition sameButRemaining f f' : Prop := ∃ n, f' = set_remaining n f.

Lemma sameButRemaining_refl f : sameButRemaining f f.
Proof. exists (remaining_ f). by destruct f. Qed.
Lemma sameButRemaining_set f n : sameButRemaining f (set_remaining n f).
Proof. by exists n. Qed.
Lemma put_same id f w : filters w !! id = Some f → put id f w = w.
Proof. intros Hf. destruct w. unfold put, set_filters. cbn in *. by rewrite insert_id. Qed.

Lemma callFilter_spec id c w f : filters w !! id = Some f →
  ∃ w' evs, callFilter id c w = Some (w', evs) ∧
  if isReset c then
    w' = add (FilterLambda id c) (put id (storeDeferredError CANCELLED f) w) ∧ evs = [Accepted id c]
  else match loadDeferredError f with
       | Some e => w' = enqueueDeactivate id f w ∧ evs = [Rejected id e]
       | None => ∃ f', sameButRemaining f f' ∧ evs = [Accepted id c] ∧
                   w' = add (FilterLambda id (capture (deepCopyPayload_ f) c)) (put id f' w)
       end.
Proof.
  intros Hf. pose proof (put_same id f w Hf) as Hput. pose proof (sameButRemaining_refl f).
  destruct c as [c|c]; destruct c; cbn [callFilter callSubgroup callFetch isReset];
    unfold subgroupObject, subgroupBeginObject, subgroupObjectPayload, subgroupEndOfGroup,
      subgroupEndOfTrackAndGroup, subgroupEndOfSubgroup, subgroupCheckpoint, subgroupReset,
      fetchObject, fetchBeginObject, fetchObjectPayload, fetchEndOfGroup, fetchEndOfTrackAndGroup,
      fetchEndOfFetch, fetchCheckpoint, fetchEndOfUnknownRange, fetchReset, guarded, postPlain, post;
    rewrite Hf; cbn [mbind option_bind erase]; try (by eexists _, _);
    destruct (loadDeferredError f); cbn [mbind option_bind erase]; try (by eexists _, _);
    try (destruct (consume _ _)); cbn [mbind option_bind erase];
    eexists _, _; (split; [done|]); cbn [capture captureSubgroup captureFetch];
    first [ exists f; split; [done|split; [done|by rewrite Hput]]
          | eexists; split; [apply sameButRemaining_set|done] ].
Qed.

(** Checkpoints and resets have no answer. *)
Definition answerOf c (answer : option Z) : option Z :=
  match c with
  | SubgroupC SCheckpoint | FetchC FCheckpoint => None
  | _ => if isReset c then None else answer
  end.

Lemma runFilter_spec id c answer f :
  ∃ f', runFilter id c answer f =
    ((f', [if downstream_ f then Delivered id c (answerOf c answer) else Skipped id c])
       : Filter * list event) ∧
    selfGuard_ f' = selfGuard_ f && negb (terminal c || isReset c) ∧
    held f' = held f ∧ isFetch f' = isFetch f ∧ deepCopyPayload_ f' = deepCopyPayload_ f ∧
    ((downstream_ f' = downstream_ f ∧ deferredError_ f' = deferredError_ f) ∨
     (downstream_ f' = false ∧ ∃ e, answer = Some e ∧ deferredError_ f' = storeCode e)).
Proof.
  destruct c as [c|c]; destruct c; cbn [runFilter runSubgroup runFetch terminal isReset orb negb];
    unfold subgroupObjectLambda, subgroupBeginObjectLambda, subgroupObjectPayloadLambda,
      subgroupEndOfGroupLambda, subgroupEndOfTrackAndGroupLambda, subgroupEndOfSubgroupLambda,
      subgroupCheckpointLambda, subgroupResetLambda, fetchObjectLambda, fetchBeginObjectLambda,
      fetchObjectPayloadLambda, fetchEndOfGroupLambda, fetchEndOfTrackAndGroupLambda,
      fetchEndOfFetchLambda, fetchCheckpointLambda, fetchEndOfUnknownRangeLambda,
      fetchResetLambda, finish, forward, forwardFinal;
    destruct (downstream_ f) eqn:?; try destruct answer as [e|]; try destruct finSubgroup;
    try destruct finFetch; cbn; eexists; (split; [done|]); cbn;
    rewrite ?andb_true_r, ?andb_false_r; naive_solver.
Qed.

(** ** Projections of the queue and of the events on one filter *)

Definition mentions id l : bool :=
  match l with
  | FilterLambda i _ | GuardLambda i | TrackLambda (Some i) _ => i =? id
  | _ => false
  end.

Definition isBegin id l : bool :=
  match l with TrackLambda (Some i) _ => i =? id | _ => false end.

Definition pendingOf id l : option call :=
  match l with FilterLambda i c => if i =? id then Some c else None | _ => None end.
Definition deliveredOf id (e : event) : option call :=
  match e with Delivered i c _ => if i =? id then Some c else None | _ => None end.
Definition skippedOf id (e : event) : option call :=
  match e with Skipped i c => if i =? id then Some c else None | _ => None end.
Definition acceptedOf id (e : event) : option call :=
  match e with Accepted i c => if i =? id then Some c else None | _ => None end.

Definition pending id q : list call := omap (pendingOf id) q.
Definition delivered id evs : list call := omap (deliveredOf id) evs.
Definition skipped id evs : list call := omap (skippedOf id) evs.
Definition acceptedCalls id evs : list call := omap (acceptedOf id) evs.

(** Every lambda that uses [this] of the filter finds it alive: its guard is
    still set when the lambda runs, or a later lambda has captured it. *)
Fixpoint safeQueue id (guard : bool) q : Prop :=
  match q with
  | [] => True
  | l :: q' => (usesThis id l = true → guard = true ∨ Exists (λ l', captures id l' = true) q') ∧
      safeQueue id (guard && negb (deactivates id l)) q'
  end.

(** The lambda that connects a subgroup filter precedes the others on it. *)
Fixpoint ordered id q : Prop :=
  match q with
  | [] => True
  | l :: q' => (isBegin id l = true ∨ is_Some (pendingOf id l) →
                  Forall (λ l', isBegin id l' = false) q') ∧ ordered id q'
  end.

Lemma mentions_false id l : mentions id l = false →
  captures id l = false ∧ usesThis id l = false ∧ deactivates id l = false ∧
  isBegin id l = false ∧ pendingOf id l = None.
Proof.
  destruct l as [i c|[i|] t|i|]; cbn; try done; intros Hi; rewrite ?Hi; try done.
  by destruct c as [[]|[]]; cbn; rewrite ?Hi.
Qed.

Lemma safeQueue_captured id g q l : captures id l = true → usesThis id l = false →
  safeQueue id g (q ++ [l]).
Proof.
  intros Hc Hu. revert g. induction q as [|l' q IH]; intros g; cbn.
  - by rewrite Hu.
  - split; [|apply IH]. intros _. right. apply Exists_app. right. by left.
Qed.

Lemma safeQueue_other id g q l : usesThis id l = false → safeQueue id g q → safeQueue id g (q ++ [l]).
Proof.
  intros Hu. revert g. induction q as [|l' q IH]; intros g; cbn; [by rewrite Hu|].
  intros [Hl Hq]. split; [|by apply IH]. intros Hl'. destruct (Hl Hl') as [->|Hx]; [by left|].
  right. apply Exists_app. by left.
Qed.

Lemma safeQueue_this id q l : Forall (λ l', deactivates id l' = false) q → safeQueue id true q →
  safeQueue id true (q ++ [l]).
Proof.
  induction q as [|l' q IH]; intros Hd; cbn; [auto|]. apply Forall_cons in Hd as [Hl Hd].
  rewrite Hl. intros [_ Hq]. split; [by left|]. by apply IH.
Qed.

Lemma ordered_app id q l : isBegin id l = false → ordered id q → ordered id (q ++ [l]).
Proof.
  intros Hl. induction q as [|l' q IH]; cbn; [auto|]. intros [Ha Hb]. split; [|auto].
  intros Hx. apply Forall_app. split; [auto|]. by apply Forall_singleton.
Qed.

(** ** The invariant of a filter *)

Record FilterInv id f q evs (fin tld rst : bool) : Prop := {
  fi_code : deferredError_ f = 0 ∨ is_code (deferredError_ f);
  fi_safe : safeQueue id (selfGuard_ f) q;
  fi_open : deferredError_ f = 0 → fin = false → selfGuard_ f = true;
  fi_quiet : fin = false → rst = false → Forall (λ l, deactivates id l = false) q;
  fi_reset : rst = true → deferredError_ f ≠ 0;
  fi_done : fin || tld || rst = true →
    selfGuard_ f = false ∨ Exists (λ l, deactivates id l = true) q;
  fi_ordered : ordered id q;
  fi_wired : downstream_ f = true → Forall (λ l, isBegin id l = false) q;
  fi_unwired : downstream_ f = false →
    deferredError_ f ≠ 0 ∨ Exists (λ l, isBegin id l = true) q;
  fi_skipped : skipped id evs ≠ [] →
    downstream_ f = false ∧ deferredError_ f ≠ 0 ∧ Forall (λ l, isBegin id l = false) q;
  fi_flow : delivered id evs ++ skipped id evs ++ pending id q =
    capture (deepCopyPayload_ f) <$> acceptedCalls id evs
}.

Lemma storeCode_code e : is_code e → storeCode e = e.
Proof. unfold is_code, storeCode. intros He. apply Z.mod_small. lia. Qed.
Lemma is_code_open e : is_code e → e ≠ 0.
Proof. unfold is_code. lia. Qed.

Definition quietEvent id (e : event) : bool :=
  match e with
  | Accepted i _ | Delivered i _ _ | Skipped i _ => negb (i =? id)
  | _ => true
  end.

Lemma quietEvents id evs new : forallb (quietEvent id) new = true →
  delivered id (evs ++ new) = delivered id evs ∧ skipped id (evs ++ new) = skipped id evs ∧
  acceptedCalls id (evs ++ new) = acceptedCalls id evs.
Proof.
  intros Hn. unfold delivered, skipped, acceptedCalls. rewrite !omap_app.
  assert (omap (deliveredOf id) new = [] ∧ omap (skippedOf id) new = [] ∧
          omap (acceptedOf id) new = []) as (-> & -> & ->).
  { induction new as [|e new IH]; [done|]. cbn in Hn. apply andb_prop in Hn as [He Hn].
    destruct (IH Hn) as (H1' & H2' & H3'). cbn. rewrite H1', H2', H3'.
    destruct e; cbn in *; try done; apply negb_true_iff in He; by rewrite He. }
  by rewrite !app_nil_r.
Qed.

(** *** Preservation *)

Lemma inv_fields id fin tld rst f f' q evs : FilterInv id f q evs fin tld rst →
  deferredError_ f' = deferredError_ f → selfGuard_ f' = selfGuard_ f →
  downstream_ f' = downstream_ f → deepCopyPayload_ f' = deepCopyPayload_ f →
  FilterInv id f' q evs fin tld rst.
Proof. intros [] He Hg Hd Hc. constructor; by rewrite ?He, ?Hg, ?Hd, ?Hc. Qed.

Lemma inv_events id fin tld rst f q evs new : forallb (quietEvent id) new = true →
  FilterInv id f q evs fin tld rst → FilterInv id f q (evs ++ new) fin tld rst.
Proof.
  intros Hn []. destruct (quietEvents id evs new Hn) as (Hd & Hs & Ha).
  constructor; by rewrite ?Hd, ?Hs, ?Ha.
Qed.

Lemma inv_add_other id fin tld rst f q evs l : mentions id l = false →
  FilterInv id f q evs fin tld rst → FilterInv id f (q ++ [l]) evs fin tld rst.
Proof.
  intros (Hc & Hu & Hd & Hb & Hp)%mentions_false [].
  constructor; try done; rewrite ?Forall_app, ?Exists_app, ?Forall_singleton.
  - by apply safeQueue_other.
  - auto.
  - intros Hx. destruct (fi_done0 Hx); auto.
  - by apply ordered_app.
  - auto.
  - intros Hx. destruct (fi_unwired0 Hx); auto.
  - intros Hx. destruct (fi_skipped0 Hx) as (? & ? & ?). auto.
  - unfold pending. rewrite omap_app. cbn. by rewrite Hp, app_nil_r.
Qed.

(** The head of the queue is gone and neither it nor its run concern the filter. *)
Lemma inv_pop id fin tld rst f q evs l : usesThis id l = false → deactivates id l = false →
  isBegin id l = false → pendingOf id l = None →
  FilterInv id f (l :: q) evs fin tld rst → FilterInv id f q evs fin tld rst.
Proof.
  intros Hu Hd Hb Hp []. cbn in *. rewrite Hd, andb_true_r in *.
  constructor; rewrite ?Forall_cons, ?Exists_cons in *; try done.
  - tauto.
  - tauto.
  - intros Hx. destruct (fi_done0 Hx) as [|[|]]; [by left|congruence|by right].
  - tauto.
  - tauto.
  - intros Hx. destruct (fi_unwired0 Hx) as [|[|]]; [by left|congruence|by right].
  - tauto.
  - unfold pending in *. cbn in *. by rewrite Hp in *.
Qed.

Lemma inv_accept id tld rst f f' q evs c : FilterInv id f q evs false tld rst →
  deferredError_ f = 0 → isReset c = false → sameButRemaining f f' →
  FilterInv id f' (q ++ [FilterLambda id (capture (deepCopyPayload_ f) c)])
    (evs ++ [Accepted id c]) (terminal c) tld rst.
Proof.
  intros [] He Hr [n ->].
  assert (rst = false) as -> by (destruct rst; [by destruct (fi_reset0 eq_refl He)|done]).
  pose proof (fi_open0 He eq_refl) as Hg. pose proof (fi_quiet0 eq_refl eq_refl) as Hq.
  constructor; cbn [deferredError_ selfGuard_ downstream_ deepCopyPayload_ set_remaining];
    rewrite ?Forall_app, ?Exists_app, ?Forall_singleton, ?Exists_cons; try done.
  - rewrite Hg in *. by apply safeQueue_this.
  - intros Ht _. split; [done|]. cbn. by rewrite terminal_capture, isReset_capture, Ht, Hr, andb_false_r.
  - intros Hx. destruct (terminal c) eqn:Ht.
    + right. right. left. cbn. by rewrite Z.eqb_refl, terminal_capture, Ht.
    + destruct (fi_done0 Hx); auto.
  - by apply ordered_app.
  - auto.
  - intros Hx. destruct (fi_unwired0 Hx); auto.
  - unfold skipped. rewrite omap_app. cbn. rewrite app_nil_r. intros Hx.
    destruct (fi_skipped0 Hx) as (? & ? & ?). auto.
  - unfold delivered, skipped, pending, acceptedCalls in *. rewrite !omap_app. cbn.
    rewrite Z.eqb_refl, !app_nil_r, fmap_app, <- fi_flow0. cbn. by rewrite !app_assoc.
Qed.

Lemma inv_reset id fin tld rst f q evs c : FilterInv id f q evs fin tld rst → isReset c = true →
  FilterInv id (storeDeferredError CANCELLED f) (q ++ [FilterLambda id c])
    (evs ++ [Accepted id c]) fin tld true.
Proof.
  intros [] Hr. pose proof cancelled_code as Hc. pose proof (is_code_open _ Hc) as Ho.
  assert (captures id (FilterLambda id c : lambda) = true) as Hcap.
  { destruct c as [[]|[]]; try discriminate; apply Z.eqb_refl. }
  assert (usesThis id (FilterLambda id c : lambda) = false) as Hu by (cbn; by rewrite Hr, andb_false_r).
  assert (∀ deep, capture deep c = c) as Hcc by (intros; by destruct c as [[]|[]]).
  constructor; cbn [deferredError_ selfGuard_ downstream_ deepCopyPayload_ storeDeferredError
      set_deferredError]; rewrite ?(storeCode_code _ Hc), ?Forall_app, ?Exists_app,
      ?Forall_singleton, ?Exists_cons; try done; auto.
  - by apply safeQueue_captured.
  - right. right. left. cbn. by rewrite Z.eqb_refl, Hr, orb_true_r.
  - by apply ordered_app.
  - unfold skipped. rewrite omap_app. cbn. rewrite app_nil_r. intros Hx.
    destruct (fi_skipped0 Hx) as (? & ? & ?). auto.
  - unfold delivered, skipped, pending, acceptedCalls in *. rewrite !omap_app. cbn.
    rewrite Z.eqb_refl, !app_nil_r, fmap_app, <- fi_flow0. cbn. by rewrite Hcc, !app_assoc.
Qed.

Lemma inv_reject id fin tld rst f q evs : FilterInv id f q evs fin tld rst →
  deferredError_ f ≠ 0 →
  FilterInv id (set_selfGuard false f) (q ++ [GuardLambda id]) evs fin true rst.
Proof.
  intros [] He.
  constructor; cbn [deferredError_ selfGuard_ downstream_ deepCopyPayload_ set_selfGuard];
    rewrite ?Forall_app, ?Exists_app, ?Forall_singleton; try done; auto.
  - apply safeQueue_captured; [apply Z.eqb_refl|done].
  - by apply ordered_app.
  - intros Hx. destruct (fi_skipped0 Hx) as (? & ? & ?). auto.
  - unfold pending. rewrite omap_app. cbn. by rewrite app_nil_r.
Qed.

Lemma inv_reject_idle id fin tld rst f q evs : FilterInv id f q evs fin tld rst →
  selfGuard_ f = false → FilterInv id f q evs fin true rst.
Proof. intros [] Hg. constructor; try done. by left. Qed.

Lemma inv_drop id fin tld rst f q evs : FilterInv id f q evs fin tld rst →
  FilterInv id (set_held false f) q evs fin tld rst.
Proof. intros Hf. by eapply inv_fields. Qed.

Lemma inv_run id fin tld rst f f' q evs new c answer :
  FilterInv id f (FilterLambda id c :: q) evs fin tld rst →
  match answer with Some e => is_code e | None => True end →
  runFilter id c answer f = (f', new) → FilterInv id f' q (evs ++ new) fin tld rst.
Proof.
  intros [] Hans Hrun. destruct (runFilter_spec id c answer f) as (f1 & Hr & Hg & _ & _ & Hdc & Hd).
  rewrite Hr in Hrun. simplify_eq.
  assert (deferredError_ f ≠ 0 → deferredError_ f' ≠ 0) as Hsticky.
  { destruct Hd as [[_ ->]|(_ & e & -> & ->)]; [done|]. intros _.
    rewrite storeCode_code by done. by apply is_code_open. }
  assert (deferredError_ f' = 0 → deferredError_ f = 0) as Hback.
  { intros Hz. destruct (decide (deferredError_ f = 0)) as [|Hnz]; [done|]. by destruct (Hsticky Hnz). }
  assert (downstream_ f' = true → downstream_ f = true) as Hdown.
  { destruct Hd as [[-> _]|(-> & _)]; done. }
  cbn [safeQueue ordered deactivates pendingOf isBegin] in *. rewrite Z.eqb_refl in *.
  rewrite !Forall_cons, !Exists_cons in *. cbn [deactivates isBegin] in *.
  rewrite Z.eqb_refl in *. cbn [andb] in *.
  assert (Forall (λ l, isBegin id l = false) q) as Hnb by naive_solver.
  assert (downstream_ f = false → deferredError_ f ≠ 0) as Hlost.
  { intros Hx. destruct (fi_unwired0 Hx) as [|[|Hex]]; [done..|].
    rewrite Exists_exists in Hex. destruct Hex as (l & Hl & Hb). rewrite Forall_forall in Hnb.
    by rewrite (Hnb l Hl) in Hb. }
  constructor; rewrite ?Hg, ?Hdc.
  - destruct Hd as [[_ ->]|(_ & e & -> & ->)]; [done|]. right. by rewrite storeCode_code.
  - tauto.
  - intros Hz Hf. pose proof (fi_open0 (Hback Hz) Hf) as ->.
    assert (rst = false) as Hrs by (destruct rst; [by destruct (fi_reset0 eq_refl (Hback Hz))|done]).
    destruct (fi_quiet0 Hf Hrs) as [-> _]. done.
  - tauto.
  - auto.
  - intros Hx. destruct (fi_done0 Hx) as [->|[Ht|Ht]]; [by left| |by right].
    left. rewrite Ht. by rewrite andb_false_r.
  - tauto.
  - done.
  - intros Hx. left. destruct Hd as [[E _]|(_ & e & -> & ->)].
    + apply Hsticky, Hlost. congruence.
    + rewrite storeCode_code by done. by apply is_code_open.
  - unfold skipped in *. rewrite omap_app. intros Hx. split; [|split; [|done]].
    + destruct Hd as [[-> _]|(-> & _)]; [|done]. destruct (downstream_ f) eqn:E; [|done].
      cbn in Hx. rewrite app_nil_r in Hx. by destruct (fi_skipped0 Hx).
    + destruct (downstream_ f) eqn:E; [|by apply Hsticky, Hlost].
      cbn in Hx. rewrite app_nil_r in Hx. by destruct (fi_skipped0 Hx).
  - unfold delivered, skipped, pending, acceptedCalls in *. rewrite !omap_app. cbn in fi_flow0.
    rewrite Z.eqb_refl in fi_flow0.
    destruct (downstream_ f) eqn:E; cbn; rewrite Z.eqb_refl; cbn; rewrite !app_nil_r, <- fi_flow0.
    + destruct (omap (skippedOf id) evs) as [|x xs] eqn:Es;
        [cbn; by rewrite <- app_assoc|by destruct (fi_skipped0 ltac:(done))].
    + by rewrite <- !app_assoc.
Qed.

Lemma begin_unskipped id fin tld rst f q evs l : FilterInv id f (l :: q) evs fin tld rst →
  isBegin id l = true → downstream_ f = false ∧ skipped id evs = [] ∧
  Forall (λ l', isBegin id l' = false) q.
Proof.
  intros [] Hb. rewrite Forall_cons, Hb in fi_wired0, fi_skipped0. cbn in fi_ordered0.
  split; [|split; [|naive_solver]].
  - destruct (downstream_ f); [|done]. by destruct (fi_wired0 eq_refl).
  - destruct (skipped id evs); [done|]. by destruct (fi_skipped0 ltac:(done)) as (_ & _ & [? _]).
Qed.

Lemma inv_begin id fin tld rst f f' q evs t :
  FilterInv id f (TrackLambda (Some id) t :: q) evs fin tld rst →
  selfGuard_ f' = selfGuard_ f → deepCopyPayload_ f' = deepCopyPayload_ f →
  (downstream_ f' = true ∧ deferredError_ f' = deferredError_ f ∨
   downstream_ f' = false ∧ is_code (deferredError_ f')) →
  FilterInv id f' q evs fin tld rst.
Proof.
  intros Hf Hg Hdc Hd.
  destruct (begin_unskipped _ _ _ _ _ _ _ _ Hf (Z.eqb_refl id)) as (Hdn & Hsk & Hnb).
  destruct Hf. cbn in *. rewrite andb_true_r in *. rewrite !Forall_cons, !Exists_cons in *.
  assert (deferredError_ f ≠ 0 → deferredError_ f' ≠ 0) as Hsticky.
  { destruct Hd as [[_ ->]|[_ Hc]]; [done|]. intros _. by apply is_code_open. }
  constructor; rewrite ?Hg, ?Hdc, ?Hsk; try done.
  - destruct Hd as [[_ ->]|[_ Hc]]; auto.
  - tauto.
  - intros Hz Hf. destruct (decide (deferredError_ f = 0)) as [|Hnz]; [auto|by destruct (Hsticky Hnz)].
  - tauto.
  - auto.
  - intros Hx. destruct (fi_done0 Hx) as [|[|]]; [by left|done|by right].
  - tauto.
  - intros Hx. left. destruct Hd as [[Hy _]|[_ Hc]]; [congruence|]. by apply is_code_open.
  - rewrite Hsk in fi_flow0. by cbn in *.
Qed.

Lemma pending_app id q q' : pending id (q ++ q') = pending id q ++ pending id q'.
Proof. apply omap_app. Qed.

Lemma fresh_queue id g q : Forall (λ l, mentions id l = false) q →
  safeQueue id g q ∧ ordered id q ∧ Forall (λ l, deactivates id l = false) q ∧
  Forall (λ l, isBegin id l = false) q ∧ pending id q = [].
Proof.
  revert g. induction q as [|l q IH]; intros g Hq; [done|]. apply Forall_cons in Hq as [Hl Hq].
  apply mentions_false in Hl as (_ & Hu & Hd & Hb & Hp). destruct (IH (g && true) Hq) as (? & ? & ? & ? & Hn).
  unfold pending in *. cbn. rewrite Hu, Hd, Hb, Hp, Hn, !Forall_cons. repeat split; try done.
Qed.

Lemma inv_newFetch id f q evs : Forall (λ l, mentions id l = false) q →
  forallb (quietEvent id) evs = true → deferredError_ f = 0 → selfGuard_ f = true →
  downstream_ f = true → FilterInv id f q evs false false false.
Proof.
  intros Hq Hevs He Hg Hd. destruct (fresh_queue id (selfGuard_ f) q Hq) as (? & ? & ? & ? & Hp).
  destruct (quietEvents id [] evs Hevs) as (H1' & H2' & H3'). cbn [app] in *.
  constructor; rewrite ?Hp, ?H1', ?H2', ?H3', ?Hd; auto; done.
Qed.

Lemma inv_newSubgroup id deep q evs t : Forall (λ l, mentions id l = false) q →
  forallb (quietEvent id) evs = true →
  FilterInv id (createSubgroup deep) (q ++ [TrackLambda (Some id) t]) evs false false false.
Proof.
  intros Hq Hevs. destruct (fresh_queue id true q Hq) as (? & ? & ? & ? & Hp).
  destruct (quietEvents id [] evs Hevs) as (H1' & H2' & H3'). cbn [app] in *.
  constructor; cbn [deferredError_ selfGuard_ downstream_ deepCopyPayload_ createSubgroup];
    rewrite ?Forall_app, ?Exists_app, ?Forall_singleton, ?Exists_cons; auto; try done.
  - by apply safeQueue_other.
  - clear -Hq. induction q as [|l q IH]; cbn; [naive_solver|]. apply Forall_cons in Hq as [Hl Hq].
    apply mentions_false in Hl as (_ & _ & _ & Hb & Hp). rewrite Hb, Hp.
    split; [by intros [|[? ?]]|auto].
  - intros _. right. right. left. apply Z.eqb_refl.
  - rewrite pending_app, Hp, H1', H2', H3'. done.
Qed.

(** ** The invariant of the system *)

(** The track's filter outlives the lambdas that use it. *)
Fixpoint safeTrack q : Prop :=
  match q with
  | [] => True
  | l :: q' => (usesTrack l = true → Exists (λ l', capturesTrack l' = true) q') ∧ safeTrack q'
  end.

Definition wellFormed (m : gmap Z Filter) l : Prop :=
  (∀ id, mentions id l = true → is_Some (m !! id)) ∧
  match l with
  | TrackLambda None (TBeginSubgroup _ _ _ _) => False
  | TrackLambda None _ | TrackLambda (Some _) (TBeginSubgroup _ _ _ _) => True
  | TrackLambda (Some _) _ => False
  | _ => True
  end.

Record SysInv (s : System) evs : Prop := {
  si_fresh id : nextFilter (world_ s) <= id →
    Forall (λ l, mentions id l = false) (queue (world_ s)) ∧
    forallb (quietEvent id) evs = true ∧
    id ∉ finished s ∧ id ∉ told s ∧ id ∉ wasReset s;
  si_lambdas : Forall (wellFormed (filters (world_ s))) (queue (world_ s));
  si_below id f : filters (world_ s) !! id = Some f → id < nextFilter (world_ s);
  si_filter id f : filters (world_ s) !! id = Some f →
    FilterInv id f (queue (world_ s)) evs (bool_decide (id ∈ finished s))
      (bool_decide (id ∈ told s)) (bool_decide (id ∈ wasReset s));
  si_track : trackDone s = true ∨ tHeld (world_ s) = false → safeTrack (queue (world_ s))
}.

Lemma safeTrack_captured q l : capturesTrack l = true → usesTrack l = false → safeTrack (q ++ [l]).
Proof.
  intros Hc Hu. induction q as [|l' q IH]; cbn; [by rewrite Hu|]. split; [|done].
  intros _. apply Exists_app. right. by left.
Qed.
Lemma safeTrack_other q l : usesTrack l = false → safeTrack q → safeTrack (q ++ [l]).
Proof.
  intros Hu. induction q as [|l' q IH]; cbn; [by rewrite Hu|]. intros [Hl Hq]. split; [|auto].
  intros Hl'. apply Exists_app. auto.
Qed.
Lemma safeTrack_quiet q : Forall (λ l, usesTrack l = false) q → safeTrack q.
Proof. induction 1 as [|l q Hl Hq IH]; cbn; [done|]. by rewrite Hl. Qed.

Lemma newSystem_inv deep inner : SysInv (newSystem deep inner) [].
Proof.
  constructor; cbn; try done.
Qed.

(** How a step changes the queue: not at all, at its end, or at its head. *)
Inductive queueStep (other : Z → Prop) (m : gmap Z Filter) : list lambda → list lambda → Prop :=
| queue_same q : queueStep other m q q
| queue_add q l : wellFormed m l → (∀ i, other i → mentions i l = false) →
    queueStep other m q (q ++ [l])
| queue_pop q l : (∀ i, other i → mentions i l = false) → queueStep other m (l :: q) q.

Lemma queueStep_inv other m id q q' f evs new fin tld rst : queueStep other m q q' → other id →
  forallb (quietEvent id) new = true →
  FilterInv id f q evs fin tld rst → FilterInv id f q' (evs ++ new) fin tld rst.
Proof.
  intros Hq Ho Hn Hf. apply inv_events; [done|].
  destruct Hq as [q|q l _ Hl|q l Hl]; [done|by apply inv_add_other; [apply Hl|]|].
  destruct (mentions_false id l (Hl id Ho)) as (_ & ? & ? & ? & ?). by eapply inv_pop.
Qed.

Lemma queueStep_lambdas other m q q' : queueStep other m q q' →
  Forall (wellFormed m) q → Forall (wellFormed m) q'.
Proof.
  intros [] Hq; [done| |by apply Forall_cons in Hq as [_ ?]].
  apply Forall_app. by rewrite Forall_singleton.
Qed.

Lemma queueStep_fresh (other : Z → Prop) m q q' id : queueStep other m q q' → other id →
  Forall (λ l, mentions id l = false) q → Forall (λ l, mentions id l = false) q'.
Proof.
  intros [|q0 l _ Hl|] Ho Hq; [done| |by apply Forall_cons in Hq as [_ ?]].
  apply Forall_app. rewrite Forall_singleton. auto.
Qed.

Lemma wellFormed_put m id f f' l : m !! id = Some f → wellFormed m l → wellFormed (<[id := f']> m) l.
Proof.
  intros Hf [Hl Ht]. split; [|done]. intros i Hi. destruct (decide (i = id)) as [->|Hne].
  - rewrite lookup_insert_eq. eauto.
  - rewrite lookup_insert_ne by done. auto.
Qed.

(** A step that concerns one filter. *)
Lemma sys_put s s' evs new id f f' : SysInv s evs → filters (world_ s) !! id = Some f →
  filters (world_ s') = <[id := f']> (filters (world_ s)) →
  nextFilter (world_ s') = nextFilter (world_ s) →
  (∀ i, i ≠ id → (i ∈ finished s' ↔ i ∈ finished s) ∧ (i ∈ told s' ↔ i ∈ told s) ∧
     (i ∈ wasReset s' ↔ i ∈ wasReset s)) →
  (∀ i, i ≠ id → forallb (quietEvent i) new = true) →
  queueStep (λ i, i ≠ id) (filters (world_ s)) (queue (world_ s)) (queue (world_ s')) →
  FilterInv id f' (queue (world_ s')) (evs ++ new) (bool_decide (id ∈ finished s'))
    (bool_decide (id ∈ told s')) (bool_decide (id ∈ wasReset s')) →
  (trackDone s' = true ∨ tHeld (world_ s') = false → safeTrack (queue (world_ s'))) →
  SysInv s' (evs ++ new).
Proof.
  intros Hs Hf Hm Hx Hsets Hn Hq Hid Ht. constructor; [| | | |done].
  - intros i Hi. rewrite Hx in Hi. destruct (si_fresh _ _ Hs i Hi) as (Hq' & He & H1' & H2' & H3').
    assert (i ≠ id) as Hne. { intros ->. pose proof (si_below _ _ Hs _ _ Hf). lia. }
    destruct (Hsets i Hne) as (-> & -> & ->). split; [by eapply queueStep_fresh|].
    rewrite forallb_app, He, (Hn i Hne). done.
  - rewrite Hm. eapply Forall_impl; [eapply queueStep_lambdas, si_lambdas; done|].
    intros l Hl. by eapply wellFormed_put.
  - intros i g. rewrite Hm, Hx. destruct (decide (i = id)) as [->|Hne].
    + intros _. by eapply si_below.
    + rewrite lookup_insert_ne by done. by apply si_below with (evs := evs).
  - intros i g. rewrite Hm. destruct (decide (i = id)) as [->|Hne].
    + rewrite lookup_insert_eq. by intros [= <-].
    + rewrite lookup_insert_ne by done. intros Hg. destruct (Hsets i Hne) as (E1 & E2 & E3).
      rewrite (bool_decide_ext _ _ E1), (bool_decide_ext _ _ E2), (bool_decide_ext _ _ E3).
      eapply queueStep_inv; [done|done|auto|by apply si_filter].
Qed.

(** A step that concerns no filter. *)
Lemma sys_keep s s' evs new : SysInv s evs →
  filters (world_ s') = filters (world_ s) → nextFilter (world_ s') = nextFilter (world_ s) →
  finished s' = finished s → told s' = told s → wasReset s' = wasReset s →
  (∀ i, forallb (quietEvent i) new = true) →
  queueStep (λ _, True) (filters (world_ s)) (queue (world_ s)) (queue (world_ s')) →
  (trackDone s' = true ∨ tHeld (world_ s') = false → safeTrack (queue (world_ s'))) →
  SysInv s' (evs ++ new).
Proof.
  intros Hs Hm Hx H1' H2' H3' Hn Hq Ht. constructor; rewrite ?Hm, ?Hx, ?H1', ?H2', ?H3'; [| | | |done].
  - intros i Hi. destruct (si_fresh _ _ Hs i Hi) as (Hq' & He & ? & ? & ?).
    split; [by eapply queueStep_fresh|]. by rewrite forallb_app, He, Hn.
  - by eapply queueStep_lambdas, si_lambdas.
  - by apply si_below with (evs := evs).
  - intros i g Hg. eapply queueStep_inv; [done|done|auto|by apply si_filter].
Qed.

(** A step that adds a filter. *)
Lemma sys_new s s' evs new f : SysInv s evs →
  filters (world_ s') = <[nextFilter (world_ s) := f]> (filters (world_ s)) →
  nextFilter (world_ s') = nextFilter (world_ s) + 1 →
  finished s' = finished s → told s' = told s → wasReset s' = wasReset s →
  (∀ i, forallb (quietEvent i) new = true) →
  queueStep (λ i, i ≠ nextFilter (world_ s)) (filters (world_ s')) (queue (world_ s)) (queue (world_ s')) →
  FilterInv (nextFilter (world_ s)) f (queue (world_ s')) (evs ++ new) false false false →
  (trackDone s' = true ∨ tHeld (world_ s') = false → safeTrack (queue (world_ s'))) →
  SysInv s' (evs ++ new).
Proof.
  intros Hs Hm Hx H1' H2' H3' Hn Hq Hf Ht.
  destruct (si_fresh _ _ Hs (nextFilter (world_ s)) ltac:(lia)) as (_ & _ & Hf1 & Hf2 & Hf3).
  constructor; rewrite ?Hx, ?H1', ?H2', ?H3'; [| | | |done].
  - intros i Hi. destruct (si_fresh _ _ Hs i ltac:(lia)) as (Hq' & He & ? & ? & ?).
    split; [eapply queueStep_fresh; [done|cbn; lia|done]|]. by rewrite forallb_app, He, Hn.
  - eapply queueStep_lambdas; [done|]. rewrite Hm.
    eapply Forall_impl; [by eapply si_lambdas|]. intros l [Hl Ht']. split; [|done].
    intros i Hi. destruct (Hl i Hi) as [g Hg]. pose proof (si_below _ _ Hs _ _ Hg).
    rewrite lookup_insert_ne by lia. eauto.
  - intros i g. rewrite Hm. destruct (decide (i = nextFilter (world_ s))) as [->|Hne]; [lia|].
    rewrite lookup_insert_ne by done. intros Hg. pose proof (si_below _ _ Hs _ _ Hg). lia.
  - intros i g. rewrite Hm. destruct (decide (i = nextFilter (world_ s))) as [->|Hne].
    + rewrite lookup_insert_eq. intros [= <-]. by rewrite !bool_decide_eq_false_2.
    + rewrite lookup_insert_ne by done. intros Hg.
      eapply queueStep_inv; [done|done|auto|by apply si_filter].
Qed.
End System.
