(* ===== verification/CrossExecTheorems.v ===== *)
(** * Cross-executor filters: theorems

    Every admissible step runs and keeps the invariant of [CrossExecSystem];
    the theorems about all interleavings follow. *)

From S2P Require Import Prelude CrossExec CrossExecSystem.

Section Theorems.
Context {IOBuf : Type} `{IOBufLaws IOBuf} `{PublishErrorLaws}
        {Extensions Header Done : Type}.

Notation call := (FilterCall (IOBuf:=IOBuf) (Extensions:=Extensions)).
Notation tcall := (TrackCall (IOBuf:=IOBuf) (Header:=Header) (Done:=Done)).
Notation lambda := (Lambda (IOBuf:=IOBuf) (Extensions:=Extensions) (Header:=Header) (Done:=Done)).
Notation world := (World (IOBuf:=IOBuf) (Extensions:=Extensions) (Header:=Header) (Done:=Done)).
Notation event := (Event (IOBuf:=IOBuf) (Extensions:=Extensions) (Header:=Header) (Done:=Done)).
Notation system := (System (IOBuf:=IOBuf) (Extensions:=Extensions) (Header:=Header) (Done:=Done)).
Notation action := (Step (IOBuf:=IOBuf) (Extensions:=Extensions) (Header:=Header) (Done:=Done)).
Implicit Types (c : call) (t : tcall) (l : lambda) (q : list lambda) (w : world) (f : Filter)
  (evs new : list event) (id : Z) (s : system) (a : action).

(** ** Source steps *)

Definition stepOk s evs a : Prop :=
  ∃ s' new, step s a = Some (s', new) ∧ SysInv s' (evs ++ new).

Lemma wellFormed_filter (m : gmap Z Filter) id c f : m !! id = Some f →
  wellFormed m (FilterLambda id c : lambda).
Proof. intros Hf. split; [|done]. cbn. intros i ->%Z.eqb_eq. eauto. Qed.

Lemma other_filter id i c : i ≠ id → mentions i (FilterLambda id c : lambda) = false.
Proof. cbn. intros Hi. apply Z.eqb_neq. done. Qed.

Lemma loadDeferredError_Some f e : loadDeferredError f = Some e → deferredError_ f ≠ 0.
Proof. unfold loadDeferredError, loadCode. by destruct (Z.eqb_spec (deferredError_ f) 0). Qed.
Lemma loadDeferredError_None f : loadDeferredError f = None → deferredError_ f = 0.
Proof. unfold loadDeferredError, loadCode. by destruct (Z.eqb_spec (deferredError_ f) 0). Qed.

(** A refused call, of whatever method. *)
Lemma refused_ok s evs id f e : SysInv s evs → filters (world_ s) !! id = Some f →
  deferredError_ f ≠ 0 →
  SysInv (mkSystem (enqueueDeactivate id f (world_ s)) (finished s) ({[id]} ∪ told s) (wasReset s)
            (trackDone s)) (evs ++ [Rejected id e]).
Proof.
  intros Hs Hf He. pose proof (si_filter _ _ Hs _ _ Hf) as Hi. unfold enqueueDeactivate.
  destruct (selfGuard_ f) eqn:Hg.
  - eapply sys_put with (id := id) (f' := set_selfGuard false f); cbn; try done.
    + set_solver.
    + apply queue_add; [|intros i Hi'; cbn; by apply Z.eqb_neq].
      split; [|done]. cbn. intros i ->%Z.eqb_eq. eauto.
    + rewrite (bool_decide_eq_true_2 (id ∈ {[id]} ∪ told s)) by set_solver.
      apply inv_events; [done|]. eapply inv_reject; done.
    + intros Ht. apply safeTrack_other; [done|]. by apply (si_track _ _ Hs).
  - eapply sys_put with (id := id) (f' := f); cbn; try done.
    + by rewrite insert_id.
    + set_solver.
    + apply queue_same.
    + rewrite (bool_decide_eq_true_2 (id ∈ {[id]} ∪ told s)) by set_solver.
      apply inv_events; [done|]. eapply inv_reject_idle; done.
    + apply (si_track _ _ Hs).
Qed.

Lemma call_ok s evs id c : SysInv s evs → admissible s (Call id c) → stepOk s evs (Call id c).
Proof.
  intros Hs (f & Hf & _ & _ & Hfin). pose proof (si_filter _ _ Hs _ _ Hf) as Hi.
  destruct (callFilter_spec id c (world_ s) f Hf) as (w' & new & Hc & Hspec).
  unfold stepOk. cbn [step]. rewrite Hc. cbn [mbind option_bind]. eexists _, _. split; [done|].
  destruct (isReset c) eqn:Hr.
  - destruct Hspec as [-> ->]. assert (terminal c = false) as Ht by (by destruct c as [[]|[]]).
    rewrite Ht, andb_false_r. cbn.
    eapply sys_put with (id := id); cbn; try done.
    + set_solver.
    + intros i Hne. cbn. by rewrite (proj2 (Z.eqb_neq id i) ltac:(done)).
    + apply queue_add; [by eapply wellFormed_filter|intros; by apply other_filter].
    + rewrite (bool_decide_eq_true_2 (id ∈ {[id]} ∪ wasReset s)) by set_solver.
      by eapply inv_reset.
    + intros Hx. apply safeTrack_other; [done|]. by apply (si_track _ _ Hs).
  - destruct (loadDeferredError f) as [e|] eqn:El.
    + destruct Hspec as [-> ->]. cbn. eapply refused_ok; [done..|]. by eapply loadDeferredError_Some.
    + destruct Hspec as (f' & Hf' & -> & ->). cbn [accepted existsb orb andb].
      assert (id ∉ finished s) as Hnf. { intros Hx%Hfin. done. }
      eapply sys_put with (id := id); cbn; try done.
      * intros i Hne. destruct (terminal c); set_solver.
      * intros i Hne. cbn. by rewrite (proj2 (Z.eqb_neq id i) ltac:(done)).
      * apply queue_add; [by eapply wellFormed_filter|intros; by apply other_filter].
      * assert (bool_decide (id ∈ (if terminal c then {[id]} ∪ finished s else finished s)) =
                terminal c) as ->.
        { destruct (terminal c); [apply bool_decide_eq_true_2|apply bool_decide_eq_false_2]; set_solver. }
        rewrite (bool_decide_eq_false_2 (id ∈ finished s) Hnf) in Hi.
        eapply inv_accept; try done. by apply loadDeferredError_None.
      * intros Hx. apply safeTrack_other; [done|]. by apply (si_track _ _ Hs).
Qed.

Lemma keep_events s evs : SysInv s evs → SysInv s (evs ++ []).
Proof. by rewrite app_nil_r. Qed.

Lemma await_ok s evs id : SysInv s evs → admissible s (AwaitReady id) → stepOk s evs (AwaitReady id).
Proof.
  intros Hs (f & Hf & _). unfold stepOk. cbn [step]. unfold awaitReadyToConsume, guarded.
  rewrite Hf. cbn [mbind option_bind]. destruct (loadDeferredError f) as [e|] eqn:El.
  - eexists _, _. split; [done|]. eapply refused_ok; [done..|]. by eapply loadDeferredError_Some.
  - eexists _, _. split; [done|]. apply keep_events. by destruct s.
Qed.

Lemma drop_ok s evs id : SysInv s evs → admissible s (Drop id) → stepOk s evs (Drop id).
Proof.
  intros Hs (f & Hf & _). unfold stepOk. cbn [step]. rewrite Hf. cbn [mbind option_bind].
  eexists _, _. split; [done|]. pose proof (si_filter _ _ Hs _ _ Hf) as Hi.
  eapply sys_put with (id := id); cbn; try done.
  - apply queue_same.
  - apply inv_events; [done|]. by apply inv_drop.
  - apply (si_track _ _ Hs).
Qed.

Definition trackEvent (e : event) : bool :=
  match e with TAccepted _ | TRejected _ | TDelivered _ _ | TSkipped _ | Published _ => true | _ => false end.

Lemma trackEvents_quiet new : forallb trackEvent new = true →
  ∀ i, forallb (quietEvent i) new = true.
Proof.
  intros Hn i. apply forallb_forall. intros e He.
  apply (proj1 (forallb_forall _ _) Hn) in He. by destruct e.
Qed.

(** The call of the track's consumer as the lambda has captured it. *)
Definition captureTrack (deep : bool) t : tcall :=
  match t with
  | TObjectStream h p b => TObjectStream h (maybeDeepCopy p deep) b
  | TDatagram h p b => TDatagram h (maybeDeepCopy p deep) b
  | _ => t
  end.

Lemma callTrack_spec t w : ∃ w' new, callTrack t w = Some (w', new) ∧
  match t with
  | TPublishDone _ => w' = add (TrackLambda None t) w ∧ new = [TAccepted t]
  | _ =>
      match loadCode (tDeferredError w) with
      | Some e => w' = w ∧ new = [TRejected e]
      | None => new = [TAccepted t] ∧
          match t with
          | TBeginSubgroup _ _ _ _ =>
              w' = add (TrackLambda (Some (nextFilter w)) t) (addFilter (createSubgroup (tDeepCopy w)) w)
          | _ => w' = add (TrackLambda None (captureTrack (tDeepCopy w) t)) w
          end
      end
  end.
Proof.
  destruct t; cbn [callTrack]; unfold setTrackAlias, beginSubgroup, objectStream, datagram, publishDone,
    trackGuarded, trackPost, erase; cbn [mbind option_bind];
    try (destruct (loadCode (tDeferredError w))); cbn [mbind option_bind]; eexists _, _; done.
Qed.

Lemma track_frame_ok s evs t w' new : SysInv s evs → tHeld (world_ s) = true → trackDone s = false →
  isDone t = false →
  (w' = world_ s ∨ ∃ t', w' = add (TrackLambda None t') (world_ s) ∧
     match t' with TBeginSubgroup _ _ _ _ => False | _ => True end) →
  forallb trackEvent new = true →
  SysInv (mkSystem w' (finished s) (told s) (wasReset s) (trackDone s || isDone t)) (evs ++ new).
Proof.
  intros Hs Hh Hd Ht Hw Hn. rewrite Ht, orb_false_r. pose proof (trackEvents_quiet _ Hn).
  eapply sys_keep; cbn; try done.
  - by destruct Hw as [->|(t' & -> & _)].
  - by destruct Hw as [->|(t' & -> & _)].
  - destruct Hw as [->|(t' & -> & Hb)]; [apply queue_same|]. apply queue_add; [|done].
    split; [done|]. by destruct t'.
  - intros [Hx|Hx]; [congruence|]. destruct Hw as [->|(t' & -> & _)]; cbn in Hx; congruence.
Qed.

Lemma callTrack_ok s evs t : SysInv s evs → admissible s (CallTrack t) → stepOk s evs (CallTrack t).
Proof.
  intros Hs [Hh Hd]. destruct (callTrack_spec t (world_ s)) as (w' & new & Hc & Hspec).
  unfold stepOk. cbn [step]. rewrite Hc. cbn [mbind option_bind]. eexists _, _. split; [done|].
  destruct (isDone t) eqn:Et.
  { destruct t; try discriminate. destruct Hspec as [-> ->]. eapply sys_keep; cbn; try done.
    - by apply queue_add.
    - intros _. by apply safeTrack_captured. }
  rewrite <- Et. destruct (loadCode (tDeferredError (world_ s))) as [e|].
  { assert (w' = world_ s ∧ new = [TRejected e]) as [-> ->] by (by destruct t).
    apply track_frame_ok; auto. }
  destruct t; try discriminate; destruct Hspec as [-> Hw]; 
    try (apply track_frame_ok; [done..|right; eexists; split; [exact Hw|done]|done]).
  subst w'. cbn. rewrite Hd. cbn.
  destruct (si_fresh _ _ Hs (nextFilter (world_ s)) ltac:(lia)) as (Hq & He & _).
  eapply sys_new; cbn; try done.
  - apply queue_add; [|intros i Hi; cbn; by apply Z.eqb_neq].
    split; [|done]. cbn. intros i ->%Z.eqb_eq. rewrite lookup_insert_eq. eauto.
  - apply inv_newSubgroup; [done|]. by rewrite forallb_app, He.
  - intros [Hx|Hx]; congruence.
Qed.

Lemma newFetch_ok s evs deep : SysInv s evs → stepOk s evs (NewFetch deep).
Proof.
  intros Hs. eexists _, _. split; [done|].
  destruct (si_fresh _ _ Hs (nextFilter (world_ s)) ltac:(lia)) as (Hq & He & _).
  eapply sys_new; cbn; try done.
  - apply queue_same.
  - apply inv_newFetch; try done. by rewrite forallb_app, He.
  - apply (si_track _ _ Hs).
Qed.

Lemma trackOther_ok s evs a : SysInv s evs → admissible s a →
  match a with AwaitCredit | StartPublish | DropTrack => True | _ => False end → stepOk s evs a.
Proof.
  intros Hs Ha Hk. destruct a; try done.
  - unfold stepOk. cbn [step]. unfold awaitStreamCredit, trackGuarded.
    destruct (loadCode _) as [e|]; eexists _, _; (split; [done|]).
    + eapply sys_keep; cbn; try done; [apply queue_same|apply (si_track _ _ Hs)].
    + apply keep_events. by destruct s.
  - eexists _, _. split; [done|]. eapply sys_keep; cbn; try done.
    + by apply queue_add.
    + intros _. by apply safeTrack_captured.
  - destruct Ha as [_ Ha]. eexists _, _. split; [done|]. eapply sys_keep; cbn; try done.
    + apply queue_same.
    + intros _. destruct Ha as [Ha|Ha]; [apply (si_track _ _ Hs); auto|by apply safeTrack_quiet].
Qed.

(** ** Target steps *)

Lemma alive_this s evs id c f q : SysInv s evs → queue (world_ s) = FilterLambda id c :: q →
  filters (world_ s) !! id = Some f →
  captures id (FilterLambda id c : lambda) || alive (set_queue q (world_ s)) id = true.
Proof.
  intros Hs Hq Hf. pose proof (fi_safe _ _ _ _ _ _ _ (si_filter _ _ Hs _ _ Hf)) as Hsafe.
  rewrite Hq in Hsafe. destruct Hsafe as [Hu _]. cbn [usesThis] in Hu. rewrite Z.eqb_refl in Hu.
  apply orb_true_iff. destruct (isReset c) eqn:Hr.
  { left. destruct c as [[]|[]]; try discriminate; apply Z.eqb_refl. }
  right. unfold alive. cbn. rewrite Hf. destruct (Hu eq_refl) as [->|Hx]; [by rewrite orb_true_r|].
  apply orb_true_iff. right. apply existsb_exists.
  apply Exists_exists in Hx as (l & Hl%list_elem_of_In & Hc). eauto.
Qed.

Lemma safeTrack_tail l q : safeTrack (l :: q) → safeTrack q.
Proof. by intros [_ ?]. Qed.

Lemma filterLambda_ok s evs id c q answer : SysInv s evs →
  queue (world_ s) = FilterLambda id c :: q →
  match answer with Some e => is_code e | None => True end → stepOk s evs (Target answer).
Proof.
  intros Hs Hq Ha. pose proof (si_lambdas _ _ Hs) as Hl. rewrite Hq in Hl.
  apply Forall_cons in Hl as [[Hl _] _]. destruct (Hl id (Z.eqb_refl id)) as [f Hf].
  unfold stepOk. cbn [step]. unfold runHead. rewrite Hq. erewrite alive_this by done. rewrite Hf.
  cbn [mbind option_bind]. destruct (runFilter id c answer f) as [f' new] eqn:Hr.
  cbn [mbind option_bind]. eexists _, _. split; [done|].
  pose proof (si_filter _ _ Hs _ _ Hf) as Hi. rewrite Hq in Hi.
  eapply sys_put with (id := id); cbn; try done.
  - intros i Hne. destruct (runFilter_spec (Header:=Header) (Done:=Done) id c answer f) as (f1 & Hr' & _). rewrite Hr in Hr'.
    simplify_eq. destruct (downstream_ f); cbn; by rewrite (proj2 (Z.eqb_neq id i) ltac:(done)).
  - rewrite Hq. apply queue_pop. intros i Hne. by apply other_filter.
  - by eapply inv_run.
  - intros Hx. apply (si_track _ _ Hs) in Hx. rewrite Hq in Hx. by apply safeTrack_tail in Hx.
Qed.

Lemma trackAlive_this s evs sub t q : SysInv s evs → queue (world_ s) = TrackLambda sub t :: q →
  capturesTrack (TrackLambda sub t : lambda) || trackAlive (set_queue q (world_ s)) = true.
Proof.
  intros Hs Hq. destruct (tHeld (world_ s)) eqn:Hh.
  { unfold trackAlive. cbn. rewrite Hh. by rewrite orb_true_r. }
  pose proof (si_track _ _ Hs (or_intror Hh)) as Hx. rewrite Hq in Hx. destruct Hx as [Hx _].
  apply orb_true_iff. destruct (capturesTrack (TrackLambda sub t)) eqn:Hc; [by left|right].
  unfold trackAlive. cbn. rewrite Hh. cbn. apply existsb_exists.
  assert (usesTrack (TrackLambda sub t : lambda) = true) as Hu by (by destruct t).
  apply Hx, Exists_exists in Hu as (l & Hl%list_elem_of_In & Hl'). eauto.
Qed.

(** A lambda of the track that is not the start of a subgroup. *)
Lemma runTrack_plain sub t answer w : match t with TBeginSubgroup _ _ _ _ => False | _ => True end →
  ∃ w' new, runTrack sub t answer w = Some (w', new) ∧ filters w' = filters w ∧
    nextFilter w' = nextFilter w ∧ queue w' = queue w ∧ tHeld w' = tHeld w ∧
    forallb trackEvent new = true.
Proof.
  destruct t; try done; intros _; cbn [runTrack];
    unfold setTrackAliasLambda, objectStreamLambda, datagramLambda, publishDoneLambda;
    destruct (tDownstream w); try destruct answer; by eexists _, _.
Qed.

Lemma trackLambda_ok s evs sub t q answer : SysInv s evs → queue (world_ s) = TrackLambda sub t :: q →
  match answer with Some e => is_code e | None => True end → stepOk s evs (Target answer).
Proof.
  intros Hs Hq Ha. pose proof (si_lambdas _ _ Hs) as Hl. rewrite Hq in Hl.
  apply Forall_cons in Hl as [[Hl Hb] _].
  unfold stepOk. cbn [step]. unfold runHead. rewrite Hq. erewrite trackAlive_this by done.
  assert (trackDone s = true ∨ tHeld (world_ s) = false → safeTrack q) as Htr.
  { intros Hx. apply (si_track _ _ Hs) in Hx. rewrite Hq in Hx. by apply safeTrack_tail in Hx. }
  destruct (match t with TBeginSubgroup _ _ _ _ => true | _ => false end) eqn:Et.
  - destruct t as [|g sg p b| | |]; try discriminate. destruct sub as [id|]; [|done].
    destruct (Hl id (Z.eqb_refl id)) as [f Hf]. pose proof (si_filter _ _ Hs _ _ Hf) as Hi.
    rewrite Hq in Hi. cbn [runTrack]. unfold beginSubgroupLambda. cbn [filters set_queue]. rewrite Hf.
    cbn [mbind option_bind]. pose proof write_error_code as Hwe.
    destruct (begin_unskipped _ _ _ _ _ _ _ _ Hi (Z.eqb_refl id)) as (Hd & _ & _).
    destruct (tDownstream (set_queue q (world_ s))); [destruct answer as [e|]|];
      cbn [mbind option_bind]; eexists _, _; (split; [done|]);
      (eapply sys_put with (id := id); cbn; try done;
        [rewrite Hq; apply queue_pop; intros i Hne; cbn; by apply Z.eqb_neq
        |apply inv_events; [done|]; eapply inv_begin; try done]); cbn; rewrite ?storeCode_code by done;
      auto.
  - destruct (runTrack_plain sub t answer (set_queue q (world_ s))) as (w' & new & Hr & H1' & H2' & H3' & H4' & Hn).
    { by destruct t. }
    rewrite Hr. cbn [mbind option_bind]. eexists _, _. split; [done|].
    assert (sub = None) as -> by (by destruct sub, t).
    pose proof (trackEvents_quiet _ Hn). eapply sys_keep; cbn; try done.
    + rewrite H3', Hq. by apply queue_pop.
    + rewrite H3', H4'. done.
Qed.

Lemma target_ok s evs answer : SysInv s evs → admissible s (Target answer) →
  stepOk s evs (Target answer).
Proof.
  intros Hs Ha. destruct (queue (world_ s)) as [|[id c|sub t|id|] q] eqn:Hq.
  - unfold stepOk. cbn [step]. unfold runHead. rewrite Hq. eexists _, _. split; [done|].
    apply keep_events. by destruct s.
  - by eapply filterLambda_ok.
  - by eapply trackLambda_ok.
  - unfold stepOk. cbn [step]. unfold runHead. rewrite Hq. eexists _, _. split; [done|].
    pose proof (si_lambdas _ _ Hs) as Hl. rewrite Hq in Hl. apply Forall_cons in Hl as [[Hl _] _].
    destruct (Hl id (Z.eqb_refl id)) as [f Hf]. pose proof (si_filter _ _ Hs _ _ Hf) as Hi.
    rewrite Hq in Hi. eapply sys_put with (id := id) (f' := f); cbn; try done.
    + by rewrite insert_id.
    + rewrite Hq. apply queue_pop. intros i Hne. cbn. by apply Z.eqb_neq.
    + apply inv_events; [done|]. by eapply inv_pop in Hi.
    + intros Hx. apply (si_track _ _ Hs) in Hx. rewrite Hq in Hx. by apply safeTrack_tail in Hx.
  - unfold stepOk. cbn [step]. unfold runHead. rewrite Hq. eexists _, _. split; [done|].
    eapply sys_keep; cbn; try done; try (by destruct answer).
    + destruct answer; cbn; rewrite Hq; by apply queue_pop.
    + intros Hx. assert (safeTrack (queue (world_ s))) as Hy.
      { apply (si_track _ _ Hs). by destruct answer. }
      rewrite Hq in Hy. apply safeTrack_tail in Hy. by destruct answer.
Qed.

Lemma step_ok s evs a : SysInv s evs → admissible s a → stepOk s evs a.
Proof.
  intros Hs Ha. destruct a; try (by apply trackOther_ok).
  - by apply call_ok.
  - by apply await_ok.
  - by apply callTrack_ok.
  - by apply newFetch_ok.
  - by apply drop_ok.
  - by apply target_ok.
Qed.

Lemma run_inv deep inner evs s : run (newSystem deep inner) evs s → SysInv s evs.
Proof.
  intros Hr. remember (newSystem deep inner) as s0 eqn:E.
  induction Hr as [s|s evs s1 a s2 new Hr IH Ha Hst]; subst.
  - apply newSystem_inv.
  - destruct (step_ok s1 evs a (IH eq_refl) Ha) as (s' & new' & Hst' & Hi). congruence.
Qed.

(** ** The calls of the track *)

Definition tPendingOf l : option tcall := match l with TrackLambda _ t => Some t | _ => None end.
Definition tProcessedOf (e : event) : option tcall :=
  match e with TDelivered t _ | TSkipped t => Some t | _ => None end.
Definition tAcceptedOf (e : event) : option tcall :=
  match e with TAccepted t => Some t | _ => None end.

(** Calls that did not succeed downstream. *)
Definition failed (e : event) : option tcall :=
  match e with TDelivered t (Some _) | TSkipped t => Some t | _ => None end.
Definition isStream t : bool := match t with TObjectStream _ _ _ => true | _ => false end.
Definition isDatagram t : bool := match t with TDatagram _ _ _ => true | _ => false end.
Definition isAlias t : bool := match t with TSetTrackAlias _ => true | _ => false end.

Definition failures (k : tcall → bool) evs : Z :=
  Z.of_nat (length (List.filter k (omap failed evs))).

Record TrackInv w evs : Prop := {
  ti_flow : omap tProcessedOf evs ++ omap tPendingOf (queue w) =
    captureTrack (tDeepCopy w) <$> omap tAcceptedOf evs;
  ti_streams : objectStreamErrors_ w = u64 (failures isStream evs);
  ti_datagrams : datagramErrors_ w = u64 (failures isDatagram evs);
  ti_alias : failures isAlias evs ≠ 0 → tDeferredError w ≠ 0
}.

Lemma failures_app k evs new : failures k (evs ++ new) = failures k evs + failures k new.
Proof. unfold failures. rewrite omap_app, List.filter_app, length_app. lia. Qed.

Lemma u64_succ n : u64 (u64 n + 1) = u64 (n + 1).
Proof. unfold u64. apply Zplus_mod_idemp_l. Qed.

Definition neutral (e : event) : bool :=
  match e with TAccepted _ | TDelivered _ _ | TSkipped _ => false | _ => true end.

Lemma neutral_omap new : forallb neutral new = true →
  omap tProcessedOf new = [] ∧ omap tAcceptedOf new = [] ∧ omap failed new = [].
Proof.
  induction new as [|e new IH]; [done|]. cbn. intros [He Hn]%andb_prop.
  destruct (IH Hn) as (-> & -> & ->). by destruct e.
Qed.

Lemma trackInv_frame w w' evs new : TrackInv w evs → forallb neutral new = true →
  tDeepCopy w' = tDeepCopy w → objectStreamErrors_ w' = objectStreamErrors_ w →
  datagramErrors_ w' = datagramErrors_ w → tDeferredError w' = tDeferredError w →
  omap tPendingOf (queue w') = omap tPendingOf (queue w) → TrackInv w' (evs ++ new).
Proof.
  intros [] (Hp & Ha & Hf)%neutral_omap Hd Hs Hg Hz Hq.
  assert (∀ k, failures k (evs ++ new) = failures k evs) as Hc.
  { intros k. rewrite failures_app. unfold failures at 2. rewrite Hf. cbn. lia. }
  constructor; rewrite ?Hc, ?Hs, ?Hg, ?Hz; try done.
  by rewrite !omap_app, Hp, Ha, !app_nil_r, Hq, Hd.
Qed.

(** An accepted call joins the pending ones. *)
Lemma trackInv_accept w w' evs sub t : TrackInv w evs →
  tDeepCopy w' = tDeepCopy w → objectStreamErrors_ w' = objectStreamErrors_ w →
  datagramErrors_ w' = datagramErrors_ w → tDeferredError w' = tDeferredError w →
  queue w' = queue w ++ [TrackLambda sub (captureTrack (tDeepCopy w) t)] →
  TrackInv w' (evs ++ [TAccepted t]).
Proof.
  intros [] Hd Hs Hg Hz Hq.
  assert (∀ k, failures k (evs ++ [TAccepted t]) = failures k evs) as Hc.
  { intros k. rewrite failures_app. unfold failures at 2. cbn. lia. }
  constructor; rewrite ?Hc, ?Hs, ?Hg, ?Hz; try done.
  rewrite Hq, !omap_app, Hd. cbn. rewrite app_nil_r, fmap_app, <- ti_flow0. cbn. by rewrite app_assoc.
Qed.

(** A lambda that has run leaves the pending calls, and its failure is counted
    or stored. *)
Lemma trackInv_run w w' evs new sub t q answer : TrackInv w evs →
  queue w = TrackLambda sub t :: q →
  match answer with Some e => is_code e | None => True end →
  runTrack sub t answer (set_queue q w) = Some (w', new) → TrackInv w' (evs ++ new).
Proof.
  intros [] Hq Ha Hr. rewrite Hq in ti_flow0. cbn in ti_flow0.
  assert (∀ e, tProcessedOf e = Some t → tAcceptedOf e = None →
    omap tProcessedOf (evs ++ [e]) ++ omap tPendingOf q =
    captureTrack (tDeepCopy w) <$> omap tAcceptedOf (evs ++ [e])) as Hflow.
  { intros e Hp Hacc. rewrite !omap_app. cbn. rewrite Hp, Hacc, app_nil_r, <- ti_flow0.
    by rewrite <- app_assoc. }
  pose proof (is_code_open _ write_error_code) as Hwe.
  assert (storeCode WRITE_ERROR ≠ 0) as Hwe' by (rewrite storeCode_code; [done|apply write_error_code]).
  assert (∀ e, answer = Some e → storeCode e ≠ 0) as Hans.
  { intros e ->. rewrite storeCode_code by done. by apply is_code_open. }
  destruct t; cbn [runTrack] in Hr;
    unfold setTrackAliasLambda, beginSubgroupLambda, objectStreamLambda, datagramLambda,
      publishDoneLambda in Hr; try (destruct sub; [|done]);
    try (destruct (filters _ !! _); cbn [mbind option_bind] in Hr; [|done]);
    cbn [tDownstream set_queue] in Hr; destruct (tDownstream w); try destruct answer as [e|];
    cbn in Hr; simplify_eq; constructor; cbn; try (by apply Hflow); rewrite failures_app;
    unfold failures at 2; cbn; rewrite ?Z.add_0_r; try done; auto;
    first [ rewrite ti_streams0 | rewrite ti_datagrams0 ]; apply u64_succ.
Qed.

Lemma track_step s s' evs new a : SysInv s evs → TrackInv (world_ s) evs → admissible s a →
  step s a = Some (s', new) → TrackInv (world_ s') (evs ++ new).
Proof.
  intros Hs Ht Ha Hst. destruct a as [id c|id|t| |deep| |id| |answer]; cbn [step] in Hst.
  - destruct Ha as (f & Hf & _). destruct (callFilter_spec id c (world_ s) f Hf) as (w' & evs' & Hc & Hspec).
    rewrite Hc in Hst. cbn [mbind option_bind] in Hst. simplify_eq. cbn [world_].
    destruct (isReset c); [destruct Hspec as [-> ->]|destruct (loadDeferredError f);
      [destruct Hspec as [-> ->]|destruct Hspec as (f' & _ & -> & ->)]];
      eapply trackInv_frame; try done; unfold enqueueDeactivate; try (destruct (selfGuard_ f)); try done;
      cbn; rewrite omap_app; cbn; by rewrite app_nil_r.
  - destruct Ha as (f & Hf & _). unfold awaitReadyToConsume, guarded in Hst. rewrite Hf in Hst.
    cbn [mbind option_bind] in Hst. destruct (loadDeferredError f); simplify_eq; cbn [world_];
      eapply trackInv_frame; try done; unfold enqueueDeactivate; try (destruct (selfGuard_ f)); try done;
      cbn; rewrite omap_app; cbn; by rewrite app_nil_r.
  - destruct (callTrack_spec t (world_ s)) as (w' & evs' & Hc & Hspec). rewrite Hc in Hst.
    cbn [mbind option_bind] in Hst. simplify_eq. cbn [world_].
    destruct (loadCode _); destruct t; destruct_and?; subst;
      first [ by eapply trackInv_accept | by eapply trackInv_frame ].
  - unfold awaitStreamCredit, trackGuarded in Hst. destruct (loadCode _); simplify_eq;
      by eapply trackInv_frame.
  - simplify_eq. by eapply trackInv_frame.
  - simplify_eq. eapply trackInv_frame; try done. cbn. rewrite omap_app. cbn. by rewrite app_nil_r.
  - destruct Ha as (f & Hf & _). rewrite Hf in Hst. cbn in Hst. simplify_eq. by eapply trackInv_frame.
  - simplify_eq. by eapply trackInv_frame.
  - destruct (queue (world_ s)) as [|l q] eqn:Hq; unfold runHead in Hst; rewrite Hq in Hst.
    { cbn in Hst. simplify_eq. by eapply trackInv_frame. }
    destruct l as [id c|sub t|id|].
    + destruct (captures _ _ || _); [|done]. destruct (filters _ !! id) as [f|]; [|done].
      cbn [mbind option_bind] in Hst.
      destruct (runFilter_spec (Header:=Header) (Done:=Done) id c answer f) as (f' & Hr & _). rewrite Hr in Hst.
      cbn in Hst. simplify_eq. eapply trackInv_frame; try done; cbn; [by destruct (downstream_ f)|].
      by rewrite Hq.
    + destruct (capturesTrack _ || _); [|done].
      destruct (runTrack sub t answer (set_queue q (world_ s))) as [[w' evs']|] eqn:Hr; [|done].
      cbn in Hst. simplify_eq. by eapply trackInv_run.
    + cbn in Hst. simplify_eq. eapply trackInv_frame; try done. cbn. by rewrite Hq.
    + cbn in Hst. simplify_eq. eapply trackInv_frame; try done; destruct answer; cbn; by rewrite ?Hq.
Qed.

Lemma run_track_inv deep inner evs s : run (newSystem deep inner) evs s → TrackInv (world_ s) evs.
Proof.
  intros Hr. remember (newSystem deep inner) as s0 eqn:E.
  induction Hr as [s|s evs s1 a s2 new Hr IH Ha Hst]; subst.
  - by constructor.
  - eapply track_step; [by eapply run_inv|by apply IH|done|done].
Qed.

(** ** The content of calls *)

Definition payloadContent (p : Payload (IOBuf:=IOBuf)) : Payload (IOBuf:=list Z) := bytes <$> p.

(** A call with its payload reduced to the bytes it holds. *)
Definition contents c : FilterCall (IOBuf:=list Z) (Extensions:=Extensions) :=
  match c with
  | SubgroupC (SObject o p e fin) => SubgroupC (SObject o (payloadContent p) e fin)
  | SubgroupC (SBeginObject o n p e) => SubgroupC (SBeginObject o n (payloadContent p) e)
  | SubgroupC (SObjectPayload p fin) => SubgroupC (SObjectPayload (payloadContent p) fin)
  | SubgroupC (SEndOfGroup o) => SubgroupC (SEndOfGroup o)
  | SubgroupC (SEndOfTrackAndGroup o) => SubgroupC (SEndOfTrackAndGroup o)
  | SubgroupC SEndOfSubgroup => SubgroupC SEndOfSubgroup
  | SubgroupC SCheckpoint => SubgroupC SCheckpoint
  | SubgroupC (SReset e) => SubgroupC (SReset e)
  | FetchC (FObject g sg o p e fin dg) => FetchC (FObject g sg o (payloadContent p) e fin dg)
  | FetchC (FBeginObject g sg o n p e) => FetchC (FBeginObject g sg o n (payloadContent p) e)
  | FetchC (FObjectPayload p fin) => FetchC (FObjectPayload (payloadContent p) fin)
  | FetchC (FEndOfGroup g sg o fin) => FetchC (FEndOfGroup g sg o fin)
  | FetchC (FEndOfTrackAndGroup g sg o) => FetchC (FEndOfTrackAndGroup g sg o)
  | FetchC FEndOfFetch => FetchC FEndOfFetch
  | FetchC FCheckpoint => FetchC FCheckpoint
  | FetchC (FEndOfUnknownRange g o fin) => FetchC (FEndOfUnknownRange g o fin)
  | FetchC (FReset e) => FetchC (FReset e)
  end.

Definition payloadOf c : Payload (IOBuf:=IOBuf) :=
  match c with
  | SubgroupC (SObject _ p _ _) | SubgroupC (SBeginObject _ _ p _) | SubgroupC (SObjectPayload p _)
  | FetchC (FObject _ _ _ p _ _ _) | FetchC (FBeginObject _ _ _ _ p _) | FetchC (FObjectPayload p _) => p
  | _ => None
  end.

Lemma maybeDeepCopy_content p deep : payloadContent (maybeDeepCopy p deep) = payloadContent p.
Proof.
  destruct p as [b|], deep; cbn; try done. unfold payloadContent. cbn.
  by rewrite bytes_unshare, bytes_clone.
Qed.

Lemma contents_capture deep c : contents (capture deep c) = contents c.
Proof. destruct c as [[]|[]]; cbn; by rewrite ?maybeDeepCopy_content. Qed.

Lemma capture_unshared c b : payloadOf (capture true c) = Some b → isShared b = false.
Proof.
  intros Hb. assert (∃ p, Some b = maybeDeepCopy p true) as [[b'|] Hp].
  { destruct c as [[]|[]]; cbn in Hb; try done; by eexists. }
  - injection Hp as ->. apply clone_unshared.
  - done.
Qed.

(** The same for the calls on the track. *)
Definition trackContents t : TrackCall (IOBuf:=list Z) (Header:=Header) (Done:=Done) :=
  match t with
  | TSetTrackAlias alias => TSetTrackAlias alias
  | TBeginSubgroup g sg p b => TBeginSubgroup g sg p b
  | TObjectStream h p b => TObjectStream h (payloadContent p) b
  | TDatagram h p b => TDatagram h (payloadContent p) b
  | TPublishDone d => TPublishDone d
  end.

Lemma trackContents_capture deep t : trackContents (captureTrack deep t) = trackContents t.
Proof. destruct t; cbn; by rewrite ?maybeDeepCopy_content. Qed.

Definition trackPayload t : Payload (IOBuf:=IOBuf) :=
  match t with TObjectStream _ p _ | TDatagram _ p _ => p | _ => None end.

Lemma captureTrack_unshared t b : trackPayload (captureTrack true t) = Some b → isShared b = false.
Proof.
  intros Hb. assert (∃ p, Some b = maybeDeepCopy p true) as [[b'|] Hp].
  { destruct t; cbn in Hb; try done; by eexists. }
  - injection Hp as ->. apply clone_unshared.
  - done.
Qed.

(** ** Draining the queue *)

Fixpoint targetSteps (answers : list (option Z)) s : option (system * list event) :=
  match answers with
  | [] => Some (s, [])
  | answer :: answers' =>
      '(s1, new) ← step s (Target answer);
      '(s2, new') ← targetSteps answers' s1; Some (s2, new ++ new')
  end.

Definition answersOk (answers : list (option Z)) : Prop :=
  Forall (λ answer, match answer with Some e => is_code e | None => True end) answers.

Lemma runTrack_queue sub t answer w w' new : runTrack sub t answer w = Some (w', new) →
  queue w' = queue w.
Proof.
  destruct t; cbn [runTrack];
    unfold setTrackAliasLambda, beginSubgroupLambda, objectStreamLambda, datagramLambda,
      publishDoneLambda; try (destruct sub; [|done]);
    try (destruct (filters w !! _); cbn [mbind option_bind]; [|done]);
    destruct (tDownstream w); try destruct answer; intros [= <- <-]; done.
Qed.

Lemma target_pops s s' new answer : step s (Target answer) = Some (s', new) →
  queue (world_ s') = tail (queue (world_ s)).
Proof.
  cbn [step]. unfold runHead. destruct (queue (world_ s)) as [|[id c|sub t|id|] q] eqn:Hq.
  - cbn. intros [= <- <-]. done.
  - destruct (captures _ _ || _); [|done]. destruct (filters _ !! id) as [f|]; [|done].
    cbn [mbind option_bind]. destruct (runFilter _ _ _ _). cbn. by intros [= <- <-].
  - destruct (capturesTrack _ || _); [|done]. destruct (runTrack _ _ _ _) as [[w' evs']|] eqn:Hr; [|done].
    cbn. intros [= <- <-]. by apply runTrack_queue in Hr.
  - cbn. by intros [= <- <-].
  - cbn. intros [= <- <-]. by destruct answer.
Qed.

Lemma targetSteps_ok answers s evs : SysInv s evs → answersOk answers →
  ∃ s' new, targetSteps answers s = Some (s', new) ∧ SysInv s' (evs ++ new) ∧
    queue (world_ s') = drop (length answers) (queue (world_ s)).
Proof.
  revert s evs. induction answers as [|answer answers IH]; intros s evs Hs Ha.
  - exists s, []. by rewrite app_nil_r.
  - apply Forall_cons in Ha as [Ha Has]. destruct (step_ok s evs (Target answer) Hs Ha) as (s1 & new & Hst & H1').
    destruct (IH s1 _ H1' Has) as (s2 & new' & Hsts & H2' & Hq).
    exists s2, (new ++ new'). cbn [targetSteps]. rewrite Hst. cbn [mbind option_bind]. rewrite Hsts. cbn.
    split; [done|]. rewrite app_assoc. split; [done|]. rewrite Hq, (target_pops _ _ _ _ Hst).
    destruct (queue (world_ s)); cbn; [by rewrite drop_nil|done].
Qed.

(** ** Theorems *)

(** C14: In every interleaving of the source thread and the target executor in
    which the source keeps to [admissible] (only references it holds, no call
    but a reset on a stream it has finished, no call on the track after
    [publishDone], and the track filter dropped only after [publishDone] or
    when none of its calls is queued), no lambda uses a filter that has been
    destroyed, whatever the downstream answers; and while the source has
    neither finished nor reset a stream, no pending lambda writes its
    [selfGuard_], which the source may then move.  [dropped_track_used] shows
    the use after free outside the discipline. *)
Theorem cross_exec_safe deep inner evs s : run (newSystem deep inner) evs s →
  (∀ a, admissible s a → is_Some (step s a)) ∧
  (∀ id f, filters (world_ s) !! id = Some f → id ∉ finished s → id ∉ wasReset s →
     Forall (λ l, deactivates id l = false) (queue (world_ s))).
Proof.
  intros Hr%run_inv. split.
  - intros a Ha. destruct (step_ok _ _ a Hr Ha) as (s' & new & -> & _). eauto.
  - intros id f Hf Hn1 Hn2. apply (fi_quiet _ _ _ _ _ _ _ (si_filter _ _ Hr _ _ Hf));
      by apply bool_decide_eq_false_2.
Qed.

(** C15: The downstream consumer receives the accepted calls in order, each once
    and with the same bytes, in buffers of its own if the filter copies
    payloads; calls stop arriving only after an error that the source's next
    call returns, and a call is pending only while its lambda is queued. *)
Theorem cross_exec_delivery deep inner evs s id f : run (newSystem deep inner) evs s →
  filters (world_ s) !! id = Some f →
  contents <$> (delivered id evs ++ skipped id evs ++ pending id (queue (world_ s))) =
    contents <$> acceptedCalls id evs ∧
  (deepCopyPayload_ f = true → ∀ c b, c ∈ delivered id evs → payloadOf c = Some b → isShared b = false) ∧
  (skipped id evs ≠ [] → loadDeferredError f = Some (deferredError_ f)).
Proof.
  intros Hr%run_inv Hf. destruct (si_filter _ _ Hr _ _ Hf).
  split; [|split].
  - rewrite fi_flow, <- list_fmap_compose. apply list_fmap_ext. intros _ c _. apply contents_capture.
  - intros Hd c b Hc Hb. assert (c ∈ capture (deepCopyPayload_ f) <$> acceptedCalls id evs) as Hc'.
    { rewrite <- fi_flow. apply elem_of_app. by left. }
    apply list_elem_of_fmap in Hc' as (c' & -> & _). rewrite Hd in Hb. by eapply capture_unshared.
  - intros Hx. destruct (fi_skipped Hx) as (_ & Hn & _). unfold loadDeferredError, loadCode.
    by destruct (Z.eqb_spec (deferredError_ f) 0).
Qed.

(** C38: Once the target has run what is queued, every stream that the source
    has finished, reset or seen fail, and whose reference it has dropped, is
    destroyed: the self reference does not leak. *)
Theorem cross_exec_no_leak deep inner evs s answers : run (newSystem deep inner) evs s →
  answersOk answers → (length (queue (world_ s)) <= length answers)%nat →
  ∃ s' new, targetSteps answers s = Some (s', new) ∧ queue (world_ s') = [] ∧
    ∀ id f, filters (world_ s') !! id = Some f → held f = false →
      id ∈ finished s' ∪ told s' ∪ wasReset s' → alive (world_ s') id = false.
Proof.
  intros Hr%run_inv Ha Hl. destruct (targetSteps_ok answers s evs Hr Ha) as (s' & new & Hst & Hs & Hq).
  exists s', new. rewrite drop_ge in Hq by lia. split; [done|]. split; [done|].
  intros id f Hf Hh Hin. destruct (si_filter _ _ Hs _ _ Hf).
  unfold alive. rewrite Hf, Hh, Hq in *. cbn. rewrite orb_false_r.
  destruct fi_done as [|Hx]; [|done|by apply Exists_nil in Hx].
  apply orb_true_iff. rewrite orb_true_iff, !bool_decide_eq_true. set_solver.
Qed.

(** C39: Calls on the track reach the target in order, each once and with the
    same bytes, in buffers of its own if the filter copies payloads; every
    object stream and datagram that fails or finds no consumer is counted
    (modulo the 64 bits of the counters); and once a track alias has failed,
    every further call but [publishDone] is refused with the stored error.
    The source keeps to [admissible]. *)
Theorem track_calls_accounted deep inner evs s : run (newSystem deep inner) evs s →
  trackContents <$> (omap tProcessedOf evs ++ omap tPendingOf (queue (world_ s))) =
    trackContents <$> omap tAcceptedOf evs ∧
  (tDeepCopy (world_ s) = true → ∀ t b, t ∈ omap tProcessedOf evs → trackPayload t = Some b → isShared b = false) ∧
  objectStreamErrors_ (world_ s) = u64 (failures isStream evs) ∧
  datagramErrors_ (world_ s) = u64 (failures isDatagram evs) ∧
  (failures isAlias evs ≠ 0 →
     ∀ t, isDone t = false →
       callTrack t (world_ s) = Some (world_ s, [TRejected (tDeferredError (world_ s))]) ∧
       tDeferredError (world_ s) ≠ 0).
Proof.
  intros Hr%run_track_inv. destruct Hr. split_and!; [| |done|done|].
  - rewrite ti_flow0, <-list_fmap_compose. apply list_fmap_ext. intros _ t _. apply trackContents_capture.
  - intros Hd t b Ht Hb. assert (t ∈ captureTrack (tDeepCopy (world_ s)) <$> omap tAcceptedOf evs) as Ht'.
    { rewrite <-ti_flow0. apply elem_of_app. by left. }
    apply list_elem_of_fmap in Ht' as (t' & -> & _). rewrite Hd in Hb. by eapply captureTrack_unshared.
  - intros Hx%ti_alias0 t Ht. split; [|done]. destruct (callTrack_spec t (world_ s)) as (w' & new & -> & Hspec).
    assert (He : loadCode (tDeferredError (world_ s)) = Some (tDeferredError (world_ s))).
    { unfold loadCode. by destruct (Z.eqb_spec (tDeferredError (world_ s)) 0). }
    rewrite He in Hspec. destruct t; try discriminate; by destruct Hspec as [-> ->].
Qed.

(** ** The byte tracker *)

Definition payloadLength (p : Payload (IOBuf:=IOBuf)) : Z :=
  match p with Some b => Z.of_nat (length (bytes b)) | None => 0 end.

Fixpoint consumeAll (remaining : Z) (ps : list (Payload (IOBuf:=IOBuf))) : Z :=
  match ps with [] => remaining | p :: ps' => consumeAll (consume remaining p).1 ps' end.

Definition totalLength (ps : list (Payload (IOBuf:=IOBuf))) : Z :=
  foldr (λ p n, payloadLength p + n) 0 ps.

Lemma totalLength_nonneg ps : 0 <= totalLength ps.
Proof.
  induction ps as [|p ps IH]; unfold totalLength in *; cbn [foldr]; [lia|].
  unfold payloadLength at 1. destruct p; lia.
Qed.

Lemma consume_remaining r p : 0 <= r → (consume r p).1 = Z.max 0 (r - payloadLength p).
Proof.
  intros Hr. unfold consume, payloadLength. cbn [fst]. destruct p as [b|]; [|lia].
  rewrite chain_length. destruct (Z.ltb_spec 0 r); lia.
Qed.

Lemma consumeAll_remaining r ps : 0 <= r → consumeAll r ps = Z.max 0 (r - totalLength ps).
Proof.
  revert r. induction ps as [|p ps IH]; intros r Hr; cbn [consumeAll totalLength foldr]; [lia|].
  rewrite consume_remaining, IH by lia. change (foldr _ 0 ps) with (totalLength ps).
  pose proof (totalLength_nonneg ps). unfold payloadLength. destruct p; lia.
Qed.

(** [objectPayload] answers DONE exactly when the pieces since [beginObject],
    the last one included, hold at least the announced length. *)
Theorem payload_status_exact n p0 ps p : 0 <= n →
  (consume (consumeAll (trackerBeginObject n p0) ps) p).2 =
    if n <=? totalLength (p0 :: ps ++ [p]) then DONE else IN_PROGRESS.
Proof.
  intros Hn.
  assert (trackerBeginObject n p0 = Z.max 0 (n - payloadLength p0)) as ->.
  { unfold trackerBeginObject, payloadLength. destruct p0; rewrite ?chain_length; lia. }
  assert (totalLength (p0 :: ps ++ [p]) = payloadLength p0 + totalLength ps + payloadLength p) as ->.
  { unfold totalLength. cbn [foldr]. induction ps as [|p' ps IH]; cbn [foldr app]; lia. }
  unfold consume. cbv zeta. cbn [snd]. fold (consume (consumeAll (Z.max 0 (n - payloadLength p0)) ps) p).
  pose proof (consume_remaining (consumeAll (Z.max 0 (n - payloadLength p0)) ps) p) as Hc.
  rewrite consumeAll_remaining in * by lia. unfold consume in Hc. cbv zeta in Hc. cbn [fst] in Hc.
  rewrite Hc by lia. pose proof (totalLength_nonneg ps).
  assert (0 <= payloadLength p0 ∧ 0 <= payloadLength p) as [? ?] by (unfold payloadLength; destruct p0, p; lia).
  destruct (Z.leb_spec n (payloadLength p0 + totalLength ps + payloadLength p));
    [rewrite (proj2 (Z.eqb_eq _ _)) by lia|rewrite (proj2 (Z.eqb_neq _ _)) by lia]; done.
Qed.

(** ** Concrete runs *)

Definition admissibleb s a : bool :=
  match a with
  | Call id c => match filters (world_ s) !! id with
      | Some f => held f && eqb (isFetch f) (forFetch c) &&
                  (negb (bool_decide (id ∈ finished s)) || isReset c)
      | None => false
      end
  | AwaitReady id => match filters (world_ s) !! id with
      | Some f => held f && negb (bool_decide (id ∈ finished s))
      | None => false
      end
  | CallTrack _ | AwaitCredit => tHeld (world_ s) && negb (trackDone s)
  | NewFetch _ | StartPublish => true
  | Drop id => match filters (world_ s) !! id with Some f => held f | None => false end
  | DropTrack => tHeld (world_ s) &&
      (trackDone s || forallb (λ l, negb (usesTrack l)) (queue (world_ s)))
  | Target answer => match answer with Some e => (0 <? e) && (e <? 2 ^ 32) | None => true end
  end.

Lemma admissibleb_sound s a : admissibleb s a = true → admissible s a.
Proof.
  destruct a; cbn; try done.
  - destruct (filters _ !! id) as [f|]; [|done]. intros [[Hh Hk%eqb_prop]%andb_prop Hf]%andb_prop.
    exists f. split; [done|]. split; [done|]. split; [done|]. intros Hx.
    rewrite bool_decide_eq_true_2 in Hf by done. done.
  - destruct (filters _ !! id) as [f|]; [|done]. intros [Hh Hf%negb_true_iff%bool_decide_eq_false]%andb_prop.
    eauto.
  - by intros [? ?%negb_true_iff]%andb_prop.
  - by intros [? ?%negb_true_iff]%andb_prop.
  - destruct (filters _ !! id) as [f|]; [|done]. eauto.
  - intros [Hh [Hx|Hx]%orb_prop]%andb_prop; (split; [done|]); [by left|right].
    apply Forall_forall. intros l Hl%list_elem_of_In.
    apply (proj1 (forallb_forall _ _) Hx) in Hl. by apply negb_true_iff.
  - destruct answer; [|done]. unfold is_code. intros [? ?]%andb_prop. lia.
Qed.

Fixpoint runSteps (steps : list action) s : option (system * list event) :=
  match steps with
  | [] => Some (s, [])
  | a :: steps' =>
      if admissibleb s a then
        '(s1, new) ← step s a; '(s2, new') ← runSteps steps' s1; Some (s2, new ++ new')
      else None
  end.

Lemma runSteps_from steps s0 evs s s' new : run s0 evs s → runSteps steps s = Some (s', new) →
  run s0 (evs ++ new) s'.
Proof.
  revert evs s new. induction steps as [|a steps IH]; intros evs s new Hr; cbn.
  - intros [= <- <-]. by rewrite app_nil_r.
  - destruct (admissibleb s a) eqn:Ha; [|done]. apply admissibleb_sound in Ha.
    destruct (step s a) as [[s1 new1]|] eqn:Hst; [|done]. cbn.
    destruct (runSteps steps s1) as [[s2 new2]|] eqn:Hsts; [|done]. cbn. intros [= <- <-].
    rewrite app_assoc. eapply IH; [|done]. by eapply run_step.
Qed.

Lemma runSteps_run steps s s' new : runSteps steps s = Some (s', new) → run s new s'.
Proof. apply (runSteps_from steps s [] s). apply run_nil. Qed.
End Theorems.
