(* ===== verification/CrossExecExamples.v ===== *)
(** * Cross-executor filters: runs

    Chains of buffers as lists, the runs at which the theorems apply, and runs
    outside the discipline: two threads that touch one pointer, a track that is
    dropped too early, and a stream that is abandoned. *)

From S2P Require Import Prelude CrossExec CrossExecSystem CrossExecTheorems.

Module CrossExecExamples.

(** A chain of buffers, each with a flag that says whether its storage is
    shared.  A chain of one buffer is cloned by sharing it, a longer one by
    copying. *)
Definition Chain : Type := list (bool * list Z).

Definition clone (b : Chain) : Chain :=
  match b with
  | [(_, d)] => [(true, d)]
  | _ => [(false, mjoin (snd <$> b))]
  end.

#[export] Instance chainOps : IOBufOps Chain := {
  bytes b := mjoin (snd <$> b);
  isShared b := existsb fst b;
  computeChainDataLength b := Z.of_nat (length (mjoin (snd <$> b)));
  cloneCoalesced := clone;
  unshare b := (λ x, (false, x.2)) <$> b
}.

#[export] Instance chainLaws : IOBufLaws Chain.
Proof.
  split; [done| | |].
  - intros b. destruct b as [|[sh d] [|x b]]; cbn; by rewrite ?app_nil_r.
  - intros b. cbn. by rewrite <- list_fmap_compose.
  - intros b. by destruct b as [|[sh d] [|x b]].
Qed.

#[export] Instance codes : PublishErrorCodes := { WRITE_ERROR := 2; CANCELLED := 3 }.
#[export] Instance codeLaws : PublishErrorLaws.
Proof. split; by vm_compute. Qed.

#[local] Abbreviation action := (Step (IOBuf:=Chain) (Extensions:=unit) (Header:=Z) (Done:=unit)).
#[local] Abbreviation system := (System (IOBuf:=Chain) (Extensions:=unit) (Header:=Z) (Done:=unit)).
#[local] Abbreviation event := (Event (IOBuf:=Chain) (Extensions:=unit) (Header:=Z) (Done:=unit)).
#[local] Abbreviation lambda := (Lambda (IOBuf:=Chain) (Extensions:=unit) (Header:=Z) (Done:=unit)).

Definition start : system := newSystem true true.
Definition sobject (id o : Z) (d : list Z) (fin : bool) : action :=
  Call id (SubgroupC (SObject o (Some [(true, d)]) tt fin)).

(** A subgroup with two objects, of which the downstream refuses the first:
    the second is skipped and the source learns of the error. *)
Definition refusedRun : list action :=
  [CallTrack (TBeginSubgroup 1 0 128 false); sobject 0 0 [7; 8] false; sobject 0 1 [9] false;
   Target None; Target (Some 5); Target None; sobject 0 2 [10] true; Drop 0].

(** A subgroup that is served to its end. *)
Definition servedRun : list action :=
  [CallTrack (TBeginSubgroup 1 0 128 false); sobject 0 0 [7; 8] false;
   CallTrack (TObjectStream 4 None true); Target None; Target None; sobject 0 1 [9] true; Drop 0].

Definition after (steps : list action) : system :=
  match runSteps steps start with Some (s, _) => s | None => start end.
Definition eventsOf (steps : list action) : list event :=
  match runSteps steps start with Some (_, evs) => evs | None => [] end.

Lemma refused_runs : runSteps refusedRun start = Some (after refusedRun, eventsOf refusedRun).
Proof. by vm_compute. Qed.
Lemma served_runs : runSteps servedRun start = Some (after servedRun, eventsOf servedRun).
Proof. by vm_compute. Qed.

Definition refusedFilter : Filter := mkFilter false true 5 false false true 0 false.
Lemma refused_filter : filters (world_ (after refusedRun)) !! 0 = Some refusedFilter.
Proof. by vm_compute. Qed.

Example refused_events :
  delivered 0 (eventsOf refusedRun) = [SubgroupC (SObject 0 (Some [(false, [7; 8])]) tt false)] ∧
  skipped 0 (eventsOf refusedRun) = [SubgroupC (SObject 1 (Some [(false, [9])]) tt false)] ∧
  told (after refusedRun) = {[0]}.
Proof. by vm_compute. Qed.

Lemma cross_exec_safe_witness :
  is_Some (step (after servedRun) (Target (Some 5))).
Proof.
  apply (proj1 (cross_exec_safe true true (eventsOf servedRun) (after servedRun)
                  (runSteps_run servedRun start _ _ served_runs))).
  apply admissibleb_sound. reflexivity.
Defined.

Lemma cross_exec_delivery_witness :
  contents <$> (delivered 0 (eventsOf refusedRun) ++ skipped 0 (eventsOf refusedRun) ++
                pending 0 (queue (world_ (after refusedRun)))) =
  contents <$> acceptedCalls 0 (eventsOf refusedRun).
Proof.
  apply (cross_exec_delivery true true (eventsOf refusedRun) (after refusedRun) 0 refusedFilter
           (runSteps_run refusedRun start _ _ refused_runs) refused_filter).
Defined.

Lemma cross_exec_no_leak_witness :
  ∃ s' new, targetSteps [None; None; None] (after servedRun) = Some (s', new) ∧
    queue (world_ s') = [] ∧
    ∀ id f, filters (world_ s') !! id = Some f → held f = false →
      id ∈ finished s' ∪ told s' ∪ wasReset s' → alive (world_ s') id = false.
Proof.
  apply (cross_exec_no_leak true true (eventsOf servedRun) (after servedRun) [None; None; None]
           (runSteps_run servedRun start _ _ served_runs)).
  - repeat constructor.
  - vm_compute. lia.
Defined.

Example served_destroyed :
  match targetSteps [None; None; None] (after servedRun) with
  | Some (s', _) => alive (world_ s') 0 = false ∧ held <$> filters (world_ s') !! 0 = Some false ∧
                    0 ∈ finished s'
  | None => False
  end.
Proof. vm_compute. split; [done|]. split; [done|]. set_solver. Qed.

(** A track whose alias is refused after an object: the object arrives as it
    was, and the next datagram is refused. *)
Definition aliasRun : list action :=
  [CallTrack (TObjectStream 4 (Some [(true, [1; 2])]) true); CallTrack (TSetTrackAlias 9); Target None; Target (Some 5)].

Lemma alias_runs : runSteps aliasRun start = Some (after aliasRun, eventsOf aliasRun).
Proof. by vm_compute. Qed.

Lemma track_calls_accounted_witness :
  trackContents <$> omap tProcessedOf (eventsOf aliasRun) =
    [TObjectStream 4 (Some [1; 2]) true; TSetTrackAlias 9] ∧
  callTrack (TDatagram 5 None true) (world_ (after aliasRun)) =
    Some (world_ (after aliasRun), [TRejected 5]).
Proof.
  destruct (track_calls_accounted true true (eventsOf aliasRun) (after aliasRun)
              (runSteps_run aliasRun start _ _ alias_runs)) as (H1 & _ & _ & _ & H5). split.
  - transitivity (trackContents <$> omap tAcceptedOf (eventsOf aliasRun)); [|reflexivity].
    rewrite <-H1. reflexivity.
  - apply H5; [vm_compute; discriminate|reflexivity].
Defined.

Lemma payload_status_exact_witness :
  (consume (consumeAll (trackerBeginObject 3 (Some [(true, [1])])) [None])
     (Some [(true, [2]); (false, [3])])).2 = DONE.
Proof.
  rewrite (payload_status_exact (IOBuf:=Chain) 3 (Some [(true, [1])]) [None]
             (Some [(true, [2]); (false, [3])])); [reflexivity|lia].
Defined.

(** After [reset] the source may still call the filter ([reset] stores the
    error on the calling thread so that such calls fail): the next call moves
    [selfGuard_] while the lambda at the head of the queue resets it, and
    nothing orders the two accesses. *)
Theorem reset_then_call_races :
  ∃ (s : system) evs f q e, run start evs s ∧ filters (world_ s) !! 0 = Some f ∧
    queue (world_ s) = FilterLambda 0 (FetchC (FReset e)) :: q ∧
    deactivates 0 (FilterLambda 0 (FetchC (FReset e)) : lambda) = true ∧
    selfGuard_ f = true ∧ loadDeferredError f = Some CANCELLED ∧
    admissible s (Call 0 (FetchC FCheckpoint)).
Proof.
  destruct (runSteps [NewFetch false; Call 0 (FetchC (FReset 1))] start) as [[s evs]|] eqn:E;
    [|discriminate].
  exists s, evs. destruct (filters (world_ s) !! 0) as [f|] eqn:Hf.
  - exists f, [], 1. pose proof (runSteps_run _ _ _ _ E) as Hr. vm_compute in E. simplify_eq.
    vm_compute in Hf. simplify_eq. repeat (split; [done|]). apply admissibleb_sound. reflexivity.
  - vm_compute in E. simplify_eq.
Qed.

(** The lambdas of the track capture [this]: without [publishDone], dropping the
    last reference while one is queued is a use after free. *)
Theorem dropped_track_used :
  ∃ s : system,
    (step start (CallTrack (TObjectStream 4 None true)) ≫= λ r, step r.1 DropTrack) = Some (s, []) ∧
    step s (Target None) = None.
Proof. eexists. split; reflexivity. Qed.

(** A subgroup whose source drops it after an error, without another call, is
    never destroyed: nothing releases its reference to itself. *)
Theorem abandoned_stream_leaks :
  match runSteps [CallTrack (TBeginSubgroup 1 0 128 false); Target (Some 5); Drop 0] start with
  | Some (s, _) => queue (world_ s) = [] ∧ alive (world_ s) 0 = true ∧
      (deferredError_ <$> filters (world_ s) !! 0) = Some 5
  | None => False
  end.
Proof. by vm_compute. Qed.

(** Objects sent before the reply of [publish] has started meet no consumer and
    are counted as errors; after it they are delivered. *)
Example publish_before_data :
  match runSteps [StartPublish; CallTrack (TObjectStream 4 None true); Target None; Target None]
          (newSystem true false : system) with
  | Some (s, evs) => objectStreamErrors_ (world_ s) = 0 ∧
      evs = [TAccepted (TObjectStream 4 None true); Published None;
             TDelivered (TObjectStream 4 None true) None]
  | None => False
  end.
Proof. by vm_compute. Qed.

Example data_before_publish :
  match runSteps [CallTrack (TObjectStream 4 None true); StartPublish; Target None; Target None]
          (newSystem true false : system) with
  | Some (s, evs) => objectStreamErrors_ (world_ s) = 1 ∧ tDownstream (world_ s) = true
  | None => False
  end.
Proof. by vm_compute. Qed.

End CrossExecExamples.
