(* ===== verification/ClientMetrics.v ===== *)
(** * ClientNetworkMetrics: samples of the transport, per connection

    Models [src/src/stats/ClientNetworkMetrics.{h,cpp}]: the store with its
    histories and the sessions that own the connections, and the observer that
    feeds it from the events of a connection.

    - [uint64_t] arithmetic wraps ([u64]); fractions are [double]s.  Times are
      nanoseconds of the steady clock, the durations of the constructor are in
      milliseconds.  [now] is the reading of the clock that a call makes.
    - The service of [SbdService] is called where the store has one.
    - [std::set]s are [gset]s, listed in order; the [snapshot] sorts its result
      by connection, so the order of the map does not matter.
    - The file of RTT samples and its timer are not modelled. *)

From S2P Require Import Prelude SbdDetector SbdGroups WeiDetector SbdService.

(** ** Data *)

Record ClientNetworkMetrics := mkMetrics {
  connectionId : string; peerAddress : string;
  isActive : bool; appLimited : bool; ecnCapable : bool;
  srttUs : Z; rttVarUs : Z; minRttUs : Z; queueDelayUs : Z; cwndBytes : Z; inflightBytes : Z;
  writableBytes : Z; ackedRateBps : Z; pacingRateBps : Z;
  ackedPackets : Z; lostPackets : Z; retransmittedPackets : Z; ect0 : Z; ect1 : Z; ce : Z;
  ceFraction : double; l4sWeight : double;
  updatedAt : Z;
  windowSamples : Z; windowDurationMs : Z;
  windowAckedPackets : Z; windowEct0 : Z; windowEct1 : Z; windowCe : Z; windowLostPackets : Z;
  windowRetransmittedPackets : Z;
  windowCeFraction : double; windowLossRate : double;
  windowQueueDelayTrendUs : Z; windowSrttTrendUs : Z; windowAckedRateTrendBps : Z;
  windowCwndTrendBytes : Z;
  windowWritableBlockedFraction : double; windowAppLimitedFraction : double;
  windowCounterReset : bool;
  sessionMapped : bool;
  publishedTracksOut : list string; publishedNamespacesOut : list string;
  trackSubscriptionsOut : list string; namespaceSubscriptionsOut : list string
}.

Definition newMetrics (id peer : string) : ClientNetworkMetrics :=
  mkMetrics id peer true false false 0 0 0 0 0 0 0 0 0 0 0 0 0 0 0 fzero fzero 0
    0 0 0 0 0 0 0 0 fzero fzero 0 0 0 0 fzero fzero false false [] [] [] [].

Record HistorySample := mkSample {
  metrics : ClientNetworkMetrics;
  newAckedPackets : Z; newEct0 : Z; newEct1 : Z; newCe : Z; newLostPackets : Z;
  newRetransmittedPackets : Z;
  counterReset : bool
}.

Record SessionMetadata := mkSession {
  relayPeer : bool;
  publishedTracks : gset string; publishedNamespaces : gset string;
  trackSubscriptions : gset string; namespaceSubscriptions : gset string
}.

Definition newSession : SessionMetadata := mkSession false ∅ ∅ ∅ ∅.

Record Store := mkStore {
  sbdService : option Service;
  clients_ : gmap string ClientNetworkMetrics;
  sessions_ : gmap string SessionMetadata;
  histories_ : gmap string (list HistorySample);
  historyWindow_ : Z; sampleInterval_ : Z; inactiveRetention_ : Z
}.

Definition newStore (svc : option Service) (window interval retention : Z) : Store :=
  mkStore svc ∅ ∅ ∅ window interval retention.

Definition set_service (svc : option Service) (st : Store) : Store :=
  mkStore svc (clients_ st) (sessions_ st) (histories_ st) (historyWindow_ st)
    (sampleInterval_ st) (inactiveRetention_ st).
Definition set_clients (m : gmap string ClientNetworkMetrics) (st : Store) : Store :=
  mkStore (sbdService st) m (sessions_ st) (histories_ st) (historyWindow_ st)
    (sampleInterval_ st) (inactiveRetention_ st).
Definition set_sessions (m : gmap string SessionMetadata) (st : Store) : Store :=
  mkStore (sbdService st) (clients_ st) m (histories_ st) (historyWindow_ st)
    (sampleInterval_ st) (inactiveRetention_ st).
Definition set_histories (m : gmap string (list HistorySample)) (st : Store) : Store :=
  mkStore (sbdService st) (clients_ st) (sessions_ st) m (historyWindow_ st)
    (sampleInterval_ st) (inactiveRetention_ st).

Definition ns (ms : Z) : Z := ms * 1000000.

(** ** Counters *)

(** The growth of a counter, and whether it went back. *)
Definition delta (current previous : Z) (reset : bool) : Z * bool :=
  if current <? previous then (0, true) else (current - previous, reset).

Definition i64_max : Z := 2 ^ 63 - 1.

Definition trend (current previous : Z) : Z :=
  if previous <=? current then Z.min (current - previous) i64_max
  else - Z.min (previous - current) i64_max.

(** ** put *)

Definition set_updatedAt (t : Z) (m : ClientNetworkMetrics) : ClientNetworkMetrics :=
  mkMetrics (connectionId m) (peerAddress m) (isActive m) (appLimited m) (ecnCapable m)
    (srttUs m) (rttVarUs m) (minRttUs m) (queueDelayUs m) (cwndBytes m) (inflightBytes m)
    (writableBytes m) (ackedRateBps m) (pacingRateBps m) (ackedPackets m) (lostPackets m)
    (retransmittedPackets m) (ect0 m) (ect1 m) (ce m) (ceFraction m) (l4sWeight m) t
    (windowSamples m) (windowDurationMs m) (windowAckedPackets m) (windowEct0 m) (windowEct1 m)
    (windowCe m) (windowLostPackets m) (windowRetransmittedPackets m) (windowCeFraction m)
    (windowLossRate m) (windowQueueDelayTrendUs m) (windowSrttTrendUs m)
    (windowAckedRateTrendBps m) (windowCwndTrendBytes m) (windowWritableBlockedFraction m)
    (windowAppLimitedFraction m) (windowCounterReset m) (sessionMapped m) (publishedTracksOut m)
    (publishedNamespacesOut m) (trackSubscriptionsOut m) (namespaceSubscriptionsOut m).

(** The sample of [m] after [previous]. *)
Definition sampleAfter (previous : option HistorySample) (m : ClientNetworkMetrics) :
    HistorySample :=
  match previous with
  | None => mkSample m 0 0 0 0 0 0 false
  | Some s =>
      let p := metrics s in
      let '(acked, r) := delta (ackedPackets m) (ackedPackets p) false in
      let '(e0, r) := delta (ect0 m) (ect0 p) r in
      let '(e1, r) := delta (ect1 m) (ect1 p) r in
      let '(c, r) := delta (ce m) (ce p) r in
      let '(lost, r) := delta (lostPackets m) (lostPackets p) r in
      let '(retr, r) := delta (retransmittedPackets m) (retransmittedPackets p) r in
      mkSample m acked e0 e1 c lost retr r
  end.

(** The first sample of a window has nothing before it. *)
Definition asFirst (s : HistorySample) : HistorySample := mkSample (metrics s) 0 0 0 0 0 0 false.

Fixpoint popOlder (cutoff : Z) (history : list HistorySample) : list HistorySample :=
  match history with
  | s :: rest => if updatedAt (metrics s) <? cutoff then popOlder cutoff rest else history
  | [] => []
  end.

(** The loop that drops the samples before [cutoff], with the reset of the new
    first sample. *)
Definition trim (cutoff : Z) (history : list HistorySample) : list HistorySample :=
  let kept := popOlder cutoff history in
  if (length kept =? length history)%nat then kept
  else match kept with s :: rest => asFirst s :: rest | [] => [] end.

Definition putHistory (window interval : Z) (m : ClientNetworkMetrics)
    (history : list HistorySample) : list HistorySample :=
  let clockReset := match last history with
                    | Some s => updatedAt m <? updatedAt (metrics s)
                    | None => false
                    end in
  let history := if clockReset then [] else history in
  let due := match last history with
             | Some s => negb (isActive m) || (ns interval <=? updatedAt m - updatedAt (metrics s))
             | None => true
             end in
  if due then trim (updatedAt m - ns window) (history ++ [sampleAfter (last history) m])
  else history.

(** A report without a time is given the time of the call. *)
Definition stamp (now : Z) (m : ClientNetworkMetrics) : ClientNetworkMetrics :=
  if updatedAt m =? 0 then set_updatedAt now m else m.

Definition put (now : Z) (m : ClientNetworkMetrics) (st : Store) : Store :=
  let m := stamp now m in
  let history := default [] (histories_ st !! connectionId m) in
  set_clients (<[connectionId m := m]> (clients_ st))
    (set_histories (<[connectionId m := putHistory (historyWindow_ st) (sampleInterval_ st) m history]>
                      (histories_ st)) st).

(** ** snapshot *)

Definition sumOf (f : HistorySample → Z) (history : list HistorySample) : Z :=
  foldr (λ s n, f s + n) 0 history.

Definition countOf (p : HistorySample → bool) (history : list HistorySample) : Z :=
  Z.of_nat (length (List.filter p history)).

Definition fraction (part whole : Z) : double :=
  if whole =? 0 then fzero else fdiv (of_int part) (of_int whole).

(** The window of a copy of [m] over a history that is not empty. *)
Definition withWindow (history : list HistorySample) (first lst : ClientNetworkMetrics)
    (m : ClientNetworkMetrics) : ClientNetworkMetrics :=
  let acked := u64 (windowAckedPackets m + sumOf newAckedPackets history) in
  let e0 := u64 (windowEct0 m + sumOf newEct0 history) in
  let e1 := u64 (windowEct1 m + sumOf newEct1 history) in
  let c := u64 (windowCe m + sumOf newCe history) in
  let lost := u64 (windowLostPackets m + sumOf newLostPackets history) in
  let retr := u64 (windowRetransmittedPackets m + sumOf newRetransmittedPackets history) in
  let n := Z.of_nat (length history) in
  mkMetrics (connectionId m) (peerAddress m) (isActive m) (appLimited m) (ecnCapable m)
    (srttUs m) (rttVarUs m) (minRttUs m) (queueDelayUs m) (cwndBytes m) (inflightBytes m)
    (writableBytes m) (ackedRateBps m) (pacingRateBps m) (ackedPackets m) (lostPackets m)
    (retransmittedPackets m) (ect0 m) (ect1 m) (ce m) (ceFraction m) (l4sWeight m) (updatedAt m)
    n (u64 (Z.quot (updatedAt lst - updatedAt first) 1000000)) acked e0 e1 c lost retr
    (fraction c (u64 (e0 + e1 + c))) (fraction lost (u64 (acked + lost)))
    (trend (queueDelayUs lst) (queueDelayUs first)) (trend (srttUs lst) (srttUs first))
    (trend (ackedRateBps lst) (ackedRateBps first)) (trend (cwndBytes lst) (cwndBytes first))
    (fdiv (of_int (countOf (λ s, writableBytes (metrics s) =? 0) history)) (of_int n))
    (fdiv (of_int (countOf (λ s, appLimited (metrics s)) history)) (of_int n))
    (windowCounterReset m || existsb counterReset history)
    (sessionMapped m) (publishedTracksOut m) (publishedNamespacesOut m)
    (trackSubscriptionsOut m) (namespaceSubscriptionsOut m).

Definition set_windowSamples (n : Z) (m : ClientNetworkMetrics) : ClientNetworkMetrics :=
  mkMetrics (connectionId m) (peerAddress m) (isActive m) (appLimited m) (ecnCapable m)
    (srttUs m) (rttVarUs m) (minRttUs m) (queueDelayUs m) (cwndBytes m) (inflightBytes m)
    (writableBytes m) (ackedRateBps m) (pacingRateBps m) (ackedPackets m) (lostPackets m)
    (retransmittedPackets m) (ect0 m) (ect1 m) (ce m) (ceFraction m) (l4sWeight m) (updatedAt m)
    n (windowDurationMs m) (windowAckedPackets m) (windowEct0 m) (windowEct1 m)
    (windowCe m) (windowLostPackets m) (windowRetransmittedPackets m) (windowCeFraction m)
    (windowLossRate m) (windowQueueDelayTrendUs m) (windowSrttTrendUs m)
    (windowAckedRateTrendBps m) (windowCwndTrendBytes m) (windowWritableBlockedFraction m)
    (windowAppLimitedFraction m) (windowCounterReset m) (sessionMapped m) (publishedTracksOut m)
    (publishedNamespacesOut m) (trackSubscriptionsOut m) (namespaceSubscriptionsOut m).

Definition windowed (history : list HistorySample) (m : ClientNetworkMetrics) :
    ClientNetworkMetrics :=
  match history, last history with
  | s :: _, Some t => withWindow history (metrics s) (metrics t) m
  | _, _ => set_windowSamples 0 m
  end.

Definition ordered (s : gset string) : list string := sortBy strLt (elements s).

Definition withSession (s : SessionMetadata) (m : ClientNetworkMetrics) : ClientNetworkMetrics :=
  mkMetrics (connectionId m) (peerAddress m) (isActive m) (appLimited m) (ecnCapable m)
    (srttUs m) (rttVarUs m) (minRttUs m) (queueDelayUs m) (cwndBytes m) (inflightBytes m)
    (writableBytes m) (ackedRateBps m) (pacingRateBps m) (ackedPackets m) (lostPackets m)
    (retransmittedPackets m) (ect0 m) (ect1 m) (ce m) (ceFraction m) (l4sWeight m) (updatedAt m)
    (windowSamples m) (windowDurationMs m) (windowAckedPackets m) (windowEct0 m) (windowEct1 m)
    (windowCe m) (windowLostPackets m) (windowRetransmittedPackets m) (windowCeFraction m)
    (windowLossRate m) (windowQueueDelayTrendUs m) (windowSrttTrendUs m)
    (windowAckedRateTrendBps m) (windowCwndTrendBytes m) (windowWritableBlockedFraction m)
    (windowAppLimitedFraction m) (windowCounterReset m) true
    (ordered (publishedTracks s)) (ordered (publishedNamespaces s))
    (ordered (trackSubscriptions s)) (ordered (namespaceSubscriptions s)).

(** The history of a client as [snapshot] leaves it. *)
Definition agedHistory (now window retention : Z) (m : ClientNetworkMetrics)
    (history : list HistorySample) : list HistorySample :=
  if negb (isActive m) && (ns retention <? now - updatedAt m) then []
  else trim (now - ns window) history.

(** The copy that [snapshot] returns for one client. *)
Definition clientView (now : Z) (st : Store) (m : ClientNetworkMetrics) : ClientNetworkMetrics :=
  let copy := match histories_ st !! connectionId m with
              | Some h => windowed (agedHistory now (historyWindow_ st) (inactiveRetention_ st) m h) m
              | None => m
              end in
  match sessions_ st !! connectionId m with
  | Some s => withSession s copy
  | None => copy
  end.

(** [histories_] is mutable: the loop ages the history of every client. *)
Definition ageAll (now : Z) (st : Store) : gmap string (list HistorySample) :=
  map_imap (λ id h, Some (match clients_ st !! id with
                          | Some m => agedHistory now (historyWindow_ st) (inactiveRetention_ st) m h
                          | None => h
                          end)) (histories_ st).

Definition snapshot (now : Z) (st : Store) : Store * list ClientNetworkMetrics :=
  (set_histories (ageAll now st) st,
   sortBy (λ a b, strLt (connectionId a) (connectionId b))
     (clientView now st <$> (map_to_list (clients_ st)).*2)).

(** ** Sessions *)

Definition registerSession (id : string) (st : Store) : Store :=
  if bool_decide (id = EmptyString) then st
  else set_sessions (<[id := newSession]> (sessions_ st)) st.

(** [sbdService->eligible], if there is a service. *)
Definition callEligible (now : Z * Z) (id : string) (v : bool) (st : Store) : option Store :=
  match sbdService st with
  | None => Some st
  | Some svc => svc ← SbdService.eligible now id v svc; Some (set_service (Some svc) st)
  end.

Definition unregisterSession (now : Z * Z) (id : string) (st : Store) : option Store :=
  st ← callEligible now id false st;
  Some (set_sessions (delete id (sessions_ st)) st).

(** What the service should think of the owner of a connection. *)
Definition isViewer (s : SessionMetadata) : bool :=
  negb (relayPeer s) &&
  (negb (bool_decide (trackSubscriptions s = ∅)) || negb (bool_decide (namespaceSubscriptions s = ∅))).

Definition updateSbdEligibility (now : Z * Z) (id : string) (st : Store) : option Store :=
  match sbdService st with
  | None => Some st
  | Some _ => match sessions_ st !! id with
              | None => Some st
              | Some s => callEligible now id (isViewer s) st
              end
  end.

(** The operations find the session and change its metadata; those that change
    what it subscribes to also update its eligibility. *)
Definition changeSession (id : string) (f : SessionMetadata → SessionMetadata) (st : Store) : Store :=
  match sessions_ st !! id with
  | Some s => set_sessions (<[id := f s]> (sessions_ st)) st
  | None => st
  end.

Definition changeAndUpdate (now : Z * Z) (id : string) (f : SessionMetadata → SessionMetadata)
    (st : Store) : option Store :=
  match sessions_ st !! id with
  | Some s => updateSbdEligibility now id (set_sessions (<[id := f s]> (sessions_ st)) st)
  | None => Some st
  end.

Definition addPublishedTrack (id track : string) (st : Store) : Store :=
  changeSession id (λ s, mkSession (relayPeer s) ({[track]} ∪ publishedTracks s)
    (publishedNamespaces s) (trackSubscriptions s) (namespaceSubscriptions s)) st.
Definition removePublishedTrack (id track : string) (st : Store) : Store :=
  changeSession id (λ s, mkSession (relayPeer s) (publishedTracks s ∖ {[track]})
    (publishedNamespaces s) (trackSubscriptions s) (namespaceSubscriptions s)) st.
Definition addPublishedNamespace (id n : string) (st : Store) : Store :=
  changeSession id (λ s, mkSession (relayPeer s) (publishedTracks s)
    ({[n]} ∪ publishedNamespaces s) (trackSubscriptions s) (namespaceSubscriptions s)) st.
Definition removePublishedNamespace (id n : string) (st : Store) : Store :=
  changeSession id (λ s, mkSession (relayPeer s) (publishedTracks s)
    (publishedNamespaces s ∖ {[n]}) (trackSubscriptions s) (namespaceSubscriptions s)) st.

Definition addTrackSubscription (now : Z * Z) (id track : string) (st : Store) : option Store :=
  changeAndUpdate now id (λ s, mkSession (relayPeer s) (publishedTracks s) (publishedNamespaces s)
    ({[track]} ∪ trackSubscriptions s) (namespaceSubscriptions s)) st.
Definition removeTrackSubscription (now : Z * Z) (id track : string) (st : Store) : option Store :=
  changeAndUpdate now id (λ s, mkSession (relayPeer s) (publishedTracks s) (publishedNamespaces s)
    (trackSubscriptions s ∖ {[track]}) (namespaceSubscriptions s)) st.
Definition addNamespaceSubscription (now : Z * Z) (id n : string) (st : Store) : option Store :=
  changeAndUpdate now id (λ s, mkSession (relayPeer s) (publishedTracks s) (publishedNamespaces s)
    (trackSubscriptions s) ({[n]} ∪ namespaceSubscriptions s)) st.
Definition removeNamespaceSubscription (now : Z * Z) (id n : string) (st : Store) : option Store :=
  changeAndUpdate now id (λ s, mkSession (relayPeer s) (publishedTracks s) (publishedNamespaces s)
    (trackSubscriptions s) (namespaceSubscriptions s ∖ {[n]})) st.
Definition markRelayPeer (now : Z * Z) (id : string) (st : Store) : option Store :=
  changeAndUpdate now id (λ s, mkSession true (publishedTracks s) (publishedNamespaces s)
    (trackSubscriptions s) (namespaceSubscriptions s)) st.

(** ** Runs *)

Inductive SessionOp :=
| Register (id : string)
| Unregister (now : Z * Z) (id : string)
| AddPublishedTrack (id track : string)
| RemovePublishedTrack (id track : string)
| AddPublishedNamespace (id n : string)
| RemovePublishedNamespace (id n : string)
| AddTrackSubscription (now : Z * Z) (id track : string)
| RemoveTrackSubscription (now : Z * Z) (id track : string)
| AddNamespaceSubscription (now : Z * Z) (id n : string)
| RemoveNamespaceSubscription (now : Z * Z) (id n : string)
| MarkRelayPeer (now : Z * Z) (id : string).

Definition sessionStep (op : SessionOp) (st : Store) : option Store :=
  match op with
  | Register id => Some (registerSession id st)
  | Unregister now id => unregisterSession now id st
  | AddPublishedTrack id t => Some (addPublishedTrack id t st)
  | RemovePublishedTrack id t => Some (removePublishedTrack id t st)
  | AddPublishedNamespace id n => Some (addPublishedNamespace id n st)
  | RemovePublishedNamespace id n => Some (removePublishedNamespace id n st)
  | AddTrackSubscription now id t => addTrackSubscription now id t st
  | RemoveTrackSubscription now id t => removeTrackSubscription now id t st
  | AddNamespaceSubscription now id n => addNamespaceSubscription now id n st
  | RemoveNamespaceSubscription now id n => removeNamespaceSubscription now id n st
  | MarkRelayPeer now id => markRelayPeer now id st
  end.

(** Reports, snapshots, what the relay says of its sessions, and what the
    transport observers tell the service. *)
Inductive StoreOp :=
| Put (now : Z) (m : ClientNetworkMetrics)
| Snap (now : Z)
| Sess (op : SessionOp)
| Svc (op : ServiceOp).

Definition storeStep (op : StoreOp) (st : Store) : option Store :=
  match op with
  | Put now m => Some (put now m st)
  | Snap now => Some (snapshot now st).1
  | Sess op => sessionStep op st
  | Svc op => match sbdService st with
              | None => Some st
              | Some svc => svc ← serviceStep op svc; Some (set_service (Some svc) st)
              end
  end.

Fixpoint storeRun (ops : list StoreOp) (st : Store) : option Store :=
  match ops with
  | [] => Some st
  | op :: ops' => st ← storeStep op st; storeRun ops' st
  end.
