(* ===== verification/MetricsTheorems.v ===== *)
(** * ClientNetworkMetrics: theorems

    What a history holds after any sequence of reports and snapshots, that the
    totals of a window are differences of counters, and that the store and the
    bottleneck service agree on who is a viewer. *)

From S2P Require Import Prelude SbdDetector SbdGroups WeiDetector SbdService ClientMetrics.

(** ** Histories *)

(** A sample and the next: the growth of the counters between them, in time
    order, and not closer than the sampling interval while the connection is
    open. *)
Definition link (interval : Z) (s t : HistorySample) : Prop :=
  t = sampleAfter (Some s) (metrics t) ∧
  updatedAt (metrics s) <= updatedAt (metrics t) ∧
  (isActive (metrics t) = true → ns interval <= updatedAt (metrics t) - updatedAt (metrics s)).

Fixpoint chain (interval : Z) (s : HistorySample) (rest : list HistorySample) : Prop :=
  match rest with
  | [] => True
  | t :: rest' => link interval s t ∧ chain interval t rest'
  end.

Definition lastOf (s : HistorySample) (rest : list HistorySample) : HistorySample :=
  default s (last rest).

Definition chained (interval : Z) (h : list HistorySample) : Prop :=
  match h with [] => True | s :: rest => asFirst s = s ∧ chain interval s rest end.

(** The time from the first sample to the last. *)
Definition span (h : list HistorySample) : Z :=
  match h with
  | [] => 0
  | s :: rest => updatedAt (metrics (lastOf s rest)) - updatedAt (metrics s)
  end.

Record historyOk (window interval : Z) (h : list HistorySample) : Prop := {
  ho_chained : chained interval h;
  ho_span : span h <= ns window
}.

Lemma lastOf_cons s t rest : lastOf s (t :: rest) = lastOf t rest.
Proof. unfold lastOf. rewrite last_cons. by destruct (last rest). Qed.

Lemma last_cons_lastOf s rest : last (s :: rest) = Some (lastOf s rest).
Proof.
  unfold lastOf. revert s. induction rest as [|t rest IH]; intros s; [done|].
  change (last (s :: t :: rest)) with (last (t :: rest)). by rewrite (IH t).
Qed.

Lemma sampleAfter_metrics p m : metrics (sampleAfter p m) = m.
Proof.
  destruct p as [s|]; [|done]. cbn.
  by repeat (match goal with |- context [delta ?a ?b ?c] => destruct (delta a b c) end).
Qed.

Lemma asFirst_metrics s : metrics (asFirst s) = metrics s.
Proof. done. Qed.

Lemma chain_asFirst interval s rest : chain interval s rest → chain interval (asFirst s) rest.
Proof. by destruct rest. Qed.

Lemma chain_app interval s rest t :
  chain interval s rest → link interval (lastOf s rest) t → chain interval s (rest ++ [t]).
Proof.
  revert s. induction rest as [|u rest IH]; intros s; cbn; [done|].
  intros [Hl Hc] Ht. split; [done|]. apply IH; [done|]. by rewrite lastOf_cons in Ht.
Qed.

Lemma chain_sorted interval s rest t : chain interval s rest → t ∈ s :: rest →
  updatedAt (metrics s) <= updatedAt (metrics t) <= updatedAt (metrics (lastOf s rest)).
Proof.
  revert s t. induction rest as [|u rest IH]; intros s t Hc Ht.
  - apply list_elem_of_singleton in Ht as ->. cbn. lia.
  - destruct Hc as [(_ & Hle & _) Hc]. rewrite lastOf_cons. apply elem_of_cons in Ht as [->|Ht].
    + pose proof (IH u u Hc ltac:(by left)). lia.
    + pose proof (IH u t Hc Ht). lia.
Qed.

(** Dropping old samples keeps a history that is well formed. *)
Lemma popOlder_suffix cutoff h : ∃ dropped, h = dropped ++ popOlder cutoff h.
Proof.
  induction h as [|s h [d IH]]; [by exists []|]. cbn.
  destruct (_ <? _); [exists (s :: d); cbn; by rewrite <- IH|by exists []].
Qed.

Lemma popOlder_kept cutoff h : match popOlder cutoff h with s :: _ => cutoff <= updatedAt (metrics s) | [] => True end.
Proof. induction h as [|s h IH]; cbn; [done|]. by destruct (Z.ltb_spec (updatedAt (metrics s)) cutoff). Qed.

Lemma chain_suffix interval s rest d t rest' : s :: rest = d ++ t :: rest' →
  chain interval s rest → chain interval t rest' ∧ lastOf t rest' = lastOf s rest ∧
  updatedAt (metrics s) <= updatedAt (metrics t).
Proof.
  revert s rest. induction d as [|u d IH]; intros s rest E Hc; cbn in E.
  - injection E as -> ->. auto with lia.
  - injection E as -> E. destruct rest as [|v rest]; [by destruct d|].
    destruct Hc as [(_ & Hle & _) Hc]. destruct (IH v rest E Hc) as (H1 & H2 & H3).
    split; [done|]. split; [by rewrite lastOf_cons|lia].
Qed.

Lemma trim_chained interval cutoff h : chained interval h →
  chained interval (trim cutoff h) ∧
  match trim cutoff h, h with
  | t :: rest', s :: rest =>
      metrics (lastOf t rest') = metrics (lastOf s rest) ∧
      updatedAt (metrics s) <= updatedAt (metrics t) ∧ cutoff <= updatedAt (metrics t)
  | _, _ => True
  end.
Proof.
  intros Hh. unfold trim. destruct (popOlder_suffix cutoff h) as [d E].
  pose proof (popOlder_kept cutoff h) as Hk.
  destruct (Nat.eqb_spec (length (popOlder cutoff h)) (length h)) as [El|Hne].
  - assert (d = []) as ->. { apply (f_equal length) in E. rewrite length_app in E. destruct d; [done|cbn in E; lia]. }
    cbn in E. rewrite <- E in *. split; [done|]. destruct h; [done|]. auto with lia.
  - destruct (popOlder cutoff h) as [|t rest'] eqn:Ep; [done|]. destruct h as [|s rest]; [by destruct d|].
    destruct Hh as [_ Hc]. destruct (chain_suffix interval _ _ _ _ _ E Hc) as (H1 & H2 & H3).
    split; [split; [done|by apply chain_asFirst]|]. split; [|done].
    rewrite <- H2. destruct rest' as [|v rest']; [done|]. by rewrite !lastOf_cons.
Qed.

Lemma trim_elem cutoff h s : s ∈ trim cutoff h → ∃ t, t ∈ h ∧ metrics t = metrics s.
Proof.
  unfold trim. destruct (popOlder_suffix cutoff h) as [d E].
  destruct (_ =? _)%nat; [intros Hs; exists s; rewrite E; set_solver|].
  destruct (popOlder cutoff h) as [|t rest]; [by intros ?%elem_of_nil|].
  intros [->|Hs]%elem_of_cons; [exists t|exists s]; rewrite E; set_solver.
Qed.

Lemma trim_ok window interval cutoff h : 0 <= window → historyOk window interval h →
  historyOk window interval (trim cutoff h).
Proof.
  intros Hw [Hc Hs]. destruct (trim_chained interval cutoff h Hc) as [Hc' Hl]. split; [done|].
  destruct (trim cutoff h) as [|t rest'] eqn:Et; [cbn; unfold ns; lia|]. destruct h as [|s rest].
  - done.
  - destruct Hl as (E & Hle & _). cbn in *. rewrite E. lia.
Qed.

Lemma trim_recent cutoff h : match trim cutoff h with
  | s :: _ => cutoff <= updatedAt (metrics s)
  | [] => True
  end.
Proof.
  unfold trim. pose proof (popOlder_kept cutoff h). destruct (_ =? _)%nat; [done|].
  by destruct (popOlder cutoff h).
Qed.

(** The new sample is never dropped. *)
Lemma putHistory_ok window interval m h : 0 <= window → historyOk window interval h →
  historyOk window interval (putHistory window interval m h).
Proof.
  intros Hw Hh. unfold putHistory. cbv zeta.
  set (h' := if match last h with Some s => updatedAt m <? updatedAt (metrics s) | None => false end
             then [] else h).
  assert (historyOk window interval h') as [Hc Hs].
  { unfold h'. destruct (match last h with Some s => _ | None => false end); [|done]. split; [done|]. cbn. unfold ns. lia. }
  assert (∀ s, last h' = Some s → updatedAt (metrics s) <= updatedAt m) as Hback.
  { unfold h'. intros s. destruct (last h) as [u|] eqn:El; [|congruence].
    destruct (Z.ltb_spec (updatedAt m) (updatedAt (metrics u))); [done|]. rewrite El. intros [= ->]. lia. }
  clearbody h'. set (new := sampleAfter (last h') m).
  assert (metrics new = m) as Hm by apply sampleAfter_metrics.
  destruct (match last h' with Some s => _ | None => true end) eqn:Hdue; [|by split].
  assert (chained interval (h' ++ [new])) as Hc'.
  { destruct h' as [|s rest]; [by split|]. unfold new in *. rewrite last_cons_lastOf in *. destruct Hc as [Hf Hc].
    split; [done|]. apply chain_app; [done|]. split; [by rewrite Hm|]. rewrite Hm.
    split; [by apply Hback|]. intros Ha. rewrite Ha in Hdue. cbn in Hdue. lia. }
  destruct (trim_chained interval (updatedAt m - ns window) _ Hc') as [Hc2 Hl]. split; [done|].
  destruct (trim _ _) as [|t rest']; [cbn; unfold ns; lia|].
  destruct (h' ++ [new]) as [|s rest] eqn:E; [by destruct h'|]. destruct Hl as (El & _ & Hcut).
  cbn [span]. rewrite El. assert (lastOf s rest = new) as ->; [|rewrite Hm; lia].
  assert (Some (lastOf s rest) = Some new) as [= ->]; [|done].
  rewrite <- last_cons_lastOf, <- E. apply last_snoc.
Qed.

(** ** Counters *)

(** A cumulative counter of a report, its growth in a sample, and its total in
    the window of a snapshot. *)
Record Counter := mkCounter {
  count : ClientNetworkMetrics → Z;
  growth : HistorySample → Z;
  total : ClientNetworkMetrics → Z
}.

Definition counters : list Counter :=
  [mkCounter ackedPackets newAckedPackets windowAckedPackets; mkCounter ect0 newEct0 windowEct0;
   mkCounter ect1 newEct1 windowEct1; mkCounter ce newCe windowCe;
   mkCounter lostPackets newLostPackets windowLostPackets;
   mkCounter retransmittedPackets newRetransmittedPackets windowRetransmittedPackets].

Lemma delta_exact a b r d r' : delta a b r = (d, r') → r' = false →
  r = false ∧ d = a - b ∧ b <= a.
Proof. unfold delta. destruct (Z.ltb_spec a b); intros [= <- <-]; auto with lia. Qed.

Lemma sampleAfter_growth k s m : k ∈ counters → counterReset (sampleAfter (Some s) m) = false →
  growth k (sampleAfter (Some s) m) = count k m - count k (metrics s) ∧
  count k (metrics s) <= count k m.
Proof.
  intros Hk. cbn.
  destruct (delta (ackedPackets m) _ _) as [d1 r1] eqn:E1.
  destruct (delta (ect0 m) _ _) as [d2 r2] eqn:E2.
  destruct (delta (ect1 m) _ _) as [d3 r3] eqn:E3.
  destruct (delta (ce m) _ _) as [d4 r4] eqn:E4.
  destruct (delta (lostPackets m) _ _) as [d5 r5] eqn:E5.
  destruct (delta (retransmittedPackets m) _ _) as [d6 r6] eqn:E6. cbn. intros Hr.
  destruct (delta_exact _ _ _ _ _ E6 Hr) as (H5 & -> & Hle6).
  destruct (delta_exact _ _ _ _ _ E5 H5) as (H4 & -> & Hle5).
  destruct (delta_exact _ _ _ _ _ E4 H4) as (H3 & -> & Hle4).
  destruct (delta_exact _ _ _ _ _ E3 H3) as (H2 & -> & Hle3).
  destruct (delta_exact _ _ _ _ _ E2 H2) as (H1 & -> & Hle2).
  destruct (delta_exact _ _ _ _ _ E1 H1) as (_ & -> & Hle1).
  unfold counters in Hk. repeat (apply elem_of_cons in Hk as [->|Hk]; [done|]). by apply elem_of_nil in Hk.
Qed.

Lemma chain_total k interval s rest : k ∈ counters → chain interval s rest →
  existsb counterReset rest = false →
  sumOf (growth k) rest = count k (metrics (lastOf s rest)) - count k (metrics s) ∧
  count k (metrics s) <= count k (metrics (lastOf s rest)).
Proof.
  intros Hk. revert s. induction rest as [|t rest IH]; intros s Hc Hr.
  - cbn. lia.
  - cbn in Hr. apply orb_false_elim in Hr as [Hrt Hr]. destruct Hc as [(Ht & _ & _) Hc].
    rewrite lastOf_cons. cbn [sumOf foldr]. change (foldr _ 0 rest) with (sumOf (growth k) rest).
    destruct (IH t Hc Hr) as [-> Hle]. rewrite Ht in Hrt.
    destruct (sampleAfter_growth k s (metrics t) Hk Hrt) as [Hg Hle']. rewrite <- Ht in Hg. lia.
Qed.

Lemma history_total k interval s rest : k ∈ counters → chained interval (s :: rest) →
  existsb counterReset (s :: rest) = false →
  sumOf (growth k) (s :: rest) = count k (metrics (lastOf s rest)) - count k (metrics s) ∧
  count k (metrics s) <= count k (metrics (lastOf s rest)).
Proof.
  intros Hk [Hf Hc] Hr. cbn in Hr. apply orb_false_elim in Hr as [_ Hr]. cbn [sumOf foldr].
  change (foldr _ 0 rest) with (sumOf (growth k) rest). destruct (chain_total k interval s rest Hk Hc Hr) as [-> Hle].
  assert (growth k s = 0); [|lia]. rewrite <- Hf. unfold counters in Hk.
  repeat (apply elem_of_cons in Hk as [->|Hk]; [done|]). by apply elem_of_nil in Hk.
Qed.

(** ** Runs *)

Definition reportOf (op : StoreOp) : option ClientNetworkMetrics :=
  match op with Put now m => Some (stamp now m) | _ => None end.

(** What has been reported, with the times the store gave. *)
Definition reports (ops : list StoreOp) : list ClientNetworkMetrics := omap reportOf ops.

(** A report as the observer makes it: it leaves the fields of the window alone. *)
Definition plainReport (m : ClientNetworkMetrics) : Prop :=
  windowSamples m = 0 ∧ windowCounterReset m = false ∧ ∀ k, k ∈ counters → total k m = 0 ∧ is_u64 (count k m).

Record StoreInv (known : list ClientNetworkMetrics) (st : Store) : Prop := {
  st_clients id m : clients_ st !! id = Some m → connectionId m = id ∧ m ∈ known;
  st_histories id h : histories_ st !! id = Some h →
    historyOk (historyWindow_ st) (sampleInterval_ st) h ∧
    ∀ s, s ∈ h → metrics s ∈ known ∧ connectionId (metrics s) = id
}.

Definition sameData (st st' : Store) : Prop :=
  clients_ st' = clients_ st ∧ histories_ st' = histories_ st ∧
  historyWindow_ st' = historyWindow_ st ∧ sampleInterval_ st' = sampleInterval_ st.

Lemma callEligible_same now id v st st' : callEligible now id v st = Some st' →
  sameData st st' ∧ sessions_ st' = sessions_ st.
Proof.
  unfold callEligible. destruct (sbdService st); [|by intros [= <-]].
  destruct (SbdService.eligible _ _ _ _); cbn; [|done]. by intros [= <-].
Qed.

Lemma changeAndUpdate_same now id f st st' : changeAndUpdate now id f st = Some st' → sameData st st'.
Proof.
  unfold changeAndUpdate, updateSbdEligibility. destruct (sessions_ st !! id); [|by intros [= <-]].
  cbn. destruct (sbdService st); [|by intros [= <-]]. rewrite lookup_insert_eq.
  intros [H _]%callEligible_same. done.
Qed.

Lemma sessionStep_same op st st' : sessionStep op st = Some st' → sameData st st'.
Proof.
  destruct op; cbn [sessionStep]; try apply changeAndUpdate_same.
  - unfold registerSession. case_bool_decide; by intros [= <-].
  - unfold unregisterSession. destruct (callEligible _ _ _ _) as [st1|] eqn:E; cbn; [|done].
    apply callEligible_same in E as [? _]. by intros [= <-].
  - unfold addPublishedTrack, changeSession. destruct (sessions_ st !! id); by intros [= <-].
  - unfold removePublishedTrack, changeSession. destruct (sessions_ st !! id); by intros [= <-].
  - unfold addPublishedNamespace, changeSession. destruct (sessions_ st !! id); by intros [= <-].
  - unfold removePublishedNamespace, changeSession. destruct (sessions_ st !! id); by intros [= <-].
Qed.

Lemma storeInv_same known st st' : StoreInv known st → sameData st st' → StoreInv known st'.
Proof. intros [Hc Hh] (Ec & Eh & Ew & Ei). split; rewrite ?Ec, ?Eh, ?Ew, ?Ei; done. Qed.

Lemma storeInv_more known m st : StoreInv known st → StoreInv (known ++ [m]) st.
Proof.
  intros [Hc Hh]. split.
  - intros id m' Hm. destruct (Hc id m' Hm). set_solver.
  - intros id h Hl. destruct (Hh id h Hl) as [? Hs]. split; [done|]. intros s Hin.
    destruct (Hs s Hin). set_solver.
Qed.

Lemma putHistory_elem window interval m h s : s ∈ putHistory window interval m h →
  metrics s = m ∨ ∃ t, t ∈ h ∧ metrics t = metrics s.
Proof.
  unfold putHistory. cbv zeta.
  set (h' := if match last h with Some s => _ | None => false end then [] else h).
  assert (∀ t, t ∈ h' → t ∈ h) as Hsub.
  { unfold h'. destruct (match last h with Some s => _ | None => false end); set_solver. }
  clearbody h'. destruct (match last h' with Some s => _ | None => true end); [|intros Hs; right; eauto].
  intros (t & [Ht|Ht]%elem_of_app & <-)%trim_elem; [right; eauto|].
  apply list_elem_of_singleton in Ht as ->. left. apply sampleAfter_metrics.
Qed.

Lemma store_put_inv known now m st : 0 <= historyWindow_ st → StoreInv known st →
  StoreInv (known ++ [stamp now m]) (put now m st).
Proof.
  intros Hw Hs. pose proof (storeInv_more known (stamp now m) st Hs) as [Hc Hh].
  unfold put. cbv zeta. set (m' := stamp now m) in *. split; cbn.
  - intros id x. destruct (decide (id = connectionId m')) as [->|Hne].
    + rewrite lookup_insert_eq. intros [= <-]. set_solver.
    + rewrite lookup_insert_ne by done. apply Hc.
  - intros id h. destruct (decide (id = connectionId m')) as [->|Hne].
    + rewrite lookup_insert_eq. intros [= <-].
      assert (historyOk (historyWindow_ st) (sampleInterval_ st)
                (default [] (histories_ st !! connectionId m')) ∧
              ∀ s, s ∈ default [] (histories_ st !! connectionId m') →
                metrics s ∈ known ++ [m'] ∧ connectionId (metrics s) = connectionId m') as [Ho Hm].
      { destruct (histories_ st !! connectionId m') eqn:E; cbn; [by apply Hh|].
        split; [|by intros s ?%elem_of_nil]. split; [done|]. cbn. unfold ns. lia. }
      split; [by apply putHistory_ok|]. intros s [->|(t & Ht & <-)]%putHistory_elem; [set_solver|auto].
    + rewrite lookup_insert_ne by done. apply Hh.
Qed.

Lemma agedHistory_ok now retention window interval m h : 0 <= window →
  historyOk window interval h → historyOk window interval (agedHistory now window retention m h).
Proof.
  intros Hw Hh. unfold agedHistory. destruct (_ && _); [|by apply trim_ok].
  split; [done|]. cbn. unfold ns. lia.
Qed.

Lemma agedHistory_elem now window retention m h s : s ∈ agedHistory now window retention m h →
  ∃ t, t ∈ h ∧ metrics t = metrics s.
Proof. unfold agedHistory. destruct (_ && _); [by intros ?%elem_of_nil|apply trim_elem]. Qed.

Lemma snapshot_inv known now st : 0 <= historyWindow_ st → StoreInv known st →
  StoreInv known (snapshot now st).1.
Proof.
  intros Hw [Hc Hh]. split; [apply Hc|]. cbn. intros id h. unfold ageAll. rewrite map_lookup_imap.
  destruct (histories_ st !! id) as [h0|] eqn:E; cbn; [|done]. intros [= <-].
  destruct (Hh id h0 E) as [Ho Hs]. destruct (clients_ st !! id); [|done].
  split; [by apply agedHistory_ok|]. intros s (t & Ht & <-)%agedHistory_elem. auto.
Qed.

Lemma storeStep_inv known op st st' : 0 <= historyWindow_ st → StoreInv known st →
  storeStep op st = Some st' →
  StoreInv (known ++ reports [op]) st' ∧ historyWindow_ st' = historyWindow_ st ∧
  sampleInterval_ st' = sampleInterval_ st.
Proof.
  intros Hw Hs. destruct op as [now m|now|op|op]; cbn [storeStep reports omap list_omap reportOf];
    rewrite ?app_nil_r.
  - intros [= <-]. split; [by apply store_put_inv|done].
  - intros [= <-]. split; [by apply snapshot_inv|done].
  - intros E%sessionStep_same. split; [by eapply storeInv_same|apply E].
  - destruct (sbdService st); [|by intros [= <-]]. destruct (serviceStep _ _); cbn; [|done].
    intros [= <-]. split; [by eapply storeInv_same|done].
Qed.

Lemma storeRun_inv ops known st st' : 0 <= historyWindow_ st → StoreInv known st →
  storeRun ops st = Some st' →
  StoreInv (known ++ reports ops) st' ∧ historyWindow_ st' = historyWindow_ st ∧
  sampleInterval_ st' = sampleInterval_ st.
Proof.
  revert known st. induction ops as [|op ops IH]; intros known st Hw Hs; cbn [storeRun].
  - intros [= <-]. by rewrite app_nil_r.
  - destruct (storeStep op st) as [st1|] eqn:E; cbn [mbind option_bind]; [|done].
    destruct (storeStep_inv known op st st1 Hw Hs E) as (Hs1 & Hw1 & Hi1). intros Hr.
    rewrite <- Hw1 in Hw. destruct (IH _ _ Hw Hs1 Hr) as (Hi & Hw' & Hi'). split; [|split; congruence].
    rewrite <- app_assoc in Hi. unfold reports in *. by rewrite <- omap_app in Hi.
Qed.

Lemma clientView_id now st m : connectionId (clientView now st m) = connectionId m.
Proof.
  unfold clientView, windowed. destruct (histories_ st !! _) as [h|].
  - destruct (agedHistory _ _ _ _ _) as [|s rest]; [|rewrite last_cons_lastOf];
      destruct (sessions_ st !! _); done.
  - by destruct (sessions_ st !! _).
Qed.

(** The window of a view, as its fields say. *)
Lemma clientView_window now st m h s rest :
  histories_ st !! connectionId m = Some h →
  agedHistory now (historyWindow_ st) (inactiveRetention_ st) m h = s :: rest →
  let v := clientView now st m in let w := withWindow (s :: rest) (metrics s) (metrics (lastOf s rest)) m in
  windowSamples v = windowSamples w ∧ windowDurationMs v = windowDurationMs w ∧
  windowCounterReset v = windowCounterReset w ∧ ∀ k, k ∈ counters → total k v = total k w.
Proof.
  intros Hh Ha. cbv zeta. unfold clientView. rewrite Hh, Ha. unfold windowed. rewrite last_cons_lastOf.
  destruct (sessions_ st !! _); (split; [done|split; [done|split; [done|]]]); [|done].
  intros k Hk. unfold counters in Hk.
  repeat (apply elem_of_cons in Hk as [->|Hk]; [done|]). by apply elem_of_nil in Hk.
Qed.

Lemma withWindow_total k h a b m : k ∈ counters → total k (withWindow h a b m) = u64 (total k m + sumOf (growth k) h).
Proof.
  intros Hk. unfold counters in Hk.
  repeat (apply elem_of_cons in Hk as [->|Hk]; [done|]). by apply elem_of_nil in Hk.
Qed.

