(* ===== verification/MetricsEligibility.v ===== *)
(** * Sessions and the bottleneck service

    The store of client metrics tells the service of [SbdService] which
    connections belong to viewers.  The two are run together: changes of
    sessions, and what the transport observers and the worker do to the
    service, in any order. *)

From S2P Require Import Prelude SbdDetector SbdGroups WeiDetector SbdService ClientMetrics.

Definition eligFlag (svc : Service) (id : string) : bool :=
  match flows_ svc !! id with Some f => eligible_ f | None => false end.

Lemma onWei_flows f s s' : onWei f s = Some s' → flows_ s' = flows_ s ∧ config_ s' = config_ s.
Proof.
  unfold onWei. destruct (wei_ s) as [w|]; [|by intros [= <-]].
  destruct (f w); cbn; [|done]. by intros [= <-].
Qed.

Lemma eligFlag_insert i f (m : gmap string Flow) id :
  match <[i := f]> m !! id with Some g => eligible_ g | None => false end =
  if decide (id = i) then eligible_ f else match m !! id with Some g => eligible_ g | None => false end.
Proof.
  destruct (decide (id = i)) as [->|Hne]; [by rewrite lookup_insert_eq|by rewrite lookup_insert_ne].
Qed.

(** [eligible] sets the flag of its connection and no other. *)
Lemma eligible_flag now i v s s' : SbdService.eligible now i v s = Some s' →
  config_ s' = config_ s ∧
  if enabled (config_ s) then ∀ id, eligFlag s' id = if decide (id = i) then v else eligFlag s id
  else s' = s.
Proof.
  unfold SbdService.eligible. destruct (enabled (config_ s)); cbn [negb]; [|by intros [= <-]].
  destruct v; intros [Hf Hc]%onWei_flows; (split; [by rewrite Hc|]); intros id; unfold eligFlag;
    rewrite Hf; cbn; by rewrite eligFlag_insert.
Qed.

Definition notEligible (op : ServiceOp) : Prop :=
  match op with SEligible _ _ _ => False | _ => True end.

(** Nothing else sets a flag. *)
Lemma serviceStep_flag op s s' id : notEligible op → serviceStep op s = Some s' →
  config_ s' = config_ s ∧ (eligFlag s' id = true → eligFlag s id = true).
Proof.
  intros Hop. destruct op as [i p|now i v|now i m st|i st|now i|i|op|now]; cbn [serviceStep]; try done.
  - unfold SbdService.attach. intros [Hf Hc]%onWei_flows. split; [by rewrite Hc|]. unfold eligFlag. rewrite Hf. cbn.
    rewrite eligFlag_insert. destruct (decide (id = i)) as [->|]; [|done]. cbn. unfold flowOf.
    by destruct (flows_ s !! i).
  - intros [= <-]. unfold SbdService.publish. destruct (flows_ s !! i) as [f|] eqn:E; [|done]. cbv zeta.
    destruct (negb _ && _); (split; [done|]); unfold eligFlag; cbn; rewrite eligFlag_insert;
      destruct (decide (id = i)) as [->|]; by rewrite ?E.
  - intros [= <-]. unfold status. destruct (flows_ s !! i) as [f|] eqn:E; [|done]. split; [done|].
    unfold eligFlag; cbn; rewrite eligFlag_insert; destruct (decide (id = i)) as [->|]; by rewrite ?E.
  - unfold SbdService.close. intros [Hf Hc]%onWei_flows. rewrite Hc. unfold eligFlag. rewrite Hf.
    destruct (flows_ s !! i) as [f|] eqn:E; [|done]. cbn. split; [done|].
    rewrite eligFlag_insert. by destruct (decide (id = i)).
  - intros [= <-]. unfold videoDelivered. destruct (flows_ s !! i) as [f|] eqn:E; [|done]. split; [done|].
    unfold eligFlag; cbn; rewrite eligFlag_insert; destruct (decide (id = i)) as [->|]; by rewrite ?E.
  - intros [Hf Hc]%onWei_flows. unfold eligFlag. by rewrite Hf.
  - destruct (wei_ s); [by intros [= <-]|]. unfold SbdService.snapshot.
    destruct (decideGroups _ _) as [[[g e] c]|]; cbn; [|done]. intros [= <-]. split; [done|].
    unfold eligFlag. cbn. destruct (filter _ (flows_ s) !! id) as [f|] eqn:E; [|done].
    apply map_lookup_filter_Some in E as [-> _]. done.
Qed.

(** ** The invariant *)

Record EligInv (svc : Service) (st : Store) : Prop := {
  ei_service : sbdService st = Some svc;
  ei_inv : svc_inv svc;
  ei_viewer id : eligFlag svc id = true → ∃ s, sessions_ st !! id = Some s ∧ isViewer s = true;
  ei_disabled id : enabled (config_ svc) = false → eligFlag svc id = false
}.

Lemma callEligible_ok now i v svc st : EligInv svc st →
  (v = true → ∃ s, sessions_ st !! i = Some s ∧ isViewer s = true) →
  ∃ svc' st', callEligible now i v st = Some st' ∧ EligInv svc' st' ∧ sessions_ st' = sessions_ st ∧
    config_ svc' = config_ svc ∧ (enabled (config_ svc) = true → eligFlag svc' i = v).
Proof.
  intros [Hsvc Hi Hv Hd] Hok. unfold callEligible. rewrite Hsvc.
  destruct (service_step_ok (SEligible now i v) svc Hi) as (svc' & E & Hi'). cbn [serviceStep] in E.
  rewrite E. cbn [mbind option_bind]. destruct (eligible_flag now i v svc svc' E) as [Hc Hf].
  exists svc', (set_service (Some svc') st). split; [done|]. split_and!; try done.
  - split; [done|done| |].
    + cbn. intros id Hid. destruct (enabled (config_ svc)); [|subst; auto].
      rewrite Hf in Hid. destruct (decide (id = i)) as [->|]; auto.
    + intros id He. rewrite Hc in He. rewrite He in Hf. subst. auto.
  - intros He. rewrite He in Hf. rewrite Hf. by destruct (decide (i = i)).
Qed.

(** A change of the sessions after which every flag that was right still is. *)
Lemma eligInv_sessions svc st st' : EligInv svc st → sbdService st' = sbdService st →
  (∀ id s, eligFlag svc id = true → sessions_ st !! id = Some s → isViewer s = true →
     ∃ s', sessions_ st' !! id = Some s' ∧ isViewer s' = true) → EligInv svc st'.
Proof.
  intros [Hsvc Hi Hv Hd] Hs Hss. split; [by rewrite Hs|done| |done].
  intros id Hid. destruct (Hv id Hid) as (s & E & Hw). eauto.
Qed.

Lemma changeSession_ok svc st i f : EligInv svc st → (∀ s, isViewer (f s) = isViewer s) →
  EligInv svc (changeSession i f st).
Proof.
  intros Hi Hf. unfold changeSession. destruct (sessions_ st !! i) as [s|] eqn:E; [|done].
  eapply eligInv_sessions; [done|done|]. intros id s' _ Hs' Hw. cbn.
  destruct (decide (id = i)) as [->|Hne].
  - rewrite lookup_insert_eq. eexists. split; [done|]. rewrite Hf. congruence.
  - rewrite lookup_insert_ne by done. eauto.
Qed.

(** The operations that change subscriptions: the flag follows. *)
Lemma changeAndUpdate_ok now svc st i f : EligInv svc st →
  ∃ svc' st', changeAndUpdate now i f st = Some st' ∧ EligInv svc' st' ∧
    config_ svc' = config_ svc ∧
    ∀ s', sessions_ st' !! i = Some s' → enabled (config_ svc) = true → eligFlag svc' i = isViewer s'.
Proof.
  intros Hi. unfold changeAndUpdate. destruct (sessions_ st !! i) as [s|] eqn:E.
  2: { exists svc, st. split; [done|]. split; [done|]. split; [done|]. congruence. }
  unfold updateSbdEligibility. cbn [sbdService set_sessions sessions_].
  rewrite (ei_service _ _ Hi), lookup_insert_eq. unfold callEligible. cbn [sbdService set_sessions].
  rewrite (ei_service _ _ Hi).
  destruct (service_step_ok (SEligible now i (isViewer (f s))) svc (ei_inv _ _ Hi)) as (svc' & Es & Hi').
  cbn [serviceStep] in Es. rewrite Es. cbn [mbind option_bind].
  destruct (eligible_flag now i _ svc svc' Es) as [Hc Hf].
  eexists svc', _. split; [done|]. split; [|split; [done|]].
  - split; [done|done| |].
    + cbn. intros id Hid. destruct (enabled (config_ svc)) eqn:En.
      * rewrite Hf in Hid. destruct (decide (id = i)) as [->|Hne].
        -- rewrite lookup_insert_eq. eauto.
        -- rewrite lookup_insert_ne by done. by apply (ei_viewer _ _ Hi).
      * subst. by rewrite (ei_disabled _ _ Hi) in Hid.
    + intros id He. rewrite Hc in He. rewrite He in Hf. subst. by apply (ei_disabled _ _ Hi).
  - cbn. intros s'. rewrite lookup_insert_eq. intros [= <-] He. rewrite He in Hf. rewrite Hf.
    by destruct (decide (i = i)).
Qed.

(** ** Runs *)

(** A connection is registered once at a time, and only the store calls
    [eligible]. *)
Definition disciplined (op : StoreOp) (st : Store) : Prop :=
  match op with
  | Sess (Register id) => sessions_ st !! id = None
  | Svc op => notEligible op
  | _ => True
  end.

(** The connection whose viewer status an operation settles. *)
Definition settles (op : StoreOp) : option string :=
  match op with
  | Sess (AddTrackSubscription _ id _) | Sess (RemoveTrackSubscription _ id _)
  | Sess (AddNamespaceSubscription _ id _) | Sess (RemoveNamespaceSubscription _ id _)
  | Sess (MarkRelayPeer _ id) => Some id
  | _ => None
  end.

Lemma storeStep_elig op svc st : EligInv svc st → disciplined op st →
  ∃ svc' st', storeStep op st = Some st' ∧ EligInv svc' st' ∧ config_ svc' = config_ svc ∧
    ∀ id s, settles op = Some id → sessions_ st' !! id = Some s → enabled (config_ svc) = true →
      eligFlag svc' id = isViewer s.
Proof.
  intros Hi Hd. destruct op as [now m|now|op|op]; cbn [storeStep settles].
  - eexists svc, _. split; [done|]. split; [|done]. eapply eligInv_sessions; [done|done|eauto].
  - eexists svc, _. split; [done|]. split; [|done]. eapply eligInv_sessions; [done|done|eauto].
  - destruct op; cbn [sessionStep];
      try (match goal with |- context [Some (?f _ _ _)] => idtac end;
           eexists svc, _; (split; [done|]); split; [by apply changeSession_ok|done]);
      try (edestruct changeAndUpdate_ok as (svc' & st' & Hst & Hi' & Hc & Hf); [exact Hi|];
           exists svc', st'; (split; [exact Hst|]); (split; [done|]); (split; [done|]);
           intros ? ? [= <-]; apply Hf).
    + eexists svc, _. split; [done|]. split; [|done]. unfold registerSession.
      case_bool_decide; [done|]. eapply eligInv_sessions; [done|done|]. intros j s _ Hs Hw. cbn.
      destruct (decide (j = id)) as [->|Hne]; [cbn in Hd; congruence|].
      rewrite lookup_insert_ne by done. eauto.
    + destruct (callEligible_ok now id false svc st Hi ltac:(done)) as (svc' & st' & Hst & Hi' & Hs & Hc & Hf).
      unfold unregisterSession. rewrite Hst. cbn [mbind option_bind]. eexists svc', _. split; [done|].
      split; [|done]. eapply eligInv_sessions; [exact Hi'|done|]. intros j s Hj Hs' Hw. cbn.
      destruct (decide (j = id)) as [->|Hne]; [|rewrite lookup_delete_ne by done; eauto].
      destruct (enabled (config_ svc)) eqn:En; [by rewrite Hf in Hj|].
      rewrite (ei_disabled _ _ Hi') in Hj by congruence. done.
  - rewrite (ei_service _ _ Hi). destruct (service_step_ok op svc (ei_inv _ _ Hi)) as (svc' & E & Hi').
    rewrite E. cbn [mbind option_bind]. eexists svc', _. split; [done|].
    assert (∀ id, config_ svc' = config_ svc ∧ (eligFlag svc' id = true → eligFlag svc id = true)) as Hk.
    { intros id. by eapply serviceStep_flag. }
    destruct (Hk EmptyString) as [Hc _]. split; [|done]. split; [done|done| |].
    + cbn. intros id Hid. by apply (ei_viewer _ _ Hi), Hk.
    + intros id He. destruct (eligFlag svc' id) eqn:Ef; [|done]. apply Hk in Ef.
      rewrite (ei_disabled _ _ Hi) in Ef; congruence.
Qed.

(** Runs, with the operations in their order. *)
Inductive storeRuns (c : Config) : list StoreOp → Store → Prop :=
| runs_start window interval retention :
    storeRuns c [] (newStore (Some (newService c)) window interval retention)
| runs_step ops st op st' : storeRuns c ops st → disciplined op st → storeStep op st = Some st' →
    storeRuns c (ops ++ [op]) st'.

Lemma storeRuns_elig c ops st : storeRuns c ops st → ∃ svc, EligInv svc st ∧ config_ svc = c.
Proof.
  induction 1 as [window interval retention|ops st op st' Hr (svc & Hi & Hc) Hd Hst].
  - exists (newService c). split; [|done]. split; [done|apply newService_inv| |]; unfold eligFlag; cbn;
      intros id; by rewrite lookup_empty.
  - destruct (storeStep_elig op svc st Hi Hd) as (svc' & st'' & E & Hi' & Hc' & _).
    exists svc'. rewrite Hst in E. injection E as ->. split; [done|congruence].
Qed.

(** ** The role of a connection, from the operations *)

Record Role := mkRole { isRelay : bool; tracksOf : gset string; namespacesOf : gset string }.

(** What the operations so far say of connection [id]: nothing unless its
    session is registered. *)
Definition roleStep (id : string) (r : option Role) (op : StoreOp) : option Role :=
  match op with
  | Sess (Register i) =>
      if decide (i = id ∧ id ≠ EmptyString) then Some (mkRole false ∅ ∅) else r
  | Sess (Unregister _ i) => if decide (i = id) then None else r
  | Sess (AddTrackSubscription _ i t) =>
      if decide (i = id) then (λ r, mkRole (isRelay r) ({[t]} ∪ tracksOf r) (namespacesOf r)) <$> r else r
  | Sess (RemoveTrackSubscription _ i t) =>
      if decide (i = id) then (λ r, mkRole (isRelay r) (tracksOf r ∖ {[t]}) (namespacesOf r)) <$> r else r
  | Sess (AddNamespaceSubscription _ i n) =>
      if decide (i = id) then (λ r, mkRole (isRelay r) (tracksOf r) ({[n]} ∪ namespacesOf r)) <$> r else r
  | Sess (RemoveNamespaceSubscription _ i n) =>
      if decide (i = id) then (λ r, mkRole (isRelay r) (tracksOf r) (namespacesOf r ∖ {[n]})) <$> r else r
  | Sess (MarkRelayPeer _ i) =>
      if decide (i = id) then (λ r, mkRole true (tracksOf r) (namespacesOf r)) <$> r else r
  | _ => r
  end.

Definition roleOf (ops : list StoreOp) (id : string) : option Role := foldl (roleStep id) None ops.

(** A viewer: registered, not a relay, and subscribed to a track or namespace. *)
Definition watches (r : option Role) : Prop :=
  ∃ r', r = Some r' ∧ isRelay r' = false ∧ (tracksOf r' ≠ ∅ ∨ namespacesOf r' ≠ ∅).

Definition sessionRole (s : SessionMetadata) : Role :=
  mkRole (relayPeer s) (trackSubscriptions s) (namespaceSubscriptions s).

Lemma isViewer_watches s : isViewer s = true ↔ watches (Some (sessionRole s)).
Proof.
  unfold isViewer, watches, sessionRole. rewrite andb_true_iff, orb_true_iff, !negb_true_iff, !bool_decide_eq_false.
  split; [intros [? ?]; by eexists|]. by intros (? & [= <-] & ?).
Qed.

Lemma callEligible_sessions now i v st st' : callEligible now i v st = Some st' → sessions_ st' = sessions_ st.
Proof.
  unfold callEligible. destruct (sbdService st); [|by intros [= <-]].
  destruct (SbdService.eligible _ _ _ _); cbn; [|done]. by intros [= <-].
Qed.

Lemma changeAndUpdate_sessions now i f st st' :
  changeAndUpdate now i f st = Some st' → sessions_ st' = alter f i (sessions_ st).
Proof.
  unfold changeAndUpdate. destruct (sessions_ st !! i) as [s|] eqn:Es.
  - unfold updateSbdEligibility. cbn. rewrite lookup_insert_eq.
    assert (Ha : alter f i (sessions_ st) = <[i := f s]> (sessions_ st)).
    { apply map_eq. intros j. destruct (decide (j = i)) as [->|].
      - by rewrite lookup_alter_eq, lookup_insert_eq, Es.
      - by rewrite lookup_alter_ne, lookup_insert_ne. }
    rewrite Ha. destruct (sbdService st); [|by intros [= <-]]. by intros ->%callEligible_sessions.
  - intros [= <-]. symmetry. apply map_eq. intros j. destruct (decide (j = i)) as [->|].
    + by rewrite lookup_alter_eq, Es.
    + by rewrite lookup_alter_ne.
Qed.

Lemma changeSession_role i f st id :
  (∀ s, sessionRole (f s) = sessionRole s) →
  sessionRole <$> sessions_ (changeSession i f st) !! id = sessionRole <$> sessions_ st !! id.
Proof.
  intros Hf. unfold changeSession. destruct (sessions_ st !! i) as [s|] eqn:Es; [|done]. cbn.
  destruct (decide (id = i)) as [->|]; [rewrite lookup_insert_eq, Es; cbn; by rewrite Hf|by rewrite lookup_insert_ne].
Qed.

Lemma changed_role f g i id (m : gmap string SessionMetadata) :
  (∀ s, sessionRole (f s) = g (sessionRole s)) →
  sessionRole <$> alter f i m !! id =
  if decide (i = id) then g <$> (sessionRole <$> m !! id) else sessionRole <$> m !! id.
Proof.
  intros Hf. case_decide as Hi; [subst; rewrite lookup_alter_eq|by rewrite lookup_alter_ne].
  destruct (m !! id); cbn; [|done]. by rewrite Hf.
Qed.

Lemma storeStep_role op st st' id :
  storeStep op st = Some st' →
  sessionRole <$> sessions_ st' !! id = roleStep id (sessionRole <$> sessions_ st !! id) op.
Proof.
  destruct op as [now m|now|op|op]; cbn [storeStep roleStep].
  - by intros [= <-].
  - by intros [= <-].
  - destruct op; cbn [sessionStep];
      try (intros [= <-]; by apply changeSession_role);
      try (intros ->%changeAndUpdate_sessions; by apply changed_role).
    + intros [= <-]. unfold registerSession. case_bool_decide as He; cbn.
      * destruct (decide (id0 = id ∧ id ≠ EmptyString)) as [[<- ?]|]; done.
      * destruct (decide (id0 = id ∧ id ≠ EmptyString)) as [[<- _]|Hn]; [by rewrite lookup_insert_eq|].
        rewrite lookup_insert_ne; [done|]. intros ->. by apply Hn.
    + unfold unregisterSession. intros (st1 & E1%callEligible_sessions & [= <-])%bind_Some. cbn. rewrite E1.
      case_decide as Hi; [subst; by rewrite lookup_delete_eq|by rewrite lookup_delete_ne].
  - destruct (sbdService st); [|by intros [= <-]]. by intros (? & _ & [= <-])%bind_Some.
Qed.

Lemma storeRuns_role c ops st id : storeRuns c ops st → sessionRole <$> sessions_ st !! id = roleOf ops id.
Proof.
  induction 1 as [|ops st op st' _ IH _ Hst]; [done|].
  unfold roleOf. rewrite foldl_app. cbn. fold (roleOf ops id). rewrite <-IH. by apply storeStep_role.
Qed.

(** C19: The store and the bottleneck service agree, however session changes,
    reports, observer calls and worker rounds interleave, as long as a
    connection is registered once at a time: no operation fails; a connection
    that the service may group is, by the operations so far, registered, not
    marked as a relay and subscribed to a track or a namespace; and after
    every change of what a session subscribes to, or of its being a relay, the
    service may group it exactly if that is so. *)
Theorem only_viewers_eligible c ops st op : storeRuns c ops st → disciplined op st →
  ∃ svc' st', storeStep op st = Some st' ∧ sbdService st' = Some svc' ∧
    (∀ id, eligFlag svc' id = true → watches (roleOf (ops ++ [op]) id)) ∧
    (∀ id, settles op = Some id → enabled c = true → is_Some (roleOf (ops ++ [op]) id) →
       eligFlag svc' id = true ↔ watches (roleOf (ops ++ [op]) id)).
Proof.
  intros Hr Hd. destruct (storeRuns_elig c ops st Hr) as (svc & Hi & Hc).
  destruct (storeStep_elig op svc st Hi Hd) as (svc' & st' & E & [] & Hc' & Hs).
  assert (Hrole : ∀ id, roleOf (ops ++ [op]) id = sessionRole <$> sessions_ st' !! id).
  { intros id. symmetry. apply (storeRuns_role c). by eapply runs_step. }
  exists svc', st'. split_and!; [done|done| |].
  - intros id (s & Es & Hw)%ei_viewer0. rewrite Hrole, Es. by apply isViewer_watches.
  - intros id Hset Hen. rewrite Hrole. intros [r (s & Es & ->)%fmap_Some]. rewrite Es.
    rewrite (Hs id s Hset Es ltac:(by rewrite Hc)). apply isViewer_watches.
Qed.
