(* ===== verification/MetricsObserver.v ===== *)
(** * ClientNetworkMetricsObserver: reports from the events of a connection

    Models the observer of [src/src/stats/ClientNetworkMetrics.{h,cpp}].  What
    [getTransportInfo] returns is an argument of the handlers that call it, and
    so is the clock.  Reports go to the store of [ClientMetrics]; a handler
    returns the report it makes, if any.  The file of RTT samples and its timer
    are not modelled. *)

From Stdlib Require Import SpecFloat.
From S2P Require Import Prelude SbdDetector SbdGroups WeiDetector SbdService ClientMetrics.
From S2P Require Import MetricsTheorems.

(** The fields of quic's [TransportInfo] that the observer reads. *)
Record TransportInfo := mkInfo {
  srtt : Z; rttvar : Z; maybeMinRtt : option Z;
  congestionWindow : Z; bytesInFlight : Z; infoWritableBytes : Z;
  packetsRetransmitted : Z; bytesAcked : Z; mss : Z
}.

Record Observer := mkObserver {
  metrics_ : ClientNetworkMetrics;
  currentBytesAcked_ : Z;
  currentPacketsAcked_ : Z;
  lastRateBytesAcked_ : Z;
  lastRateEcn_ : Z;
  lastRateCe_ : Z;
  lastPublish_ : Z
}.

Definition kPublishInterval : Z := 100000000.

Definition set_metrics (m : ClientNetworkMetrics) (o : Observer) : Observer :=
  mkObserver m (currentBytesAcked_ o) (currentPacketsAcked_ o) (lastRateBytesAcked_ o)
    (lastRateEcn_ o) (lastRateCe_ o) (lastPublish_ o).

(** A report with other values of the fields that the observer writes. *)
Definition rewrite_ (m : ClientNetworkMetrics) (act lim ecn : bool)
    (srtt_ rttvar_ minrtt queue cwnd inflight writable ackedRate pacing acked lost retr e0 e1 c : Z)
    (ceFr l4s : double) (at_ : Z) : ClientNetworkMetrics :=
  mkMetrics (connectionId m) (peerAddress m) act lim ecn srtt_ rttvar_ minrtt queue cwnd inflight
    writable ackedRate pacing acked lost retr e0 e1 c ceFr l4s at_
    (windowSamples m) (windowDurationMs m) (windowAckedPackets m) (windowEct0 m) (windowEct1 m)
    (windowCe m) (windowLostPackets m) (windowRetransmittedPackets m) (windowCeFraction m)
    (windowLossRate m) (windowQueueDelayTrendUs m) (windowSrttTrendUs m)
    (windowAckedRateTrendBps m) (windowCwndTrendBytes m) (windowWritableBlockedFraction m)
    (windowAppLimitedFraction m) (windowCounterReset m) (sessionMapped m) (publishedTracksOut m)
    (publishedNamespacesOut m) (trackSubscriptionsOut m) (namespaceSubscriptionsOut m).

Definition readTransportInfo (info : TransportInfo) (o : Observer) : Observer :=
  let m := metrics_ o in
  let minRtt := default 0 (maybeMinRtt info) in
  let m := rewrite_ m (isActive m) (appLimited m) (ecnCapable m) (srtt info) (rttvar info) minRtt
    (if minRtt <? srtt info then srtt info - minRtt else 0)
    (congestionWindow info) (bytesInFlight info) (infoWritableBytes info)
    (ackedRateBps m) (pacingRateBps m) (ackedPackets m) (lostPackets m) (packetsRetransmitted info)
    (ect0 m) (ect1 m) (ce m) (ceFraction m) (l4sWeight m) (updatedAt m) in
  mkObserver m (bytesAcked info) (currentPacketsAcked_ o) (lastRateBytesAcked_ o)
    (lastRateEcn_ o) (lastRateCe_ o) (lastPublish_ o).

(** The rate of acknowledged bytes since the last report. *)
Definition ackedRate (now : Z) (o : Observer) : Z :=
  let m := metrics_ o in
  if lastPublish_ o =? 0 then ackedRateBps m
  else
    let elapsedUs := Z.quot (now - lastPublish_ o) 1000 in
    if (0 <? elapsedUs) && (lastRateBytesAcked_ o <=? currentBytesAcked_ o)
    then u64 ((currentBytesAcked_ o - lastRateBytesAcked_ o) * 8000000) / elapsedUs
    else ackedRateBps m.

Definition publish (now : Z) (force : bool) (o : Observer) :
    Observer * option ClientNetworkMetrics :=
  if negb force && (now - lastPublish_ o <? kPublishInterval) then (o, None)
  else
    let m := metrics_ o in
    let ecn := u64 (ect0 m + ect1 m + ce m) in
    let newEcn := if lastRateEcn_ o <=? ecn then ecn - lastRateEcn_ o else 0 in
    let newCe := if lastRateCe_ o <=? ce m then ce m - lastRateCe_ o else 0 in
    let m := rewrite_ m (isActive m) (appLimited m) (ecnCapable m) (srttUs m) (rttVarUs m) (minRttUs m)
      (queueDelayUs m) (cwndBytes m) (inflightBytes m) (writableBytes m) (ackedRate now o)
      (pacingRateBps m) (ackedPackets m) (lostPackets m) (retransmittedPackets m)
      (ect0 m) (ect1 m) (ce m) (fraction newCe newEcn) (l4sWeight m) now in
    (mkObserver m (currentBytesAcked_ o) (currentPacketsAcked_ o) (currentBytesAcked_ o) ecn (ce m) now,
     Some m).

(** ** Handlers *)

Definition create (id peer : string) (info : TransportInfo) (now : Z) :
    Observer * option ClientNetworkMetrics :=
  publish now true (readTransportInfo info (mkObserver (newMetrics id peer) 0 0 0 0 0 0)).

(** An acknowledgment: the number of packets and the cumulative ECN counts. *)
Record AckEvent := mkAck { ackedCount : Z; ecnECT0Count : Z; ecnECT1Count : Z; ecnCECount : Z }.

Definition applyAck (o : Observer) (a : AckEvent) : Observer :=
  let m := metrics_ o in
  let m := rewrite_ m (isActive m) (appLimited m) (ecnCapable m) (srttUs m) (rttVarUs m) (minRttUs m)
    (queueDelayUs m) (cwndBytes m) (inflightBytes m) (writableBytes m) (ackedRateBps m)
    (pacingRateBps m) (ackedPackets m) (lostPackets m) (retransmittedPackets m)
    (Z.max (ect0 m) (ecnECT0Count a)) (Z.max (ect1 m) (ecnECT1Count a)) (Z.max (ce m) (ecnCECount a))
    (ceFraction m) (l4sWeight m) (updatedAt m) in
  mkObserver m (currentBytesAcked_ o) (u64 (currentPacketsAcked_ o + ackedCount a))
    (lastRateBytesAcked_ o) (lastRateEcn_ o) (lastRateCe_ o) (lastPublish_ o).

Definition acksProcessed (now : Z) (info : TransportInfo) (events : list AckEvent) (o : Observer) :
    Observer * option ClientNetworkMetrics :=
  let o := foldl applyAck o events in
  let m := metrics_ o in
  let m := rewrite_ m (isActive m) (appLimited m) (0 <? u64 (ect0 m + ect1 m + ce m))
    (srttUs m) (rttVarUs m) (minRttUs m)
    (queueDelayUs m) (cwndBytes m) (inflightBytes m) (writableBytes m) (ackedRateBps m)
    (pacingRateBps m) (currentPacketsAcked_ o) (lostPackets m) (retransmittedPackets m)
    (ect0 m) (ect1 m) (ce m) (ceFraction m) (l4sWeight m) (updatedAt m) in
  publish now false (readTransportInfo info (set_metrics m o)).

Definition packetLossDetected (now lostCount : Z) (o : Observer) :
    Observer * option ClientNetworkMetrics :=
  let m := metrics_ o in
  publish now false (set_metrics
    (rewrite_ m (isActive m) (appLimited m) (ecnCapable m) (srttUs m) (rttVarUs m) (minRttUs m)
      (queueDelayUs m) (cwndBytes m) (inflightBytes m) (writableBytes m) (ackedRateBps m)
      (pacingRateBps m) (ackedPackets m) (u64 (lostPackets m + lostCount)) (retransmittedPackets m)
      (ect0 m) (ect1 m) (ce m) (ceFraction m) (l4sWeight m) (updatedAt m)) o).

Definition rttSampleGenerated (now : Z) (info : TransportInfo) (o : Observer) :
    Observer * option ClientNetworkMetrics :=
  publish now false (readTransportInfo info o).

Definition l4sWeightUpdated (now : Z) (weight : double) (o : Observer) :
    Observer * option ClientNetworkMetrics :=
  let m := metrics_ o in
  publish now false (set_metrics
    (rewrite_ m (isActive m) (appLimited m) (ecnCapable m) (srttUs m) (rttVarUs m) (minRttUs m)
      (queueDelayUs m) (cwndBytes m) (inflightBytes m) (writableBytes m) (ackedRateBps m)
      (pacingRateBps m) (ackedPackets m) (lostPackets m) (retransmittedPackets m)
      (ect0 m) (ect1 m) (ce m) (ceFraction m) weight (updatedAt m)) o).

Definition pacingRateUpdated (now packetsPerInterval intervalUs : Z) (info : TransportInfo)
    (o : Observer) : Observer * option ClientNetworkMetrics :=
  let m := metrics_ o in
  let pacing := if 0 <? intervalUs
                then u64 (packetsPerInterval * mss info * 8000000) / intervalUs
                else pacingRateBps m in
  publish now false (set_metrics
    (rewrite_ m (isActive m) (appLimited m) (ecnCapable m) (srttUs m) (rttVarUs m) (minRttUs m)
      (queueDelayUs m) (cwndBytes m) (inflightBytes m) (writableBytes m) (ackedRateBps m)
      pacing (ackedPackets m) (lostPackets m) (retransmittedPackets m)
      (ect0 m) (ect1 m) (ce m) (ceFraction m) (l4sWeight m) (updatedAt m)) o).

Definition setAppLimited (b : bool) (o : Observer) : Observer :=
  let m := metrics_ o in
  set_metrics
    (rewrite_ m (isActive m) b (ecnCapable m) (srttUs m) (rttVarUs m) (minRttUs m)
      (queueDelayUs m) (cwndBytes m) (inflightBytes m) (writableBytes m) (ackedRateBps m)
      (pacingRateBps m) (ackedPackets m) (lostPackets m) (retransmittedPackets m)
      (ect0 m) (ect1 m) (ce m) (ceFraction m) (l4sWeight m) (updatedAt m)) o.

Definition appRateLimited (now : Z) (o : Observer) : Observer * option ClientNetworkMetrics :=
  publish now false (setAppLimited true o).
Definition startWritingFromAppLimited (now : Z) (o : Observer) :
    Observer * option ClientNetworkMetrics :=
  publish now false (setAppLimited false o).

Definition closing (now : Z) (info : TransportInfo) (o : Observer) :
    Observer * option ClientNetworkMetrics :=
  let o := readTransportInfo info o in
  let m := metrics_ o in
  publish now true (set_metrics
    (rewrite_ m false (appLimited m) (ecnCapable m) (srttUs m) (rttVarUs m) (minRttUs m)
      (queueDelayUs m) (cwndBytes m) (inflightBytes m) (writableBytes m) (ackedRateBps m)
      (pacingRateBps m) (ackedPackets m) (lostPackets m) (retransmittedPackets m)
      (ect0 m) (ect1 m) (ce m) (ceFraction m) (l4sWeight m) (updatedAt m)) o).

(** ** Runs *)

Inductive ObserverEvent :=
| Acks (info : TransportInfo) (events : list AckEvent)
| Loss (lostCount : Z)
| Rtt (info : TransportInfo)
| L4s (weight : double)
| Pacing (packets intervalUs : Z) (info : TransportInfo)
| AppLimited
| AppWriting
| Closing (info : TransportInfo).

Definition observe (now : Z) (e : ObserverEvent) (o : Observer) :
    Observer * option ClientNetworkMetrics :=
  match e with
  | Acks info events => acksProcessed now info events o
  | Loss n => packetLossDetected now n o
  | Rtt info => rttSampleGenerated now info o
  | L4s weight => l4sWeightUpdated now weight o
  | Pacing n us info => pacingRateUpdated now n us info o
  | AppLimited => appRateLimited now o
  | AppWriting => startWritingFromAppLimited now o
  | Closing info => closing now info o
  end.

(** The reports of a connection: the first from the constructor. *)
Fixpoint observeAll (events : list (Z * ObserverEvent)) (o : Observer) : list ClientNetworkMetrics :=
  match events with
  | [] => []
  | (now, e) :: events' =>
      let '(o', r) := observe now e o in
      match r with Some m => m :: observeAll events' o' | None => observeAll events' o' end
  end.

Definition observed (id peer : string) (info : TransportInfo) (start : Z)
    (events : list (Z * ObserverEvent)) : list ClientNetworkMetrics :=
  let '(o, r) := create id peer info start in
  match r with Some m => m :: observeAll events o | None => observeAll events o end.

(** ** Reports *)

(** The counters that the observer itself accumulates. *)
Definition accumulated : list (ClientNetworkMetrics → Z) := [ackedPackets; ect0; ect1; ce; lostPackets].

Definition noLess (a b : ClientNetworkMetrics) : Prop := ∀ k, k ∈ accumulated → k a <= k b.

Lemma noLess_intro a b : ackedPackets a <= ackedPackets b → ect0 a <= ect0 b → ect1 a <= ect1 b →
  ce a <= ce b → lostPackets a <= lostPackets b → noLess a b.
Proof.
  intros ????? k Hk. unfold accumulated in Hk.
  repeat (apply elem_of_cons in Hk as [->|Hk]; [done|]). by apply elem_of_nil in Hk.
Qed.

Lemma noLess_trans a b c : noLess a b → noLess b c → noLess a c.
Proof. intros H1 H2 k Hk. specialize (H1 k Hk). specialize (H2 k Hk). lia. Qed.

(** The identity of the connection and the fields of the window. *)
Definition sameWindow (a b : ClientNetworkMetrics) : Prop :=
  connectionId b = connectionId a ∧ windowSamples b = windowSamples a ∧
  windowCounterReset b = windowCounterReset a ∧
  ∀ k, k ∈ counters → total k b = total k a.

Lemma rewrite_sameWindow m a b c x1 x2 x3 x4 x5 x6 x7 x8 x9 x10 x11 x12 x13 x14 x15 d1 d2 t :
  sameWindow m (rewrite_ m a b c x1 x2 x3 x4 x5 x6 x7 x8 x9 x10 x11 x12 x13 x14 x15 d1 d2 t).
Proof.
  split; [done|]. split; [done|]. split; [done|]. intros k Hk. unfold counters in Hk.
  repeat (apply elem_of_cons in Hk as [->|Hk]; [done|]). by apply elem_of_nil in Hk.
Qed.

Lemma sameWindow_trans a b c : sameWindow a b → sameWindow b c → sameWindow a c.
Proof.
  intros (H1 & H2 & H3 & H4) (G1 & G2 & G3 & G4). split; [congruence|]. split; [congruence|].
  split; [congruence|]. intros k Hk. rewrite (G4 k Hk). auto.
Qed.

(** What the observer has counted, given what it may still count. *)
Record ObserverInv (ackBudget lossBudget : Z) (o : Observer) : Prop := {
  oi_packets : 0 <= ackedPackets (metrics_ o) <= currentPacketsAcked_ o;
  oi_acks : currentPacketsAcked_ o + ackBudget < u64_modulus;
  oi_lost : 0 <= lostPackets (metrics_ o) ∧ lostPackets (metrics_ o) + lossBudget < u64_modulus;
  oi_ecn : is_u64 (ect0 (metrics_ o)) ∧ is_u64 (ect1 (metrics_ o)) ∧ is_u64 (ce (metrics_ o));
  oi_retr : is_u64 (retransmittedPackets (metrics_ o))
}.

Definition ackSum (events : list AckEvent) : Z := foldr (λ a n, ackedCount a + n) 0 events.

Definition ackTotal (e : ObserverEvent) : Z := match e with Acks _ events => ackSum events | _ => 0 end.
Definition lossTotal (e : ObserverEvent) : Z := match e with Loss n => n | _ => 0 end.

Definition validAck (a : AckEvent) : Prop :=
  0 <= ackedCount a ∧ is_u64 (ecnECT0Count a) ∧ is_u64 (ecnECT1Count a) ∧ is_u64 (ecnCECount a).

Definition validEvent (e : ObserverEvent) : Prop :=
  match e with
  | Acks info events => Forall validAck events ∧ is_u64 (packetsRetransmitted info)
  | Loss n => 0 <= n
  | Rtt info | Closing info => is_u64 (packetsRetransmitted info)
  | _ => True
  end.

(** What leads from one state of the observer to the next. *)
Definition advance (o o' : Observer) : Prop :=
  noLess (metrics_ o) (metrics_ o') ∧ sameWindow (metrics_ o) (metrics_ o') ∧
  lastPublish_ o' = lastPublish_ o.

Lemma ackSum_nonneg events : Forall validAck events → 0 <= ackSum events.
Proof. unfold ackSum. induction 1 as [|a l [Ha _] _ IH]; cbn [foldr]; lia. Qed.

Lemma applyAcks_ok events : ∀ ab lb o, Forall validAck events → 0 <= ab →
  ObserverInv (ackSum events + ab) lb o →
  ObserverInv ab lb (foldl applyAck o events) ∧ advance o (foldl applyAck o events) ∧
  isActive (metrics_ (foldl applyAck o events)) = isActive (metrics_ o).
Proof.
  induction events as [|a events IH]; intros ab lb o Hv Hab Ho; cbn [foldl].
  - split; [done|]. split; [|done]. split; [apply noLess_intro; lia|]. by split.
  - apply Forall_cons in Hv as [(Ha & H0 & H1 & H2) Hv]. pose proof (ackSum_nonneg events Hv).
    unfold ackSum in Ho at 1. cbn [foldr] in Ho. fold (ackSum events) in Ho. destruct Ho.
    assert (u64 (currentPacketsAcked_ o + ackedCount a) = currentPacketsAcked_ o + ackedCount a) as Eu.
    { apply u64_small. unfold is_u64. lia. }
    destruct (IH ab lb (applyAck o a) Hv Hab) as (Hi & (Hn & Hw & Hl) & Hact).
    + unfold is_u64 in *. split; cbn; rewrite ?Eu; try split; try lia.
      all: unfold is_u64; lia.
    + split; [done|]. split; [|by rewrite Hact]. split; [|split; [|by rewrite Hl]].
      * eapply noLess_trans; [|exact Hn]. apply noLess_intro; cbn; lia.
      * eapply sameWindow_trans; [|exact Hw]. apply rewrite_sameWindow.
Qed.

Lemma publish_spec now force o : let '(o', r) := publish now force o in
  noLess (metrics_ o) (metrics_ o') ∧ sameWindow (metrics_ o) (metrics_ o') ∧
  (∀ ab lb, ObserverInv ab lb o → ObserverInv ab lb o') ∧
  isActive (metrics_ o') = isActive (metrics_ o) ∧
  match r with
  | None => lastPublish_ o' = lastPublish_ o
  | Some m => m = metrics_ o' ∧ updatedAt m = now ∧ lastPublish_ o' = now ∧
      (force = false → kPublishInterval <= now - lastPublish_ o)
  end.
Proof.
  unfold publish. destruct (negb force && _) eqn:E.
  - split; [apply noLess_intro; lia|]. done.
  - split; [apply noLess_intro; cbn; lia|]. split; [apply rewrite_sameWindow|].
    split; [by intros ab lb []; split|]. split; [done|]. split; [done|]. split; [done|]. split; [done|].
    intros ->. cbn in E. lia.
Qed.

Lemma publish_forced now o : ∃ o', publish now true o = (o', Some (metrics_ o')).
Proof. exists (publish now true o).1. reflexivity. Qed.

Lemma readTransportInfo_ok ab lb o info : is_u64 (packetsRetransmitted info) → ObserverInv ab lb o →
  ObserverInv ab lb (readTransportInfo info o) ∧ advance o (readTransportInfo info o).
Proof.
  intros Hr []. split; [by split|]. split; [apply noLess_intro; cbn; lia|].
  split; [apply rewrite_sameWindow|done].
Qed.

Lemma advance_trans a b c : advance a b → advance b c → advance a c.
Proof.
  intros (H1 & H2 & H3) (G1 & G2 & G3). split; [by eapply noLess_trans|].
  split; [by eapply sameWindow_trans|congruence].
Qed.

(** Every handler changes the state and then reports, forced only on closing. *)
Lemma observe_prepared now e o ab lb : validEvent e → 0 <= ab → 0 <= lb →
  ObserverInv (ackTotal e + ab) (lossTotal e + lb) o →
  ∃ o1 force, observe now e o = publish now force o1 ∧ ObserverInv ab lb o1 ∧ advance o o1 ∧
    (force = true → isActive (metrics_ o1) = false).
Proof.
  intros Hv Hab Hlb Ho. destruct e as [info events|n|info|weight|n us info| | |info]; cbn [observe].
  - destruct Hv as [Hv Hr]. cbn in Ho. destruct (applyAcks_ok events ab lb o Hv Hab Ho) as (Hi & Ha & _).
    unfold acksProcessed. set (o1 := foldl applyAck o events) in *. cbv zeta.
    eexists _, false. split; [done|]. split; [|split; [|done]].
    + apply readTransportInfo_ok; [done|]. destruct Hi. split; cbn; try done; lia.
    + eapply advance_trans; [exact Ha|]. split; [apply noLess_intro; cbn; destruct Hi; lia|].
      split; [|done]. eapply sameWindow_trans; apply rewrite_sameWindow.
  - cbn in Hv, Ho. unfold packetLossDetected. cbv zeta. eexists _, false. split; [done|]. destruct Ho.
    assert (u64 (lostPackets (metrics_ o) + n) = lostPackets (metrics_ o) + n) as Eu.
    { apply u64_small. unfold is_u64. lia. }
    split; [split; cbn; rewrite ?Eu; try done; lia|]. split; [|done].
    split; [apply noLess_intro; cbn; rewrite ?Eu; lia|]. split; [apply rewrite_sameWindow|done].
  - unfold rttSampleGenerated. destruct (readTransportInfo_ok ab lb o info Hv Ho). by eexists _, false.
  - unfold l4sWeightUpdated. cbv zeta. eexists _, false. split; [done|]. destruct Ho. split; [by split|].
    split; [|done]. split; [apply noLess_intro; cbn; lia|]. split; [apply rewrite_sameWindow|done].
  - unfold pacingRateUpdated. cbv zeta. eexists _, false. split; [done|]. destruct Ho. split; [by split|].
    split; [|done]. split; [apply noLess_intro; cbn; lia|]. split; [apply rewrite_sameWindow|done].
  - eexists _, false. split; [done|]. destruct Ho. split; [by split|].
    split; [|done]. split; [apply noLess_intro; cbn; lia|]. split; [apply rewrite_sameWindow|done].
  - eexists _, false. split; [done|]. destruct Ho. split; [by split|].
    split; [|done]. split; [apply noLess_intro; cbn; lia|]. split; [apply rewrite_sameWindow|done].
  - destruct (readTransportInfo_ok ab lb o info Hv Ho) as [[] Ha]. unfold closing. cbv zeta.
    eexists _, true. split; [done|]. split; [by split|]. split; [|done].
    eapply advance_trans; [exact Ha|]. split; [apply noLess_intro; cbn; lia|].
    split; [apply rewrite_sameWindow|done].
Qed.

Definition total_ (f : ObserverEvent → Z) (events : list (Z * ObserverEvent)) : Z :=
  foldr (λ e n, f e.2 + n) 0 events.

(** One report and the next. *)
Definition follows (a b : ClientNetworkMetrics) : Prop :=
  noLess a b ∧ (isActive b = true → kPublishInterval <= updatedAt b - updatedAt a).

(** A report that [plainReport] and the identity of the connection hold for. *)
Definition soundReport (id : string) (m : ClientNetworkMetrics) : Prop :=
  connectionId m = id ∧ plainReport m.

Lemma inv_plain ab lb id o m : 0 <= ab → 0 <= lb → ObserverInv ab lb o →
  sameWindow (newMetrics id m) (metrics_ o) → soundReport id (metrics_ o).
Proof.
  intros Hab Hlb [] (Hid & Hs & Hr & Hk). split; [done|]. split; [done|]. split; [done|].
  intros k Hin. rewrite (Hk k Hin). unfold is_u64 in *. unfold counters in Hin.
  repeat (apply elem_of_cons in Hin as [->|Hin]; [cbn; split; [done|unfold is_u64; lia]|]).
  by apply elem_of_nil in Hin.
Qed.

Lemma totals_nonneg events : Forall (λ e, validEvent e.2) events →
  0 <= total_ ackTotal events ∧ 0 <= total_ lossTotal events.
Proof.
  unfold total_. induction 1 as [|[t e] l He _ [IH1 IH2]]; cbn [foldr snd]; [lia|].
  destruct e; cbn in *; try lia. destruct He as [He _]. apply ackSum_nonneg in He. lia.
Qed.

Lemma observeAll_ok id peer events : ∀ o prev, Forall (λ e, validEvent e.2) events →
  ObserverInv (total_ ackTotal events) (total_ lossTotal events) o →
  sameWindow (newMetrics id peer) (metrics_ o) → noLess prev (metrics_ o) →
  lastPublish_ o = updatedAt prev →
  Sorted follows (prev :: observeAll events o) ∧ Forall (soundReport id) (observeAll events o).
Proof.
  induction events as [|[now e] events IH]; intros o prev Hv Ho Hw Hn Hl.
  - split; [|done]. cbn. repeat constructor.
  - apply Forall_cons in Hv as [He Hv]. cbn [snd] in He.
    destruct (totals_nonneg events Hv) as [Ha Hlo].
    unfold total_ in Ho at 1 2. cbn [foldr snd] in Ho.
    fold (total_ ackTotal events) (total_ lossTotal events) in Ho.
    destruct (observe_prepared now e o _ _ He Ha Hlo Ho) as (o1 & force & Eo & Hi & (Hn1 & Hw1 & Hl1) & Hf).
    pose proof (publish_spec now force o1) as Hp. cbn [observeAll]. rewrite Eo.
    destruct (publish now force o1) as [o' r]. destruct Hp as (Hn2 & Hw2 & Hk & Hact & Hr).
    pose proof (noLess_trans _ _ _ Hn (noLess_trans _ _ _ Hn1 Hn2)) as Hn'.
    pose proof (sameWindow_trans _ _ _ Hw (sameWindow_trans _ _ _ Hw1 Hw2)) as Hw'.
    destruct r as [m|].
    + destruct Hr as (-> & Hat & Hlp & Hgap).
      destruct (IH o' (metrics_ o') Hv (Hk _ _ Hi) Hw') as [Hs Hall].
      { apply noLess_intro; lia. } { congruence. }
      split.
      * constructor; [done|]. constructor. split; [done|]. intros Hb.
        rewrite <- Hl, <- Hl1, Hat. apply Hgap. destruct force; [|done]. rewrite Hact, (Hf eq_refl) in Hb. done.
      * constructor; [|done]. eapply inv_plain; [exact Ha|exact Hlo|by apply Hk|done].
    + by apply IH; [done|apply Hk| | |congruence].
Qed.

(** A connection's reports follow each other at least 100 ms apart while it
    is open, carry its identifier and no window fields, and the counters that
    the observer accumulates never go back from one report to the next, so
    only the transport's own count of retransmissions can make the store flag a
    counter reset. *)
Theorem observer_reports_sound id peer info start events :
  is_u64 (packetsRetransmitted info) → Forall (λ e, validEvent e.2) events →
  total_ ackTotal events < u64_modulus → total_ lossTotal events < u64_modulus →
  observed id peer info start events ≠ [] ∧ Sorted follows (observed id peer info start events) ∧
  Forall (soundReport id) (observed id peer info start events).
Proof.
  intros Hr Hv Ha Hl. unfold observed, create.
  set (o0 := mkObserver (newMetrics id peer) 0 0 0 0 0 0).
  assert (ObserverInv (total_ ackTotal events) (total_ lossTotal events) o0) as H0.
  { split; cbn; try lia; by vm_compute. }
  destruct (readTransportInfo_ok _ _ o0 info Hr H0) as [H1 (Hn1 & Hw1 & _)].
  pose proof (publish_spec start true (readTransportInfo info o0)) as Hp.
  destruct (publish_forced start (readTransportInfo info o0)) as [o Eo]. rewrite Eo in *.
  destruct Hp as (_ & Hw2 & Hk & _ & _ & Hat & Hlp & _).
  pose proof (sameWindow_trans _ _ _ Hw1 Hw2) as Hw. destruct (totals_nonneg events Hv).
  destruct (observeAll_ok id peer events o (metrics_ o) Hv (Hk _ _ H1) Hw) as [Hs Hall].
  { apply noLess_intro; lia. } { congruence. }
  split; [done|]. split; [done|]. constructor; [|done].
  eapply inv_plain; [| |by apply Hk|exact Hw]; done.
Qed.
