(* ===== verification/MetricsExamples.v ===== *)
(** * Client metrics: runs

    Reports and sessions at which the theorems apply, and two runs that show
    what the store does not forget. *)

From S2P Require Import Prelude SbdDetector SbdGroups WeiDetector SbdService ClientMetrics.
From S2P Require Import MetricsTheorems MetricsEligibility MetricsObserver.

#[local] Open Scope string_scope.
#[local] Open Scope Z_scope.

Module MetricsExamples.

Definition second : Z := 1000000000.

Definition info0 : TransportInfo := mkInfo 20000 1000 (Some 15000) 30000 1200 4000 0 0 1200.

(** A connection with two batches of acknowledgments, one of them marked, and
    a loss. *)
Definition events1 : list (Z * ObserverEvent) :=
  [(1 * second, Acks info0 [mkAck 4 4 0 0; mkAck 3 6 0 1]);
   (1 * second + 50000000, Loss 2);
   (2 * second, Rtt info0)].

Definition reports1 : list ClientNetworkMetrics := observed "c1" "10.0.0.1" info0 (second / 2) events1.

Example reports1_times : updatedAt <$> reports1 = [second / 2; second; 2 * second].
Proof. by vm_compute. Qed.

Lemma events1_valid : Forall (λ e, validEvent e.2) events1.
Proof. unfold events1. repeat constructor; cbn; unfold is_u64; by vm_compute. Qed.

Lemma observer_reports_sound_witness :
  Sorted follows reports1 ∧ Forall (soundReport "c1") reports1.
Proof.
  apply (observer_reports_sound "c1" "10.0.0.1" info0 (second / 2) events1).
  - by vm_compute.
  - exact events1_valid.
  - by vm_compute.
  - by vm_compute.
Defined.

(** The reports in the store, with a window of ten seconds. *)
Definition ops1 : list StoreOp := (λ m, Put 0 m) <$> reports1.
Definition empty1 : Store := newStore None 10000 250 10000.
Definition store1 : Store := default empty1 (storeRun ops1 empty1).
Definition view1 : ClientNetworkMetrics :=
  default (newMetrics EmptyString EmptyString) (head (snapshot (3 * second) store1).2).

Example view1_window : windowSamples view1 = 3 ∧ windowAckedPackets view1 = 7 ∧
  windowCe view1 = 1 ∧ windowLostPackets view1 = 2 ∧ windowDurationMs view1 = 1500.
Proof. by vm_compute. Qed.

Lemma store1_runs : storeRun ops1 empty1 = Some store1.
Proof. by vm_compute. Qed.
Lemma view1_listed : view1 ∈ (snapshot (3 * second) store1).2.
Proof. assert ((snapshot (3 * second) store1).2 = [view1]) as -> by (by vm_compute). by left. Qed.

Definition plainb (m : ClientNetworkMetrics) : bool :=
  (windowSamples m =? 0) && negb (windowCounterReset m) &&
  forallb (λ k, (total k m =? 0) && (0 <=? count k m) && (count k m <? u64_modulus)) counters.

Lemma plainb_sound m : plainb m = true → plainReport m.
Proof.
  intros [[Hs%Z.eqb_eq Hr%negb_true_iff]%andb_prop Hk]%andb_prop. split; [done|]. split; [done|].
  intros k Hin%list_elem_of_In. apply (proj1 (forallb_forall _ _) Hk) in Hin. unfold is_u64. lia.
Qed.

Lemma ops1_plain m : m ∈ reports ops1 → plainReport m.
Proof.
  intros Hm%list_elem_of_In. apply plainb_sound.
  exact (proj1 (forallb_forall plainb (reports ops1)) ltac:(by vm_compute) m Hm).
Qed.


(** ** Sessions *)

Definition config1 : Config := mkConfig true "owd" "SBD".
Definition empty2 : Store := newStore (Some (newService config1)) 10000 250 10000.
Definition registered : Store := registerSession "c1" empty2.

Lemma registered_runs : storeRuns config1 [Sess (Register "c1")] registered.
Proof.
  apply (runs_step config1 [] empty2 (Sess (Register "c1"))); [apply runs_start|reflexivity|reflexivity].
Qed.

Lemma only_viewers_eligible_witness :
  ∃ svc st, storeStep (Sess (AddTrackSubscription (0, 0) "c1" "video")) registered = Some st ∧
    sbdService st = Some svc ∧ eligFlag svc "c1" = true ∧
    ∀ id, eligFlag svc id = true →
      watches (roleOf [Sess (Register "c1"); Sess (AddTrackSubscription (0, 0) "c1" "video")] id).
Proof.
  destruct (only_viewers_eligible config1 _ registered (Sess (AddTrackSubscription (0, 0) "c1" "video"))
              registered_runs I) as (svc & st & H1 & H2 & H3 & H4).
  exists svc, st. split; [exact H1|]. split; [exact H2|]. split; [|exact H3].
  apply (H4 "c1"); [reflexivity|reflexivity|by eexists|]. eexists. split; [reflexivity|].
  split; [reflexivity|]. left. discriminate.
Defined.

(** A second session on the same connection replaces the metadata of the first
    without a word to the service, which goes on treating the connection as a
    viewer. *)
Theorem reregistration_keeps_flag :
  match storeRun [Sess (Register "c1"); Sess (AddTrackSubscription (0, 0) "c1" "video");
                  Sess (Register "c1")] empty2 with
  | Some st => sessions_ st !! "c1" = Some newSession ∧
      (svc ← sbdService st; Some (eligFlag svc "c1")) = Some true
  | None => False
  end.
Proof. by vm_compute. Qed.

(** A connection that has closed stays in every later snapshot. *)
Theorem closed_client_stays :
  match storeRun [Put 0 (closing second info0 (create "c1" "10.0.0.1" info0 second).1).1.(metrics_);
                  Sess (Unregister (0, 0) "c1"); Snap (1000000 * second)] empty2 with
  | Some st => (λ m, (connectionId m, isActive m, windowSamples m)) <$>
                 (snapshot (2000000 * second) st).2 = [("c1", false, 0)]
  | None => False
  end.
Proof. by vm_compute. Qed.

End MetricsExamples.
