(* ===== verification/Json.v ===== *)
(** * JsonWriter: the JSON emitter of the admin endpoints

    Models [src/src/admin/JsonWriter.h].  Bytes are [ascii] characters and the
    output is the list of those written.  [std::to_string] of an integer is its
    decimal numeral; that of a [double] ([%f]) is a parameter.

    The reader is a specification: it accepts the JSON texts (RFC 8259, so in
    UTF-8) without white space between tokens.  [json_roundtrip] shows that a
    document written with the writer's methods reads back as that document, if
    its strings are UTF-8 and its [double]s are written as numbers; the writer
    itself checks neither. *)

From Stdlib Require Import Ascii String DecimalString DecimalFacts DecimalN DecimalZ DecimalPos.
From Stdlib Require Decimal.
From S2P Require Import Prelude SbdDetector.

#[local] Open Scope char_scope.
#[local] Open Scope Z_scope.

Definition quote : ascii := "034".
Definition backslash : ascii := "092".

Definition chars (s : string) : list ascii := String.list_ascii_of_string s.

(** ** The writer *)

Record JsonWriter := mkWriter { out : list ascii; needsComma_ : bool }.

Definition newWriter : JsonWriter := mkWriter [] false.

Definition append (s : list ascii) (w : JsonWriter) : JsonWriter :=
  mkWriter (out w ++ s) (needsComma_ w).

Definition setComma (b : bool) (w : JsonWriter) : JsonWriter := mkWriter (out w) b.

Definition maybeComma (w : JsonWriter) : JsonWriter :=
  if needsComma_ w then append [","%char] w else w.

Definition code (c : ascii) : N := N_of_ascii c.

Definition hexDigit (n : N) : ascii :=
  ascii_of_N (if (n <? 10)%N then 48 + n else 87 + n).

(** The body of the loop of [writeString] for one byte. *)
Definition escapeChar (c : ascii) : list ascii :=
  if (c =? quote)%char then [backslash; quote]
  else if (c =? backslash)%char then [backslash; backslash]
  else if (c =? "010")%char then [backslash; "n"%char]
  else if (c =? "013")%char then [backslash; "r"%char]
  else if (c =? "009")%char then [backslash; "t"%char]
  else if (code c <? 32)%N then
    [backslash; "u"%char; "0"%char; "0"%char; hexDigit (code c / 16); hexDigit (code c mod 16)]
  else [c].

Definition escape (s : list ascii) : list ascii := mjoin (escapeChar <$> s).

Definition quoted (s : list ascii) : list ascii := quote :: escape s ++ [quote].

Definition writeString (s : list ascii) (w : JsonWriter) : JsonWriter := append (quoted s) w.

Definition beginObject (w : JsonWriter) : JsonWriter :=
  setComma false (append ["{"%char] (maybeComma w)).
Definition endObject (w : JsonWriter) : JsonWriter := setComma true (append ["}"%char] w).
Definition beginArray (w : JsonWriter) : JsonWriter :=
  setComma false (append ["["%char] (maybeComma w)).
Definition endArray (w : JsonWriter) : JsonWriter := setComma true (append ["]"%char] w).

Definition key (k : list ascii) (w : JsonWriter) : JsonWriter :=
  setComma false (append [":"%char] (writeString k (maybeComma w))).

(** [std::to_string] of an integer. *)
Definition to_string (z : Z) : list ascii := chars (NilZero.string_of_int (Z.to_int z)).

Definition strVal (v : list ascii) (w : JsonWriter) : JsonWriter :=
  setComma true (writeString v (maybeComma w)).
Definition boolVal (b : bool) (w : JsonWriter) : JsonWriter :=
  setComma true (append (chars (if b then "true" else "false")) (maybeComma w)).
Definition intVal (v : Z) (w : JsonWriter) : JsonWriter :=
  setComma true (append (to_string v) (maybeComma w)).
Definition uintVal (v : Z) (w : JsonWriter) : JsonWriter :=
  setComma true (append (to_string v) (maybeComma w)).
Definition doubleVal (format : double → list ascii) (v : double) (w : JsonWriter) : JsonWriter :=
  setComma true (append (format v) (maybeComma w)).
Definition nullVal (w : JsonWriter) : JsonWriter :=
  setComma true (append (chars "null") (maybeComma w)).

Definition fieldStr (k v : list ascii) (w : JsonWriter) : JsonWriter := strVal v (key k w).
Definition fieldBool (k : list ascii) (v : bool) (w : JsonWriter) : JsonWriter := boolVal v (key k w).
Definition fieldInt (k : list ascii) (v : Z) (w : JsonWriter) : JsonWriter := intVal v (key k w).
Definition fieldUint (k : list ascii) (v : Z) (w : JsonWriter) : JsonWriter := uintVal v (key k w).
Definition fieldDouble (format : double → list ascii) (k : list ascii) (v : double) (w : JsonWriter) :
    JsonWriter := doubleVal format v (key k w).

(** ** Documents *)

(** Numbers are kept as their text. *)
Inductive json :=
| JNull
| JBool (b : bool)
| JNum (text : list ascii)
| JStr (s : list ascii)
| JArr (vs : list json)
| JObj (kvs : list (list ascii * json)).

(** What a caller writes. *)
Inductive doc :=
| DNull
| DBool (b : bool)
| DInt (z : Z)
| DUint (z : Z)
| DDouble (d : double)
| DStr (s : list ascii)
| DArr (vs : list doc)
| DObj (kvs : list (list ascii * doc)).

(** A document written with the methods above. *)
Fixpoint emit (format : double → list ascii) (v : doc) (w : JsonWriter) : JsonWriter :=
  match v with
  | DNull => nullVal w
  | DBool b => boolVal b w
  | DInt z => intVal z w
  | DUint z => uintVal z w
  | DDouble d => doubleVal format d w
  | DStr s => strVal s w
  | DArr vs => endArray (foldl (λ w v, emit format v w) (beginArray w) vs)
  | DObj kvs => endObject (foldl (λ w kv, emit format kv.2 (key kv.1 w)) (beginObject w) kvs)
  end.

(** ** The reader *)

Definition isDigit (c : ascii) : bool := (48 <=? code c)%N && (code c <=? 57)%N.

Definition numChar (c : ascii) : bool :=
  isDigit c || (c =? "-")%char || (c =? "+")%char || (c =? ".")%char || (c =? "e")%char ||
  (c =? "E")%char.

Fixpoint digits (l : list ascii) : list ascii :=
  match l with c :: l' => if isDigit c then digits l' else l | [] => [] end.

(** At least one digit, and what follows the digits. *)
Definition someDigits (l : list ascii) : option (list ascii) :=
  match l with c :: l' => if isDigit c then Some (digits l') else None | [] => None end.

Definition intPart (l : list ascii) : option (list ascii) :=
  match l with
  | c :: l' => if (c =? "0")%char then Some l' else if isDigit c then Some (digits l') else None
  | [] => None
  end.

Definition fracPart (l : list ascii) : option (list ascii) :=
  match l with c :: l' => if (c =? ".")%char then someDigits l' else Some l | [] => Some [] end.

Definition expPart (l : list ascii) : option (list ascii) :=
  match l with
  | c :: l' =>
      if (c =? "e")%char || (c =? "E")%char then
        match l' with
        | d :: l'' => if (d =? "+")%char || (d =? "-")%char then someDigits l'' else someDigits l'
        | [] => None
        end
      else Some l
  | [] => Some []
  end.

(** The grammar of JSON numbers. *)
Definition isNumber (t : list ascii) : bool :=
  let t := match t with c :: t' => if (c =? "-")%char then t' else t | [] => t end in
  match (t ← intPart t; t ← fracPart t; expPart t) with Some [] => true | _ => false end.

Fixpoint spanNum (l : list ascii) : list ascii * list ascii :=
  match l with
  | c :: l' => if numChar c then let '(a, b) := spanNum l' in (c :: a, b) else ([], l)
  | [] => ([], [])
  end.

Definition readNumber (l : list ascii) : option (json * list ascii) :=
  let '(t, rest) := spanNum l in if isNumber t then Some (JNum t, rest) else None.

Definition hexValue (c : ascii) : option N :=
  let n := code c in
  if (48 <=? n)%N && (n <=? 57)%N then Some (n - 48)%N
  else if (97 <=? n)%N && (n <=? 102)%N then Some (n - 87)%N
  else if (65 <=? n)%N && (n <=? 70)%N then Some (n - 55)%N
  else None.

(** An escape of four hexadecimal digits, for code points of one byte. *)
Definition unicodeByte (h1 h2 h3 h4 : ascii) : option ascii :=
  a ← hexValue h1; b ← hexValue h2; c ← hexValue h3; d ← hexValue h4;
  let n := (((a * 16 + b) * 16 + c) * 16 + d)%N in
  if (n <? 128)%N then Some (ascii_of_N n) else None.

Definition simpleEscape (c : ascii) : option ascii :=
  if (c =? quote)%char || (c =? backslash)%char || (c =? "/")%char then Some c
  else if (c =? "n")%char then Some "010"%char
  else if (c =? "r")%char then Some "013"%char
  else if (c =? "t")%char then Some "009"%char
  else if (c =? "b")%char then Some "008"%char
  else if (c =? "f")%char then Some "012"%char
  else None.

(** What follows the opening quote of a string, up to the closing one. *)
Fixpoint readString (l : list ascii) : option (list ascii * list ascii) :=
  match l with
  | [] => None
  | c :: l' =>
      if (c =? quote)%char then Some ([], l')
      else if (c =? backslash)%char then
        match l' with
        | e :: l'' =>
            if (e =? "u")%char then
              match l'' with
              | h1 :: h2 :: h3 :: h4 :: r =>
                  b ← unicodeByte h1 h2 h3 h4; '(s, rest) ← readString r; Some (b :: s, rest)
              | _ => None
              end
            else b ← simpleEscape e; '(s, rest) ← readString l''; Some (b :: s, rest)
        | [] => None
        end
      else if (code c <? 32)%N then None
      else '(s, rest) ← readString l'; Some (c :: s, rest)
  end.

Fixpoint stripPrefix (p l : list ascii) : option (list ascii) :=
  match p, l with
  | [], _ => Some l
  | a :: p', b :: l' => if (a =? b)%char then stripPrefix p' l' else None
  | _, [] => None
  end.

Definition readWord (w : string) (v : json) (l : list ascii) : option (json * list ascii) :=
  rest ← stripPrefix (chars w) l; Some (v, rest).

Fixpoint readValue (fuel : nat) (l : list ascii) : option (json * list ascii) :=
  match fuel, l with
  | S fuel, c :: l' =>
      if (c =? "{")%char then
        match l' with
        | d :: l'' => if (d =? "}")%char then Some (JObj [], l'')
                      else '(kvs, rest) ← readMembers fuel l'; Some (JObj kvs, rest)
        | [] => None
        end
      else if (c =? "[")%char then
        match l' with
        | d :: l'' => if (d =? "]")%char then Some (JArr [], l'')
                      else '(vs, rest) ← readElements fuel l'; Some (JArr vs, rest)
        | [] => None
        end
      else if (c =? quote)%char then '(s, rest) ← readString l'; Some (JStr s, rest)
      else if (c =? "n")%char then readWord "null" JNull l
      else if (c =? "t")%char then readWord "true" (JBool true) l
      else if (c =? "f")%char then readWord "false" (JBool false) l
      else readNumber l
  | _, _ => None
  end
with readElements (fuel : nat) (l : list ascii) : option (list json * list ascii) :=
  match fuel with
  | O => None
  | S fuel =>
      '(v, rest) ← readValue fuel l;
      match rest with
      | c :: rest' =>
          if (c =? ",")%char then '(vs, rest) ← readElements fuel rest'; Some (v :: vs, rest)
          else if (c =? "]")%char then Some ([v], rest') else None
      | [] => None
      end
  end
with readMembers (fuel : nat) (l : list ascii) : option (list (list ascii * json) * list ascii) :=
  match fuel, l with
  | S fuel, c :: l' =>
      if (c =? quote)%char then
        '(k, rest) ← readString l';
        match rest with
        | d :: rest' =>
            if (d =? ":")%char then
              '(v, rest) ← readValue fuel rest';
              match rest with
              | e :: rest' =>
                  if (e =? ",")%char then '(kvs, rest) ← readMembers fuel rest'; Some ((k, v) :: kvs, rest)
                  else if (e =? "}")%char then Some ([(k, v)], rest') else None
              | [] => None
              end
            else None
        | [] => None
        end
      else None
  | _, _ => None
  end.

(** The well-formed UTF-8 byte sequences (RFC 3629). *)
Definition between (lo hi : N) (c : ascii) : bool := (lo <=? code c)%N && (code c <=? hi)%N.

Fixpoint utf8 (l : list ascii) : bool :=
  match l with
  | [] => true
  | a :: l =>
      if between 0 127 a then utf8 l
      else if between 194 223 a then
        match l with b :: l => between 128 191 b && utf8 l | _ => false end
      else if between 224 239 a then
        match l with
        | b :: c :: l =>
            between (if (code a =? 224)%N then 160 else 128) (if (code a =? 237)%N then 159 else 191) b &&
            between 128 191 c && utf8 l
        | _ => false
        end
      else if between 240 244 a then
        match l with
        | b :: c :: d :: l =>
            between (if (code a =? 240)%N then 144 else 128) (if (code a =? 244)%N then 143 else 191) b &&
            between 128 191 c && between 128 191 d && utf8 l
        | _ => false
        end
      else false
  end.

(** A document in UTF-8, with an optional newline after it. *)
Definition parse (l : list ascii) : option json :=
  if negb (utf8 l) then None
  else match readValue (2 * length l + 2) l with
  | Some (v, []) => Some v
  | Some (v, [c]) => if (c =? "010")%char then Some v else None
  | _ => None
  end.

(** ** The writer appends the text of the document *)

(** The texts of a list, with commas between them. *)
Fixpoint commaSep (ts : list (list ascii)) : list ascii :=
  match ts with
  | [] => []
  | [t] => t
  | t :: ts => t ++ ","%char :: commaSep ts
  end.

Fixpoint render (v : json) : list ascii :=
  match v with
  | JNull => chars "null"
  | JBool b => chars (if b then "true" else "false")
  | JNum t => t
  | JStr s => quoted s
  | JArr vs => "["%char :: commaSep (map render vs) ++ ["]"%char]
  | JObj kvs =>
      "{"%char :: commaSep (map (λ kv, quoted kv.1 ++ ":"%char :: render kv.2) kvs) ++ ["}"%char]
  end.

Fixpoint wfJson (v : json) : bool :=
  match v with
  | JNum t => forallb numChar t && isNumber t
  | JArr vs => forallb wfJson vs
  | JObj kvs => forallb (λ kv, wfJson kv.2) kvs
  | _ => true
  end.

(** Every string and key is UTF-8. *)
Fixpoint utf8Json (v : json) : bool :=
  match v with
  | JStr s => utf8 s
  | JArr vs => forallb utf8Json vs
  | JObj kvs => forallb (λ kv, utf8 kv.1 && utf8Json kv.2) kvs
  | _ => true
  end.

Definition json_nested_ind (P : json → Prop)
    (Hnull : P JNull) (Hbool : ∀ b, P (JBool b)) (Hnum : ∀ t, P (JNum t)) (Hstr : ∀ s, P (JStr s))
    (Harr : ∀ vs, Forall P vs → P (JArr vs))
    (Hobj : ∀ kvs, Forall (λ kv, P kv.2) kvs → P (JObj kvs)) : ∀ v, P v :=
  fix go v := match v with
  | JNull => Hnull
  | JBool b => Hbool b
  | JNum t => Hnum t
  | JStr s => Hstr s
  | JArr vs => Harr vs ((fix gos vs : Forall P vs := match vs with
      | [] => Forall_nil_2 _ | v :: vs => Forall_cons_2 _ _ _ (go v) (gos vs) end) vs)
  | JObj kvs => Hobj kvs ((fix gos kvs : Forall (λ kv, P kv.2) kvs := match kvs with
      | [] => Forall_nil_2 _ | kv :: kvs => Forall_cons_2 _ _ _ (go kv.2) (gos kvs) end) kvs)
  end.

(** What a method that writes the value of text [t] does. *)
Definition wrote (t : list ascii) (w : JsonWriter) : JsonWriter :=
  setComma true (append t (maybeComma w)).

Lemma wrote_after t u w : wrote u (wrote t w) = wrote (t ++ ","%char :: u) w.
Proof.
  destruct w as [o []]; unfold wrote, setComma, append, maybeComma; simpl;
    by rewrite <- ?(assoc_L (++)).
Qed.

Lemma commaSep_fold t ts : commaSep (t :: ts) = foldl (λ a u, a ++ ","%char :: u) t ts.
Proof.
  revert t. induction ts as [|u ts IH]; intros t; first done.
  change (commaSep (t :: u :: ts)) with (t ++ ","%char :: commaSep (u :: ts)). rewrite IH. simpl.
  assert (∀ x y, foldl (λ a u, a ++ ","%char :: u) (x ++ y) ts =
                 x ++ foldl (λ a u, a ++ ","%char :: u) y ts) as Happ.
  { clear. induction ts as [|u ts IH]; intros x y; simpl; [done|]. by rewrite <- IH, (assoc_L (++)). }
  rewrite (Happ t). f_equal. symmetry. exact (Happ [","%char] u).
Qed.

(** Writing the members of an object or the elements of an array. *)
Lemma wrote_fold {A} (f : A → list ascii) (g : JsonWriter → A → JsonWriter) w xs :
  Forall (λ x, ∀ w, g w x = wrote (f x) w) xs →
  foldl g w xs = match xs with [] => w | _ => wrote (commaSep (map f xs)) w end.
Proof.
  destruct xs as [|x xs]; first done. intros [Hx Hxs]%Forall_cons. simpl. rewrite Hx.
  change (match map f xs with [] => f x | _ => f x ++ ","%char :: commaSep (map f xs) end)
    with (commaSep (f x :: map f xs)). rewrite commaSep_fold.
  generalize (f x); clear Hx x. induction Hxs as [|y xs Hy _ IH]; intros t; first done.
  simpl. by rewrite Hy, wrote_after, IH.
Qed.

Definition bracketed (a : ascii) (ts : list (list ascii)) (b : ascii) : list ascii :=
  a :: commaSep ts ++ [b].

Lemma wrote_bracketed {A} (f : A → list ascii) (g : JsonWriter → A → JsonWriter) a b w xs :
  Forall (λ x, ∀ w, g w x = wrote (f x) w) xs →
  setComma true (append [b] (foldl g (setComma false (append [a] (maybeComma w))) xs)) =
  wrote (bracketed a (map f xs) b) w.
Proof.
  intros Hxs. rewrite (wrote_fold f) by done.
  destruct xs; unfold bracketed, wrote, setComma, append, maybeComma; simpl;
    destruct (needsComma_ w); simpl; by rewrite <- ?(assoc_L (++)).
Qed.

Lemma wrote_member k t w : wrote t (key k w) = wrote (quoted k ++ ":"%char :: t) w.
Proof.
  unfold key, wrote, writeString, setComma, append, maybeComma; simpl.
  destruct (needsComma_ w); simpl; rewrite <- ?(assoc_L (++)); simpl; by rewrite <- ?(assoc_L (++)).
Qed.

(** ** Reading back what was written *)

Lemma readString_escapeChar c l :
  readString (escapeChar c ++ l) = '(s, rest) ← readString l; Some (c :: s, rest).
Proof. by destruct c as [[] [] [] [] [] [] [] []]. Qed.

Lemma readString_quoted s l : readString (escape s ++ quote :: l) = Some (s, l).
Proof.
  induction s as [|c s IH]; first done. unfold escape in *. rewrite fmap_cons. simpl.
  rewrite <- (assoc_L (++)), readString_escapeChar, IH. done.
Qed.

(** What may follow a value: nothing a number could go on with. *)
Definition delimited (l : list ascii) : Prop :=
  match l with c :: _ => numChar c = false | [] => True end.

Lemma spanNum_app t l : forallb numChar t = true → delimited l → spanNum (t ++ l) = (t, l).
Proof.
  intros Ht Hl. induction t as [|c t IH]; simpl in *.
  - destruct l as [|c l]; simpl in *; [done|by rewrite Hl].
  - apply andb_true_iff in Ht as [-> Ht]. by rewrite IH.
Qed.

Lemma numChar_starts_number fuel c l :
  numChar c = true → readValue (S fuel) (c :: l) = readNumber (c :: l).
Proof. by destruct c as [[] [] [] [] [] [] [] []]. Qed.

(** The fuel a value needs. *)
Fixpoint need (v : json) : nat :=
  match v with
  | JArr vs => S (list_sum (map (λ v, S (need v)) vs))
  | JObj kvs => S (list_sum (map (λ kv, S (need kv.2)) kvs))
  | _ => 1
  end.

Definition reads (v : json) : Prop :=
  ∀ fuel l, (need v ≤ fuel)%nat → delimited l → wfJson v = true →
    readValue fuel (render v ++ l) = Some (v, l).

Lemma render_cons v : wfJson v = true → ∃ c t, render v = c :: t ∧ c ≠ "]"%char.
Proof.
  destruct v as [|[]|[|c t]|s|vs|kvs]; simpl; try by eauto.
  intros [[Hc _]%andb_true_iff _]%andb_true_iff. exists c, t. split; [done|]. by intros ->.
Qed.

Lemma readElements_last fuel l v rest :
  readValue fuel l = Some (v, "]"%char :: rest) → readElements (S fuel) l = Some ([v], rest).
Proof. intros Hv. simpl. by rewrite Hv. Qed.

Lemma readElements_more fuel l v rest vs rest' :
  readValue fuel l = Some (v, ","%char :: rest) → readElements fuel rest = Some (vs, rest') →
  readElements (S fuel) l = Some (v :: vs, rest').
Proof. intros Hv Hvs. simpl. rewrite Hv. simpl. by rewrite Hvs. Qed.

Lemma readMembers_last fuel l k v rest rest' :
  readString l = Some (k, ":"%char :: rest) → readValue fuel rest = Some (v, "}"%char :: rest') →
  readMembers (S fuel) (quote :: l) = Some ([(k, v)], rest').
Proof. intros Hk Hv. simpl. rewrite Hk. simpl. by rewrite Hv. Qed.

Lemma readMembers_more fuel l k v rest rest' kvs rest'' :
  readString l = Some (k, ":"%char :: rest) → readValue fuel rest = Some (v, ","%char :: rest') →
  readMembers fuel rest' = Some (kvs, rest'') →
  readMembers (S fuel) (quote :: l) = Some ((k, v) :: kvs, rest'').
Proof. intros Hk Hv Hkvs. simpl. rewrite Hk. simpl. rewrite Hv. simpl. by rewrite Hkvs. Qed.

Lemma reads_elements v vs fuel l :
  reads v → Forall reads vs → forallb wfJson (v :: vs) = true →
  (list_sum (map (λ v, S (need v)) (v :: vs)) ≤ fuel)%nat →
  readElements fuel (commaSep (map render (v :: vs)) ++ "]"%char :: l) = Some (v :: vs, l).
Proof.
  intros Hv Hvs. revert v fuel Hv.
  induction Hvs as [|u vs Hu _ IH]; intros v fuel Hv [Hwv Hwvs]%andb_true_iff Hfuel;
    (destruct fuel as [|fuel]; [simpl in *; lia|]).
  - apply readElements_last, Hv; [simpl in *; lia|done|done].
  - change (commaSep (map render (v :: u :: vs)))
      with (render v ++ ","%char :: commaSep (map render (u :: vs))).
    rewrite <- (assoc_L (++)). eapply readElements_more.
    + apply Hv; [simpl in *; lia|done|done].
    + apply IH; [done|done|simpl in *; lia].
Qed.

Definition member (kv : list ascii * json) : list ascii := quoted kv.1 ++ ":"%char :: render kv.2.

Lemma readString_member kv l :
  member kv ++ l = quote :: escape kv.1 ++ quote :: ":"%char :: render kv.2 ++ l.
Proof. unfold member, quoted. simpl. by rewrite <- !(assoc_L (++)). Qed.

Lemma reads_members kv kvs fuel l :
  reads kv.2 → Forall (λ kv, reads kv.2) kvs → forallb (λ kv, wfJson kv.2) (kv :: kvs) = true →
  (list_sum (map (λ kv, S (need kv.2)) (kv :: kvs)) ≤ fuel)%nat →
  readMembers fuel (commaSep (map member (kv :: kvs)) ++ "}"%char :: l) = Some (kv :: kvs, l).
Proof.
  intros Hv Hvs. revert kv fuel Hv.
  induction Hvs as [|u vs Hu _ IH]; intros [k v] fuel Hv [Hwv Hwvs]%andb_true_iff Hfuel;
    (destruct fuel as [|fuel]; [simpl in *; lia|]); simpl in Hv, Hwv.
  - simpl commaSep. rewrite readString_member.
    eapply readMembers_last; [apply readString_quoted|apply Hv; [simpl in *; lia|done|done]].
  - change (commaSep (map member ((k, v) :: u :: vs)))
      with (member (k, v) ++ ","%char :: commaSep (map member (u :: vs))).
    rewrite <- (assoc_L (++)), readString_member.
    eapply readMembers_more; [apply readString_quoted|apply Hv; [simpl in *; lia|done|done]|].
    apply IH; [done|done|simpl in *; lia].
Qed.

Lemma reads_array vs : Forall reads vs → reads (JArr vs).
Proof.
  intros Hvs [|fuel] l Hfuel Hl Hwf; [simpl in *; lia|]. destruct Hvs as [|v vs Hv Hvs]; [done|].
  simpl in Hwf. pose proof Hwf as [Hwv _]%andb_true_iff.
  destruct (render_cons v Hwv) as (c & t & Hc & Hne).
  assert (readElements fuel (commaSep (map render (v :: vs)) ++ "]"%char :: l) = Some (v :: vs, l))
    as Hread by (apply reads_elements; [done..|simpl in *; lia]).
  assert (∃ t', commaSep (map render (v :: vs)) = c :: t') as [t' Ht'].
  { simpl. rewrite Hc. destruct (map render vs); simpl; eauto. }
  change (render (JArr (v :: vs))) with ("["%char :: commaSep (map render (v :: vs)) ++ ["]"%char]).
  rewrite <- app_comm_cons, <- (assoc_L (++)). simpl app at 2. rewrite Ht' in Hread |- *.
  rewrite <- app_comm_cons in Hread |- *.
  cbn -[readElements]. apply Ascii.eqb_neq in Hne. rewrite Hne, Hread. done.
Qed.

Lemma reads_object kvs : Forall (λ kv, reads kv.2) kvs → reads (JObj kvs).
Proof.
  intros Hvs [|fuel] l Hfuel Hl Hwf; [simpl in *; lia|]. destruct Hvs as [|kv kvs Hv Hvs]; [done|].
  assert (readMembers fuel (commaSep (map member (kv :: kvs)) ++ "}"%char :: l) = Some (kv :: kvs, l))
    as Hread by (apply reads_members; [done..|simpl in *; lia]).
  assert (∃ t', commaSep (map member (kv :: kvs)) = quote :: t') as [t' Ht'].
  { simpl. destruct (map member kvs); simpl; eauto. }
  change (render (JObj (kv :: kvs))) with ("{"%char :: commaSep (map member (kv :: kvs)) ++ ["}"%char]).
  rewrite <- app_comm_cons, <- (assoc_L (++)). simpl app at 2. rewrite Ht' in Hread |- *.
  rewrite <- app_comm_cons in Hread |- *.
  cbn -[readMembers]. rewrite Hread. done.
Qed.

Lemma reads_all v : reads v.
Proof.
  induction v as [|b|t|s|vs IH|kvs IH] using json_nested_ind;
    [..|by apply reads_array|by apply reads_object];
    intros [|fuel] l Hfuel Hl Hwf; try (simpl in *; lia).
  - done.
  - by destruct b.
  - simpl in Hwf. apply andb_true_iff in Hwf as [Ht Hnum]. destruct t as [|c t]; [done|].
    change (render (JNum (c :: t)) ++ l) with (c :: t ++ l). rewrite numChar_starts_number.
    + change (c :: t ++ l) with ((c :: t) ++ l). unfold readNumber. by rewrite spanNum_app, Hnum.
    + simpl in Ht. by apply andb_true_iff in Ht as [-> _].
  - change (render (JStr s) ++ l) with (quote :: (escape s ++ [quote]) ++ l).
    rewrite <- (assoc_L (++)). simpl. by rewrite readString_quoted.
Qed.

Lemma commaSep_length {A} (f : A → list ascii) xs :
  (list_sum (map (λ x, length (f x)) xs) + length xs ≤ S (length (commaSep (map f xs))))%nat.
Proof.
  induction xs as [|x [|y xs] IH]; simpl; [lia|lia|].
  simpl in IH. rewrite length_app. simpl. lia.
Qed.

Lemma sum_need {A} (f g : A → nat) xs :
  Forall (λ x, (f x ≤ 2 * g x)%nat) xs →
  (list_sum (map (λ x, S (f x)) xs) ≤ 2 * (list_sum (map g xs) + length xs))%nat.
Proof. induction 1; simpl in *; lia. Qed.

Lemma forallb_Forall_impl {A} (f : A → bool) (P : A → Prop) xs :
  Forall (λ x, f x = true → P x) xs → forallb f xs = true → Forall P xs.
Proof.
  induction 1 as [|x xs Hx _ IH]; [done|]. intros [Hf Hfs]%andb_true_iff. constructor; auto.
Qed.

Lemma member_length kv : (length (render kv.2) ≤ length (member kv))%nat.
Proof. unfold member. rewrite length_app. simpl. lia. Qed.

Lemma need_render v : wfJson v = true → (need v ≤ 2 * length (render v))%nat.
Proof.
  induction v as [|b|t|s|vs IH|kvs IH] using json_nested_ind; intros Hwf; try (simpl in *; lia).
  - destruct b; simpl; lia.
  - destruct t; [done|simpl; lia].
  - pose proof (commaSep_length render vs).
    pose proof (sum_need _ _ _ (forallb_Forall_impl _ _ _ IH Hwf)).
    simpl. rewrite length_app. simpl. lia.
  - pose proof (commaSep_length member kvs).
    assert (Forall (λ kv, (need kv.2 ≤ 2 * length (member kv))%nat) kvs) as Hneed.
    { eapply Forall_impl; [exact (forallb_Forall_impl _ _ _ IH Hwf)|].
      intros kv Hkv. pose proof (member_length kv). simpl in Hkv. lia. }
    apply sum_need in Hneed.
    change (render (JObj kvs)) with ("{"%char :: commaSep (map member kvs) ++ ["}"%char]).
    simpl. rewrite length_app. simpl. lia.
Qed.

(** *** The text is UTF-8 *)

Lemma utf8_app a b : utf8 a = true → utf8 (a ++ b) = utf8 b.
Proof.
  remember (length a) as n eqn:Hn. assert (length a ≤ n)%nat as Hle by lia. clear Hn. revert a Hle.
  induction n as [|n IH]; intros [|c a] Hle; cbn in Hle; try done; try lia.
  cbn [utf8 app]. destruct (between 0 127 c); [intros; apply IH; [lia|done]|].
  destruct (between 194 223 c).
  { destruct a as [|c1 a]; [done|]. cbn in *. intros [-> Ha]%andb_true_iff. cbn. apply IH; [lia|done]. }
  destruct (between 224 239 c).
  { destruct a as [|c1 [|c2 a]]; try done. cbn [app] in *. intros [-> Ha]%andb_true_iff. cbn [andb].
    apply IH; [cbn in *; lia|done]. }
  destruct (between 240 244 c); [|done]. destruct a as [|c1 [|c2 [|c3 a]]]; try done. cbn [app] in *.
  intros [-> Ha]%andb_true_iff. cbn [andb]. apply IH; [cbn in *; lia|done].
Qed.

Lemma utf8_app_true a b : utf8 a = true → utf8 b = true → utf8 (a ++ b) = true.
Proof. intros Ha Hb. by rewrite utf8_app. Qed.

Lemma utf8_ascii c l : between 0 127 c = true → utf8 (c :: l) = utf8 l.
Proof. intros Hc. cbn [utf8]. by rewrite Hc. Qed.

Lemma escape_cons c l : escape (c :: l) = escapeChar c ++ escape l.
Proof. done. Qed.

Lemma escapeChar_ascii c : between 0 127 c = true → utf8 (escapeChar c) = true.
Proof. by destruct c as [[] [] [] [] [] [] [] []]. Qed.

Lemma escapeChar_high c : between 128 255 c = true → escapeChar c = [c].
Proof. by destruct c as [[] [] [] [] [] [] [] []]. Qed.

Lemma between_high lo hi c : between lo hi c = true → (128 <= lo)%N → (hi <= 255)%N → between 128 255 c = true.
Proof. unfold between. rewrite !andb_true_iff, !N.leb_le. lia. Qed.

Lemma utf8_escape s : utf8 s = true → utf8 (escape s) = true.
Proof.
  remember (length s) as n eqn:Hn. assert (length s ≤ n)%nat as Hle by lia. clear Hn. revert s Hle.
  assert (Hhigh : ∀ c (b : bool) lo hi, between (if b then lo else 128) hi c = true → (128 <= lo)%N → (hi <= 255)%N →
    escapeChar c = [c]) by (intros c [] lo hi ???; apply escapeChar_high; eapply between_high; eauto; lia).
  assert (Hlow : ∀ c (b b' : bool) lo hi, between (if b then lo else 128) (if b' then hi else 191) c = true →
    (128 <= lo)%N → (hi <= 255)%N → escapeChar c = [c])
    by (intros c b [] lo hi ???; eapply Hhigh; eauto; lia).
  assert (Hcont : ∀ c, between 128 191 c = true → escapeChar c = [c])
    by (intros c ?; apply (Hhigh c false 128%N 191%N); done).
  assert (Hlead : ∀ c lo hi, between lo hi c = true → (128 <= lo)%N → (hi <= 255)%N → escapeChar c = [c])
    by (intros c lo hi ???; apply escapeChar_high; by eapply between_high).
  induction n as [|n IH]; intros [|c s] Hle; cbn in Hle; try done; try lia.
  cbn [utf8]. rewrite escape_cons. destruct (between 0 127 c) eqn:E0.
  { intros Hs. apply utf8_app_true; [by apply escapeChar_ascii|]. apply IH; [lia|done]. }
  destruct (between 194 223 c) eqn:E1.
  { destruct s as [|c1 s]; [done|]. cbn in Hle. intros [H1 Hs]%andb_true_iff.
    rewrite escape_cons, (Hlead c _ _ E1), (Hcont c1) by done. cbn [app utf8]. rewrite E0, E1, H1. apply IH; [lia|done]. }
  destruct (between 224 239 c) eqn:E2.
  { destruct s as [|c1 [|c2 s]]; try done. cbn in Hle. intros [[H1 H2]%andb_true_iff Hs]%andb_true_iff.
    rewrite !escape_cons, (Hlead c _ _ E2), (Hcont c2), (Hlow c1 _ _ _ _ H1) by done.
    cbn [app utf8]. rewrite E0, E1, E2, H1, H2. apply IH; [lia|done]. }
  destruct (between 240 244 c) eqn:E3; [|done]. destruct s as [|c1 [|c2 [|c3 s]]]; try done. cbn in Hle.
  intros [[[H1 H2]%andb_true_iff H3]%andb_true_iff Hs]%andb_true_iff.
  rewrite !escape_cons, (Hlead c _ _ E3), (Hcont c2), (Hcont c3), (Hlow c1 _ _ _ _ H1) by done.
  cbn [app utf8]. rewrite E0, E1, E2, E3, H1, H2, H3. apply IH; [lia|done].
Qed.

Lemma utf8_quoted s : utf8 s = true → utf8 (quoted s) = true.
Proof. intros Hs. unfold quoted. rewrite utf8_ascii by done. by apply utf8_app_true; [apply utf8_escape|]. Qed.

Lemma utf8_commaSep ts : Forall (λ t, utf8 t = true) ts → utf8 (commaSep ts) = true.
Proof.
  induction 1 as [|t ts Ht Hts IH]; [done|]. destruct ts as [|u ts]; [done|].
  change (commaSep (t :: u :: ts)) with (t ++ ","%char :: commaSep (u :: ts)).
  apply utf8_app_true; [done|]. by rewrite utf8_ascii.
Qed.

Lemma utf8_bracketed a ts b :
  between 0 127 a = true → between 0 127 b = true → Forall (λ t, utf8 t = true) ts →
  utf8 (a :: commaSep ts ++ [b]) = true.
Proof.
  intros Ha Hb Hts. rewrite utf8_ascii by done. apply utf8_app_true; [by apply utf8_commaSep|].
  by rewrite utf8_ascii.
Qed.

Lemma utf8_number t : forallb numChar t = true → utf8 t = true.
Proof.
  induction t as [|c t IH]; [done|]. cbn [forallb]. intros [Hc Ht]%andb_true_iff.
  rewrite utf8_ascii; [auto|]. revert Hc. by destruct c as [[] [] [] [] [] [] [] []].
Qed.

Lemma utf8_render v : wfJson v = true → utf8Json v = true → utf8 (render v) = true.
Proof.
  induction v as [|b|t|s|vs IH|kvs IH] using json_nested_ind; intros Hwf Hu.
  - done.
  - by destruct b.
  - cbn in *. apply andb_true_iff in Hwf as [? _]. by apply utf8_number.
  - by apply utf8_quoted.
  - apply utf8_bracketed; [done|done|]. apply Forall_map. cbn in Hwf, Hu.
    rewrite forallb_forall in Hwf, Hu. apply Forall_forall. intros v Hv. rewrite Forall_forall in IH.
    apply IH; [done|apply Hwf; by apply list_elem_of_In|apply Hu; by apply list_elem_of_In].
  - apply utf8_bracketed; [done|done|]. apply Forall_map. cbn in Hwf, Hu.
    rewrite forallb_forall in Hwf, Hu. apply Forall_forall. intros kv Hv. rewrite Forall_forall in IH.
    pose proof Hv as Hin%list_elem_of_In. destruct (proj1 (andb_true_iff _ _) (Hu kv Hin)) as [Hk Hkv].
    cbn. apply utf8_app_true; [by apply utf8_quoted|]. rewrite utf8_ascii by done. apply IH; [done|by apply Hwf|done].
Qed.

Lemma parse_render v l :
  wfJson v = true → utf8Json v = true → l = [] ∨ l = ["010"%char] → parse (render v ++ l) = Some v.
Proof.
  intros Hwf Hu Hl. unfold parse. rewrite utf8_app by by apply utf8_render.
  assert (utf8 l = true) as -> by (by destruct Hl as [-> | ->]). cbn [negb]. rewrite reads_all.
  - by destruct Hl as [-> | ->].
  - pose proof (need_render v Hwf). rewrite length_app. lia.
  - by destruct Hl as [-> | ->].
  - done.
Qed.

(** A document written on its own, with a newline after it. *)
Lemma parse_line v :
  wfJson v = true → utf8Json v = true →
  parse (out (append ["010"%char] (wrote (render v) newWriter))) = Some v.
Proof. intros Hwf Hu. apply (parse_render v ["010"%char]); auto. Qed.

(** ** Integers are numbers *)

Lemma uint_digits u :
  forallb isDigit (chars (NilEmpty.string_of_uint u)) = true.
Proof. induction u; simpl; auto. Qed.

Lemma digits_all l : forallb isDigit l = true → digits l = [].
Proof. induction l as [|c l IH]; [done|]. simpl. intros [-> Hl]%andb_true_iff. auto. Qed.

Lemma digits_numChar l : forallb isDigit l = true → forallb numChar l = true.
Proof.
  induction l as [|c l IH]; [done|]. simpl. intros [Hc Hl]%andb_true_iff.
  rewrite IH by done. unfold numChar. by rewrite Hc.
Qed.

(** A numeral without leading zeros. *)
Lemma uint_number u :
  Decimal.unorm u = u → u ≠ Decimal.Nil →
  let t := chars (NilEmpty.string_of_uint u) in forallb isDigit t = true ∧ intPart t = Some [].
Proof.
  intros Hu Hnil. split; [apply uint_digits|].
  assert (∀ u', digits (chars (NilEmpty.string_of_uint u')) = []) as Hd
    by (intros; apply digits_all, uint_digits).
  destruct u as [|u|u|u|u|u|u|u|u|u|u]; simpl; try done; try by rewrite Hd.
  destruct u as [|u|u|u|u|u|u|u|u|u|u]; [done|..]; exfalso;
    unfold Decimal.unorm in Hu; simpl in Hu;
    try (destruct (Decimal.nzhead u) eqn:E; try done; revert E Hu; intros E Hu; injection Hu; intros;
         by eapply DecimalFacts.nzhead_nonzero);
    try discriminate.
Qed.

Lemma intPart_isNumber t :
  intPart t = Some [] → (∀ c t', t = c :: t' → c ≠ "-"%char) → isNumber t = true.
Proof.
  intros Ht Hc. unfold isNumber. destruct t as [|c t]; [done|].
  destruct (Ascii.eqb_spec c "-") as [->|_]; [by destruct (Hc _ _ eq_refl)|]. by rewrite Ht.
Qed.

Lemma to_int_norm z : Decimal.norm (Z.to_int z) = Z.to_int z.
Proof. by rewrite <- DecimalZ.to_of, DecimalZ.of_to. Qed.

Lemma uint_text u :
  Decimal.unorm u = u →
  let t := chars (NilZero.string_of_uint u) in forallb isDigit t = true ∧ intPart t = Some [].
Proof.
  intros Hu. unfold NilZero.string_of_uint. destruct u; [done|..]; by apply uint_number.
Qed.

Lemma to_string_number z : forallb numChar (to_string z) && isNumber (to_string z) = true.
Proof.
  unfold to_string. pose proof (to_int_norm z) as Hz. destruct (Z.to_int z) as [u|u]; simpl in Hz.
  - injection Hz as Hu. destruct (uint_text u Hu) as [Hd Hi].
    change (NilZero.string_of_int (Decimal.Pos u)) with (NilZero.string_of_uint u).
    rewrite digits_numChar by done. simpl. apply intPart_isNumber; [done|].
    intros c t Ht ->. by rewrite Ht in Hd.
  - assert (Decimal.unorm u = u) as Hu.
    { unfold Decimal.unorm. destruct (Decimal.nzhead u); [done|..]; by injection Hz. }
    destruct (uint_text u Hu) as [Hd Hi].
    change (chars (NilZero.string_of_int (Decimal.Neg u)))
      with ("-"%char :: chars (NilZero.string_of_uint u)).
    simpl. rewrite digits_numChar by done. simpl. unfold isNumber. simpl. by rewrite Hi.
Qed.

Definition jint (z : Z) : json := JNum (to_string z).

Lemma intVal_wrote z w : intVal z w = wrote (render (jint z)) w.
Proof. done. Qed.

Lemma wf_jint z : wfJson (jint z) = true.
Proof. apply to_string_number. Qed.

(** ** What a sequence of writer calls writes

    [Members X w kvs]: the calls from [w] to [X] wrote the members [kvs];
    [Elements X w vs]: they wrote the elements [vs]. *)

Definition wroteAll (ts : list (list ascii)) (w : JsonWriter) : JsonWriter :=
  match ts with [] => w | _ => wrote (commaSep ts) w end.

Definition Members (X w : JsonWriter) (kvs : list (list ascii * json)) : Prop :=
  X = wroteAll (map member kvs) w.
Definition Elements (X w : JsonWriter) (vs : list json) : Prop := X = wroteAll (map render vs) w.

Lemma commaSep_app ts us : ts ≠ [] → us ≠ [] →
  commaSep (ts ++ us) = commaSep ts ++ ","%char :: commaSep us.
Proof.
  intros Hts Hus. induction ts as [|t [|t' ts] IH]; [done|by destruct us|].
  change (commaSep ((t :: t' :: ts) ++ us)) with (t ++ ","%char :: commaSep ((t' :: ts) ++ us)).
  rewrite IH by done.
  change (commaSep (t :: t' :: ts)) with (t ++ ","%char :: commaSep (t' :: ts)).
  by rewrite <- (assoc_L (++)).
Qed.

Lemma wroteAll_app ts us w : wroteAll (ts ++ us) w = wroteAll us (wroteAll ts w).
Proof.
  destruct us as [|u us]; [by rewrite app_nil_r|]. destruct ts as [|t ts]; [done|].
  change (wroteAll ((t :: ts) ++ u :: us) w) with (wrote (commaSep ((t :: ts) ++ u :: us)) w).
  rewrite commaSep_app by done. symmetry. apply wrote_after.
Qed.

Lemma Members_nil w : Members w w [].
Proof. done. Qed.
Lemma Elements_nil w : Elements w w [].
Proof. done. Qed.

Lemma Members_app X Y w kvs kvs' :
  Members Y w kvs → Members X Y kvs' → Members X w (kvs ++ kvs').
Proof. unfold Members. intros -> ->. by rewrite map_app, wroteAll_app. Qed.
Lemma Elements_app X Y w vs vs' :
  Elements Y w vs → Elements X Y vs' → Elements X w (vs ++ vs').
Proof. unfold Elements. intros -> ->. by rewrite map_app, wroteAll_app. Qed.

(** A value after a key is a member, and a value is an element. *)
Lemma Members_value X w kvs k v :
  Members X w kvs → Members (wrote (render v) (key k X)) w (kvs ++ [(k, v)]).
Proof. intros HX. eapply Members_app; [exact HX|]. apply wrote_member. Qed.
Lemma Elements_value X w vs v :
  Elements X w vs → Elements (wrote (render v) X) w (vs ++ [v]).
Proof. intros HX. by eapply Elements_app; [exact HX|]. Qed.

Lemma object_wrote X w kvs :
  Members X (beginObject w) kvs → endObject X = wrote (render (JObj kvs)) w.
Proof.
  intros ->. destruct kvs as [|kv kvs]; unfold endObject, beginObject, wroteAll;
    cbn [map]; unfold wrote, setComma, append, maybeComma;
    destruct (needsComma_ w); cbn -[commaSep]; by rewrite <- ?(assoc_L (++)).
Qed.
Lemma array_wrote X w vs :
  Elements X (beginArray w) vs → endArray X = wrote (render (JArr vs)) w.
Proof.
  intros ->. destruct vs as [|v vs]; unfold endArray, beginArray, wroteAll;
    cbn [map]; unfold wrote, setComma, append, maybeComma;
    destruct (needsComma_ w); cbn -[commaSep]; by rewrite <- ?(assoc_L (++)).
Qed.

Lemma Members_str X w kvs k s :
  Members X w kvs → Members (strVal s (key k X)) w (kvs ++ [(k, JStr s)]).
Proof. apply (Members_value X w kvs k (JStr s)). Qed.
Lemma Members_bool X w kvs k b :
  Members X w kvs → Members (boolVal b (key k X)) w (kvs ++ [(k, JBool b)]).
Proof. apply (Members_value X w kvs k (JBool b)). Qed.
Lemma Members_int X w kvs k z :
  Members X w kvs → Members (intVal z (key k X)) w (kvs ++ [(k, jint z)]).
Proof. apply (Members_value X w kvs k (jint z)). Qed.
Lemma Members_uint X w kvs k z :
  Members X w kvs → Members (uintVal z (key k X)) w (kvs ++ [(k, jint z)]).
Proof. apply (Members_value X w kvs k (jint z)). Qed.
Lemma Members_null X w kvs k :
  Members X w kvs → Members (nullVal (key k X)) w (kvs ++ [(k, JNull)]).
Proof. apply (Members_value X w kvs k JNull). Qed.
Lemma Members_double format X w kvs k d :
  Members X w kvs → Members (doubleVal format d (key k X)) w (kvs ++ [(k, JNum (format d))]).
Proof. apply (Members_value X w kvs k (JNum (format d))). Qed.
Lemma Members_object Y X w kvs k kvs' :
  Members Y (beginObject (key k X)) kvs' → Members X w kvs →
  Members (endObject Y) w (kvs ++ [(k, JObj kvs')]).
Proof. intros HY HX. rewrite (object_wrote _ _ _ HY). by apply Members_value. Qed.
Lemma Members_array Y X w kvs k vs :
  Elements Y (beginArray (key k X)) vs → Members X w kvs →
  Members (endArray Y) w (kvs ++ [(k, JArr vs)]).
Proof. intros HY HX. rewrite (array_wrote _ _ _ HY). by apply Members_value. Qed.

Lemma Elements_object Y X w vs kvs :
  Members Y (beginObject X) kvs → Elements X w vs → Elements (endObject Y) w (vs ++ [JObj kvs]).
Proof. intros HY HX. rewrite (object_wrote _ _ _ HY). by apply Elements_value. Qed.
Lemma Elements_str X w vs s : Elements X w vs → Elements (strVal s X) w (vs ++ [JStr s]).
Proof. apply (Elements_value X w vs (JStr s)). Qed.

(** Loops. *)
Lemma Elements_fold {A} (f : JsonWriter → A → JsonWriter) (g : A → json) xs X w vs :
  (∀ x w, x ∈ xs → Elements (f w x) w [g x]) → Elements X w vs →
  Elements (foldl f X xs) w (vs ++ map g xs).
Proof.
  revert X vs. induction xs as [|x xs IH]; intros X vs Hf HX; [by rewrite app_nil_r|].
  cbn [foldl map]. rewrite cons_middle, (assoc_L (++)).
  apply IH; [set_solver|]. eapply Elements_app; [exact HX|]. apply Hf. set_solver.
Qed.
Lemma Members_fold {A} (f : JsonWriter → A → JsonWriter) (g : A → list ascii * json) xs X w kvs :
  (∀ x w, x ∈ xs → Members (f w x) w [g x]) → Members X w kvs →
  Members (foldl f X xs) w (kvs ++ map g xs).
Proof.
  revert X kvs. induction xs as [|x xs IH]; intros X kvs Hf HX; [by rewrite app_nil_r|].
  cbn [foldl map]. rewrite cons_middle, (assoc_L (++)).
  apply IH; [set_solver|]. eapply Members_app; [exact HX|]. apply Hf. set_solver.
Qed.

Ltac writes_step :=
  lazymatch goal with
  | |- Members (strVal _ (key _ _)) _ _ => simple eapply Members_str
  | |- Members (boolVal _ (key _ _)) _ _ => simple eapply Members_bool
  | |- Members (intVal _ (key _ _)) _ _ => simple eapply Members_int
  | |- Members (uintVal _ (key _ _)) _ _ => simple eapply Members_uint
  | |- Members (doubleVal _ _ (key _ _)) _ _ => simple eapply Members_double
  | |- Members (nullVal (key _ _)) _ _ => simple eapply Members_null
  | |- Members (endObject _) _ _ => simple eapply Members_object
  | |- Members (endArray _) _ _ => simple eapply Members_array
  | |- Elements (strVal _ _) _ _ => simple eapply Elements_str
  | |- Elements (endObject _) _ _ => simple eapply Elements_object
  | |- Members (beginObject _) (beginObject _) _ => simple apply Members_nil
  | |- Elements (beginArray _) (beginArray _) _ => simple apply Elements_nil
  | |- Members ?X ?X _ => simple apply Members_nil
  | |- Elements ?X ?X _ => simple apply Elements_nil
  end.

(** Finds what a sequence of calls writes. *)
Ltac writes := repeat writes_step.

Lemma Members_eq X w kvs kvs' : Members X w kvs → kvs = kvs' → Members X w kvs'.
Proof. by intros ? <-. Qed.
Lemma Elements_eq X w vs vs' : Elements X w vs → vs = vs' → Elements X w vs'.
Proof. by intros ? <-. Qed.

(** ** Documents *)

Section Documents.
Context (format : double → list ascii).

Definition doc_nested_ind (P : doc → Prop)
    (Hnull : P DNull) (Hbool : ∀ b, P (DBool b)) (Hint : ∀ z, P (DInt z)) (Huint : ∀ z, P (DUint z))
    (Hdouble : ∀ d, P (DDouble d)) (Hstr : ∀ s, P (DStr s))
    (Harr : ∀ vs, Forall P vs → P (DArr vs))
    (Hobj : ∀ kvs, Forall (λ kv, P kv.2) kvs → P (DObj kvs)) : ∀ v, P v :=
  fix go v := match v with
  | DNull => Hnull
  | DBool b => Hbool b
  | DInt z => Hint z
  | DUint z => Huint z
  | DDouble d => Hdouble d
  | DStr s => Hstr s
  | DArr vs => Harr vs ((fix gos vs : Forall P vs := match vs with
      | [] => Forall_nil_2 _ | v :: vs => Forall_cons_2 _ _ _ (go v) (gos vs) end) vs)
  | DObj kvs => Hobj kvs ((fix gos kvs : Forall (λ kv, P kv.2) kvs := match kvs with
      | [] => Forall_nil_2 _ | kv :: kvs => Forall_cons_2 _ _ _ (go kv.2) (gos kvs) end) kvs)
  end.

(** The integer that a number token denotes, if it is one. *)
Definition readInt (t : list ascii) : option Z :=
  Z.of_int <$> NilZero.int_of_string (String.string_of_list_ascii t).

(** What a reader has to get for a document: the same structure, strings and
    keys, and numbers of the same value; of a [double] the text is compared. *)
Inductive denotes : doc → json → Prop :=
| de_null : denotes DNull JNull
| de_bool b : denotes (DBool b) (JBool b)
| de_int z t : readInt t = Some z → denotes (DInt z) (JNum t)
| de_uint z t : readInt t = Some z → denotes (DUint z) (JNum t)
| de_double d : denotes (DDouble d) (JNum (format d))
| de_str s : denotes (DStr s) (JStr s)
| de_arr ds vs : Forall2 denotes ds vs → denotes (DArr ds) (JArr vs)
| de_obj ds vs : Forall2 (λ kd kv, kd.1 = kv.1 ∧ denotes kd.2 kv.2) ds vs → denotes (DObj ds) (JObj vs).

(** Strings and keys are UTF-8, and [std::to_string] writes the [double]s as
    JSON numbers (it does not for infinities and NaN). *)
Fixpoint wfDoc (v : doc) : bool :=
  match v with
  | DDouble d => forallb numChar (format d) && isNumber (format d)
  | DStr s => utf8 s
  | DArr vs => forallb wfDoc vs
  | DObj kvs => forallb (λ kv, utf8 kv.1 && wfDoc kv.2) kvs
  | _ => true
  end.

(** The token of each value. *)
Fixpoint value (v : doc) : json :=
  match v with
  | DNull => JNull
  | DBool b => JBool b
  | DInt z | DUint z => JNum (to_string z)
  | DDouble d => JNum (format d)
  | DStr s => JStr s
  | DArr vs => JArr (map value vs)
  | DObj kvs => JObj (map (λ kv, (kv.1, value kv.2)) kvs)
  end.

Lemma emit_wrote v w : emit format v w = wrote (render (value v)) w.
Proof.
  revert w. induction v as [| | | | | |vs IH|kvs IH] using doc_nested_ind; intros w; try done.
  - cbn [emit value render]. rewrite map_map. apply (wrote_bracketed (λ v, render (value v))), IH.
  - cbn [emit value render]. rewrite map_map.
    apply (wrote_bracketed (λ kv, quoted kv.1 ++ ":"%char :: render (value kv.2))).
    eapply Forall_impl; [exact IH|]. intros kv Hkv w'. simpl. by rewrite Hkv, wrote_member.
Qed.

Lemma readInt_to_string z : readInt (to_string z) = Some z.
Proof.
  unfold readInt, to_string, chars. rewrite String.string_of_list_ascii_of_string, NilZero.isi.
  - cbn. by rewrite DecimalZ.of_to.
  - intros E. pose proof (DecimalZ.of_to z) as Hz. pose proof (to_int_norm z) as Hn. rewrite E in Hn. done.
  - intros E. pose proof (to_int_norm z) as Hn. rewrite E in Hn. done.
Qed.

Lemma value_denotes v : denotes v (value v).
Proof.
  induction v as [| | | | | |vs IH|kvs IH] using doc_nested_ind; cbn [value];
    constructor; try apply readInt_to_string.
  - induction IH; constructor; auto.
  - induction IH; constructor; auto.
Qed.

Lemma value_wf v : wfDoc v = true → wfJson (value v) = true ∧ utf8Json (value v) = true.
Proof.
  induction v as [| |z|z|d|s|vs IH|kvs IH] using doc_nested_ind; intros Hv; try done.
  - split; [apply to_string_number|done].
  - split; [apply to_string_number|done].
  - cbn in *. induction IH as [|v vs Hv0 _ IH]; [done|]. cbn in *. apply andb_true_iff in Hv as [H1 H2].
    destruct (Hv0 H1) as [-> ->]. auto.
  - cbn in *. induction IH as [|kv kvs Hv0 _ IH]; [done|]. cbn in *. apply andb_true_iff in Hv as [[Hk H1]%andb_true_iff H2].
    destruct (Hv0 H1) as [-> ->]. rewrite Hk. auto.
Qed.

(** C40: A document written with the methods of the [JsonWriter], however its
    arrays and objects nest, whose strings and keys are UTF-8 and whose
    [double]s [std::to_string] writes as JSON numbers, is JSON text that reads
    back as that document: strings and keys are the same after their escapes
    are undone, integers have the same value, commas are placed between members
    and elements only, and empty containers are closed. *)
Theorem json_roundtrip v :
  wfDoc v = true → ∃ j, parse (out (emit format v newWriter)) = Some j ∧ denotes v j.
Proof.
  intros [Hwf Hu]%value_wf. exists (value v). split; [|apply value_denotes].
  rewrite emit_wrote. cbn. rewrite <- (app_nil_r (render (value v))). apply parse_render; auto.
Qed.
End Documents.

(** The document holds a quote, a control character, a letter of two bytes, an
    empty object, a negative number and a [double]. *)
Lemma json_roundtrip_witness :
  let v := DObj [(chars "k", DArr [DStr [quote; "001"%char; "195"%char; "169"%char]; DInt (-10); DObj []]);
                 (chars "", DBool false); (chars "d", DDouble fzero)] in
  let format := λ _ : double, chars "0.000000" in
  wfDoc format v = true ∧ ∃ j, parse (out (emit format v newWriter)) = Some j ∧ denotes format v j.
Proof. split; [vm_compute; reflexivity|apply json_roundtrip; vm_compute; reflexivity]. Defined.

(** The writer passes on bytes that are not UTF-8. *)
Theorem raw_byte_breaks_json (format : double → list ascii) :
  parse (out (emit format (DStr ["255"%char]) newWriter)) = None.
Proof. vm_compute. reflexivity. Qed.
