(* ===== verification/StateHandler.v ===== *)
(** * The state dump of the admin server

    Models the visitors of [src/src/admin/StateHandler.cpp], the [dumpState]
    of [MoqxRelay] and of [MoqxRelayContext], and the body served by [/state].
    The visitors' methods are functions on the shared [JsonWriter]; [dumpState]
    calls them in the order of the code, on the relay, registry, namespace
    tree and cache of the other files.  What the transport library says of a
    session or a forwarder is a parameter.

    [state_body_exact] shows that the body is valid JSON that reads back as the
    document [contextDoc] of the relay's state.  The document is written from
    the maps of the state alone: it shares no traversal, statistics or string
    of the code. *)

From Stdlib Require Import Ascii String.
From S2P Require Import Prelude Locations NamespaceTree NamespaceWalk SubscriptionRegistry.
From S2P Require Import CacheRanges CacheStore Relay Upstream Json.

#[local] Open Scope Z_scope.

Record SubscriptionInfo := mkSubscriptionInfo {
  si_ftn : FullTrackName;
  si_isPublish : bool;
  si_subscribers : Z;
  si_forwardingSubscribers : Z;
  si_largest : option (Z * Z);
  si_totalGroupsReceived : Z;
  si_totalObjectsReceived : Z;
  si_sourceAddress : string;
}.

(** What a forwarder of the transport library reports. *)
Record ForwarderView := mkForwarderView {
  subscriberCount : Z;
  numForwardingSubscribers : Z;
  fwLargest : option (Z * Z);
  totalGroupsReceived : Z;
  totalObjectsReceived : Z;
}.

(** ** [JsonRelayStateVisitor] *)

Definition onPeersBegin (w : JsonWriter) : JsonWriter := beginArray (key (chars "downstream_peers") w).

Definition onPeer (address authority relayID : string) (w : JsonWriter) : JsonWriter :=
  let w := beginObject w in
  let w := fieldStr (chars "address") (chars address) w in
  let w := fieldStr (chars "authority") (chars authority) w in
  let w := if decide (relayID = EmptyString) then w
           else fieldStr (chars "relay_id") (chars relayID) w in
  endObject w.

Definition onPeersEnd (w : JsonWriter) : JsonWriter := endArray w.

Definition onSubscriptionsBegin (w : JsonWriter) : JsonWriter :=
  beginArray (key (chars "subscriptions") w).

Definition strVals (l : list string) (w : JsonWriter) : JsonWriter :=
  foldl (λ w t, strVal (chars t) w) w l.

Definition onSubscription (info : SubscriptionInfo) (w : JsonWriter) : JsonWriter :=
  let w := beginObject w in
  let w := endArray (strVals (si_ftn info).1 (beginArray (key (chars "namespace") w))) in
  let w := fieldStr (chars "track_name") (chars (si_ftn info).2) w in
  let w := fieldBool (chars "is_publish") (si_isPublish info) w in
  let w := uintVal (si_subscribers info) (key (chars "subscribers") w) in
  let w := fieldUint (chars "forwarding_subscribers") (si_forwardingSubscribers info) w in
  let w := fieldUint (chars "total_groups_received") (si_totalGroupsReceived info) w in
  let w := fieldUint (chars "total_objects_received") (si_totalObjectsReceived info) w in
  let w := fieldStr (chars "source_address") (chars (si_sourceAddress info)) w in
  let w := match si_largest info with
           | Some (group, object) =>
               endObject (fieldUint (chars "object") object
                 (fieldUint (chars "group") group (beginObject (key (chars "largest") w))))
           | None => w
           end in
  endObject w.

Definition onSubscriptionsEnd (w : JsonWriter) : JsonWriter := endArray w.

Definition onNamespaceTreeBegin (w : JsonWriter) : JsonWriter := key (chars "namespace_tree") w.

Definition beginNamespaceNode (childKey : string) (ns : list string) (sessionCount : Z)
    (publisherAddress peerID : string) (w : JsonWriter) : JsonWriter :=
  let w := if decide (childKey = EmptyString) then w else key (chars childKey) w in
  let w := beginObject w in
  let w := endArray (strVals ns (beginArray (key (chars "full_namespace") w))) in
  let w := uintVal sessionCount (key (chars "namespace_subscribers") w) in
  let w := if decide (publisherAddress = EmptyString) then w
           else fieldStr (chars "publisher") (chars publisherAddress) w in
  let w := if decide (peerID = EmptyString) then w
           else fieldStr (chars "peer_id") (chars peerID) w in
  beginObject (key (chars "children") w).

Definition endNamespaceNode (w : JsonWriter) : JsonWriter := endObject (endObject w).
Definition onNamespaceTreeEnd (w : JsonWriter) : JsonWriter := w.

(** One track of the cache; [None] is a track never written to.  Time points
    are nanoseconds. *)
Definition cacheTrackEntry (name : FullTrackName) (eot : bool) (last : option Z)
    (groups : list (Z * Z)) (now : Z) (w : JsonWriter) : JsonWriter :=
  let w := beginObject w in
  let w := endArray (strVals name.1 (beginArray (key (chars "namespace") w))) in
  let w := fieldStr (chars "track_name") (chars name.2) w in
  let w := fieldBool (chars "end_of_track") eot w in
  let w := key (chars "last_write_ms_ago") w in
  let w := match last with
           | None => nullVal w
           | Some t => intVal (Z.quot (now - t) 1000000) w
           end in
  let w := beginArray (key (chars "groups") w) in
  let w := foldl (λ w (g : Z * Z),
                    let w := beginObject w in
                    let w := fieldUint (chars "group_id") g.1 w in
                    endObject (uintVal g.2 (key (chars "objects") w))) w groups in
  endObject (endArray w).

(** ** [JsonRelayContextVisitor] *)

Definition onRelayBegin (relayID : string) (activeSessions : Z) (w : JsonWriter) : JsonWriter :=
  let w := beginObject w in
  let w := fieldStr (chars "relay_id") (chars relayID) w in
  let w := fieldInt (chars "active_sessions") activeSessions w in
  beginObject (key (chars "services") w).

Definition onServiceBegin (name : string) (w : JsonWriter) : JsonWriter :=
  beginObject (key (chars name) w).

Definition onServiceUpstream (url state : string) (w : JsonWriter) : JsonWriter :=
  let w := beginObject (key (chars "upstream") w) in
  let w := fieldStr (chars "url") (chars url) w in
  endObject (fieldStr (chars "state") (chars state) w).

Definition onServiceEnd (w : JsonWriter) : JsonWriter := endObject w.

Definition onRelayEnd (w : JsonWriter) : JsonWriter :=
  append ["010"%char] (endObject (endObject w)).

(** ** [dumpState] *)

Section Dump.
Context `{LocationOps} {IS : Type} `{IntervalOps IS} {Extensions : Type} `{ExtensionOps Extensions}.

(** [getPeerAddress().describe()] and [getAuthority()] of a session, and the
    state of a forwarder. *)
Context (describe getAuthority : Z → string) (forwarderView : Z → ForwarderView).

#[local] Abbreviation Cache := (MoqxCache (IS:=IS) (Extensions:=Extensions)
  (FullTrackName:=list string * string)).

Definition onCacheStats (totalBytes : Z) (stats : list TrackStats) (now : Z) (w : JsonWriter) :
    JsonWriter :=
  let w := beginObject (key (chars "cache") w) in
  let w := uintVal totalBytes (key (chars "total_bytes") w) in
  let w := beginArray (key (chars "tracks") w) in
  let w := foldl (λ w t, cacheTrackEntry (ts_name t) (ts_endOfTrack t) (ts_lastWrite t)
                           (ts_groups t) now w) w stats in
  endObject (endArray w).

(** The address written for an optional session. *)
Definition addressOf (s : option Z) : string :=
  match s with Some sess => describe sess | None => EmptyString end.

Definition subscriptionInfo (f : FullTrackName) (e : EntryView (Session:=Z)) : SubscriptionInfo :=
  let v := forwarderView (enForwarder e) in
  mkSubscriptionInfo f (enIsPublish e) (subscriberCount v) (numForwardingSubscribers v)
    (fwLargest v) (totalGroupsReceived v) (totalObjectsReceived v) (addressOf (enUpstream e)).

(** The callbacks that [dumpState] passes to [walkTree]. *)
Definition visitNode (t : RelayTree) (w : JsonWriter) (c : WalkCall) : JsonWriter :=
  match c with
  | Begin childKey p =>
      match t !! p with
      | Some n =>
          beginNamespaceNode childKey (trackNamespace n) (Z.of_nat (size (subscribers_ n)))
            (addressOf (publisherSession_ n)) (publisherPeerID_ n) w
      | None => w
      end
  | End_ => endNamespaceNode w
  end.

Definition dumpState (r : MoqxRelay) (cache : option Cache) (now : Z) (w : JsonWriter) :
    JsonWriter :=
  let w := onPeersBegin w in
  let w := foldl (λ w (p : Z * PeerInfo),
                    onPeer (describe p.1) (getAuthority p.1) (peerRelayID p.2) w)
             w (map_to_list (peerSubNsHandles_ r)) in
  let w := onSubscriptionsBegin (onPeersEnd w) in
  let w := foldl (λ w info, onSubscription info w) w (forEach subscriptionInfo (registry_ r)) in
  let w := onNamespaceTreeBegin (onSubscriptionsEnd w) in
  let w := foldl (visitNode (namespaceTree_ r)) w (walkTree (namespaceTree_ r)) in
  let w := onNamespaceTreeEnd w in
  match cache with
  | Some c => onCacheStats (totalCachedBytes_ c) (getTrackStats c) now w
  | None => w
  end.

(** [MoqxRelayContext]: a service, with the URL of its upstream if it has one
    in its configuration. *)
Record ServiceEntry := mkService {
  se_name : string;
  se_upstreamUrl : option string;
  se_relay : MoqxRelay;
  se_cache : option Cache;
  se_upstream : option UpstreamProvider;
}.

Definition dumpService (now : Z) (w : JsonWriter) (e : ServiceEntry) : JsonWriter :=
  let w := onServiceBegin (se_name e) w in
  let w := dumpState (se_relay e) (se_cache e) now w in
  let w := match se_upstreamUrl e with
           | Some url =>
               onServiceUpstream url
                 (match se_upstream e with Some up => stateString up | None => "disconnected" end)%string w
           | None => w
           end in
  onServiceEnd w.

Definition dumpContext (relayID : string) (activeSessions : option Z) (services : list ServiceEntry)
    (now : Z) (w : JsonWriter) : JsonWriter :=
  let w := onRelayBegin relayID (default 0 activeSessions) w in
  onRelayEnd (foldl (dumpService now) w services).

(** The body of the response. *)
Definition buildStateBody (relayID : string) (activeSessions : option Z)
    (services : list ServiceEntry) (now : Z) : list ascii :=
  out (dumpContext relayID activeSessions services now newWriter).

(** ** The document *)

Definition jstr (s : string) : json := JStr (chars s).
Definition jstrs (l : list string) : json := JArr (map jstr l).
Definition field (k : string) (v : json) : list ascii * json := (chars k, v).

(** A member left out when the string is empty. *)
Definition optional (k s : string) : list (list ascii * json) :=
  if decide (s = EmptyString) then [] else [field k (jstr s)].

Definition peerDoc (p : Z * PeerInfo) : json :=
  JObj ([field "address" (jstr (describe p.1)); field "authority" (jstr (getAuthority p.1))] ++
        optional "relay_id" (peerRelayID p.2)).

(** An entry of the registry, with what its own forwarder reports. *)
Definition subscriptionDoc (p : FullTrackName * RelaySubscription (Session:=Z) (Handle:=Z)) : json :=
  let '(ftn, e) := p in
  let v := forwarderView (forwarder e) in
  JObj ([field "namespace" (jstrs ftn.1); field "track_name" (jstr ftn.2);
         field "is_publish" (JBool (isPublish e)); field "subscribers" (jint (subscriberCount v));
         field "forwarding_subscribers" (jint (numForwardingSubscribers v));
         field "total_groups_received" (jint (totalGroupsReceived v));
         field "total_objects_received" (jint (totalObjectsReceived v));
         field "source_address"
           (jstr (match upstream e with Some s => describe s | None => EmptyString end))] ++
        match fwLargest v with
        | Some (g, o) => [field "largest" (JObj [field "group" (jint g); field "object" (jint o)])]
        | None => []
        end).

(** A node of the tree, whose path is [p] with the last field first: its
    children are the nodes of the tree one field further, by that field. *)
Fixpoint nodeDoc (depth : nat) (t : RelayTree) (p : list string) : json :=
  match depth, t !! p with
  | S depth, Some n =>
      JObj ([field "full_namespace" (jstrs (trackNamespace n));
             field "namespace_subscribers" (jint (Z.of_nat (size (subscribers_ n))))] ++
            optional "publisher"
              (match publisherSession_ n with Some s => describe s | None => EmptyString end) ++
            optional "peer_id" (publisherPeerID_ n) ++
            [field "children"
               (JObj (omap (λ kv : list string * RelayNode,
                              match kv.1 with
                              | k :: q => if decide (q = p)
                                          then Some (field k (nodeDoc depth t (k :: q))) else None
                              | [] => None
                              end) (map_to_list t)))])
  | _, _ => JNull
  end.

Definition groupDoc (g : Z * Z) : json :=
  JObj [field "group_id" (jint g.1); field "objects" (jint g.2)].

Definition ascending (a b : Z * Z) : Prop := a.1 <= b.1.
#[local] Instance ascending_dec a b : Decision (ascending a b) := Z_le_dec a.1 b.1.

(** Every group of a track with the number of its objects. *)
Definition groupCounts (c : Cache) (t : CacheTrack (IS:=IS) (Extensions:=Extensions)) :
    list (Z * Z) :=
  (λ p : Z * Z, (p.1, Z.of_nat (default O ((λ g, size (objects g)) <$> groupHeap c !! p.2)))) <$>
    map_to_list (groups t).

(** A name of the cache and its track. *)
Definition trackDoc (now : Z) (c : Cache) (p : (list string * string) * Z) : json :=
  let t := default newTrack (tracks c !! p.2) in
  JObj [field "namespace" (jstrs p.1.1); field "track_name" (jstr p.1.2);
        field "end_of_track" (JBool (endOfTrack t));
        field "last_write_ms_ago"
          (match lastWrite t with Some l => jint (Z.quot (now - l) 1000000) | None => JNull end);
        field "groups" (JArr (map groupDoc (merge_sort ascending (groupCounts c t))))].

Definition cacheDoc (now : Z) (c : Cache) : json :=
  JObj [field "total_bytes" (jint (totalCachedBytes_ c));
        field "tracks" (JArr (map (trackDoc now c) (map_to_list (cache_ c))))].

Definition relayMembers (r : MoqxRelay) (cache : option Cache) (now : Z) :
    list (list ascii * json) :=
  [field "downstream_peers" (JArr (map peerDoc (map_to_list (peerSubNsHandles_ r))));
   field "subscriptions" (JArr (map subscriptionDoc (map_to_list (subscriptions_ (registry_ r)))));
   field "namespace_tree" (nodeDoc (size (namespaceTree_ r)) (namespaceTree_ r) [])] ++
  match cache with Some c => [field "cache" (cacheDoc now c)] | None => [] end.

Definition serviceDoc (now : Z) (e : ServiceEntry) : list ascii * json :=
  field (se_name e) (JObj (relayMembers (se_relay e) (se_cache e) now ++
    match se_upstreamUrl e with
    | Some url =>
        [field "upstream" (JObj [field "url" (jstr url); field "state" (jstr
           (match state_ <$> se_upstream e with
            | Some Connected => "connected"
            | Some Connecting => "connecting"
            | Some Disconnected | None => "disconnected"
            end)%string)])]
    | None => []
    end)).

Definition contextDoc (relayID : string) (activeSessions : option Z) (services : list ServiceEntry)
    (now : Z) : json :=
  JObj [field "relay_id" (jstr relayID); field "active_sessions" (jint (default 0 activeSessions));
        field "services" (JObj (map (serviceDoc now) services))].

(** ** The calls write the document *)

Lemma strVals_elements l X w vs :
  Elements X w vs → Elements (strVals l X) w (vs ++ map jstr l).
Proof. apply Elements_fold. intros s w' _. apply (Elements_str w' w' []), Elements_nil. Qed.

Lemma optional_members k s X w kvs :
  Members X w kvs →
  Members (if decide (s = EmptyString) then X else strVal (chars s) (key (chars k) X)) w
    (kvs ++ optional k s).
Proof.
  intros HX. unfold optional. case_decide; [by rewrite app_nil_r|]. by apply Members_str.
Qed.

Ltac dump_step :=
  lazymatch goal with
  | |- Elements (strVals _ _) _ _ => simple eapply strVals_elements
  | |- Members (if decide (_ = EmptyString) then _ else _) _ _ => simple eapply optional_members
  | _ => writes_step
  end.
Ltac dumps := unfold fieldStr, fieldBool, fieldInt, fieldUint; repeat dump_step.

Lemma onPeer_elements p w :
  Elements (onPeer (describe p.1) (getAuthority p.1) (peerRelayID p.2) w) w [peerDoc p].
Proof. eapply Elements_eq; [unfold onPeer; cbv zeta; dumps|done]. Qed.

Lemma onSubscription_elements f (e : RelaySubscription) w :
  Elements (onSubscription (subscriptionInfo f (entryView e)) w) w [subscriptionDoc (f, e)].
Proof.
  unfold onSubscription, subscriptionInfo, entryView, addressOf, subscriptionDoc.
  cbn [si_ftn si_isPublish si_subscribers si_forwardingSubscribers si_largest
    si_totalGroupsReceived si_totalObjectsReceived si_sourceAddress enForwarder enUpstream
    enIsPublish]. cbv zeta.
  destruct (fwLargest (forwarderView (forwarder e))) as [[g o]|];
    (eapply Elements_eq; [dumps|done]).
Qed.

Lemma groups_elements gs X w vs :
  Elements X w vs →
  Elements (foldl (λ w (g : Z * Z), endObject (uintVal g.2 (key (chars "objects")
    (fieldUint (chars "group_id") g.1 (beginObject w))))) X gs) w (vs ++ map groupDoc gs).
Proof.
  apply Elements_fold. intros g w' _. eapply Elements_eq; [dumps|done].
Qed.

(** Every cached name has its track, and every group of it is in the heap: the
    maps of the cache hold owning pointers. *)
Definition ownsCache (c : Cache) : Prop :=
  ∀ f r, cache_ c !! f = Some r →
    ∃ t, tracks c !! r = Some t ∧ ∀ g gr, groups t !! g = Some gr → is_Some (groupHeap c !! gr).

Lemma omap_total {A B} (f : A → option B) (g : A → B) (l : list A) :
  (∀ x, x ∈ l → f x = Some (g x)) → omap f l = g <$> l.
Proof.
  induction l as [|x l IH]; intros Hf; [done|]. cbn. rewrite Hf by set_solver.
  by rewrite IH by set_solver.
Qed.

Lemma groupStats_counts c t :
  (∀ g gr, groups t !! g = Some gr → is_Some (groupHeap c !! gr)) →
  groupStats c t = merge_sort ascending (groupCounts c t).
Proof.
  intros Hg. unfold groupStats, groupCounts.
  erewrite omap_total; [reflexivity|]. intros [g gr] [grp Hgrp]%elem_of_map_to_list%Hg.
  cbn. by rewrite Hgrp.
Qed.

(** The statistics of a cached name. *)
Definition statsOf (c : Cache) (p : (list string * string) * Z) : TrackStats :=
  let t := default newTrack (tracks c !! p.2) in
  mkStats p.1 (endOfTrack t) (lastWrite t) (merge_sort ascending (groupCounts c t)).

Lemma getTrackStats_all c : ownsCache c → getTrackStats c = statsOf c <$> map_to_list (cache_ c).
Proof.
  intros Hown. apply omap_total. intros [f r] Hf%elem_of_map_to_list.
  destruct (Hown f r Hf) as (t&Ht&Hg). unfold statsOf. cbn. rewrite Ht. cbn.
  by rewrite groupStats_counts.
Qed.

Lemma cacheTrackEntry_elements now c p w :
  Elements (let t := statsOf c p in
            cacheTrackEntry (ts_name t) (ts_endOfTrack t) (ts_lastWrite t) (ts_groups t) now w) w
    [trackDoc now c p].
Proof.
  unfold cacheTrackEntry, trackDoc, statsOf. cbn [ts_name ts_endOfTrack ts_lastWrite ts_groups].
  cbv zeta. destruct (lastWrite _);
    (eapply Elements_eq; [eapply Elements_object;
       [eapply Members_array; [apply groups_elements, Elements_nil|dumps]|apply Elements_nil]|done]).
Qed.

Lemma onCacheStats_members c now X w kvs :
  ownsCache c → Members X w kvs →
  Members (onCacheStats (totalCachedBytes_ c) (getTrackStats c) now X) w
    (kvs ++ [field "cache" (cacheDoc now c)]).
Proof.
  intros Hown HX. rewrite getTrackStats_all by done. unfold onCacheStats. cbv zeta.
  eapply Members_object; [|exact HX].
  eapply Members_eq; [eapply Members_array; [rewrite foldl_fmap;
    eapply (Elements_fold _ (trackDoc now c)); [|apply Elements_nil]|dumps]|done].
  intros p w' _. apply cacheTrackEntry_elements.
Qed.

(** ** The namespace tree *)

(** No node of the tree has an empty field as its key. *)
Definition namedChildren (t : RelayTree) : Prop := ∀ k p, is_Some (t !! (k :: p)) → k ≠ EmptyString.

Definition keyed (k : string) (w : JsonWriter) : JsonWriter :=
  if decide (k = EmptyString) then w else key (chars k) w.

(** The calls for one node, between which those for its children are made. *)
Lemma node_wrote (n : RelayNode) k kvs X w :
  Members X (beginNamespaceNode k (trackNamespace n) (Z.of_nat (size (subscribers_ n)))
    (addressOf (publisherSession_ n)) (publisherPeerID_ n) w) kvs →
  endNamespaceNode X = wrote (render (JObj (
    [field "full_namespace" (jstrs (trackNamespace n));
     field "namespace_subscribers" (jint (Z.of_nat (size (subscribers_ n))))] ++
    optional "publisher" (addressOf (publisherSession_ n)) ++
    optional "peer_id" (publisherPeerID_ n) ++ [field "children" (JObj kvs)]))) (keyed k w).
Proof.
  unfold endNamespaceNode, beginNamespaceNode. cbv zeta. fold (keyed k w). intros HX.
  apply object_wrote.
  eapply Members_eq; [eapply Members_object; [exact HX|]; dumps|].
  by rewrite <- !(assoc_L (++)).
Qed.

Definition childKey (q : list string) : string := default EmptyString (head q).

(** The children in the document are those that the walk visits. *)
Lemma children_doc (t : RelayTree) (p : list string) (f : list string → json) :
  omap (λ kv : list string * RelayNode,
          match kv.1 with
          | k :: q => if decide (q = p) then Some (field k (f (k :: q))) else None
          | [] => None
          end) (map_to_list t) =
  map (λ q, (chars (childKey q), f q)) (childrenOf t p).
Proof.
  unfold childrenOf. induction (map_to_list t) as [|[q n] l IH]; [done|].
  cbn [omap list_omap fst fmap list_fmap]. rewrite filter_cons. destruct q as [|k q]; cbn [tail].
  - rewrite decide_False by naive_solver. exact IH.
  - destruct (decide (q = p)) as [->|Hq].
    + rewrite decide_True by naive_solver. cbn [map childKey]. by rewrite <- IH.
    + rewrite decide_False by naive_solver. exact IH.
Qed.

Lemma children_members t fuel qs X w kvs :
  (∀ q X, q ∈ qs → childKey q ≠ EmptyString ∧
     foldl (visitNode t) X (walk fuel t (childKey q) q) =
     wrote (render (nodeDoc fuel t q)) (keyed (childKey q) X)) →
  Members X w kvs →
  Members (foldl (visitNode t) X (mjoin ((λ q, walk fuel t (childKey q) q) <$> qs))) w
    (kvs ++ map (λ q, field (childKey q) (nodeDoc fuel t q)) qs).
Proof.
  revert X kvs. induction qs as [|q qs IH]; intros X kvs Hqs HX; [by rewrite app_nil_r|].
  cbn [fmap list_fmap map]. rewrite mjoin_cons, foldl_app, cons_middle, (assoc_L (++)).
  apply IH; [set_solver|]. eapply Members_app; [exact HX|].
  destruct (Hqs q X ltac:(set_solver)) as [Hk ->]. unfold keyed. rewrite decide_False by done.
  apply (Members_value X X []), Members_nil.
Qed.

Lemma walk_wrote t fuel k p w :
  closed t → namedChildren t → is_Some (t !! p) → (length (subtree t p) ≤ fuel)%nat →
  foldl (visitNode t) w (walk fuel t k p) = wrote (render (nodeDoc fuel t p)) (keyed k w).
Proof.
  intros Hcl Hnamed. revert k p w. induction fuel as [|fuel IH]; intros k p w Hp Hlen;
    pose proof (subtree_children t p Hcl Hp) as Hperm; rewrite Hperm in Hlen; cbn in Hlen; [lia|].
  destruct Hp as [n Hn]. cbn [walk foldl]. rewrite foldl_app. cbn [foldl visitNode nodeDoc].
  rewrite Hn, (children_doc t p (nodeDoc fuel t)). apply node_wrote. apply (children_members _ _ _ _ _ []); [|apply Members_nil].
  intros q X Hq. pose proof (elem_length_mjoin (subtree t) (childrenOf t p) q Hq). split.
  - apply elem_childrenOf in Hq as (k'&->&Hk'). by eapply Hnamed.
  - apply IH; [by eapply childrenOf_in|lia].
Qed.

Lemma walkTree_wrote t w :
  wf t → namedChildren t →
  foldl (visitNode t) w (walkTree t) = wrote (render (nodeDoc (size t) t [])) w.
Proof.
  intros Hwf Hnamed. unfold walkTree. rewrite walk_wrote; [done|apply Hwf|done|apply Hwf|].
  unfold subtree. etrans; [apply length_filter|]. by rewrite length_fmap, length_map_to_list.
Qed.

(** ** The whole dump *)

Lemma dumpState_members r cache now X w kvs :
  wf (namespaceTree_ r) → namedChildren (namespaceTree_ r) → (∀ c, cache = Some c → ownsCache c) →
  Members X w kvs →
  Members (dumpState r cache now X) w (kvs ++ relayMembers r cache now).
Proof.
  intros Hwf Hnamed Hown HX. unfold dumpState, relayMembers. cbv zeta.
  unfold onNamespaceTreeEnd, onNamespaceTreeBegin. rewrite walkTree_wrote by done.
  assert (Members (wrote (render (nodeDoc (size (namespaceTree_ r)) (namespaceTree_ r) []))
    (key (chars "namespace_tree") (onSubscriptionsEnd (foldl (λ w info, onSubscription info w)
      (onSubscriptionsBegin (onPeersEnd (foldl (λ w (p : Z * PeerInfo),
         onPeer (describe p.1) (getAuthority p.1) (peerRelayID p.2) w)
         (onPeersBegin X) (map_to_list (peerSubNsHandles_ r)))))
      (forEach subscriptionInfo (registry_ r)))))) w (kvs ++ relayMembers r None now)) as Hbase.
  { eapply Members_eq.
    - apply Members_value. eapply Members_array; [|eapply Members_array; [|exact HX]];
        [unfold forEach; rewrite foldl_fmap;
         eapply (Elements_fold _ subscriptionDoc); [intros [] ? _; apply onSubscription_elements|]
        |eapply (Elements_fold _ peerDoc); [intros; apply onPeer_elements|]]; apply Elements_nil.
    - unfold relayMembers. by rewrite app_nil_r, <- !(assoc_L (++)). }
  destruct cache as [c|]; [|exact Hbase].
  eapply Members_eq; [apply onCacheStats_members, Hbase; by apply Hown|].
  unfold relayMembers. by rewrite <- !(assoc_L (++)).
Qed.

Definition dumpable (e : ServiceEntry) : Prop :=
  wf (namespaceTree_ (se_relay e)) ∧ namedChildren (namespaceTree_ (se_relay e)) ∧
  ∀ c, se_cache e = Some c → ownsCache c.

Lemma dumpService_members now e w : dumpable e → Members (dumpService now w e) w [serviceDoc now e].
Proof.
  intros (Hwf&Hnamed&Hown). unfold dumpService, serviceDoc, onServiceEnd, onServiceBegin. cbv zeta.
  eapply (Members_object _ w w []); [|apply Members_nil].
  pose proof (dumpState_members (se_relay e) (se_cache e) now _ _ [] Hwf Hnamed Hown
    (Members_nil (beginObject (key (chars (se_name e)) w)))) as Hrelay.
  destruct (se_upstreamUrl e) as [url|]; [|by rewrite app_nil_r].
  unfold onServiceUpstream. cbv zeta.
  eapply Members_eq; [eapply Members_object; [dumps|exact Hrelay]|].
  by destruct (se_upstream e) as [up|]; [cbn; unfold stateString; destruct (state_ up)|].
Qed.

Lemma dumpContext_wrote relayID active services now w :
  Forall dumpable services →
  dumpContext relayID active services now w =
  append ["010"%char] (wrote (render (contextDoc relayID active services now)) w).
Proof.
  intros Hs. unfold dumpContext, onRelayEnd, onRelayBegin. cbv zeta. f_equal.
  apply object_wrote. eapply Members_eq.
  - eapply Members_object; [eapply Members_fold; [|apply Members_nil]|dumps].
    intros e w' He. apply dumpService_members. by eapply Forall_forall.
  - done.
Qed.

(** ** Every number of the document is a JSON number *)

Lemma forallb_map_true {A B} (f : A → B) (g : B → bool) l :
  (∀ x, g (f x) = true) → forallb g (map f l) = true.
Proof. intros Hg. induction l as [|x l IH]; [done|]. cbn. by rewrite Hg, IH. Qed.

Lemma wf_jstrs l : wfJson (jstrs l) = true.
Proof. by apply forallb_map_true. Qed.

Lemma wf_optional k s : forallb (λ kv, wfJson kv.2) (optional k s) = true.
Proof. unfold optional. by case_decide. Qed.

#[local] Arguments jint : simpl never.
#[local] Arguments jstrs : simpl never.

Ltac wf_doc := cbn; rewrite ?forallb_app, ?wf_optional, ?wf_jint, ?wf_jstrs; cbn.

Lemma wf_nodeDoc fuel t p : wfJson (nodeDoc fuel t p) = true.
Proof.
  revert p. induction fuel as [|fuel IH]; intros p; [done|]. cbn [nodeDoc].
  destruct (t !! p) as [n|]; [|done]. rewrite (children_doc t p (nodeDoc fuel t)). wf_doc.
  rewrite andb_true_r. apply forallb_map_true. intros q. apply IH.
Qed.

Lemma wf_subscriptionDoc p : wfJson (subscriptionDoc p) = true.
Proof.
  destruct p as [f e]. unfold subscriptionDoc.
  destruct (fwLargest _) as [[g o]|]; wf_doc; by rewrite ?wf_jint.
Qed.

Lemma wf_trackDoc now c p : wfJson (trackDoc now c p) = true.
Proof.
  unfold trackDoc. cbv zeta. wf_doc. rewrite (forallb_map_true groupDoc wfJson).
  - destruct (lastWrite _); cbn; by rewrite ?wf_jint.
  - intros g. by wf_doc.
Qed.

Lemma wf_relayMembers r cache now :
  forallb (λ kv, wfJson kv.2) (relayMembers r cache now) = true.
Proof.
  unfold relayMembers. rewrite forallb_app. cbn [forallb field snd wfJson].
  rewrite wf_nodeDoc.
  rewrite (forallb_map_true peerDoc wfJson) by (intros; unfold peerDoc; by wf_doc).
  rewrite (forallb_map_true subscriptionDoc wfJson) by apply wf_subscriptionDoc.
  destruct cache as [c|]; [|done]. wf_doc.
  by rewrite (forallb_map_true (trackDoc now c) wfJson) by apply wf_trackDoc.
Qed.

Lemma wf_contextDoc relayID active services now :
  wfJson (contextDoc relayID active services now) = true.
Proof.
  unfold contextDoc. wf_doc. rewrite andb_true_r. apply forallb_map_true. intros e.
  unfold serviceDoc. cbn [field snd wfJson]. rewrite forallb_app, wf_relayMembers. by destruct (se_upstreamUrl e).
Qed.

(** C16: the body of [/state] is one line of valid JSON, and reading it gives
    the document of the state: for every service every peer, every entry of the
    registry with the counts of its forwarder, every node of the namespace tree
    below its parent, every cached track with every group and its number of
    objects in ascending order, and the state of the upstream.  No field of a
    published namespace may be empty and every name must be valid UTF-8;
    [empty_field_breaks_state] and [raw_byte_breaks_state] show both needed. *)
Theorem state_body_exact relayID active services now :
  Forall dumpable services → utf8Json (contextDoc relayID active services now) = true →
  parse (buildStateBody relayID active services now) =
    Some (contextDoc relayID active services now).
Proof.
  intros Hs Hu. unfold buildStateBody. rewrite dumpContext_wrote by done.
  apply parse_line; [apply wf_contextDoc|done].
Qed.

End Dump.
