(* ===== verification/StateExamples.v ===== *)
(** * The state dump: runs

    The dump of a relay with two namespace subscribers and a publisher, and
    that of a relay whose namespace tree has an empty field. *)

From Stdlib Require Import Ascii String.
From S2P Require Import Prelude Locations NamespaceTree NamespaceWalk SubscriptionRegistry.
From S2P Require Import CacheRanges CacheStore CacheSystem CacheExamples Relay RelaySystem.
From S2P Require Import RelayExamples.
From S2P Require Import Upstream Json StateHandler.
Import StdLocations.

#[local] Open Scope string_scope.
#[local] Open Scope Z_scope.

Module StateExamples.
Import CacheExamples RelayExamples.

Notation entry := (ServiceEntry (IS:=ivset) (Extensions:=list (Z * Z))).

Definition describe (s : Z) : string := "[::1]:1".
Definition authority (s : Z) : string := "relay.example".
Definition view (fwd : Z) : ForwarderView := mkForwarderView 1 1 (Some (2, 3)) 4 5.

(** A cache after two groups of a track were written. *)
Notation csystem :=
  (CacheSystem.System (IS:=ivset) (Extensions:=list (Z * Z)) (FullTrackName:=list string * string)).

Definition cacheStart : csystem := newSystem 10 10 100 50.
Definition object1 (g o : Z) :
    CacheSystem.Op (Extensions:=list (Z * Z)) (FullTrackName:=list string * string) :=
  OObjectStream 0 (mkHeader g 0 o NORMAL []) (filler 5) 10.

Fixpoint cacheAfter (l : list (Z * Z)) : csystem :=
  match l with
  | [] => default cacheStart (CacheSystem.sysStep (CacheSystem.OSubscribe (["a"; "b"], "v")) cacheStart)
  | (g, o) :: l => default cacheStart (CacheSystem.sysStep (object1 g o) (cacheAfter l))
  end.

Definition twoGroups : csystem := cacheAfter [(8, 1); (3, 0); (8, 0)].

Lemma cacheAfter_reachable g o l :
  CacheSystem.reachable (cacheAfter l) → CacheSystem.admissible (object1 g o) (cacheAfter l) →
  CacheSystem.reachable (cacheAfter ((g, o) :: l)).
Proof.
  intros Hr Ha.
  destruct (sysStep_ok (object1 g o) (cacheAfter l) (CacheSystem.reachable_ok _ Hr) Ha) as (y & E & _).
  apply (reach_step (cacheAfter l) (object1 g o)); [done..|]. cbn [cacheAfter]. by rewrite E.
Qed.

Lemma twoGroups_reachable : CacheSystem.reachable twoGroups.
Proof.
  repeat (apply cacheAfter_reachable; [|split; by vm_compute]).
  apply (reach_step cacheStart (CacheSystem.OSubscribe (["a"; "b"], "v")));
    [by apply reach_new|exact I|vm_compute; reflexivity].
Qed.

(** A relay, the cache and a configured upstream that was never made. *)
Definition serviceOf (r : MoqxRelay) : entry :=
  mkService "live" (Some "moqt://up") r (Some (sys_cache twoGroups)) None.

Definition body (r : MoqxRelay) : list ascii :=
  buildStateBody describe authority view "id" (Some 2) [serviceOf r] 0.

Lemma namedChildren_check (t : RelayTree) :
  forallb (λ kv : list string * RelayNode, bool_decide (head kv.1 ≠ Some EmptyString))
    (map_to_list t) = true → namedChildren t.
Proof.
  intros Hall k p [n Hn] ->. rewrite forallb_forall in Hall.
  specialize (Hall (EmptyString :: p, n)).
  apply bool_decide_eq_true in Hall; [done|].
  by apply list_elem_of_In, elem_of_map_to_list.
Qed.

Definition busy : MoqxRelay := relay (RelayExamples.after (watchers ++ [publishBy 1 10])%list).

Lemma state_body_exact_witness :
  Forall (dumpable (IS:=ivset) (Extensions:=list (Z * Z))) [serviceOf busy] ∧
  parse (body busy) =
    Some (contextDoc describe authority view "id" (Some 2) [serviceOf busy] 0) ∧
  groupCounts (sys_cache twoGroups) <$> tracks (sys_cache twoGroups) !! 0 = Some [(3, 1); (8, 2)].
Proof.
  assert (Forall (dumpable (IS:=ivset) (Extensions:=list (Z * Z))) [serviceOf busy]) as Hdump.
  { constructor; [|constructor]. split_and!.
    - apply (ri_tree _ (reachable_inv keepOrder noExtension draft16 ["a"] "id" true false
        (watchers ++ [publishBy 1 10])%list _ (publishBy_admissible 1 10)
        ltac:(vm_compute; reflexivity))).
    - apply namedChildren_check. vm_compute. reflexivity.
    - intros c Hc f r. change (Some (sys_cache twoGroups) = Some c) in Hc.
      apply Some_inj in Hc. rewrite <- Hc. apply reachable_owns, twoGroups_reachable. }
  split; [exact Hdump|]. split; [|vm_compute; reflexivity]. unfold body.
  refine (state_body_exact describe authority view "id" (Some 2) [serviceOf busy] 0 Hdump _).
  vm_compute. reflexivity.
Defined.

(** Session 1 announces a namespace whose second field is empty. *)
Definition emptyField : MoqxRelay :=
  relay (RelayExamples.after [RPublishNamespace ["a"; ""] 1 None "" 2]).

(** A publisher that announces a namespace with an empty field makes [/state]
    serve text that is not JSON: the node is written without its key. *)
Theorem empty_field_breaks_state : parse (body emptyField) = None.
Proof. vm_compute. reflexivity. Qed.

(** Session 1 announces a namespace whose second field is the byte 255, which
    the protocol allows. *)
Definition rawField : MoqxRelay :=
  relay (RelayExamples.after
    [RPublishNamespace ["a"; String (ascii_of_nat 255) EmptyString] 1 None "" 2]).

(** A publisher that announces a namespace with a field that is not UTF-8 makes
    [/state] serve text that is not JSON: the bytes are written as they are. *)
Theorem raw_byte_breaks_state : parse (body rawField) = None.
Proof. vm_compute. reflexivity. Qed.

End StateExamples.
