(* ===== verification/MetricsHandler.v ===== *)
(** * The network metrics of the admin server

    Models the body of [/network-metrics] ([registerMetricsRoute] of
    [src/src/admin/MetricsHandler.cpp]) on the store of [ClientMetrics].
    [std::to_string] of a [double] is the parameter [format].

    [network_metrics_exact] shows that the body is valid JSON that reads back
    as the list of the clients of [snapshot], with every field. *)

From Stdlib Require Import Ascii String.
From S2P Require Import Prelude SbdDetector SbdService ClientMetrics Json.

#[local] Open Scope Z_scope.

Section Handler.
Context (format : double → list ascii).

Definition fieldStrings (k : string) (l : list string) (w : JsonWriter) : JsonWriter :=
  endArray (foldl (λ w t, strVal (chars t) w) (beginArray (key (chars k) w)) l).

(** [nonEmpty]: the container of strings has an element. *)
Definition nonEmpty (l : list string) : bool := match l with [] => false | _ => true end.

Definition windowFields (m : ClientNetworkMetrics) (w : JsonWriter) : JsonWriter :=
  let w := fieldUint (chars "samples") (windowSamples m) w in
  let w := fieldUint (chars "duration_ms") (windowDurationMs m) w in
  let w := fieldUint (chars "acked_packets") (windowAckedPackets m) w in
  let w := fieldUint (chars "ect0") (windowEct0 m) w in
  let w := fieldUint (chars "ect1") (windowEct1 m) w in
  let w := fieldUint (chars "ce") (windowCe m) w in
  let w := fieldUint (chars "lost_packets") (windowLostPackets m) w in
  let w := fieldUint (chars "retransmitted_packets") (windowRetransmittedPackets m) w in
  let w := fieldDouble format (chars "ce_fraction") (windowCeFraction m) w in
  let w := fieldDouble format (chars "loss_rate") (windowLossRate m) w in
  let w := fieldInt (chars "queue_delay_trend_us") (windowQueueDelayTrendUs m) w in
  let w := fieldInt (chars "srtt_trend_us") (windowSrttTrendUs m) w in
  let w := fieldInt (chars "acked_rate_trend_bps") (windowAckedRateTrendBps m) w in
  let w := fieldInt (chars "cwnd_trend_bytes") (windowCwndTrendBytes m) w in
  let w := fieldDouble format (chars "writable_blocked_fraction") (windowWritableBlockedFraction m) w in
  let w := fieldDouble format (chars "app_limited_fraction") (windowAppLimitedFraction m) w in
  fieldBool (chars "counter_reset") (windowCounterReset m) w.

Definition transportFields (m : ClientNetworkMetrics) (w : JsonWriter) : JsonWriter :=
  let w := fieldBool (chars "app_limited") (appLimited m) w in
  let w := fieldBool (chars "ecn_capable") (ecnCapable m) w in
  let w := fieldUint (chars "srtt_us") (srttUs m) w in
  let w := fieldUint (chars "rttvar_us") (rttVarUs m) w in
  let w := fieldUint (chars "min_rtt_us") (minRttUs m) w in
  let w := fieldUint (chars "queue_delay_us") (queueDelayUs m) w in
  let w := fieldUint (chars "cwnd_bytes") (cwndBytes m) w in
  let w := fieldUint (chars "inflight_bytes") (inflightBytes m) w in
  let w := fieldUint (chars "writable_bytes") (writableBytes m) w in
  let w := fieldUint (chars "acked_rate_bps") (ackedRateBps m) w in
  let w := fieldUint (chars "pacing_rate_bps") (pacingRateBps m) w in
  let w := fieldUint (chars "acked_packets") (ackedPackets m) w in
  let w := fieldUint (chars "lost_packets") (lostPackets m) w in
  let w := fieldUint (chars "retransmitted_packets") (retransmittedPackets m) w in
  let w := fieldUint (chars "ect0") (ect0 m) w in
  let w := fieldUint (chars "ect1") (ect1 m) w in
  let w := fieldUint (chars "ce") (ce m) w in
  let w := fieldDouble format (chars "ce_fraction") (ceFraction m) w in
  fieldDouble format (chars "l4s_weight") (l4sWeight m) w.

Definition sampleAge (now : Z) (m : ClientNetworkMetrics) : Z :=
  Z.max 0 (Z.quot (now - updatedAt m) 1000000).

(** The body of the loop over the clients. *)
Definition writeClient (now : Z) (w : JsonWriter) (m : ClientNetworkMetrics) : JsonWriter :=
  let w := beginObject w in
  let w := fieldStr (chars "connection_id") (chars (connectionId m)) w in
  let w := fieldStr (chars "peer") (chars (peerAddress m)) w in
  let w := fieldBool (chars "active") (isActive m) w in
  let w := fieldBool (chars "session_mapped") (sessionMapped m) w in
  let w := fieldBool (chars "publishing")
             (nonEmpty (publishedTracksOut m) || nonEmpty (publishedNamespacesOut m)) w in
  let w := fieldBool (chars "subscribing")
             (nonEmpty (trackSubscriptionsOut m) || nonEmpty (namespaceSubscriptionsOut m)) w in
  let w := fieldStrings "published_tracks" (publishedTracksOut m) w in
  let w := fieldStrings "published_namespaces" (publishedNamespacesOut m) w in
  let w := fieldStrings "track_subscriptions" (trackSubscriptionsOut m) w in
  let w := fieldStrings "namespace_subscriptions" (namespaceSubscriptionsOut m) w in
  let w := fieldUint (chars "sample_age_ms") (sampleAge now m) w in
  let w := transportFields m w in
  let w := endObject (windowFields m (beginObject (key (chars "window") w))) in
  endObject w.

(** The time of the ages is read before that of [snapshot]. *)
Definition networkMetricsBody (now snapshotNow : Z) (st : Store) : Store * list ascii :=
  let '(st, clients) := snapshot snapshotNow st in
  let w := beginArray (key (chars "clients") (beginObject newWriter)) in
  (st, out (endObject (endArray (foldl (writeClient now) w clients)))).

(** ** The document *)

Definition fld (k : string) (v : json) : list ascii * json := (chars k, v).
Definition jdouble (d : double) : json := JNum (format d).
Definition strings (l : list string) : json := JArr (map (λ s, JStr (chars s)) l).

Definition windowDoc (m : ClientNetworkMetrics) : json :=
  JObj [fld "samples" (jint (windowSamples m)); fld "duration_ms" (jint (windowDurationMs m));
        fld "acked_packets" (jint (windowAckedPackets m)); fld "ect0" (jint (windowEct0 m));
        fld "ect1" (jint (windowEct1 m)); fld "ce" (jint (windowCe m));
        fld "lost_packets" (jint (windowLostPackets m));
        fld "retransmitted_packets" (jint (windowRetransmittedPackets m));
        fld "ce_fraction" (jdouble (windowCeFraction m)); fld "loss_rate" (jdouble (windowLossRate m));
        fld "queue_delay_trend_us" (jint (windowQueueDelayTrendUs m));
        fld "srtt_trend_us" (jint (windowSrttTrendUs m));
        fld "acked_rate_trend_bps" (jint (windowAckedRateTrendBps m));
        fld "cwnd_trend_bytes" (jint (windowCwndTrendBytes m));
        fld "writable_blocked_fraction" (jdouble (windowWritableBlockedFraction m));
        fld "app_limited_fraction" (jdouble (windowAppLimitedFraction m));
        fld "counter_reset" (JBool (windowCounterReset m))].

Definition clientDoc (now : Z) (m : ClientNetworkMetrics) : json :=
  JObj [fld "connection_id" (JStr (chars (connectionId m))); fld "peer" (JStr (chars (peerAddress m)));
        fld "active" (JBool (isActive m)); fld "session_mapped" (JBool (sessionMapped m));
        fld "publishing" (JBool (nonEmpty (publishedTracksOut m) || nonEmpty (publishedNamespacesOut m)));
        fld "subscribing"
          (JBool (nonEmpty (trackSubscriptionsOut m) || nonEmpty (namespaceSubscriptionsOut m)));
        fld "published_tracks" (strings (publishedTracksOut m));
        fld "published_namespaces" (strings (publishedNamespacesOut m));
        fld "track_subscriptions" (strings (trackSubscriptionsOut m));
        fld "namespace_subscriptions" (strings (namespaceSubscriptionsOut m));
        fld "sample_age_ms" (jint (sampleAge now m));
        fld "app_limited" (JBool (appLimited m)); fld "ecn_capable" (JBool (ecnCapable m));
        fld "srtt_us" (jint (srttUs m)); fld "rttvar_us" (jint (rttVarUs m));
        fld "min_rtt_us" (jint (minRttUs m)); fld "queue_delay_us" (jint (queueDelayUs m));
        fld "cwnd_bytes" (jint (cwndBytes m)); fld "inflight_bytes" (jint (inflightBytes m));
        fld "writable_bytes" (jint (writableBytes m)); fld "acked_rate_bps" (jint (ackedRateBps m));
        fld "pacing_rate_bps" (jint (pacingRateBps m)); fld "acked_packets" (jint (ackedPackets m));
        fld "lost_packets" (jint (lostPackets m));
        fld "retransmitted_packets" (jint (retransmittedPackets m));
        fld "ect0" (jint (ect0 m)); fld "ect1" (jint (ect1 m)); fld "ce" (jint (ce m));
        fld "ce_fraction" (jdouble (ceFraction m)); fld "l4s_weight" (jdouble (l4sWeight m));
        fld "window" (windowDoc m)].

Definition networkDoc (now : Z) (clients : list ClientNetworkMetrics) : json :=
  JObj [fld "clients" (JArr (map (clientDoc now) clients))].

(** ** The body is the document *)

Lemma fieldStrings_members k l X w kvs :
  Members X w kvs → Members (fieldStrings k l X) w (kvs ++ [(chars k, strings l)]).
Proof.
  intros HX. unfold fieldStrings. eapply Members_array; [|exact HX].
  apply (Elements_fold _ (λ s, JStr (chars s)) l _ _ []); [|apply Elements_nil].
  intros s w' _. apply (Elements_str w' w' []), Elements_nil.
Qed.

Ltac handler_step :=
  lazymatch goal with
  | |- Members (fieldStrings _ _ _) _ _ => simple eapply fieldStrings_members
  | _ => writes_step
  end.

Lemma writeClient_elements now m w : Elements (writeClient now w m) w [clientDoc now m].
Proof.
  eapply Elements_eq.
  - unfold writeClient, transportFields, windowFields. cbv zeta.
    unfold fieldStr, fieldBool, fieldInt, fieldUint, fieldDouble. repeat handler_step.
  - reflexivity.
Qed.

(** The values that [format] is given. *)
Definition doubles (m : ClientNetworkMetrics) : list double :=
  [ceFraction m; l4sWeight m; windowCeFraction m; windowLossRate m;
   windowWritableBlockedFraction m; windowAppLimitedFraction m].

(** [format] writes a JSON number. *)
Definition formatted (d : double) : Prop :=
  forallb numChar (format d) && isNumber (format d) = true.

#[local] Arguments jint : simpl never.
#[local] Arguments jdouble : simpl never.

Lemma wf_strings l : wfJson (strings l) = true.
Proof. unfold strings. cbn. induction l as [|s l IH]; [done|exact IH]. Qed.

#[local] Arguments strings : simpl never.

Lemma wf_clientDoc now m : Forall formatted (doubles m) → wfJson (clientDoc now m) = true.
Proof.
  intros Hd. repeat (apply Forall_cons in Hd as [?%id Hd]).
  unfold clientDoc, windowDoc. cbn.
  rewrite !wf_jint, !wf_strings. unfold formatted in *.
  repeat match goal with H : _ = true |- _ => 
    lazymatch type of H with forallb numChar (format ?d) && _ = _ =>
      change (wfJson (jdouble d)) with (forallb numChar (format d) && isNumber (format d)); rewrite H; clear H end end.
  done.
Qed.

(** the body of [/network-metrics] is valid JSON and reads back as the
    clients of the snapshot, with every field of each and the age of its last
    sample, as long as the fractions and weights are written as numbers and the
    names are valid UTF-8. *)
Theorem network_metrics_exact now snapshotNow st :
  (∀ m, m ∈ (snapshot snapshotNow st).2 → Forall formatted (doubles m)) →
  utf8Json (networkDoc now (snapshot snapshotNow st).2) = true →
  parse (networkMetricsBody now snapshotNow st).2 =
    Some (networkDoc now (snapshot snapshotNow st).2).
Proof.
  intros Hd Hu. unfold networkMetricsBody. destruct (snapshot snapshotNow st) as [st' clients]. cbn [snd] in *.
  assert (endObject (endArray (foldl (writeClient now)
            (beginArray (key (chars "clients") (beginObject newWriter))) clients)) =
          wrote (render (networkDoc now clients)) newWriter) as ->.
  { apply object_wrote. eapply (Members_array _ (beginObject newWriter) _ []); [|apply Members_nil].
    apply (Elements_fold _ (clientDoc now) clients _ _ []); [|apply Elements_nil].
    intros. apply writeClient_elements. }
  cbn [wrote setComma append out maybeComma newWriter needsComma_ app].
  rewrite <- (app_nil_r (render (networkDoc now clients))).
  apply parse_render; [|done|by left]. clear Hu. cbn. rewrite andb_true_r.
  induction clients as [|m clients IH]; [done|]. cbn -[clientDoc].
  rewrite wf_clientDoc by (apply Hd; set_solver). apply IH. intros. apply Hd. set_solver.
Qed.

End Handler.

Module HandlerExamples.

(** Every number with six decimals; the store holds one report. *)
Definition sixDecimals (d : double) : list ascii := chars "0.000000".
Definition store : Store := put 7 (newMetrics "c1" "[::1]:1") (newStore None 10000 250 10000).

Lemma network_metrics_exact_witness :
  (∀ m, m ∈ (snapshot 9 store).2 → Forall (formatted sixDecimals) (doubles m)) ∧
  length (snapshot 9 store).2 = 1%nat ∧
  parse (networkMetricsBody sixDecimals 8 9 store).2 =
    Some (networkDoc sixDecimals 8 (snapshot 9 store).2).
Proof.
  assert (∀ m, m ∈ (snapshot 9 store).2 → Forall (formatted sixDecimals) (doubles m)) as Hd.
  { intros m _. repeat constructor. }
  split; [exact Hd|]. split; [vm_compute; reflexivity|].
  refine (network_metrics_exact sixDecimals 8 9 store Hd _). vm_compute. reflexivity.
Defined.

(** A weight that is not a number makes the body invalid. *)
Theorem nan_breaks_network_metrics :
  parse (networkMetricsBody (λ _, chars "nan") 8 9 store).2 = None.
Proof. vm_compute. reflexivity. Qed.

End HandlerExamples.
