(* ===== verification/Stats.v ===== *)
(** * Statistics: histograms, collectors and the scrape

    Models [src/src/stats]: [BoundedHistogram.h], [StatsRegistry.{h,cpp}] and
    the four collectors ([MoQStatsCollector], [QuicStatsCollector],
    [PicoQuicStatsCollector], [EventBaseStatsCollector]).

    The fields the X-macros of [StatsRegistry.h] list are the constructors of
    the types below, so the storage of a collector and a snapshot are functions
    from them.  Counters are unsigned 64-bit integers; gauges are [int64_t],
    whose overflow is undefined and needs 2^63 events.  The body of a callback
    is the list of its statements ([Action]).

    The executors, the list of loop observers and the text of [/metrics] are
    not modelled: a callback of a loop observer is an event of the collector
    that installed it. *)

From S2P Require Import Prelude.

#[local] Open Scope Z_scope.

(** ** [BoundedHistogram] *)

Record BoundedHistogram := mkHistogram { hBuckets : list Z; hSum : Z; hCount : Z }.

Definition newHistogram (bounds : list Z) : BoundedHistogram :=
  mkHistogram (replicate (S (length bounds)) 0) 0 0.

(** The bucket of a value: the first bound it does not exceed, else the last. *)
Fixpoint bucketOf (bounds : list Z) (v : Z) : nat :=
  match bounds with
  | [] => O
  | b :: bs => if v <=? b then O else S (bucketOf bs v)
  end.

Definition addValue (bounds : list Z) (v : Z) (h : BoundedHistogram) : BoundedHistogram :=
  mkHistogram (alter (λ n, u64 (n + 1)) (bucketOf bounds v) (hBuckets h))
    (u64 (hSum h + v)) (u64 (hCount h + 1)).

(** The loop over the bounds, with [running]. *)
Fixpoint cumulate (running : Z) (bounds buckets : list Z) : list Z :=
  match bounds, buckets with
  | _ :: bs, n :: ns => u64 (running + n) :: cumulate (u64 (running + n)) bs ns
  | _, _ => []
  end.

Definition fillCumulative (bounds : list Z) (h : BoundedHistogram) : list Z :=
  cumulate 0 bounds (hBuckets h) ++ [hCount h].

(** ** The fields of a snapshot *)

Inductive MoqCounter :=
  | pubSubscribeSuccess | pubSubscribeError | pubFetchSuccess | pubFetchError
  | pubPublishNamespaceSuccess | pubPublishNamespaceError | pubPublishNamespaceDone
  | pubPublishNamespaceCancel | pubSubscribeNamespaceSuccess | pubSubscribeNamespaceError
  | pubUnsubscribeNamespace | pubPublishDone | pubSubscriptionStreamOpened
  | pubSubscriptionStreamClosed | pubTrackStatus | pubRequestUpdate | moqPublishSuccess
  | moqPublishError | subSubscribeSuccess | subSubscribeError | subFetchSuccess | subFetchError
  | subPublishNamespaceSuccess | subPublishNamespaceError | subPublishNamespaceDone
  | subPublishNamespaceCancel | subSubscribeNamespaceSuccess | subSubscribeNamespaceError
  | subUnsubscribeNamespace | subPublishDone | subSubscriptionStreamOpened
  | subSubscriptionStreamClosed | subTrackStatus | subRequestUpdate | moqPublishReceived
  | moqPublishOkSent | subPublishError.

Inductive QuicCounter :=
  | quicPacketsReceived | quicPacketsSent | quicPacketsDropped | quicPacketLoss
  | quicPacketRetransmissions | quicConnectionsCreated | quicConnectionsClosed
  | quicStreamsCreated | quicStreamsClosed | quicStreamsReset | quicConnFlowControlBlocked
  | quicStreamFlowControlBlocked | quicCwndBlocked | quicBytesRead | quicBytesWritten
  | quicDatagramsDroppedOnWrite | quicDatagramsDroppedOnRead
  | quicPeerMaxUniStreamsLimitSaturated | quicPeerMaxBidiStreamsLimitSaturated
  | quicSocketWriteAgain | quicSocketWriteNobufs | quicSocketWriteOther | quicPacketsProcessed
  | quicPTO | quicPacketSpuriousLoss | quicPersistentCongestion
  | quicConnectionWritableBytesLimited | quicConnectionRateLimited | quicPacerTimerLagged.

Inductive Counter := Moq (c : MoqCounter) | Quic (c : QuicCounter).

Inductive Gauge :=
  | quicActiveConnections | quicActiveStreams
  | pubActiveSubscriptions | pubActivePublishers | pubActivePublishNamespaces
  | pubActiveSubscribeNamespaces | pubActiveSubscriptionStreams
  | subActiveSubscriptions | subActivePublishers | subActivePublishNamespaces
  | subActiveSubscribeNamespaces | subActiveSubscriptionStreams
  | moqActiveSessions.

Inductive Histogram :=
  | moqSubscribeLatency | moqFetchLatency | moqPublishNamespaceLatency | moqPublishLatency
  | quicRttSample | quicBandwidthSample | quicInflightBytesSample | quicCwndHintBytesSample
  | evbPktsSentPerLoop | evbPktsRecvPerLoop
  | evbLoopBusy | evbLoopIdle.

(** [STATS_ERROR_COUNTER_FIELDS], by the counter each breaks down. *)
Definition errorFields : list MoqCounter :=
  [pubSubscribeError; pubFetchError; pubPublishNamespaceError; pubSubscribeNamespaceError;
   moqPublishError; subSubscribeError; subFetchError; subPublishNamespaceError;
   subSubscribeNamespaceError; subPublishError].

#[export] Instance MoqCounter_eq_dec : EqDecision MoqCounter.
Proof. solve_decision. Defined.
#[export] Instance QuicCounter_eq_dec : EqDecision QuicCounter.
Proof. solve_decision. Defined.
#[export] Instance Counter_eq_dec : EqDecision Counter.
Proof. solve_decision. Defined.
#[export] Instance Gauge_eq_dec : EqDecision Gauge.
Proof. solve_decision. Defined.
#[export] Instance Histogram_eq_dec : EqDecision Histogram.
Proof. solve_decision. Defined.

Definition kLatencyBucketsUs : list Z :=
  [10; 50; 100; 250; 500; 1000; 2000; 5000; 10000; 50000; 100000].
Definition kRttBucketsMs : list Z := [1; 5; 10; 25; 50; 100; 250; 500; 1000; 5000].
Definition kBandwidthBucketsBitsPerSec : list Z :=
  [1000000; 5000000; 10000000; 25000000; 50000000; 100000000; 250000000; 500000000; 1000000000;
   10000000000].
Definition kInflightBytesBuckets : list Z :=
  [4096; 65536; 262144; 1048576; 4194304; 16777216; 67108864].
Definition kEvbLoopBucketsUs : list Z :=
  [50; 100; 250; 500; 1000; 2500; 5000; 10000; 25000; 50000; 100000].
Definition kEvbPktsPerLoopBuckets : list Z := [0; 1; 2; 4; 8; 16; 32; 64; 128; 256; 512; 1024].

Definition boundsOf (h : Histogram) : list Z :=
  match h with
  | moqSubscribeLatency | moqFetchLatency | moqPublishNamespaceLatency | moqPublishLatency =>
      kLatencyBucketsUs
  | quicRttSample => kRttBucketsMs
  | quicBandwidthSample => kBandwidthBucketsBitsPerSec
  | quicInflightBytesSample | quicCwndHintBytesSample => kInflightBytesBuckets
  | evbPktsSentPerLoop | evbPktsRecvPerLoop => kEvbPktsPerLoopBuckets
  | evbLoopBusy | evbLoopIdle => kEvbLoopBucketsUs
  end.

(** [moxygen::RequestErrorCode]: the codes the table names, and the others. *)
Inductive RequestErrorCode :=
  | INTERNAL_ERROR | UNAUTHORIZED | TIMEOUT | NOT_SUPPORTED | TRACK_NOT_EXIST | INVALID_RANGE
  | GOING_AWAY | CANCELLED | OtherCode (n : Z).

#[export] Instance RequestErrorCode_eq_dec : EqDecision RequestErrorCode.
Proof. solve_decision. Defined.

Definition kRequestErrorCodeValues : list RequestErrorCode :=
  [INTERNAL_ERROR; UNAUTHORIZED; TIMEOUT; NOT_SUPPORTED; TRACK_NOT_EXIST; INVALID_RANGE; GOING_AWAY;
   CANCELLED].
Definition kRequestErrorCodeCount : nat := length kRequestErrorCodeValues.

Fixpoint indexIn (values : list RequestErrorCode) (code : RequestErrorCode) : nat :=
  match values with
  | [] => O
  | v :: vs => if decide (v = code) then O else S (indexIn vs code)
  end.

Definition requestErrorCodeIndex (code : RequestErrorCode) : nat :=
  indexIn (take (kRequestErrorCodeCount - 1) kRequestErrorCodeValues) code.

(** ** Snapshots *)

Record StatsSnapshot := mkSnapshot {
  snCounter : Counter → Z;
  snGauge : Gauge → Z;
  snBuckets : Histogram → list Z; snSum : Histogram → Z; snCount : Histogram → Z;
  snByCodes : MoqCounter → list Z;
}.

Definition zeros (n : nat) : list Z := replicate n 0.

Definition newSnapshot : StatsSnapshot :=
  mkSnapshot (λ _, 0) (λ _, 0) (λ h, zeros (S (length (boundsOf h)))) (λ _, 0) (λ _, 0)
    (λ _, zeros kRequestErrorCodeCount).

Definition add64 (a b : Z) : Z := u64 (a + b).

(** [operator+=]. *)
Definition plusSnapshot (a o : StatsSnapshot) : StatsSnapshot :=
  mkSnapshot (λ c, add64 (snCounter a c) (snCounter o c)) (λ g, snGauge a g + snGauge o g)
    (λ h, zip_with add64 (snBuckets a h) (snBuckets o h))
    (λ h, add64 (snSum a h) (snSum o h)) (λ h, add64 (snCount a h) (snCount o h))
    (λ f, zip_with add64 (snByCodes a f) (snByCodes o f)).

(** ** Collectors *)

Inductive Kind := KMoQ | KQuic | KPico | KEvb.

#[export] Instance Kind_eq_dec : EqDecision Kind.
Proof. solve_decision. Defined.

Record Collector := mkCollector {
  cKind : Kind;
  cBound : bool;                    (* [owningExecutor()] is not null *)
  cLooped : bool;                   (* a loop observer is installed *)
  cCounter : Counter → Z;
  cGauge : Gauge → Z;
  cHistogram : Histogram → BoundedHistogram;
  cByCodes : MoqCounter → list Z;
  prevLoopPktsSent_ : Z;
  prevLoopPktsRecv_ : Z;
}.

(** A collector as its constructor leaves it; the event base of a
    [PicoQuicStatsCollector] or an [EventBaseStatsCollector] is given at once. *)
Definition newCollector (k : Kind) (looped : bool) : Collector :=
  mkCollector k (match k with KPico | KEvb => true | _ => false end)
    (match k with KPico => looped | _ => false end)
    (λ _, 0) (λ _, 0) (λ h, newHistogram (boundsOf h)) (λ _, zeros kRequestErrorCodeCount) 0 0.

(** The fields a collector of the kind has and copies. *)
Definition hasCounter (k : Kind) (c : Counter) : bool :=
  match k, c with KMoQ, Moq _ | KQuic, Quic _ | KPico, Quic _ => true | _, _ => false end.
Definition hasGauge (k : Kind) (g : Gauge) : bool :=
  match k, g with
  | KMoQ, _ => true
  | (KQuic | KPico), (quicActiveConnections | quicActiveStreams) => true
  | _, _ => false
  end.
Definition hasHistogram (k : Kind) (h : Histogram) : bool :=
  match k, h with
  | KMoQ, (moqSubscribeLatency | moqFetchLatency | moqPublishNamespaceLatency | moqPublishLatency) =>
      true
  | (KQuic | KPico), (quicRttSample | quicBandwidthSample | quicInflightBytesSample |
       quicCwndHintBytesSample | evbPktsSentPerLoop | evbPktsRecvPerLoop) => true
  | KEvb, (evbLoopBusy | evbLoopIdle) => true
  | _, _ => false
  end.
Definition hasCodes (k : Kind) : bool := match k with KMoQ => true | _ => false end.

Definition snapshot (c : Collector) : StatsSnapshot :=
  let k := cKind c in let z := newSnapshot in
  mkSnapshot (λ x, if hasCounter k x then cCounter c x else snCounter z x)
    (λ g, if hasGauge k g then cGauge c g else snGauge z g)
    (λ h, if hasHistogram k h then fillCumulative (boundsOf h) (cHistogram c h) else snBuckets z h)
    (λ h, if hasHistogram k h then hSum (cHistogram c h) else snSum z h)
    (λ h, if hasHistogram k h then hCount (cHistogram c h) else snCount z h)
    (λ f, if hasCodes k then cByCodes c f else snByCodes z f).

(** *** Statements *)

Inductive Action :=
| Add (c : Counter) (n : Z)
| Up (g : Gauge)
| Down (g : Gauge)
| Record_ (h : Histogram) (v : Z)
| Code (f : MoqCounter) (code : RequestErrorCode)
| Bind (looped : bool)
| SetPrev (sent recv : Z).

Definition upd {A} `{EqDecision A} {B} (f : A → B) (a : A) (b : B) : A → B :=
  λ x, if decide (x = a) then b else f x.

Definition perform (c : Collector) (a : Action) : Collector :=
  let 'mkCollector k bound looped ctr gge hst codes ps pr := c in
  match a with
  | Add x n => mkCollector k bound looped (upd ctr x (u64 (ctr x + n))) gge hst codes ps pr
  | Up g => mkCollector k bound looped ctr (upd gge g (gge g + 1)) hst codes ps pr
  | Down g => mkCollector k bound looped ctr (upd gge g (gge g - 1)) hst codes ps pr
  | Record_ h v =>
      mkCollector k bound looped ctr gge (upd hst h (addValue (boundsOf h) v (hst h))) codes ps pr
  | Code f code =>
      mkCollector k bound looped ctr gge hst
        (upd codes f (alter (λ n, u64 (n + 1)) (requestErrorCodeIndex code) (codes f))) ps pr
  | Bind l => mkCollector k true (looped || l) ctr gge hst codes ps pr
  | SetPrev s r => mkCollector k bound looped ctr gge hst codes s r
  end.

Definition incr (c : MoqCounter) : Action := Add (Moq c) 1.
Definition tick (c : QuicCounter) : Action := Add (Quic c) 1.

(** *** [MoQStatsCollector] *)

(** The callbacks of the two roles, and the methods only one of them has. *)
Inductive MoqCallback :=
| onSubscribeSuccess
| onSubscribeError (code : RequestErrorCode)
| onFetchSuccess
| onFetchError (code : RequestErrorCode)
| onPublishNamespaceSuccess
| onPublishNamespaceError (code : RequestErrorCode)
| onPublishNamespaceDone
| onPublishNamespaceCancel
| onSubscribeNamespaceSuccess
| onSubscribeNamespaceError (code : RequestErrorCode)
| onUnsubscribeNamespace
| onTrackStatus
| onUnsubscribe
| onPublishDone
| onRequestUpdate
| onSubscriptionStreamOpened
| onSubscriptionStreamClosed
| onSubscriptionBegin
| onSubscriptionEnd.

Inductive PublisherOnly :=
| recordPublishNamespaceLatency (latencyMsec : Z)
| recordPublishLatency (latencyMsec : Z)
| onPublishErrorBack (code : RequestErrorCode)    (* [PublisherCallback::onPublishError] *)
| onPublishSuccess.

Inductive SubscriberOnly :=
| recordSubscribeLatency (latencyMsec : Z)
| recordFetchLatency (latencyMsec : Z)
| onPublish
| onPublishOk
| onPublishErrorSent (code : RequestErrorCode).   (* [SubscriberCallback::onPublishError] *)

Inductive MoqEvent :=
| setExecutor
| onSessionStart
| onSessionEnd
| Publisher (e : MoqCallback)
| PublisherX (e : PublisherOnly)
| Subscriber (e : MoqCallback)
| SubscriberX (e : SubscriberOnly).

Definition publisherCallback (e : MoqCallback) : list Action :=
  match e with
  | onSubscribeSuccess => [incr pubSubscribeSuccess]
  | onSubscribeError code => [incr pubSubscribeError; Code pubSubscribeError code]
  | onFetchSuccess => [incr pubFetchSuccess]
  | onFetchError code => [incr pubFetchError; Code pubFetchError code]
  | onPublishNamespaceSuccess => [incr pubPublishNamespaceSuccess; Up pubActivePublishNamespaces]
  | onPublishNamespaceError code => [incr pubPublishNamespaceError; Code pubPublishNamespaceError code]
  | onPublishNamespaceDone => [incr pubPublishNamespaceDone; Down pubActivePublishNamespaces]
  | onPublishNamespaceCancel => [incr pubPublishNamespaceCancel; Down pubActivePublishNamespaces]
  | onSubscribeNamespaceSuccess =>
      [incr pubSubscribeNamespaceSuccess; Up pubActiveSubscribeNamespaces]
  | onSubscribeNamespaceError code =>
      [incr pubSubscribeNamespaceError; Code pubSubscribeNamespaceError code]
  | onUnsubscribeNamespace => [incr pubUnsubscribeNamespace; Down pubActiveSubscribeNamespaces]
  | onTrackStatus => [incr pubTrackStatus]
  | onUnsubscribe => []
  | onPublishDone => [incr pubPublishDone]
  | onRequestUpdate => [incr pubRequestUpdate]
  | onSubscriptionStreamOpened => [incr pubSubscriptionStreamOpened; Up pubActiveSubscriptionStreams]
  | onSubscriptionStreamClosed =>
      [incr pubSubscriptionStreamClosed; Down pubActiveSubscriptionStreams]
  | onSubscriptionBegin => [Up pubActiveSubscriptions]
  | onSubscriptionEnd => [Down pubActiveSubscriptions]
  end.

Definition publisherOnly (e : PublisherOnly) : list Action :=
  match e with
  | recordPublishNamespaceLatency v => [Record_ moqPublishNamespaceLatency v]
  | recordPublishLatency v => [Record_ moqPublishLatency v]
  | onPublishErrorBack code => [incr moqPublishError; Code moqPublishError code]
  | onPublishSuccess => [incr moqPublishSuccess; Up pubActivePublishers]
  end.

Definition subscriberCallback (e : MoqCallback) : list Action :=
  match e with
  | onSubscribeSuccess => [incr subSubscribeSuccess]
  | onSubscribeError code => [incr subSubscribeError; Code subSubscribeError code]
  | onFetchSuccess => [incr subFetchSuccess]
  | onFetchError code => [incr subFetchError; Code subFetchError code]
  | onPublishNamespaceSuccess => [incr subPublishNamespaceSuccess; Up subActivePublishNamespaces]
  | onPublishNamespaceError code => [incr subPublishNamespaceError; Code subPublishNamespaceError code]
  | onPublishNamespaceDone => [incr subPublishNamespaceDone; Down subActivePublishNamespaces]
  | onPublishNamespaceCancel => [incr subPublishNamespaceCancel; Down subActivePublishNamespaces]
  | onSubscribeNamespaceSuccess =>
      [incr subSubscribeNamespaceSuccess; Up subActiveSubscribeNamespaces]
  | onSubscribeNamespaceError code =>
      [incr subSubscribeNamespaceError; Code subSubscribeNamespaceError code]
  | onUnsubscribeNamespace => [incr subUnsubscribeNamespace; Down subActiveSubscribeNamespaces]
  | onTrackStatus => [incr subTrackStatus]
  | onUnsubscribe => []
  | onPublishDone => [incr subPublishDone]
  | onRequestUpdate => [incr subRequestUpdate]
  | onSubscriptionStreamOpened => [incr subSubscriptionStreamOpened; Up subActiveSubscriptionStreams]
  | onSubscriptionStreamClosed =>
      [incr subSubscriptionStreamClosed; Down subActiveSubscriptionStreams]
  | onSubscriptionBegin => [Up subActiveSubscriptions]
  | onSubscriptionEnd => [Down subActiveSubscriptions]
  end.

Definition subscriberOnly (e : SubscriberOnly) : list Action :=
  match e with
  | recordSubscribeLatency v => [Record_ moqSubscribeLatency v]
  | recordFetchLatency v => [Record_ moqFetchLatency v]
  | onPublish => [incr moqPublishReceived]
  | onPublishOk => [incr moqPublishOkSent; Up subActivePublishers]
  | onPublishErrorSent code => [incr subPublishError; Code subPublishError code]
  end.

Definition moqActions (e : MoqEvent) : list Action :=
  match e with
  | setExecutor => [Bind false]
  | onSessionStart => [Up moqActiveSessions]
  | onSessionEnd => [Down moqActiveSessions]
  | Publisher e => publisherCallback e
  | PublisherX e => publisherOnly e
  | Subscriber e => subscriberCallback e
  | SubscriberX e => subscriberOnly e
  end.

(** *** [QuicStatsCollector] *)

Inductive SocketErrorType := AGAIN | NOBUFS | OTHER.

(** [found]: the registry has a live loop collector for the event base. *)
Inductive QuicEvent :=
| onPacketReceived (found : bool)
| onPacketSent
| onPacketDropped (found : bool)
| onPacketLoss
| onPacketRetransmission
| onNewConnection
| onConnectionClose
| onNewQuicStream
| onQuicStreamClosed
| onQuicStreamReset
| onConnFlowControlBlocked
| onStreamFlowControlBlocked
| onCwndBlocked
| onRead (bytes : Z)
| onWrite (bytes : Z)
| onDatagramDroppedOnWrite
| onDatagramDroppedOnRead
| onPeerMaxUniStreamsLimitSaturated
| onPeerMaxBidiStreamsLimitSaturated
| onPacketProcessed
| onPTO
| onPacketSpuriousLoss
| onPersistentCongestion
| onConnectionWritableBytesLimited
| onConnectionRateLimited
| onPacerTimerLagged
| onRttSample (ms : Z)
| onBandwidthSample (bps : Z)
| onInflightBytesSample (bytes : Z)
| onCwndHintBytesSample (bytes : Z)
| onUDPSocketWriteError (errorType : SocketErrorType)
| untracked.                                       (* the callbacks with an empty body *)

Definition captureWorkerEvbIfNeeded (found : bool) (c : Collector) : list Action :=
  if cBound c then [] else [Bind found].

Definition quicActions (c : Collector) (e : QuicEvent) : list Action :=
  match e with
  | onPacketReceived found => captureWorkerEvbIfNeeded found c ++ [tick quicPacketsReceived]
  | onPacketSent => [tick quicPacketsSent]
  | onPacketDropped found => captureWorkerEvbIfNeeded found c ++ [tick quicPacketsDropped]
  | onPacketLoss => [tick quicPacketLoss]
  | onPacketRetransmission => [tick quicPacketRetransmissions]
  | onNewConnection => [tick quicConnectionsCreated; Up quicActiveConnections]
  | onConnectionClose => [tick quicConnectionsClosed; Down quicActiveConnections]
  | onNewQuicStream => [tick quicStreamsCreated; Up quicActiveStreams]
  | onQuicStreamClosed => [tick quicStreamsClosed; Down quicActiveStreams]
  | onQuicStreamReset => [tick quicStreamsReset]
  | onConnFlowControlBlocked => [tick quicConnFlowControlBlocked]
  | onStreamFlowControlBlocked => [tick quicStreamFlowControlBlocked]
  | onCwndBlocked => [tick quicCwndBlocked]
  | onRead bytes => [Add (Quic quicBytesRead) bytes]
  | onWrite bytes => [Add (Quic quicBytesWritten) bytes]
  | onDatagramDroppedOnWrite => [tick quicDatagramsDroppedOnWrite]
  | onDatagramDroppedOnRead => [tick quicDatagramsDroppedOnRead]
  | onPeerMaxUniStreamsLimitSaturated => [tick quicPeerMaxUniStreamsLimitSaturated]
  | onPeerMaxBidiStreamsLimitSaturated => [tick quicPeerMaxBidiStreamsLimitSaturated]
  | onPacketProcessed => [tick quicPacketsProcessed]
  | onPTO => [tick quicPTO]
  | onPacketSpuriousLoss => [tick quicPacketSpuriousLoss]
  | onPersistentCongestion => [tick quicPersistentCongestion]
  | onConnectionWritableBytesLimited => [tick quicConnectionWritableBytesLimited]
  | onConnectionRateLimited => [tick quicConnectionRateLimited]
  | onPacerTimerLagged => [tick quicPacerTimerLagged]
  | onRttSample ms => [Record_ quicRttSample ms]
  | onBandwidthSample bps => [Record_ quicBandwidthSample bps]
  | onInflightBytesSample bytes => [Record_ quicInflightBytesSample bytes]
  | onCwndHintBytesSample bytes => [Record_ quicCwndHintBytesSample bytes]
  | onUDPSocketWriteError AGAIN => [tick quicSocketWriteAgain]
  | onUDPSocketWriteError NOBUFS => [tick quicSocketWriteNobufs]
  | onUDPSocketWriteError OTHER => [tick quicSocketWriteOther]
  | untracked => []
  end.

(** The observer of a loop iteration, of both QUIC collectors. *)
Definition loopObserver (c : Collector) : list Action :=
  let sent := cCounter c (Quic quicPacketsSent) in
  let recv := cCounter c (Quic quicPacketsReceived) in
  [Record_ evbPktsSentPerLoop (u64 (sent - prevLoopPktsSent_ c));
   Record_ evbPktsRecvPerLoop (u64 (recv - prevLoopPktsRecv_ c));
   SetPrev sent recv].

(** *** [PicoQuicStatsCollector] *)

Record PathQualityDelta := mkDelta {
  packetsLost : Z; bytesSent : Z; bytesReceived : Z; timerLosses : Z; spuriousLosses : Z;
  cwndBlocked : bool; smoothedRttUs : Z; receiveBytesPerSec : Z; bytesInTransit : Z;
}.

Inductive PicoEvent :=
| onConnectionCreated
| onConnectionClosed
| onStreamCreated
| onStreamClosed
| onStreamReset
| onPacketsSent (n : Z)
| onPacketsReceived (n : Z)
| onPathQualityDelta (d : PathQualityDelta).

Definition picoActions (e : PicoEvent) : list Action :=
  match e with
  | onConnectionCreated => [tick quicConnectionsCreated; Up quicActiveConnections]
  | onConnectionClosed => [tick quicConnectionsClosed; Down quicActiveConnections]
  | onStreamCreated => [tick quicStreamsCreated]
  | onStreamClosed => [tick quicStreamsClosed]
  | onStreamReset => [tick quicStreamsReset]
  | onPacketsSent n => [Add (Quic quicPacketsSent) n]
  | onPacketsReceived n => [Add (Quic quicPacketsReceived) n]
  | onPathQualityDelta d =>
      [Add (Quic quicPacketLoss) (packetsLost d); Add (Quic quicBytesWritten) (bytesSent d);
       Add (Quic quicBytesRead) (bytesReceived d);
       Add (Quic quicPacketRetransmissions) (timerLosses d); Add (Quic quicPTO) (timerLosses d);
       Add (Quic quicPacketSpuriousLoss) (spuriousLosses d)] ++
      (if cwndBlocked d then [tick quicCwndBlocked] else []) ++
      (if 0 <? smoothedRttUs d then [Record_ quicRttSample (smoothedRttUs d / 1000)] else []) ++
      (if 0 <? receiveBytesPerSec d
       then [Record_ quicBandwidthSample (u64 (receiveBytesPerSec d * 8))] else []) ++
      (if 0 <? bytesInTransit d then [Record_ quicInflightBytesSample (bytesInTransit d)] else [])
  end.

(** *** Runs *)

Inductive Event :=
| EMoq (e : MoqEvent)
| EQuic (e : QuicEvent)
| EPico (e : PicoEvent)
| ELoop (busyUs idleUs : Z).

(** What a collector does for an event; a collector is only called for those
    of its own kind. *)
Definition actions (c : Collector) (e : Event) : list Action :=
  match cKind c, e with
  | KMoQ, EMoq e => moqActions e
  | KQuic, EQuic e => quicActions c e
  | KPico, EPico e => picoActions e
  | (KQuic | KPico), ELoop _ _ => if cLooped c then loopObserver c else []
  | KEvb, ELoop busyUs idleUs => [Record_ evbLoopBusy (u64 busyUs); Record_ evbLoopIdle (u64 idleUs)]
  | _, _ => []
  end.

Definition performAll (acts : list Action) (c : Collector) : Collector := foldl perform c acts.

(** The collector after the events and the statements it executed. *)
Fixpoint collect (c : Collector) (es : list Event) : Collector * list Action :=
  match es with
  | [] => (c, [])
  | e :: es =>
      let acts := actions c e in
      let '(c', rest) := collect (performAll acts c) es in (c', acts ++ rest)
  end.

(** ** [StatsRegistry] *)

(** [collectors_]: [None] is a collector that is gone. *)
Abbreviation Registry := (list (option Collector)).

Definition registerCollector (c : Collector) (r : Registry) : Registry := r ++ [Some c].

(** [aggregateAsync]: the entries that are gone are dropped, and collectors
    without an executor are skipped. *)
Definition aggregateAsync (r : Registry) : Registry * StatsSnapshot :=
  let live := omap id r in
  (Some <$> live,
   foldl plusSnapshot newSnapshot (snapshot <$> filter (λ c, cBound c = true) live)).
