(* ===== verification/StatsTheorems.v ===== *)
(** * Statistics: what a scrape shows

    For every registry of collectors and every sequence of callbacks,
    [scrape_histograms_exact] shows that the merged cumulative buckets are
    those of all observations together, and [scrape_consistent] that the
    error breakdowns add up to their counters and that the gauges are the
    difference of the counters of what begins and what ends. *)

From S2P Require Import Prelude Stats.

#[local] Open Scope Z_scope.

(** ** Equality of 64-bit words *)

Definition eq64 (a b : Z) : Prop := u64 a = u64 b.
Infix "≡₆₄" := eq64 (at level 70).

#[export] Instance eq64_equiv : Equivalence eq64.
Proof. split; unfold eq64; red; congruence. Qed.
#[export] Instance add_eq64 : Proper (eq64 ==> eq64 ==> eq64) Z.add.
Proof.
  unfold eq64, u64. intros a a' Ha b b' Hb. by rewrite Zplus_mod, Ha, Hb, <- Zplus_mod.
Qed.
#[export] Instance sub_eq64 : Proper (eq64 ==> eq64 ==> eq64) Z.sub.
Proof.
  unfold eq64, u64. intros a a' Ha b b' Hb. by rewrite Zminus_mod, Ha, Hb, <- Zminus_mod.
Qed.

Lemma u64_eq64 a : u64 a ≡₆₄ a.
Proof. unfold eq64, u64. by rewrite Zmod_mod. Qed.
Lemma add64_eq64 a b : add64 a b ≡₆₄ a + b.
Proof. apply u64_eq64. Qed.
Lemma eq64_u64 a b : a ≡₆₄ b → u64 a = u64 b.
Proof. done. Qed.
Lemma eq64_small a b : is_u64 b → a ≡₆₄ b → u64 a = b.
Proof. intros Hb Hab. rewrite <- (u64_small b) by done. exact Hab. Qed.

Definition total (l : list Z) : Z := foldr Z.add 0 l.

Lemma total_app l l' : total (l ++ l') = total l + total l'.
Proof. induction l as [|x l IH]; cbn; [done|]. fold (total (l ++ l')) (total l). lia. Qed.

Lemma total_zip l l' : length l = length l' → total (zip_with add64 l l') ≡₆₄ total l + total l'.
Proof.
  revert l'. induction l as [|x l IH]; intros [|y l']; try done. intros [= Hlen]. cbn.
  fold (total (zip_with add64 l l')) (total l) (total l'). rewrite (IH _ Hlen), add64_eq64.
  by replace (x + y + (total l + total l')) with (x + total l + (y + total l')) by lia.
Qed.

(** ** Histograms *)

Definition upTo (b : Z) (vs : list Z) : Z := Z.of_nat (length (filter (λ v, v <= b) vs)).

(** The cumulative buckets of the observations [vs]. *)
Definition cumulative (bounds vs : list Z) : list Z :=
  map (λ b, u64 (upTo b vs)) bounds ++ [u64 (Z.of_nat (length vs))].

Lemma upTo_app b vs ws : upTo b (vs ++ ws) = upTo b vs + upTo b ws.
Proof. unfold upTo. rewrite filter_app, length_app. lia. Qed.

Lemma upTo_above b b' vs : b <= b' → upTo b' vs = upTo b vs + upTo b' (filter (λ v, b < v) vs).
Proof.
  intros Hb. unfold upTo. induction vs as [|v vs IH]; [done|]. rewrite !filter_cons.
  repeat case_decide; try rewrite filter_cons; repeat case_decide; cbn [length]; lia.
Qed.

Definition bump (n : Z) : Z := u64 (n + 1).
Definition tally (bounds : list Z) (ns vs : list Z) : list Z :=
  foldl (λ ns v, alter bump (bucketOf bounds v) ns) ns vs.

Lemma tally_cons b bs n ns vs :
  is_u64 n → tally (b :: bs) (n :: ns) vs =
    u64 (n + upTo b vs) :: tally bs ns (filter (λ v, b < v) vs).
Proof.
  revert n ns. induction vs as [|v vs IH]; intros n ns Hn.
  - cbn. unfold upTo. cbn. by rewrite Z.add_0_r, u64_small.
  - unfold tally, upTo in *. rewrite !filter_cons. cbn [foldl bucketOf].
    destruct (Z.leb_spec v b); case_decide; case_decide; try lia.
    + change (alter bump 0%nat (n :: ns)) with (bump n :: ns). rewrite IH by apply u64_range.
      f_equal. cbn [length]. apply eq64_u64. unfold bump. rewrite u64_eq64.
      by replace (n + 1 + Z.of_nat (length (filter (λ v, v <= b) vs)))
        with (n + Z.of_nat (S (length (filter (λ v, v <= b) vs)))) by lia.
    + change (alter bump (S (bucketOf bs v)) (n :: ns)) with (n :: alter bump (bucketOf bs v) ns).
      by rewrite IH.
Qed.

Lemma cumulate_tally bounds r vs :
  StronglySorted Z.le bounds →
  cumulate (u64 r) bounds (tally bounds (replicate (S (length bounds)) 0) vs) =
  map (λ b, u64 (r + upTo b vs)) bounds.
Proof.
  intros Hs. revert r vs. induction Hs as [|b bs _ IH Hb]; intros r vs; [done|].
  change (replicate (S (length (b :: bs))) 0) with (0 :: replicate (S (length bs)) 0).
  rewrite tally_cons by (unfold is_u64, u64_modulus; lia). cbn [cumulate map].
  assert (u64 (u64 r + u64 (0 + upTo b vs)) = u64 (r + upTo b vs)) as ->.
  { apply eq64_u64. by rewrite !u64_eq64. }
  f_equal. rewrite IH. apply map_ext_in. intros b' Hb'%list_elem_of_In.
  rewrite Forall_forall in Hb. rewrite (upTo_above b b' vs) by auto. f_equal. lia.
Qed.

Lemma addValues_fields bounds vs h :
  let h' := foldl (λ h v, addValue bounds v h) h vs in
  hBuckets h' = tally bounds (hBuckets h) vs ∧
  hSum h' ≡₆₄ hSum h + total vs ∧ hCount h' ≡₆₄ hCount h + Z.of_nat (length vs).
Proof.
  revert h. induction vs as [|v vs IH]; intros h; cbn -[addValue Z.of_nat].
  - split_and!; [done|by rewrite Z.add_0_r|by rewrite Z.add_0_r].
  - destruct (IH (addValue bounds v h)) as (-> & -> & ->). split_and!; [done| |]; cbn -[Z.of_nat];
      rewrite u64_eq64; fold (total vs).
    + by rewrite Z.add_assoc.
    + by replace (hCount h + 1 + Z.of_nat (length vs)) with (hCount h + Z.of_nat (S (length vs))) by lia.
Qed.

Lemma addValues_range bounds vs h :
  is_u64 (hSum h) → is_u64 (hCount h) →
  let h' := foldl (λ h v, addValue bounds v h) h vs in is_u64 (hSum h') ∧ is_u64 (hCount h').
Proof.
  revert h. induction vs as [|v vs IH]; intros h Hs Hc; [done|]. apply IH; apply u64_range.
Qed.

Lemma zero_u64 : is_u64 0.
Proof. unfold is_u64, u64_modulus. lia. Qed.

(** A histogram that was given the values [vs]. *)
Lemma histogram_values bounds vs :
  StronglySorted Z.le bounds →
  let h := foldl (λ h v, addValue bounds v h) (newHistogram bounds) vs in
  fillCumulative bounds h = cumulative bounds vs ∧ hSum h = u64 (total vs) ∧
  hCount h = u64 (Z.of_nat (length vs)).
Proof.
  intros Hs h. destruct (addValues_fields bounds vs (newHistogram bounds)) as (Hb & Hsum & Hcount).
  destruct (addValues_range bounds vs (newHistogram bounds) zero_u64 zero_u64) as [Rs Rc].
  fold h in Hb, Hsum, Hcount, Rs, Rc. cbn in Hsum, Hcount.
  assert (hCount h = u64 (Z.of_nat (length vs))) as Hc by (symmetry; by apply eq64_small).
  split_and!; [|symmetry; by apply eq64_small|done].
  unfold fillCumulative, cumulative. rewrite Hb, Hc. f_equal.
  apply (cumulate_tally bounds 0 vs Hs).
Qed.

Lemma cumulative_app bounds vs ws :
  zip_with add64 (cumulative bounds vs) (cumulative bounds ws) = cumulative bounds (vs ++ ws).
Proof.
  unfold cumulative. rewrite zip_with_app by (by rewrite !length_map). f_equal.
  - induction bounds as [|b bs IH]; [done|]. cbn. rewrite IH, upTo_app. f_equal.
    apply eq64_u64. by rewrite !u64_eq64.
  - cbn. rewrite length_app, Nat2Z.inj_add. f_equal. apply eq64_u64. by rewrite !u64_eq64.
Qed.

Lemma bounds_sorted h : StronglySorted Z.le (boundsOf h).
Proof. destruct h; cbv [boundsOf kLatencyBucketsUs kRttBucketsMs kBandwidthBucketsBitsPerSec
  kInflightBytesBuckets kEvbLoopBucketsUs kEvbPktsPerLoopBuckets]; repeat constructor; lia. Qed.

(** ** What a list of statements does to each field *)

Definition added (x : Counter) (acts : list Action) : Z :=
  total (omap (λ a, match a with Add y n => if decide (y = x) then Some n else None | _ => None end) acts).
Definition moved (g : Gauge) (acts : list Action) : Z :=
  total (omap (λ a, match a with
                    | Up g' => if decide (g' = g) then Some 1 else None
                    | Down g' => if decide (g' = g) then Some (-1) else None
                    | _ => None
                    end) acts).
Definition recorded (h : Histogram) (acts : list Action) : list Z :=
  omap (λ a, match a with Record_ h' v => if decide (h' = h) then Some v else None | _ => None end) acts.
Definition codes (f : MoqCounter) (acts : list Action) : list RequestErrorCode :=
  omap (λ a, match a with Code f' c => if decide (f' = f) then Some c else None | _ => None end) acts.

Lemma total_omap_app {A} (f : A → option Z) l l' :
  total (omap f (l ++ l')) = total (omap f l) + total (omap f l').
Proof. by rewrite omap_app, total_app. Qed.

Lemma performAll_kind acts c : cKind (performAll acts c) = cKind c.
Proof.
  unfold performAll. revert c. induction acts as [|a acts IH]; intros c; [done|]. cbn. rewrite IH.
  by destruct c, a.
Qed.

Lemma performAll_counter acts c x :
  is_u64 (cCounter c x) →
  is_u64 (cCounter (performAll acts c) x) ∧
  cCounter (performAll acts c) x ≡₆₄ cCounter c x + added x acts.
Proof.
  unfold performAll. revert c. induction acts as [|a acts IH]; intros c Hc.
  { split; [done|]. cbn. by rewrite Z.add_0_r. }
  assert (is_u64 (cCounter (perform c a) x)) as Hc'.
  { destruct c, a; cbn in *; try done. unfold upd. case_decide; [apply u64_range|done]. }
  destruct (IH (perform c a) Hc') as [Hr Heq]. split; [done|]. cbn [foldl]. rewrite Heq.
  unfold added. change (a :: acts) with ([a] ++ acts). rewrite total_omap_app, Z.add_assoc. apply add_eq64; [|done].
  destruct c, a; cbn; try (by rewrite Z.add_0_r). unfold upd.
  repeat case_decide; subst; try done; cbn; rewrite ?u64_eq64, ?Z.add_0_r; done.
Qed.

Lemma performAll_gauge acts c g : cGauge (performAll acts c) g = cGauge c g + moved g acts.
Proof.
  unfold performAll. revert c. induction acts as [|a acts IH]; intros c; [cbn; lia|].
  cbn [foldl]. rewrite IH. unfold moved. change (a :: acts) with ([a] ++ acts).
  rewrite total_omap_app, Z.add_assoc. f_equal.
  destruct c, a; cbn; try lia; unfold upd; repeat case_decide; subst; cbn; try done; lia.
Qed.

Lemma performAll_histogram acts c h :
  cHistogram (performAll acts c) h =
  foldl (λ H v, addValue (boundsOf h) v H) (cHistogram c h) (recorded h acts).
Proof.
  unfold performAll. revert c. induction acts as [|a acts IH]; intros c; [done|].
  cbn [foldl]. rewrite IH. destruct c, a; try done. cbn -[requestErrorCodeIndex]. unfold upd.
  repeat case_decide; subst; done.
Qed.

Lemma performAll_codes acts c f :
  cByCodes (performAll acts c) f =
  foldl (λ l code, alter bump (requestErrorCodeIndex code) l) (cByCodes c f) (codes f acts).
Proof.
  unfold performAll. revert c. induction acts as [|a acts IH]; intros c; [done|].
  cbn [foldl]. rewrite IH. destruct c, a; try done. cbn -[requestErrorCodeIndex]. unfold upd.
  repeat case_decide; subst; done.
Qed.

Lemma collect_performAll c es : (collect c es).1 = performAll (collect c es).2 c.
Proof.
  revert c. induction es as [|e es IH]; intros c; [done|]. cbn.
  destruct (collect (performAll (actions c e) c) es) as [c' rest] eqn:E.
  specialize (IH (performAll (actions c e) c)). rewrite E in IH. cbn in *. rewrite IH.
  unfold performAll. by rewrite foldl_app.
Qed.

(** ** Error codes *)

Lemma total_alter i l : (i < length l)%nat → total (alter bump i l) ≡₆₄ total l + 1.
Proof.
  revert i. induction l as [|x l IH]; intros i Hi; cbn in Hi; [lia|]. destruct i as [|i].
  - cbn. unfold bump. rewrite u64_eq64. fold (total l).
    by replace (x + 1 + total l) with (x + total l + 1) by lia.
  - cbn. fold (total l) (total (alter bump i l)). rewrite IH by lia.
    by replace (x + (total l + 1)) with (x + total l + 1) by lia.
Qed.

Lemma index_bound code : (requestErrorCodeIndex code < kRequestErrorCodeCount)%nat.
Proof. destruct code; vm_compute; lia. Qed.

Lemma codes_total cs l :
  length l = kRequestErrorCodeCount →
  let l' := foldl (λ l code, alter bump (requestErrorCodeIndex code) l) l cs in
  length l' = kRequestErrorCodeCount ∧ total l' ≡₆₄ total l + Z.of_nat (length cs).
Proof.
  revert l. induction cs as [|code cs IH]; intros l Hl; cbn [foldl].
  { split; [done|]. cbn. by rewrite Z.add_0_r. }
  destruct (IH (alter bump (requestErrorCodeIndex code) l)) as [Hlen Heq].
  { by rewrite length_alter. }
  split; [done|]. cbn zeta in Heq |- *. rewrite Heq, total_alter.
  - by replace (total l + 1 + Z.of_nat (length cs)) with (total l + Z.of_nat (length (code :: cs)))
      by (cbn; lia).
  - rewrite Hl. apply index_bound.
Qed.

(** ** Laws of the gauges *)

Definition sumOf (f : Counter → Z) (xs : list Counter) : Z := total (map f xs).

(** A gauge, the counters of what begins and the counters of what ends. *)
Definition gaugeLaws : list (Gauge * list Counter * list Counter) :=
  [(pubActivePublishNamespaces, [Moq pubPublishNamespaceSuccess],
      [Moq pubPublishNamespaceDone; Moq pubPublishNamespaceCancel]);
   (pubActiveSubscribeNamespaces, [Moq pubSubscribeNamespaceSuccess], [Moq pubUnsubscribeNamespace]);
   (pubActiveSubscriptionStreams, [Moq pubSubscriptionStreamOpened], [Moq pubSubscriptionStreamClosed]);
   (pubActivePublishers, [Moq moqPublishSuccess], []);
   (subActivePublishNamespaces, [Moq subPublishNamespaceSuccess],
      [Moq subPublishNamespaceDone; Moq subPublishNamespaceCancel]);
   (subActiveSubscribeNamespaces, [Moq subSubscribeNamespaceSuccess], [Moq subUnsubscribeNamespace]);
   (subActiveSubscriptionStreams, [Moq subSubscriptionStreamOpened], [Moq subSubscriptionStreamClosed]);
   (subActivePublishers, [Moq moqPublishOkSent], []);
   (quicActiveConnections, [Quic quicConnectionsCreated], [Quic quicConnectionsClosed])].

(** The counter a collector of the kind [k] shows, from its statements. *)
Definition shown (k : Kind) (acts : list Action) (x : Counter) : Z :=
  if hasCounter k x then added x acts else 0.

(** How far a list of statements is from a law. *)
Definition imbalance (k : Kind) (law : Gauge * list Counter * list Counter) (acts : list Action) : Z :=
  let '(g, plus, minus) := law in
  (if hasGauge k g then moved g acts else 0) -
  (sumOf (shown k acts) plus - sumOf (shown k acts) minus).

Lemma event_balanced c e : Forall (λ law, imbalance (cKind c) law (actions c e) = 0) gaugeLaws.
Proof.
  destruct c as [k bound looped ctr gge hst cds ps pr]. unfold actions. cbn [cKind cLooped].
  destruct k, e as [e|e|e|]; try destruct looped; try (destruct e as [| | |e|e|e|e]; try destruct e);
    try (destruct e; try destruct bound); try (destruct errorType); cbn -[Z.ltb];
    repeat case_match; repeat constructor.
Qed.

(** The breakdown of an error counts what its counter counts. *)
Definition uncoded (k : Kind) (f : MoqCounter) (acts : list Action) : Z :=
  (if hasCodes k then Z.of_nat (length (codes f acts)) else 0) - shown k acts (Moq f).

Lemma event_coded c e : Forall (λ f, uncoded (cKind c) f (actions c e) = 0) errorFields.
Proof.
  destruct c as [k bound looped ctr gge hst cds ps pr]. unfold actions. cbn [cKind cLooped].
  destruct k, e as [e|e|e|]; try destruct looped; try (destruct e as [| | |e|e|e|e]; try destruct e);
    try (destruct e; try destruct bound); try (destruct errorType); cbn -[Z.ltb];
    repeat case_match; repeat constructor.
Qed.

(** A quantity that is zero for every event is zero for a run. *)
Lemma collect_zero (F : list Action → Z) k c es :
  F [] = 0 → (∀ a b, F (a ++ b) = F a + F b) → (∀ c e, cKind c = k → F (actions c e) = 0) →
  cKind c = k → F (collect c es).2 = 0.
Proof.
  intros Hnil Happ He. revert c. induction es as [|e es IH]; intros c Hk; [done|]. cbn.
  specialize (IH (performAll (actions c e) c)). rewrite performAll_kind in IH. specialize (IH Hk).
  destruct (collect (performAll (actions c e) c) es) as [c' rest]. cbn in *.
  rewrite Happ, IH, He by done. done.
Qed.

Lemma shown_app k a b x : shown k (a ++ b) x = shown k a x + shown k b x.
Proof. unfold shown. destruct (hasCounter k x); [apply total_omap_app|done]. Qed.

Lemma sumOf_app (f g h : Counter → Z) xs :
  (∀ x, f x = g x + h x) → sumOf f xs = sumOf g xs + sumOf h xs.
Proof.
  intros Hf. unfold sumOf. induction xs as [|x xs IH]; [done|]. cbn.
  fold (total (map f xs)) (total (map g xs)) (total (map h xs)). rewrite IH, Hf. lia.
Qed.

Lemma imbalance_app k law a b : imbalance k law (a ++ b) = imbalance k law a + imbalance k law b.
Proof.
  destruct law as [[g plus] minus]. unfold imbalance.
  rewrite !(sumOf_app (shown k (a ++ b)) (shown k a) (shown k b)) by apply shown_app.
  destruct (hasGauge k g); [unfold moved; rewrite total_omap_app|]; lia.
Qed.

Lemma uncoded_app k f a b : uncoded k f (a ++ b) = uncoded k f a + uncoded k f b.
Proof.
  unfold uncoded. rewrite shown_app. unfold codes. rewrite omap_app, length_app.
  destruct (hasCodes k); lia.
Qed.

Lemma sumOf_zero xs : sumOf (λ _, 0) xs = 0.
Proof. induction xs as [|x xs IH]; [done|]. exact IH. Qed.

Lemma imbalance_nil k law : imbalance k law [] = 0.
Proof.
  destruct law as [[g plus] minus]. unfold imbalance.
  assert (∀ xs, sumOf (shown k []) xs = 0) as Hz.
  { intros xs. unfold sumOf. induction xs as [|x xs IH]; [done|]. cbn.
    fold (total (map (shown k []) xs)). rewrite IH. unfold shown. by destruct (hasCounter k x). }
  rewrite !Hz. by destruct (hasGauge k g).
Qed.

(** ** Consistent snapshots *)

Record consistent (s : StatsSnapshot) : Prop := {
  cs_range x : is_u64 (snCounter s x);
  cs_codes f : f ∈ errorFields →
    length (snByCodes s f) = kRequestErrorCodeCount ∧ total (snByCodes s f) ≡₆₄ snCounter s (Moq f);
  cs_gauge g plus minus : (g, plus, minus) ∈ gaugeLaws →
    snGauge s g ≡₆₄ sumOf (snCounter s) plus - sumOf (snCounter s) minus;
}.

Lemma sumOf_eq64 f g xs : (∀ x, f x ≡₆₄ g x) → sumOf f xs ≡₆₄ sumOf g xs.
Proof.
  intros Hf. unfold sumOf. induction xs as [|x xs IH]; [done|]. cbn.
  fold (total (map f xs)) (total (map g xs)). by rewrite IH, Hf.
Qed.

Lemma newSnapshot_consistent : consistent newSnapshot.
Proof.
  split.
  - intros x. apply zero_u64.
  - intros f _. split; [done|]. vm_compute. done.
  - intros g plus minus _. cbn. by rewrite !sumOf_zero.
Qed.

Lemma plusSnapshot_consistent a b : consistent a → consistent b → consistent (plusSnapshot a b).
Proof.
  intros Ha Hb. split; cbn.
  - intros x. apply u64_range.
  - intros f Hf. destruct (cs_codes _ Ha f Hf) as [La Ea], (cs_codes _ Hb f Hf) as [Lb Eb].
    split; [by rewrite length_zip_with, La, Lb, Nat.min_id|].
    rewrite total_zip by congruence. by rewrite add64_eq64, Ea, Eb.
  - intros g plus minus Hl. rewrite (cs_gauge _ Ha _ _ _ Hl), (cs_gauge _ Hb _ _ _ Hl).
    assert (∀ xs, sumOf (λ c, add64 (snCounter a c) (snCounter b c)) xs ≡₆₄
                  sumOf (snCounter a) xs + sumOf (snCounter b) xs) as Hsum.
    { intros xs. rewrite (sumOf_eq64 _ (λ c, snCounter a c + snCounter b c)) by (intros; apply add64_eq64).
      by rewrite (sumOf_app _ (snCounter a) (snCounter b)). }
    rewrite !Hsum. set (pa := sumOf _ plus). set (pb := sumOf _ plus).
    set (ma := sumOf _ minus). set (mb := sumOf _ minus).
    by replace (pa - ma + (pb - mb)) with (pa + pb - (ma + mb)) by lia.
Qed.

Lemma foldl_consistent snaps s :
  consistent s → Forall consistent snaps → consistent (foldl plusSnapshot s snaps).
Proof.
  intros Hs Hall. revert s Hs. induction Hall as [|x xs Hx _ IH]; intros s Hs; [done|].
  apply IH. by apply plusSnapshot_consistent.
Qed.

Section Collected.
Context (k : Kind) (looped : bool) (es : list Event).

Let acts : list Action := (collect (newCollector k looped) es).2.
Let snap : StatsSnapshot := snapshot (collect (newCollector k looped) es).1.

Lemma snapshot_counter x : is_u64 (snCounter snap x) ∧ snCounter snap x ≡₆₄ shown k acts x.
Proof.
  unfold snap. rewrite collect_performAll. fold acts. cbn. rewrite performAll_kind. unfold shown.
  cbn [newCollector cKind]. destruct (hasCounter k x); [|split; [apply zero_u64|done]].
  apply (performAll_counter acts (newCollector k looped) x zero_u64).
Qed.

Lemma snapshot_codes f :
  f ∈ errorFields →
  length (snByCodes snap f) = kRequestErrorCodeCount ∧ total (snByCodes snap f) ≡₆₄ snCounter snap (Moq f).
Proof.
  intros Hf. destruct (snapshot_counter (Moq f)) as [_ ->].
  assert (uncoded k f acts = 0) as Hu.
  { apply (collect_zero (uncoded k f) k); [|apply uncoded_app| |done].
    - unfold uncoded, shown. destruct (hasCounter k (Moq f)); by destruct (hasCodes k).
    - intros c e <-. by eapply (proj1 (Forall_forall _ _) (event_coded c e)). }
  unfold snap. rewrite collect_performAll. fold acts. cbn [snapshot snByCodes].
  rewrite performAll_kind. unfold uncoded in Hu. cbn [newCollector cKind].
  destruct (hasCodes k).
  - rewrite performAll_codes.
    destruct (codes_total (codes f acts) (cByCodes (newCollector k looped) f)) as [Hl Ht]; [done|].
    split; [exact Hl|]. cbn zeta in Ht. rewrite Ht.
    change (total (cByCodes (newCollector k looped) f)) with 0.
    by replace (shown k acts (Moq f)) with (0 + Z.of_nat (length (codes f acts))) by lia.
  - split; [done|]. by replace (shown k acts (Moq f)) with 0 by lia.
Qed.

Lemma snapshot_gauge g plus minus :
  (g, plus, minus) ∈ gaugeLaws →
  snGauge snap g ≡₆₄ sumOf (snCounter snap) plus - sumOf (snCounter snap) minus.
Proof.
  intros Hl. rewrite !(sumOf_eq64 (snCounter snap) (shown k acts)) by apply snapshot_counter.
  assert (imbalance k (g, plus, minus) acts = 0) as Hi.
  { apply (collect_zero (imbalance k (g, plus, minus)) k);
      [apply imbalance_nil|apply imbalance_app| |done].
    intros c e <-. by eapply (proj1 (Forall_forall _ _) (event_balanced c e)). }
  unfold snap. rewrite collect_performAll. fold acts. cbn [snapshot snGauge].
  rewrite performAll_kind. unfold imbalance in Hi. cbn [newCollector cKind].
  replace (sumOf (shown k acts) plus - sumOf (shown k acts) minus)
    with (if hasGauge k g then moved g acts else 0) by lia.
  destruct (hasGauge k g); [|done]. by rewrite performAll_gauge.
Qed.

Lemma snapshot_consistent : consistent snap.
Proof.
  split; [intros; apply snapshot_counter|apply snapshot_codes|apply snapshot_gauge].
Qed.

(** The values a histogram of the snapshot was given. *)
Definition observedBy (h : Histogram) : list Z :=
  if hasHistogram k h then recorded h acts else [].

Lemma snapshot_histogram h :
  snBuckets snap h = cumulative (boundsOf h) (observedBy h) ∧
  snSum snap h = u64 (total (observedBy h)) ∧
  snCount snap h = u64 (Z.of_nat (length (observedBy h))).
Proof.
  unfold snap. rewrite collect_performAll. fold acts. cbn [snapshot snBuckets snSum snCount].
  rewrite performAll_kind, performAll_histogram. unfold observedBy. cbn [newCollector cKind].
  destruct (hasHistogram k h); [apply histogram_values, bounds_sorted|]. split_and!; try done.
  by destruct h.
Qed.

End Collected.

(** ** The scrape *)

(** A registered collector: gone, or alive with the events it has seen. *)
Abbreviation Slot := (option (Kind * bool * list Event)).

Definition build (s : Kind * bool * list Event) : Collector :=
  let '(k, looped, es) := s in (collect (newCollector k looped) es).1.

Definition scrape (slots : list Slot) : StatsSnapshot :=
  (aggregateAsync (option_map build <$> slots)).2.

(** The observations of the collectors that are alive and have an executor. *)
Definition observations (h : Histogram) (slots : list Slot) : list Z :=
  mjoin ((λ s : Kind * bool * list Event, observedBy s.1.1 s.1.2 s.2 h) <$>
    filter (λ s, cBound (build s) = true) (omap id slots)).

Lemma scrape_fold slots :
  scrape slots = foldl plusSnapshot newSnapshot
    ((λ s, snapshot (build s)) <$> filter (λ s, cBound (build s) = true) (omap id slots)).
Proof.
  unfold scrape, aggregateAsync. cbn [snd]. f_equal.
  induction slots as [|[s|] slots IH]; [done| |exact IH].
  change (omap id (option_map build <$> Some s :: slots)) with (build s :: omap id (option_map build <$> slots)).
  change (omap id (Some s :: slots)) with (s :: omap id slots).
  rewrite !filter_cons. case_decide; [|exact IH].
  rewrite !fmap_cons. f_equal. exact IH.
Qed.

Lemma foldl_histogram h (ss : list (Kind * bool * list Event)) s vs :
  snBuckets s h = cumulative (boundsOf h) vs → snSum s h = u64 (total vs) →
  snCount s h = u64 (Z.of_nat (length vs)) →
  let s' := foldl plusSnapshot s ((λ s, snapshot (build s)) <$> ss) in
  let all := vs ++ mjoin ((λ s : Kind * bool * list Event, observedBy s.1.1 s.1.2 s.2 h) <$> ss) in
  snBuckets s' h = cumulative (boundsOf h) all ∧ snSum s' h = u64 (total all) ∧
  snCount s' h = u64 (Z.of_nat (length all)).
Proof.
  revert s vs. induction ss as [|[[k looped] es] ss IH]; intros s vs Hb Hs Hc;
    [cbn; by rewrite app_nil_r|].
  destruct (snapshot_histogram k looped es h) as (Hb' & Hs' & Hc').
  cbn [fmap list_fmap foldl]. rewrite mjoin_cons, app_assoc. apply IH; cbn [plusSnapshot snBuckets snSum snCount build].
  - rewrite Hb, Hb'. apply cumulative_app.
  - rewrite Hs, Hs', total_app. apply eq64_u64. by rewrite !u64_eq64.
  - rewrite Hc, Hc', length_app, Nat2Z.inj_add. apply eq64_u64. by rewrite !u64_eq64.
Qed.

(** C17: the histograms of a scrape are exact: however the observations were
    spread over the collectors, and whichever collectors are gone or have no
    executor yet, each merged cumulative bucket is the number (modulo 2^64) of
    observations of the live, bound collectors that do not exceed its bound,
    and the sum and count are those of all of them. *)
Theorem scrape_histograms_exact slots h :
  let vs := observations h slots in
  snBuckets (scrape slots) h =
    map (λ b, u64 (upTo b vs)) (boundsOf h) ++ [u64 (Z.of_nat (length vs))] ∧
  snSum (scrape slots) h = u64 (total vs) ∧
  snCount (scrape slots) h = u64 (Z.of_nat (length vs)).
Proof.
  rewrite scrape_fold. apply (foldl_histogram h _ newSnapshot []); [by destruct h|done|done].
Qed.

(** a scrape is consistent, after any callbacks of any collectors: the
    breakdown of every error counter by code adds up to the counter, and the
    gauges are the difference between the counters of what began and of what
    ended.  The gauges of active publishers have no counter of what ended. *)
Theorem scrape_consistent slots :
  (∀ f, f ∈ errorFields → u64 (total (snByCodes (scrape slots) f)) = snCounter (scrape slots) (Moq f)) ∧
  (∀ g plus minus, (g, plus, minus) ∈ gaugeLaws →
     u64 (snGauge (scrape slots) g) =
     u64 (sumOf (snCounter (scrape slots)) plus - sumOf (snCounter (scrape slots)) minus)).
Proof.
  assert (consistent (scrape slots)) as Hc.
  { rewrite scrape_fold. apply foldl_consistent; [apply newSnapshot_consistent|].
    apply Forall_fmap, Forall_forall. intros [[k looped] es] _. apply snapshot_consistent. }
  split.
  - intros f Hf. apply eq64_small; [apply (cs_range _ Hc)|apply (cs_codes _ Hc f Hf)].
  - apply (cs_gauge _ Hc).
Qed.
