(* ===== verification/StatsExamples.v ===== *)
(** * Statistics: runs

    A scrape over four kinds of collectors, and runs in which a metric does
    not show what its name says. *)

From S2P Require Import Prelude Stats StatsTheorems.

#[local] Open Scope Z_scope.

Module StatsExamples.

Definition relayEvents : list Event :=
  [EMoq setExecutor; EMoq onSessionStart; EMoq (Publisher (onFetchError (OtherCode 99)));
   EMoq (SubscriberX (recordFetchLatency 20)); EMoq (Publisher onPublishNamespaceSuccess);
   EMoq (Publisher onPublishNamespaceDone)].

Definition quicEvents : list Event :=
  [EQuic (onPacketReceived true); EQuic onPacketSent; EQuic onPacketSent; ELoop 10 20;
   EQuic onNewQuicStream; EQuic (onRttSample 7)].

Definition picoEvents : list Event := [EPico (onPacketsSent 5); ELoop 1 1; EPico onStreamCreated].

(** A collector that is gone, one of each kind, and one without an executor. *)
Definition slots : list Slot :=
  [None; Some (KMoQ, false, relayEvents); Some (KQuic, false, quicEvents);
   Some (KPico, true, picoEvents); Some (KEvb, false, [ELoop 60 40]);
   Some (KQuic, false, [EQuic onPacketSent])].

Example scrape_counters :
  snCounter (scrape slots) (Quic quicPacketsSent) = 7 ∧
  snCounter (scrape slots) (Moq pubFetchError) = 1 ∧
  snByCodes (scrape slots) pubFetchError = [0; 0; 0; 0; 0; 0; 0; 1] ∧
  observations evbPktsSentPerLoop slots = [2; 5] ∧
  snBuckets (scrape slots) evbPktsSentPerLoop = [0; 0; 1; 1; 2; 2; 2; 2; 2; 2; 2; 2; 2].
Proof. vm_compute. done. Qed.

(** A publisher that was accepted and is done stays in the gauge. *)
Theorem finished_publisher_stays_active :
  snGauge (scrape [Some (KMoQ, false,
    [EMoq setExecutor; EMoq (PublisherX onPublishSuccess); EMoq (Publisher onPublishDone)])])
    pubActivePublishers = 1.
Proof. vm_compute. reflexivity. Qed.

(** An open stream of a picoquic server is not in the gauge. *)
Theorem pico_stream_not_active :
  snGauge (scrape [Some (KPico, false, [EPico onStreamCreated])]) quicActiveStreams = 0 ∧
  snCounter (scrape [Some (KPico, false, [EPico onStreamCreated])]) (Quic quicStreamsCreated) = 1.
Proof. vm_compute. done. Qed.

(** A subscribe that took 20 milliseconds is shown below 50 microseconds. *)
Theorem latency_in_wrong_unit :
  snBuckets (scrape [Some (KMoQ, false,
    [EMoq setExecutor; EMoq (SubscriberX (recordSubscribeLatency 20))])]) moqSubscribeLatency =
  [0; 1; 1; 1; 1; 1; 1; 1; 1; 1; 1; 1].
Proof. vm_compute. reflexivity. Qed.

End StatsExamples.
