(* ===== verification/RelayContext.v ===== *)
(** * MoqxRelayContext: routing of sessions and the session map

    Models [src/src/MoqxRelayContext.{h,cpp}] on the service matcher, the
    client metrics store and the statistics collector: which relay a session
    is handed to, and which session a connection id names.

    - Sessions are numbers; [alive] holds those that still exist, which is what
      a weak pointer can tell.  Relays are those of the services of the
      configuration.
    - Upstreams are made by [initUpstreams] from the library's classes and are
      not modelled here ([UpstreamProvider] is). *)

From S2P Require Import Prelude Stats SbdDetector SbdService ClientMetrics ServiceMatcher.

#[local] Open Scope Z_scope.

Section Context_.
Context (sort : list (string * string) → list (string * string)).
Context {Relay : Type}.

(** ** State *)

Record MoqxRelayContext := mkContext {
  services_ : gmap string Relay;
  serviceMatcher_ : ServiceMatcher;
  metricsStore : option Store;                 (* [statsRegistry_->clientNetworkMetrics()] *)
  statsCollector_ : option Collector;
  sessionsByConnectionId_ : gmap string Z;
  alive : gset Z;
}.

(** The constructor, with the relay made for each service; then
    [setStatsRegistry]. *)
Definition newContext (relayOf : string → Relay) (services : Services) (store : option Store) :
    option MoqxRelayContext :=
  sm ← newServiceMatcher sort services;
  Some (mkContext (list_to_map ((λ s : string * list MatchEntry, (s.1, relayOf s.1)) <$> services))
          sm store None ∅ ∅).

Definition set_sessionMap (m : gmap string Z) (st : option Store) (c : MoqxRelayContext) :
    MoqxRelayContext :=
  mkContext (services_ c) (serviceMatcher_ c) st (statsCollector_ c) m (alive c).
Definition set_collector (col : option Collector) (c : MoqxRelayContext) : MoqxRelayContext :=
  mkContext (services_ c) (serviceMatcher_ c) (metricsStore c) col (sessionsByConnectionId_ c) (alive c).
Definition set_alive (a : gset Z) (c : MoqxRelayContext) : MoqxRelayContext :=
  mkContext (services_ c) (serviceMatcher_ c) (metricsStore c) (statsCollector_ c)
    (sessionsByConnectionId_ c) a.

(** ** Sessions *)

(** The part of [onNewSession] that counts the session. *)
Definition countSession (c : MoqxRelayContext) : MoqxRelayContext :=
  match metricsStore c with
  | None => c
  | Some _ =>
      let col := default (newCollector KMoQ false) (statsCollector_ c) in
      let col := if cBound col then col else performAll (moqActions setExecutor) col in
      set_collector (Some (performAll (moqActions onSessionStart) col)) c
  end.

Definition onNewSession (s : Z) (connectionId : string) (c : MoqxRelayContext) : MoqxRelayContext :=
  let c := if bool_decide (connectionId = EmptyString) then c
           else set_sessionMap (<[connectionId := s]> (sessionsByConnectionId_ c))
                  (registerSession connectionId <$> metricsStore c) c in
  countSession c.

(** [None] when the store fails. *)
Definition onSessionEnd (now : Z * Z) (s : Z) (connectionId : string) (c : MoqxRelayContext) :
    option MoqxRelayContext :=
  c ← (if bool_decide (connectionId = EmptyString) then Some c
       else match sessionsByConnectionId_ c !! connectionId with
            | Some mapped =>
                if bool_decide (mapped ∉ alive c) || (mapped =? s) then
                  match metricsStore c with
                  | None => Some (set_sessionMap (delete connectionId (sessionsByConnectionId_ c)) None c)
                  | Some st =>
                      st ← unregisterSession now connectionId st;
                      Some (set_sessionMap (delete connectionId (sessionsByConnectionId_ c)) (Some st) c)
                  end
                else Some c
            | None => Some c
            end);
  Some (set_collector (performAll (moqActions Stats.onSessionEnd) <$> statsCollector_ c) c).

Definition findSessionByConnectionId (connectionId : string) (c : MoqxRelayContext) : option Z :=
  match sessionsByConnectionId_ c !! connectionId with
  | Some s => if bool_decide (s ∈ alive c) then Some s else None
  | None => None
  end.

(** ** Routing *)

Inductive Verdict := Routed (relay : Relay) | INVALID_AUTHORITY.

(** [None] is the failed [CHECK]. *)
Definition validateAuthority (auth pth : string) (c : MoqxRelayContext) : option Verdict :=
  match smMatch (serviceMatcher_ c) auth pth with
  | None => Some INVALID_AUTHORITY
  | Some name => Routed <$> services_ c !! name
  end.

Section Routes.
Context (sort_perm : ∀ l, sort l ≡ₚ l).
Context (sort_sorted : ∀ l, StronglySorted longer (sort l)).

(** C29: a session is handed to the relay of the service whose rule matches
    its authority and path best, is refused only when no rule of any service
    matches, and the check that the matched service has a relay never fails. *)
Theorem validateAuthority_routes relayOf services store c auth pth :
  newContext relayOf services store = Some c →
  ∃ v, validateAuthority auth pth c = Some v ∧
  match v with
  | Routed relay => ∃ r, r ∈ rulesOf services ∧ ruleMatches r auth pth ∧ relay = relayOf r.1 ∧
      ∀ r', r' ∈ rulesOf services → ruleMatches r' auth pth → rule_ge r r'
  | INVALID_AUTHORITY => ∀ r, r ∈ rulesOf services → ¬ ruleMatches r auth pth
  end.
Proof.
  unfold newContext, validateAuthority. destruct (newServiceMatcher sort services) as [sm|] eqn:Hsm; [|done].
  intros [= <-]. cbn. pose proof (smMatch_best sort sort_perm sort_sorted services sm auth pth Hsm) as Hb.
  destruct (smMatch sm auth pth) as [name|]; [|by eauto]. destruct Hb as (r & Hr & Hm & <- & Hbest).
  assert ((list_to_map ((λ s : string * list MatchEntry, (s.1, relayOf s.1)) <$> services) : gmap string Relay)
    !! r.1 = Some (relayOf r.1)) as ->.
  2:{ exists (Routed (relayOf r.1)). split; [done|]. by exists r. }
  apply list_elem_of_join in Hr as (l & Hr & (s & -> & Hs)%list_elem_of_fmap).
  apply list_elem_of_fmap in Hr as (e & -> & _). cbn. clear -Hs.
  induction Hs as [s services|s s' services _ IH]; cbn; [by rewrite lookup_insert_eq|].
  destruct (decide (s'.1 = s.1)) as [E|E]; [rewrite E, lookup_insert_eq; done|].
  by rewrite lookup_insert_ne.
Qed.

End Routes.

(** ** Runs

    [Other] is any operation on the store that does not register a session. *)

Inductive ContextOp :=
| NewSession (s : Z) (id : string)
| EndSession (now : Z * Z) (s : Z) (id : string)
| Destroyed (s : Z)
| Other (op : StoreOp).

Definition contextStep (op : ContextOp) (c : MoqxRelayContext) : option MoqxRelayContext :=
  match op with
  | NewSession s id => Some (onNewSession s id (set_alive ({[s]} ∪ alive c) c))
  | EndSession now s id => onSessionEnd now s id c
  | Destroyed s => Some (set_alive (alive c ∖ {[s]}) c)
  | Other op =>
      match metricsStore c with
      | None => Some c
      | Some st => st ← storeStep op st; Some (set_sessionMap (sessionsByConnectionId_ c) (Some st) c)
      end
  end.

(** What has happened: the connection of every session that started, the last
    session that started on a connection, and the sessions that ended. *)
Record History := mkHistory {
  started : gmap Z string;
  lastOn : gmap string Z;
  ended : gset Z;
}.

Definition record (op : ContextOp) (h : History) : History :=
  match op with
  | NewSession s id =>
      mkHistory (<[s := id]> (started h))
        (if bool_decide (id = EmptyString) then lastOn h else <[id := s]> (lastOn h)) (ended h)
  | EndSession _ s _ => mkHistory (started h) (lastOn h) ({[s]} ∪ ended h)
  | _ => h
  end.

Definition registers (op : StoreOp) : bool :=
  match op with Sess (Register _) | Sess (Unregister _ _) => true | _ => false end.

(** A session starts once, ends once on its own connection, and is destroyed
    after it ended. *)
Definition admissible (op : ContextOp) (h : History) : Prop :=
  match op with
  | NewSession s _ => started h !! s = None
  | EndSession _ s id => started h !! s = Some id ∧ s ∉ ended h
  | Destroyed s => s ∈ ended h
  | Other op => registers op = false
  end.

Inductive contextRun (c0 : MoqxRelayContext) : MoqxRelayContext → History → Prop :=
| context_start : contextRun c0 c0 (mkHistory ∅ ∅ ∅)
| context_step c h op c' :
    contextRun c0 c h → admissible op h → contextStep op c = Some c' →
    contextRun c0 c' (record op h).

(** ** The store under the context *)

Definition storeOk (st : Store) : Prop := ∀ svc, sbdService st = Some svc → svc_inv svc.

Definition sameSessions (st st' : Store) : Prop :=
  ∀ id, is_Some (sessions_ st' !! id) ↔ is_Some (sessions_ st !! id).

Lemma callEligible_total now id v st :
  storeOk st → ∃ st', callEligible now id v st = Some st' ∧ storeOk st' ∧ sessions_ st' = sessions_ st.
Proof.
  intros Hok. unfold callEligible. destruct (sbdService st) as [svc|] eqn:E; [|by eauto].
  destruct (service_step_ok (SEligible now id v) svc (Hok svc E)) as (svc' & Hs & Hi).
  cbn in Hs. rewrite Hs. eexists. split; [done|]. split; [|done]. by intros ? [= <-].
Qed.

Lemma unregisterSession_total now id st :
  storeOk st → ∃ st', unregisterSession now id st = Some st' ∧ storeOk st' ∧
    sessions_ st' = delete id (sessions_ st).
Proof.
  intros Hok. unfold unregisterSession.
  destruct (callEligible_total now id false st Hok) as (st' & -> & Hok' & Hs).
  eexists. split; [done|]. split; [exact Hok'|]. cbn. by rewrite Hs.
Qed.

Lemma sameSessions_insert st id s f :
  sessions_ st !! id = Some s → sameSessions st (set_sessions (<[id := f s]> (sessions_ st)) st).
Proof.
  intros Hs j. cbn. destruct (decide (j = id)) as [->|]; [|by rewrite lookup_insert_ne].
  rewrite lookup_insert_eq, Hs. by split.
Qed.

Lemma changeSession_same id f st : storeOk st → storeOk (changeSession id f st) ∧ sameSessions st (changeSession id f st).
Proof.
  intros Hok. unfold changeSession. destruct (sessions_ st !! id) as [s|] eqn:E; [|by split].
  split; [exact Hok|]. by apply sameSessions_insert.
Qed.

Lemma changeAndUpdate_total now id f st :
  storeOk st → ∃ st', changeAndUpdate now id f st = Some st' ∧ storeOk st' ∧ sameSessions st st'.
Proof.
  intros Hok. unfold changeAndUpdate. destruct (sessions_ st !! id) as [s|] eqn:E.
  2:{ eexists. split; [done|]. by split. }
  set (st1 := set_sessions _ st). assert (storeOk st1) as Hok1 by exact Hok.
  pose proof (sameSessions_insert st id s f E) as Hsame. fold st1 in Hsame.
  unfold updateSbdEligibility. destruct (sbdService st1); [|by eauto].
  destruct (sessions_ st1 !! id) as [s'|]; [|by eauto].
  destruct (callEligible_total now id (isViewer s') st1 Hok1) as (st2 & -> & Hok2 & Hs2).
  eexists. split; [done|]. split; [done|]. intros j. rewrite Hs2. apply Hsame.
Qed.

Lemma storeStep_total op st :
  registers op = false → storeOk st → ∃ st', storeStep op st = Some st' ∧ storeOk st' ∧ sameSessions st st'.
Proof.
  intros Hr Hok. destruct op as [now m|now|op|op]; cbn in *.
  - eexists. split; [done|]. unfold put. by split.
  - eexists. split; [done|]. by split.
  - destruct op; cbn in *; try done;
      try (eexists; split; [done|]; by apply changeSession_same); by apply changeAndUpdate_total.
  - destruct (sbdService st) as [svc|] eqn:E; [|exists st; by split].
    destruct (service_step_ok op svc (Hok svc E)) as (svc' & -> & Hi).
    eexists. split; [done|]. split; [|done]. by intros ? [= <-].
Qed.

(** ** The invariant *)

Definition gaugeOf (c : MoqxRelayContext) : Z :=
  match statsCollector_ c with Some col => cGauge col moqActiveSessions | None => 0 end.

Record ctx_inv (c : MoqxRelayContext) (h : History) : Prop := {
  ci_map id s : sessionsByConnectionId_ c !! id = Some s ↔ lastOn h !! id = Some s ∧ s ∉ ended h;
  ci_last id s : lastOn h !! id = Some s → id ≠ EmptyString ∧ started h !! s = Some id;
  ci_alive s : is_Some (started h !! s) → s ∉ ended h → s ∈ alive c;
  ci_ended s : s ∈ ended h → is_Some (started h !! s);
  ci_store st : metricsStore c = Some st →
    storeOk st ∧ ∀ id, is_Some (sessions_ st !! id) ↔ is_Some (sessionsByConnectionId_ c !! id);
  ci_none : is_Some (metricsStore c) → statsCollector_ c = None → started h = ∅;
  ci_gauge : is_Some (metricsStore c) →
    gaugeOf c = Z.of_nat (size (started h)) - Z.of_nat (size (ended h));
}.

Lemma newContext_inv relayOf services store c :
  newContext relayOf services store = Some c →
  (∀ st, store = Some st → storeOk st ∧ sessions_ st = ∅) → ctx_inv c (mkHistory ∅ ∅ ∅).
Proof.
  unfold newContext. destruct (newServiceMatcher sort services) as [sm|]; [|done]. intros [= <-] Hst.
  split; cbn.
  - intros id s. rewrite !lookup_empty. naive_solver.
  - intros id s. by rewrite lookup_empty.
  - intros s. rewrite lookup_empty. by intros [].
  - set_solver.
  - intros st E. destruct (Hst st E) as [Hok Hs]. split; [done|]. intros id. by rewrite Hs, !lookup_empty.
  - done.
  - intros _. unfold gaugeOf. cbn. by rewrite map_size_empty, size_empty.
Qed.

(** Counting a session raises the gauge and leaves the rest alone. *)
Lemma countSession_frame c :
  let c' := countSession c in
  sessionsByConnectionId_ c' = sessionsByConnectionId_ c ∧ alive c' = alive c ∧
  metricsStore c' = metricsStore c ∧
  (is_Some (metricsStore c) → is_Some (statsCollector_ c') ∧ gaugeOf c' = gaugeOf c + 1).
Proof.
  unfold countSession. destruct (metricsStore c) as [st|] eqn:E; cbn; [|by rewrite E; split_and!; try done; intros []].
  split_and!; try done. intros _. split; [by eauto|]. unfold gaugeOf. cbn.
  destruct (statsCollector_ c) as [col|]; [|done]. cbn. destruct (cBound col); by destruct col.
Qed.

Lemma onNewSession_inv s id c h :
  ctx_inv c h → started h !! s = None →
  ctx_inv (onNewSession s id (set_alive ({[s]} ∪ alive c) c)) (record (NewSession s id) h).
Proof.
  intros [Hmap Hlast Halive Hended Hstore Hnone Hgauge] Hs. unfold onNewSession.
  set (c1 := if bool_decide _ then _ else _).
  destruct (countSession_frame c1) as (Em & Ea & Est & Hg).
  assert (alive c1 = {[s]} ∪ alive c) as Ha by (subst c1; by case_bool_decide).
  assert (gaugeOf c1 = gaugeOf c) as Hgc by (subst c1; by case_bool_decide).
  assert (is_Some (metricsStore c1) → is_Some (metricsStore c)) as Hsome.
  { subst c1. case_bool_decide; cbn; [done|]. by destruct (metricsStore c). }
  assert (s ∉ ended h) as Hse by (intros [? ?]%Hended; congruence).
  split; rewrite ?Em, ?Ea, ?Est; cbn.
  - intros j t. subst c1. case_bool_decide; cbn; [apply Hmap|].
    destruct (decide (j = id)) as [->|]; [rewrite !lookup_insert_eq; naive_solver|].
    rewrite !lookup_insert_ne by done. apply Hmap.
  - intros j t. case_bool_decide.
    + intros Hj. destruct (Hlast j t Hj) as [? Ht]. split; [done|].
      rewrite lookup_insert_ne; [done|congruence].
    + destruct (decide (j = id)) as [->|]; [rewrite lookup_insert_eq; intros [= <-]; by rewrite lookup_insert_eq|].
      rewrite lookup_insert_ne by done. intros Hj. destruct (Hlast j t Hj) as [? Ht]. split; [done|].
      rewrite lookup_insert_ne; [done|congruence].
  - intros t. rewrite Ha. destruct (decide (t = s)) as [->|]; [set_solver|].
    rewrite lookup_insert_ne by done. intros Ht He. apply elem_of_union_r. auto.
  - intros t Ht. destruct (decide (t = s)) as [->|]; [by rewrite lookup_insert_eq|].
    rewrite lookup_insert_ne by done. auto.
  - intros st. subst c1. case_bool_decide as Hid; cbn; [apply Hstore|].
    destruct (metricsStore c) as [st0|]; [|done]. intros [= <-]. destruct (Hstore st0 eq_refl) as [Hok Hdom].
    unfold registerSession. rewrite bool_decide_eq_false_2 by done. split; [exact Hok|].
    intros j. cbn. destruct (decide (j = id)) as [->|]; [by rewrite !lookup_insert_eq|].
    by rewrite !lookup_insert_ne.
  - intros Hm. destruct (Hg Hm) as [[? Hc] _]. by rewrite Hc.
  - intros Hm. destruct (Hg Hm) as [_ ->]. rewrite Hgc, Hgauge by auto.
    rewrite map_size_insert_None by done. lia.
Qed.

(** What [onSessionEnd] does to the map and the store: the entry goes when it
    names the session that ended. *)
Lemma end_unmaps now s id c h :
  ctx_inv c h → started h !! s = Some id → s ∉ ended h →
  ∃ c', onSessionEnd now s id c = Some c' ∧ alive c' = alive c ∧
    statsCollector_ c' = performAll (moqActions Stats.onSessionEnd) <$> statsCollector_ c ∧
    (is_Some (metricsStore c') ↔ is_Some (metricsStore c)) ∧
    sessionsByConnectionId_ c' =
      (if bool_decide (sessionsByConnectionId_ c !! id = Some s)
       then delete id (sessionsByConnectionId_ c) else sessionsByConnectionId_ c) ∧
    ∀ st', metricsStore c' = Some st' → storeOk st' ∧
      ∀ j, is_Some (sessions_ st' !! j) ↔ is_Some (sessionsByConnectionId_ c' !! j).
Proof.
  intros [Hmap Hlast Halive Hended Hstore Hnone Hgauge] Hs He. unfold onSessionEnd.
  assert (id = EmptyString → sessionsByConnectionId_ c !! id = None) as Hempty.
  { intros ->. destruct (_ !! EmptyString) as [t|] eqn:E; [|done]. apply Hmap in E as [E _].
    by apply Hlast in E as [? _]. }
  case_bool_decide as Hid.
  { rewrite (Hempty Hid). eexists. split; [done|]. cbn. by split_and!. }
  destruct (sessionsByConnectionId_ c !! id) as [t|] eqn:Ht.
  2:{ eexists. split; [done|]. cbn. by split_and!. }
  pose proof (proj1 (Hmap id t) Ht) as [Hl Hte]. destruct (Hlast id t Hl) as [_ Hst].
  rewrite (bool_decide_eq_false_2 (t ∉ alive c)) by (intros Hn; apply Hn, Halive; eauto). cbn [orb].
  destruct (Z.eqb_spec t s) as [->|Hne].
  2:{ rewrite (bool_decide_eq_false_2 (Some t = Some s)) by congruence.
      eexists. split; [done|]. cbn. by split_and!. }
  rewrite (bool_decide_eq_true_2 (Some s = Some s)) by done.
  destruct (metricsStore c) as [st|] eqn:E.
  2:{ eexists. split; [done|]. cbn. by split_and!. }
  destruct (Hstore st eq_refl) as [Hok Hdom].
  destruct (unregisterSession_total now id st Hok) as (st' & -> & Hok' & Hs').
  eexists. split; [done|]. cbn. split_and!; try done. intros ? [= <-]. split; [done|].
  intros j. rewrite Hs'. destruct (decide (j = id)) as [->|]; [by rewrite !lookup_delete_eq|].
  by rewrite !lookup_delete_ne.
Qed.

Lemma onSessionEnd_inv now s id c h :
  ctx_inv c h → started h !! s = Some id → s ∉ ended h →
  ∃ c', onSessionEnd now s id c = Some c' ∧ ctx_inv c' (record (EndSession now s id) h).
Proof.
  intros Hc Hs He. destruct (end_unmaps now s id c h Hc Hs He) as (c' & -> & Ea & Ec & Em & Ex & Hst).
  exists c'. split; [done|]. destruct Hc as [Hmap Hlast Halive Hended Hstore Hnone Hgauge].
  split; rewrite ?Ea; cbn.
  - intros j t. rewrite Ex. case_bool_decide as Hx.
    + destruct (decide (j = id)) as [->|].
      { rewrite lookup_delete_eq. apply Hmap in Hx as [Hx _]. split; [done|]. rewrite Hx. set_solver. }
      rewrite lookup_delete_ne by done. rewrite Hmap. split; [|set_solver].
      intros [Hj Ht]. split; [done|]. apply Hlast in Hj as [_ Hj]. set_solver.
    + rewrite Hmap. split; [|set_solver]. intros [Hj Ht]. split; [done|].
      intros [->%elem_of_singleton|]%elem_of_union; [|done]. apply Hx, Hmap.
      destruct (Hlast j s Hj) as [_ Hj']. rewrite Hs in Hj'. injection Hj' as ->. done.
  - apply Hlast.
  - intros t Ht Hn. apply Halive; [done|set_solver].
  - intros t [->%elem_of_singleton|Ht]%elem_of_union; [by rewrite Hs|auto].
  - exact Hst.
  - intros Hm%Em Hn. rewrite Ec in Hn. apply Hnone; [done|]. by destruct (statsCollector_ c).
  - intros Hm%Em. assert (gaugeOf c' = gaugeOf c - 1) as ->.
    { unfold gaugeOf. rewrite Ec. destruct (statsCollector_ c) as [col|] eqn:E; cbn; [by destruct col|].
      rewrite (Hnone Hm eq_refl), lookup_empty in Hs. done. }
    rewrite (Hgauge Hm), size_union, size_singleton by set_solver. lia.
Qed.

Lemma contextStep_inv op c h :
  ctx_inv c h → admissible op h → ∃ c', contextStep op c = Some c' ∧ ctx_inv c' (record op h).
Proof.
  intros Hc Ha. destruct op as [s id|now s id|s|op]; cbn [contextStep admissible] in *.
  - eexists. split; [done|]. by apply onNewSession_inv.
  - destruct Ha. by apply onSessionEnd_inv.
  - eexists. split; [done|]. destruct Hc. split; try done. cbn. intros t Ht Hn. set_solver.
  - destruct (metricsStore c) as [st|] eqn:E; [|by eauto].
    destruct (ci_store _ _ Hc st E) as [Hok Hdom].
    destruct (storeStep_total op st Ha Hok) as (st' & -> & Hok' & Hsame).
    eexists. split; [done|]. destruct Hc as [Hmap Hlast Halive Hended Hstore Hnone Hgauge].
    split; try done; cbn.
    + intros ? [= <-]. split; [done|]. intros id. rewrite (Hsame id). apply Hdom.
    + intros _. apply Hnone. by rewrite E.
    + intros _. apply Hgauge. by rewrite E.
Qed.

Lemma contextStep_store op c c' :
  contextStep op c = Some c' → is_Some (metricsStore c) → is_Some (metricsStore c').
Proof.
  intros Hst [st Hm]. destruct op as [s id|now s id|s|op]; cbn in Hst.
  - injection Hst as <-. unfold onNewSession.
    rewrite (proj1 (proj2 (proj2 (countSession_frame _)))). case_bool_decide; cbn; by rewrite Hm.
  - unfold onSessionEnd in Hst. rewrite Hm in Hst.
    apply bind_Some in Hst as (c1 & Hc1 & [= <-]). cbn.
    repeat case_match; try (injection Hc1 as <-; by rewrite Hm).
    apply bind_Some in Hc1 as (st' & _ & [= <-]). done.
  - injection Hst as <-. cbn. by rewrite Hm.
  - rewrite Hm in Hst. by apply bind_Some in Hst as (st' & _ & [= <-]).
Qed.

Lemma contextRun_store c0 c h :
  contextRun c0 c h → is_Some (metricsStore c0) → is_Some (metricsStore c).
Proof.
  intros Hrun H0. induction Hrun as [|c h op c' _ IH _ Hst]; [done|]. by eapply contextStep_store.
Qed.

Lemma contextRun_inv c0 c h : ctx_inv c0 (mkHistory ∅ ∅ ∅) → contextRun c0 c h → ctx_inv c h.
Proof.
  intros H0. induction 1 as [|c h op c' _ IH Ha Hst]; [done|].
  destruct (contextStep_inv op c h IH Ha) as (c'' & E & Hc). congruence.
Qed.


End Context_.

Module ContextExamples.
Import MatcherExamples.

#[local] Open Scope string_scope.

Definition store0 : Store := newStore None 10000 250 10000.
Definition relayName (s : string) : string := s.
Definition context0 : MoqxRelayContext (Relay:=string) :=
  default (mkContext ∅ deployed None None ∅ ∅)
    (newContext sortByLength relayName deployment (Some store0)).

Lemma validateAuthority_routes_witness :
  newContext sortByLength relayName deployment (Some store0) = Some context0 ∧
  ∃ v, validateAuthority "a.example.com" "/live/1" context0 = Some v ∧
  match v with
  | Routed relay => ∃ r, r ∈ rulesOf deployment ∧ ruleMatches r "a.example.com" "/live/1" ∧
      relay = relayName r.1 ∧
      ∀ r', r' ∈ rulesOf deployment → ruleMatches r' "a.example.com" "/live/1" → rule_ge r r'
  | INVALID_AUTHORITY => ∀ r, r ∈ rulesOf deployment → ¬ ruleMatches r "a.example.com" "/live/1"
  end.
Proof.
  assert (newContext sortByLength relayName deployment (Some store0) = Some context0) as Hnew
    by (vm_compute; reflexivity).
  split; [exact Hnew|].
  exact (validateAuthority_routes sortByLength sortByLength_perm sortByLength_sorted relayName
           deployment (Some store0) context0 "a.example.com" "/live/1" Hnew).
Defined.

(** Session 2 takes over the connection of session 1, which ends afterwards. *)
Definition ops : list ContextOp :=
  [NewSession 1 "c"; NewSession 2 "c"; EndSession (0, 0) 1 "c"; Destroyed 1].

Definition contextAfter (ops : list ContextOp) : MoqxRelayContext (Relay:=string) :=
  foldl (λ c op, default c (contextStep op c)) context0 ops.
Definition historyAfter (ops : list ContextOp) : History :=
  foldl (λ h op, record op h) (mkHistory ∅ ∅ ∅) ops.

Lemma ops_run : contextRun context0 (contextAfter ops) (historyAfter ops).
Proof.
  apply (context_step _ (contextAfter [NewSession 1 "c"; NewSession 2 "c"; EndSession (0, 0) 1 "c"])
           (historyAfter [NewSession 1 "c"; NewSession 2 "c"; EndSession (0, 0) 1 "c"]) (Destroyed 1));
    [|cbn; set_solver|by vm_compute].
  apply (context_step _ (contextAfter [NewSession 1 "c"; NewSession 2 "c"])
           (historyAfter [NewSession 1 "c"; NewSession 2 "c"]) (EndSession (0, 0) 1 "c"));
    [|cbn; split; [done|set_solver]|by vm_compute].
  apply (context_step _ (contextAfter [NewSession 1 "c"]) (historyAfter [NewSession 1 "c"])
           (NewSession 2 "c")); [|done|by vm_compute].
  apply (context_step _ context0 (mkHistory ∅ ∅ ∅) (NewSession 1 "c")); [constructor|done|by vm_compute].
Qed.


End ContextExamples.
